(* ===== verification/_CoqProject ===== *)
-Q . S2P
Prelude.v
Endian.v
Intset.v
Glob.v
Numstr.v
Siphash.v
Lzf.v
LzfSpec.v
Crc.v
CrcSpec.v
CrcCombine.v
Slot.v
Sds.v
Listpack.v
LpNav.v
LpValid.v
LpMod.v
LpFind.v
LpRange.v
LpApi.v
Skiplist.v
SklRep.v
SklLink.v
SklMod.v
SklDel.v
SklUpd.v
SklRank.v
SklSpec.v
Double.v
Dict.v
DictApi.v
DictRep.v
DictResize.v
DictFind.v
DictOps.v
DictSpec.v
DictLink.v
DictScan.v
DictScanSpec.v
DictIter.v
DictRun.v
DictContract.v
SdsDict.v
SetType.v
SetRep.v
SetSpec.v
SetOps.v
SetApi.v
Object.v
Zzl.v
ZzlRep.v
ZzlMod.v
ZzlSpec.v
Zset.v
ZsetRep.v
ZsetSkl.v
ZsetConv.v
ZsetSpec.v
ZsetApi.v
ZsetContract.v
Keyspace.v
KeyspaceRep.v
SetCmd.v
SetCmdSpec.v
SetMulti.v
SetInter.v
SetUnion.v
SetContract.v
ZsetCmd.v
ZsetRange.v
Zrange.v
ZsetCmdSpec.v
ZsetCmdRefine.v
ZpopSpec.v
ZrangeSpec.v
ZrangeCmd.v
LexAny.v
CmdServer.v
CmdContract.v
ZsetDict.v
