(* ===== verification/Prelude.v ===== *)
(** * Verification of Redis data structures, set commands, compression and checksums

    The repository is a web application (under [src/apps/]) that ships the sources
    of the Redis server, version 8.6.2, under [src/redis-stable/].  This development
    models parts of the server, the C code of [src/redis-stable/src/], and proves
    what makes them correct.  File names below are relative to that directory.

    ** The parts and how they interact

    A sorted set is a set of strings with scores.  Commands ([t_zset.c]) parse their
    arguments ([object.c], [util.c]), look a key up in the database and work on the
    set through a small API.  A small set is a listpack ([listpack.c]), a sequence of
    strings and integers packed into bytes; a larger one is a skiplist ([t_zset.c])
    in the order of scores, with a dictionary ([dict.c]) from elements to nodes, whose
    keys are hashed with SipHash ([siphash.c]).  A set ([t_set.c]) is a sorted array of
    integers of the narrowest width ([intset.c]), stored in little-endian order
    ([endianconv.c]), a listpack, or a dictionary, and it is converted as it grows.
    The server checks the number of arguments of a command ([server.c]) before it
    runs it.  Key patterns are matched by [stringmatchlen] ([util.c]); a cluster
    assigns keys to slots by a CRC-16 ([crc16.c], [cluster.h], [cluster.c]).  Strings
    in dump files are compressed with LZF ([lzf_c.c], [lzf_d.c]) and the files are
    protected by a CRC-64 ([crc64.c], [crcspeed.c], [crccombine.c]).

    ** How the code is modelled

    Functions of C are functions on values: bytes are integers in lists, machine
    integers are [Z] with conversions ([u64], [s32], ...) written where the code
    converts, and doubles are the [spec_float] of the Standard Library.  An access
    outside of an object, a failed assertion, and a loop bound of the model that was
    too small are results [Fault] of the type [res] of this file; theorems show that
    they do not happen.  Code that changes memory takes the memory and returns it: a
    listpack and an intset are their bytes, the skiplist is a heap of nodes with
    pointers, a dictionary is its two tables of chains.  What the code takes from
    outside is a parameter with the laws it relies on, as a type class: the allocator
    ([Allocator], [NodeAlloc]), the text of doubles made by fpconv and read by
    fast_float ([FloatText], [StrtodErrno]), [qsort] ([Qsort]), the byte order of the
    machine ([Arch]), the configuration and the random numbers ([Server], [SetConfig],
    [CrcConfig]); examples instantiate them.

    Loops that are not structural have fuel.  Its bound is in the definition, from
    the size of the data: the bytes of a listpack, the nodes of a heap, the buckets of
    a table, the 7 rounds of [rev], the 32 levels of a skiplist, the bytes of the input
    of LZF and CRC-64, the 64 bits of a length.  The theorems say that
    the function returns, so the bounds are enough.

    ** The files

    - [Prelude]: results, machine integers, bytes, memory, bits; shared lemmas.
    - [Endian]: [endianconv.c], for both byte orders of the host.
    - [Intset]: [intset.c] on bytes, refined to finite sets of integers.
    - [Glob]: [stringmatchlen] and [prefixmatch] of [util.c], equal to a declarative
      matcher.
    - [Numstr]: conversions of integers and strings of [util.c].
    - [Siphash]: [siphash.c].
    - [Lzf] (the functions), [LzfSpec] (tokens, round trip, safety): [lzf_c.c] and
      [lzf_d.c].
    - [Crc] (the functions), [CrcSpec] (linear functions on registers, tables, loops),
      [CrcCombine] (matrices, segments, theorems): CRC-64 of [crc64.c], [crcspeed.c]
      and [crccombine.c].
    - [Slot]: CRC-16 and the slots of keys and of patterns.
    - [Sds]: headers and comparison of strings of [sds.c].
    - [Listpack] (encodings), [LpNav] (traversal), [LpValid] (validation), [LpMod]
      (insertion, deletion), [LpFind] (search), [LpRange] (ranges, batches, merging),
      [LpApi] (the laws that sorted sets use): [listpack.c].
    - [Skiplist] (the functions), [SklRep] (the representation of a sequence),
      [SklLink], [SklMod], [SklDel], [SklUpd], [SklRank] (proofs by operation),
      [SklSpec] (the specifications): the skiplist of [t_zset.c].
    - [Double]: [double2ll], [d2string] of [util.c].
    - [Object]: arguments of commands, [object.c].
    - [Zzl], [ZzlRep], [ZzlMod], [ZzlSpec]: sorted sets in a listpack ([zzl*]).
    - [Zset] (the API of [t_zset.c] for both encodings), [ZsetRep], [ZsetSkl],
      [ZsetConv], [ZsetSpec], [ZsetApi] (proofs), [ZsetContract] (what it promises).
    - [SdsDict] (dictionaries of strings), [SetType] (the functions [setType*] of
      [t_set.c]), [SetRep], [SetSpec], [SetOps], [SetApi] (proofs).
    - [Keyspace] (the database, the effects of commands), [KeyspaceRep] (its
      abstraction).
    - [SetCmd] (the commands on sets), [SetCmdSpec], [SetMulti], [SetInter], [SetUnion]
      (specifications and refinement), [SetContract] (theorems on sets).
    - [ZsetCmd], [Zrange] (the commands), [ZsetRange], [ZsetCmdSpec],
      [ZsetCmdRefine], [ZpopSpec], [ZrangeSpec], [ZrangeCmd] (specifications and
      refinement), [LexAny] (lexicographic ranges of sets whose scores differ).
    - [CmdServer] (the check of arguments, sequences of commands on sorted sets and
      sets, what they may do), [CmdContract] (theorems).
    - [Dict] (tables, rehashing, resizing), [DictApi] (operations on keys),
      [DictScan] (scanning, iterators, statistics): [dict.c]; [DictRep] (invariant),
      [DictResize], [DictFind], [DictOps], [DictSpec], [DictLink],
      [DictScanSpec], [DictIter] (proofs by operation), [DictRun] (sequences of
      operations), [DictContract] (theorems).
    - [ZsetDict]: the dictionary of sorted sets, as an interface and its instance.

    ** What the theorems show

    Claims are numbered in the comments before them.
    - Commands: a sequence of commands on sorted sets and sets does on the bytes, nodes
      and tables what it does on finite maps and finite sets, with the same replies up
      to the sign of a zero score and the order of the elements of a set; the encodings
      make no other difference; every database that is reached is well-formed, and no
      command faults on it; a command that replies an error changes nothing; popping
      drains a sorted set.  The specification shares the parsers of arguments with the
      model.  What a lexicographic range selects from a sorted set whose scores differ
      depends on the encoding and on the levels of the nodes: there the theorems say
      that the command runs to its end and takes elements of the set only.
    - Sets: sequences of operations refine finite sets through all conversions; small
      encodings stay within their limits; the algorithms of SDIFF agree.
    - LZF: what is compressed decompresses to itself, whatever the hash table holds;
      decompression of any bytes stays within its buffers.
    - Checksums: the fast CRC-64 is the one that is computed bit by bit, for all
      alignments, segment sizes and byte orders, and detects changes of up to eight
      bytes in a row; the table of CRC-16 is that of its polynomial; a slot inferred
      from a pattern is the slot of all keys that match.
    - Sorted set API: adding, removing, reading and converting refine finite maps.
    - Dictionaries: sequences of operations refine finite maps while tables are
      rehashed; rehashing ends; a scan misses no key that stays, whatever is resized
      between its calls, and ends; iterators return every entry once; pointers keep
      their types.  The finite map in the model of sorted sets is what [dict.c]
      implements.
    - Skiplists: insertion, deletion, ranges, ranks and score updates refine sorted
      sequences, with spans and backward pointers kept.
    - Listpacks: encodings and their inverses, traversal, insertion, deletion and
      batches refine lists of entries; validation is safe on any bytes, accepts what
      the encoders lay out, and what it accepts can be walked in both directions.
    - Intsets refine finite sets; numbers and byte orders round-trip; the text of a
      double is the one its value calls for and fits its buffer; pattern
      matching is what the patterns mean; the hash that ignores case is that of the
      text in lower case.

    ** Not modelled

    - Of [t_zset.c]: ZUNION, ZINTER, ZDIFF and their variants, ZRANDMEMBER, ZSCAN,
      ZMPOP and the blocking commands, random elements.  Of [t_set.c]: SPOP,
      SRANDMEMBER, SSCAN, random elements.  Of [crcspeed.c]: the 16-bit functions,
      which the server does not call.  Of [listpack.c]: random
      selections and printing.  Of [dict.c]: defragmentation, random selections, the
      fingerprint of iterators, metadata, observing callbacks.  Of [sds.c]: the
      functions that build strings.
    - Memory is not exhausted: [zmalloc] aborts the server then.  Freed memory is
      gone from the model; leaks and the accounting of memory are modelled for
      skiplists only.
    - The rest of the server: the event loop, networking, the files of persistence,
      replication, the rest of the cluster, sentinel, modules, scripting, the other data types, the
      command line tools; and the libraries under [src/redis-stable/deps/].
    - The web application and its scripts, which are not C. *)

From stdpp Require Export base numbers list strings gmap sets sorting.
From Stdlib Require Export ZArith ZifyBool Lia.
Open Scope Z_scope.

(** ** Results of partial C code *)

(** Why a run of the modelled code has no value: an access outside the bytes
    of an object, a failed [assert], or a loop bound of the model that was too
    small.  Theorems show which of them cannot happen. *)
Inductive fault : Set := OutOfBounds | AssertFailed | OutOfFuel.

(** Arguments are explicit so that the type reads [res A]. *)
Inductive res (A : Type) : Type :=
| Ok (a : A)
| Fault (f : fault).
Arguments Ok {A} a.
Arguments Fault {A} f.

#[export] Instance res_ret : MRet res := fun A a => Ok a.
#[export] Instance res_bind : MBind res := fun A B f m =>
  match m with Ok a => f a | Fault e => Fault e end.
#[export] Instance res_fmap : FMap res := fun A B f m =>
  match m with Ok a => Ok (f a) | Fault e => Fault e end.

#[export] Instance fault_eq_dec : EqDecision fault.
Proof. solve_decision. Defined.
#[export] Instance res_eq_dec `{EqDecision A} : EqDecision (res A).
Proof. solve_decision. Defined.

(** [assert(b)]. *)
Definition assert_ (b : bool) : res unit := if b then Ok tt else Fault AssertFailed.

(** [serverAssert(p != NULL)] *)
Definition nonnull {A : Type} (p : option A) : res A :=
  match p with Some p => Ok p | None => Fault AssertFailed end.

Lemma res_bind_Ok {A B} (m : res A) (f : A → res B) b :
  (m ≫= f) = Ok b ↔ ∃ a, m = Ok a ∧ f a = Ok b.
Proof.
  destruct m as [a|e]; simpl; split.
  - by exists a.
  - by intros (? & [= ->] & ?).
  - done.
  - by intros (? & ? & ?).
Qed.

Lemma res_bind_ok_l {A B} (m : res A) (f : A → res B) a :
  m = Ok a → (m ≫= f) = f a.
Proof. by intros ->. Qed.

Lemma assert_true b : b = true → assert_ b = Ok tt.
Proof. by intros ->. Qed.

Lemma assert_Ok b u : assert_ b = Ok u → b = true.
Proof. by destruct b. Qed.

(** Split hypotheses [_ ≫= _ = Ok _] into the steps that produced them. *)
Ltac inv_res :=
  repeat match goal with
  | H : (_ ≫= _) = Ok _ |- _ =>
      apply res_bind_Ok in H; destruct H as (?a & ?Ha & H)
  | H : mret _ = Ok _ |- _ => cbv [mret res_ret] in H
  | H : Ok _ = Ok _ |- _ => injection H as H
  | H : Fault _ = Ok _ |- _ => discriminate H
  | H : assert_ _ = Ok _ |- _ => apply assert_Ok in H
  | H : (_, _) = (_, _) |- _ => injection H as ? ?
  end.

(** Run the binds whose argument is a value. *)
Ltac rs := cbn [mbind res_bind mret res_ret fmap res_fmap].

(** [lia] with division and modulo by constants. *)
Ltac zdiv := Z.to_euclidean_division_equations; lia.

(** ** Lengths and machine integers *)

Abbreviation zlen l := (Z.of_nat (length l)).

(** Value of an unsigned, respectively two's complement signed, integer of
    [w] bits: what a conversion to that C type stores. *)
Definition wrapu (w z : Z) : Z := z mod 2 ^ w.
Definition wraps (w z : Z) : Z := (z + 2 ^ (w - 1)) mod 2 ^ w - 2 ^ (w - 1).

Abbreviation u8 := (wrapu 8).
Abbreviation u16 := (wrapu 16).
Abbreviation u32 := (wrapu 32).
Abbreviation u64 := (wrapu 64).
Abbreviation s32 := (wraps 32).
Abbreviation s64 := (wraps 64).

Abbreviation UINT32_MAX := 4294967295.
Abbreviation INT64_MIN := (-9223372036854775808).
Abbreviation INT64_MAX := 9223372036854775807.
Abbreviation UINT64_MAX := 18446744073709551615.

Definition is_i64 (z : Z) : Prop := INT64_MIN ≤ z ≤ INT64_MAX.
Definition is_u64 (z : Z) : Prop := 0 ≤ z ≤ UINT64_MAX.

Lemma wrapu_small w z : 0 ≤ z < 2 ^ w → wrapu w z = z.
Proof. apply Z.mod_small. Qed.

Lemma wrapu_range w z : 0 ≤ w → 0 ≤ wrapu w z < 2 ^ w.
Proof. intros. apply Z.mod_pos_bound. by apply Z.pow_pos_nonneg. Qed.

Lemma wraps_small w z : 0 < w → - 2 ^ (w - 1) ≤ z < 2 ^ (w - 1) → wraps w z = z.
Proof.
  intros Hw Hz. unfold wraps.
  assert (2 ^ w = 2 * 2 ^ (w - 1)) as E.
  { rewrite <- Z.pow_succ_r by lia. f_equal. lia. }
  rewrite Z.mod_small; lia.
Qed.

Lemma u8_small z : 0 ≤ z ≤ 255 → u8 z = z.
Proof. intros. apply wrapu_small. lia. Qed.
Lemma u16_small z : 0 ≤ z ≤ 65535 → u16 z = z.
Proof. intros. apply wrapu_small. lia. Qed.
Lemma u32_small z : 0 ≤ z ≤ UINT32_MAX → u32 z = z.
Proof. intros. apply wrapu_small. lia. Qed.
Lemma u64_small z : 0 ≤ z ≤ UINT64_MAX → u64 z = z.
Proof. intros. apply wrapu_small. lia. Qed.
Lemma s32_small z : -2147483648 ≤ z ≤ 2147483647 → s32 z = z.
Proof. intros. apply wraps_small; [lia|]. change (2 ^ (32 - 1)) with 2147483648. lia. Qed.
Lemma s64_small z : INT64_MIN ≤ z ≤ INT64_MAX → s64 z = z.
Proof. intros. apply wraps_small; [lia|]. change (2 ^ (64 - 1)) with 9223372036854775808. lia. Qed.

(** The characters of a literal, for the strings of the source *)
Fixpoint chars (s : string) : list Z :=
  match s with
  | EmptyString => []
  | String a s => Z.of_N (Ascii.N_of_ascii a) :: chars s
  end.
Arguments chars s%_string_scope.

(** ** Bytes in little-endian order *)

Definition is_byte (b : Z) : Prop := 0 ≤ b < 256.
#[export] Instance is_byte_dec b : Decision (is_byte b).
Proof. unfold is_byte. apply _. Defined.

Fixpoint le_bytes (n : nat) (z : Z) : list Z :=
  match n with
  | O => []
  | S n => z mod 256 :: le_bytes n (z / 256)
  end.

Fixpoint le_val (l : list Z) : Z :=
  match l with
  | [] => 0
  | b :: l => b + 256 * le_val l
  end.

Lemma land_255 a : Z.land a 255 = a mod 256.
Proof. exact (Z.land_ones a 8 ltac:(lia)). Qed.

Lemma length_le_bytes n z : length (le_bytes n z) = n.
Proof. revert z. induction n; intros; simpl; f_equal; auto. Qed.

Lemma le_bytes_byte n z : Forall is_byte (le_bytes n z).
Proof.
  revert z. induction n; intros; simpl; constructor; auto.
  apply Z.mod_pos_bound. lia.
Qed.

Lemma pow256_pos n : 0 < 256 ^ Z.of_nat n.
Proof. apply Z.pow_pos_nonneg; lia. Qed.

Lemma pow256_S n : 256 ^ Z.of_nat (S n) = 256 * 256 ^ Z.of_nat n.
Proof. rewrite Nat2Z.inj_succ, Z.pow_succ_r; lia. Qed.

Lemma le_val_bytes n z : le_val (le_bytes n z) = z mod 256 ^ Z.of_nat n.
Proof.
  revert z. induction n as [|n IH]; intros z; cbn [le_bytes le_val].
  - by rewrite Z.mod_1_r.
  - rewrite IH, pow256_S. pose proof (pow256_pos n).
    rewrite (Z.rem_mul_r z 256 (256 ^ Z.of_nat n)); lia.
Qed.

Lemma le_val_range l : Forall is_byte l → 0 ≤ le_val l < 256 ^ zlen l.
Proof.
  induction 1 as [|b l Hb _ IH]; cbn [le_val length]; [lia|].
  rewrite pow256_S. unfold is_byte in Hb. lia.
Qed.

Lemma le_bytes_val l : Forall is_byte l → le_bytes (length l) (le_val l) = l.
Proof.
  induction 1 as [|b l Hb _ IH]; cbn [le_val length le_bytes]; [done|].
  unfold is_byte in Hb. f_equal.
  - rewrite (Z.mul_comm 256), Z.mod_add by lia. by apply Z.mod_small.
  - rewrite (Z.mul_comm 256), Z.div_add, Z.div_small, Z.add_0_l by lia. done.
Qed.

Lemma le_bytes_mod n z z' :
  z mod 256 ^ Z.of_nat n = z' mod 256 ^ Z.of_nat n → le_bytes n z = le_bytes n z'.
Proof.
  intros E. rewrite <- !le_val_bytes in E.
  assert (∀ a, le_bytes n a = le_bytes n (le_val (le_bytes n a))) as L.
  { intros a. rewrite <- (length_le_bytes n a) at 2. symmetry. apply le_bytes_val, le_bytes_byte. }
  by rewrite (L z), (L z'), E.
Qed.

Lemma wraps_mod w z : 0 < w → wraps w z mod 2 ^ w = z mod 2 ^ w.
Proof.
  intros. unfold wraps. rewrite Zminus_mod_idemp_l. f_equal. lia.
Qed.

Lemma wraps_range w z : 0 < w → - 2 ^ (w - 1) ≤ wraps w z < 2 ^ (w - 1).
Proof.
  intros Hw. unfold wraps. pose proof (Z.mod_pos_bound (z + 2 ^ (w - 1)) (2 ^ w)).
  assert (2 ^ w = 2 * 2 ^ (w - 1)).
  { rewrite <- Z.pow_succ_r by lia. f_equal. lia. }
  assert (0 < 2 ^ (w - 1)) by (apply Z.pow_pos_nonneg; lia). lia.
Qed.

(** ** Byte buffers *)

(** Reads and writes of [n] bytes at offset [off] of an object whose bytes are
    [m]; anything outside the object is a fault. *)
Definition mem_read (m : list Z) (off n : Z) : res (list Z) :=
  if (0 <=? off) && (0 <=? n) && (off + n <=? zlen m)
  then Ok (take (Z.to_nat n) (drop (Z.to_nat off) m))
  else Fault OutOfBounds.

Definition mem_write (m : list Z) (off : Z) (d : list Z) : res (list Z) :=
  if (0 <=? off) && (off + zlen d <=? zlen m)
  then Ok (take (Z.to_nat off) m ++ d ++ drop (Z.to_nat off + length d) m)
  else Fault OutOfBounds.

(** [m[off]] *)
Definition mem_get (m : list Z) (off : Z) : res Z :=
  if 0 <=? off
  then match m !! Z.to_nat off with Some b => Ok b | None => Fault OutOfBounds end
  else Fault OutOfBounds.

(** [memmove(m+dst, m+src, n)] *)
Definition memmove (m : list Z) (dst src n : Z) : res (list Z) :=
  d ← mem_read m src n; mem_write m dst d.

(** [realloc(m, n)].  The bytes past the old end have no specified value; the
    model takes them from [junk], and the theorems hold for every [junk]. *)
Definition mem_realloc (junk : nat → Z) (m : list Z) (n : Z) : list Z :=
  take (Z.to_nat n) m ++
  (junk <$> seq (length m) (Z.to_nat n - length m)).

(** [zmalloc]: an allocation of [n] bytes has [usable n] of them, and bytes that
    were not written have the values [junk].  Running out of memory aborts. *)
Class Allocator := {
  usable : Z -> Z;
  junk : nat -> Z;
  usable_ge : forall n, n <= usable n
}.

Lemma length_mem_realloc junk m n :
  0 ≤ n → zlen (mem_realloc junk m n) = n.
Proof.
  intros. unfold mem_realloc.
  rewrite length_app, length_take, length_fmap, length_seq. lia.
Qed.

Lemma mem_realloc_grow junk m n :
  zlen m ≤ n → ∃ ext, mem_realloc junk m n = m ++ ext ∧ zlen ext = n - zlen m.
Proof.
  intros. eexists. split.
  - unfold mem_realloc. by rewrite take_ge by lia.
  - rewrite length_fmap, length_seq. lia.
Qed.

Lemma mem_realloc_shrink junk m n :
  0 ≤ n ≤ zlen m → mem_realloc junk m n = take (Z.to_nat n) m.
Proof.
  intros. unfold mem_realloc.
  replace (Z.to_nat n - length m)%nat with O by lia. simpl. by rewrite app_nil_r.
Qed.

Lemma mem_read_app l d r off n :
  off = zlen l → n = zlen d → mem_read (l ++ d ++ r) off n = Ok d.
Proof.
  intros -> ->. unfold mem_read. rewrite !length_app.
  destruct (_ && _) eqn:E; [|lia].
  rewrite !Nat2Z.id, drop_app_length, take_app_length. done.
Qed.

Lemma mem_write_app l d d' r off :
  off = zlen l → length d = length d' →
  mem_write (l ++ d ++ r) off d' = Ok (l ++ d' ++ r).
Proof.
  intros -> Hd. unfold mem_write. rewrite !length_app.
  destruct (_ && _) eqn:E; [|lia].
  rewrite !Nat2Z.id, take_app_length, <- Hd.
  rewrite <- length_app, (assoc_L (++) l d r), drop_app_length. done.
Qed.

Lemma mem_get_app l b r off :
  off = zlen l → mem_get (l ++ b :: r) off = Ok b.
Proof.
  intros ->. unfold mem_get. destruct (0 <=? _) eqn:E; [|lia].
  by rewrite Nat2Z.id, lookup_app_r, Nat.sub_diag by lia.
Qed.

Lemma mem_get_lookup m off b :
  0 ≤ off → m !! Z.to_nat off = Some b → mem_get m off = Ok b.
Proof. intros ? E. unfold mem_get. destruct (0 <=? off) eqn:?; [|lia]. by rewrite E. Qed.

Lemma mem_write_length m off d m' :
  mem_write m off d = Ok m' → length m' = length m.
Proof.
  unfold mem_write. intros H. destruct (_ && _) eqn:E; inv_res. subst m'.
  rewrite !length_app, length_take, length_drop. lia.
Qed.

Lemma mem_write_ok m off d :
  0 ≤ off → off + zlen d ≤ zlen m →
  mem_write m off d = Ok (take (Z.to_nat off) m ++ d ++ drop (Z.to_nat off + length d) m).
Proof. intros. unfold mem_write. destruct (_ && _) eqn:E; [done|lia]. Qed.

Lemma mem_read_ok m off n :
  0 ≤ off → 0 ≤ n → off + n ≤ zlen m →
  mem_read m off n = Ok (take (Z.to_nat n) (drop (Z.to_nat off) m)).
Proof. intros. unfold mem_read. destruct (_ && _) eqn:E; [done|lia]. Qed.

(** Any in-range write splits the buffer into the part before, the bytes that
    are overwritten, and the part after. *)
Lemma buffer_split (m : list Z) off n :
  0 ≤ off → 0 ≤ n → off + n ≤ zlen m →
  ∃ l d r, m = l ++ d ++ r ∧ zlen l = off ∧ zlen d = n.
Proof.
  intros. exists (take (Z.to_nat off) m),
    (take (Z.to_nat n) (drop (Z.to_nat off) m)), (drop (Z.to_nat n) (drop (Z.to_nat off) m)).
  rewrite take_drop, take_drop. split; [done|].
  rewrite !length_take, !length_drop. lia.
Qed.

(** Opening a gap: the block [d] moves right over the free bytes [gap]. *)
Lemma memmove_right l d gap r dst src n :
  dst = zlen l + zlen gap → src = zlen l → n = zlen d →
  ∃ gap', memmove (l ++ d ++ gap ++ r) dst src n = Ok (l ++ gap' ++ d ++ r) ∧
          length gap' = length gap.
Proof.
  intros -> -> ->. unfold memmove. rewrite (mem_read_app l d) by done. rs.
  exists (take (length gap) (d ++ gap)).
  assert (length (take (length gap) (d ++ gap)) = length gap) as E.
  { rewrite length_take, length_app. lia. }
  split; [|done].
  rewrite (assoc_L (++) d), <- (take_drop (length gap) (d ++ gap)) at 1.
  rewrite <- (assoc_L (++) (take _ _)), (assoc_L (++) l).
  rewrite mem_write_app; [by rewrite <- (assoc_L (++))|rewrite length_app; lia|].
  rewrite length_drop, length_app. lia.
Qed.

(** Closing a gap: the block [d] moves left over [gap]. *)
Lemma memmove_left l gap d r dst src n :
  dst = zlen l → src = zlen l + zlen gap → n = zlen d →
  ∃ gap', memmove (l ++ gap ++ d ++ r) dst src n = Ok (l ++ d ++ gap' ++ r) ∧
          length gap' = length gap.
Proof.
  intros -> -> ->. unfold memmove.
  rewrite (assoc_L (++) l gap), (mem_read_app (l ++ gap) d)
    by (rewrite ?length_app; lia). rs.
  exists (drop (length d) (gap ++ d)). split.
  - rewrite <- (assoc_L (++) l), (assoc_L (++) gap).
    rewrite <- (take_drop (length d) (gap ++ d)) at 1.
    rewrite <- (assoc_L (++) (take _ _)).
    apply mem_write_app; [done|]. rewrite length_take, length_app. lia.
  - rewrite length_drop, length_app. lia.
Qed.

(** ** Bits *)

Lemma lor_shiftl_add a b n : 0 <= n -> 0 <= b < 2 ^ n -> Z.lor (Z.shiftl a n) b = a * 2 ^ n + b.
Proof.
  intros Hn Hb. rewrite <- Z.shiftl_mul_pow2 by done.
  assert (Z.land (Z.shiftl a n) b = 0) as H0.
  { apply Z.bits_inj'. intros i Hi. rewrite Z.land_spec, Z.bits_0.
    destruct (Z.lt_ge_cases i n); [by rewrite Z.shiftl_spec_low by done|].
    rewrite <- (Z.mod_small b (2 ^ n)) by done.
    rewrite Z.mod_pow2_bits_high by lia. apply andb_false_r. }
  by rewrite Z.add_nocarry_lxor, Z.lxor_lor.
Qed.

Lemma lor_add_shiftl x k y : 0 <= k -> 0 <= x < 2 ^ k -> Z.lor x (Z.shiftl y k) = x + y * 2 ^ k.
Proof. intros. rewrite Z.lor_comm, lor_shiftl_add by lia. lia. Qed.

Lemma testbit_high v i : 0 ≤ v ≤ UINT64_MAX → 64 ≤ i → Z.testbit v i = false.
Proof.
  intros Hv Hi. destruct (decide (v = 0)) as [->|]; [apply Z.testbit_0_l|].
  apply Z.bits_above_log2; [lia|]. assert (Z.log2 v ≤ Z.log2 UINT64_MAX) by (apply Z.log2_le_mono; lia).
  change (Z.log2 UINT64_MAX) with 63 in *. lia.
Qed.

Lemma testbit_ext v w : 0 ≤ v ≤ UINT64_MAX → 0 ≤ w ≤ UINT64_MAX →
  (∀ i, 0 ≤ i < 64 → Z.testbit v i = Z.testbit w i) → v = w.
Proof.
  intros Hv Hw E. apply Z.bits_inj'. intros i Hi. destruct (decide (i < 64)); [by apply E|].
  by rewrite !testbit_high by lia.
Qed.

Lemma bits_range v : 0 ≤ v → (∀ i, 64 ≤ i → Z.testbit v i = false) → 0 ≤ v ≤ UINT64_MAX.
Proof.
  intros H0 E. destruct (decide (v ≤ UINT64_MAX)); [lia|].
  assert (64 ≤ Z.log2 v) as L by (apply Z.log2_le_pow2; lia).
  specialize (E (Z.log2 v) L). rewrite Z.bit_log2 in E by lia. done.
Qed.

Lemma lxor_u64 v w : is_u64 v → is_u64 w → is_u64 (Z.lxor v w).
Proof.
  unfold is_u64. intros. apply bits_range; [apply Z.lxor_nonneg; lia|]. intros i Hi. by rewrite Z.lxor_spec, !testbit_high by lia.
Qed.

Lemma lor_u64 v w : is_u64 v → is_u64 w → is_u64 (Z.lor v w).
Proof.
  unfold is_u64. intros. apply bits_range; [apply Z.lor_nonneg; lia|]. intros i Hi. by rewrite Z.lor_spec, !testbit_high by lia.
Qed.

Lemma u64_range v : is_u64 (u64 v).
Proof. unfold is_u64. pose proof (wrapu_range 64 v). lia. Qed.

(** ** Prefixes *)

(** The first element, if any, fails the test. *)
Definition head_fails {A} (P : A → bool) (l : list A) : Prop := ∀ x, head l = Some x → P x = false.

(** The longest prefix whose elements pass a test *)
Lemma prefix_split {A} (P : A → bool) (l : list A) :
  ∃ ds es, l = ds ++ es ∧ Forall (λ x, P x = true) ds ∧ head_fails P es.
Proof.
  induction l as [|x l (ds & es & -> & Hd & He)]; [by exists [], []|]. destruct (P x) eqn:E.
  - exists (x :: ds), es. split; [done|]. split; [by constructor|done].
  - exists [], (x :: ds ++ es). split; [done|]. split; [constructor|]. by intros y [= <-].
Qed.

Lemma head_fails_all {A} (P : A → bool) (l : list A) : Forall (λ x, P x = false) l → head_fails P l.
Proof. intros Hl x Hx. destruct l as [|y l]; [done|]. injection Hx as <-. by apply Forall_cons in Hl as [? _]. Qed.

Lemma head_fails_cons {A} (P : A → bool) x (l : list A) : head_fails P (x :: l) → P x = false.
Proof. intros Hh. by apply Hh. Qed.

(** ** Filters *)

Lemma filter_Forall_true {A} (P : A → Prop) `{∀ x, Decision (P x)} l : Forall P l → filter P l = l.
Proof. induction 1 as [|x l Hx _ IH]; [done|]. by rewrite filter_cons_True, IH. Qed.

Lemma filter_Forall_false {A} (P : A → Prop) `{∀ x, Decision (P x)} l :
  Forall (λ x, ¬ P x) l → filter P l = [].
Proof. induction 1 as [|x l Hx _ IH]; [done|]. by rewrite filter_cons_False. Qed.
