(* ===== verification/Endian.v ===== *)
(** Byte order: [endianconv.c] and [endianconv.h].

    [Arch] is the byte order the code is compiled for.  Integer objects have a
    native representation that depends on it; the conversion functions of the
    source are modelled on that representation, and the theorems show that what
    Redis stores through them is the same on both kinds of machine. *)

From S2P Require Import Prelude.

(** [BYTE_ORDER] of the host. *)
Class Arch := { big_endian : bool }.

Section endian.
Context `{Arch}.

(** The bytes of an [n]-byte integer object holding [v], and the unsigned and
    the signed value of such an object. *)
Definition native_store (n : nat) (v : Z) : list Z :=
  if big_endian then rev (le_bytes n v) else le_bytes n v.
Definition native_load (l : list Z) : Z :=
  le_val (if big_endian then rev l else l).
Definition native_load_s (l : list Z) : Z :=
  wraps (8 * zlen l) (native_load l).

Definition memrev16 (x : list Z) : list Z :=
  match x with
  | [x0; x1] => [x1; x0]
  | _ => x
  end.

Definition memrev32 (x : list Z) : list Z :=
  match x with
  | [x0; x1; x2; x3] => [x3; x2; x1; x0]
  | _ => x
  end.

Definition memrev64 (x : list Z) : list Z :=
  match x with
  | [x0; x1; x2; x3; x4; x5; x6; x7] => [x7; x6; x5; x4; x3; x2; x1; x0]
  | _ => x
  end.

Definition intrev16 (v : Z) : Z := native_load (memrev16 (native_store 2 v)).
Definition intrev32 (v : Z) : Z := native_load (memrev32 (native_store 4 v)).
Definition intrev64 (v : Z) : Z := native_load (memrev64 (native_store 8 v)).

Definition memrev16ifbe (x : list Z) : list Z := if big_endian then memrev16 x else x.
Definition memrev32ifbe (x : list Z) : list Z := if big_endian then memrev32 x else x.
Definition memrev64ifbe (x : list Z) : list Z := if big_endian then memrev64 x else x.
Definition intrev16ifbe (v : Z) : Z := if big_endian then intrev16 v else v.
Definition intrev32ifbe (v : Z) : Z := if big_endian then intrev32 v else v.
Definition intrev64ifbe (v : Z) : Z := if big_endian then intrev64 v else v.

Definition htonu64 (v : Z) : Z := if big_endian then v else intrev64 v.
Definition ntohu64 (v : Z) : Z := if big_endian then v else intrev64 v.

(** The swaps reverse the bytes of an object of their size. *)
Lemma memrev16_rev x : length x = 2%nat → memrev16 x = rev x.
Proof. by destruct x as [|? [|? [|]]]. Qed.

Lemma memrev32_rev x : length x = 4%nat → memrev32 x = rev x.
Proof. by destruct x as [|? [|? [|? [|? [|]]]]]. Qed.

Lemma memrev64_rev x : length x = 8%nat → memrev64 x = rev x.
Proof. by destruct x as [|? [|? [|? [|? [|? [|? [|? [|? [|]]]]]]]]]. Qed.

Lemma length_native_store n v : length (native_store n v) = n.
Proof.
  unfold native_store. destruct big_endian; rewrite ?length_rev; apply length_le_bytes.
Qed.

Lemma length_memrev16ifbe x : length (memrev16ifbe x) = length x.
Proof. unfold memrev16ifbe. destruct big_endian; by destruct x as [|? [|? [|]]]. Qed.

Lemma length_memrev32ifbe x : length (memrev32ifbe x) = length x.
Proof. unfold memrev32ifbe. destruct big_endian; by destruct x as [|? [|? [|? [|? [|]]]]]. Qed.

Lemma length_memrev64ifbe x : length (memrev64ifbe x) = length x.
Proof.
  unfold memrev64ifbe.
  destruct big_endian; by destruct x as [|? [|? [|? [|? [|? [|? [|? [|? [|]]]]]]]]].
Qed.

(** Whatever the host, a value stored and then converted lies in memory in
    little-endian order, and reads back from there. *)
Lemma store16_le v : memrev16ifbe (native_store 2 v) = le_bytes 2 v.
Proof. unfold memrev16ifbe, native_store. by destruct big_endian. Qed.

Lemma store32_le v : memrev32ifbe (native_store 4 v) = le_bytes 4 v.
Proof. unfold memrev32ifbe, native_store. by destruct big_endian. Qed.

Lemma store64_le v : memrev64ifbe (native_store 8 v) = le_bytes 8 v.
Proof. unfold memrev64ifbe, native_store. by destruct big_endian. Qed.

Lemma load16_le x : length x = 2%nat → native_load (memrev16ifbe x) = le_val x.
Proof.
  intros Hx. unfold memrev16ifbe, native_load. destruct big_endian; [|done].
  by rewrite memrev16_rev, rev_involutive.
Qed.

Lemma load32_le x : length x = 4%nat → native_load (memrev32ifbe x) = le_val x.
Proof.
  intros Hx. unfold memrev32ifbe, native_load. destruct big_endian; [|done].
  by rewrite memrev32_rev, rev_involutive.
Qed.

Lemma load64_le x : length x = 8%nat → native_load (memrev64ifbe x) = le_val x.
Proof.
  intros Hx. unfold memrev64ifbe, native_load. destruct big_endian; [|done].
  by rewrite memrev64_rev, rev_involutive.
Qed.

Lemma native_load_store n v : native_load (native_store n v) = v mod 256 ^ Z.of_nat n.
Proof.
  unfold native_load, native_store.
  destruct big_endian; rewrite ?rev_involutive; apply le_val_bytes.
Qed.

Lemma native_store_load x :
  Forall is_byte x → native_store (length x) (native_load x) = x.
Proof.
  intros Hx. unfold native_load, native_store. destruct big_endian.
  - rewrite <- (length_rev x), le_bytes_val, rev_involutive; [done|].
    by apply Forall_rev.
  - by apply le_bytes_val.
Qed.

Lemma native_store_byte n v : Forall is_byte (native_store n v).
Proof.
  unfold native_store. destruct big_endian; [apply Forall_rev|]; apply le_bytes_byte.
Qed.

Lemma native_load_range x : Forall is_byte x → 0 ≤ native_load x < 256 ^ zlen x.
Proof.
  intros Hx. unfold native_load. destruct big_endian; [|by apply le_val_range].
  rewrite <- length_rev. by apply le_val_range, Forall_rev.
Qed.

Lemma native_load32_range x :
  Forall is_byte x → length x = 4%nat → 0 ≤ native_load x < 2 ^ 32.
Proof. intros Hx Hl. apply native_load_range in Hx. by rewrite Hl in Hx. Qed.

Lemma swap_range n mr v :
  (∀ x, length x = n → mr x = rev x) →
  0 ≤ native_load (mr (native_store n v)) < 256 ^ Z.of_nat n.
Proof.
  intros Hmr. rewrite Hmr by apply length_native_store.
  rewrite <- (length_native_store n v) at 3. rewrite <- length_rev.
  apply native_load_range, Forall_rev, native_store_byte.
Qed.

(** Swapping twice is the identity, for a swap of any size. *)
Lemma swap_invol n mr v :
  (∀ x, length x = n → mr x = rev x) → 0 ≤ v < 256 ^ Z.of_nat n →
  native_load (mr (native_store n (native_load (mr (native_store n v))))) = v.
Proof.
  intros Hmr Hv. pose proof (length_native_store n v) as L.
  rewrite (Hmr (native_store n v)) by done.
  replace n with (length (rev (native_store n v))) at 1 by by rewrite length_rev.
  rewrite native_store_load by apply Forall_rev, native_store_byte.
  rewrite Hmr by by rewrite length_rev.
  rewrite rev_involutive, native_load_store. by apply Z.mod_small.
Qed.

Lemma intrev32_invol v : 0 ≤ v < 2 ^ 32 → intrev32 (intrev32 v) = v.
Proof. intros. apply (swap_invol 4 memrev32); [apply memrev32_rev|done]. Qed.

Lemma intrev32ifbe_invol v : 0 ≤ v < 2 ^ 32 → intrev32ifbe (intrev32ifbe v) = v.
Proof. unfold intrev32ifbe. destruct big_endian; [apply intrev32_invol|done]. Qed.

Lemma intrev32ifbe_range v : 0 ≤ v < 2 ^ 32 → 0 ≤ intrev32ifbe v < 2 ^ 32.
Proof.
  unfold intrev32ifbe. destruct big_endian; [|done]. intros _.
  apply (swap_range 4 memrev32), memrev32_rev.
Qed.

(** A header field written as [intrev32ifbe(v)] has little-endian bytes. *)
Lemma field32_le v : 0 ≤ v < 2 ^ 32 → native_store 4 (intrev32ifbe v) = le_bytes 4 v.
Proof.
  intros Hv. unfold intrev32ifbe, intrev32. destruct big_endian eqn:E; [|by unfold native_store; rewrite E].
  assert (native_store 4 v = rev (le_bytes 4 v)) as E1 by (unfold native_store; by rewrite E).
  rewrite memrev32_rev by apply length_native_store.
  rewrite E1, rev_involutive.
  replace 4%nat with (length (le_bytes 4 v)) at 1 by apply length_le_bytes.
  apply native_store_load, le_bytes_byte.
Qed.

(** The big-endian bytes that [htonu64] puts in memory. *)
Lemma htonu64_store v : native_store 8 (htonu64 v) = rev (le_bytes 8 v).
Proof.
  unfold htonu64, intrev64. destruct big_endian eqn:E; [by unfold native_store; rewrite E|].
  assert (native_store 8 v = le_bytes 8 v) as E1 by (unfold native_store; by rewrite E).
  rewrite memrev64_rev by apply length_native_store. rewrite E1.
  replace 8%nat with (length (rev (le_bytes 8 v))) at 1 by by rewrite length_rev, length_le_bytes.
  apply native_store_load, Forall_rev, le_bytes_byte.
Qed.

End endian.

(** ** Properties *)

(** [htonu64] puts a 64-bit value in memory in big-endian order on every
    host, and [ntohu64] of what is read back is the value: keys built from it
    (stream ids, sampled keys) compare and travel the same everywhere. *)
Theorem htonu64_roundtrip `{Arch} v :
  is_u64 v →
  native_store 8 (htonu64 v) = rev (le_bytes 8 v) ∧
  ntohu64 (native_load (native_store 8 (htonu64 v))) = v.
Proof.
  intros Hv. split; [apply htonu64_store|]. unfold is_u64 in Hv.
  rewrite native_load_store. unfold htonu64, ntohu64.
  destruct big_endian; [apply Z.mod_small; change (256 ^ _) with (2 ^ 64); lia|].
  rewrite Z.mod_small by apply (swap_range 8 memrev64), memrev64_rev.
  apply (swap_invol 8 memrev64); [apply memrev64_rev|]. change (256 ^ _) with (2 ^ 64). lia.
Qed.

Lemma htonu64_roundtrip_witness :
  is_u64 258 ∧
  @ntohu64 {| big_endian := false |}
    (@native_load {| big_endian := false |}
       (@native_store {| big_endian := false |} 8 (@htonu64 {| big_endian := false |} 258))) = 258.
Proof.
  split; [done|]. apply (@htonu64_roundtrip {| big_endian := false |} 258). done.
Defined.
