(* ===== verification/Intset.v ===== *)
(** Sets of integers as sorted arrays: [intset.c].

    An intset is a header (encoding, number of elements) followed by an array
    of 16, 32 or 64-bit integers in ascending order.  The array is modelled as
    the bytes of the allocation, and every access to it goes through the
    bounds-checked reads and writes of [Prelude].  [intset_rep I xs] relates an
    intset to the strictly sorted list it holds; the operations are shown to
    refine those of finite sets of integers. *)

From S2P Require Import Prelude Endian.

Record intset := mk_intset {
  encoding : Z;        (* uint32_t, in file byte order *)
  is_length : Z;       (* uint32_t, in file byte order *)
  contents : list Z    (* int8_t contents[] *)
}.

Abbreviation INTSET_ENC_INT16 := 2.
Abbreviation INTSET_ENC_INT32 := 4.
Abbreviation INTSET_ENC_INT64 := 8.
(** [sizeof(intset)] *)
Abbreviation INTSET_HDR := 8.

Section intset.
Context `{Arch}.

Definition _intsetValueEncoding (v : Z) : Z :=
  if (v <? -2147483648) || (v >? 2147483647) then INTSET_ENC_INT64
  else if (v <? -32768) || (v >? 32767) then INTSET_ENC_INT32
  else INTSET_ENC_INT16.

Definition _intsetGetEncoded (I : intset) (pos enc : Z) : res Z :=
  if enc =? INTSET_ENC_INT64 then
    v64 ← mem_read (contents I) (8 * pos) 8;
    Ok (native_load_s (memrev64ifbe v64))
  else if enc =? INTSET_ENC_INT32 then
    v32 ← mem_read (contents I) (4 * pos) 4;
    Ok (native_load_s (memrev32ifbe v32))
  else
    v16 ← mem_read (contents I) (2 * pos) 2;
    Ok (native_load_s (memrev16ifbe v16)).

Definition _intsetGet (I : intset) (pos : Z) : res Z :=
  _intsetGetEncoded I pos (u8 (intrev32ifbe (encoding I))).

(** The assignment and the conversion in place that follows it are one write
    of the converted bytes. *)
Definition _intsetSet (I : intset) (pos value : Z) : res intset :=
  let enc := intrev32ifbe (encoding I) in
  c ← (if enc =? INTSET_ENC_INT64 then
         mem_write (contents I) (8 * pos) (memrev64ifbe (native_store 8 value))
       else if enc =? INTSET_ENC_INT32 then
         mem_write (contents I) (4 * pos) (memrev32ifbe (native_store 4 value))
       else
         mem_write (contents I) (2 * pos) (memrev16ifbe (native_store 2 value)));
  Ok (mk_intset (encoding I) (is_length I) c).

Definition intsetNew : intset := mk_intset (intrev32ifbe INTSET_ENC_INT16) 0 [].

Definition intsetAllocSize (I : intset) : res Z :=
  let size := u64 (intrev32ifbe (is_length I) * intrev32ifbe (encoding I)) in
  _ ← assert_ (size <=? UINT64_MAX - INTSET_HDR);
  Ok (INTSET_HDR + size).

Definition intsetResize (junk : nat → Z) (I : intset) (len : Z) : res intset :=
  let size := u64 (len * intrev32ifbe (encoding I)) in
  _ ← assert_ (size <=? UINT64_MAX - INTSET_HDR);
  Ok (mk_intset (encoding I) (is_length I) (mem_realloc junk (contents I) size)).

(** The [while] loop of [intsetSearch]; it returns [min], [mid] and [cur]. *)
Fixpoint intsetSearch_loop (fuel : nat) (I : intset) (value min max mid cur : Z)
    : res (Z * Z * Z) :=
  match fuel with
  | O => Fault OutOfFuel
  | S fuel =>
      if max >=? min then
        let mid := s32 (Z.shiftr (u32 (u32 min + u32 max)) 1) in
        cur ← _intsetGet I mid;
        if value >? cur then intsetSearch_loop fuel I value (mid + 1) max mid cur
        else if value <? cur then intsetSearch_loop fuel I value min (mid - 1) mid cur
        else Ok (min, mid, cur)
      else Ok (min, mid, cur)
  end.

(** The result and [*pos].  The bound of the loop is the number of elements
    plus one: each turn shrinks [max - min]. *)
Definition intsetSearch (I : intset) (value : Z) : res (bool * Z) :=
  let len := intrev32ifbe (is_length I) in
  let max := s32 (len - 1) in
  if len =? 0 then Ok (false, 0) else
  last ← _intsetGet I max;
  if value >? last then Ok (false, len) else
  first ← _intsetGet I 0;
  if value <? first then Ok (false, 0) else
  '(min, mid, cur) ← intsetSearch_loop (S (Z.to_nat len)) I value 0 max (-1) (-1);
  if value =? cur then Ok (true, mid) else Ok (false, min).

(** [while(length--) _intsetSet(is,length+prepend,_intsetGetEncoded(is,length,curenc))] *)
Fixpoint intsetUpgrade_loop (length : nat) (I : intset) (prepend curenc : Z) : res intset :=
  match length with
  | O => Ok I
  | S length =>
      v ← _intsetGetEncoded I (Z.of_nat length) curenc;
      I ← _intsetSet I (Z.of_nat length + prepend) v;
      intsetUpgrade_loop length I prepend curenc
  end.

Definition intsetUpgradeAndAdd (junk : nat → Z) (I : intset) (value : Z) : res intset :=
  let curenc := u8 (intrev32ifbe (encoding I)) in
  let newenc := _intsetValueEncoding value in
  let length := s32 (intrev32ifbe (is_length I)) in
  let prepend := if value <? 0 then 1 else 0 in
  I ← intsetResize junk (mk_intset (intrev32ifbe newenc) (is_length I) (contents I))
                    (u32 (intrev32ifbe (is_length I) + 1));
  I ← intsetUpgrade_loop (Z.to_nat length) I prepend curenc;
  I ← (if negb (prepend =? 0) then _intsetSet I 0 value
        else _intsetSet I (intrev32ifbe (is_length I)) value);
  Ok (mk_intset (encoding I) (intrev32ifbe (u32 (intrev32ifbe (is_length I) + 1)))
                (contents I)).

Definition intsetMoveTail (I : intset) (from to : Z) : res intset :=
  let bytes := u32 (intrev32ifbe (is_length I) - from) in
  let enc := intrev32ifbe (encoding I) in
  c ← (if enc =? INTSET_ENC_INT64 then
         memmove (contents I) (8 * to) (8 * from) (u32 (bytes * 8))
       else if enc =? INTSET_ENC_INT32 then
         memmove (contents I) (4 * to) (4 * from) (u32 (bytes * 4))
       else
         memmove (contents I) (2 * to) (2 * from) (u32 (bytes * 2)));
  Ok (mk_intset (encoding I) (is_length I) c).

(** The new intset and [*success]. *)
Definition intsetAdd (junk : nat → Z) (I : intset) (value : Z) : res (intset * bool) :=
  let valenc := _intsetValueEncoding value in
  if valenc >? intrev32ifbe (encoding I) then
    I ← intsetUpgradeAndAdd junk I value; Ok (I, true)
  else
    '(found, pos) ← intsetSearch I value;
    if found : bool then Ok (I, false) else
    I ← intsetResize junk I (u32 (intrev32ifbe (is_length I) + 1));
    I ← (if pos <? intrev32ifbe (is_length I)
          then intsetMoveTail I pos (u32 (pos + 1)) else Ok I);
    I ← _intsetSet I pos value;
    Ok (mk_intset (encoding I) (intrev32ifbe (u32 (intrev32ifbe (is_length I) + 1)))
                  (contents I), true).

Definition intsetRemove (junk : nat → Z) (I : intset) (value : Z) : res (intset * bool) :=
  let valenc := _intsetValueEncoding value in
  if valenc <=? intrev32ifbe (encoding I) then
    '(found, pos) ← intsetSearch I value;
    if found : bool then
      let len := intrev32ifbe (is_length I) in
      I ← (if pos <? u32 (len - 1) then intsetMoveTail I (u32 (pos + 1)) pos else Ok I);
      I ← intsetResize junk I (u32 (len - 1));
      Ok (mk_intset (encoding I) (intrev32ifbe (u32 (len - 1))) (contents I), true)
    else Ok (I, false)
  else Ok (I, false).

Definition intsetFind (I : intset) (value : Z) : res bool :=
  let valenc := _intsetValueEncoding value in
  if valenc <=? intrev32ifbe (encoding I) then
    '(found, _) ← intsetSearch I value; Ok found
  else Ok false.

(** [rand] is the value [rand()] returns. *)
Definition intsetRandom (I : intset) (rand : Z) : res Z :=
  let len := intrev32ifbe (is_length I) in
  _ ← assert_ (negb (len =? 0));
  _intsetGet I (rand mod len).

Definition intsetMax (I : intset) : res Z :=
  let len := intrev32ifbe (is_length I) in
  _intsetGet I (s32 (len - 1)).

Definition intsetMin (I : intset) : res Z := _intsetGet I 0.

(** [Some v] is a result of 1 with [*value = v]. *)
Definition intsetGet (I : intset) (pos : Z) : res (option Z) :=
  if pos <? intrev32ifbe (is_length I)
  then v ← _intsetGet I (s32 pos); Ok (Some v)
  else Ok None.

Definition intsetLen (I : intset) : Z := intrev32ifbe (is_length I).

Definition intsetBlobLen (I : intset) : Z :=
  u64 (INTSET_HDR + intrev32ifbe (is_length I) * intrev32ifbe (encoding I)).

(** [for (i = i; i < count; i++)] of the deep validation; [todo] is the number
    of records left. *)
Fixpoint intsetValidate_loop (todo : nat) (I : intset) (i prev : Z) : res bool :=
  match todo with
  | O => Ok true
  | S todo =>
      cur ← _intsetGet I i;
      if cur <=? prev then Ok false else intsetValidate_loop todo I (i + 1) cur
  end.

(** The intset that the bytes at [p] are read as. *)
Definition intset_cast (p : list Z) : intset :=
  mk_intset (native_load (take 4 p)) (native_load (take 4 (drop 4 p))) (drop 8 p).

Definition intsetValidateIntegrity (p : list Z) (size : Z) (deep : bool) : res bool :=
  let I := intset_cast p in
  if size <? INTSET_HDR then Ok false else
  let enc := intrev32ifbe (encoding I) in
  if negb ((enc =? INTSET_ENC_INT64) || (enc =? INTSET_ENC_INT32) || (enc =? INTSET_ENC_INT16))
  then Ok false else
  let count := intrev32ifbe (is_length I) in
  if negb (u64 (INTSET_HDR + count * enc) =? size) then Ok false else
  if count =? 0 then Ok false else
  if negb deep then Ok true else
  prev ← _intsetGet I 0;
  intsetValidate_loop (Z.to_nat (count - 1)) I 1 prev.

(** The bytes of an intset object, as it is saved in an RDB file. *)
Definition intset_blob (I : intset) : list Z :=
  native_store 4 (encoding I) ++ native_store 4 (is_length I) ++ contents I.

(** ** The list an intset holds *)

Definition enc_ok (e : Z) : Prop := e = 2 ∨ e = 4 ∨ e = 8.
Definition fits (e x : Z) : Prop := - 2 ^ (8 * e - 1) ≤ x < 2 ^ (8 * e - 1).

(** The array of [xs] in [e]-byte integers. *)
Definition flat (e : Z) (xs : list Z) : list Z := mjoin (le_bytes (Z.to_nat e) <$> xs).

(** More elements than this and the 32-bit byte count of [intsetMoveTail]
    overflows for 64-bit elements. *)
Definition INTSET_SAFE : Z := 2 ^ 29.

Record intset_rep (I : intset) (xs : list Z) : Prop := {
  rep_u32 : 0 ≤ encoding I < 2 ^ 32 ∧ 0 ≤ is_length I < 2 ^ 32;
  rep_enc : enc_ok (intrev32ifbe (encoding I));
  rep_len : intrev32ifbe (is_length I) = zlen xs;
  rep_size : zlen xs < INTSET_SAFE;
  rep_contents : contents I = flat (intrev32ifbe (encoding I)) xs;
  rep_fits : Forall (fits (intrev32ifbe (encoding I))) xs;
  rep_sorted : StronglySorted Z.lt xs
}.

Lemma flat_app e xs ys : flat e (xs ++ ys) = flat e xs ++ flat e ys.
Proof. unfold flat. by rewrite fmap_app, join_app. Qed.

Lemma flat_cons e x xs : flat e (x :: xs) = le_bytes (Z.to_nat e) x ++ flat e xs.
Proof. done. Qed.

Lemma length_flat e xs : 0 ≤ e → zlen (flat e xs) = e * zlen xs.
Proof.
  intros He. induction xs as [|x xs IH]; [cbn; lia|].
  rewrite flat_cons, length_app, length_le_bytes. cbn [length]. lia.
Qed.

Lemma enc_ok_pos e : enc_ok e → 2 ≤ e ≤ 8.
Proof. unfold enc_ok. lia. Qed.
Hint Resolve enc_ok_pos : core.

Lemma load_le e x :
  enc_ok e → fits e x → wraps (8 * e) (le_val (le_bytes (Z.to_nat e) x)) = x.
Proof.
  intros He Hx. unfold fits in Hx. rewrite le_val_bytes, Z2Nat.id by (apply enc_ok_pos in He; lia).
  change 256 with (2 ^ 8). rewrite <- Z.pow_mul_r by (apply enc_ok_pos in He; lia).
  unfold wraps. rewrite Zplus_mod_idemp_l. apply wraps_small; [apply enc_ok_pos in He; lia|done].
Qed.

Lemma intsetGetEncoded_ok I e l x r pos :
  enc_ok e → fits e x → contents I = l ++ le_bytes (Z.to_nat e) x ++ r → zlen l = e * pos →
  _intsetGetEncoded I pos e = Ok x.
Proof.
  intros He Hx Hc Hl. pose proof (load_le e x He Hx) as L.
  unfold _intsetGetEncoded. rewrite Hc.
  destruct He as [-> | [-> | ->]]; cbn [Z.eqb Pos.eqb];
    (erewrite mem_read_app; [|lia|by rewrite length_le_bytes]); simpl;
    unfold native_load_s; f_equal; rewrite <- L at 2.
  - by rewrite load16_le, length_memrev16ifbe.
  - by rewrite load32_le, length_memrev32ifbe.
  - by rewrite load64_le, length_memrev64ifbe.
Qed.

Lemma intsetSet_ok I l d r pos v :
  enc_ok (intrev32ifbe (encoding I)) → contents I = l ++ d ++ r →
  zlen l = intrev32ifbe (encoding I) * pos → zlen d = intrev32ifbe (encoding I) →
  _intsetSet I pos v =
    Ok (mk_intset (encoding I) (is_length I)
          (l ++ le_bytes (Z.to_nat (intrev32ifbe (encoding I))) v ++ r)).
Proof.
  intros He Hc Hl Hd. unfold _intsetSet. rewrite Hc.
  rewrite store16_le, store32_le, store64_le.
  destruct He as [E | [E | E]]; rewrite E in *; cbn [Z.eqb Pos.eqb];
    (rewrite mem_write_app; [done|lia|rewrite length_le_bytes; lia]).
Qed.

Lemma u8_enc e : enc_ok e → u8 e = e.
Proof. by intros [-> | [-> | ->]]. Qed.

(** Element [i] of the array. *)
Lemma intsetGet_flat I xs i x pos :
  enc_ok (intrev32ifbe (encoding I)) → Forall (fits (intrev32ifbe (encoding I))) xs →
  contents I = flat (intrev32ifbe (encoding I)) xs →
  xs !! i = Some x → pos = Z.of_nat i → _intsetGet I pos = Ok x.
Proof.
  intros He Hf Hc Hx ->. unfold _intsetGet. rewrite u8_enc by done.
  assert (i < length xs)%nat by by apply lookup_lt_Some in Hx.
  eapply (intsetGetEncoded_ok _ _ (flat _ (take i xs)) _ (flat _ (drop (S i) xs)));
    [done|by eapply Forall_lookup_1, Hx| |].
  - rewrite Hc, <- flat_cons, <- flat_app. by rewrite take_drop_middle.
  - rewrite length_flat, length_take; [lia|]. pose proof (enc_ok_pos _ He). lia.
Qed.

Lemma intsetGet_rep I xs i x pos :
  intset_rep I xs → xs !! i = Some x → pos = Z.of_nat i → _intsetGet I pos = Ok x.
Proof. intros HI. apply intsetGet_flat; apply HI. Qed.

(** [p] is where [v] would go in the sorted list [xs]. *)
Definition insertion_point (xs : list Z) (v : Z) (p : nat) : Prop :=
  (p ≤ length xs)%nat ∧
  (∀ i x, xs !! i = Some x → (i < p)%nat → x < v) ∧
  (∀ i x, xs !! i = Some x → (p ≤ i)%nat → v < x).

Definition search_result (xs : list Z) (v : Z) (found : bool) (pos : Z) : Prop :=
  if found then ∃ p, pos = Z.of_nat p ∧ xs !! p = Some v
  else ∃ p, pos = Z.of_nat p ∧ insertion_point xs v p.

Lemma sorted_lookup_lt (xs : list Z) i j x y :
  StronglySorted Z.lt xs → xs !! i = Some x → xs !! j = Some y → (i < j)%nat → x < y.
Proof.
  intros Hs. revert i j. induction Hs as [|a l Hs IH Ha]; intros i j Hi Hj Hij; [done|].
  destruct i as [|i], j as [|j]; simpl in *; simplify_eq; try lia.
  - eapply Forall_lookup_1 in Ha; eauto.
  - apply (IH i j); auto. lia.
Qed.

Lemma intsetSearch_loop_ok I xs fuel v min max mid cur :
  intset_rep I xs →
  (Z.to_nat (max - min + 1) < fuel)%nat → 0 ≤ min ≤ max + 1 → max < zlen xs →
  (∀ i x, xs !! i = Some x → Z.of_nat i < min → x < v) →
  (∀ i x, xs !! i = Some x → max < Z.of_nat i → v < x) →
  min ≤ max ∨ cur ≠ v →
  ∃ min' mid' cur',
    intsetSearch_loop fuel I v min max mid cur = Ok (min', mid', cur') ∧
    ((cur' = v ∧ search_result xs v true mid') ∨
     (cur' ≠ v ∧ search_result xs v false min')).
Proof.
  intros HI. pose proof (rep_size _ _ HI) as Hsz. unfold INTSET_SAFE in Hsz.
  revert min max mid cur.
  induction fuel as [|fuel IH]; intros min max mid cur Hf Hmin Hmax Hlo Hhi Hc; [lia|].
  cbn [intsetSearch_loop]. destruct (max >=? min) eqn:E.
  - assert (s32 (Z.shiftr (u32 (u32 min + u32 max)) 1) = (min + max) / 2) as ->.
    { rewrite !u32_small, Z.shiftr_div_pow2 by (rewrite ?u32_small; lia).
      change (2 ^ 1) with 2. apply s32_small. zdiv. }
    set (m := (min + max) / 2). assert (min ≤ m ≤ max) by (unfold m; zdiv). clearbody m.
    destruct (lookup_lt_is_Some_2 xs (Z.to_nat m)) as [x Hx]; [lia|].
    rewrite (intsetGet_rep I xs (Z.to_nat m) x m) by (done || lia). simpl.
    destruct (v >? x) eqn:E1; [|destruct (v <? x) eqn:E2].
    + apply IH; try lia.
      * intros i y Hy Hi. destruct (decide (i = Z.to_nat m)) as [->|]; [simplify_eq; lia|].
        assert (y < x); [|lia].
        eapply sorted_lookup_lt; [apply HI|exact Hy|exact Hx|lia].
      * intros. eapply Hhi; eauto.
    + apply IH; try lia.
      * intros. eapply Hlo; eauto.
      * intros i y Hy Hi. destruct (decide (i = Z.to_nat m)) as [->|]; [simplify_eq; lia|].
        assert (x < y); [|lia].
        eapply sorted_lookup_lt; [apply HI|exact Hx|exact Hy|lia].
    + exists min, m, x. split; [done|]. left. split; [lia|].
      exists (Z.to_nat m). split; [lia|]. rewrite Hx. f_equal. lia.
  - exists min, mid, cur. split; [done|]. right. split; [lia|].
    exists (Z.to_nat min). repeat split; [lia..| |].
    + intros. eapply Hlo; eauto. lia.
    + intros. eapply Hhi; eauto. lia.
Qed.

Lemma intsetSearch_ok I xs v :
  intset_rep I xs →
  ∃ found pos, intsetSearch I v = Ok (found, pos) ∧ search_result xs v found pos.
Proof.
  intros HI. pose proof (rep_size _ _ HI) as Hsz. unfold INTSET_SAFE in Hsz.
  unfold intsetSearch. rewrite (rep_len _ _ HI).
  destruct (zlen xs =? 0) eqn:E0.
  { exists false, 0. split; [done|]. exists 0%nat.
    destruct xs; [|simpl in E0; lia]. split; [done|]. repeat split; [cbn; lia| |].
    all: intros i x Hi; by rewrite lookup_nil in Hi. }
  rewrite s32_small by lia.
  destruct (lookup_lt_is_Some_2 xs (length xs - 1)) as [lst Hlst]; [lia|].
  rewrite (intsetGet_rep I xs (length xs - 1) lst (zlen xs - 1)) by (done || lia). rs.
  destruct (v >? lst) eqn:E1.
  { exists false, (zlen xs). split; [done|]. exists (length xs).
    repeat split; [lia| |intros i x Hi; apply lookup_lt_Some in Hi; lia].
    intros i x Hi Hlt. destruct (decide (i = length xs - 1)%nat) as [->|]; [simplify_eq; lia|].
    assert (x < lst); [|lia]. eapply sorted_lookup_lt; [apply HI|exact Hi|exact Hlst|lia]. }
  destruct (lookup_lt_is_Some_2 xs 0) as [fst Hfst]; [lia|].
  rewrite (intsetGet_rep I xs 0 fst 0) by (done || lia). rs.
  destruct (v <? fst) eqn:E2.
  { exists false, 0. split; [done|]. exists 0%nat. repeat split; [lia|lia|].
    intros i x Hi _. destruct (decide (i = 0%nat)) as [->|]; [simplify_eq; lia|].
    assert (fst < x); [|lia]. eapply sorted_lookup_lt; [apply HI|exact Hfst|exact Hi|lia]. }
  destruct (intsetSearch_loop_ok I xs (S (Z.to_nat (zlen xs))) v 0 (zlen xs - 1) (-1) (-1))
    as (min' & mid' & cur' & -> & Hr); try done; try lia.
  { intros i x Hi. apply lookup_lt_Some in Hi. lia. }
  rs. destruct Hr as [[-> Hr] | [Hne Hr]].
  - rewrite Z.eqb_refl. eauto.
  - rewrite (proj2 (Z.eqb_neq _ _)) by done. eauto.
Qed.

(** ** Insertion and removal *)

Lemma intsetResize_ok junk I n :
  enc_ok (intrev32ifbe (encoding I)) → 0 ≤ n < 2 ^ 32 →
  intsetResize junk I n = Ok (mk_intset (encoding I) (is_length I)
    (mem_realloc junk (contents I) (n * intrev32ifbe (encoding I)))).
Proof.
  intros He Hn. apply enc_ok_pos in He. unfold intsetResize.
  rewrite u64_small by nia. rewrite assert_true by nia. done.
Qed.

(** [intsetMoveTail] is a [memmove] of whole elements, when their bytes can be
    counted in 32 bits. *)
Lemma intsetMoveTail_ok I from to :
  enc_ok (intrev32ifbe (encoding I)) →
  0 ≤ from ≤ intrev32ifbe (is_length I) → intrev32ifbe (is_length I) < INTSET_SAFE →
  intsetMoveTail I from to =
    (c ← memmove (contents I) (intrev32ifbe (encoding I) * to)
           (intrev32ifbe (encoding I) * from)
           ((intrev32ifbe (is_length I) - from) * intrev32ifbe (encoding I));
     Ok (mk_intset (encoding I) (is_length I) c)).
Proof.
  unfold INTSET_SAFE. intros He Hf Hl. unfold intsetMoveTail.
  rewrite (u32_small (_ - _)) by lia.
  destruct He as [E | [E | E]]; rewrite E; cbn [Z.eqb Pos.eqb];
    rewrite u32_small by lia; done.
Qed.

Lemma sorted_insert xs v p :
  StronglySorted Z.lt xs → insertion_point xs v p →
  StronglySorted Z.lt (take p xs ++ v :: drop p xs).
Proof.
  intros Hs (Hp & Hlo & Hhi).
  rewrite <- (take_drop p xs), StronglySorted_app in Hs. destruct Hs as (H1 & H2 & H3).
  assert (∀ x, x ∈ take p xs → x < v) as Ha.
  { intros x (i & Hx & Hi)%elem_of_take. eauto. }
  assert (∀ x, x ∈ drop p xs → v < x) as Hb.
  { intros x (i & Hx)%list_elem_of_lookup. rewrite lookup_drop in Hx.
    eapply Hhi; eauto. lia. }
  apply StronglySorted_app_2; [|done|].
  - intros x1 x2 Hx1 [->|Hx2]%elem_of_cons; [auto|]. etrans; eauto.
  - constructor; [done|]. by apply Forall_forall.
Qed.

Lemma sorted_delete xs v p :
  StronglySorted Z.lt xs → xs !! p = Some v →
  StronglySorted Z.lt (take p xs ++ drop (S p) xs).
Proof.
  intros Hs Hp. rewrite <- (take_drop_middle xs p v Hp) in Hs.
  apply StronglySorted_app in Hs as (H1 & H2 & H3).
  apply StronglySorted_cons in H3 as [_ H3].
  apply StronglySorted_app_2; [|done..].
  intros. apply H1; [done|]. by apply elem_of_cons; right.
Qed.

Lemma fits_value v e :
  is_i64 v → enc_ok e → _intsetValueEncoding v ≤ e ↔ fits e v.
Proof.
  unfold is_i64, _intsetValueEncoding, fits, enc_ok. intros Hv He.
  destruct He as [-> | [-> | ->]];
    [change (2 ^ (8 * 2 - 1)) with 32768|change (2 ^ (8 * 4 - 1)) with 2147483648
    |change (2 ^ (8 * 8 - 1)) with 9223372036854775808];
    repeat case_match; lia.
Qed.

Lemma value_enc_ok v : enc_ok (_intsetValueEncoding v).
Proof. unfold _intsetValueEncoding, enc_ok. repeat case_match; lia. Qed.

(** The sorted lists that adding and removing [v] give. *)
Definition list_add (v : Z) (p : nat) (xs : list Z) : list Z := take p xs ++ v :: drop p xs.
Definition list_del (p : nat) (xs : list Z) : list Z := take p xs ++ drop (S p) xs.

Lemma length_list_add v p xs : (p ≤ length xs)%nat → length (list_add v p xs) = S (length xs).
Proof. intros. unfold list_add. rewrite length_app, length_take. cbn. rewrite length_drop. lia. Qed.

Lemma length_list_del p xs :
  (p < length xs)%nat → length (list_del p xs) = (length xs - 1)%nat.
Proof. intros. unfold list_del. rewrite length_app, length_take, length_drop. lia. Qed.

(** The array around position [p]. *)
Lemma flat_split e xs p :
  0 ≤ e → (p ≤ length xs)%nat →
  flat e xs = flat e (take p xs) ++ flat e (drop p xs) ∧
  zlen (flat e (take p xs)) = e * Z.of_nat p ∧
  zlen (flat e (drop p xs)) = e * (zlen xs - Z.of_nat p).
Proof.
  intros. rewrite <- flat_app, take_drop, !length_flat, length_take, length_drop by done.
  split_and!; [done|f_equal; lia..].
Qed.

(** Making room for an element at [p], after the array has grown by [ext]. *)
Lemma intset_open_gap I xs p ext :
  intset_rep I xs → (p ≤ length xs)%nat → zlen ext = intrev32ifbe (encoding I) →
  let e := intrev32ifbe (encoding I) in
  let J := mk_intset (encoding I) (is_length I) (flat e xs ++ ext) in
  ∃ gap, zlen gap = e ∧
    (if Z.of_nat p <? zlen xs then intsetMoveTail J (Z.of_nat p) (u32 (Z.of_nat p + 1))
     else Ok J) =
    Ok (mk_intset (encoding I) (is_length I)
          (flat e (take p xs) ++ gap ++ flat e (drop p xs))).
Proof.
  intros HI Hp Hext e J.
  pose proof (rep_enc _ _ HI) as He. pose proof (enc_ok_pos _ He) as Hpos.
  pose proof (rep_len _ _ HI) as Hlen. pose proof (rep_size _ _ HI) as Hsz.
  unfold INTSET_SAFE in Hsz. fold e in He, Hpos, Hext.
  destruct (flat_split e xs p) as (HLR & HL & HR); [lia|done|].
  unfold J. rewrite HLR, <- (assoc_L (++)). destruct (_ <? _) eqn:Elt.
  - rewrite u32_small, intsetMoveTail_ok; cbn [encoding is_length contents]; fold e;
      rewrite ?Hlen; unfold INTSET_SAFE; try (done || lia).
    rewrite <- (app_nil_r ext).
    destruct (memmove_right (flat e (take p xs)) (flat e (drop p xs)) ext []
      (e * (Z.of_nat p + 1)) (e * Z.of_nat p) ((zlen xs - Z.of_nat p) * e))
      as (gap & -> & Hg); [lia..|].
    rs. exists gap. rewrite app_nil_r. split; [lia|done].
  - exists ext. assert (flat e (drop p xs) = []) as -> by (apply length_zero_iff_nil; nia).
    split; [lia|]. by rewrite app_nil_r.
Qed.

Lemma intsetAdd_insert junk I xs v p :
  intset_rep I xs → fits (intrev32ifbe (encoding I)) v →
  _intsetValueEncoding v ≤ intrev32ifbe (encoding I) →
  zlen xs + 1 < INTSET_SAFE → insertion_point xs v p →
  intsetSearch I v = Ok (false, Z.of_nat p) →
  ∃ I', intsetAdd junk I v = Ok (I', true) ∧ intset_rep I' (list_add v p xs).
Proof.
  intros HI Hv Henc Hsz Hp Hsearch.
  pose proof (enc_ok_pos _ (rep_enc _ _ HI)) as Hpos.
  pose proof (rep_len _ _ HI) as Hlen. pose proof (proj1 Hp) as Hple.
  pose proof Hsz as Hsz'. unfold INTSET_SAFE in Hsz.
  destruct (flat_split (intrev32ifbe (encoding I)) xs p) as (_ & HL & _); [lia|done|].
  unfold intsetAdd. destruct (_ >? _) eqn:E; [lia|]. rewrite Hsearch. rs.
  rewrite Hlen, (u32_small (zlen xs + 1)), intsetResize_ok by (apply HI || lia). rs.
  cbn [encoding is_length contents]. rewrite Hlen, (rep_contents _ _ HI).
  destruct (mem_realloc_grow junk (flat (intrev32ifbe (encoding I)) xs)
    ((zlen xs + 1) * intrev32ifbe (encoding I))) as (ext & -> & Hext);
    [rewrite length_flat by lia; lia|].
  rewrite length_flat in Hext by lia.
  destruct (intset_open_gap I xs p ext) as (gap & Hgap & ->); [done|done|lia|].
  rs. erewrite intsetSet_ok; cbn [encoding is_length contents]; [|apply HI|done|lia..].
  rs. cbn [encoding is_length contents]. eexists. split; [done|].
  split; cbn [encoding is_length contents].
  - split; [apply HI|]. apply intrev32ifbe_range. rewrite u32_small; lia.
  - apply HI.
  - rewrite Hlen, u32_small, intrev32ifbe_invol, length_list_add by (done || lia). lia.
  - rewrite length_list_add by done. lia.
  - unfold list_add. by rewrite flat_app, flat_cons.
  - apply Forall_app. split; [apply Forall_take, HI|].
    constructor; [done|apply Forall_drop, HI].
  - apply sorted_insert; [apply HI|done].
Qed.

Lemma intsetRemove_found junk I xs v p :
  intset_rep I xs → _intsetValueEncoding v ≤ intrev32ifbe (encoding I) →
  xs !! p = Some v → intsetSearch I v = Ok (true, Z.of_nat p) →
  ∃ I', intsetRemove junk I v = Ok (I', true) ∧ intset_rep I' (list_del p xs).
Proof.
  intros HI Henc Hp Hsearch.
  pose proof (enc_ok_pos _ (rep_enc _ _ HI)) as Hpos.
  pose proof (rep_len _ _ HI) as Hlen. pose proof (lookup_lt_Some _ _ _ Hp) as Hlt.
  pose proof (rep_size _ _ HI) as Hsz. pose proof Hsz as Hsz'. unfold INTSET_SAFE in Hsz.
  set (e := intrev32ifbe (encoding I)) in *.
  destruct (flat_split e xs p) as (_ & HL & _); [lia..|].
  destruct (flat_split e xs (S p)) as (_ & _ & HR); [lia..|].
  assert (contents I = flat e (take p xs) ++ le_bytes (Z.to_nat e) v ++ flat e (drop (S p) xs))
    as Hc. { rewrite (rep_contents _ _ HI), <- flat_cons, <- flat_app. by rewrite take_drop_middle. }
  unfold intsetRemove. fold e. destruct (_ <=? _) eqn:E; [|lia]. rewrite Hsearch. rs.
  rewrite Hlen, !(u32_small (zlen xs - 1)) by lia.
  assert (∃ g, zlen g = e ∧
    (if Z.of_nat p <? zlen xs - 1
     then intsetMoveTail I (u32 (Z.of_nat p + 1)) (Z.of_nat p) else Ok I) =
    Ok (mk_intset (encoding I) (is_length I)
          (flat e (take p xs) ++ flat e (drop (S p) xs) ++ g))) as (g & Hg & ->).
  { destruct (_ <? _) eqn:Elt.
    - rewrite u32_small, intsetMoveTail_ok; fold e; rewrite ?Hlen; try (done || apply HI || lia).
      rewrite Hc, <- (app_nil_r (flat e (drop (S p) xs))).
      destruct (memmove_left (flat e (take p xs)) (le_bytes (Z.to_nat e) v)
        (flat e (drop (S p) xs)) [] (e * Z.of_nat p) (e * (Z.of_nat p + 1))
        ((zlen xs - (Z.of_nat p + 1)) * e)) as (g & -> & Hg);
        [lia|rewrite length_le_bytes; lia|lia|].
      rewrite length_le_bytes in Hg. rs. exists g. rewrite !app_nil_r. split; [lia|done].
    - exists (le_bytes (Z.to_nat e) v). rewrite length_le_bytes.
      assert (flat e (drop (S p) xs) = []) as Enil by (apply length_zero_iff_nil; nia).
      split; [lia|]. rewrite Enil, app_nil_r in Hc. rewrite Enil, app_nil_l, <- Hc. by destruct I. }
  rs. rewrite intsetResize_ok by (apply HI || lia). rs.
  cbn [encoding is_length contents]. fold e.
  rewrite (assoc_L (++)), mem_realloc_shrink, take_app_length'
    by (rewrite ?length_app; nia).
  eexists. split; [done|]. split; cbn [encoding is_length contents]; fold e.
  - split; [apply HI|]. apply intrev32ifbe_range. lia.
  - apply HI.
  - rewrite intrev32ifbe_invol, length_list_del by (done || lia). lia.
  - rewrite length_list_del by done. unfold INTSET_SAFE. lia.
  - unfold list_del. by rewrite flat_app.
  - apply Forall_app. split; [apply Forall_take, HI|apply Forall_drop, HI].
  - eapply sorted_delete; [apply HI|done].
Qed.

(** ** Widening in place *)

(** Going from the last element to the first, each write lands on bytes whose
    element has already been moved: with [xs] still in the old encoding and [D]
    done, the bytes between them are exactly the room that is needed. *)
Lemma intsetUpgrade_loop_ok cur prepend xs : ∀ I mid D,
  enc_ok cur → enc_ok (intrev32ifbe (encoding I)) → cur < intrev32ifbe (encoding I) →
  0 ≤ prepend ≤ 1 → Forall (fits cur) xs →
  contents I = flat cur xs ++ mid ++ D →
  zlen mid = (zlen xs + prepend) * intrev32ifbe (encoding I) - zlen xs * cur →
  ∃ g, intsetUpgrade_loop (length xs) I prepend cur =
         Ok (mk_intset (encoding I) (is_length I)
               (g ++ flat (intrev32ifbe (encoding I)) xs ++ D)) ∧
       zlen g = prepend * intrev32ifbe (encoding I).
Proof.
  induction xs as [|x xs IH] using rev_ind; intros I mid D Hcur Hnew Hlt Hpre Hf Hc Hmid.
  { exists mid. cbn [length intsetUpgrade_loop flat]. split; [|cbn in Hmid; lia].
    cbn in *. rewrite <- Hc. by destruct I. }
  apply Forall_app in Hf as [Hf Hx]. rewrite Forall_singleton in Hx.
  pose proof (enc_ok_pos _ Hcur). pose proof (enc_ok_pos _ Hnew).
  rewrite flat_app, flat_cons in Hc. change (flat cur []) with (@nil Z) in Hc.
  rewrite app_nil_r, <- (assoc_L (++)) in Hc.
  rewrite length_app in *. cbn [length] in *. rewrite Nat.add_1_r in *.
  cbn [intsetUpgrade_loop].
  erewrite intsetGetEncoded_ok; [|done|exact Hx|exact Hc|by rewrite length_flat by lia].
  rs. set (e := intrev32ifbe (encoding I)) in *.
  set (R := le_bytes (Z.to_nat cur) x ++ mid).
  assert (zlen R = (zlen xs + prepend) * e - zlen xs * cur + e) as HR.
  { unfold R. rewrite length_app, length_le_bytes. lia. }
  destruct (buffer_split R ((zlen xs + prepend) * e - zlen xs * cur) e)
    as (R1 & R2 & R3 & HR123 & HR1 & HR2); [nia|lia|lia|].
  assert (R3 = []) as ->.
  { apply length_zero_iff_nil. rewrite HR123, !length_app in HR. lia. }
  rewrite app_nil_r in HR123.
  assert (contents I = (flat cur xs ++ R1) ++ R2 ++ D) as Hc'.
  { rewrite Hc, !(assoc_L (++)), <- (assoc_L (++) _ R1), <- HR123. unfold R.
    by rewrite !(assoc_L (++)). }
  erewrite (intsetSet_ok I); [|done|exact Hc'| |done].
  2: { rewrite length_app, Nat2Z.inj_add, length_flat by lia. fold e. lia. }
  rs. rewrite <- (assoc_L (++)).
  destruct (IH (mk_intset (encoding I) (is_length I)
    (flat cur xs ++ R1 ++ le_bytes (Z.to_nat (intrev32ifbe (encoding I))) x ++ D)) R1
    (le_bytes (Z.to_nat (intrev32ifbe (encoding I))) x ++ D)) as (g & -> & Hg); try done.
  exists g. split; [|done]. cbn [encoding is_length contents].
  rewrite flat_app, flat_cons, <- !(assoc_L (++)). done.
Qed.

(** A value that needs a wider encoding lies outside the range of the others. *)
Lemma upgrade_insertion_point I xs v :
  intset_rep I xs → is_i64 v → intrev32ifbe (encoding I) < _intsetValueEncoding v →
  insertion_point xs v (if v <? 0 then 0 else length xs).
Proof.
  intros HI Hv Henc.
  assert (¬ fits (intrev32ifbe (encoding I)) v) as Hnf.
  { rewrite <- fits_value by (done || apply HI). lia. }
  unfold fits in Hnf. pose proof (rep_fits _ _ HI) as Hf. unfold insertion_point.
  destruct (v <? 0) eqn:E; (split; [lia|]); split; intros i x Hi Hlt;
    pose proof (lookup_lt_Some _ _ _ Hi); try lia;
    eapply Forall_lookup_1 in Hf; eauto; unfold fits in Hf; lia.
Qed.

(** After the resize and the loop: the old elements in the new encoding, with a
    free slot [d] where the value goes. *)
Lemma intset_upgraded junk cur new prepend p L I xs :
  enc_ok cur → enc_ok new → cur < new → Forall (fits cur) xs →
  prepend = 1 ∧ p = 0%nat ∨ prepend = 0 ∧ p = length xs →
  intrev32ifbe (encoding I) = new → is_length I = L →
  contents I = mem_realloc junk (flat cur xs) ((zlen xs + 1) * new) →
  ∃ d, zlen d = new ∧
    intsetUpgrade_loop (length xs) I prepend cur =
    Ok (mk_intset (encoding I) L (flat new (take p xs) ++ d ++ flat new (drop p xs))).
Proof.
  intros Hcur Hnew Hlt Hf Hpp Henc <- Hc.
  pose proof (enc_ok_pos _ Hcur). pose proof (enc_ok_pos _ Hnew).
  destruct (mem_realloc_grow junk (flat cur xs) ((zlen xs + 1) * new)) as (ext & Eg & Hext);
    [rewrite length_flat by lia; nia|].
  rewrite length_flat in Hext by lia. rewrite Eg in Hc.
  destruct (buffer_split ext ((zlen xs + prepend) * new - zlen xs * cur) ((1 - prepend) * new))
    as (mid & tail & r & Hext' & Hmid & Htail); [nia..|].
  assert (r = []) as ->.
  { apply length_zero_iff_nil. rewrite Hext', !length_app in Hext. lia. }
  rewrite app_nil_r in Hext'. subst ext.
  destruct (intsetUpgrade_loop_ok cur prepend xs I mid tail)
    as (g & -> & Hg); rewrite ?Henc; try (done || lia).
  rewrite Henc in Hg.
  destruct Hpp as [[-> ->] | [-> ->]].
  - exists g. split; [lia|]. cbn [take drop].
    assert (tail = []) as -> by (apply length_zero_iff_nil; lia). by rewrite app_nil_r.
  - exists tail. split; [lia|]. rewrite take_ge, drop_ge by lia.
    assert (g = []) as -> by (apply length_zero_iff_nil; lia). by rewrite app_nil_r.
Qed.

Lemma intsetUpgradeAndAdd_ok junk I xs v :
  intset_rep I xs → is_i64 v → intrev32ifbe (encoding I) < _intsetValueEncoding v →
  zlen xs + 1 < INTSET_SAFE →
  ∃ I', intsetUpgradeAndAdd junk I v = Ok I' ∧
        intset_rep I' (list_add v (if v <? 0 then 0 else length xs) xs).
Proof.
  intros HI Hv Henc Hsz. pose proof Hsz as Hsz'. unfold INTSET_SAFE in Hsz.
  pose proof (upgrade_insertion_point I xs v HI Hv Henc) as Hip.
  pose proof (rep_enc _ _ HI) as Hcur. pose proof (enc_ok_pos _ Hcur).
  pose proof (value_enc_ok v) as Hnew. pose proof (enc_ok_pos _ Hnew).
  pose proof (rep_len _ _ HI) as Hlen. pose proof (fits_value v _ Hv Hnew) as Hfv.
  unfold intsetUpgradeAndAdd. rewrite u8_enc by done.
  set (cur := intrev32ifbe (encoding I)) in *. set (new := _intsetValueEncoding v) in *.
  assert (intrev32ifbe (intrev32ifbe new) = new) as Einv by (apply intrev32ifbe_invol; lia).
  rewrite Hlen, u32_small, s32_small, Nat2Z.id by lia.
  rewrite intsetResize_ok; cbn [encoding is_length contents]; rewrite ?Einv; [|done|lia].
  rs. rewrite (rep_contents _ _ HI). fold cur.
  set (p := if v <? 0 then 0%nat else length xs) in *. set (prepend := if v <? 0 then 1 else 0).
  edestruct (intset_upgraded junk cur new prepend p (is_length I)) as (d & Hd & ->);
    cbn [encoding is_length contents]; try done; [apply HI|unfold prepend, p; destruct (v <? 0); auto|].
  rs. cbn [encoding is_length contents]. set (J := mk_intset _ _ _).
  replace (if negb (prepend =? 0) then _ else _) with (_intsetSet J (Z.of_nat p) v)
    by (rewrite Hlen; unfold prepend, p; by destruct (v <? 0)).
  pose proof (proj1 Hip) as Hple. destruct (flat_split new xs p) as (_ & HL & _); [lia|done|].
  erewrite (intsetSet_ok J); unfold J; cbn [encoding is_length contents]; rewrite ?Einv;
    [|done..|lia|done].
  rs. cbn [encoding is_length contents]. eexists. split; [done|].
  split; cbn [encoding is_length contents]; rewrite ?Einv.
  - split; apply intrev32ifbe_range; [lia|]. rewrite u32_small; lia.
  - done.
  - rewrite Hlen, u32_small, intrev32ifbe_invol, length_list_add by (done || lia). lia.
  - rewrite length_list_add by done. lia.
  - unfold list_add. by rewrite flat_app, flat_cons.
  - assert (Forall (fits new) xs) as Hf.
    { eapply Forall_impl; [apply HI|]. intros x. fold cur. unfold fits.
      assert (2 ^ (8 * cur - 1) ≤ 2 ^ (8 * new - 1)) by (apply Z.pow_le_mono_r; lia). lia. }
    apply Forall_app. split; [by apply Forall_take|].
    constructor; [by apply Hfv|by apply Forall_drop].
  - apply sorted_insert; [apply HI|done].
Qed.

(** ** Intsets as finite sets *)

Definition intset_models (I : intset) (X : gset Z) : Prop :=
  ∃ xs, intset_rep I xs ∧ X = list_to_set xs.

Lemma sorted_NoDup (xs : list Z) : StronglySorted Z.lt xs → NoDup xs.
Proof.
  induction 1 as [|x xs _ IH Hx]; constructor; [|done].
  intros Hin. eapply Forall_forall in Hx; [|done]. lia.
Qed.

Lemma models_size I xs : intset_rep I xs → size (list_to_set xs : gset Z) = length xs.
Proof. intros HI. apply size_list_to_set, sorted_NoDup, HI. Qed.

Lemma insertion_point_not_in xs v p : insertion_point xs v p → v ∉ xs.
Proof.
  intros (_ & Hlo & Hhi) (i & Hi)%list_elem_of_lookup.
  destruct (decide (i < p)%nat); [apply Hlo in Hi|apply Hhi in Hi]; lia.
Qed.

Lemma list_add_set v p xs : (list_to_set (list_add v p xs) : gset Z) = {[v]} ∪ list_to_set xs.
Proof.
  unfold list_add. rewrite <- (take_drop p xs) at 3.
  rewrite !list_to_set_app_L. cbn. set_solver.
Qed.

Lemma list_del_set v p xs :
  StronglySorted Z.lt xs → xs !! p = Some v →
  (list_to_set (list_del p xs) : gset Z) = list_to_set xs ∖ {[v]}.
Proof.
  intros Hs%sorted_NoDup Hp. unfold list_del.
  rewrite <- (take_drop_middle xs p v Hp) in Hs |- * at 3.
  apply NoDup_app in Hs as (_ & Hd & Hs). apply NoDup_cons in Hs as [Hnin _].
  rewrite !list_to_set_app_L. cbn. set_solver.
Qed.

(** A search together with what it says about membership. *)
Lemma intsetSearch_models I xs v :
  intset_rep I xs →
  (∃ p, intsetSearch I v = Ok (true, Z.of_nat p) ∧ xs !! p = Some v) ∨
  (∃ p, intsetSearch I v = Ok (false, Z.of_nat p) ∧ insertion_point xs v p).
Proof.
  intros HI. destruct (intsetSearch_ok I xs v HI) as ([] & pos & E & p & -> & Hp); eauto.
Qed.

Lemma not_fits_not_in I xs v :
  intset_rep I xs → is_i64 v → intrev32ifbe (encoding I) < _intsetValueEncoding v → v ∉ xs.
Proof.
  intros HI Hv Henc Hin. assert (fits (intrev32ifbe (encoding I)) v) as Hf.
  { eapply Forall_forall in Hin; [exact Hin|apply HI]. }
  apply fits_value in Hf; [lia|done|apply HI].
Qed.

Lemma intsetAdd_ok junk I X v :
  intset_models I X → is_i64 v → Z.of_nat (size X) + 1 < INTSET_SAFE →
  ∃ I', intsetAdd junk I v = Ok (I', bool_decide (v ∉ X)) ∧ intset_models I' ({[v]} ∪ X).
Proof.
  intros (xs & HI & ->) Hv Hsz. rewrite (models_size I) in Hsz by done.
  destruct (Z.lt_ge_cases (intrev32ifbe (encoding I)) (_intsetValueEncoding v)) as [Henc|Henc].
  - destruct (intsetUpgradeAndAdd_ok junk I xs v) as (I' & E & HI'); [done..|].
    pose proof (not_fits_not_in I xs v HI Hv Henc).
    exists I'. unfold intsetAdd. destruct (_ >? _) eqn:Egt; [|lia]. rewrite E. rs.
    rewrite bool_decide_eq_true_2 by set_solver. split; [done|].
    eexists. split; [exact HI'|]. by rewrite list_add_set.
  - destruct (intsetSearch_models I xs v HI) as [(p & E & Hp) | (p & E & Hp)].
    + assert (v ∈ xs) by by eapply list_elem_of_lookup_2.
      exists I. unfold intsetAdd. destruct (_ >? _) eqn:Egt; [lia|]. rewrite E. rs.
      rewrite bool_decide_eq_false_2 by set_solver. split; [done|].
      exists xs. split; [done|]. set_solver.
    + destruct (intsetAdd_insert junk I xs v p) as (I' & E' & HI'); try done.
      { by apply fits_value; [|apply HI|]. }
      pose proof (insertion_point_not_in xs v p Hp).
      exists I'. rewrite E', bool_decide_eq_true_2 by set_solver. split; [done|].
      eexists. split; [exact HI'|]. by rewrite list_add_set.
Qed.

(** C32: adding to an intset that holds the set [X], in any encoding and on any
    host, runs without a bad access or a failed assertion, reports whether the
    value was new, and leaves an intset, still sorted, that holds [X] with the
    value; the array is widened when the value needs it.  The bound on the number
    of elements is the one below which byte counts fit in 32 bits. *)
Theorem intsetAdd_spec junk I X v :
  intset_models I X → is_i64 v → Z.of_nat (size X) + 1 < INTSET_SAFE →
  ∃ I', intsetAdd junk I v = Ok (I', bool_decide (v ∉ X)) ∧ intset_models I' ({[v]} ∪ X).
Proof. apply intsetAdd_ok. Qed.

Lemma intsetRemove_ok junk I X v :
  intset_models I X → is_i64 v →
  ∃ I', intsetRemove junk I v = Ok (I', bool_decide (v ∈ X)) ∧ intset_models I' (X ∖ {[v]}).
Proof.
  intros (xs & HI & ->) Hv.
  destruct (Z.lt_ge_cases (intrev32ifbe (encoding I)) (_intsetValueEncoding v)) as [Henc|Henc].
  - pose proof (not_fits_not_in I xs v HI Hv Henc).
    exists I. unfold intsetRemove. destruct (_ <=? _) eqn:Egt; [lia|].
    rewrite bool_decide_eq_false_2 by set_solver. split; [done|].
    exists xs. split; [done|]. set_solver.
  - destruct (intsetSearch_models I xs v HI) as [(p & E & Hp) | (p & E & Hp)].
    + assert (v ∈ xs) by by eapply list_elem_of_lookup_2.
      destruct (intsetRemove_found junk I xs v p) as (I' & E' & HI'); try done.
      exists I'. rewrite E', bool_decide_eq_true_2 by set_solver. split; [done|].
      eexists. split; [exact HI'|]. rewrite (list_del_set v); [done|apply HI|done].
    + pose proof (insertion_point_not_in xs v p Hp).
      exists I. unfold intsetRemove. destruct (_ <=? _) eqn:Egt; [|lia]. rewrite E. rs.
      rewrite bool_decide_eq_false_2 by set_solver. split; [done|].
      exists xs. split; [done|]. set_solver.
Qed.

(** C33: removing a value from an intset that holds [X] runs without fault,
    reports whether the value was there and leaves an intset for [X] without it. *)
Theorem intsetRemove_spec junk I X v :
  intset_models I X → is_i64 v →
  ∃ I', intsetRemove junk I v = Ok (I', bool_decide (v ∈ X)) ∧ intset_models I' (X ∖ {[v]}).
Proof. apply intsetRemove_ok. Qed.

(** [intsetFind] decides membership in the set held, for every 64-bit
    value, also those that do not fit the encoding. *)
Theorem intsetFind_spec I X v :
  intset_models I X → is_i64 v → intsetFind I v = Ok (bool_decide (v ∈ X)).
Proof.
  intros (xs & HI & ->) Hv. unfold intsetFind.
  destruct (_ <=? _) eqn:Hle.
  - destruct (intsetSearch_models I xs v HI) as [(p & -> & Hp) | (p & -> & Hp)]; rs; f_equal; symmetry.
    + apply bool_decide_eq_true_2. apply elem_of_list_to_set. by eapply list_elem_of_lookup_2.
    + apply bool_decide_eq_false_2. rewrite elem_of_list_to_set.
      by eapply insertion_point_not_in.
  - f_equal. symmetry. apply bool_decide_eq_false_2. rewrite elem_of_list_to_set.
    apply (not_fits_not_in I); [done|done|lia].
Qed.

(** ** Validation of untrusted bytes *)

(** Any bytes are the array of some integers. *)
Lemma flat_exists e n : enc_ok e → ∀ c,
  Forall is_byte c → zlen c = e * Z.of_nat n →
  ∃ xs, length xs = n ∧ c = flat e xs ∧ Forall (fits e) xs.
Proof.
  intros He. pose proof (enc_ok_pos _ He) as Hpos.
  induction n as [|n IH]; intros c Hb Hc.
  { exists []. split_and!; [done| |constructor]. apply length_zero_iff_nil. lia. }
  destruct (IH (drop (Z.to_nat e) c)) as (xs & Hl & Hd & Hf).
  { by apply Forall_drop. } { rewrite length_drop. lia. }
  exists (wraps (8 * e) (le_val (take (Z.to_nat e) c)) :: xs). split_and!.
  - cbn. lia.
  - rewrite flat_cons, <- Hd. rewrite <- (take_drop (Z.to_nat e) c) at 1. f_equal.
    assert (length (take (Z.to_nat e) c) = Z.to_nat e) as Ht by (rewrite length_take; lia).
    rewrite <- (le_bytes_val (take (Z.to_nat e) c)) at 1 by by apply Forall_take.
    rewrite Ht. apply le_bytes_mod. rewrite Z2Nat.id by lia.
    change 256 with (2 ^ 8). rewrite <- Z.pow_mul_r, wraps_mod by lia. done.
  - constructor; [|done]. apply wraps_range. lia.
Qed.

Lemma intsetValidate_loop_ok I xs todo i prev :
  enc_ok (intrev32ifbe (encoding I)) → Forall (fits (intrev32ifbe (encoding I))) xs →
  contents I = flat (intrev32ifbe (encoding I)) xs →
  (todo + i = length xs)%nat →
  ∃ b, intsetValidate_loop todo I (Z.of_nat i) prev = Ok b ∧
       (b = true ↔ Sorted Z.lt (prev :: drop i xs)).
Proof.
  intros He Hf Hc. revert i prev. induction todo as [|todo IH]; intros i prev Hl.
  { exists true. rewrite drop_ge by lia. cbn. repeat constructor. }
  destruct (lookup_lt_is_Some_2 xs i) as [x Hx]; [lia|].
  cbn [intsetValidate_loop]. erewrite intsetGet_flat by done. rs.
  rewrite (drop_S _ _ _ Hx). destruct (_ <=? _) eqn:E.
  - exists false. split; [done|]. split; [done|].
    intros HS. apply Sorted_inv in HS as [_ HS]. inversion HS. lia.
  - destruct (IH (S i) x) as (b & Eb & Hb); [lia|].
    exists b. rewrite <- Eb. split; [f_equal; lia|]. rewrite Hb.
    split; intros HS; [|by inversion HS].
    constructor; [done|]. constructor. lia.
Qed.

Lemma flat_inj I xs ys :
  enc_ok (intrev32ifbe (encoding I)) → length xs = length ys →
  contents I = flat (intrev32ifbe (encoding I)) xs → Forall (fits (intrev32ifbe (encoding I))) xs →
  contents I = flat (intrev32ifbe (encoding I)) ys → Forall (fits (intrev32ifbe (encoding I))) ys →
  xs = ys.
Proof.
  intros He Hl Hx Hfx Hy Hfy. apply list_eq_same_length with (length xs); [done..|].
  intros i x y _ Hi Hj.
  pose proof (intsetGet_flat I xs i x _ He Hfx Hx Hi eq_refl).
  pose proof (intsetGet_flat I ys i y _ He Hfy Hy Hj eq_refl). congruence.
Qed.

(** A non-empty array passes the deep check exactly when it is sorted. *)
Lemma intsetValidate_deep I xs :
  enc_ok (intrev32ifbe (encoding I)) → Forall (fits (intrev32ifbe (encoding I))) xs →
  contents I = flat (intrev32ifbe (encoding I)) xs → xs ≠ [] →
  ∃ b, (prev ← _intsetGet I 0; intsetValidate_loop (Z.to_nat (zlen xs - 1)) I 1 prev) = Ok b ∧
       (b = true ↔ StronglySorted Z.lt xs).
Proof.
  intros He Hf Hc Hne. destruct xs as [|x xs]; [done|].
  rewrite (intsetGet_flat I (x :: xs) 0 x 0) by done. rs.
  destruct (intsetValidate_loop_ok I (x :: xs) (Z.to_nat (zlen (x :: xs) - 1)) 1 x)
    as (b & Eb & Hb); [done..|cbn; lia|].
  exists b. split; [done|]. rewrite Hb. cbn [drop].
  split; [apply Sorted_StronglySorted, _|apply StronglySorted_Sorted].
Qed.

(** the deep validation of untrusted bytes always ends without a read
    outside of them, and accepts exactly the images of non-empty well-formed
    intsets, which are the ones the other operations may be used on. *)
Theorem intsetValidateIntegrity_sound p :
  Forall is_byte p → intrev32ifbe (is_length (intset_cast p)) < INTSET_SAFE →
  ∃ b, intsetValidateIntegrity p (zlen p) true = Ok b ∧
       (b = true ↔ ∃ xs, xs ≠ [] ∧ 8 ≤ zlen p ∧ intset_rep (intset_cast p) xs).
Proof.
  intros Hb Hsz. pose proof Hsz as Hsz'. unfold INTSET_SAFE in Hsz. unfold intsetValidateIntegrity.
  destruct (zlen p <? INTSET_HDR) eqn:E8.
  { exists false. split; [done|]. split; [done|]. intros (xs & _ & ? & _). lia. }
  assert (zlen (contents (intset_cast p)) = zlen p - 8) as Hcl by (cbn; rewrite length_drop; lia).
  assert (Forall is_byte (contents (intset_cast p))) as Hcb by (cbn; by apply Forall_drop).
  assert (0 ≤ encoding (intset_cast p) < 2 ^ 32 ∧ 0 ≤ is_length (intset_cast p) < 2 ^ 32) as Hu.
  { split; apply native_load32_range; rewrite ?length_take, ?length_drop; try lia;
      by repeat (apply Forall_take || apply Forall_drop). }
  set (I := intset_cast p) in *. set (e := intrev32ifbe (encoding I)).
  pose proof (intrev32ifbe_range _ (proj2 Hu)) as Hlr.
  destruct (negb (_ || _)) eqn:Ee.
  { exists false. split; [done|]. split; [done|]. intros (xs & _ & _ & HI).
    pose proof (rep_enc _ _ HI) as He. fold e in He. unfold enc_ok in He. lia. }
  assert (enc_ok e) as He by (unfold enc_ok; lia). pose proof (enc_ok_pos _ He).
  rewrite u64_small by nia.
  destruct (negb (_ =? zlen p)) eqn:Esz.
  { exists false. split; [done|]. split; [done|]. intros (xs & _ & _ & HI).
    pose proof (rep_len _ _ HI). pose proof (f_equal length (rep_contents _ _ HI)) as Hc.
    apply (f_equal Z.of_nat) in Hc. fold e in Hc. rewrite length_flat in Hc by lia. lia. }
  destruct (_ =? 0) eqn:E0.
  { exists false. split; [done|]. split; [done|]. intros (xs & Hne & _ & HI).
    pose proof (rep_len _ _ HI). destruct xs; [done|]. cbn in *. lia. }
  destruct (flat_exists e (Z.to_nat (intrev32ifbe (is_length I))) He (contents I))
    as (xs & Hl & Hc & Hf); [done|nia|].
  assert (xs ≠ []) as Hne by (intros ->; cbn [length] in Hl; lia).
  destruct (intsetValidate_deep I xs) as (b & Eb & Hdeep); [done..|].
  exists b. cbn [negb]. split.
  { rewrite <- Eb. repeat f_equal. lia. }
  rewrite Hdeep. split.
  - intros Hs. exists xs. split_and!; [done|lia|]. split; try done; lia.
  - intros (ys & Hyne & _ & HI). replace xs with ys; [apply HI|].
    eapply (flat_inj I); try (done || apply HI). pose proof (rep_len _ _ HI). lia.
Qed.

(** ** Queries *)

(** on a non-empty set, the length is the number of members, minimum and
    maximum are the least and the greatest, a random pick is a member, and the
    positions enumerate the members in ascending order. *)
Theorem intset_queries I X :
  intset_models I X → X ≠ ∅ →
  intsetLen I = Z.of_nat (size X) ∧
  (∃ m, intsetMin I = Ok m ∧ m ∈ X ∧ ∀ y, y ∈ X → m ≤ y) ∧
  (∃ m, intsetMax I = Ok m ∧ m ∈ X ∧ ∀ y, y ∈ X → y ≤ m) ∧
  (∀ r, 0 ≤ r → ∃ x, intsetRandom I r = Ok x ∧ x ∈ X) ∧
  (∀ pos, Z.of_nat (size X) ≤ pos → intsetGet I pos = Ok None) ∧
  (∀ pos, 0 ≤ pos < Z.of_nat (size X) → ∃ x, intsetGet I pos = Ok (Some x) ∧ x ∈ X ∧
     ∀ pos' y, pos < pos' → intsetGet I pos' = Ok (Some y) → x < y).
Proof.
  intros (xs & HI & ->) Hne. rewrite (models_size I xs) by done.
  pose proof (rep_len _ _ HI) as Hlen. pose proof (rep_size _ _ HI) as Hsz. unfold INTSET_SAFE in Hsz.
  assert (0 < zlen xs) as Hpos by (destruct xs; [done|cbn [length]; lia]).
  assert (∀ pos, 0 ≤ pos < zlen xs → ∃ x, xs !! Z.to_nat pos = Some x ∧ _intsetGet I pos = Ok x
    ∧ x ∈ (list_to_set xs : gset Z)) as Hget.
  { intros pos Hp. destruct (lookup_lt_is_Some_2 xs (Z.to_nat pos)) as [x Hx]; [lia|].
    exists x. split; [done|]. rewrite (intsetGet_rep I xs (Z.to_nat pos) x) by (done || lia).
    split; [done|]. apply elem_of_list_to_set. by eapply list_elem_of_lookup_2. }
  assert (∀ i j x y, xs !! i = Some x → xs !! j = Some y → (i ≤ j)%nat → x ≤ y) as Hmono.
  { intros i j x y Hi Hj Hij. destruct (decide (i = j)) as [->|]; [simplify_eq; lia|].
    assert (x < y); [|lia]. eapply sorted_lookup_lt; [apply HI|done..|lia]. }
  split_and!.
  - done.
  - destruct (Hget 0) as (x & Hx & E & Hin); [lia|]. exists x. split_and!; [done..|].
    intros y (j & Hj)%elem_of_list_to_set%list_elem_of_lookup. eapply Hmono; [done..|lia].
  - unfold intsetMax. rewrite Hlen, s32_small by lia.
    destruct (Hget (zlen xs - 1)) as (x & Hx & E & Hin); [lia|]. exists x. split_and!; [done..|].
    intros y (j & Hj)%elem_of_list_to_set%list_elem_of_lookup. eapply Hmono; [done..|].
    apply lookup_lt_Some in Hj. lia.
  - intros r Hr. unfold intsetRandom. rewrite Hlen, assert_true by lia. rs.
    destruct (Hget (r mod zlen xs)) as (x & _ & -> & Hin); [apply Z.mod_pos_bound; lia|]. eauto.
  - intros pos Hp. unfold intsetGet. rewrite Hlen. destruct (_ <? _) eqn:E; [lia|done].
  - intros pos Hp. unfold intsetGet. rewrite Hlen. destruct (_ <? _) eqn:E; [|lia].
    destruct (Hget pos Hp) as (x & Hx & E' & Hin). rewrite s32_small, E' by lia. rs.
    exists x. split_and!; [done..|]. intros pos' y Hlt Hy.
    destruct (pos' <? zlen xs) eqn:E2; [|done]. rewrite s32_small in Hy by lia.
    destruct (Hget pos') as (x' & Hx' & E'' & _); [lia|]. rewrite E'' in Hy. cbn in Hy. simplify_eq.
    eapply sorted_lookup_lt; [apply HI|done..|lia].
Qed.

Lemma intset_new_models : intset_models intsetNew ∅.
Proof.
  exists []. split; [|done].
  split; cbn [encoding is_length contents intsetNew].
  - split; [apply intrev32ifbe_range; lia|lia].
  - left. apply intrev32ifbe_invol. lia.
  - unfold intrev32ifbe, intrev32, native_load, native_store. by destruct big_endian.
  - done.
  - done.
  - constructor.
  - constructor.
Qed.

(** ** The bytes of an intset *)

Lemma intset_blob_le I xs :
  intset_rep I xs →
  intset_blob I = le_bytes 4 (intrev32ifbe (encoding I)) ++ le_bytes 4 (zlen xs) ++
                  flat (intrev32ifbe (encoding I)) xs.
Proof.
  intros HI. unfold intset_blob. pose proof (rep_u32 _ _ HI) as [Hu1 Hu2].
  rewrite (rep_contents _ _ HI), <- (rep_len _ _ HI).
  rewrite <- (intrev32ifbe_invol (encoding I)) at 1 by done.
  rewrite <- (intrev32ifbe_invol (is_length I)) at 1 by done.
  by rewrite !field32_le by by apply intrev32ifbe_range.
Qed.

Lemma native_load_le4 v : 0 ≤ v < 2 ^ 32 → native_load (le_bytes 4 v) = intrev32ifbe v.
Proof.
  intros Hv. rewrite <- field32_le, native_load_store by done.
  apply Z.mod_small. by apply intrev32ifbe_range.
Qed.
End intset.

(** the bytes an intset has on one machine, read on another of either byte
    order, are an intset with the same elements. *)
Theorem intset_blob_portable (A1 A2 : Arch) I xs :
  @intset_rep A1 I xs → @intset_rep A2 (@intset_cast A2 (@intset_blob A1 I)) xs.
Proof.
  intros HI. rewrite (@intset_blob_le A1 I xs HI).
  pose proof (@rep_enc A1 _ _ HI) as He. pose proof (enc_ok_pos _ He).
  pose proof (@rep_size A1 _ _ HI) as Hsz. unfold INTSET_SAFE in Hsz.
  set (e := @intrev32ifbe A1 (encoding I)) in *.
  assert (@intset_cast A2 (le_bytes 4 e ++ le_bytes 4 (zlen xs) ++ flat e xs) =
    mk_intset (@intrev32ifbe A2 e) (@intrev32ifbe A2 (zlen xs)) (flat e xs)) as ->.
  { rewrite <- !native_load_le4 by lia. done. }
  split; cbn [encoding is_length contents]; rewrite ?intrev32ifbe_invol by lia;
    try (done || apply HI). split; apply intrev32ifbe_range; lia.
Qed.

(** ** The 32-bit byte count of [intsetMoveTail] *)

(** With 2^29 elements of 64 bits the byte count wraps to zero, so making room
    for a new first element moves nothing, and the write that follows destroys
    the old one.  [t_set.c] limits intsets to 2^30 elements. *)
Theorem intsetMoveTail_overflow `{Arch} I :
  intrev32ifbe (encoding I) = INTSET_ENC_INT64 → intrev32ifbe (is_length I) = 2 ^ 29 →
  8 * (2 ^ 29 + 1) ≤ zlen (contents I) →
  intsetMoveTail I 0 1 = Ok I.
Proof.
  intros He Hl Hc. unfold intsetMoveTail. rewrite He, Hl. cbn [Z.eqb Pos.eqb].
  change (u32 (u32 (2 ^ 29 - 0) * 8)) with 0. unfold memmove.
  rewrite mem_read_ok by lia. rs. change (Z.to_nat 0) with O. rewrite take_0.
  rewrite mem_write_ok by (cbn [length]; lia). rs.
  cbn [app length]. rewrite Nat.add_0_r, take_drop. by destruct I.
Qed.

(** ** Concrete instances *)

Definition le_host : Arch := {| big_endian := false |}.
Definition be_host : Arch := {| big_endian := true |}.
Definition junk0 : nat → Z := fun _ => 165.

(** [{-3, 500}] in 16 bits. *)
Definition intset_ex : intset := mk_intset 2 2 [253; 255; 244; 1].

Lemma intset_ex_rep : @intset_rep le_host intset_ex [-3; 500].
Proof.
  split; [cbn; lia|by left|done|done|done|..]; repeat constructor; by vm_compute.
Qed.

Lemma intset_ex_models : @intset_models le_host intset_ex {[-3; 500]}.
Proof. exists [-3; 500]. split; [apply intset_ex_rep|]. set_solver. Qed.

Lemma intsetAdd_spec_witness :
  ∃ I', @intsetAdd le_host junk0 intset_ex 70000 = Ok (I', true) ∧
        @intset_models le_host I' ({[70000]} ∪ {[-3; 500]}).
Proof.
  destruct (@intsetAdd_spec le_host junk0 intset_ex {[-3; 500]} 70000) as (I' & E & HI');
    [apply intset_ex_models|done|done|].
  exists I'. split; [|exact HI']. by rewrite E, bool_decide_eq_true_2 by set_solver.
Defined.

Lemma intsetRemove_spec_witness :
  ∃ I', @intsetRemove le_host junk0 intset_ex 500 = Ok (I', true) ∧
        @intset_models le_host I' ({[-3; 500]} ∖ {[500]}).
Proof.
  destruct (@intsetRemove_spec le_host junk0 intset_ex {[-3; 500]} 500) as (I' & E & HI');
    [apply intset_ex_models|done|].
  exists I'. split; [|exact HI']. by rewrite E, bool_decide_eq_true_2 by set_solver.
Defined.

Lemma intsetFind_spec_witness : @intsetFind le_host intset_ex 500 = Ok true.
Proof.
  rewrite (@intsetFind_spec le_host intset_ex {[-3; 500]} 500); [|apply intset_ex_models|done].
  by rewrite bool_decide_eq_true_2 by set_solver.
Defined.

Lemma intsetValidateIntegrity_sound_witness :
  ∃ b, @intsetValidateIntegrity le_host [2;0;0;0;2;0;0;0;253;255;244;1] 12 true = Ok b ∧
       (b = true ↔ ∃ xs, xs ≠ [] ∧ 8 ≤ 12 ∧
          @intset_rep le_host (@intset_cast le_host [2;0;0;0;2;0;0;0;253;255;244;1]) xs).
Proof.
  apply (@intsetValidateIntegrity_sound le_host [2;0;0;0;2;0;0;0;253;255;244;1]);
    [by repeat constructor|done].
Defined.

Lemma intset_queries_witness :
  intsetLen (H := le_host) intset_ex = Z.of_nat (size ({[-3; 500]} : gset Z)).
Proof.
  apply (@intset_queries le_host intset_ex); [apply intset_ex_models|set_solver].
Defined.

Lemma intset_blob_portable_witness :
  @intset_rep be_host (@intset_cast be_host (@intset_blob le_host intset_ex)) [-3; 500].
Proof. apply (intset_blob_portable le_host be_host), intset_ex_rep. Defined.

Lemma intsetMoveTail_overflow_witness :
  @intsetMoveTail le_host (mk_intset 8 (2 ^ 29) (repeat 0 (Z.to_nat (8 * (2 ^ 29 + 1))))) 0 1 =
  Ok (mk_intset 8 (2 ^ 29) (repeat 0 (Z.to_nat (8 * (2 ^ 29 + 1))))).
Proof.
  apply (@intsetMoveTail_overflow le_host); [done|done|].
  cbn [contents]. rewrite repeat_length, Z2Nat.id; lia.
Defined.

(** The widening add of the witness, run on both kinds of host. *)
Example intsetAdd_runs :
  @intsetAdd le_host junk0 intset_ex 70000 =
    Ok (mk_intset 4 3 [253;255;255;255; 244;1;0;0; 112;17;1;0], true) ∧
  (r ← @intsetAdd be_host junk0 (mk_intset 33554432 33554432 [253;255;244;1]) (-70000);
   Ok (contents (fst r))) = Ok [144;238;254;255; 253;255;255;255; 244;1;0;0].
Proof. split; vm_compute; reflexivity. Qed.
