(* ===== verification/Glob.v ===== *)
(** Glob-style matching: [stringmatchlen] and [prefixmatch] of [util.c].

    Strings are lists of the values of their [char]s; a pattern is followed in
    memory by its terminator, which is what [pattern[1]] reads when one
    character is left.  A pointer that advances over a string is the list of the
    characters that are left, so [pattern++; patternLen--] is the tail.  The
    reference semantics of a pattern is a list of items, a star or a set of
    characters, with the usual meaning. *)

From S2P Require Import Prelude.

Abbreviation ch_star := 42.
Abbreviation ch_quest := 63.
Abbreviation ch_lbrack := 91.
Abbreviation ch_rbrack := 93.
Abbreviation ch_backslash := 92.
Abbreviation ch_caret := 94.
Abbreviation ch_dash := 45.

(** [tolower] of the C locale. *)
Definition tolower (c : Z) : Z := if (65 <=? c) && (c <=? 90) then c + 32 else c.

(** [while (patternLen && pattern[1] == '*')], from a pattern whose first
    character is a star. *)
Fixpoint collapse_stars (p : list Z) : list Z :=
  match p with
  | _ :: (d :: _) as r => if d =? ch_star then collapse_stars r else p
  | _ => p
  end.

(** [while(patternLen && *pattern == '*')] *)
Fixpoint drop_stars (p : list Z) : list Z :=
  match p with
  | c :: r => if c =? ch_star then drop_stars r else p
  | [] => []
  end.

Definition char_eq (nocase : bool) (a b : Z) : bool :=
  if nocase then tolower a =? tolower b else a =? b.

(** The test of an interval [a-b] of a character class. *)
Definition range_match (nocase : bool) (start end_ c : Z) : bool :=
  let '(start, end_) := if start >? end_ then (end_, start) else (start, end_) in
  let '(start, end_, c) :=
    if nocase then (tolower start, tolower end_, tolower c) else (start, end_, c) in
  (c >=? start) && (c <=? end_).

(** The [while(1)] over the characters of a class, for the character [c] of the
    string: whether it matches, and the pattern after the class.  At the end of
    an unterminated class the code steps back one character before it breaks,
    and the [pattern++] after the switch then leaves the empty pattern. *)
Fixpoint class_loop (nocase : bool) (p : list Z) (c : Z) (match_ : bool) : bool * list Z :=
  match p with
  | [] => (match_, [])
  | a :: p1 =>
      match p1 with
      | b :: p2 =>
          if a =? ch_backslash then class_loop nocase p2 c (match_ || (b =? c))
          else if a =? ch_rbrack then (match_, p1)
          else match p2 with
               | e :: p3 =>
                   if b =? ch_dash
                   then class_loop nocase p3 c (match_ || range_match nocase a e c)
                   else class_loop nocase p1 c (match_ || char_eq nocase a c)
               | [] => class_loop nocase p1 c (match_ || char_eq nocase a c)
               end
      | [] =>
          if a =? ch_rbrack then (match_, p1)
          else class_loop nocase p1 c (match_ || char_eq nocase a c)
      end
  end.

(** The whole [case '[']: [p] is the pattern after the bracket. *)
Definition class_match (nocase : bool) (p : list Z) (c : Z) : bool * list Z :=
  let '(not_, p) :=
    match p with
    | a :: r => if a =? ch_caret then (true, r) else (false, p)
    | [] => (false, p)
    end in
  let '(m, r) := class_loop nocase p c false in
  (if not_ then negb m else m, r).

(** The cases of the switch that consume one character [c] of the string, for a
    pattern [pc :: p]: [None] when they return 0, the pattern that is left
    otherwise. *)
Definition match_char (nocase : bool) (pc : Z) (p : list Z) (c : Z) : option (list Z) :=
  if pc =? ch_quest then Some p
  else if pc =? ch_lbrack then
    let '(m, r) := class_match nocase p c in if m : bool then Some r else None
  else if pc =? ch_backslash then
    match p with
    | b :: r => if char_eq nocase b c then Some r else None
    | [] => if char_eq nocase pc c then Some p else None
    end
  else if char_eq nocase pc c then Some p else None.

(** The loop of [case '*'] over the places where the rest of the pattern may
    start; [rec] is the nested call. *)
Fixpoint star_loop (rec : list Z → bool → bool * bool) (string : list Z) (skip : bool)
    : bool * bool :=
  match string with
  | [] => (false, true)
  | _ :: s =>
      let '(m, skip) := rec string skip in
      if m : bool then (true, skip)
      else if skip : bool then (false, skip)
      else star_loop rec s skip
  end.

(** [stringmatchlen_impl]: the result and [*skipLongerMatches].  [fuel] bounds
    the number of turns of the main loop and of nested calls, each of which
    consumes a character of the pattern, so one more than its length is enough;
    [impl_loop] is the code after the test of [nesting]. *)
Fixpoint impl_loop (fuel : nat) (nocase : bool) (pattern string : list Z) (skip : bool)
    (nesting : Z) : bool * bool :=
  match fuel with
  | O => (false, skip)
  | S fuel =>
      match pattern, string with
      | pc :: p, c :: s =>
          if pc =? ch_star then
            match collapse_stars pattern with
            | _ :: (_ :: _) as rest =>
                star_loop (fun string skip =>
                  if nesting + 1 >? 1000 then (false, skip)
                  else impl_loop fuel nocase rest string skip (nesting + 1)) string skip
            | _ => (true, skip)
            end
          else
            match match_char nocase pc p c with
            | None => (false, skip)
            | Some p =>
                match s with
                | [] => (match drop_stars p with [] => true | _ => false end, skip)
                | _ => impl_loop fuel nocase p s skip nesting
                end
            end
      | [], [] => (true, skip)
      | _, _ => (false, skip)
      end
  end.

Definition stringmatchlen_impl (nocase : bool) (pattern string : list Z) (skip : bool)
    (nesting : Z) : bool * bool :=
  if nesting >? 1000 then (false, skip)
  else impl_loop (S (length pattern)) nocase pattern string skip nesting.

Definition stringmatchlen (pattern string : list Z) (nocase : bool) : bool :=
  fst (stringmatchlen_impl nocase pattern string false 0).

(** [stringmatch] on C strings: the characters before the terminator. *)
Fixpoint c_string (s : list Z) : list Z :=
  match s with
  | c :: s => if c =? 0 then [] else c :: c_string s
  | [] => []
  end.
Definition stringmatch (pattern string : list Z) (nocase : bool) : bool :=
  stringmatchlen (c_string pattern) (c_string string) nocase.

(** The number of backslashes at the end of [p], counted backwards. *)
Fixpoint count_backslashes (rp : list Z) : nat :=
  match rp with
  | c :: rp => if c =? ch_backslash then S (count_backslashes rp) else O
  | [] => O
  end.

Definition prefixmatch (pattern prefixStr : list Z) (nocase : bool) : bool :=
  if negb (fst (stringmatchlen_impl nocase pattern prefixStr false 0)) then false
  else match rev pattern with
       | last :: before =>
           if last =? ch_star then (count_backslashes before mod 2 =? 0)%nat else false
       | [] => false
       end.

(** ** What a pattern means *)

Inductive item := Star | Chr (f : Z → bool).

(** The pattern after a class, which does not depend on the character. *)
Definition class_rest (nocase : bool) (p : list Z) : list Z := snd (class_match nocase p 0).

Fixpoint items (fuel : nat) (nocase : bool) (p : list Z) : list item :=
  match fuel, p with
  | S fuel, pc :: p' =>
      if pc =? ch_star then Star :: items fuel nocase p'
      else if pc =? ch_quest then Chr (fun _ => true) :: items fuel nocase p'
      else if pc =? ch_lbrack then
        Chr (fun c => fst (class_match nocase p' c)) :: items fuel nocase (class_rest nocase p')
      else if pc =? ch_backslash then
        match p' with
        | b :: r => Chr (char_eq nocase b) :: items fuel nocase r
        | [] => [Chr (char_eq nocase pc)]
        end
      else Chr (char_eq nocase pc) :: items fuel nocase p'
  | _, _ => []
  end.

Definition pattern_items (nocase : bool) (p : list Z) : list item :=
  items (length p) nocase p.

Inductive glob : list item → list Z → Prop :=
| glob_nil : glob [] []
| glob_chr f l c s : f c = true → glob l s → glob (Chr f :: l) (c :: s)
| glob_star_stop l s : glob l s → glob (Star :: l) s
| glob_star_more l c s : glob (Star :: l) s → glob (Star :: l) (c :: s).

Fixpoint stars (l : list item) : nat :=
  match l with
  | [] => O
  | Star :: l => S (stars l)
  | _ :: l => stars l
  end.

(** ** Correctness *)

Lemma class_loop_rest nocase p : ∀ c c' m m',
  snd (class_loop nocase p c m) = snd (class_loop nocase p c' m').
Proof.
  induction p as [[|a p1] IH] using (induction_ltof1 _ (@length Z)); [done|].
  unfold ltof in IH. intros c c' m m'. cbn [class_loop].
  destruct p1 as [|b p2]; [|destruct p2 as [|e p3]]; repeat case_match; try done;
    apply IH; cbn [length]; lia.
Qed.

Lemma class_loop_length nocase p : ∀ c m,
  (length (snd (class_loop nocase p c m)) ≤ length p)%nat.
Proof.
  induction p as [[|a p1] IH] using (induction_ltof1 _ (@length Z)); [done|].
  unfold ltof in IH. intros c m. cbn [class_loop].
  destruct p1 as [|b p2]; [|destruct p2 as [|e p3]]; repeat case_match; cbn [snd];
    try (etrans; [apply IH|]); cbn [length]; lia.
Qed.

Lemma class_match_eq nocase p c :
  class_match nocase p c = (fst (class_match nocase p c), class_rest nocase p).
Proof.
  unfold class_rest, class_match.
  destruct (match p with [] => _ | _ => _ end) as [n q].
  pose proof (class_loop_rest nocase q c 0 false false) as E.
  destruct (class_loop nocase q c false), (class_loop nocase q 0 false). cbn in *. by subst.
Qed.

Lemma class_rest_length nocase p : (length (class_rest nocase p) ≤ length p)%nat.
Proof.
  unfold class_rest, class_match.
  destruct (match p with [] => _ | _ => _ end) as [n q] eqn:E.
  pose proof (class_loop_length nocase q 0 false) as Hl.
  destruct (class_loop nocase q 0 false). cbn in *.
  assert (length q ≤ length p)%nat; [|lia].
  destruct p; [by simplify_eq|]. case_match; simplify_eq; cbn; lia.
Qed.

Lemma items_fuel nocase n : ∀ m p,
  (length p ≤ n)%nat → (length p ≤ m)%nat → items n nocase p = items m nocase p.
Proof.
  induction n as [|n IH]; intros m p Hn Hm.
  { destruct p; [|cbn in Hn; lia]. by destruct m. }
  destruct p as [|pc p]; [by destruct m|]. destruct m as [|m]; [cbn in Hm; lia|].
  cbn [length] in *. pose proof (class_rest_length nocase p).
  cbn [items]. repeat case_match; subst; cbn [length] in *; f_equal; apply IH; lia.
Qed.

Lemma pattern_items_star nocase p :
  pattern_items nocase (ch_star :: p) = Star :: pattern_items nocase p.
Proof. done. Qed.

(** One character of the string against a pattern that does not start with a
    star is the first item. *)
Lemma match_char_items nocase pc p :
  pc ≠ ch_star →
  ∃ f r, pattern_items nocase (pc :: p) = Chr f :: pattern_items nocase r ∧
         (length r ≤ length p)%nat ∧
         ∀ c, match_char nocase pc p c = if f c then Some r else None.
Proof.
  intros Hs. unfold pattern_items at 1, match_char. cbn [length items].
  destruct (pc =? ch_star) eqn:E; [lia|]. clear E.
  destruct (pc =? ch_quest); [|destruct (pc =? ch_lbrack); [|destruct (pc =? ch_backslash)]].
  - by exists (fun _ => true), p.
  - exists (fun c => fst (class_match nocase p c)), (class_rest nocase p).
    pose proof (class_rest_length nocase p). split_and!; [|done|].
    + f_equal. unfold pattern_items. apply items_fuel; lia.
    + intros c. rewrite class_match_eq. by destruct (fst _).
  - destruct p as [|b r]; [by exists (char_eq nocase pc), []|].
    exists (char_eq nocase b), r. split_and!; [|cbn; lia|done].
    f_equal. unfold pattern_items. apply items_fuel; cbn; lia.
  - by exists (char_eq nocase pc), p.
Qed.

Lemma glob_star_iff l s : glob (Star :: l) s ↔ ∃ s1 s2, s = s1 ++ s2 ∧ glob l s2.
Proof.
  split.
  - intros H. remember (Star :: l) as k eqn:E. induction H; simplify_eq.
    + by exists [], s.
    + destruct IHglob as (s1 & s2 & -> & Hg); [done|]. by exists (c :: s1), s2.
  - intros (s1 & s2 & -> & Hg). induction s1; [by constructor|by apply glob_star_more].
Qed.

Lemma glob_star_star l s : glob (Star :: Star :: l) s ↔ glob (Star :: l) s.
Proof.
  split; [|by constructor]. intros (s1 & s2 & -> & (t1 & t2 & -> & Hg)%glob_star_iff)%glob_star_iff.
  apply glob_star_iff. exists (s1 ++ t1), t2. by rewrite (assoc_L (++)).
Qed.

Lemma glob_star_cons l c s : glob (Star :: l) (c :: s) ↔ glob l (c :: s) ∨ glob (Star :: l) s.
Proof.
  split; [|intros [?|?]; by constructor]. intros H. inversion H; subst; auto.
Qed.

Lemma glob_chr_cons f l c s : glob (Chr f :: l) (c :: s) ↔ f c = true ∧ glob l s.
Proof. split; [by inversion 1|intros []; by constructor]. Qed.

Lemma collapse_stars_spec nocase p :
  ∃ rest, collapse_stars (ch_star :: p) = ch_star :: rest ∧
    (length rest ≤ length p)%nat ∧
    (∀ s, glob (pattern_items nocase (ch_star :: p)) s ↔ glob (Star :: pattern_items nocase rest) s) ∧
    (S (stars (pattern_items nocase rest)) ≤ stars (pattern_items nocase (ch_star :: p)))%nat ∧
    match rest with pc :: _ => pc ≠ ch_star | [] => True end.
Proof.
  induction p as [|d p IH]; [by exists []|].
  change (collapse_stars (ch_star :: d :: p)) with
    (if d =? ch_star then collapse_stars (d :: p) else ch_star :: d :: p).
  destruct (Z.eqb_spec d ch_star) as [->|Hd].
  - destruct IH as (rest & -> & Hl & Hg & Hs & Hr). exists rest.
    split_and!; [done|cbn; lia| | |done].
    + intros s. rewrite pattern_items_star in *. rewrite pattern_items_star, glob_star_star. apply Hg.
    + rewrite !pattern_items_star in *. cbn [stars] in *. lia.
  - exists (d :: p). split_and!; try done.
Qed.

Lemma drop_stars_spec nocase p :
  glob (pattern_items nocase p) [] ↔ drop_stars p = [].
Proof.
  induction p as [|c p IH]; cbn [drop_stars]; [by split; [|constructor]|].
  destruct (Z.eqb_spec c ch_star) as [->|Hc].
  - rewrite pattern_items_star, <- IH. split; [by inversion 1|by constructor].
  - destruct (match_char_items nocase c p Hc) as (f & r & -> & _). by split; [inversion 1|].
Qed.

(** What the flag [skipLongerMatches] promises: no suffix of the string matches. *)
Definition impl_ok (l : list item) (s : list Z) (r : bool * bool) : Prop :=
  (fst r = true ↔ glob l s) ∧ (fst r = false → snd r = true → ¬ glob (Star :: l) s).

Lemma star_loop_ok l rec s :
  (∀ c s1 s2, s = s1 ++ c :: s2 → impl_ok l (c :: s2) (rec (c :: s2) false)) →
  ¬ glob l [] →
  (fst (star_loop rec s false) = true ↔ glob (Star :: l) s).
Proof.
  induction s as [|c s IH]; intros Hrec Hl; cbn [star_loop].
  { split; [done|]. inversion 1; by subst. }
  destruct (Hrec c [] s eq_refl) as [Hm Hskip].
  destruct (rec (c :: s) false) as [[] skip]; cbn [fst snd] in *.
  { rewrite glob_star_cons. split; [|done]. intros _. left. by apply Hm. }
  destruct skip; cbn [fst].
  - split; [done|]. intros Hg. by destruct (Hskip eq_refl eq_refl).
  - rewrite IH; [|intros d s1 s2 ->; by apply (Hrec d (c :: s1))|done].
    rewrite glob_star_cons. split; [by right|]. intros [Hg|]; [|done]. by apply Hm in Hg.
Qed.

Lemma impl_loop_ok nocase fuel : ∀ p s nesting,
  (length p < fuel)%nat → s ≠ [] →
  0 ≤ nesting → nesting + Z.of_nat (stars (pattern_items nocase p)) ≤ 1000 →
  impl_ok (pattern_items nocase p) s (impl_loop fuel nocase p s false nesting).
Proof.
  induction fuel as [|fuel IH]; intros p s nesting Hf Hs Hn Hst; [lia|].
  destruct s as [|c s]; [done|]. cbn [impl_loop].
  destruct p as [|pc p].
  { split; cbn; [|done]. split; [done|]. by inversion 1. }
  destruct (Z.eqb_spec pc ch_star) as [->|Hpc].
  - destruct (collapse_stars_spec nocase p) as (rest & -> & Hl & Hg & Hst' & Hr).
    assert (impl_ok (pattern_items nocase (ch_star :: p)) (c :: s)
      (match rest with [] => (true, false) | _ :: _ =>
        star_loop (fun string skip => if nesting + 1 >? 1000 then (false, skip)
          else impl_loop fuel nocase rest string skip (nesting + 1)) (c :: s) false end)) as Hgoal;
      [|by destruct rest].
    destruct rest as [|rc rest].
    + split; cbn [fst snd]; [|done]. split; [|done]. intros _. apply Hg.
      apply glob_star_iff. exists (c :: s), []. rewrite app_nil_r. split; [done|constructor].
    + destruct (nesting + 1 >? 1000) eqn:E; [lia|].
      assert (fst (star_loop (λ (string : list Z) (skip : bool),
        impl_loop fuel nocase (rc :: rest) string skip (nesting + 1)) (c :: s) false) = true
        ↔ glob (Star :: pattern_items nocase (rc :: rest)) (c :: s)) as Hm.
      { apply star_loop_ok.
        - intros d s1 s2 _. apply IH; [cbn in *; lia|done|lia|lia].
        - destruct (match_char_items nocase rc rest Hr) as (f & r & -> & _). by inversion 1. }
      split; [by rewrite Hm, Hg|]. intros Hfalse _ Hgl.
      rewrite <- Hg in Hm. rewrite Hfalse in Hm. destruct Hm as [_ Hm].
      discriminate Hm. rewrite pattern_items_star in *. by apply glob_star_star.
  - destruct (match_char_items nocase pc p Hpc) as (f & r & Hi & Hl & Hmc).
    rewrite Hmc, Hi in *. destruct (f c) eqn:Ef.
    2: { split; cbn; [|done]. rewrite glob_chr_cons. split; [done|]. intros []. congruence. }
    assert (impl_ok (Chr f :: pattern_items nocase r) (c :: s)
      (match s with [] => (match drop_stars r with [] => true | _ => false end, false)
       | _ => impl_loop fuel nocase r s false nesting end)) as Hgoal; [|by destruct s].
    unfold impl_ok. rewrite glob_chr_cons. destruct s as [|c' s].
    + split; cbn [fst snd]; [|done]. rewrite drop_stars_spec.
      destruct (drop_stars r); naive_solver.
    + destruct (IH r (c' :: s) nesting) as [Hm Hskip]; [cbn in *; lia|done|done|by cbn in Hst|].
      split; [rewrite Hm; naive_solver|]. intros H1 H2 Hg.
      apply (Hskip H1 H2). apply glob_star_iff in Hg as (s1 & s2 & Es & Hg).
      apply glob_star_iff. inversion Hg; subst.
      destruct s1 as [|x s1]; simplify_list_eq; [by exists [], (c' :: s)|].
      exists (s1 ++ [c0]), s0. rewrite <- (assoc_L (++)). done.
Qed.

Lemma stringmatchlen_glob nocase p s :
  Z.of_nat (stars (pattern_items nocase p)) ≤ 1000 → s ≠ [] →
  stringmatchlen p s nocase = true ↔ glob (pattern_items nocase p) s.
Proof. intros Hst Hs. apply impl_loop_ok; [lia|done|lia|done]. Qed.

(** [prefixmatch] looks for an unescaped star at the end of the pattern by
    counting backslashes; without character classes this is the last item. *)
Lemma count_backslashes_app rp x :
  count_backslashes (rp ++ x) =
  if forallb (fun c => c =? ch_backslash) rp then (length rp + count_backslashes x)%nat
  else count_backslashes rp.
Proof.
  induction rp as [|c rp IH]; [done|]. cbn [app count_backslashes forallb length Nat.add].
  destruct (c =? ch_backslash); [|done]. rewrite IH. by destruct (forallb _ rp).
Qed.

Definition ends_unescaped (p : list Z) : Prop :=
  ∃ before, rev p = ch_star :: before ∧ Nat.even (count_backslashes before) = true.

Lemma ends_unescaped_tail c p :
  c ≠ ch_backslash → p ≠ [] → ends_unescaped (c :: p) → ends_unescaped p.
Proof.
  intros Hc Hp (before & Hb & He). cbn in Hb.
  destruct (rev p) as [|d rp] eqn:E.
  { apply (f_equal (@rev Z)) in E. rewrite rev_involutive in E. done. }
  cbn in Hb. simplify_eq. exists rp. split; [done|].
  rewrite count_backslashes_app in He. cbn [count_backslashes] in He.
  rewrite (proj2 (Z.eqb_neq c ch_backslash)) in He by done.
  destruct (forallb _ rp) eqn:F; [|done]. rewrite Nat.add_0_r in He.
  rewrite <- He. f_equal. rewrite <- (app_nil_r rp) at 1.
  rewrite count_backslashes_app, F. cbn. lia.
Qed.

Lemma ends_unescaped_tail2 b p :
  p ≠ [] → ends_unescaped (ch_backslash :: b :: p) → ends_unescaped p.
Proof.
  intros Hp (before & Hb & He). cbn in Hb.
  destruct (rev p) as [|d rp] eqn:E.
  { apply (f_equal (@rev Z)) in E. rewrite rev_involutive in E. done. }
  cbn in Hb. simplify_eq. exists rp. split; [done|].
  rewrite <- (assoc_L (++)), count_backslashes_app in He.
  destruct (forallb _ rp) eqn:F; [|done].
  rewrite <- (app_nil_r rp), count_backslashes_app, F.
  cbn [app count_backslashes Z.eqb Pos.eqb] in *.
  rewrite !Nat.even_add in *. destruct (b =? ch_backslash); cbn in *; done.
Qed.

Lemma ends_unescaped_items nocase p :
  ch_lbrack ∉ p → ends_unescaped p → ∃ l, pattern_items nocase p = l ++ [Star].
Proof.
  induction p as [[|c p] IH] using (induction_ltof1 _ (@length Z)); unfold ltof in IH.
  { intros _ (? & ? & _). done. }
  intros Hnb He. apply not_elem_of_cons in Hnb as [Hc Hnb].
  destruct (decide (c = ch_star)) as [->|Hs].
  { rewrite pattern_items_star. destruct (decide (p = [])) as [->|Hp]; [by exists []|].
    destruct (IH p) as [l ->]; [cbn; lia|done|by apply (ends_unescaped_tail ch_star)|].
    by exists (Star :: l). }
  unfold pattern_items. cbn [length items]. rewrite (proj2 (Z.eqb_neq c ch_star)) by done.
  rewrite (proj2 (Z.eqb_neq c ch_lbrack)) by done.
  destruct (decide (p = [])) as [->|Hp].
  { destruct He as (? & [= ? _] & _). done. }
  assert (c ≠ ch_backslash → ∃ l, pattern_items nocase p = l ++ [Star]) as Htail.
  { intros. apply IH; [cbn; lia|done|by apply (ends_unescaped_tail c)]. }
  destruct (Z.eqb_spec c ch_quest) as [->|_].
  { destruct Htail as [l E]; [done|]. exists (Chr (fun _ => true) :: l).
    unfold pattern_items in E. by rewrite E. }
  destruct (Z.eqb_spec c ch_backslash) as [->|Hb].
  - destruct p as [|b r]; [done|]. apply not_elem_of_cons in Hnb as [_ Hnb].
    destruct (decide (r = [])) as [->|Hr].
    { destruct He as (? & [= -> <-] & He). done. }
    destruct (IH r) as [l E]; [cbn; lia|done|by apply (ends_unescaped_tail2 b)|].
    exists (Chr (char_eq nocase b) :: l). cbn [app]. f_equal. rewrite <- E.
    unfold pattern_items. apply items_fuel; cbn; lia.
  - destruct Htail as [l E]; [done|]. exists (Chr (char_eq nocase c) :: l).
    unfold pattern_items in E. by rewrite E.
Qed.

Lemma glob_last_star l s t : glob (l ++ [Star]) s → glob (l ++ [Star]) (s ++ t).
Proof.
  intros H. remember (l ++ [Star]) as k eqn:E. revert l E.
  induction H as [|f k c s Hf Hg IH|k s Hg IH|k c s Hg IH]; intros l E.
  - by destruct l.
  - destruct l as [|i l]; simplify_list_eq. constructor; [done|]. by eapply IH.
  - destruct l as [|i l]; simplify_list_eq.
    + inversion Hg; subst. apply glob_star_iff. exists t, []. rewrite app_nil_r. split; [done|constructor].
    + constructor. by eapply IH.
  - destruct l as [|i l]; simplify_list_eq.
    + apply glob_star_more. by apply (IH []).
    + apply glob_star_more. by apply (IH (Star :: l)).
Qed.

(** ** Properties *)

(** C34: for a pattern with at most 1000 stars and a non-empty string, the
    matcher, with its early termination of the search for longer matches and
    its nesting limit, accepts exactly the strings of the glob pattern. *)
Theorem stringmatchlen_spec nocase p s :
  Z.of_nat (stars (pattern_items nocase p)) ≤ 1000 → s ≠ [] →
  stringmatchlen p s nocase = true ↔ glob (pattern_items nocase p) s.
Proof. apply stringmatchlen_glob. Qed.

(** the empty string is matched by the empty pattern only, so a pattern of
    stars, which stands for any string, does not match it. *)
Theorem stringmatchlen_empty nocase p :
  (stringmatchlen p [] nocase = true ↔ p = []) ∧
  glob (pattern_items nocase [ch_star]) [] ∧ stringmatchlen [ch_star] [] nocase = false.
Proof.
  split_and!; [|repeat constructor|done]. destruct p; cbn; [done|]. by split.
Qed.

(** when [prefixmatch] accepts a pattern without character classes for a
    prefix, every string that starts with the prefix matches the pattern. *)
Theorem prefixmatch_sound nocase p pre ext :
  Z.of_nat (stars (pattern_items nocase p)) ≤ 1000 → ch_lbrack ∉ p →
  prefixmatch p pre nocase = true → stringmatchlen p (pre ++ ext) nocase = true.
Proof.
  intros Hst Hnb. unfold prefixmatch. fold (stringmatchlen p pre nocase).
  destruct (stringmatchlen p pre nocase) eqn:E; [|done]. cbn [negb].
  destruct (rev p) as [|c before] eqn:Er; [done|].
  destruct (Z.eqb_spec c ch_star) as [->|]; [|done]. intros He.
  destruct (ends_unescaped_items nocase p Hnb) as [l El].
  { exists before. split; [done|]. apply Nat.eqb_eq in He.
    rewrite Nat.even_spec. exists (count_backslashes before / 2)%nat.
    pose proof (Nat.div_mod_eq (count_backslashes before) 2). lia. }
  destruct (decide (pre = [])) as [->|Hpre].
  { destruct p; [done|]. cbn in E. done. }
  apply stringmatchlen_glob in E; [|done..].
  apply stringmatchlen_glob; [done|by destruct pre|].
  rewrite El in *. by apply glob_last_star.
Qed.

(** the test of [prefixmatch] ignores character classes: it accepts the
    pattern [[a*], an unterminated class that matches one character, for the
    prefix [a], though [ab] does not match the pattern. *)
Theorem prefixmatch_class :
  let p := [ch_lbrack; 97; ch_star] in
  prefixmatch p [97] false = true ∧ stringmatchlen p [97; 98] false = false ∧
  ¬ glob (pattern_items false p) [97; 98].
Proof.
  split_and!; [done|done|]. intros H. apply stringmatchlen_glob in H; done.
Qed.

Lemma stringmatchlen_spec_witness :
  stringmatchlen [104; 42; 111] [104; 97; 111] false = true ↔
  glob (pattern_items false [104; 42; 111]) [104; 97; 111].
Proof. apply (stringmatchlen_spec false); done. Defined.

Lemma prefixmatch_sound_witness :
  stringmatchlen [97; 42] ([97; 98] ++ [99]) false = true.
Proof.
  apply (prefixmatch_sound false [97; 42] [97; 98] [99]); [done| |done]. set_solver.
Defined.
