(* ===== verification/Numstr.v ===== *)
(** Conversions between integers and decimal strings: [util.c].

    Destination buffers are byte lists of length [dstlen], written through the
    bounds-checked writes of [Prelude]; source strings are lists of characters.
    The reference is [dec], the decimal representation without leading zeroes. *)

From S2P Require Import Prelude.

Abbreviation ch_0 := 48.
Abbreviation ch_9 := 57.
Abbreviation ch_minus := 45.
Abbreviation ch_plus := 43.

(** [LONG_STR_SIZE] of [util.h] *)
Abbreviation LONG_STR_SIZE := 21.

Definition isdigit (c : Z) : bool := (ch_0 <=? c) && (c <=? ch_9).
Definition isspace (c : Z) : bool := (c =? 32) || ((9 <=? c) && (c <=? 13)).

(** [m[off] = b] *)
Definition mem_set (m : list Z) (off b : Z) : res (list Z) := mem_write m off [b].

(** ** From integers to strings *)

(** The recursion of [digits10] divides by 10^12, so two levels are enough for
    64 bits. *)
Fixpoint digits10_rec (depth : nat) (v : Z) : Z :=
  if v <? 10 then 1
  else if v <? 100 then 2
  else if v <? 1000 then 3
  else if v <? 1000000000000 then
    if v <? 100000000 then
      if v <? 1000000 then
        if v <? 10000 then 4 else 5 + (if v >=? 100000 then 1 else 0)
      else 7 + (if v >=? 10000000 then 1 else 0)
    else if v <? 10000000000 then 9 + (if v >=? 1000000000 then 1 else 0)
    else 11 + (if v >=? 100000000000 then 1 else 0)
  else match depth with
       | S depth => 12 + digits10_rec depth (v / 1000000000000)
       | O => 12
       end.
Definition digits10 (v : Z) : Z := digits10_rec 1 v.

Definition sdigits10 (v : Z) : Z :=
  if v <? 0 then
    let uv := if negb (v =? INT64_MIN) then u64 (- v) else INT64_MAX + 1 in
    digits10 uv + 1
  else digits10 v.

(** [static const char digits[201]]: the two digits of every number below 100. *)
Definition digits_table : list Z :=
  chars "0001020304050607080910111213141516171819" ++
  chars "2021222324252627282930313233343536373839" ++
  chars "4041424344454647484950515253545556575859" ++
  chars "6061626364656667686970717273747576777879" ++
  chars "8081828384858687888990919293949596979899" ++ [0].

(** [while (value >= 100)], with [value] and [next] at its end. *)
Fixpoint ull2string_loop (fuel : nat) (dst : list Z) (value next : Z) : res (list Z * Z * Z) :=
  match fuel with
  | O => Fault OutOfFuel
  | S fuel =>
      if value >=? 100 then
        let i := value mod 100 * 2 in
        let value := value / 100 in
        d1 ← mem_get digits_table (i + 1);
        dst ← mem_set dst next d1;
        d0 ← mem_get digits_table i;
        dst ← mem_set dst (next - 1) d0;
        ull2string_loop fuel dst value (u32 (next - 2))
      else Ok (dst, value, next)
  end.

(** [dst[0] = '\0'] of the error paths *)
Definition null_term (dst : list Z) : res (list Z) :=
  if zlen dst >? 0 then mem_set dst 0 0 else Ok dst.

(** The result and the buffer.  64 bits have at most ten pairs of digits. *)
Definition ull2string (dst : list Z) (value : Z) : res (Z * list Z) :=
  let length := digits10 value in
  if length >=? zlen dst then
    dst ← null_term dst; Ok (0, dst)
  else
    let next := u32 (length - 1) in
    dst ← mem_set dst (next + 1) 0;
    '(dst, value, next) ← ull2string_loop 11 dst value next;
    dst ← (if value <? 10 then mem_set dst next (ch_0 + value)
           else
             d1 ← mem_get digits_table (value * 2 + 1);
             dst ← mem_set dst next d1;
             d0 ← mem_get digits_table (value * 2);
             mem_set dst (next - 1) d0);
    Ok (length, dst).

(** [dst++; dstlen--] after the sign: the conversion works on the tail. *)
Definition ll2string (dst : list Z) (svalue : Z) : res (Z * list Z) :=
  if svalue <? 0 then
    let value := if negb (svalue =? INT64_MIN) then - svalue else INT64_MAX + 1 in
    if zlen dst <? 2 then dst ← null_term dst; Ok (0, dst)
    else
      '(length, rest) ← ull2string (drop 1 dst) value;
      let dst := ch_minus :: rest in
      if length =? 0 then Ok (0, dst) else Ok (length + 1, dst)
  else
    '(length, dst) ← ull2string dst svalue;
    if length =? 0 then Ok (0, dst) else Ok (length, dst).

(** ** From strings to integers *)

(** [while (plen < slen && p[0] >= '0' && p[0] <= '9')]: [None] when it returns
    on overflow, otherwise the value and the characters that are left. *)
Fixpoint parse_digits (p : list Z) (v : Z) : option (Z * list Z) :=
  match p with
  | c :: r =>
      if isdigit c then
        if v >? UINT64_MAX / 10 then None
        else let v := v * 10 in
             if v >? UINT64_MAX - (c - ch_0) then None
             else parse_digits r (v + (c - ch_0))
      else Some (v, p)
  | [] => Some (v, [])
  end.

(** [Some v]: 1 is returned and [*value = v]. *)
Definition string2ll (s : list Z) : option Z :=
  if (zlen s =? 0) || (zlen s >=? LONG_STR_SIZE) then None else
  if bool_decide (s = [ch_0]) then Some 0 else
  let '(negative, p) :=
    match s with
    | c :: r => if c =? ch_minus then (true, r) else (false, s)
    | [] => (false, s)
    end in
  match p with
  | c :: r =>
      if (49 <=? c) && (c <=? ch_9) then
        match parse_digits r (c - ch_0) with
        | Some (v, []) =>
            if negative : bool then
              if v >? - (INT64_MIN + 1) + 1 then None else Some (s64 (u64 (- v)))
            else if v >? INT64_MAX then None else Some v
        | _ => None
        end
      else None
  | [] => None
  end.

(** [long] has 64 bits. *)
Definition string2l (s : list Z) : option Z :=
  match string2ll s with
  | Some llval => if (llval <? INT64_MIN) || (llval >? INT64_MAX) then None else Some llval
  | None => None
  end.

(** [strtoull(s, &endptr, 10)] of the C library: the value, the characters from
    [endptr] on, and whether [errno] is [ERANGE]. *)
Fixpoint digits_value (v : Z) (s : list Z) : Z * list Z :=
  match s with
  | c :: r => if isdigit c then digits_value (v * 10 + (c - ch_0)) r else (v, s)
  | [] => (v, [])
  end.
Fixpoint skip_spaces (s : list Z) : list Z :=
  match s with
  | c :: r => if isspace c then skip_spaces r else s
  | [] => []
  end.
Definition strtoull (s : list Z) : Z * list Z * bool :=
  let t := skip_spaces s in
  let '(neg, t) :=
    match t with
    | c :: r => if c =? ch_minus then (true, r) else if c =? ch_plus then (false, r) else (false, t)
    | [] => (false, t)
    end in
  match t with
  | c :: _ =>
      if isdigit c then
        let '(v, rest) := digits_value 0 t in
        if v >? UINT64_MAX then (UINT64_MAX, rest, true)
        else (if neg : bool then u64 (- v) else v, rest, false)
      else (0, s, false)
  | [] => (0, s, false)
  end.

(** [s] is the string before its terminator. *)
Definition string2ull (s : list Z) : option Z :=
  match string2ll s with
  | Some ll => if ll <? 0 then None else Some ll
  | None =>
      let '(value, endptr, erange) := strtoull s in
      if erange || negb (negb (bool_decide (s = [])) && bool_decide (endptr = []))
      then None else Some value
  end.

Definition strcasecmp_eq (a b : list Z) : bool :=
  let lower := map (fun c => if (65 <=? c) && (c <=? 90) then c + 32 else c) in
  bool_decide (lower a = lower b).

Fixpoint skip_digits (s : list Z) : list Z :=
  match s with
  | c :: r => if isdigit c then skip_digits r else s
  | [] => []
  end.

(** The unit suffixes of [memtoull], [None] for an unknown one. *)
Definition mem_unit (u : list Z) : option Z :=
  if bool_decide (u = []) || strcasecmp_eq u (chars "b") then Some 1
  else if strcasecmp_eq u (chars "k") then Some 1000
  else if strcasecmp_eq u (chars "kb") then Some 1024
  else if strcasecmp_eq u (chars "m") then Some (1000 * 1000)
  else if strcasecmp_eq u (chars "mb") then Some (1024 * 1024)
  else if strcasecmp_eq u (chars "g") then Some (1000 * 1000 * 1000)
  else if strcasecmp_eq u (chars "gb") then Some (1024 * 1024 * 1024)
  else None.

(** The value and [*err].  [errno] is [EINVAL] only for a base the code does
    not use. *)
Definition memtoull (p : list Z) : Z * bool :=
  match p with
  | c :: _ => if c =? ch_minus then (0, true) else
      let u := skip_digits p in
      match mem_unit u with
      | None => (0, true)
      | Some mul =>
          let digits := zlen p - zlen u in
          if digits >=? 128 then (0, true)
          else let '(val, endptr, _) := strtoull (take (Z.to_nat digits) p) in
               if negb (bool_decide (endptr = [])) then (0, true)
               else (u64 (val * mul), false)
      end
  | [] => (0, false)
  end.

(** The index of the first character of [s] that is one of [chars]. *)
Fixpoint mempbrk (s chars : list Z) : option nat :=
  match s with
  | [] => None
  | c :: s => if existsb (Z.eqb c) chars then Some O else S <$> mempbrk s chars
  end.

(** One character of [memmapchars]: the inner loop stops at the first match. *)
Fixpoint map_char (c : Z) (from to : list Z) : Z :=
  match from, to with
  | f :: from, t :: to => if c =? f then t else map_char c from to
  | _, _ => c
  end.
Definition memmapchars (s from to : list Z) : list Z := map (fun c => map_char c from to) s.

Definition safe_is_c_in_range (c start fin : Z) : bool := (c >=? start) && (c <=? fin).
Definition base_16_char_type (c : Z) : Z :=
  if safe_is_c_in_range c 48 57 then 0
  else if safe_is_c_in_range c 97 102 then 1
  else if safe_is_c_in_range c 65 70 then 2
  else -1.
Definition ascii_to_dec (char_type : Z) : Z :=
  if char_type =? 0 then 48 else if char_type =? 1 then 97 - 10 else 65 - 10.

(** [src] is the memory from the pointer on, [idx] the current character; the
    character is read before its index is compared to [slen].  [None]: -1 is
    returned on overflow. *)
Fixpoint base16_loop (fuel : nat) (src : list Z) (slen idx result : Z) : res (option Z) :=
  match fuel with
  | O => Fault OutOfFuel
  | S fuel =>
      c ← mem_get src idx;
      let char_type := base_16_char_type c in
      if negb (char_type =? -1) && (idx <? slen) then
        let curr_val := c - ascii_to_dec char_type in
        if (result >? UINT64_MAX / 16) || (result >? (UINT64_MAX - curr_val) / 16) then Ok None
        else base16_loop fuel src slen (idx + 1) (result * 16 + curr_val)
      else Ok (Some result)
  end.
Definition string2ul_base16_async_signal_safe (src : list Z) (slen : Z) : res (option Z) :=
  base16_loop (S (Z.to_nat slen)) src slen 0 0.

(** ** Decimal representation *)

(** The decimal digits of [0 <= v < 10^20]. *)
Fixpoint dec_nat (fuel : nat) (v : Z) : list Z :=
  match fuel with
  | O => []
  | S fuel => if v <? 10 then [ch_0 + v] else dec_nat fuel (v / 10) ++ [ch_0 + v mod 10]
  end.
Definition dec (v : Z) : list Z := dec_nat 20 v.

(** The representation of a signed 64-bit integer *)
Definition decs (v : Z) : list Z := if v <? 0 then ch_minus :: dec (- v) else dec v.

Definition is_digit (c : Z) : Prop := ch_0 <= c <= ch_9.

(** The value of a string of digits read after the value [v] *)
Definition digval (v : Z) (ds : list Z) : Z := foldl (fun v c => v * 10 + (c - ch_0)) v ds.

Lemma isdigit_spec c : isdigit c = true <-> is_digit c.
Proof. unfold isdigit, is_digit. lia. Qed.

Lemma dec_nat_fuel n m v :
  0 <= v < 10 ^ Z.of_nat n -> v < 10 ^ Z.of_nat m -> (0 < n)%nat -> (0 < m)%nat ->
  dec_nat n v = dec_nat m v.
Proof.
  revert m v. induction n as [|n IH]; intros m v Hn Hm Hn0 Hm0; [lia|].
  destruct m as [|m]; [lia|]. cbn [dec_nat].
  destruct (v <? 10) eqn:E; [done|]. f_equal.
  rewrite Nat2Z.inj_succ, Z.pow_succ_r in Hn, Hm by lia.
  apply IH; [zdiv; lia|zdiv; lia| |].
  - destruct n; [cbn in Hn; lia|lia].
  - destruct m; [cbn in Hm; lia|lia].
Qed.

Lemma dec_nat_S n v :
  dec_nat (S n) v = if v <? 10 then [ch_0 + v] else dec_nat n (v / 10) ++ [ch_0 + v mod 10].
Proof. done. Qed.

Lemma dec_small v : 0 <= v < 10 -> dec v = [ch_0 + v].
Proof.
  intros H. unfold dec. rewrite dec_nat_S. by replace (v <? 10) with true by lia.
Qed.

Lemma dec_step v : 10 <= v < 10 ^ 20 -> dec v = dec (v / 10) ++ [ch_0 + v mod 10].
Proof.
  intros H. unfold dec. rewrite (dec_nat_S 19 v).
  replace (v <? 10) with false by lia.
  rewrite (dec_nat_fuel 19 20 (v / 10)); [reflexivity| | |lia|lia].
  - split; [apply Z.div_pos; lia|]. apply Z.div_lt_upper_bound; [lia|].
    replace (10 * 10 ^ Z.of_nat 19) with (10 ^ 20) by (vm_compute; reflexivity). lia.
  - apply Z.div_lt_upper_bound; [lia|].
    replace (10 * 10 ^ Z.of_nat 20) with (10 ^ 21) by (vm_compute; reflexivity). lia.
Qed.

(** Induction on the number of digits *)
Lemma dec_ind (P : Z -> Prop) :
  (forall v, 0 <= v < 10 -> P v) ->
  (forall v, 10 <= v < 10 ^ 20 -> P (v / 10) -> P v) ->
  forall v, 0 <= v < 10 ^ 20 -> P v.
Proof.
  generalize (10 ^ 20). intros M Hb Hs v Hv.
  assert (0 <= v) as H0 by lia. revert v H0 Hv.
  refine (Z_lt_induction (fun v => 0 <= v < M -> P v) _).
  intros v IH Hv. destruct (Z.lt_ge_cases v 10) as [|]; [apply Hb; lia|].
  apply Hs; [lia|]. apply IH; zdiv.
Qed.
#[local] Opaque dec.

Lemma digval_app v a b : digval v (a ++ b) = digval (digval v a) b.
Proof. apply foldl_app. Qed.

Lemma digval_mono ds v : Forall is_digit ds -> 0 <= v -> v <= digval v ds.
Proof.
  intros H. revert v. induction H as [|c ds Hc _ IH]; intros v Hv; [done|].
  cbn. unfold is_digit in Hc. specialize (IH (v * 10 + (c - ch_0))). unfold digval in IH. lia.
Qed.

Lemma dec_digits v : 0 <= v < 10 ^ 20 -> Forall is_digit (dec v).
Proof.
  revert v. apply dec_ind; intros v Hv.
  - rewrite dec_small by done. constructor; [unfold is_digit; lia|done].
  - intros IH. rewrite dec_step by done. apply Forall_app. split; [done|].
    constructor; [unfold is_digit; zdiv|done].
Qed.

Lemma dec_val v : 0 <= v < 10 ^ 20 -> digval 0 (dec v) = v.
Proof.
  revert v. apply dec_ind; intros v Hv.
  - rewrite dec_small by done. cbn. lia.
  - intros IH. rewrite dec_step, digval_app, IH by done. cbn. zdiv.
Qed.

Lemma dec_head v : 0 <= v < 10 ^ 20 -> 0 < v ->
  exists c r, dec v = c :: r /\ 49 <= c <= ch_9 /\ Forall is_digit r.
Proof.
  revert v. apply (dec_ind (fun v => 0 < v -> _)); intros v Hv.
  - intros. rewrite dec_small by done. eexists _, _. split; [done|]. split; [lia|constructor].
  - intros IH _. destruct IH as (c & r & E & Hc & Hr); [zdiv|].
    rewrite dec_step, E by done. eexists _, _. split; [done|]. split; [done|].
    apply Forall_app. split; [done|]. constructor; [unfold is_digit; zdiv|done].
Qed.

Lemma dec_length v : 0 <= v < 10 ^ 20 -> 0 < v ->
  10 ^ (zlen (dec v) - 1) <= v < 10 ^ zlen (dec v).
Proof.
  revert v. apply (dec_ind (fun v => 0 < v -> _)); intros v Hv.
  - intros. rewrite dec_small by done. cbn. lia.
  - intros IH _. rewrite dec_step, length_app by done. cbn [length].
    destruct (dec_head (v / 10)) as (c & r & E & _); [zdiv|zdiv|].
    assert (0 < v / 10) as IH' by zdiv. specialize (IH IH').
    replace (Z.of_nat (length (dec (v / 10)) + 1)) with (Z.succ (zlen (dec (v / 10)))) by lia.
    rewrite Z.pow_succ_r by lia.
    replace (Z.succ (zlen (dec (v / 10))) - 1) with (Z.succ (zlen (dec (v / 10)) - 1)) by lia.
    rewrite Z.pow_succ_r by (rewrite E; cbn [length]; lia).
    generalize dependent (10 ^ (zlen (dec (v / 10)) - 1)).
    generalize dependent (10 ^ zlen (dec (v / 10))). intros. zdiv.
Qed.

Lemma dec_unique c r :
  49 <= c -> Forall is_digit (c :: r) -> digval 0 (c :: r) < 10 ^ 20 ->
  dec (digval 0 (c :: r)) = c :: r.
Proof.
  intros Hc. induction r as [|d r IH] using rev_ind; intros Hd Hlt.
  - rewrite Forall_singleton in Hd. unfold is_digit in Hd. cbn. rewrite dec_small by lia.
    f_equal. lia.
  - rewrite app_comm_cons in *. apply Forall_app in Hd as [Hd Hl].
    rewrite Forall_singleton in Hl. unfold is_digit in Hl.
    rewrite digval_app in *. set (w := digval 0 (c :: r)) in *.
    change (digval w [d]) with (w * 10 + (d - ch_0)) in *.
    assert (0 < w).
    { rewrite Forall_cons in Hd. destruct Hd as [_ Hr].
      pose proof (digval_mono r (0 * 10 + (c - ch_0)) Hr ltac:(lia)) as Hm.
      change (digval (0 * 10 + (c - ch_0)) r) with w in Hm. lia. }
    rewrite dec_step by lia.
    replace ((w * 10 + (d - ch_0)) / 10) with w by zdiv.
    replace ((w * 10 + (d - ch_0)) mod 10) with (d - ch_0) by zdiv.
    rewrite IH by (done || lia). do 2 f_equal. lia.
Qed.

Lemma parse_digits_spec ds v :
  Forall is_digit ds -> 0 <= v <= UINT64_MAX ->
  parse_digits ds v = if digval v ds <=? UINT64_MAX then Some (digval v ds, []) else None.
Proof.
  intros H. revert v. induction H as [|c ds Hc Hds IH]; intros v Hv.
  { cbn. by replace (v <=? UINT64_MAX) with true by lia. }
  cbn [parse_digits]. rewrite (proj2 (isdigit_spec c) Hc). unfold is_digit in Hc.
  change (digval v (c :: ds)) with (digval (v * 10 + (c - ch_0)) ds).
  pose proof (digval_mono ds (v * 10 + (c - ch_0)) Hds ltac:(lia)).
  destruct (v >? UINT64_MAX / 10) eqn:E1; [|destruct (v * 10 >? UINT64_MAX - (c - ch_0)) eqn:E2].
  - replace (_ <=? UINT64_MAX) with false by zdiv. done.
  - by replace (_ <=? UINT64_MAX) with false by lia.
  - apply IH. lia.
Qed.

Lemma parse_digits_all p v v' : parse_digits p v = Some (v', []) -> Forall is_digit p.
Proof.
  revert v. induction p as [|c p IH]; intros v H; [done|].
  cbn in H. destruct (isdigit c) eqn:E; [|done]. apply isdigit_spec in E.
  repeat case_match; try done. constructor; [done|by eapply IH].
Qed.

Lemma dec_length_le v n : 0 <= v < 10 ^ n -> 1 <= n <= 20 -> 1 <= zlen (dec v) <= n.
Proof.
  intros Hv Hn. assert (10 ^ n <= 10 ^ 20) by (apply Z.pow_le_mono_r; lia).
  destruct (Z.eq_dec v 0) as [->|Hv0]; [rewrite dec_small by lia; cbn; lia|].
  destruct (dec_length v) as [H1 _]; [lia|lia|].
  destruct (dec_head v) as (c & r & E & _); [lia|lia|]. rewrite E in *. cbn [length] in *.
  split; [lia|]. apply Z.le_ngt. intros Hlt.
  assert (10 ^ n <= 10 ^ (Z.of_nat (S (length r)) - 1)) by (apply Z.pow_le_mono_r; lia). lia.
Qed.

Lemma parse_number c r v :
  49 <= c <= ch_9 ->
  parse_digits r (c - ch_0) = Some (v, []) <-> (c :: r = dec v /\ 0 < v <= UINT64_MAX).
Proof.
  intros Hc.
  assert (forall ds, digval (c - ch_0) ds = digval 0 (c :: ds)) as Hd by done.
  split.
  - intros H. pose proof (parse_digits_all _ _ _ H) as Hr.
    pose proof (digval_mono r (c - ch_0) Hr ltac:(lia)).
    rewrite parse_digits_spec in H by (done || lia).
    destruct (digval (c - ch_0) r <=? UINT64_MAX) eqn:E; [|done]. injection H as <-.
    rewrite Hd in *. rewrite dec_unique; [split; [done|lia]|lia| |lia].
    constructor; [unfold is_digit; lia|done].
  - intros [E Hv]. pose proof (dec_digits v ltac:(lia)) as Hr. rewrite <- E in Hr.
    rewrite Forall_cons in Hr. destruct Hr as [_ Hr].
    rewrite parse_digits_spec, Hd, E, dec_val by (done || lia).
    by replace (v <=? UINT64_MAX) with true by lia.
Qed.

Lemma s64_opp v : 0 <= v <= 2 ^ 63 -> s64 (u64 (- v)) = - v.
Proof.
  intros H. unfold wraps, wrapu. rewrite Zplus_mod_idemp_l.
  change (- v + 2 ^ (64 - 1)) with (- v + 9223372036854775808).
  rewrite Z.mod_small; lia.
Qed.

(** A number without a sign and without leading zeroes, other than zero *)
Definition parse_canonical (p : list Z) : option Z :=
  match p with
  | c :: r =>
      if (49 <=? c) && (c <=? ch_9) then
        match parse_digits r (c - ch_0) with Some (v, []) => Some v | _ => None end
      else None
  | [] => None
  end.

Lemma parse_canonical_spec p v : parse_canonical p = Some v <-> p = dec v /\ 0 < v <= UINT64_MAX.
Proof.
  destruct p as [|c r]; cbn [parse_canonical].
  { split; [done|]. intros [E Hv]. destruct (dec_head v) as (? & ? & E' & _); [lia|lia|].
    congruence. }
  destruct ((49 <=? c) && (c <=? ch_9)) eqn:Ec.
  - rewrite <- (parse_number c r v) by lia. repeat case_match; naive_solver.
  - split; [done|]. intros [E Hv]. destruct (dec_head v) as (? & ? & E' & ? & _); [lia|lia|].
    rewrite E' in E. injection E as -> ->. lia.
Qed.

(** The two branches that are left after the tests on the length and on "0" *)
Lemma string2ll_unfold c s :
  zlen (c :: s) < LONG_STR_SIZE -> c :: s <> [ch_0] ->
  string2ll (c :: s) =
    if c =? ch_minus then
      v ← parse_canonical s; if v >? 2 ^ 63 then None else Some (- v)
    else v ← parse_canonical (c :: s); if v >? INT64_MAX then None else Some v.
Proof.
  intros Hlen H0. unfold string2ll.
  replace ((zlen (c :: s) =? 0) || _) with false by (cbn [length] in *; lia).
  rewrite bool_decide_eq_false_2 by done.
  destruct (Z.eqb_spec c ch_minus) as [->|Hc].
  - change (- (INT64_MIN + 1) + 1) with (2 ^ 63).
    destruct s as [|c s]; [done|]. cbn [parse_canonical].
    destruct ((49 <=? c) && (c <=? ch_9)) eqn:Ec; [|done].
    destruct (parse_digits s (c - ch_0)) as [[w [|]]|] eqn:E; try done.
    apply parse_number in E as [_ Hw]; [|lia]. cbn [mbind option_bind].
    destruct (w >? 2 ^ 63) eqn:Ew; [done|]. by rewrite s64_opp by lia.
  - cbn [parse_canonical]. destruct ((49 <=? c) && (c <=? ch_9)); [|done].
    by destruct (parse_digits s (c - ch_0)) as [[w [|]]|].
Qed.

(** A successful parse returns a 64-bit value whose representation is the string. *)
Lemma string2ll_sound s v : string2ll s = Some v -> is_i64 v /\ s = decs v.
Proof.
  intros H. unfold is_i64, decs. destruct s as [|c s]; [done|].
  destruct (decide (zlen (c :: s) < LONG_STR_SIZE)) as [Hlen|Hlen].
  2:{ unfold string2ll in H. replace ((zlen (c :: s) =? 0) || _) with true in H by lia. done. }
  destruct (decide (c :: s = [ch_0])) as [[= -> ->]|H0].
  { change (Some 0 = Some v) in H. injection H as <-. split; [lia|]. by rewrite (dec_small 0) by lia. }
  rewrite string2ll_unfold in H by done.
  destruct (Z.eqb_spec c ch_minus) as [->|Hc];
    apply bind_Some in H as (w & [-> Hw]%parse_canonical_spec & H);
    case_match; simplify_eq.
  - split; [lia|]. replace (- w <? 0) with true by lia. by rewrite Z.opp_involutive.
  - split; [lia|]. by replace (v <? 0) with false by lia.
Qed.

Lemma string2ll_complete v : is_i64 v -> string2ll (decs v) = Some v.
Proof.
  unfold is_i64, decs. intros Hv.
  destruct (Z.eq_dec v 0) as [->|Hv0]; [vm_compute; reflexivity|].
  destruct (dec_head (Z.abs v)) as (c & r & E & Hc & _); [lia|lia|].
  pose proof (dec_length_le (Z.abs v) 19 ltac:(lia) ltac:(lia)) as Hlen.
  assert (parse_canonical (dec (Z.abs v)) = Some (Z.abs v)) as Hp.
  { apply parse_canonical_spec. split; [done|lia]. }
  destruct (Z.ltb_spec v 0).
  - replace (- v) with (Z.abs v) by lia.
    rewrite string2ll_unfold by (cbn [length]; lia || done).
    rewrite Hp. cbn -[Z.gtb]. replace (Z.abs v >? 2 ^ 63) with false by lia. f_equal. lia.
  - replace (Z.abs v) with v in * by lia. rewrite E in *.
    rewrite string2ll_unfold; [|lia|intros [=]; lia].
    replace (c =? ch_minus) with false by lia.
    rewrite Hp. cbn -[Z.gtb]. by replace (v >? INT64_MAX) with false by lia.
Qed.

(** C40: [string2ll] is strict: it accepts exactly the canonical decimal
    representations of the 64-bit signed integers (no spaces, no leading zeroes,
    no "-0", no overflow), with their value. *)
Theorem string2ll_spec s v : string2ll s = Some v <-> is_i64 v /\ s = decs v.
Proof.
  split; [apply string2ll_sound|]. intros [Hv ->]. by apply string2ll_complete.
Qed.

(** A positive number determines its number of digits. *)
Lemma dec_length_eq v n :
  0 < v < 10 ^ 20 -> 0 < n -> 10 ^ (n - 1) <= v < 10 ^ n -> zlen (dec v) = n.
Proof.
  intros Hv Hn Hb. pose proof (dec_length v ltac:(lia) ltac:(lia)) as Hl.
  destruct (Z.lt_trichotomy (zlen (dec v)) n) as [H|[H|H]]; [|done|].
  - assert (10 ^ zlen (dec v) <= 10 ^ (n - 1)) by (apply Z.pow_le_mono_r; lia). lia.
  - assert (10 ^ n <= 10 ^ (zlen (dec v) - 1)) by (apply Z.pow_le_mono_r; lia). lia.
Qed.

Lemma digits10_length v : is_u64 v -> digits10 v = zlen (dec v).
Proof.
  unfold is_u64. intros Hv.
  destruct (Z.lt_ge_cases v 10) as [|]; [|symmetry; apply dec_length_eq; [lia| |]].
  { rewrite dec_small by lia. unfold digits10, digits10_rec. by replace (v <? 10) with true by lia. }
  all: unfold digits10, digits10_rec.
  all: repeat case_match; try lia.
  all: zdiv.
Qed.

Lemma mem_set_app l x y r off : off = zlen l -> mem_set (l ++ x :: r) off y = Ok (l ++ y :: r).
Proof. intros ->. exact (mem_write_app l [x] [y] r _ eq_refl eq_refl). Qed.

Lemma mem_set_head x y r : mem_set (x :: r) 0 y = Ok (y :: r).
Proof. exact (mem_set_app [] x y r 0 eq_refl). Qed.

Lemma digits_table_get k : 0 <= k < 100 ->
  mem_get digits_table (k * 2) = Ok (ch_0 + k / 10) /\
  mem_get digits_table (k * 2 + 1) = Ok (ch_0 + k mod 10).
Proof.
  intros Hk. rewrite <- (Z2Nat.id k) by lia.
  assert (Forall (fun i : nat =>
    mem_get digits_table (Z.of_nat i * 2) = Ok (ch_0 + Z.of_nat i / 10) /\
    mem_get digits_table (Z.of_nat i * 2 + 1) = Ok (ch_0 + Z.of_nat i mod 10)) (seq 0 100)) as H.
  { repeat (apply Forall_cons; split; [split; vm_compute; reflexivity|]). constructor. }
  rewrite Forall_forall in H. apply H. apply elem_of_seq. lia.
Qed.

Lemma dec_step2 v : 100 <= v < 10 ^ 20 ->
  dec v = dec (v / 100) ++ [ch_0 + v mod 100 / 10; ch_0 + v mod 100 mod 10].
Proof.
  intros Hv. rewrite dec_step, (dec_step (v / 10)) by zdiv. rewrite <- app_assoc. cbn.
  replace (v / 10 / 10) with (v / 100) by zdiv.
  replace (v mod 100 / 10) with ((v / 10) mod 10) by zdiv.
  by replace (v mod 100 mod 10) with (v mod 10) by zdiv.
Qed.

#[local] Opaque digits_table.

(** Two digits at the end of the part [a] of the buffer that is not filled yet *)
Lemma mem_set_two a b next x y :
  2 <= zlen a -> next = zlen a - 1 ->
  exists a', zlen a' = zlen a - 2 /\
    (dst ← mem_set (a ++ b) next y; mem_set dst (next - 1) x) = Ok (a' ++ [x; y] ++ b).
Proof.
  intros Ha ->. destruct a as [|u a _] using rev_ind; [cbn in Ha; lia|].
  destruct a as [|w a _] using rev_ind; [cbn in Ha; lia|].
  rewrite !length_app in *. cbn [length] in *. exists a. split; [lia|].
  rewrite <- !app_assoc. cbn [app].
  change (a ++ w :: u :: b) with (a ++ [w] ++ u :: b). rewrite app_assoc.
  rewrite mem_set_app by (rewrite length_app; cbn; lia). rs.
  rewrite <- app_assoc. cbn [app]. by rewrite mem_set_app by lia.
Qed.

Lemma ull2string_loop_ok fuel a b value :
  0 <= value < 100 ^ Z.of_nat fuel * 100 -> value < 10 ^ 20 -> zlen a = zlen (dec value) ->
  exists a' rest value',
    ull2string_loop (S fuel) (a ++ b) value (zlen a - 1) = Ok (a' ++ rest ++ b, value', zlen a' - 1) /\
    0 <= value' < 100 /\ zlen a' = zlen (dec value') /\ dec value = dec value' ++ rest.
Proof.
  revert a b value. induction fuel as [|fuel IH]; intros a b value Hv Hv20 Ha.
  { cbn [ull2string_loop]. change (100 ^ Z.of_nat 0 * 100) with 100 in Hv.
    replace (value >=? 100) with false by lia. exists a, [], value.
    rewrite app_nil_r. repeat split; done || lia. }
  remember (S fuel) as f eqn:Ef. cbn [ull2string_loop].
  destruct (value >=? 100) eqn:E.
  2:{ exists a, [], value. rewrite app_nil_r. repeat split; done || lia. }
  pose proof (dec_step2 value ltac:(lia)) as Hd.
  pose proof (dec_length_le (value / 100) 18 ltac:(zdiv) ltac:(lia)) as Hl.
  destruct (digits_table_get (value mod 100)) as [-> ->]; [zdiv|]. rs.
  rewrite Hd, length_app in Ha. cbn [length] in Ha.
  destruct (mem_set_two a b (zlen a - 1) (ch_0 + value mod 100 / 10) (ch_0 + value mod 100 mod 10))
    as (a' & Ha' & Hw); [lia|done|].
  destruct (mem_set (a ++ b) (zlen a - 1) _) as [dst|]; [|done].
  rs. cbn [mbind res_bind] in Hw. rewrite Hw. rs.
  subst f. rewrite u32_small by lia.
  replace (zlen a - 1 - 2) with (zlen a' - 1) by lia.
  rewrite Nat2Z.inj_succ, Z.pow_succ_r in Hv by lia.
  destruct (IH a' ([ch_0 + value mod 100 / 10; ch_0 + value mod 100 mod 10] ++ b) (value / 100))
    as (a2 & rest & value' & H & H1 & H2 & H3); [zdiv|zdiv|lia|].
  exists a2, (rest ++ [ch_0 + value mod 100 / 10; ch_0 + value mod 100 mod 10]), value'.
  split; [|split; [done|split; [done|]]].
  - rewrite <- !app_assoc. exact H.
  - by rewrite Hd, H3, <- app_assoc.
Qed.

Lemma ull2string_ok dst v :
  is_u64 v -> zlen (dec v) < zlen dst ->
  ull2string dst v = Ok (zlen (dec v), dec v ++ 0 :: drop (S (length (dec v))) dst).
Proof.
  intros Hv Hlen. unfold ull2string. rewrite digits10_length by done. unfold is_u64 in Hv.
  replace (zlen (dec v) >=? zlen dst) with false by lia.
  pose proof (dec_length_le v 20 ltac:(lia) ltac:(lia)) as Hl. rewrite u32_small by lia.
  set (n := length (dec v)) in *. rewrite Z.sub_add.
  destruct (buffer_split dst (Z.of_nat n) 1) as (a & d & b & -> & Ha & Hd); [lia|lia|lia|].
  destruct d as [|x [|]]; [done| |cbn in Hd; lia]. cbn [app] in *. rewrite mem_set_app by done. rs.
  replace (S n) with (length (a ++ [x])) by (rewrite length_app; cbn; lia).
  replace (a ++ x :: b) with ((a ++ [x]) ++ b) by by rewrite <- app_assoc.
  rewrite drop_app_length, <- Ha.
  destruct (ull2string_loop_ok 10 a (0 :: b) v) as (a' & rest & w & -> & Hw & Ha' & Hdec);
    [lia|lia|lia|].
  rs. rewrite Hdec, <- app_assoc. destruct (w <? 10) eqn:E.
  - rewrite dec_small in * by lia. destruct a' as [|y [|]]; [cbn in Ha'; lia| |cbn in Ha'; lia].
    change (zlen [y] - 1) with 0. cbn [app]. rewrite mem_set_head. rs. done.
  - pose proof (dec_step w ltac:(lia)) as Hs. rewrite (dec_small (w / 10)) in Hs by zdiv.
    rewrite Hs in *. cbn [app length] in Ha'.
    destruct (digits_table_get w) as [-> ->]; [lia|]. rs.
    destruct (mem_set_two a' (rest ++ 0 :: b) (zlen a' - 1) (ch_0 + w / 10) (ch_0 + w mod 10))
      as (a2 & Ha2 & Hw2); [lia|done|].
    destruct (mem_set (a' ++ _) _ _); [|done]. rs. cbn [mbind res_bind] in Hw2. rewrite Hw2. rs.
    destruct a2; [done|cbn in Ha2; lia].
Qed.

Lemma null_term_ok dst : exists dst', null_term dst = Ok dst' /\ length dst' = length dst.
Proof.
  unfold null_term. destruct dst as [|x dst]; [by exists []|].
  rewrite mem_set_head. by exists (0 :: dst).
Qed.

Lemma ull2string_short dst v :
  is_u64 v -> zlen dst <= zlen (dec v) ->
  exists dst', ull2string dst v = Ok (0, dst') /\ length dst' = length dst.
Proof.
  intros Hv Hlen. unfold ull2string. rewrite digits10_length by done.
  replace (zlen (dec v) >=? zlen dst) with true by lia.
  destruct (null_term_ok dst) as (dst' & -> & ?). by exists dst'.
Qed.

Lemma decs_len v : is_i64 v -> 1 <= zlen (decs v) <= 20.
Proof.
  unfold is_i64, decs. intros Hv. destruct (v <? 0) eqn:E; cbn [length].
  - pose proof (dec_length_le (- v) 19 ltac:(lia) ltac:(lia)). lia.
  - pose proof (dec_length_le v 20 ltac:(lia) ltac:(lia)). lia.
Qed.

Lemma dec_length_mono v w : 0 <= v <= w -> w < 10 ^ 20 -> zlen (dec v) <= zlen (dec w).
Proof.
  intros Hv Hw. destruct (Z.eq_dec w 0) as [->|]; [by replace v with 0 by lia|].
  pose proof (dec_length w ltac:(lia) ltac:(lia)). pose proof (dec_length_le w 20 ltac:(lia) ltac:(lia)).
  apply dec_length_le; lia.
Qed.

(** Between two integers, the longer text is that of one of them. *)
Lemma decs_len_between lo v hi : is_i64 lo -> is_i64 hi -> lo <= v <= hi ->
  zlen (decs v) <= Z.max (zlen (decs lo)) (zlen (decs hi)).
Proof.
  unfold is_i64, decs. intros Hlo Hhi Hv. destruct (v <? 0) eqn:E.
  - replace (lo <? 0) with true by lia. pose proof (dec_length_mono (- v) (- lo) ltac:(lia) ltac:(lia)). cbn [length]. lia.
  - replace (hi <? 0) with false by lia. pose proof (dec_length_mono v hi ltac:(lia) ltac:(lia)). lia.
Qed.

Lemma dec_nat_bytes n v : 0 ≤ v → Forall is_byte (dec_nat n v).
Proof.
  revert v. induction n as [|n IH]; intros v Hv; cbn [dec_nat]; [constructor|].
  assert (∀ d, 0 ≤ d < 10 → is_byte (ch_0 + d)) as Hd by (unfold is_byte; change ch_0 with 48; lia).
  destruct (v <? 10) eqn:E; [apply Forall_singleton, Hd; lia|].
  apply Forall_app. split; [apply IH, Z.div_pos; lia|]. apply Forall_singleton, Hd. zdiv.
Qed.

Lemma decs_bytes v : Forall is_byte (decs v).
Proof.
  with_strategy transparent [dec] unfold decs, dec. destruct (v <? 0) eqn:E; [constructor; [done|]|]; apply dec_nat_bytes; lia.
Qed.

Lemma decs_length v : is_i64 v -> zlen (decs v) = sdigits10 v.
Proof.
  unfold is_i64, decs, sdigits10. intros Hv. destruct (v <? 0) eqn:E.
  - replace (if negb (v =? INT64_MIN) then u64 (- v) else INT64_MAX + 1) with (- v)
      by (destruct (Z.eqb_spec v INT64_MIN) as [->|]; [done|cbn; rewrite u64_small; lia]).
    rewrite digits10_length by (unfold is_u64; lia). cbn [length]. lia.
  - by rewrite digits10_length by (unfold is_u64; lia).
Qed.

Lemma ll2string_ok dst v :
  is_i64 v -> zlen (decs v) < zlen dst ->
  ll2string dst v = Ok (zlen (decs v), decs v ++ 0 :: drop (S (length (decs v))) dst).
Proof.
  unfold is_i64, ll2string, decs. intros Hv.
  destruct (v <? 0) eqn:E; intros Hlen; cbn [length] in *.
  - replace (if negb (v =? INT64_MIN) then - v else INT64_MAX + 1) with (- v)
      by (destruct (Z.eqb_spec v INT64_MIN) as [->|]; done).
    pose proof (dec_length_le (- v) 20 ltac:(lia) ltac:(lia)) as Hl.
    replace (zlen dst <? 2) with false by lia. destruct dst as [|x dst]; [cbn in Hlen; lia|].
    cbn [drop length] in *. rewrite drop_0, ull2string_ok by (unfold is_u64; lia). rs.
    replace (zlen (dec (- v)) =? 0) with false by lia. do 2 f_equal. lia.
  - rewrite ull2string_ok by (unfold is_u64; lia). rs.
    pose proof (dec_length_le v 20 ltac:(lia) ltac:(lia)).
    by replace (zlen (dec v) =? 0) with false by lia.
Qed.

(** [ll2string] writes the decimal representation and its terminator into a
    buffer that has room for them, leaves the rest of the buffer alone, returns
    the length that [sdigits10] predicts, and [string2ll] reads the value back. *)
Theorem ll2string_roundtrip dst v :
  is_i64 v -> sdigits10 v < zlen dst ->
  exists buf,
    ll2string dst v = Ok (sdigits10 v, buf) /\
    take (length (decs v) + 1) buf = decs v ++ [0] /\
    drop (length (decs v) + 1) buf = drop (length (decs v) + 1) dst /\
    string2ll (take (Z.to_nat (sdigits10 v)) buf) = Some v.
Proof.
  intros Hv Hlen. rewrite <- decs_length in * by done. eexists.
  split; [by apply ll2string_ok|]. rewrite Nat2Z.id.
  rewrite take_app_length. split; [|split].
  - replace (length (decs v) + 1)%nat with (length (decs v ++ [0])) by by rewrite length_app.
    rewrite (cons_middle 0 (decs v) (drop _ _)), app_assoc. apply take_app_length.
  - rewrite drop_app_ge by lia. rewrite Nat.add_comm. cbn [plus].
    by replace (S (length (decs v)) - length (decs v))%nat with 1%nat by lia.
  - by apply string2ll_complete.
Qed.

Lemma ll2string_roundtrip_witness :
  exists buf, ll2string (repeat 7 6) (-123) = Ok (4, buf) /\
    take 5 buf = [45; 49; 50; 51; 0] /\ string2ll (take 4 buf) = Some (-123).
Proof.
  destruct (ll2string_roundtrip (repeat 7 6) (-123)) as (buf & H1 & H2 & _ & H4).
  - unfold is_i64. lia.
  - vm_compute. reflexivity.
  - exists buf. split; [exact H1|]. split; [exact H2|exact H4].
Defined.

Lemma digits_value_all ds v : Forall is_digit ds -> digits_value v ds = (digval v ds, []).
Proof.
  intros H. revert v. induction H as [|c ds Hc _ IH]; intros v; [done|].
  cbn [digits_value]. rewrite (proj2 (isdigit_spec c) Hc). apply IH.
Qed.

Lemma dec_cons v : 0 <= v < 10 ^ 20 -> exists c r, dec v = c :: r /\ is_digit c.
Proof.
  intros Hv. pose proof (dec_digits v Hv) as Hd.
  pose proof (dec_length_le v 20 Hv ltac:(lia)) as Hl.
  destruct (dec v) as [|c r]; [cbn in Hl; lia|]. exists c, r.
  rewrite Forall_cons in Hd. by destruct Hd.
Qed.

Lemma strtoull_digits s :
  s <> [] -> Forall is_digit s ->
  strtoull s = if digval 0 s >? UINT64_MAX then (UINT64_MAX, [], true) else (digval 0 s, [], false).
Proof.
  intros Hne Hd. destruct s as [|c r]; [done|].
  pose proof Hd as Hc. rewrite Forall_cons in Hc. destruct Hc as [Hc _].
  unfold strtoull. cbn [skip_spaces].
  replace (isspace c) with false by (unfold is_digit in Hc; unfold isspace; lia).
  replace (c =? ch_minus) with false by (unfold is_digit in Hc; lia).
  replace (c =? ch_plus) with false by (unfold is_digit in Hc; lia).
  rewrite (proj2 (isdigit_spec c) Hc), digits_value_all by done. done.
Qed.

Lemma strtoull_neg n : 0 <= n <= UINT64_MAX -> strtoull (ch_minus :: dec n) = (u64 (- n), [], false).
Proof.
  intros Hn. destruct (dec_cons n) as (c & r & E & Hc); [lia|].
  pose proof (digits_value_all (dec n) 0 (dec_digits n ltac:(lia))) as Hd.
  rewrite dec_val in Hd by lia. rewrite E in *. unfold strtoull. cbn [skip_spaces].
  change (isspace ch_minus) with false. cbv beta iota zeta. rewrite Z.eqb_refl.
  rewrite (proj2 (isdigit_spec c) Hc), Hd.
  by replace (n >? UINT64_MAX) with false by lia.
Qed.

Lemma string2ll_none s : (forall v, is_i64 v -> s <> decs v) -> string2ll s = None.
Proof.
  intros H. destruct (string2ll s) as [v|] eqn:E; [|done].
  apply string2ll_sound in E as [Hv E]. by destruct (H v).
Qed.

(** A string of digits is the representation of no negative number. *)
Lemma decs_eq_dec v w : is_i64 v -> 0 <= w < 10 ^ 20 -> decs v = dec w -> v = w.
Proof.
  unfold is_i64, decs. intros Hv Hw. destruct (dec_cons w Hw) as (c & r & E & Hc).
  unfold is_digit in Hc. destruct (v <? 0) eqn:?.
  - rewrite E. intros [=]. lia.
  - intros Hd. rewrite <- (dec_val v), Hd, dec_val by lia. done.
Qed.

(** [string2ull] reads every 64-bit unsigned integer back from its decimal
    representation, including those above [LLONG_MAX] that [string2ll] refuses. *)
Theorem string2ull_complete v : is_u64 v -> string2ull (dec v) = Some v.
Proof.
  unfold is_u64, string2ull. intros Hv.
  destruct (Z.le_gt_cases v INT64_MAX) as [Hle|Hgt].
  - pose proof (string2ll_complete v ltac:(unfold is_i64; lia)) as H.
    unfold decs in H. replace (v <? 0) with false in H by lia. rewrite H.
    by replace (v <? 0) with false by lia.
  - rewrite string2ll_none.
    + destruct (dec_cons v) as (c & r & E & _); [lia|].
      rewrite strtoull_digits, dec_val by (first [lia|apply dec_digits; lia|congruence]).
      replace (v >? UINT64_MAX) with false by lia.
      rewrite E. cbn. done.
    + intros w Hw E. symmetry in E. apply decs_eq_dec in E; [|done|lia].
      unfold is_i64 in Hw. lia.
Qed.

Lemma string2ull_complete_witness : string2ull (chars "18446744073709551615") = Some UINT64_MAX.
Proof. apply (string2ull_complete UINT64_MAX). unfold is_u64. lia. Defined.

(** although negative values are meant to be out of range, [string2ull]
    accepts every negative number below [LLONG_MIN]: [string2ll] fails on it and
    [strtoull] then returns its two's complement. *)
Theorem string2ull_negative n :
  2 ^ 63 < n <= UINT64_MAX -> string2ull (ch_minus :: dec n) = Some (2 ^ 64 - n).
Proof.
  intros Hn. unfold string2ull. rewrite string2ll_none.
  - rewrite strtoull_neg by lia. cbn -[Z.sub Z.pow wrapu]. f_equal.
    unfold wrapu. rewrite <- (Z.mod_add (- n) 1) by done. rewrite Z.mod_small; lia.
  - intros w Hw E. unfold is_i64 in Hw. unfold decs in E. destruct (w <? 0) eqn:?.
    + injection E as E. apply (f_equal (digval 0)) in E. rewrite !dec_val in E by lia. lia.
    + destruct (dec_cons w) as (c & r & E' & Hc); [lia|]. rewrite E' in E.
      injection E as <- _. unfold is_digit in Hc. lia.
Qed.

Lemma string2ull_negative_witness :
  string2ull (chars "-9223372036854775809") = Some 9223372036854775807.
Proof. apply (string2ull_negative 9223372036854775809). lia. Defined.

Lemma strcasecmp_head c u d l :
  strcasecmp_eq (c :: u) (d :: l) = true -> 97 <= d <= 122 -> isdigit c = false.
Proof.
  unfold strcasecmp_eq, isdigit. intros H Hd. apply bool_decide_eq_true in H.
  cbn [map] in H. injection H as H _. repeat case_match; lia.
Qed.

Lemma mem_unit_nodigit u mul :
  mem_unit u = Some mul -> 0 < mul /\ skip_digits u = u.
Proof.
  unfold mem_unit. intros H.
  destruct u as [|c u]; [vm_compute in H; by injection H as <-|]. cbn [skip_digits].
  enough (0 < mul /\ isdigit c = false) as [? ->] by done.
  repeat match type of H with
  | context [if ?b then _ else _] => destruct b eqn:?
  end; simplify_eq; (split; [lia|]);
  match goal with
  | E : _ || _ = true |- _ => apply orb_true_iff in E as [E|E]; [by apply bool_decide_eq_true in E|]
  | _ => idtac
  end; by eapply strcasecmp_head; [eassumption|cbn; lia].
Qed.

Lemma skip_digits_app ds u : Forall is_digit ds -> skip_digits (ds ++ u) = skip_digits u.
Proof.
  induction 1 as [|c ds Hc _ IH]; [done|]. cbn [app skip_digits].
  by rewrite (proj2 (isdigit_spec c) Hc).
Qed.

Lemma memtoull_value ds u mul :
  ds <> [] -> Forall is_digit ds -> zlen ds < 128 -> mem_unit u = Some mul ->
  memtoull (ds ++ u) = (u64 (Z.min (digval 0 ds) UINT64_MAX * mul), false).
Proof.
  intros Hne Hd Hlen Hu. destruct (mem_unit_nodigit u mul Hu) as [Hm Hs].
  unfold memtoull. rewrite skip_digits_app, Hs, Hu by done.
  destruct ds as [|c r]; [done|]. cbn [app]. pose proof Hd as Hc.
  rewrite Forall_cons in Hc. destruct Hc as [Hc _]. unfold is_digit in Hc.
  replace (c =? ch_minus) with false by lia. change (c :: r ++ u) with ((c :: r) ++ u).
  rewrite length_app, Nat2Z.inj_add, Z.add_simpl_r, Nat2Z.id, take_app_length.
  replace (zlen (c :: r) >=? 128) with false by lia.
  rewrite strtoull_digits by done.
  destruct (digval 0 (c :: r) >? UINT64_MAX) eqn:E; cbn [bool_decide decide_rel].
  - rewrite bool_decide_eq_true_2 by done. cbn [negb]. by rewrite Z.min_r by lia.
  - rewrite bool_decide_eq_true_2 by done. cbn [negb]. by rewrite Z.min_l by lia.
Qed.

(** [memtoull] returns number times unit, without an error, for every amount
    that fits in 64 bits: digits followed by one of the units of [mem_unit]. *)
Theorem memtoull_exact ds u mul :
  ds <> [] -> Forall is_digit ds -> zlen ds < 128 -> mem_unit u = Some mul ->
  digval 0 ds * mul <= UINT64_MAX ->
  memtoull (ds ++ u) = (digval 0 ds * mul, false).
Proof.
  intros Hne Hd Hlen Hu Hv. rewrite (memtoull_value ds u mul) by done.
  destruct (mem_unit_nodigit u mul Hu) as [Hm _].
  pose proof (digval_mono ds 0 Hd ltac:(lia)).
  rewrite Z.min_l by nia. rewrite u64_small by nia. done.
Qed.

Lemma memtoull_exact_witness : memtoull (chars "64Mb") = (64 * 1048576, false).
Proof.
  apply (memtoull_exact (chars "64") (chars "Mb") 1048576); try (vm_compute; done).
  repeat constructor; unfold is_digit; cbn; lia.
Defined.

(** an amount of 2^64 bytes or more is not an error: [memtoull] returns it
    modulo 2^64, so that "17179869184gb" is read as zero. *)
Theorem memtoull_wraps ds u mul :
  ds <> [] -> Forall is_digit ds -> zlen ds < 128 -> mem_unit u = Some mul ->
  digval 0 ds <= UINT64_MAX -> UINT64_MAX < digval 0 ds * mul ->
  memtoull (ds ++ u) = (digval 0 ds * mul mod 2 ^ 64, false) /\
  fst (memtoull (ds ++ u)) < digval 0 ds * mul.
Proof.
  intros Hne Hd Hlen Hu Hv Hw. rewrite (memtoull_value ds u mul) by done.
  rewrite Z.min_l by lia. split; [done|]. cbn [fst]. unfold wrapu.
  pose proof (Z.mod_pos_bound (digval 0 ds * mul) (2 ^ 64)). lia.
Qed.

Lemma memtoull_wraps_witness : memtoull (chars "17179869184gb") = (0, false).
Proof.
  refine (proj1 (memtoull_wraps (chars "17179869184") (chars "gb") 1073741824 _ _ _ _ _ _));
    try (vm_compute; done).
  repeat constructor; unfold is_digit; cbn; lia.
Defined.

Definition is_hex (c : Z) : Prop := base_16_char_type c <> -1.
Definition hexdigit (c : Z) : Z := c - ascii_to_dec (base_16_char_type c).
Definition hexval (v : Z) (hs : list Z) : Z := foldl (fun v c => v * 16 + hexdigit c) v hs.

Lemma hexdigit_range c : is_hex c -> 0 <= hexdigit c < 16.
Proof.
  unfold is_hex, hexdigit, base_16_char_type, safe_is_c_in_range.
  intros H. repeat case_match; try done; unfold ascii_to_dec; cbn; lia.
Qed.

Lemma hexval_mono hs v : Forall is_hex hs -> 0 <= v -> v <= hexval v hs.
Proof.
  intros H. revert v. induction H as [|c hs Hc _ IH]; intros v Hv; [done|].
  pose proof (hexdigit_range c Hc). specialize (IH (v * 16 + hexdigit c)).
  change (hexval v (c :: hs)) with (hexval (v * 16 + hexdigit c) hs). lia.
Qed.

(** What the loop returns after the digits [hs]: the next character decides. *)
Definition base16_end (v : Z) (tl : list Z) : res (option Z) :=
  if v >? UINT64_MAX then Ok None
  else match tl with [] => Fault OutOfBounds | _ :: _ => Ok (Some v) end.

Lemma base16_loop_ok hs fuel pre tl slen v :
  Forall is_hex hs -> 0 <= v <= UINT64_MAX -> (length hs < fuel)%nat ->
  zlen pre + zlen hs <= slen ->
  (forall c r, tl = c :: r -> zlen pre + zlen hs < slen -> base_16_char_type c = -1) ->
  base16_loop fuel (pre ++ hs ++ tl) slen (zlen pre) v = base16_end (hexval v hs) tl.
Proof.
  intros H. revert fuel pre v. induction H as [|c hs Hc Hhs IH]; intros fuel pre v Hv Hf Hs Ht;
    (destruct fuel as [|fuel]; [lia|]); cbn [base16_loop app].
  - unfold base16_end. cbn [hexval foldl]. replace (v >? UINT64_MAX) with false by lia.
    destruct tl as [|c tl].
    + unfold mem_get. rewrite lookup_ge_None_2 by (rewrite length_app; cbn; lia).
      by destruct (0 <=? zlen pre).
    + rewrite mem_get_app by done. rs. cbn [length] in *.
      destruct (Z.ltb_spec (zlen pre) slen); [|by rewrite andb_false_r].
      by rewrite (Ht c tl) by (done || lia).
  - rewrite mem_get_app by done. rs. fold (hexdigit c). cbn [length] in *.
    pose proof (hexdigit_range c Hc).
    pose proof (hexval_mono hs (v * 16 + hexdigit c) Hhs ltac:(lia)) as Hm.
    change (hexval v (c :: hs)) with (hexval (v * 16 + hexdigit c) hs).
    replace (negb (base_16_char_type c =? -1) && (zlen pre <? slen)) with true
      by (unfold is_hex in Hc; lia).
    destruct ((v >? UINT64_MAX / 16) || (v >? (UINT64_MAX - hexdigit c) / 16)) eqn:E.
    + unfold base16_end. replace (_ >? UINT64_MAX) with true by zdiv. done.
    + specialize (IH fuel (pre ++ [c]) (v * 16 + hexdigit c)).
      rewrite length_app, <- app_assoc in IH. cbn [length app] in IH.
      replace (zlen pre + 1) with (Z.of_nat (length pre + 1)) by lia.
      apply IH; [zdiv|lia|lia|]. intros. apply (Ht c0 r); [done|lia].
Qed.

(** [string2ul_base16_async_signal_safe] returns the value of the hexadecimal
    digits up to the first other character, or up to [slen], and -1 exactly when
    that value does not fit, provided the memory holds one more character. *)
Theorem string2ul_base16_spec hs c tl slen :
  Forall is_hex hs -> zlen hs <= slen -> (zlen hs < slen -> base_16_char_type c = -1) ->
  string2ul_base16_async_signal_safe (hs ++ c :: tl) slen =
    Ok (if hexval 0 hs <=? UINT64_MAX then Some (hexval 0 hs) else None).
Proof.
  intros Hh Hs Hc. unfold string2ul_base16_async_signal_safe.
  rewrite (base16_loop_ok hs _ [] (c :: tl) slen 0); cbn [length]; [|done|lia|lia|lia|].
  - unfold base16_end. destruct (Z.leb_spec (hexval 0 hs) UINT64_MAX).
    + by replace (hexval 0 hs >? UINT64_MAX) with false by lia.
    + by replace (hexval 0 hs >? UINT64_MAX) with true by lia.
  - intros ? ? [= <- <-] ?. apply Hc. lia.
Qed.

Lemma string2ul_base16_spec_witness :
  string2ul_base16_async_signal_safe (chars "fF0z") 100 = Ok (Some 4080).
Proof.
  apply (string2ul_base16_spec (chars "fF0") 122 [] 100).
  - repeat constructor; done.
  - vm_compute. done.
  - done.
Defined.

(** the guard on [slen] comes after the read: when all [slen] characters of
    the source are digits, the character past them is read. *)
Theorem string2ul_base16_overread hs :
  Forall is_hex hs -> hexval 0 hs <= UINT64_MAX ->
  string2ul_base16_async_signal_safe hs (zlen hs) = Fault OutOfBounds.
Proof.
  intros Hh Hv. unfold string2ul_base16_async_signal_safe.
  pose proof (base16_loop_ok hs (S (Z.to_nat (zlen hs))) [] [] (zlen hs) 0) as H.
  cbn [app length] in H. change (Z.of_nat 0) with 0 in H. rewrite app_nil_r in H. rewrite H; [|done|lia|lia|lia|done].
  unfold base16_end. by replace (hexval 0 hs >? UINT64_MAX) with false by lia.
Qed.

Lemma string2ul_base16_overread_witness :
  string2ul_base16_async_signal_safe (chars "ff") 2 = Fault OutOfBounds.
Proof.
  apply (string2ul_base16_overread (chars "ff")).
  - repeat constructor; done.
  - vm_compute. done.
Defined.
