(* ===== verification/Siphash.v ===== *)
(** SipHash with one round for each word and two at the end, [siphash.c]: the hash
    of the keys of dictionaries, and the one that ignores the case of letters.

    The model is that of the processors with little-endian order and unaligned
    access ([UNALIGNED_LE_CPU]). *)

From S2P Require Import Prelude.

Definition siptlw (c : Z) : Z := if (c >=? 65) && (c <=? 90) then c + (97 - 65) else c.

Definition ROTL (x b : Z) : Z := u64 (Z.lor (u64 (Z.shiftl x b)) (Z.shiftr x (64 - b))).

Definition U8TO64_LE (p : list Z) (off : Z) : res Z := b ← mem_read p off 8; Ok (le_val b).

Definition U8TO64_LE_NOCASE (p : list Z) (off : Z) : res Z :=
  p0 ← mem_get p off; p1 ← mem_get p (off + 1); p2 ← mem_get p (off + 2); p3 ← mem_get p (off + 3);
  p4 ← mem_get p (off + 4); p5 ← mem_get p (off + 5); p6 ← mem_get p (off + 6); p7 ← mem_get p (off + 7);
  Ok (Z.lor (Z.lor (Z.lor (Z.lor (Z.lor (Z.lor (Z.lor (siptlw p0) (Z.shiftl (siptlw p1) 8))
      (Z.shiftl (siptlw p2) 16)) (Z.shiftl (siptlw p3) 24)) (Z.shiftl (siptlw p4) 32))
      (Z.shiftl (siptlw p5) 40)) (Z.shiftl (siptlw p6) 48)) (Z.shiftl (siptlw p7) 56)).

Record sipstate := Sip { sip_v0 : Z; sip_v1 : Z; sip_v2 : Z; sip_v3 : Z }.

Definition SIPROUND (s : sipstate) : sipstate :=
  let '(Sip v0 v1 v2 v3) := s in
  let v0 := u64 (v0 + v1) in
  let v1 := ROTL v1 13 in
  let v1 := Z.lxor v1 v0 in
  let v0 := ROTL v0 32 in
  let v2 := u64 (v2 + v3) in
  let v3 := ROTL v3 16 in
  let v3 := Z.lxor v3 v2 in
  let v0 := u64 (v0 + v3) in
  let v3 := ROTL v3 21 in
  let v3 := Z.lxor v3 v0 in
  let v2 := u64 (v2 + v1) in
  let v1 := ROTL v1 17 in
  let v1 := Z.lxor v1 v2 in
  let v2 := ROTL v2 32 in
  Sip v0 v1 v2 v3.

Definition sip_init (k0 k1 : Z) : sipstate :=
  Sip (Z.lxor 0x736f6d6570736575 k0) (Z.lxor 0x646f72616e646f6d k1)
      (Z.lxor 0x6c7967656e657261 k0) (Z.lxor 0x7465646279746573 k1).

(** [v3 ^= m; SIPROUND; v0 ^= m] *)
Definition sip_word (s : sipstate) (m : Z) : sipstate :=
  let s := SIPROUND (Sip (sip_v0 s) (sip_v1 s) (sip_v2 s) (Z.lxor (sip_v3 s) m)) in
  Sip (Z.lxor (sip_v0 s) m) (sip_v1 s) (sip_v2 s) (sip_v3 s).

(** The loop over [n] words from [off] on, read with [word] *)
Fixpoint sip_loop (n : nat) (word : Z → res Z) (off : Z) (s : sipstate) : res sipstate :=
  match n with
  | O => Ok s
  | S n => m ← word off; sip_loop n word (off + 8) (sip_word s m)
  end.

(** The switch on the number of bytes left, from [n] down, with [f] applied to
    each of them *)
Fixpoint sip_tail (n : nat) (f : Z → Z) (inp : list Z) (off b : Z) : res Z :=
  match n with
  | O => Ok b
  | S n =>
      c ← mem_get inp (off + Z.of_nat n);
      sip_tail n f inp off (Z.lor b (Z.shiftl (f c) (8 * Z.of_nat n)))
  end.

Definition sip_finish (s : sipstate) (b : Z) : Z :=
  let s := sip_word s b in
  let s := Sip (sip_v0 s) (sip_v1 s) (Z.lxor (sip_v2 s) 0xff) (sip_v3 s) in
  let s := SIPROUND (SIPROUND s) in
  Z.lxor (Z.lxor (Z.lxor (sip_v0 s) (sip_v1 s)) (sip_v2 s)) (sip_v3 s).

Definition siphash (inp : list Z) (inlen : Z) (k : list Z) : res Z :=
  k0 ← U8TO64_LE k 0;
  k1 ← U8TO64_LE k 8;
  let end_ := inlen - inlen mod 8 in
  s ← sip_loop (Z.to_nat (end_ / 8)) (U8TO64_LE inp) 0 (sip_init k0 k1);
  b ← sip_tail (Z.to_nat (Z.land inlen 7)) id inp end_ (u64 (Z.shiftl inlen 56));
  Ok (sip_finish s b).

Definition siphash_nocase (inp : list Z) (inlen : Z) (k : list Z) : res Z :=
  k0 ← U8TO64_LE k 0;
  k1 ← U8TO64_LE k 8;
  let end_ := inlen - inlen mod 8 in
  s ← sip_loop (Z.to_nat (end_ / 8)) (U8TO64_LE_NOCASE inp) 0 (sip_init k0 k1);
  b ← sip_tail (Z.to_nat (Z.land inlen 7)) siptlw inp end_ (u64 (Z.shiftl inlen 56));
  Ok (sip_finish s b).

(** [dictGenHashFunction] and [dictGenCaseHashFunction] of [dict.c], with the seed *)
Definition dictGenHashFunction (seed key : list Z) (len : Z) : res Z := siphash key len seed.
Definition dictGenCaseHashFunction (seed buf : list Z) (len : Z) : res Z := siphash_nocase buf len seed.

(** ** Lower case *)

Lemma siptlw_byte c : is_byte c → is_byte (siptlw c).
Proof. unfold is_byte, siptlw. case_match; lia. Qed.

Lemma mem_get_fmap (f : Z → Z) (p : list Z) off : mem_get (map f p) off = b ← mem_get p off; Ok (f b).
Proof. unfold mem_get. case_match; [|done]. rewrite list_lookup_fmap. by destruct (p !! _). Qed.

Lemma mem_read_fmap (f : Z → Z) (p : list Z) off n : mem_read (map f p) off n = b ← mem_read p off n; Ok (map f b).
Proof.
  unfold mem_read. rewrite length_map. case_match; [|done]. rs. by rewrite <- fmap_drop, <- fmap_take.
Qed.

(** Eight bytes in a row *)
Lemma mem_read_8 p off l : mem_read p off 8 = Ok l →
  ∃ b0 b1 b2 b3 b4 b5 b6 b7, l = [b0; b1; b2; b3; b4; b5; b6; b7] ∧
    ∀ i, 0 ≤ i < 8 → ∃ b, mem_get p (off + i) = Ok b ∧ l !! Z.to_nat i = Some b.
Proof.
  unfold mem_read. destruct (_ && _) eqn:E; [|done]. intros [= <-].
  set (l := take (Z.to_nat 8) (drop (Z.to_nat off) p)).
  assert (length l = 8%nat) as Hl by (unfold l; rewrite length_take, length_drop; lia).
  assert (∀ i, 0 ≤ i < 8 → ∃ b, mem_get p (off + i) = Ok b ∧ l !! Z.to_nat i = Some b) as Q.
  { intros i Hi. destruct (lookup_lt_is_Some_2 l (Z.to_nat i)) as [b L]; [lia|]. exists b. split; [|done].
    apply mem_get_lookup; [lia|]. unfold l in L. rewrite lookup_take_lt, lookup_drop in L by lia.
    rewrite <- L. f_equal. lia. }
  clearbody l. do 8 (destruct l as [|? l]; [done|]). destruct l; [|done]. eauto 20.
Qed.

Lemma nocase_word p off : Forall is_byte p → 0 ≤ off → off + 8 ≤ zlen p →
  U8TO64_LE_NOCASE p off = U8TO64_LE (map siptlw p) off.
Proof.
  intros F Ho Hl. unfold U8TO64_LE. rewrite mem_read_fmap.
  destruct (mem_read p off 8) as [l|] eqn:E; [|unfold mem_read in E; case_match; [done|lia]]. rs.
  assert (Forall is_byte l) as Fl.
  { unfold mem_read in E. case_match; [|done]. injection E as <-. by apply Forall_take, Forall_drop. }
  destruct (mem_read_8 p off l E) as (b0 & b1 & b2 & b3 & b4 & b5 & b6 & b7 & -> & Q).
  assert (∀ i b, 0 ≤ i < 8 → [b0; b1; b2; b3; b4; b5; b6; b7] !! Z.to_nat i = Some b → mem_get p (off + i) = Ok b) as G.
  { intros i b Hi L. destruct (Q i Hi) as (b' & -> & L'). congruence. }
  unfold U8TO64_LE_NOCASE. rewrite <- (Z.add_0_r off) at 1.
  rewrite (G 0 b0), (G 1 b1), (G 2 b2), (G 3 b3), (G 4 b4), (G 5 b5), (G 6 b6), (G 7 b7) by (done || lia). rs.
  f_equal. rewrite !Forall_cons in Fl. destruct Fl as (F0 & F1 & F2 & F3 & F4 & F5 & F6 & F7 & _).
  apply siptlw_byte in F0, F1, F2, F3, F4, F5, F6, F7. unfold is_byte in *. cbn [map le_val].
  rewrite (lor_add_shiftl _ 8), (lor_add_shiftl _ 16), (lor_add_shiftl _ 24), (lor_add_shiftl _ 32) by lia.
  rewrite (lor_add_shiftl _ 40), (lor_add_shiftl _ 48), (lor_add_shiftl _ 56) by lia. lia.
Qed.

Lemma nocase_loop n p off s : Forall is_byte p → 0 ≤ off → off + 8 * Z.of_nat n ≤ zlen p →
  sip_loop n (U8TO64_LE_NOCASE p) off s = sip_loop n (U8TO64_LE (map siptlw p)) off s.
Proof.
  intros F. revert off s. induction n as [|n IH]; intros off s Ho Hl; cbn [sip_loop]; [done|].
  rewrite nocase_word by (done || lia). destruct (U8TO64_LE _ _); rs; [|done]. apply IH; lia.
Qed.

Lemma nocase_tail n p off b : sip_tail n siptlw p off b = sip_tail n id (map siptlw p) off b.
Proof.
  revert b. induction n as [|n IH]; intros b; cbn [sip_tail]; [done|].
  rewrite mem_get_fmap. destruct (mem_get p _); rs; [|done]. apply IH.
Qed.

(** The letters, and a letter in lower case *)
Definition upper_letters : list Z := chars "ABCDEFGHIJKLMNOPQRSTUVWXYZ".
Definition lower_letters : list Z := chars "abcdefghijklmnopqrstuvwxyz".
Definition lower_case (c : Z) : Z :=
  match list_find (c =.) upper_letters with
  | Some (i, _) => default c (lower_letters !! i)
  | None => c
  end.

Lemma siptlw_lower c : is_byte c → siptlw c = lower_case c.
Proof.
  intros Hc. assert (Forall (λ b, siptlw b = lower_case b) (seqZ 0 256)) as F.
  { eapply bool_decide_unpack. by vm_compute. }
  rewrite Forall_forall in F. apply F, elem_of_seqZ. unfold is_byte in Hc. lia.
Qed.

Lemma map_siptlw inp : Forall is_byte inp → map siptlw inp = map lower_case inp.
Proof. intros F. apply map_ext_in. intros c Hc. apply siptlw_lower. rewrite Forall_forall in F. by apply F, list_elem_of_In. Qed.

Lemma nocase_lower_ok inp inlen k :
  Forall is_byte inp → 0 ≤ inlen ≤ zlen inp →
  siphash_nocase inp inlen k = siphash (map lower_case inp) inlen k.
Proof.
  intros F Hl. rewrite <- map_siptlw by done. unfold siphash_nocase, siphash. destruct (U8TO64_LE k 0) as [k0|]; rs; [|done].
  destruct (U8TO64_LE k 8) as [k1|]; rs; [|done]. rewrite nocase_loop by (done || zdiv).
  destruct (sip_loop _ _ _ _); rs; [|done]. by rewrite nocase_tail.
Qed.

(** C22: The hash that ignores case is the hash of the text whose letters A to Z
    are replaced with a to z, and all other bytes kept: two texts that differ
    only in the case of these letters have the same one. *)
Theorem siphash_nocase_lower inp inlen k :
  Forall is_byte inp → 0 ≤ inlen ≤ zlen inp →
  siphash_nocase inp inlen k = siphash (map lower_case inp) inlen k ∧
  ∀ inp', Forall is_byte inp' → map lower_case inp' = map lower_case inp →
    siphash_nocase inp' inlen k = siphash_nocase inp inlen k.
Proof.
  intros F Hl. split; [by apply nocase_lower_ok|]. intros inp' F' E.
  assert (length inp' = length inp) as El by (rewrite <- (length_map lower_case inp'), E; apply length_map).
  by rewrite !nocase_lower_ok, E by (done || lia).
Qed.

Lemma siphash_nocase_lower_witness :
  siphash_nocase (chars "HELLO world Z") 13 (chars "1234567812345678") =
    siphash (chars "hello world z") 13 (chars "1234567812345678") ∧
  siphash_nocase (chars "heLLo WORLD z") 13 (chars "1234567812345678") =
    siphash_nocase (chars "HELLO world Z") 13 (chars "1234567812345678").
Proof.
  destruct (siphash_nocase_lower (chars "HELLO world Z") 13 (chars "1234567812345678")) as [E1 E2];
    [by apply (bool_decide_unpack _)|vm_compute; split; discriminate|].
  split; [exact E1|apply E2; [by apply (bool_decide_unpack _)|reflexivity]].
Defined.

(** ** The hash is a number of 64 bits *)

Definition sip_ok (s : sipstate) : Prop :=
  is_u64 (sip_v0 s) ∧ is_u64 (sip_v1 s) ∧ is_u64 (sip_v2 s) ∧ is_u64 (sip_v3 s).

Lemma ROTL_range x b : is_u64 (ROTL x b).
Proof. apply u64_range. Qed.

Create HintDb sip.
#[export] Hint Resolve u64_range ROTL_range lxor_u64 lor_u64 : sip.

Lemma SIPROUND_ok s : sip_ok s → sip_ok (SIPROUND s).
Proof.
  destruct s as [a b c e]. intros (Ha & Hb & Hc & He). unfold SIPROUND, sip_ok. cbn [sip_v0 sip_v1 sip_v2 sip_v3].
  split_and!; auto 20 with sip.
Qed.

Lemma sip_word_ok s m : sip_ok s → is_u64 m → sip_ok (sip_word s m).
Proof.
  intros (Ha & Hb & Hc & He) Hm. unfold sip_word.
  pose proof (SIPROUND_ok (Sip (sip_v0 s) (sip_v1 s) (sip_v2 s) (Z.lxor (sip_v3 s) m))) as R.
  destruct (SIPROUND _) as [a b c e]. destruct R as (Ra & Rb & Rc & Re).
  - split_and!; cbn; auto with sip.
  - split_and!; cbn in *; auto with sip.
Qed.

Lemma sip_finish_ok s b : sip_ok s → is_u64 b → is_u64 (sip_finish s b).
Proof.
  intros Hs Hb. unfold sip_finish. pose proof (sip_word_ok s b Hs Hb) as W.
  destruct (sip_word s b) as [w0 w1 w2 w3]. cbn [sip_v0 sip_v1 sip_v2 sip_v3].
  assert (sip_ok (SIPROUND (SIPROUND (Sip w0 w1 (Z.lxor w2 0xff) w3)))) as R.
  { do 2 apply SIPROUND_ok. destruct W as (Wa & Wb & Wc & We). split_and!; try done. by apply lxor_u64. }
  destruct (SIPROUND _) as [r0 r1 r2 r3]. destruct R as (Ra & Rb & Rc & Re). cbn in *. auto 10 with sip.
Qed.

Lemma le_val_u64 l : Forall is_byte l → length l = 8%nat → is_u64 (le_val l).
Proof. intros F Hl. pose proof (le_val_range l F) as R. rewrite Hl in R. unfold is_u64. lia. Qed.

Lemma word_ok p off : Forall is_byte p → 0 ≤ off → off + 8 ≤ zlen p → ∃ m, U8TO64_LE p off = Ok m ∧ is_u64 m.
Proof.
  intros F Ho Hl. unfold U8TO64_LE. rewrite mem_read_ok by lia. rs. eexists. split; [done|].
  apply le_val_u64; [by apply Forall_take, Forall_drop|]. rewrite length_take, length_drop. lia.
Qed.

Lemma sip_loop_ok n p off s : Forall is_byte p → sip_ok s → 0 ≤ off → off + 8 * Z.of_nat n ≤ zlen p →
  ∃ s', sip_loop n (U8TO64_LE p) off s = Ok s' ∧ sip_ok s'.
Proof.
  intros F. revert off s. induction n as [|n IH]; intros off s Hs Ho Hl; cbn [sip_loop]; [eauto|].
  destruct (word_ok p off F) as (m & -> & Hm); [lia..|]. rs. apply IH; [by apply sip_word_ok|lia..].
Qed.

Lemma sip_tail_ok n p off b : Forall is_byte p → is_u64 b → 0 ≤ off → (n ≤ 7)%nat → off + Z.of_nat n ≤ zlen p →
  ∃ b', sip_tail n id p off b = Ok b' ∧ is_u64 b'.
Proof.
  intros F. revert b. induction n as [|n IH]; intros b Hb Ho Hn Hl; cbn [sip_tail]; [eauto|].
  destruct (lookup_lt_is_Some_2 p (Z.to_nat (off + Z.of_nat n))) as [c L]; [lia|].
  rewrite (mem_get_lookup _ _ c) by (done || lia). rs. apply IH; try lia. apply lor_u64; [done|].
  assert (is_byte c) as Hc by (by eapply Forall_lookup_1). unfold is_u64, is_byte, id in *. rewrite Z.shiftl_mul_pow2 by lia.
  assert (2 ^ (8 * Z.of_nat n) ≤ 2 ^ 48) by (apply Z.pow_le_mono_r; lia).
  assert (0 < 2 ^ (8 * Z.of_nat n)) by (apply Z.pow_pos_nonneg; lia). nia.
Qed.

Lemma siphash_ok inp inlen k : Forall is_byte inp → Forall is_byte k → zlen k = 16 → 0 ≤ inlen ≤ zlen inp →
  ∃ h, siphash inp inlen k = Ok h ∧ is_u64 h.
Proof.
  intros F Fk Hk Hl. unfold siphash. destruct (word_ok k 0 Fk) as (k0 & -> & H0'); [lia..|]. rs.
  destruct (word_ok k 8 Fk) as (k1 & -> & H1'); [lia..|]. rs.
  destruct (sip_loop_ok (Z.to_nat ((inlen - inlen mod 8) / 8)) inp 0 (sip_init k0 k1) F) as (s & -> & Hs);
    [by split_and!; apply lxor_u64|lia|zdiv|]. rs.
  assert (Z.land inlen 7 = inlen mod 8) as E7 by exact (Z.land_ones inlen 3 ltac:(lia)).
  destruct (sip_tail_ok (Z.to_nat (Z.land inlen 7)) inp (inlen - inlen mod 8) (u64 (Z.shiftl inlen 56)) F)
    as (b & -> & Hb); [apply u64_range|zdiv|rewrite E7; zdiv|rewrite E7; zdiv|]. rs.
  eexists. split; [done|]. by apply sip_finish_ok.
Qed.
