(* ===== verification/Lzf.v ===== *)
(** LZF compression: [lzf_c.c] and [lzf_d.c] with the settings of [lzfP.h]
    ([HLOG] 16, [VERY_FAST], [CHECK_INPUT], unaligned access, pointers in the hash
    table and a table that is not initialised).

    Input and output are byte lists with checked accesses.  The compressor keeps
    addresses in its hash table, [in_data] is the address of the input; what the table
    holds at first is a parameter.  The output of the decompressor is the list of the
    bytes written so far: a read of a byte that was not written is a fault. *)

From S2P Require Import Prelude.

Abbreviation MAX_LIT := 32.
Abbreviation MAX_OFF := 8192.
Abbreviation MAX_REF := 264.

(** ** Decompression *)

Inductive lzf_errno := E2BIG | EINVAL.

(** [*op++ = b] *)
Definition put (out_len : Z) (out : list Z) (b : Z) : res (list Z) :=
  if zlen out <? out_len then Ok (out ++ [b]) else Fault OutOfBounds.

Fixpoint put_all (out_len : Z) (out l : list Z) : res (list Z) :=
  match l with
  | [] => Ok out
  | b :: l => out ← put out_len out b; put_all out_len out l
  end.

Fixpoint copy_literals (n : nat) (inp : list Z) (ip out_len : Z) (out : list Z) : res (list Z) :=
  match n with
  | O => Ok out
  | S n => b ← mem_get inp ip; out ← put out_len out b; copy_literals n inp (ip + 1) out_len out
  end.

Fixpoint copy_octets (n : nat) (ref out_len : Z) (out : list Z) : res (list Z) :=
  match n with
  | O => Ok out
  | S n => b ← mem_get out ref; out ← put out_len out b; copy_octets n (ref + 1) out_len out
  end.

(** Up to 11 bytes by the cases of the switch, more as one block if the areas are
    disjoint *)
Definition copy_ref (len ref out_len : Z) (out : list Z) : res (list Z) :=
  if len <=? 9 then copy_octets (Z.to_nat (len + 2)) ref out_len out
  else
    let len := len + 2 in
    if zlen out >=? ref + len then d ← mem_read out ref len; put_all out_len out d
    else copy_octets (Z.to_nat len) ref out_len out.

(** A back reference: the output and the next position, or the error *)
Definition back_reference (inp : list Z) (out_len ctrl ip : Z) (out : list Z) : res ((list Z * Z) + lzf_errno) :=
  let len := Z.shiftr ctrl 5 in
  let ref := zlen out - Z.shiftl (Z.land ctrl 31) 8 - 1 in
  if ip >=? zlen inp then Ok (inr EINVAL) else
  '(len, ip) ← (if len =? 7 then b ← mem_get inp ip; Ok (len + b, ip + 1) else Ok (len, ip));
  if ip >=? zlen inp then Ok (inr EINVAL) else
  b ← mem_get inp ip;
  let ref := ref - b in
  if zlen out + len + 2 >? out_len then Ok (inr E2BIG) else
  if ref <? 0 then Ok (inr EINVAL) else
  out ← copy_ref len ref out_len out;
  Ok (inl (out, ip + 1)).

(** The bytes written, or the error.  Every round reads a byte at least. *)
Fixpoint lzf_decompress_loop (fuel : nat) (inp : list Z) (out_len ip : Z) (out : list Z) : res (list Z + lzf_errno) :=
  match fuel with
  | O => Fault OutOfFuel
  | S fuel =>
      if negb (ip <? zlen inp) then Ok (inl out) else
      ctrl ← mem_get inp ip;
      let ip := ip + 1 in
      if ctrl <? 32 then
        let ctrl := ctrl + 1 in
        if zlen out + ctrl >? out_len then Ok (inr E2BIG) else
        if ip + ctrl >? zlen inp then Ok (inr EINVAL) else
        out ← copy_literals (Z.to_nat ctrl) inp ip out_len out;
        lzf_decompress_loop fuel inp out_len (ip + ctrl) out
      else
        r ← back_reference inp out_len ctrl ip out;
        match r with
        | inr e => Ok (inr e)
        | inl (out, ip) => lzf_decompress_loop fuel inp out_len ip out
        end
  end.

Definition lzf_decompress (inp : list Z) (out_len : Z) : res (list Z + lzf_errno) :=
  lzf_decompress_loop (S (length inp)) inp out_len 0 [].

(** ** Compression *)

Definition FRST (inp : list Z) (p : Z) : res Z :=
  a ← mem_get inp p;
  b ← mem_get inp (p + 1);
  Ok (Z.lor (Z.shiftl a 8) b).
Definition NEXT (v : Z) (inp : list Z) (p : Z) : res Z :=
  c ← mem_get inp (p + 2);
  Ok (Z.lor (u32 (Z.shiftl v 8)) c).
Definition IDX (h : Z) : Z := Z.land (u32 (Z.shiftr h 8 - h * 5)) 65535.

(** The positions in input and output, the length of the literal run, the hash table
    and the output buffer *)
Record lzf_state := Lzf { z_ip : Z; z_op : Z; z_lit : Z; z_tab : Z → Z; z_out : list Z }.

Definition tab_set (tab : Z → Z) (i v : Z) : Z → Z := λ j, if j =? i then v else tab j.

(** [op[-lit-1] = lit - 1] *)
Definition stop_run (out : list Z) (op lit : Z) : res (list Z) := mem_write out (op - lit - 1) [u8 (lit - 1)].

(** [lit++; *op++ = *ip++;] and the end of a run of [MAX_LIT] *)
Definition put_literal (inp : list Z) (st : lzf_state) : res lzf_state :=
  c ← mem_get inp (z_ip st);
  out ← mem_write (z_out st) (z_op st) [c];
  let lit := z_lit st + 1 in
  let op := z_op st + 1 in
  if lit =? MAX_LIT
  then out ← stop_run out op lit; Ok (Lzf (z_ip st + 1) (op + 1) 0 (z_tab st) out)
  else Ok (Lzf (z_ip st + 1) op lit (z_tab st) out).

(** Whether there is a match of three bytes at [ref] *)
Definition lzf_match (inp : list Z) (in_data ip ref : Z) : res bool :=
  if (u64 (in_data + ip - ref - 1) <? MAX_OFF) && (ref >? in_data) then
    let r := ref - in_data in
    a ← mem_get inp (r + 2);
    b ← mem_get inp (ip + 2);
    if negb (a =? b) then Ok false else
    x ← mem_read inp r 2;
    y ← mem_read inp ip 2;
    Ok (bool_decide (x = y))
  else Ok false.

(** [len++; if (ref[len] != ip[len]) break;] so many times; true if the loop ended *)
Fixpoint unrolled (n : nat) (inp : list Z) (r ip len : Z) : res (Z * bool) :=
  match n with
  | O => Ok (len, false)
  | S n =>
      let len := len + 1 in
      a ← mem_get inp (r + len);
      b ← mem_get inp (ip + len);
      if negb (a =? b) then Ok (len, true) else unrolled n inp r ip len
  end.

Fixpoint extend (fuel : nat) (inp : list Z) (r ip maxlen len : Z) : res Z :=
  match fuel with
  | O => Fault OutOfFuel
  | S fuel =>
      let len := len + 1 in
      if negb (len <? maxlen) then Ok len else
      a ← mem_get inp (r + len);
      b ← mem_get inp (ip + len);
      if a =? b then extend fuel inp r ip maxlen len else Ok len
  end.

Definition match_len (inp : list Z) (r ip maxlen : Z) : res Z :=
  '(len, broken) ← (if maxlen >? 16 then unrolled 16 inp r ip 2 else Ok (2, false));
  if broken : bool then Ok len else extend (S (Z.to_nat maxlen)) inp r ip maxlen len.

(** The bytes of a back reference *)
Definition write_ref (out : list Z) (op off len : Z) : res (list Z * Z) :=
  if len <? 7 then
    out ← mem_write out op [u8 (Z.shiftr off 8 + Z.shiftl len 5)];
    out ← mem_write out (op + 1) [u8 off];
    Ok (out, op + 2)
  else
    out ← mem_write out op [u8 (Z.shiftr off 8 + Z.shiftl 7 5)];
    out ← mem_write out (op + 1) [u8 (len - 7)];
    out ← mem_write out (op + 2) [u8 off];
    Ok (out, op + 3).

(** A match at [r]: none if the output is full; otherwise the state, the hash value, and
    whether the loop goes on *)
Definition put_match (inp : list Z) (in_data r : Z) (st : lzf_state) : res (option (lzf_state * Z * bool)) :=
  let ip := z_ip st in
  let op := z_op st in
  let lit := z_lit st in
  let out_end := zlen (z_out st) in
  let off := ip - r - 1 in
  let maxlen := Z.min (zlen inp - ip - 2) MAX_REF in
  let undo := if lit =? 0 then 1 else 0 in
  if (op + 3 + 1 >=? out_end) && (op - undo + 3 + 1 >=? out_end) then Ok None else
  out ← stop_run (z_out st) op lit;
  len ← match_len inp r ip maxlen;
  '(out, op) ← write_ref out (op - undo) off (len - 2);
  let op := op + 1 in
  let ip := ip + len in
  if ip >=? zlen inp - 2 then Ok (Some (Lzf ip op 0 (z_tab st) out, 0, false)) else
  hval ← FRST inp (ip - 2);
  hval ← NEXT hval inp (ip - 2);
  let tab := tab_set (z_tab st) (IDX hval) (in_data + (ip - 2)) in
  hval ← NEXT hval inp (ip - 1);
  let tab := tab_set tab (IDX hval) (in_data + (ip - 1)) in
  Ok (Some (Lzf ip op 0 tab out, hval, true)).

(** The state at the end of the loop, or the buffer if the output does not fit *)
Fixpoint lzf_compress_loop (fuel : nat) (inp : list Z) (in_data : Z) (st : lzf_state) (hval : Z) : res (lzf_state + list Z) :=
  match fuel with
  | O => Fault OutOfFuel
  | S fuel =>
      if negb (z_ip st <? zlen inp - 2) then Ok (inl st) else
      hval ← NEXT hval inp (z_ip st);
      let ref := z_tab st (IDX hval) in
      let st := Lzf (z_ip st) (z_op st) (z_lit st) (tab_set (z_tab st) (IDX hval) (in_data + z_ip st)) (z_out st) in
      m ← lzf_match inp in_data (z_ip st) ref;
      if m : bool then
        r ← put_match inp in_data (ref - in_data) st;
        match r with
        | None => Ok (inr (z_out st))
        | Some (st, hval, continue) => if continue : bool then lzf_compress_loop fuel inp in_data st hval else Ok (inl st)
        end
      else if z_op st >=? zlen (z_out st) then Ok (inr (z_out st))
      else st ← put_literal inp st; lzf_compress_loop fuel inp in_data st hval
  end.

(** The bytes that are left are literals. *)
Fixpoint lzf_tail (fuel : nat) (inp : list Z) (st : lzf_state) : res lzf_state :=
  match fuel with
  | O => Fault OutOfFuel
  | S fuel => if negb (z_ip st <? zlen inp) then Ok st else st ← put_literal inp st; lzf_tail fuel inp st
  end.

(** The length of the result, 0 if it does not fit, and the output buffer *)
Definition lzf_compress (inp : list Z) (in_data : Z) (tab : Z → Z) (out : list Z) : res (Z * list Z) :=
  if (zlen inp =? 0) || (zlen out =? 0) then Ok (0, out) else
  hval ← FRST inp 0;
  r ← lzf_compress_loop (S (length inp)) inp in_data (Lzf 0 1 0 tab out) hval;
  match r with
  | inr out => Ok (0, out)
  | inl st =>
      if z_op st + 3 >? zlen (z_out st) then Ok (0, z_out st) else
      st ← lzf_tail 3 inp st;
      out ← stop_run (z_out st) (z_op st) (z_lit st);
      Ok (if z_lit st =? 0 then z_op st - 1 else z_op st, out)
  end.
