(* ===== verification/LzfSpec.v ===== *)
(** LZF: what is compressed decompresses to itself, whatever the hash table holds, and
    decompression of arbitrary bytes stays within its buffers. *)

From S2P Require Import Prelude Lzf.

(** ** The format *)

(** A run of literals, or [len] bytes from [off + 1] bytes back *)
Inductive token := Lit (bs : list Z) | Ref (off len : Z).

Definition encode (t : token) : list Z :=
  match t with
  | Lit bs => (zlen bs - 1) :: bs
  | Ref off len =>
      if len - 2 <? 7 then [off / 256 + (len - 2) * 32; off mod 256] else [off / 256 + 224; len - 9; off mod 256]
  end.

(** Byte by byte: the copied bytes can overlap the ones they are copied from. *)
Fixpoint octets (n ref : nat) (out : list Z) : list Z :=
  match n with
  | O => out
  | S n => octets n (S ref) (out ++ [default 0 (out !! ref)])
  end.

Definition expand (out : list Z) (t : token) : list Z :=
  match t with Lit bs => out ++ bs | Ref off len => octets (Z.to_nat len) (Z.to_nat (zlen out - off - 1)) out end.

Definition tok_ok (out : list Z) (t : token) : Prop :=
  match t with
  | Lit bs => 1 ≤ zlen bs ≤ MAX_LIT
  | Ref off len => 0 ≤ off < MAX_OFF ∧ off < zlen out ∧ 3 ≤ len ≤ MAX_REF
  end.

Fixpoint toks_ok (out : list Z) (ts : list token) : Prop :=
  match ts with [] => True | t :: ts => tok_ok out t ∧ toks_ok (expand out t) ts end.

Definition encodes (ts : list token) : list Z := ts ≫= encode.
Definition expands (out : list Z) (ts : list token) : list Z := foldl expand out ts.

Lemma octets_length n : ∀ ref out, length (octets n ref out) = (length out + n)%nat.
Proof. induction n as [|n IH]; intros ref out; cbn [octets]; [lia|]. rewrite IH, length_app. cbn. lia. Qed.

Lemma expand_length out t : tok_ok out t →
  zlen (expand out t) = zlen out + match t with Lit bs => zlen bs | Ref _ len => len end.
Proof. destruct t; cbn; intros; [rewrite length_app|rewrite octets_length]; lia. Qed.

Lemma expands_mono ts : ∀ out, toks_ok out ts → zlen out ≤ zlen (expands out ts).
Proof.
  induction ts as [|t ts IH]; intros out Hok; [done|]. destruct Hok as [Ht Hok]. cbn [expands foldl].
  specialize (IH _ Hok). rewrite expand_length in IH by done. unfold expands in IH. destruct t; cbn in Ht; lia.
Qed.

Lemma expands_snoc out ts t : expands out (ts ++ [t]) = expand (expands out ts) t.
Proof. unfold expands. by rewrite foldl_app. Qed.

Lemma encodes_snoc ts t : encodes (ts ++ [t]) = encodes ts ++ encode t.
Proof. unfold encodes. rewrite bind_app. cbn. by rewrite app_nil_r. Qed.

Lemma toks_ok_snoc ts t : ∀ out, toks_ok out (ts ++ [t]) ↔ toks_ok out ts ∧ tok_ok (expands out ts) t.
Proof.
  induction ts as [|u ts IH]; intros out; cbn [app toks_ok]; [cbn; naive_solver|]. rewrite IH. unfold expands. cbn [foldl]. naive_solver.
Qed.

(** ** Decompression of a sequence of tokens *)

Lemma put_ok out_len out b : zlen out < out_len → put out_len out b = Ok (out ++ [b]).
Proof. intros. unfold put. by destruct (Z.ltb_spec (zlen out) out_len); [|lia]. Qed.

Lemma put_all_ok l : ∀ out_len out, zlen out + zlen l ≤ out_len → put_all out_len out l = Ok (out ++ l).
Proof.
  induction l as [|b l IH]; intros out_len out Hl; cbn [put_all]; [by rewrite app_nil_r|]. cbn [length] in Hl.
  rewrite put_ok by lia. rs. rewrite IH by (rewrite length_app; cbn; lia). by rewrite <- app_assoc.
Qed.

Lemma copy_literals_ok bs : ∀ pre post ip out_len out, ip = zlen pre → zlen out + zlen bs ≤ out_len →
  copy_literals (length bs) (pre ++ bs ++ post) ip out_len out = Ok (out ++ bs).
Proof.
  induction bs as [|b bs IH]; intros pre post ip out_len out -> Hl; cbn [copy_literals length]; [by rewrite app_nil_r|].
  cbn [length] in Hl. cbn [app]. rewrite mem_get_app by done. rs. rewrite put_ok by lia. rs.
  replace (pre ++ b :: bs ++ post) with ((pre ++ [b]) ++ bs ++ post) by (by rewrite <- app_assoc).
  rewrite IH by (rewrite length_app; cbn; lia). by rewrite <- app_assoc.
Qed.

Lemma copy_octets_ok n : ∀ ref out_len out, (ref < length out)%nat → zlen out + Z.of_nat n ≤ out_len →
  copy_octets n (Z.of_nat ref) out_len out = Ok (octets n ref out).
Proof.
  induction n as [|n IH]; intros ref out_len out Hr Hl; cbn [copy_octets octets]; [done|].
  destruct (lookup_lt_is_Some_2 out ref Hr) as [b Hb]. rewrite (mem_get_lookup _ _ b) by (rewrite ?Nat2Z.id; lia || done). rs.
  rewrite put_ok by lia. rs. rewrite Hb. replace (Z.of_nat ref + 1) with (Z.of_nat (S ref)) by lia.
  apply IH; rewrite length_app; cbn; lia.
Qed.

(** Areas that do not overlap are copied as one block. *)
Lemma octets_disjoint n : ∀ ref out, (ref + n ≤ length out)%nat → octets n ref out = out ++ take n (drop ref out).
Proof.
  induction n as [|n IH]; intros ref out Hl; cbn [octets]; [by rewrite app_nil_r|].
  destruct (lookup_lt_is_Some_2 out ref ltac:(lia)) as [b Hb]. rewrite IH by (rewrite length_app; cbn; lia).
  rewrite Hb, (drop_S out b ref Hb). cbn [default take]. rewrite <- app_assoc. cbn [app]. do 2 f_equal.
  rewrite drop_app_le by lia. apply take_app_le. rewrite length_drop. lia.
Qed.

Lemma copy_ref_ok len ref out_len out : (ref < length out)%nat → 0 ≤ len → zlen out + len + 2 ≤ out_len →
  copy_ref len (Z.of_nat ref) out_len out = Ok (octets (Z.to_nat (len + 2)) ref out).
Proof.
  intros Hr Hl Ho. unfold copy_ref. destruct (len <=? 9); [apply copy_octets_ok; lia|].
  destruct (Z.geb_spec (zlen out) (Z.of_nat ref + (len + 2))) as [Hd|Hd]; [|apply copy_octets_ok; lia].
  rewrite mem_read_ok by lia. rs. rewrite Nat2Z.id. rewrite put_all_ok by (rewrite length_take; lia).
  by rewrite octets_disjoint by lia.
Qed.

Lemma back_reference_ok off len pre post out_len out :
  tok_ok out (Ref off len) → zlen out + len ≤ out_len →
  let inp := pre ++ encode (Ref off len) ++ post in
  ∃ ctrl, mem_get inp (zlen pre) = Ok ctrl ∧ 32 ≤ ctrl ∧
    back_reference inp out_len ctrl (zlen pre + 1) out = Ok (inl (expand out (Ref off len), zlen (pre ++ encode (Ref off len)))).
Proof.
  intros (Hoff & Hout & Hlen) Ho inp. unfold inp, back_reference, expand. cbn [encode].
  set (ref := Z.to_nat (zlen out - off - 1)). assert ((ref < length out)%nat ∧ Z.of_nat ref = zlen out - off - 1) as [Hr Er] by (unfold ref; lia).
  pose proof (Z.div_mod off 256 ltac:(lia)) as Hdm. pose proof (Z.mod_pos_bound off 256 ltac:(lia)) as Hm.
  assert (0 ≤ off / 256 < 32) as Hd by (split; [apply Z.div_pos; lia|apply Z.div_lt_upper_bound; lia]).
  assert (∀ n, 0 ≤ n → Z.shiftr (off / 256 + n * 32) 5 = n ∧ Z.land (off / 256 + n * 32) 31 = off / 256) as Hbits.
  { intros n Hn. change 31 with (Z.ones 5). rewrite Z.shiftr_div_pow2, Z.land_ones by lia. change (2 ^ 5) with 32.
    rewrite Z.div_add, Z.mod_add by lia. split; [rewrite Z.div_small; lia|apply Z.mod_small; lia]. }
  assert (∀ x, Z.shiftl x 8 = x * 256) as Hsh by (intros; by rewrite Z.shiftl_mul_pow2).
  destruct (Z.ltb_spec (len - 2) 7) as [Hs|Hs].
  - exists (off / 256 + (len - 2) * 32). cbn [app]. rewrite mem_get_app by done. split; [done|]. split; [lia|].
    destruct (Hbits (len - 2) ltac:(lia)) as [-> ->]. rewrite Hsh, length_app. cbn [length].
    destruct (Z.geb_spec (zlen pre + 1) (Z.of_nat (length pre + S (S (length post))))); [lia|].
    destruct (Z.eqb_spec (len - 2) 7); [lia|]. rs. destruct (Z.geb_spec (zlen pre + 1) (Z.of_nat (length pre + S (S (length post))))); [lia|].
    change (pre ++ off / 256 + (len - 2) * 32 :: off mod 256 :: post) with (pre ++ [off / 256 + (len - 2) * 32] ++ off mod 256 :: post).
    rewrite app_assoc, mem_get_app by (rewrite length_app; cbn; lia). rs.
    destruct (Z.gtb_spec (zlen out + (len - 2) + 2) out_len); [lia|].
    replace (zlen out - off / 256 * 256 - 1 - off mod 256) with (Z.of_nat ref) by lia.
    destruct (Z.ltb_spec (Z.of_nat ref) 0); [lia|]. rewrite copy_ref_ok by lia. rs.
    replace (len - 2 + 2) with len by lia. do 3 f_equal. rewrite length_app. cbn. lia.
  - exists (off / 256 + 224). cbn [app]. rewrite mem_get_app by done. split; [done|]. split; [lia|].
    destruct (Hbits 7 ltac:(lia)) as [E1 E2]. change (7 * 32) with 224 in *. rewrite E1, E2, Hsh, length_app. cbn [length].
    destruct (Z.geb_spec (zlen pre + 1) (Z.of_nat (length pre + S (S (S (length post)))))); [lia|].
    change (7 =? 7) with true. cbv iota.
    change (pre ++ off / 256 + 224 :: len - 9 :: off mod 256 :: post) with (pre ++ [off / 256 + 224] ++ len - 9 :: off mod 256 :: post).
    rewrite app_assoc, mem_get_app by (rewrite length_app; cbn; lia). rs.
    destruct (Z.geb_spec (zlen pre + 1 + 1) (Z.of_nat (length pre + S (S (S (length post)))))); [lia|].
    change ((pre ++ [off / 256 + 224]) ++ len - 9 :: off mod 256 :: post) with ((pre ++ [off / 256 + 224]) ++ [len - 9] ++ off mod 256 :: post).
    rewrite app_assoc, mem_get_app by (rewrite !length_app; cbn; lia). rs.
    destruct (Z.gtb_spec (zlen out + (7 + (len - 9)) + 2) out_len); [lia|].
    replace (zlen out - off / 256 * 256 - 1 - off mod 256) with (Z.of_nat ref) by lia.
    destruct (Z.ltb_spec (Z.of_nat ref) 0); [lia|]. rewrite copy_ref_ok by lia. rs.
    replace (7 + (len - 9) + 2) with len by lia. do 3 f_equal. rewrite length_app. cbn. lia.
Qed.

Lemma encode_nonempty out t : tok_ok out t → (1 ≤ length (encode t))%nat.
Proof. destruct t; cbn; [lia|]. destruct (_ <? _); cbn; lia. Qed.

Lemma decompress_tokens ts : ∀ fuel pre out_len out,
  toks_ok out ts → zlen (expands out ts) ≤ out_len → (length (encodes ts) < fuel)%nat →
  lzf_decompress_loop fuel (pre ++ encodes ts) out_len (zlen pre) out = Ok (inl (expands out ts)).
Proof.
  induction ts as [|t ts IH]; intros [|fuel] pre out_len out Hok Hl Hf; try (cbn in Hf; lia); cbn [lzf_decompress_loop].
  { cbn [encodes mbind list_bind]. rewrite app_nil_r. destruct (Z.ltb_spec (zlen pre) (zlen pre)); [lia|done]. }
  destruct Hok as [Ht Hok]. pose proof (expands_mono ts _ Hok) as Hm. change (expands out (t :: ts)) with (expands (expand out t) ts) in *.
  rewrite expand_length in Hm by done. change (encodes (t :: ts)) with (encode t ++ encodes ts) in *. rewrite length_app in Hf.
  pose proof (encode_nonempty out t Ht) as He. destruct (Z.ltb_spec (zlen pre) (zlen (pre ++ encode t ++ encodes ts))) as [_|Hn];
    [cbn [negb]|rewrite !length_app in Hn; lia].
  destruct t as [bs|off len].
  - cbn in Ht. cbn [encode app]. rewrite mem_get_app by done. rs. destruct (Z.ltb_spec (zlen bs - 1) 32); [|lia].
    destruct (Z.gtb_spec (zlen out + (zlen bs - 1 + 1)) out_len); [lia|]. rewrite length_app. cbn [length]. rewrite length_app.
    destruct (Z.gtb_spec (zlen pre + 1 + (zlen bs - 1 + 1)) (Z.of_nat (length pre + S (length bs + length (encodes ts))))); [lia|].
    change (pre ++ zlen bs - 1 :: bs ++ encodes ts) with (pre ++ [zlen bs - 1] ++ bs ++ encodes ts). rewrite app_assoc.
    replace (Z.to_nat (zlen bs - 1 + 1)) with (length bs) by lia.
    rewrite copy_literals_ok by (rewrite ?length_app; cbn; lia). rs.
    replace (zlen pre + 1 + (zlen bs - 1 + 1)) with (zlen ((pre ++ [zlen bs - 1]) ++ bs)) by (rewrite !length_app; cbn; lia).
    rewrite (app_assoc (pre ++ _)). apply IH; [done|done|cbn in Hf; lia].
  - destruct (back_reference_ok off len pre (encodes ts) out_len out Ht ltac:(lia)) as (ctrl & -> & Hc & Hb). rs.
    destruct (Z.ltb_spec ctrl 32); [lia|]. rewrite Hb. rs. rewrite app_assoc. apply IH; [done|done|lia].
Qed.

(** ** Decompression of arbitrary bytes *)

Lemma get_byte inp i : Forall is_byte inp → 0 ≤ i < zlen inp → ∃ b, mem_get inp i = Ok b ∧ 0 ≤ b < 256.
Proof.
  intros Hb Hi. destruct (lookup_lt_is_Some_2 inp (Z.to_nat i) ltac:(lia)) as [b E]. exists b.
  rewrite (mem_get_lookup _ _ b) by (lia || done). split; [done|]. by eapply Forall_lookup_1 in Hb.
Qed.

Lemma copy_literals_safe n : ∀ inp ip out_len out, Forall is_byte inp → 0 ≤ ip → ip + Z.of_nat n ≤ zlen inp → zlen out + Z.of_nat n ≤ out_len →
  ∃ out', copy_literals n inp ip out_len out = Ok out' ∧ zlen out' ≤ out_len.
Proof.
  induction n as [|n IH]; intros inp ip out_len out Hb H0 Hi Ho; cbn [copy_literals]; [exists out; split; [done|lia]|].
  destruct (get_byte inp ip Hb ltac:(lia)) as (b & -> & _). rs. rewrite put_ok by lia. rs.
  apply IH; [done|lia|lia|]. rewrite length_app. cbn. lia.
Qed.

Lemma back_reference_safe inp out_len ctrl ip out : Forall is_byte inp → 32 ≤ ctrl < 256 → 0 ≤ ip → zlen out ≤ out_len →
  ∃ r, back_reference inp out_len ctrl ip out = Ok r ∧ match r with inl (out', ip') => zlen out' ≤ out_len ∧ ip < ip' | inr _ => True end.
Proof.
  intros Hb Hc Hi Ho. unfold back_reference. assert (1 ≤ Z.shiftr ctrl 5) as Hs.
  { rewrite Z.shiftr_div_pow2 by lia. apply Z.div_le_lower_bound; lia. }
  assert (0 ≤ Z.shiftl (Z.land ctrl 31) 8) as Hr by (rewrite Z.shiftl_nonneg; apply Z.land_nonneg; lia).
  destruct (Z.geb_spec ip (zlen inp)); [by eexists|].
  assert (∃ len ip1, (if Z.shiftr ctrl 5 =? 7 then b ← mem_get inp ip; Ok (Z.shiftr ctrl 5 + b, ip + 1) else Ok (Z.shiftr ctrl 5, ip)) =
    Ok (len, ip1) ∧ 1 ≤ len ∧ ip ≤ ip1) as (len & ip1 & -> & Hl & Hip).
  { destruct (_ =? 7); [|by eexists _, _]. destruct (get_byte inp ip Hb ltac:(lia)) as (b & -> & ?). rs. eexists _, _. split; [done|lia]. }
  rs. destruct (Z.geb_spec ip1 (zlen inp)); [by eexists|]. destruct (get_byte inp ip1 Hb ltac:(lia)) as (b & -> & ?). rs.
  destruct (Z.gtb_spec (zlen out + len + 2) out_len); [by eexists|].
  set (ref := _ - b). destruct (Z.ltb_spec ref 0); [by eexists|].
  rewrite <- (Z2Nat.id ref) by done. rewrite copy_ref_ok by lia. rs. eexists. split; [done|]. cbv iota. rewrite octets_length. lia.
Qed.

Lemma decompress_safe fuel : ∀ inp out_len ip out, Forall is_byte inp → 0 ≤ ip → zlen inp - ip < Z.of_nat fuel → 0 < Z.of_nat fuel → zlen out ≤ out_len →
  ∃ r, lzf_decompress_loop fuel inp out_len ip out = Ok r ∧ match r with inl out' => zlen out' ≤ out_len | inr _ => True end.
Proof.
  induction fuel as [|fuel IH]; intros inp out_len ip out Hb Hi Hf Hf0 Ho; cbn [lzf_decompress_loop]; [lia|].
  destruct (Z.ltb_spec ip (zlen inp)) as [Hlt|Hge]; cbn [negb]; [|by eexists].
  destruct (get_byte inp ip Hb ltac:(lia)) as (ctrl & -> & Hc). rs. destruct (Z.ltb_spec ctrl 32).
  - destruct (Z.gtb_spec (zlen out + (ctrl + 1)) out_len); [by eexists|].
    destruct (Z.gtb_spec (ip + 1 + (ctrl + 1)) (zlen inp)); [by eexists|].
    destruct (copy_literals_safe (Z.to_nat (ctrl + 1)) inp (ip + 1) out_len out Hb) as (out' & -> & Ho'); [lia..|]. rs.
    apply IH; [done|lia..].
  - destruct (back_reference_safe inp out_len ctrl (ip + 1) out Hb ltac:(lia) ltac:(lia) Ho) as ([[out' ip']|e] & -> & Hr); rs; [|by eexists].
    destruct Hr. apply IH; [done|lia..].
Qed.

(** ** Matches *)

Section compress.
Context (inp : list Z) (Hbytes : Forall is_byte inp).

(** The [n] bytes at [r] and at [ip] are the same. *)
Definition matches (r ip n : Z) : Prop := ∀ k, 0 ≤ k < n → inp !! Z.to_nat (r + k) = inp !! Z.to_nat (ip + k).

Lemma matches_snoc r ip n b : matches r ip n → 0 ≤ n → mem_get inp (r + n) = Ok b → mem_get inp (ip + n) = Ok b → matches r ip (n + 1).
Proof.
  intros Hm Hn. unfold mem_get. destruct (0 <=? r + n), (0 <=? ip + n); try done.
  destruct (inp !! Z.to_nat (r + n)) eqn:E1; [|done]. destruct (inp !! Z.to_nat (ip + n)) eqn:E2; [|done]. intros [= ->] [= ->] k Hk.
  destruct (Z.eq_dec k n) as [->|]; [by rewrite E1, E2|]. apply Hm. lia.
Qed.

Lemma unrolled_ok n : ∀ r ip len, 0 ≤ r < ip → 0 ≤ len → ip + len + Z.of_nat n < zlen inp → matches r ip (len + 1) →
  ∃ len' broken, unrolled n inp r ip len = Ok (len', broken) ∧
    if broken : bool then len < len' ≤ len + Z.of_nat n ∧ matches r ip len' else len' = len + Z.of_nat n ∧ matches r ip (len' + 1).
Proof.
  induction n as [|n IH]; intros r ip len Hr Hl Hi Hm; cbn [unrolled].
  { eexists _, false. split; [done|]. split; [lia|done]. }
  destruct (get_byte inp (r + (len + 1)) Hbytes ltac:(lia)) as (a & Ea & _). rewrite Ea. rs.
  destruct (get_byte inp (ip + (len + 1)) Hbytes ltac:(lia)) as (b & Eb & _). rewrite Eb. rs.
  destruct (Z.eqb_spec a b) as [->|]; cbn [negb]; [|by eexists _, true; split; [done|split; [lia|]]].
  destruct (IH r ip (len + 1)) as (len' & broken & -> & Hc); [lia|lia|lia|eapply matches_snoc; [done|lia|done..]|].
  exists len', broken. split; [done|]. destruct broken; [split; [lia|apply Hc]|split; [lia|apply Hc]].
Qed.

Lemma extend_ok fuel : ∀ r ip maxlen len, 0 ≤ r < ip → 0 ≤ len → ip + maxlen ≤ zlen inp → maxlen - len < Z.of_nat fuel → 0 < Z.of_nat fuel →
  matches r ip (len + 1) →
  ∃ len', extend fuel inp r ip maxlen len = Ok len' ∧ len < len' ≤ Z.max maxlen (len + 1) ∧ matches r ip len'.
Proof.
  induction fuel as [|fuel IH]; intros r ip maxlen len Hr Hl Hi Hf Hf0 Hm; cbn [extend]; [lia|].
  destruct (Z.ltb_spec (len + 1) maxlen) as [Hlt|]; cbn [negb]; [|exists (len + 1); split; [done|split; [lia|done]]].
  destruct (get_byte inp (r + (len + 1)) Hbytes ltac:(lia)) as (a & Ea & _). rewrite Ea. rs.
  destruct (get_byte inp (ip + (len + 1)) Hbytes ltac:(lia)) as (b & Eb & _). rewrite Eb. rs.
  destruct (Z.eqb_spec a b) as [->|]; [|exists (len + 1); split; [done|split; [lia|done]]].
  destruct (IH r ip maxlen (len + 1)) as (len' & -> & Hc & Hm'); [lia..|eapply matches_snoc; [done|lia|done..]|].
  exists len'. split; [done|]. split; [lia|done].
Qed.

Lemma match_len_ok r ip : 0 ≤ r < ip → ip < zlen inp - 2 → matches r ip 3 →
  ∃ len, match_len inp r ip (Z.min (zlen inp - ip - 2) MAX_REF) = Ok len ∧ 3 ≤ len ≤ MAX_REF ∧ ip + len ≤ zlen inp ∧ matches r ip len.
Proof.
  intros Hr Hi Hm. unfold match_len. set (maxlen := Z.min _ _). destruct (Z.gtb_spec maxlen 16) as [Hg|Hle].
  - destruct (unrolled_ok 16 r ip 2) as (len & [|] & -> & Hc); [lia..|done| |]; rs.
    + exists len. split; [done|]. split; [lia|]. split; [lia|apply Hc].
    + destruct Hc as [-> Hc]. destruct (extend_ok (S (Z.to_nat maxlen)) r ip maxlen (2 + Z.of_nat 16)) as (len & -> & Hl & Hm'); [lia..|done|].
      exists len. split; [done|]. split; [lia|]. split; [lia|done].
  - rs. destruct (extend_ok (S (Z.to_nat maxlen)) r ip maxlen 2) as (len & -> & Hl & Hm'); [lia..|done|].
    exists len. split; [done|]. split; [lia|]. split; [lia|done].
Qed.

(** A match is what copying byte by byte gives. *)
Lemma octets_match n : ∀ r ip, (r < ip)%nat → (ip + n ≤ length inp)%nat →
  (∀ k, (k < n)%nat → inp !! (r + k)%nat = inp !! (ip + k)%nat) → octets n r (take ip inp) = take (ip + n) inp.
Proof.
  induction n as [|n IH]; intros r ip Hr Hi Hm; cbn [octets]; [by rewrite Nat.add_0_r|].
  rewrite lookup_take_lt by lia. pose proof (Hm 0%nat ltac:(lia)) as H0. rewrite !Nat.add_0_r in H0. rewrite H0.
  destruct (lookup_lt_is_Some_2 inp ip ltac:(lia)) as [b Hb]. rewrite Hb. change (default 0 (Some b)) with b.
  rewrite <- (take_S_r inp ip b Hb). rewrite (IH (S r) (S ip)); [f_equal; lia|lia|lia|].
  intros k Hk. specialize (Hm (S k) ltac:(lia)). by rewrite <- !Nat.add_succ_comm in Hm.
Qed.

(** Whether there is a match, for any address in the table.  No object is in the lowest
    8192 addresses, so that the distance to an address past the input is too large. *)
Lemma lzf_match_ok in_data ip ref : MAX_OFF ≤ in_data → in_data + zlen inp ≤ UINT64_MAX → 0 ≤ ref ≤ UINT64_MAX → 0 ≤ ip < zlen inp - 2 →
  ∃ b, lzf_match inp in_data ip ref = Ok b ∧
    (b = true → 0 ≤ ref - in_data < ip ∧ ip - (ref - in_data) - 1 < MAX_OFF ∧ matches (ref - in_data) ip 3).
Proof.
  intros Hd Hw Hr Hi. unfold lzf_match. destruct (_ && _) eqn:Ec; [|by exists false]. apply andb_prop in Ec as [Eo Er].
  assert (0 ≤ in_data + ip - ref - 1) as Hoff.
  { destruct (Z.le_gt_cases 0 (in_data + ip - ref - 1)) as [|Hneg]; [done|exfalso]. apply Z.ltb_lt in Eo.
    replace (u64 (in_data + ip - ref - 1)) with (in_data + ip - ref - 1 + 2 ^ 64) in Eo; [lia|].
    unfold wrapu. rewrite <- (Z.mod_add _ 1), Z.mul_1_l, Z.mod_small by lia. done. }
  rewrite u64_small in Eo by lia. set (r := ref - in_data) in *. assert (0 < r < ip) by lia.
  destruct (get_byte inp (r + 2) Hbytes ltac:(lia)) as (a & Ea & _). rewrite Ea. rs.
  destruct (get_byte inp (ip + 2) Hbytes ltac:(lia)) as (b & Eb & _). rewrite Eb. rs.
  destruct (Z.eqb_spec a b) as [->|]; cbn [negb]; [|by exists false]. rewrite !mem_read_ok by lia. rs. eexists. split; [done|].
  intros Hx%bool_decide_eq_true. split; [lia|]. split; [lia|]. change 3 with (2 + 1). eapply matches_snoc; [|lia|done..].
  intros k Hk. change (Z.to_nat 2) with 2%nat in Hx. apply (f_equal (λ l : list Z, l !! Z.to_nat k)) in Hx.
  rewrite !lookup_take_lt, !lookup_drop in Hx by lia. by rewrite <- !Z2Nat.inj_add in Hx by lia.
Qed.

(** ** The run of literals *)

Lemma put_byte l b c r off : off = zlen l → mem_write (l ++ b :: r) off [c] = Ok (l ++ c :: r).
Proof. intros E. exact (mem_write_app l [b] [c] r off E eq_refl). Qed.

(** The tokens that are complete and the literals of the run that is open *)
Definition opens (st : lzf_state) (toks : list token) (lits : list Z) : Prop :=
  (∃ body, z_out st = encodes toks ++ body ∧ (lits = [] ∨ ∃ h rest, body = h :: lits ++ rest)) ∧
  z_op st = zlen (encodes toks) + 1 + zlen lits ∧ z_lit st = zlen lits ∧ zlen lits < MAX_LIT ∧
  toks_ok [] toks ∧ expands [] toks ++ lits = take (Z.to_nat (z_ip st)) inp ∧ 0 ≤ z_ip st ≤ zlen inp ∧
  32 * zlen (encodes toks) ≤ 33 * (z_ip st - zlen lits).

Definition run_inv (st : lzf_state) : Prop := ∃ toks lits, opens st toks lits.

(** The tokens that are complete, when no run is open *)
Definition closed (out : list Z) (op ip : Z) (toks : list token) : Prop :=
  (∃ rest, out = encodes toks ++ rest) ∧ op = zlen (encodes toks) ∧ toks_ok [] toks ∧
  expands [] toks = take (Z.to_nat ip) inp ∧ 0 ≤ ip ≤ zlen inp.

Lemma closed_opens out op ip tab toks : closed out op ip toks → 32 * op ≤ 33 * ip → opens (Lzf ip (op + 1) 0 tab out) toks [].
Proof.
  intros ((rest & ->) & -> & Hok & He & Hi) Hb. split; [exists rest; split; [done|by left]|]. cbn. rewrite app_nil_r. split_and!; try done; lia.
Qed.

Lemma run_inv_bound st : run_inv st → 32 * z_op st ≤ 33 * zlen inp + 32 ∧ 0 ≤ z_lit st ∧ 1 ≤ z_op st ∧ 0 ≤ z_ip st ≤ zlen inp.
Proof. intros (toks & lits & _ & -> & -> & Hl & _ & _ & Hi & Hb). lia. Qed.

Lemma run_inv_tab st tab : run_inv st → run_inv (Lzf (z_ip st) (z_op st) (z_lit st) tab (z_out st)).
Proof. intros (toks & lits & H). by exists toks, lits. Qed.

(** The byte at [op] and the ones before it *)
Lemma opens_split st toks lits : opens st toks lits → z_op st < zlen (z_out st) →
  ∃ h d rest, z_out st = (encodes toks ++ h :: lits) ++ d :: rest.
Proof.
  intros ((body & Ho & Hc) & Hop & _) Hlt. rewrite Ho in *. rewrite length_app in Hlt. destruct Hc as [->|(h & rest & ->)].
  - destruct body as [|h [|d rest]]; cbn in *; try lia. exists h, d, rest. by rewrite <- app_assoc.
  - destruct rest as [|d rest]; cbn in Hlt; [rewrite app_nil_r in Hlt; lia|]. exists h, d, rest. by rewrite <- app_assoc.
Qed.

(** Stopping the run makes a token of it, or leaves its header to the next one. *)
Lemma stop_run_ok st toks lits : opens st toks lits → z_op st - 1 < zlen (z_out st) →
  ∃ out' toks', stop_run (z_out st) (z_op st) (z_lit st) = Ok out' ∧ length out' = length (z_out st) ∧
    closed out' (z_op st - (if z_lit st =? 0 then 1 else 0)) (z_ip st) toks' ∧
    toks' = (if z_lit st =? 0 then toks else toks ++ [Lit lits]).
Proof.
  intros ((body & Ho & Hc) & Hop & Hlit & Hl & Hok & He & Hi & Hb) Hlt. unfold stop_run.
  replace (z_op st - z_lit st - 1) with (zlen (encodes toks)) by lia. rewrite Ho in *. rewrite length_app in Hlt. destruct (Z.eqb_spec (z_lit st) 0) as [E0|E0].
  - assert (lits = []) as -> by (destruct lits; cbn in *; [done|lia]). destruct body as [|h body]; [cbn in *; lia|].
    rewrite put_byte by done. eexists _, toks. split; [done|]. rewrite !length_app. split; [done|]. split; [|done].
    rewrite app_nil_r in He. split; [by eexists|]. split; [cbn in Hop; lia|done].
  - destruct Hc as [->|(h & rest & ->)]; [cbn in *; lia|].
    rewrite put_byte by done. eexists _, (toks ++ [Lit lits]). split; [done|]. rewrite !length_app.
    split; [done|]. split; [|done]. rewrite u8_small by lia. split_and!; [|..].
    + exists rest. rewrite encodes_snoc. cbn [encode]. rewrite Hlit. rewrite <- app_assoc. done.
    + rewrite encodes_snoc, length_app. cbn. lia.
    + apply toks_ok_snoc. split; [done|]. cbn. lia.
    + by rewrite expands_snoc.
    + lia.
    + lia.
Qed.

Lemma put_literal_ok st : run_inv st → z_ip st < zlen inp → z_op st < zlen (z_out st) →
  ∃ st', put_literal inp st = Ok st' ∧ run_inv st' ∧ z_ip st' = z_ip st + 1 ∧ length (z_out st') = length (z_out st) ∧ z_tab st' = z_tab st ∧
    if z_lit st + 1 =? MAX_LIT then z_lit st' = 0 ∧ z_op st' = z_op st + 2 else z_lit st' = z_lit st + 1 ∧ z_op st' = z_op st + 1.
Proof.
  intros (toks & lits & Hop) Hi Hlt. destruct (opens_split _ _ _ Hop Hlt) as (h & d & rest & Ho).
  destruct Hop as (_ & Hop & Hlit & Hl & Hok & He & Hip & Hb). unfold put_literal.
  destruct (lookup_lt_is_Some_2 inp (Z.to_nat (z_ip st)) ltac:(lia)) as [c Ec]. rewrite (mem_get_lookup _ _ c) by (lia || done). rs.
  rewrite Ho. rewrite put_byte by (rewrite length_app; cbn; lia). rs. set (out1 := (encodes toks ++ h :: lits) ++ c :: rest).
  assert (take (Z.to_nat (z_ip st + 1)) inp = expands [] toks ++ lits ++ [c]) as He'.
  { replace (Z.to_nat (z_ip st + 1)) with (S (Z.to_nat (z_ip st))) by lia. by rewrite (take_S_r _ _ c Ec), <- He, <- app_assoc. }
  assert (out1 = encodes toks ++ h :: (lits ++ [c]) ++ rest) as Eo by (unfold out1; by rewrite <- !app_assoc).
  assert (length out1 = length ((encodes toks ++ h :: lits) ++ d :: rest)) as Elen by (unfold out1; rewrite !length_app; done).
  destruct (Z.eqb_spec (z_lit st + 1) MAX_LIT) as [E|E].
  - unfold stop_run. replace (z_op st + 1 - (z_lit st + 1) - 1) with (zlen (encodes toks)) by lia. rewrite Eo.
    rewrite put_byte by done. rs.
    rewrite u8_small by lia. eexists. split; [done|]. cbn [z_ip z_out z_tab z_lit z_op].
    split; [|split; [done|split; [by rewrite <- Elen, Eo, !length_app|split; [done|lia]]]].
    exists (toks ++ [Lit (lits ++ [c])]), []. replace (z_op st + 1 + 1) with ((z_op st + 1) + 1) by lia.
    apply closed_opens; [|lia]. split.
    { exists rest. rewrite encodes_snoc. cbn [encode]. replace (zlen (lits ++ [c]) - 1) with (z_lit st + 1 - 1)
        by (rewrite length_app; cbn [length]; lia). by rewrite <- (app_assoc (encodes toks)). }
    split; [rewrite encodes_snoc, length_app; cbn; rewrite length_app; cbn; lia|].
    split; [apply toks_ok_snoc; split; [done|]; cbn; rewrite length_app; cbn; lia|]. rewrite expands_snoc. split; [by rewrite He'|lia].
  - eexists. split; [done|]. cbn [z_ip z_out z_tab z_lit z_op]. split; [|split; [done|split; [exact Elen|split; [done|lia]]]].
    exists toks, (lits ++ [c]). split; [exists (h :: (lits ++ [c]) ++ rest); split; [exact Eo|right; by eexists _, _]|].
    cbn [z_ip z_out z_tab z_lit z_op]. rewrite length_app. cbn [length]. split; [lia|]. split; [lia|]. split; [lia|]. split; [done|].
    split; [by rewrite He'|]. lia.
Qed.

(** ** The loop *)

Lemma write_ref_ok out op off len rest :
  3 ≤ zlen rest → op = zlen out → 0 ≤ off < MAX_OFF → 3 ≤ len ≤ MAX_REF →
  ∃ rest', write_ref (out ++ rest) op off (len - 2) = Ok ((out ++ encode (Ref off len)) ++ rest', zlen (out ++ encode (Ref off len))) ∧
    length (encode (Ref off len) ++ rest') = length rest ∧ 32 * zlen (encode (Ref off len)) ≤ 33 * len - 31.
Proof.
  intros Hr -> Hoff Hlen. destruct rest as [|a [|b [|c rest]]]; cbn [length] in Hr; try lia. unfold write_ref. cbn [encode].
  assert (0 ≤ off / 256 < 32) as Hd by (split; [apply Z.div_pos; lia|apply Z.div_lt_upper_bound; lia]).
  assert (u8 off = off mod 256) as -> by done. rewrite !Z.shiftr_div_pow2, !Z.shiftl_mul_pow2 by lia. change (2 ^ 8) with 256. change (7 * 2 ^ 5) with 224.
  change (2 ^ 5) with 32. destruct (Z.ltb_spec (len - 2) 7) as [Hs|Hs].
  - rewrite put_byte by done. rs. rewrite u8_small by lia. set (h := off / 256 + (len - 2) * 32). change (out ++ h :: b :: c :: rest) with (out ++ [h] ++ b :: c :: rest).
    rewrite app_assoc, put_byte by (rewrite length_app; cbn; lia). rs. exists (c :: rest).
    split; [|cbn; lia]. f_equal. f_equal; [by rewrite <- !app_assoc|rewrite length_app; cbn; lia].
  - rewrite put_byte by done. rs. rewrite !u8_small by lia. set (h := off / 256 + 224). change (out ++ h :: b :: c :: rest) with (out ++ [h] ++ b :: c :: rest).
    rewrite app_assoc, put_byte by (rewrite length_app; cbn; lia). rs. replace (len - 2 - 7) with (len - 9) by lia.
    change ((out ++ [h]) ++ len - 9 :: c :: rest) with ((out ++ [h]) ++ [len - 9] ++ c :: rest).
    rewrite app_assoc, put_byte by (rewrite !length_app; cbn; lia). rs. exists rest.
    split; [|cbn; lia]. f_equal. f_equal; [by rewrite <- !app_assoc|rewrite length_app; cbn; lia].
Qed.

Lemma NEXT_ok v p : 0 ≤ p → p + 2 < zlen inp → ∃ v', NEXT v inp p = Ok v'.
Proof. intros. unfold NEXT. destruct (get_byte inp (p + 2) Hbytes ltac:(lia)) as (c & -> & _). rs. by eexists. Qed.

Lemma FRST_ok p : 0 ≤ p → p + 1 < zlen inp → ∃ v, FRST inp p = Ok v.
Proof.
  intros. unfold FRST. destruct (get_byte inp p Hbytes ltac:(lia)) as (a & -> & _). destruct (get_byte inp (p + 1) Hbytes ltac:(lia)) as (b & -> & _).
  rs. by eexists.
Qed.

(** The table holds addresses, any addresses. *)
Definition tab_ok (tab : Z → Z) : Prop := ∀ j, 0 ≤ tab j ≤ UINT64_MAX.

Lemma tab_set_ok tab i v : tab_ok tab → 0 ≤ v ≤ UINT64_MAX → tab_ok (tab_set tab i v).
Proof. intros Ht Hv j. unfold tab_set. destruct (j =? i); [done|apply Ht]. Qed.

(** A match becomes a back reference. *)
Lemma closed_ref out op ip toks r len : closed out op ip toks → 0 ≤ r < ip → ip - r - 1 < MAX_OFF → 3 ≤ len ≤ MAX_REF → ip + len ≤ zlen inp →
  matches r ip len → op + 3 ≤ zlen out →
  ∃ out' op', write_ref out op (ip - r - 1) (len - 2) = Ok (out', op') ∧ length out' = length out ∧
    closed out' op' (ip + len) (toks ++ [Ref (ip - r - 1) len]) ∧ 32 * op' ≤ 32 * op + 33 * len - 31.
Proof.
  intros ((rest & ->) & -> & Hok & He & Hi) Hr Hoff Hlen Hin Hm Ho. rewrite length_app in Ho.
  destruct (write_ref_ok (encodes toks) (zlen (encodes toks)) (ip - r - 1) len rest) as (rest' & -> & Hl & Hb); [lia|done|lia|done|].
  eexists _, _. split; [done|]. rewrite <- encodes_snoc. rewrite length_app in Hl. split; [rewrite encodes_snoc, !length_app; lia|].
  split; [|rewrite encodes_snoc, length_app; lia].
  assert (zlen (expands [] toks) = ip) as Ez by (rewrite He, length_take; lia).
  split; [by eexists|]. split; [done|]. split; [apply toks_ok_snoc; split; [done|cbn; lia]|].
  split; [|lia]. rewrite expands_snoc. cbn [expand]. rewrite Ez, He. replace (ip - (ip - r - 1) - 1) with r by lia.
  rewrite octets_match; [f_equal; lia|lia|lia|]. intros k Hk. specialize (Hm (Z.of_nat k) ltac:(lia)).
  by rewrite !Z2Nat.inj_add, Nat2Z.id in Hm by lia.
Qed.

(** The output is too small only if it is nearly as large as the input. *)
Definition tight (out : list Z) : Prop := 32 * zlen out ≤ 33 * zlen inp + 160.

Lemma put_match_ok in_data r st :
  0 ≤ in_data → in_data + zlen inp ≤ UINT64_MAX → run_inv st → tab_ok (z_tab st) → z_ip st < zlen inp - 2 →
  0 ≤ r < z_ip st → z_ip st - r - 1 < MAX_OFF → matches r (z_ip st) 3 →
  ∃ x, put_match inp in_data r st = Ok x ∧
    match x with
    | None => tight (z_out st)
    | Some (st', _, go) => run_inv st' ∧ z_ip st < z_ip st' ∧ length (z_out st') = length (z_out st) ∧ tab_ok (z_tab st') ∧
        (go = false → zlen inp - 2 ≤ z_ip st')
    end.
Proof.
  intros Hd Hw Hinv Htab Hip Hr Hoff Hm. pose proof (run_inv_bound st Hinv) as (Hb & Hl0 & Hop0 & Hip0). unfold put_match. cbv zeta.
  set (undo := if z_lit st =? 0 then 1 else 0). assert (0 ≤ undo ≤ 1) as Hu by (unfold undo; destruct (_ =? _); lia).
  destruct (_ && _) eqn:Ef; [exists None; split; [done|]; unfold tight; apply andb_prop in Ef; lia|].
  assert (z_op st - undo + 4 < zlen (z_out st)) as Hfit by (apply andb_false_iff in Ef; lia).
  destruct Hinv as (toks & lits & Hopens). destruct (stop_run_ok st toks lits Hopens ltac:(lia)) as (out1 & toks1 & -> & Hlen1 & Hcl & Et). rs.
  assert (32 * (z_op st - undo) ≤ 33 * z_ip st + 31) as Hb1.
  { destruct Hopens as (_ & Eop & Elit & _ & _ & _ & _ & Hbnd). unfold undo. destruct (Z.eqb_spec (z_lit st) 0); lia. }
  fold undo in Hcl. destruct (match_len_ok r (z_ip st) Hr Hip Hm) as (len & -> & Hlen & Hin & Hm'). rs.
  destruct (closed_ref out1 _ _ toks1 r len Hcl Hr Hoff Hlen Hin Hm' ltac:(lia)) as (out2 & op2 & -> & Hlen2 & Hcl2 & Hb2). rs.
  destruct (Z.geb_spec (z_ip st + len) (zlen inp - 2)) as [Hge|Hlt].
  - eexists. split; [done|]. cbv beta iota. cbn [z_ip z_out z_tab]. split; [by eexists _, []; apply closed_opens; [exact Hcl2|lia]|].
    split; [lia|]. split; [lia|]. split; [done|lia].
  - destruct (FRST_ok (z_ip st + len - 2)) as [h1 ->]; [lia..|]. rs. destruct (NEXT_ok h1 (z_ip st + len - 2)) as [h2 ->]; [lia..|]. rs.
    destruct (NEXT_ok h2 (z_ip st + len - 1)) as [h3 ->]; [lia..|]. rs. eexists. split; [done|]. cbv beta iota. cbn [z_ip z_out z_tab].
    split; [by eexists _, []; apply closed_opens; [exact Hcl2|lia]|]. split; [lia|]. split; [lia|]. split; [|done].
    apply tab_set_ok; [apply tab_set_ok; [done|]|]; lia.
Qed.

Lemma lzf_compress_loop_ok fuel : ∀ in_data st hval,
  MAX_OFF ≤ in_data → in_data + zlen inp ≤ UINT64_MAX → run_inv st → tab_ok (z_tab st) → zlen inp - z_ip st < Z.of_nat fuel →
  ∃ x, lzf_compress_loop fuel inp in_data st hval = Ok x ∧
    match x with
    | inr out => length out = length (z_out st) ∧ tight out
    | inl st' => run_inv st' ∧ length (z_out st') = length (z_out st) ∧ zlen inp - 2 ≤ z_ip st'
    end.
Proof.
  induction fuel as [|fuel IH]; intros in_data st hval Hd Hw Hinv Htab Hf; pose proof (run_inv_bound st Hinv) as (Hb & Hl0 & Hop0 & Hip0); [lia|].
  cbn [lzf_compress_loop]. destruct (Z.ltb_spec (z_ip st) (zlen inp - 2)) as [Hip|Hip]; cbn [negb]; [|by eexists].
  destruct (NEXT_ok hval (z_ip st)) as [h ->]; [lia..|]. rs.
  set (ref := z_tab st (IDX h)). set (st1 := Lzf _ _ _ _ _). assert (run_inv st1) as Hinv1 by by apply run_inv_tab.
  assert (tab_ok (z_tab st1)) as Htab1 by (apply tab_set_ok; [done|lia]).
  change (z_ip st1) with (z_ip st). destruct (lzf_match_ok in_data (z_ip st) ref Hd Hw (Htab _) ltac:(lia)) as ([|] & -> & Hm); rs.
  - destruct (Hm eq_refl) as (Hr & Hoff & Hm3).
    destruct (put_match_ok in_data (ref - in_data) st1 ltac:(lia) Hw Hinv1 Htab1 Hip Hr Hoff Hm3) as ([[[st2 h2] [|]]|] & -> & Hx); rs.
    + destruct Hx as (Hinv2 & Hip2 & Hlen2 & Htab2 & _). change (z_ip st1) with (z_ip st) in Hip2.
      destruct (IH in_data st2 h2 Hd Hw Hinv2 Htab2 ltac:(lia)) as (x & -> & Hx). exists x. split; [done|]. by rewrite Hlen2 in Hx.
    + eexists. split; [done|]. split; [apply Hx|]. split; [apply Hx|]. by apply Hx.
    + eexists. split; [done|]. split; [done|apply Hx].
  - destruct (Z.geb_spec (z_op st1) (zlen (z_out st1))) as [Hge|Hlt].
    + eexists. split; [done|]. split; [done|]. unfold tight. change (z_op st1) with (z_op st) in Hge. lia.
    + destruct (put_literal_ok st1 Hinv1 ltac:(cbn; lia) Hlt) as (st2 & -> & Hinv2 & Hip2 & Hlen2 & Htab2 & _). rs.
      change (z_ip st1) with (z_ip st) in Hip2. rewrite <- Htab2 in Htab1.
      destruct (IH in_data st2 h Hd Hw Hinv2 Htab1 ltac:(lia)) as (x & -> & Hx). exists x. split; [done|]. by rewrite Hlen2 in Hx.
Qed.

(** At most two bytes are left: there is room for them and a header. *)
Lemma lzf_tail_ok fuel : ∀ st, run_inv st → zlen inp - z_ip st < Z.of_nat fuel → zlen inp - z_ip st ≤ 2 →
  z_op st + (zlen inp - z_ip st) + (if MAX_LIT <=? z_lit st + (zlen inp - z_ip st) then 1 else 0) ≤ zlen (z_out st) →
  ∃ st', lzf_tail fuel inp st = Ok st' ∧ run_inv st' ∧ z_ip st' = zlen inp ∧ length (z_out st') = length (z_out st) ∧ z_op st' ≤ zlen (z_out st').
Proof.
  induction fuel as [|fuel IH]; intros st Hinv Hf Hk Ho; pose proof (run_inv_bound st Hinv) as (Hb & Hl0 & Hop0 & Hip0); [lia|].
  cbn [lzf_tail]. destruct (Z.ltb_spec (z_ip st) (zlen inp)) as [Hip|Hip]; cbn [negb].
  - assert (z_op st < zlen (z_out st)) as Hlt by (destruct (_ <=? _); lia).
    destruct (put_literal_ok st Hinv Hip Hlt) as (st2 & -> & Hinv2 & Hip2 & Hlen2 & _ & Hc). rs.
    destruct (IH st2 Hinv2 ltac:(lia) ltac:(lia)) as (st' & -> & Hinv' & Hip' & Hlen' & Ho').
    { rewrite Hlen2, Hip2. destruct (Z.eqb_spec (z_lit st + 1) MAX_LIT); destruct Hc as [-> ->]; repeat case_match; lia. }
    exists st'. split; [done|]. split; [done|]. split; [done|]. split; [lia|done].
  - exists st. split; [done|]. split; [done|]. split; [lia|]. split; [done|]. destruct (_ <=? _); lia.
Qed.

(** The whole of it: the output holds tokens for the input. *)
Lemma lzf_compress_ok in_data tab out :
  MAX_OFF ≤ in_data → in_data + zlen inp ≤ UINT64_MAX → tab_ok tab → 2 ≤ zlen inp →
  ∃ n out', lzf_compress inp in_data tab out = Ok (n, out') ∧ length out' = length out ∧
    ((n = 0 ∧ tight out) ∨
     ∃ toks, 0 < n ≤ zlen out ∧ take (Z.to_nat n) out' = encodes toks ∧ n = zlen (encodes toks) ∧ toks_ok [] toks ∧ expands [] toks = inp).
Proof.
  intros Hd Hw Htab Hn. unfold lzf_compress. destruct (Z.eqb_spec (zlen inp) 0); [lia|]. cbn [orb].
  destruct (Z.eqb_spec (zlen out) 0); [exists 0, out; split; [done|]; split; [done|]; left; unfold tight; lia|].
  destruct (FRST_ok 0) as [h ->]; [lia..|]. rs.
  assert (run_inv (Lzf 0 1 0 tab out)) as Hinv by (exists [], []; apply (closed_opens out 0 0); [split; [by exists out|]; done || (split_and!; try done; lia)|lia]).
  destruct (lzf_compress_loop_ok (S (length inp)) in_data _ h Hd Hw Hinv Htab ltac:(cbn; lia)) as ([st|out1] & -> & Hx); rs.
  2:{ destruct Hx as [Hl Ht]. cbn in Hl. exists 0, out1. split; [done|]. split; [done|]. left. unfold tight in *. rewrite Hl in Ht. done. }
  destruct Hx as (Hinv1 & Hlen1 & Hip1). cbn in Hlen1. pose proof (run_inv_bound st Hinv1) as (Hb & Hl0 & Hop0 & Hip0).
  destruct (Z.gtb_spec (z_op st + 3) (zlen (z_out st))) as [Hgt|Hle].
  { exists 0, (z_out st). split; [done|]. split; [done|]. left. unfold tight. lia. }
  destruct (lzf_tail_ok 3 st Hinv1) as (st' & -> & Hinv' & Hip' & Hlen' & Ho'); [lia|lia|destruct (_ <=? _); lia|]. rs.
  destruct Hinv' as (toks & lits & Hopens). destruct (stop_run_ok st' toks lits Hopens ltac:(lia)) as (out' & toks' & -> & Hlen & Hcl & _). rs.
  eexists _, out'. split; [done|]. split; [lia|]. right. exists toks'. destruct Hcl as ((rest & Ho) & Eop & Hok & He & _).
  rewrite Hip', Nat2Z.id, firstn_all in He. replace (if z_lit st' =? 0 then _ else _) with (zlen (encodes toks')) by (rewrite <- Eop; destruct (_ =? _); lia).
  split; [|split; [rewrite Ho, Nat2Z.id; by apply take_app_length|done]]. split; [|rewrite <- Hlen1, <- Hlen', <- Hlen, Ho, length_app; lia].
  destruct toks' as [|t toks']; [cbn in He; rewrite <- He in Hn; cbn in Hn; lia|]. destruct Hok as [Ht _]. pose proof (encode_nonempty _ _ Ht).
  change (encodes (t :: toks')) with (encode t ++ encodes toks'). rewrite length_app. lia.
Qed.
End compress.

(** ** The properties *)

(** Compression and decompression, for the other files *)
Lemma lzf_roundtrip_ok inp in_data tab out out_len :
  Forall is_byte inp → 2 ≤ zlen inp ≤ out_len → MAX_OFF ≤ in_data → in_data + zlen inp ≤ UINT64_MAX → tab_ok tab →
  ∃ n out', lzf_compress inp in_data tab out = Ok (n, out') ∧ length out' = length out ∧ 0 ≤ n ≤ zlen out ∧
    (n ≠ 0 → lzf_decompress (take (Z.to_nat n) out') out_len = Ok (inl inp)) ∧
    (33 * zlen inp + 160 < 32 * zlen out → n ≠ 0).
Proof.
  intros Hb Hn Hd Hw Ht. destruct (lzf_compress_ok inp Hb in_data tab out Hd Hw Ht ltac:(lia)) as (n & out' & E & Hl & Hc).
  exists n, out'. split; [done|]. split; [done|]. destruct Hc as [[-> Htight]|(toks & Hr & -> & -> & Hok & He)].
  - split; [lia|]. split; [done|]. intros Hx. unfold tight in Htight. lia.
  - split; [lia|]. split; [|lia]. intros _. unfold lzf_decompress.
    pose proof (decompress_tokens toks (S (length (encodes toks))) [] out_len [] Hok) as Hdec. cbn [app length] in Hdec.
    rewrite He in Hdec. apply Hdec; lia.
Qed.

(** C9: LZF compression loses nothing.  [lzf_compress] of at least two bytes accesses only
    its input and its output buffer, whatever addresses the uninitialised hash table holds,
    for an input that is not in the lowest 8192 bytes of the address space.
    If it returns a length, [lzf_decompress] of that many bytes of the buffer, into a buffer
    as large as the input, gives the input back.  It returns 0 only for an output buffer
    that is not clearly larger than the input: 33/32 of it and 5 bytes are enough. *)
Theorem lzf_roundtrip inp in_data tab out :
  Forall is_byte inp → 2 ≤ zlen inp → MAX_OFF ≤ in_data → in_data + zlen inp ≤ UINT64_MAX → tab_ok tab →
  ∃ n out', lzf_compress inp in_data tab out = Ok (n, out') ∧ length out' = length out ∧ 0 ≤ n ≤ zlen out ∧
    (n ≠ 0 → lzf_decompress (take (Z.to_nat n) out') (zlen inp) = Ok (inl inp)) ∧
    (33 * zlen inp + 160 < 32 * zlen out → n ≠ 0).
Proof. intros. by apply lzf_roundtrip_ok. Qed.

Definition ex_text : list Z := [97; 98; 99; 97; 98; 99; 97; 98; 99; 97; 98; 99; 97; 98; 99; 97; 98; 99; 100].

Lemma lzf_roundtrip_witness :
  ∃ n out', lzf_compress ex_text 65536 (λ _, 65537) (repeat 0 32) = Ok (n, out') ∧ length out' = 32%nat ∧ 0 ≤ n ≤ 32 ∧
    (n ≠ 0 → lzf_decompress (take (Z.to_nat n) out') (zlen ex_text) = Ok (inl ex_text)) ∧ (33 * zlen ex_text + 160 < 32 * 32 → n ≠ 0).
Proof.
  apply (lzf_roundtrip ex_text 65536 (λ _, 65537) (repeat 0 32)).
  - repeat constructor; done.
  - done.
  - done.
  - done.
  - intros j. split; done.
Defined.

(** C11: LZF decompression of any bytes at all, such as those of a corrupt dump file, reads
    nothing outside them, terminates, and writes at most [out_len] bytes: it returns
    what it wrote, or the error that the data is wrong or the buffer too small. *)
Theorem lzf_decompress_safe inp out_len : Forall is_byte inp → 0 ≤ out_len →
  ∃ r, lzf_decompress inp out_len = Ok r ∧ match r with inl out => zlen out ≤ out_len | inr _ => True end.
Proof. intros Hb Ho. apply decompress_safe; cbn; [done|lia..]. Qed.

Lemma lzf_decompress_safe_witness :
  ∃ r, lzf_decompress [224; 9; 255] 16 = Ok r ∧ match r with inl out => zlen out ≤ 16 | inr _ => True end.
Proof. apply (lzf_decompress_safe [224; 9; 255] 16); [repeat constructor; done|done]. Defined.
