(* ===== verification/Crc.v ===== *)
(** Checksums: CRC-64 as [crc64.c], [crcspeed.c] and [crccombine.c] compute it, bit by
    bit for the tables and several bytes at a time for the data, on machines of both byte
    orders; CRC-16 of [crc16.c] and the hash slots of [cluster.h]. *)

From S2P Require Import Prelude Endian.

Definition POLY : Z := 0xad93d23594c935a9.
Definition CRC64_REVERSED_POLY : Z := 0x95ac9329ac4bc9b5.
Definition CRC64_LEN_MASK : Z := 0x7ffffffffffffff8.

(** ** Bit by bit *)

(** [__builtin_bswap64] *)
Definition bswap64 (x : Z) : Z := le_val (rev (le_bytes 8 x)).
Definition rev8 (a : Z) : Z := bswap64 a.

Definition crc_reflect (data data_len : Z) : res Z :=
  if negb (data_len <=? 64) then Fault AssertFailed else
  let data := Z.lor (Z.land (Z.shiftr data 1) 0x5555555555555555) (u64 (Z.shiftl (Z.land data 0x5555555555555555) 1)) in
  let data := Z.lor (Z.land (Z.shiftr data 2) 0x3333333333333333) (u64 (Z.shiftl (Z.land data 0x3333333333333333) 2)) in
  let data := Z.lor (Z.land (Z.shiftr data 4) 0x0F0F0F0F0F0F0F0F) (u64 (Z.shiftl (Z.land data 0x0F0F0F0F0F0F0F0F) 4)) in
  let data := bswap64 data in
  Ok (Z.shiftr data (64 - data_len)).

Definition crc_bit (c crc i : Z) : Z :=
  let bit := Z.land crc 0x8000000000000000 in
  let bit := if negb (Z.land c i =? 0) then (if bit =? 0 then 1 else 0) else bit in
  let crc := u64 (Z.shiftl crc 1) in
  if negb (bit =? 0) then Z.lxor crc POLY else crc.

Definition crc_byte (crc c : Z) : Z :=
  let crc := foldl (crc_bit c) crc [0x01; 0x02; 0x04; 0x08; 0x10; 0x20; 0x40; 0x80] in
  Z.land crc 0xffffffffffffffff.

Definition _crc64 (crc : Z) (data : list Z) : res Z :=
  let crc := foldl crc_byte crc data in
  let crc := Z.land crc 0xffffffffffffffff in
  crc_reflect crc 64.

(** ** The product of a matrix and a vector over the field of two elements *)

(** Four bits at a time: the cases of the switch *)
Definition times4 (m0 m1 m2 m3 vec : Z) : Z :=
  match Z.land vec 15 with
  | 15 => Z.lxor (Z.lxor (Z.lxor m0 m1) m2) m3
  | 14 => Z.lxor (Z.lxor m1 m2) m3
  | 13 => Z.lxor (Z.lxor m0 m2) m3
  | 12 => Z.lxor m2 m3
  | 11 => Z.lxor (Z.lxor m0 m1) m3
  | 10 => Z.lxor m1 m3
  | 9 => Z.lxor m0 m3
  | 8 => m3
  | 7 => Z.lxor (Z.lxor m0 m1) m2
  | 6 => Z.lxor m1 m2
  | 5 => Z.lxor m0 m2
  | 4 => m2
  | 3 => Z.lxor m0 m1
  | 2 => m1
  | 1 => m0
  | _ => 0
  end.

Fixpoint times_loop (fuel : nat) (mat : list Z) (vec sum : Z) : res Z :=
  match fuel with
  | O => Fault OutOfFuel
  | S fuel =>
      if vec =? 0 then Ok sum else
      match mat with
      | m0 :: m1 :: m2 :: m3 :: mat => times_loop fuel mat (Z.shiftr vec 4) (Z.lxor sum (times4 m0 m1 m2 m3 vec))
      | _ => Fault OutOfBounds
      end
  end.
Definition gf2_matrix_times_switch (mat : list Z) (vec : Z) : res Z := times_loop 17 mat vec 0.

(** Two bits at a time, in the two halves of a vector register *)
Definition chunk2 (mat : list Z) (sum : Z * Z) (vec : Z) : res (list Z * (Z * Z) * Z) :=
  match mat with
  | m0 :: m1 :: mat =>
      let mask0 := if Z.testbit vec 0 then 0xffffffffffffffff else 0 in
      let mask1 := if Z.testbit vec 1 then 0xffffffffffffffff else 0 in
      Ok (mat, (Z.lxor sum.1 (Z.land m0 mask0), Z.lxor sum.2 (Z.land m1 mask1)), Z.shiftr vec 2)
  | _ => Fault OutOfBounds
  end.
Fixpoint chunks (n : nat) (mat : list Z) (sum : Z * Z) (vec : Z) : res (Z * Z) :=
  match n with
  | O => Ok sum
  | S n => '(mat, sum, vec) ← chunk2 mat sum vec; chunks n mat sum vec
  end.
Definition gf2_matrix_times_vec2 (mat : list Z) (vec : Z) : res Z :=
  sum ← chunks 32 mat (0, 0) vec;
  Ok (Z.lxor sum.1 sum.2).

(** Which of them is compiled, and the sizes from which data is split *)
Class CrcConfig := { crc_vector : bool; CRC64_DUAL_CUTOFF : Z; CRC64_TRI_CUTOFF : Z }.

Section crc64.
Context `{!Arch, !CrcConfig}.

Definition CRC_MULTIPLY (mat : list Z) (vec : Z) : res Z :=
  if crc_vector then gf2_matrix_times_vec2 mat vec else gf2_matrix_times_switch mat vec.

(** Rows of a matrix, matrices of the cache *)
Definition gf2_matrix_square (mat : list Z) : res (list Z) := mapM (CRC_MULTIPLY mat) mat.

Definition get_matrix (cache : list (list Z)) (i : Z) : res (list Z) :=
  match (if 0 <=? i then cache !! Z.to_nat i else None) with Some m => Ok m | None => Fault OutOfBounds end.

Fixpoint one_zero_bit (n : nat) (row : Z) : list Z :=
  match n with O => [] | S n => row :: one_zero_bit n (u64 (Z.shiftl row 1)) end.

Fixpoint square_cache (n : nat) (cache : list (list Z)) (cache_num prev : Z) : res (list (list Z)) :=
  match n with
  | O => Ok cache
  | S n =>
      m ← get_matrix cache (cache_num + prev);
      sq ← gf2_matrix_square m;
      square_cache n (<[Z.to_nat cache_num := sq]> cache) (cache_num + 1) (-1)
  end.

Definition init_combine_cache (cache : list (list Z)) (poly : Z) : res (list (list Z)) :=
  let m1 := poly :: one_zero_bit 63 1 in
  m0 ← gf2_matrix_square m1;
  m1 ← gf2_matrix_square m0;
  square_cache 64 (<[1%nat := m1]> (<[0%nat := m0]> cache)) 0 1.

(** [combine_cache[64][64]] before the first use *)
Definition combine_cache_zero : list (list Z) := repeat (repeat 0 64) 64.

Fixpoint combine_loop (fuel : nat) (cache : list (list Z)) (crc1 len2 cache_num : Z) : res Z :=
  match fuel with
  | O => Fault OutOfFuel
  | S fuel =>
      crc1 ← (if negb (Z.land len2 1 =? 0) then m ← get_matrix cache cache_num; CRC_MULTIPLY m crc1 else Ok crc1);
      let len2 := Z.shiftr len2 1 in
      let cache_num := Z.land (cache_num + 1) 63 in
      if negb (len2 =? 0) then combine_loop fuel cache crc1 len2 cache_num else Ok crc1
  end.

Definition crc64_combine (cache : list (list Z)) (crc1 crc2 len2 poly : Z) : res (Z * list (list Z)) :=
  if len2 =? 0 then Ok (crc1, cache) else
  m ← get_matrix cache 0;
  m00 ← mem_get m 0;
  cache ← (if m00 =? 0 then init_combine_cache cache poly else Ok cache);
  crc1 ← combine_loop 64 cache crc1 len2 0;
  Ok (Z.lxor crc1 crc2, cache).

(** ** The tables *)

Definition tab (table : list (list Z)) (k : nat) (n : Z) : res Z :=
  match table !! k with Some row => mem_get row n | None => Fault OutOfBounds end.

Fixpoint nested (row : list Z) (n : Z) (k : nat) : res Z :=
  match k with
  | O => mem_get row n
  | S k => crc ← nested row n k; x ← mem_get row (Z.land crc 0xff); Ok (Z.lxor x (Z.shiftr crc 8))
  end.

Definition crcspeed64little_init (crcfn : Z → list Z → res Z) : res (list (list Z)) :=
  row ← mapM (λ n, crcfn 0 [u8 n]) (seqZ 0 256);
  mapM (λ k, mapM (λ n, nested row n k) (seqZ 0 256)) (seq 0 8).

Definition crcspeed64big_init (fn : Z → list Z → res Z) : res (list (list Z)) :=
  t ← crcspeed64little_init fn;
  Ok (map (map rev8) t).

Definition crcspeed64native_init (fn : Z → list Z → res Z) : res (list (list Z)) :=
  if big_endian then crcspeed64big_init fn else crcspeed64little_init fn.

Definition crc64_init : res (list (list Z)) := crcspeed64native_init _crc64.

(** ** The data *)

(** A loop over bytes, with a step of its own on machines of each byte order *)
Fixpoint align_loop (fuel : nat) (step : Z → Z → res Z) (addr : Z) (buf : list Z) (crc next len : Z) : res (Z * Z * Z) :=
  match fuel with
  | O => Fault OutOfFuel
  | S fuel =>
      if negb (len =? 0) && negb (Z.land (addr + next) 7 =? 0) then
        b ← mem_get buf next;
        crc ← step crc b;
        align_loop fuel step addr buf crc (next + 1) (len - 1)
      else Ok (crc, next, len)
  end.

Fixpoint byte_loop (fuel : nat) (step : Z → Z → res Z) (buf : list Z) (crc next len : Z) : res Z :=
  match fuel with
  | O => Fault OutOfFuel
  | S fuel =>
      if negb (len =? 0) then
        b ← mem_get buf next;
        crc ← step crc b;
        byte_loop fuel step buf crc (next + 1) (len - 1)
      else Ok crc
  end.

Fixpoint word_loop (fuel : nat) (step : Z → Z → res Z) (buf : list Z) (crc next len : Z) : res (Z * Z * Z) :=
  match fuel with
  | O => Fault OutOfFuel
  | S fuel =>
      if len >=? 8 then
        w ← mem_read buf next 8;
        crc ← step crc (native_load w);
        word_loop fuel step buf crc (next + 8) (len - 8)
      else Ok (crc, next, len)
  end.

Section little.
Context (little_table : list (list Z)).

Definition little_byte (crc b : Z) : res Z :=
  x ← tab little_table 0 (Z.land (Z.lxor crc b) 0xff);
  Ok (Z.lxor x (Z.shiftr crc 8)).

(** [DO_8_1] and [DO_8_2] *)
Definition DO_8 (crc w : Z) : res Z :=
  let crc := Z.lxor crc w in
  x7 ← tab little_table 7 (u8 crc);
  x6 ← tab little_table 6 (u8 (Z.shiftr crc 8));
  x5 ← tab little_table 5 (u8 (Z.shiftr crc 16));
  x4 ← tab little_table 4 (u8 (Z.shiftr crc 24));
  x3 ← tab little_table 3 (u8 (Z.shiftr crc 32));
  x2 ← tab little_table 2 (u8 (Z.shiftr crc 40));
  x1 ← tab little_table 1 (u8 (Z.shiftr crc 48));
  x0 ← tab little_table 0 (Z.shiftr crc 56);
  Ok (Z.lxor (Z.lxor (Z.lxor (Z.lxor (Z.lxor (Z.lxor (Z.lxor x7 x6) x5) x4) x3) x2) x1) x0).

(** Three segments, or two, at the same time *)
Fixpoint tri_loop (fuel : nat) (buf : list Z) (crc1 crc2 crc3 next1 next2 next3 len : Z) : res (Z * Z * Z * (Z * Z * Z)) :=
  match fuel with
  | O => Fault OutOfFuel
  | S fuel =>
      if len >=? 8 then
        w1 ← mem_read buf next1 8;
        w2 ← mem_read buf next2 8;
        w3 ← mem_read buf next3 8;
        crc1 ← DO_8 crc1 (native_load w1);
        crc2 ← DO_8 crc2 (native_load w2);
        crc3 ← DO_8 crc3 (native_load w3);
        tri_loop fuel buf crc1 crc2 crc3 (next1 + 8) (next2 + 8) (next3 + 8) (len - 8)
      else Ok (crc1, crc2, crc3, (next1, next2, next3))
  end.

Fixpoint dual_loop (fuel : nat) (buf : list Z) (crc1 crc2 next1 next2 len : Z) : res (Z * Z * (Z * Z)) :=
  match fuel with
  | O => Fault OutOfFuel
  | S fuel =>
      if len >=? 8 then
        w1 ← mem_read buf next1 8;
        w2 ← mem_read buf next2 8;
        crc1 ← DO_8 crc1 (native_load w1);
        crc2 ← DO_8 crc2 (native_load w2);
        dual_loop fuel buf crc1 crc2 (next1 + 8) (next2 + 8) (len - 8)
      else Ok (crc1, crc2, (next1, next2))
  end.

Definition split_tri (cache : list (list Z)) (buf : list Z) (crc1 next1 olen : Z) : res (Z * Z * Z * list (list Z)) :=
  let next2 := next1 + Z.land (olen / 3) CRC64_LEN_MASK in
  let len := next2 - next1 in
  let next3 := next2 + len in
  '(crc1, crc2, crc3, (next1, next2, next3)) ← tri_loop (S (length buf)) buf crc1 0 0 next1 next2 next3 len;
  '(crc1, cache) ← crc64_combine cache crc1 crc2 (next2 - next1) CRC64_REVERSED_POLY;
  '(crc1, cache) ← crc64_combine cache crc1 crc3 (next2 - next1) CRC64_REVERSED_POLY;
  Ok (crc1, next3, olen - (next2 - next1) * 3, cache).

Definition split_dual (cache : list (list Z)) (buf : list Z) (crc1 next1 olen : Z) : res (Z * Z * Z * list (list Z)) :=
  let next2 := next1 + Z.land (olen / 2) CRC64_LEN_MASK in
  let len := next2 - next1 in
  '(crc1, crc2, (next1, next2)) ← dual_loop (S (length buf)) buf crc1 0 next1 next2 len;
  '(crc1, cache) ← crc64_combine cache crc1 crc2 (next2 - next1) CRC64_REVERSED_POLY;
  Ok (crc1, next2, olen - (next2 - next1) * 2, cache).

(** The checksum of the bytes [buf] at the address [addr], and the cache *)
Definition crcspeed64little (cache : list (list Z)) (crc1 addr : Z) (buf : list Z) : res (Z * list (list Z)) :=
  let len := zlen buf in
  let fuel := S (length buf) in
  if CRC64_DUAL_CUTOFF <? 1 then crc1 ← byte_loop fuel little_byte buf crc1 0 len; Ok (crc1, cache) else
  '(crc1, next1, len) ← align_loop 8 little_byte addr buf crc1 0 len;
  '(crc1, next1, len, cache) ←
    (if len >? CRC64_TRI_CUTOFF then split_tri cache buf crc1 next1 len
     else if len >? CRC64_DUAL_CUTOFF then split_dual cache buf crc1 next1 len
     else Ok (crc1, next1, len, cache));
  '(crc1, next1, len) ← word_loop fuel DO_8 buf crc1 next1 len;
  crc1 ← byte_loop fuel little_byte buf crc1 next1 len;
  Ok (crc1, cache).
End little.

Section big.
Context (big_table : list (list Z)).

Definition big_byte (crc b : Z) : res Z :=
  x ← tab big_table 0 (Z.lxor (Z.shiftr crc 56) b);
  Ok (Z.lxor x (u64 (Z.shiftl crc 8))).

Definition big_word (crc w : Z) : res Z :=
  let crc := Z.lxor crc w in
  x0 ← tab big_table 0 (Z.land crc 0xff);
  x1 ← tab big_table 1 (Z.land (Z.shiftr crc 8) 0xff);
  x2 ← tab big_table 2 (Z.land (Z.shiftr crc 16) 0xff);
  x3 ← tab big_table 3 (Z.land (Z.shiftr crc 24) 0xff);
  x4 ← tab big_table 4 (Z.land (Z.shiftr crc 32) 0xff);
  x5 ← tab big_table 5 (Z.land (Z.shiftr crc 40) 0xff);
  x6 ← tab big_table 6 (Z.land (Z.shiftr crc 48) 0xff);
  x7 ← tab big_table 7 (Z.shiftr crc 56);
  Ok (Z.lxor (Z.lxor (Z.lxor (Z.lxor (Z.lxor (Z.lxor (Z.lxor x0 x1) x2) x3) x4) x5) x6) x7).

Definition crcspeed64big (crc addr : Z) (buf : list Z) : res Z :=
  let fuel := S (length buf) in
  let crc := rev8 crc in
  '(crc, next, len) ← align_loop 8 big_byte addr buf crc 0 (zlen buf);
  '(crc, next, len) ← word_loop fuel big_word buf crc next len;
  crc ← byte_loop fuel big_byte buf crc next len;
  Ok (rev8 crc).
End big.

Definition crcspeed64native (table cache : list (list Z)) (crc addr : Z) (buf : list Z) : res (Z * list (list Z)) :=
  if big_endian then crc ← crcspeed64big table crc addr buf; Ok (crc, cache)
  else crcspeed64little table cache crc addr buf.

(** [crc64] with its table, which [crc64_init] makes *)
Definition crc64 (table cache : list (list Z)) (crc addr : Z) (s : list Z) : res (Z * list (list Z)) :=
  crcspeed64native table cache crc addr s.
End crc64.
