(* ===== verification/CrcSpec.v ===== *)
(** CRC-64: the table-driven, split and combined computation is the bit by bit one, on
    both kinds of machine, and it detects every error of up to eight bytes.

    The functions on registers are linear over the field of two elements.  A linear
    function is known from its values at the powers of two, so that equations of such
    functions are checked on the 64 bits of a register. *)

From S2P Require Import Prelude Endian Crc.

(** ** Linear functions *)

Definition linear (f : Z → Z) : Prop := ∀ x y, f (Z.lxor x y) = Z.lxor (f x) (f y).

Create HintDb linear.

Lemma linear_0 f : linear f → f 0 = 0.
Proof. intros Hf. specialize (Hf 0 0). rewrite !Z.lxor_nilpotent in Hf. exact Hf. Qed.

Lemma linear_id : linear (λ x, x).
Proof. done. Qed.

Lemma linear_comp f g : linear f → linear g → linear (λ x, f (g x)).
Proof. intros Hf Hg x y. by rewrite Hg, Hf. Qed.

Lemma lxor_4 a b c d : Z.lxor (Z.lxor a b) (Z.lxor c d) = Z.lxor (Z.lxor a c) (Z.lxor b d).
Proof. rewrite !Z.lxor_assoc. f_equal. rewrite <- !Z.lxor_assoc. f_equal. apply Z.lxor_comm. Qed.

Lemma linear_lxor f g : linear f → linear g → linear (λ x, Z.lxor (f x) (g x)).
Proof. intros Hf Hg x y. rewrite Hf, Hg. apply lxor_4. Qed.

Lemma linear_shiftr f n : linear f → linear (λ x, Z.shiftr (f x) n).
Proof. intros Hf x y. rewrite Hf. apply Z.shiftr_lxor. Qed.

Lemma linear_shiftl f n : linear f → linear (λ x, Z.shiftl (f x) n).
Proof. intros Hf x y. rewrite Hf. apply Z.shiftl_lxor. Qed.

Lemma land_lxor_distr a b m : Z.land (Z.lxor a b) m = Z.lxor (Z.land a m) (Z.land b m).
Proof. apply Z.bits_inj'. intros n Hn. rewrite !Z.land_spec, !Z.lxor_spec, !Z.land_spec. by destruct (Z.testbit a n), (Z.testbit b n), (Z.testbit m n). Qed.

Lemma linear_land f m : linear f → linear (λ x, Z.land (f x) m).
Proof. intros Hf x y. rewrite Hf. apply land_lxor_distr. Qed.

Lemma linear_bit f k c : linear f → linear (λ x, if Z.testbit (f x) k then c else 0).
Proof.
  intros Hf x y. rewrite Hf, Z.lxor_spec. destruct (Z.testbit (f x) k), (Z.testbit (f y) k); cbn [xorb];
    by rewrite ?Z.lxor_nilpotent, ?Z.lxor_0_r, ?Z.lxor_0_l.
Qed.

Lemma u64_land x : u64 x = Z.land x (Z.ones 64).
Proof. unfold wrapu. by rewrite Z.land_ones by lia. Qed.

Lemma linear_u64 f : linear f → linear (λ x, u64 (f x)).
Proof. intros Hf x y. rewrite !u64_land. by apply (linear_land f). Qed.

Lemma linear_iter n f : linear f → linear (Nat.iter n f).
Proof. intros Hf. induction n as [|n IH]; [done|]. intros x y. by rewrite !Nat.iter_succ, IH, Hf. Qed.

#[export] Hint Resolve linear_id linear_lxor linear_shiftr linear_shiftl linear_land linear_bit linear_u64 linear_iter : linear.

(** Two linear functions that agree on the powers of two agree. *)
Lemma linear_ext (n : nat) f g : linear f → linear g →
  forallb (λ i, f (2 ^ i) =? g (2 ^ i)) (seqZ 0 (Z.of_nat n)) = true → ∀ x, 0 ≤ x < 2 ^ Z.of_nat n → f x = g x.
Proof.
  intros Hf Hg Hb. rewrite forallb_forall in Hb.
  assert (∀ i, 0 ≤ i < Z.of_nat n → f (2 ^ i) = g (2 ^ i)) as Hp.
  { intros i Hi. apply Z.eqb_eq, Hb, list_elem_of_In, elem_of_seqZ. lia. }
  clear Hb. induction n as [|n IH]; intros x Hx; [assert (x = 0) as -> by lia; by rewrite !linear_0|].
  rewrite Nat2Z.inj_succ, Z.pow_succ_r in Hx by lia.
  destruct (Z.lt_ge_cases x (2 ^ Z.of_nat n)) as [Hlt|Hge]; [apply IH; [intros; apply Hp; lia|lia]|].
  replace x with (Z.lxor (2 ^ Z.of_nat n) (x - 2 ^ Z.of_nat n)).
  - rewrite Hf, Hg. rewrite (Hp (Z.of_nat n)) by lia. f_equal. apply IH; [intros; apply Hp; lia|lia].
  - rewrite <- Z.add_nocarry_lxor; [lia|]. apply Z.bits_inj'. intros i Hi. rewrite Z.land_spec, Z.pow2_bits_eqb, Z.bits_0 by lia.
    destruct (Z.eqb_spec (Z.of_nat n) i) as [<-|]; [|done]. cbn [andb]. rewrite Z.testbit_eqb by lia.
    rewrite Z.div_small by lia. done.
Qed.

(** ** Bytes *)

Lemma le_val_cons_lxor b l : is_byte b → le_val (b :: l) = Z.lxor b (Z.shiftl (le_val l) 8).
Proof.
  intros Hb. cbn [le_val]. rewrite Z.shiftl_mul_pow2 by lia. change (2 ^ 8) with 256.
  rewrite (Z.mul_comm 256). apply Z.add_nocarry_lxor. apply Z.bits_inj'. intros i Hi. rewrite Z.land_spec, Z.bits_0.
  destruct (Z.lt_ge_cases i 8) as [Hlt|Hge].
  - change 256 with (2 ^ 8). rewrite Z.mul_pow2_bits_low by lia. apply andb_false_r.
  - rewrite (Z.testbit_eqb b) by lia. rewrite Z.div_small; [done|]. pose proof (Z.pow_le_mono_r 2 8 i). unfold is_byte in Hb. lia.
Qed.

Lemma lxor_range n a b : 0 ≤ n → 0 ≤ a < 2 ^ n → 0 ≤ b < 2 ^ n → 0 ≤ Z.lxor a b < 2 ^ n.
Proof.
  intros Hn Ha Hb. assert (0 ≤ Z.lxor a b) as H0 by (apply Z.lxor_nonneg; lia). split; [done|].
  destruct (Z.eq_dec (Z.lxor a b) 0) as [->|]; [lia|]. apply Z.log2_lt_pow2; [lia|]. pose proof (Z.log2_lxor a b ltac:(lia) ltac:(lia)).
  assert (∀ c, 0 ≤ c < 2 ^ n → 0 < n → Z.log2 c < n) as Hl.
  { intros c Hc Hn'. destruct (Z.eq_dec c 0) as [->|]; [cbn; lia|]. apply Z.log2_lt_pow2; lia. }
  destruct (Z.eq_dec n 0) as [->|]; [|pose proof (Hl a Ha); pose proof (Hl b Hb); lia].
  assert (a = 0) as -> by (change (2 ^ 0) with 1 in *; lia). assert (b = 0) as -> by (change (2 ^ 0) with 1 in *; lia). done.
Qed.

Lemma lxor_byte a b : is_byte a → is_byte b → is_byte (Z.lxor a b).
Proof. unfold is_byte. intros. apply (lxor_range 8); lia. Qed.

Lemma le_bytes_lxor n : ∀ x y, le_bytes n (Z.lxor x y) = zip_with Z.lxor (le_bytes n x) (le_bytes n y).
Proof.
  induction n as [|n IH]; intros x y; [done|]. cbn [le_bytes zip_with]. rewrite <- IH.
  assert (∀ z, z mod 256 = Z.land z 255) as Em by (intros; change 255 with (Z.ones 8); by rewrite Z.land_ones by lia).
  assert (∀ z, z / 256 = Z.shiftr z 8) as Ed by (intros; by rewrite Z.shiftr_div_pow2 by lia).
  rewrite !Em, !Ed, land_lxor_distr, Z.shiftr_lxor. done.
Qed.

Lemma le_val_lxor a : ∀ b, Forall is_byte a → Forall is_byte b → length a = length b →
  le_val (zip_with Z.lxor a b) = Z.lxor (le_val a) (le_val b).
Proof.
  induction a as [|x a IH]; intros [|y b] Ha Hb Hl; try done. inversion Ha; inversion Hb; subst. cbn [zip_with].
  rewrite !le_val_cons_lxor by (done || by apply lxor_byte). rewrite IH by (done || by injection Hl). rewrite Z.shiftl_lxor. apply lxor_4.
Qed.

Lemma zip_with_rev {A B C} (f : A → B → C) a : ∀ b, length a = length b → rev (zip_with f a b) = zip_with f (rev a) (rev b).
Proof.
  induction a as [|x a IH]; intros [|y b] Hl; try done. injection Hl as Hl. cbn [zip_with rev]. rewrite IH by done.
  rewrite zip_with_app by (by rewrite !length_rev). done.
Qed.

Lemma linear_bswap64 f : linear f → linear (λ x, bswap64 (f x)).
Proof.
  intros Hf x y. unfold bswap64. rewrite Hf, le_bytes_lxor, zip_with_rev by by rewrite !length_le_bytes.
  apply le_val_lxor; [apply Forall_rev, le_bytes_byte..|by rewrite !length_rev, !length_le_bytes].
Qed.
#[export] Hint Resolve linear_bswap64 : linear.

(** ** The register *)

Definition is64 (x : Z) : Prop := 0 ≤ x < 2 ^ 64.

(** A zero bit enters the reflected register. *)
Definition zero_bit (r : Z) : Z := Z.lxor (Z.shiftr r 1) (if Z.testbit r 0 then CRC64_REVERSED_POLY else 0).

(** [n] zero bits, [n] zero bytes *)
Definition zero_bits (n : nat) : Z → Z := Nat.iter n zero_bit.
Definition zeros (n : nat) : Z → Z := zero_bits (8 * n).

(** The reference: each byte is added to the register and shifted through it. *)
Definition crc_ref (r : Z) (bs : list Z) : Z := foldl (λ r b, zeros 1 (Z.lxor r b)) r bs.

Lemma linear_zero_bit : linear zero_bit.
Proof. unfold zero_bit. auto with linear. Qed.

Lemma linear_zero_bits n : linear (zero_bits n).
Proof. apply linear_iter, linear_zero_bit. Qed.

Lemma linear_zeros n : linear (zeros n).
Proof. apply linear_zero_bits. Qed.

Lemma linear_zeros_of n f : linear f → linear (λ x, zeros n (f x)).
Proof. intros. apply linear_comp; [apply linear_zeros|done]. Qed.
#[export] Hint Resolve linear_zero_bit linear_zero_bits linear_zeros linear_zeros_of : linear.

Lemma zero_bits_add a b x : zero_bits (a + b) x = zero_bits a (zero_bits b x).
Proof. apply Nat.iter_add. Qed.

Lemma zeros_add a b x : zeros (a + b) x = zeros a (zeros b x).
Proof. unfold zeros. rewrite Nat.mul_add_distr_l. apply zero_bits_add. Qed.

Lemma zero_bit_is64 r : is64 r → is64 (zero_bit r).
Proof.
  unfold is64, zero_bit. intros Hr. apply lxor_range; [lia| |destruct (Z.testbit r 0); unfold CRC64_REVERSED_POLY; lia].
  rewrite Z.shiftr_div_pow2 by lia. change (2 ^ 1) with 2. zdiv.
Qed.

Lemma zero_bits_is64 n r : is64 r → is64 (zero_bits n r).
Proof. intros Hr. induction n as [|n IH]; [done|]. unfold zero_bits. rewrite Nat.iter_succ. by apply zero_bit_is64. Qed.

Lemma zeros_is64 n r : is64 r → is64 (zeros n r).
Proof. apply zero_bits_is64. Qed.

Lemma lxor_is64 a b : is64 a → is64 b → is64 (Z.lxor a b).
Proof. intros. apply lxor_range; [lia|done..]. Qed.

Lemma byte_is64 b : is_byte b → is64 b.
Proof. unfold is_byte, is64. lia. Qed.

#[export] Hint Resolve zero_bit_is64 zero_bits_is64 zeros_is64 lxor_is64 byte_is64 : linear.

Lemma crc_ref_is64 bs : ∀ r, Forall is_byte bs → is64 r → is64 (crc_ref r bs).
Proof. induction bs as [|b bs IH]; intros r Hb Hr; [done|]. inversion Hb; subst. cbn [crc_ref foldl]. apply IH; auto with linear. Qed.

(** A byte leaves the register to the right. *)
Lemma zeros_1_byte r : is64 r → zeros 1 r = Z.lxor (zeros 1 (Z.land r 255)) (Z.shiftr r 8).
Proof. apply (linear_ext 64 (zeros 1) (λ r, Z.lxor (zeros 1 (Z.land r 255)) (Z.shiftr r 8))); [auto with linear..|by vm_compute]. Qed.

Lemma zeros_1_shift r : 0 ≤ r < 2 ^ 56 → zeros 1 (Z.shiftl r 8) = r.
Proof. apply (linear_ext 56 (λ r, zeros 1 (Z.shiftl r 8)) (λ r, r)); [auto with linear..|by vm_compute]. Qed.

(** Up to eight bytes at once *)
Lemma crc_ref_word bs : ∀ r, Forall is_byte bs → (length bs ≤ 8)%nat → crc_ref r bs = zeros (length bs) (Z.lxor r (le_val bs)).
Proof.
  induction bs as [|b bs IH]; intros r Hb Hl; [cbn [crc_ref foldl length le_val]; by rewrite Z.lxor_0_r|]. inversion Hb; subst.
  cbn [crc_ref foldl length]. cbn [length] in Hl. fold (crc_ref (zeros 1 (Z.lxor r b)) bs). rewrite IH by (done || lia). rewrite le_val_cons_lxor by done.
  replace (S (length bs)) with (length bs + 1)%nat by lia. rewrite zeros_add. f_equal.
  rewrite <- Z.lxor_assoc, (linear_zeros 1 _ (Z.shiftl _ _)), zeros_1_shift; [done|]. pose proof (le_val_range bs ltac:(done)) as Hr.
  split; [lia|]. eapply Z.lt_le_trans; [apply Hr|]. change (2 ^ 56) with (256 ^ 7). apply Z.pow_le_mono_r; lia.
Qed.

(** Zero bytes for those of a second part; the parts of a register add up. *)
Lemma crc_ref_split bs : ∀ r s, Forall is_byte bs → crc_ref (Z.lxor r s) bs = Z.lxor (zeros (length bs) r) (crc_ref s bs).
Proof.
  induction bs as [|b bs IH]; intros r s Hb; [done|]. inversion Hb; subst. cbn [crc_ref foldl length].
  rewrite Z.lxor_assoc, linear_zeros. fold (crc_ref (Z.lxor (zeros 1 r) (zeros 1 (Z.lxor s b))) bs). rewrite IH by done.
  replace (S (length bs)) with (length bs + 1)%nat by lia. by rewrite zeros_add.
Qed.

Lemma crc_ref_app r a b : crc_ref r (a ++ b) = crc_ref (crc_ref r a) b.
Proof. apply foldl_app. Qed.

Lemma crc_ref_two r a b : Forall is_byte b → crc_ref r (a ++ b) = Z.lxor (zeros (length b) (crc_ref r a)) (crc_ref 0 b).
Proof. intros Hb. rewrite crc_ref_app. rewrite <- (Z.lxor_0_r (crc_ref r a)) at 1. by apply crc_ref_split. Qed.

(** ** Bit by bit *)

Lemma swap_linear f k M : linear f → 0 ≤ k → 0 ≤ M → Z.land M (Z.shiftl M k) = 0 → Z.shiftl M k < 2 ^ 64 →
  linear (λ x, Z.lor (Z.land (Z.shiftr (f x) k) M) (u64 (Z.shiftl (Z.land (f x) M) k))).
Proof.
  intros Hf Hk HM Hd Hs. assert (0 ≤ Z.shiftl M k) as HM' by (by apply Z.shiftl_nonneg).
  assert (∀ x, Z.lor (Z.land (Z.shiftr (f x) k) M) (u64 (Z.shiftl (Z.land (f x) M) k)) =
    Z.lxor (Z.land (Z.shiftr (f x) k) M) (u64 (Z.shiftl (Z.land (f x) M) k))) as E.
  { intros x. rewrite <- Z.lxor_lor; [done|]. rewrite u64_land, Z.shiftl_land. apply Z.bits_inj'. intros i Hi.
    apply (f_equal (λ z, Z.testbit z i)) in Hd. rewrite !Z.land_spec, Z.bits_0 in *.
    destruct (Z.testbit M i), (Z.testbit (Z.shiftl M k) i); try done; by rewrite ?andb_false_r, ?andb_false_l. }
  intros x y. rewrite !E. apply (linear_lxor (λ x, Z.land (Z.shiftr (f x) k) M) (λ x, u64 (Z.shiftl (Z.land (f x) M) k))); auto with linear.
Qed.

(** The reflection, without the check of its argument *)
Definition reflect (x : Z) : Z := match crc_reflect x 64 with Ok y => y | Fault _ => 0 end.

Lemma crc_reflect_ok x : crc_reflect x 64 = Ok (reflect x).
Proof. done. Qed.

Lemma linear_reflect : linear reflect.
Proof.
  unfold reflect, crc_reflect. change (negb (64 <=? 64)) with false. cbv iota zeta. apply linear_shiftr, linear_bswap64.
  repeat (apply swap_linear; [|lia|lia|done|done]). apply linear_id.
Qed.

(** A zero bit enters the register. *)
Definition nbit (crc : Z) : Z := Z.lxor (u64 (Z.shiftl crc 1)) (if Z.testbit crc 63 then POLY else 0).

Lemma land_pow2_eqb x k : 0 ≤ k → (Z.land x (2 ^ k) =? 0) = negb (Z.testbit x k).
Proof.
  intros Hk. destruct (Z.testbit x k) eqn:E; cbn [negb].
  - apply Z.eqb_neq. intros H0. apply (f_equal (λ z, Z.testbit z k)) in H0. rewrite Z.land_spec, E, Z.pow2_bits_true, Z.bits_0 in H0 by done. done.
  - apply Z.eqb_eq, Z.bits_inj'. intros i Hi. rewrite Z.land_spec, Z.pow2_bits_eqb, Z.bits_0 by done.
    destruct (Z.eqb_spec k i) as [<-|]; [by rewrite E|apply andb_false_r].
Qed.

Definition bit_of (c j : Z) : Z := if Z.testbit c j then 1 else 0.

Lemma crc_bit_nbit c crc j : is64 crc → 0 ≤ j → crc_bit c crc (2 ^ j) = nbit (Z.lxor crc (Z.shiftl (bit_of c j) 63)).
Proof.
  intros Hc Hj. unfold crc_bit, nbit. change 0x8000000000000000 with (2 ^ 63). rewrite !land_pow2_eqb by lia. rewrite negb_involutive.
  rewrite Z.lxor_spec. unfold bit_of. destruct (Z.testbit c j), (Z.testbit crc 63) eqn:E; cbn [negb];
    rewrite ?Z.shiftl_0_l, ?Z.lxor_0_r, ?land_pow2_eqb by lia; rewrite ?E; cbn [negb]; try reflexivity;
    rewrite Z.shiftl_lxor; change (Z.shiftl (Z.shiftl 1 63) 1) with (2 ^ 64); rewrite !u64_land, land_lxor_distr;
    change (Z.land (2 ^ 64) (Z.ones 64)) with 0; rewrite !Z.lxor_0_r; reflexivity.
Qed.

Lemma reflect_nbit x : is64 x → reflect (nbit x) = zero_bit (reflect x).
Proof.
  apply (linear_ext 64 (λ x, reflect (nbit x)) (λ x, zero_bit (reflect x))); [| |by vm_compute].
  - apply linear_comp; [apply linear_reflect|]. unfold nbit. auto with linear.
  - apply linear_comp; [apply linear_zero_bit|apply linear_reflect].
Qed.

Lemma nbit_is64 x : is64 (nbit x).
Proof. unfold nbit. apply lxor_is64; [unfold is64, wrapu; apply Z.mod_pos_bound; lia|]. destruct (Z.testbit x 63); by vm_compute. Qed.

Lemma reflect_crc_bit c crc j : is64 crc → 0 ≤ j → reflect (crc_bit c crc (2 ^ j)) = zero_bit (Z.lxor (reflect crc) (bit_of c j)) ∧ is64 (crc_bit c crc (2 ^ j)).
Proof.
  intros Hc Hj. rewrite crc_bit_nbit by done. split; [|apply nbit_is64]. rewrite reflect_nbit.
  - rewrite linear_reflect. unfold bit_of. by destruct (Z.testbit c j).
  - apply lxor_is64; [done|]. unfold bit_of. by destruct (Z.testbit c j); vm_compute.
Qed.

(** The bits of a byte enter one by one. *)
Definition bits_in (c r : Z) : Z := foldl (λ r j, zero_bit (Z.lxor r (bit_of c j))) r (seqZ 0 8).

Lemma zero_bits_fold (l : list Z) : ∀ r, foldl (λ r _, zero_bit r) r l = zero_bits (length l) r.
Proof. induction l as [|j l IH]; intros r; [done|]. cbn [foldl length]. rewrite IH. symmetry. apply Nat.iter_succ_r. Qed.

Lemma bits_in_split c r : bits_in c r = Z.lxor (zeros 1 r) (bits_in c 0).
Proof.
  assert (zeros 1 r = foldl (λ r _, zero_bit r) r (seqZ 0 8)) as -> by (by rewrite zero_bits_fold). unfold bits_in.
  assert (∀ l x y, foldl (λ r j, zero_bit (Z.lxor r (bit_of c j))) (Z.lxor x y) l =
    Z.lxor (foldl (λ r _, zero_bit r) x l) (foldl (λ r j, zero_bit (Z.lxor r (bit_of c j))) y l)) as H.
  { induction l as [|j l IH]; intros x y; [done|]. cbn [foldl]. rewrite Z.lxor_assoc, linear_zero_bit. apply IH. }
  rewrite <- (Z.lxor_0_r r) at 1. apply H.
Qed.

Lemma bits_in_ok c r : is_byte c → bits_in c r = zeros 1 (Z.lxor r c).
Proof.
  intros Hc. rewrite bits_in_split, linear_zeros. f_equal.
  assert (forallb (λ c, bits_in c 0 =? zeros 1 c) (seqZ 0 256) = true) as H by by vm_compute.
  rewrite forallb_forall in H. apply Z.eqb_eq, H, list_elem_of_In, elem_of_seqZ. unfold is_byte in Hc. lia.
Qed.

Lemma crc_byte_ok crc c : is64 crc → is_byte c → reflect (crc_byte crc c) = zeros 1 (Z.lxor (reflect crc) c) ∧ is64 (crc_byte crc c).
Proof.
  intros Hr Hc. rewrite <- bits_in_ok by done. unfold crc_byte, bits_in.
  change [0x01; 0x02; 0x04; 0x08; 0x10; 0x20; 0x40; 0x80] with (map (Z.pow 2) (seqZ 0 8)).
  assert (∀ l r, Forall (λ j, 0 ≤ j) l → is64 r → reflect (foldl (crc_bit c) r (map (Z.pow 2) l)) = foldl (λ r j, zero_bit (Z.lxor r (bit_of c j))) (reflect r) l ∧
    is64 (foldl (crc_bit c) r (map (Z.pow 2) l))) as H.
  { induction l as [|j l IH]; intros r Hj Hr'; [done|]. inversion Hj; subst. cbn [map foldl].
    destruct (reflect_crc_bit c r j Hr' ltac:(done)) as [<- ?]. by apply IH. }
  destruct (H (seqZ 0 8) crc) as [H1 H2]; [repeat constructor; lia|done|]. change 0xffffffffffffffff with (Z.ones 64).
  rewrite Z.land_ones, Z.mod_small by (done || lia). done.
Qed.

Lemma _crc64_ok data : ∀ crc, is64 crc → Forall is_byte data → _crc64 crc data = Ok (crc_ref (reflect crc) data).
Proof.
  assert (∀ crc, is64 crc → Forall is_byte data → reflect (foldl crc_byte crc data) = crc_ref (reflect crc) data ∧ is64 (foldl crc_byte crc data)) as H.
  { induction data as [|c data IH]; intros crc Hr Hb; [done|]. inversion Hb; subst. cbn [foldl crc_ref].
    destruct (crc_byte_ok crc c Hr ltac:(done)) as [<- ?]. by apply IH. }
  intros crc Hr Hb. destruct (H crc Hr Hb) as [H1 H2]. unfold _crc64. change 0xffffffffffffffff with (Z.ones 64).
  rewrite Z.land_ones, Z.mod_small by (done || lia). by rewrite crc_reflect_ok, H1.
Qed.

(** ** The tables *)

Lemma mapM_Ok {A B} (f : A → res B) (g : A → B) l : (∀ x, x ∈ l → f x = Ok (g x)) → mapM f l = Ok (map g l).
Proof.
  induction l as [|x l IH]; intros H; [done|]. cbn [mapM map]. rewrite (H x) by left. rs.
  rewrite IH by (intros; apply H; by right). done.
Qed.

Lemma mem_get_seqZ (g : Z → Z) n i : 0 ≤ i < n → mem_get (map g (seqZ 0 n)) i = Ok (g i).
Proof.
  intros Hi. apply mem_get_lookup; [lia|]. rewrite list_lookup_fmap, lookup_seqZ_lt by lia. cbn. do 2 f_equal. lia.
Qed.

Definition row0 : list Z := map (zeros 1) (seqZ 0 256).

Lemma row0_ok : mapM (λ n, _crc64 0 [u8 n]) (seqZ 0 256) = Ok row0.
Proof.
  apply mapM_Ok. intros n Hn%elem_of_seqZ. rewrite u8_small by lia. rewrite _crc64_ok; [|by vm_compute|repeat constructor; lia].
  cbn [crc_ref foldl]. change (reflect 0) with 0. by rewrite Z.lxor_0_l.
Qed.

Lemma land_255_is_byte x : is_byte (Z.land x 255).
Proof. rewrite land_255. apply Z.mod_pos_bound. lia. Qed.

Lemma nested_ok n k : is_byte n → nested row0 n k = Ok (zeros (S k) n).
Proof.
  intros Hn. unfold is_byte in Hn. induction k as [|k IH]; cbn [nested]; [by apply mem_get_seqZ|].
  rewrite IH. rs. pose proof (land_255_is_byte (zeros (S k) n)) as Hl. unfold is_byte in Hl. unfold row0. rewrite mem_get_seqZ by done. rs. f_equal.
  change (S (S k)) with (1 + S k)%nat. rewrite zeros_add. symmetry. apply zeros_1_byte. apply zeros_is64. unfold is64. lia.
Qed.

Definition little_tables : list (list Z) := map (λ k, map (zeros (S k)) (seqZ 0 256)) (seq 0 8).

Lemma crcspeed64little_init_ok : crcspeed64little_init _crc64 = Ok little_tables.
Proof.
  unfold crcspeed64little_init. rewrite row0_ok. rs. apply mapM_Ok. intros k _. apply mapM_Ok. intros n Hn%elem_of_seqZ.
  apply nested_ok. unfold is_byte. lia.
Qed.

Lemma tab_little k n : (k < 8)%nat → is_byte n → tab little_tables k n = Ok (zeros (S k) n).
Proof.
  intros Hk Hn. unfold tab, little_tables. rewrite list_lookup_fmap, lookup_seq_lt by done. cbn [fmap option_fmap option_map]. by apply mem_get_seqZ.
Qed.

Definition big_tables : list (list Z) := map (map rev8) little_tables.

Lemma tab_big k n : (k < 8)%nat → is_byte n → tab big_tables k n = Ok (rev8 (zeros (S k) n)).
Proof.
  intros Hk Hn. unfold tab, big_tables, little_tables. rewrite !list_lookup_fmap, lookup_seq_lt by done. cbn [fmap option_fmap option_map].
  rewrite map_map. apply (mem_get_seqZ (λ x, rev8 (zeros (S k) x))). done.
Qed.

Lemma crc64_init_ok `{!Arch} : crc64_init = Ok (if big_endian then big_tables else little_tables).
Proof.
  unfold crc64_init, crcspeed64native_init, crcspeed64big_init. rewrite crcspeed64little_init_ok. by destruct big_endian.
Qed.

(** ** The steps *)

Lemma shiftr_byte x k : is64 x → 56 ≤ k → is_byte (Z.shiftr x k).
Proof.
  intros Hx Hk. unfold is64, is_byte in *. rewrite Z.shiftr_div_pow2 by lia. pose proof (Z.pow_le_mono_r 2 56 k ltac:(lia) Hk).
  split; [apply Z.div_pos; lia|]. apply Z.div_lt_upper_bound; [lia|]. change (2 ^ 64) with (2 ^ 56 * 256) in Hx. nia.
Qed.

Lemma little_byte_ok crc b : is64 crc → is_byte b → little_byte little_tables crc b = Ok (zeros 1 (Z.lxor crc b)).
Proof.
  intros Hc Hb. unfold little_byte. rewrite tab_little by (lia || apply land_255_is_byte). rs. f_equal. rewrite (zeros_1_byte (Z.lxor crc b)) by auto with linear.
  f_equal. rewrite Z.shiftr_lxor, (Z.shiftr_div_pow2 b), (Z.div_small b) by (unfold is_byte in Hb; lia). by rewrite Z.lxor_0_r.
Qed.

Lemma u8_land x : u8 x = Z.land x 255.
Proof. by rewrite land_255. Qed.

(** Each of the eight bytes of the register by its own table *)
Lemma zeros_8_bytes c : is64 c → zeros 8 c =
  Z.lxor (Z.lxor (Z.lxor (Z.lxor (Z.lxor (Z.lxor (Z.lxor (zeros 8 (Z.land c 255)) (zeros 7 (Z.land (Z.shiftr c 8) 255))) (zeros 6 (Z.land (Z.shiftr c 16) 255)))
    (zeros 5 (Z.land (Z.shiftr c 24) 255))) (zeros 4 (Z.land (Z.shiftr c 32) 255))) (zeros 3 (Z.land (Z.shiftr c 40) 255)))
    (zeros 2 (Z.land (Z.shiftr c 48) 255))) (zeros 1 (Z.shiftr c 56)).
Proof.
  apply (linear_ext 64 (zeros 8) (λ c, Z.lxor (Z.lxor (Z.lxor (Z.lxor (Z.lxor (Z.lxor (Z.lxor (zeros 8 (Z.land c 255)) (zeros 7 (Z.land (Z.shiftr c 8) 255)))
    (zeros 6 (Z.land (Z.shiftr c 16) 255))) (zeros 5 (Z.land (Z.shiftr c 24) 255))) (zeros 4 (Z.land (Z.shiftr c 32) 255)))
    (zeros 3 (Z.land (Z.shiftr c 40) 255))) (zeros 2 (Z.land (Z.shiftr c 48) 255))) (zeros 1 (Z.shiftr c 56)))); [auto with linear| |by vm_compute].
  auto 20 with linear.
Qed.

Lemma DO_8_ok crc w : is64 crc → is64 w → DO_8 little_tables crc w = Ok (zeros 8 (Z.lxor crc w)).
Proof.
  intros Hc Hw. unfold DO_8. rewrite !u8_land. rewrite !tab_little by (lia || apply land_255_is_byte || (apply shiftr_byte; auto with linear; lia)). rs.
  f_equal. symmetry. apply zeros_8_bytes. auto with linear.
Qed.

(** On the other kind of machine, the register has its bytes reversed. *)
Lemma linear_rev8 f : linear f → linear (λ x, rev8 (f x)).
Proof. apply linear_bswap64. Qed.
#[export] Hint Resolve linear_rev8 : linear.

Lemma rev8_lxor a b : rev8 (Z.lxor a b) = Z.lxor (rev8 a) (rev8 b).
Proof. apply (linear_rev8 (λ x, x) linear_id). Qed.

Lemma rev8_is64 x : is64 (rev8 x).
Proof.
  unfold is64, rev8, bswap64. pose proof (le_val_range (rev (le_bytes 8 x)) (Forall_rev (le_bytes_byte 8 x))) as H.
  rewrite length_rev, length_le_bytes in H. exact H.
Qed.

Lemma rev8_rev8 x : is64 x → rev8 (rev8 x) = x.
Proof. apply (linear_ext 64 (λ x, rev8 (rev8 x)) (λ x, x)); [auto with linear..|by vm_compute]. Qed.

Lemma rev8_top x : is64 x → Z.shiftr (rev8 x) 56 = Z.land x 255.
Proof. apply (linear_ext 64 (λ x, Z.shiftr (rev8 x) 56) (λ x, Z.land x 255)); [auto with linear..|by vm_compute]. Qed.

Lemma rev8_shift x : is64 x → u64 (Z.shiftl (rev8 x) 8) = rev8 (Z.shiftr x 8).
Proof. apply (linear_ext 64 (λ x, u64 (Z.shiftl (rev8 x) 8)) (λ x, rev8 (Z.shiftr x 8))); [auto with linear..|by vm_compute]. Qed.

Lemma rev8_byte k x : In k [0; 8; 16; 24; 32; 40; 48] → is64 x →
  Z.land (Z.shiftr (rev8 x) k) 255 = Z.land (Z.shiftr x (56 - k)) 255.
Proof.
  intros Hk. apply (linear_ext 64 (λ x, Z.land (Z.shiftr (rev8 x) k) 255) (λ x, Z.land (Z.shiftr x (56 - k)) 255)); [auto with linear..|].
  cbn [In] in Hk. intuition subst; by vm_compute.
Qed.

Lemma land_255_byte x : is_byte x → Z.land x 255 = x.
Proof. intros Hx. rewrite land_255. by apply Z.mod_small. Qed.

Lemma big_byte_ok crc b : is64 crc → is_byte b → big_byte big_tables (rev8 crc) b = Ok (rev8 (zeros 1 (Z.lxor crc b))).
Proof.
  intros Hc Hb. unfold big_byte. rewrite rev8_top by done. rewrite <- (land_255_byte b) at 1 by done. rewrite <- land_lxor_distr.
  rewrite tab_big by (lia || apply land_255_is_byte). rs. rewrite rev8_shift by done. rewrite <- rev8_lxor. do 2 f_equal.
  rewrite (zeros_1_byte (Z.lxor crc b)) by auto with linear.
  f_equal. rewrite Z.shiftr_lxor, (Z.shiftr_div_pow2 b), (Z.div_small b) by (unfold is_byte in Hb; lia). by rewrite Z.lxor_0_r.
Qed.

Lemma lxor_rev8_8 a b c d e f g h :
  Z.lxor (Z.lxor (Z.lxor (Z.lxor (Z.lxor (Z.lxor (Z.lxor a b) c) d) e) f) g) h = Z.lxor (Z.lxor (Z.lxor (Z.lxor (Z.lxor (Z.lxor (Z.lxor h g) f) e) d) c) b) a.
Proof.
  apply Z.bits_inj'. intros n _. rewrite !Z.lxor_spec.
  by destruct (Z.testbit a n), (Z.testbit b n), (Z.testbit c n), (Z.testbit d n), (Z.testbit e n), (Z.testbit f n), (Z.testbit g n), (Z.testbit h n).
Qed.

Lemma big_word_ok crc w : is64 crc → is64 w → big_word big_tables (rev8 crc) (rev8 w) = Ok (rev8 (zeros 8 (Z.lxor crc w))).
Proof.
  intros Hc Hw. unfold big_word. rewrite <- rev8_lxor. set (c := Z.lxor crc w). assert (is64 c) as H64 by (unfold c; auto with linear).
  rewrite rev8_top by done. rewrite <- (Z.shiftr_0_r (rev8 c)) at 1. rewrite !rev8_byte by (cbn; tauto || done).
  rewrite !tab_big by (lia || apply land_255_is_byte). rs. rewrite <- !rev8_lxor. do 2 f_equal. rewrite (zeros_8_bytes c) by done.
  rewrite lxor_rev8_8. change (56 - 0) with 56. rewrite (land_255_byte (Z.shiftr c 56)) by (by apply shiftr_byte). done.
Qed.

(** ** The loops *)

(** [n] bytes from position [s] *)
Definition seg (buf : list Z) (s n : Z) : list Z := take (Z.to_nat n) (drop (Z.to_nat s) buf).

Lemma seg_length buf s n : 0 ≤ s → 0 ≤ n → s + n ≤ zlen buf → zlen (seg buf s n) = n.
Proof. intros. unfold seg. rewrite length_take, length_drop. lia. Qed.

Lemma seg_byte buf s n : Forall is_byte buf → Forall is_byte (seg buf s n).
Proof. intros. by apply Forall_take, Forall_drop. Qed.

Lemma seg_add buf s a b : 0 ≤ s → 0 ≤ a → 0 ≤ b → seg buf s (a + b) = seg buf s a ++ seg buf (s + a) b.
Proof.
  intros. unfold seg. rewrite !Z2Nat.inj_add by lia. rewrite <- drop_drop, take_take_drop. done.
Qed.

Lemma seg_all buf : seg buf 0 (zlen buf) = buf.
Proof. unfold seg. rewrite Nat2Z.id. apply firstn_all. Qed.

#[local] Opaque zeros.

Section loops.
Context `{!Arch} (rep : Z → Z) (step wstep : Z → Z → res Z).
Hypothesis step_ok : ∀ r b, is64 r → is_byte b → step (rep r) b = Ok (rep (zeros 1 (Z.lxor r b))).
Hypothesis wstep_ok : ∀ r w, is64 r → Forall is_byte w → length w = 8%nat → wstep (rep r) (native_load w) = Ok (rep (zeros 8 (Z.lxor r (le_val w)))).
Context (buf : list Z) (Hb : Forall is_byte buf).

Lemma step_seg r s n : is64 r → 0 ≤ s → 0 ≤ n → s + n < zlen buf →
  ∃ b, mem_get buf (s + n) = Ok b ∧ step (rep (crc_ref r (seg buf s n))) b = Ok (rep (crc_ref r (seg buf s (n + 1)))).
Proof.
  intros Hr Hs Hn Hl. destruct (lookup_lt_is_Some_2 buf (Z.to_nat (s + n)) ltac:(lia)) as [b E]. exists b.
  rewrite (mem_get_lookup _ _ b) by (lia || done). split; [done|]. assert (is_byte b) by (by eapply Forall_lookup_1 in Hb).
  rewrite step_ok by (done || by apply crc_ref_is64, Hr; apply seg_byte). do 2 f_equal. rewrite seg_add, crc_ref_app by lia. unfold seg at 3.
  rewrite (drop_S _ b) by done. change (Z.to_nat 1) with 1%nat. cbn [take]. rewrite take_0. cbn [crc_ref foldl]. reflexivity.
Qed.

Lemma wstep_seg r s n : is64 r → 0 ≤ s → 0 ≤ n → s + n + 8 ≤ zlen buf →
  ∃ w, mem_read buf (s + n) 8 = Ok w ∧ wstep (rep (crc_ref r (seg buf s n))) (native_load w) = Ok (rep (crc_ref r (seg buf s (n + 8)))).
Proof.
  intros Hr Hs Hn Hl. exists (seg buf (s + n) 8). rewrite mem_read_ok by lia. split; [done|]. pose proof (seg_length buf (s + n) 8 ltac:(lia) ltac:(lia) Hl) as E.
  rewrite wstep_ok by (try lia; first [by apply seg_byte|by apply crc_ref_is64, Hr; apply seg_byte]). do 2 f_equal.
  rewrite (seg_add buf s n 8), crc_ref_app by lia. rewrite (crc_ref_word (seg buf (s + n) 8)) by (try lia; by apply seg_byte).
  by replace (length (seg buf (s + n) 8)) with 8%nat by lia.
Qed.

Lemma align_loop_ok fuel : ∀ addr r n, is64 r → 0 ≤ n ≤ zlen buf → (- (addr + n)) mod 8 < Z.of_nat fuel →
  ∃ n', n ≤ n' ≤ zlen buf ∧ align_loop fuel step addr buf (rep (crc_ref r (seg buf 0 n))) n (zlen buf - n) =
    Ok (rep (crc_ref r (seg buf 0 n')), n', zlen buf - n').
Proof.
  induction fuel as [|fuel IH]; intros addr r n Hr Hn Hf; [zdiv; lia|]. cbn [align_loop].
  destruct (negb (zlen buf - n =? 0) && negb (Z.land (addr + n) 7 =? 0)) eqn:Ec; [|exists n; split; [lia|done]].
  apply andb_prop in Ec as [E1 E2]. change 7 with (Z.ones 3) in E2. rewrite Z.land_ones in E2 by lia. change (2 ^ 3) with 8 in E2.
  destruct (step_seg r 0 n Hr) as (b & Eb & Es); [lia..|]. rewrite Z.add_0_l in Eb. rewrite Eb. rs. rewrite Es. rs.
  destruct (IH addr r (n + 1) Hr ltac:(lia)) as (n' & Hn' & E); [zdiv; lia|]. replace (zlen buf - n - 1) with (zlen buf - (n + 1)) by lia.
  exists n'. split; [lia|done].
Qed.

Lemma byte_loop_ok fuel : ∀ r n, is64 r → 0 ≤ n ≤ zlen buf → zlen buf - n < Z.of_nat fuel →
  byte_loop fuel step buf (rep (crc_ref r (seg buf 0 n))) n (zlen buf - n) = Ok (rep (crc_ref r buf)).
Proof.
  induction fuel as [|fuel IH]; intros r n Hr Hn Hf; [lia|]. cbn [byte_loop]. destruct (Z.eqb_spec (zlen buf - n) 0) as [E|E]; cbn [negb].
  - replace n with (zlen buf) by lia. by rewrite seg_all.
  - destruct (step_seg r 0 n Hr) as (b & Eb & Es); [lia..|]. rewrite Z.add_0_l in Eb. rewrite Eb. rs. rewrite Es. rs.
    replace (zlen buf - n - 1) with (zlen buf - (n + 1)) by lia. apply IH; [done|lia..].
Qed.

Lemma word_loop_ok fuel : ∀ r n, is64 r → 0 ≤ n ≤ zlen buf → zlen buf - n < Z.of_nat fuel →
  ∃ n', n ≤ n' ≤ zlen buf ∧ word_loop fuel wstep buf (rep (crc_ref r (seg buf 0 n))) n (zlen buf - n) =
    Ok (rep (crc_ref r (seg buf 0 n')), n', zlen buf - n').
Proof.
  induction fuel as [|fuel IH]; intros r n Hr Hn Hf; [lia|]. cbn [word_loop]. destruct (Z.geb_spec (zlen buf - n) 8) as [E|E].
  - destruct (wstep_seg r 0 n Hr) as (w & Ew & Es); [lia..|]. rewrite Z.add_0_l in Ew. rewrite Ew. rs. rewrite Es. rs.
    destruct (IH r (n + 8) Hr ltac:(lia) ltac:(lia)) as (n' & Hn' & E'). replace (zlen buf - n - 8) with (zlen buf - (n + 8)) by lia.
    exists n'. split; [lia|done].
  - exists n. split; [lia|done].
Qed.
End loops.
