(* ===== verification/CrcCombine.v ===== *)
(** CRC-64: matrices over the field of two elements, the combination of the checksums of
    segments, and the theorems on [crc64]. *)

From S2P Require Import Prelude Endian Crc CrcSpec.

(** ** Matrices *)

Fixpoint dot (ms : list Z) (v : Z) : Z :=
  match ms with [] => 0 | m :: ms => Z.lxor (if Z.testbit v 0 then m else 0) (dot ms (Z.shiftr v 1)) end.

Lemma dot_0 ms : dot ms 0 = 0.
Proof. induction ms as [|m ms IH]; [done|]. cbn [dot]. by rewrite Z.shiftr_0_l, IH. Qed.

Lemma testbit_shiftr v k i : 0 ≤ i → 0 ≤ k → Z.testbit (Z.shiftr v k) i = Z.testbit v (i + k).
Proof. intros. by rewrite Z.shiftr_spec. Qed.

Lemma times4_bits m0 m1 m2 m3 v : times4 m0 m1 m2 m3 v =
  Z.lxor (if Z.testbit v 0 then m0 else 0) (Z.lxor (if Z.testbit v 1 then m1 else 0) (Z.lxor (if Z.testbit v 2 then m2 else 0) (if Z.testbit v 3 then m3 else 0))).
Proof.
  unfold times4. assert (∀ i, 0 ≤ i < 4 → Z.testbit v i = Z.testbit (Z.land v 15) i) as Hb.
  { intros i Hi. rewrite Z.land_spec. assert (Z.testbit 15 i = true) as ->; [|by rewrite andb_true_r].
    assert (i = 0 ∨ i = 1 ∨ i = 2 ∨ i = 3) as [->|[->|[->| ->]]] by lia; done. }
  rewrite !Hb by lia. assert (0 ≤ Z.land v 15 < 16) as Hr.
  { change 15 with (Z.ones 4). rewrite Z.land_ones by lia. apply Z.mod_pos_bound. lia. }
  generalize dependent (Z.land v 15). clear. intros x _ Hx.
  assert (In x (seqZ 0 16)) as Hin by (apply list_elem_of_In, elem_of_seqZ; lia). cbn in Hin.
  repeat destruct Hin as [<-|Hin]; try done; cbv -[Z.lxor]; by rewrite ?Z.lxor_0_l, ?Z.lxor_0_r, ?Z.lxor_assoc.
Qed.

Lemma shiftr_bound v k n : 0 ≤ k ≤ n → 0 ≤ v < 2 ^ n → 0 ≤ Z.shiftr v k < 2 ^ (n - k).
Proof.
  intros Hk Hv. rewrite Z.shiftr_div_pow2 by lia. split; [apply Z.div_pos; lia|]. apply Z.div_lt_upper_bound; [lia|].
  rewrite <- Z.pow_add_r by lia. replace (k + (n - k)) with n by lia. lia.
Qed.

Lemma times_loop_ok k : ∀ fuel ms v sum, length ms = (4 * k)%nat → 0 ≤ v < 2 ^ (4 * Z.of_nat k) → (k < fuel)%nat →
  times_loop fuel ms v sum = Ok (Z.lxor sum (dot ms v)).
Proof.
  induction k as [|k IH]; intros [|fuel] ms v sum Hl Hv Hf; try lia; cbn [times_loop].
  - assert (v = 0) as -> by (cbn in Hv; lia). rewrite dot_0, Z.lxor_0_r. done.
  - destruct (Z.eqb_spec v 0) as [->|_]; [by rewrite dot_0, Z.lxor_0_r|].
    destruct ms as [|m0 [|m1 [|m2 [|m3 ms]]]]; cbn [length] in Hl; try lia. rewrite IH; [|lia| |lia].
    + f_equal. rewrite times4_bits. cbn [dot]. rewrite !testbit_shiftr, !Z.shiftr_shiftr by lia. cbn [Z.add Pos.add Pos.succ].
      by rewrite !Z.lxor_assoc.
    + replace (4 * Z.of_nat k) with (4 * Z.of_nat (S k) - 4) by lia. apply shiftr_bound; [lia|done].
Qed.

Lemma land_select m (b : bool) : is64 m → Z.land m (if b then 0xffffffffffffffff else 0) = (if b then m else 0).
Proof. intros Hm. destruct b; [|apply Z.land_0_r]. change 0xffffffffffffffff with (Z.ones 64). rewrite Z.land_ones by lia. by apply Z.mod_small. Qed.

Lemma chunks_ok n : ∀ ms s0 s1 v, length ms = (2 * n)%nat → Forall is64 ms →
  ∃ a b, chunks n ms (s0, s1) v = Ok (a, b) ∧ Z.lxor a b = Z.lxor (Z.lxor s0 s1) (dot ms v).
Proof.
  induction n as [|n IH]; intros ms s0 s1 v Hl H64; cbn [chunks].
  - destruct ms; [|done]. exists s0, s1. cbn [dot]. by rewrite Z.lxor_0_r.
  - destruct ms as [|m0 [|m1 ms]]; cbn [length] in Hl; try lia. inversion H64 as [|? ? Hm0 H64']; subst. inversion H64' as [|? ? Hm1 H64'']; subst.
    cbn [chunk2]. rs. rewrite !land_select by done. cbn [fst snd].
    destruct (IH ms (Z.lxor s0 (if Z.testbit v 0 then m0 else 0)) (Z.lxor s1 (if Z.testbit v 1 then m1 else 0)) (Z.shiftr v 2) ltac:(lia) H64'') as (a & b & -> & E).
    exists a, b. split; [done|]. rewrite E. cbn [dot]. rewrite testbit_shiftr, Z.shiftr_shiftr by lia. cbn [Z.add Pos.add Pos.succ].
    rewrite lxor_4, !Z.lxor_assoc. done.
Qed.

(** The matrix of a linear function *)
Definition mat_of (f : Z → Z) : list Z := map (λ i, f (2 ^ i)) (seqZ 0 64).

Lemma dot_mat f n : linear f → ∀ s v, 0 ≤ s → 0 ≤ v < 2 ^ Z.of_nat n → dot (map (λ i, f (2 ^ i)) (seqZ s (Z.of_nat n))) v = f (Z.shiftl v s).
Proof.
  intros Hf. induction n as [|n IH]; intros s v Hs Hv.
  - assert (v = 0) as -> by (cbn in Hv; lia). change (seqZ s (Z.of_nat 0)) with (@nil Z). cbn [map dot]. by rewrite Z.shiftl_0_l, linear_0.
  - rewrite seqZ_cons by lia. replace (Z.pred (Z.of_nat (S n))) with (Z.of_nat n) by lia. cbn [map dot].
    rewrite IH; [|lia|replace (Z.of_nat n) with (Z.of_nat (S n) - 1) by lia; apply shiftr_bound; lia].
    replace (if Z.testbit v 0 then f (2 ^ s) else 0) with (f (Z.shiftl (Z.land v 1) s)).
    + rewrite <- Hf. f_equal. apply Z.bits_inj'. intros i Hi. rewrite Z.lxor_spec. rewrite !Z.shiftl_spec by lia.
      destruct (Z.lt_ge_cases (i - s) 0) as [Hlt|Hge]; [rewrite !(Z.testbit_neg_r _ (i - s)), (Z.testbit_neg_r _ (i - Z.succ s)) by lia; done|].
      change 1 with (Z.ones 1) at 1. rewrite Z.land_ones by lia. destruct (Z.eq_dec (i - s) 0) as [E|E].
      * rewrite (Z.testbit_neg_r _ (i - Z.succ s)), xorb_false_r by lia. rewrite Z.mod_pow2_bits_low by lia. done.
      * rewrite Z.mod_pow2_bits_high, Z.shiftr_spec by lia. cbn [xorb]. f_equal. lia.
    + change 1 with (Z.ones 1) at 1. rewrite Z.land_ones by lia. change (2 ^ 1) with 2. rewrite Z.bit0_odd, Zmod_odd. destruct (Z.odd v).
      * by rewrite Z.shiftl_1_l.
      * by rewrite Z.shiftl_0_l, linear_0.
Qed.

(** What the powers of the zero operator have in common *)
Definition operator (f : Z → Z) : Prop := linear f ∧ ∀ x, is64 x → is64 (f x).

Lemma operator_zero_bits n : operator (zero_bits n).
Proof. split; auto with linear. Qed.

Lemma mat_of_is64 f : operator f → Forall is64 (mat_of f).
Proof.
  intros [_ Hf]. apply Forall_forall. intros x (i & -> & Hi)%list_elem_of_fmap. apply elem_of_seqZ in Hi. apply Hf.
  split; [apply Z.pow_nonneg; lia|apply Z.pow_lt_mono_r; lia].
Qed.

Lemma CRC_MULTIPLY_ok `{!CrcConfig} f v : operator f → is64 v → CRC_MULTIPLY (mat_of f) v = Ok (f v).
Proof.
  intros Hf Hv. pose proof (dot_mat f 64 (proj1 Hf) 0 v ltac:(lia) Hv) as Hd. rewrite Z.shiftl_0_r in Hd. unfold CRC_MULTIPLY. destruct crc_vector.
  - unfold gf2_matrix_times_vec2. destruct (chunks_ok 32 (mat_of f) 0 0 v) as (a & b & -> & E); [done|by apply mat_of_is64|]. rs. cbn [fst snd].
    f_equal. rewrite E, Z.lxor_0_l. exact Hd.
  - unfold gf2_matrix_times_switch. rewrite (times_loop_ok 16) by (done || lia). rewrite Z.lxor_0_l. f_equal. exact Hd.
Qed.

Lemma gf2_matrix_square_ok `{!CrcConfig} f : operator f → gf2_matrix_square (mat_of f) = Ok (mat_of (λ x, f (f x))).
Proof.
  intros Hf. unfold gf2_matrix_square. rewrite (mapM_Ok _ f).
  - unfold mat_of. by rewrite map_map.
  - intros x Hx. apply CRC_MULTIPLY_ok; [done|]. pose proof (mat_of_is64 f Hf) as H64. rewrite Forall_forall in H64. by apply H64.
Qed.

(** ** The cache *)

(** [2 ^ k] zero bytes *)
Fixpoint op (k : nat) : Z → Z := match k with O => zeros 1 | S k => λ x, op k (op k x) end.

Lemma op_zeros k x : op k x = zeros (2 ^ k) x.
Proof.
  revert x. induction k as [|k IH]; intros x; [done|]. cbn [op]. rewrite !IH, <- zeros_add. f_equal. cbn [Nat.pow]. lia.
Qed.

Lemma operator_op k : operator (op k).
Proof. split; [intros x y|intros x Hx]; rewrite !op_zeros; [apply linear_zeros|by apply zeros_is64]. Qed.

Definition full_cache : list (list Z) := map (λ k, mat_of (op k)) (seq 0 64).

(** The cache is zero until its first use. *)
Definition cache_ok (cache : list (list Z)) : Prop := cache = combine_cache_zero ∨ cache = full_cache.

Lemma mat_of_ext f g : (∀ x, f x = g x) → mat_of f = mat_of g.
Proof. intros E. unfold mat_of. apply map_ext. intros i. apply E. Qed.

Lemma one_zero_bit_ok : CRC64_REVERSED_POLY :: one_zero_bit 63 1 = mat_of (zero_bits 1).
Proof. by vm_compute. Qed.

Lemma full_cache_row : get_matrix full_cache 0 = Ok (mat_of (op 0)).
Proof. done. Qed.

Lemma full_cache_used : mem_get (mat_of (op 0)) 0 = Ok (op 0 1) ∧ (op 0 1 =? 0) = false.
Proof. by vm_compute. Qed.

#[local] Opaque mat_of.

Lemma mat_of_square n : mat_of (λ x, zero_bits n (zero_bits n x)) = mat_of (zero_bits (n + n)).
Proof. apply mat_of_ext. intros x. symmetry. apply zero_bits_add. Qed.

Section combine.
Context `{!Arch, !CrcConfig}.

Lemma square_cache_S n cache cache_num prev :
  square_cache (S n) cache cache_num prev =
    (m ← get_matrix cache (cache_num + prev); sq ← gf2_matrix_square m; square_cache n (<[Z.to_nat cache_num := sq]> cache) (cache_num + 1) (-1)).
Proof. done. Qed.

Lemma square_cache_ok n : ∀ j rest, length rest = n →
  square_cache n (map (λ k, mat_of (op k)) (seq 0 (S j)) ++ rest) (Z.of_nat (S j)) (-1) = Ok (map (λ k, mat_of (op k)) (seq 0 (S j + n))).
Proof.
  induction n as [|n IH]; intros j rest Hl; cbn [square_cache].
  - destruct rest; [|done]. by rewrite app_nil_r, Nat.add_0_r.
  - destruct rest as [|m rest]; [done|]. injection Hl as Hl. unfold get_matrix. replace (Z.of_nat (S j) + -1) with (Z.of_nat j) by lia.
    destruct (Z.leb_spec 0 (Z.of_nat j)); [|lia]. rewrite Nat2Z.id. rewrite lookup_app_l by (rewrite length_map, length_seq; lia).
    rewrite list_lookup_fmap, lookup_seq_lt by lia. cbn [fmap option_fmap option_map]. rewrite Nat.add_0_l. rs. rewrite gf2_matrix_square_ok by apply operator_op. rs.
    rewrite Nat2Z.id. rewrite insert_app_r_alt by (rewrite length_map, length_seq; lia). rewrite length_map, length_seq, Nat.sub_diag. cbn [insert list_insert].
    replace (map (λ k, mat_of (op k)) (seq 0 (S j)) ++ mat_of (λ x, op j (op j x)) :: rest) with (map (λ k, mat_of (op k)) (seq 0 (S (S j))) ++ rest).
    + replace (Z.of_nat (S j) + 1) with (Z.of_nat (S (S j))) by lia. rewrite (IH (S j) rest Hl). do 3 f_equal. lia.
    + rewrite (seq_S (S j)), map_app, <- app_assoc. done.
Qed.

Lemma init_combine_cache_ok cache : length cache = 64%nat → init_combine_cache cache CRC64_REVERSED_POLY = Ok full_cache.
Proof.
  intros Hl. unfold init_combine_cache. rewrite one_zero_bit_ok. rewrite gf2_matrix_square_ok by apply operator_zero_bits. rs.
  rewrite mat_of_square. rewrite gf2_matrix_square_ok by apply operator_zero_bits. rs. rewrite mat_of_square.
  destruct cache as [|m0 [|m1 cache]]; try done. cbn [insert list_insert]. rewrite square_cache_S.
  assert (∀ a b l, get_matrix (a :: b :: l) (0 + 1) = Ok b) as -> by done. rs. rewrite gf2_matrix_square_ok by apply operator_zero_bits. rs.
  rewrite mat_of_square, (mat_of_ext _ (op 0)) by (intros; reflexivity). change (Z.to_nat 0) with 0%nat. cbn [insert list_insert].
  exact (square_cache_ok 63 0 (mat_of (zero_bits (1 + 1 + (1 + 1))) :: cache) ltac:(cbn in *; lia)).
Qed.

Lemma combine_loop_ok fuel : ∀ crc1 len2 k, is64 crc1 → 0 ≤ len2 < 2 ^ Z.of_nat fuel → (0 < fuel)%nat → (k + fuel = 64)%nat →
  combine_loop fuel full_cache crc1 len2 (Z.of_nat k) = Ok (zeros (Z.to_nat len2 * 2 ^ k) crc1).
Proof.
  induction fuel as [|fuel IH]; intros crc1 len2 k Hc Hl Hf Hk; [lia|]. cbn [combine_loop].
  change (Z.land len2 1) with (Z.land len2 (Z.ones 1)). rewrite Z.land_ones by lia. change (2 ^ 1) with 2. rewrite Zmod_odd.
  set (x := if negb _ then _ else _). assert (x = Ok (if Z.odd len2 then op k crc1 else crc1)) as ->.
  { unfold x. destruct (Z.odd len2); cbn [Z.eqb negb]; [|done]. unfold get_matrix. destruct (Z.leb_spec 0 (Z.of_nat k)); [|lia]. rewrite Nat2Z.id.
    unfold full_cache. rewrite list_lookup_fmap, lookup_seq_lt by lia. cbn [fmap option_fmap option_map]. rewrite Nat.add_0_l. rs. apply CRC_MULTIPLY_ok; [apply operator_op|done]. }
  rs. pose proof (Z.div2_odd len2) as Hd. rewrite Z.div2_spec in Hd. set (h := Z.shiftr len2 1) in *.
  assert (is64 (if Z.odd len2 then op k crc1 else crc1)) as Hc' by (destruct (Z.odd len2); [by apply operator_op|done]).
  assert (∀ r, zeros (Z.to_nat h * 2 ^ S k) (if Z.odd len2 then op k r else r) = zeros (Z.to_nat len2 * 2 ^ k) r) as Hz.
  { intros r. replace (Z.to_nat len2 * 2 ^ k)%nat with (Z.to_nat h * 2 ^ S k + (if Z.odd len2 then 2 ^ k else 0))%nat.
    - rewrite zeros_add. destruct (Z.odd len2); [by rewrite op_zeros|done].
    - destruct (Z.odd len2); cbn [Z.b2z] in Hd; cbn [Nat.pow]; nia. }
  destruct (Z.eqb_spec h 0) as [E|E]; cbn [negb].
  - rewrite <- Hz, E. done.
  - assert (0 < fuel)%nat as Hf'.
    { destruct fuel; [|lia]. change (2 ^ Z.of_nat 1) with 2 in Hl. destruct (Z.odd len2); cbn [Z.b2z] in Hd; lia. }
    replace (Z.land (Z.of_nat k + 1) 63) with (Z.of_nat (S k)).
    + rewrite IH; [by rewrite Hz|done| |done|lia]. rewrite Nat2Z.inj_succ, Z.pow_succ_r in Hl by lia. destruct (Z.odd len2); cbn [Z.b2z] in Hd; lia.
    + change 63 with (Z.ones 6). rewrite Z.land_ones by lia. rewrite Z.mod_small; [lia|]. change (2 ^ 6) with 64. lia.
Qed.

Lemma crc64_combine_ok cache crc1 crc2 len2 : cache_ok cache → is64 crc1 → 0 ≤ len2 < 2 ^ 64 → (len2 = 0 → crc2 = 0) →
  ∃ cache', crc64_combine cache crc1 crc2 len2 CRC64_REVERSED_POLY = Ok (Z.lxor (zeros (Z.to_nat len2) crc1) crc2, cache') ∧ cache_ok cache'.
Proof.
  intros Hca Hc Hl Hzero. unfold crc64_combine. destruct (Z.eqb_spec len2 0) as [->|Hn].
  { exists cache. split; [|done]. rewrite Hzero by done. by rewrite Z.lxor_0_r. }
  set (init := m ← get_matrix cache 0; _).
  assert (init = (crc1 ← combine_loop 64 full_cache crc1 len2 0; Ok (Z.lxor crc1 crc2, full_cache))) as ->.
  { destruct Hca as [->| ->]; unfold init.
    - rs. by rewrite init_combine_cache_ok.
    - rewrite full_cache_row. rs. destruct full_cache_used as [-> E]. rs. rewrite E. done. }
  pose proof (combine_loop_ok 64 crc1 len2 0 Hc Hl ltac:(lia) ltac:(lia)) as E. change (Z.of_nat 0) with 0 in E. rewrite E. rs.
  exists full_cache. split; [|by right]. do 4 f_equal. cbn [Nat.pow]. lia.
Qed.

(** ** Segments *)

Lemma native_load_little w : big_endian = false → native_load w = le_val w.
Proof. intros E. unfold native_load. by rewrite E. Qed.

Lemma native_load_big w : big_endian = true → Forall is_byte w → length w = 8%nat → native_load w = rev8 (le_val w).
Proof. intros E Hb Hl. unfold native_load, rev8, bswap64. rewrite E, <- Hl, le_bytes_val by done. done. Qed.

Lemma word_is64 w : Forall is_byte w → length w = 8%nat → is64 (le_val w).
Proof. intros Hb Hl. pose proof (le_val_range w Hb) as H1. rewrite Hl in H1. exact H1. Qed.

Lemma little_word r w : big_endian = false → is64 r → Forall is_byte w → length w = 8%nat →
  DO_8 little_tables r (native_load w) = Ok (zeros 8 (Z.lxor r (le_val w))).
Proof. intros E Hr Hb Hl. rewrite native_load_little by done. apply DO_8_ok; [done|by apply word_is64]. Qed.

Lemma big_word_load r w : big_endian = true → is64 r → Forall is_byte w → length w = 8%nat →
  big_word big_tables (rev8 r) (native_load w) = Ok (rev8 (zeros 8 (Z.lxor r (le_val w)))).
Proof. intros E Hr Hb Hl. rewrite native_load_big by done. apply big_word_ok; [done|by apply word_is64]. Qed.

Context (buf : list Z) (Hb : Forall is_byte buf).

Definition little_seg (E : big_endian = false) := wstep_seg (λ x, x) (DO_8 little_tables) (λ r w, little_word r w E) buf Hb.

Lemma tri_loop_ok fuel : ∀ r1 r2 r3 s1 s2 s3 L k, big_endian = false → is64 r1 → is64 r2 → is64 r3 →
  0 ≤ s1 → 0 ≤ s2 → 0 ≤ s3 → 0 ≤ k ≤ L → (L - k) mod 8 = 0 → s1 + L ≤ zlen buf → s2 + L ≤ zlen buf → s3 + L ≤ zlen buf → L - k < Z.of_nat fuel →
  tri_loop little_tables fuel buf (crc_ref r1 (seg buf s1 k)) (crc_ref r2 (seg buf s2 k)) (crc_ref r3 (seg buf s3 k)) (s1 + k) (s2 + k) (s3 + k) (L - k) =
    Ok (crc_ref r1 (seg buf s1 L), crc_ref r2 (seg buf s2 L), crc_ref r3 (seg buf s3 L), (s1 + L, s2 + L, s3 + L)).
Proof.
  induction fuel as [|fuel IH]; intros r1 r2 r3 s1 s2 s3 L k HE H1 H2 H3 Hs1 Hs2 Hs3 Hk Hm Hb1 Hb2 Hb3 Hf; [lia|]. cbn [tri_loop].
  destruct (Z.geb_spec (L - k) 8) as [E|E]; [|assert (k = L) as -> by (zdiv; lia); done].
  destruct (little_seg HE r1 s1 k) as (w1 & -> & E1); [done|lia..|]. destruct (little_seg HE r2 s2 k) as (w2 & -> & E2); [done|lia..|].
  destruct (little_seg HE r3 s3 k) as (w3 & -> & E3); [done|lia..|]. rs. rewrite E1. rs. rewrite E2. rs. rewrite E3. rs.
  replace (s1 + k + 8) with (s1 + (k + 8)) by lia. replace (s2 + k + 8) with (s2 + (k + 8)) by lia. replace (s3 + k + 8) with (s3 + (k + 8)) by lia.
  replace (L - k - 8) with (L - (k + 8)) by lia. apply IH; try done; [lia|zdiv; lia|lia].
Qed.

Lemma dual_loop_ok fuel : ∀ r1 r2 s1 s2 L k, big_endian = false → is64 r1 → is64 r2 →
  0 ≤ s1 → 0 ≤ s2 → 0 ≤ k ≤ L → (L - k) mod 8 = 0 → s1 + L ≤ zlen buf → s2 + L ≤ zlen buf → L - k < Z.of_nat fuel →
  dual_loop little_tables fuel buf (crc_ref r1 (seg buf s1 k)) (crc_ref r2 (seg buf s2 k)) (s1 + k) (s2 + k) (L - k) =
    Ok (crc_ref r1 (seg buf s1 L), crc_ref r2 (seg buf s2 L), (s1 + L, s2 + L)).
Proof.
  induction fuel as [|fuel IH]; intros r1 r2 s1 s2 L k HE H1 H2 Hs1 Hs2 Hk Hm Hb1 Hb2 Hf; [lia|]. cbn [dual_loop].
  destruct (Z.geb_spec (L - k) 8) as [E|E]; [|assert (k = L) as -> by (zdiv; lia); done].
  destruct (little_seg HE r1 s1 k) as (w1 & -> & E1); [done|lia..|]. destruct (little_seg HE r2 s2 k) as (w2 & -> & E2); [done|lia..|].
  rs. rewrite E1. rs. rewrite E2. rs. replace (s1 + k + 8) with (s1 + (k + 8)) by lia. replace (s2 + k + 8) with (s2 + (k + 8)) by lia.
  replace (L - k - 8) with (L - (k + 8)) by lia. apply IH; try done; [lia|zdiv; lia|lia].
Qed.

Lemma land_len_mask x : 0 ≤ x < 2 ^ 63 → Z.land x CRC64_LEN_MASK = 8 * (x / 8).
Proof.
  intros Hx. change CRC64_LEN_MASK with (Z.shiftl (Z.ones 60) 3).
  assert (Z.land x (Z.shiftl (Z.ones 60) 3) = Z.shiftl (Z.land (Z.shiftr x 3) (Z.ones 60)) 3) as ->.
  { apply Z.bits_inj'. intros i Hi. rewrite Z.land_spec, !Z.shiftl_spec by lia. destruct (Z.lt_ge_cases (i - 3) 0).
    - rewrite !(Z.testbit_neg_r _ (i - 3)) by lia. apply andb_false_r.
    - rewrite Z.land_spec, Z.shiftr_spec by lia. do 2 f_equal. lia. }
  rewrite Z.land_ones, Z.shiftl_mul_pow2, Z.shiftr_div_pow2 by lia. change (2 ^ 3) with 8. rewrite Z.mod_small; [lia|].
  split; [apply Z.div_pos; lia|apply Z.div_lt_upper_bound; lia].
Qed.

(** The parts of the segments *)
Definition at_pos (r n : Z) : Z := crc_ref r (seg buf 0 n).

Lemma at_pos_is64 r n : is64 r → is64 (at_pos r n).
Proof. intros Hr. apply crc_ref_is64; [by apply seg_byte|done]. Qed.

Lemma at_pos_add r n k : 0 ≤ n → 0 ≤ k → at_pos r (n + k) = crc_ref (at_pos r n) (seg buf n k).
Proof. intros. unfold at_pos. rewrite seg_add, crc_ref_app by lia. done. Qed.

Lemma at_pos_combine r n k : 0 ≤ n → 0 ≤ k → n + k ≤ zlen buf →
  Z.lxor (zeros (Z.to_nat k) (at_pos r n)) (crc_ref 0 (seg buf n k)) = at_pos r (n + k).
Proof.
  intros Hn Hk Hl. rewrite at_pos_add by done. rewrite <- (Z.lxor_0_r (at_pos r n)) at 2. rewrite crc_ref_split by by apply seg_byte.
  pose proof (seg_length buf n k Hn Hk Hl). do 3 f_equal. lia.
Qed.

Lemma combine_at cache r n k : cache_ok cache → is64 r → 0 ≤ n → 0 ≤ k → n + k ≤ zlen buf → zlen buf < 2 ^ 64 →
  ∃ cache', crc64_combine cache (at_pos r n) (crc_ref 0 (seg buf n k)) k CRC64_REVERSED_POLY = Ok (at_pos r (n + k), cache') ∧ cache_ok cache'.
Proof.
  intros Hca Hr Hn Hk Hl Hb64. destruct (crc64_combine_ok cache (at_pos r n) (crc_ref 0 (seg buf n k)) k Hca) as (cache' & -> & Hca').
  - by apply at_pos_is64.
  - lia.
  - by intros ->.
  - exists cache'. split; [|done]. by rewrite at_pos_combine.
Qed.

Lemma seg_zero s : seg buf s 0 = [].
Proof. done. Qed.

Lemma split_tri_ok cache r n : big_endian = false → cache_ok cache → is64 r → 0 ≤ n ≤ zlen buf → zlen buf < 2 ^ 64 →
  ∃ n' cache', split_tri little_tables cache buf (at_pos r n) n (zlen buf - n) = Ok (at_pos r n', n', zlen buf - n', cache') ∧ n ≤ n' ≤ zlen buf ∧ cache_ok cache'.
Proof.
  intros HE Hca Hr Hn H64. unfold split_tri. cbv zeta. set (olen := zlen buf - n). assert (0 ≤ olen / 3 < 2 ^ 63) as Hd by (unfold olen; zdiv; lia).
  rewrite land_len_mask by done. set (L := 8 * (olen / 3 / 8)). assert (0 ≤ L ∧ 3 * L ≤ olen ∧ L mod 8 = 0) as (HL0 & HL3 & HL8).
  { unfold L. split; [zdiv; lia|]. split; [zdiv; lia|]. rewrite Z.mul_comm. apply Z.mod_mul. lia. }
  pose proof (tri_loop_ok (S (length buf)) (at_pos r n) 0 0 n (n + L) (n + L + L) L 0 HE (at_pos_is64 r n Hr)) as Hloop.
  rewrite !seg_zero, !Z.add_0_r, Z.sub_0_r in Hloop. replace (n + L - n) with L by lia.
  change (crc_ref (at_pos r n) []) with (at_pos r n) in Hloop. change (crc_ref 0 []) with 0 in Hloop.
  rewrite Hloop by (try (unfold is64, olen in *; lia); done). clear Hloop. rs. rewrite <- at_pos_add by lia. replace (n + L + L - (n + L)) with L by lia.
  destruct (combine_at cache r (n + L) L Hca Hr) as (c1 & -> & Hc1); [unfold olen in *; lia..|]. rs.
  destruct (combine_at c1 r (n + L + L) L Hc1 Hr) as (c2 & -> & Hc2); [unfold olen in *; lia..|]. rs.
  eexists (n + L + L + L), c2. split; [|split; [unfold olen in *; lia|done]]. do 2 f_equal. f_equal. unfold olen. lia.
Qed.

Lemma split_dual_ok cache r n : big_endian = false → cache_ok cache → is64 r → 0 ≤ n ≤ zlen buf → zlen buf < 2 ^ 64 →
  ∃ n' cache', split_dual little_tables cache buf (at_pos r n) n (zlen buf - n) = Ok (at_pos r n', n', zlen buf - n', cache') ∧ n ≤ n' ≤ zlen buf ∧ cache_ok cache'.
Proof.
  intros HE Hca Hr Hn H64. unfold split_dual. cbv zeta. set (olen := zlen buf - n). assert (0 ≤ olen / 2 < 2 ^ 63) as Hd by (unfold olen; zdiv; lia).
  rewrite land_len_mask by done. set (L := 8 * (olen / 2 / 8)). assert (0 ≤ L ∧ 2 * L ≤ olen ∧ L mod 8 = 0) as (HL0 & HL3 & HL8).
  { unfold L. split; [zdiv; lia|]. split; [zdiv; lia|]. rewrite Z.mul_comm. apply Z.mod_mul. lia. }
  pose proof (dual_loop_ok (S (length buf)) (at_pos r n) 0 n (n + L) L 0 HE (at_pos_is64 r n Hr)) as Hloop.
  rewrite !seg_zero, !Z.add_0_r, Z.sub_0_r in Hloop. replace (n + L - n) with L by lia.
  change (crc_ref (at_pos r n) []) with (at_pos r n) in Hloop. change (crc_ref 0 []) with 0 in Hloop.
  rewrite Hloop by (try (unfold is64, olen in *; lia); done). clear Hloop. rs. rewrite <- at_pos_add by lia. replace (n + L + L - (n + L)) with L by lia.
  destruct (combine_at cache r (n + L) L Hca Hr) as (c1 & -> & Hc1); [unfold olen in *; lia..|]. rs.
  eexists (n + L + L), c1. split; [|split; [unfold olen in *; lia|done]]. do 2 f_equal. f_equal. unfold olen. lia.
Qed.

(** ** The whole *)

Lemma crcspeed64little_ok cache r addr : big_endian = false → cache_ok cache → is64 r → zlen buf < 2 ^ 64 →
  ∃ cache', crcspeed64little little_tables cache r addr buf = Ok (crc_ref r buf, cache') ∧ cache_ok cache'.
Proof.
  intros HE Hca Hr H64. unfold crcspeed64little. cbv zeta. change r with (at_pos r 0) at 1 2. rewrite <- (Z.sub_0_r (zlen buf)).
  pose proof (byte_loop_ok (λ x, x) (little_byte little_tables) little_byte_ok buf Hb (S (length buf)) r) as Hbytes.
  destruct (CRC64_DUAL_CUTOFF <? 1).
  { unfold at_pos. rewrite Hbytes by (done || lia). rs. by exists cache. }
  destruct (align_loop_ok (λ x, x) (little_byte little_tables) little_byte_ok buf Hb 8 addr r 0 Hr) as (n1 & Hn1 & E1); [lia|zdiv; lia|].
  unfold at_pos. rewrite E1. rs. fold (at_pos r n1).
  assert (∃ n2 cache2, (if zlen buf - n1 >? CRC64_TRI_CUTOFF then split_tri little_tables cache buf (at_pos r n1) n1 (zlen buf - n1)
    else if zlen buf - n1 >? CRC64_DUAL_CUTOFF then split_dual little_tables cache buf (at_pos r n1) n1 (zlen buf - n1)
    else Ok (at_pos r n1, n1, zlen buf - n1, cache)) = Ok (at_pos r n2, n2, zlen buf - n2, cache2) ∧ n1 ≤ n2 ≤ zlen buf ∧ cache_ok cache2) as (n2 & cache2 & -> & Hn2 & Hca2).
  { destruct (_ >? _); [apply split_tri_ok; done || lia|]. destruct (_ >? _); [apply split_dual_ok; done || lia|]. exists n1, cache. split; [done|split; [lia|done]]. }
  rs. destruct (word_loop_ok (λ x, x) (DO_8 little_tables) (λ r w, little_word r w HE) buf Hb (S (length buf)) r n2 Hr) as (n3 & Hn3 & E3); [lia..|].
  unfold at_pos. rewrite E3. rs. rewrite Hbytes by (done || lia). rs. by exists cache2.
Qed.

Lemma crcspeed64big_ok r addr : big_endian = true → is64 r → crcspeed64big big_tables r addr buf = Ok (crc_ref r buf).
Proof.
  intros HE Hr. unfold crcspeed64big. cbv zeta. change r with (at_pos r 0) at 1. rewrite <- (Z.sub_0_r (zlen buf)).
  destruct (align_loop_ok rev8 (big_byte big_tables) big_byte_ok buf Hb 8 addr r 0 Hr) as (n1 & Hn1 & E1); [lia|zdiv; lia|].
  unfold at_pos. rewrite E1. rs.
  destruct (word_loop_ok rev8 (big_word big_tables) (λ r w, big_word_load r w HE) buf Hb (S (length buf)) r n1 Hr) as (n3 & Hn3 & E3); [lia..|].
  rewrite E3. rs. rewrite (byte_loop_ok rev8 (big_byte big_tables) big_byte_ok buf Hb (S (length buf)) r n3 Hr) by lia. rs.
  rewrite rev8_rev8 by (by apply crc_ref_is64). done.
Qed.

Lemma crc64_ok table cache r addr : crc64_init = Ok table → cache_ok cache → is64 r → zlen buf < 2 ^ 64 →
  ∃ cache', crc64 table cache r addr buf = Ok (crc_ref r buf, cache') ∧ cache_ok cache'.
Proof.
  intros Ht Hca Hr H64. rewrite crc64_init_ok in Ht. unfold crc64, crcspeed64native. destruct big_endian eqn:HE; injection Ht as <-.
  - rewrite crcspeed64big_ok by done. rs. by exists cache.
  - by apply crcspeed64little_ok.
Qed.
End combine.

(** ** Errors *)

Lemma lxor_eq_0 a b : Z.lxor a b = 0 → a = b.
Proof. apply Z.lxor_eq. Qed.

Lemma zero_bit_inj a b : is64 a → is64 b → zero_bit a = zero_bit b → a = b.
Proof.
  intros Ha Hb E. assert (zero_bit (Z.lxor a b) = 0) as H0 by (rewrite linear_zero_bit, E; apply Z.lxor_nilpotent).
  apply lxor_eq_0. assert (is64 (Z.lxor a b)) as Hx by auto with linear. generalize dependent (Z.lxor a b). clear. intros x H0 Hx.
  unfold zero_bit in H0. destruct (Z.testbit x 0) eqn:Eb.
  - apply lxor_eq_0 in H0. exfalso. pose proof (shiftr_bound x 1 64 ltac:(lia) Hx) as Hs. rewrite H0 in Hs. unfold CRC64_REVERSED_POLY in Hs. lia.
  - rewrite Z.lxor_0_r, Z.shiftr_div_pow2 in H0 by lia. rewrite Z.bit0_odd in Eb. pose proof (Zmod_odd x) as Hm. rewrite Eb in Hm. change (2 ^ 1) with 2 in H0.
    pose proof (Z.div_mod x 2 ltac:(lia)). lia.
Qed.

Lemma zero_bits_inj n a b : is64 a → is64 b → zero_bits n a = zero_bits n b → a = b.
Proof.
  intros Ha Hb. induction n as [|n IH]; [done|]. unfold zero_bits. rewrite !Nat.iter_succ. intros E%zero_bit_inj; [by apply IH|by apply zero_bits_is64..].
Qed.

Lemma zeros_inj n a b : is64 a → is64 b → zeros n a = zeros n b → a = b.
Proof. apply zero_bits_inj. Qed.

#[local] Opaque zeros.

Lemma crc_ref_inj bs : ∀ a b, Forall is_byte bs → is64 a → is64 b → crc_ref a bs = crc_ref b bs → a = b.
Proof.
  induction bs as [|c bs IH]; intros a b Hc Ha Hb E; [done|]. inversion Hc; subst. cbn [crc_ref foldl] in E.
  apply IH in E; [|done|apply zeros_is64; auto with linear..]. apply zeros_inj in E; [|auto with linear..].
  apply lxor_eq_0. assert (Z.lxor (Z.lxor a c) (Z.lxor b c) = 0) as H0 by (rewrite E; apply Z.lxor_nilpotent).
  by rewrite lxor_4, Z.lxor_nilpotent, Z.lxor_0_r in H0.
Qed.

Lemma le_val_inj a b : Forall is_byte a → Forall is_byte b → length a = length b → le_val a = le_val b → a = b.
Proof. intros Ha Hb Hl E. rewrite <- (le_bytes_val a), <- (le_bytes_val b) by done. by rewrite Hl, E. Qed.

(** Different bytes, of the same number and at most eight, between the same bytes *)
Lemma crc_ref_burst r a x y b : is64 r → Forall is_byte (a ++ x ++ b) → Forall is_byte (a ++ y ++ b) → length x = length y → (length x ≤ 8)%nat → x ≠ y →
  crc_ref r (a ++ x ++ b) ≠ crc_ref r (a ++ y ++ b).
Proof.
  intros Hr Hx Hy Hl H8 Hne E. apply Forall_app in Hx as [Ha Hx]. apply Forall_app in Hx as [Hx Hb]. apply Forall_app in Hy as [_ Hy]. apply Forall_app in Hy as [Hy _].
  rewrite !crc_ref_app in E. assert (is64 (crc_ref r a)) as Hra by by apply crc_ref_is64.
  apply crc_ref_inj in E; [|done|by apply crc_ref_is64..]. rewrite (crc_ref_word x), (crc_ref_word y), <- Hl in E by (done || lia).
  assert (∀ w, Forall is_byte w → (length w ≤ 8)%nat → is64 (le_val w)) as Hw.
  { intros w Hw Hw8. pose proof (le_val_range w Hw). split; [lia|]. eapply Z.lt_le_trans; [apply H|]. change (2 ^ 64) with (256 ^ 8). apply Z.pow_le_mono_r; lia. }
  apply zeros_inj in E; [|apply lxor_is64; [done|apply Hw; [done|lia]]..]. apply Hne, le_val_inj; [done..|].
  apply lxor_eq_0. assert (Z.lxor (Z.lxor (crc_ref r a) (le_val x)) (Z.lxor (crc_ref r a) (le_val y)) = 0) as H0 by (rewrite E; apply Z.lxor_nilpotent).
  by rewrite lxor_4, Z.lxor_nilpotent, Z.lxor_0_l in H0.
Qed.

(** ** The properties *)

(** C10: The fast CRC-64 is the one that is computed bit by bit.  With the tables of
    [crc64_init], at any address, with any sizes from which the data is split into two or
    three segments whose checksums are combined, on machines of both byte orders and with
    both matrix products, [crc64] continues the checksum of [a] with that of [s] to the
    one [_crc64] computes of [a ++ s]. *)
Theorem crc64_bitwise `{!Arch, !CrcConfig} table cache addr a s c :
  crc64_init = Ok table → cache_ok cache → Forall is_byte a → Forall is_byte s → zlen s < 2 ^ 64 → _crc64 0 a = Ok c →
  ∃ c' cache', crc64 table cache c addr s = Ok (c', cache') ∧ _crc64 0 (a ++ s) = Ok c' ∧ cache_ok cache'.
Proof.
  intros Ht Hca Ha Hs H64 Hc. rewrite _crc64_ok in Hc by done. injection Hc as <-.
  destruct (crc64_ok s Hs table cache (crc_ref (reflect 0) a) addr Ht Hca) as (cache' & -> & Hca'); [by apply crc_ref_is64|done|].
  eexists _, cache'. split; [done|]. split; [|done]. rewrite _crc64_ok by (done || by apply Forall_app). by rewrite crc_ref_app.
Qed.

Definition ex_crc_config : CrcConfig := {| crc_vector := false; CRC64_DUAL_CUTOFF := 20; CRC64_TRI_CUTOFF := 50 |}.
Definition ex_data : list Z := seqZ 0 101.

Lemma crc64_bitwise_witness :
  ∃ c' cache', @crc64 {| big_endian := false |} ex_crc_config little_tables combine_cache_zero 0 5 ex_data = Ok (c', cache') ∧
    _crc64 0 ([] ++ ex_data) = Ok c' ∧ cache_ok cache'.
Proof.
  apply (@crc64_bitwise {| big_endian := false |} ex_crc_config little_tables combine_cache_zero 5 [] ex_data 0).
  - exact (@crc64_init_ok {| big_endian := false |}).
  - by left.
  - done.
  - apply Forall_forall. intros x Hx%elem_of_seqZ. unfold is_byte. lia.
  - done.
  - done.
Defined.

(** C13: CRC-64 detects every error burst of at most eight bytes: data that differ only
    in up to eight consecutive bytes have different checksums. *)
Theorem crc64_detects_bursts `{!Arch, !CrcConfig} table cache cache' addr addr' a x y b c1 c2 cache1 cache2 :
  crc64_init = Ok table → cache_ok cache → cache_ok cache' →
  Forall is_byte (a ++ x ++ b) → Forall is_byte (a ++ y ++ b) → zlen (a ++ x ++ b) < 2 ^ 64 →
  length x = length y → (length x ≤ 8)%nat → x ≠ y →
  crc64 table cache 0 addr (a ++ x ++ b) = Ok (c1, cache1) → crc64 table cache' 0 addr' (a ++ y ++ b) = Ok (c2, cache2) → c1 ≠ c2.
Proof.
  intros Ht Hca Hca' Hx Hy H64 Hl H8 Hne E1 E2. assert (zlen (a ++ y ++ b) < 2 ^ 64) as H64' by (rewrite !length_app in *; lia).
  destruct (crc64_ok _ Hx table cache 0 addr Ht Hca) as (? & E1' & _); [done..|].
  destruct (crc64_ok _ Hy table cache' 0 addr' Ht Hca') as (? & E2' & _); [done..|].
  assert (c1 = crc_ref 0 (a ++ x ++ b)) as -> by congruence. assert (c2 = crc_ref 0 (a ++ y ++ b)) as -> by congruence.
  by apply crc_ref_burst.
Qed.

Definition ex_crc64 : list Z → res (Z * list (list Z)) := @crc64 {| big_endian := false |} ex_crc_config little_tables combine_cache_zero 0 0.

Lemma crc64_detects_bursts_witness :
  ex_crc64 ([1; 2] ++ [3; 4] ++ [5]) = Ok (18087688510130107988, combine_cache_zero) ∧
  ex_crc64 ([1; 2] ++ [4; 3] ++ [5]) = Ok (11654804160869437978, combine_cache_zero) ∧ 18087688510130107988 ≠ 11654804160869437978.
Proof.
  assert (ex_crc64 ([1; 2] ++ [3; 4] ++ [5]) = Ok (18087688510130107988, combine_cache_zero)) as E1 by by vm_compute.
  assert (ex_crc64 ([1; 2] ++ [4; 3] ++ [5]) = Ok (11654804160869437978, combine_cache_zero)) as E2 by by vm_compute.
  split; [exact E1|]. split; [exact E2|].
  apply (@crc64_detects_bursts {| big_endian := false |} ex_crc_config little_tables combine_cache_zero combine_cache_zero 0 0 [1; 2] [3; 4] [4; 3] [5]
    18087688510130107988 11654804160869437978 combine_cache_zero combine_cache_zero).
  - exact (@crc64_init_ok {| big_endian := false |}).
  - by left.
  - by left.
  - repeat constructor; done.
  - repeat constructor; done.
  - done.
  - done.
  - cbn. lia.
  - done.
  - exact E1.
  - exact E2.
Defined.
