(* ===== verification/Slot.v ===== *)
(** Hash slots of the cluster: CRC-16 of [crc16.c], [keyHashSlot] of [cluster.h] and
    [patternHashSlot] of [cluster.c].  The table of CRC-16 is that of its polynomial; a
    slot that is inferred from a pattern is the slot of every key that matches it. *)

From S2P Require Import Prelude Glob Crc CrcSpec.

Definition crc16tab : list Z :=
  [0x0000; 0x1021; 0x2042; 0x3063; 0x4084; 0x50a5; 0x60c6; 0x70e7; 0x8108; 0x9129; 0xa14a; 0xb16b;
   0xc18c; 0xd1ad; 0xe1ce; 0xf1ef; 0x1231; 0x0210; 0x3273; 0x2252; 0x52b5; 0x4294; 0x72f7; 0x62d6;
   0x9339; 0x8318; 0xb37b; 0xa35a; 0xd3bd; 0xc39c; 0xf3ff; 0xe3de; 0x2462; 0x3443; 0x0420; 0x1401;
   0x64e6; 0x74c7; 0x44a4; 0x5485; 0xa56a; 0xb54b; 0x8528; 0x9509; 0xe5ee; 0xf5cf; 0xc5ac; 0xd58d;
   0x3653; 0x2672; 0x1611; 0x0630; 0x76d7; 0x66f6; 0x5695; 0x46b4; 0xb75b; 0xa77a; 0x9719; 0x8738;
   0xf7df; 0xe7fe; 0xd79d; 0xc7bc; 0x48c4; 0x58e5; 0x6886; 0x78a7; 0x0840; 0x1861; 0x2802; 0x3823;
   0xc9cc; 0xd9ed; 0xe98e; 0xf9af; 0x8948; 0x9969; 0xa90a; 0xb92b; 0x5af5; 0x4ad4; 0x7ab7; 0x6a96;
   0x1a71; 0x0a50; 0x3a33; 0x2a12; 0xdbfd; 0xcbdc; 0xfbbf; 0xeb9e; 0x9b79; 0x8b58; 0xbb3b; 0xab1a;
   0x6ca6; 0x7c87; 0x4ce4; 0x5cc5; 0x2c22; 0x3c03; 0x0c60; 0x1c41; 0xedae; 0xfd8f; 0xcdec; 0xddcd;
   0xad2a; 0xbd0b; 0x8d68; 0x9d49; 0x7e97; 0x6eb6; 0x5ed5; 0x4ef4; 0x3e13; 0x2e32; 0x1e51; 0x0e70;
   0xff9f; 0xefbe; 0xdfdd; 0xcffc; 0xbf1b; 0xaf3a; 0x9f59; 0x8f78; 0x9188; 0x81a9; 0xb1ca; 0xa1eb;
   0xd10c; 0xc12d; 0xf14e; 0xe16f; 0x1080; 0x00a1; 0x30c2; 0x20e3; 0x5004; 0x4025; 0x7046; 0x6067;
   0x83b9; 0x9398; 0xa3fb; 0xb3da; 0xc33d; 0xd31c; 0xe37f; 0xf35e; 0x02b1; 0x1290; 0x22f3; 0x32d2;
   0x4235; 0x5214; 0x6277; 0x7256; 0xb5ea; 0xa5cb; 0x95a8; 0x8589; 0xf56e; 0xe54f; 0xd52c; 0xc50d;
   0x34e2; 0x24c3; 0x14a0; 0x0481; 0x7466; 0x6447; 0x5424; 0x4405; 0xa7db; 0xb7fa; 0x8799; 0x97b8;
   0xe75f; 0xf77e; 0xc71d; 0xd73c; 0x26d3; 0x36f2; 0x0691; 0x16b0; 0x6657; 0x7676; 0x4615; 0x5634;
   0xd94c; 0xc96d; 0xf90e; 0xe92f; 0x99c8; 0x89e9; 0xb98a; 0xa9ab; 0x5844; 0x4865; 0x7806; 0x6827;
   0x18c0; 0x08e1; 0x3882; 0x28a3; 0xcb7d; 0xdb5c; 0xeb3f; 0xfb1e; 0x8bf9; 0x9bd8; 0xabbb; 0xbb9a;
   0x4a75; 0x5a54; 0x6a37; 0x7a16; 0x0af1; 0x1ad0; 0x2ab3; 0x3a92; 0xfd2e; 0xed0f; 0xdd6c; 0xcd4d;
   0xbdaa; 0xad8b; 0x9de8; 0x8dc9; 0x7c26; 0x6c07; 0x5c64; 0x4c45; 0x3ca2; 0x2c83; 0x1ce0; 0x0cc1;
   0xef1f; 0xff3e; 0xcf5d; 0xdf7c; 0xaf9b; 0xbfba; 0x8fd9; 0x9ff8; 0x6e17; 0x7e36; 0x4e55; 0x5e74;
   0x2e93; 0x3eb2; 0x0ed1; 0x1ef0].

Fixpoint crc16_loop (buf : list Z) (crc : Z) : res Z :=
  match buf with
  | [] => Ok crc
  | b :: buf =>
      x ← mem_get crc16tab (Z.land (Z.lxor (Z.shiftr crc 8) b) 0x00FF);
      crc16_loop buf (u16 (Z.lxor (Z.shiftl crc 8) x))
  end.
Definition crc16 (buf : list Z) : res Z := crc16_loop buf 0.

Definition ch_lbrace : Z := 123.
Definition ch_rbrace : Z := 125.

(** [for (i = ...; i < keylen; i++) if (key[i] == c) break;] *)
Fixpoint find_char (n : nat) (c : Z) (key : list Z) (i : Z) : res Z :=
  match n with
  | O => Ok i
  | S n => b ← mem_get key i; if b =? c then Ok i else find_char n c key (i + 1)
  end.

Definition slot_of (buf : list Z) : res Z := crc ← crc16 buf; Ok (Z.land crc 0x3FFF).

Definition keyHashSlot (key : list Z) : res Z :=
  let keylen := zlen key in
  s ← find_char (length key) ch_lbrace key 0;
  if s =? keylen then slot_of key else
  e ← find_char (Z.to_nat (keylen - (s + 1))) ch_rbrace key (s + 1);
  if (e =? keylen) || (e =? s + 1) then slot_of key else
  tag ← mem_read key (s + 1) (e - s - 1);
  slot_of tag.

Fixpoint pattern_loop (n : nat) (pattern : list Z) (i s : Z) : res Z :=
  match n with
  | O => slot_of pattern
  | S n =>
      c ← mem_get pattern i;
      if (c =? ch_star) || (c =? ch_quest) || (c =? ch_lbrack) then Ok (-1)
      else if c =? ch_backslash then Ok (-1)
      else if (s =? -1) && (c =? ch_lbrace) then pattern_loop n pattern (i + 1) i
      else if (s >=? 0) && (c =? ch_rbrace) && (i =? s + 1) then pattern_loop n pattern (i + 1) (-2)
      else if (s >=? 0) && (c =? ch_rbrace) then tag ← mem_read pattern (s + 1) (i - s - 1); slot_of tag
      else pattern_loop n pattern (i + 1) s
  end.
Definition patternHashSlot (pattern : list Z) : res Z := pattern_loop (length pattern) pattern 0 (-1).

(** ** CRC-16 *)

(** XMODEM: the polynomial 0x1021, from the highest bit *)
Definition xmodem_bit (crc : Z) : Z := Z.lxor (u16 (Z.shiftl crc 1)) (if Z.testbit crc 15 then 0x1021 else 0).
Definition xmodem_byte (crc b : Z) : Z := Nat.iter 8 xmodem_bit (Z.lxor crc (Z.shiftl b 8)).
Definition xmodem (buf : list Z) : Z := foldl xmodem_byte 0 buf.

Lemma u16_land x : u16 x = Z.land x (Z.ones 16).
Proof. unfold wrapu. by rewrite Z.land_ones by lia. Qed.

Lemma linear_u16 f : linear f → linear (λ x, u16 (f x)).
Proof. intros Hf x y. rewrite !u16_land. by apply (linear_land f). Qed.

Lemma linear_xmodem n : linear (Nat.iter n xmodem_bit).
Proof. apply linear_iter. unfold xmodem_bit. apply linear_lxor; [apply linear_u16|]; auto with linear. Qed.

Lemma crc16tab_ok n : is_byte n → mem_get crc16tab n = Ok (Nat.iter 8 xmodem_bit (Z.shiftl n 8)).
Proof.
  intros Hn. assert (crc16tab = map (λ n, Nat.iter 8 xmodem_bit (Z.shiftl n 8)) (seqZ 0 256)) as -> by by vm_compute.
  by apply (mem_get_seqZ (λ n, Nat.iter 8 xmodem_bit (Z.shiftl n 8))).
Qed.

Lemma xmodem_range x : 0 ≤ Nat.iter 8 xmodem_bit x < 2 ^ 16.
Proof.
  rewrite Nat.iter_succ. apply lxor_range; [lia|unfold wrapu; apply Z.mod_pos_bound; lia|]. destruct (Z.testbit _ 15); lia.
Qed.

Lemma xmodem_split x : 0 ≤ x < 2 ^ 16 →
  Nat.iter 8 xmodem_bit x = Z.lxor (u16 (Z.shiftl x 8)) (Nat.iter 8 xmodem_bit (Z.shiftl (Z.shiftr x 8) 8)).
Proof.
  apply (linear_ext 16 (Nat.iter 8 xmodem_bit) (λ x, Z.lxor (u16 (Z.shiftl x 8)) (Nat.iter 8 xmodem_bit (Z.shiftl (Z.shiftr x 8) 8)))); [apply linear_xmodem| |by vm_compute].
  apply linear_lxor; [apply linear_u16; auto with linear|]. apply (linear_comp (Nat.iter 8 xmodem_bit)); [apply linear_xmodem|auto with linear].
Qed.

Lemma u16_shiftl_byte b : is_byte b → u16 (Z.shiftl (Z.shiftl b 8) 8) = 0.
Proof. intros Hb. rewrite !Z.shiftl_mul_pow2 by lia. unfold wrapu. replace (b * 2 ^ 8 * 2 ^ 8) with (b * 2 ^ 16) by lia. apply Z.mod_mul. lia. Qed.

Lemma crc16_step crc b : 0 ≤ crc < 2 ^ 16 → is_byte b →
  ∃ x, mem_get crc16tab (Z.land (Z.lxor (Z.shiftr crc 8) b) 255) = Ok x ∧ u16 (Z.lxor (Z.shiftl crc 8) x) = xmodem_byte crc b.
Proof.
  intros Hc Hb. assert (is_byte (Z.shiftr crc 8)) as Hh.
  { unfold is_byte. rewrite Z.shiftr_div_pow2 by lia. split; [apply Z.div_pos; lia|apply Z.div_lt_upper_bound; lia]. }
  rewrite land_255_byte by by apply lxor_byte. rewrite crc16tab_ok by by apply lxor_byte. eexists. split; [done|]. unfold xmodem_byte.
  rewrite (xmodem_split (Z.lxor crc (Z.shiftl b 8))).
  - rewrite !Z.shiftl_lxor, Z.shiftr_lxor, (Z.shiftr_shiftl_l b), Z.shiftl_0_r, Z.shiftl_lxor by lia.
    rewrite (linear_u16 (λ x, x) linear_id (Z.shiftl crc 8)), (linear_u16 (λ x, x) linear_id (Z.shiftl crc 8)), u16_shiftl_byte, Z.lxor_0_r by done.
    f_equal. rewrite u16_small; [done|]. pose proof (xmodem_range (Z.lxor (Z.shiftl (Z.shiftr crc 8) 8) (Z.shiftl b 8))). lia.
  - apply lxor_range; [lia|done|]. rewrite Z.shiftl_mul_pow2 by lia. unfold is_byte in Hb. lia.
Qed.

Lemma crc16_ok buf : Forall is_byte buf → crc16 buf = Ok (xmodem buf).
Proof.
  intros Hb. unfold crc16, xmodem. assert (∀ crc, 0 ≤ crc < 2 ^ 16 → crc16_loop buf crc = Ok (foldl xmodem_byte crc buf)) as H; [|by apply H].
  induction Hb as [|b buf Hb _ IH]; intros crc Hc; cbn [crc16_loop foldl]; [done|].
  destruct (crc16_step crc b Hc Hb) as (x & -> & E). rs. rewrite E. apply IH. apply xmodem_range.
Qed.

(** ** The slots of keys *)

Lemma find_char_found a : ∀ n c pre post i, c ∉ a → i = zlen pre → (length a < n)%nat →
  find_char n c (pre ++ a ++ c :: post) i = Ok (zlen pre + zlen a).
Proof.
  induction a as [|x a IH]; intros [|n] c pre post i Hc -> Hn; cbn [length] in *; try lia; cbn [find_char app].
  - rewrite mem_get_app by done. rs. rewrite Z.eqb_refl. f_equal. lia.
  - rewrite mem_get_app by done. rs. apply not_elem_of_cons in Hc as [Hx Hc]. destruct (Z.eqb_spec x c); [congruence|].
    replace (pre ++ x :: a ++ c :: post) with ((pre ++ [x]) ++ a ++ c :: post) by (by rewrite <- app_assoc).
    rewrite IH by (rewrite ?length_app; cbn; done || lia). f_equal. rewrite length_app. cbn. lia.
Qed.

Lemma find_char_none a : ∀ c pre i, c ∉ a → i = zlen pre → find_char (length a) c (pre ++ a) i = Ok (zlen (pre ++ a)).
Proof.
  induction a as [|x a IH]; intros c pre i Hc ->; cbn [find_char length]; [by rewrite app_nil_r|].
  rewrite mem_get_app by done. rs. apply not_elem_of_cons in Hc as [Hx Hc]. destruct (Z.eqb_spec x c); [congruence|].
  replace (pre ++ x :: a) with ((pre ++ [x]) ++ a) by (by rewrite <- app_assoc). apply IH; [done|]. rewrite length_app. cbn. lia.
Qed.

Lemma slot_no_brace key : ch_lbrace ∉ key → keyHashSlot key = slot_of key.
Proof. intros Hk. unfold keyHashSlot. rewrite (find_char_none key ch_lbrace [] 0 Hk eq_refl : find_char (length key) ch_lbrace key 0 = _). rs. by rewrite Z.eqb_refl. Qed.

(** The search for the closing brace starts after the opening one. *)
Lemma slot_after_brace a r : ch_lbrace ∉ a → keyHashSlot (a ++ ch_lbrace :: r) =
  (e ← find_char (length r) ch_rbrace ((a ++ [ch_lbrace]) ++ r) (zlen a + 1);
   if (e =? zlen (a ++ ch_lbrace :: r)) || (e =? zlen a + 1) then slot_of (a ++ ch_lbrace :: r) else
   tag ← mem_read (a ++ ch_lbrace :: r) (zlen a + 1) (e - zlen a - 1);
   slot_of tag).
Proof.
  intros Ha. unfold keyHashSlot. pose proof (find_char_found a (length (a ++ ch_lbrace :: r)) ch_lbrace [] r 0 Ha eq_refl ltac:(rewrite length_app; cbn; lia)) as E.
  cbn [app length] in E. change (Z.of_nat 0) with 0 in E. rewrite Z.add_0_l in E. rewrite E. rs. clear E. destruct (Z.eqb_spec (zlen a) (zlen (a ++ ch_lbrace :: r))) as [E|_]; [rewrite length_app in E; cbn in E; lia|].
  replace (Z.to_nat (zlen (a ++ ch_lbrace :: r) - (zlen a + 1))) with (length r) by (rewrite length_app; cbn; lia).
  by rewrite <- (app_assoc a).
Qed.

Lemma slot_open a t : ch_lbrace ∉ a → ch_rbrace ∉ t → keyHashSlot (a ++ ch_lbrace :: t) = slot_of (a ++ ch_lbrace :: t).
Proof.
  intros Ha Ht. rewrite slot_after_brace by done. rewrite find_char_none by (try done; rewrite length_app; cbn; lia). rs.
  rewrite <- app_assoc. cbn [app]. by rewrite Z.eqb_refl.
Qed.

Lemma slot_braces a t r : ch_lbrace ∉ a → ch_rbrace ∉ t →
  keyHashSlot (a ++ ch_lbrace :: t ++ ch_rbrace :: r) = slot_of (if decide (t = []) then a ++ ch_lbrace :: t ++ ch_rbrace :: r else t).
Proof.
  intros Ha Ht. rewrite slot_after_brace by done. rewrite find_char_found by (try done; rewrite ?length_app; cbn; lia). rs.
  set (key := a ++ ch_lbrace :: t ++ ch_rbrace :: r). replace (zlen (a ++ [ch_lbrace]) + zlen t) with (zlen a + 1 + zlen t) by (rewrite length_app; cbn; lia).
  destruct (Z.eqb_spec (zlen a + 1 + zlen t) (zlen key)) as [E|_]; [unfold key in E; rewrite !length_app in E; cbn in E; rewrite length_app in E; cbn in E; lia|].
  cbn [orb]. destruct (decide (t = [])) as [->|Hne].
  - cbn [length]. rewrite Z.add_0_r, Z.eqb_refl. done.
  - destruct t as [|x t]; [done|]. destruct (Z.eqb_spec (zlen a + 1 + zlen (x :: t)) (zlen a + 1)) as [E|_]; [cbn in E; lia|].
    unfold key. change (a ++ ch_lbrace :: (x :: t) ++ ch_rbrace :: r) with (a ++ [ch_lbrace] ++ (x :: t) ++ ch_rbrace :: r). rewrite app_assoc.
    rewrite mem_read_app by (rewrite ?length_app; cbn; lia). done.
Qed.

(** ** Patterns *)

(** A character that matches itself only *)
Definition literal (c : Z) : Prop := c ≠ ch_star ∧ c ≠ ch_quest ∧ c ≠ ch_lbrack ∧ c ≠ ch_backslash.

Lemma literal_prefix a : ∀ fuel p s skip nesting, Forall literal a → fst (impl_loop fuel false (a ++ p) s skip nesting) = true →
  ∃ s', s = a ++ s' ∧ (p = [] → s' = []).
Proof.
  induction a as [|c a IH]; intros [|fuel] p s skip nesting Hl Hm; try done.
  - exists s. split; [done|]. intros ->. by destruct s.
  - inversion Hl as [|? ? (Hs & Hq & Hb & Hk) Hl']; subst. cbn [app impl_loop] in Hm. destruct s as [|x s]; [done|].
    destruct (Z.eqb_spec c ch_star); [done|]. unfold match_char in Hm. destruct (Z.eqb_spec c ch_quest); [done|].
    destruct (Z.eqb_spec c ch_lbrack); [done|]. destruct (Z.eqb_spec c ch_backslash); [done|]. unfold char_eq in Hm.
    destruct (Z.eqb_spec c x) as [->|]; [|done]. destruct s as [|y s].
    + destruct a as [|d a]; [exists []; done|]. inversion Hl' as [|? ? (Hs' & _) _]; subst. cbn [app drop_stars] in Hm.
      destruct (Z.eqb_spec d ch_star); done.
    + destruct (IH fuel p (y :: s) skip nesting Hl' Hm) as (s' & -> & H0). by exists s'.
Qed.

(** What [s] says of the characters that were read *)
Inductive scanned : list Z → Z → Prop :=
| scanned_none pre : ch_lbrace ∉ pre → scanned pre (-1)
| scanned_open a t : ch_lbrace ∉ a → ch_rbrace ∉ t → scanned (a ++ ch_lbrace :: t) (zlen a)
| scanned_empty a r : ch_lbrace ∉ a → scanned (a ++ ch_lbrace :: ch_rbrace :: r) (-2).

Lemma scanned_end pre s : scanned pre s → keyHashSlot pre = slot_of pre.
Proof.
  intros [pre' Hp|a t Ha Ht|a r Ha]; [by apply slot_no_brace|by apply slot_open|].
  apply (slot_braces a [] r Ha). set_solver.
Qed.

Lemma scanned_snoc pre s c : scanned pre s → (s = -1 → c ≠ ch_lbrace) → (0 ≤ s → c ≠ ch_rbrace) → scanned (pre ++ [c]) s.
Proof.
  intros [pre' Hp|a t Ha Ht|a r Ha] H1 H2.
  - apply scanned_none. specialize (H1 eq_refl). set_solver.
  - rewrite <- app_assoc. apply scanned_open; [done|]. specialize (H2 ltac:(lia)). set_solver.
  - rewrite <- app_assoc. by apply scanned_empty.
Qed.

(** A pattern that begins with a tag *)
Definition tagged (pattern : list Z) (slot : Z) : Prop :=
  ∃ a t p, pattern = (a ++ ch_lbrace :: t ++ [ch_rbrace]) ++ p ∧ Forall literal (a ++ ch_lbrace :: t ++ [ch_rbrace]) ∧
    ch_lbrace ∉ a ∧ ch_rbrace ∉ t ∧ t ≠ [] ∧ slot_of t = Ok slot.

Lemma pattern_loop_ok rest : ∀ pre s slot, Forall literal pre → scanned pre s →
  pattern_loop (length rest) (pre ++ rest) (zlen pre) s = Ok slot → slot ≠ -1 →
  (Forall literal (pre ++ rest) ∧ keyHashSlot (pre ++ rest) = Ok slot) ∨ tagged (pre ++ rest) slot.
Proof.
  induction rest as [|c rest IH]; intros pre s slot Hl Hs Hr Hn; cbn [pattern_loop length] in Hr.
  { rewrite app_nil_r in *. left. split; [done|]. by rewrite (scanned_end pre s). }
  rewrite mem_get_app in Hr by done. cbn [mbind res_bind] in Hr.
  destruct (Z.eqb_spec c ch_star); [cbn in Hr; congruence|]. destruct (Z.eqb_spec c ch_quest); [cbn in Hr; congruence|].
  destruct (Z.eqb_spec c ch_lbrack); [cbn in Hr; congruence|]. destruct (Z.eqb_spec c ch_backslash); [cbn in Hr; congruence|]. cbn [orb] in Hr.
  assert (Forall literal (pre ++ [c])) as Hl' by (apply Forall_app; repeat constructor; done).
  assert (∀ s', scanned (pre ++ [c]) s' → pattern_loop (length rest) (pre ++ c :: rest) (zlen pre + 1) s' = Ok slot →
    (Forall literal (pre ++ c :: rest) ∧ keyHashSlot (pre ++ c :: rest) = Ok slot) ∨ tagged (pre ++ c :: rest) slot) as Hgo.
  { intros s' Hs' Hr'. specialize (IH (pre ++ [c]) s' slot Hl' Hs'). rewrite <- app_assoc in IH. apply IH; [|done].
    rewrite length_app. cbn [length app]. by replace (Z.of_nat (length pre + 1)) with (zlen pre + 1) by lia. }
  inversion Hs as [pre' Hp E1 E2|a t Ha Ht E1 E2|a r Ha E1 E2]; subst.
  - change (-1 =? -1) with true in Hr. change (-1 >=? 0) with false in Hr. cbn [andb] in Hr. destruct (Z.eqb_spec c ch_lbrace) as [->|Hc].
    + apply (Hgo (zlen pre)); [|done]. apply scanned_open; [done|set_solver].
    + apply (Hgo (-1)); [|done]. by apply scanned_snoc.
  - destruct (Z.eqb_spec (zlen a) (-1)); [lia|]. destruct (Z.geb_spec (zlen a) 0); [|lia]. cbn [andb] in Hr. destruct (Z.eqb_spec c ch_rbrace) as [->|Hc]; cbn [andb] in Hr.
    + destruct (Z.eqb_spec (zlen (a ++ ch_lbrace :: t)) (zlen a + 1)) as [E|E].
      * assert (t = []) as -> by (rewrite length_app in E; cbn in E; destruct t; [done|cbn in E; lia]).
        apply (Hgo (-2)); [|done]. rewrite <- app_assoc. by apply (scanned_empty a []).
      * right. exists a, t, rest. split; [by rewrite <- !app_assoc; cbn; rewrite <- app_assoc|]. split; [by rewrite <- app_assoc in Hl'|].
        split; [done|]. split; [done|]. split; [intros ->; rewrite length_app in E; cbn in E; lia|].
        replace ((a ++ ch_lbrace :: t) ++ ch_rbrace :: rest) with ((a ++ [ch_lbrace]) ++ t ++ ch_rbrace :: rest) in Hr by (by rewrite <- !app_assoc).
        rewrite mem_read_app in Hr by (rewrite !length_app; cbn; lia). done.
    + apply (Hgo (zlen a)); [|done]. apply (scanned_snoc _ _ c Hs); [lia|done].
  - change (-2 =? -1) with false in Hr. change (-2 >=? 0) with false in Hr. cbn [andb] in Hr.
    apply (Hgo (-2)); [|done]. apply (scanned_snoc _ _ c Hs); [lia|lia].
Qed.

(** ** The properties *)

(** C38: CRC-16 with the table of 256 constants is the XMODEM checksum of the comment
    before it: division by the polynomial 0x1021, bit by bit. *)
Theorem crc16_xmodem buf : Forall is_byte buf → crc16 buf = Ok (xmodem buf).
Proof. apply crc16_ok. Qed.

Lemma crc16_xmodem_witness : crc16 [49; 50; 51; 52; 53; 54; 55; 56; 57] = Ok (xmodem [49; 50; 51; 52; 53; 54; 55; 56; 57]).
Proof. apply crc16_xmodem. repeat constructor; done. Defined.

(** C12: The slot that [patternHashSlot] infers from a pattern is right: a key that
    [stringmatchlen] matches with the pattern has that slot. *)
Theorem patternHashSlot_sound pattern key slot :
  patternHashSlot pattern = Ok slot → slot ≠ -1 → stringmatchlen pattern key false = true → keyHashSlot key = Ok slot.
Proof.
  intros Hp Hn Hm. unfold stringmatchlen, stringmatchlen_impl in Hm. change (0 >? 1000) with false in Hm. cbv iota in Hm.
  destruct (pattern_loop_ok pattern [] (-1) slot) as [[Hl Hk]|(a & t & p & E & Hl & Ha & Ht & Hne & Hs)]; [done|by apply scanned_none; set_solver|done|done| |].
  - cbn [app] in Hl, Hk. rewrite <- (app_nil_r pattern) in Hm at 2. destruct (literal_prefix _ _ _ _ _ _ Hl Hm) as (s' & -> & E).
    by rewrite (E eq_refl), app_nil_r.
  - cbn [app] in E. rewrite E in Hm at 2. destruct (literal_prefix _ _ _ _ _ _ Hl Hm) as (s' & -> & _).
    rewrite <- app_assoc. cbn [app]. rewrite <- app_assoc. cbn [app]. rewrite slot_braces by done. by destruct (decide (t = [])).
Qed.

Definition ex_pattern : list Z := [117; 58; 123; 52; 50; 125; 58; 42].
Definition ex_key : list Z := [117; 58; 123; 52; 50; 125; 58; 110; 97; 109; 101].

Lemma patternHashSlot_sound_witness : patternHashSlot ex_pattern = Ok 8000 ∧ keyHashSlot ex_key = Ok 8000.
Proof. split; [by vm_compute|]. apply (patternHashSlot_sound ex_pattern ex_key 8000); by vm_compute. Defined.
