(* ===== verification/Sds.v ===== *)
(** Dynamic strings: [sds.c] and [sds.h].

    This file has the header types of an sds string and the order of strings.
    The order [sdscmp] is shown to be the lexicographic order of the bytes,
    with its laws; sorted sets rely on it. *)

From S2P Require Import Prelude Numstr.

Definition SDS_TYPE_5 : Z := 0.
Definition SDS_TYPE_8 : Z := 1.
Definition SDS_TYPE_16 : Z := 2.
Definition SDS_TYPE_32 : Z := 3.
Definition SDS_TYPE_64 : Z := 4.

(** The sizes of the packed headers [struct sdshdr5] to [struct sdshdr64] *)
Definition sdsHdrSize (type : Z) : Z :=
  let t := Z.land type 7 in
  if t =? SDS_TYPE_5 then 1 else
  if t =? SDS_TYPE_8 then 3 else
  if t =? SDS_TYPE_16 then 5 else
  if t =? SDS_TYPE_32 then 9 else
  if t =? SDS_TYPE_64 then 17 else 0.

Definition sdsReqType (string_size : Z) : Z :=
  if string_size <? Z.shiftl 1 5 then SDS_TYPE_5 else
  if string_size <=? Z.shiftl 1 8 - 3 - 1 then SDS_TYPE_8 else
  if string_size <=? Z.shiftl 1 16 - 5 - 1 then SDS_TYPE_16 else
  if string_size <=? Z.shiftl 1 32 - 9 - 1 then SDS_TYPE_32 else
  SDS_TYPE_64.

Definition sdsReqSize (len type : Z) : Z := len + sdsHdrSize type + 1.

(** [memcmp(a, b, n)]: the difference of the first bytes that differ *)
Fixpoint memcmp (a b : list Z) (n : nat) : Z :=
  match n, a, b with
  | S n, x :: a, y :: b => if x =? y then memcmp a b n else x - y
  | _, _, _ => 0
  end.

Definition sdscmp (s1 s2 : list Z) : Z :=
  let l1 := zlen s1 in
  let l2 := zlen s2 in
  let minlen := if l1 <? l2 then l1 else l2 in
  let cmp := memcmp s1 s2 (Z.to_nat minlen) in
  if cmp =? 0 then (if l1 >? l2 then 1 else if l1 <? l2 then -1 else 0) else cmp.

(** ** The lexicographic order *)

Fixpoint lexcmp (a b : list Z) : Z :=
  match a, b with
  | [], [] => 0
  | [], _ :: _ => -1
  | _ :: _, [] => 1
  | x :: a, y :: b => if x <? y then -1 else if y <? x then 1 else lexcmp a b
  end.

Lemma lexcmp_refl a : lexcmp a a = 0.
Proof. induction a as [|x a IH]; simpl; [done|]. by rewrite Z.ltb_irrefl. Qed.

Lemma lexcmp_eq a b : lexcmp a b = 0 → a = b.
Proof.
  revert b. induction a as [|x a IH]; intros [|y b]; simpl; try done.
  destruct (x <? y) eqn:?; [done|]. destruct (y <? x) eqn:?; [done|].
  intros E. f_equal; [lia|auto].
Qed.

Lemma lexcmp_opp a b : lexcmp b a = - lexcmp a b.
Proof.
  revert b. induction a as [|x a IH]; intros [|y b]; simpl; try done.
  destruct (x <? y) eqn:?, (y <? x) eqn:?; try lia. apply IH.
Qed.

Lemma lexcmp_trans a b c : lexcmp a b < 0 → lexcmp b c < 0 → lexcmp a c < 0.
Proof.
  revert b c. induction a as [|x a IH]; intros [|y b] [|z c]; simpl; try done.
  destruct (x <? y) eqn:?, (y <? x) eqn:?, (y <? z) eqn:?, (z <? y) eqn:?,
    (x <? z) eqn:?, (z <? x) eqn:?; try lia. apply IH.
Qed.

Lemma lexcmp_app_eq p a b : lexcmp (p ++ a) (p ++ b) = lexcmp a b.
Proof. induction p as [|x p IH]; simpl; [done|]. by rewrite Z.ltb_irrefl. Qed.

(** [sdscmp] is the lexicographic order, up to the magnitude of the result. *)
Lemma sdscmp_lex a b : Z.sgn (sdscmp a b) = lexcmp a b.
Proof.
  unfold sdscmp.
  replace (Z.to_nat (if zlen a <? zlen b then zlen a else zlen b))
    with (Nat.min (length a) (length b)) by (destruct (_ <? _) eqn:?; lia).
  revert b. induction a as [|x a IH]; intros [|y b]; try done.
  specialize (IH b). cbn [length Nat.min memcmp lexcmp].
  destruct (x =? y) eqn:E; [|destruct (x - y =? 0) eqn:?, (x <? y) eqn:?, (y <? x) eqn:?; lia].
  destruct (x <? y) eqn:?, (y <? x) eqn:?; try lia.
  rewrite <- IH. destruct (memcmp _ _ _ =? 0) eqn:?; [|done].
  replace (Z.of_nat (S (length a)) >? Z.of_nat (S (length b))) with (zlen a >? zlen b) by lia.
  by replace (Z.of_nat (S (length a)) <? Z.of_nat (S (length b))) with (zlen a <? zlen b) by lia.
Qed.

Lemma sdscmp_0 a b : sdscmp a b = 0 ↔ a = b.
Proof.
  pose proof (sdscmp_lex a b) as H. split.
  - intros E. rewrite E in H. by apply lexcmp_eq.
  - intros ->. rewrite lexcmp_refl in H. lia.
Qed.

(** ** Integers as strings *)

Section fromlonglong.
Context `{Allocator}.

(** A local array of [n] bytes, which is not initialised *)
Definition local_buf (n : nat) : list Z := junk <$> seq 0 n.

(** The buffer has [LONG_STR_SIZE] bytes. *)
Definition sdsfromlonglong (value : Z) : res (list Z) :=
  '(len, buf) ← ll2string (local_buf 21) value;
  Ok (take (Z.to_nat len) buf).

Lemma local_buf_length n : length (local_buf n) = n.
Proof. unfold local_buf. by rewrite length_fmap, length_seq. Qed.

Lemma sdsfromlonglong_ok v : is_i64 v → sdsfromlonglong v = Ok (decs v).
Proof.
  intros Hi. pose proof (decs_len v Hi). unfold sdsfromlonglong.
  rewrite ll2string_ok by (done || rewrite local_buf_length; lia). rs. by rewrite Nat2Z.id, take_app_length.
Qed.
End fromlonglong.
