(* ===== verification/Listpack.v ===== *)
(** The encodings of [listpack.c]: header, integers, strings, back lengths.

    A listpack is one allocation [m], a list of bytes; pointers into it are
    offsets.  [lpent] is the abstract syntax of an entry with the encoding it
    uses; [ent_bytes] lays it out and [ent_value] is the value it stands for. *)

From S2P Require Import Prelude Numstr.

(** ** Constants and header of the format *)

Abbreviation LP_HDR_SIZE := 6.
Abbreviation LP_HDR_NUMELE_UNKNOWN := 65535.
Abbreviation LP_INTBUF_SIZE := 21.
Abbreviation LP_EOF := 255.
Abbreviation LISTPACK_MAX_SAFETY_SIZE := (2 ^ 30).

Definition LP_ENCODING_7BIT_UINT_MASK := 0x80.
Definition LP_ENCODING_6BIT_STR := 0x80.
Definition LP_ENCODING_13BIT_INT := 0xC0.
Definition LP_ENCODING_12BIT_STR := 0xE0.
Definition LP_ENCODING_16BIT_INT := 0xF1.
Definition LP_ENCODING_24BIT_INT := 0xF2.
Definition LP_ENCODING_32BIT_INT := 0xF3.
Definition LP_ENCODING_64BIT_INT := 0xF4.
Definition LP_ENCODING_32BIT_STR := 0xF0.

Definition LP_ENCODING_IS_7BIT_UINT (byte : Z) : bool := Z.land byte 0x80 =? 0.
Definition LP_ENCODING_IS_6BIT_STR (byte : Z) : bool := Z.land byte 0xC0 =? LP_ENCODING_6BIT_STR.
Definition LP_ENCODING_IS_13BIT_INT (byte : Z) : bool := Z.land byte 0xE0 =? LP_ENCODING_13BIT_INT.
Definition LP_ENCODING_IS_12BIT_STR (byte : Z) : bool := Z.land byte 0xF0 =? LP_ENCODING_12BIT_STR.
Definition LP_ENCODING_IS_16BIT_INT (byte : Z) : bool := Z.land byte 0xFF =? LP_ENCODING_16BIT_INT.
Definition LP_ENCODING_IS_24BIT_INT (byte : Z) : bool := Z.land byte 0xFF =? LP_ENCODING_24BIT_INT.
Definition LP_ENCODING_IS_32BIT_INT (byte : Z) : bool := Z.land byte 0xFF =? LP_ENCODING_32BIT_INT.
Definition LP_ENCODING_IS_64BIT_INT (byte : Z) : bool := Z.land byte 0xFF =? LP_ENCODING_64BIT_INT.
Definition LP_ENCODING_IS_32BIT_STR (byte : Z) : bool := Z.land byte 0xFF =? LP_ENCODING_32BIT_STR.

(** [p[i] | p[i+1]<<8 | ...] over [n] bytes *)
Fixpoint get_le (m : list Z) (p : Z) (n : nat) : res Z :=
  match n with
  | O => Ok 0
  | S n => b ← mem_get m p; hi ← get_le m (p + 1) n; Ok (Z.lor b (Z.shiftl hi 8))
  end.

Definition LP_ENCODING_6BIT_STR_LEN (m : list Z) (p : Z) : res Z :=
  b ← mem_get m p; Ok (Z.land b 0x3F).
Definition LP_ENCODING_12BIT_STR_LEN (m : list Z) (p : Z) : res Z :=
  b ← mem_get m p; c ← mem_get m (p + 1);
  Ok (Z.lor (Z.shiftl (Z.land b 0xF) 8) c).
Definition LP_ENCODING_32BIT_STR_LEN (m : list Z) (p : Z) : res Z := get_le m (p + 1) 4.

Definition lpGetTotalBytes (lp : list Z) : res Z := get_le lp 0 4.
Definition lpGetNumElements (lp : list Z) : res Z := get_le lp 4 2.
Definition lpSetTotalBytes (lp : list Z) (v : Z) : res (list Z) :=
  mem_write lp 0 [Z.land v 0xff; Z.land (Z.shiftr v 8) 0xff;
                  Z.land (Z.shiftr v 16) 0xff; Z.land (Z.shiftr v 24) 0xff].
Definition lpSetNumElements (lp : list Z) (v : Z) : res (list Z) :=
  mem_write lp 4 [Z.land v 0xff; Z.land (Z.shiftr v 8) 0xff].

Definition lpBytes (lp : list Z) : res Z := lpGetTotalBytes lp.

(** [None] is the null pointer. *)
Definition lpSafeToAdd (lp : option (list Z)) (add : Z) : res bool :=
  len ← match lp with Some lp => lpGetTotalBytes lp | None => Ok 0 end;
  Ok (negb (u64 (len + add) >? LISTPACK_MAX_SAFETY_SIZE)).

(** ** Encoding *)

Definition lpStringToInt64 (s : list Z) : option Z :=
  let slen := zlen s in
  if (slen =? 0) || (slen >=? LONG_STR_SIZE) then None else
  if bool_decide (s = [ch_0]) then Some 0 else
  let '(negative, p) :=
    match s with
    | c :: r => if c =? ch_minus then (true, r) else (false, s)
    | [] => (false, s)
    end in
  match p with
  | c :: r =>
      if (49 <=? c) && (c <=? ch_9) then
        match parse_digits r (c - ch_0) with
        | Some (v, []) =>
            if negative : bool then
              if v >? - (INT64_MIN + 1) + 1 then None else Some (s64 (u64 (- v)))
            else if v >? INT64_MAX then None else Some v
        | _ => None
        end
      else None
  | [] => None
  end.

(** The bytes stored in [intenc]; [*enclen] is their number. *)
Definition lpEncodeIntegerGetType (v : Z) : list Z :=
  if (v >=? 0) && (v <=? 127) then [u8 v]
  else if (v >=? -4096) && (v <=? 4095) then
    let v := if v <? 0 then Z.shiftl 1 13 + v else v in
    [u8 (Z.lor (Z.shiftr v 8) LP_ENCODING_13BIT_INT); Z.land v 0xff]
  else if (v >=? -32768) && (v <=? 32767) then
    let v := if v <? 0 then Z.shiftl 1 16 + v else v in
    [LP_ENCODING_16BIT_INT; Z.land v 0xff; u8 (Z.shiftr v 8)]
  else if (v >=? -8388608) && (v <=? 8388607) then
    let v := if v <? 0 then Z.shiftl 1 24 + v else v in
    [LP_ENCODING_24BIT_INT; Z.land v 0xff; Z.land (Z.shiftr v 8) 0xff; u8 (Z.shiftr v 16)]
  else if (v >=? -2147483648) && (v <=? 2147483647) then
    let v := if v <? 0 then Z.shiftl 1 32 + v else v in
    [LP_ENCODING_32BIT_INT; Z.land v 0xff; Z.land (Z.shiftr v 8) 0xff;
     Z.land (Z.shiftr v 16) 0xff; u8 (Z.shiftr v 24)]
  else
    let uv := u64 v in
    [LP_ENCODING_64BIT_INT; Z.land uv 0xff; Z.land (Z.shiftr uv 8) 0xff;
     Z.land (Z.shiftr uv 16) 0xff; Z.land (Z.shiftr uv 24) 0xff; Z.land (Z.shiftr uv 32) 0xff;
     Z.land (Z.shiftr uv 40) 0xff; Z.land (Z.shiftr uv 48) 0xff; u8 (Z.shiftr uv 56)].

(** The encoding chosen for an element: the integer encoding in [intenc], or a
    string that takes [enclen] bytes. *)
Inductive lp_enctype : Set :=
| LP_ENCODING_INT (intenc : list Z)
| LP_ENCODING_STRING (enclen : Z).

Definition lpEncodeGetType (ele : list Z) : lp_enctype :=
  let size := zlen ele in
  match lpStringToInt64 ele with
  | Some v => LP_ENCODING_INT (lpEncodeIntegerGetType v)
  | None =>
      LP_ENCODING_STRING
        (if size <? 64 then 1 + size else if size <? 4096 then 2 + size else 5 + size)
  end.

(** The bytes stored in [buf]; the result of the C function is their number. *)
Definition lpEncodeBacklen (l : Z) : list Z :=
  let seven n := Z.lor (Z.land (Z.shiftr l n) 127) 128 in
  if l <=? 127 then [u8 l]
  else if l <? 16383 then [u8 (Z.shiftr l 7); seven 0]
  else if l <? 2097151 then [u8 (Z.shiftr l 14); seven 7; seven 0]
  else if l <? 268435455 then [u8 (Z.shiftr l 21); seven 14; seven 7; seven 0]
  else [u8 (Z.shiftr l 28); seven 21; seven 14; seven 7; seven 0].

Definition lpEncodeBacklenBytes (l : Z) : Z :=
  if l <=? 127 then 1
  else if l <? 16383 then 2
  else if l <? 2097151 then 3
  else if l <? 268435455 then 4
  else 5.

Definition lpDecodeBacklen (m : list Z) (p : Z) : res Z :=
  b0 ← mem_get m p;
  if Z.land b0 128 =? 0 then Ok (Z.land b0 127) else
  let val := Z.land b0 127 in
  b1 ← mem_get m (p - 1);
  if Z.land b1 128 =? 0 then Ok (Z.lor val (Z.shiftl (Z.land b1 127) 7)) else
  let val := Z.lor val (Z.shiftl (Z.land b1 127) 7) in
  b2 ← mem_get m (p - 2);
  if Z.land b2 128 =? 0 then Ok (Z.lor val (Z.shiftl (Z.land b2 127) 14)) else
  let val := Z.lor val (Z.shiftl (Z.land b2 127) 14) in
  b3 ← mem_get m (p - 3);
  if Z.land b3 128 =? 0 then Ok (Z.lor val (Z.shiftl (Z.land b3 127) 21)) else
  let val := Z.lor val (Z.shiftl (Z.land b3 127) 21) in
  b4 ← mem_get m (p - 4);
  if Z.land b4 128 =? 0 then Ok (Z.lor val (Z.shiftl (Z.land b4 127) 28)) else
  Ok UINT64_MAX.

(** The bytes stored in [buf] *)
Definition lpEncodeString (s : list Z) : list Z :=
  let len := zlen s in
  if len <? 64 then u8 (Z.lor len LP_ENCODING_6BIT_STR) :: s
  else if len <? 4096 then
    [u8 (Z.lor (Z.shiftr len 8) LP_ENCODING_12BIT_STR); Z.land len 0xff] ++ s
  else
    [LP_ENCODING_32BIT_STR; Z.land len 0xff; Z.land (Z.shiftr len 8) 0xff;
     Z.land (Z.shiftr len 16) 0xff; Z.land (Z.shiftr len 24) 0xff] ++ s.

(** ** Decoding *)

(** The sum is computed in [uint32_t]. *)
Definition lpCurrentEncodedSizeUnsafe (m : list Z) (p : Z) : res Z :=
  b ← mem_get m p;
  if LP_ENCODING_IS_7BIT_UINT b then Ok 1
  else if LP_ENCODING_IS_6BIT_STR b then n ← LP_ENCODING_6BIT_STR_LEN m p; Ok (1 + n)
  else if LP_ENCODING_IS_13BIT_INT b then Ok 2
  else if LP_ENCODING_IS_16BIT_INT b then Ok 3
  else if LP_ENCODING_IS_24BIT_INT b then Ok 4
  else if LP_ENCODING_IS_32BIT_INT b then Ok 5
  else if LP_ENCODING_IS_64BIT_INT b then Ok 9
  else if LP_ENCODING_IS_12BIT_STR b then n ← LP_ENCODING_12BIT_STR_LEN m p; Ok (2 + n)
  else if LP_ENCODING_IS_32BIT_STR b then n ← LP_ENCODING_32BIT_STR_LEN m p; Ok (u32 (5 + n))
  else if b =? LP_EOF then Ok 1
  else Ok 0.

Definition lpCurrentEncodedSizeBytes (encoding : Z) : Z :=
  if LP_ENCODING_IS_7BIT_UINT encoding then 1
  else if LP_ENCODING_IS_6BIT_STR encoding then 1
  else if LP_ENCODING_IS_13BIT_INT encoding then 1
  else if LP_ENCODING_IS_16BIT_INT encoding then 1
  else if LP_ENCODING_IS_24BIT_INT encoding then 1
  else if LP_ENCODING_IS_32BIT_INT encoding then 1
  else if LP_ENCODING_IS_64BIT_INT encoding then 1
  else if LP_ENCODING_IS_12BIT_STR encoding then 2
  else if LP_ENCODING_IS_32BIT_STR encoding then 5
  else if encoding =? LP_EOF then 1
  else 0.

(** What [lpGet] returns: a pointer into the listpack with the length in
    [*count], the caller's buffer with the length in [*count], or the null
    pointer with the integer in [*count]. *)
Inductive lp_ret : Set :=
| RPtr (ptr count : Z)
| RBuf (intbuf : list Z) (count : Z)
| RNull (count : Z).

(** The conversion of an unsigned value by the two's complement rule, and the
    choice between the value and its string, that both functions end with *)
Definition lp_signed (uval negstart negmax : Z) : Z :=
  if uval >=? negstart then - s64 (u64 (negmax - uval)) - 1 else s64 uval.
Definition lp_return_int (val : Z) (intbuf : option (list Z)) : res lp_ret :=
  match intbuf with
  | Some buf => '(count, buf) ← ll2string buf val; Ok (RBuf buf count)
  | None => Ok (RNull val)
  end.

(** The second component is [*entry_size], [None] where the code leaves it
    alone. *)
Definition lpGetWithSize (m : list Z) (p : Z) (intbuf : option (list Z)) : res (lp_ret * option Z) :=
  let finish (uval negstart negmax : Z) (size : option Z) : res (lp_ret * option Z) :=
    r ← lp_return_int (lp_signed uval negstart negmax) intbuf; Ok (r, size) in
  b ← mem_get m p;
  if LP_ENCODING_IS_7BIT_UINT b then finish (Z.land b 0x7f) UINT64_MAX 0 (Some 2)
  else if LP_ENCODING_IS_6BIT_STR b then
    count ← LP_ENCODING_6BIT_STR_LEN m p;
    Ok (RPtr (p + 1) count, Some (1 + count + lpEncodeBacklenBytes (count + 1)))
  else if LP_ENCODING_IS_13BIT_INT b then
    c ← mem_get m (p + 1);
    finish (Z.lor (Z.shiftl (Z.land b 0x1f) 8) c) (2 ^ 12) 8191 (Some 3)
  else if LP_ENCODING_IS_16BIT_INT b then
    uval ← get_le m (p + 1) 2; finish uval (2 ^ 15) 65535 (Some 4)
  else if LP_ENCODING_IS_24BIT_INT b then
    uval ← get_le m (p + 1) 3; finish uval (2 ^ 23) (Z.shiftr UINT32_MAX 8) (Some 5)
  else if LP_ENCODING_IS_32BIT_INT b then
    uval ← get_le m (p + 1) 4; finish uval (2 ^ 31) UINT32_MAX (Some 6)
  else if LP_ENCODING_IS_64BIT_INT b then
    uval ← get_le m (p + 1) 8; finish uval (2 ^ 63) UINT64_MAX (Some 10)
  else if LP_ENCODING_IS_12BIT_STR b then
    count ← LP_ENCODING_12BIT_STR_LEN m p;
    Ok (RPtr (p + 2) count, Some (2 + count + lpEncodeBacklenBytes (count + 2)))
  else if LP_ENCODING_IS_32BIT_STR b then
    count ← LP_ENCODING_32BIT_STR_LEN m p;
    Ok (RPtr (p + 5) count, Some (5 + count + lpEncodeBacklenBytes (count + 5)))
  else finish (12345678900000000 + b) UINT64_MAX 0 None.

Definition lpGetWithBuf (m : list Z) (p : Z) (intbuf : option (list Z)) : res lp_ret :=
  let finish (uval negstart negmax : Z) : res lp_ret :=
    lp_return_int (lp_signed uval negstart negmax) intbuf in
  encoding ← mem_get m p;
  if LP_ENCODING_IS_6BIT_STR encoding then
    count ← LP_ENCODING_6BIT_STR_LEN m p; Ok (RPtr (p + 1) count)
  else if LP_ENCODING_IS_12BIT_STR encoding then
    count ← LP_ENCODING_12BIT_STR_LEN m p; Ok (RPtr (p + 2) count)
  else if LP_ENCODING_IS_32BIT_STR encoding then
    count ← LP_ENCODING_32BIT_STR_LEN m p; Ok (RPtr (p + 5) count)
  else if LP_ENCODING_IS_7BIT_UINT encoding then finish (Z.land encoding 0x7f) UINT64_MAX 0
  else if LP_ENCODING_IS_13BIT_INT encoding then
    c ← mem_get m (p + 1);
    finish (Z.lor (Z.shiftl (Z.land encoding 0x1f) 8) c) (2 ^ 12) 8191
  else if LP_ENCODING_IS_16BIT_INT encoding then
    uval ← get_le m (p + 1) 2; finish uval (2 ^ 15) 65535
  else if LP_ENCODING_IS_24BIT_INT encoding then
    uval ← get_le m (p + 1) 3; finish uval (2 ^ 23) (Z.shiftr UINT32_MAX 8)
  else if LP_ENCODING_IS_32BIT_INT encoding then
    uval ← get_le m (p + 1) 4; finish uval (2 ^ 31) UINT32_MAX
  else if LP_ENCODING_IS_64BIT_INT encoding then
    uval ← get_le m (p + 1) 8; finish uval (2 ^ 63) UINT64_MAX
  else finish (12345678900000000 + encoding) UINT64_MAX 0.

Definition lpGet := lpGetWithBuf.

(** [lpGetValue]: a string with [*slen], truncated to 32 bits, or an integer. *)
Definition lpGetValue (m : list Z) (p : Z) : res lp_ret :=
  r ← lpGet m p None;
  Ok (match r with RPtr vstr ele_len => RPtr vstr (u32 ele_len) | r => r end).

(** [Some lval]: 1 is returned. *)
Definition lpGetIntegerValue (m : list Z) (p : Z) : res (option Z) :=
  r ← lpGet m p None;
  Ok (match r with RNull lval => Some lval | _ => None end).

(** ** Sizes *)

Definition lpEntrySizeInteger (lval : Z) : Z :=
  let enclen := zlen (lpEncodeIntegerGetType lval) in
  enclen + lpEncodeBacklenBytes enclen.
Definition lpEstimateBytesRepeatedInteger (lval rep : Z) : Z :=
  u64 (LP_HDR_SIZE + lpEntrySizeInteger lval * rep + 1).

(** ** Abstract syntax of entries *)

Inductive lp_value : Set := EInt (v : Z) | EStr (s : list Z).

Inductive lpent : Set :=
| U7 (v : Z) | I13 (v : Z) | I16 (v : Z) | I24 (v : Z) | I32 (v : Z) | I64 (v : Z)
| S6 (s : list Z) | S12 (s : list Z) | S32 (s : list Z).

Definition ent_ok (e : lpent) : Prop :=
  match e with
  | U7 v => 0 <= v < 128
  | I13 v => - 2 ^ 12 <= v < 2 ^ 12
  | I16 v => - 2 ^ 15 <= v < 2 ^ 15
  | I24 v => - 2 ^ 23 <= v < 2 ^ 23
  | I32 v => - 2 ^ 31 <= v < 2 ^ 31
  | I64 v => - 2 ^ 63 <= v < 2 ^ 63
  | S6 s => zlen s < 64 /\ Forall is_byte s
  | S12 s => zlen s < 4096 /\ Forall is_byte s
  | S32 s => zlen s < 2 ^ 32 - 5 /\ Forall is_byte s
  end.

Definition ent_value (e : lpent) : lp_value :=
  match e with
  | U7 v | I13 v | I16 v | I24 v | I32 v | I64 v => EInt v
  | S6 s | S12 s | S32 s => EStr s
  end.

(** The encoding byte and the length bytes *)
Definition ent_head (e : lpent) : list Z :=
  match e with
  | U7 v => [v]
  | I13 v => [192 + v mod 8192 / 256]
  | I16 _ => [241] | I24 _ => [242] | I32 _ => [243] | I64 _ => [244]
  | S6 s => [128 + zlen s]
  | S12 s => [224 + zlen s / 256; zlen s mod 256]
  | S32 s => 240 :: le_bytes 4 (zlen s)
  end.
Definition ent_data (e : lpent) : list Z :=
  match e with
  | U7 v => []
  | I13 v => [v mod 256]
  | I16 v => le_bytes 2 v
  | I24 v => le_bytes 3 v
  | I32 v => le_bytes 4 v
  | I64 v => le_bytes 8 v
  | S6 s | S12 s | S32 s => s
  end.
Definition ent_bytes (e : lpent) : list Z := ent_head e ++ ent_data e.

(** The smallest encoding of an integer, and of a string *)
Definition int_ent (v : Z) : lpent :=
  if (0 <=? v) && (v <? 128) then U7 v
  else if (- 2 ^ 12 <=? v) && (v <? 2 ^ 12) then I13 v
  else if (- 2 ^ 15 <=? v) && (v <? 2 ^ 15) then I16 v
  else if (- 2 ^ 23 <=? v) && (v <? 2 ^ 23) then I24 v
  else if (- 2 ^ 31 <=? v) && (v <? 2 ^ 31) then I32 v
  else I64 v.
Definition str_ent (s : list Z) : lpent :=
  if zlen s <? 64 then S6 s else if zlen s <? 4096 then S12 s else S32 s.

(** The entry stored for a string *)
Definition ele_ent (s : list Z) : lpent :=
  match string2ll s with Some v => int_ent v | None => str_ent s end.

(** ** Bits as arithmetic *)

Lemma land_127 a : Z.land a 127 = a mod 128.
Proof. exact (Z.land_ones a 7 ltac:(lia)). Qed.

(** A boolean fact about bytes, checked on all of them *)
Lemma byte_forall (f : Z -> bool) b :
  forallb f (Z.of_nat <$> seq 0 256) = true -> is_byte b -> f b = true.
Proof.
  rewrite forallb_forall. intros H Hb. apply H. apply list_elem_of_In, list_elem_of_fmap.
  exists (Z.to_nat b). unfold is_byte in Hb. split; [lia|]. apply elem_of_seq. lia.
Qed.

Ltac by_bytes := unfold is_byte in *; first [lia | zdiv].

(** The encoding tests are intervals of the first byte. *)
Lemma is_7bit_range b : is_byte b -> LP_ENCODING_IS_7BIT_UINT b = (b <? 128).
Proof.
  intros Hb. apply eqb_prop.
  by apply (byte_forall (fun b => eqb (LP_ENCODING_IS_7BIT_UINT b) (b <? 128))).
Qed.
Lemma is_6bit_range b : is_byte b -> LP_ENCODING_IS_6BIT_STR b = (128 <=? b) && (b <? 192).
Proof.
  intros Hb. apply eqb_prop.
  by apply (byte_forall (fun b => eqb (LP_ENCODING_IS_6BIT_STR b) ((128 <=? b) && (b <? 192)))).
Qed.
Lemma is_13bit_range b : is_byte b -> LP_ENCODING_IS_13BIT_INT b = (192 <=? b) && (b <? 224).
Proof.
  intros Hb. apply eqb_prop.
  by apply (byte_forall (fun b => eqb (LP_ENCODING_IS_13BIT_INT b) ((192 <=? b) && (b <? 224)))).
Qed.
Lemma is_12bit_range b : is_byte b -> LP_ENCODING_IS_12BIT_STR b = (224 <=? b) && (b <? 240).
Proof.
  intros Hb. apply eqb_prop.
  by apply (byte_forall (fun b => eqb (LP_ENCODING_IS_12BIT_STR b) ((224 <=? b) && (b <? 240)))).
Qed.

Lemma land_3f b : 128 <= b < 192 -> Z.land b 0x3F = b - 128.
Proof.
  intros Hb. apply Z.eqb_eq.
  assert ((if (128 <=? b) && (b <? 192) then Z.land b 63 =? b - 128 else true) = true) as H.
  { apply (byte_forall (fun b => if (128 <=? b) && (b <? 192) then Z.land b 63 =? b - 128 else true));
      [done|by_bytes]. }
  by replace ((128 <=? b) && (b <? 192)) with true in H by lia.
Qed.
Lemma land_1f b : Z.land b 0x1F = b mod 32.
Proof. exact (Z.land_ones b 5 ltac:(lia)). Qed.
Lemma land_f b : Z.land b 0xF = b mod 16.
Proof. exact (Z.land_ones b 4 ltac:(lia)). Qed.
Lemma land_128 b : is_byte b -> (Z.land b 128 =? 0) = (b <? 128).
Proof. apply is_7bit_range. Qed.

Lemma lor_byte_hi b hi : is_byte b -> Z.lor b (Z.shiftl hi 8) = b + 256 * hi.
Proof. intros Hb. rewrite Z.lor_comm, lor_shiftl_add by by_bytes. lia. Qed.

(** ** Reading inside a buffer *)

Lemma mem_get_shift a e b i :
  0 <= i < zlen e -> mem_get (a ++ e ++ b) (zlen a + i) = mem_get e i.
Proof.
  intros Hi. unfold mem_get. replace (0 <=? zlen a + i) with true by lia.
  replace (0 <=? i) with true by lia. rewrite lookup_app_r by lia.
  rewrite lookup_app_l by lia. by replace (Z.to_nat (zlen a + i) - length a)%nat with (Z.to_nat i) by lia.
Qed.

Lemma mem_get_here a b r : mem_get (a ++ b :: r) (zlen a) = Ok b.
Proof. by apply mem_get_app. Qed.
Lemma mem_get_next a x b r : mem_get (a ++ x :: b :: r) (zlen a + 1) = Ok b.
Proof. exact (mem_get_shift a [x; b] r 1 ltac:(cbn; lia)). Qed.

Lemma get_le_app a bs r p n :
  p = zlen a -> n = length bs -> Forall is_byte bs -> get_le (a ++ bs ++ r) p n = Ok (le_val bs).
Proof.
  intros -> -> Hb. revert a. induction Hb as [|b bs Hb _ IH]; intros a; [done|].
  cbn [length get_le app]. rewrite mem_get_here. rs.
  specialize (IH (a ++ [b])). rewrite length_app, <- app_assoc, Nat2Z.inj_add in IH.
  cbn [length app] in IH. change (Z.of_nat 1) with 1 in IH. rewrite IH. rs.
  by rewrite lor_byte_hi.
Qed.

(** ** Entries in a buffer *)

Lemma is_ff_range b k : is_byte b -> (Z.land b 0xFF =? k) = (b =? k).
Proof. intros Hb. rewrite land_255, Z.mod_small by by_bytes. done. Qed.

(** Decides the encoding tests on a first byte whose range is known. *)
Ltac lp_tests :=
  rewrite ?is_7bit_range, ?is_6bit_range, ?is_13bit_range, ?is_12bit_range by by_bytes;
  unfold LP_ENCODING_IS_16BIT_INT, LP_ENCODING_IS_24BIT_INT, LP_ENCODING_IS_32BIT_INT,
    LP_ENCODING_IS_64BIT_INT, LP_ENCODING_IS_32BIT_STR,
    LP_ENCODING_16BIT_INT, LP_ENCODING_24BIT_INT, LP_ENCODING_32BIT_INT,
    LP_ENCODING_64BIT_INT, LP_ENCODING_32BIT_STR;
  rewrite ?is_ff_range by by_bytes;
  repeat match goal with
  | |- context [if ?c then _ else _] =>
      first [ replace c with true by (zdiv || lia) | replace c with false by (zdiv || lia) ]
  end.

Lemma ent_bytes_byte e : ent_ok e -> Forall is_byte (ent_bytes e).
Proof.
  intros H. unfold ent_bytes. apply Forall_app.
  destruct e; cbn [ent_ok ent_head ent_data] in *;
    (split; [|try (apply le_bytes_byte || apply H)]);
    repeat (apply Forall_cons; split; [unfold is_byte; zdiv|]);
    try apply Forall_nil; try apply Forall_nil_2; try apply le_bytes_byte; try done.
Qed.

Lemma ent_bytes_length e : ent_ok e -> 1 <= zlen (ent_bytes e) < 2 ^ 32.
Proof.
  intros H. unfold ent_bytes. rewrite length_app.
  destruct e; cbn [ent_ok ent_head ent_data length] in *; rewrite ?length_le_bytes; lia.
Qed.

Lemma ent_bytes_first e : ent_ok e ->
  exists b r, ent_bytes e = b :: r /\ 0 <= b <= 244.
Proof.
  intros H. unfold ent_bytes. destruct e; cbn [ent_ok ent_head ent_data app] in *;
    (eexists _, _; split; [reflexivity|]); zdiv.
Qed.

Lemma u32_add5 n : 0 <= n < 2 ^ 32 - 5 -> u32 (5 + n) = 5 + n.
Proof. intros. apply u32_small. lia. Qed.

(** The lengths in the heads *)
Lemma get_le_head a x n z r :
  get_le (a ++ x :: le_bytes n z ++ r) (zlen a + 1) n = Ok (z mod 256 ^ Z.of_nat n).
Proof.
  rewrite <- le_val_bytes. set (bs := le_bytes n z). change (x :: bs ++ r) with ([x] ++ bs ++ r). rewrite app_assoc.
  apply get_le_app; [rewrite length_app; cbn; lia|symmetry; apply length_le_bytes|apply le_bytes_byte].
Qed.

Lemma str32_len_app a (s b : list Z) :
  zlen s < 2 ^ 32 - 5 ->
  LP_ENCODING_32BIT_STR_LEN (a ++ 240 :: le_bytes 4 (zlen s) ++ b) (zlen a) = Ok (zlen s).
Proof.
  intros Hs. unfold LP_ENCODING_32BIT_STR_LEN.
  rewrite get_le_head, Z.mod_small; [done|]. change (256 ^ Z.of_nat 4) with (2 ^ 32). lia.
Qed.

Lemma str12_len_app a (s b : list Z) :
  zlen s < 4096 ->
  LP_ENCODING_12BIT_STR_LEN (a ++ 224 + zlen s / 256 :: zlen s mod 256 :: b) (zlen a) = Ok (zlen s).
Proof.
  intros Hs. unfold LP_ENCODING_12BIT_STR_LEN. cbn [app].
  rewrite mem_get_here. rs. rewrite mem_get_next. rs.
  rewrite land_f, lor_shiftl_add by zdiv. f_equal. zdiv.
Qed.

Lemma str6_len_app a (s b : list Z) :
  zlen s < 64 -> LP_ENCODING_6BIT_STR_LEN (a ++ (128 + zlen s) :: b) (zlen a) = Ok (zlen s).
Proof.
  intros Hs. unfold LP_ENCODING_6BIT_STR_LEN. rewrite mem_get_here. rs.
  rewrite land_3f by lia. f_equal. lia.
Qed.

Lemma size_unsafe_ok a e b :
  ent_ok e -> lpCurrentEncodedSizeUnsafe (a ++ ent_bytes e ++ b) (zlen a) = Ok (zlen (ent_bytes e)).
Proof.
  intros H. unfold lpCurrentEncodedSizeUnsafe, ent_bytes. rewrite length_app.
  destruct e as [v|v|v|v|v|v|s|s|s]; cbn [ent_ok ent_head ent_data app length] in *;
    rewrite mem_get_here; rs; lp_tests; rewrite ?length_le_bytes; try done.
  - rewrite str6_len_app by lia. rs. f_equal. lia.
  - rewrite str12_len_app by lia. rs. f_equal. lia.
  - rewrite <- app_assoc, str32_len_app by lia. rs. rewrite u32_add5 by lia. f_equal. lia.
Qed.

Lemma size_bytes_ok e b r :
  ent_ok e -> ent_bytes e = b :: r -> lpCurrentEncodedSizeBytes b = zlen (ent_head e).
Proof.
  intros H. unfold ent_bytes, lpCurrentEncodedSizeBytes.
  destruct e as [v|v|v|v|v|v|s|s|s]; cbn [ent_ok ent_head ent_data app length] in *;
    intros [= <- <-]; lp_tests; by rewrite ?length_le_bytes.
Qed.

Lemma lp_signed_mod k v uval negstart negmax :
  1 <= k <= 64 -> - 2 ^ (k - 1) <= v < 2 ^ (k - 1) ->
  uval = v mod 2 ^ k -> negstart = 2 ^ (k - 1) -> negmax = 2 ^ k - 1 ->
  lp_signed uval negstart negmax = v.
Proof.
  intros Hk Hv -> -> ->. unfold lp_signed.
  assert (2 ^ k = 2 * 2 ^ (k - 1)) as Hp.
  { rewrite <- Z.pow_succ_r by lia. f_equal. lia. }
  assert (2 ^ (k - 1) <= 2 ^ 63) by (apply Z.pow_le_mono_r; lia).
  rewrite Hp. generalize dependent (2 ^ (k - 1)). intros B Hv Hp HB.
  destruct (Z.lt_ge_cases v 0) as [Hneg|Hpos].
  - rewrite <- (Z.mod_add v 1) by lia. rewrite Z.mod_small by lia.
    replace (v + 1 * (2 * B) >=? B) with true by lia.
    rewrite u64_small, s64_small by lia. lia.
  - rewrite Z.mod_small by lia. replace (v >=? B) with false by lia. apply s64_small. lia.
Qed.

(** What [lpGet] returns for the entry [e] at [p] *)
Definition ent_ret (p : Z) (e : lpent) (intbuf : option (list Z)) : res lp_ret :=
  match ent_value e with
  | EInt v => lp_return_int v intbuf
  | EStr s => Ok (RPtr (p + zlen (ent_head e)) (zlen s))
  end.
Definition ent_size (e : lpent) : Z :=
  zlen (ent_bytes e) + lpEncodeBacklenBytes (zlen (ent_bytes e)).

Lemma int13_value v :
  - 2 ^ 12 <= v < 2 ^ 12 ->
  lp_signed (Z.lor (Z.shiftl (Z.land (192 + v mod 8192 / 256) 31) 8) (v mod 256)) (2 ^ 12) 8191 = v.
Proof.
  intros Hv. rewrite land_1f, lor_shiftl_add by zdiv.
  apply (lp_signed_mod 13); [lia|done|zdiv|done|done].
Qed.

Lemma get_with_buf_ok a e b intbuf :
  ent_ok e -> lpGetWithBuf (a ++ ent_bytes e ++ b) (zlen a) intbuf = ent_ret (zlen a) e intbuf.
Proof.
  intros H. unfold lpGetWithBuf, ent_ret, ent_bytes.
  destruct e as [v|v|v|v|v|v|s|s|s]; cbn [ent_ok ent_head ent_data ent_value app length] in *;
    rewrite mem_get_here; rs; lp_tests.
  - rewrite land_127, Z.mod_small by lia. unfold lp_signed.
    replace (v >=? UINT64_MAX) with false by lia. by rewrite s64_small by lia.
  - rewrite mem_get_next. rs. by rewrite int13_value.
  - rewrite (get_le_head a 241 2 v b). rs.
    by rewrite (lp_signed_mod 16 v) by (done || lia).
  - rewrite (get_le_head a 242 3 v b). rs.
    by rewrite (lp_signed_mod 24 v) by (done || lia).
  - rewrite (get_le_head a 243 4 v b). rs.
    by rewrite (lp_signed_mod 32 v) by (done || lia).
  - rewrite (get_le_head a 244 8 v b). rs.
    by rewrite (lp_signed_mod 64 v) by (done || lia).
  - by rewrite str6_len_app by lia.
  - by rewrite str12_len_app by lia.
  - rewrite <- app_assoc, str32_len_app by lia. rs. by rewrite length_le_bytes.
Qed.

Lemma mem_get_byte m p b : Forall is_byte m -> mem_get m p = Ok b -> is_byte b.
Proof.
  unfold mem_get. intros Hm H. destruct (0 <=? p); [|done].
  destruct (m !! Z.to_nat p) eqn:E; [|done]. injection H as ->.
  by apply (Forall_lookup_1 _ _ _ _ Hm E).
Qed.

(** The range of the first byte decides which test succeeds. *)
Lemma first_byte_cases b : is_byte b ->
  b < 128 \/ 128 <= b < 192 \/ 192 <= b < 224 \/ 224 <= b < 240 \/ b = 240 \/ b = 241 \/
  b = 242 \/ b = 243 \/ b = 244 \/ 245 <= b < 256.
Proof. by_bytes. Qed.

(** [lpGetWithBuf], which orders the tests for speed, returns what
    [lpGetWithSize] returns on every buffer and at every position. *)
Theorem lpGetWithBuf_equiv m p intbuf :
  Forall is_byte m ->
  lpGetWithBuf m p intbuf = (r ← lpGetWithSize m p intbuf; Ok (fst r)).
Proof.
  intros Hm. unfold lpGetWithBuf, lpGetWithSize.
  destruct (mem_get m p) as [b|] eqn:E; [|done]. apply mem_get_byte in E; [|done]. rs.
  assert (forall (x : res lp_ret) (o : option Z),
    x = r ← (r ← x; Ok (r, o)); Ok r.1) as Hx by by intros [|].
  assert (forall (x : res Z) (f : Z -> lp_ret) (g : Z -> option Z),
    (c ← x; Ok (f c)) = r ← (c ← x; Ok (f c, g c)); Ok r.1) as Hy by by intros [|].
  assert (forall (x : res Z) (f : Z -> res lp_ret) (o : option Z),
    (c ← x; f c) = r ← (c ← x; r ← f c; Ok (r, o)); Ok r.1) as Hz
    by (intros [c|] g o; [cbn; by destruct (g c)|done]).
  pose proof (first_byte_cases b E) as Hc.
  destruct Hc as [?|[?|[?|[?|[?|[?|[?|[?|[?|?]]]]]]]]]; lp_tests;
    first [apply Hx | apply Hy | apply Hz].
Qed.

Lemma lpGetWithBuf_equiv_witness :
  lpGetWithBuf [192; 5] 0 None = (r ← lpGetWithSize [192; 5] 0 None; Ok (fst r)).
Proof. apply (lpGetWithBuf_equiv [192; 5] 0 None). repeat constructor; done. Defined.

Lemma get_with_size_ok a e b intbuf :
  ent_ok e ->
  lpGetWithSize (a ++ ent_bytes e ++ b) (zlen a) intbuf =
  (r ← ent_ret (zlen a) e intbuf; Ok (r, Some (ent_size e))).
Proof.
  intros H. unfold lpGetWithSize, ent_ret, ent_bytes, ent_size, ent_bytes.
  rewrite length_app.
  destruct e as [v|v|v|v|v|v|s|s|s]; cbn [ent_ok ent_head ent_data ent_value app length] in *;
    rewrite ?length_le_bytes, mem_get_here; rs; lp_tests.
  - rewrite land_127, Z.mod_small by lia. unfold lp_signed.
    replace (v >=? UINT64_MAX) with false by lia. by rewrite s64_small by lia.
  - rewrite mem_get_next. rs. by rewrite int13_value.
  - rewrite (get_le_head a 241 2 v b). rs. by rewrite (lp_signed_mod 16 v) by (done || lia).
  - rewrite (get_le_head a 242 3 v b). rs. by rewrite (lp_signed_mod 24 v) by (done || lia).
  - rewrite (get_le_head a 243 4 v b). rs. by rewrite (lp_signed_mod 32 v) by (done || lia).
  - rewrite (get_le_head a 244 8 v b). rs. by rewrite (lp_signed_mod 64 v) by (done || lia).
  - rewrite str6_len_app by lia. rs. repeat f_equal; lia.
  - rewrite str12_len_app by lia. rs. repeat f_equal; lia.
  - rewrite <- app_assoc, str32_len_app by lia. rs. repeat f_equal; lia.
Qed.

(** ** Encoders *)

Lemma u8_mod z : u8 z = z mod 256.
Proof. done. Qed.

Lemma le_bytes_shift n v v' : v' mod 256 ^ Z.of_nat n = v mod 256 ^ Z.of_nat n ->
  le_bytes n v = ((fun i => Z.shiftr v' (8 * Z.of_nat i) mod 256) <$> seq 0 n).
Proof.
  intros H. rewrite <- (le_bytes_mod n v' v H). clear H v. revert v'.
  induction n as [|n IH]; intros v'; [done|]. cbn [le_bytes seq fmap list_fmap].
  f_equal. rewrite IH, <- fmap_S_seq, <- list_fmap_compose. apply list_fmap_ext.
  intros i x _. cbn. rewrite !Z.shiftr_div_pow2 by lia. rewrite Z.div_div by lia.
  do 2 f_equal. change 256 with (2 ^ 8). rewrite <- Z.pow_add_r by lia. f_equal. lia.
Qed.

Lemma encode_integer v : is_i64 v -> lpEncodeIntegerGetType v = ent_bytes (int_ent v).
Proof.
  unfold is_i64, lpEncodeIntegerGetType, int_ent, ent_bytes. intros Hv.
  change (Z.shiftl 1 13) with 8192. change (Z.shiftl 1 16) with 65536.
  change (Z.shiftl 1 24) with 16777216. change (Z.shiftl 1 32) with 4294967296.
  repeat match goal with
  | |- context [if ?c then _ :: _ else _] =>
      let E := fresh "E" in destruct c eqn:E;
      [lp_tests; cbn [ent_head ent_data app]|]
  end.
  - by rewrite u8_mod, Z.mod_small by lia.
  - rewrite land_255, u8_mod, Z.lor_comm.
    change LP_ENCODING_13BIT_INT with (Z.shiftl 3 6). rewrite Z.shiftr_div_pow2 by lia.
    rewrite lor_shiftl_add by (try case_match; zdiv).
    f_equal; [|f_equal]; case_match; zdiv.
  - f_equal. rewrite (le_bytes_shift 2 v (if v <? 0 then 65536 + v else v)) by (case_match; zdiv).
    cbn [seq fmap list_fmap]. by rewrite land_255, u8_mod.
  - f_equal. rewrite (le_bytes_shift 3 v (if v <? 0 then 16777216 + v else v)) by (case_match; zdiv).
    cbn [seq fmap list_fmap]. by rewrite !land_255, u8_mod.
  - f_equal. rewrite (le_bytes_shift 4 v (if v <? 0 then 4294967296 + v else v)) by (case_match; zdiv).
    cbn [seq fmap list_fmap]. by rewrite !land_255, u8_mod.
  - lp_tests. cbn [ent_head ent_data app]. f_equal.
    rewrite (le_bytes_shift 8 v (u64 v)) by (unfold wrapu; apply Z.mod_mod; lia).
    cbn [seq fmap list_fmap]. by rewrite !land_255, u8_mod.
Qed.

Lemma int_ent_ok v : is_i64 v -> ent_ok (int_ent v) /\ ent_value (int_ent v) = EInt v.
Proof. unfold is_i64, int_ent. intros H. repeat case_match; cbn; (split; [lia|done]). Qed.

Lemma encode_string s : zlen s < 2 ^ 32 -> lpEncodeString s = ent_bytes (str_ent s).
Proof.
  intros Hs. unfold lpEncodeString, str_ent, ent_bytes.
  destruct (zlen s <? 64) eqn:?; [|destruct (zlen s <? 4096) eqn:?]; cbn [ent_head ent_data app].
  - change LP_ENCODING_6BIT_STR with (Z.shiftl 2 6).
    rewrite Z.lor_comm, lor_shiftl_add, u8_mod by lia. f_equal. rewrite Z.mod_small; lia.
  - change LP_ENCODING_12BIT_STR with (Z.shiftl 14 4).
    rewrite Z.shiftr_div_pow2, Z.lor_comm, lor_shiftl_add, u8_mod, land_255 by zdiv.
    f_equal. zdiv.
  - rewrite (le_bytes_shift 4 (zlen s) (zlen s)) by done. cbn [seq fmap list_fmap app].
    by rewrite !land_255.
Qed.

Lemma str_ent_ok s : zlen s < 2 ^ 32 - 5 -> Forall is_byte s ->
  ent_ok (str_ent s) /\ ent_value (str_ent s) = EStr s.
Proof. unfold str_ent. intros Hs Hb. repeat case_match; cbn; (split; [split; [lia|done]|done]). Qed.

Lemma string_to_int64_eq s : lpStringToInt64 s = string2ll s.
Proof. done. Qed.

Lemma encode_get_type s :
  zlen s < 2 ^ 32 - 5 ->
  match lpEncodeGetType s with
  | LP_ENCODING_INT intenc => intenc = ent_bytes (ele_ent s)
  | LP_ENCODING_STRING enclen =>
      enclen = zlen (ent_bytes (ele_ent s)) /\ lpEncodeString s = ent_bytes (ele_ent s)
  end.
Proof.
  intros Hs. unfold lpEncodeGetType, ele_ent. rewrite string_to_int64_eq.
  destruct (string2ll s) as [v|] eqn:E.
  - apply encode_integer. by apply string2ll_sound in E as [? _].
  - split; [|apply encode_string; lia]. unfold str_ent, ent_bytes.
    repeat case_match; cbn [ent_head ent_data length app]; rewrite ?length_app, ?length_le_bytes; lia.
Qed.

(** The value a string element reads back as: integers are normalised. *)
Definition ele_value (s : list Z) : lp_value :=
  match string2ll s with Some v => EInt v | None => EStr s end.

Lemma ele_ent_ok s : zlen s < 2 ^ 32 - 5 -> Forall is_byte s ->
  ent_ok (ele_ent s) /\ ent_value (ele_ent s) = ele_value s.
Proof.
  intros Hs Hb. unfold ele_ent, ele_value. destruct (string2ll s) as [v|] eqn:E.
  - apply int_ent_ok. by apply string2ll_sound in E as [? _].
  - by apply str_ent_ok.
Qed.

(** ** Back lengths *)

Lemma seven_bits l n : 0 <= n -> Z.lor (Z.land (Z.shiftr l n) 127) 128 = 128 + l / 2 ^ n mod 128.
Proof.
  intros Hn. rewrite land_127, Z.shiftr_div_pow2, Z.lor_comm by done.
  change 128 with (Z.shiftl 1 7) at 1. rewrite lor_shiftl_add by zdiv. lia.
Qed.

Lemma encode_backlen l : 0 <= l < 2 ^ 35 ->
  lpEncodeBacklen l =
  if l <=? 127 then [l]
  else if l <? 16383 then [l / 128; 128 + l mod 128]
  else if l <? 2097151 then [l / 2 ^ 14; 128 + l / 128 mod 128; 128 + l mod 128]
  else if l <? 268435455 then
    [l / 2 ^ 21; 128 + l / 2 ^ 14 mod 128; 128 + l / 128 mod 128; 128 + l mod 128]
  else [l / 2 ^ 28; 128 + l / 2 ^ 21 mod 128; 128 + l / 2 ^ 14 mod 128;
        128 + l / 128 mod 128; 128 + l mod 128].
Proof.
  intros Hl. unfold lpEncodeBacklen. rewrite !seven_bits by lia. rewrite !u8_mod.
  rewrite !Z.shiftr_div_pow2 by lia. change (2 ^ 0) with 1. rewrite !Z.div_1_r.
  change (2 ^ 7) with 128.
  repeat case_match; f_equal; apply Z.mod_small; zdiv.
Qed.

Lemma encode_backlen_length l : zlen (lpEncodeBacklen l) = lpEncodeBacklenBytes l.
Proof. unfold lpEncodeBacklen, lpEncodeBacklenBytes. by repeat case_match. Qed.

Lemma encode_backlen_byte l : 0 <= l < 2 ^ 35 -> Forall is_byte (lpEncodeBacklen l).
Proof.
  intros Hl. rewrite encode_backlen by done. unfold is_byte.
  repeat case_match; repeat (apply Forall_cons; split; [zdiv|]); apply Forall_nil_2.
Qed.

Lemma backlen_bytes_range l : 1 <= lpEncodeBacklenBytes l <= 5.
Proof. unfold lpEncodeBacklenBytes. repeat case_match; lia. Qed.

Lemma mem_get_at a e b p i x :
  p = zlen a + i -> 0 <= i -> e !! Z.to_nat i = Some x -> mem_get (a ++ e ++ b) p = Ok x.
Proof.
  intros -> Hi Hx. rewrite mem_get_shift.
  - by apply mem_get_lookup.
  - apply lookup_lt_Some in Hx. lia.
Qed.

Lemma land_127_hi x : 0 <= x < 128 -> Z.land (128 + x) 127 = x.
Proof. intros. rewrite land_127. zdiv. Qed.

(** One step of the decoder: the byte at [i] of the encoding has its top bit set,
    or clear. *)
Ltac backlen_get a l b i :=
  match goal with
  | |- mbind _ (mem_get _ ?p) = _ => erewrite (mem_get_at a l b p i); [|lia|lia|reflexivity]
  end; rs;
  rewrite land_128 by (unfold is_byte; zdiv);
  match goal with
  | |- context [if ?c then _ else _] =>
      first [replace c with false by zdiv | replace c with true by zdiv]
  end.

Lemma decode_backlen a l b :
  0 <= l < 2 ^ 35 ->
  lpDecodeBacklen (a ++ lpEncodeBacklen l ++ b) (zlen a + lpEncodeBacklenBytes l - 1) = Ok l.
Proof.
  intros Hl. rewrite encode_backlen by done. unfold lpDecodeBacklen, lpEncodeBacklenBytes.
  assert (forall k, 0 <= l / 2 ^ k mod 128 < 128) as Hm by (intros; apply Z.mod_pos_bound; lia).
  destruct (l <=? 127) eqn:E1; [|destruct (l <? 16383) eqn:E2;
    [|destruct (l <? 2097151) eqn:E3; [|destruct (l <? 268435455) eqn:E4]]].
  - backlen_get a [l] b 0. rewrite land_127. f_equal. zdiv.
  - set (bs := [l / 128; 128 + l mod 128]).
    backlen_get a bs b 1. backlen_get a bs b 0.
    rewrite land_127_hi, land_127, lor_add_shiftl by zdiv. f_equal. zdiv.
  - set (bs := [l / 2 ^ 14; 128 + l / 128 mod 128; 128 + l mod 128]).
    backlen_get a bs b 2. backlen_get a bs b 1. backlen_get a bs b 0.
    rewrite !land_127_hi, land_127, (lor_add_shiftl _ 7), (lor_add_shiftl _ 14) by zdiv.
    f_equal. zdiv.
  - set (bs := [l / 2 ^ 21; 128 + l / 2 ^ 14 mod 128; 128 + l / 128 mod 128; 128 + l mod 128]).
    backlen_get a bs b 3. backlen_get a bs b 2. backlen_get a bs b 1. backlen_get a bs b 0.
    rewrite !land_127_hi, land_127, (lor_add_shiftl _ 7), (lor_add_shiftl _ 14), (lor_add_shiftl _ 21) by zdiv.
    f_equal. zdiv.
  - set (bs := [l / 2 ^ 28; 128 + l / 2 ^ 21 mod 128; 128 + l / 2 ^ 14 mod 128;
        128 + l / 128 mod 128; 128 + l mod 128]).
    backlen_get a bs b 4. backlen_get a bs b 3. backlen_get a bs b 2. backlen_get a bs b 1.
    backlen_get a bs b 0.
    rewrite !land_127_hi, land_127, (lor_add_shiftl _ 7), (lor_add_shiftl _ 14), (lor_add_shiftl _ 21), (lor_add_shiftl _ 28) by zdiv.
    f_equal. zdiv.
Qed.

(** ** Round trips *)

(** The string of a string entry lies after its head. *)
Lemma ent_string_read a e b s :
  ent_value e = EStr s ->
  mem_read (a ++ ent_bytes e ++ b) (zlen a + zlen (ent_head e)) (zlen s) = Ok s.
Proof.
  intros Hv. assert (ent_data e = s) as <- by (destruct e; cbn in *; congruence).
  unfold ent_bytes. rewrite <- app_assoc, app_assoc.
  apply mem_read_app; [rewrite length_app; lia|done].
Qed.

(** every 64-bit integer written by [lpEncodeIntegerGetType], in the encoding
    it chooses, is read back by [lpGet] wherever the bytes lie, takes at most 9
    bytes, and its size is the one [lpCurrentEncodedSizeUnsafe] finds. *)
Theorem lpEncodeInteger_roundtrip v a b :
  is_i64 v ->
  let m := a ++ lpEncodeIntegerGetType v ++ b in
  lpGet m (zlen a) None = Ok (RNull v) /\
  lpCurrentEncodedSizeUnsafe m (zlen a) = Ok (zlen (lpEncodeIntegerGetType v)) /\
  zlen (lpEncodeIntegerGetType v) <= 9.
Proof.
  intros Hv m. unfold m. rewrite encode_integer by done.
  destruct (int_ent_ok v Hv) as [Hok Hval]. split; [|split].
  - unfold lpGet. rewrite get_with_buf_ok by done. unfold ent_ret. by rewrite Hval.
  - by apply size_unsafe_ok.
  - unfold int_ent, ent_bytes. repeat case_match; cbn [ent_head ent_data];
      rewrite length_app, ?length_le_bytes; cbn; lia.
Qed.

Lemma lpEncodeInteger_roundtrip_witness :
  lpGet ([7; 7] ++ lpEncodeIntegerGetType (-40000) ++ [255]) 2 None = Ok (RNull (-40000)).
Proof.
  apply (lpEncodeInteger_roundtrip (-40000) [7; 7] [255]). unfold is_i64. lia.
Defined.

(** a string written by [lpEncodeString] is returned by [lpGet] as a pointer
    to the same characters, for each of its three length encodings. *)
Theorem lpEncodeString_roundtrip s a b :
  zlen s < 2 ^ 32 - 5 -> Forall is_byte s ->
  let m := a ++ lpEncodeString s ++ b in
  exists ptr,
    lpGet m (zlen a) None = Ok (RPtr ptr (zlen s)) /\
    mem_read m ptr (zlen s) = Ok s /\
    lpCurrentEncodedSizeUnsafe m (zlen a) = Ok (zlen (lpEncodeString s)).
Proof.
  intros Hs Hb m. unfold m. rewrite encode_string by lia.
  destruct (str_ent_ok s Hs Hb) as [Hok Hval].
  exists (zlen a + zlen (ent_head (str_ent s))). split; [|split].
  - unfold lpGet. rewrite get_with_buf_ok by done. unfold ent_ret. by rewrite Hval.
  - by apply ent_string_read.
  - by apply size_unsafe_ok.
Qed.

Lemma lpEncodeString_roundtrip_witness :
  exists ptr, lpGet ([1] ++ lpEncodeString (replicate 100 65) ++ []) 1 None = Ok (RPtr ptr 100) /\
    mem_read ([1] ++ lpEncodeString (replicate 100 65) ++ []) ptr 100 = Ok (replicate 100 65).
Proof.
  destruct (lpEncodeString_roundtrip (replicate 100 65) [1] []) as (ptr & H1 & H2 & _).
  - vm_compute. reflexivity.
  - by apply Forall_replicate.
  - exists ptr. split; [exact H1|exact H2].
Defined.

(** the back length that [lpEncodeBacklen] writes after an entry is decoded
    from its last byte, and takes the number of bytes [lpEncodeBacklenBytes]
    computes. *)
Theorem lpEncodeBacklen_roundtrip l a b :
  0 <= l < 2 ^ 35 ->
  let m := a ++ lpEncodeBacklen l ++ b in
  zlen (lpEncodeBacklen l) = lpEncodeBacklenBytes l /\
  lpDecodeBacklen m (zlen a + lpEncodeBacklenBytes l - 1) = Ok l.
Proof. intros Hl m. split; [apply encode_backlen_length|by apply decode_backlen]. Qed.

Lemma lpEncodeBacklen_roundtrip_witness :
  lpDecodeBacklen ([9] ++ lpEncodeBacklen 20000 ++ [255]) 3 = Ok 20000.
Proof. apply (lpEncodeBacklen_roundtrip 20000 [9] [255]). lia. Defined.
