(* ===== verification/LpNav.v ===== *)
(** Traversal, lookup and validation of listpacks: [listpack.c].

    A pointer is the offset of the byte it points to; [None] is the null
    pointer.  [lp_image] is the layout of a listpack that holds given entries;
    the theorems say what each operation does on such an image, and which byte
    strings the validation accepts. *)

From S2P Require Import Prelude Numstr Listpack.

(** ** Moving between entries *)

Definition lpSkip (m : list Z) (p : Z) : res Z :=
  entrylen ← lpCurrentEncodedSizeUnsafe m p;
  Ok (p + (entrylen + lpEncodeBacklenBytes entrylen)).

(** [None]: 0 is returned.  [Some pp']: 1 is returned and [*pp = pp']. *)
Definition lpValidateNext (lp : list Z) (pp : option Z) (lpbytes : Z) : res (option (option Z)) :=
  let OUT_OF_RANGE (p : Z) := (p <? LP_HDR_SIZE) || (p >? lpbytes - 1) in
  match pp with
  | None => Ok None
  | Some p =>
      if OUT_OF_RANGE p then Ok None else
      b ← mem_get lp p;
      if b =? LP_EOF then Ok (Some None) else
      let lenbytes := lpCurrentEncodedSizeBytes b in
      if lenbytes =? 0 then Ok None else
      if OUT_OF_RANGE (p + lenbytes) then Ok None else
      entrylen ← lpCurrentEncodedSizeUnsafe lp p;
      let encodedBacklen := lpEncodeBacklenBytes entrylen in
      let entrylen := entrylen + encodedBacklen in
      if OUT_OF_RANGE (p + entrylen) then Ok None else
      let p := p + entrylen in
      prevlen ← lpDecodeBacklen lp (p - 1);
      if negb (u64 (prevlen + encodedBacklen) =? entrylen) then Ok None
      else Ok (Some (Some p))
  end.

Definition lpAssertValidEntry (lp : list Z) (lpbytes p : Z) : res unit :=
  v ← lpValidateNext lp (Some p) lpbytes;
  assert_ (match v with Some _ => true | None => false end).

Definition lpNextWithBytes (lp : list Z) (p lpbytes : Z) : res (option Z) :=
  p ← lpSkip lp p;
  b ← mem_get lp p;
  if b =? LP_EOF then Ok None
  else _ ← lpAssertValidEntry lp lpbytes p; Ok (Some p).

Definition lpNext (lp : list Z) (p : Z) : res (option Z) :=
  p ← lpSkip lp p;
  b ← mem_get lp p;
  if b =? LP_EOF then Ok None
  else bytes ← lpBytes lp; _ ← lpAssertValidEntry lp bytes p; Ok (Some p).

Definition lpPrev (lp : list Z) (p : Z) : res (option Z) :=
  if p =? LP_HDR_SIZE then Ok None else
  let p := p - 1 in
  prevlen ← lpDecodeBacklen lp p;
  let prevlen := u64 (prevlen + lpEncodeBacklenBytes prevlen) in
  let p := p - (prevlen - 1) in
  bytes ← lpBytes lp; _ ← lpAssertValidEntry lp bytes p; Ok (Some p).

Definition lpFirst (lp : list Z) : res (option Z) :=
  let p := LP_HDR_SIZE in
  b ← mem_get lp p;
  if b =? LP_EOF then Ok None
  else bytes ← lpBytes lp; _ ← lpAssertValidEntry lp bytes p; Ok (Some p).

Definition lpLast (lp : list Z) : res (option Z) :=
  total ← lpGetTotalBytes lp; lpPrev lp (total - 1).

(** [while(p)]: the loop visits every entry, so its fuel is the number of
    bytes. *)
Fixpoint lpLength_loop (fuel : nat) (lp : list Z) (p : option Z) (count : Z) : res Z :=
  match p with
  | None => Ok count
  | Some p =>
      match fuel with
      | O => Fault OutOfFuel
      | S fuel => p ← lpNext lp p; lpLength_loop fuel lp p (u32 (count + 1))
      end
  end.

(** The count and the listpack, whose header may be updated *)
Definition lpLength (lp : list Z) : res (Z * list Z) :=
  numele ← lpGetNumElements lp;
  if negb (numele =? LP_HDR_NUMELE_UNKNOWN) then Ok (numele, lp)
  else
    p ← lpFirst lp;
    count ← lpLength_loop (length lp) lp p 0;
    lp ← (if count <? LP_HDR_NUMELE_UNKNOWN then lpSetNumElements lp count else Ok lp);
    Ok (count, lp).

(** [while (index > 0 && ele)] and [while (index < -1 && ele)] *)
Fixpoint lpSeek_forward (fuel : nat) (lp : list Z) (index : Z) (ele : option Z) : res (option Z) :=
  match ele with
  | Some p =>
      if index >? 0 then
        match fuel with
        | O => Fault OutOfFuel
        | S fuel => ele ← lpNext lp p; lpSeek_forward fuel lp (index - 1) ele
        end
      else Ok ele
  | None => Ok ele
  end.
Fixpoint lpSeek_backward (fuel : nat) (lp : list Z) (index : Z) (ele : option Z) : res (option Z) :=
  match ele with
  | Some p =>
      if index <? -1 then
        match fuel with
        | O => Fault OutOfFuel
        | S fuel => ele ← lpPrev lp p; lpSeek_backward fuel lp (index + 1) ele
        end
      else Ok ele
  | None => Ok ele
  end.

Definition lpSeek (lp : list Z) (index : Z) : res (option Z) :=
  numele ← lpGetNumElements lp;
  let go (forward : bool) (index : Z) : res (option Z) :=
    if forward then ele ← lpFirst lp; lpSeek_forward (length lp) lp index ele
    else ele ← lpLast lp; lpSeek_backward (length lp) lp index ele in
  if negb (numele =? LP_HDR_NUMELE_UNKNOWN) then
    let index := if index <? 0 then numele + index else index in
    if index <? 0 then Ok None
    else if index >=? numele then Ok None
    else if index >? numele / 2 then go false (index - numele)
    else go true index
  else go (negb (index <? 0)) index.

(** ** Validation *)

Definition lpValidateFirst (lp : list Z) : res (option Z) :=
  let p := LP_HDR_SIZE in
  b ← mem_get lp p;
  if b =? LP_EOF then Ok None else Ok (Some p).

(** The loop of [lpValidateIntegrity].  The caller's callback threads a state of
    type [S] and returns [None] for 0; a null callback is [fun s _ _ => Some s].
    The result is the final pointer and count, or [None] when the loop returns
    0. *)
Fixpoint lpValidateIntegrity_loop {S : Type} (fuel : nat) (lp : list Z) (bytes numele : Z)
    (entry_cb : S -> Z -> Z -> option S) (cb_userdata : S) (p : option Z) (count : Z) :
    res (option (option Z * Z)) :=
  match p with
  | None => Ok (Some (p, count))
  | Some q =>
      b ← mem_get lp q;
      if b =? LP_EOF then Ok (Some (p, count))
      else
        match fuel with
        | O => Fault OutOfFuel
        | Datatypes.S fuel =>
            v ← lpValidateNext lp p bytes;
            match v with
            | None => Ok None
            | Some p =>
                match entry_cb cb_userdata q numele with
                | None => Ok None
                | Some cb_userdata =>
                    lpValidateIntegrity_loop fuel lp bytes numele entry_cb cb_userdata p
                      (u32 (count + 1))
                end
            end
        end
  end.

Definition lpValidateIntegrity {S : Type} (lp : list Z) (size : Z) (deep : bool)
    (entry_cb : S -> Z -> Z -> option S) (cb_userdata : S) : res bool :=
  if size <? LP_HDR_SIZE + 1 then Ok false else
  bytes ← lpGetTotalBytes lp;
  if negb (bytes =? size) then Ok false else
  last ← mem_get lp (size - 1);
  if negb (last =? LP_EOF) then Ok false else
  if negb deep then Ok true else
  numele ← lpGetNumElements lp;
  r ← lpValidateIntegrity_loop (length lp) lp bytes numele entry_cb cb_userdata (Some LP_HDR_SIZE) 0;
  match r with
  | None => Ok false
  | Some (p, count) =>
      if negb (bool_decide (p = Some (size - 1))) then Ok false
      else if negb (numele =? LP_HDR_NUMELE_UNKNOWN) && negb (numele =? count) then Ok false
      else Ok true
  end.

(** ** Layout of a listpack *)

Definition lp_entry (e : lpent) : list Z := ent_bytes e ++ lpEncodeBacklen (zlen (ent_bytes e)).
Definition lp_body (es : list lpent) : list Z := mjoin (lp_entry <$> es).
Definition lp_total (es : list lpent) : Z := LP_HDR_SIZE + zlen (lp_body es) + 1.
Definition lp_hdr (total num : Z) : list Z := le_bytes 4 total ++ le_bytes 2 num.

(** [slack] are the bytes of the allocation past the end. *)
Definition lp_image (num : Z) (es : list lpent) (slack : list Z) : list Z :=
  lp_hdr (lp_total es) num ++ lp_body es ++ LP_EOF :: slack.

(** The element count of the header is right, or unknown. *)
Definition lp_wf (num : Z) (es : list lpent) : Prop :=
  Forall ent_ok es /\ lp_total es <= UINT32_MAX /\
  (num = LP_HDR_NUMELE_UNKNOWN \/ num = zlen es /\ num < LP_HDR_NUMELE_UNKNOWN).

(** The memory [m] holds a listpack with the entries [es]. *)
Definition lp_rep (m : list Z) (es : list lpent) : Prop :=
  exists num slack, m = lp_image num es slack /\ lp_wf num es.

(** The offset after the entries [l] *)
Definition lp_off (l : list lpent) : Z := LP_HDR_SIZE + zlen (lp_body l).

Lemma lp_body_app l r : lp_body (l ++ r) = lp_body l ++ lp_body r.
Proof. unfold lp_body. by rewrite fmap_app, join_app. Qed.
Lemma lp_body_cons e r : lp_body (e :: r) = lp_entry e ++ lp_body r.
Proof. done. Qed.

Lemma lp_hdr_length total num : zlen (lp_hdr total num) = LP_HDR_SIZE.
Proof. unfold lp_hdr. by rewrite length_app, !length_le_bytes. Qed.

Lemma lp_entry_length e : zlen (lp_entry e) = ent_size e.
Proof. unfold lp_entry, ent_size. rewrite length_app, Nat2Z.inj_add, encode_backlen_length. done. Qed.

Lemma ent_size_range e : ent_ok e -> 2 <= ent_size e < 2 ^ 32 + 5.
Proof.
  intros H. apply ent_bytes_length in H. unfold ent_size.
  pose proof (backlen_bytes_range (zlen (ent_bytes e))). lia.
Qed.

Lemma lp_off_app l r : lp_off (l ++ r) = lp_off l + zlen (lp_body r).
Proof. unfold lp_off. rewrite lp_body_app, length_app. lia. Qed.
Lemma lp_off_snoc l e : lp_off (l ++ [e]) = lp_off l + ent_size e.
Proof. rewrite lp_off_app, lp_body_cons, length_app, Nat2Z.inj_add, lp_entry_length. cbn. lia. Qed.

Lemma lp_total_off es : lp_total es = lp_off es + 1.
Proof. done. Qed.

Lemma lp_off_le l r : lp_off l <= lp_off (l ++ r).
Proof. rewrite lp_off_app. lia. Qed.

(** Entries take at least two bytes. *)
Lemma lp_body_count es : Forall ent_ok es -> 2 * zlen es <= zlen (lp_body es).
Proof.
  induction 1 as [|e es He _ IH]; [done|]. rewrite lp_body_cons, length_app.
  pose proof (ent_size_range e He). pose proof (lp_entry_length e). cbn [length]. lia.
Qed.

(** The image around one entry *)
Lemma lp_image_split num l e r slack :
  lp_image num (l ++ e :: r) slack =
  (lp_hdr (lp_total (l ++ e :: r)) num ++ lp_body l) ++ ent_bytes e ++
  (lpEncodeBacklen (zlen (ent_bytes e)) ++ lp_body r ++ LP_EOF :: slack).
Proof.
  unfold lp_image. rewrite lp_body_app, lp_body_cons. unfold lp_entry. by rewrite <- !app_assoc.
Qed.

Lemma lp_prefix_length total num l : zlen (lp_hdr total num ++ lp_body l) = lp_off l.
Proof. rewrite length_app, Nat2Z.inj_add, lp_hdr_length. done. Qed.

Lemma lp_image_eof num es slack :
  lp_image num es slack = (lp_hdr (lp_total es) num ++ lp_body es) ++ LP_EOF :: slack.
Proof. unfold lp_image. by rewrite <- app_assoc. Qed.

Lemma lp_image_length num es slack : zlen (lp_image num es slack) = lp_total es + zlen slack.
Proof.
  rewrite lp_image_eof, length_app, Nat2Z.inj_add, lp_prefix_length, lp_total_off.
  cbn [length]. lia.
Qed.

Lemma get_total num es slack :
  lp_total es <= UINT32_MAX -> lpGetTotalBytes (lp_image num es slack) = Ok (lp_total es).
Proof.
  intros H. unfold lpGetTotalBytes, lp_image, lp_hdr. rewrite <- app_assoc.
  etransitivity; [apply (get_le_app [] (le_bytes 4 (lp_total es)));
    [done|done|apply le_bytes_byte]|].
  rewrite le_val_bytes, Z.mod_small; [done|]. unfold lp_total in *.
  change (256 ^ Z.of_nat 4) with (2 ^ 32). lia.
Qed.

Lemma get_num num es slack :
  0 <= num <= 65535 -> lpGetNumElements (lp_image num es slack) = Ok num.
Proof.
  intros H. unfold lpGetNumElements, lp_image, lp_hdr. rewrite <- app_assoc.
  rewrite (get_le_app (le_bytes 4 (lp_total es)) (le_bytes 2 num)) by (try done; apply le_bytes_byte).
  rewrite le_val_bytes, Z.mod_small; [done|].
  change (256 ^ Z.of_nat 2) with (2 ^ 16). lia.
Qed.

Lemma lp_wf_num num es : lp_wf num es -> 0 <= num <= 65535.
Proof. intros (_ & _ & [->|[-> ?]]); lia. Qed.

(** The pointer to the [i]-th entry, null past the end *)
Definition lp_ptr (es : list lpent) (i : nat) : option Z :=
  if decide (i < length es)%nat then Some (lp_off (take i es)) else None.

Lemma lp_ptr_some es i : (i < length es)%nat -> lp_ptr es i = Some (lp_off (take i es)).
Proof. intros. unfold lp_ptr. by rewrite decide_True. Qed.
Lemma lp_ptr_none es i : (length es <= i)%nat -> lp_ptr es i = None.
Proof. intros. unfold lp_ptr. rewrite decide_False by lia. done. Qed.

(** A list around its [i]-th element *)
Lemma split_at {A} (l : list A) i : (i < length l)%nat ->
  exists x, l = take i l ++ x :: drop (S i) l /\ take (S i) l = take i l ++ [x].
Proof.
  intros [x Hx]%lookup_lt_is_Some_2. exists x. split; [by rewrite take_drop_middle|].
  by apply take_S_r.
Qed.

(** ** Traversal of an image *)

Section nav.
Context (num : Z) (es : list lpent) (slack : list Z) (Hwf : lp_wf num es).
#[local] Abbreviation m := (lp_image num es slack).

Lemma nav_total : lpGetTotalBytes m = Ok (lp_total es).
Proof. apply get_total. apply Hwf. Qed.
Lemma nav_num : lpGetNumElements m = Ok num.
Proof. apply get_num. by eapply lp_wf_num. Qed.

Lemma nav_ent_ok l e r : es = l ++ e :: r -> ent_ok e.
Proof.
  intros E. destruct Hwf as [Hok _]. rewrite E in Hok.
  apply Forall_app in Hok as [_ Hok]. by apply Forall_cons_1 in Hok as [? _].
Qed.

Lemma nav_off_bound l r : es = l ++ r -> lp_off l < lp_total es.
Proof. intros ->. rewrite lp_total_off. pose proof (lp_off_le l r). lia. Qed.

(** The prefix before an entry, the entry, the rest *)
Lemma nav_split l e r : es = l ++ e :: r ->
  exists a b, m = a ++ ent_bytes e ++ lpEncodeBacklen (zlen (ent_bytes e)) ++ b /\ zlen a = lp_off l.
Proof.
  intros E. eexists (lp_hdr (lp_total es) num ++ lp_body l), _. split; [|apply lp_prefix_length].
  rewrite E. apply lp_image_split.
Qed.

Lemma nav_size l e r : es = l ++ e :: r ->
  lpCurrentEncodedSizeUnsafe m (lp_off l) = Ok (zlen (ent_bytes e)).
Proof.
  intros E. destruct (nav_split l e r E) as (a & b & -> & <-).
  apply size_unsafe_ok. by eapply nav_ent_ok.
Qed.

Lemma nav_skip l e r : es = l ++ e :: r -> lpSkip m (lp_off l) = Ok (lp_off (l ++ [e])).
Proof.
  intros E. unfold lpSkip. rewrite (nav_size l e r E). rs. by rewrite lp_off_snoc.
Qed.

Lemma nav_eof : mem_get m (lp_off es) = Ok LP_EOF.
Proof. rewrite lp_image_eof. apply mem_get_app. by rewrite lp_prefix_length. Qed.

Lemma nav_first l e r : es = l ++ e :: r ->
  exists b, mem_get m (lp_off l) = Ok b /\ 0 <= b <= 244 /\
    lpCurrentEncodedSizeBytes b = zlen (ent_head e).
Proof.
  intros E. destruct (nav_split l e r E) as (a & b & -> & <-).
  pose proof (nav_ent_ok l e r E) as He.
  destruct (ent_bytes_first e He) as (x & y & Ex & Hx). exists x.
  split; [|split; [done|by eapply size_bytes_ok]].
  rewrite Ex. apply mem_get_here.
Qed.

Lemma nav_get l e r intbuf : es = l ++ e :: r ->
  lpGet m (lp_off l) intbuf = ent_ret (lp_off l) e intbuf.
Proof.
  intros E. destruct (nav_split l e r E) as (a & b & -> & <-).
  apply get_with_buf_ok. by eapply nav_ent_ok.
Qed.

Lemma nav_get_size l e r intbuf : es = l ++ e :: r ->
  lpGetWithSize m (lp_off l) intbuf = (x ← ent_ret (lp_off l) e intbuf; Ok (x, Some (ent_size e))).
Proof.
  intros E. destruct (nav_split l e r E) as (a & b & -> & <-).
  apply get_with_size_ok. by eapply nav_ent_ok.
Qed.

Lemma nav_backlen l e r : es = l ++ e :: r ->
  lpDecodeBacklen m (lp_off (l ++ [e]) - 1) = Ok (zlen (ent_bytes e)).
Proof.
  intros E. pose proof (nav_ent_ok l e r E) as He. pose proof (ent_bytes_length e He).
  destruct (nav_split l e r E) as (a & b & -> & Ha).
  rewrite lp_off_snoc, <- Ha. unfold ent_size. rewrite app_assoc.
  rewrite <- (decode_backlen (a ++ ent_bytes e) (zlen (ent_bytes e)) b) by lia.
  f_equal. rewrite length_app. lia.
Qed.

Lemma ent_head_size e : ent_ok e -> 1 <= zlen (ent_head e) <= zlen (ent_bytes e).
Proof.
  intros He. unfold ent_bytes. rewrite length_app.
  destruct e; cbn [ent_head length]; rewrite ?length_le_bytes; lia.
Qed.

Lemma nav_validate l e r : es = l ++ e :: r ->
  lpValidateNext m (Some (lp_off l)) (lp_total es) = Ok (Some (Some (lp_off (l ++ [e])))).
Proof.
  intros E. pose proof (nav_ent_ok l e r E) as He.
  pose proof (ent_size_range e He) as Hs. pose proof (ent_head_size e He) as Hh.
  pose proof (lp_off_snoc l e) as Hsn.
  assert (lp_off (l ++ [e]) < lp_total es) as Hb.
  { apply (nav_off_bound (l ++ [e]) r). by rewrite <- app_assoc. }
  assert (LP_HDR_SIZE <= lp_off l) as H6 by (unfold lp_off; lia).
  destruct (nav_first l e r E) as (x & Hx & Hr & Hsb).
  unfold ent_size in *. pose proof (ent_bytes_length e He).
  pose proof (backlen_bytes_range (zlen (ent_bytes e))).
  unfold lpValidateNext. rewrite Hx. replace (_ || _) with false by lia. rs.
  replace (x =? LP_EOF) with false by lia. rewrite Hsb.
  replace (zlen (ent_head e) =? 0) with false by lia. replace (_ || _) with false by lia.
  rewrite (nav_size l e r E). rs. rewrite <- Hsn. replace (_ || _) with false by lia.
  rewrite (nav_backlen l e r E). rs. rewrite u64_small by lia. by rewrite Z.eqb_refl.
Qed.

Lemma nav_assert l e r : es = l ++ e :: r ->
  lpAssertValidEntry m (lp_total es) (lp_off l) = Ok tt.
Proof. intros E. unfold lpAssertValidEntry. by rewrite (nav_validate l e r E). Qed.

Lemma nav_get_ptr i : (i <= length es)%nat ->
  exists b, mem_get m (lp_off (take i es)) = Ok b /\ (b = LP_EOF <-> i = length es).
Proof.
  intros Hi. destruct (decide (i = length es)) as [->|Hne].
  - rewrite take_ge by lia. exists LP_EOF. split; [apply nav_eof|done].
  - destruct (split_at es i) as (e & E & _); [lia|].
    destruct (nav_first _ e _ E) as (b & Hb & Hr & _). exists b. split; [done|lia].
Qed.

(** The pointer to the [i]-th entry, or null at the end: how [lpNext] and
    [lpFirst] finish *)
Lemma nav_check (i : nat) : (i <= length es)%nat ->
  (b ← mem_get m (lp_off (take i es));
   if b =? LP_EOF then Ok None
   else bytes ← lpBytes m; _ ← lpAssertValidEntry m bytes (lp_off (take i es));
        Ok (Some (lp_off (take i es)))) = Ok (lp_ptr es i).
Proof.
  intros Hi. destruct (nav_get_ptr i Hi) as (b & -> & Hb). rs.
  destruct (decide (i = length es)) as [Hl|Hl].
  - rewrite (proj2 Hb Hl). by rewrite lp_ptr_none by lia.
  - replace (b =? LP_EOF) with false by lia. unfold lpBytes. rewrite nav_total. rs.
    destruct (split_at es i) as (e & E & _); [lia|].
    rewrite (nav_assert _ e _ E). rs. by rewrite lp_ptr_some by lia.
Qed.

Lemma nav_next i : (i < length es)%nat -> lpNext m (lp_off (take i es)) = Ok (lp_ptr es (S i)).
Proof.
  intros Hi. unfold lpNext. destruct (split_at es i Hi) as (e & E & E').
  rewrite (nav_skip _ e _ E). rs. rewrite <- E'. apply nav_check. lia.
Qed.

Lemma nav_next_bytes i : (i < length es)%nat ->
  lpNextWithBytes m (lp_off (take i es)) (lp_total es) = Ok (lp_ptr es (S i)).
Proof.
  intros Hi. unfold lpNextWithBytes. destruct (split_at es i Hi) as (e & E & E').
  rewrite (nav_skip _ e _ E). rs. rewrite <- E', <- nav_check by lia.
  unfold lpBytes. rewrite nav_total. done.
Qed.

Lemma nav_lpFirst : lpFirst m = Ok (lp_ptr es 0).
Proof. exact (nav_check 0 ltac:(lia)). Qed.

Lemma nav_prev i : (i < length es)%nat ->
  lpPrev m (lp_off (take (S i) es)) = Ok (lp_ptr es i).
Proof.
  intros Hi. unfold lpPrev. destruct (split_at es i Hi) as (e & E & E').
  pose proof (nav_ent_ok _ e _ E) as He. pose proof (ent_size_range e He).
  rewrite E'. pose proof (lp_off_snoc (take i es) e) as Hsn.
  assert (LP_HDR_SIZE <= lp_off (take i es)) by (unfold lp_off; lia).
  replace (_ =? LP_HDR_SIZE) with false by lia.
  rewrite (nav_backlen _ e _ E). rs. fold (ent_size e). rewrite u64_small by lia.
  unfold lpBytes. rewrite nav_total. rs.
  replace (lp_off (take i es ++ [e]) - 1 - (ent_size e - 1)) with (lp_off (take i es)) by lia.
  rewrite (nav_assert _ e _ E). rs. by rewrite lp_ptr_some by lia.
Qed.

Lemma nav_prev_first : lpPrev m (lp_off (take 0 es)) = Ok None.
Proof. done. Qed.

Lemma nav_lpLast : lpLast m = Ok (if decide (es = []) then None else lp_ptr es (length es - 1)).
Proof.
  unfold lpLast. rewrite nav_total. rs. rewrite lp_total_off, Z.add_simpl_r.
  destruct (decide (es = [])) as [->|Hne]; [done|].
  rewrite <- nav_prev by (destruct es; [done|cbn; lia]).
  rewrite take_ge by lia. done.
Qed.

(** ** Length and positions *)

Lemma nav_length_bytes : (length es <= length m)%nat.
Proof.
  pose proof (lp_image_length num es slack) as H. unfold lp_total in H.
  pose proof (lp_body_count es (proj1 Hwf)). lia.
Qed.

Lemma length_loop_ok fuel i count :
  (i <= length es)%nat -> (length es - i <= fuel)%nat -> 0 <= count ->
  count + zlen es - Z.of_nat i <= UINT32_MAX ->
  lpLength_loop fuel m (lp_ptr es i) count = Ok (count + zlen es - Z.of_nat i).
Proof.
  revert i count. induction fuel as [|fuel IH]; intros i count Hi Hf Hc Hm.
  - rewrite lp_ptr_none by lia. cbn. f_equal. lia.
  - destruct (decide (i = length es)) as [->|Hne].
    { rewrite lp_ptr_none by lia. cbn. f_equal. lia. }
    rewrite lp_ptr_some by lia. cbn [lpLength_loop]. rewrite nav_next by lia. rs.
    rewrite u32_small by lia. rewrite IH by lia. f_equal. lia.
Qed.

Lemma seek_forward_ok fuel i k :
  (i <= length es)%nat -> (length es - i <= fuel)%nat ->
  lpSeek_forward fuel m (Z.of_nat k) (lp_ptr es i) = Ok (lp_ptr es (i + k)).
Proof.
  revert i k. induction fuel as [|fuel IH]; intros i k Hi Hf.
  - rewrite !lp_ptr_none by lia. done.
  - destruct (decide (i = length es)) as [->|Hne]; [by rewrite !lp_ptr_none by lia|].
    rewrite lp_ptr_some by lia. cbn [lpSeek_forward]. destruct k as [|k].
    { rewrite Nat.add_0_r, lp_ptr_some by lia. done. }
    replace (Z.of_nat (S k) >? 0) with true by lia. rewrite nav_next by lia. rs.
    replace (Z.of_nat (S k) - 1) with (Z.of_nat k) by lia. rewrite IH by lia. do 2 f_equal. lia.
Qed.

(** [k] steps to the left of the [i]-th entry *)
Lemma seek_backward_ok fuel i k :
  (i < length es)%nat -> (i < fuel)%nat ->
  lpSeek_backward fuel m (- 1 - Z.of_nat k) (lp_ptr es i) =
    Ok (if decide (k <= i)%nat then lp_ptr es (i - k) else None).
Proof.
  revert i k. induction fuel as [|fuel IH]; intros i k Hi Hf; [lia|].
  rewrite lp_ptr_some by lia. cbn [lpSeek_backward]. destruct k as [|k].
  { rewrite decide_True, Nat.sub_0_r, lp_ptr_some by lia. done. }
  replace (- 1 - Z.of_nat (S k) <? -1) with true by lia.
  destruct i as [|i].
  - rewrite nav_prev_first. rs. rewrite decide_False by lia. by destruct fuel.
  - rewrite nav_prev by lia. rs. replace (- 1 - Z.of_nat (S k) + 1) with (- 1 - Z.of_nat k) by lia.
    rewrite IH by lia. by destruct (decide (k <= i)%nat), (decide (S k <= S i)%nat); try lia.
Qed.
End nav.

(** ** Header updates *)

Lemma set_num_hdr total num v r :
  lpSetNumElements (lp_hdr total num ++ r) v = Ok (lp_hdr total v ++ r).
Proof.
  unfold lpSetNumElements, lp_hdr. rewrite <- !app_assoc.
  rewrite (mem_write_app (le_bytes 4 total) (le_bytes 2 num) _ r 4) by done.
  rewrite (le_bytes_shift 2 v v) by done. by rewrite !land_255.
Qed.
Lemma set_total_hdr total num v r :
  lpSetTotalBytes (lp_hdr total num ++ r) v = Ok (lp_hdr v num ++ r).
Proof.
  unfold lpSetTotalBytes, lp_hdr. rewrite <- !app_assoc.
  etransitivity; [apply (mem_write_app [] (le_bytes 4 total) _ (le_bytes 2 num ++ r) 0); done|].
  rewrite (le_bytes_shift 4 v v) by done. by rewrite !land_255.
Qed.

(** ** Theorems on traversal *)

(** C37: on a listpack that holds [es], [lpFirst] and [lpNext] visit the entries in
    order and [lpLast] and [lpPrev] in the opposite order, with null exactly at
    the ends and no failed assertion, and [lpGet] returns the value of the entry. *)
Theorem lp_traversal m es :
  lp_rep m es ->
  lpFirst m = Ok (lp_ptr es 0) /\
  lpLast m = Ok (if decide (es = []) then None else lp_ptr es (length es - 1)) /\
  (forall i e, es !! i = Some e ->
     exists p, lp_ptr es i = Some p /\
       lpNext m p = Ok (lp_ptr es (S i)) /\
       lpPrev m p = Ok (if decide (i = O) then None else lp_ptr es (i - 1)) /\
       lpGet m p None = ent_ret p e None /\
       (forall s, ent_value e = EStr s -> mem_read m (p + zlen (ent_head e)) (zlen s) = Ok s)).
Proof.
  intros (num & slack & -> & Hwf). split; [by apply nav_lpFirst|]. split; [by apply nav_lpLast|].
  intros i e He. pose proof (lookup_lt_Some _ _ _ He) as Hi.
  exists (lp_off (take i es)). split; [by apply lp_ptr_some|].
  assert (es = take i es ++ e :: drop (S i) es) as E by by rewrite take_drop_middle.
  split; [by apply nav_next|]. split; [|split].
  - destruct i as [|i]; [by rewrite nav_prev_first|]. rewrite nav_prev by (done || lia).
    rewrite decide_False by lia. do 2 f_equal. lia.
  - by eapply nav_get.
  - intros s Hs. destruct (nav_split num es slack _ e _ E) as (a & b & -> & <-).
    by apply ent_string_read.
Qed.

(** Where an index of [lpSeek] points *)
Definition seek_index (n index : Z) : Z := if index <? 0 then n + index else index.

Lemma seek_ok m es index :
  lp_rep m es ->
  let i := seek_index (zlen es) index in
  lpSeek m index = Ok (if (0 <=? i) && (i <? zlen es) then lp_ptr es (Z.to_nat i) else None).
Proof.
  intros (num & slack & -> & Hwf). unfold seek_index. cbv zeta.
  pose proof (nav_length_bytes num es slack Hwf) as Hlen.
  assert (forall k, 0 <= k ->
    (ele ← lpFirst (lp_image num es slack);
     lpSeek_forward (length (lp_image num es slack)) (lp_image num es slack) k ele) =
    Ok (lp_ptr es (Z.to_nat k))) as Hf.
  { intros k Hk. rewrite nav_lpFirst by done. rs. rewrite <- (Z2Nat.id k) at 1 by done.
    by rewrite seek_forward_ok by (done || lia). }
  assert (forall k, k < 0 ->
    (ele ← lpLast (lp_image num es slack);
     lpSeek_backward (length (lp_image num es slack)) (lp_image num es slack) k ele) =
    Ok (if 0 <=? zlen es + k then lp_ptr es (Z.to_nat (zlen es + k)) else None)) as Hb.
  { intros k Hk. rewrite nav_lpLast by done. rs. destruct (decide (es = [])) as [->|Hne].
    { replace (0 <=? zlen [] + k) with false by (cbn; lia). by destruct (length _). }
    assert (0 < length es)%nat by (destruct es; [done|cbn; lia]).
    replace k with (- 1 - Z.of_nat (Z.to_nat (- k - 1))) at 1 by lia.
    rewrite seek_backward_ok by (done || lia).
    destruct (decide _), (Z.leb_spec 0 (zlen es + k)); try lia; [|done].
    do 2 f_equal. lia. }
  unfold lpSeek. rewrite nav_num by done. rs.
  destruct Hwf as (_ & _ & [->|[-> Hn]]).
  - cbn [negb Z.eqb Pos.eqb]. destruct (Z.ltb_spec index 0); cbn [negb].
    + rewrite Hb by done. destruct (Z.leb_spec 0 (zlen es + index)); cbn; [|done].
      by replace (zlen es + index <? zlen es) with true by lia.
    + rewrite Hf by done. replace (0 <=? index) with true by lia. cbn.
      destruct (Z.ltb_spec index (zlen es)); [done|]. by rewrite lp_ptr_none by lia.
  - replace (zlen es =? LP_HDR_NUMELE_UNKNOWN) with false by lia. cbn [negb].
    set (i := if index <? 0 then zlen es + index else index).
    destruct (Z.ltb_spec i 0); [by replace (0 <=? i) with false by lia|].
    destruct (i >=? zlen es) eqn:?; [by replace (i <? zlen es) with false by lia; rewrite andb_false_r|].
    replace ((0 <=? i) && (i <? zlen es)) with true by lia.
    destruct (i >? zlen es / 2) eqn:?; [|by apply Hf].
    rewrite Hb by lia. replace (0 <=? zlen es + (i - zlen es)) with true by lia.
    do 3 f_equal. lia.
Qed.

(** [lpSeek], whichever end it scans from and whether or not the header
    knows the number of elements, returns the entry at the index, counted from
    the end for negative indexes, and null exactly when it is out of range. *)
Theorem lpSeek_spec m es index :
  lp_rep m es ->
  let i := seek_index (zlen es) index in
  lpSeek m index = Ok (if (0 <=? i) && (i <? zlen es) then lp_ptr es (Z.to_nat i) else None).
Proof. apply seek_ok. Qed.

Lemma length_ok num es slack :
  lp_wf num es ->
  exists num', lpLength (lp_image num es slack) = Ok (zlen es, lp_image num' es slack) /\ lp_wf num' es.
Proof.
  intros Hwf. unfold lpLength. rewrite nav_num by done. rs.
  destruct (Z.eqb_spec num LP_HDR_NUMELE_UNKNOWN) as [->|Hn]; cbn [negb].
  - rewrite nav_lpFirst by done. rs.
    pose proof (nav_length_bytes _ es slack Hwf) as Hlen.
    pose proof (lp_body_count es (proj1 Hwf)) as Hcnt.
    destruct Hwf as (Hok & Ht & Hnum). pose proof Ht as Ht'. unfold lp_total in Ht'.
    rewrite length_loop_ok by (done || lia). rs. rewrite Z.sub_0_r, Z.add_0_l.
    destruct (Z.ltb_spec (zlen es) LP_HDR_NUMELE_UNKNOWN).
    + unfold lp_image. rewrite set_num_hdr. rs. exists (zlen es). split; [done|].
      split; [done|]. split; [done|]. by right.
    + rs. exists LP_HDR_NUMELE_UNKNOWN. split; [done|]. split; [done|]. split; [done|]. by left.
  - exists num. split; [|done]. destruct Hwf as (_ & _ & [?|[-> _]]); done.
Qed.

(** [lpLength] returns the number of entries, from the header or by a scan,
    and at most caches the count in the header: the listpack still holds the
    same entries. *)
Theorem lpLength_spec m es :
  lp_rep m es -> exists m', lpLength m = Ok (zlen es, m') /\ lp_rep m' es /\ length m' = length m.
Proof.
  intros (num & slack & -> & Hwf). destruct (length_ok num es slack Hwf) as (num' & -> & Hwf').
  eexists. split; [done|]. split; [by exists num', slack|].
  pose proof (lp_image_length num es slack). pose proof (lp_image_length num' es slack). lia.
Qed.

(** A listpack with three entries and an unknown count, for the witnesses *)
Definition lp_ex_entries : list lpent := [int_ent 1000; str_ent (chars "hello"); int_ent 7].
Definition lp_ex : list Z := lp_image LP_HDR_NUMELE_UNKNOWN lp_ex_entries [1; 2].

Lemma lp_ex_rep : lp_rep lp_ex lp_ex_entries.
Proof.
  exists LP_HDR_NUMELE_UNKNOWN, [1; 2]. split; [done|]. split.
  - repeat constructor; cbn; try lia.
  - split; [vm_compute; done|by left].
Qed.

Lemma lp_traversal_witness : lpNext lp_ex 6 = Ok (Some 9) /\ lpPrev lp_ex 9 = Ok (Some 6).
Proof.
  destruct (lp_traversal lp_ex lp_ex_entries lp_ex_rep) as (_ & _ & H).
  destruct (H 0%nat (int_ent 1000) eq_refl) as (p & Hp & Hn & _).
  destruct (H 1%nat (str_ent (chars "hello")) eq_refl) as (q & Hq & _ & Hv & _).
  injection Hp as <-. injection Hq as <-. split; [exact Hn|exact Hv].
Defined.

Lemma lpSeek_spec_witness : lpSeek lp_ex (-2) = Ok (Some 9).
Proof. exact (lpSeek_spec lp_ex lp_ex_entries (-2) lp_ex_rep). Defined.

Lemma lpLength_spec_witness : exists m', lpLength lp_ex = Ok (3, m') /\ lp_rep m' lp_ex_entries.
Proof.
  destruct (lpLength_spec lp_ex lp_ex_entries lp_ex_rep) as (m' & H1 & H2 & _).
  by exists m'.
Defined.
