(* ===== verification/LpValid.v ===== *)
(** What the validation of [listpack.c] accepts.

    [lpValidateIntegrity] runs on untrusted bytes (RDB files, RESTORE).  The
    theorem says what it accepts and that this can be read.  The back length of an
    entry is decoded together with the bytes before it, so that the bytes of an
    accepted back length need not be the ones the encoder writes. *)

From S2P Require Import Prelude Numstr Listpack LpNav.

(** ** Parsing an entry from its size *)

Lemma mem_get_drop m p i : 0 <= p -> 0 <= i -> mem_get m (p + i) = mem_get (drop (Z.to_nat p) m) i.
Proof.
  intros Hp Hi. unfold mem_get. rewrite lookup_drop.
  replace (0 <=? p + i) with true by lia. replace (0 <=? i) with true by lia.
  by replace (Z.to_nat (p + i)) with (Z.to_nat p + Z.to_nat i)%nat by lia.
Qed.

Lemma get_le_drop m p i n : 0 <= p -> 0 <= i ->
  get_le m (p + i) n = get_le (drop (Z.to_nat p) m) i n.
Proof.
  intros Hp. revert i. induction n as [|n IH]; intros i Hi; [done|]. cbn [get_le].
  rewrite mem_get_drop by done. destruct (mem_get _ i); [|done]. rs.
  rewrite <- Z.add_assoc, IH by lia. done.
Qed.

Lemma size_drop m p : 0 <= p ->
  lpCurrentEncodedSizeUnsafe m p = lpCurrentEncodedSizeUnsafe (drop (Z.to_nat p) m) 0.
Proof.
  intros Hp. unfold lpCurrentEncodedSizeUnsafe, LP_ENCODING_6BIT_STR_LEN,
    LP_ENCODING_12BIT_STR_LEN, LP_ENCODING_32BIT_STR_LEN.
  rewrite get_le_drop, (mem_get_drop m p 1) by lia.
  pose proof (mem_get_drop m p 0 Hp ltac:(lia)) as H. rewrite Z.add_0_r in H. by rewrite H.
Qed.

Lemma signed_exists k u : 0 < k -> 0 <= u < 2 ^ k ->
  exists v, - 2 ^ (k - 1) <= v < 2 ^ (k - 1) /\ v mod 2 ^ k = u.
Proof.
  intros Hk Hu. exists (wraps k u). split; [by apply wraps_range|].
  rewrite wraps_mod by done. by apply Z.mod_small.
Qed.

Lemma parse_int k bs :
  Forall is_byte bs -> length bs = k -> (0 < k)%nat ->
  exists v, - 2 ^ (8 * Z.of_nat k - 1) <= v < 2 ^ (8 * Z.of_nat k - 1) /\ le_bytes k v = bs.
Proof.
  intros Hb <- Hk. pose proof (le_val_range bs Hb) as Hr.
  assert (256 ^ zlen bs = 2 ^ (8 * zlen bs)) as E
    by (change 256 with (2 ^ 8); by rewrite <- Z.pow_mul_r by lia).
  destruct (signed_exists (8 * zlen bs) (le_val bs)) as (v & Hv & Hm); [lia|lia|].
  exists v. split; [done|]. rewrite (le_bytes_mod (length bs) v (le_val bs)).
  - by apply le_bytes_val.
  - rewrite E, Hm, Z.mod_small by lia. done.
Qed.

(** The entry whose bytes are the first [n] of [d] *)
Definition parses (d : list Z) (n : Z) : Prop :=
  exists e, ent_ok e /\ ent_bytes e = take (Z.to_nat n) d.

Lemma parse_s6 b t : 128 <= b < 192 -> Forall is_byte t -> b - 128 <= zlen t ->
  parses (b :: t) (1 + (b - 128)).
Proof.
  intros Hb Ht Hl. exists (S6 (take (Z.to_nat (b - 128)) t)). unfold ent_bytes.
  cbn [ent_ok ent_head ent_data app]. rewrite length_take.
  split; [split; [lia|by apply Forall_take]|].
  replace (Z.to_nat (1 + (b - 128))) with (S (Z.to_nat (b - 128))) by lia. cbn [take]. f_equal. lia.
Qed.

Lemma parse_i13 b c t : 192 <= b < 224 -> is_byte c -> parses (b :: c :: t) 2.
Proof.
  intros Hb Hc. unfold is_byte in *.
  destruct (signed_exists 13 ((b - 192) * 256 + c)) as (v & Hv & Hm); [lia|lia|].
  exists (I13 v). split; [done|]. change (2 ^ 13) with 8192 in Hm.
  unfold ent_bytes. cbn [ent_head ent_data app].
  replace (192 + v mod 8192 / 256) with b by zdiv. by replace (v mod 256) with c by zdiv.
Qed.

Lemma parse_s12 b c t l : 224 <= b < 240 -> is_byte c -> Forall is_byte t ->
  l = (b - 224) * 256 + c -> l <= zlen t -> parses (b :: c :: t) (2 + l).
Proof.
  unfold is_byte at 1. intros Hb Hc Ht -> Hl. set (l := (b - 224) * 256 + c) in *.
  exists (S12 (take (Z.to_nat l) t)). unfold ent_bytes.
  cbn [ent_ok ent_head ent_data app]. rewrite length_take, Nat.min_l, Z2Nat.id by lia.
  split; [split; [lia|by apply Forall_take]|].
  replace (Z.to_nat (2 + l)) with (S (S (Z.to_nat l))) by lia. cbn [take].
  f_equal; [zdiv|f_equal; zdiv].
Qed.

Lemma parse_s32 bs t : Forall is_byte bs -> length bs = 4%nat -> Forall is_byte t ->
  le_val bs <= zlen t -> le_val bs < 2 ^ 32 - 5 -> parses (240 :: bs ++ t) (5 + le_val bs).
Proof.
  intros Hbs H4 Ht Hl Hlt. pose proof (le_val_range bs Hbs) as Hr.
  exists (S32 (take (Z.to_nat (le_val bs)) t)). unfold ent_bytes.
  cbn [ent_ok ent_head ent_data app]. rewrite length_take, Nat.min_l, Z2Nat.id by lia.
  split; [split; [lia|by apply Forall_take]|].
  replace (Z.to_nat (5 + le_val bs)) with (S (4 + Z.to_nat (le_val bs)))%nat by lia. cbn [take].
  f_equal. rewrite <- H4, take_app_add'; [|done]. f_equal. by apply le_bytes_val.
Qed.

Lemma parse_ints k b t (f : Z -> lpent) : (0 < k)%nat -> Forall is_byte t -> (k <= length t)%nat ->
  (forall v, - 2 ^ (8 * Z.of_nat k - 1) <= v < 2 ^ (8 * Z.of_nat k - 1) ->
     ent_ok (f v) /\ ent_bytes (f v) = b :: le_bytes k v) ->
  parses (b :: t) (Z.of_nat (S k)).
Proof.
  intros Hk Ht Hl Hf.
  destruct (parse_int k (take k t)) as (v & Hv & E);
    [by apply Forall_take|rewrite length_take; lia|done|].
  destruct (Hf v Hv) as [Hok Hbytes]. exists (f v). split; [done|].
  by rewrite Hbytes, E, Nat2Z.id.
Qed.

Lemma parse_ent b t n :
  Forall is_byte (b :: t) -> b <= 244 -> lpCurrentEncodedSizeUnsafe (b :: t) 0 = Ok n ->
  n <= zlen (b :: t) -> (b = 240 -> 5 <= n) -> parses (b :: t) n.
Proof.
  intros Hb Hlt Hs Hn H240. rewrite Forall_cons in Hb. destruct Hb as [Hb Ht].
  unfold lpCurrentEncodedSizeUnsafe in Hs. change (mem_get (b :: t) 0) with (Ok b) in Hs.
  cbn [mbind res_bind] in Hs. cbn [length] in Hn. revert Hs.
  destruct (first_byte_cases b Hb) as [?|[?|[?|[?|[?|[?|[?|[?|[?|?]]]]]]]]]; lp_tests; try lia.
  - intros [= <-]. exists (U7 b). split; [cbn; by_bytes|done].
  - unfold LP_ENCODING_6BIT_STR_LEN. change (mem_get (b :: t) 0) with (Ok b). rs.
    rewrite land_3f by lia. intros [= <-]. apply parse_s6; [lia|done|lia].
  - intros [= <-]. destruct t as [|c t]; [cbn in Hn; lia|]. rewrite Forall_cons in Ht.
    apply parse_i13; [lia|apply Ht].
  - unfold LP_ENCODING_12BIT_STR_LEN. destruct t as [|c t]; [done|].
    change (mem_get (b :: c :: t) 0) with (Ok b). change (mem_get (b :: c :: t) (0 + 1)) with (Ok c).
    rs. rewrite Forall_cons in Ht. destruct Ht as [Hc Ht]. cbn [length] in Hn.
    rewrite land_f, lor_shiftl_add by (unfold is_byte in *; lia). intros [= <-].
    apply parse_s12; [lia|done|done|zdiv|lia].
  - unfold LP_ENCODING_32BIT_STR_LEN.
    destruct (get_le (b :: t) (0 + 1) 4) as [l|] eqn:El; [|done]. rs. intros [= <-].
    assert (4 <= length t)%nat as H4 by lia.
    rewrite <- (take_drop 4 t) in El, Ht |- *. apply Forall_app in Ht as [Ht1 Ht2].
    assert (Ok l = Ok (le_val (take 4 t))) as [= ->].
    { rewrite <- El. apply (get_le_app [b]); [done|rewrite length_take; lia|done]. } pose proof (le_val_range _ Ht1) as Hr.
    rewrite length_take, Nat.min_l in Hr by lia. change (256 ^ Z.of_nat 4) with (2 ^ 32) in Hr.
    specialize (H240 ltac:(done)). unfold wrapu in *. subst b.
    assert (le_val (take 4 t) < 2 ^ 32 - 5) as Hw by zdiv.
    rewrite Z.mod_small in Hn |- * by lia.
    apply parse_s32; [done|rewrite length_take; lia|done|rewrite length_drop; lia|done].
  - intros [= <-]. subst b. apply (parse_ints 2 241 t I16); [lia|done|lia|done].
  - intros [= <-]. subst b. apply (parse_ints 3 242 t I24); [lia|done|lia|done].
  - intros [= <-]. subst b. apply (parse_ints 4 243 t I32); [lia|done|lia|done].
  - intros [= <-]. subst b. apply (parse_ints 8 244 t I64); [lia|done|lia|done].
Qed.

(** ** The validation step on arbitrary bytes *)

Lemma mem_get_total m p : 0 <= p < zlen m -> exists b, mem_get m p = Ok b.
Proof.
  intros Hp. destruct (lookup_lt_is_Some_2 m (Z.to_nat p)) as [b Hb]; [lia|].
  exists b. apply mem_get_lookup; [lia|done].
Qed.

Lemma get_le_total m p n : 0 <= p -> p + Z.of_nat n <= zlen m -> exists v, get_le m p n = Ok v.
Proof.
  revert p. induction n as [|n IH]; intros p Hp Hl; [by exists 0|]. cbn [get_le].
  destruct (mem_get_total m p) as [b ->]; [lia|]. destruct (IH (p + 1)) as [v Hv]; [lia|lia|].
  rs. rewrite Hv. by eexists.
Qed.

Lemma decode_total m p : 4 <= p < zlen m -> exists v, lpDecodeBacklen m p = Ok v.
Proof.
  intros Hp. unfold lpDecodeBacklen.
  destruct (mem_get_total m p) as [b0 ->]; [lia|]. rs. case_match; [by eexists|].
  destruct (mem_get_total m (p - 1)) as [b1 ->]; [lia|]. rs. case_match; [by eexists|].
  destruct (mem_get_total m (p - 2)) as [b2 ->]; [lia|]. rs. case_match; [by eexists|].
  destruct (mem_get_total m (p - 3)) as [b3 ->]; [lia|]. rs. case_match; [by eexists|].
  destruct (mem_get_total m (p - 4)) as [b4 ->]; [lia|]. rs. case_match; by eexists.
Qed.

Lemma decode_low m p v b :
  lpDecodeBacklen m p = Ok v -> mem_get m p = Ok b ->
  v = UINT64_MAX \/ 0 <= v < 2 ^ 35 /\ v mod 128 = b mod 128.
Proof.
  unfold lpDecodeBacklen. intros H E. rewrite E in H. rs. cbn [mbind res_bind] in H.
  rewrite !land_127 in H.
  case_match; [injection H as <-; right; zdiv|].
  destruct (mem_get m (p - 1)) as [b1|]; [|done]. cbn [mbind res_bind] in H.
  rewrite !land_127 in H. rewrite (lor_add_shiftl _ 7) in H by zdiv.
  case_match; [injection H as <-; right; zdiv|].
  destruct (mem_get m (p - 2)) as [b2|]; [|done]. cbn [mbind res_bind] in H.
  rewrite !land_127 in H. rewrite (lor_add_shiftl _ 14) in H by zdiv.
  case_match; [injection H as <-; right; zdiv|].
  destruct (mem_get m (p - 3)) as [b3|]; [|done]. cbn [mbind res_bind] in H.
  rewrite !land_127 in H. rewrite (lor_add_shiftl _ 21) in H by zdiv.
  case_match; [injection H as <-; right; zdiv|].
  destruct (mem_get m (p - 4)) as [b4|]; [|done]. cbn [mbind res_bind] in H.
  rewrite !land_127 in H. rewrite (lor_add_shiftl _ 28) in H by zdiv.
  case_match; injection H as <-; [right; zdiv|by left].
Qed.

Lemma size_total m p b :
  Forall is_byte m -> 0 <= p -> mem_get m p = Ok b -> p + lpCurrentEncodedSizeBytes b <= zlen m ->
  exists n, lpCurrentEncodedSizeUnsafe m p = Ok n /\ 0 <= n < 2 ^ 32.
Proof.
  intros Hm Hp E Hl. pose proof (mem_get_byte m p b Hm E) as Hb.
  unfold lpCurrentEncodedSizeUnsafe, LP_ENCODING_6BIT_STR_LEN, LP_ENCODING_12BIT_STR_LEN,
    LP_ENCODING_32BIT_STR_LEN. rewrite E. rs. revert Hl. unfold lpCurrentEncodedSizeBytes.
  destruct (first_byte_cases b Hb) as [?|[?|[?|[?|[?|[?|[?|[?|[?|?]]]]]]]]]; lp_tests; intros Hl;
    try (eexists; split; [reflexivity|lia]).
  - rs. rewrite land_3f by lia. eexists. split; [done|lia].
  - destruct (mem_get_total m (p + 1)) as [c Hc]; [lia|].
    pose proof (mem_get_byte m _ c Hm Hc) as Hcb. rewrite Hc. rs.
    rewrite land_f, lor_shiftl_add by (unfold is_byte in *; lia).
    eexists. split; [done|]. unfold is_byte in *. zdiv.
  - destruct (get_le_total m (p + 1) 4) as [v ->]; [lia|lia|]. rs.
    eexists. split; [done|]. unfold wrapu. apply Z.mod_pos_bound. lia.
  - repeat case_match; eexists; (split; [done|lia]).
Qed.

(** A 32-bit string length so large that the entry size wraps around leaves
    bytes that cannot pass the comparison with the back length. *)
Lemma wrap_bytes c1 c2 c3 c4 d n :
  Forall is_byte [c1; c2; c3; c4] ->
  lpCurrentEncodedSizeUnsafe (240 :: c1 :: c2 :: c3 :: c4 :: d) 0 = Ok n -> n < 5 ->
  0 <= n /\ c1 = 251 + n /\ c2 = 255 /\ c3 = 255 /\ c4 = 255.
Proof.
  intros Hb Hs Hn.
  change (lpCurrentEncodedSizeUnsafe (240 :: c1 :: c2 :: c3 :: c4 :: d) 0) with
    (n ← get_le ([240] ++ [c1; c2; c3; c4] ++ d) 1 4; Ok (u32 (5 + n))) in Hs.
  rewrite (get_le_app [240] [c1; c2; c3; c4]) in Hs by done.
  cbn [mbind res_bind le_val] in Hs. injection Hs as Hs. unfold wrapu in Hs.
  repeat (rewrite Forall_cons in Hb; destruct Hb as [? Hb]). unfold is_byte in *.
  set (l := c1 + _) in *. assert (n = l + 5 - 2 ^ 32 /\ 2 ^ 32 - 5 <= l) by (unfold l in *; zdiv).
  unfold l in *. lia.
Qed.

Lemma wrap_rejected m p n v :
  Forall is_byte m -> 0 <= p -> mem_get m p = Ok 240 -> p + 5 <= zlen m ->
  lpCurrentEncodedSizeUnsafe m p = Ok n -> n < 5 ->
  lpDecodeBacklen m (p + n) = Ok v -> u64 (v + 1) <> n + 1.
Proof.
  intros Hm Hp E Hl Hs Hn Hd. rewrite size_drop in Hs by done.
  assert (forall i, 0 <= i -> mem_get m (p + i) = mem_get (drop (Z.to_nat p) m) i) as Hg
    by (intros; by apply mem_get_drop).
  pose proof (Hg 0 ltac:(lia)) as H0. rewrite Z.add_0_r, E in H0.
  assert (5 <= zlen (drop (Z.to_nat p) m)) as Hlen by (rewrite length_drop; lia).
  pose proof (Forall_drop _ (Z.to_nat p) _ Hm) as Hb.
  destruct (drop (Z.to_nat p) m) as [|c0 [|c1 [|c2 [|c3 [|c4 d]]]]]; cbn [length] in Hlen; try lia.
  assert (c0 = 240) as -> by by injection H0.
  destruct (wrap_bytes c1 c2 c3 c4 d n) as (? & -> & -> & -> & ->); [|done|done|].
  { repeat (rewrite Forall_cons in Hb; destruct Hb as [? Hb]).
    do 4 (apply Forall_cons; split; [done|]). apply Forall_nil_2. }
  assert (n = 0 \/ n = 1 \/ n = 2 \/ n = 3 \/ n = 4) as Hc by lia.
  assert (exists b, mem_get m (p + n) = Ok b /\ b mod 128 <> n) as (b & Hgn & Hbn).
  { rewrite Hg by lia. destruct Hc as [->|[->|[->|[->| ->]]]]; eexists; (split; [reflexivity|done]). }
  destruct (decode_low _ _ _ _ Hd Hgn) as [->|[? Hlow]]; intros Hv.
  - change (u64 (UINT64_MAX + 1)) with 0 in Hv. lia.
  - rewrite u64_small in Hv by lia. rewrite Z.mod_small in Hlow by lia. lia.
Qed.

(** A raw entry: the entry and the bytes of its back length, which need not be
    the ones [lpEncodeBacklen] writes *)
Definition raw_bytes (x : lpent * list Z) : list Z := ent_bytes x.1 ++ x.2.
Definition raw_body (xs : list (lpent * list Z)) : list Z := mjoin (raw_bytes <$> xs).

(** The raw entry [x] at [p] in [m]: the back length has its usual number of
    bytes, and decoding at its last byte gives the size of the entry. *)
Definition raw_fits (m : list Z) (p : Z) (x : lpent * list Z) : Prop :=
  ent_ok x.1 /\ zlen x.2 = lpEncodeBacklenBytes (zlen (ent_bytes x.1)) /\
  lpDecodeBacklen m (p + zlen (raw_bytes x) - 1) = Ok (zlen (ent_bytes x.1)).

Lemma drop_cons_get (m : list Z) p b : 0 <= p -> mem_get m p = Ok b ->
  drop (Z.to_nat p) m = b :: drop (Z.to_nat (p + 1)) m.
Proof.
  unfold mem_get. intros Hp H. replace (0 <=? p) with true in H by lia.
  destruct (m !! Z.to_nat p) eqn:E; [|done]. injection H as ->.
  rewrite (drop_S m b) by done. do 2 f_equal. lia.
Qed.

Lemma size_bytes_valid b : is_byte b -> b <> LP_EOF -> lpCurrentEncodedSizeBytes b <> 0 -> b <= 244.
Proof.
  intros Hb Hne. unfold lpCurrentEncodedSizeBytes.
  destruct (first_byte_cases b Hb) as [?|[?|[?|[?|[?|[?|[?|[?|[?|?]]]]]]]]]; try lia.
  lp_tests. done.
Qed.

(** The comparison of the two lengths succeeds only if they are equal. *)
Lemma backlen_check m p b v n :
  lpDecodeBacklen m p = Ok v -> mem_get m p = Ok b -> 0 <= n < 2 ^ 32 ->
  u64 (v + lpEncodeBacklenBytes n) = n + lpEncodeBacklenBytes n -> v = n.
Proof.
  intros Hd Hb Hn Heq. pose proof (backlen_bytes_range n).
  destruct (decode_low _ _ _ _ Hd Hb) as [->|[? _]].
  - replace (UINT64_MAX + lpEncodeBacklenBytes n) with (lpEncodeBacklenBytes n - 1 + 1 * 2 ^ 64) in Heq by lia.
    unfold wrapu in Heq. rewrite Z.mod_add, Z.mod_small in Heq by lia. lia.
  - rewrite u64_small in Heq by lia. lia.
Qed.

Lemma parse_raw m p b n :
  Forall is_byte m -> 0 <= p -> mem_get m p = Ok b -> b <= 244 -> (b = 240 -> 5 <= n) ->
  lpCurrentEncodedSizeUnsafe m p = Ok n -> 0 <= n -> p + (n + lpEncodeBacklenBytes n) <= zlen m - 1 ->
  lpDecodeBacklen m (p + (n + lpEncodeBacklenBytes n) - 1) = Ok n ->
  exists x r, raw_fits m p x /\ zlen (raw_bytes x) = n + lpEncodeBacklenBytes n /\
    drop (Z.to_nat p) m = raw_bytes x ++ r.
Proof.
  intros Hm Hp Eb Hb H240 Hs Hn Hl Hd. pose proof (backlen_bytes_range n) as Hbl.
  pose proof (drop_cons_get m p b Hp Eb) as Ed. rewrite size_drop, Ed in Hs by done.
  assert (zlen (drop (Z.to_nat p) m) = zlen m - p) as Hlen by (rewrite length_drop; lia).
  pose proof (Forall_drop _ (Z.to_nat p) _ Hm) as Hbm. rewrite Ed in Hlen, Hbm.
  destruct (parse_ent b (drop (Z.to_nat (p + 1)) m) n) as (e & He & Ee); [done|done|done|lia|done|].
  rewrite <- Ed in *. set (d := drop (Z.to_nat p) m) in *.
  set (k := lpEncodeBacklenBytes n) in *.
  assert (zlen (ent_bytes e) = n) as Hle by (rewrite Ee, length_take; lia).
  exists (e, take (Z.to_nat k) (drop (Z.to_nat n) d)), (drop (Z.to_nat k) (drop (Z.to_nat n) d)).
  assert (zlen (take (Z.to_nat k) (drop (Z.to_nat n) d)) = k) as Hlk
    by (rewrite length_take, length_drop; lia).
  assert (zlen (raw_bytes (e, take (Z.to_nat k) (drop (Z.to_nat n) d))) = n + k) as Hraw
    by (unfold raw_bytes; rewrite length_app; cbn [fst snd]; lia).
  split; [|split; [done|]].
  - split; [done|]. cbn [fst snd]. rewrite Hle. split; [done|]. by rewrite Hraw.
  - unfold raw_bytes. cbn [fst snd]. by rewrite <- app_assoc, Ee, !take_drop.
Qed.

Lemma validate_next_total m p :
  Forall is_byte m -> 6 <= p <= zlen m - 1 ->
  exists v, lpValidateNext m (Some p) (zlen m) = Ok v /\
    match v with
    | None => True
    | Some None => mem_get m p = Ok LP_EOF
    | Some (Some p') =>
        exists x r, raw_fits m p x /\ p' = p + zlen (raw_bytes x) /\ p' <= zlen m - 1 /\
          drop (Z.to_nat p) m = raw_bytes x ++ r
    end.
Proof.
  intros Hm Hp. unfold lpValidateNext. replace (_ || _) with false by lia.
  destruct (mem_get_total m p) as [b Eb]; [lia|]. rewrite Eb. rs.
  destruct (Z.eqb_spec b LP_EOF) as [->|Hne]; [by eexists|].
  destruct (Z.eqb_spec (lpCurrentEncodedSizeBytes b) 0) as [|Hnz]; [by eexists|].
  destruct ((p + lpCurrentEncodedSizeBytes b <? LP_HDR_SIZE) || _) eqn:E1; [by eexists|].
  destruct (size_total m p b Hm ltac:(lia) Eb ltac:(lia)) as (n & Hn & Hr). rewrite Hn. rs.
  pose proof (backlen_bytes_range n) as Hbl.
  destruct ((p + (n + lpEncodeBacklenBytes n) <? LP_HDR_SIZE) || _) eqn:E2; [by eexists|].
  destruct (decode_total m (p + (n + lpEncodeBacklenBytes n) - 1)) as [v Hv]; [lia|].
  rewrite Hv. rs.
  destruct (Z.eqb_spec (u64 (v + lpEncodeBacklenBytes n)) (n + lpEncodeBacklenBytes n)) as [Heq|];
    [|by eexists]. cbn [negb]. eexists. split; [done|].
  destruct (mem_get_total m (p + (n + lpEncodeBacklenBytes n) - 1)) as [b' Eb']; [lia|].
  pose proof (backlen_check _ _ _ _ _ Hv Eb' Hr Heq) as ->.
  pose proof (mem_get_byte m p b Hm Eb) as Hb.
  destruct (parse_raw m p b n) as (x & r & Hx & Hlx & Hd); try done; try lia.
  - by apply size_bytes_valid.
  - intros ->. destruct (Z.lt_ge_cases n 5) as [Hn5|]; [|done]. exfalso.
    assert (lpEncodeBacklenBytes n = 1) as H1 by (unfold lpEncodeBacklenBytes; case_match; lia).
    rewrite H1 in *. replace (p + (n + 1) - 1) with (p + n) in Hv by lia.
    change (lpCurrentEncodedSizeBytes 240) with 5 in E1.
    by apply (wrap_rejected m p n n Hm ltac:(lia) Eb ltac:(lia) Hn Hn5 Hv).
  - exists x, r. rewrite Hlx. split; [done|]. split; [done|]. split; [lia|done].
Qed.

Lemma validate_next_complete m p x r :
  0 <= p -> 6 <= p -> raw_fits m p x -> drop (Z.to_nat p) m = raw_bytes x ++ r ->
  p + zlen (raw_bytes x) <= zlen m - 1 ->
  lpValidateNext m (Some p) (zlen m) = Ok (Some (Some (p + zlen (raw_bytes x)))).
Proof.
  intros Hp0 Hp (He & Hk & Hd) Hdrop Hl. destruct x as [e bk]. unfold raw_bytes in *.
  cbn [fst snd] in *. pose proof (ent_bytes_length e He). pose proof (ent_head_size e He).
  pose proof (backlen_bytes_range (zlen (ent_bytes e))).
  rewrite length_app, Nat2Z.inj_add, Hk in *.
  assert (m = take (Z.to_nat p) m ++ ent_bytes e ++ (bk ++ r)) as Em
    by by rewrite (app_assoc (ent_bytes e) bk r), <- Hdrop, take_drop.
  assert (zlen (take (Z.to_nat p) m) = p) as Ha by (rewrite length_take; lia).
  destruct (ent_bytes_first e He) as (b & t & Eb & Hb).
  remember (take (Z.to_nat p) m) as a eqn:Ea. clear Ea Hdrop. subst p.
  assert (mem_get m (zlen a) = Ok b) as Hg by (rewrite Em, Eb; apply mem_get_here).
  unfold lpValidateNext. replace (_ || _) with false by lia. rewrite Hg. rs.
  replace (b =? LP_EOF) with false by lia. rewrite (size_bytes_ok e b t He Eb).
  replace (zlen (ent_head e) =? 0) with false by lia. replace (_ || _) with false by lia.
  assert (lpCurrentEncodedSizeUnsafe m (zlen a) = Ok (zlen (ent_bytes e))) as ->
    by (rewrite Em; by apply size_unsafe_ok).
  rs. replace (_ || _) with false by lia. rewrite Hd. rs.
  rewrite u64_small, Z.eqb_refl by lia. done.
Qed.

(** ** The loop *)

Fixpoint raws_fit (m : list Z) (p : Z) (xs : list (lpent * list Z)) : Prop :=
  match xs with
  | [] => True
  | x :: xs => raw_fits m p x /\ raws_fit m (p + zlen (raw_bytes x)) xs
  end.

Definition null_cb (s : unit) (_ _ : Z) : option unit := Some s.

Lemma raw_bytes_length m p x : raw_fits m p x -> 2 <= zlen (raw_bytes x).
Proof.
  intros (He & Hk & _). unfold raw_bytes. rewrite length_app.
  pose proof (ent_bytes_length _ He). pose proof (backlen_bytes_range (zlen (ent_bytes x.1))). lia.
Qed.

Lemma raw_bytes_first m p x : raw_fits m p x -> exists b t, raw_bytes x = b :: t /\ b <> LP_EOF.
Proof.
  intros (He & _). destruct (ent_bytes_first _ He) as (b & t & Eb & Hb).
  exists b, (t ++ x.2). unfold raw_bytes. rewrite Eb. split; [done|lia].
Qed.

Lemma get_drop_cons (m : list Z) p b t : 0 <= p -> drop (Z.to_nat p) m = b :: t -> mem_get m p = Ok b.
Proof.
  intros Hp E. apply mem_get_lookup; [done|].
  rewrite <- (Nat.add_0_r (Z.to_nat p)), <- lookup_drop, E. done.
Qed.

Lemma drop_raw (m : list Z) p a r : 0 <= p -> drop (Z.to_nat p) m = a ++ r ->
  drop (Z.to_nat (p + zlen a)) m = r.
Proof.
  intros Hp E. replace (Z.to_nat (p + zlen a)) with (Z.to_nat p + length a)%nat by lia.
  by rewrite <- drop_drop, E, drop_app_length.
Qed.

Lemma validate_loop_sound fuel m num p count :
  Forall is_byte m -> zlen m <= UINT32_MAX -> 6 <= p <= zlen m - 1 -> zlen m - p <= Z.of_nat fuel ->
  0 <= count -> count + zlen m - p <= UINT32_MAX ->
  exists o, lpValidateIntegrity_loop fuel m (zlen m) num null_cb tt (Some p) count = Ok o /\
    match o with
    | Some (Some q, c) => exists xs r, raws_fit m p xs /\ drop (Z.to_nat p) m = raw_body xs ++ LP_EOF :: r /\
        q = p + zlen (raw_body xs) /\ c = count + zlen xs
    | _ => True
    end.
Proof.
  intros Hm Hmax. revert p count. induction fuel as [|fuel IH]; intros p count Hp Hf Hc Hcm; [lia|].
  cbn [lpValidateIntegrity_loop]. destruct (mem_get_total m p) as [b Eb]; [lia|]. rewrite Eb. rs.
  destruct (Z.eqb_spec b LP_EOF) as [->|Hne].
  { eexists. split; [done|]. exists [], (drop (Z.to_nat (p + 1)) m).
    rewrite (drop_cons_get m p LP_EOF) by (done || lia). cbn. repeat split; lia. }
  destruct (validate_next_total m p Hm Hp) as (v & -> & Hv). rs.
  destruct v as [[p'|]|]; [|congruence|by eexists]. cbn [null_cb].
  destruct Hv as (x & r & Hx & -> & Hle & Hd).
  pose proof (raw_bytes_length _ _ _ Hx) as Hlx. rewrite u32_small by lia.
  destruct (IH (p + zlen (raw_bytes x)) (count + 1)) as (o & -> & Ho); [lia|lia|lia|lia|].
  eexists. split; [done|]. destruct o as [[[q|] c]|]; try done.
  destruct Ho as (xs & r' & Hxs & Hd' & -> & ->).
  exists (x :: xs), r'. split; [done|]. change (raw_body (x :: xs)) with (raw_bytes x ++ raw_body xs).
  rewrite (drop_raw m p (raw_bytes x) r) in Hd' by (done || lia).
  rewrite Hd, Hd', app_assoc, length_app. cbn [length]. repeat split; lia.
Qed.

Lemma validate_loop_complete fuel m num p count xs :
  zlen m <= UINT32_MAX -> 6 <= p -> raws_fit m p xs -> drop (Z.to_nat p) m = raw_body xs ++ [LP_EOF] ->
  zlen m = p + zlen (raw_body xs) + 1 -> (length xs < fuel)%nat -> 0 <= count ->
  count + zlen xs <= UINT32_MAX ->
  lpValidateIntegrity_loop fuel m (zlen m) num null_cb tt (Some p) count =
    Ok (Some (Some (zlen m - 1), count + zlen xs)).
Proof.
  intros Hmax. revert p count fuel.
  induction xs as [|x xs IH]; intros p count fuel Hp Hfit Hd Hl Hf Hc Hcm;
    (destruct fuel as [|fuel]; [lia|]); cbn [lpValidateIntegrity_loop].
  - rewrite (get_drop_cons m p LP_EOF []) by (done || lia). cbn. repeat f_equal; cbn in Hl; lia.
  - destruct Hfit as [Hx Hxs]. change (raw_body (x :: xs)) with (raw_bytes x ++ raw_body xs) in *.
    rewrite <- app_assoc in Hd. rewrite length_app in Hl. cbn [length] in *.
    destruct (raw_bytes_first m p x Hx) as (b & t & Eb & Hb).
    rewrite (get_drop_cons m p b (t ++ raw_body xs ++ [LP_EOF]));
      [|lia|by rewrite Hd, Eb]. rs. replace (b =? LP_EOF) with false by lia.
    rewrite (validate_next_complete m p x (raw_body xs ++ [LP_EOF])) by (done || lia). rs.
    cbn [null_cb]. rewrite u32_small by lia.
    rewrite IH; [do 3 f_equal; lia|lia|done|by apply (drop_raw m p (raw_bytes x)); [lia|]|lia|lia|lia|lia].
Qed.

(** ** The validated byte strings *)

Lemma get_total_hdr total num r : 0 <= total <= UINT32_MAX -> lpGetTotalBytes (lp_hdr total num ++ r) = Ok total.
Proof.
  intros H. unfold lpGetTotalBytes, lp_hdr. rewrite <- app_assoc.
  etransitivity; [apply (get_le_app [] (le_bytes 4 total)); [done|done|apply le_bytes_byte]|].
  rewrite le_val_bytes, Z.mod_small; [done|]. change (256 ^ Z.of_nat 4) with (2 ^ 32). lia.
Qed.
Lemma get_num_hdr total num r : 0 <= num <= 65535 -> lpGetNumElements (lp_hdr total num ++ r) = Ok num.
Proof.
  intros H. unfold lpGetNumElements, lp_hdr. rewrite <- app_assoc.
  rewrite (get_le_app (le_bytes 4 total) (le_bytes 2 num)) by (try done; apply le_bytes_byte).
  rewrite le_val_bytes, Z.mod_small; [done|]. change (256 ^ Z.of_nat 2) with (2 ^ 16). lia.
Qed.

(** Six bytes are always a header. *)
Lemma hdr_parse m : Forall is_byte m -> 6 <= zlen m ->
  exists total num, m = lp_hdr total num ++ drop 6 m /\
    0 <= total <= UINT32_MAX /\ 0 <= num <= 65535.
Proof.
  intros Hm Hl. set (t := take 4 m). set (n := take 2 (drop 4 m)).
  assert (Forall is_byte t) as Ht by by apply Forall_take.
  assert (Forall is_byte n) as Hn by by apply Forall_take, Forall_drop.
  assert (length t = 4%nat) as Lt by (unfold t; rewrite length_take; lia).
  assert (length n = 2%nat) as Ln by (unfold n; rewrite length_take, length_drop; lia).
  pose proof (le_val_range t Ht) as Rt. pose proof (le_val_range n Hn) as Rn.
  rewrite Lt in Rt. rewrite Ln in Rn.
  change (256 ^ Z.of_nat 4) with (2 ^ 32) in Rt. change (256 ^ Z.of_nat 2) with (2 ^ 16) in Rn.
  exists (le_val t), (le_val n). split; [|lia]. unfold lp_hdr.
  rewrite <- Lt at 1. rewrite <- Ln at 1. rewrite !le_bytes_val by done.
  unfold t, n. rewrite <- app_assoc. change 6%nat with (4 + 2)%nat.
  by rewrite <- drop_drop, !take_drop.
Qed.

(** A header, raw entries that fit, the end marker; the count of the header is
    right or unknown. *)
Definition lp_valid (m : list Z) : Prop :=
  exists num xs, m = lp_hdr (zlen m) num ++ raw_body xs ++ [LP_EOF] /\
    zlen m <= UINT32_MAX /\ 0 <= num <= 65535 /\
    (num = LP_HDR_NUMELE_UNKNOWN \/ num = zlen xs) /\ raws_fit m LP_HDR_SIZE xs.

Lemma raws_length m p xs : raws_fit m p xs -> 2 * zlen xs <= zlen (raw_body xs).
Proof.
  revert p. induction xs as [|x xs IH]; intros p H; [done|]. destruct H as [Hx Hxs].
  change (raw_body (x :: xs)) with (raw_bytes x ++ raw_body xs). rewrite length_app. cbn [length].
  pose proof (raw_bytes_length _ _ _ Hx). pose proof (IH _ Hxs). lia.
Qed.

Lemma validate_valid m : lp_valid m -> lpValidateIntegrity m (zlen m) true null_cb tt = Ok true.
Proof.
  intros (num & xs & Em & Hmax & Hnum & Hcnt & Hfit).
  pose proof (raws_length _ _ _ Hfit) as Hxs.
  assert (zlen m = 6 + zlen (raw_body xs) + 1) as Hl.
  { rewrite Em at 1. rewrite !length_app. pose proof (lp_hdr_length (zlen m) num). cbn [length]. lia. }
  unfold lpValidateIntegrity. replace (zlen m <? _) with false by lia.
  assert (lpGetTotalBytes m = Ok (zlen m)) as -> by (rewrite Em at 1; apply get_total_hdr; lia).
  rs. rewrite Z.eqb_refl. cbn [negb].
  assert (mem_get m (zlen m - 1) = Ok LP_EOF) as ->.
  { rewrite Em at 1. rewrite app_assoc. apply mem_get_app. rewrite length_app.
    pose proof (lp_hdr_length (zlen m) num). lia. }
  rs. cbn [negb Z.eqb Pos.eqb].
  assert (lpGetNumElements m = Ok num) as -> by (rewrite Em; by apply get_num_hdr). rs.
  rewrite (validate_loop_complete _ m num LP_HDR_SIZE 0 xs); try done; try lia.
  - rs. rewrite bool_decide_eq_true_2 by done. cbn [negb].
    destruct Hcnt as [->| ->]; [done|]. rewrite Z.add_0_l, Z.eqb_refl, andb_false_r. done.
  - rewrite Em at 1. change (Z.to_nat LP_HDR_SIZE) with 6%nat.
    rewrite drop_app_ge by (pose proof (lp_hdr_length (zlen m) num); lia).
    pose proof (lp_hdr_length (zlen m) num).
    by replace (6 - length (lp_hdr (zlen m) num))%nat with 0%nat by lia.
Qed.

Lemma validate_sound m : Forall is_byte m ->
  exists b, lpValidateIntegrity m (zlen m) true null_cb tt = Ok b /\ (b = true -> lp_valid m).
Proof.
  intros Hm. unfold lpValidateIntegrity.
  destruct (zlen m <? _) eqn:E7; [by eexists|].
  destruct (hdr_parse m Hm) as (total & num & Em & Ht & Hn); [lia|].
  assert (lpGetTotalBytes m = Ok total) as -> by (rewrite Em; by apply get_total_hdr). rs.
  destruct (Z.eqb_spec total (zlen m)) as [->|]; [cbn [negb]|by eexists].
  destruct (mem_get_total m (zlen m - 1)) as [b ->]; [lia|]. rs.
  destruct (Z.eqb_spec b LP_EOF) as [->|]; [cbn [negb]|by eexists].
  assert (lpGetNumElements m = Ok num) as -> by (rewrite Em; by apply get_num_hdr). rs.
  destruct (validate_loop_sound (length m) m num LP_HDR_SIZE 0) as (o & -> & Ho);
    [done|lia|lia|lia|lia|lia|]. rs.
  destruct o as [[[q|] c]|]; [|by eexists|by eexists].
  destruct (bool_decide_reflect (Some q = Some (zlen m - 1))) as [[= ->]|]; [cbn [negb]|by eexists].
  destruct (negb (num =? LP_HDR_NUMELE_UNKNOWN) && negb (num =? c)) eqn:Ec; [by eexists|].
  eexists. split; [done|]. intros _. destruct Ho as (xs & r & Hfit & Hd & Hq & ->).
  exists num, xs. change (Z.to_nat LP_HDR_SIZE) with 6%nat in Hd.
  assert (r = []) as ->.
  { apply (f_equal length) in Hd. rewrite length_drop, length_app in Hd.
    destruct r; [done|cbn [length] in Hd; lia]. }
  rewrite Hd in Em. split; [done|]. split; [lia|]. split; [done|]. split; [lia|done].
Qed.

(** What the operations build is valid. *)
Definition raw_of (e : lpent) : lpent * list Z := (e, lpEncodeBacklen (zlen (ent_bytes e))).

Lemma raw_body_of es : raw_body (raw_of <$> es) = lp_body es.
Proof. unfold raw_body, lp_body. by rewrite <- list_fmap_compose. Qed.

Lemma raws_fit_image num l es :
  lp_wf num (l ++ es) -> raws_fit (lp_image num (l ++ es) []) (lp_off l) (raw_of <$> es).
Proof.
  revert l. induction es as [|e es IH]; intros l Hwf; [done|]. cbn [fmap list_fmap raws_fit].
  pose proof (lp_off_snoc l e) as Hs. rewrite <- lp_entry_length in Hs. split.
  - split; [by eapply nav_ent_ok|]. split; [apply encode_backlen_length|].
    change (raw_bytes (raw_of e)) with (lp_entry e). rewrite <- Hs.
    by apply (nav_backlen num (l ++ e :: es) [] Hwf l e es).
  - change (raw_bytes (raw_of e)) with (lp_entry e). rewrite <- Hs.
    specialize (IH (l ++ [e])). rewrite <- app_assoc in IH. by apply IH.
Qed.

(** A listpack laid out by the encoders, with a right or unknown count *)
Lemma image_valid num es : lp_wf num es -> lp_valid (lp_image num es []).
Proof.
  intros Hwf. pose proof (lp_image_length num es []) as Hl. cbn [length] in Hl.
  exists num, (raw_of <$> es). rewrite raw_body_of.
  replace (zlen (lp_image num es [])) with (lp_total es) by lia.
  split; [done|]. pose proof (lp_wf_num num es Hwf) as Hn. pose proof Hwf as (_ & Ht & Hc).
  split; [done|]. split; [done|]. split; [|by apply (raws_fit_image num [] es)].
  rewrite length_fmap. destruct Hc as [?|[? _]]; [by left|by right].
Qed.

(** ** Reading what was accepted *)

(** The pointers that repeated moves visit, until the null pointer *)
Fixpoint lp_walk (fuel : nat) (move : Z -> res (option Z)) (p : option Z) : res (list Z) :=
  match p with
  | None => Ok []
  | Some p =>
      match fuel with
      | O => Fault OutOfFuel
      | S fuel => q ← move p; l ← lp_walk fuel move q; Ok (p :: l)
      end
  end.

(** Where the raw entries begin *)
Fixpoint raw_offs (p : Z) (xs : list (lpent * list Z)) : list Z :=
  match xs with
  | [] => []
  | x :: xs => p :: raw_offs (p + zlen (raw_bytes x)) xs
  end.

(** An entry with its encoding, and as many bytes as its back length takes *)
Definition raw_ok (x : lpent * list Z) : Prop :=
  ent_ok x.1 /\ zlen x.2 = lpEncodeBacklenBytes (zlen (ent_bytes x.1)).

Lemma raw_body_app l r : raw_body (l ++ r) = raw_body l ++ raw_body r.
Proof. unfold raw_body. by rewrite fmap_app, join_app. Qed.

Lemma raws_fit_app m p l r : raws_fit m p (l ++ r) <-> raws_fit m p l /\ raws_fit m (p + zlen (raw_body l)) r.
Proof.
  revert p. induction l as [|x l IH]; intros p; cbn [app raws_fit]; [cbn; rewrite Z.add_0_r; tauto|].
  rewrite IH. change (raw_body (x :: l)) with (raw_bytes x ++ raw_body l). rewrite length_app.
  replace (p + zlen (raw_bytes x) + zlen (raw_body l)) with (p + Z.of_nat (length (raw_bytes x) + length (raw_body l))) by lia.
  tauto.
Qed.

Lemma raw_offs_app p l r : raw_offs p (l ++ r) = raw_offs p l ++ raw_offs (p + zlen (raw_body l)) r.
Proof.
  revert p. induction l as [|x l IH]; intros p; cbn [app raw_offs]; [cbn; by rewrite Z.add_0_r|].
  rewrite IH. change (raw_body (x :: l)) with (raw_bytes x ++ raw_body l). rewrite length_app. do 3 f_equal. lia.
Qed.

Lemma raws_fit_ok m p xs : raws_fit m p xs -> Forall raw_ok xs.
Proof.
  revert p. induction xs as [|x xs IH]; intros p; cbn [raws_fit]; [by constructor|].
  intros [(He & Hk & _) F]. constructor; [done|by eapply IH].
Qed.

Section accepted.
Context (m : list Z) (num : Z) (xs : list (lpent * list Z)).
Context (Em : m = lp_hdr (zlen m) num ++ raw_body xs ++ [LP_EOF]) (Hmax : zlen m <= UINT32_MAX).
Context (Hfit : raws_fit m LP_HDR_SIZE xs).

Definition raw_off (l : list (lpent * list Z)) : Z := LP_HDR_SIZE + zlen (raw_body l).

Lemma raw_total : lpBytes m = Ok (zlen m).
Proof. unfold lpBytes. rewrite Em at 1. apply get_total_hdr. lia. Qed.

Lemma raw_length : zlen m = raw_off xs + 1.
Proof. unfold raw_off. rewrite Em at 1. rewrite !length_app. pose proof (lp_hdr_length (zlen m) num). cbn [length]. lia. Qed.

Lemma raw_off_snoc l x : raw_off (l ++ [x]) = raw_off l + zlen (raw_bytes x).
Proof. unfold raw_off. rewrite raw_body_app, length_app. unfold raw_body at 2. cbn. rewrite app_nil_r. lia. Qed.

Lemma drop_off l r : xs = l ++ r -> drop (Z.to_nat (raw_off l)) m = raw_body r ++ [LP_EOF].
Proof.
  intros E. rewrite Em, E, raw_body_app, <- app_assoc, (app_assoc (lp_hdr _ _)).
  pose proof (lp_hdr_length (zlen m) num). apply drop_app_length'. rewrite length_app. unfold raw_off. lia.
Qed.

Lemma raw_at l x r : xs = l ++ x :: r ->
  raw_fits m (raw_off l) x /\ drop (Z.to_nat (raw_off l)) m = raw_bytes x ++ raw_body r ++ [LP_EOF] /\
  raw_off l + zlen (raw_bytes x) <= zlen m - 1.
Proof.
  intros E. pose proof Hfit as F. rewrite E in F. apply raws_fit_app in F as [_ [F _]].
  split; [exact F|]. split; [rewrite (drop_off l (x :: r) E); symmetry; apply app_assoc|].
  pose proof raw_length as Hl. unfold raw_off in *. rewrite E, raw_body_app, length_app in Hl.
  change (raw_body (x :: r)) with (raw_bytes x ++ raw_body r) in Hl. rewrite length_app in Hl. lia.
Qed.

Lemma raw_first l x r : xs = l ++ x :: r -> exists b, mem_get m (raw_off l) = Ok b /\ (b =? LP_EOF) = false.
Proof.
  intros E. destruct (raw_at l x r E) as (F & D & _). destruct (raw_bytes_first _ _ _ F) as (b & t & Eb & Hb).
  exists b. rewrite Eb in D. split; [|lia]. eapply get_drop_cons; [unfold raw_off; lia|exact D].
Qed.

Lemma raw_end l : xs = l -> mem_get m (raw_off l) = Ok LP_EOF.
Proof.
  intros E. apply (get_drop_cons m _ _ []); [unfold raw_off; lia|].
  exact (drop_off l [] (eq_trans E (eq_sym (app_nil_r l)))).
Qed.

Lemma raw_valid l x r : xs = l ++ x :: r -> lpAssertValidEntry m (zlen m) (raw_off l) = Ok tt.
Proof.
  intros E. destruct (raw_at l x r E) as (F & D & L). unfold lpAssertValidEntry.
  rewrite (validate_next_complete m (raw_off l) x (raw_body r ++ [LP_EOF])) by (try done; unfold raw_off; lia). done.
Qed.

Lemma raw_lpFirst r : xs = r -> lpFirst m = Ok (head (raw_offs LP_HDR_SIZE r)).
Proof.
  intros E. unfold lpFirst. destruct r as [|x r].
  - pose proof (raw_end [] E) as G. change (raw_off []) with LP_HDR_SIZE in G. by rewrite G.
  - destruct (raw_first [] x r E) as (b & G & Hb). pose proof (raw_valid [] x r E) as V.
    change (raw_off []) with LP_HDR_SIZE in G, V. rewrite G. rs. rewrite Hb, raw_total. rs. by rewrite V.
Qed.

Lemma raw_lpNext l x r : xs = l ++ x :: r -> lpNext m (raw_off l) = Ok (head (raw_offs (raw_off (l ++ [x])) r)).
Proof.
  intros E. destruct (raw_at l x r E) as ((He & Hk & _) & D & L). pose proof (raw_off_snoc l x) as Es.
  assert (lpSkip m (raw_off l) = Ok (raw_off (l ++ [x]))) as Hs.
  { unfold lpSkip. rewrite size_drop by (unfold raw_off; lia). rewrite D. unfold raw_bytes at 1. rewrite <- app_assoc.
    pose proof (size_unsafe_ok [] x.1 (x.2 ++ raw_body r ++ [LP_EOF]) He) as Hsz. cbn [app length] in Hsz.
    change (Z.of_nat 0) with 0 in Hsz. rewrite Hsz. rs. f_equal. rewrite Es. unfold raw_bytes. rewrite length_app. lia. }
  unfold lpNext. rewrite Hs. rs. assert (xs = (l ++ [x]) ++ r) as E2 by by rewrite <- app_assoc.
  destruct r as [|y r].
  - rewrite raw_end by by rewrite app_nil_r in E2. done.
  - destruct (raw_first _ _ _ E2) as (b & -> & Hb). rs. rewrite Hb, raw_total. rs. by rewrite (raw_valid _ _ _ E2).
Qed.

Lemma raw_lpPrev l r : xs = l ++ r -> lpPrev m (raw_off l) = Ok (last (raw_offs LP_HDR_SIZE l)).
Proof.
  intros E. unfold lpPrev. destruct l as [|x l _] using rev_ind; [done|].
  rewrite <- app_assoc in E. cbn [app] in E. destruct (raw_at l x r E) as (F & D & L).
  pose proof (raw_bytes_length _ _ _ F). destruct F as (He & Hk & Hd).
  replace (raw_off (l ++ [x]) =? LP_HDR_SIZE) with false by (rewrite raw_off_snoc; unfold raw_off; lia).
  rewrite raw_off_snoc, Hd. rs. pose proof (ent_bytes_length _ He). pose proof (backlen_bytes_range (zlen (ent_bytes x.1))).
  assert (zlen (raw_bytes x) = zlen (ent_bytes x.1) + lpEncodeBacklenBytes (zlen (ent_bytes x.1))) as Hr
    by (unfold raw_bytes; rewrite length_app; lia).
  rewrite u64_small by (unfold raw_off in L; lia). rewrite raw_total. rs.
  replace (raw_off l + zlen (raw_bytes x) - 1 - _) with (raw_off l) by lia. rewrite (raw_valid l x r E). rs.
  rewrite raw_offs_app. cbn [raw_offs]. by rewrite last_snoc.
Qed.

Lemma raw_lpLast : lpLast m = Ok (last (raw_offs LP_HDR_SIZE xs)).
Proof.
  unfold lpLast. pose proof raw_total as Ht. unfold lpBytes in Ht. rewrite Ht. rs.
  replace (zlen m - 1) with (raw_off xs) by (pose proof raw_length; lia). apply (raw_lpPrev xs []). by rewrite app_nil_r.
Qed.

Lemma raw_forward fuel l r : xs = l ++ r -> (length r < fuel)%nat ->
  lp_walk fuel (lpNext m) (head (raw_offs (raw_off l) r)) = Ok (raw_offs (raw_off l) r).
Proof.
  revert l r. induction fuel as [|fuel IH]; intros l r E Hf; [lia|]. destruct r as [|x r]; [done|].
  cbn [raw_offs head lp_walk]. rewrite (raw_lpNext l x r E). rs. cbn [length] in Hf. rewrite <- raw_off_snoc.
  rewrite IH; [done|by rewrite <- app_assoc|lia].
Qed.

Lemma raw_backward fuel l r : xs = l ++ r -> (length l < fuel)%nat ->
  lp_walk fuel (lpPrev m) (last (raw_offs LP_HDR_SIZE l)) = Ok (reverse (raw_offs LP_HDR_SIZE l)).
Proof.
  revert l r. induction fuel as [|fuel IH]; intros l r E Hf; [lia|]. destruct l as [|x l _] using rev_ind; [done|].
  rewrite length_app in Hf. cbn [length] in Hf. rewrite raw_offs_app. cbn [raw_offs]. rewrite last_snoc, reverse_snoc.
  cbn [lp_walk]. rewrite <- app_assoc in E. fold (raw_off l). rewrite (raw_lpPrev l (x :: r) E). rs.
  rewrite (IH l (x :: r)); [done|done|lia].
Qed.

Lemma raw_get l r : xs = l ++ r ->
  Forall2 (fun p x => lpGet m p None = ent_ret p x.1 None) (raw_offs (raw_off l) r) r.
Proof.
  revert l. induction r as [|x r IH]; intros l E; cbn [raw_offs]; constructor.
  - destruct (raw_at l x r E) as ((He & _) & D & L).
    assert (m = take (Z.to_nat (raw_off l)) m ++ ent_bytes x.1 ++ (x.2 ++ raw_body r ++ [LP_EOF])) as Et.
    { rewrite (app_assoc (ent_bytes x.1)). fold (raw_bytes x). rewrite <- D. by rewrite take_drop. }
    assert (zlen (take (Z.to_nat (raw_off l)) m) = raw_off l) as Hl by (rewrite length_take; unfold raw_off in *; lia).
    pose proof (get_with_buf_ok (take (Z.to_nat (raw_off l)) m) x.1 (x.2 ++ raw_body r ++ [LP_EOF]) None He) as G.
    rewrite <- Et, Hl in G. exact G.
  - rewrite <- raw_off_snoc. apply IH. by rewrite <- app_assoc.
Qed.
End accepted.

(** C31: the deep validation of arbitrary bytes never reads outside them and never
    loops.  It accepts every listpack that the encoders lay out, with the right count
    or an unknown one.  What it accepts is a header with the length of the bytes, entries
    in one of the encodings, each followed by as many bytes as its back length takes,
    and the end marker; the count of the header is right or unknown; and as it stands,
    the listpack can be walked with [lpFirst] and [lpNext] and with [lpLast] and
    [lpPrev] from end to end, both visit exactly these entries, no assertion fails and
    no byte outside is read, and [lpGet] returns the value of each. *)
Theorem lpValidateIntegrity_spec m :
  Forall is_byte m ->
  exists b, lpValidateIntegrity m (zlen m) true null_cb tt = Ok b /\
    (forall num es, lp_wf num es -> m = lp_image num es [] -> b = true) /\
    (b = true -> exists num xs,
      m = lp_hdr (zlen m) num ++ raw_body xs ++ [LP_EOF] /\ Forall raw_ok xs /\
      (num = LP_HDR_NUMELE_UNKNOWN \/ num = zlen xs) /\
      let ps := raw_offs LP_HDR_SIZE xs in
      (p ← lpFirst m; lp_walk (length m) (lpNext m) p) = Ok ps /\
      (p ← lpLast m; lp_walk (length m) (lpPrev m) p) = Ok (reverse ps) /\
      Forall2 (fun p x => lpGet m p None = ent_ret p x.1 None) ps xs).
Proof.
  intros Hm. destruct (validate_sound m Hm) as (b & Hb & Hs). exists b. split; [done|]. split.
  { intros num es Hwf ->. pose proof (validate_valid _ (image_valid num es Hwf)). congruence. }
  intros ->. destruct (Hs eq_refl) as (num & xs & Em & Hmax & _ & Hc & Hfit). exists num, xs.
  split; [done|]. split; [by eapply raws_fit_ok|]. split; [done|]. cbv zeta.
  pose proof (raws_length _ _ _ Hfit) as Hx. pose proof (raw_length m num xs Em) as Hl. unfold raw_off in Hl.
  rewrite (raw_lpFirst m num xs Em Hmax Hfit xs eq_refl), (raw_lpLast m num xs Em Hmax Hfit). rs. split_and!.
  - apply (raw_forward m num xs Em Hmax Hfit (length m) [] xs); [done|lia].
  - apply (raw_backward m num xs Em Hmax Hfit (length m) xs []); [by rewrite app_nil_r|lia].
  - by apply (raw_get m num xs Em Hfit [] xs).
Qed.

(** Six bytes of header, the integer 5 with its back length, the end marker *)
Lemma lpValidateIntegrity_spec_witness :
  lpValidateIntegrity [9; 0; 0; 0; 1; 0; 5; 1; 255] 9 true null_cb tt = Ok true /\
  exists num xs, [9; 0; 0; 0; 1; 0; 5; 1; 255] = lp_hdr 9 num ++ raw_body xs ++ [LP_EOF] /\ Forall raw_ok xs /\
    (num = LP_HDR_NUMELE_UNKNOWN \/ num = zlen xs).
Proof.
  split; [reflexivity|].
  destruct (lpValidateIntegrity_spec [9; 0; 0; 0; 1; 0; 5; 1; 255]) as (b & E & _ & A).
  { repeat (apply Forall_cons; split; [unfold is_byte; lia|]). apply Forall_nil_2. }
  injection E as <-. destruct (A eq_refl) as (num & xs & Em & F & C & _). exists num, xs. auto.
Defined.

