(* ===== verification/LpMod.v ===== *)
(** Insertion, replacement and deletion in listpacks: [listpack.c].

    The memory of a listpack is its whole allocation, so that its length is what
    [lp_malloc_size] returns; the allocator is a parameter ([Allocator]).  Each
    operation is related to the operation on the list of entries. *)

From S2P Require Import Prelude Numstr Listpack LpNav LpValid.

Definition lp_malloc_size (lp : list Z) : Z := zlen lp.
Definition lp_malloc `{Allocator} (n : Z) : list Z := junk <$> seq 0 (Z.to_nat (usable n)).
Definition lp_realloc `{Allocator} (lp : list Z) (n : Z) : list Z := mem_realloc junk lp (usable n).

Section ops.
Context `{Allocator}.

Definition lpNew (capacity : Z) : res (list Z) :=
  let lp := lp_malloc (if capacity >? LP_HDR_SIZE + 1 then capacity else LP_HDR_SIZE + 1) in
  lp ← lpSetTotalBytes lp (LP_HDR_SIZE + 1);
  lp ← lpSetNumElements lp 0;
  mem_write lp LP_HDR_SIZE [LP_EOF].

Definition lpShrinkToFit (lp : list Z) : res (list Z) :=
  size ← lpGetTotalBytes lp;
  if size <? lp_malloc_size lp then Ok (lp_realloc lp size) else Ok lp.

Inductive lp_where : Set := LP_BEFORE | LP_AFTER | LP_REPLACE.

(** The arguments [elestr] and [eleint] of [lpInsert]: a string, an encoded
    integer, or both null. *)
Inductive lp_elem : Set :=
| EleStr (elestr : list Z)
| EleInt (eleint : list Z)
| EleNone.

Definition ASSERT_INTEGRITY (lp : list Z) (p : Z) : res unit :=
  total ← lpGetTotalBytes lp; assert_ ((p >=? LP_HDR_SIZE) && (p <? total)).
Definition ASSERT_INTEGRITY_LEN (lp : list Z) (p len : Z) : res unit :=
  total ← lpGetTotalBytes lp; assert_ ((p >=? LP_HDR_SIZE) && (p + len <? total)).

(** The bytes of the encoded element and [enclen] *)
Definition lp_encode_elem (ele : lp_elem) : list Z * Z :=
  match ele with
  | EleStr elestr =>
      match lpEncodeGetType elestr with
      | LP_ENCODING_INT intenc => (intenc, zlen intenc)
      | LP_ENCODING_STRING enclen => (lpEncodeString elestr, enclen)
      end
  | EleInt eleint => (eleint, zlen eleint)
  | EleNone => ([], 0)
  end.

(** [None]: the null pointer is returned because the listpack would be too large.
    Otherwise the new memory and [*newp]. *)
Definition lpInsert (lp : list Z) (ele : lp_elem) (p : Z) (where_ : lp_where) :
    res (option (list Z * option Z)) :=
  let delete := match ele with EleNone => true | _ => false end in
  let where_ := if delete then LP_REPLACE else where_ in
  '(p, where_) ←
    match where_ with
    | LP_AFTER => p ← lpSkip lp p; _ ← ASSERT_INTEGRITY lp p; Ok (p, LP_BEFORE)
    | _ => Ok (p, where_)
    end;
  let poff := p in
  let replace := match where_ with LP_REPLACE => true | _ => false end in
  let '(enc, enclen) := lp_encode_elem ele in
  let backlen := if delete then [] else lpEncodeBacklen enclen in
  let backlen_size := zlen backlen in
  old_listpack_bytes ← lpGetTotalBytes lp;
  replaced_len ←
    (if replace then
       n ← lpCurrentEncodedSizeUnsafe lp p;
       let replaced_len := u32 (n + lpEncodeBacklenBytes n) in
       _ ← ASSERT_INTEGRITY_LEN lp p replaced_len; Ok replaced_len
     else Ok 0);
  let new_listpack_bytes := u64 (old_listpack_bytes + enclen + backlen_size - replaced_len) in
  if new_listpack_bytes >? UINT32_MAX then Ok None else
  let lp := if (new_listpack_bytes >? old_listpack_bytes) && (new_listpack_bytes >? lp_malloc_size lp)
            then lp_realloc lp new_listpack_bytes else lp in
  lp ← (if replace then
          memmove lp (poff + enclen + backlen_size) (poff + replaced_len)
            (old_listpack_bytes - poff - replaced_len)
        else memmove lp (poff + enclen + backlen_size) poff (old_listpack_bytes - poff));
  let lp := if new_listpack_bytes <? old_listpack_bytes
            then lp_realloc lp new_listpack_bytes else lp in
  newp ← (if delete then
            b ← mem_get lp poff; Ok (if b =? LP_EOF then None else Some poff)
          else Ok (Some poff));
  lp ← (if delete then Ok lp
        else lp ← mem_write lp poff enc; mem_write lp (poff + enclen) backlen);
  lp ← (if negb replace || delete then
          num_elements ← lpGetNumElements lp;
          if negb (num_elements =? LP_HDR_NUMELE_UNKNOWN) then
            if delete then lpSetNumElements lp (num_elements - 1)
            else lpSetNumElements lp (num_elements + 1)
          else Ok lp
        else Ok lp);
  lp ← lpSetTotalBytes lp new_listpack_bytes;
  Ok (Some (lp, newp)).

Definition lpInsertString (lp s : list Z) (p : Z) (where_ : lp_where) :=
  lpInsert lp (EleStr s) p where_.
Definition lpInsertInteger (lp : list Z) (lval p : Z) (where_ : lp_where) :=
  lpInsert lp (EleInt (lpEncodeIntegerGetType lval)) p where_.

(** A null listpack where one is needed: the next access faults. *)
Definition lp_nonnull (zl : option (list Z)) : res (list Z) :=
  match zl with Some zl => Ok zl | None => Fault OutOfBounds end.

(** The wrappers that drop [newp] *)
Definition lp_only (r : res (option (list Z * option Z))) : res (option (list Z)) :=
  match r with Ok o => Ok (option_map fst o) | Fault f => Fault f end.

Definition lpAppend (lp ele : list Z) : res (option (list Z)) :=
  listpack_bytes ← lpGetTotalBytes lp;
  let eofptr := listpack_bytes - 1 in
  lp_only (lpInsert lp (EleStr ele) eofptr LP_BEFORE).
Definition lpAppendInteger (lp : list Z) (lval : Z) : res (option (list Z)) :=
  listpack_bytes ← lpGetTotalBytes lp;
  let eofptr := listpack_bytes - 1 in
  lp_only (lpInsertInteger lp lval eofptr LP_BEFORE).

Definition lpPrepend (lp s : list Z) : res (option (list Z)) :=
  p ← lpFirst lp;
  match p with
  | None => lpAppend lp s
  | Some p => lp_only (lpInsert lp (EleStr s) p LP_BEFORE)
  end.
Definition lpPrependInteger (lp : list Z) (lval : Z) : res (option (list Z)) :=
  p ← lpFirst lp;
  match p with
  | None => lpAppendInteger lp lval
  | Some p => lp_only (lpInsertInteger lp lval p LP_BEFORE)
  end.

Definition lpReplace (lp : list Z) (p : Z) (s : list Z) := lpInsert lp (EleStr s) p LP_REPLACE.
Definition lpReplaceInteger (lp : list Z) (p lval : Z) := lpInsertInteger lp lval p LP_REPLACE.
Definition lpDelete (lp : list Z) (p : Z) := lpInsert lp EleNone p LP_REPLACE.

(** An entry of a batch: a string or an integer *)
Inductive listpackEntry : Set := SVal (sval : list Z) | LVal (lval : Z).

Definition batch_elem (e : listpackEntry) : lp_elem :=
  match e with SVal s => EleStr s | LVal v => EleInt (lpEncodeIntegerGetType v) end.

(** First loop: [addedlen]; second loop: the writes from [dst] on, with the
    position of the last element in [newp]. *)
Fixpoint batch_addedlen (entries : list listpackEntry) (addedlen : Z) : Z :=
  match entries with
  | [] => addedlen
  | e :: entries =>
      let enclen := snd (lp_encode_elem (batch_elem e)) in
      batch_addedlen entries (u64 (addedlen + enclen + zlen (lpEncodeBacklen enclen)))
  end.
Fixpoint batch_write (lp : list Z) (dst : Z) (newp : option Z) (entries : list listpackEntry) :
    res (list Z * option Z) :=
  match entries with
  | [] => Ok (lp, newp)
  | e :: entries =>
      let newp := Some dst in
      let '(enc, enclen) := lp_encode_elem (batch_elem e) in
      lp ← mem_write lp dst enc;
      let dst := dst + enclen in
      lp ← mem_write lp dst (lpEncodeBacklen enclen);
      batch_write lp (dst + zlen (lpEncodeBacklen enclen)) newp entries
  end.

Definition lpBatchInsert (lp : list Z) (p : Z) (where_ : lp_where) (entries : list listpackEntry) :
    res (option (list Z * option Z)) :=
  let len := zlen entries in
  _ ← assert_ (match where_ with LP_REPLACE => false | _ => true end);
  _ ← assert_ (len >? 0);
  p ← match where_ with
      | LP_AFTER => p ← lpSkip lp p; _ ← ASSERT_INTEGRITY lp p; Ok p
      | _ => Ok p
      end;
  let addedlen := batch_addedlen entries 0 in
  old_listpack_bytes ← lpGetTotalBytes lp;
  let new_listpack_bytes := u64 (old_listpack_bytes + addedlen) in
  if new_listpack_bytes >? UINT32_MAX then Ok None else
  let poff := p in
  let lp := if (new_listpack_bytes >? old_listpack_bytes) && (new_listpack_bytes >? lp_malloc_size lp)
            then lp_realloc lp new_listpack_bytes else lp in
  lp ← memmove lp (poff + addedlen) poff (old_listpack_bytes - poff);
  '(lp, newp) ← batch_write lp poff None entries;
  num_elements ← lpGetNumElements lp;
  lp ← (if negb (num_elements =? LP_HDR_NUMELE_UNKNOWN) then
          if len >? LP_HDR_NUMELE_UNKNOWN - num_elements
          then lpSetNumElements lp LP_HDR_NUMELE_UNKNOWN
          else lpSetNumElements lp (num_elements + len)
        else Ok lp);
  lp ← lpSetTotalBytes lp new_listpack_bytes;
  Ok (Some (lp, newp)).

Definition lpBatchAppend (lp : list Z) (entries : list listpackEntry) : res (option (list Z)) :=
  listpack_bytes ← lpGetTotalBytes lp;
  let eofptr := listpack_bytes - 1 in
  lp_only (lpBatchInsert lp eofptr LP_BEFORE entries).

(** [while (num--)]: the number of deleted entries and the entry after them *)
Fixpoint lpDeleteRange_loop (fuel : nat) (lp : list Z) (bytes num deleted tail : Z) : res (Z * Z) :=
  if num =? 0 then Ok (deleted, tail) else
  match fuel with
  | O => Fault OutOfFuel
  | S fuel =>
      let deleted := deleted + 1 in
      tail ← lpSkip lp tail;
      b ← mem_get lp tail;
      if b =? LP_EOF then Ok (deleted, tail)
      else _ ← lpAssertValidEntry lp bytes tail;
           lpDeleteRange_loop fuel lp bytes (num - 1) deleted tail
  end.

(** The listpack and [*p] *)
Definition lpDeleteRangeWithEntry (lp : list Z) (p : Z) (num : Z) : res (list Z * option Z) :=
  bytes ← lpBytes lp;
  let eofptr := bytes - 1 in
  let first := p in
  if num =? 0 then Ok (lp, Some p) else
  '(deleted, tail) ← lpDeleteRange_loop (length lp) lp bytes num 0 p;
  let poff := first in
  lp ← memmove lp first tail (eofptr - tail + 1);
  lp ← lpSetTotalBytes lp (bytes - (tail - first));
  numele ← lpGetNumElements lp;
  lp ← (if negb (numele =? LP_HDR_NUMELE_UNKNOWN) then lpSetNumElements lp (numele - deleted)
        else Ok lp);
  lp ← lpShrinkToFit lp;
  b ← mem_get lp poff;
  Ok (lp, if b =? LP_EOF then None else Some poff).

Definition lpDeleteRange (lp : list Z) (index num : Z) : res (list Z) :=
  numele ← lpGetNumElements lp;
  if num =? 0 then Ok lp else
  o ← lpSeek lp index;
  match o with
  | None => Ok lp
  | Some p =>
      let known := negb (numele =? LP_HDR_NUMELE_UNKNOWN) in
      let index := if known && (index <? 0) then numele + index else index in
      if known && (u64 (numele - u64 index) <=? num) then
        lp ← mem_write lp p [LP_EOF];
        lp ← lpSetTotalBytes lp (p + 1);
        lp ← lpSetNumElements lp index;
        lpShrinkToFit lp
      else
        '(lp, _) ← lpDeleteRangeWithEntry lp p num; Ok lp
  end.

(** The loop of [lpBatchDelete] moves the bytes between two deleted entries to
    [dst]. *)
Fixpoint lpBatchDelete_loop (lp : list Z) (ps : list Z) (lp_end dst : Z) : res (list Z * Z) :=
  match ps with
  | [] => Ok (lp, dst)
  | skip :: ps =>
      b ← mem_get lp skip;
      _ ← assert_ (negb (b =? LP_EOF));
      keep_start ← lpSkip lp skip;
      let move (keep_end : Z) :=
        _ ← assert_ (keep_end >? keep_start);
        let bytes_to_keep := keep_end - keep_start in
        lp ← memmove lp dst keep_start bytes_to_keep;
        lpBatchDelete_loop lp ps lp_end (dst + bytes_to_keep) in
      match ps with
      | next :: _ =>
          if keep_start =? next then lpBatchDelete_loop lp ps lp_end dst else move next
      | [] => move lp_end
      end
  end.

Definition lpBatchDelete (lp : list Z) (ps : list Z) : res (list Z) :=
  match ps with
  | [] => Ok lp
  | dst :: _ =>
      total_bytes ← lpGetTotalBytes lp;
      let lp_end := total_bytes in
      last ← mem_get lp (lp_end - 1);
      _ ← assert_ (last =? LP_EOF);
      '(lp, dst) ← lpBatchDelete_loop lp ps lp_end dst;
      let deleted_bytes := lp_end - dst in
      let total_bytes := u64 (total_bytes - deleted_bytes) in
      last ← mem_get lp (total_bytes - 1);
      _ ← assert_ (last =? LP_EOF);
      lp ← lpSetTotalBytes lp total_bytes;
      numele ← lpGetNumElements lp;
      lp ← (if negb (numele =? LP_HDR_NUMELE_UNKNOWN) then lpSetNumElements lp (numele - zlen ps)
            else Ok lp);
      lpShrinkToFit lp
  end.

(** [same]: both arguments point to the same listpack.  The result is the merged
    listpack and [append], which tells whether [*first] or [*second] was kept. *)
Definition lpMerge (first second : option (list Z)) (same : bool) :
    res (option (list Z * bool)) :=
  match first, second with
  | Some first, Some second =>
      if same then Ok None else
      first_bytes ← lpBytes first;
      '(first_len, first) ← lpLength first;
      second_bytes ← lpBytes second;
      '(second_len, second) ← lpLength second;
      let append := first_bytes >=? second_bytes in
      let '(target, target_bytes, source, source_bytes) :=
        if append then (first, first_bytes, second, second_bytes)
        else (second, second_bytes, first, first_bytes) in
      let lpbytes := u64 (first_bytes + second_bytes - LP_HDR_SIZE - 1) in
      _ ← assert_ (lpbytes <? UINT32_MAX);
      let lplength := u64 (first_len + second_len) in
      let lplength := if lplength <? LP_HDR_NUMELE_UNKNOWN then lplength else LP_HDR_NUMELE_UNKNOWN in
      let target := lp_realloc target lpbytes in
      target ←
        (if append then
           d ← mem_read source LP_HDR_SIZE (source_bytes - LP_HDR_SIZE);
           mem_write target (target_bytes - 1) d
         else
           target ← memmove target (source_bytes - 1) LP_HDR_SIZE (target_bytes - LP_HDR_SIZE);
           d ← mem_read source 0 (source_bytes - 1);
           mem_write target 0 d);
      target ← lpSetNumElements target lplength;
      target ← lpSetTotalBytes target lpbytes;
      Ok (Some (target, append))
  | _, _ => Ok None
  end.

Definition lpDup (lp : list Z) : res (list Z) :=
  lpbytes ← lpBytes lp;
  let newlp := lp_malloc lpbytes in
  d ← mem_read lp 0 lpbytes;
  mem_write newlp 0 d.
End ops.

(** ** Moving the tail of a buffer *)

Lemma take_split (d : list Z) n : (n <= length d)%nat ->
  exists t r, d = t ++ r /\ length t = n.
Proof.
  intros Hn. exists (take n d), (drop n d). rewrite take_drop, length_take. split; [done|lia].
Qed.

(** The tail [t] moved from after [d] to [k] bytes after [a]: the [k] bytes in
    between are free, whether this makes room or closes a gap. *)
Lemma memmove_splice (a d t s : list Z) k dst src n :
  0 <= k -> dst = zlen a + k -> src = zlen a + zlen d -> n = zlen t ->
  k <= zlen d + zlen s ->
  exists g s', memmove (a ++ d ++ t ++ s) dst src n = Ok (a ++ g ++ t ++ s') /\
    zlen g = k /\ zlen s' = zlen d + zlen s - k.
Proof.
  intros Hk -> -> -> Hfit. unfold memmove.
  rewrite (app_assoc a d), (mem_read_app (a ++ d) t s) by (try rewrite length_app; lia). rs.
  rewrite mem_write_ok by (rewrite ?length_app; lia). rewrite <- app_assoc.
  exists (take (Z.to_nat k) (d ++ t ++ s)),
    (drop (Z.to_nat (zlen a + k) + length t) (a ++ d ++ t ++ s)).
  rewrite take_app_ge by lia.
  replace (Z.to_nat (zlen a + k) - length a)%nat with (Z.to_nat k) by lia.
  rewrite <- app_assoc. split; [done|].
  rewrite length_take, length_drop, !length_app. lia.
Qed.

(** A reallocation keeps the bytes that fit. *)
Lemma realloc_keep `{Allocator} (x y : list Z) n :
  zlen x <= n -> exists y', lp_realloc (x ++ y) n = x ++ y' /\ n <= zlen x + zlen y'.
Proof.
  intros Hx. unfold lp_realloc, mem_realloc. pose proof (usable_ge n) as Hu.
  rewrite take_app_ge by lia. rewrite <- app_assoc. eexists. split; [done|].
  rewrite length_app, length_take, length_fmap, length_seq, length_app. lia.
Qed.

(** ** The common part of insertion, replacement and deletion *)

Section mod_proofs.
Context `{Allocator}.

(** Grow, move the tail, shrink: [k] free bytes in place of [d]. *)
Lemma splice_ok (a d t s : list Z) k old new :
  old = zlen a + zlen d + zlen t -> new = old + k - zlen d -> 0 <= k ->
  let m := a ++ d ++ t ++ s in
  let m1 := if (new >? old) && (new >? lp_malloc_size m) then lp_realloc m new else m in
  exists m2 g s', memmove m1 (zlen a + k) (zlen a + zlen d) (zlen t) = Ok m2 /\
    (if new <? old then lp_realloc m2 new else m2) = a ++ g ++ t ++ s' /\ zlen g = k.
Proof.
  intros -> -> Hk m m1. unfold lp_malloc_size in m1.
  assert (exists s1, m1 = a ++ d ++ t ++ s1 /\ k <= zlen d + zlen s1) as (s1 & -> & Hs1).
  { subst m1 m. destruct (_ && _) eqn:E.
    - destruct (realloc_keep (a ++ d ++ t) s (zlen a + zlen d + zlen t + k - zlen d)) as (y & Ey & Hy).
      { rewrite !length_app. lia. }
      rewrite <- !app_assoc in Ey. exists y. rewrite Ey. split; [done|].
      rewrite !length_app in Hy. lia.
    - exists s. split; [done|]. rewrite !length_app in E. lia. }
  destruct (memmove_splice a d t s1 k (zlen a + k) (zlen a + zlen d) (zlen t))
    as (g & s' & Hm & Hg & Hs'); [lia|done|done|done|lia|].
  destruct (Z.ltb_spec (zlen a + zlen d + zlen t + k - zlen d) (zlen a + zlen d + zlen t)).
  - destruct (realloc_keep (a ++ g ++ t) s' (zlen a + zlen d + zlen t + k - zlen d)) as (y & Ey & _).
    { rewrite !length_app. lia. }
    rewrite <- !app_assoc in Ey. by exists (a ++ g ++ t ++ s'), g, y.
  - by exists (a ++ g ++ t ++ s'), g, s'.
Qed.

(** The encoded element and its back length fill the free bytes. *)
Lemma write_entry_ok (a g t enc bk : list Z) :
  zlen g = zlen enc + zlen bk ->
  (lp ← mem_write (a ++ g ++ t) (zlen a) enc; mem_write lp (zlen a + zlen enc) bk) =
    Ok (a ++ (enc ++ bk) ++ t).
Proof.
  intros Hg. destruct (take_split g (length enc)) as (g1 & g2 & -> & Hl); [lia|].
  rewrite length_app in Hg. rewrite <- app_assoc, (mem_write_app a g1 enc) by (done || lia). rs.
  rewrite app_assoc, (mem_write_app (a ++ enc) g2 bk) by (try rewrite length_app; lia).
  by rewrite <- !app_assoc.
Qed.

(** The element encodes to the entry [e]. *)
Definition elem_ent (ele : lp_elem) (e : lpent) : Prop :=
  lp_encode_elem ele = (ent_bytes e, zlen (ent_bytes e)) /\ ent_ok e /\ ele <> EleNone.

Lemma elem_ent_str s : zlen s < 2 ^ 32 - 5 -> Forall is_byte s -> elem_ent (EleStr s) (ele_ent s).
Proof.
  intros Hs Hb. split; [|split; [by apply ele_ent_ok|done]]. cbn [lp_encode_elem].
  pose proof (encode_get_type s Hs) as E. destruct (lpEncodeGetType s); [by subst|].
  by destruct E as [-> ->].
Qed.
Lemma elem_ent_int v : is_i64 v -> elem_ent (EleInt (lpEncodeIntegerGetType v)) (int_ent v).
Proof.
  intros Hv. split; [|split; [by apply int_ent_ok|done]]. cbn [lp_encode_elem].
  by rewrite encode_integer.
Qed.

(** The header count after [k] more entries *)
Definition num_add (num k : Z) : Z := if num =? LP_HDR_NUMELE_UNKNOWN then num else num + k.

Lemma lp_total_app l e r : lp_total (l ++ e :: r) = lp_total (l ++ r) + ent_size e.
Proof.
  unfold lp_total. rewrite !lp_body_app, lp_body_cons, !length_app, !Nat2Z.inj_add, lp_entry_length. lia.
Qed.

Lemma lp_wf_insert num l e r :
  lp_wf num (l ++ r) -> ent_ok e -> lp_total (l ++ e :: r) <= UINT32_MAX ->
  lp_wf (num_add num 1) (l ++ e :: r).
Proof.
  intros (Hok & _ & Hn) He Ht. split; [|split; [done|]].
  - rewrite Forall_app, Forall_cons. apply Forall_app in Hok as [? ?]. done.
  - unfold num_add. destruct Hn as [->|[-> Hlt]]; [by left|]. rewrite !length_app in *. cbn [length].
    replace (Z.of_nat (length l + length r) =? LP_HDR_NUMELE_UNKNOWN) with false by lia. lia.
Qed.

Lemma lp_wf_delete num l e r : lp_wf num (l ++ e :: r) -> lp_wf (num_add num (-1)) (l ++ r).
Proof.
  intros (Hok & Ht & Hn). rewrite lp_total_app in Ht.
  rewrite Forall_app, Forall_cons in Hok. destruct Hok as (? & He & ?).
  pose proof (ent_size_range e He). split; [by apply Forall_app|]. split; [lia|].
  unfold num_add. destruct Hn as [->|[-> Hlt]]; [by left|]. rewrite !length_app in *. cbn [length] in *.
  replace (Z.of_nat (length l + S (length r)) =? LP_HDR_NUMELE_UNKNOWN) with false by lia. lia.
Qed.

Lemma lp_wf_replace num l e e' r :
  lp_wf num (l ++ e :: r) -> ent_ok e' -> lp_total (l ++ e' :: r) <= UINT32_MAX ->
  lp_wf num (l ++ e' :: r).
Proof.
  intros (Hok & _ & Hn) He Ht. rewrite Forall_app, Forall_cons in Hok. destruct Hok as (? & _ & ?).
  split; [by rewrite Forall_app, Forall_cons|]. split; [done|].
  by rewrite length_app in *.
Qed.

(** The image around a position *)
Lemma lp_image_at num l r slack :
  lp_image num (l ++ r) slack =
  (lp_hdr (lp_total (l ++ r)) num ++ lp_body l) ++ [] ++ (lp_body r ++ [LP_EOF]) ++ slack.
Proof. unfold lp_image. rewrite lp_body_app, <- !app_assoc. done. Qed.

Lemma lp_image_at_entry num l e r slack :
  lp_image num (l ++ e :: r) slack =
  (lp_hdr (lp_total (l ++ e :: r)) num ++ lp_body l) ++ lp_entry e ++ (lp_body r ++ [LP_EOF]) ++ slack.
Proof. unfold lp_image. rewrite lp_body_app, lp_body_cons, <- !app_assoc. done. Qed.

(** The header updates that end the operations *)
Lemma finish_header total total' num k l (x t : list Z) :
  0 <= num <= 65535 ->
  (lp ← (num_elements ← lpGetNumElements ((lp_hdr total num ++ lp_body l) ++ x ++ t);
         if negb (num_elements =? LP_HDR_NUMELE_UNKNOWN)
         then lpSetNumElements ((lp_hdr total num ++ lp_body l) ++ x ++ t) (num_elements + k)
         else Ok ((lp_hdr total num ++ lp_body l) ++ x ++ t));
   lpSetTotalBytes lp total') =
  Ok (lp_hdr total' (num_add num k) ++ lp_body l ++ x ++ t).
Proof.
  intros Hn. rewrite <- app_assoc, get_num_hdr by done. rs. unfold num_add.
  destruct (num =? LP_HDR_NUMELE_UNKNOWN); cbn [negb].
  - rs. by rewrite set_total_hdr.
  - rewrite set_num_hdr. rs. by rewrite set_total_hdr.
Qed.

Lemma insert_before num l r slack ele e :
  lp_wf num (l ++ r) -> elem_ent ele e ->
  if lp_total (l ++ e :: r) >? UINT32_MAX
  then lpInsert (lp_image num (l ++ r) slack) ele (lp_off l) LP_BEFORE = Ok None
  else exists slack',
    lpInsert (lp_image num (l ++ r) slack) ele (lp_off l) LP_BEFORE =
      Ok (Some (lp_image (num_add num 1) (l ++ e :: r) slack', Some (lp_off l))).
Proof.
  intros Hwf (Henc & He & Hne). pose proof (lp_wf_num _ _ Hwf) as Hn.
  pose proof (ent_size_range e He) as Hs. pose proof Hwf as (_ & Ht & _).
  assert (match ele with EleNone => true | _ => false end = false) as Hdel by by destruct ele.
  unfold lpInsert. rewrite Hdel, Henc. rs. rewrite nav_total by done. rs.
  set (bk := lpEncodeBacklen (zlen (ent_bytes e))).
  assert (zlen (ent_bytes e) + zlen bk = ent_size e) as Hk
    by (unfold bk, ent_size; rewrite encode_backlen_length; done).
  assert (u64 (lp_total (l ++ r) + zlen (ent_bytes e) + zlen bk - 0) = lp_total (l ++ e :: r)) as Hnew.
  { rewrite lp_total_app, u64_small; unfold lp_total in *; lia. }
  rewrite Hnew. destruct (lp_total (l ++ e :: r) >? UINT32_MAX) eqn:Eb; [done|].
  set (a := lp_hdr (lp_total (l ++ r)) num ++ lp_body l).
  set (t := lp_body r ++ [LP_EOF]).
  assert (zlen a = lp_off l) as Ha by apply lp_prefix_length.
  assert (lp_total (l ++ r) = zlen a + 0 + zlen t) as Hold
    by (unfold t; rewrite Ha, lp_total_off, lp_off_app, length_app; cbn; lia).
  destruct (splice_ok a [] t slack (ent_size e) (lp_total (l ++ r)) (lp_total (l ++ e :: r)))
    as (m2 & g & s' & Hm & Hif & Hg); [done|rewrite lp_total_app; cbn; lia|lia|].
  rewrite lp_image_at. fold a t.
  replace (lp_off l + zlen (ent_bytes e) + zlen bk) with (lp_off l + ent_size e) by lia.
  replace (lp_total (l ++ r) - lp_off l) with (zlen t) by lia.
  change (zlen (@nil Z)) with 0 in Hm. rewrite Z.add_0_r, Ha in Hm. rewrite Hm. rs. rewrite Hif, <- Ha, write_entry_ok by lia. rs. cbn [negb orb].
  exists s'. pose proof (finish_header (lp_total (l ++ r)) (lp_total (l ++ e :: r)) num 1 l
    (ent_bytes e ++ bk) (t ++ s') Hn) as Hf. fold a in Hf.
  destruct (mbind _ (lpGetNumElements _)) as [lp|]; [|done]. rs. cbn [mbind res_bind] in Hf.
  rewrite Hf. rs. do 3 f_equal. unfold lp_image, t. rewrite lp_body_app, lp_body_cons.
  unfold lp_entry. fold bk. by rewrite <- !app_assoc.
Qed.

(** The entry that is replaced or deleted *)
Lemma replaced_len_ok num l e r slack :
  lp_wf num (l ++ e :: r) ->
  (n ← lpCurrentEncodedSizeUnsafe (lp_image num (l ++ e :: r) slack) (lp_off l);
   _ ← ASSERT_INTEGRITY_LEN (lp_image num (l ++ e :: r) slack) (lp_off l)
         (u32 (n + lpEncodeBacklenBytes n));
   Ok (u32 (n + lpEncodeBacklenBytes n))) = Ok (ent_size e).
Proof.
  intros Hwf. rewrite (nav_size num _ slack Hwf l e r) by done. rs. fold (ent_size e).
  pose proof (nav_ent_ok _ _ Hwf l e r eq_refl) as He. pose proof (ent_size_range e He).
  pose proof (lp_total_app l e r) as Hta. pose proof Hwf as (_ & Ht & _).
  pose proof (lp_off_le l r). pose proof (lp_total_off (l ++ r)).
  assert (LP_HDR_SIZE <= lp_off l) by (unfold lp_off; lia).
  rewrite u32_small by lia. unfold ASSERT_INTEGRITY_LEN. rewrite nav_total by done. rs.
  by replace (_ && _) with true by lia.
Qed.

Lemma replace_ok num l e0 r slack ele e :
  lp_wf num (l ++ e0 :: r) -> elem_ent ele e ->
  if lp_total (l ++ e :: r) >? UINT32_MAX
  then lpInsert (lp_image num (l ++ e0 :: r) slack) ele (lp_off l) LP_REPLACE = Ok None
  else exists slack',
    lpInsert (lp_image num (l ++ e0 :: r) slack) ele (lp_off l) LP_REPLACE =
      Ok (Some (lp_image num (l ++ e :: r) slack', Some (lp_off l))).
Proof.
  intros Hwf (Henc & He & Hne). pose proof (ent_size_range e He) as Hs.
  pose proof (nav_ent_ok _ _ Hwf l e0 r eq_refl) as He0. pose proof (ent_size_range e0 He0) as Hs0.
  pose proof Hwf as (_ & Ht & _). pose proof (lp_total_app l e0 r) as Hta0.
  pose proof (lp_total_app l e r) as Hta.
  assert (LP_HDR_SIZE < lp_total (l ++ r)) by (unfold lp_total; lia).
  assert (match ele with EleNone => true | _ => false end = false) as Hdel by by destruct ele.
  unfold lpInsert. rewrite Hdel, Henc. rs. rewrite nav_total by done. rs.
  rewrite replaced_len_ok by done. rs.
  set (bk := lpEncodeBacklen (zlen (ent_bytes e))).
  assert (zlen (ent_bytes e) + zlen bk = ent_size e) as Hk
    by (unfold bk, ent_size; rewrite encode_backlen_length; done).
  rewrite u64_small by lia.
  replace (lp_total (l ++ e0 :: r) + zlen (ent_bytes e) + zlen bk - ent_size e0)
    with (lp_total (l ++ e :: r)) by lia.
  destruct (lp_total (l ++ e :: r) >? UINT32_MAX) eqn:Eb; [done|].
  set (a := lp_hdr (lp_total (l ++ e0 :: r)) num ++ lp_body l).
  set (t := lp_body r ++ [LP_EOF]).
  assert (zlen a = lp_off l) as Ha by apply lp_prefix_length.
  assert (lp_total (l ++ e0 :: r) = zlen a + zlen (lp_entry e0) + zlen t) as Hold.
  { unfold t. rewrite Hta0, Ha, lp_total_off, lp_off_app, length_app, lp_entry_length. cbn. lia. }
  destruct (splice_ok a (lp_entry e0) t slack (ent_size e) (lp_total (l ++ e0 :: r))
    (lp_total (l ++ e :: r))) as (m2 & g & s' & Hm & Hif & Hg);
    [done|rewrite lp_entry_length; lia|lia|].
  rewrite lp_image_at_entry. fold a t.
  replace (lp_off l + zlen (ent_bytes e) + zlen bk) with (lp_off l + ent_size e) by lia.
  rewrite lp_entry_length in Hold, Hm.
  replace (lp_total (l ++ e0 :: r) - lp_off l - ent_size e0) with (zlen t) by lia.
  rewrite Ha in Hm. rewrite Hm. rs. rewrite Hif, <- Ha, write_entry_ok by lia. rs. cbn [negb orb].
  rs. exists s'. unfold a. rewrite <- (app_assoc (lp_hdr _ _) (lp_body l)), set_total_hdr. rs. do 3 f_equal.
  unfold lp_image, t. rewrite lp_body_app, lp_body_cons. unfold lp_entry. fold bk.
  by rewrite <- !app_assoc.
Qed.

(** The pointer to the entry after a position, null at the end marker *)
Lemma next_ptr_ok (a s : list Z) l r :
  zlen a = lp_off l -> Forall ent_ok r ->
  (b ← mem_get (a ++ (lp_body r ++ [LP_EOF]) ++ s) (lp_off l);
   Ok (if b =? LP_EOF then None else Some (lp_off l))) = Ok (lp_ptr (l ++ r) (length l)).
Proof.
  intros Ha Hr. rewrite <- Ha. destruct Hr as [|e r He Hr].
  - change ((lp_body [] ++ [LP_EOF]) ++ s) with (LP_EOF :: s). rewrite mem_get_here. rs.
    by rewrite app_nil_r, lp_ptr_none by lia.
  - rewrite lp_body_cons. unfold lp_entry. destruct (ent_bytes_first e He) as (b & t & -> & Hb).
    cbn [app]. rewrite mem_get_here. rs. replace (b =? LP_EOF) with false by lia.
    rewrite lp_ptr_some, take_app_length by (rewrite length_app; cbn; lia). by rewrite Ha.
Qed.

Lemma delete_ok num l e0 r slack w :
  lp_wf num (l ++ e0 :: r) ->
  exists slack',
    lpInsert (lp_image num (l ++ e0 :: r) slack) EleNone (lp_off l) w =
      Ok (Some (lp_image (num_add num (-1)) (l ++ r) slack', lp_ptr (l ++ r) (length l))).
Proof.
  intros Hwf. pose proof (lp_wf_num _ _ Hwf) as Hn.
  pose proof (nav_ent_ok _ _ Hwf l e0 r eq_refl) as He0. pose proof (ent_size_range e0 He0) as Hs0.
  pose proof Hwf as (_ & Ht & _). pose proof (lp_total_app l e0 r) as Hta0.
  assert (LP_HDR_SIZE < lp_total (l ++ r)) by (unfold lp_total; lia).
  unfold lpInsert. cbn [lp_encode_elem]. rs. rewrite nav_total by done. rs.
  rewrite replaced_len_ok by done. rs. cbn [length]. change (Z.of_nat 0) with 0.
  rewrite u64_small by lia.
  replace (lp_total (l ++ e0 :: r) + 0 + 0 - ent_size e0) with (lp_total (l ++ r)) by lia.
  replace (lp_total (l ++ r) >? UINT32_MAX) with false by lia.
  set (a := lp_hdr (lp_total (l ++ e0 :: r)) num ++ lp_body l).
  set (t := lp_body r ++ [LP_EOF]).
  assert (zlen a = lp_off l) as Ha by apply lp_prefix_length.
  assert (lp_total (l ++ e0 :: r) = zlen a + zlen (lp_entry e0) + zlen t) as Hold.
  { unfold t. rewrite Hta0, Ha, lp_total_off, lp_off_app, length_app, lp_entry_length. cbn. lia. }
  destruct (splice_ok a (lp_entry e0) t slack 0 (lp_total (l ++ e0 :: r))
    (lp_total (l ++ r))) as (m2 & g & s' & Hm & Hif & Hg);
    [done|rewrite lp_entry_length; lia|lia|].
  rewrite lp_image_at_entry. fold a t. rewrite !Z.add_0_r.
  rewrite lp_entry_length in Hold, Hm.
  replace (lp_total (l ++ e0 :: r) - lp_off l - ent_size e0) with (zlen t) by lia.
  rewrite Ha, Z.add_0_r in Hm. rewrite Hm. rs. rewrite Hif.
  destruct g; [|cbn in Hg; lia]. cbn [app].
  assert (Forall ent_ok r) as Hr.
  { destruct Hwf as [Hok _]. rewrite Forall_app, Forall_cons in Hok. apply Hok. }
  unfold t. rewrite next_ptr_ok by done. rs. cbn [negb orb]. exists s'.
  pose proof (finish_header (lp_total (l ++ e0 :: r)) (lp_total (l ++ r)) num (-1) l
    [] ((lp_body r ++ [LP_EOF]) ++ s') Hn) as Hf. fold a in Hf. cbn [app] in Hf.
  change (fun num_elements => if negb (num_elements =? LP_HDR_NUMELE_UNKNOWN) then
    lpSetNumElements (a ++ (lp_body r ++ [LP_EOF]) ++ s') (num_elements - 1)
    else Ok (a ++ (lp_body r ++ [LP_EOF]) ++ s')) with
    (fun num_elements => if negb (num_elements =? LP_HDR_NUMELE_UNKNOWN) then
    lpSetNumElements (a ++ (lp_body r ++ [LP_EOF]) ++ s') (num_elements + -1)
    else Ok (a ++ (lp_body r ++ [LP_EOF]) ++ s')).
  destruct (mbind _ (lpGetNumElements _)) as [lp|]; [|done]. rs. cbn [mbind res_bind] in Hf.
  rewrite Hf. rs. do 3 f_equal. unfold lp_image. rewrite lp_body_app. by rewrite <- !app_assoc.
Qed.

(** ** Refinement to lists of entries *)

(** The entries after an insertion or replacement at the [i]-th entry, and the
    position of the new one *)
Definition lp_insert_at (w : lp_where) (i : nat) (e : lpent) (es : list lpent) : list lpent :=
  match w with
  | LP_BEFORE => take i es ++ e :: drop i es
  | LP_AFTER => take (S i) es ++ e :: drop (S i) es
  | LP_REPLACE => take i es ++ e :: drop (S i) es
  end.
Definition lp_insert_pos (w : lp_where) (i : nat) : nat :=
  match w with LP_AFTER => S i | _ => i end.

Lemma insert_after_before num l e0 r slack ele :
  lp_wf num (l ++ e0 :: r) -> ele <> EleNone ->
  lpInsert (lp_image num (l ++ e0 :: r) slack) ele (lp_off l) LP_AFTER =
  lpInsert (lp_image num (l ++ e0 :: r) slack) ele (lp_off (l ++ [e0])) LP_BEFORE.
Proof.
  intros Hwf Hne. unfold lpInsert. destruct ele; [| |done];
    rewrite (nav_skip num _ slack Hwf l e0 r) by done; rs;
    unfold ASSERT_INTEGRITY; rewrite nav_total by done; rs;
    (replace (_ && _) with true; [done|]);
    pose proof (nav_off_bound num (l ++ e0 :: r) Hwf (l ++ [e0]) r ltac:(by rewrite <- app_assoc));
    unfold lp_off in *; lia.
Qed.

Lemma lp_ptr_insert w i e es :
  (i < length es)%nat ->
  lp_ptr (lp_insert_at w i e es) (lp_insert_pos w i) = Some (lp_off (take (lp_insert_pos w i) es)).
Proof.
  intros Hi. assert (length (take (lp_insert_pos w i) es) = lp_insert_pos w i) as Hl
    by (rewrite length_take; destruct w; cbn [lp_insert_pos]; lia).
  assert (exists r, lp_insert_at w i e es = take (lp_insert_pos w i) es ++ e :: r) as [r ->]
    by (destruct w; by eexists).
  rewrite lp_ptr_some by (rewrite length_app; cbn; lia). by rewrite <- Hl at 1; rewrite take_app_length.
Qed.

(** C27: [lpInsert] of a string or an integer before, after or in place of the
    [i]-th entry refines the insertion in, or the update of, the list of entries:
    it never faults, returns null exactly when the listpack would exceed 2^32-1
    bytes, and [*newp] points to the new entry. *)
Theorem lpInsert_spec m es i p ele e w :
  lp_rep m es -> lp_ptr es i = Some p -> elem_ent ele e ->
  let es' := lp_insert_at w i e es in
  if lp_total es' >? UINT32_MAX then lpInsert m ele p w = Ok None
  else exists m', lpInsert m ele p w = Ok (Some (m', lp_ptr es' (lp_insert_pos w i))) /\ lp_rep m' es'.
Proof.
  intros (num & slack & -> & Hwf) Hp Hele es'. unfold lp_ptr in Hp.
  destruct (decide (i < length es)%nat) as [Hi|]; [|done]. injection Hp as <-.
  unfold es'. rewrite lp_ptr_insert by done. destruct w; cbn [lp_insert_at lp_insert_pos].
  - rewrite <- (take_drop i es) in Hwf at 1. pose proof (insert_before _ _ _ slack _ _ Hwf Hele) as H1.
    destruct (_ >? _) eqn:E; [by rewrite take_drop in H1|].
    destruct H1 as [s' H1]. rewrite take_drop in H1. rewrite H1. eexists. split; [done|]. eexists _, _. split; [done|].
    apply lp_wf_insert; [done|apply Hele|lia].
  - destruct (split_at es i Hi) as (e0 & E0 & E1). rewrite E1.
    set (l := take i es) in *. set (r := drop (S i) es) in *. clearbody l r. subst es.
    rewrite insert_after_before by (done || apply Hele).
    replace (l ++ e0 :: r) with ((l ++ [e0]) ++ r) in * by by rewrite <- app_assoc.
    pose proof (insert_before num (l ++ [e0]) r slack ele e Hwf Hele) as H1.
    destruct (_ >? _) eqn:E; [done|].
    destruct H1 as [s' ->]. eexists. split; [done|]. eexists _, _. split; [done|].
    apply lp_wf_insert; [done|apply Hele|lia].
  - destruct (split_at es i Hi) as (e0 & E0 & _).
    set (l := take i es) in *. set (r := drop (S i) es) in *. clearbody l r. subst es.
    pose proof (replace_ok num l e0 r slack ele e Hwf Hele) as H1.
    destruct (_ >? _) eqn:E; [done|].
    destruct H1 as [s' ->]. eexists. split; [done|]. eexists _, _. split; [done|].
    eapply lp_wf_replace; [exact Hwf|apply Hele|lia].
Qed.

Lemma lpDelete_ok m es i p :
  lp_rep m es -> lp_ptr es i = Some p ->
  exists m', lpDelete m p = Ok (Some (m', lp_ptr (delete i es) i)) /\ lp_rep m' (delete i es).
Proof.
  intros (num & slack & -> & Hwf) Hp. unfold lp_ptr in Hp.
  destruct (decide (i < length es)%nat) as [Hi|]; [|done]. injection Hp as <-.
  destruct (split_at es i Hi) as (e0 & E0 & _). rewrite delete_take_drop.
  assert (length (take i es) = i) as Hl by (rewrite length_take; lia).
  set (l := take i es) in *. set (r := drop (S i) es) in *. clearbody l r. subst es.
  destruct (delete_ok num l e0 r slack LP_REPLACE Hwf) as [s' Hd].
  unfold lpDelete. rewrite Hd, Hl. eexists. split; [done|].
  eexists _, _. split; [done|]. by eapply lp_wf_delete.
Qed.

(** C29: [lpDelete] of the [i]-th entry never faults and leaves the other entries
    in order; [*newp] points to the entry that followed, null if there was none. *)
Theorem lpDelete_spec m es i p :
  lp_rep m es -> lp_ptr es i = Some p ->
  exists m', lpDelete m p = Ok (Some (m', lp_ptr (delete i es) i)) /\ lp_rep m' (delete i es).
Proof. apply lpDelete_ok. Qed.

(** [lpAppend] adds the element as the last entry, and [lpPrepend] as the
    first one, also when the listpack is empty. *)
Theorem lpAppend_lpPrepend_spec m es s :
  lp_rep m es -> zlen s < 2 ^ 32 - 5 -> Forall is_byte s ->
  lp_total (es ++ [ele_ent s]) <= UINT32_MAX ->
  exists m1 m2,
    lpAppend m s = Ok (Some m1) /\ lp_rep m1 (es ++ [ele_ent s]) /\
    lpPrepend m s = Ok (Some m2) /\ lp_rep m2 (ele_ent s :: es).
Proof.
  intros (num & slack & -> & Hwf) Hs Hb Ht. pose proof (elem_ent_str s Hs Hb) as Hele.
  assert (exists m1, lpAppend (lp_image num es slack) s = Ok (Some m1) /\ lp_rep m1 (es ++ [ele_ent s]))
    as (m1 & H1 & R1).
  { unfold lpAppend. rewrite nav_total by done. rs. rewrite lp_total_off, Z.add_simpl_r.
    pose proof (insert_before num es [] slack _ _ ltac:(by rewrite app_nil_r) Hele) as H1.
    rewrite app_nil_r in H1. replace (_ >? _) with false in H1 by lia. destruct H1 as [s' ->].
    eexists. split; [done|]. eexists _, _. split; [done|].
    apply lp_wf_insert; [by rewrite app_nil_r|apply Hele|done]. }
  exists m1. destruct es as [|e0 es].
  { exists m1. unfold lpPrepend. rewrite nav_lpFirst by done. rs. done. }
  pose proof (insert_before num [] (e0 :: es) slack _ _ Hwf Hele) as H2. cbn [app] in H2.
  pose proof (lp_total_app (e0 :: es) (ele_ent s) []) as T1.
  pose proof (lp_total_app [] (ele_ent s) (e0 :: es)) as T2. rewrite app_nil_r in T1.
  cbn [app] in T1, T2, Ht. replace (_ >? _) with false in H2 by lia. destruct H2 as [s' H2].
  exists (lp_image (num_add num 1) (ele_ent s :: e0 :: es) s'). split; [done|]. split; [done|].
  unfold lpPrepend. rewrite nav_lpFirst by done. rs. change (lp_ptr (e0 :: es) 0) with (Some (lp_off [])).
  cbv iota beta. rewrite H2. split; [done|]. eexists _, _. split; [done|].
  apply (lp_wf_insert num []); [done|apply Hele|cbn [app]; lia].
Qed.
End mod_proofs.

(** ** An allocator that rounds sizes up to 16 bytes *)

Definition alloc16 : Allocator.
Proof.
  refine {| usable := fun n => 16 * ((n + 15) / 16); junk := fun _ => 165 |}.
  intros n. pose proof (Z.div_mod (n + 15) 16 ltac:(lia)).
  pose proof (Z.mod_pos_bound (n + 15) 16 ltac:(lia)). lia.
Defined.

Definition ele_42 : list Z := chars "42".
Lemma ele_42_bytes : Forall is_byte ele_42.
Proof. apply (bool_decide_eq_true_1 _). vm_compute. done. Qed.
Lemma ele_42_ent : elem_ent (EleStr ele_42) (ele_ent ele_42).
Proof. apply elem_ent_str; [vm_compute; done|apply ele_42_bytes]. Qed.

Lemma lpInsert_spec_witness :
  exists m', @lpInsert alloc16 lp_ex (EleStr ele_42) 9 LP_AFTER = Ok (Some (m', Some 16)) /\
    lp_rep m' (lp_insert_at LP_AFTER 1 (ele_ent ele_42) lp_ex_entries).
Proof.
  pose proof (@lpInsert_spec alloc16 lp_ex lp_ex_entries 1 9 (EleStr ele_42) (ele_ent ele_42) LP_AFTER
    lp_ex_rep eq_refl ele_42_ent) as Hi. cbv zeta in Hi.
  destruct (_ >? _) eqn:E; [vm_compute in E; discriminate|exact Hi].
Defined.

Lemma lpDelete_spec_witness :
  exists m', @lpDelete alloc16 lp_ex 9 = Ok (Some (m', Some 9)) /\ lp_rep m' (delete 1%nat lp_ex_entries).
Proof. exact (@lpDelete_spec alloc16 lp_ex lp_ex_entries 1 9 lp_ex_rep eq_refl). Defined.

Lemma lpAppend_lpPrepend_spec_witness :
  exists m1 m2, @lpAppend alloc16 lp_ex ele_42 = Ok (Some m1) /\ lp_rep m1 (lp_ex_entries ++ [int_ent 42]) /\
    @lpPrepend alloc16 lp_ex ele_42 = Ok (Some m2) /\ lp_rep m2 (int_ent 42 :: lp_ex_entries).
Proof.
  apply (@lpAppend_lpPrepend_spec alloc16 lp_ex lp_ex_entries ele_42 lp_ex_rep).
  - vm_compute. done.
  - exact ele_42_bytes.
  - vm_compute. done.
Defined.

(** the back length of an entry is decoded together with the bytes before
    it, so a listpack can pass the deep validation because of the element count
    that happens to precede its first entry.  Here the first entry is the empty
    string with the back length [0x81]; appending one element makes the count
    256, and [lpPrev] from the second entry then fails its assertion. *)
Theorem lpValidate_backlen_context :
  let entries := [0x80; 0x81] ++ mjoin (replicate 254 [0; 1]) ++ [LP_EOF] in
  let lp := lp_hdr (LP_HDR_SIZE + zlen entries) 255 ++ entries in
  lpValidateIntegrity lp (zlen lp) true null_cb tt = Ok true /\
  lpPrev lp 8 = Ok (Some 6) /\
  (o ← @lpAppend alloc16 lp ele_42;
   match o with Some lp => lpPrev lp 8 | None => Ok None end) = Fault AssertFailed.
Proof. vm_compute. done. Qed.
