(* ===== verification/LpFind.v ===== *)
(** Search and comparison in listpacks: [lpFindCb], [lpFind] and [lpCompare] of
    [listpack.c]. *)

From S2P Require Import Prelude Numstr Listpack LpNav.

(** ** The search loop *)

Section find_cb.
Context {St : Type}.

(** The comparator gets the listpack, the entry, its state and the value, and
    returns whether it is 0 and its new state. *)
Variable cmp : list Z -> Z -> St -> lp_ret -> res (bool * St).

Fixpoint lpFind_loop (fuel : nat) (lp : list Z) (lp_bytes skip : Z) (user : St) (p skipcnt entry_size : Z) :
    res (option Z) :=
  match fuel with
  | O => Fault OutOfFuel
  | S fuel =>
      let next (user : St) (p skipcnt entry_size : Z) : res (option Z) :=
        _ ← (if p + 8 >=? lp_bytes then lpAssertValidEntry lp lp_bytes p
             else assert_ ((p >=? LP_HDR_SIZE) && (p <? lp_bytes)));
        b ← mem_get lp p;
        if b =? LP_EOF then Ok None
        else lpFind_loop fuel lp lp_bytes skip user p skipcnt entry_size in
      if skipcnt =? 0 then
        '(value, size) ← lpGetWithSize lp p None;
        let entry_size := match size with Some size => size | None => entry_size end in
        _ ← match value with
            | RNull _ => Ok tt
            | _ => assert_ ((p >=? LP_HDR_SIZE) && (p + entry_size <? lp_bytes))
            end;
        '(equal, user) ← cmp lp p user value;
        if equal : bool then Ok (Some p)
        else next user (p + entry_size) (s32 skip) entry_size
      else
        q ← lpSkip lp p;
        next user q (skipcnt - 1) entry_size
  end.

Definition lpFindCbInternal (lp : list Z) (p : option Z) (user : St) (skip : Z) : res (option Z) :=
  lp_bytes ← lpBytes lp;
  p ← match p with None => lpFirst lp | Some p => Ok (Some p) end;
  match p with
  | None => Ok None
  | Some p => lpFind_loop (length lp) lp lp_bytes skip user p 0 123456789
  end.

Definition lpFindCb := lpFindCbInternal.
End find_cb.

(** ** Search for a string *)

Record lpFindArg : Set := { fs : list Z; vencoding : Z; vll : Z }.

Definition lpFindCmp (lp : list Z) (p : Z) (arg : lpFindArg) (value : lp_ret) :
    res (bool * lpFindArg) :=
  match value with
  | RNull slen =>
      let arg :=
        if vencoding arg =? 0 then
          if (zlen (fs arg) >=? 32) || (zlen (fs arg) =? 0)
          then {| fs := fs arg; vencoding := 255; vll := vll arg |}
          else match lpStringToInt64 (fs arg) with
               | None => {| fs := fs arg; vencoding := 255; vll := vll arg |}
               | Some v => {| fs := fs arg; vencoding := 1; vll := v |}
               end
        else arg in
      Ok (negb (vencoding arg =? 255) && (slen =? vll arg), arg)
  | RPtr s slen =>
      if slen =? zlen (fs arg) then
        d ← mem_read lp s slen; Ok (bool_decide (fs arg = d), arg)
      else Ok (false, arg)
  | RBuf _ _ => Ok (false, arg)
  end.

Definition lpFind (lp : list Z) (p : option Z) (s : list Z) (skip : Z) : res (option Z) :=
  lpFindCbInternal lpFindCmp lp p {| fs := s; vencoding := 0; vll := 0 |} skip.

(** ** Comparison of one entry *)

(** [cache] is [*cached_longval] and [*cached_valid], [None] for null pointers. *)
Definition lpCompare (lp : list Z) (p : Z) (s : list Z) (cache : option (Z * Z)) :
    res (bool * option (Z * Z)) :=
  b ← mem_get lp p;
  if b =? LP_EOF then Ok (false, cache) else
  value ← lpGet lp p None;
  match value with
  | RNull sz =>
      match cache with
      | Some (cached_longval, cached_valid) =>
          let '(cached_longval, cached_valid) :=
            if cached_valid =? 0 then
              match lpStringToInt64 s with
              | Some v => (v, 1)
              | None => (cached_longval, -1)
              end
            else (cached_longval, cached_valid) in
          Ok ((cached_valid =? 1) && (sz =? cached_longval), Some (cached_longval, cached_valid))
      | None =>
          Ok (match lpStringToInt64 s with Some sval => sz =? sval | None => false end, None)
      end
  | RPtr value sz =>
      if zlen s =? sz then d ← mem_read lp value (zlen s); Ok (bool_decide (d = s), cache)
      else Ok (false, cache)
  | RBuf _ _ => Ok (false, cache)
  end.

(** ** Specification *)

(** The entry has the value that the string [s] is stored with. *)
Definition ent_matches (s : list Z) (e : lpent) : bool :=
  match ent_value e with
  | EInt v => bool_decide (string2ll s = Some v)
  | EStr t => bool_decide (t = s)
  end.

(** The position of the first match from [i] on, when only every [skip+1]-th
    entry is compared, starting after [cnt] entries *)
Fixpoint find_from (s : list Z) (skip cnt : nat) (i : nat) (es : list lpent) : option nat :=
  match es with
  | [] => None
  | e :: es =>
      match cnt with
      | O => if ent_matches s e then Some i else find_from s skip skip (S i) es
      | S cnt => find_from s skip cnt (S i) es
      end
  end.

(** The cached conversion is absent or right. *)
Definition arg_ok (s : list Z) (arg : lpFindArg) : Prop :=
  fs arg = s /\
  (vencoding arg = 0 \/ vencoding arg = 1 /\ string2ll s = Some (vll arg) \/
   vencoding arg = 255 /\ string2ll s = None).

Section find_proofs.
Context (num : Z) (es : list lpent) (slack : list Z) (Hwf : lp_wf num es).
#[local] Abbreviation m := (lp_image num es slack).

Lemma string2ll_short s v : string2ll s = Some v -> (zlen s >=? 32) || (zlen s =? 0) = false.
Proof.
  intros Hs. unfold string2ll in Hs. destruct ((zlen s =? 0) || (zlen s >=? LONG_STR_SIZE)) eqn:E; [done|lia].
Qed.

Lemma find_cmp_ok s arg i e :
  es !! i = Some e -> arg_ok s arg ->
  exists arg', arg_ok s arg' /\
    (value ← ent_ret (lp_off (take i es)) e None; lpFindCmp m (lp_off (take i es)) arg value) =
      Ok (ent_matches s e, arg').
Proof.
  intros He [Hs Ha]. assert (es = take i es ++ e :: drop (S i) es) as E by by rewrite take_drop_middle.
  unfold ent_ret, ent_matches. destruct (ent_value e) as [v|t] eqn:Ev; rs.
  - cbn [lp_return_int]. rs. cbn [lpFindCmp]. rewrite Hs, string_to_int64_eq.
    destruct Ha as [Ha|[[Ha Hv]|[Ha Hv]]].
    + rewrite Ha. cbn [Z.eqb]. destruct (string2ll s) as [w|] eqn:Ew.
      * rewrite (string2ll_short s w Ew). exists {| fs := s; vencoding := 1; vll := w |}.
        split; [split; [done|right; left; done]|].
        cbn -[bool_decide]. do 2 f_equal. apply eq_true_iff_eq. rewrite bool_decide_eq_true, Z.eqb_eq.
        naive_solver.
      * exists {| fs := s; vencoding := 255; vll := vll arg |}.
        split; [split; [done|right; right; done]|].
        destruct (_ || _); cbn -[bool_decide]; by rewrite bool_decide_eq_false_2.
    + rewrite Ha. cbn [Z.eqb]. exists arg. split; [split; [done|right; left; done]|]. rewrite Ha.
      cbn -[bool_decide]. rewrite Hv. do 2 f_equal. apply eq_true_iff_eq.
      rewrite bool_decide_eq_true, Z.eqb_eq. naive_solver.
    + rewrite Ha. cbn [Z.eqb]. exists arg. split; [split; [done|right; right; done]|]. rewrite Ha.
      cbn -[bool_decide]. by rewrite Hv, bool_decide_eq_false_2.
  - cbn [lpFindCmp]. rewrite Hs. exists arg. split; [done|].
    destruct (Z.eqb_spec (zlen t) (zlen s)) as [Hl|Hl].
    + destruct (nav_split num es slack _ e _ E) as (a & b & -> & <-).
      rewrite (ent_string_read a e _ t Ev). rs. do 2 f_equal. apply eq_true_iff_eq.
      rewrite !bool_decide_eq_true. naive_solver.
    + rewrite bool_decide_eq_false_2; [done|]. by intros ->.
Qed.

(** The check after a move to position [i] passes, also at the end marker. *)
Lemma next_check_ok i : (i <= length es)%nat ->
  (if lp_off (take i es) + 8 >=? lp_total es then lpAssertValidEntry m (lp_total es) (lp_off (take i es))
   else assert_ ((lp_off (take i es) >=? LP_HDR_SIZE) && (lp_off (take i es) <? lp_total es))) = Ok tt.
Proof.
  intros Hi. assert (LP_HDR_SIZE <= lp_off (take i es)) by (unfold lp_off; lia).
  pose proof (nav_off_bound num es Hwf (take i es) (drop i es) ltac:(by rewrite take_drop)).
  destruct (_ >=? lp_total es); [|by replace (_ && _) with true by lia].
  destruct (decide (i = length es)) as [->|Hne].
  - rewrite take_ge in * by lia. unfold lpAssertValidEntry, lpValidateNext.
    rewrite nav_eof by done. replace (_ || _) with false by lia. done.
  - destruct (split_at es i) as (e & E & _); [lia|]. by rewrite (nav_assert num es slack Hwf _ e _ E).
Qed.

Lemma find_loop_ok fuel s skip cnt i arg sz :
  (i < length es)%nat -> (length es - i <= fuel)%nat -> arg_ok s arg -> Z.of_nat skip < 2 ^ 31 ->
  lpFind_loop lpFindCmp fuel m (lp_total es) (Z.of_nat skip) arg (lp_off (take i es)) (Z.of_nat cnt) sz =
    Ok ((fun j => lp_off (take j es)) <$> find_from s skip cnt i (drop i es)).
Proof.
  intros Hi Hf Ha Hskip. revert i cnt arg sz Hi Hf Ha.
  induction fuel as [|fuel IH]; intros i cnt arg sz Hi Hf Ha; [lia|]. cbn [lpFind_loop].
  destruct (lookup_lt_is_Some_2 es i Hi) as [e He].
  assert (es = take i es ++ e :: drop (S i) es) as E by by rewrite take_drop_middle.
  pose proof (nav_ent_ok num es Hwf _ e _ E) as Hok. pose proof (ent_size_range e Hok).
  assert (lp_off (take (S i) es) = lp_off (take i es) + ent_size e) as HS
    by by rewrite (take_S_r _ _ _ He), lp_off_snoc.
  assert (forall arg cnt sz, arg_ok s arg ->
    (_ ← (if lp_off (take (S i) es) + 8 >=? lp_total es
          then lpAssertValidEntry m (lp_total es) (lp_off (take (S i) es))
          else assert_ ((lp_off (take (S i) es) >=? LP_HDR_SIZE) && (lp_off (take (S i) es) <? lp_total es)));
     b ← mem_get m (lp_off (take (S i) es));
     if b =? LP_EOF then Ok None
     else lpFind_loop lpFindCmp fuel m (lp_total es) (Z.of_nat skip) arg (lp_off (take (S i) es)) (Z.of_nat cnt) sz) =
    Ok ((fun j => lp_off (take j es)) <$> find_from s skip cnt (S i) (drop (S i) es))) as Hnext.
  { intros arg' cnt' sz' Ha'. rewrite next_check_ok by lia. rs.
    destruct (nav_get_ptr num es slack Hwf (S i)) as (b & -> & Hb); [lia|]. rs.
    destruct (Z.eqb_spec b LP_EOF) as [Heof|Hne].
    - apply Hb in Heof. by rewrite drop_ge by lia.
    - apply IH; [|lia|done]. destruct (decide (S i = length es)); [tauto|lia]. }
  rewrite (drop_S _ _ _ He). cbn [find_from]. destruct cnt as [|cnt].
  - cbn [Z.eqb Z.of_nat]. rewrite (nav_get_size num es slack Hwf _ e _ None E).
    destruct (find_cmp_ok s arg i e He Ha) as (arg' & Ha' & Hcmp).
    destruct (ent_ret (lp_off (take i es)) e None) as [value|] eqn:Er; [|done]. rs.
    cbn [mbind res_bind] in Hcmp.
    assert (match value with RNull _ => Ok tt
      | _ => assert_ ((lp_off (take i es) >=? LP_HDR_SIZE) && (lp_off (take i es) + ent_size e <? lp_total es))
      end = Ok tt) as ->.
    { assert (LP_HDR_SIZE <= lp_off (take i es)) by (unfold lp_off; lia).
      pose proof (nav_off_bound num es Hwf (take (S i) es) (drop (S i) es) ltac:(by rewrite take_drop)).
      replace (_ && _) with true by lia. by destruct value. }
    rs. rewrite Hcmp. rs. destruct (ent_matches s e); [done|].
    rewrite <- HS, s32_small by lia. by apply Hnext.
  - replace (Z.of_nat (S cnt) =? 0) with false by lia. rewrite (nav_skip num es slack Hwf _ e _ E). rs.
    rewrite <- (take_S_r _ _ _ He). replace (Z.of_nat (S cnt) - 1) with (Z.of_nat cnt) by lia. by apply Hnext.
Qed.
End find_proofs.

Lemma find_ok m es i s skip :
  lp_rep m es -> (i < length es)%nat -> Z.of_nat skip < 2 ^ 31 ->
  lpFind m (lp_ptr es i) s (Z.of_nat skip) =
    Ok ((fun j => lp_off (take j es)) <$> find_from s skip 0 i (drop i es)).
Proof.
  intros (num & slack & -> & Hwf) Hi Hskip. unfold lpFind, lpFindCbInternal, lpBytes.
  rewrite nav_total by done. rs. rewrite lp_ptr_some by done. rs.
  pose proof (nav_length_bytes num es slack Hwf).
  apply (find_loop_ok num es slack Hwf _ s skip 0); [done|lia|by split; [|left]|done].
Qed.

(** [lpFind] from the [i]-th entry returns the first entry, among every
    [skip+1]-th one, that holds the string searched for, whether it is stored as
    a string or as an integer, and null if there is none. *)
Theorem lpFind_spec m es i s skip :
  lp_rep m es -> (i < length es)%nat -> Z.of_nat skip < 2 ^ 31 ->
  lpFind m (lp_ptr es i) s (Z.of_nat skip) =
    Ok ((fun j => lp_off (take j es)) <$> find_from s skip 0 i (drop i es)).
Proof. apply find_ok. Qed.

Lemma lpFind_spec_witness : lpFind lp_ex (Some 6) (chars "7") 1 = Ok (Some 16).
Proof. apply (lpFind_spec lp_ex lp_ex_entries 0 (chars "7") 1 lp_ex_rep); cbn; lia. Defined.

(** What the cached conversion of [s] says is right. *)
Definition cache_ok (s : list Z) (cache : option (Z * Z)) : Prop :=
  forall v k, cache = Some (v, k) ->
    k = 0 \/ k = 1 /\ string2ll s = Some v \/ k = -1 /\ string2ll s = None.

(** [lpCompare] tells whether an entry holds the given string, also when the
    conversion of the string to an integer is cached between calls. *)
Theorem lpCompare_spec m es i e p s cache :
  lp_rep m es -> es !! i = Some e -> lp_ptr es i = Some p -> cache_ok s cache ->
  exists cache', lpCompare m p s cache = Ok (ent_matches s e, cache') /\ cache_ok s cache'.
Proof.
  intros (num & slack & -> & Hwf) He Hp Hc. pose proof (lookup_lt_Some _ _ _ He) as Hi.
  rewrite lp_ptr_some in Hp by done. injection Hp as <-.
  assert (es = take i es ++ e :: drop (S i) es) as E by by rewrite take_drop_middle.
  unfold lpCompare. destruct (nav_first num es slack Hwf _ e _ E) as (b & -> & Hb & _). rs.
  replace (b =? LP_EOF) with false by lia. rewrite (nav_get num es slack Hwf _ e _ None E).
  unfold ent_ret, ent_matches. destruct (ent_value e) as [v|t] eqn:Ev.
  - cbn [lp_return_int]. rs. rewrite string_to_int64_eq.
    assert (forall w, (v =? w) = bool_decide (Some w = Some v)) as Hw.
    { intros w. apply eq_true_iff_eq. rewrite bool_decide_eq_true, Z.eqb_eq. naive_solver. }
    destruct cache as [[w k]|].
    + destruct (Hc w k eq_refl) as [->|[[-> Hs]|[-> Hs]]]; cbn -[bool_decide].
      * destruct (string2ll s) as [x|] eqn:Ex; eexists; cbn -[bool_decide];
          (split; [by rewrite ?Hw|]); intros ? ? [= <- <-]; auto.
      * rewrite Hs, Hw. by eexists.
      * rewrite Hs. by eexists.
    + destruct (string2ll s); eexists; (split; [by rewrite ?Hw|done]).
  - rs. destruct (Z.eqb_spec (zlen s) (zlen t)) as [Hl|Hl].
    + destruct (nav_split num es slack _ e _ E) as (a & r & -> & <-). rewrite Hl.
      rewrite (ent_string_read a e _ t Ev). rs. by eexists.
    + rewrite bool_decide_eq_false_2; [by eexists|]. by intros ->.
Qed.

Lemma lpCompare_spec_witness :
  exists cache', lpCompare lp_ex 16 (chars "7") (Some (0, 0)) = Ok (true, cache') /\
    cache_ok (chars "7") cache'.
Proof.
  apply (lpCompare_spec lp_ex lp_ex_entries 2 (int_ent 7) 16 (chars "7") (Some (0, 0)) lp_ex_rep).
  - reflexivity.
  - reflexivity.
  - intros v k [= <- <-]. by left.
Defined.
