(* ===== verification/LpRange.v ===== *)
(** Creation, batches, ranges and merging of listpacks: theorems on the
    operations of [LpMod] that work on several entries. *)

From S2P Require Import Prelude Numstr Listpack LpNav LpValid LpMod.

Section range_proofs.
Context `{Allocator}.

(** ** Creation and shrinking *)

Lemma lp_malloc_length n : 0 <= n -> n <= zlen (lp_malloc n).
Proof.
  intros Hn. unfold lp_malloc. rewrite length_fmap, length_seq. pose proof (usable_ge n). lia.
Qed.

(** [lpNew] returns an empty listpack, whatever the capacity asked for. *)
Theorem lpNew_spec capacity : exists m, lpNew capacity = Ok m /\ lp_rep m [].
Proof.
  unfold lpNew. set (n := if _ : bool then _ else _).
  assert (LP_HDR_SIZE + 1 <= n) as Hn by (unfold n; case_match; lia).
  pose proof (lp_malloc_length n ltac:(lia)) as Hl.
  destruct (take_split (lp_malloc n) 4) as (t & r & E & Ht); [lia|].
  rewrite E, length_app in Hl. rewrite E.
  destruct (take_split r 2) as (u & r' & -> & Hu); [lia|]. rewrite length_app in Hl.
  destruct r' as [|x slack]; [cbn in Hl; lia|].
  assert (lpSetTotalBytes (t ++ u ++ x :: slack) (LP_HDR_SIZE + 1) =
    Ok (le_bytes 4 (LP_HDR_SIZE + 1) ++ u ++ x :: slack)) as ->
    by (apply (mem_write_app [] t); done).
  rs. unfold lpSetNumElements.
  rewrite (mem_write_app (le_bytes 4 (LP_HDR_SIZE + 1)) u) by done. rs.
  rewrite app_assoc. change (x :: slack) with ([x] ++ slack).
  rewrite (mem_write_app _ [x]) by done. eexists. split; [done|].
  exists 0, slack. split; [done|]. split; [done|]. split; [done|]. by right.
Qed.

Lemma shrink_ok num es slack :
  lp_wf num es -> exists slack', lpShrinkToFit (lp_image num es slack) = Ok (lp_image num es slack').
Proof.
  intros Hwf. unfold lpShrinkToFit. rewrite nav_total by done. rs.
  destruct (_ <? _); [|by exists slack].
  rewrite lp_image_eof. change (LP_EOF :: slack) with ([LP_EOF] ++ slack). rewrite app_assoc.
  destruct (realloc_keep ((lp_hdr (lp_total es) num ++ lp_body es) ++ [LP_EOF]) slack (lp_total es))
    as (y & -> & _).
  - rewrite length_app, Nat2Z.inj_add, lp_prefix_length, lp_total_off. cbn. lia.
  - exists y. by rewrite lp_image_eof, <- app_assoc.
Qed.

Lemma dup_ok num es slack :
  lp_wf num es -> exists slack', lpDup (lp_image num es slack) = Ok (lp_image num es slack').
Proof.
  intros Hwf. unfold lpDup, lpBytes. rewrite nav_total by done. rs.
  pose proof (lp_image_length num es slack) as Hl.
  assert (lp_image num es slack = lp_image num es [] ++ slack) as E
    by (unfold lp_image; by rewrite <- !app_assoc).
  pose proof (lp_image_length num es []) as Hl0. cbn [length] in Hl0.
  assert (mem_read (lp_image num es slack) 0 (lp_total es) = Ok (lp_image num es [])) as ->
    by (rewrite E; apply (mem_read_app [] (lp_image num es []) slack); [done|lia]).
  rs. pose proof (lp_malloc_length (lp_total es)) as Hm.
  destruct (take_split (lp_malloc (lp_total es)) (length (lp_image num es []))) as (t & r & -> & Ht);
    [unfold lp_total in *; lia|].
  exists r. etransitivity; [by apply (mem_write_app [] t (lp_image num es []) r 0)|].
  unfold lp_image. cbn [app]. by rewrite <- !app_assoc.
Qed.

(** ** Batches *)

(** The entry of a batch element, and the elements that can be encoded *)
Definition batch_ent (x : listpackEntry) : lpent :=
  match x with SVal s => ele_ent s | LVal v => int_ent v end.
Definition batch_ok (x : listpackEntry) : Prop :=
  match x with SVal s => zlen s < 2 ^ 32 - 5 /\ Forall is_byte s | LVal v => is_i64 v end.

Lemma batch_elem_ent x : batch_ok x -> elem_ent (batch_elem x) (batch_ent x).
Proof. destruct x; cbn; [intros [? ?]; by apply elem_ent_str|apply elem_ent_int]. Qed.

Lemma batch_addedlen_ok xs n :
  Forall batch_ok xs -> 0 <= n -> n + zlen xs * (2 ^ 32 + 5) <= UINT64_MAX ->
  batch_addedlen xs n = n + zlen (lp_body (batch_ent <$> xs)) /\
  zlen (lp_body (batch_ent <$> xs)) <= zlen xs * (2 ^ 32 + 5).
Proof.
  intros Hx. revert n. induction Hx as [|x xs Hx _ IH]; intros n Hn Hb; [cbn; lia|].
  cbn [batch_addedlen fmap list_fmap length] in *.
  destruct (batch_elem_ent x Hx) as (-> & He & _). cbn [snd].
  pose proof (ent_size_range _ He) as Hs. rewrite lp_body_cons, length_app, Nat2Z.inj_add, lp_entry_length.
  rewrite encode_backlen_length. rewrite <- Z.add_assoc. fold (ent_size (batch_ent x)).
  rewrite u64_small by lia. destruct (IH (n + ent_size (batch_ent x))) as [-> ?]; lia.
Qed.

Lemma batch_write_ok xs (a g t : list Z) np :
  Forall batch_ok xs -> zlen g = zlen (lp_body (batch_ent <$> xs)) ->
  exists np', batch_write (a ++ g ++ t) (zlen a) np xs =
    Ok (a ++ lp_body (batch_ent <$> xs) ++ t, np') /\
    match reverse (batch_ent <$> xs) with
    | [] => np' = np
    | e :: l => np' = Some (zlen a + zlen (lp_body (reverse l)))
    end.
Proof.
  intros Hx. revert a g np. induction Hx as [|x xs Hx _ IH]; intros a g np Hg.
  - destruct g; [|cbn in Hg; lia]. by eexists.
  - cbn [batch_write fmap list_fmap] in *. destruct (batch_elem_ent x Hx) as (-> & He & _).
    rewrite lp_body_cons, length_app, Nat2Z.inj_add in Hg.
    destruct (take_split g (length (lp_entry (batch_ent x)))) as (g1 & g2 & -> & Hl); [lia|].
    rewrite length_app in Hg. rewrite <- app_assoc.
    pose proof (write_entry_ok a g1 (g2 ++ t) (ent_bytes (batch_ent x))
      (lpEncodeBacklen (zlen (ent_bytes (batch_ent x))))) as Hw.
    rewrite Hl in Hw. unfold lp_entry in Hw at 1. rewrite length_app, Nat2Z.inj_add in Hw.
    specialize (Hw eq_refl). fold (lp_entry (batch_ent x)) in Hw.
    destruct (mem_write (a ++ g1 ++ g2 ++ t) _ _) as [m1|]; [|done]. rs. cbn [mbind res_bind] in Hw.
    rewrite Hw. rs.
    destruct (IH (a ++ lp_entry (batch_ent x)) g2 (Some (zlen a))) as (np' & Hb & Hnp); [lia|].
    rewrite <- app_assoc, length_app in Hb. unfold lp_entry in Hb at 2. rewrite length_app in Hb.
    rewrite !Nat2Z.inj_add, Z.add_assoc in Hb. rewrite Hb. exists np'.
    rewrite lp_body_cons, <- !app_assoc. split; [done|]. rewrite reverse_cons.
    destruct (reverse (batch_ent <$> xs)) as [|e l] eqn:E; cbn [app].
    + rewrite Hnp. f_equal. cbn. lia.
    + rewrite Hnp, reverse_app, reverse_singleton. cbn [app]. rewrite lp_body_cons, !length_app.
      f_equal. lia.
Qed.

Lemma lp_total_app_list l xs r : lp_total (l ++ xs ++ r) = lp_total (l ++ r) + zlen (lp_body xs).
Proof. unfold lp_total. rewrite !lp_body_app, !length_app. lia. Qed.

(** The count of the header after a batch *)
Definition num_add_batch (num k : Z) : Z :=
  if num =? LP_HDR_NUMELE_UNKNOWN then num
  else if k >? LP_HDR_NUMELE_UNKNOWN - num then LP_HDR_NUMELE_UNKNOWN else num + k.

Lemma lp_wf_batch num l xs r :
  lp_wf num (l ++ r) -> Forall ent_ok xs -> lp_total (l ++ xs ++ r) <= UINT32_MAX ->
  lp_wf (num_add_batch num (zlen xs)) (l ++ xs ++ r).
Proof.
  intros (Hok & _ & Hn) Hx Ht. split; [|split; [done|]].
  - rewrite !Forall_app in *. naive_solver.
  - unfold num_add_batch. rewrite !length_app in *.
    destruct Hn as [->|[-> Hlt]]; [by left|].
    replace (Z.of_nat (length l + length r) =? LP_HDR_NUMELE_UNKNOWN) with false by lia.
    case_match; lia.
Qed.

Lemma batch_insert_ok num l r slack xs :
  lp_wf num (l ++ r) -> Forall batch_ok xs -> 0 < zlen xs < 2 ^ 31 ->
  let ents := batch_ent <$> xs in
  if lp_total (l ++ ents ++ r) >? UINT32_MAX
  then lpBatchInsert (lp_image num (l ++ r) slack) (lp_off l) LP_BEFORE xs = Ok None
  else exists slack' newp,
    lpBatchInsert (lp_image num (l ++ r) slack) (lp_off l) LP_BEFORE xs =
      Ok (Some (lp_image (num_add_batch num (zlen xs)) (l ++ ents ++ r) slack', newp)) /\
    exists e l', reverse ents = e :: l' /\ newp = Some (lp_off (l ++ reverse l')).
Proof.
  intros Hwf Hx Hlen ents. pose proof (lp_wf_num _ _ Hwf) as Hn. pose proof Hwf as (_ & Ht & _).
  unfold lpBatchInsert. replace (zlen xs >? 0) with true by lia.
  change (assert_ true) with (Ok tt). rs.
  rewrite nav_total by done. rs.
  destruct (batch_addedlen_ok xs 0 Hx ltac:(lia) ltac:(lia)) as [-> Hb]. fold ents in Hb |- *.
  rewrite Z.add_0_l, u64_small by (unfold lp_total in *; lia).
  rewrite lp_total_app_list. destruct (_ >? UINT32_MAX) eqn:Eb; [done|].
  set (a := lp_hdr (lp_total (l ++ r)) num ++ lp_body l). set (t := lp_body r ++ [LP_EOF]).
  assert (zlen a = lp_off l) as Ha by apply lp_prefix_length.
  assert (lp_total (l ++ r) = zlen a + 0 + zlen t) as Hold
    by (unfold t; rewrite Ha, lp_total_off, lp_off_app, length_app; cbn; lia).
  destruct (splice_ok a [] t slack (zlen (lp_body ents)) (lp_total (l ++ r))
    (lp_total (l ++ r) + zlen (lp_body ents))) as (m2 & g & s' & Hm & Hif & Hg);
    [done|cbn [length]; lia|lia|].
  replace (_ <? _) with false in Hif by lia.
  change (zlen (@nil Z)) with 0 in Hm. rewrite Z.add_0_r, Ha in Hm.
  rewrite lp_image_at. fold a t. replace (lp_total (l ++ r) - lp_off l) with (zlen t) by lia.
  rewrite Hm. rs. rewrite Hif, <- Ha.
  destruct (batch_write_ok xs a g (t ++ s') None Hx Hg) as (np & -> & Hnp). fold ents in Hnp |- *. rs.
  unfold a. rewrite <- !app_assoc, get_num_hdr by done. rs.
  exists s', np. split.
  - assert (forall x y : list Z, x = y -> forall n : option Z, Ok (Some (x, n)) = Ok (Some (y, n))) as Hc
      by by intros ? ? ->.
    unfold num_add_batch, lp_image. rewrite lp_total_app_list, !lp_body_app.
    destruct (num =? LP_HDR_NUMELE_UNKNOWN); cbn [negb];
      [|destruct (zlen xs >? _)]; rewrite ?set_num_hdr; rs;
      rewrite set_total_hdr; rs; apply Hc; unfold t; by rewrite <- !app_assoc.
  - destruct (reverse ents) as [|e l'] eqn:Er.
    + apply (f_equal length) in Er. rewrite length_reverse in Er. unfold ents in Er.
      rewrite length_fmap in Er. cbn in Er. lia.
    + exists e, l'. split; [done|]. rewrite Hnp, Ha, lp_off_app. done.
Qed.

(** The insertion before an entry, or before the end marker *)
Lemma batch_before m es j xs :
  lp_rep m es -> (j <= length es)%nat -> Forall batch_ok xs -> 0 < zlen xs < 2 ^ 31 ->
  let es' := take j es ++ (batch_ent <$> xs) ++ drop j es in
  if lp_total es' >? UINT32_MAX
  then lpBatchInsert m (lp_off (take j es)) LP_BEFORE xs = Ok None
  else exists m', lpBatchInsert m (lp_off (take j es)) LP_BEFORE xs =
      Ok (Some (m', lp_ptr es' (j + length xs - 1))) /\ lp_rep m' es'.
Proof.
  intros (num & slack & -> & Hwf) Hj Hx Hlen es'.
  pose proof (batch_insert_ok num (take j es) (drop j es) slack xs) as Hb.
  rewrite take_drop in Hb. specialize (Hb Hwf Hx Hlen). cbv zeta in Hb. fold es' in Hb.
  destruct (lp_total es' >? UINT32_MAX) eqn:E; [done|].
  destruct Hb as (s' & newp & -> & e & l' & Er & ->). eexists. split.
  - do 3 f_equal. apply (f_equal reverse) in Er. rewrite reverse_involutive, reverse_cons in Er.
    pose proof Er as El. apply (f_equal length) in El. rewrite length_fmap, length_app in El.
    cbn [length] in El. unfold es'. rewrite Er.
    replace (j + length xs - 1)%nat with (length (take j es ++ reverse l'))
      by (rewrite length_app, length_take; lia).
    rewrite <- (app_assoc (reverse l') [e]), (app_assoc (take j es) (reverse l')).
    rewrite lp_ptr_some by (rewrite (length_app _ (_ ++ _)), !length_app; cbn; lia).
    by rewrite take_app_length.
  - eexists _, _. split; [done|]. unfold es'.
    rewrite <- (length_fmap batch_ent xs). apply lp_wf_batch; [by rewrite take_drop| |fold es'; lia].
    apply Forall_fmap. eapply Forall_impl; [done|]. intros x Hxx. by apply batch_elem_ent.
Qed.

(** [LP_AFTER] is [LP_BEFORE] with the next position. *)
Lemma batch_after m es j xs :
  lp_rep m es -> (j < length es)%nat ->
  lpBatchInsert m (lp_off (take j es)) LP_AFTER xs = lpBatchInsert m (lp_off (take (S j) es)) LP_BEFORE xs.
Proof.
  intros (num & slack & -> & Hwf) Hj. destruct (split_at es j Hj) as (e & E & E').
  unfold lpBatchInsert. change (assert_ true) with (Ok tt). rs. destruct (assert_ (zlen xs >? 0)); [|done]. rs.
  rewrite (nav_skip num es slack Hwf _ e _ E). rs. rewrite <- E'.
  assert (ASSERT_INTEGRITY (lp_image num es slack) (lp_off (take (S j) es)) = Ok tt) as ->; [|done].
  unfold ASSERT_INTEGRITY. rewrite nav_total by done. rs. apply assert_true.
  pose proof (lp_off_app (take (S j) es) (drop (S j) es)) as Ho. rewrite take_drop in Ho.
  pose proof (lp_total_off es). unfold lp_off in *. lia.
Qed.

(** C36: [lpBatchInsert] inserts all the elements, fewer than 2^31, in order: before
    the [j]-th entry, or before the end marker if [j] is the number of entries, with
    [LP_BEFORE]; after the [j]-th entry with [LP_AFTER].  It returns null exactly when
    the result would exceed 2^32-1 bytes, and otherwise [*newp] points to the last
    inserted entry.  With [LP_REPLACE] or without elements an assertion fails. *)
Theorem lpBatchInsert_spec m es j where_ xs :
  lp_rep m es -> Forall batch_ok xs -> zlen xs < 2 ^ 31 ->
  (j < length es + match where_ with LP_BEFORE => 1 | _ => 0 end)%nat ->
  let at_ := match where_ with LP_AFTER => S j | _ => j end in
  let es' := take at_ es ++ (batch_ent <$> xs) ++ drop at_ es in
  let r := lpBatchInsert m (lp_off (take j es)) where_ xs in
  match where_, xs with
  | LP_REPLACE, _ | _, [] => r = Fault AssertFailed
  | _, _ =>
      if lp_total es' >? UINT32_MAX then r = Ok None
      else exists m', r = Ok (Some (m', lp_ptr es' (at_ + length xs - 1))) /\ lp_rep m' es'
  end.
Proof.
  intros R Hx Hlen Hj. cbv zeta. destruct where_; [| |done].
  - destruct xs as [|x xs]; [done|]. apply batch_before; [done|lia|done|cbn [length] in *; lia].
  - destruct xs as [|x xs].
    { rewrite batch_after by (done || lia). done. }
    rewrite batch_after by (done || lia). apply batch_before; [done|lia|done|cbn [length] in *; lia].
Qed.

(** ** Ranges *)

Lemma delete_range_loop_ok fuel num es slack i n del :
  lp_wf num es -> (i < length es)%nat -> 0 <= n -> (length es - i <= fuel)%nat ->
  let d := Z.min n (zlen es - Z.of_nat i) in
  lpDeleteRange_loop fuel (lp_image num es slack) (lp_total es) n del (lp_off (take i es)) =
    Ok (del + d, lp_off (take (i + Z.to_nat d) es)).
Proof.
  intros Hwf. revert i n del. induction fuel as [|fuel IH]; intros i n del Hi Hn Hf; [lia|].
  cbn [lpDeleteRange_loop]. destruct (Z.eqb_spec n 0) as [->|Hn0].
  { rewrite Z.min_l by lia. rewrite Nat.add_0_r, Z.add_0_r. done. }
  destruct (split_at es i Hi) as (e & E & E'). rewrite (nav_skip num es slack Hwf _ e _ E). rs.
  rewrite <- E'. destruct (nav_get_ptr num es slack Hwf (S i)) as (b & -> & Hb); [lia|]. rs.
  destruct (Z.eqb_spec b LP_EOF) as [Heof|Hne].
  - apply Hb in Heof. replace (Z.min _ _) with 1 by lia. do 3 f_equal. f_equal. lia.
  - assert (S i < length es)%nat as Hi' by (destruct (decide (S i = length es)); [tauto|lia]).
    destruct (split_at es (S i) Hi') as (e' & Es & _).
    rewrite (nav_assert num es slack Hwf _ e' _ Es). rs. rewrite IH by lia.
    replace (Z.min (n - 1) (zlen es - Z.of_nat (S i))) with (Z.min n (zlen es - Z.of_nat i) - 1) by lia.
    do 2 f_equal; [lia|]. do 2 f_equal. lia.
Qed.

Lemma lp_wf_range num l d r :
  lp_wf num (l ++ d ++ r) -> lp_wf (num_add num (- zlen d)) (l ++ r).
Proof.
  revert num. induction d as [|e d IH]; intros num Hwf.
  { unfold num_add. case_match; [done|]. by rewrite Z.add_0_r. }
  pose proof (lp_wf_num _ _ Hwf) as Hn. apply lp_wf_delete in Hwf. apply IH in Hwf. cbn [length].
  replace (num_add num (- Z.of_nat (S (length d)))) with (num_add (num_add num (-1)) (- zlen d)); [done|].
  unfold num_add. destruct (num =? LP_HDR_NUMELE_UNKNOWN) eqn:E; [by rewrite E|].
  replace (num + -1 =? LP_HDR_NUMELE_UNKNOWN) with false by lia. lia.
Qed.

Lemma delete_range_ok num l d r slack n :
  lp_wf num (l ++ d ++ r) -> 0 < n -> zlen d = Z.min n (zlen (d ++ r)) -> d <> [] ->
  exists slack',
    lpDeleteRangeWithEntry (lp_image num (l ++ d ++ r) slack) (lp_off l) n =
      Ok (lp_image (num_add num (- zlen d)) (l ++ r) slack', lp_ptr (l ++ r) (length l)).
Proof.
  intros Hwf Hn Hd Hne. pose proof (lp_wf_num _ _ Hwf) as Hnum.
  pose proof (lp_wf_range _ _ _ _ Hwf) as Hwf'.
  assert (0 < length d)%nat by (destruct d; [done|cbn; lia]).
  pose proof (nav_length_bytes num _ slack Hwf) as Hlen. rewrite !length_app in Hd.
  unfold lpDeleteRangeWithEntry, lpBytes. rewrite nav_total by done. rs.
  replace (n =? 0) with false by lia.
  pose proof (delete_range_loop_ok (length (lp_image num (l ++ d ++ r) slack)) num (l ++ d ++ r) slack
    (length l) n 0 Hwf) as Hloop. cbv zeta in Hloop.
  rewrite take_app_length, !length_app in Hloop. rewrite !length_app in Hlen.
  replace (Z.min n _) with (zlen d) in Hloop by lia. rewrite Nat2Z.id, Z.add_0_l in Hloop.
  rewrite (app_assoc l d r), <- (length_app l d), take_app_length, <- app_assoc in Hloop.
  rewrite Hloop by lia. rs. clear Hloop.
  set (a := lp_hdr (lp_total (l ++ d ++ r)) num ++ lp_body l). set (t := lp_body r ++ [LP_EOF]).
  assert (zlen a = lp_off l) as Ha by apply lp_prefix_length.
  assert (lp_image num (l ++ d ++ r) slack = a ++ lp_body d ++ t ++ slack) as ->
    by (unfold lp_image, a, t; rewrite !lp_body_app, <- !app_assoc; done).
  assert (lp_total (l ++ d ++ r) = lp_off (l ++ d) + zlen t) as Hlt
    by (unfold t; rewrite app_assoc, lp_total_off, lp_off_app, length_app; cbn; lia).
  destruct (memmove_splice a (lp_body d) t slack 0 (lp_off l) (lp_off (l ++ d))
    (lp_total (l ++ d ++ r) - 1 - lp_off (l ++ d) + 1)) as (g & s' & -> & Hg & _);
    [lia|lia|rewrite lp_off_app; lia|lia|lia|].
  destruct g; [|cbn in Hg; lia]. cbn [app]. rs. unfold a, t. rewrite <- !app_assoc, set_total_hdr. rs.
  rewrite get_num_hdr by done. rs.
  replace (lp_total (l ++ d ++ r) - (lp_off (l ++ d) - lp_off l)) with (lp_total (l ++ r))
    by (rewrite lp_total_app_list, lp_off_app; lia).
  assert ((if negb (num =? LP_HDR_NUMELE_UNKNOWN)
    then lpSetNumElements (lp_hdr (lp_total (l ++ r)) num ++ lp_body l ++ lp_body r ++ [LP_EOF] ++ s') (num - zlen d)
    else Ok (lp_hdr (lp_total (l ++ r)) num ++ lp_body l ++ lp_body r ++ [LP_EOF] ++ s')) =
    Ok (lp_image (num_add num (- zlen d)) (l ++ r) s')) as ->.
  { unfold num_add, lp_image. rewrite lp_body_app, <- app_assoc.
    destruct (num =? _); cbn [negb]; [done|]. by rewrite set_num_hdr. }
  rs. destruct (shrink_ok _ _ s' Hwf') as [s2 ->]. rs. exists s2.
  assert (Forall ent_ok r) as Hr by (destruct Hwf as [Hok _]; rewrite !Forall_app in Hok; apply Hok).
  pose proof (next_ptr_ok (lp_hdr (lp_total (l ++ r)) (num_add num (- zlen d)) ++ lp_body l) s2 l r
    ltac:(apply lp_prefix_length) Hr) as Hp.
  assert (lp_image (num_add num (- zlen d)) (l ++ r) s2 =
    (lp_hdr (lp_total (l ++ r)) (num_add num (- zlen d)) ++ lp_body l) ++ (lp_body r ++ [LP_EOF]) ++ s2) as E
    by (unfold lp_image; by rewrite lp_body_app, <- !app_assoc).
  rewrite <- E in Hp. destruct (mem_get _ (lp_off l)); [|done]. rs. cbn in Hp. by injection Hp as ->.
Qed.

(** Moving the end marker to the [i]-th entry *)
Lemma truncate_ok num l e r slack :
  lp_wf num (l ++ e :: r) -> zlen l < LP_HDR_NUMELE_UNKNOWN ->
  exists m', (lp ← mem_write (lp_image num (l ++ e :: r) slack) (lp_off l) [LP_EOF];
     lp ← lpSetTotalBytes lp (lp_off l + 1);
     lp ← lpSetNumElements lp (zlen l);
     lpShrinkToFit lp) = Ok m' /\ lp_rep m' l.
Proof.
  intros Hwf Hl. pose proof (nav_ent_ok _ _ Hwf l e r eq_refl) as He.
  destruct (ent_bytes_first e He) as (b & t & Eb & _).
  rewrite lp_image_at_entry. unfold lp_entry. rewrite Eb.
  set (s := t ++ lpEncodeBacklen (zlen (b :: t))). set (s2 := (lp_body r ++ [LP_EOF]) ++ slack).
  change ((b :: t) ++ lpEncodeBacklen (zlen (b :: t))) with ([b] ++ s). rewrite <- (app_assoc [b]).
  rewrite (mem_write_app _ [b]) by (rewrite ?lp_prefix_length; done). rs.
  rewrite <- app_assoc, set_total_hdr. rs. rewrite set_num_hdr. rs.
  assert (lp_wf (zlen l) l) as Hwf'.
  { destruct Hwf as (Hok & Ht & _). apply Forall_app in Hok as [? _]. split; [done|].
    split; [|by right]. pose proof (lp_total_off l). pose proof (lp_total_off (l ++ e :: r)).
    pose proof (lp_off_le l (e :: r)). lia. }
  destruct (shrink_ok (zlen l) l (s ++ s2) Hwf') as [s' Hs].
  change (lp_hdr (lp_off l + 1) (zlen l) ++ lp_body l ++ [LP_EOF] ++ s ++ s2) with
    (lp_image (zlen l) l (s ++ s2)). rewrite Hs. eexists. split; [done|]. by exists (zlen l), s'.
Qed.

Lemma delete_index_ok m es index n :
  lp_rep m es -> is_i64 index -> 0 <= n <= UINT64_MAX ->
  let i := seek_index (zlen es) index in
  exists m', lpDeleteRange m index n = Ok m' /\
    lp_rep m' (if (0 <=? i) && (i <? zlen es)
               then take (Z.to_nat i) es ++ drop (Z.to_nat i + Z.to_nat n) es else es).
Proof.
  intros Hrep Hidx Hn i. pose proof (seek_ok m es index Hrep) as Hseek. cbv zeta in Hseek. fold i in Hseek.
  unfold lpDeleteRange. destruct Hrep as (num & slack & -> & Hwf). rewrite nav_num by done. rs.
  destruct (Z.eqb_spec n 0) as [->|Hn0].
  { eexists. split; [done|]. rewrite Nat.add_0_r, take_drop, Tauto.if_same. by exists num, slack. }
  rewrite Hseek. rs. destruct ((0 <=? i) && (i <? zlen es)) eqn:Ei.
  2:{ eexists. split; [done|]. by exists num, slack. }
  assert (Z.to_nat i < length es)%nat as Hi by lia. rewrite lp_ptr_some by done.
  assert (length (take (Z.to_nat i) es) = Z.to_nat i) as Hl by (rewrite length_take; lia).
  assert (negb (num =? LP_HDR_NUMELE_UNKNOWN) = true -> num = zlen es /\ num < LP_HDR_NUMELE_UNKNOWN) as Hnum
    by (destruct Hwf as (_ & _ & [->|?]); [done|done]).
  destruct (negb (num =? LP_HDR_NUMELE_UNKNOWN) && (u64 (num - u64 _) <=? n)) eqn:Ek.
  - apply andb_true_iff in Ek as [Hk Hle]. destruct (Hnum Hk) as [-> Hlt]. rewrite Hk in Hle |- *.
    cbn [andb] in Hle |- *. fold (seek_index (zlen es) index) in Hle |- *. fold i in Hle |- *.
    rewrite (u64_small i), u64_small in Hle by lia.
    destruct (split_at es (Z.to_nat i) Hi) as (e & E & _).
    destruct (truncate_ok (zlen es) (take (Z.to_nat i) es) e (drop (S (Z.to_nat i)) es) slack) as (m' & Hm & Hr);
      [by rewrite <- E|lia|].
    rewrite <- E, Hl, Z2Nat.id in Hm by lia. exists m'. split; [done|].
    by rewrite (drop_ge es) by lia; rewrite app_nil_r.
  - set (d := take (Z.to_nat n) (drop (Z.to_nat i) es)).
    set (r := drop (Z.to_nat i + Z.to_nat n) es).
    assert (es = take (Z.to_nat i) es ++ d ++ r) as E
      by (unfold d, r; by rewrite <- drop_drop, !take_drop).
    assert (zlen d = Z.min n (zlen (d ++ r))) as Hd.
    { rewrite length_app. unfold d, r. rewrite length_take, !length_drop. lia. }
    assert (d <> []) as Hne.
    { intros Hd0. apply (f_equal length) in Hd0. unfold d in Hd0.
      rewrite length_take, length_drop in Hd0. cbn in Hd0. lia. }
    destruct (delete_range_ok num (take (Z.to_nat i) es) d r slack n) as [s' Hdel];
      [by rewrite <- E|lia|done|done|].
    rewrite <- E in Hdel. rewrite Hdel. rs. eexists. split; [done|].
    eexists _, s'. split; [done|]. apply (lp_wf_range num _ d). by rewrite <- E.
Qed.

(** [lpDeleteRange] removes [n] entries from the index on, or all up to the
    end, with either of its two methods; an index out of range leaves the
    listpack alone. *)
Theorem lpDeleteRange_spec m es index n :
  lp_rep m es -> is_i64 index -> 0 <= n <= UINT64_MAX ->
  let i := seek_index (zlen es) index in
  exists m', lpDeleteRange m index n = Ok m' /\
    lp_rep m' (if (0 <=? i) && (i <? zlen es)
               then take (Z.to_nat i) es ++ drop (Z.to_nat i + Z.to_nat n) es else es).
Proof. apply delete_index_ok. Qed.

(** ** Deletion of several entries *)

(** The entries from position [k] on, without the ones at the increasing
    positions [ds] *)
Fixpoint keep_from (k : nat) (ds : list nat) (es : list lpent) : list lpent :=
  match ds with
  | [] => drop k es
  | d :: ds => take (d - k) (drop k es) ++ keep_from (S d) ds es
  end.
Fixpoint increasing (k n : nat) (ds : list nat) : Prop :=
  match ds with
  | [] => (k <= n)%nat
  | d :: ds => (k <= d < n)%nat /\ increasing (S d) n ds
  end.

Lemma keep_from_length ds k es :
  increasing k (length es) ds -> (length (keep_from k ds es) + length ds = length es - k)%nat.
Proof.
  revert k. induction ds as [|d ds IH]; intros k Hi; cbn [keep_from length].
  - rewrite length_drop. lia.
  - destruct Hi as [Hd Hi]. pose proof (IH _ Hi). rewrite length_app, length_take, length_drop. lia.
Qed.

Lemma keep_from_ok ds k es : Forall ent_ok es -> Forall ent_ok (keep_from k ds es).
Proof.
  intros Hok. revert k. induction ds as [|d ds IH]; intros k; cbn [keep_from].
  - by apply Forall_drop.
  - apply Forall_app. split; [by apply Forall_take, Forall_drop|apply IH].
Qed.

Lemma lp_off_take_S es i e :
  es !! i = Some e -> lp_off (take (S i) es) = lp_off (take i es) + ent_size e.
Proof. intros He. by rewrite (take_S_r _ _ _ He), lp_off_snoc. Qed.

Lemma lp_off_take_le es i j : (i <= j)%nat ->
  lp_off (take j es) = lp_off (take i es) + zlen (lp_body (take (j - i) (drop i es))).
Proof.
  intros Hij. rewrite <- lp_off_app. f_equal. rewrite take_take_drop. f_equal. lia.
Qed.

(** The bytes of [es] from position [i] on *)
Definition lp_tail (es : list lpent) (i : nat) (slack : list Z) : list Z :=
  lp_body (drop i es) ++ LP_EOF :: slack.

Lemma lp_tail_cons es i e slack : es !! i = Some e ->
  lp_tail es i slack = lp_entry e ++ lp_tail es (S i) slack.
Proof. intros He. unfold lp_tail. rewrite (drop_S _ _ _ He), lp_body_cons. by rewrite <- app_assoc. Qed.

Lemma lp_tail_split es i j slack : (i <= j)%nat ->
  lp_tail es i slack = lp_body (take (j - i) (drop i es)) ++ lp_tail es j slack.
Proof.
  intros Hij. unfold lp_tail. rewrite app_assoc, <- lp_body_app. do 2 f_equal.
  replace j with (i + (j - i))%nat at 2 by lia. by rewrite <- drop_drop, take_drop.
Qed.

Lemma skip_tail (a : list Z) es i e slack :
  es !! i = Some e -> ent_ok e -> zlen a = lp_off (take i es) ->
  (exists b, mem_get (a ++ lp_tail es i slack) (lp_off (take i es)) = Ok b /\ b <> LP_EOF) /\
  lpSkip (a ++ lp_tail es i slack) (lp_off (take i es)) = Ok (lp_off (take (S i) es)).
Proof.
  intros He Hok Ha. rewrite (lp_tail_cons _ _ _ _ He), <- Ha. unfold lp_entry. rewrite <- app_assoc.
  split.
  - destruct (ent_bytes_first e Hok) as (b & t & -> & Hb). exists b. cbn [app].
    rewrite mem_get_here. split; [done|lia].
  - unfold lpSkip. rewrite size_unsafe_ok by done. rs. fold (ent_size e).
    by rewrite (lp_off_take_S _ _ _ He), Ha.
Qed.

Lemma batch_delete_loop_ok es slack ds i (a g : list Z) :
  Forall ent_ok es -> (i < length es)%nat -> increasing (S i) (length es) ds ->
  zlen a + zlen g = lp_off (take i es) ->
  exists s', lpBatchDelete_loop (a ++ g ++ lp_tail es i slack)
      (lp_off (take i es) :: ((fun d => lp_off (take d es)) <$> ds)) (lp_total es) (zlen a) =
    Ok (a ++ lp_body (keep_from (S i) ds es) ++ LP_EOF :: s',
        zlen a + zlen (lp_body (keep_from (S i) ds es)) + 1).
Proof.
  intros Hok. revert i a g. induction ds as [|j ds IH]; intros i a g Hi Hinc Hag;
    destruct (lookup_lt_is_Some_2 es i Hi) as [e He];
    pose proof (Forall_lookup_1 _ _ _ _ Hok He) as Hoke; pose proof (ent_size_range e Hoke);
    pose proof (lp_off_take_S es i e He) as HoS;
    cbn [lpBatchDelete_loop fmap list_fmap];
    rewrite (app_assoc a g);
    (destruct (skip_tail (a ++ g) es i e slack He Hoke) as [(b & -> & Hb) ->];
      [rewrite length_app; lia|]); rs;
    (replace (b =? LP_EOF) with false by lia); cbn [negb]; change (assert_ true) with (Ok tt); rs.
  - pose proof (lp_off_take_le es (S i) (length es) ltac:(lia)) as Hend.
    rewrite take_ge, (take_ge (drop (S i) es)) in Hend by (rewrite ?length_drop; lia).
    rewrite lp_total_off. replace (_ >? _) with true by lia. change (assert_ true) with (Ok tt). rs.
    rewrite (lp_tail_cons _ _ _ _ He), <- app_assoc, (app_assoc g).
    unfold lp_tail. change (LP_EOF :: slack) with ([LP_EOF] ++ slack). rewrite (app_assoc (lp_body _)).
    destruct (memmove_left a (g ++ lp_entry e) (lp_body (drop (S i) es) ++ [LP_EOF]) slack (zlen a)
      (lp_off (take (S i) es)) (lp_off es + 1 - lp_off (take (S i) es))) as (g' & -> & _);
      [done|rewrite length_app, Nat2Z.inj_add, lp_entry_length; lia|rewrite length_app; cbn; lia|].
    rs. eexists. cbn [keep_from]. rewrite <- app_assoc. do 2 f_equal. lia.
  - destruct Hinc as [Hj Hinc]. cbn [keep_from].
    destruct (Z.eqb_spec (lp_off (take (S i) es)) (lp_off (take j es))) as [Heq|Hne].
    + assert (j = S i) as ->.
      { destruct (decide (j = S i)) as [|Hn]; [done|exfalso].
        destruct (lookup_lt_is_Some_2 es (S i)) as [e' He']; [lia|].
        pose proof (ent_size_range e' (Forall_lookup_1 _ _ _ _ Hok He')).
        pose proof (lp_off_take_S es (S i) e' He').
        pose proof (lp_off_take_le es (S (S i)) j ltac:(lia)). lia. }
      rewrite (lp_tail_cons _ _ _ _ He), <- app_assoc, (app_assoc g).
      rewrite Nat.sub_diag, take_0. cbn [app]. apply IH; [lia|done|].
      rewrite length_app, Nat2Z.inj_add, lp_entry_length. lia.
    + pose proof (lp_off_take_le es (S i) j ltac:(lia)) as Hk.
      replace (_ >? _) with true by lia. change (assert_ true) with (Ok tt). rs.
      rewrite (lp_tail_cons _ _ _ _ He), <- app_assoc, (app_assoc g).
      rewrite (lp_tail_split es (S i) j slack) by lia.
      destruct (memmove_left a (g ++ lp_entry e) (lp_body (take (j - S i) (drop (S i) es)))
        (lp_tail es j slack) (zlen a) (lp_off (take (S i) es))
        (lp_off (take j es) - lp_off (take (S i) es))) as (g' & -> & Hg');
        [done|rewrite length_app, Nat2Z.inj_add, lp_entry_length; lia|lia|].
      rs. rewrite length_app in Hg'. pose proof (lp_entry_length e).
      destruct (IH j (a ++ lp_body (take (j - S i) (drop (S i) es))) g') as (s' & Hs); [lia|done|rewrite length_app; lia|].
      exists s'. rewrite lp_body_app, <- !app_assoc in *. rewrite !length_app, !Nat2Z.inj_add in *.
      replace (lp_off (take j es) - lp_off (take (S i) es)) with
        (zlen (lp_body (take (j - S i) (drop (S i) es)))) by lia.
      etransitivity; [exact Hs|]. do 2 f_equal. lia.
Qed.

Lemma lp_body_drop_split es k j : (k <= j)%nat ->
  zlen (lp_body (drop k es)) = zlen (lp_body (take (j - k) (drop k es))) + zlen (lp_body (drop j es)).
Proof.
  intros Hkj. rewrite <- (take_drop (j - k) (drop k es)) at 1. rewrite drop_drop, lp_body_app, length_app.
  replace (k + (j - k))%nat with j by lia. lia.
Qed.

Lemma keep_from_body ds k es : increasing k (length es) ds ->
  zlen (lp_body (keep_from k ds es)) <= zlen (lp_body (drop k es)).
Proof.
  revert k. induction ds as [|d ds IH]; intros k Hinc; cbn [keep_from]; [lia|].
  destruct Hinc as [Hd Hinc]. pose proof (IH _ Hinc). rewrite lp_body_app, length_app.
  pose proof (lp_body_drop_split es k d ltac:(lia)).
  pose proof (lp_body_drop_split es d (S d) ltac:(lia)). lia.
Qed.

Lemma lp_wf_keep num es ds :
  lp_wf num es -> increasing 0 (length es) ds -> lp_wf (num_add num (- zlen ds)) (keep_from 0 ds es).
Proof.
  intros (Hok & Ht & Hn) Hinc. pose proof (keep_from_length ds 0 es Hinc) as Hl.
  split; [by apply keep_from_ok|]. split.
  - pose proof (keep_from_body ds 0 es Hinc) as Hb. rewrite drop_0 in Hb. unfold lp_total in *. lia.
  - unfold num_add. destruct Hn as [->|[-> ?]]; [by left|].
    replace (zlen es =? LP_HDR_NUMELE_UNKNOWN) with false by lia. lia.
Qed.

(** [lpBatchDelete], given pointers to entries in the order they have in the
    listpack, removes exactly these entries in one pass over the bytes, with no
    failed assertion. *)
Theorem lpBatchDelete_spec m es ds :
  lp_rep m es -> increasing 0 (length es) ds ->
  exists m', lpBatchDelete m ((fun d => lp_off (take d es)) <$> ds) = Ok m' /\
    lp_rep m' (keep_from 0 ds es).
Proof.
  intros (num & slack & -> & Hwf) Hinc. destruct ds as [|i ds].
  { eexists. split; [done|]. by exists num, slack. }
  pose proof (lp_wf_keep _ _ _ Hwf Hinc) as Hwf'. pose proof (lp_wf_num _ _ Hwf) as Hn.
  destruct Hinc as [Hi Hinc]. cbn [fmap list_fmap lpBatchDelete]. rewrite nav_total by done. rs.
  rewrite lp_total_off, Z.add_simpl_r, nav_eof. rs. change (assert_ (LP_EOF =? LP_EOF)) with (Ok tt). rs.
  set (a := lp_hdr (lp_total es) num ++ lp_body (take i es)).
  assert (zlen a = lp_off (take i es)) as Ha by apply lp_prefix_length.
  assert (lp_image num es slack = a ++ [] ++ lp_tail es i slack) as ->.
  { unfold lp_image, a, lp_tail. cbn [app]. rewrite <- app_assoc, (app_assoc (lp_body (take i es))).
    by rewrite <- lp_body_app, take_drop. }
  destruct (batch_delete_loop_ok es slack ds i a []) as (s' & Hs); [apply Hwf|lia|done|cbn [length]; lia|].
  rewrite lp_total_off, Ha in Hs. cbn [fmap list_fmap] in Hs. rewrite Hs. rs. clear Hs.
  set (es' := keep_from 0 (i :: ds) es) in *.
  assert (lp_off (take i es) + zlen (lp_body (keep_from (S i) ds es)) = lp_off es') as Hoff.
  { unfold es'. cbn [keep_from]. by rewrite Nat.sub_0_r, drop_0, lp_off_app. }
  rewrite Hoff. pose proof (lp_total_off es') as Ht'. pose proof Hwf' as (_ & Htm & _).
  assert (lp_hdr (lp_total es) num ++ lp_body es' ++ LP_EOF :: s' =
    a ++ lp_body (keep_from (S i) ds es) ++ LP_EOF :: s') as <-.
  { unfold a, es'. cbn [keep_from]. rewrite Nat.sub_0_r, drop_0, lp_body_app. by rewrite <- !app_assoc. }
  rewrite u64_small by (unfold lp_off in *; lia).
  replace (lp_off es + 1 - (lp_off es + 1 - (lp_off es' + 1))) with (lp_total es') by lia.
  replace (lp_total es' - 1) with (lp_off es') by lia.
  assert (mem_get (lp_hdr (lp_total es) num ++ lp_body es' ++ LP_EOF :: s') (lp_off es') = Ok LP_EOF) as ->
    by (rewrite app_assoc; apply mem_get_app; by rewrite lp_prefix_length).
  rs. change (assert_ (LP_EOF =? LP_EOF)) with (Ok tt). rs. rewrite set_total_hdr. rs.
  rewrite get_num_hdr by done. rs.
  assert ((if negb (num =? LP_HDR_NUMELE_UNKNOWN)
    then lpSetNumElements (lp_hdr (lp_total es') num ++ lp_body es' ++ LP_EOF :: s')
           (num - Z.of_nat (S (length ((fun d => lp_off (take d es)) <$> ds))))
    else Ok (lp_hdr (lp_total es') num ++ lp_body es' ++ LP_EOF :: s')) =
    Ok (lp_image (num_add num (- zlen (i :: ds))) es' s')) as E.
  { rewrite length_fmap. unfold num_add, lp_image.
    destruct (num =? _); cbn [negb]; [done|]. by rewrite set_num_hdr. }
  cbn [length]. cbn [fmap list_fmap] in E. rewrite E. rs. clear E.
  destruct (shrink_ok (num_add num (- zlen (i :: ds))) es' s') as [s2 ->]; [done|].
  eexists. split; [done|]. by eexists _, s2.
Qed.

(** ** Merging *)

Lemma lp_total_merge es1 es2 : lp_total (es1 ++ es2) = lp_total es1 + lp_total es2 - LP_HDR_SIZE - 1.
Proof. unfold lp_total. rewrite lp_body_app, length_app. lia. Qed.

(** The bytes after the header of a listpack *)
Lemma read_entries num es slack :
  mem_read (lp_image num es slack) LP_HDR_SIZE (lp_total es - LP_HDR_SIZE) = Ok (lp_body es ++ [LP_EOF]).
Proof.
  unfold lp_image. change (LP_EOF :: slack) with ([LP_EOF] ++ slack). rewrite (app_assoc (lp_body es)).
  apply mem_read_app; [by rewrite lp_hdr_length|]. unfold lp_total. rewrite length_app. cbn. lia.
Qed.

(** The header and the entries *)
Lemma read_prefix num es slack :
  mem_read (lp_image num es slack) 0 (lp_total es - 1) = Ok (lp_hdr (lp_total es) num ++ lp_body es).
Proof.
  rewrite lp_image_eof. apply (mem_read_app []); [done|]. rewrite lp_prefix_length, lp_total_off. lia.
Qed.

Lemma realloc_image num es slack n : lp_total es <= n ->
  exists s, lp_realloc (lp_image num es slack) n = lp_image num es s /\ n <= lp_total es + zlen s.
Proof.
  intros Hn. rewrite lp_image_eof. change (LP_EOF :: slack) with ([LP_EOF] ++ slack). rewrite app_assoc.
  pose proof (lp_prefix_length (lp_total es) num es) as Hp. pose proof (lp_total_off es).
  destruct (realloc_keep ((lp_hdr (lp_total es) num ++ lp_body es) ++ [LP_EOF]) slack n) as (y & -> & Hy).
  - rewrite length_app. cbn [length]. lia.
  - exists y. rewrite lp_image_eof, <- app_assoc. split; [done|].
    rewrite length_app in Hy. cbn [length] in Hy. lia.
Qed.

Lemma merge_append num1 es1 s1 num2 es2 s2 :
  lp_total (es1 ++ es2) <= lp_total es1 + zlen s1 ->
  exists s, (d ← mem_read (lp_image num2 es2 s2) LP_HDR_SIZE (lp_total es2 - LP_HDR_SIZE);
    mem_write (lp_image num1 es1 s1) (lp_total es1 - 1) d) =
    Ok (lp_hdr (lp_total es1) num1 ++ lp_body (es1 ++ es2) ++ LP_EOF :: s).
Proof.
  intros Hfit. rewrite read_entries. rs. rewrite lp_image_eof.
  pose proof (lp_prefix_length (lp_total es1) num1 es1) as Hp. pose proof (lp_total_off es1).
  rewrite lp_total_merge in Hfit. pose proof (lp_total_off es2). unfold lp_off in *.
  destruct (take_split (LP_EOF :: s1) (length (lp_body es2 ++ [LP_EOF]))) as (t & r & -> & Ht);
    [rewrite length_app; cbn [length]; lia|].
  rewrite (mem_write_app _ t) by (done || lia). exists r. by rewrite lp_body_app, <- !app_assoc.
Qed.

Lemma merge_prepend num1 es1 s1 num2 es2 s2 :
  lp_total (es1 ++ es2) <= lp_total es2 + zlen s2 ->
  exists s, (target ← memmove (lp_image num2 es2 s2) (lp_total es1 - 1) LP_HDR_SIZE (lp_total es2 - LP_HDR_SIZE);
    d ← mem_read (lp_image num1 es1 s1) 0 (lp_total es1 - 1); mem_write target 0 d) =
    Ok (lp_hdr (lp_total es1) num1 ++ lp_body (es1 ++ es2) ++ LP_EOF :: s).
Proof.
  intros Hfit. pose proof (lp_hdr_length (lp_total es2) num2) as Hh.
  rewrite lp_total_merge in Hfit. pose proof (lp_total_off es1) as Ho1. unfold lp_off in Ho1.
  assert (lp_image num2 es2 s2 = lp_hdr (lp_total es2) num2 ++ [] ++ (lp_body es2 ++ [LP_EOF]) ++ s2) as ->
    by (unfold lp_image; cbn [app]; by rewrite <- app_assoc).
  destruct (memmove_splice (lp_hdr (lp_total es2) num2) [] (lp_body es2 ++ [LP_EOF]) s2
    (zlen (lp_body es1)) (lp_total es1 - 1) LP_HDR_SIZE (lp_total es2 - LP_HDR_SIZE)) as (g & s & -> & Hg & _);
    [lia|lia|cbn [length]; lia|unfold lp_total; rewrite length_app; cbn [length]; lia|cbn [length]; lia|].
  rs. rewrite read_prefix. rs. rewrite app_assoc.
  exists s. etransitivity; [apply (mem_write_app [] (lp_hdr (lp_total es2) num2 ++ g)); [done|]|].
  - pose proof (lp_hdr_length (lp_total es1) num1). rewrite !length_app. lia.
  - cbn [app]. by rewrite lp_body_app, <- !app_assoc.
Qed.

(** [lpMerge] of two listpacks yields the entries of the first followed by
    those of the second, whichever of the two allocations it extends. *)
Theorem lpMerge_spec m1 es1 m2 es2 :
  lp_rep m1 es1 -> lp_rep m2 es2 -> lp_total (es1 ++ es2) < UINT32_MAX ->
  exists m append, lpMerge (Some m1) (Some m2) false = Ok (Some (m, append)) /\ lp_rep m (es1 ++ es2).
Proof.
  intros (n1 & s1 & -> & W1) (n2 & s2 & -> & W2) Ht. unfold lpMerge, lpBytes.
  pose proof (lp_total_merge es1 es2) as Hm. pose proof W1 as (O1 & T1 & _). pose proof W2 as (O2 & T2 & _).
  pose proof (lp_body_count es1 O1). pose proof (lp_body_count es2 O2).
  rewrite nav_total by done. rs. destruct (length_ok n1 es1 s1 W1) as (k1 & -> & K1). rs.
  rewrite nav_total by done. rs. destruct (length_ok n2 es2 s2 W2) as (k2 & -> & K2). rs.
  rewrite (u64_small (_ - _)), <- Hm by (unfold lp_total in *; lia).
  set (n := if u64 (zlen es1 + zlen es2) <? _ then _ else _).
  assert (lp_wf n (es1 ++ es2)) as Hwf.
  { split; [by apply Forall_app|]. split; [lia|]. unfold n. rewrite length_app.
    rewrite u64_small by (unfold lp_total in *; lia). case_match; lia. }
  assert (forall k s, (target ← lpSetNumElements (lp_hdr (lp_total es1) k ++ lp_body (es1 ++ es2) ++ LP_EOF :: s) n;
    lpSetTotalBytes target (lp_total (es1 ++ es2))) = Ok (lp_image n (es1 ++ es2) s)) as Hfin
    by (intros; rewrite set_num_hdr; rs; by rewrite set_total_hdr).
  replace (lp_total (es1 ++ es2) <? UINT32_MAX) with true by lia.
  destruct (lp_total es1 >=? lp_total es2) eqn:E; change (assert_ true) with (Ok tt); rs.
  - destruct (realloc_image k1 es1 s1 (lp_total (es1 ++ es2))) as (r & -> & Hr); [unfold lp_total in *; lia|].
    destruct (merge_append k1 es1 r k2 es2 s2 Hr) as (s & Ha).
    destruct (mem_read _ _ _); [|done]. rs. cbn [mbind res_bind] in Ha. rewrite Ha. rs.
    specialize (Hfin k1 s). destruct (lpSetNumElements _ n); [|done]. rs. cbn [mbind res_bind] in Hfin.
    rewrite Hfin. rs. eexists _, _. split; [done|]. by exists n, s.
  - destruct (realloc_image k2 es2 s2 (lp_total (es1 ++ es2))) as (r & -> & Hr); [unfold lp_total in *; lia|].
    destruct (merge_prepend k1 es1 s1 k2 es2 r Hr) as (s & Ha).
    destruct (memmove _ _ _ _); [|done]. rs. cbn [mbind res_bind] in Ha.
    destruct (mem_read _ _ _); [|done]. rs. cbn [mbind res_bind] in Ha. rewrite Ha. rs.
    specialize (Hfin k1 s). destruct (lpSetNumElements _ n); [|done]. rs. cbn [mbind res_bind] in Hfin.
    rewrite Hfin. rs. eexists _, _. split; [done|]. by exists n, s.
Qed.
End range_proofs.

(** ** Instances *)

Lemma lpBatchInsert_spec_witness :
  exists m', @lpBatchInsert alloc16 lp_ex 6 LP_AFTER [SVal ele_42; LVal (-5)] =
      Ok (Some (m', Some 11)) /\
    lp_rep m' (take 1 lp_ex_entries ++ [int_ent 42; int_ent (-5)] ++ drop 1 lp_ex_entries).
Proof.
  pose proof (@lpBatchInsert_spec alloc16 lp_ex lp_ex_entries 0 LP_AFTER [SVal ele_42; LVal (-5)] lp_ex_rep) as Hi.
  cbv zeta in Hi. cbv match in Hi.
  assert ((lp_total (take 1 lp_ex_entries ++ (batch_ent <$> [SVal ele_42; LVal (-5)]) ++
    drop 1 lp_ex_entries) >? UINT32_MAX) = false) as E by (vm_compute; reflexivity).
  rewrite E in Hi. apply Hi.
  - repeat constructor; try exact ele_42_bytes; vm_compute; done.
  - cbn. lia.
  - cbn. lia.
Defined.

Lemma lpDeleteRange_spec_witness :
  exists m', @lpDeleteRange alloc16 lp_ex (-2) 1 = Ok m' /\ lp_rep m' [int_ent 1000; int_ent 7].
Proof.
  apply (@lpDeleteRange_spec alloc16 lp_ex lp_ex_entries (-2) 1 lp_ex_rep); unfold is_i64; lia.
Defined.

Lemma lpBatchDelete_spec_witness :
  exists m', @lpBatchDelete alloc16 lp_ex [6; 16] = Ok m' /\ lp_rep m' [str_ent (chars "hello")].
Proof.
  apply (@lpBatchDelete_spec alloc16 lp_ex lp_ex_entries [0%nat; 2%nat] lp_ex_rep). cbn. lia.
Defined.

Lemma lpMerge_spec_witness :
  exists m append, @lpMerge alloc16 (Some lp_ex) (Some lp_ex) false = Ok (Some (m, append)) /\
    lp_rep m (lp_ex_entries ++ lp_ex_entries).
Proof.
  apply (@lpMerge_spec alloc16 lp_ex lp_ex_entries lp_ex lp_ex_entries lp_ex_rep lp_ex_rep).
  vm_compute. done.
Defined.
