(* ===== verification/LpApi.v ===== *)
(** The listpack as its clients use it: the calls of [listpack.c] that sorted
    sets make, on a listpack [m] that holds the entries [es], with a pointer for
    each position. *)

From S2P Require Import Prelude Numstr Listpack LpNav LpMod LpFind LpRange.

(** The address of the entry [i], or of the end marker *)
Definition lp_at (es : list lpent) (i : nat) : Z := lp_off (take i es).

(** The string an entry stands for *)
Definition ent_str (e : lpent) : list Z := match ent_value e with EInt v => decs v | EStr s => s end.

Lemma ele_ent_str e : zlen e < 2 ^ 32 - 5 → Forall is_byte e → ent_str (ele_ent e) = e.
Proof.
  intros Hl Hb. destruct (ele_ent_ok e Hl Hb) as [_ Hv]. unfold ent_str. rewrite Hv. unfold ele_value.
  destruct (string2ll e) as [v|] eqn:E; [|done]. by apply string2ll_sound in E as [_ ->].
Qed.

Lemma ent_ok_int e v : ent_ok e → ent_value e = EInt v → is_i64 v.
Proof. unfold is_i64. destruct e; cbn; intros ? [= <-]; lia. Qed.

Lemma ent_ok_str e s : ent_ok e → ent_value e = EStr s → zlen s < 2 ^ 32 - 5 ∧ Forall is_byte s.
Proof. destruct e; cbn; intros H [= <-]; (destruct H as [? ?]); (split; [lia|done]). Qed.

Lemma ent_matches_str s e : ent_ok e → ent_matches s e = bool_decide (ent_str e = s).
Proof.
  intros Hok. unfold ent_matches, ent_str. destruct (ent_value e) as [v|t] eqn:Ev; [|done].
  apply bool_decide_ext. split.
  - by intros [_ ->]%string2ll_sound.
  - intros <-. apply string2ll_complete. by eapply ent_ok_int.
Qed.

Section api.
Context {m : list Z} {es : list lpent} (R : lp_rep m es).

Lemma api_first : lpFirst m = Ok (lp_ptr es 0).
Proof. destruct R as (num & slack & -> & Hwf). by apply nav_lpFirst. Qed.

Lemma api_next i : (i < length es)%nat -> lpNext m (lp_at es i) = Ok (lp_ptr es (S i)).
Proof. destruct R as (num & slack & -> & Hwf). by apply nav_next. Qed.

Lemma api_prev i : (i < length es)%nat -> lpPrev m (lp_at es (S i)) = Ok (lp_ptr es i).
Proof. destruct R as (num & slack & -> & Hwf). by apply nav_prev. Qed.

Lemma api_prev_first : es <> [] -> lpPrev m (lp_at es 0) = Ok None.
Proof. intros Hne. destruct R as (num & slack & -> & Hwf). by apply nav_prev_first. Qed.

Lemma api_seek index :
  lpSeek m index =
    Ok (let i := seek_index (zlen es) index in
        if (0 <=? i) && (i <? zlen es) then lp_ptr es (Z.to_nat i) else None).
Proof. by apply seek_ok. Qed.

Lemma api_ent_ok i e : es !! i = Some e -> ent_ok e.
Proof.
  intros He. destruct R as (num & slack & -> & Hwf).
  eapply (nav_ent_ok num es Hwf (take i es) e (drop (S i) es)). by rewrite take_drop_middle.
Qed.

(** The value of an entry, an integer or a string of the listpack *)
Lemma api_value i e : es !! i = Some e ->
  match ent_value e with
  | EInt v => lpGetValue m (lp_at es i) = Ok (RNull v)
  | EStr s => exists p, lpGetValue m (lp_at es i) = Ok (RPtr p (zlen s)) /\ mem_read m p (zlen s) = Ok s /\
      forall n, 0 <= n <= zlen s -> mem_read m p n = Ok (take (Z.to_nat n) s)
  end.
Proof.
  intros He. pose proof (api_ent_ok i e He) as Hok. destruct R as (num & slack & -> & Hwf).
  assert (es = take i es ++ e :: drop (S i) es) as E by by rewrite take_drop_middle.
  unfold lpGetValue, lp_at. rewrite (nav_get num es slack Hwf _ e _ None E).
  unfold ent_ret. destruct (ent_value e) as [v|s] eqn:Ev; [done|]. rs.
  assert (zlen s < 2 ^ 32) by (destruct e; cbn in *; simplify_eq; lia).
  rewrite u32_small by lia. eexists. split; [done|].
  destruct (nav_split num es slack _ e _ E) as (a & b & Em & <-).
  assert (forall n, 0 <= n <= zlen s -> mem_read (lp_image num es slack) (zlen a + zlen (ent_head e)) n =
    Ok (take (Z.to_nat n) s)) as Hr.
  { intros n Hn. rewrite Em. unfold ent_bytes.
    assert (ent_data e = s) as -> by (destruct e; cbn in *; by simplify_eq).
    rewrite <- (take_drop (Z.to_nat n) s) at 1. rewrite <- !app_assoc, (app_assoc a).
    apply mem_read_app; [rewrite length_app|rewrite length_take]; lia. }
  split; [|done]. rewrite Hr by lia. by rewrite Nat2Z.id, firstn_all.
Qed.

Lemma api_length : exists m', lpLength m = Ok (zlen es, m') /\ lp_rep m' es /\ length m' = length m.
Proof. by apply lpLength_spec. Qed.

Lemma api_bytes : lpBytes m = Ok (lp_total es).
Proof. destruct R as (num & slack & -> & Hwf). by apply nav_total. Qed.

Lemma api_total : lp_total es <= UINT32_MAX.
Proof. destruct R as (num & slack & -> & Hwf). apply Hwf. Qed.

(** Every entry takes two bytes at least. *)
Lemma api_count : (2 * length es <= length m)%nat.
Proof.
  destruct R as (num & slack & -> & Hwf). pose proof (lp_image_length num es slack) as Hl.
  unfold lp_total in Hl. pose proof (lp_body_count es (proj1 Hwf)). lia.
Qed.

Lemma api_find i s skip : (i < length es)%nat -> Z.of_nat skip < 2 ^ 31 ->
  lpFind m (lp_ptr es i) s (Z.of_nat skip) = Ok (lp_at es <$> find_from s skip 0 i (drop i es)).
Proof. intros. by apply find_ok. Qed.
End api.

Section api_mod.
Context `{Allocator} {m : list Z} {es : list lpent} (R : lp_rep m es).

Lemma api_batch_insert j xs :
  (j <= length es)%nat -> Forall batch_ok xs -> 0 < zlen xs < 2 ^ 31 ->
  let es' := take j es ++ (batch_ent <$> xs) ++ drop j es in
  lp_total es' <= UINT32_MAX ->
  exists m' newp, lpBatchInsert m (lp_at es j) LP_BEFORE xs = Ok (Some (m', newp)) /\ lp_rep m' es'.
Proof.
  intros Hj Hx Hlen es' Ht. destruct R as (num & slack & -> & Hwf).
  pose proof (batch_insert_ok num (take j es) (drop j es) slack xs) as Hb.
  rewrite take_drop in Hb. specialize (Hb Hwf Hx Hlen). cbv zeta in Hb. fold es' in Hb.
  replace (lp_total es' >? UINT32_MAX) with false in Hb by lia. destruct Hb as (s' & newp & Hb & _).
  eexists _, _. split; [exact Hb|]. eexists _, _. split; [done|].
  replace (zlen xs) with (zlen (batch_ent <$> xs)) by by rewrite length_fmap.
  apply lp_wf_batch; [by rewrite take_drop| |done].
  apply Forall_fmap. eapply Forall_impl; [exact Hx|]. intros x Hx'.
  destruct (batch_elem_ent x Hx') as (_ & He & _). done.
Qed.

Lemma api_batch_append xs :
  Forall batch_ok xs -> 0 < zlen xs < 2 ^ 31 -> lp_total (es ++ (batch_ent <$> xs)) <= UINT32_MAX ->
  exists m', lpBatchAppend m xs = Ok (Some m') /\ lp_rep m' (es ++ (batch_ent <$> xs)).
Proof.
  intros Hx Hlen Ht. destruct (api_batch_insert (length es) xs) as (m' & newp & Hi & R'); try done.
  - by rewrite firstn_all, drop_all, app_nil_r.
  - rewrite firstn_all, drop_all, app_nil_r in R'. exists m'. split; [|done].
    unfold lpBatchAppend. pose proof (api_bytes R) as Hb. unfold lpBytes in Hb. rewrite Hb. rs.
    rewrite lp_total_off, Z.add_simpl_r. unfold lp_at in Hi. rewrite firstn_all in Hi.
    unfold lp_only. by rewrite Hi.
Qed.

Lemma api_delete_range i n : (i < length es)%nat -> (0 < n)%nat ->
  exists m', lpDeleteRangeWithEntry m (lp_at es i) (Z.of_nat n) =
      Ok (m', lp_ptr (take i es ++ drop (i + n) es) i) /\
    lp_rep m' (take i es ++ drop (i + n) es).
Proof.
  intros Hi Hn. destruct R as (num & slack & -> & Hwf).
  assert (es = take i es ++ take n (drop i es) ++ drop (i + n) es) as E
    by (rewrite <- drop_drop, take_drop, take_drop; done).
  pose proof Hwf as Hwf'. rewrite E in Hwf'.
  destruct (delete_range_ok num (take i es) (take n (drop i es)) (drop (i + n) es) slack (Z.of_nat n))
    as (s' & Hd); [done|lia| |intros E0; apply (f_equal length) in E0; rewrite length_take, length_drop in E0; cbn in E0; lia|].
  { rewrite length_app, !length_take, !length_drop. lia. }
  rewrite <- E in Hd. replace (length (take i es)) with i in Hd by (rewrite length_take; lia). eexists. split; [exact Hd|].
  eexists _, _. split; [done|]. by apply lp_wf_range.
Qed.

Lemma api_delete_index index n :
  is_i64 index -> 0 <= n <= UINT64_MAX ->
  let i := seek_index (zlen es) index in
  exists m', lpDeleteRange m index n = Ok m' /\
    lp_rep m' (if (0 <=? i) && (i <? zlen es)
               then take (Z.to_nat i) es ++ drop (Z.to_nat i + Z.to_nat n) es else es).
Proof. by apply delete_index_ok. Qed.

Lemma api_append_elem ele e : elem_ent ele e -> lp_total (es ++ [e]) <= UINT32_MAX ->
  exists m', (listpack_bytes ← lpGetTotalBytes m; lp_only (lpInsert m ele (listpack_bytes - 1) LP_BEFORE)) = Ok (Some m') /\
    lp_rep m' (es ++ [e]).
Proof.
  intros He Ht. destruct R as (num & slack & -> & Hwf). rewrite nav_total by done. rs. rewrite lp_total_off, Z.add_simpl_r.
  pose proof (insert_before num es [] slack ele e ltac:(by rewrite app_nil_r) He) as Hi.
  rewrite app_nil_r in Hi. replace (_ >? _) with false in Hi by lia. destruct Hi as [s' ->].
  eexists. split; [done|]. eexists _, _. split; [done|]. apply lp_wf_insert; [by rewrite app_nil_r|apply He|done].
Qed.

Lemma api_append s : zlen s < 2 ^ 32 - 5 -> Forall is_byte s -> lp_total (es ++ [ele_ent s]) <= UINT32_MAX ->
  exists m', lpAppend m s = Ok (Some m') /\ lp_rep m' (es ++ [ele_ent s]).
Proof. intros Hs Hb Ht. by apply api_append_elem; [apply elem_ent_str|]. Qed.

Lemma api_append_int v : is_i64 v -> lp_total (es ++ [int_ent v]) <= UINT32_MAX ->
  exists m', lpAppendInteger m v = Ok (Some m') /\ lp_rep m' (es ++ [int_ent v]).
Proof. intros Hv Ht. by apply api_append_elem; [apply elem_ent_int|]. Qed.

Lemma api_delete i : (i < length es)%nat ->
  exists m', lpDelete m (lp_at es i) = Ok (Some (m', lp_ptr (delete i es) i)) /\ lp_rep m' (delete i es).
Proof. intros Hi. apply lpDelete_ok; [done|]. by rewrite lp_ptr_some. Qed.

Lemma api_shrink : exists m', lpShrinkToFit m = Ok m' /\ lp_rep m' es.
Proof.
  destruct R as (num & slack & -> & Hwf). destruct (shrink_ok num es slack Hwf) as [s' ->]. eexists. split; [done|]. by eexists _, _.
Qed.

Lemma api_dup : exists m', lpDup m = Ok m' /\ lp_rep m' es.
Proof.
  destruct R as (num & slack & -> & Hwf). destruct (dup_ok num es slack Hwf) as [s' ->]. eexists. split; [done|]. by eexists _, _.
Qed.
End api_mod.
