(* ===== verification/Skiplist.v ===== *)
(** The skiplist of sorted sets: [t_zset.c], lines 66 to 700, and the structures
    of [server.h].

    Nodes live in a heap, a finite map from addresses to nodes, and are mutated
    in place; a null or dangling pointer, or a level a node does not have, is a
    fault.  Scores are IEEE 754 doubles ([spec_float] and its comparisons), an
    sds string is its bytes, and [unsigned long] arithmetic wraps at 64 bits.
    Levels and indexes of levels, at most 32, are natural numbers. *)

From S2P Require Import Prelude Sds.
From Stdlib Require Import SpecFloat.

(** ** Data *)

Abbreviation ptr := positive.
Abbreviation double := spec_float.

Definition ZSKIPLIST_MAXLEVEL : nat := 32.
Definition ZSKIPLIST_MAX_SEARCH : Z := 10.
Definition ZSL_OFFSET_MAX_ELE : Z := 65535.
Definition ZSL_OFFSET_NO_ELE : Z := 65535.

Definition isnan (d : double) : bool := match d with S754_nan => true | _ => false end.

Record zskiplistLevel := ZLevel { forward : option ptr; span : Z }.

(** [struct zskiplistNodeInfo], which is stored in [level[0].span] *)
Record zskiplistNodeInfo := ZInfo { sdsoffset : Z; levels : Z; reserved : Z }.

(** A node is one allocation: the fixed part, the array [level], and the
    embedded string [zn_ele] whose bytes start [zn_eleoff] bytes into it.
    [zn_usable] is the size of the allocation, known to the allocator. *)
Record zskiplistNode := ZNode {
  zn_score : double;
  zn_backward : option ptr;
  zn_level : list zskiplistLevel;
  zn_ele : list Z;
  zn_eleoff : Z;
  zn_usable : Z
}.

Record zskiplist := Zsl {
  zsl_header : ptr;
  zsl_tail : option ptr;
  zsl_length : Z;
  zsl_level : nat;
  zsl_alloc_size : Z
}.

Abbreviation zheap := (gmap ptr zskiplistNode).

(** The choices of the allocator a node depends on: its address, and what the
    levels hold before they are written *)
Class NodeAlloc := {
  new_ptr : gset ptr -> ptr;
  new_ptr_fresh : forall X, new_ptr X ∉ X;
  junk_level : nat -> zskiplistLevel
}.

(** ** Memory accesses *)

Definition node (h : zheap) (p : ptr) : res zskiplistNode :=
  match h !! p with Some n => Ok n | None => Fault OutOfBounds end.

Definition deref (p : option ptr) : res ptr :=
  match p with Some p => Ok p | None => Fault OutOfBounds end.

(** [x->level[i]] *)
Definition get_level (h : zheap) (x : ptr) (i : nat) : res zskiplistLevel :=
  n ← node h x;
  match zn_level n !! i with Some l => Ok l | None => Fault OutOfBounds end.

Definition set_level (h : zheap) (x : ptr) (i : nat) (l : zskiplistLevel) : res zheap :=
  n ← node h x;
  _ ← get_level h x i;
  Ok (<[x := ZNode (zn_score n) (zn_backward n) (<[i := l]> (zn_level n)) (zn_ele n)
               (zn_eleoff n) (zn_usable n)]> h).

Definition set_forward (h : zheap) (x : ptr) (i : nat) (f : option ptr) : res zheap :=
  l ← get_level h x i; set_level h x i (ZLevel f (span l)).

Definition set_span (h : zheap) (x : ptr) (i : nat) (s : Z) : res zheap :=
  l ← get_level h x i; set_level h x i (ZLevel (forward l) s).

Definition set_backward (h : zheap) (x : ptr) (b : option ptr) : res zheap :=
  n ← node h x;
  Ok (<[x := ZNode (zn_score n) b (zn_level n) (zn_ele n) (zn_eleoff n) (zn_usable n)]> h).

Definition set_score (h : zheap) (x : ptr) (s : double) : res zheap :=
  n ← node h x;
  Ok (<[x := ZNode s (zn_backward n) (zn_level n) (zn_ele n) (zn_eleoff n) (zn_usable n)]> h).

(** [for (i = lo; i < lo + n; i++)] *)
Fixpoint for_ {S : Type} (f : S -> nat -> res S) (lo n : nat) (s : S) : res S :=
  match n with
  | O => Ok s
  | S n => s ← f s lo; for_ f (Datatypes.S lo) n s
  end.

(** ** Spans and the information of level 0 *)

Definition zslGetNodeSpanAtLevel (h : zheap) (x : ptr) (level : nat) : res Z :=
  if (0 <? level)%nat then l ← get_level h x level; Ok (span l)
  else l ← get_level h x 0; Ok (match forward l with Some _ => 1 | None => 0 end).

Definition zslSetNodeSpanAtLevel (h : zheap) (x : ptr) (level : nat) (s : Z) : res zheap :=
  if (0 <? level)%nat then set_span h x level s else Ok h.

Definition zslIncrNodeSpanAtLevel (h : zheap) (x : ptr) (level : nat) (incr : Z) : res zheap :=
  if (0 <? level)%nat then
    l ← get_level h x level; set_span h x level (u64 (span l + incr))
  else Ok h.

Definition zslDecrNodeSpanAtLevel (h : zheap) (x : ptr) (level : nat) (decr : Z) : res zheap :=
  if (0 <? level)%nat then
    l ← get_level h x level; set_span h x level (u64 (span l - decr))
  else Ok h.

(** The bytes of the structure, in little-endian order, as a number *)
Definition info_span (info : zskiplistNodeInfo) : Z :=
  u16 (sdsoffset info) + Z.shiftl (u8 (levels info)) 16 + Z.shiftl (u8 (reserved info)) 24.

Definition span_info (s : Z) : zskiplistNodeInfo :=
  ZInfo (Z.land s 65535) (Z.land (Z.shiftr s 16) 255) (Z.land (Z.shiftr s 24) 255).

Definition zslGetNodeInfo (h : zheap) (x : ptr) : res zskiplistNodeInfo :=
  l ← get_level h x 0; Ok (span_info (span l)).

Definition zslSetNodeInfo (h : zheap) (x : ptr) (levels sdsoffset : Z) : res zheap :=
  set_span h x 0 (info_span (ZInfo sdsoffset levels 0)).

(** [zslGetNodeInfo(x)->levels = levels] *)
Definition set_info_levels (h : zheap) (x : ptr) (levels : Z) : res zheap :=
  i ← zslGetNodeInfo h x;
  set_span h x 0 (info_span (ZInfo (sdsoffset i) levels (reserved i))).

Definition zslGetNodeElement (h : zheap) (x : ptr) : res (list Z) :=
  i ← zslGetNodeInfo h x;
  n ← node h x;
  if sdsoffset i =? zn_eleoff n then Ok (zn_ele n) else Fault OutOfBounds.

Definition zslCompareWithNode (h : zheap) (score : double) (ele : list Z)
    (n : option ptr) : res Z :=
  match n with
  | None => Ok (-1)
  | Some p =>
      n ← node h p;
      if SFltb score (zn_score n) then Ok (-1)
      else if SFltb (zn_score n) score then Ok 1
      else e ← zslGetNodeElement h p; Ok (sdscmp ele e)
  end.

(** ** Creation *)

(** [sizeof(zskiplistNode)], [sizeof(struct zskiplistLevel)], [sizeof(zskiplist)] *)
Definition sizeof_node : Z := 16.
Definition sizeof_level : Z := 16.
Definition sizeof_zsl : Z := 40.

Definition add_alloc (z : zskiplist) (d : Z) : zskiplist :=
  Zsl (zsl_header z) (zsl_tail z) (zsl_length z) (zsl_level z) (u64 (zsl_alloc_size z + d)).

Section alloc.
Context `{Allocator} `{NodeAlloc}.

Definition zslCreateHeaderNode (h : zheap) (z : zskiplist) : res (zheap * zskiplist * ptr) :=
  let sz := usable (sizeof_node + Z.of_nat ZSKIPLIST_MAXLEVEL * sizeof_level) in
  let zn := new_ptr (dom h) in
  let h := <[zn := ZNode (S754_zero false) None
                     (replicate ZSKIPLIST_MAXLEVEL (ZLevel None 0)) [] (-1) sz]> h in
  h ← zslSetNodeInfo h zn (Z.of_nat ZSKIPLIST_MAXLEVEL) ZSL_OFFSET_NO_ELE;
  Ok (h, add_alloc z sz, zn).

Definition zslCreateNode (h : zheap) (z : zskiplist) (level : nat) (score : double)
    (ele : list Z) : res (zheap * zskiplist * ptr) :=
  let ele_len := zlen ele in
  let sds_type := sdsReqType ele_len in
  let sds_hdr_len := sdsHdrSize sds_type in
  let node_size := sizeof_node + Z.of_nat level * sizeof_level in
  let sds_buf_size := sds_hdr_len + ele_len + 1 in
  let total_size := node_size + sds_buf_size in
  let sz := usable total_size in
  let zn := new_ptr (dom h) in
  let sds_offset := node_size + sds_hdr_len in
  (* [sdsnewplacement] puts the bytes after the header of the string *)
  let h := <[zn := ZNode score None (junk_level <$> seq 0 level) ele
                     (node_size + sdsHdrSize sds_type) sz]> h in
  h ← zslSetNodeInfo h zn (Z.of_nat level) sds_offset;
  n ← node h zn;
  _ ← assert_ (zn_eleoff n =? sds_offset);
  Ok (h, add_alloc z sz, zn).

Definition zslCreate (h : zheap) : res (zheap * zskiplist) :=
  let zsl_size := usable sizeof_zsl in
  let z := Zsl 1 None 0 1 zsl_size in
  '(h, z, hd) ← zslCreateHeaderNode h z;
  let z := Zsl hd None (zsl_length z) (zsl_level z) (zsl_alloc_size z) in
  h ← set_backward h hd None;
  Ok (h, z).

End alloc.

Definition zslFreeNode (h : zheap) (z : zskiplist) (x : ptr) : res (zheap * zskiplist) :=
  n ← node h x;
  Ok (delete x h, add_alloc z (- zn_usable n)).

(** The loop of [zslFree] over the chain of level 0 *)
Fixpoint zslFree_loop (fuel : nat) (h : zheap) (z : zskiplist) (x : option ptr)
    : res (zheap * zskiplist) :=
  match fuel, x with
  | _, None => Ok (h, z)
  | O, Some _ => Fault OutOfFuel
  | S fuel, Some p =>
      l ← get_level h p 0;
      '(h, z) ← zslFreeNode h z p;
      zslFree_loop fuel h z (forward l)
  end.

Definition zslFree (h : zheap) (z : zskiplist) : res (zheap * zskiplist) :=
  l ← get_level h (zsl_header z) 0;
  '(h, z) ← zslFreeNode h z (zsl_header z);
  zslFree_loop (Z.to_nat (zsl_length z)) h z (forward l).

(** [threshold = ZSKIPLIST_P * RAND_MAX], truncated to an integer, with
    [ZSKIPLIST_P = 0.25] and [RAND_MAX = 2147483647] *)
Definition threshold : Z := 2147483647 / 4.

(** [random()] draws the numbers of the list [rnd]; the rest is returned. *)
Fixpoint zslRandomLevel_loop (rnd : list Z) (level : Z) : res (Z * list Z) :=
  match rnd with
  | [] => Fault OutOfFuel
  | r :: rnd => if r <? threshold then zslRandomLevel_loop rnd (level + 1)
                else Ok (level, rnd)
  end.

Definition zslRandomLevel (rnd : list Z) : res (nat * list Z) :=
  '(level, rnd) ← zslRandomLevel_loop rnd 1;
  Ok (if level <? Z.of_nat ZSKIPLIST_MAXLEVEL then Z.to_nat level else ZSKIPLIST_MAXLEVEL, rnd).

(** ** Searching *)

(** [while (cond) { rank += span(x, i); x = x->level[i].forward; }] *)
Fixpoint walk (fuel : nat) (cond : ptr -> nat -> Z -> res bool) (h : zheap) (i : nat)
    (x : ptr) (rank : Z) : res (ptr * Z) :=
  match fuel with
  | O => Fault OutOfFuel
  | S fuel =>
      c ← cond x i rank;
      if c : bool then
        s ← zslGetNodeSpanAtLevel h x i;
        l ← get_level h x i;
        y ← deref (forward l);
        walk fuel cond h i y (u64 (rank + s))
      else Ok (x, rank)
  end.

(** [for (i = n-1; i >= 0; i--) { while (cond) ...; update[i] = x; }]; the
    result has [update[i]] and the rank of that node at index [i]. *)
Fixpoint descend (fuel : nat) (cond : ptr -> nat -> Z -> res bool) (h : zheap) (n : nat)
    (x : ptr) (rank : Z) (update : list (ptr * Z)) : res (list (ptr * Z)) :=
  match n with
  | O => Ok update
  | S i =>
      '(x, rank) ← walk fuel cond h i x rank;
      descend fuel cond h i x rank ((x, rank) :: update)
  end.

(** More iterations than a loop over the nodes can make *)
Definition zsl_fuel (z : zskiplist) : nat := S (Z.to_nat (zsl_length z)).

(** [test(zslCompareWithNode(score, ele, x->level[i].forward))] *)
Definition cond_cmp (h : zheap) (test : Z -> bool) (score : double) (ele : list Z)
    (x : ptr) (i : nat) (_ : Z) : res bool :=
  l ← get_level h x i;
  c ← zslCompareWithNode h score ele (forward l);
  Ok (test c).

(** [zslCompareWithNode(score, ele, x->level[i].forward) > 0] *)
Definition cond_gt (h : zheap) : double -> list Z -> ptr -> nat -> Z -> res bool :=
  cond_cmp h (fun c => c >? 0).

(** [x->level[i].forward && test(x->level[i].forward)] *)
Definition cond_fwd (h : zheap) (test : ptr -> res bool) (x : ptr) (i : nat) (_ : Z)
    : res bool :=
  l ← get_level h x i;
  match forward l with None => Ok false | Some y => test y end.

Definition nth_update (update : list (ptr * Z)) (i : nat) : res (ptr * Z) :=
  match update !! i with Some u => Ok u | None => Fault OutOfBounds end.

(** ** Insertion *)

(** One iteration of the loop that links the node at level [i] *)
Definition link_level (p : ptr) (update : list (ptr * Z)) (h : zheap) (i : nat) : res zheap :=
  '(u, ranki) ← nth_update update i;
  '(_, rank0) ← nth_update update 0;
  l ← get_level h u i;
  h ← set_forward h p i (forward l);
  h ← set_forward h u i (Some p);
  s ← zslGetNodeSpanAtLevel h u i;
  h ← zslSetNodeSpanAtLevel h p i (u64 (s - u64 (rank0 - ranki)));
  zslSetNodeSpanAtLevel h u i (u64 (u64 (rank0 - ranki) + 1)).

Definition zslInsertNode (h : zheap) (z : zskiplist) (p : ptr) : res (zheap * zskiplist) :=
  n ← node h p;
  let score := zn_score n in
  ele ← zslGetNodeElement h p;
  info ← zslGetNodeInfo h p;
  let level := Z.to_nat (levels info) in
  _ ← assert_ (negb (isnan score));
  update ← descend (zsl_fuel z) (cond_gt h score ele) h (zsl_level z) (zsl_header z) 0 [];
  '(h, update, zlevel) ←
    (if (zsl_level z <? level)%nat then
       h ← for_ (fun h i => zslSetNodeSpanAtLevel h (zsl_header z) i (zsl_length z))
             (zsl_level z) (level - zsl_level z) h;
       h ← set_info_levels h (zsl_header z) (Z.of_nat level);
       Ok (h, update ++ replicate (level - zsl_level z) (zsl_header z, 0), level)
     else Ok (h, update, zsl_level z));
  h ← for_ (link_level p update) 0 level h;
  h ← for_ (fun h i => '(u, _) ← nth_update update i; zslIncrNodeSpanAtLevel h u i 1)
        level (zlevel - level) h;
  '(u0, _) ← nth_update update 0;
  h ← set_backward h p (if decide (u0 = zsl_header z) then None else Some u0);
  l ← get_level h p 0;
  '(h, tail) ←
    (match forward l with
     | Some y => h ← set_backward h y (Some p); Ok (h, zsl_tail z)
     | None => Ok (h, Some p)
     end);
  Ok (h, Zsl (zsl_header z) tail (u64 (zsl_length z + 1)) zlevel (zsl_alloc_size z)).

Definition zslInsert `{Allocator} `{NodeAlloc} (rnd : list Z) (h : zheap) (z : zskiplist)
    (score : double) (ele : list Z) : res (zheap * zskiplist * ptr * list Z) :=
  _ ← assert_ (negb (isnan score));
  '(level, rnd) ← zslRandomLevel rnd;
  '(h, z, p) ← zslCreateNode h z level score ele;
  '(h, z) ← zslInsertNode h z p;
  Ok (h, z, p, rnd).

(** ** Removal *)

(** One iteration of the loop that unlinks [x] at level [i] *)
Definition unlink_level (x : ptr) (update : list (ptr * Z)) (h : zheap) (i : nat) : res zheap :=
  '(u, _) ← nth_update update i;
  l ← get_level h u i;
  if decide (forward l = Some x) then
    s ← zslGetNodeSpanAtLevel h x i;
    h ← zslIncrNodeSpanAtLevel h u i (u64 (s - 1));
    lx ← get_level h x i;
    set_forward h u i (forward lx)
  else zslDecrNodeSpanAtLevel h u i 1.

(** [while (zsl->level > 1 && zsl->header->level[zsl->level-1].forward == NULL)] *)
Fixpoint drop_levels (h : zheap) (hd : ptr) (level : nat) : res (zheap * nat) :=
  match level with
  | S (S _ as top) =>
      l ← get_level h hd top;
      match forward l with
      | None => h ← set_span h hd top 0; drop_levels h hd top
      | Some _ => Ok (h, level)
      end
  | _ => Ok (h, level)
  end.

Definition zslUnlinkNode (h : zheap) (z : zskiplist) (x : ptr) (update : list (ptr * Z))
    : res (zheap * zskiplist) :=
  h ← for_ (unlink_level x update) 0 (zsl_level z) h;
  l ← get_level h x 0;
  n ← node h x;
  '(h, tail) ←
    (match forward l with
     | Some y => h ← set_backward h y (zn_backward n); Ok (h, zsl_tail z)
     | None => Ok (h, zn_backward n)
     end);
  '(h, level) ← drop_levels h (zsl_header z) (zsl_level z);
  Ok (h, Zsl (zsl_header z) tail (u64 (zsl_length z - 1)) level (zsl_alloc_size z)).

(** [x->level[0].forward == node] for the node [x] the search ended at *)
Definition assert_found (h : zheap) (update : list (ptr * Z)) (p : ptr) : res unit :=
  '(x, _) ← nth_update update 0;
  l ← get_level h x 0;
  assert_ (bool_decide (forward l = Some p)).

Definition zslDelete (h : zheap) (z : zskiplist) (p : ptr) : res (zheap * zskiplist) :=
  n ← node h p;
  ele ← zslGetNodeElement h p;
  update ← descend (zsl_fuel z) (cond_gt h (zn_score n) ele) h (zsl_level z) (zsl_header z) 0 [];
  _ ← assert_found h update p;
  '(h, z) ← zslUnlinkNode h z p update;
  zslFreeNode h z p.

Definition zslUpdateScore (h : zheap) (z : zskiplist) (p : ptr) (newscore : double)
    : res (zheap * zskiplist) :=
  n ← node h p;
  l ← get_level h p 0;
  before ← (match zn_backward n with
            | None => Ok true
            | Some b => nb ← node h b; Ok (SFltb (zn_score nb) newscore)
            end);
  stays ← (if before : bool then
             match forward l with
             | None => Ok true
             | Some f => nf ← node h f; Ok (SFltb newscore (zn_score nf))
             end
           else Ok false);
  if stays : bool then h ← set_score h p newscore; Ok (h, z)
  else
    ele ← zslGetNodeElement h p;
    update ← descend (zsl_fuel z) (cond_gt h (zn_score n) ele) h (zsl_level z)
               (zsl_header z) 0 [];
    _ ← assert_found h update p;
    '(h, z) ← zslUnlinkNode h z p update;
    h ← set_score h p newscore;
    zslInsertNode h z p.

(** ** Ranks *)

(** [x->level[i].forward && test(traversed + span(x, i))] *)
Definition cond_rank (h : zheap) (test : Z -> bool) (x : ptr) (i : nat) (traversed : Z)
    : res bool :=
  l ← get_level h x i;
  match forward l with
  | None => Ok false
  | Some _ => s ← zslGetNodeSpanAtLevel h x i; Ok (test (u64 (traversed + s)))
  end.

Fixpoint zslGetRank_loop (fuel : nat) (h : zheap) (hd : ptr) (score : double) (ele : list Z)
    (n : nat) (x : ptr) (rank : Z) : res Z :=
  match n with
  | O => Ok 0
  | S i =>
      '(x, rank) ← walk fuel (cond_cmp h (fun c => c >=? 0) score ele) h i x rank;
      found ← (if decide (x = hd) then Ok false
               else c ← zslCompareWithNode h score ele (Some x); Ok (c =? 0));
      if found : bool then Ok rank else zslGetRank_loop fuel h hd score ele i x rank
  end.

Definition zslGetRank (h : zheap) (z : zskiplist) (score : double) (ele : list Z) : res Z :=
  zslGetRank_loop (zsl_fuel z) h (zsl_header z) score ele (zsl_level z) (zsl_header z) 0.

Fixpoint zslGetRankByNode_loop (fuel : nat) (h : zheap) (x : option ptr)
    (distance_to_end : Z) : res Z :=
  match x with
  | None => Ok distance_to_end
  | Some p =>
      match fuel with
      | O => Fault OutOfFuel
      | S fuel =>
          info ← zslGetNodeInfo h p;
          let level := Z.to_nat (levels info - 1) in
          s ← zslGetNodeSpanAtLevel h p level;
          l ← get_level h p level;
          zslGetRankByNode_loop fuel h (forward l) (u64 (distance_to_end + s))
      end
  end.

Definition zslGetRankByNode (h : zheap) (z : zskiplist) (x : ptr) : res Z :=
  d ← zslGetRankByNode_loop (zsl_fuel z) h (Some x) 0;
  Ok (u64 (zsl_length z - d)).

Fixpoint zslGetElementByRankFromNode (fuel : nat) (h : zheap) (x : ptr) (n : nat)
    (traversed rank : Z) : res (option ptr) :=
  match n with
  | O => Ok None
  | S i =>
      '(x, traversed) ← walk fuel (cond_rank h (fun t => t <=? rank)) h i x traversed;
      if traversed =? rank then Ok (Some x)
      else zslGetElementByRankFromNode fuel h x i traversed rank
  end.

Definition zslGetElementByRank (h : zheap) (z : zskiplist) (rank : Z) : res (option ptr) :=
  zslGetElementByRankFromNode (zsl_fuel z) h (zsl_header z) (zsl_level z) 0 rank.

(** ** Ranges *)

Record zrangespec := ZRange { zr_min : double; zr_max : double; zr_minex : bool; zr_maxex : bool }.

Definition zslValueGteMin (value : double) (spec : zrangespec) : bool :=
  if zr_minex spec then SFltb (zr_min spec) value else SFleb (zr_min spec) value.

Definition zslValueLteMax (value : double) (spec : zrangespec) : bool :=
  if zr_maxex spec then SFltb value (zr_max spec) else SFleb value (zr_max spec).

Definition score_test (h : zheap) (test : double -> bool) (x : ptr) : res bool :=
  n ← node h x; Ok (test (zn_score n)).

Definition ele_test (h : zheap) (test : list Z -> bool) (x : ptr) : res bool :=
  e ← zslGetNodeElement h x; Ok (test e).

(** The last two tests of [zslIsInRange] and of [zslIsInLexRange] *)
Definition ends_in_range (h : zheap) (z : zskiplist) (gte lte : ptr -> res bool) : res bool :=
  match zsl_tail z with
  | None => Ok false
  | Some x =>
      g ← gte x;
      if negb g then Ok false else
      l ← get_level h (zsl_header z) 0;
      match forward l with
      | None => Ok false
      | Some x => lte x
      end
  end.

Definition zslIsInRange (h : zheap) (z : zskiplist) (range : zrangespec) : res bool :=
  if SFltb (zr_max range) (zr_min range) ||
     (SFeqb (zr_min range) (zr_max range) && (zr_minex range || zr_maxex range))
  then Ok false
  else ends_in_range h z (score_test h (fun s => zslValueGteMin s range))
         (score_test h (fun s => zslValueLteMax s range)).

(** [for (i = 0; i < k; i++) x = x->level[0].forward] *)
Fixpoint steps_forward (h : zheap) (k : nat) (x : option ptr) : res (option ptr) :=
  match k with
  | O => Ok x
  | S k => p ← deref x; l ← get_level h p 0; steps_forward h k (forward l)
  end.

(** [for (i = 0; i < k; i++) x = x->backward] *)
Fixpoint steps_backward (h : zheap) (k : nat) (x : option ptr) : res (option ptr) :=
  match k with
  | O => Ok x
  | S k => p ← deref x; n ← node h p; steps_backward h k (zn_backward n)
  end.

(** The tests on the node that was reached, and [*out_rank] *)
Definition nth_result (test : ptr -> res bool) (x : option ptr) (rank : Z)
    : res (option (ptr * Z)) :=
  match x with
  | None => Ok None
  | Some p => t ← test p; Ok (if t : bool then Some (p, rank) else None)
  end.

(** The common body of [zslNthInRange] and [zslNthInLexRange]: they differ in
    the tests [gte] and [lte].  The node is returned with its rank. *)
Definition nth_in_range (h : zheap) (z : zskiplist) (in_range : res bool)
    (gte lte : ptr -> res bool) (n : Z) : res (option (ptr * Z)) :=
  b ← in_range;
  if negb b then Ok None else
  let out := fun x => g ← gte x; Ok (negb g) in
  let top := pred (zsl_level z) in
  '(x, edge_rank) ← walk (zsl_fuel z) (cond_fwd h out) h top (zsl_header z) 0;
  let last_highest_level_node := x in
  let last_highest_level_rank := edge_rank in
  let jump := fun edge_rank =>
    zslGetElementByRankFromNode (zsl_fuel z) h last_highest_level_node (zsl_level z) 0
      (u64 (edge_rank + 1 + n - last_highest_level_rank)) in
  if 0 <=? n then
    update ← descend (zsl_fuel z) (cond_fwd h out) h top x edge_rank [(x, edge_rank)];
    '(x, edge_rank) ← nth_update update 0;
    if zsl_length z <=? u64 (edge_rank + n) then Ok None else
    x ← (if n <? ZSKIPLIST_MAX_SEARCH then steps_forward h (Z.to_nat (n + 1)) (Some x)
         else jump edge_rank);
    nth_result lte x (u64 (edge_rank + n + 1))
  else
    update ← descend (zsl_fuel z) (cond_fwd h lte) h (zsl_level z) x edge_rank [];
    '(x, edge_rank) ← nth_update update 0;
    if edge_rank <? s64 (- n) then Ok None else
    x ← (if - ZSKIPLIST_MAX_SEARCH <? n + 1 then steps_backward h (Z.to_nat (- n - 1)) (Some x)
         else jump edge_rank);
    nth_result gte x (u64 (edge_rank + n + 1)).

Definition zslNthInRange (h : zheap) (z : zskiplist) (range : zrangespec) (n : Z)
    : res (option (ptr * Z)) :=
  nth_in_range h z (zslIsInRange h z range)
    (score_test h (fun s => zslValueGteMin s range))
    (score_test h (fun s => zslValueLteMax s range)) n.

(** *** Parsing of score ranges *)

(** A string object: integer encoded, or an sds string *)
Inductive robj := RInt (v : Z) | RStr (s : list Z).

(** The byte [i] of an sds string, which ends with a null byte *)
Definition char_at (s : list Z) (i : nat) : Z := default 0 (s !! i).

Section parse.
(** [fast_float_strtod]: the number a string starts with, and the rest *)
Variable strtod : list Z -> double * list Z.

(** One bound: its value and whether it is exclusive *)
Definition parse_bound (o : robj) : option (double * bool) :=
  match o with
  | RInt v => Some (binary_normalize 53 1024 v 0 false, false)
  | RStr s =>
      if char_at s 0 =? 40 then
        let (v, eptr) := strtod (drop 1 s) in
        if negb (char_at eptr 0 =? 0) || isnan v then None else Some (v, true)
      else
        let (v, eptr) := strtod s in
        if negb (char_at eptr 0 =? 0) || isnan v then None else Some (v, false)
  end.

Definition zslParseRange (min max : robj) : option zrangespec :=
  match parse_bound min with
  | None => None
  | Some (mn, minex) =>
      match parse_bound max with
      | None => None
      | Some (mx, maxex) => Some (ZRange mn mx minex maxex)
      end
  end.
End parse.

(** *** Lexicographic ranges *)

(** A bound is one of the objects [shared.minstring] and [shared.maxstring],
    which are compared by address, or another string. *)
Inductive lexstr := Minstring | Maxstring | Lex (s : list Z).
#[export] Instance lexstr_eq_dec : EqDecision lexstr.
Proof. solve_decision. Defined.

Record zlexrangespec := ZLexRange {
  zl_min : lexstr; zl_max : lexstr; zl_minex : bool; zl_maxex : bool }.

Definition zslParseLexRangeItem (item : list Z) : option (lexstr * bool) :=
  let c := char_at item in
  if c 0%nat =? 43 then (if negb (c 1%nat =? 0) then None else Some (Maxstring, true))
  else if c 0%nat =? 45 then (if negb (c 1%nat =? 0) then None else Some (Minstring, true))
  else if c 0%nat =? 40 then Some (Lex (drop 1 item), true)
  else if c 0%nat =? 91 then Some (Lex (drop 1 item), false)
  else None.

Definition zslParseLexRange (min max : robj) : option zlexrangespec :=
  match min, max with
  | RStr min, RStr max =>
      match zslParseLexRangeItem min with
      | None => None
      | Some (mn, minex) =>
          match zslParseLexRangeItem max with
          | None => None
          | Some (mx, maxex) => Some (ZLexRange mn mx minex maxex)
          end
      end
  | _, _ => None
  end.

(** Equal strings that are different objects compare equal by their bytes, so
    the test [a == b] of addresses only matters for the shared objects. *)
Definition sdscmplex (a b : lexstr) : Z :=
  match a, b with
  | Minstring, Minstring | Maxstring, Maxstring => 0
  | Minstring, _ | _, Maxstring => -1
  | Maxstring, _ | _, Minstring => 1
  | Lex a, Lex b => sdscmp a b
  end.

Definition zslLexValueGteMin (value : list Z) (spec : zlexrangespec) : bool :=
  if zl_minex spec then sdscmplex (Lex value) (zl_min spec) >? 0
  else sdscmplex (Lex value) (zl_min spec) >=? 0.

Definition zslLexValueLteMax (value : list Z) (spec : zlexrangespec) : bool :=
  if zl_maxex spec then sdscmplex (Lex value) (zl_max spec) <? 0
  else sdscmplex (Lex value) (zl_max spec) <=? 0.

Definition zslIsInLexRange (h : zheap) (z : zskiplist) (range : zlexrangespec) : res bool :=
  let cmp := sdscmplex (zl_min range) (zl_max range) in
  if (cmp >? 0) || ((cmp =? 0) && (zl_minex range || zl_maxex range)) then Ok false
  else ends_in_range h z (ele_test h (fun e => zslLexValueGteMin e range))
         (ele_test h (fun e => zslLexValueLteMax e range)).

Definition zslNthInLexRange (h : zheap) (z : zskiplist) (range : zlexrangespec) (n : Z)
    : res (option (ptr * Z)) :=
  nth_in_range h z (zslIsInLexRange h z range)
    (ele_test h (fun e => zslLexValueGteMin e range))
    (ele_test h (fun e => zslLexValueLteMax e range)) n.

(** *** Deletion of ranges *)

(** The dictionary of a sorted set, from the elements to their nodes *)
Abbreviation zdict := (gmap (list Z) ptr).
Definition zdict_delete (d : zdict) (k : list Z) : zdict := delete k d.

(** [while (x && test) { ...; removed++; x = next; }], the loop of the three
    functions; [test] sees the number of nodes removed so far. *)
Fixpoint delete_loop (fuel : nat) (test : zheap -> ptr -> Z -> res bool)
    (update : list (ptr * Z)) (h : zheap) (z : zskiplist) (d : zdict) (x : option ptr)
    (removed : Z) : res (zheap * zskiplist * zdict * Z) :=
  match x with
  | None => Ok (h, z, d, removed)
  | Some p =>
      t ← test h p removed;
      if t : bool then
        match fuel with
        | O => Fault OutOfFuel
        | S fuel =>
            l ← get_level h p 0;
            '(h, z) ← zslUnlinkNode h z p update;
            e ← zslGetNodeElement h p;
            '(h, z) ← zslFreeNode h z p;
            delete_loop fuel test update h z (zdict_delete d e) (forward l) (u64 (removed + 1))
        end
      else Ok (h, z, d, removed)
  end.

(** The search for the range with [cond], then the loop *)
Definition delete_range (cond : ptr -> nat -> Z -> res bool)
    (test : Z -> zheap -> ptr -> Z -> res bool) (h : zheap) (z : zskiplist) (d : zdict)
    : res (zheap * zskiplist * zdict * Z) :=
  update ← descend (zsl_fuel z) cond h (zsl_level z) (zsl_header z) 0 [];
  '(x, traversed) ← nth_update update 0;
  l ← get_level h x 0;
  delete_loop (zsl_fuel z) (test traversed) update h z d (forward l) 0.

Definition zslDeleteRangeByScore (h : zheap) (z : zskiplist) (range : zrangespec) (d : zdict)
    : res (zheap * zskiplist * zdict * Z) :=
  delete_range (cond_fwd h (score_test h (fun s => negb (zslValueGteMin s range))))
    (fun _ h x _ => score_test h (fun s => zslValueLteMax s range) x) h z d.

Definition zslDeleteRangeByLex (h : zheap) (z : zskiplist) (range : zlexrangespec) (d : zdict)
    : res (zheap * zskiplist * zdict * Z) :=
  delete_range (cond_fwd h (ele_test h (fun e => negb (zslLexValueGteMin e range))))
    (fun _ h x _ => ele_test h (fun e => zslLexValueLteMax e range) x) h z d.

(** [traversed] is incremented before the loop and in each iteration. *)
Definition zslDeleteRangeByRank (h : zheap) (z : zskiplist) (start end_ : Z) (d : zdict)
    : res (zheap * zskiplist * zdict * Z) :=
  delete_range (cond_rank h (fun t => t <? start))
    (fun traversed _ _ removed => Ok (u64 (traversed + 1 + removed) <=? end_)) h z d.
