(* ===== verification/SklRep.v ===== *)
(** The sequence a skiplist represents, and the searches of [t_zset.c].

    A heap is seen through four functions: the forward pointers, the spans, the
    backward pointers, and the data of the nodes.  [zsl_rep h z xs] says that
    the skiplist [z] in the heap [h] holds the nodes [xs], in order: at each
    level a node points to the next node that has this level, and its span is
    the distance to it, or to the end of the list. *)

From S2P Require Import Prelude Sds Skiplist.
From Stdlib Require Import SpecFloat.

(** ** Views of a heap *)

Definition fwd (h : zheap) (p : ptr) (i : nat) : option (option ptr) :=
  n ← h !! p; l ← zn_level n !! i; Some (forward l).
Definition spn (h : zheap) (p : ptr) (i : nat) : option Z :=
  n ← h !! p; l ← zn_level n !! i; Some (span l).
Definition bwd (h : zheap) (p : ptr) : option (option ptr) := zn_backward <$> h !! p.

(** What the links of the list do not touch, [level[0].span] included *)
Record zdata := ZData {
  d_score : double; d_ele : list Z; d_off : Z; d_usable : Z; d_height : nat; d_info : option Z }.

Definition node_data (n : zskiplistNode) : zdata :=
  ZData (zn_score n) (zn_ele n) (zn_eleoff n) (zn_usable n) (length (zn_level n))
    (span <$> zn_level n !! 0%nat).
Definition dat (h : zheap) (p : ptr) : option zdata := node_data <$> h !! p.

Record view (h : zheap) (F : ptr → nat → option (option ptr)) (S : ptr → nat → option Z)
    (B : ptr → option (option ptr)) (D : ptr → option zdata) : Prop := View {
  view_fwd p i : fwd h p i = F p i;
  view_spn p i : spn h p i = S p i;
  view_bwd p : bwd h p = B p;
  view_dat p : dat h p = D p }.

Lemma view_self h : view h (fwd h) (spn h) (bwd h) (dat h).
Proof. by constructor. Qed.

(** Updates of a view *)
Definition upd1 {A} (f : ptr → A) (p : ptr) (v : A) : ptr → A :=
  λ q, if decide (q = p) then v else f q.
Definition upd2 {A} (f : ptr → nat → A) (p : ptr) (i : nat) (v : A) : ptr → nat → A :=
  λ q j, if decide (q = p ∧ j = i) then v else f q j.

Section view.
Context {h F S B D} (V : view h F S B D).

Lemma get_level_ok p i f :
  F p i = Some f → ∃ s, S p i = Some s ∧ get_level h p i = Ok (ZLevel f s).
Proof.
  intros H. destruct V as [VF VS _ _]. rewrite <- VF in H. rewrite <- VS.
  unfold get_level, node. unfold fwd, spn in *.
  destruct (h !! p) as [n|]; [|done]. simpl in *.
  destruct (zn_level n !! i) as [[f' s]|]; [|done]. simpl in *.
  injection H as <-. eauto.
Qed.

Lemma get_level_ok' p i f s :
  F p i = Some f → S p i = Some s → get_level h p i = Ok (ZLevel f s).
Proof. intros H1 H2. destruct (get_level_ok p i f H1) as (s' & ? & ?). congruence. Qed.

Lemma spn_some p i f : F p i = Some f → is_Some (S p i).
Proof. intros H. destruct (get_level_ok p i f H) as (s & ? & ?). eauto. Qed.

Lemma node_ok p d b :
  D p = Some d → B p = Some b →
  ∃ n, node h p = Ok n ∧ zn_backward n = b ∧ node_data n = d.
Proof.
  destruct V as [_ _ VB VD]. rewrite <- VB, <- VD. unfold node, bwd, dat.
  destruct (h !! p) as [n|]; [|done]. simpl. intros [= <-] [= <-]. eauto.
Qed.

Lemma node_dat p d : D p = Some d → ∃ n, node h p = Ok n ∧ node_data n = d.
Proof.
  destruct V as [_ _ _ VD]. rewrite <- VD. unfold node, dat.
  destruct (h !! p) as [n|]; [|done]. simpl. intros [= <-]. eauto.
Qed.

Lemma set_level_view p i f s f' s' :
  F p i = Some f → S p i = Some s → (i = 0%nat → s' = s) →
  ∃ h', set_level h p i (ZLevel f' s') = Ok h' ∧
    view h' (upd2 F p i (Some f')) (upd2 S p i (Some s')) B D.
Proof.
  intros H1 H2 H0. unfold set_level, node. rewrite (get_level_ok' p i f s) by done.
  destruct V as [VF VS VB VD].
  pose proof H1 as E. rewrite <- VF in E. pose proof H2 as E2. rewrite <- VS in E2.
  unfold fwd in E. unfold spn in E2. destruct (h !! p) as [n|] eqn:En; [|done]. simpl in *.
  destruct (zn_level n !! i) as [l|] eqn:El; [|done]. simpl in *. injection E2 as <-.
  assert (i < length (zn_level n))%nat as Hi by (by eapply lookup_lt_Some).
  eexists. split; [done|]. split.
  - intros q j. unfold upd2. rewrite <- VF. unfold fwd. destruct (decide _) as [[-> ->]|Hn].
    + rewrite lookup_insert_eq. simpl. by rewrite list_lookup_insert_eq.
    + destruct (decide (q = p)) as [->|]; [|by rewrite lookup_insert_ne].
      rewrite lookup_insert_eq, En. simpl. rewrite list_lookup_insert_ne; [done|]. naive_solver.
  - intros q j. unfold upd2. rewrite <- VS. unfold spn. destruct (decide _) as [[-> ->]|Hn].
    + rewrite lookup_insert_eq. simpl. by rewrite list_lookup_insert_eq.
    + destruct (decide (q = p)) as [->|]; [|by rewrite lookup_insert_ne].
      rewrite lookup_insert_eq, En. simpl. rewrite list_lookup_insert_ne; [done|]. naive_solver.
  - intros q. rewrite <- VB. unfold bwd. destruct (decide (q = p)) as [->|].
    + by rewrite lookup_insert_eq, En.
    + by rewrite lookup_insert_ne.
  - intros q. rewrite <- VD. unfold dat. destruct (decide (q = p)) as [->|].
    + rewrite lookup_insert_eq, En. simpl. unfold node_data. simpl. rewrite length_insert.
      destruct (decide (i = 0)%nat) as [->|]; [|by rewrite list_lookup_insert_ne].
      rewrite list_lookup_insert_eq, El by done. simpl. by rewrite H0.
    + by rewrite lookup_insert_ne.
Qed.

Lemma view_ext F' S' B' D' :
  (∀ p i, F p i = F' p i) → (∀ p i, S p i = S' p i) → (∀ p, B p = B' p) →
  (∀ p, D p = D' p) → view h F' S' B' D'.
Proof.
  destruct V as [VF VS VB VD]. intros HF HS HB HD.
  constructor; intros; rewrite <- ?HF, <- ?HS, <- ?HB, <- ?HD; auto.
Qed.

Lemma set_forward_view p i f f' :
  F p i = Some f →
  ∃ h', set_forward h p i f' = Ok h' ∧ view h' (upd2 F p i (Some f')) S B D.
Proof.
  intros H. destruct (get_level_ok p i f H) as (s & Hs & Hl).
  destruct (set_level_view p i f s f' s) as (h' & Hh & [VF VS VB VD]); [done..|].
  exists h'. unfold set_forward. rewrite Hl. split; [done|]. split; try done.
  intros q j. rewrite VS. unfold upd2. destruct (decide _) as [[-> ->]|]; done.
Qed.

(** Spans of level 0 are left alone. *)
Definition updS (S : ptr → nat → option Z) (p : ptr) (i : nat) (v : Z) : ptr → nat → option Z :=
  λ q j, if decide (q = p ∧ j = i ∧ (0 < i)%nat) then Some v else S q j.

Lemma set_span_view p i f s' :
  F p i = Some f → (0 < i)%nat →
  ∃ h', set_span h p i s' = Ok h' ∧ view h' F (updS S p i s') B D.
Proof.
  intros H Hi. destruct (get_level_ok p i f H) as (s & Hs & Hl).
  destruct (set_level_view p i f s f s') as (h' & Hh & [VF VS VB VD]); [done..|lia|].
  exists h'. unfold set_span. rewrite Hl. split; [done|]. split; try done.
  - intros q j. rewrite VF. unfold upd2. destruct (decide _) as [[-> ->]|]; done.
  - intros q j. rewrite VS. unfold upd2, updS.
    destruct (decide (q = p ∧ j = i)), (decide (q = p ∧ j = i ∧ _)); tauto.
Qed.

Lemma updS_0 p v : ∀ q j, S q j = updS S p 0 v q j.
Proof. intros q j. unfold updS. destruct (decide _) as [(_ & _ & ?)|]; [lia|done]. Qed.

Lemma set_node_span_view p i f s' :
  F p i = Some f →
  ∃ h', zslSetNodeSpanAtLevel h p i s' = Ok h' ∧ view h' F (updS S p i s') B D.
Proof.
  intros H. unfold zslSetNodeSpanAtLevel. destruct i as [|i].
  - exists h. split; [done|]. apply view_ext; try done. apply updS_0.
  - apply (set_span_view p _ f); [done|lia].
Qed.

(** The span of a node that points to [f], as the code reads it *)
Definition span_of (f : option ptr) (s : Z) (i : nat) : Z :=
  if (0 <? i)%nat then s else match f with Some _ => 1 | None => 0 end.

Lemma get_span_ok p i f s :
  F p i = Some f → ((0 < i)%nat → S p i = Some s) →
  zslGetNodeSpanAtLevel h p i = Ok (span_of f s i).
Proof.
  intros H Hs. unfold zslGetNodeSpanAtLevel, span_of. destruct i as [|i].
  - destruct (get_level_ok p 0 f H) as (s' & _ & ->). done.
  - rewrite (get_level_ok' p _ f s) by (auto with lia). done.
Qed.

Lemma incr_span_view p i f s d :
  F p i = Some f → ((0 < i)%nat → S p i = Some s) →
  ∃ h', zslIncrNodeSpanAtLevel h p i d = Ok h' ∧ view h' F (updS S p i (u64 (s + d))) B D.
Proof.
  intros H Hs. unfold zslIncrNodeSpanAtLevel. destruct i as [|i].
  - exists h. split; [done|]. apply view_ext; try done. apply updS_0.
  - cbn [Nat.ltb Nat.leb]. rewrite (get_level_ok' p _ f s) by (auto with lia). rs.
    apply (set_span_view p _ f); [done|lia].
Qed.

Lemma decr_span_view p i f s d :
  F p i = Some f → ((0 < i)%nat → S p i = Some s) →
  ∃ h', zslDecrNodeSpanAtLevel h p i d = Ok h' ∧ view h' F (updS S p i (u64 (s - d))) B D.
Proof.
  intros H Hs. unfold zslDecrNodeSpanAtLevel. destruct i as [|i].
  - exists h. split; [done|]. apply view_ext; try done. apply updS_0.
  - cbn [Nat.ltb Nat.leb]. rewrite (get_level_ok' p _ f s) by (auto with lia). rs.
    apply (set_span_view p _ f); [done|lia].
Qed.

Lemma set_node_view p n n' :
  node h p = Ok n → zn_level n' = zn_level n →
  view (<[p := n']> h) F S (upd1 B p (Some (zn_backward n'))) (upd1 D p (Some (node_data n'))).
Proof.
  destruct V as [VF VS VB VD]. unfold node. destruct (h !! p) as [m|] eqn:E; [|done].
  intros [= ->] Hl. split; intros q; try intros j; unfold upd1.
  - rewrite <- VF. unfold fwd. destruct (decide (q = p)) as [->|]; [|by rewrite lookup_insert_ne].
    rewrite lookup_insert_eq, E. simpl. by rewrite Hl.
  - rewrite <- VS. unfold spn. destruct (decide (q = p)) as [->|]; [|by rewrite lookup_insert_ne].
    rewrite lookup_insert_eq, E. simpl. by rewrite Hl.
  - rewrite <- VB. unfold bwd. destruct (decide (q = p)) as [->|]; [|by rewrite lookup_insert_ne].
    by rewrite lookup_insert_eq.
  - rewrite <- VD. unfold dat. destruct (decide (q = p)) as [->|]; [|by rewrite lookup_insert_ne].
    by rewrite lookup_insert_eq.
Qed.

End view.

(** Writing [level[0].span] changes the information of the node. *)
Lemma set_span0_view {h F S B D} (V : view h F S B D) p f d s :
  F p 0%nat = Some f → D p = Some d →
  ∃ h', set_span h p 0 s = Ok h' ∧
    view h' F (upd2 S p 0 (Some s)) B
      (upd1 D p (Some (ZData (d_score d) (d_ele d) (d_off d) (d_usable d) (d_height d) (Some s)))).
Proof.
  intros Hf Hd. unfold set_span. destruct (get_level_ok V p 0 f Hf) as (s0 & Hs & Hl).
  unfold set_level. rewrite Hl. rs. destruct (node_dat V p d Hd) as (n & Hn & <-).
  rewrite Hn. rs. eexists. split; [done|]. destruct V as [VF VS VB VD].
  unfold get_level in Hl. rewrite Hn in Hl. unfold node in Hn.
  destruct (h !! p) as [m|] eqn:E; [|done]. injection Hn as ->. simpl in Hl.
  destruct (zn_level n !! 0%nat) as [l|] eqn:El; [|done]. injection Hl as ->.
  assert (0 < length (zn_level n))%nat as H0 by (by eapply lookup_lt_Some).
  split; intros q; try intros j; unfold upd1, upd2.
  - rewrite <- VF. unfold fwd. destruct (decide (q = p)) as [->|]; [|by rewrite lookup_insert_ne].
    rewrite lookup_insert_eq, E. simpl. destruct j; [by rewrite list_lookup_insert_eq, El|].
    by rewrite list_lookup_insert_ne.
  - rewrite <- VS. unfold spn. destruct (decide (q = p)) as [->|].
    + rewrite lookup_insert_eq. simpl. destruct j.
      * rewrite decide_True by done. by rewrite list_lookup_insert_eq.
      * rewrite decide_False, list_lookup_insert_ne, E by naive_solver. done.
    + rewrite decide_False by naive_solver. by rewrite lookup_insert_ne.
  - rewrite <- VB. unfold bwd. destruct (decide (q = p)) as [->|]; [|by rewrite lookup_insert_ne].
    by rewrite lookup_insert_eq, E.
  - rewrite <- VD. unfold dat. destruct (decide (q = p)) as [->|]; [|by rewrite lookup_insert_ne].
    rewrite lookup_insert_eq. unfold node_data. simpl. by rewrite length_insert, list_lookup_insert_eq.
Qed.

Lemma set_backward_view {h F S B D} (V : view h F S B D) p b b' :
  B p = Some b →
  ∃ h', set_backward h p b' = Ok h' ∧ view h' F S (upd1 B p (Some b')) D.
Proof.
  intros H. unfold set_backward. pose proof V as [VF VS VB VD].
  destruct (h !! p) as [n|] eqn:E; [|rewrite <- VB in H; unfold bwd in H; by rewrite E in H].
  assert (node h p = Ok n) as Hn by (unfold node; by rewrite E). rewrite Hn. rs.
  eexists. split; [done|]. eapply view_ext; [by apply (set_node_view V p n)|done..|].
  intros q. unfold upd1. destruct (decide (q = p)) as [->|]; [|done].
  rewrite <- VD. unfold dat. by rewrite E.
Qed.

Lemma set_score_view {h F S B D} (V : view h F S B D) p d s :
  D p = Some d →
  ∃ h', set_score h p s = Ok h' ∧
    view h' F S B (upd1 D p (Some (ZData s (d_ele d) (d_off d) (d_usable d) (d_height d) (d_info d)))).
Proof.
  intros H. unfold set_score. pose proof V as [VF VS VB VD].
  destruct (node_dat V p d H) as (n & Hn & <-). rewrite Hn. rs.
  eexists. split; [done|]. eapply view_ext; [by apply (set_node_view V p n)|done..| |done].
  intros q. unfold upd1. destruct (decide (q = p)) as [->|]; [|done].
  rewrite <- VB. unfold bwd. unfold node in Hn. destruct (h !! p); [|done]. by injection Hn as ->.
Qed.

(** ** The order of the elements *)

(** A key whose lexicographic order is the order of the doubles *)
Definition fkey (d : double) : list Z :=
  match d with
  | S754_zero _ => [0; 0; 0]
  | S754_infinity false => [2; 0; 0]
  | S754_infinity true => [-2; 0; 0]
  | S754_nan => [3; 0; 0]
  | S754_finite false m e => [1; e; Z.pos m]
  | S754_finite true m e => [-1; - e; Z.neg m]
  end.

Lemma SFcompare_key a b :
  isnan a = false → isnan b = false → SFcompare a b = Some (lexcmp (fkey a) (fkey b) ?= 0).
Proof.
  destruct a as [[]|[]| |[] m e], b as [[]|[]| |[] m' e']; try done; intros _ _;
    cbn [SFcompare fkey lexcmp Z.ltb Z.compare Pos.compare Pos.compare_cont]; try done.
  - destruct (Z.compare_spec e e'), (- e <? - e') eqn:?, (- e' <? - e) eqn:?; try lia; try done.
    change (Pos.compare_cont Eq m m') with (m ?= m')%positive.
    destruct (Pos.compare_spec m m'), (Z.neg m <? Z.neg m') eqn:?, (Z.neg m' <? Z.neg m) eqn:?;
      try lia; done.
  - destruct (Z.compare_spec e e'), (e <? e') eqn:?, (e' <? e) eqn:?; try lia; try done.
    change (Pos.compare_cont Eq m m') with (m ?= m')%positive.
    destruct (Pos.compare_spec m m'), (Z.pos m <? Z.pos m') eqn:?, (Z.pos m' <? Z.pos m) eqn:?;
      try lia; done.
Qed.

Lemma SFltb_key a b :
  isnan a = false → isnan b = false → SFltb a b = (lexcmp (fkey a) (fkey b) <? 0).
Proof. intros Ha Hb. unfold SFltb. rewrite SFcompare_key by done. by destruct (lexcmp _ _). Qed.
Lemma SFleb_key a b :
  isnan a = false → isnan b = false → SFleb a b = (lexcmp (fkey a) (fkey b) <=? 0).
Proof. intros Ha Hb. unfold SFleb. rewrite SFcompare_key by done. by destruct (lexcmp _ _). Qed.
Lemma SFeqb_key a b :
  isnan a = false → isnan b = false → SFeqb a b = (lexcmp (fkey a) (fkey b) =? 0).
Proof. intros Ha Hb. unfold SFeqb. rewrite SFcompare_key by done. by destruct (lexcmp _ _). Qed.

Lemma length_fkey d : length (fkey d) = 3%nat.
Proof. by destruct d as [|[]| |[]]. Qed.

(** The key of an element of the set: its score, then its bytes *)
Definition zkey (s : double) (e : list Z) : list Z := fkey s ++ e.

Lemma lexcmp_app a b c d :
  length a = length b →
  lexcmp (a ++ c) (b ++ d) = if lexcmp a b =? 0 then lexcmp c d else lexcmp a b.
Proof.
  revert b. induction a as [|x a IH]; intros [|y b]; try done. intros [= Hl]. simpl.
  destruct (x <? y), (y <? x); try done. by apply IH.
Qed.

(** [zslCompareWithNode] on the values *)
Definition zcmp (s : double) (e : list Z) (s' : double) (e' : list Z) : Z :=
  if SFltb s s' then -1 else if SFltb s' s then 1 else sdscmp e e'.

Lemma zcmp_key s e s' e' :
  isnan s = false → isnan s' = false →
  Z.sgn (zcmp s e s' e') = lexcmp (zkey s e) (zkey s' e').
Proof.
  intros Hs Hs'. unfold zcmp, zkey. rewrite !SFltb_key, lexcmp_app by (done || by rewrite !length_fkey).
  rewrite (lexcmp_opp (fkey s) (fkey s')).
  assert (lexcmp (fkey s) (fkey s') = -1 ∨ lexcmp (fkey s) (fkey s') = 0 ∨
          lexcmp (fkey s) (fkey s') = 1) as [-> |[-> | ->]]; [|done| |done].
  - generalize (fkey s') as b. induction (fkey s) as [|x a IH]; intros [|y b]; simpl; try tauto.
    destruct (x <? y), (y <? x); auto.
  - simpl. apply sdscmp_lex.
Qed.

(** ** The represented sequence *)

Record zent := ZE {
  ze_ptr : ptr; ze_score : double; ze_ele : list Z; ze_height : nat; ze_usable : Z }.

Definition ekey (x : zent) : list Z := zkey (ze_score x) (ze_ele x).
Definition zlt (x y : zent) : Prop := lexcmp (ekey x) (ekey y) < 0.

(** The first node of [l] that has level [i], and the distance to it *)
Fixpoint hop (i : nat) (l : list zent) : option ptr * nat :=
  match l with
  | [] => (None, O)
  | e :: l =>
      if (i <? ze_height e)%nat then (Some (ze_ptr e), 1%nat)
      else (fst (hop i l), S (snd (hop i l)))
  end.

Abbreviation low i l := (Forall (λ e, ze_height e ≤ i)%nat l).

Lemma hop_low i c l : low i c → hop i (c ++ l) = (fst (hop i l), (length c + snd (hop i l))%nat).
Proof.
  induction 1 as [|e c He _ IH]; simpl; [by destruct (hop i l)|].
  destruct (i <? ze_height e)%nat eqn:E; [apply Nat.ltb_lt in E; lia|]. by rewrite IH.
Qed.

Lemma hop_high i c v l :
  low i c → (i < ze_height v)%nat → hop i (c ++ v :: l) = (Some (ze_ptr v), S (length c)).
Proof.
  intros Hc Hv. rewrite hop_low by done. simpl. apply Nat.ltb_lt in Hv. rewrite Hv. simpl.
  f_equal. lia.
Qed.

Lemma hop_nil i l : low i l → hop i l = (None, length l).
Proof. intros H. rewrite <- (app_nil_r l), hop_low by done. simpl. by rewrite app_nil_r, Nat.add_0_r. Qed.

Lemma low_split i l :
  low i l ∨ ∃ c v c', l = c ++ v :: c' ∧ low i c ∧ (i < ze_height v)%nat.
Proof.
  induction l as [|e l IH]; [by left; constructor|].
  destruct (decide (i < ze_height e)%nat) as [He|He].
  - right. by exists [], e, l.
  - destruct IH as [IH|(c & v & c' & -> & Hc & Hv)].
    + left. constructor; [lia|done].
    + right. exists (e :: c), v, c'. split_and!; [done| |done]. constructor; [lia|done].
Qed.

(** At each level a node points to the next node of that level; the spans of
    the levels in use are the distances. *)
Definition links (F : ptr → nat → option (option ptr)) (S : ptr → nat → option Z)
    (zl : nat) (l : list zent) : Prop :=
  ∀ a e b i, l = a ++ e :: b → (i < ze_height e)%nat →
    F (ze_ptr e) i = Some (fst (hop i b)) ∧
    ((0 < i < zl)%nat → S (ze_ptr e) i = Some (Z.of_nat (snd (hop i b)))).

(** The data of the node of an element *)
Definition data_ok (d : option zdata) (e : zent) : Prop :=
  ∃ off, 0 ≤ off < 65536 ∧
    d = Some (ZData (ze_score e) (ze_ele e) off (ze_usable e) (ze_height e)
                (Some (info_span (ZInfo off (Z.of_nat (ze_height e)) 0)))).

Definition ptrs (l : list zent) : list ptr := ze_ptr <$> l.
Definition max_height (l : list zent) : nat := foldr (λ e m, Nat.max (ze_height e) m) 1%nat l.
Definition sum_usable (l : list zent) : Z := foldr (λ e m, ze_usable e + m) 0 l.

Section rep.
Context `{Allocator}.

(** The header node as an element *)
Definition hd_ent (hd : ptr) : zent :=
  ZE hd (S754_zero false) [] ZSKIPLIST_MAXLEVEL
    (usable (sizeof_node + Z.of_nat ZSKIPLIST_MAXLEVEL * sizeof_level)).

Record zsl_inv (h : zheap) (z : zskiplist) (xs : list zent) : Prop := ZslInv {
  rep_nodup : NoDup (ptrs (hd_ent (zsl_header z) :: xs));
  rep_sorted : StronglySorted zlt xs;
  rep_nan : Forall (λ e, isnan (ze_score e) = false) xs;
  rep_heights : Forall (λ e, 1 ≤ ze_height e ≤ ZSKIPLIST_MAXLEVEL)%nat xs;
  rep_level : zsl_level z = max_height xs;
  rep_length : zsl_length z = zlen xs;
  rep_small : zlen xs < INT64_MAX;
  rep_tail : zsl_tail z = ze_ptr <$> last xs;
  rep_links : links (fwd h) (spn h) (zsl_level z) (hd_ent (zsl_header z) :: xs);
  rep_back : ∀ a e b, xs = a ++ e :: b → bwd h (ze_ptr e) = Some (ze_ptr <$> last a);
  rep_data : Forall (λ e, data_ok (dat h (ze_ptr e)) e) xs;
  rep_header : d_usable <$> dat h (zsl_header z) = Some (ze_usable (hd_ent (zsl_header z))) }.

(** The size that [alloc_size] keeps: the structure, the header and the nodes *)
Definition total_usable (z : zskiplist) (xs : list zent) : Z :=
  u64 (usable sizeof_zsl + sum_usable (hd_ent (zsl_header z) :: xs)).

Definition zsl_rep (h : zheap) (z : zskiplist) (xs : list zent) : Prop :=
  zsl_inv h z xs ∧ zsl_alloc_size z = total_usable z xs.

End rep.

(** ** Searches *)

(** [update[i]] and its rank: the last node of [l1] that has level [i] *)
Definition upd_ok (l1 : list zent) (i : nat) (u : ptr * Z) : Prop :=
  ∃ a e b, l1 = a ++ e :: b ∧ u = (ze_ptr e, zlen a) ∧ (i < ze_height e)%nat ∧ low i b.

(** The condition of a loop holds while the next node is in [l1]. *)
Definition cond_ok (cond : ptr → nat → Z → res bool) (zl : nat) (l1 l2 : list zent) : Prop :=
  ∀ a e b i, l1 ++ l2 = a ++ e :: b → (i < ze_height e)%nat → (i < zl)%nat →
    cond (ze_ptr e) i (zlen a) =
      Ok (match fst (hop i b) with
          | Some _ => bool_decide (length a + snd (hop i b) < length l1)%nat
          | None => false
          end).

Section search.
Context {h F S B D} (V : view h F S B D).
Context (zl : nat) (l1 l2 : list zent).
Hypothesis (L : links F S zl (l1 ++ l2)).
Hypothesis (H0 : Forall (λ e, 0 < ze_height e)%nat (l1 ++ l2)).
Hypothesis (Hlen : zlen (l1 ++ l2) < 2 ^ 64).

Lemma span_hop a e b i :
  l1 ++ l2 = a ++ e :: b → (i < ze_height e)%nat → (i < zl)%nat →
  zslGetNodeSpanAtLevel h (ze_ptr e) i = Ok (Z.of_nat (snd (hop i b))).
Proof.
  intros E He Hi. destruct (L a e b i E He) as [HF HS].
  rewrite (get_span_ok V _ _ _ (Z.of_nat (snd (hop i b)))) by (done || intros; apply HS; lia).
  unfold span_of. destruct i as [|i]; [|done]. destruct b as [|v c]; [done|]. simpl.
  rewrite E, Forall_app, !Forall_cons in H0. destruct H0 as (_ & _ & Hv & _).
  apply Nat.ltb_lt in Hv. by rewrite Hv.
Qed.

Lemma walk_ok cond (C : cond_ok cond zl l1 l2) i (Hi : (i < zl)%nat) fuel a e b :
  l1 = a ++ e :: b → (i < ze_height e)%nat → (length b < fuel)%nat →
  ∃ u, walk fuel cond h i (ze_ptr e) (zlen a) = Ok u ∧ upd_ok l1 i u.
Proof.
  revert a e b. induction fuel as [|fuel IH]; intros a e b E He Hf; [lia|].
  assert (l1 ++ l2 = a ++ e :: (b ++ l2)) as E2 by (by rewrite E, <- (assoc_L (++))).
  cbn [walk]. rewrite (C a e (b ++ l2) i E2 He Hi). rs.
  destruct (low_split i b) as [Hb|(c & v & c' & -> & Hc & Hv)].
  - rewrite hop_low by done. cbn [fst snd]. destruct (fst (hop i l2)) eqn:Ef.
    + rewrite bool_decide_eq_false_2.
      * eexists. split; [done|]. by exists a, e, b.
      * rewrite E, length_app. simpl. destruct l2; [done|]. simpl. destruct (i <? _)%nat; simpl; lia.
    + eexists. split; [done|]. by exists a, e, b.
  - rewrite <- (assoc_L (++)) in E2 |- *. cbn [app] in *. rewrite hop_high by done. cbn [fst snd].
    rewrite bool_decide_eq_true_2 by (rewrite E, !length_app; simpl; rewrite length_app; simpl; lia).
    rewrite (span_hop a e (c ++ v :: c' ++ l2) i) by done. rs.
    destruct (L a e (c ++ v :: c' ++ l2) i E2 He) as [HF _].
    destruct (get_level_ok V _ _ _ HF) as (s & _ & ->). rs.
    rewrite hop_high by done. cbn [fst snd forward deref]. rs.
    destruct (IH (a ++ e :: c) v c') as (u & Hu & Hok).
    + rewrite E. by rewrite <- (assoc_L (++)).
    + done.
    + rewrite length_app in Hf. simpl in Hf. lia.
    + exists u. split; [|done]. rewrite <- Hu. f_equal.
      rewrite E2, !length_app in Hlen. simpl in Hlen. rewrite length_app in Hlen. simpl in Hlen.
      rewrite length_app. simpl. rewrite wrapu_small; lia.
Qed.

Lemma descend_ok cond (C : cond_ok cond zl l1 l2) fuel (Hf : (length l1 ≤ fuel)%nat) n a e b acc :
  l1 = a ++ e :: b → (n ≤ ze_height e)%nat → (n ≤ zl)%nat →
  ∃ us, descend fuel cond h n (ze_ptr e) (zlen a) acc = Ok (us ++ acc) ∧ length us = n ∧
    ∀ i u, us !! i = Some u → upd_ok l1 i u.
Proof.
  revert a e b acc. induction n as [|i IH]; intros a e b acc E He Hn.
  { by exists []. }
  cbn [descend].
  destruct (walk_ok cond C i ltac:(lia) fuel a e b E) as (u & -> & Hu); [lia| |].
  { rewrite E, length_app in Hf. simpl in Hf. lia. }
  pose proof Hu as (a' & e' & b' & E' & -> & He' & _). rs.
  destruct (IH a' e' b' ((ze_ptr e', zlen a') :: acc) E') as (us & -> & Hl & Hus); [lia..|].
  exists (us ++ [(ze_ptr e', zlen a')]). split_and!.
  - by rewrite <- (assoc_L (++)).
  - rewrite length_app. simpl. lia.
  - intros j u' Hj. apply lookup_app_Some in Hj as [?|[Hj ?]]; [eauto|].
    destruct (j - length us)%nat eqn:?; [|done]. simplify_eq/=. by replace j with (length us) by lia.
Qed.

(** Conditions that test the next node *)
Lemma cond_pred cond (P : zent → bool) :
  (∀ x i r, F x i = Some None → cond x i r = Ok false) →
  (∀ x i r v, v ∈ tail l1 ++ l2 → F x i = Some (Some (ze_ptr v)) → cond x i r = Ok (P v)) →
  Forall (λ v, P v = true) (tail l1) → Forall (λ v, P v = false) l2 → cond_ok cond zl l1 l2.
Proof.
  intros Hn Hs HP1 HP2 a e b i E He Hi. destruct (L a e b i E He) as [HF _].
  destruct (low_split i b) as [Hb|(c & v & c' & -> & Hc & Hv)].
  { rewrite hop_nil in * by done. by apply Hn. }
  rewrite hop_high in * by done. cbn [fst snd] in *.
  assert ((l1 ++ l2) !! (length a + Datatypes.S (length c))%nat = Some v) as Hl.
  { rewrite E, lookup_app_r by lia.
    replace (length a + Datatypes.S (length c) - length a)%nat with (Datatypes.S (length c)) by lia.
    simpl. by rewrite lookup_app_r, Nat.sub_diag by lia. }
  apply lookup_app_Some in Hl as [Hl|[Hge Hl]].
  - rewrite bool_decide_eq_true_2 by (by eapply lookup_lt_Some).
    assert (v ∈ tail l1) as Hin.
    { destruct l1; [done|]. rewrite Nat.add_succ_r in Hl. simpl in Hl. by eapply list_elem_of_lookup_2. }
    rewrite (Hs _ _ _ v) by (done || set_solver). rewrite Forall_forall in HP1.
    f_equal. auto.
  - rewrite bool_decide_eq_false_2 by lia. apply list_elem_of_lookup_2 in Hl.
    rewrite (Hs _ _ _ v) by (done || set_solver). rewrite Forall_forall in HP2. f_equal. auto.
Qed.

(** Conditions that test the rank of the next node *)
Lemma cond_rank_ok (test : Z → bool) :
  (∀ k, (0 < k)%nat → (k < length (l1 ++ l2))%nat →
     test (Z.of_nat k) = bool_decide (k < length l1)%nat) →
  cond_ok (cond_rank h test) zl l1 l2.
Proof.
  intros Ht a e b i E He Hi. destruct (L a e b i E He) as [HF _]. unfold cond_rank.
  destruct (get_level_ok V _ _ _ HF) as (s & _ & ->). rs. cbn [forward].
  destruct (low_split i b) as [Hb|(c & v & c' & -> & Hc & Hv)].
  { by rewrite hop_nil by done. }
  rewrite (span_hop a e _ i E He Hi), hop_high by done. cbn [fst snd]. rs.
  pose proof Hlen as Hlen'. rewrite E in Ht, Hlen'. rewrite !length_app in Ht, Hlen'. simpl in Ht, Hlen'.
  rewrite length_app in Ht, Hlen'. simpl in Ht, Hlen'.
  rewrite wrapu_small by lia. rewrite <- Nat2Z.inj_add. by rewrite Ht by lia.
Qed.
End search.

(** ** Reading the data of a node *)

Lemma span_info_span off lv :
  0 ≤ off < 65536 → 0 ≤ lv < 256 → span_info (info_span (ZInfo off lv 0)) = ZInfo off lv 0.
Proof.
  intros Ho Hl. unfold span_info, info_span. cbn [sdsoffset levels reserved].
  rewrite !Z.shiftl_mul_pow2, !Z.shiftr_div_pow2 by lia.
  change 65535 with (Z.ones 16). change 255 with (Z.ones 8). rewrite !Z.land_ones by lia.
  rewrite !wrapu_small by (simpl; lia).
  change (2 ^ 16) with 65536. change (2 ^ 24) with 16777216. change (2 ^ 8) with 256.
  f_equal; zdiv.
Qed.

Section data.
Context {h F S B D} (V : view h F S B D) (e : zent).
Hypothesis (De : data_ok (D (ze_ptr e)) e).
Hypothesis (He : (1 ≤ ze_height e ≤ ZSKIPLIST_MAXLEVEL)%nat).

Lemma node_score_ok : ∃ n, node h (ze_ptr e) = Ok n ∧ zn_score n = ze_score e ∧
  zn_ele n = ze_ele e ∧ zn_usable n = ze_usable e.
Proof.
  destruct De as (off & Ho & Hd). destruct (node_dat V _ _ Hd) as (n & Hn & Hnd).
  exists n. unfold node_data in Hnd. by injection Hnd as -> -> _ -> _ _.
Qed.

Lemma node_info_ok : ∃ off, zslGetNodeInfo h (ze_ptr e) =
    Ok (ZInfo off (Z.of_nat (ze_height e)) 0) ∧ option_map d_off (D (ze_ptr e)) = Some off.
Proof.
  destruct De as (off & Ho & Hd). destruct (node_dat V _ _ Hd) as (n & Hn & Hnd).
  exists off. rewrite Hd. split; [|done].
  unfold zslGetNodeInfo, get_level. rewrite Hn. rs. unfold node_data in Hnd.
  injection Hnd as _ _ _ _ Hl Hi. destruct (zn_level n !! 0%nat) as [l|]; [|done].
  simpl in Hi. injection Hi as Hi. rs. rewrite Hi. unfold ZSKIPLIST_MAXLEVEL in He.
  by rewrite span_info_span by lia.
Qed.

Lemma node_ele_ok : zslGetNodeElement h (ze_ptr e) = Ok (ze_ele e).
Proof.
  unfold zslGetNodeElement. destruct node_info_ok as (off & -> & Ho). rs.
  destruct De as (off' & _ & Hd). rewrite Hd in Ho. injection Ho as <-.
  destruct (node_dat V _ _ Hd) as (n & -> & Hnd). rs. unfold node_data in Hnd.
  injection Hnd as _ -> -> _ _ _. cbn [sdsoffset]. by rewrite Z.eqb_refl.
Qed.

Lemma compare_ok s k :
  zslCompareWithNode h s k (Some (ze_ptr e)) = Ok (zcmp s k (ze_score e) (ze_ele e)).
Proof.
  unfold zslCompareWithNode, zcmp. destruct node_score_ok as (n & -> & Hs & _). rs.
  rewrite Hs, node_ele_ok. rs. by destruct (SFltb s (ze_score e)), (SFltb (ze_score e) s).
Qed.

Lemma score_test_ok t : score_test h t (ze_ptr e) = Ok (t (ze_score e)).
Proof. unfold score_test. destruct node_score_ok as (n & -> & Hs & _). rs. by rewrite Hs. Qed.

Lemma ele_test_ok t : ele_test h t (ze_ptr e) = Ok (t (ze_ele e)).
Proof. unfold ele_test. by rewrite node_ele_ok. Qed.
End data.
