(* ===== verification/SklLink.v ===== *)
(** Linking and unlinking of skiplist nodes, one level at a time.

    The loops of [zslInsertNode] and [zslUnlinkNode] handle the levels one after
    the other; each iteration turns one level of the old sequence into the same
    level of the new one, and leaves the other levels alone. *)

From S2P Require Import Prelude Sds Skiplist SklRep.

(** Equality of lists up to the association of [++] *)
Ltac lapp := repeat (progress (rewrite <- ?(assoc_L (++)); cbn [app])); done.

(** ** Lists split at an element *)

Lemma split_cases {A} (a1 : list A) x1 b1 a2 x2 b2 :
  a1 ++ x1 :: b1 = a2 ++ x2 :: b2 →
  (a1 = a2 ∧ x1 = x2 ∧ b1 = b2) ∨
  (∃ c, a1 = a2 ++ x2 :: c ∧ b2 = c ++ x1 :: b1) ∨
  (∃ c, a2 = a1 ++ x1 :: c ∧ b1 = c ++ x2 :: b2).
Proof.
  revert a2. induction a1 as [|y a1 IH]; intros [|y' a2] E; cbn [app] in E;
    (injection E as -> E || injection E as -> ->).
  - by left.
  - right; right. by exists a2.
  - right; left. by exists a1.
  - apply IH in E as [(-> & -> & ->)|[(c & -> & ->)|(c & -> & ->)]].
    + by left.
    + right; left. by exists c.
    + right; right. by exists c.
Qed.

Lemma split_app_cons {A} (la lb : list A) a x b :
  la ++ lb = a ++ x :: b →
  (∃ c, la = a ++ x :: c ∧ b = c ++ lb) ∨ (∃ c, a = la ++ c ∧ lb = c ++ x :: b).
Proof.
  revert a. induction la as [|y la IH]; intros [|y' a] E; cbn [app] in E.
  - right. by exists [].
  - right. by exists (y' :: a).
  - injection E as -> <-. left. by exists la.
  - injection E as -> E. apply IH in E as [(c & -> & ->)|(c & -> & ->)].
    + left. by exists c.
    + right. by exists c.
Qed.

Lemma ptrs_app a b : ptrs (a ++ b) = ptrs a ++ ptrs b.
Proof. apply fmap_app. Qed.

(** Nodes at different positions have different addresses. *)
Lemma ptr_ne (a : list zent) x c y b :
  NoDup (ptrs (a ++ x :: c ++ y :: b)) → ze_ptr x ≠ ze_ptr y.
Proof.
  rewrite !ptrs_app. cbn [ptrs fmap list_fmap]. intros (_ & _ & HN)%NoDup_app E.
  cbn [fmap list_fmap] in HN. rewrite ptrs_app in HN. apply NoDup_cons in HN as [HN _]. apply HN.
  rewrite E. set_solver.
Qed.

Lemma upd_unique l1 i p r a x b :
  upd_ok l1 i (p, r) → l1 = a ++ x :: b → (i < ze_height x)%nat → low i b →
  p = ze_ptr x ∧ r = zlen a.
Proof.
  intros (a' & e & b' & E & [= -> ->] & He & Hb') -> Hx Hb.
  apply split_cases in E as [(-> & -> & ->)|[(c & -> & ->)|(c & -> & ->)]]; [done| |].
  - rewrite Forall_app, Forall_cons in Hb'. lia.
  - rewrite Forall_app, Forall_cons in Hb. lia.
Qed.

Lemma upd_inv l1 i x r a b :
  NoDup (ptrs l1) → upd_ok l1 i (ze_ptr x, r) → l1 = a ++ x :: b →
  (i < ze_height x)%nat ∧ low i b.
Proof.
  intros HN (a' & e & b' & E & [= Hp _] & He & Hb') ->. rewrite E in HN.
  apply split_cases in E as [(-> & -> & ->)|[(c & -> & ->)|(c & -> & ->)]]; [done| |].
  - by apply ptr_ne in HN.
  - rewrite <- (assoc_L (++)) in HN. by apply ptr_ne in HN.
Qed.

Lemma hop_le i l : (snd (hop i l) ≤ length l)%nat.
Proof. induction l as [|y l IH]; simpl; [lia|]. destruct (_ <? _)%nat; simpl; lia. Qed.

(** ** Links of one level *)

Definition links_at (F : ptr → nat → option (option ptr)) (S : ptr → nat → option Z)
    (zl : nat) (l : list zent) (i : nat) : Prop :=
  ∀ a e b, l = a ++ e :: b → (i < ze_height e)%nat →
    F (ze_ptr e) i = Some (fst (hop i b)) ∧
    ((0 < i < zl)%nat → S (ze_ptr e) i = Some (Z.of_nat (snd (hop i b)))).

Lemma links_all F S zl l : links F S zl l ↔ ∀ i, links_at F S zl l i.
Proof. unfold links, links_at. naive_solver. Qed.

Lemma links_at_ext F S F' S' zl l i :
  links_at F S zl l i → (∀ e, e ∈ l → F' (ze_ptr e) i = F (ze_ptr e) i) →
  (∀ e, e ∈ l → S' (ze_ptr e) i = S (ze_ptr e) i) → links_at F' S' zl l i.
Proof.
  intros HL HF HS a e b E He. rewrite HF, HS by (rewrite E; set_solver). by apply (HL a e b).
Qed.

(** The node [x] is before, at, or after the position between [l1] and [l2]. *)
Section level.
Context (F : ptr → nat → option (option ptr)) (S : ptr → nat → option Z) (zl : nat).
Context (l1 l2 : list zent) (e : zent) (i : nat) (u : ptr) (ri : Z).
Hypothesis (HN : NoDup (ptrs (l1 ++ e :: l2))).
Hypothesis (Hu : upd_ok l1 i (u, ri)).
Hypothesis (Hlen : zlen (l1 ++ e :: l2) < 2 ^ 64).

Lemma nodup_l1 : NoDup (ptrs l1).
Proof. rewrite ptrs_app in HN. by apply NoDup_app in HN as (? & _). Qed.

Lemma u_in : ∃ a x b, l1 = a ++ x :: b ∧ u = ze_ptr x ∧ ri = zlen a ∧
  (i < ze_height x)%nat ∧ low i b.
Proof. destruct Hu as (a & x & b & ? & [= -> ->] & ? & ?). by exists a, x, b. Qed.

Lemma u_ne_e : u ≠ ze_ptr e.
Proof.
  destruct u_in as (a & x & b & E & -> & _). rewrite E, <- (assoc_L (++)) in HN. by apply ptr_ne in HN.
Qed.

Lemma u_ne_l2 a x b : l2 = a ++ x :: b → u ≠ ze_ptr x ∧ ze_ptr e ≠ ze_ptr x.
Proof.
  intros ->. split.
  - destruct u_in as (a' & x' & b' & E & -> & _).
    rewrite E, <- (assoc_L (++)) in HN. cbn [app] in HN.
    rewrite (app_comm_cons a), (assoc_L (++) b') in HN. by apply ptr_ne in HN.
  - by apply ptr_ne in HN.
Qed.

Lemma e_ne_l1 a x b : l1 = a ++ x :: b → ze_ptr x ≠ ze_ptr e.
Proof. intros ->. rewrite <- (assoc_L (++)) in HN. by apply ptr_ne in HN. Qed.

(** A node of [l1] other than [u] is followed by one with level [i]. *)
Lemma l1_cases a x b :
  l1 = a ++ x :: b → (i < ze_height x)%nat →
  (u = ze_ptr x ∧ ri = zlen a ∧ low i b) ∨
  (u ≠ ze_ptr x ∧ ∃ c v c', b = c ++ v :: c' ∧ low i c ∧ (i < ze_height v)%nat).
Proof.
  intros E Hx. destruct (low_split i b) as [Hb|(c & v & c' & -> & Hc & Hv)].
  - left. destruct (upd_unique l1 i u ri a x b) as [-> ->]; done.
  - right. split; [|naive_solver]. intros ->.
    destruct (upd_inv l1 i x ri a (c ++ v :: c') nodup_l1 Hu E) as [_ Hb].
    rewrite Forall_app, Forall_cons in Hb. lia.
Qed.

(** An iteration of [zslInsertNode] for a level that the node has *)
Lemma links_link F' S' :
  links_at F S zl (l1 ++ l2) i → (i < ze_height e)%nat →
  F' (ze_ptr e) i = F u i → F' u i = Some (Some (ze_ptr e)) →
  ((0 < i < zl)%nat → ∀ s, S u i = Some s →
     S' (ze_ptr e) i = Some (u64 (s - u64 (zlen l1 - 1 - ri))) ∧
     S' u i = Some (u64 (u64 (zlen l1 - 1 - ri) + 1))) →
  (∀ q, q ≠ u → q ≠ ze_ptr e → F' q i = F q i ∧ S' q i = S q i) →
  links_at F' S' zl (l1 ++ e :: l2) i.
Proof.
  intros HL He HFe HFu HS Hq a x b E Hx. pose proof Hlen as Hlen'.
  rewrite length_app in Hlen'. cbn [length] in Hlen'.
  destruct u_in as (au & xu & bu & El & Exu & Eri & Hxu & Hbu).
  destruct (HL au xu (bu ++ l2)) as [HFx HSx]; [by rewrite El, <- (assoc_L (++))|done|].
  rewrite hop_low, <- Exu in HFx, HSx by done. cbn [fst snd] in *.
  assert (zlen l1 = ri + 1 + zlen bu) as Hl1 by (rewrite El, length_app; simpl; lia).
  pose proof (hop_le i l2) as Hd.
  assert (∀ s, (0 < i < zl)%nat → S u i = Some s → s = zlen bu + Z.of_nat (snd (hop i l2))) as Hs.
  { intros s Hi Es. rewrite HSx in Es by done. injection Es. lia. }
  apply split_cases in E as [(<- & <- & <-)|[(c & Ec & ->)|(c & -> & Ec)]].
  - rewrite HFe, HFx. split; [done|]. intros Hi.
    destruct (HS Hi _ (HSx Hi)) as [-> _]. f_equal. rewrite (wrapu_small 64 (zlen l1 - 1 - ri)), wrapu_small; lia.
  - destruct (l1_cases a x c Ec Hx) as [(<- & Ea & Hc)|(Hne & c1 & v & c2 & -> & Hc1 & Hv)].
    + rewrite hop_high by done. cbn [fst snd]. split; [done|]. intros Hi. destruct (HS Hi _ (HSx Hi)) as [_ ->].
      f_equal.
      assert (zlen l1 = zlen a + 1 + zlen c) by (rewrite Ec, length_app; simpl; lia).
      rewrite (wrapu_small 64 (zlen l1 - 1 - ri)), wrapu_small; lia.
    + destruct (Hq (ze_ptr x)) as [-> ->]; [congruence|exact (e_ne_l1 _ _ _ Ec)|].
      destruct (HL a x (c1 ++ v :: c2 ++ l2)) as [H1 H2]; [rewrite Ec; lapp|done|].
      rewrite <- (assoc_L (++)). cbn [app]. rewrite hop_high in * by done. done.
  - destruct (u_ne_l2 c x b Ec) as [? ?]. destruct (Hq (ze_ptr x)) as [-> ->]; [congruence..|].
    apply (HL (l1 ++ c) x b); [by rewrite Ec, <- (assoc_L (++))|done].
Qed.

(** An iteration for a level above those of the node *)
Lemma links_skip S' :
  links_at F S zl (l1 ++ l2) i → (ze_height e ≤ i)%nat →
  ((0 < i < zl)%nat → ∀ s, S u i = Some s → S' u i = Some (u64 (s + 1))) →
  (∀ q, q ≠ u → S' q i = S q i) →
  links_at F S' zl (l1 ++ e :: l2) i.
Proof.
  intros HL He HS Hq a x b E Hx. pose proof Hlen as Hlen'.
  rewrite length_app in Hlen'. cbn [length] in Hlen'.
  pose proof (hop_le i l2) as Hd.
  apply split_cases in E as [(<- & <- & <-)|[(c & Ec & ->)|(c & -> & Ec)]]; [lia| |].
  - destruct (HL a x (c ++ l2)) as [H1 H2]; [by rewrite Ec, <- (assoc_L (++))|done|].
    destruct (l1_cases a x c Ec Hx) as [(Eu & Ea & Hc)|(Hne & c1 & v & c2 & -> & Hc1 & Hv)].
    + rewrite hop_low in * by done. cbn [hop fst snd] in *.
      destruct (i <? ze_height e)%nat eqn:Ei; [apply Nat.ltb_lt in Ei; lia|]. cbn [fst snd].
      split; [done|]. intros Hi. rewrite <- Eu in *. rewrite (HS Hi _ (H2 Hi)). f_equal.
      rewrite Ec, length_app in Hlen'. simpl in Hlen'. rewrite wrapu_small; lia.
    + rewrite Hq by congruence. rewrite <- (assoc_L (++)) in *. cbn [app] in *.
      rewrite hop_high in * by done. done.
  - destruct (u_ne_l2 c x b Ec) as [? ?]. rewrite Hq by congruence.
    apply (HL (l1 ++ c) x b); [by rewrite Ec, <- (assoc_L (++))|done].
Qed.

(** An iteration of [zslUnlinkNode] for a level of the node *)
Lemma links_unlink F' S' :
  links_at F S zl (l1 ++ e :: l2) i → (i < ze_height e)%nat →
  F' u i = F (ze_ptr e) i →
  ((0 < i < zl)%nat → ∀ s se, S u i = Some s → S (ze_ptr e) i = Some se →
     S' u i = Some (u64 (s + u64 (se - 1)))) →
  (∀ q, q ≠ u → F' q i = F q i ∧ S' q i = S q i) →
  links_at F' S' zl (l1 ++ l2) i.
Proof.
  intros HL He HFu HS Hq a x b E Hx. pose proof Hlen as Hlen'.
  rewrite length_app in Hlen'. cbn [length] in Hlen'.
  destruct (HL l1 e l2 eq_refl He) as [HFe HSe]. pose proof (hop_le i l2) as Hd.
  apply split_app_cons in E as [(c & Ec & ->)|(c & -> & Ec)].
  - destruct (HL a x (c ++ e :: l2)) as [H1 H2]; [rewrite Ec; lapp|done|].
    destruct (l1_cases a x c Ec Hx) as [(Eu & Ea & Hc)|(Hne & c1 & v & c2 & -> & Hc1 & Hv)].
    + rewrite <- Eu in *. rewrite hop_low, HFu, HFe by done. split; [done|]. intros Hi.
      rewrite hop_high in H2 by done. cbn [fst snd] in *. rewrite (HS Hi _ _ (H2 Hi) (HSe Hi)).
      f_equal. rewrite Ec, length_app in Hlen'. simpl in Hlen'.
      destruct (decide (snd (hop i l2) = 0)%nat) as [E0|].
      * rewrite E0. change (u64 (Z.of_nat 0 - 1)) with (2 ^ 64 - 1). unfold wrapu.
        rewrite <- (Z.mod_add _ (-1)), Z.mod_small by lia. lia.
      * rewrite (wrapu_small 64 (_ - 1)), wrapu_small by lia. lia.
    + destruct (Hq (ze_ptr x)) as [-> ->]; [congruence|].
      rewrite <- (assoc_L (++)) in *. cbn [app] in *. rewrite hop_high in * by done. done.
  - destruct (u_ne_l2 c x b Ec) as [? ?]. destruct (Hq (ze_ptr x)) as [-> ->]; [congruence..|].
    apply (HL (l1 ++ e :: c) x b); [rewrite Ec; lapp|done].
Qed.

(** An iteration for a level above those of the node *)
Lemma links_unskip S' :
  links_at F S zl (l1 ++ e :: l2) i → (ze_height e ≤ i)%nat →
  ((0 < i < zl)%nat → ∀ s, S u i = Some s → S' u i = Some (u64 (s - 1))) →
  (∀ q, q ≠ u → S' q i = S q i) →
  links_at F S' zl (l1 ++ l2) i.
Proof.
  intros HL He HS Hq a x b E Hx. pose proof Hlen as Hlen'.
  rewrite length_app in Hlen'. cbn [length] in Hlen'. pose proof (hop_le i l2) as Hd.
  apply split_app_cons in E as [(c & Ec & ->)|(c & -> & Ec)].
  - destruct (HL a x (c ++ e :: l2)) as [H1 H2]; [rewrite Ec; lapp|done|].
    destruct (l1_cases a x c Ec Hx) as [(Eu & Ea & Hc)|(Hne & c1 & v & c2 & -> & Hc1 & Hv)].
    + rewrite hop_low in * by done. cbn [hop fst snd] in *.
      destruct (i <? ze_height e)%nat eqn:Ei; [apply Nat.ltb_lt in Ei; lia|]. cbn [fst snd] in *.
      split; [done|]. intros Hi. rewrite <- Eu in *. rewrite (HS Hi _ (H2 Hi)). f_equal.
      rewrite Ec, length_app in Hlen'. simpl in Hlen'. rewrite wrapu_small; lia.
    + rewrite Hq by congruence. rewrite <- (assoc_L (++)) in *. cbn [app] in *.
      rewrite hop_high in * by done. done.
  - destruct (u_ne_l2 c x b Ec) as [? ?]. rewrite Hq by congruence.
    apply (HL (l1 ++ e :: c) x b); [rewrite Ec; lapp|done].
Qed.

(** The test of [zslUnlinkNode]: does [u] point to the node at this level? *)
Lemma points_to_e :
  links_at F S zl (l1 ++ e :: l2) i →
  ∃ f, F u i = Some f ∧ (f = Some (ze_ptr e) ↔ (i < ze_height e)%nat).
Proof.
  intros HL. destruct u_in as (a & x & b & El & Eu & _ & Hx & Hb).
  destruct (HL a x (b ++ e :: l2)) as [H1 _]; [rewrite El; lapp|done|].
  rewrite <- Eu in H1. eexists. split; [done|].
  destruct (decide (i < ze_height e)%nat) as [He|He]; [by rewrite hop_high|].
  split; [|lia]. rewrite hop_low by done. cbn [hop fst snd].
  destruct (i <? ze_height e)%nat eqn:Ei; [apply Nat.ltb_lt in Ei; lia|]. cbn [fst].
  destruct (low_split i l2) as [Hl|(c & v & c' & Ec & Hc & Hv)]; [by rewrite hop_nil|].
  rewrite Ec, hop_high by done. cbn [fst]. intros [= E]. by destruct (u_ne_l2 c v c' Ec).
Qed.
End level.

(** ** The loops over the levels *)

Lemma for_inv {S} (P : nat → S → Prop) (f : S → nat → res S) lo n s :
  (∀ k s, (lo ≤ k < lo + n)%nat → P k s → ∃ s', f s k = Ok s' ∧ P (Datatypes.S k) s') →
  P lo s → ∃ s', for_ f lo n s = Ok s' ∧ P (lo + n)%nat s'.
Proof.
  revert lo s. induction n as [|n IH]; intros lo s Hf HP; cbn [for_].
  { exists s. by rewrite Nat.add_0_r. }
  destruct (Hf lo s) as (s1 & -> & H1); [lia|done|]. rs.
  destruct (IH (Datatypes.S lo) s1) as (s2 & -> & H2); [|done|].
  - intros k s' Hk. apply Hf. lia.
  - exists s2. split; [done|]. by replace (lo + Datatypes.S n)%nat with (Datatypes.S lo + n)%nat by lia.
Qed.

(** Levels below [k] are those of [l]; the others, and the rest of the nodes,
    are as in [h0]. *)
Record level_inv (h0 : zheap) (zl : nat) (l : list zent) (k : nat) (h : zheap) : Prop := LevelInv {
  li_done : ∀ i, (i < k)%nat → links_at (fwd h) (spn h) zl l i;
  li_todo : ∀ i q, (k ≤ i)%nat → fwd h q i = fwd h0 q i ∧ spn h q i = spn h0 q i;
  li_bwd : ∀ q, bwd h q = bwd h0 q;
  li_dat : ∀ q, dat h q = dat h0 q }.

(** One iteration, given what it does to the view *)
Lemma level_inv_step h0 zl l k h F S h' :
  level_inv h0 zl l k h → view h' F S (bwd h) (dat h) →
  (∀ i q, i ≠ k → F q i = fwd h q i ∧ S q i = spn h q i) →
  links_at F S zl l k → level_inv h0 zl l (Datatypes.S k) h'.
Proof.
  intros [H1 H2 H3 H4] [VF VS VB VD] Hne HL. split.
  - intros i Hi. destruct (decide (i = k)) as [->|].
    + eapply links_at_ext; [done|intros; apply VF|intros; apply VS].
    + eapply links_at_ext; [apply (H1 i); lia| |]; intros e _; rewrite ?VF, ?VS; by apply Hne.
  - intros i q Hi. rewrite VF, VS. destruct (Hne i q) as [-> ->]; [lia|]. apply H2. lia.
  - intros q. by rewrite VB.
  - intros q. by rewrite VD.
Qed.

Lemma upd2_eq {A} (f : ptr → nat → A) p i v : upd2 f p i v p i = v.
Proof. unfold upd2. by rewrite decide_True. Qed.
Lemma upd2_ne {A} (f : ptr → nat → A) p i v q j : q ≠ p ∨ j ≠ i → upd2 f p i v q j = f q j.
Proof. intros. unfold upd2. rewrite decide_False; [done|]. naive_solver. Qed.
Lemma updS_eq S p i v : (0 < i)%nat → updS S p i v p i = Some v.
Proof. intros. unfold updS. by rewrite decide_True. Qed.
Lemma updS_ne S p i v q j : q ≠ p ∨ j ≠ i → updS S p i v q j = S q j.
Proof. intros. unfold updS. rewrite decide_False; [done|]. naive_solver. Qed.

Section loops.
Context (h0 : zheap) (zl : nat) (l1 l2 : list zent) (e : zent) (us : list (ptr * Z)).
Hypothesis (HN : NoDup (ptrs (l1 ++ e :: l2))).
Hypothesis (Hlen : zlen (l1 ++ e :: l2) < 2 ^ 64).
Hypothesis (Hus : ∀ i u, us !! i = Some u → upd_ok l1 i u).
Hypothesis (Hzl : (zl ≤ length us)%nat).

Lemma us_lookup i : (i < zl)%nat →
  ∃ u r, nth_update us i = Ok (u, r) ∧ upd_ok l1 i (u, r).
Proof.
  intros Hi. unfold nth_update. destruct (lookup_lt_is_Some_2 us i) as [[u r] Hu]; [lia|].
  rewrite Hu. exists u, r. split; [done|]. by apply Hus.
Qed.

Lemma u_fwd h i u r l : links_at (fwd h) (spn h) zl (l1 ++ l) i → upd_ok l1 i (u, r) →
  ∃ f s, fwd h u i = Some f ∧ spn h u i = Some s.
Proof.
  intros HL (a & x & b & E & [= -> ->] & Hx & Hb).
  destruct (HL a x (b ++ l)) as [H1 _]; [rewrite E; lapp|done|].
  destruct (get_level_ok (view_self h) _ _ _ H1) as (s & Hs & _). eauto.
Qed.

Lemma link_step k h p0 :
  level_inv h0 zl (l1 ++ e :: l2) k h → (k < ze_height e)%nat → (k < zl)%nat →
  links_at (fwd h0) (spn h0) zl (l1 ++ l2) k → is_Some (fwd h0 (ze_ptr e) k) →
  us !! 0%nat = Some (p0, zlen l1 - 1) →
  ∃ h', link_level (ze_ptr e) us h k = Ok h' ∧ level_inv h0 zl (l1 ++ e :: l2) (S k) h'.
Proof.
  intros HI Hk Hkz HL [fe Hfe] H0. unfold link_level.
  destruct (us_lookup k Hkz) as (u & r & -> & Hu). rs.
  unfold nth_update at 1. rewrite H0. rs.
  pose proof (u_ne_e l1 l2 e k u r HN Hu) as Hne.
  assert (links_at (fwd h) (spn h) zl (l1 ++ l2) k) as HL'.
  { eapply links_at_ext; [done|..]; intros; by apply HI. }
  destruct (u_fwd h k u r l2 HL' Hu) as (f & s & Hf & Hs).
  rewrite (get_level_ok' (view_self h) u k f s) by done. rs. cbn [forward].
  destruct (set_forward_view (view_self h) (ze_ptr e) k fe f) as (h1 & -> & V1).
  { by rewrite (proj1 (li_todo _ _ _ _ _ HI k (ze_ptr e) ltac:(lia))). } rs.
  destruct (set_forward_view V1 u k f (Some (ze_ptr e))) as (h2 & -> & V2).
  { rewrite upd2_ne; auto. } rs.
  rewrite (get_span_ok V2 u k (Some (ze_ptr e)) s) by (rewrite ?upd2_eq; auto). rs.
  edestruct (set_node_span_view V2 (ze_ptr e) k f) as (h3 & -> & V3).
  { rewrite upd2_ne, upd2_eq; auto. } rs.
  edestruct (set_node_span_view V3 u k (Some (ze_ptr e))) as (h4 & -> & V4).
  { apply upd2_eq. }
  exists h4. split; [done|]. eapply level_inv_step; [done|exact V4|..].
  - intros i q Hi. rewrite !upd2_ne, !updS_ne by auto. done.
  - apply (links_link (fwd h) (spn h) zl l1 l2 e k u r HN Hu Hlen); try done.
    + rewrite upd2_ne, upd2_eq; auto.
    + by rewrite upd2_eq.
    + intros Hi s' Hs'. rewrite Hs in Hs'. injection Hs' as <-. unfold span_of.
      destruct (0 <? k)%nat eqn:E0; [|apply Nat.ltb_ge in E0; lia].
      rewrite (updS_ne _ u), !updS_eq; auto with lia.
    + intros q Hq1 Hq2. by rewrite !upd2_ne, !updS_ne by auto.
Qed.

Lemma skip_step k h :
  level_inv h0 zl (l1 ++ e :: l2) k h → (ze_height e ≤ k)%nat → (k < zl)%nat →
  links_at (fwd h0) (spn h0) zl (l1 ++ l2) k →
  ∃ h', ('(u, _) ← nth_update us k; zslIncrNodeSpanAtLevel h u k 1) = Ok h' ∧
    level_inv h0 zl (l1 ++ e :: l2) (S k) h'.
Proof.
  intros HI Hk Hkz HL. destruct (us_lookup k Hkz) as (u & r & -> & Hu). rs.
  assert (links_at (fwd h) (spn h) zl (l1 ++ l2) k) as HL'.
  { eapply links_at_ext; [done|..]; intros; by apply HI. }
  destruct (u_fwd h k u r l2 HL' Hu) as (f & s & Hf & Hs).
  destruct (incr_span_view (view_self h) u k f s 1) as (h' & -> & V'); [done..|].
  exists h'. split; [done|]. eapply level_inv_step; [done|exact V'|..].
  - intros i q Hi. by rewrite !updS_ne by auto.
  - apply (links_skip (fwd h) (spn h) zl l1 l2 e k u r HN Hu Hlen); try done.
    + intros Hi s' Hs'. rewrite Hs in Hs'. injection Hs' as <-. rewrite updS_eq; auto with lia.
    + intros q Hq. by rewrite !updS_ne by auto.
Qed.

Lemma unlink_step k h :
  level_inv h0 zl (l1 ++ l2) k h → (k < zl)%nat →
  links_at (fwd h0) (spn h0) zl (l1 ++ e :: l2) k →
  ∃ h', unlink_level (ze_ptr e) us h k = Ok h' ∧ level_inv h0 zl (l1 ++ l2) (S k) h' ∧
    ∀ i, fwd h' (ze_ptr e) i = fwd h (ze_ptr e) i.
Proof.
  intros HI Hkz HL. unfold unlink_level. destruct (us_lookup k Hkz) as (u & r & -> & Hu). rs.
  assert (links_at (fwd h) (spn h) zl (l1 ++ e :: l2) k) as HL'.
  { eapply links_at_ext; [done|..]; intros; by apply HI. }
  destruct (u_fwd h k u r (e :: l2) HL' Hu) as (f & s & Hf & Hs).
  pose proof (u_ne_e l1 l2 e k u r HN Hu) as Hne.
  rewrite (get_level_ok' (view_self h) u k f s) by done. rs. cbn [forward].
  destruct (points_to_e (fwd h) (spn h) zl l1 l2 e k u r HN Hu Hlen HL') as (f' & Hf' & Hiff).
  rewrite Hf in Hf'. injection Hf' as <-.
  destruct (decide (f = Some (ze_ptr e))) as [Ef|Ef].
  - assert (k < ze_height e)%nat as Hk by tauto.
    destruct (HL' l1 e l2 eq_refl Hk) as [HFe HSe].
    destruct (get_level_ok (view_self h) _ _ _ HFe) as (se & Hse & _).
    rewrite (get_span_ok (view_self h) _ _ _ se HFe) by auto. rs.
    edestruct (incr_span_view (view_self h) u k f s) as (h1 & -> & V1); [done..|]. rs.
    destruct (get_level_ok V1 (ze_ptr e) k _ HFe) as (se' & _ & ->). rs. cbn [forward].
    edestruct (set_forward_view V1 u k f) as (h2 & -> & V2); [done|].
    exists h2. split; [done|].
    split; [|intros i; rewrite (view_fwd _ _ _ _ _ V2), upd2_ne by auto; done].
    eapply level_inv_step; [done|exact V2|..].
    + intros i q Hi. by rewrite !upd2_ne, !updS_ne by auto.
    + apply (links_unlink (fwd h) (spn h) zl l1 l2 e k u r HN Hu Hlen); try done.
      * by rewrite upd2_eq.
      * intros Hi s1 s2 Hs1 Hs2. rewrite Hs in Hs1. rewrite Hse in Hs2. simplify_eq.
        unfold span_of. destruct (0 <? k)%nat eqn:E0; [|apply Nat.ltb_ge in E0; lia].
        rewrite updS_eq; auto with lia.
      * intros q Hq. by rewrite !upd2_ne, !updS_ne by auto.
  - assert (ze_height e ≤ k)%nat as Hk by (destruct (decide (k < ze_height e)%nat); [tauto|lia]).
    edestruct (decr_span_view (view_self h) u k f s) as (h1 & -> & V1); [done..|].
    exists h1. split; [done|]. split; [|intros i; apply V1].
    eapply level_inv_step; [done|exact V1|..].
    + intros i q Hi. by rewrite !updS_ne by auto.
    + apply (links_unskip (fwd h) (spn h) zl l1 l2 e k u r HN Hu Hlen); try done.
      * intros Hi s' Hs'. rewrite Hs in Hs'. injection Hs' as <-. rewrite updS_eq; auto with lia.
      * intros q Hq. by rewrite !updS_ne by auto.
Qed.
End loops.
