(* ===== verification/SklMod.v ===== *)
(** Insertion and removal in the skiplist: [zslInsertNode], [zslUnlinkNode] and
    the functions built on them, as operations on the represented sequence. *)

From S2P Require Import Prelude Sds Skiplist SklRep SklLink.
From Stdlib Require Import SpecFloat.

(** ** The order of a sequence *)

Lemma zlt_cmp s k x :
  isnan s = false → isnan (ze_score x) = false →
  Z.sgn (zcmp s k (ze_score x) (ze_ele x)) = lexcmp (zkey s k) (ekey x).
Proof. apply zcmp_key. Qed.

Lemma zlt_trans x y w : zlt x y → zlt y w → zlt x w.
Proof. apply lexcmp_trans. Qed.

Lemma zlt_irrefl x : ¬ zlt x x.
Proof. unfold zlt. rewrite lexcmp_refl. lia. Qed.

Lemma zlt_flip x y : lexcmp (ekey x) (ekey y) = - lexcmp (ekey y) (ekey x).
Proof. apply lexcmp_opp. Qed.

Lemma zlt_sorted_insert xs1 e xs2 :
  StronglySorted zlt (xs1 ++ xs2) → Forall (λ x, zlt x e) xs1 → Forall (zlt e) xs2 →
  StronglySorted zlt (xs1 ++ e :: xs2).
Proof.
  rewrite !StronglySorted_app. intros (H1 & H2 & H3) Ha Hb. split_and!; [|done|].
  - intros x y Hx [->|Hy]%elem_of_cons; [|eauto]. rewrite Forall_forall in Ha. auto.
  - by constructor.
Qed.

Lemma sorted_mid xs1 e xs2 :
  StronglySorted zlt (xs1 ++ e :: xs2) →
  StronglySorted zlt (xs1 ++ xs2) ∧ Forall (λ x, zlt x e) xs1 ∧ Forall (zlt e) xs2.
Proof.
  rewrite !StronglySorted_app. intros (H1 & H2 & H3). apply StronglySorted_inv in H3 as [H3 H4].
  split_and!; try done.
  - intros x y Hx Hy. apply H1; [done|]. set_solver.
  - apply Forall_forall. intros x Hx. apply H1; [done|]. set_solver.
Qed.

Lemma max_height_1 l : (1 ≤ max_height l)%nat.
Proof. induction l; simpl; lia. Qed.

Lemma max_height_app a b : max_height (a ++ b) = Nat.max (max_height a) (max_height b).
Proof. induction a as [|x a IH]; simpl; [pose proof (max_height_1 b); lia|]. rewrite IH. lia. Qed.

Lemma max_height_ge l e : e ∈ l → (ze_height e ≤ max_height l)%nat.
Proof. induction 1; simpl; lia. Qed.

Lemma max_height_bound l n :
  (1 ≤ n)%nat → Forall (λ e, ze_height e ≤ n)%nat l → (max_height l ≤ n)%nat.
Proof. intros Hn. induction 1; simpl; lia. Qed.

Lemma sum_usable_app a b : sum_usable (a ++ b) = sum_usable a + sum_usable b.
Proof. induction a as [|x a IH]; simpl; [done|]. rewrite IH. lia. Qed.

Lemma low_all l i : (max_height l ≤ i)%nat → low i l.
Proof. intros Hi. apply Forall_forall. intros e He. apply max_height_ge in He. lia. Qed.

Lemma ptrs_mid a y b : ptrs (a ++ y :: b) ≡ₚ ze_ptr y :: ptrs (a ++ b).
Proof. unfold ptrs. rewrite <- fmap_cons. apply fmap_Permutation. solve_Permutation. Qed.

Lemma nodup_mid a y b : NoDup (ptrs (a ++ y :: b)) ↔ (ze_ptr y ∉ ptrs (a ++ b)) ∧ NoDup (ptrs (a ++ b)).
Proof. by rewrite ptrs_mid, NoDup_cons. Qed.

Lemma ptr_notin a y b x :
  NoDup (ptrs (a ++ y :: b)) → x ∈ a ++ b → ze_ptr x ≠ ze_ptr y.
Proof.
  rewrite ptrs_mid. intros [HN _]%NoDup_cons Hx E. apply HN. rewrite <- E. by apply list_elem_of_fmap_2.
Qed.

(** ** Backward pointers *)

Definition back_ok (B : ptr → option (option ptr)) (xs : list zent) : Prop :=
  ∀ a e b, xs = a ++ e :: b → B (ze_ptr e) = Some (ze_ptr <$> last a).

Lemma back_insert B B' xs1 e xs2 :
  back_ok B (xs1 ++ xs2) → B' (ze_ptr e) = Some (ze_ptr <$> last xs1) →
  (∀ y, head xs2 = Some y → B' (ze_ptr y) = Some (Some (ze_ptr e))) →
  (∀ x, x ∈ xs1 ++ tail xs2 → B' (ze_ptr x) = B (ze_ptr x)) →
  back_ok B' (xs1 ++ e :: xs2).
Proof.
  intros HB He Hy Hx a x b E.
  apply split_cases in E as [(<- & <- & <-)|[(c & -> & ->)|(c & -> & ->)]]; [done| |].
  - rewrite Hx by set_solver. apply (HB a x (c ++ xs2)). lapp.
  - destruct c as [|y c _] using rev_ind.
    + rewrite last_snoc. by apply Hy.
    + rewrite Hx.
      * rewrite (HB (xs1 ++ c ++ [y]) x b) by lapp. f_equal. f_equal.
        by rewrite (assoc_L (++)), (app_comm_cons c), (assoc_L (++) xs1), !last_snoc.
      * destruct c; set_solver.
Qed.

Lemma back_delete B B' xs1 e xs2 :
  back_ok B (xs1 ++ e :: xs2) →
  (∀ y, head xs2 = Some y → B' (ze_ptr y) = B (ze_ptr e)) →
  (∀ x, x ∈ xs1 ++ tail xs2 → B' (ze_ptr x) = B (ze_ptr x)) →
  back_ok B' (xs1 ++ xs2).
Proof.
  intros HB Hy Hx a x b E. apply split_app_cons in E as [(c & -> & ->)|(c & -> & ->)].
  - rewrite Hx by set_solver. apply (HB a x (c ++ e :: xs2)). lapp.
  - destruct c as [|y c _] using rev_ind.
    + rewrite app_nil_r. rewrite Hy by done. by apply (HB xs1 e (x :: b)).
    + rewrite Hx by (destruct c; set_solver).
      rewrite (HB (xs1 ++ e :: c ++ [y]) x b) by lapp. f_equal. f_equal.
      by rewrite (assoc_L (++)), (app_comm_cons c), (assoc_L (++) xs1), !last_snoc.
Qed.

Lemma hop_0 l : Forall (λ e, 0 < ze_height e)%nat l → fst (hop 0 l) = ze_ptr <$> head l.
Proof.
  destruct l as [|x l]; [done|]. intros [Hx _]%Forall_cons. simpl.
  apply Nat.ltb_lt in Hx. by rewrite Hx.
Qed.

(** Levels no node has are empty. *)
Lemma links_close h0 zl hd l l' h :
  level_inv h0 zl (hd :: l') zl h → (max_height l ≤ zl)%nat → (max_height l' ≤ zl)%nat →
  (∀ i, (i < ze_height hd)%nat → fwd h0 (ze_ptr hd) i = Some (fst (hop i l))) →
  links (fwd h) (spn h) zl (hd :: l').
Proof.
  intros HI Hm Hm' Hhd. apply links_all. intros i.
  destruct (decide (i < zl)%nat) as [Hi|Hi]; [by apply HI|].
  intros a e b E He. split; [|lia]. destruct a as [|x a]; injection E as <- E.
  - subst b. rewrite (proj1 (li_todo _ _ _ _ _ HI i _ ltac:(lia))), Hhd by done.
    rewrite !hop_nil by (apply low_all; lia). done.
  - pose proof (max_height_ge l' e ltac:(rewrite E; set_solver)). lia.
Qed.

Section mod_.
Context `{Allocator}.

(** ** The search for the position of an element *)

Section inv.
Context {h : zheap} {z : zskiplist} {xs : list zent} (R : zsl_inv h z xs).

Lemma inv_level : (1 ≤ zsl_level z ≤ ZSKIPLIST_MAXLEVEL)%nat.
Proof.
  rewrite (rep_level _ _ _ R). split; [apply max_height_1|]. apply max_height_bound.
  - unfold ZSKIPLIST_MAXLEVEL. lia.
  - eapply Forall_impl; [apply (rep_heights _ _ _ R)|]. simpl. intros ?; lia.
Qed.

Lemma inv_heights0 : Forall (λ e, 0 < ze_height e)%nat (hd_ent (zsl_header z) :: xs).
Proof.
  constructor; [unfold hd_ent, ZSKIPLIST_MAXLEVEL; simpl; lia|].
  eapply Forall_impl; [apply (rep_heights _ _ _ R)|]. simpl. intros ?; lia.
Qed.

Lemma inv_data e : e ∈ xs → data_ok (dat h (ze_ptr e)) e ∧
  (1 ≤ ze_height e ≤ ZSKIPLIST_MAXLEVEL)%nat ∧ isnan (ze_score e) = false.
Proof.
  intros He. pose proof (rep_data _ _ _ R) as H1. pose proof (rep_heights _ _ _ R) as H2.
  pose proof (rep_nan _ _ _ R) as H3. rewrite !Forall_forall in *. auto.
Qed.

Lemma inv_fuel l1 l2 : hd_ent (zsl_header z) :: xs = l1 ++ l2 → (length l1 ≤ zsl_fuel z)%nat.
Proof.
  intros E. apply (f_equal length) in E. rewrite length_app in E. simpl in E.
  unfold zsl_fuel. rewrite (rep_length _ _ _ R). lia.
Qed.

Lemma inv_len l1 l2 : hd_ent (zsl_header z) :: xs = l1 ++ l2 → zlen (l1 ++ l2) < 2 ^ 64.
Proof. intros <-. cbn [length]. pose proof (rep_small _ _ _ R). lia. Qed.

(** What a search of the list cut at the end of [xs1] relies on *)
Lemma inv_cut xs1 xs2 :
  xs = xs1 ++ xs2 →
  let l1 := hd_ent (zsl_header z) :: xs1 in
  links (fwd h) (spn h) (zsl_level z) (l1 ++ xs2) ∧
  Forall (λ e, 0 < ze_height e)%nat (l1 ++ xs2) ∧ zlen (l1 ++ xs2) < 2 ^ 64 ∧
  (length l1 ≤ zsl_fuel z)%nat.
Proof.
  intros E l1. assert (hd_ent (zsl_header z) :: xs = l1 ++ xs2) as E1 by (unfold l1; by rewrite E).
  rewrite <- E1. split_and!; [apply R|apply inv_heights0| |by eapply inv_fuel].
  rewrite E1. by apply inv_len.
Qed.

Lemma inv_search cond xs1 xs2 :
  xs = xs1 ++ xs2 → cond_ok cond (zsl_level z) (hd_ent (zsl_header z) :: xs1) xs2 →
  ∃ us, descend (zsl_fuel z) cond h (zsl_level z) (zsl_header z) 0 [] = Ok us ∧
    length us = zsl_level z ∧
    (∀ i u, us !! i = Some u → upd_ok (hd_ent (zsl_header z) :: xs1) i u).
Proof.
  intros E C. destruct (inv_cut xs1 xs2 E) as (L & H0 & Hlen & Hf). pose proof inv_level.
  destruct (descend_ok (view_self h) _ _ xs2 L H0 Hlen cond C (zsl_fuel z) Hf (zsl_level z) []
    (hd_ent (zsl_header z)) xs1 []) as (us & Hd & Hl & Hus); [done|simpl; lia|lia|].
  rewrite app_nil_r in Hd. eauto.
Qed.

(** The node the search ends at is the last one of [xs1], or the header. *)
Lemma upd_ok_0 xs1 xs2 u :
  xs = xs1 ++ xs2 → upd_ok (hd_ent (zsl_header z) :: xs1) 0 u →
  u = (default (zsl_header z) (ze_ptr <$> last xs1), zlen xs1).
Proof.
  intros E (a & e & b & Ea & -> & He & Hb). destruct (inv_cut xs1 xs2 E) as (_ & H0 & _).
  assert (b = []) as ->.
  { destruct b as [|x b]; [done|]. exfalso. apply Forall_cons in Hb as [Hx _].
    rewrite Ea, !Forall_app, !Forall_cons in H0. lia. }
  destruct xs1 as [|x xs1 _] using rev_ind.
  - destruct a as [|? []]; simplify_eq/=. done.
  - rewrite app_comm_cons in Ea. apply app_inj_tail in Ea as [<- ->].
    rewrite last_snoc, length_app. simpl. f_equal. lia.
Qed.

(** The test [zslCompareWithNode(score, ele, next) > 0] or [>= 0] *)
Lemma cond_cmp_ok t s k xs1 xs2 :
  xs = xs1 ++ xs2 → t (-1) = false →
  Forall (λ x, t (zcmp s k (ze_score x) (ze_ele x)) = true) xs1 →
  Forall (λ x, t (zcmp s k (ze_score x) (ze_ele x)) = false) xs2 →
  cond_ok (cond_cmp h t s k) (zsl_level z) (hd_ent (zsl_header z) :: xs1) xs2.
Proof.
  intros E Ht H1 H2. destruct (inv_cut xs1 xs2 E) as (L & H0 & Hlen & _).
  apply (cond_pred (view_self h) _ _ _ L H0 Hlen _
    (λ x, t (zcmp s k (ze_score x) (ze_ele x)))); [| |done..].
  - intros x i r Hf. unfold cond_cmp. destruct (get_level_ok (view_self h) _ _ _ Hf) as (? & _ & ->).
    rs. cbn [forward zslCompareWithNode]. rs. by rewrite Ht.
  - intros x i r v Hv Hf. unfold cond_cmp.
    destruct (get_level_ok (view_self h) _ _ _ Hf) as (? & _ & ->). rs. cbn [forward tail] in *.
    rewrite <- E in Hv. destruct (inv_data v Hv) as (Hd & Hh & _).
    rewrite (compare_ok (view_self h)) by done. done.
Qed.

(** The search for the place of an element *)
Lemma search_gt s k xs1 xs2 :
  xs = xs1 ++ xs2 → isnan s = false →
  Forall (λ x, lexcmp (ekey x) (zkey s k) < 0) xs1 →
  Forall (λ x, 0 ≤ lexcmp (ekey x) (zkey s k)) xs2 →
  cond_ok (cond_gt h s k) (zsl_level z) (hd_ent (zsl_header z) :: xs1) xs2.
Proof.
  intros E Hs H1 H2. pose proof (rep_nan _ _ _ R) as Hn. rewrite E, Forall_app, !Forall_forall in Hn.
  rewrite Forall_forall in H1, H2.
  apply cond_cmp_ok; [done..| |]; apply Forall_forall; intros x Hx.
  - pose proof (zlt_cmp s k x Hs ltac:(naive_solver)) as Ex.
    pose proof (H1 x Hx) as Hx1. simpl in Hx1. rewrite lexcmp_opp in Hx1. lia.
  - pose proof (zlt_cmp s k x Hs ltac:(naive_solver)) as Ex.
    pose proof (H2 x Hx) as Hx1. simpl in Hx1. rewrite lexcmp_opp in Hx1. lia.
Qed.

(** ** Insertion *)

(** The heap once the levels of the list have been raised to [lv] *)
Record prepared (lv : nat) (h' : zheap) : Prop := Prepared {
  pr_links : links (fwd h') (spn h') lv (hd_ent (zsl_header z) :: xs);
  pr_fwd q i : fwd h' q i = fwd h q i;
  pr_bwd q : bwd h' q = bwd h q;
  pr_dat q : q ≠ zsl_header z → dat h' q = dat h q;
  pr_header : d_usable <$> dat h' (zsl_header z) = d_usable <$> dat h (zsl_header z) }.

Lemma header_fwd i : (i < ZSKIPLIST_MAXLEVEL)%nat → fwd h (zsl_header z) i = Some (fst (hop i xs)).
Proof. intros Hi. by apply (rep_links _ _ _ R [] (hd_ent (zsl_header z)) xs i). Qed.

Lemma raise_loop lv :
  (zsl_level z ≤ lv ≤ ZSKIPLIST_MAXLEVEL)%nat →
  ∃ h1, for_ (λ h i, zslSetNodeSpanAtLevel h (zsl_header z) i (zsl_length z))
          (zsl_level z) (lv - zsl_level z) h = Ok h1 ∧
    view h1 (fwd h) (λ q i, if decide (q = zsl_header z ∧ zsl_level z ≤ i < lv)%nat
                            then Some (zsl_length z) else spn h q i) (bwd h) (dat h).
Proof.
  intros Hlv. pose proof inv_level as Hzl.
  destruct (for_inv (λ k h1, view h1 (fwd h)
    (λ q i, if decide (q = zsl_header z ∧ zsl_level z ≤ i < k)%nat
            then Some (zsl_length z) else spn h q i) (bwd h) (dat h))
    (λ h i, zslSetNodeSpanAtLevel h (zsl_header z) i (zsl_length z))
    (zsl_level z) (lv - zsl_level z) h) as (h1 & Hh1 & V1).
  - intros k h1 Hk V1.
    destruct (set_node_span_view V1 (zsl_header z) k (fst (hop k xs)) (zsl_length z))
      as (h2 & Hh2 & V2); [apply header_fwd; lia|].
    exists h2. split; [done|]. eapply view_ext; [exact V2|done| |done..].
    intros q i. unfold updS. repeat destruct (decide _); try done; naive_solver lia.
  - eapply view_ext; [apply view_self|done| |done..].
    intros q i. rewrite decide_False; [done|]. lia.
  - exists h1. split; [done|]. by replace (zsl_level z + (lv - zsl_level z))%nat with lv in V1 by lia.
Qed.

Lemma raise_ok lv :
  (zsl_level z < lv ≤ ZSKIPLIST_MAXLEVEL)%nat →
  ∃ h1 h2, for_ (λ h i, zslSetNodeSpanAtLevel h (zsl_header z) i (zsl_length z))
          (zsl_level z) (lv - zsl_level z) h = Ok h1 ∧
    set_info_levels h1 (zsl_header z) (Z.of_nat lv) = Ok h2 ∧ prepared lv h2.
Proof.
  intros Hlv. pose proof inv_level as Hzl.
  destruct (raise_loop lv) as (h1 & Hh1 & V1); [lia|]. exists h1.
  pose proof (header_fwd 0 ltac:(unfold ZSKIPLIST_MAXLEVEL; lia)) as Hf.
  destruct (get_level_ok V1 _ _ _ Hf) as (s & _ & Hl).
  destruct (dat h (zsl_header z)) as [d|] eqn:Hd; [|pose proof (rep_header _ _ _ R); by rewrite Hd in *].
  unfold set_info_levels, zslGetNodeInfo. rewrite Hl. rs.
  edestruct (set_span0_view V1) as (h2 & -> & [VF VS VB VD]); [done|done|].
  exists h2. split_and!; [done..|]. split.
  - intros a e b i E He. rewrite VF, VS. destruct (rep_links _ _ _ R a e b i E He) as [H1 H2].
    split; [done|]. intros Hi. rewrite upd2_ne by lia.
    destruct (decide _) as [[Ep Hi']|Hn].
    + assert (e = hd_ent (zsl_header z) ∧ b = xs) as [-> ->].
      { destruct a as [|x a]; injection E as <- E; [done|].
        pose proof (max_height_ge xs e ltac:(rewrite E; set_solver)).
        pose proof (rep_level _ _ _ R). lia. }
      f_equal. rewrite hop_nil, (rep_length _ _ _ R); [done|]. apply low_all.
      rewrite <- (rep_level _ _ _ R). lia.
    + apply H2. split; [lia|]. destruct (decide (i < zsl_level z)%nat); [done|]. exfalso.
      destruct a as [|x a]; injection E as <- E; [by apply Hn; split; [|lia]|].
      pose proof (max_height_ge xs e ltac:(rewrite E; set_solver)).
      pose proof (rep_level _ _ _ R). lia.
  - done.
  - done.
  - intros q Hq. rewrite VD. unfold upd1. by rewrite decide_False.
  - rewrite VD. unfold upd1. rewrite decide_True, Hd by done. done.
Qed.
End inv.

Section insert.
Context (h : zheap) (z : zskiplist) (xs1 xs2 : list zent) (e : zent).
Hypothesis (R : zsl_inv h z (xs1 ++ xs2)).
Hypothesis (De : data_ok (dat h (ze_ptr e)) e).
Hypothesis (He : (1 ≤ ze_height e ≤ ZSKIPLIST_MAXLEVEL)%nat).
Hypothesis (Hnan : isnan (ze_score e) = false).
Hypothesis (Hp : ze_ptr e ∉ ptrs (hd_ent (zsl_header z) :: xs1 ++ xs2)).
Hypothesis (Hfe : ∀ i, (i < ze_height e)%nat → is_Some (fwd h (ze_ptr e) i)).
Hypothesis (Hlt : Forall (λ x, zlt x e) xs1).
Hypothesis (Hgt : Forall (zlt e) xs2).
Hypothesis (Hsmall : zlen (xs1 ++ xs2) + 1 < INT64_MAX).

Let l1 := hd_ent (zsl_header z) :: xs1.
Let lv := Nat.max (zsl_level z) (ze_height e).

Lemma ins_nodup : NoDup (ptrs (l1 ++ e :: xs2)).
Proof.
  apply nodup_mid. split; [exact Hp|apply R].
Qed.

Lemma ins_len : zlen (l1 ++ e :: xs2) < 2 ^ 64.
Proof. unfold l1. rewrite length_app in *. simpl in *. lia. Qed.

Lemma ins_max : lv = max_height (xs1 ++ e :: xs2).
Proof.
  unfold lv. rewrite (rep_level _ _ _ R), !max_height_app. simpl. pose proof (max_height_1 xs2). lia.
Qed.

Lemma ins_prepare us :
  length us = zsl_level z → (∀ i u, us !! i = Some u → upd_ok l1 i u) →
  ∃ h2 us2,
    (if (zsl_level z <? ze_height e)%nat then
       h ← for_ (fun h i => zslSetNodeSpanAtLevel h (zsl_header z) i (zsl_length z))
             (zsl_level z) (ze_height e - zsl_level z) h;
       h ← set_info_levels h (zsl_header z) (Z.of_nat (ze_height e));
       Ok (h, us ++ replicate (ze_height e - zsl_level z) (zsl_header z, 0), ze_height e)
     else Ok (h, us, zsl_level z)) = Ok (h2, us2, lv) ∧
    prepared (h := h) (z := z) (xs := xs1 ++ xs2) lv h2 ∧ length us2 = lv ∧
    (∀ i u, us2 !! i = Some u → upd_ok l1 i u).
Proof.
  intros Hl Hus. destruct (zsl_level z <? ze_height e)%nat eqn:E.
  - apply Nat.ltb_lt in E. destruct (raise_ok R (ze_height e)) as (h1 & h2 & -> & Hi & Hpr); [lia|].
    rs. rewrite Hi. rs. unfold lv. rewrite Nat.max_r by lia.
    eexists _, _. split; [done|]. split; [done|].
    split; [rewrite length_app, length_replicate; lia|].
    intros i u Hu. apply lookup_app_Some in Hu as [Hu|[Hge Hu]]; [auto|].
    apply lookup_replicate in Hu as [-> Hlt']. exists [], (hd_ent (zsl_header z)), xs1.
    split_and!; [done..|simpl; lia|]. apply low_all.
    pose proof (rep_level _ _ _ R) as Hm. rewrite max_height_app in Hm. lia.
  - apply Nat.ltb_ge in E. exists h, us. unfold lv. rewrite Nat.max_l by lia.
    split_and!; [done| |done|done]. split; try done. apply R.
Qed.

Lemma ins_loops h2 us2 :
  prepared (h := h) (z := z) (xs := xs1 ++ xs2) lv h2 → length us2 = lv →
  (∀ i u, us2 !! i = Some u → upd_ok l1 i u) →
  ∃ h3 h4, for_ (link_level (ze_ptr e) us2) 0 (ze_height e) h2 = Ok h3 ∧
    for_ (fun h i => '(u, _) ← nth_update us2 i; zslIncrNodeSpanAtLevel h u i 1)
        (ze_height e) (lv - ze_height e) h3 = Ok h4 ∧
    links (fwd h4) (spn h4) lv (l1 ++ e :: xs2) ∧
    (∀ q, bwd h4 q = bwd h2 q) ∧ (∀ q, dat h4 q = dat h2 q).
Proof.
  intros Pr Hl Hus. pose proof (inv_level R) as Hzl.
  assert (∀ i, links_at (fwd h2) (spn h2) lv (l1 ++ xs2) i) as HL by apply links_all, Pr.
  assert (∃ p0, us2 !! 0%nat = Some (p0, zlen l1 - 1)) as [p0 H0].
  { destruct (lookup_lt_is_Some_2 us2 0) as [u Hu]; [lia|]. rewrite Hu.
    apply Hus, (upd_ok_0 R xs1 xs2 u eq_refl) in Hu. rewrite Hu. eexists. unfold l1. do 2 f_equal. simpl. lia. }
  destruct (for_inv (level_inv h2 lv (l1 ++ e :: xs2)) (link_level (ze_ptr e) us2) 0 (ze_height e) h2)
    as (h3 & Hh3 & I3).
  { intros k h' Hk HI. eapply link_step; try done; try lia; try apply ins_nodup; try apply ins_len.
    rewrite (pr_fwd _ _ Pr). apply Hfe. lia. }
  { split; [lia|done..]. }
  destruct (for_inv (level_inv h2 lv (l1 ++ e :: xs2))
    (fun h i => '(u, _) ← nth_update us2 i; zslIncrNodeSpanAtLevel h u i 1)
    (ze_height e) (lv - ze_height e) h3) as (h4 & Hh4 & I4).
  { intros k h' Hk HI. eapply skip_step; try done; try lia; try apply ins_nodup; try apply ins_len. }
  { done. }
  replace (ze_height e + (lv - ze_height e))%nat with lv in I4 by lia.
  exists h3, h4. split_and!; [done..| |apply I4|apply I4].
  eapply (links_close h2 lv _ (xs1 ++ xs2) (xs1 ++ e :: xs2)); [exact I4| | |].
  - unfold lv. rewrite <- (rep_level _ _ _ R). lia.
  - by rewrite <- ins_max.
  - intros i Hi. rewrite (pr_fwd _ _ Pr). by apply (header_fwd R).
Qed.

(** The new node, and the one after it *)
Lemma ins_prev :
  (let u0 := default (zsl_header z) (ze_ptr <$> last xs1) in
   if decide (u0 = zsl_header z) then None else Some u0) = ze_ptr <$> last xs1.
Proof.
  simpl. destruct (last xs1) as [x|] eqn:Ex; simpl; [|by rewrite decide_True].
  rewrite decide_False; [done|]. intros E.
  pose proof (rep_nodup _ _ _ R) as HN. cbn in HN. apply NoDup_cons in HN as [HN _]. apply HN.
  rewrite <- E. apply last_Some_elem_of in Ex. apply list_elem_of_fmap_2. set_solver.
Qed.

Lemma ins_done h2 h4 h6 B6 tl :
  prepared (h := h) (z := z) (xs := xs1 ++ xs2) lv h2 →
  links (fwd h4) (spn h4) lv (l1 ++ e :: xs2) →
  (∀ q, bwd h4 q = bwd h2 q) → (∀ q, dat h4 q = dat h2 q) →
  view h6 (fwd h4) (spn h4) B6 (dat h4) →
  B6 (ze_ptr e) = Some (ze_ptr <$> last xs1) →
  (∀ y, head xs2 = Some y → B6 (ze_ptr y) = Some (Some (ze_ptr e))) →
  (∀ q, q ≠ ze_ptr e → (∀ y, head xs2 = Some y → q ≠ ze_ptr y) → B6 q = bwd h4 q) →
  tl = ze_ptr <$> last (xs1 ++ e :: xs2) →
  zsl_inv h6 (Zsl (zsl_header z) tl (u64 (zsl_length z + 1)) lv (zsl_alloc_size z)) (xs1 ++ e :: xs2).
Proof.
  intros Pr HL HB HD [VF VS VB VD] H1 H2 H3 ->.
  pose proof (rep_nodup _ _ _ R) as HNold.
  split; simpl; try done.
  - apply ins_nodup.
  - apply zlt_sorted_insert; [apply R|done..].
  - pose proof (rep_nan _ _ _ R) as Hn. rewrite Forall_app, ?Forall_cons in *. tauto.
  - pose proof (rep_heights _ _ _ R) as Hn. rewrite Forall_app, ?Forall_cons in *. tauto.
  - apply ins_max.
  - rewrite (rep_length _ _ _ R), wrapu_small; rewrite !length_app; simpl; rewrite ?length_app in Hsmall; lia.
  - rewrite !length_app in *; simpl; lia.
  - apply links_all. intros i. eapply links_at_ext; [by apply links_all|..]; intros; [apply VF|apply VS].
  - pose proof (rep_back _ _ _ R) as HBold.
    eapply (back_insert (bwd h) (bwd h6)); [done| | |].
    + by rewrite VB.
    + intros y Hy. rewrite VB. by apply H2.
    + intros x Hx. rewrite VB, H3, HB; [apply Pr| |].
      * intros E. apply Hp. rewrite <- E. cbn [ptrs fmap list_fmap]. right. apply list_elem_of_fmap_2.
        destruct xs2; set_solver.
      * intros y Hy. destruct xs2 as [|y' xs2']; [done|]. injection Hy as ->.
        apply (ptr_notin (hd_ent (zsl_header z) :: xs1) y xs2'); [done|]. set_solver.
  - assert (∀ x, x ∈ xs1 ++ e :: xs2 → dat h6 (ze_ptr x) = dat h (ze_ptr x)) as Hd.
    { intros x Hx. rewrite VD, HD, (pr_dat _ _ Pr); [done|].
      by apply (ptr_notin [] (hd_ent (zsl_header z)) (xs1 ++ e :: xs2)); [apply ins_nodup|]. }
    apply Forall_forall. intros x Hx. rewrite Hd by done.
    pose proof (rep_data _ _ _ R) as Hn. rewrite Forall_forall in Hn.
    assert (x = e ∨ x ∈ xs1 ++ xs2) as [->|] by set_solver; auto.
  - rewrite VD, HD, (pr_header _ _ Pr). apply R.
Qed.

Lemma insertNode_ok : ∃ h' z',
  zslInsertNode h z (ze_ptr e) = Ok (h', z') ∧ zsl_inv h' z' (xs1 ++ e :: xs2) ∧
  zsl_header z' = zsl_header z ∧ zsl_alloc_size z' = zsl_alloc_size z.
Proof.
  unfold zslInsertNode. destruct (node_score_ok (view_self h) e De) as (n & -> & Hs & _). rs.
  rewrite (node_ele_ok (view_self h) e De He). rs.
  destruct (node_info_ok (view_self h) e De He) as (off & -> & _). rs.
  cbn [levels]. rewrite Hs, Nat2Z.id, Hnan. rs.
  destruct (inv_search R (cond_gt h (ze_score e) (ze_ele e)) xs1 xs2 eq_refl) as (us & Hd & Hl & Hus).
  { apply (search_gt R); [done..| |].
    - eapply Forall_impl; [done|]. done.
    - eapply Forall_impl; [done|]. intros x Hx. unfold zlt in Hx. rewrite zlt_flip in Hx.
      unfold ekey in *. lia. }
  rewrite Hd. cbn [negb assert_]. rs.
  destruct (ins_prepare us Hl Hus) as (h2 & us2 & -> & Pr & Hl2 & Hus2). rs.
  destruct (ins_loops h2 us2 Pr Hl2 Hus2) as (h3 & h4 & -> & Hh4 & HL & HB & HD). rs. rewrite Hh4. rs.
  pose proof (inv_level R) as Hzl.
  assert (nth_update us2 0 = Ok (default (zsl_header z) (ze_ptr <$> last xs1), zlen xs1)) as ->.
  { unfold nth_update. destruct (lookup_lt_is_Some_2 us2 0) as [u Hu]; [unfold lv in *; lia|].
    rewrite Hu. f_equal. by apply (upd_ok_0 R xs1 xs2), Hus2. }
  rs. pose proof ins_prev as Hprev. cbv zeta in Hprev. rewrite Hprev.
  destruct (bwd h4 (ze_ptr e)) as [b|] eqn:Hb.
  2:{ rewrite HB, (pr_bwd _ _ Pr) in Hb. destruct De as (o & _ & Hdt). unfold bwd, dat in *.
      by destruct (h !! ze_ptr e). }
  destruct (set_backward_view (view_self h4) (ze_ptr e) b (ze_ptr <$> last xs1)) as (h5 & -> & V5); [done|].
  rs. destruct (HL l1 e xs2 0%nat eq_refl ltac:(lia)) as [Hf _].
  destruct (get_level_ok V5 _ _ _ Hf) as (s & _ & ->). rs. cbn [forward].
  pose proof (inv_heights0 R) as H0. rewrite Forall_cons, Forall_app in H0.
  rewrite hop_0 by tauto. destruct (head xs2) as [y|] eqn:Ey; cbn [fmap option_fmap option_map]; rs.
  - assert (ze_ptr y ≠ ze_ptr e) as Hye.
    { apply (ptr_notin (hd_ent (zsl_header z) :: xs1) e xs2); [apply ins_nodup|].
      destruct xs2; simplify_eq/=. set_solver. }
    assert (is_Some (bwd h4 (ze_ptr y))) as [by_ Hby].
    { rewrite HB, (pr_bwd _ _ Pr). destruct xs2 as [|y' xs2']; simplify_eq/=.
      rewrite (rep_back _ _ _ R xs1 y xs2' eq_refl). eauto. }
    destruct (set_backward_view V5 (ze_ptr y) by_ (Some (ze_ptr e))) as (h6 & -> & V6).
    { unfold upd1. by rewrite decide_False. }
    rs. eexists _, _. split; [done|]. split; [|done].
    eapply ins_done; [done..|exact V6| | | |].
    + unfold upd1. rewrite decide_False, decide_True by congruence. done.
    + intros y' Hy'. simplify_eq. unfold upd1. by rewrite decide_True.
    + intros q Hq1 Hq2. unfold upd1. by rewrite !decide_False by auto.
    + rewrite (rep_tail _ _ _ R). destruct xs2; [done|]. by rewrite !last_app_cons, last_cons_cons.
  - eexists _, _. split; [done|]. split; [|done].
    eapply ins_done; [done..|exact V5| | | |].
    + unfold upd1. by rewrite decide_True.
    + intros y' Hy'. simplify_eq.
    + intros q Hq1 _. unfold upd1. by rewrite decide_False by auto.
    + destruct xs2; [|done]. by rewrite last_snoc.
Qed.
End insert.

(** ** Frames *)

(** Two heaps agree on a node. *)
Definition same_node (h h' : zheap) (q : ptr) : Prop :=
  (∀ i, fwd h' q i = fwd h q i) ∧ (∀ i, spn h' q i = spn h q i) ∧ bwd h' q = bwd h q ∧
  dat h' q = dat h q.

Lemma same_node_lookup h h' q : h' !! q = h !! q → same_node h h' q.
Proof. intros E. unfold same_node, fwd, spn, bwd, dat. by rewrite E. Qed.

Lemma inv_frame h z xs h' :
  zsl_inv h z xs → (∀ q, q ∈ ptrs (hd_ent (zsl_header z) :: xs) → same_node h h' q) →
  zsl_inv h' z xs.
Proof.
  intros R Hq. destruct R as [? ? ? ? ? ? ? ? HL HB HD HH]. split; try done.
  - intros a e b i E He. destruct (Hq (ze_ptr e)) as (EF & ES & _).
    { rewrite E. apply list_elem_of_fmap_2. set_solver. }
    rewrite EF, ES. by apply (HL a).
  - intros a e b E. destruct (Hq (ze_ptr e)) as (_ & _ & -> & _); [|by apply (HB a e b)].
    right. apply list_elem_of_fmap_2. rewrite E. set_solver.
  - rewrite Forall_forall in *. intros e He.
    destruct (Hq (ze_ptr e)) as (_ & _ & _ & ->); [|by apply HD].
    right. by apply list_elem_of_fmap_2.
  - destruct (Hq (zsl_header z)) as (_ & _ & _ & ->); [left|done].
Qed.

Lemma inv_add_alloc h z xs d : zsl_inv h z xs → zsl_inv h (add_alloc z d) xs.
Proof. intros []. by split. Qed.

(** The nodes of the list are in the heap. *)
Lemma inv_dom h z xs q :
  zsl_inv h z xs → q ∈ ptrs (hd_ent (zsl_header z) :: xs) → is_Some (h !! q).
Proof.
  intros R [e [-> He]]%list_elem_of_fmap. apply list_elem_of_split in He as (a & b & E).
  pose proof (inv_heights0 R) as H0. rewrite E, Forall_app, Forall_cons in H0.
  destruct (rep_links _ _ _ R a e b 0%nat E ltac:(tauto)) as [HF _].
  unfold fwd in HF. destruct (h !! ze_ptr e); [eauto|done].
Qed.

(** ** [zslInsert] *)

Lemma hdr_small n : 0 ≤ n → 1 ≤ sdsHdrSize (sdsReqType n) ≤ 17.
Proof.
  intros. unfold sdsReqType. repeat destruct (_ <? _); repeat destruct (_ <=? _); vm_compute; split; congruence.
Qed.

Context `{NodeAlloc}.

Lemma createNode_ok h z xs lv s k :
  zsl_inv h z xs → (1 ≤ lv ≤ ZSKIPLIST_MAXLEVEL)%nat →
  ∃ h' us, let e := ZE (new_ptr (dom h)) s k lv us in
    zslCreateNode h z lv s k = Ok (h', add_alloc z us, ze_ptr e) ∧
    zsl_inv h' (add_alloc z us) xs ∧ data_ok (dat h' (ze_ptr e)) e ∧
    (∀ i, (i < lv)%nat → is_Some (fwd h' (ze_ptr e) i)) ∧
    ze_ptr e ∉ ptrs (hd_ent (zsl_header z) :: xs).
Proof.
  intros R Hlv. unfold zslCreateNode. set (p := new_ptr (dom h)).
  assert (h !! p = None) as Hp by apply not_elem_of_dom, new_ptr_fresh.
  set (off := sizeof_node + Z.of_nat lv * sizeof_level + sdsHdrSize (sdsReqType (zlen k))).
  set (us := usable _). set (n0 := ZNode _ _ _ _ _ _). set (h1 := <[p := n0]> h).
  unfold ZSKIPLIST_MAXLEVEL in Hlv. pose proof (hdr_small (zlen k) ltac:(lia)) as Hhdr.
  assert (0 ≤ off < 65536) as Hoff by (unfold off, sizeof_node, sizeof_level; lia).
  assert (zn_level n0 !! 0%nat = Some (junk_level 0)) as Hl0.
  { unfold n0. simpl. rewrite list_lookup_fmap, lookup_seq_lt by lia. done. }
  assert (fwd h1 p 0 = Some (forward (junk_level 0))) as Hf.
  { unfold fwd, h1. rewrite lookup_insert_eq. cbn [mbind option_bind]. by rewrite Hl0. }
  assert (dat h1 p = Some (node_data n0)) as Hd by (unfold dat, h1; by rewrite lookup_insert_eq).
  unfold zslSetNodeInfo. destruct (set_span0_view (view_self h1) p _ _
    (info_span (ZInfo off (Z.of_nat lv) 0)) Hf Hd) as (h2 & -> & V2). rs.
  pose proof V2 as [VF VS VB VD].
  pose proof (VD p) as Hd2. unfold upd1 in Hd2. rewrite decide_True in Hd2 by done.
  destruct (node_dat (view_self h2) p _ Hd2) as (n & -> & Hn). rs.
  assert (zn_eleoff n = off) as -> by (by injection Hn).
  rewrite Z.eqb_refl. cbn [assert_]. rs.
  assert (p ∉ ptrs (hd_ent (zsl_header z) :: xs)) as Hnew.
  { intros Hin. apply (inv_dom _ _ _ _ R) in Hin as [? ?]. congruence. }
  exists h2, us. cbn [ze_ptr]. split_and!; [done| | | |done].
  - apply inv_add_alloc. eapply inv_frame; [done|]. intros q Hq.
    assert (q ≠ p) as Hqp by congruence.
    assert (same_node h h1 q) as (E1 & E2 & E3 & E4).
    { apply same_node_lookup. unfold h1. by rewrite lookup_insert_ne. }
    split_and!.
    + intros i. by rewrite VF.
    + intros i. by rewrite VS, upd2_ne by auto.
    + by rewrite VB.
    + rewrite VD. unfold upd1. by rewrite decide_False.
  - exists off. split; [done|]. rewrite Hd2. cbn [node_data n0 d_score d_ele d_off d_usable d_height].
    unfold n0. simpl. by rewrite length_fmap, length_seq.
  - intros i Hi. rewrite VF. unfold fwd, h1. rewrite lookup_insert_eq. unfold n0. simpl.
    rewrite list_lookup_fmap, lookup_seq_lt by lia. simpl. eauto.
Qed.

Lemma zslRandomLevel_range rnd lv rnd' :
  zslRandomLevel rnd = Ok (lv, rnd') → (1 ≤ lv ≤ ZSKIPLIST_MAXLEVEL)%nat.
Proof.
  unfold zslRandomLevel.
  assert (∀ l r, 1 ≤ l → match zslRandomLevel_loop r l with Ok (l', _) => 1 ≤ l' | _ => True end) as Hl.
  { intros l r. revert l. induction r as [|x r IH]; intros l Hl; simpl; [done|].
    destruct (x <? threshold); [apply IH; lia|done]. }
  specialize (Hl 1 rnd ltac:(lia)). destruct (zslRandomLevel_loop rnd 1) as [[l r]|]; rs; [|done].
  unfold ZSKIPLIST_MAXLEVEL. destruct (l <? _) eqn:E; intros [= <- <-]; lia.
Qed.

(** The place of a key in a sorted sequence *)
Lemma sorted_cut (P : zent → bool) xs :
  StronglySorted zlt xs →
  (∀ x y, x ∈ xs → y ∈ xs → zlt x y → P y = true → P x = true) →
  ∃ xs1 xs2, xs = xs1 ++ xs2 ∧ Forall (λ x, P x = true) xs1 ∧ Forall (λ x, P x = false) xs2.
Proof.
  intros HS HP. induction HS as [|x xs HS IH Hx]; [by exists [], []|].
  destruct (P x) eqn:E.
  - destruct IH as (xs1 & xs2 & -> & H1 & H2); [intros; eapply HP; set_solver|].
    exists (x :: xs1), xs2. by repeat constructor.
  - exists [], (x :: xs). split_and!; [done..|]. constructor; [done|].
    rewrite Forall_forall in *. intros y Hy. destruct (P y) eqn:Ey; [|done].
    rewrite (HP x y) in E by (auto; set_solver). done.
Qed.

Lemma key_cut key xs :
  StronglySorted zlt xs →
  ∃ xs1 xs2, xs = xs1 ++ xs2 ∧ Forall (λ x, lexcmp (ekey x) key < 0) xs1 ∧
    Forall (λ x, 0 ≤ lexcmp (ekey x) key) xs2.
Proof.
  intros HS. destruct (sorted_cut (λ x, lexcmp (ekey x) key <? 0) xs HS) as (xs1 & xs2 & -> & H1 & H2).
  - intros x y _ _ Hxy Hy. apply Z.ltb_lt in Hy. apply Z.ltb_lt. by eapply lexcmp_trans.
  - exists xs1, xs2. split; [done|]. split; eapply Forall_impl; try done; simpl; lia.
Qed.

Lemma insert_ok rnd h z xs s k lv rnd' :
  zsl_rep h z xs → isnan s = false → (∀ x, x ∈ xs → ekey x ≠ zkey s k) →
  zlen xs + 1 < INT64_MAX → zslRandomLevel rnd = Ok (lv, rnd') →
  ∃ h' z' us xs1 xs2, let e := ZE (new_ptr (dom h)) s k lv us in
    xs = xs1 ++ xs2 ∧ zslInsert rnd h z s k = Ok (h', z', ze_ptr e, rnd') ∧
    zsl_rep h' z' (xs1 ++ e :: xs2).
Proof.
  intros [R Ra] Hs Hnew Hlen Hrnd. pose proof (zslRandomLevel_range _ _ _ Hrnd) as Hlv.
  unfold zslInsert. rewrite Hs, Hrnd. cbn [negb assert_]. rs.
  destruct (createNode_ok h z xs lv s k R Hlv) as (h1 & us & -> & R1 & De & Hf & Hp). rs.
  set (e := ZE _ _ _ _ _) in *.
  destruct (key_cut (zkey s k) xs) as (xs1 & xs2 & -> & H1 & H2); [apply R|].
  destruct (insertNode_ok h1 (add_alloc z us) xs1 xs2 e) as (h2 & z2 & Hi & R2 & Eh & Ea); try done.
  { apply Forall_forall. intros x Hx. rewrite Forall_forall in H2. unfold zlt. rewrite zlt_flip.
    pose proof (H2 x Hx) as Hx2. pose proof (Hnew x ltac:(set_solver)) as Hne.
    assert (lexcmp (ekey x) (zkey s k) ≠ 0) by (intros E%lexcmp_eq; done).
    unfold ekey, e in *. simpl in *. lia. }
  rewrite Hi. rs. exists h2, z2, us, xs1, xs2. split_and!; [done..|]. split; [done|].
  rewrite Ea. unfold total_usable. rewrite Eh. cbn [add_alloc zsl_alloc_size zsl_header].
  rewrite Ra. unfold total_usable, wrapu. rewrite Zplus_mod_idemp_l. f_equal.
  cbn [sum_usable foldr]. fold (sum_usable (xs1 ++ xs2)) (sum_usable (xs1 ++ e :: xs2)).
  rewrite !sum_usable_app. simpl. fold (sum_usable xs2). lia.
Qed.
End mod_.
