(* ===== verification/SklDel.v ===== *)
(** Removal from the skiplist: [zslUnlinkNode], [zslDelete], [zslUpdateScore],
    [zslFree] and the deletion of ranges. *)

From S2P Require Import Prelude Sds Skiplist SklRep SklLink SklMod.
From Stdlib Require Import SpecFloat.

Section del.
Context `{Allocator}.

(** ** [zslUnlinkNode] *)

(** The loop that lowers the level of the list *)
Lemma drop_levels_ok l hd B D : ∀ n h S zl,
  view h (fwd h) S B D → links (fwd h) S zl (hd :: l) → (n ≤ ze_height hd)%nat →
  (max_height l ≤ n)%nat → (n ≤ zl)%nat →
  ∃ h' S', drop_levels h (ze_ptr hd) n = Ok (h', max_height l) ∧
    view h' (fwd h) S' B D ∧ links (fwd h) S' (max_height l) (hd :: l).
Proof.
  assert (∀ h S zl, links (fwd h) S zl (hd :: l) → (max_height l ≤ zl)%nat →
    links (fwd h) S (max_height l) (hd :: l)) as Hdone.
  { intros h S zl HL Hzl a e b i E He. destruct (HL a e b i E He) as [H1 H2].
    split; [done|]. intros. apply H2. lia. }
  induction n as [|[|top] IH]; intros h S zl V HL Hn Hm Hz; pose proof (max_height_1 l) as H1; [lia| |].
  { exists h, S. replace (max_height l) with 1%nat by lia. split_and!; [done..|].
    replace 1%nat with (max_height l) by lia. eapply Hdone; [done|lia]. }
  cbn [drop_levels]. destruct (HL [] hd l (Datatypes.S top) eq_refl ltac:(lia)) as [Hf _].
  destruct (get_level_ok V _ _ _ Hf) as (s & _ & ->). rs. cbn [forward].
  destruct (low_split (Datatypes.S top) l) as [Hlow|(c & v & c' & El & Hc & Hv)].
  - rewrite hop_nil in * by done. cbn [fst] in *.
    pose proof (max_height_bound l (Datatypes.S top) ltac:(lia) Hlow) as Hm'.
    destruct (set_span_view V (ze_ptr hd) (Datatypes.S top) None 0) as (h1 & -> & V1); [done|lia|]. rs.
    assert (∀ p i, fwd h1 p i = fwd h p i) as EF by apply V1.
    destruct (IH h1 (updS S (ze_ptr hd) (Datatypes.S top) 0) (Datatypes.S top)) as (h' & S' & Hd & V' & L');
      try done; try lia.
    + eapply view_ext; [exact V1|done..].
    + intros a e b i E He. rewrite EF. destruct (HL a e b i E He) as [HF HS].
      split; [done|]. intros Hi. rewrite updS_ne by lia. apply HS. lia.
    + exists h', S'. split_and!; [done| |].
      * eapply view_ext; [exact V'|done..].
      * intros a e b i E He. rewrite <- EF. by apply (L' a e b i).
  - rewrite El, hop_high by done. cbn [fst]. rewrite <- El.
    pose proof (max_height_ge l v ltac:(rewrite El; set_solver)).
    exists h, S. replace (max_height l) with (Datatypes.S (Datatypes.S top)) by lia.
    split_and!; [done..|].
    replace (Datatypes.S (Datatypes.S top)) with (max_height l) by lia. eapply Hdone; [done|lia].
Qed.

Lemma dat_fwd h p d i : dat h p = Some d → (i < d_height d)%nat → is_Some (fwd h p i).
Proof.
  unfold dat, fwd. destruct (h !! p) as [n|]; [|done]. simpl. intros [= <-]. simpl. intros Hi.
  destruct (lookup_lt_is_Some_2 _ _ Hi) as [l ->]. simpl. eauto.
Qed.

Section unlink.
Context (h : zheap) (z : zskiplist) (xs1 xs2 : list zent) (e : zent) (us : list (ptr * Z)).
Hypothesis (R : zsl_inv h z (xs1 ++ e :: xs2)).
Hypothesis (Hl : (zsl_level z ≤ length us)%nat).
Hypothesis (Hus : ∀ i u, us !! i = Some u → upd_ok (hd_ent (zsl_header z) :: xs1) i u).

Let l1 := hd_ent (zsl_header z) :: xs1.

Lemma unlink_loop :
  ∃ h1, for_ (unlink_level (ze_ptr e) us) 0 (zsl_level z) h = Ok h1 ∧
    links (fwd h1) (spn h1) (zsl_level z) (l1 ++ xs2) ∧
    (∀ i, fwd h1 (ze_ptr e) i = fwd h (ze_ptr e) i) ∧
    (∀ q, bwd h1 q = bwd h q) ∧ (∀ q, dat h1 q = dat h q).
Proof.
  pose proof (rep_level _ _ _ R) as Hlev. rewrite max_height_app in Hlev. simpl in Hlev.
  destruct (for_inv (λ k h1, level_inv h (zsl_level z) (l1 ++ xs2) k h1 ∧
      ∀ i, fwd h1 (ze_ptr e) i = fwd h (ze_ptr e) i)
    (unlink_level (ze_ptr e) us) 0 (zsl_level z) h) as (h1 & Hh1 & I1 & HF).
  - intros k h1 Hk [HI HF].
    destruct (unlink_step h (zsl_level z) l1 xs2 e us) with (k := k) (h := h1) as (h2 & ? & ? & HF2);
      try done; try lia.
    + apply R.
    + apply (inv_len R l1 (e :: xs2)). done.
    + apply links_all, R.
    + exists h2. split_and!; [done..|]. intros i. by rewrite HF2.
  - split; [|done]. split; [lia|done..].
  - exists h1. split_and!; [done| |done|apply I1|apply I1].
    eapply (links_close h (zsl_level z) _ (xs1 ++ e :: xs2) (xs1 ++ xs2)); [exact I1| | |].
    + by rewrite (rep_level _ _ _ R).
    + rewrite max_height_app. lia.
    + intros i Hi. by apply (header_fwd R).
Qed.

Lemma unlink_done h3 h4 S4 B3 tl :
  view h4 (fwd h3) S4 B3 (dat h) →
  links (fwd h3) S4 (max_height (xs1 ++ xs2)) (l1 ++ xs2) →
  (∀ y, head xs2 = Some y → B3 (ze_ptr y) = bwd h (ze_ptr e)) →
  (∀ q, (∀ y, head xs2 = Some y → q ≠ ze_ptr y) → B3 q = bwd h q) →
  tl = ze_ptr <$> last (xs1 ++ xs2) →
  zsl_inv h4 (Zsl (zsl_header z) tl (u64 (zsl_length z - 1)) (max_height (xs1 ++ xs2))
                (zsl_alloc_size z)) (xs1 ++ xs2).
Proof.
  intros [VF VS VB VD] HL H1 H2 ->. pose proof (rep_nodup _ _ _ R) as HN.
  pose proof (rep_small _ _ _ R) as Hsm. rewrite length_app in Hsm. simpl in Hsm.
  split; simpl; try done.
  - by apply (nodup_mid l1 e xs2).
  - by apply (sorted_mid xs1 e xs2), (rep_sorted _ _ _ R).
  - pose proof (rep_nan _ _ _ R) as Hn. rewrite Forall_app, ?Forall_cons in *. tauto.
  - pose proof (rep_heights _ _ _ R) as Hn. rewrite Forall_app, ?Forall_cons in *. tauto.
  - rewrite (rep_length _ _ _ R), wrapu_small; rewrite !length_app; simpl; lia.
  - rewrite length_app; lia.
  - apply links_all. intros i. eapply links_at_ext; [by apply links_all|..]; intros; [apply VF|apply VS].
  - apply (back_delete (bwd h) (bwd h4) xs1 e xs2 (rep_back _ _ _ R)).
    + intros y Hy. rewrite VB. by apply H1.
    + intros x Hx. rewrite VB, H2; [done|]. intros y Hy. destruct xs2 as [|y' xs2']; [done|].
      injection Hy as ->. apply (ptr_notin (hd_ent (zsl_header z) :: xs1 ++ [e]) y xs2'); [|set_solver].
      cbn [app]. rewrite <- (assoc_L (++)). done.
  - pose proof (rep_data _ _ _ R) as Hn. rewrite Forall_forall in *. intros x Hx. rewrite VD.
    apply Hn. set_solver.
  - rewrite VD. apply R.
Qed.

Lemma unlink_ok : ∃ h' z',
  zslUnlinkNode h z (ze_ptr e) us = Ok (h', z') ∧ zsl_inv h' z' (xs1 ++ xs2) ∧
  zsl_header z' = zsl_header z ∧ zsl_alloc_size z' = zsl_alloc_size z ∧
  (∀ q, dat h' q = dat h q).
Proof.
  unfold zslUnlinkNode. destruct unlink_loop as (h1 & -> & HL & HF & HB & HD). rs.
  pose proof (rep_heights _ _ _ R) as Hh. rewrite Forall_app, Forall_cons in Hh.
  destruct (rep_links _ _ _ R l1 e xs2 0%nat eq_refl ltac:(lia)) as [Hf _]. rewrite <- HF in Hf.
  destruct (get_level_ok (view_self h1) _ _ _ Hf) as (s & _ & ->). rs. cbn [forward].
  pose proof (inv_heights0 R) as H0. rewrite Forall_cons, Forall_app, Forall_cons in H0.
  rewrite hop_0 by tauto.
  pose proof (rep_back _ _ _ R xs1 e xs2 eq_refl) as Hbe.
  destruct (inv_data R e ltac:(set_solver)) as ((off & _ & Hde) & _).
  destruct (node_ok (view_self h1) (ze_ptr e) _ _ (eq_trans (HD _) Hde) (eq_trans (HB _) Hbe))
    as (n & -> & Hnb & _). rs. rewrite Hnb.
  assert (∀ h3 B3, view h3 (fwd h1) (spn h1) B3 (dat h) →
    ∃ h4 S4, drop_levels h3 (zsl_header z) (zsl_level z) = Ok (h4, max_height (xs1 ++ xs2)) ∧
      view h4 (fwd h3) S4 B3 (dat h) ∧ links (fwd h3) S4 (max_height (xs1 ++ xs2)) (l1 ++ xs2)) as Hdrop.
  { intros h3 B3 V3. pose proof (inv_level R). pose proof (rep_level _ _ _ R) as Hlev.
    rewrite max_height_app in Hlev. simpl in Hlev.
    apply (drop_levels_ok (xs1 ++ xs2) (hd_ent (zsl_header z)) B3 (dat h) (zsl_level z) h3 (spn h1) (zsl_level z)).
    - eapply view_ext; [exact V3|symmetry; apply V3|done..].
    - apply links_all. intros i. eapply links_at_ext; [by apply links_all| |done]. intros. apply V3.
    - simpl. lia.
    - rewrite max_height_app. lia.
    - lia. }
  destruct (head xs2) as [y|] eqn:Ey; cbn [fmap option_fmap option_map]; rs.
  - assert (is_Some (bwd h1 (ze_ptr y))) as [by_ Hby].
    { rewrite HB. destruct xs2 as [|y' xs2']; simplify_eq/=.
      rewrite (rep_back _ _ _ R (xs1 ++ [e]) y xs2'); [eauto|lapp]. }
    destruct (set_backward_view (view_self h1) (ze_ptr y) by_ (ze_ptr <$> last xs1)) as (h3 & -> & V3); [done|].
    rs. destruct (Hdrop h3 (upd1 (bwd h1) (ze_ptr y) (Some (ze_ptr <$> last xs1)))) as (h4 & S4 & Hd & V4 & L4).
    { eapply view_ext; [exact V3|done..]. }
    rewrite Hd. rs. eexists _, _. split; [done|]. split_and!; [|done|done|apply V4].
    eapply (unlink_done h3); [exact V4|done| | |].
    + intros y' Hy'. simplify_eq. unfold upd1. by rewrite decide_True, Hbe.
    + intros q Hq. unfold upd1. rewrite decide_False by auto. apply HB.
    + rewrite (rep_tail _ _ _ R). destruct xs2; [done|]. by rewrite !last_app_cons, last_cons_cons.
  - destruct (Hdrop h1 (bwd h1)) as (h4 & S4 & Hd & V4 & L4).
    { eapply view_ext; [apply view_self|done..]. }
    rewrite Hd. rs. eexists _, _. split; [done|]. split_and!; [|done|done|apply V4].
    eapply (unlink_done h1); [exact V4|done| | |].
    + intros y' Hy'. simplify_eq.
    + intros q Hq. apply HB.
    + destruct xs2; [|done]. by rewrite app_nil_r.
Qed.
End unlink.

(** ** [zslDelete] *)

(** The last node of [xs1], or the header *)
Lemma last_split z xs1 :
  ∃ a x, hd_ent (zsl_header z) :: xs1 = a ++ [x] ∧
    default (zsl_header z) (ze_ptr <$> last xs1) = ze_ptr x.
Proof.
  destruct xs1 as [|x xs1 _] using rev_ind.
  - by exists [], (hd_ent (zsl_header z)).
  - exists (hd_ent (zsl_header z) :: xs1), x. by rewrite last_snoc.
Qed.

(** The node after the last one of [xs1], or after the header *)
Lemma next_node h z xs1 xs2 :
  zsl_inv h z (xs1 ++ xs2) →
  ∃ s, get_level h (default (zsl_header z) (ze_ptr <$> last xs1)) 0 =
    Ok (ZLevel (ze_ptr <$> head xs2) s).
Proof.
  intros R. pose proof (inv_heights0 R) as H0.
  destruct (last_split z xs1) as (a & x & E & ->).
  assert (hd_ent (zsl_header z) :: xs1 ++ xs2 = a ++ x :: xs2) as E2.
  { by rewrite app_comm_cons, E, <- (assoc_L (++)). }
  rewrite E2, Forall_app, Forall_cons in H0.
  destruct (rep_links _ _ _ R a x xs2 0%nat E2 ltac:(tauto)) as [HF _].
  destruct (get_level_ok (view_self h) _ _ _ HF) as (s & _ & ->).
  rewrite hop_0 by tauto. eauto.
Qed.

Lemma us_0 h z xs1 xs2 us :
  zsl_inv h z (xs1 ++ xs2) → (zsl_level z ≤ length us)%nat →
  (∀ i u, us !! i = Some u → upd_ok (hd_ent (zsl_header z) :: xs1) i u) →
  nth_update us 0 = Ok (default (zsl_header z) (ze_ptr <$> last xs1), zlen xs1).
Proof.
  intros R Hl Hus. pose proof (inv_level R). unfold nth_update.
  destruct (lookup_lt_is_Some_2 us 0) as [u Hu]; [lia|]. rewrite Hu. f_equal.
  by apply (upd_ok_0 R xs1 xs2), Hus.
Qed.

(** The search for a node of the list ends just before it. *)
Lemma find_node h z xs1 e xs2 :
  zsl_inv h z (xs1 ++ e :: xs2) →
  ∃ us, descend (zsl_fuel z) (cond_gt h (ze_score e) (ze_ele e)) h (zsl_level z) (zsl_header z) 0 []
      = Ok us ∧ length us = zsl_level z ∧
    (∀ i u, us !! i = Some u → upd_ok (hd_ent (zsl_header z) :: xs1) i u) ∧
    assert_found h us (ze_ptr e) = Ok tt.
Proof.
  intros R. destruct (sorted_mid xs1 e xs2 (rep_sorted _ _ _ R)) as (_ & H1 & H2).
  destruct (inv_data R e ltac:(set_solver)) as (_ & _ & Hn).
  destruct (inv_search R (cond_gt h (ze_score e) (ze_ele e)) xs1 (e :: xs2) eq_refl) as (us & -> & Hl & Hus).
  { apply (search_gt R); [done..|]. constructor.
    - rewrite lexcmp_refl. lia.
    - eapply Forall_impl; [done|]. intros x Hx. unfold zlt in Hx. rewrite zlt_flip in Hx.
      unfold ekey in *. lia. }
  exists us. split_and!; [done..|]. unfold assert_found.
  rewrite (us_0 h z xs1 (e :: xs2)) by (done || lia). rs.
  destruct (next_node h z xs1 (e :: xs2) R) as (s & ->). rs. cbn. by rewrite bool_decide_eq_true_2.
Qed.

Lemma free_ok h z xs e :
  zsl_inv h z xs → data_ok (dat h (ze_ptr e)) e →
  ze_ptr e ∉ ptrs (hd_ent (zsl_header z) :: xs) →
  ∃ h', zslFreeNode h z (ze_ptr e) = Ok (h', add_alloc z (- ze_usable e)) ∧
    h' = delete (ze_ptr e) h ∧ zsl_inv h' (add_alloc z (- ze_usable e)) xs.
Proof.
  intros R De Hp. unfold zslFreeNode.
  destruct (node_score_ok (view_self h) e De) as (n & -> & _ & _ & Hu). rs.
  rewrite Hu. eexists. split_and!; [done..|]. apply inv_add_alloc. eapply inv_frame; [done|].
  intros q Hq. apply same_node_lookup. rewrite lookup_delete_ne; [done|]. congruence.
Qed.

Lemma total_usable_delete z z' xs1 e xs2 :
  zsl_header z' = zsl_header z →
  u64 (total_usable z (xs1 ++ e :: xs2) + - ze_usable e) = total_usable z' (xs1 ++ xs2).
Proof.
  intros Eh. unfold total_usable. rewrite Eh. unfold wrapu. rewrite Zplus_mod_idemp_l. f_equal.
  cbn [sum_usable foldr]. fold (sum_usable (xs1 ++ xs2)) (sum_usable (xs1 ++ e :: xs2)).
  rewrite !sum_usable_app. simpl. fold (sum_usable xs2). lia.
Qed.

(** Unlinking a node and freeing it *)
Lemma unlink_free_ok h z xs1 e xs2 us :
  zsl_rep h z (xs1 ++ e :: xs2) → (zsl_level z ≤ length us)%nat →
  (∀ i u, us !! i = Some u → upd_ok (hd_ent (zsl_header z) :: xs1) i u) →
  ∃ h1 z1 h' z', zslUnlinkNode h z (ze_ptr e) us = Ok (h1, z1) ∧
    zslGetNodeElement h1 (ze_ptr e) = Ok (ze_ele e) ∧
    zslFreeNode h1 z1 (ze_ptr e) = Ok (h', z') ∧
    zsl_rep h' z' (xs1 ++ xs2) ∧ zsl_header z' = zsl_header z ∧ h' !! ze_ptr e = None.
Proof.
  intros [R Ra] Hl Hus. destruct (unlink_ok h z xs1 xs2 e us R Hl Hus) as (h1 & z1 & Hu & R1 & Eh & Ea & HD).
  destruct (inv_data R e ltac:(set_solver)) as (De & He & _). rewrite <- HD in De.
  pose proof (rep_nodup _ _ _ R) as HN. apply (nodup_mid (hd_ent (zsl_header z) :: xs1)) in HN as [HN _].
  rewrite <- Eh in HN. destruct (free_ok h1 z1 (xs1 ++ xs2) e R1 De HN) as (h2 & Hf & -> & R2).
  eexists h1, z1, _, _. split_and!; [done| |done| |done|by rewrite lookup_delete_eq].
  - by apply (node_ele_ok (view_self h1)).
  - split; [done|]. cbn [add_alloc zsl_alloc_size]. rewrite Ea, Ra. by apply total_usable_delete.
Qed.

Lemma zsl_delete_ok h z xs1 e xs2 :
  zsl_rep h z (xs1 ++ e :: xs2) →
  ∃ h' z', zslDelete h z (ze_ptr e) = Ok (h', z') ∧ zsl_rep h' z' (xs1 ++ xs2) ∧
    h' !! ze_ptr e = None.
Proof.
  intros [R Ra]. unfold zslDelete. destruct (inv_data R e ltac:(set_solver)) as (De & He & _).
  destruct (node_score_ok (view_self h) e De) as (n & -> & Hs & _). rs.
  rewrite (node_ele_ok (view_self h) e De He). rs. rewrite Hs.
  destruct (find_node h z xs1 e xs2 R) as (us & -> & Hl & Hus & Hf). rs. rewrite Hf. rs.
  destruct (unlink_free_ok h z xs1 e xs2 us) as (h1 & z1 & h' & z' & -> & _ & Hfr & HR & _ & Hn);
    [done|lia|done|]. rs. eauto.
Qed.

(** ** Deletion of ranges *)

(** The loop removes the nodes [ds] that follow [xs1], and stops at [ys]. *)
Lemma delete_loop_ok test (T : zent → Z → bool) us xs1 ys :
  (∀ h z x rest k, zsl_inv h z (xs1 ++ x :: rest) → test h (ze_ptr x) k = Ok (T x k)) →
  ∀ ds fuel h z d k,
  zsl_rep h z (xs1 ++ ds ++ ys) → (length ds ≤ fuel)%nat → (zsl_level z ≤ length us)%nat →
  (∀ i u, us !! i = Some u → upd_ok (hd_ent (zsl_header z) :: xs1) i u) →
  (∀ i x, ds !! i = Some x → T x (k + Z.of_nat i) = true) →
  (∀ y, head ys = Some y → T y (k + zlen ds) = false) →
  0 ≤ k → k + zlen ds < 2 ^ 64 →
  ∃ h' z', delete_loop fuel test us h z d (ze_ptr <$> head (ds ++ ys)) k =
      Ok (h', z', foldl zdict_delete d (ze_ele <$> ds), k + zlen ds) ∧
    zsl_rep h' z' (xs1 ++ ys).
Proof.
  intros Htest. induction ds as [|x ds IH]; intros fuel h z d k HR Hf Hl Hus HT HF Hk Hk2.
  - exists h, z. rewrite Z.add_0_r in *. split; [|done]. cbn [app].
    destruct ys as [|y ys]; [by destruct fuel|].
    cbn [head fmap option_fmap option_map]. pose proof HR as [R _].
    destruct fuel; cbn [delete_loop]; rewrite (Htest h z y ys k R), HF by done; done.
  - destruct fuel as [|fuel]; [cbn in Hf; lia|]. cbn [app head fmap option_fmap option_map delete_loop].
    pose proof HR as [R _]. cbn [app] in R. rewrite (Htest h z x (ds ++ ys) k R).
    pose proof (HT 0%nat x eq_refl) as HT0. rewrite Z.add_0_r in HT0. rewrite HT0. rs.
    destruct (next_node h z (xs1 ++ [x]) (ds ++ ys)) as (s & Hn).
    { by rewrite <- (assoc_L (++)). }
    rewrite last_snoc in Hn. change (default _ _) with (ze_ptr x) in Hn. rewrite Hn. rs. cbn [forward].
    destruct (unlink_free_ok h z xs1 x (ds ++ ys) us) as (h1 & z1 & h2 & z2 & -> & Hele & Hfr & HR2 & Eh & Hnone);
      [done..|]. rs. rewrite Hele. rs. rewrite Hfr. rs. cbn [length] in *.
    rewrite wrapu_small by lia.
    destruct (IH fuel h2 z2 (zdict_delete d (ze_ele x)) (k + 1)) as (h' & z' & Hloop & HR'); try done.
    + lia.
    + destruct HR2 as [R2 _]. rewrite (rep_level _ _ _ R2). rewrite (rep_level _ _ _ R) in Hl.
      rewrite !max_height_app in *. simpl in Hl. rewrite max_height_app in Hl. lia.
    + by rewrite Eh.
    + intros i y Hy. replace (k + 1 + Z.of_nat i) with (k + Z.of_nat (S i)) by lia. by apply HT.
    + intros y Hy. replace (k + 1 + zlen ds) with (k + Z.of_nat (S (length ds))) by lia. by apply HF.
    + lia.
    + lia.
    + exists h', z'. split; [|done]. rewrite Hloop.
      by replace (k + Z.of_nat (S (length ds))) with (k + 1 + zlen ds) by lia.
Qed.

(** [delete_range] after a search that ends after [xs1] *)
Lemma delete_from_ok cond test (T : zent → Z → bool) us xs1 ds ys h z d :
  zsl_rep h z (xs1 ++ ds ++ ys) →
  descend (zsl_fuel z) cond h (zsl_level z) (zsl_header z) 0 [] = Ok us → length us = zsl_level z →
  (∀ i u, us !! i = Some u → upd_ok (hd_ent (zsl_header z) :: xs1) i u) →
  (∀ h z x rest k, zsl_inv h z (xs1 ++ x :: rest) → test (zlen xs1) h (ze_ptr x) k = Ok (T x k)) →
  (∀ i x, ds !! i = Some x → T x (Z.of_nat i) = true) →
  (∀ y, head ys = Some y → T y (zlen ds) = false) →
  ∃ h' z', delete_range cond test h z d =
      Ok (h', z', foldl zdict_delete d (ze_ele <$> ds), zlen ds) ∧ zsl_rep h' z' (xs1 ++ ys).
Proof.
  intros HR Hd Hl Hus Htest HT HF. pose proof HR as [R _]. unfold delete_range. rewrite Hd. rs.
  rewrite (us_0 h z xs1 (ds ++ ys)) by (done || lia). rs.
  destruct (next_node h z xs1 (ds ++ ys) R) as (s & ->). rs. cbn [forward].
  destruct (delete_loop_ok (test (zlen xs1)) T us xs1 ys Htest ds (zsl_fuel z) h z d 0)
    as (h' & z' & Hloop & HR'); try done.
  - unfold zsl_fuel. rewrite (rep_length _ _ _ R), !length_app. lia.
  - lia.
  - pose proof (rep_small _ _ _ R) as Hs. rewrite !length_app in Hs. lia.
  - exists h', z'. split; [|done]. by rewrite Hloop.
Qed.

Lemma zsl_delete_range_ok cond test (T : zent → Z → bool) xs1 ds ys h z d :
  zsl_rep h z (xs1 ++ ds ++ ys) →
  cond_ok cond (zsl_level z) (hd_ent (zsl_header z) :: xs1) (ds ++ ys) →
  (∀ h z x rest k, zsl_inv h z (xs1 ++ x :: rest) → test (zlen xs1) h (ze_ptr x) k = Ok (T x k)) →
  (∀ i x, ds !! i = Some x → T x (Z.of_nat i) = true) →
  (∀ y, head ys = Some y → T y (zlen ds) = false) →
  ∃ h' z', delete_range cond test h z d =
      Ok (h', z', foldl zdict_delete d (ze_ele <$> ds), zlen ds) ∧ zsl_rep h' z' (xs1 ++ ys).
Proof.
  intros HR C. pose proof HR as [R _].
  destruct (inv_search R cond xs1 (ds ++ ys) eq_refl C) as (us & Hd & Hl & Hus). by apply (delete_from_ok cond test T us).
Qed.

Lemma cond_fwd_ok h z xs1 xs2 test (P : zent → bool) :
  zsl_inv h z (xs1 ++ xs2) →
  (∀ x, x ∈ xs1 ++ xs2 → test (ze_ptr x) = Ok (P x)) →
  Forall (λ x, P x = true) xs1 → Forall (λ x, P x = false) xs2 →
  cond_ok (cond_fwd h test) (zsl_level z) (hd_ent (zsl_header z) :: xs1) xs2.
Proof.
  intros R Ht H1 H2. destruct (inv_cut R xs1 xs2 eq_refl) as (L & H0 & Hlen & _).
  apply (cond_pred (view_self h) _ _ _ L H0 Hlen _ P); [| |done..].
  - intros x i r Hf. unfold cond_fwd.
    by destruct (get_level_ok (view_self h) _ _ _ Hf) as (? & _ & ->).
  - intros x i r v Hv Hf. unfold cond_fwd.
    destruct (get_level_ok (view_self h) _ _ _ Hf) as (? & _ & ->). rs. cbn [forward tail] in *. auto.
Qed.

(** A range is given by two tests: the nodes before it fail [gte], those after
    it fail [lte]. *)
Definition inside (gte lte : zent → bool) (b : bool) (x : zent) : Prop := gte x && lte x = b.
#[export] Instance inside_dec gte lte b x : Decision (inside gte lte b x).
Proof. unfold inside. apply _. Defined.

Lemma filter_inside gte lte b xs :
  Forall (inside gte lte b) xs → ∀ b', filter (inside gte lte b') xs = if decide (b = b') then xs else [].
Proof.
  intros HF b'. induction HF as [|x xs Hx _ IH]; [by destruct (decide _)|].
  unfold inside in Hx. destruct (decide (b = b')) as [->|].
  - by rewrite filter_cons_True, IH.
  - rewrite filter_cons_False, IH; [done|]. unfold inside. congruence.
Qed.

Lemma range_cut (gte lte : zent → bool) xs :
  StronglySorted zlt xs →
  (∀ x y, x ∈ xs → y ∈ xs → zlt x y → gte x = true → gte y = true) →
  (∀ x y, x ∈ xs → y ∈ xs → zlt x y → lte y = true → lte x = true) →
  ∃ xs1 ds ys, xs = xs1 ++ ds ++ ys ∧
    xs1 ++ ys = filter (inside gte lte false) xs ∧ ds = filter (inside gte lte true) xs ∧
    Forall (λ x, gte x = false) xs1 ∧ Forall (λ x, gte x = true) (ds ++ ys) ∧
    Forall (λ x, lte x = true) ds ∧ Forall (λ x, lte x = false) ys.
Proof.
  intros HS Hg Hl.
  destruct (sorted_cut (λ x, negb (gte x)) xs HS) as (xs1 & xs2 & -> & H1 & H2).
  { intros x y Hx Hy Hxy Hg'. destruct (gte x) eqn:E; [|done]. by rewrite (Hg x y) in Hg'. }
  apply StronglySorted_app in HS as (_ & _ & HS2).
  destruct (sorted_cut lte xs2 HS2) as (ds & ys & -> & H3 & H4);
    [intros; eapply Hl; set_solver|].
  exists xs1, ds, ys. rewrite !filter_app.
  assert (Forall (λ x, gte x = false) xs1) as H1'.
  { eapply Forall_impl; [done|]. intros x Hx. simpl in Hx. by destruct (gte x). }
  assert (Forall (λ x, gte x = true) (ds ++ ys)) as H2'.
  { eapply Forall_impl; [done|]. intros x Hx. simpl in Hx. by destruct (gte x). }
  assert (Forall (inside gte lte false) xs1) as F1.
  { eapply Forall_impl; [exact H1'|]. unfold inside. by intros x ->. }
  assert (Forall (inside gte lte false) ys) as F2.
  { eapply Forall_impl; [exact H4|]. unfold inside. intros x ->. apply andb_false_r. }
  assert (Forall (inside gte lte true) ds) as F3.
  { apply Forall_app in H2' as [H2' _]. rewrite Forall_forall in *. unfold inside.
    intros x Hx. rewrite H2', H3; done. }
  rewrite !(filter_inside _ _ _ _ F1), !(filter_inside _ _ _ _ F2), !(filter_inside _ _ _ _ F3).
  split_and!; try done. by rewrite app_nil_r.
Qed.

(** Deletion of a range given by tests on the nodes *)
Lemma delete_tests_ok (gte lte : zent → bool) out lt h z xs d :
  zsl_rep h z xs →
  (∀ x y, x ∈ xs → y ∈ xs → zlt x y → gte x = true → gte y = true) →
  (∀ x y, x ∈ xs → y ∈ xs → zlt x y → lte y = true → lte x = true) →
  (∀ x, x ∈ xs → out (ze_ptr x) = Ok (negb (gte x))) →
  (∀ h z l x, zsl_inv h z l → x ∈ l → lt h (ze_ptr x) = Ok (lte x)) →
  ∃ h' z', delete_range (cond_fwd h out) (λ _ h x _, lt h x) h z d =
      Ok (h', z', foldl zdict_delete d (ze_ele <$> filter (inside gte lte true) xs),
          zlen (filter (inside gte lte true) xs)) ∧
    zsl_rep h' z' (filter (inside gte lte false) xs).
Proof.
  intros HR Hg Hl Hout Hlt. pose proof HR as [R _].
  destruct (range_cut gte lte xs) as (xs1 & ds & ys & -> & E1 & E2 & H1 & H2 & H3 & H4);
    [apply (rep_sorted _ _ _ R)|exact Hg|exact Hl|].
  rewrite <- E1, <- E2.
  destruct (zsl_delete_range_ok (cond_fwd h out) (λ _ h x _, lt h x) (λ x _, lte x) xs1 ds ys h z d)
    as (h' & z' & Hd & HR'); try done; eauto.
  - apply (cond_fwd_ok h z xs1 (ds ++ ys) _ (λ x, negb (gte x))); try done.
    + eapply Forall_impl; [exact H1|]. by intros x ->.
    + eapply Forall_impl; [exact H2|]. by intros x ->.
  - intros h0 z0 x rest k R0. eapply Hlt; [done|]. set_solver.
  - intros i x Hx. rewrite Forall_lookup in H3. eauto.
  - intros y Hy. destruct ys as [|y' ys]; [done|]. injection Hy as ->. by apply Forall_cons in H4 as [? _].
Qed.

(** ** The orders of the scores and of the elements *)

Lemma lexcmp_le_trans a b c : lexcmp a b ≤ 0 → lexcmp b c ≤ 0 → lexcmp a c ≤ 0.
Proof.
  intros H1 H2. destruct (decide (lexcmp a b = 0)) as [->%lexcmp_eq|]; [done|].
  destruct (decide (lexcmp b c = 0)) as [<-%lexcmp_eq|]; [done|].
  pose proof (lexcmp_trans a b c). lia.
Qed.

Lemma lexcmp_lt_le_trans a b c : lexcmp a b < 0 → lexcmp b c ≤ 0 → lexcmp a c < 0.
Proof.
  intros H1 H2. destruct (decide (lexcmp b c = 0)) as [<-%lexcmp_eq|]; [done|].
  pose proof (lexcmp_trans a b c). lia.
Qed.

Lemma lexcmp_le_lt_trans a b c : lexcmp a b ≤ 0 → lexcmp b c < 0 → lexcmp a c < 0.
Proof.
  intros H1 H2. destruct (decide (lexcmp a b = 0)) as [->%lexcmp_eq|]; [done|].
  pose proof (lexcmp_trans a b c). lia.
Qed.

Lemma zlt_score x y : zlt x y → lexcmp (fkey (ze_score x)) (fkey (ze_score y)) ≤ 0.
Proof.
  unfold zlt, ekey, zkey. rewrite lexcmp_app by (by rewrite !length_fkey).
  destruct (_ =? 0) eqn:E; lia.
Qed.

Lemma gte_mono r x y :
  isnan (zr_min r) = false → isnan (ze_score x) = false → isnan (ze_score y) = false →
  zlt x y → zslValueGteMin (ze_score x) r = true → zslValueGteMin (ze_score y) r = true.
Proof.
  intros Hr Hx Hy Hxy%zlt_score. unfold zslValueGteMin. destruct (zr_minex r).
  - rewrite !SFltb_key, !Z.ltb_lt by done. intros. by eapply lexcmp_lt_le_trans.
  - rewrite !SFleb_key, !Z.leb_le by done. intros. by eapply lexcmp_le_trans.
Qed.

Lemma lte_mono r x y :
  isnan (zr_max r) = false → isnan (ze_score x) = false → isnan (ze_score y) = false →
  zlt x y → zslValueLteMax (ze_score y) r = true → zslValueLteMax (ze_score x) r = true.
Proof.
  intros Hr Hx Hy Hxy%zlt_score. unfold zslValueLteMax. destruct (zr_maxex r).
  - rewrite !SFltb_key, !Z.ltb_lt by done. intros. by eapply lexcmp_le_lt_trans.
  - rewrite !SFleb_key, !Z.leb_le by done. intros. by eapply lexcmp_le_trans.
Qed.

(** Elements of the same score are ordered by their bytes. *)
Definition same_scores (xs : list zent) : Prop :=
  ∀ x y, x ∈ xs → y ∈ xs → fkey (ze_score x) = fkey (ze_score y).

Lemma zlt_ele x y :
  fkey (ze_score x) = fkey (ze_score y) → zlt x y → sdscmp (ze_ele x) (ze_ele y) < 0.
Proof.
  unfold zlt, ekey, zkey. intros ->. rewrite lexcmp_app_eq, <- sdscmp_lex. lia.
Qed.

Lemma sdscmp_trans a b c :
  sdscmp a b ≤ 0 → sdscmp b c ≤ 0 →
  sdscmp a c ≤ 0 ∧ (sdscmp a b < 0 ∨ sdscmp b c < 0 → sdscmp a c < 0).
Proof.
  pose proof (sdscmp_lex a b). pose proof (sdscmp_lex b c). pose proof (sdscmp_lex a c).
  pose proof (lexcmp_le_trans a b c). pose proof (lexcmp_lt_le_trans a b c).
  pose proof (lexcmp_le_lt_trans a b c). lia.
Qed.

Lemma sdscmp_opp a b : Z.sgn (sdscmp b a) = - Z.sgn (sdscmp a b).
Proof. rewrite !sdscmp_lex. apply lexcmp_opp. Qed.

Lemma lex_gte_mono r a b :
  sdscmp a b < 0 → zslLexValueGteMin a r = true → zslLexValueGteMin b r = true.
Proof.
  intros Hab. unfold zslLexValueGteMin, sdscmplex. destruct (zl_min r) as [| |m], (zl_minex r); try done.
  - pose proof (sdscmp_trans m a b). pose proof (sdscmp_opp a m). pose proof (sdscmp_opp b m). lia.
  - pose proof (sdscmp_trans m a b). pose proof (sdscmp_opp a m). pose proof (sdscmp_opp b m). lia.
Qed.

Lemma lex_lte_mono r a b :
  sdscmp a b < 0 → zslLexValueLteMax b r = true → zslLexValueLteMax a r = true.
Proof.
  intros Hab. unfold zslLexValueLteMax, sdscmplex. destruct (zl_max r) as [| |m], (zl_maxex r); try done.
  - pose proof (sdscmp_trans a b m). lia.
  - pose proof (sdscmp_trans a b m). lia.
Qed.

End del.
