(* ===== verification/SklUpd.v ===== *)
(** Creation, score updates and destruction of skiplists, and the theorems on
    the operations that modify one. *)

From S2P Require Import Prelude Sds Skiplist SklRep SklLink SklMod SklDel.
From Stdlib Require Import SpecFloat.

(** ** Sequences that differ in the scores *)

Definition similar (x y : zent) : Prop := ze_ptr x = ze_ptr y ∧ ze_height x = ze_height y.

Lemma similar_refl l : Forall2 similar l l.
Proof. induction l; constructor; [done|done]. Qed.

Lemma similar_hop i l l' : Forall2 similar l l' → hop i l = hop i l'.
Proof. induction 1 as [|x y l l' [Hp Hh] _ IH]; simpl; [done|]. by rewrite Hp, Hh, IH. Qed.

Lemma similar_last l l' : Forall2 similar l l' → ze_ptr <$> last l = ze_ptr <$> last l'.
Proof.
  induction 1 as [|x y l l' [Hp Hh] HF IH]; [done|]. destruct HF as [|x' y' l l' ? ?].
  - simpl. by rewrite Hp.
  - rewrite !last_cons_cons. done.
Qed.

Lemma similar_ptrs l l' : Forall2 similar l l' → ptrs l = ptrs l'.
Proof. induction 1 as [|x y l l' [Hp Hh] _ IH]; [done|]. unfold ptrs in *. cbn [fmap list_fmap]. by rewrite Hp, IH. Qed.

Lemma similar_max l l' : Forall2 similar l l' → max_height l = max_height l'.
Proof. induction 1 as [|x y l l' [Hp Hh] _ IH]; [done|]. simpl. by rewrite Hh, IH. Qed.

Lemma similar_links F S zl l l' : Forall2 similar l l' → links F S zl l → links F S zl l'.
Proof.
  intros HF HL a e b i E He. rewrite E in HF.
  apply Forall2_app_inv_r in HF as (a0 & r & _ & Hr & ->).
  apply Forall2_cons_inv_r in Hr as (e0 & b0 & [Hp Hh] & Hb & ->).
  rewrite <- Hp, <- (similar_hop i b0 b) by done. apply (HL a0 e0 b0 i); [done|lia].
Qed.

Lemma similar_back B l l' : Forall2 similar l l' → back_ok B l → back_ok B l'.
Proof.
  intros HF HB a e b E. rewrite E in HF.
  apply Forall2_app_inv_r in HF as (a0 & r & Ha & Hr & ->).
  apply Forall2_cons_inv_r in Hr as (e0 & b0 & [Hp Hh] & Hb & ->).
  rewrite <- Hp, <- (similar_last a0 a) by done. by apply (HB a0 e0 b0).
Qed.

Section upd.
Context `{Allocator}.

Definition with_score (e : zent) (s : double) : zent :=
  ZE (ze_ptr e) s (ze_ele e) (ze_height e) (ze_usable e).

(** Writing the score of a node keeps the order of the list. *)
Lemma set_score_inv h z xs1 e xs2 s h' :
  zsl_inv h z (xs1 ++ e :: xs2) → isnan s = false →
  (∃ d, dat h (ze_ptr e) = Some d ∧
    view h' (fwd h) (spn h) (bwd h)
      (upd1 (dat h) (ze_ptr e) (Some (ZData s (d_ele d) (d_off d) (d_usable d) (d_height d) (d_info d))))) →
  Forall (λ x, zlt x (with_score e s)) xs1 → Forall (zlt (with_score e s)) xs2 →
  zsl_inv h' z (xs1 ++ with_score e s :: xs2).
Proof.
  intros R Hs (d & Hd & [VF VS VB VD]) H1 H2.
  assert (Forall2 similar (xs1 ++ e :: xs2) (xs1 ++ with_score e s :: xs2)) as HF.
  { apply Forall2_app; [apply similar_refl|]. constructor; [done|apply similar_refl]. }
  assert (Forall2 similar (hd_ent (zsl_header z) :: xs1 ++ e :: xs2)
            (hd_ent (zsl_header z) :: xs1 ++ with_score e s :: xs2)) as HF2 by (by constructor).
  pose proof (rep_nodup _ _ _ R) as HN.
  pose proof (nodup_mid (hd_ent (zsl_header z) :: xs1) e xs2) as HN2. cbn [app] in HN2.
  apply HN2 in HN as [HNe _]. clear HN2.
  split.
  - rewrite <- (similar_ptrs _ _ HF2). apply R.
  - apply zlt_sorted_insert; [|done..]. by apply (sorted_mid xs1 e xs2), (rep_sorted _ _ _ R).
  - pose proof (rep_nan _ _ _ R) as Hn. rewrite Forall_app, ?Forall_cons in *. tauto.
  - pose proof (rep_heights _ _ _ R) as Hn. rewrite Forall_app, ?Forall_cons in *. tauto.
  - rewrite <- (similar_max _ _ HF). apply R.
  - rewrite (rep_length _ _ _ R), !length_app. done.
  - pose proof (rep_small _ _ _ R) as Hsm. rewrite length_app in *. done.
  - rewrite (rep_tail _ _ _ R). by apply similar_last.
  - apply (similar_links _ _ _ _ _ HF2). apply links_all. intros i.
    eapply links_at_ext; [apply links_all, R|..]; intros; [apply VF|apply VS].
  - apply (similar_back _ _ _ HF). intros a x b E. rewrite VB. by apply (rep_back _ _ _ R a x b).
  - pose proof (rep_data _ _ _ R) as Hdt. rewrite Forall_app, Forall_cons in *.
    assert (∀ x, x ∈ xs1 ++ xs2 → dat h' (ze_ptr x) = dat h (ze_ptr x)) as Hsame.
    { intros x Hx. rewrite VD. unfold upd1. rewrite decide_False; [done|]. intros E.
      apply HNe. rewrite <- E. unfold ptrs. rewrite fmap_cons. right. by apply list_elem_of_fmap_2. }
    destruct Hdt as (Ha & (off & Hoff & He) & Hb). rewrite !Forall_forall in *.
    split_and!; [intros x Hx; rewrite Hsame by set_solver; auto| |intros x Hx; rewrite Hsame by set_solver; auto].
    exists off. split; [done|]. rewrite He in Hd. injection Hd as <-.
    cbn [with_score ze_ptr]. rewrite VD. unfold upd1. by rewrite decide_True.
  - rewrite VD. unfold upd1. rewrite decide_False; [apply R|]. intros E. apply HNe. rewrite <- E. left.
Qed.

(** ** [zslUpdateScore] *)

(** The test of the fast path: the neighbours are on the right sides. *)
Lemma stays_sorted h z xs1 e xs2 s :
  zsl_inv h z (xs1 ++ e :: xs2) → isnan s = false →
  (∀ x, last xs1 = Some x → SFltb (ze_score x) s = true) →
  (∀ y, head xs2 = Some y → SFltb s (ze_score y) = true) →
  Forall (λ x, zlt x (with_score e s)) xs1 ∧ Forall (zlt (with_score e s)) xs2.
Proof.
  intros R Hs Hb Ha. destruct (sorted_mid xs1 e xs2 (rep_sorted _ _ _ R)) as (HS & _ & _).
  pose proof (rep_nan _ _ _ R) as Hn. rewrite Forall_app, Forall_cons in Hn.
  assert (∀ x y, isnan (ze_score x) = false → isnan (ze_score y) = false →
    SFltb (ze_score x) (ze_score y) = true → zlt x y) as Hlt.
  { intros x y Hx Hy Hxy. rewrite SFltb_key, Z.ltb_lt in Hxy by done. unfold zlt, ekey, zkey.
    rewrite lexcmp_app by (by rewrite !length_fkey). destruct (_ =? 0) eqn:E; lia. }
  apply StronglySorted_app in HS as (_ & HS1 & HS2). split.
  - destruct xs1 as [|x xs1 _] using rev_ind; [done|].
    assert (zlt x (with_score e s)) as Hx.
    { apply Hlt; [|done|apply Hb, last_snoc]. rewrite Forall_app, Forall_cons in Hn. tauto. }
    apply StronglySorted_app in HS1 as (Hx1 & _). rewrite Forall_app, Forall_singleton. split; [|done].
    apply Forall_forall. intros w Hw. eapply zlt_trans; [|done]. apply Hx1; set_solver.
  - destruct xs2 as [|y xs2]; [done|]. rewrite Forall_cons in Hn.
    assert (zlt (with_score e s) y) as Hy by (apply Hlt; [done|tauto|by apply Ha]).
    apply StronglySorted_inv in HS2 as [_ HS2]. constructor; [done|].
    eapply Forall_impl; [done|]. intros w Hw. by eapply zlt_trans.
Qed.

(** The slow path: the node is unlinked, its score is written, and it is linked
    again. *)
Lemma update_slow h z xs1 e xs2 s us off :
  zsl_rep h z (xs1 ++ e :: xs2) → isnan s = false →
  (∀ x, x ∈ xs1 ++ xs2 → ekey x ≠ zkey s (ze_ele e)) →
  0 ≤ off < 65536 →
  dat h (ze_ptr e) = Some (ZData (ze_score e) (ze_ele e) off (ze_usable e) (ze_height e)
                (Some (info_span (ZInfo off (Z.of_nat (ze_height e)) 0)))) →
  (zsl_level z ≤ length us)%nat →
  (∀ i u, us !! i = Some u → upd_ok (hd_ent (zsl_header z) :: xs1) i u) →
  ∃ h1 z1 h2 h' z' ys1 ys2, xs1 ++ xs2 = ys1 ++ ys2 ∧
    zslUnlinkNode h z (ze_ptr e) us = Ok (h1, z1) ∧ set_score h1 (ze_ptr e) s = Ok h2 ∧
    zslInsertNode h2 z1 (ze_ptr e) = Ok (h', z') ∧ zsl_rep h' z' (ys1 ++ with_score e s :: ys2).
Proof.
  intros [R Ra] Hs Hnew Hoff Hde Hl Hus. destruct (inv_data R e ltac:(set_solver)) as (_ & He & _).
  destruct (unlink_ok h z xs1 xs2 e us R Hl Hus) as (h1 & z1 & Hu & R1 & Eh & Ea & HD).
  destruct (set_score_view (view_self h1) (ze_ptr e) _ s (eq_trans (HD _) Hde)) as (h2 & Hsc & V2).
  pose proof (rep_nodup _ _ _ R) as HN. apply (nodup_mid (hd_ent (zsl_header z) :: xs1)) in HN as [HN _].
  assert (zsl_inv h2 z1 (xs1 ++ xs2)) as R2.
  { eapply inv_frame; [exact R1|]. intros q Hq. rewrite Eh in Hq. split_and!; [apply V2..|].
    rewrite (view_dat _ _ _ _ _ V2). unfold upd1. rewrite decide_False; [done|]. intros ->. by apply HN. }
  destruct (key_cut (zkey s (ze_ele e)) (xs1 ++ xs2)) as (ys1 & ys2 & E & H1 & H2); [apply R1|].
  pose proof (view_dat _ _ _ _ _ V2 (ze_ptr e)) as Hd2. unfold upd1 in Hd2. rewrite decide_True in Hd2 by done.
  rewrite E in R2. destruct (insertNode_ok h2 z1 ys1 ys2 (with_score e s)) as (h3 & z3 & Hi & R3 & Eh3 & Ea3);
    try done.
  - by exists off.
  - rewrite Eh, <- E. done.
  - intros i Hi. by eapply dat_fwd.
  - apply Forall_forall. intros x Hx. rewrite Forall_forall in H2. unfold zlt. rewrite zlt_flip.
    pose proof (H2 x Hx) as Hx2. pose proof (Hnew x ltac:(rewrite E; set_solver)) as Hne.
    assert (lexcmp (ekey x) (zkey s (ze_ele e)) ≠ 0) by (intros E'%lexcmp_eq; done).
    unfold ekey in *. simpl in *. lia.
  - pose proof (rep_small _ _ _ R) as Hsm. rewrite <- E. rewrite length_app in *. simpl in Hsm. lia.
  - exists h1, z1, h2, h3, z3, ys1, ys2. split_and!; [done..|]. split; [done|].
    rewrite Ea3, Ea, Ra. unfold total_usable. rewrite Eh3, Eh. f_equal. f_equal.
    cbn [sum_usable foldr]. f_equal.
    fold (sum_usable (xs1 ++ e :: xs2)) (sum_usable (ys1 ++ with_score e s :: ys2)).
    assert (sum_usable (xs1 ++ xs2) = sum_usable (ys1 ++ ys2)) as E' by (by rewrite E).
    rewrite !sum_usable_app in *. simpl. fold (sum_usable xs2) (sum_usable ys2). lia.
Qed.

(** The test of the code, and what it means *)
Lemma stays_test h z xs1 e xs2 s :
  zsl_inv h z (xs1 ++ e :: xs2) →
  ∃ b1 b2 : bool,
    (match ze_ptr <$> last xs1 with
     | None => Ok true
     | Some b => nb ← node h b; Ok (SFltb (zn_score nb) s)
     end) = Ok b1 ∧
    (if b1 then match ze_ptr <$> head xs2 with
     | None => Ok true
     | Some f => nf ← node h f; Ok (SFltb s (zn_score nf))
     end else Ok false) = Ok b2 ∧
    (b2 = true → (∀ x, last xs1 = Some x → SFltb (ze_score x) s = true) ∧
                 (∀ y, head xs2 = Some y → SFltb s (ze_score y) = true)).
Proof.
  intros R.
  assert (∀ x, x ∈ xs1 ++ e :: xs2 → ∃ n, node h (ze_ptr x) = Ok n ∧ zn_score n = ze_score x) as Hscore.
  { intros x Hx. destruct (inv_data R x Hx) as (Dx & _).
    destruct (node_score_ok (view_self h) x Dx) as (nx & ? & ? & _). eauto. }
  exists (match last xs1 with Some x => SFltb (ze_score x) s | None => true end).
  exists (match last xs1 with Some x => SFltb (ze_score x) s | None => true end &&
          match head xs2 with Some y => SFltb s (ze_score y) | None => true end).
  split_and!.
  - destruct (last xs1) as [x|] eqn:Ex; [|done]. cbn [fmap option_fmap option_map].
    apply last_Some_elem_of in Ex. destruct (Hscore x ltac:(set_solver)) as (nx & -> & Hx). rs.
    by rewrite Hx.
  - destruct (match last xs1 with Some x => _ | None => _ end); [|done].
    destruct xs2 as [|y xs2']; [done|]. cbn [head fmap option_fmap option_map].
    destruct (Hscore y ltac:(set_solver)) as (ny & -> & Hy). rs. by rewrite Hy.
  - intros [Hb1 Hb2]%andb_true_iff. split; intros ? Hx; by rewrite Hx in *.
Qed.

Lemma update_ok h z xs1 e xs2 s :
  zsl_rep h z (xs1 ++ e :: xs2) → isnan s = false →
  (∀ x, x ∈ xs1 ++ xs2 → ekey x ≠ zkey s (ze_ele e)) →
  ∃ h' z' ys1 ys2, xs1 ++ xs2 = ys1 ++ ys2 ∧ zslUpdateScore h z (ze_ptr e) s = Ok (h', z') ∧
    zsl_rep h' z' (ys1 ++ with_score e s :: ys2).
Proof.
  intros HR Hs Hnew. pose proof HR as [R Ra]. unfold zslUpdateScore.
  destruct (inv_data R e ltac:(set_solver)) as (De & He & Hn). pose proof De as (off & Hoff & Hde).
  pose proof (rep_back _ _ _ R xs1 e xs2 eq_refl) as Hbe.
  destruct (node_ok (view_self h) (ze_ptr e) _ _ Hde Hbe) as (n & -> & Hnb & Hnd). rs.
  destruct (next_node h z (xs1 ++ [e]) xs2) as (sp & Hnx); [by rewrite <- (assoc_L (++))|].
  rewrite last_snoc in Hnx. change (default _ _) with (ze_ptr e) in Hnx. rewrite Hnx. rs. cbn [forward].
  rewrite Hnb. assert (zn_score n = ze_score e) as -> by (by injection Hnd).
  destruct (stays_test h z xs1 e xs2 s R) as (b1 & b2 & -> & Hb2 & Hb). rs. rewrite Hb2. rs.
  destruct b2.
  - destruct (Hb eq_refl) as [Hb1 Ha]. destruct (stays_sorted h z xs1 e xs2 s R Hs Hb1 Ha) as [H1 H2].
    destruct (set_score_view (view_self h) (ze_ptr e) _ s Hde) as (h' & -> & V'). rs.
    exists h', z, xs1, xs2. split_and!; [done..|]. split; [eapply set_score_inv; eauto|].
    rewrite Ra. unfold total_usable. f_equal. f_equal. cbn [sum_usable foldr]. f_equal.
    fold (sum_usable (xs1 ++ e :: xs2)) (sum_usable (xs1 ++ with_score e s :: xs2)).
    by rewrite !sum_usable_app.
  - rewrite (node_ele_ok (view_self h) e De He). rs.
    destruct (find_node h z xs1 e xs2 R) as (us & -> & Hl & Hus & Hf). rs. rewrite Hf. rs.
    destruct (update_slow h z xs1 e xs2 s us off) as (h1 & z1 & h2 & h' & z' & ys1 & ys2 & E & -> & Hsc & Hi & HR');
      [done..|lia|done|]. rs. rewrite Hsc. rs. exists h', z', ys1, ys2. done.
Qed.

(** ** [zslFree] *)

Lemma free_loop_ok h z xs (R : zsl_inv h z xs) : ∀ ys a h1 z1 fuel A,
  xs = a ++ ys → (∀ x, x ∈ ys → h1 !! ze_ptr x = h !! ze_ptr x) → (length ys ≤ fuel)%nat →
  zsl_alloc_size z1 = u64 A →
  ∃ h2 z2, zslFree_loop fuel h1 z1 (ze_ptr <$> head ys) = Ok (h2, z2) ∧
    zsl_alloc_size z2 = u64 (A - sum_usable ys) ∧
    ∀ q, h2 !! q = if decide (q ∈ ptrs ys) then None else h1 !! q.
Proof.
  induction ys as [|y ys IH]; intros a h1 z1 fuel A E Hh Hf HA.
  { exists h1, z1. rewrite Z.sub_0_r. split_and!; [by destruct fuel|done|].
    intros q. rewrite decide_False; [done|]. apply not_elem_of_nil. }
  destruct fuel as [|fuel]; [cbn in Hf; lia|]. cbn [head fmap option_fmap option_map zslFree_loop].
  assert (a ++ y :: ys = (a ++ [y]) ++ ys) as E2 by (by rewrite <- (assoc_L (++))).
  destruct (next_node h z (a ++ [y]) ys) as (s & Hn); [by rewrite <- E2, <- E|].
  rewrite last_snoc in Hn. change (default _ _) with (ze_ptr y) in Hn.
  unfold get_level, node in Hn. rewrite <- Hh in Hn by set_solver. unfold get_level at 1, node at 1.
  rewrite Hn. rs. cbn [forward].
  destruct (inv_data R y ltac:(rewrite E; set_solver)) as (Dy & _).
  destruct (node_score_ok (view_self h) y Dy) as (n & Hny & _ & _ & Hu).
  unfold zslFreeNode. assert (node h1 (ze_ptr y) = Ok n) as ->.
  { unfold node in *. by rewrite Hh by set_solver. }
  rs. rewrite Hu. pose proof (rep_nodup _ _ _ R) as HN. rewrite E, app_comm_cons in HN.
  destruct (IH (a ++ [y]) (delete (ze_ptr y) h1) (add_alloc z1 (- ze_usable y)) fuel (A - ze_usable y))
    as (h2 & z2 & Hl & Ha & Hq).
  - by rewrite <- E2.
  - intros x Hx. rewrite lookup_delete_ne; [apply Hh; set_solver|].
    apply not_eq_sym, (ptr_notin _ y ys x HN). set_solver.
  - simpl in Hf. lia.
  - cbn [add_alloc zsl_alloc_size]. rewrite HA. unfold wrapu. rewrite Zplus_mod_idemp_l. done.
  - exists h2, z2. split_and!; [done| |].
    + rewrite Ha. f_equal. cbn [sum_usable foldr]. fold (sum_usable ys). lia.
    + intros q. rewrite Hq. unfold ptrs. rewrite fmap_cons. fold (ptrs ys).
      destruct (decide (q = ze_ptr y)) as [->|].
      * rewrite lookup_delete_eq, (decide_True (P := _ ∈ _ :: _)) by (by left). by destruct (decide _).
      * rewrite lookup_delete_ne by done. destruct (decide (q ∈ ptrs ys)).
        -- by rewrite decide_True by (by right).
        -- rewrite decide_False; [done|]. by intros [?|?]%elem_of_cons.
Qed.

(** ** [zslCreate] *)

Context `{NodeAlloc}.

Lemma create_ok h : ∃ h' z, zslCreate h = Ok (h', z) ∧ zsl_rep h' z [].
Proof.
  unfold zslCreate, zslCreateHeaderNode. set (p := new_ptr (dom h)).
  set (sz := usable (_ + _)). set (n0 := ZNode _ _ _ _ _ _). set (h1 := <[p := n0]> h).
  assert (∀ i, (i < ZSKIPLIST_MAXLEVEL)%nat → fwd h1 p i = Some None) as Hf.
  { intros i Hi. unfold fwd, h1. rewrite lookup_insert_eq. cbn [mbind option_bind n0 zn_level].
    by rewrite lookup_replicate_2. }
  assert (dat h1 p = Some (node_data n0)) as Hd by (unfold dat, h1; by rewrite lookup_insert_eq).
  unfold zslSetNodeInfo. edestruct (set_span0_view (view_self h1) p None) as (h2 & -> & V2);
    [apply Hf; unfold ZSKIPLIST_MAXLEVEL; lia|exact Hd|]. rs. cbn [add_alloc zsl_length zsl_level zsl_alloc_size].
  destruct (set_backward_view V2 p None None) as (h3 & -> & V3).
  { unfold bwd, h1. by rewrite lookup_insert_eq. }
  rs. eexists _, _. split; [done|]. pose proof V3 as [VF VS VB VD]. split.
  - split; cbn [zsl_header zsl_tail zsl_length zsl_level]; try done.
    + apply NoDup_singleton.
    + constructor.
    + intros a e b i E He. destruct a as [|? []]; [|done..].
      injection E as <- <-. cbn [hd_ent ze_ptr ze_height hop fst snd] in *. rewrite VF, Hf by done. split; [done|]. lia.
    + intros [] ? ? ?; done.
    + rewrite VD. unfold upd1. by rewrite decide_True.
  - unfold total_usable. cbn [zsl_alloc_size zsl_header sum_usable foldr hd_ent ze_usable]. f_equal.
    fold sz. lia.
Qed.
End upd.
