(* ===== verification/SklRank.v ===== *)
(** Ranks and ranges of a skiplist: [zslGetRank], [zslGetRankByNode],
    [zslGetElementByRank], [zslNthInRange] and [zslNthInLexRange], as queries on
    the represented sequence; and searches with tests that are not monotonic. *)

From S2P Require Import Prelude Sds Skiplist SklRep SklLink SklMod SklDel SklUpd.
From Stdlib Require Import SpecFloat.

(** A walk that starts at the first node of a list *)
Lemma links_suffix F S zl a l : links F S zl (a ++ l) → links F S zl l.
Proof. intros HL a' e b i E He. apply (HL (a ++ a') e b i); [|done]. rewrite E. lapp. Qed.

Lemma upd_ok_last l1 u :
  Forall (λ e, 0 < ze_height e)%nat l1 → upd_ok l1 0 u →
  ∃ a x, l1 = a ++ [x] ∧ u = (ze_ptr x, zlen a).
Proof.
  intros H0 (a & e & b & E & -> & He & Hb). exists a, e. split; [|done].
  destruct b as [|x b]; [done|]. exfalso. apply Forall_cons in Hb as [Hx _].
  rewrite E, !Forall_app, !Forall_cons in H0. lia.
Qed.

(** ** Elements by rank *)

Section by_rank.
Context {h F S B D} (V : view h F S B D) (zl : nat) (l : list zent) (rank : Z).
Hypothesis (HL : links F S zl l).
Hypothesis (H0 : Forall (λ e, 0 < ze_height e)%nat l).
Hypothesis (Hlen : zlen l < 2 ^ 64).
Hypothesis (Hr : 0 ≤ rank).

Let l1 := take (Z.to_nat rank + 1) l.
Let l2 := drop (Z.to_nat rank + 1) l.

Lemma by_rank_cond : cond_ok (cond_rank h (fun t => t <=? rank)) zl l1 l2.
Proof.
  apply (cond_rank_ok V); unfold l1, l2; rewrite ?take_drop; try done.
  intros k Hk Hkl. rewrite length_take. destruct (_ <=? rank) eqn:E; symmetry.
  - apply bool_decide_eq_true_2. lia.
  - apply bool_decide_eq_false_2. lia.
Qed.

Lemma by_rank_found a x b : l1 = a ++ x :: b → zlen a = rank → l !! Z.to_nat rank = Some x.
Proof.
  intros E Ha. rewrite <- (take_drop (Z.to_nat rank + 1) l). fold l1 l2. rewrite E, <- (assoc_L (++)).
  rewrite lookup_app_r by lia. by replace (Z.to_nat rank - length a)%nat with O by lia.
Qed.

Lemma by_rank_walk fuel i a x b :
  (length l ≤ fuel)%nat → l1 = a ++ x :: b → (i < ze_height x)%nat → (i < zl)%nat →
  ∃ a' x' b', walk fuel (cond_rank h (fun t => t <=? rank)) h i (ze_ptr x) (zlen a) =
      Ok (ze_ptr x', zlen a') ∧ l1 = a' ++ x' :: b' ∧ (i < ze_height x')%nat ∧ low i b'.
Proof.
  intros Hf E Hx Hi.
  destruct (walk_ok V zl l1 l2) with (cond := cond_rank h (fun t => t <=? rank)) (i := i)
    (fuel := fuel) (a := a) (e := x) (b := b) as (u & Hw & (a' & x' & b' & E' & -> & ? & ?));
    unfold l1, l2; rewrite ?take_drop; try done.
  - apply by_rank_cond.
  - apply (f_equal length) in E. unfold l1 in E. rewrite length_take, length_app in E. simpl in E. lia.
  - by exists a', x', b'.
Qed.

Lemma by_rank_ok fuel n : (length l ≤ fuel)%nat → ∀ a x b,
  l1 = a ++ x :: b → (n < ze_height x)%nat → (n < zl)%nat →
  zslGetElementByRankFromNode fuel h (ze_ptr x) (Datatypes.S n) (zlen a) rank =
    Ok (ze_ptr <$> l !! Z.to_nat rank).
Proof.
  intros Hf. induction n as [|n IH]; intros a x b E Hx Hn; cbn [zslGetElementByRankFromNode].
  - destruct (by_rank_walk fuel 0 a x b Hf E Hx Hn) as (a' & x' & b' & -> & E' & Hx' & Hb'). rs.
    destruct (zlen a' =? rank) eqn:Er; [by rewrite (by_rank_found a' x' b') by (done || lia)|].
    assert (b' = []) as ->.
    { destruct b' as [|y b']; [done|]. exfalso. apply Forall_cons in Hb' as [Hy _].
      pose proof H0 as H0'. rewrite <- (take_drop (Z.to_nat rank + 1) l) in H0'.
      fold l1 in H0'. rewrite E', !Forall_app, !Forall_cons in H0'. lia. }
    rewrite lookup_ge_None_2; [done|]. apply (f_equal length) in E'. unfold l1 in E'.
    rewrite length_take, length_app in E'. simpl in E'. lia.
  - destruct (by_rank_walk fuel (Datatypes.S n) a x b Hf E Hx Hn) as (a' & x' & b' & -> & E' & Hx' & _). rs.
    destruct (zlen a' =? rank) eqn:Er; [by rewrite (by_rank_found a' x' b') by (done || lia)|].
    apply (IH a' x' b'); [done|lia|lia].
Qed.

(** From the first node of the list *)
Lemma from_node_ok fuel n x l' :
  l = x :: l' → (length l ≤ fuel)%nat → (1 ≤ n ≤ ze_height x)%nat → (n ≤ zl)%nat →
  zslGetElementByRankFromNode fuel h (ze_ptr x) n 0 rank = Ok (ze_ptr <$> l !! Z.to_nat rank).
Proof.
  intros El Hf Hn Hz. destruct n as [|n]; [lia|].
  apply (by_rank_ok fuel n Hf [] x (take (Z.to_nat rank) l')); [|lia..].
  unfold l1. rewrite El, Nat.add_1_r. done.
Qed.
End by_rank.

Section rank.
Context `{Allocator} {h : zheap} {z : zskiplist} {xs : list zent} (R : zsl_inv h z xs).

Lemma element_ok rank :
  0 < rank → zslGetElementByRank h z rank = Ok (ze_ptr <$> xs !! Z.to_nat (rank - 1)).
Proof.
  intros Hr. unfold zslGetElementByRank. pose proof (inv_level R) as Hl.
  rewrite (from_node_ok (view_self h) (zsl_level z) (hd_ent (zsl_header z) :: xs)) with
    (x := hd_ent (zsl_header z)) (l' := xs); try done; try lia.
  - by replace (Z.to_nat rank) with (S (Z.to_nat (rank - 1))) by lia.
  - apply R.
  - apply (inv_heights0 R).
  - apply (inv_len R [] (_ :: _)). done.
  - apply (inv_fuel R _ []). by rewrite app_nil_r.
Qed.

(** ** The rank of an element *)

(** What [zslGetRank] returns, for the nodes [xs1] up to the key *)
Definition rank_of (key : list Z) (xs1 : list zent) : Z :=
  match last xs1 with
  | Some x => if decide (ekey x = key) then zlen xs1 else 0
  | None => 0
  end.

Section get_rank.
Context (s : double) (k : list Z) (xs1 xs2 : list zent).
Hypothesis (E : xs = xs1 ++ xs2).
Hypothesis (Hs : isnan s = false).
Hypothesis (H1 : Forall (λ x, lexcmp (ekey x) (zkey s k) ≤ 0) xs1).
Hypothesis (H2 : Forall (λ x, 0 < lexcmp (ekey x) (zkey s k)) xs2).

Let l1 := hd_ent (zsl_header z) :: xs1.

Lemma cmp_sgn x : x ∈ xs →
  Z.sgn (zcmp s k (ze_score x) (ze_ele x)) = - lexcmp (ekey x) (zkey s k).
Proof.
  intros Hx. destruct (inv_data R x Hx) as (_ & _ & Hn).
  rewrite zlt_cmp by done. apply lexcmp_opp.
Qed.

Lemma get_rank_cond : cond_ok (cond_cmp h (fun c => c >=? 0) s k) (zsl_level z) l1 xs2.
Proof.
  apply (cond_cmp_ok R); [done..| |]; apply Forall_forall; intros x Hx.
  - rewrite Forall_forall in H1. pose proof (cmp_sgn x ltac:(rewrite E; set_solver)).
    specialize (H1 x Hx). lia.
  - rewrite Forall_forall in H2. pose proof (cmp_sgn x ltac:(rewrite E; set_solver)).
    specialize (H2 x Hx). lia.
Qed.

(** The test after the walk of a level *)
Lemma found_test a x b :
  l1 = a ++ x :: b →
  ∃ f : bool,
    (if decide (ze_ptr x = zsl_header z) then Ok false
     else c ← zslCompareWithNode h s k (Some (ze_ptr x)); Ok (c =? 0)) = Ok f ∧
    (f = true → rank_of (zkey s k) xs1 = zlen a) ∧
    (f = false → b = [] → rank_of (zkey s k) xs1 = 0).
Proof.
  intros El. pose proof (rep_nodup _ _ _ R) as HN. pose proof (rep_sorted _ _ _ R) as HS.
  destruct a as [|y a]; injection El as Ex El.
  { exists false. rewrite <- Ex, decide_True by done. split_and!; [done..|].
    intros _ ->. unfold rank_of. by rewrite El. }
  rewrite decide_False.
  2:{ apply (ptr_notin [] (hd_ent (zsl_header z)) xs); [done|]. rewrite E, El. set_solver. }
  assert (x ∈ xs) as Hx by (rewrite E, El; set_solver).
  destruct (inv_data R x Hx) as (Dx & Hh & _). rewrite (compare_ok (view_self h)) by done. rs.
  eexists. split; [done|]. pose proof (cmp_sgn x Hx) as Hc. rewrite E, El in HS. split.
  - intros Hf. assert (ekey x = zkey s k) as Ek by (apply lexcmp_eq; lia).
    assert (b = []) as ->.
    { destruct b as [|w b]; [done|]. exfalso.
      rewrite El, Forall_app, !Forall_cons in H1. destruct H1 as (_ & _ & Hw & _).
      rewrite <- (assoc_L (++)) in HS. apply sorted_mid in HS as (_ & _ & HS). cbn [app] in HS.
      apply Forall_cons in HS as [HS _]. unfold zlt in HS. rewrite Ek, lexcmp_opp in HS. lia. }
    unfold rank_of. rewrite El, last_snoc, decide_True, length_app by done. simpl. lia.
  - intros Hf ->. unfold rank_of. rewrite El, last_snoc, decide_False; [done|].
    intros Ek. rewrite Ek, lexcmp_refl in Hc. lia.
Qed.

Lemma get_rank_loop n : ∀ a x b,
  l1 = a ++ x :: b → (n < ze_height x)%nat → (n < zsl_level z)%nat →
  zslGetRank_loop (zsl_fuel z) h (zsl_header z) s k (S n) (ze_ptr x) (zlen a) =
    Ok (rank_of (zkey s k) xs1).
Proof.
  destruct (inv_cut R xs1 xs2 E) as (L & H0 & Hlen & Hf).
  induction n as [|n IH]; intros a x b El Hx Hn; cbn [zslGetRank_loop].
  - destruct (walk_ok (view_self h) _ l1 xs2 L H0 Hlen _ get_rank_cond 0 Hn (zsl_fuel z) a x b El Hx)
      as (u & -> & Hu).
    { pose proof (f_equal length El) as Hll. rewrite length_app in Hll. simpl in Hll, Hf. lia. }
    destruct (upd_ok_last l1 u) as (a' & x' & El' & ->); [by apply Forall_app in H0 as [? _]|done|]. rs.
    destruct (found_test a' x' [] El') as (f & -> & Ht & Hff). rs.
    destruct f; [by rewrite Ht|by rewrite Hff].
  - destruct (walk_ok (view_self h) _ l1 xs2 L H0 Hlen _ get_rank_cond (S n) Hn (zsl_fuel z) a x b El Hx)
      as (u & -> & (a' & x' & b' & El' & -> & Hx' & _)).
    { pose proof (f_equal length El) as Hll. rewrite length_app in Hll. simpl in Hll, Hf. lia. }
    rs. destruct (found_test a' x' b' El') as (f & -> & Ht & _). rs.
    destruct f; [by rewrite Ht|]. apply (IH a' x' b'); [done|lia..].
Qed.

Lemma get_rank_ok : zslGetRank h z s k = Ok (rank_of (zkey s k) xs1).
Proof.
  unfold zslGetRank. pose proof (inv_level R) as Hl. destruct (zsl_level z) as [|n] eqn:En; [lia|].
  apply (get_rank_loop n [] (hd_ent (zsl_header z)) xs1); [done|simpl; lia|lia].
Qed.
End get_rank.

(** ** The rank of a node *)

(** The span of a node at a level it has *)
Lemma inv_span a x b i :
  hd_ent (zsl_header z) :: xs = a ++ x :: b → (i < ze_height x)%nat → (i < zsl_level z)%nat →
  zslGetNodeSpanAtLevel h (ze_ptr x) i = Ok (Z.of_nat (snd (hop i b))) ∧
  ∃ s, get_level h (ze_ptr x) i = Ok (ZLevel (fst (hop i b)) s).
Proof.
  intros E Hx Hi. destruct (inv_cut R [] xs eq_refl) as (L & H0 & Hlen & _). split.
  - by apply (span_hop (view_self h) _ _ xs L H0 a x b i E).
  - destruct (rep_links _ _ _ R a x b i E Hx) as [HF _].
    destruct (get_level_ok (view_self h) _ _ _ HF) as (s & _ & ->). eauto.
Qed.

Lemma by_node_loop fuel : ∀ a x b d,
  xs = a ++ x :: b → (length b < fuel)%nat → 0 ≤ d → d + zlen b < 2 ^ 64 →
  zslGetRankByNode_loop fuel h (Some (ze_ptr x)) d = Ok (d + zlen b).
Proof.
  induction fuel as [|fuel IH]; intros a x b d E Hf Hd Hd2; [lia|]. cbn [zslGetRankByNode_loop].
  assert (x ∈ xs) as Hin by (rewrite E; set_solver).
  destruct (inv_data R x Hin) as (Dx & Hh & _).
  destruct (node_info_ok (view_self h) x Dx Hh) as (off & -> & _). rs. cbn [levels].
  pose proof (max_height_ge xs x Hin). pose proof (rep_level _ _ _ R).
  destruct (inv_span (hd_ent (zsl_header z) :: a) x b (Z.to_nat (Z.of_nat (ze_height x) - 1)))
    as [-> (s & Hl)]; [by rewrite E|lia|lia|]. rs. rewrite Hl. rs. cbn [forward].
  set (i := Z.to_nat _). destruct (low_split i b) as [Hb|(c & v & c' & -> & Hc & Hv)].
  - rewrite hop_nil by done. cbn [fst snd]. rewrite wrapu_small by lia. by destruct fuel.
  - rewrite hop_high by done. cbn [fst snd]. rewrite length_app in *. cbn [length] in *.
    rewrite wrapu_small by lia. rewrite (IH (a ++ x :: c) v c'); [f_equal; lia| |lia|lia|lia].
    rewrite E. lapp.
Qed.

Lemma by_node_ok a x b :
  xs = a ++ x :: b → zslGetRankByNode h z (ze_ptr x) = Ok (zlen a + 1).
Proof.
  intros E. pose proof (rep_small _ _ _ R) as Hs. rewrite E, length_app in Hs. cbn [length] in Hs.
  unfold zslGetRankByNode.
  rewrite (by_node_loop _ a x b 0 E); [rs|unfold zsl_fuel; rewrite (rep_length _ _ _ R), E, length_app; cbn [length]; lia|lia|lia].
  f_equal. rewrite (rep_length _ _ _ R), E, length_app. cbn [length]. rewrite wrapu_small; lia.
Qed.

(** ** The nth element of a range *)

Lemma steps_forward_ok k : ∀ a x b,
  hd_ent (zsl_header z) :: xs = a ++ x :: b → (k ≤ length b)%nat →
  steps_forward h k (Some (ze_ptr x)) = Ok (ze_ptr <$> (x :: b) !! k).
Proof.
  induction k as [|k IH]; intros a x b E Hk; [done|]. cbn [steps_forward deref]. rs.
  pose proof (inv_heights0 R) as H0. rewrite E, Forall_app, Forall_cons in H0.
  destruct H0 as (_ & Hx & Hb). pose proof (inv_level R) as Hl.
  destruct (inv_span a x b 0 E Hx ltac:(lia)) as [_ (s & ->)]. rs. cbn [forward].
  rewrite hop_0 by done. destruct b as [|y b]; [simpl in Hk; lia|].
  cbn [head fmap option_fmap option_map]. apply (IH (a ++ [x]) y b); [rewrite E; lapp|simpl in Hk; lia].
Qed.

Lemma steps_backward_ok k : ∀ a x b,
  xs = a ++ x :: b → (k ≤ length a)%nat →
  steps_backward h k (Some (ze_ptr x)) = Ok (ze_ptr <$> xs !! (length a - k)%nat).
Proof.
  induction k as [|k IH]; intros a x b E Hk.
  { cbn [steps_backward]. rewrite E, Nat.sub_0_r, list_lookup_middle by done. done. }
  cbn [steps_backward deref]. rs.
  destruct (inv_data R x ltac:(rewrite E; set_solver)) as ((off & _ & Hd) & _ & _).
  destruct (node_ok (view_self h) _ _ _ Hd (rep_back _ _ _ R a x b E)) as (n & -> & Hn & _). rs. rewrite Hn.
  destruct a as [|y a _] using rev_ind; [simpl in Hk; lia|]. rewrite last_snoc. cbn [fmap option_fmap option_map].
  rewrite length_app in *. cbn [length] in *.
  rewrite (IH a y (x :: b)); [|rewrite E; lapp|lia]. do 3 f_equal. lia.
Qed.

Lemma jump_ok a x b r :
  hd_ent (zsl_header z) :: xs = a ++ x :: b → (zsl_level z ≤ ze_height x)%nat → 0 ≤ r →
  zslGetElementByRankFromNode (zsl_fuel z) h (ze_ptr x) (zsl_level z) 0 r =
    Ok (ze_ptr <$> (x :: b) !! Z.to_nat r).
Proof.
  intros E Hx Hr. pose proof (inv_level R) as Hl.
  destruct (inv_cut R xs [] ltac:(by rewrite app_nil_r)) as (L & H0 & Hlen & Hf).
  rewrite app_nil_r, E in *. rewrite Forall_app in H0. rewrite length_app in Hlen, Hf.
  rewrite (from_node_ok (view_self h) (zsl_level z) (x :: b)) with (x := x) (l' := b); try done; try lia.
  - by eapply links_suffix.
  - tauto.
Qed.

Section nth.
Context (gte lte : zent → bool) (gt lt : ptr → res bool) (xs1 ds ys : list zent).
Hypothesis (E : xs = xs1 ++ ds ++ ys).
Hypothesis (Hgt : ∀ x, x ∈ xs → gt (ze_ptr x) = Ok (gte x)).
Hypothesis (Hlt : ∀ x, x ∈ xs → lt (ze_ptr x) = Ok (lte x)).
Hypothesis (H1 : Forall (λ x, gte x = false) xs1).
Hypothesis (H2 : Forall (λ x, gte x = true) (ds ++ ys)).
Hypothesis (H3 : Forall (λ x, lte x = true) ds).
Hypothesis (H4 : Forall (λ x, lte x = false) ys).
Hypothesis (H5 : Forall (λ x, lte x = true) xs1).

(** The element of the range at index [n], counted from its end when [n] is
    negative, and its rank in the whole list *)
Definition nth_spec (n : Z) : option (ptr * Z) :=
  let pos := if 0 <=? n then n else zlen ds + n in
  if 0 <=? pos then (λ x, (ze_ptr x, zlen xs1 + pos + 1)) <$> ds !! Z.to_nat pos else None.

Lemma nth_final test (P : zent → bool) j r :
  (∀ x, x ∈ xs → test (ze_ptr x) = Ok (P x)) →
  nth_result test (ze_ptr <$> xs !! j) r =
    Ok (x ← xs !! j; if P x then Some (ze_ptr x, r) else None).
Proof.
  intros Ht. destruct (xs !! j) as [x|] eqn:Ej; [|done]. cbn [fmap option_fmap option_map nth_result].
  by rewrite Ht by (by eapply list_elem_of_lookup_2).
Qed.

Lemma nth_forward n r :
  0 ≤ n → r = zlen xs1 + n + 1 →
  (x ← xs !! (length xs1 + Z.to_nat n)%nat; if lte x then Some (ze_ptr x, r) else None) = nth_spec n.
Proof.
  intros Hn ->. unfold nth_spec. destruct (0 <=? n) eqn:En; [|lia]. rewrite En.
  rewrite E, lookup_app_r by lia. rewrite Nat.add_comm, Nat.add_sub.
  destruct (decide (Z.to_nat n < length ds)%nat).
  - rewrite lookup_app_l by done. destruct (ds !! Z.to_nat n) as [x|] eqn:Ex; [|done]. simpl.
    rewrite Forall_lookup in H3. by rewrite (H3 _ _ Ex).
  - rewrite lookup_app_r, (lookup_ge_None_2 ds) by lia. simpl.
    destruct (ys !! _) as [y|] eqn:Ey; [|done]. simpl. rewrite Forall_lookup in H4. by rewrite (H4 _ _ Ey).
Qed.

Lemma nth_backward n r :
  n < 0 → - n ≤ zlen xs1 + zlen ds → r = zlen xs1 + zlen ds + n + 1 →
  (x ← xs !! Z.to_nat (zlen xs1 + zlen ds + n); if gte x then Some (ze_ptr x, r) else None) = nth_spec n.
Proof.
  intros Hn Hm ->. unfold nth_spec. destruct (0 <=? n) eqn:En; [lia|]. rewrite E.
  destruct (0 <=? zlen ds + n) eqn:Ed.
  - rewrite lookup_app_r, lookup_app_l by lia.
    replace (Z.to_nat (zlen xs1 + zlen ds + n) - length xs1)%nat with (Z.to_nat (zlen ds + n)) by lia.
    destruct (ds !! Z.to_nat (zlen ds + n)) as [x|] eqn:Ex; [|done]. simpl.
    rewrite Forall_app, Forall_lookup in H2. rewrite (proj1 H2 _ _ Ex). do 2 f_equal. lia.
  - rewrite lookup_app_l by lia. destruct (xs1 !! _) as [x|] eqn:Ex; [|done]. simpl.
    rewrite Forall_lookup in H1. by rewrite (H1 _ _ Ex).
Qed.

Let l1 := hd_ent (zsl_header z) :: xs1.
Let out := fun x => g ← gt x; Ok (negb g).

Lemma out_cond : cond_ok (cond_fwd h out) (zsl_level z) l1 (ds ++ ys).
Proof.
  pose proof R as R'. rewrite E in R'.
  apply (cond_fwd_ok h z xs1 (ds ++ ys) out (λ x, negb (gte x)) R').
  - intros x Hx. unfold out. rewrite <- E in Hx. by rewrite Hgt.
  - eapply Forall_impl; [exact H1|]. by intros x ->.
  - eapply Forall_impl; [exact H2|]. by intros x ->.
Qed.

Lemma lte_cond : cond_ok (cond_fwd h lt) (zsl_level z) (hd_ent (zsl_header z) :: xs1 ++ ds) ys.
Proof.
  pose proof R as R'. rewrite E, (assoc_L (++)) in R'. apply (cond_fwd_ok h z (xs1 ++ ds) ys lt lte R').
  - intros x Hx. apply Hlt. rewrite E, (assoc_L (++)). done.
  - by rewrite Forall_app.
  - done.
Qed.

(** The walk of the top level *)
Lemma top_walk :
  ∃ a x b, walk (zsl_fuel z) (cond_fwd h out) h (pred (zsl_level z)) (zsl_header z) 0 =
      Ok (ze_ptr x, zlen a) ∧ l1 = a ++ x :: b ∧ (zsl_level z ≤ ze_height x)%nat ∧
    low (pred (zsl_level z)) b.
Proof.
  pose proof (inv_level R) as Hl. destruct (inv_cut R xs1 (ds ++ ys) E) as (L & H0 & Hlen & Hf).
  destruct (walk_ok (view_self h) _ l1 (ds ++ ys) L H0 Hlen _ out_cond (pred (zsl_level z)) ltac:(lia)
    (zsl_fuel z) [] (hd_ent (zsl_header z)) xs1 eq_refl) as (u & Hw & (a & x & b & El & -> & Hx & Hb)).
  - simpl. lia.
  - simpl in Hf. lia.
  - exists a, x, b. split_and!; [done..|lia|done].
Qed.

(** The searches of the lower levels end at the last node before the range, and
    at the last one of the range. *)
Lemma low_search a x b :
  l1 = a ++ x :: b → (zsl_level z ≤ ze_height x)%nat → low (pred (zsl_level z)) b →
  ∃ us, descend (zsl_fuel z) (cond_fwd h out) h (pred (zsl_level z)) (ze_ptr x) (zlen a)
      [(ze_ptr x, zlen a)] = Ok us ∧
    nth_update us 0 = Ok (default (zsl_header z) (ze_ptr <$> last xs1), zlen xs1).
Proof.
  intros El Hx Hb. pose proof (inv_level R) as Hl.
  destruct (inv_cut R xs1 (ds ++ ys) E) as (L & H0 & Hlen & Hf).
  destruct (descend_ok (view_self h) _ l1 (ds ++ ys) L H0 Hlen _ out_cond (zsl_fuel z) Hf
    (pred (zsl_level z)) a x b [(ze_ptr x, zlen a)] El) as (us & Hd & Hus & Hu); [lia|lia|].
  eexists. split; [exact Hd|]. unfold nth_update.
  assert (∃ u, (us ++ [(ze_ptr x, zlen a)]) !! 0%nat = Some u ∧ upd_ok l1 0 u) as (u & -> & Hok).
  { destruct us as [|u us]; [|exists u; split; [done|by apply (Hu 0%nat)]].
    eexists. split; [done|]. exists a, x, b. cbn in Hus. rewrite <- Hus in Hb. split_and!; [done..|lia|done]. }
  f_equal. by apply (upd_ok_0 R xs1 (ds ++ ys)).
Qed.

Lemma high_search a x b :
  l1 = a ++ x :: b → (zsl_level z ≤ ze_height x)%nat →
  ∃ us, descend (zsl_fuel z) (cond_fwd h lt) h (zsl_level z) (ze_ptr x) (zlen a) [] = Ok us ∧
    nth_update us 0 = Ok (default (zsl_header z) (ze_ptr <$> last (xs1 ++ ds)), zlen (xs1 ++ ds)).
Proof.
  intros El Hx. pose proof (inv_level R) as Hl.
  assert (xs = (xs1 ++ ds) ++ ys) as E' by (by rewrite <- (assoc_L (++))).
  destruct (inv_cut R (xs1 ++ ds) ys E') as (L & H0 & Hlen & Hf).
  destruct (descend_ok (view_self h) _ _ ys L H0 Hlen _ lte_cond (zsl_fuel z) Hf
    (zsl_level z) a x (b ++ ds) []) as (us & Hd & Hus & Hu);
    [by rewrite app_comm_cons, (app_comm_cons b), (assoc_L (++)), <- El|lia|lia|].
  rewrite app_nil_r in Hd. exists us. split; [exact Hd|].
  pose proof R as R'. rewrite E' in R'. apply (us_0 h z (xs1 ++ ds) ys us R'); [lia|done].
Qed.

(** An index of the list, reached from the node [x] of the top level *)
Lemma jump_index a x b j :
  l1 = a ++ x :: b → (zsl_level z ≤ ze_height x)%nat → - 2 ^ 63 ≤ j - zlen a → j < 2 ^ 63 →
  ∃ o, zslGetElementByRankFromNode (zsl_fuel z) h (ze_ptr x) (zsl_level z) 0
      (u64 (j + 1 - zlen a)) = Ok o ∧
    (zlen a ≤ j + 1 → o = ze_ptr <$> (hd_ent (zsl_header z) :: xs) !! Z.to_nat (j + 1)) ∧
    (j + 1 < zlen a → o = None).
Proof.
  intros El Hx Hj Hj2. pose proof (rep_small _ _ _ R) as Hs.
  assert (hd_ent (zsl_header z) :: xs = a ++ x :: b ++ ds ++ ys) as Ea.
  { by rewrite E, app_comm_cons, (app_comm_cons b), (assoc_L (++) a), <- El. }
  pose proof (f_equal length Ea) as Hl. rewrite length_app in Hl. cbn [length] in Hl.
  eexists. split.
  { rewrite (jump_ok a x (b ++ ds ++ ys)); [done|done|done|]. by apply wrapu_range. }
  split; intros Hja.
  - rewrite Ea, wrapu_small by lia. rewrite lookup_app_r by lia. do 2 f_equal. lia.
  - rewrite lookup_ge_None_2; [done|]. cbn [length].
    unfold wrapu. rewrite <- (Z.mod_add _ 1), Z.mod_small by lia. lia.
Qed.

Lemma nth_pos n : 0 ≤ n ≤ INT64_MAX → nth_in_range h z (Ok true) gt lt n = Ok (nth_spec n).
Proof.
  intros Hn. unfold nth_in_range. rs. cbn [negb]. fold out.
  destruct top_walk as (a & x & b & -> & El & Hx & Hb). rs.
  destruct (0 <=? n) eqn:En; [|lia].
  destruct (low_search a x b El Hx Hb) as (us & -> & Hus). rs. rewrite Hus. rs.
  pose proof (rep_small _ _ _ R) as Hs. pose proof (f_equal length E) as HlE.
  rewrite !length_app in HlE. rewrite (rep_length _ _ _ R), (wrapu_small 64 (_ + n)) by lia.
  destruct (_ <=? zlen xs1 + n) eqn:El1.
  { unfold nth_spec. rewrite En, lookup_ge_None_2 by lia. by rewrite En. }
  rewrite <- (nth_forward n (u64 (zlen xs1 + n + 1))) by (rewrite ?wrapu_small; lia).
  rewrite <- (nth_final lt lte) by done.
  set (j := (length xs1 + Z.to_nat n)%nat).
  pose proof (f_equal length El) as HlL. rewrite length_app in HlL. cbn [length l1] in HlL.
  destruct (n <? ZSKIPLIST_MAX_SEARCH).
  - destruct (last_split z xs1) as (a' & x' & Ea & ->).
    rewrite (steps_forward_ok _ a' x' (ds ++ ys)); [rs| |].
    + f_equal. replace (Z.to_nat (n + 1)) with (S (Z.to_nat n)) by lia. cbn [lookup list_lookup].
      unfold j. rewrite E, (lookup_app_r xs1) by lia. do 2 f_equal. lia.
    + by rewrite E, app_comm_cons, Ea, <- (assoc_L (++)).
    + rewrite length_app. lia.
  - destruct (jump_index a x b (Z.of_nat j) El Hx) as (o & Hjump & Ho & _); [lia|lia|].
    replace (Z.of_nat j + 1 - zlen a) with (zlen xs1 + 1 + n - zlen a) in Hjump by lia.
    rewrite Hjump. rs.
    rewrite Ho by lia. by replace (Z.to_nat (Z.of_nat j + 1)) with (S j) by lia.
Qed.

Lemma nth_neg n : INT64_MIN ≤ n < 0 → nth_in_range h z (Ok true) gt lt n = Ok (nth_spec n).
Proof.
  intros Hn. unfold nth_in_range. rs. cbn [negb]. fold out.
  destruct top_walk as (a & x & b & -> & El & Hx & Hb). rs.
  destruct (0 <=? n) eqn:En; [lia|].
  destruct (high_search a x b El Hx) as (us & -> & Hus). rs. rewrite Hus. rs.
  pose proof (rep_small _ _ _ R) as Hs. pose proof (f_equal length E) as HlE.
  rewrite !length_app in HlE. rewrite length_app.
  pose proof (f_equal length El) as HlL. rewrite length_app in HlL. cbn [length l1] in HlL.
  assert (zlen xs1 + zlen ds < - n → nth_spec n = None) as Hnone.
  { intros Hm. unfold nth_spec. rewrite En. destruct (0 <=? zlen ds + n) eqn:?; [lia|done]. }
  rewrite Nat2Z.inj_add. set (edge := zlen xs1 + zlen ds) in *.
  destruct (edge <? s64 (- n)) eqn:Ee.
  { rewrite Hnone; [done|]. destruct (decide (n = INT64_MIN)) as [->|]; [lia|].
    rewrite s64_small in Ee; lia. }
  destruct (jump_index a x b (edge + n) El Hx) as (o & Hjump & Ho1 & Ho2); [lia|lia|].
  replace (edge + n + 1 - zlen a) with (edge + 1 + n - zlen a) in Hjump by lia. rewrite Hjump.
  destruct (decide (n = INT64_MIN)) as [->|Hmin].
  { destruct (- ZSKIPLIST_MAX_SEARCH <? _) eqn:Ems; [vm_compute in Ems; done|]. rs.
    rewrite Ho2, Hnone by lia. done. }
  rewrite s64_small in Ee by lia.
  rewrite <- (nth_backward n (u64 (edge + n + 1))) by (rewrite ?wrapu_small; lia).
  fold edge. rewrite <- (nth_final gt gte) by done.
  destruct (- ZSKIPLIST_MAX_SEARCH <? n + 1).
  - assert (xs1 ++ ds ≠ []) as Hne.
    { intros Hnil. apply (f_equal length) in Hnil. rewrite length_app in Hnil. cbn in Hnil. lia. }
    destruct (xs1 ++ ds) as [|y l _] eqn:El2 using rev_ind; [done|]. rewrite last_snoc.
    change (default _ _) with (ze_ptr y).
    assert (length l + 1 = length xs1 + length ds)%nat as Hl2.
    { apply (f_equal length) in El2. rewrite !length_app in El2. done. }
    rewrite (steps_backward_ok _ l y ys); [rs| |lia].
    + do 3 f_equal. lia.
    + rewrite E, (assoc_L (++)), El2, <- (assoc_L (++)). done.
  - rs. destruct (decide (zlen a ≤ edge + n + 1)) as [Ha|Ha].
    + rewrite Ho1 by lia. by replace (Z.to_nat (edge + n + 1)) with (S (Z.to_nat (edge + n))) by lia.
    + rewrite Ho2 by lia. rewrite (nth_final gt gte) by done.
      unfold edge in *. rewrite (nth_backward n) by (rewrite ?wrapu_small; lia). symmetry. unfold nth_spec. rewrite En.
      destruct (0 <=? zlen ds + n) eqn:?; [lia|done].
Qed.

Lemma nth_ok n : is_i64 n → nth_in_range h z (Ok true) gt lt n = Ok (nth_spec n).
Proof. intros Hn. unfold is_i64 in Hn. destruct (decide (0 ≤ n)); [apply nth_pos|apply nth_neg]; lia. Qed.
End nth.
End rank.

(** ** Searches with any test

    The test need not be monotonic, as that of a lexicographic range in a sorted set
    whose scores differ.  Which nodes such a search finds depends on the levels of the
    nodes; it always ends, at a position of the list, and the links it collects are
    those of this position, so that what follows it is safe. *)

(** Two ways to cut a list *)
Lemma cut_between {A} (a c l1 l2 s : list A) e :
  l1 ++ l2 = a ++ e :: c ++ s → (length a < length l1)%nat → (length l1 ≤ length a + S (length c))%nat →
  ∃ k, l1 = a ++ e :: take k c.
Proof.
  intros E H1 H2. exists (length l1 - S (length a))%nat.
  rewrite <- (take_app_length l1 l2) at 1. rewrite E, take_app_ge by lia. f_equal.
  destruct (length l1 - length a)%nat as [|k] eqn:Ek; [lia|]. cbn [take]. f_equal.
  replace (length l1 - S (length a))%nat with k by lia. rewrite take_app_le by lia. done.
Qed.

Section search.
Context {h F S B D} (V : view h F S B D) (zl : nat) (l : list zent).
Hypothesis (L : links F S zl l).
Hypothesis (H0 : Forall (λ e, 0 < ze_height e)%nat l).
Hypothesis (Hlen : zlen l < 2 ^ 64).
Context (cond : ptr → nat → Z → res bool) (P : zent → bool).
Hypothesis (Cn : ∀ x i r, F x i = Some None → cond x i r = Ok false).
Hypothesis (Cs : ∀ x i r v, v ∈ tail l → F x i = Some (Some (ze_ptr v)) → cond x i r = Ok (P v)).

(** The search does not pass the beginning of [stop] on the level [i]. *)
Definition barrier (i : nat) (stop : list zent) : Prop :=
  ∀ y, head stop = Some y → P y = false ∧ (i < ze_height y)%nat.

Lemma tail_after a e b v : l = a ++ e :: b → v ∈ b → v ∈ tail l.
Proof. intros -> Hv. destruct a; cbn; set_solver. Qed.

Lemma walk_any i (Hi : (i < zl)%nat) fuel a e c stop :
  l = a ++ e :: c ++ stop → (i < ze_height e)%nat → (length c < fuel)%nat → barrier i stop →
  ∃ a' e' c' stop', walk fuel cond h i (ze_ptr e) (zlen a) = Ok (ze_ptr e', zlen a') ∧
    l = a' ++ e' :: c' ++ stop' ∧ (i < ze_height e')%nat ∧ low i c' ∧ barrier i stop' ∧
    (length a ≤ length a')%nat ∧ (length stop ≤ length stop')%nat.
Proof.
  revert a e c. induction fuel as [|fuel IH]; intros a e c E He Hf Hb; [lia|]. cbn [walk].
  destruct (L a e (c ++ stop) i E He) as [HF _].
  assert (∀ c' s', c ++ stop = c' ++ s' → low i c' → barrier i s' → (length stop ≤ length s')%nat →
    cond (ze_ptr e) i (zlen a) = Ok false → ∃ a' e' c' stop',
      (b ← cond (ze_ptr e) i (zlen a);
       if b : bool then
         span ← zslGetNodeSpanAtLevel h (ze_ptr e) i; lv ← get_level h (ze_ptr e) i; y ← deref (forward lv);
         walk fuel cond h i y (u64 (zlen a + span))
       else Ok (ze_ptr e, zlen a)) = Ok (ze_ptr e', zlen a') ∧
      l = a' ++ e' :: c' ++ stop' ∧ (i < ze_height e')%nat ∧ low i c' ∧ barrier i stop' ∧
      (length a ≤ length a')%nat ∧ (length stop ≤ length stop')%nat) as Hstop.
  { intros c' s' Ec Hc Hs Hle ->. rs. exists a, e, c', s'. rewrite <- Ec. split_and!; done. }
  destruct (low_split i c) as [Hc|(c1 & v & c2 & -> & Hc & Hv)].
  - apply (Hstop c stop); [done..|]. destruct stop as [|y stop].
    + rewrite app_nil_r, hop_nil in HF by done. by apply Cn.
    + destruct (Hb y eq_refl) as [Py Hy]. rewrite hop_high in HF by done. rewrite (Cs _ _ _ y); [by rewrite Py| |done].
      eapply tail_after; [exact E|set_solver].
  - rewrite <- (assoc_L (++)) in E, HF. cbn [app] in E, HF. rewrite hop_high in HF by done. cbn [fst] in HF.
    assert (v ∈ tail l) as Hvl by (eapply tail_after; [exact E|set_solver]).
    pose proof (Cs _ i (zlen a) v Hvl HF) as Ec. destruct (P v) eqn:Pv.
    + rewrite Ec. rs. rewrite (span_hop V zl l [] ltac:(by rewrite app_nil_r) ltac:(by rewrite app_nil_r) a e (c1 ++ v :: c2 ++ stop) i);
        [|by rewrite app_nil_r|done|done]. rs.
      destruct (get_level_ok V _ _ _ HF) as (s & _ & ->). rs. cbn [forward deref]. rs. rewrite hop_high by done. cbn [snd].
      assert (l = (a ++ e :: c1) ++ v :: c2 ++ stop) as E2 by (rewrite E; by rewrite <- (assoc_L (++))).
      rewrite length_app in Hf. cbn [length] in Hf.
      destruct (IH (a ++ e :: c1) v c2 E2 Hv ltac:(lia) Hb) as (a' & e' & c' & s' & Hw & El & He' & Hl' & Hb' & Hle & Hls).
      exists a', e', c', s'. split_and!; try done; [|rewrite length_app in Hle; cbn [length] in Hle; lia].
      rewrite <- Hw. f_equal. pose proof Hlen as Hlen'. rewrite E2, !length_app in Hlen'. cbn [length] in Hlen'.
      rewrite !length_app. cbn [length]. rewrite wrapu_small; lia.
    + apply (Hstop c1 (v :: c2 ++ stop)); [by rewrite <- (assoc_L (++))|done| |cbn [length]; rewrite length_app; lia|done].
      by intros y [= <-].
Qed.

Lemma descend_any fuel (Hf : (length l ≤ fuel)%nat) n a e c stop acc :
  l = a ++ e :: c ++ stop → (n ≤ ze_height e)%nat → (n ≤ zl)%nat → (∀ i, (i < n)%nat → barrier i stop) →
  ∃ us l1 l2, descend fuel cond h n (ze_ptr e) (zlen a) acc = Ok (us ++ acc) ∧ length us = n ∧ l = l1 ++ l2 ∧
    (∀ i u, us !! i = Some u → upd_ok l1 i u) ∧
    (length a < length l1)%nat ∧ (length l1 ≤ length a + Datatypes.S (length c))%nat.
Proof.
  revert a e c stop acc. induction n as [|i IH]; intros a e c stop acc E He Hn Hb.
  { exists [], (a ++ [e]), (c ++ stop). split_and!; try done; [by rewrite <- (assoc_L (++))|rewrite length_app; cbn [length]; lia..]. }
  cbn [descend]. destruct (walk_any i ltac:(lia) fuel a e c stop E ltac:(lia)) as (a' & e' & c' & s' & -> & E' & He' & Hc' & Hb' & Hla & Hls).
  { rewrite E, length_app in Hf. cbn [length] in Hf. rewrite length_app in Hf. lia. }
  { apply Hb. lia. }
  rs. destruct (IH a' e' c' s' ((ze_ptr e', zlen a') :: acc) E' ltac:(lia) ltac:(lia)) as (us & l1 & l2 & -> & Hl & El & Hus & Hl1 & Hl2).
  { intros j Hj y Hy. destruct (Hb' y Hy). split; [done|lia]. }
  exists (us ++ [(ze_ptr e', zlen a')]), l1, l2. pose proof (f_equal length E) as Le. pose proof (f_equal length E') as Le'.
  rewrite !length_app in Le, Le'. cbn [length] in Le, Le'. rewrite !length_app in Le, Le'. split_and!; try lia.
  - by rewrite <- (assoc_L (++)).
  - rewrite length_app. cbn [length]. lia.
  - done.
  - intros j u Hj. apply lookup_app_Some in Hj as [?|[Hj Hu]]; [eauto|].
    destruct (j - length us)%nat eqn:?; [|done]. injection Hu as <-. replace j with (length us) by lia. rewrite Hl.
    rewrite El in E'. destruct (cut_between a' c' l1 l2 s' e' E' Hl1 Hl2) as (k & ->).
    exists a', e', (take k c'). split_and!; try done. by apply Forall_take.
Qed.
End search.

(** ** Searches for a range *)

Section any.
Context `{Allocator} {h : zheap} {z : zskiplist} {xs : list zent} (R : zsl_inv h z xs).

Abbreviation l := (hd_ent (zsl_header z) :: xs).

Lemma any_list : links (fwd h) (spn h) (zsl_level z) l ∧ Forall (λ e, 0 < ze_height e)%nat l ∧ zlen l < 2 ^ 64 ∧
  (length l ≤ zsl_fuel z)%nat.
Proof. pose proof (inv_cut R xs [] (eq_sym (app_nil_r xs))) as I. cbv zeta in I. by rewrite app_nil_r in I. Qed.

Lemma cond_none test x i r : fwd h x i = Some None → cond_fwd h test x i r = Ok false.
Proof. intros Hf. unfold cond_fwd. by destruct (get_level_ok (view_self h) _ _ _ Hf) as (? & _ & ->). Qed.

Lemma cond_some test (P : zent → bool) : (∀ x, x ∈ xs → test (ze_ptr x) = Ok (P x)) →
  ∀ x i r v, v ∈ tail l → fwd h x i = Some (Some (ze_ptr v)) → cond_fwd h test x i r = Ok (P v).
Proof.
  intros Ht x i r v Hv Hf. unfold cond_fwd. destruct (get_level_ok (view_self h) _ _ _ Hf) as (? & _ & ->). rs.
  cbn [forward]. by apply Ht.
Qed.

(** A search from the header *)
Lemma search_any test (P : zent → bool) : (∀ x, x ∈ xs → test (ze_ptr x) = Ok (P x)) →
  ∃ us xs1 xs2, descend (zsl_fuel z) (cond_fwd h test) h (zsl_level z) (zsl_header z) 0 [] = Ok us ∧
    length us = zsl_level z ∧ xs = xs1 ++ xs2 ∧ ∀ i u, us !! i = Some u → upd_ok (hd_ent (zsl_header z) :: xs1) i u.
Proof.
  intros Ht. destruct any_list as (L & H0 & Hlen & Hf). pose proof (inv_level R) as Hl.
  destruct (descend_any (view_self h) (zsl_level z) l L H0 Hlen _ P (cond_none test) (cond_some test P Ht) (zsl_fuel z) Hf
    (zsl_level z) [] (hd_ent (zsl_header z)) xs [] []) as (us & l1 & l2 & Hd & Hus & E & Hu & H1 & _);
    [by rewrite app_nil_r|cbn; lia|lia|done|].
  rewrite app_nil_r in Hd. destruct l1 as [|e xs1]; [cbn in H1; lia|]. injection E as <- E. by exists us, xs1, l2.
Qed.

(** *** The nth element of a range *)

Context (gte lte : zent → bool) (gt lt : ptr → res bool).
Hypothesis (Hgt : ∀ x, x ∈ xs → gt (ze_ptr x) = Ok (gte x)).
Hypothesis (Hlt : ∀ x, x ∈ xs → lt (ze_ptr x) = Ok (lte x)).

(** The node returned is one of the list. *)
Definition is_node (o : option (ptr * Z)) : Prop := ∀ p r, o = Some (p, r) → ∃ j x, xs !! j = Some x ∧ p = ze_ptr x.

Lemma result_any test (P : zent → bool) j r : (∀ x, x ∈ xs → test (ze_ptr x) = Ok (P x)) →
  ∃ o, nth_result test (ze_ptr <$> xs !! j) r = Ok o ∧ is_node o.
Proof.
  intros Ht. rewrite (nth_final test P j r Ht). eexists. split; [done|]. intros p r'.
  destruct (xs !! j) as [x|] eqn:E; [|done]. cbn. destruct (P x); [|done]. intros [= <- _]. by exists j, x.
Qed.

(** Where a search that starts at the node [e] ends *)
Lemma lower_any test (P : zent → bool) n a e c stop acc :
  (∀ x, x ∈ xs → test (ze_ptr x) = Ok (P x)) →
  l = a ++ e :: c ++ stop → (n ≤ ze_height e)%nat → (n ≤ zsl_level z)%nat → (∀ i, (i < n)%nat → barrier P i stop) →
  (n = 0%nat → head acc = Some (ze_ptr e, zlen a)) →
  ∃ us a0 e0 b0, descend (zsl_fuel z) (cond_fwd h test) h n (ze_ptr e) (zlen a) acc = Ok us ∧
    nth_update us 0 = Ok (ze_ptr e0, zlen a0) ∧ l = a0 ++ e0 :: b0 ∧ (length a ≤ length a0)%nat.
Proof.
  intros Ht E He Hn Hb Hacc. destruct any_list as (L & H0 & Hlen & Hf).
  destruct (descend_any (view_self h) (zsl_level z) l L H0 Hlen _ P (cond_none test) (cond_some test P Ht) (zsl_fuel z) Hf
    n a e c stop acc E He Hn Hb) as (us & l1 & l2 & -> & Hus & El & Hu & H1 & _).
  exists (us ++ acc). unfold nth_update. destruct us as [|u us].
  - cbn in Hus. specialize (Hacc (eq_sym Hus)). destruct acc as [|u acc]; [done|]. injection Hacc as ->.
    exists a, e, (c ++ stop). by split_and!.
  - rewrite El in H0. apply Forall_app in H0 as [H0 _].
    destruct (upd_ok_last l1 u H0 (Hu 0%nat u eq_refl)) as (a0 & x0 & -> & ->). exists a0, x0, l2.
    rewrite length_app in H1. cbn [length] in H1. rewrite <- (assoc_L (++)) in El. split_and!; [done..|lia].
Qed.

(** A jump from a node of the top level *)
Lemma jump_any a e b j : l = a ++ e :: b → (zsl_level z ≤ ze_height e)%nat → 0 ≤ j < 2 ^ 63 →
  ∃ o, zslGetElementByRankFromNode (zsl_fuel z) h (ze_ptr e) (zsl_level z) 0 (u64 (j + 1 - zlen a)) = Ok o ∧
    (o = None ∨ o = ze_ptr <$> xs !! Z.to_nat j).
Proof.
  intros E He Hj. pose proof (f_equal length E) as Hl. rewrite length_app in Hl. cbn [length] in Hl.
  pose proof (rep_small _ _ _ R). rewrite (jump_ok R a e b) by (done || apply wrapu_range; lia).
  eexists. split; [done|]. destruct (decide (zlen a ≤ j + 1)) as [Ha|Ha].
  - right. rewrite wrapu_small by lia. change (xs !! Z.to_nat j) with (l !! Datatypes.S (Z.to_nat j)).
    rewrite E, lookup_app_r by lia. do 2 f_equal. lia.
  - left. rewrite lookup_ge_None_2; [done|]. cbn [length]. unfold wrapu.
    rewrite <- (Z.mod_add _ 1), Z.mod_small by lia. lia.
Qed.

Lemma result_some test (P : zent → bool) o j r : (∀ x, x ∈ xs → test (ze_ptr x) = Ok (P x)) →
  o = None ∨ o = ze_ptr <$> xs !! j → ∃ o', nth_result test o r = Ok o' ∧ is_node o'.
Proof. intros Ht [->| ->]; [by exists None|by eapply result_any]. Qed.

Lemma nth_any_pos edge a e b a0 e0 b0 n :
  l = a ++ e :: b → (zsl_level z ≤ ze_height e)%nat → l = a0 ++ e0 :: b0 → (length a ≤ length a0)%nat → edge = zlen a0 →
  0 ≤ n → edge + n < zlen xs →
  ∃ o, (x ← (if n <? ZSKIPLIST_MAX_SEARCH then steps_forward h (Z.to_nat (n + 1)) (Some (ze_ptr e0))
             else zslGetElementByRankFromNode (zsl_fuel z) h (ze_ptr e) (zsl_level z) 0 (u64 (edge + 1 + n - zlen a)));
        nth_result lt x (u64 (edge + n + 1))) = Ok o ∧ is_node o.
Proof.
  intros E He E0 Ha -> Hn Hb. pose proof (rep_small _ _ _ R). pose proof (f_equal length E0) as Hl0.
  rewrite length_app in Hl0. cbn [length] in Hl0. destruct (n <? ZSKIPLIST_MAX_SEARCH).
  - rewrite (steps_forward_ok R _ a0 e0 b0 E0) by lia. rs. replace (Z.to_nat (n + 1)) with (Datatypes.S (Z.to_nat n)) by lia.
    assert ((e0 :: b0) !! Datatypes.S (Z.to_nat n) = xs !! (length a0 + Z.to_nat n)%nat) as ->; [|by eapply result_any].
    change (xs !! _) with (l !! Datatypes.S (length a0 + Z.to_nat n)). rewrite E0, lookup_app_r by lia. f_equal. lia.
  - destruct (jump_any a e b (zlen a0 + n) E He ltac:(lia)) as (o & Hj & Ho).
    replace (zlen a0 + n + 1 - zlen a) with (zlen a0 + 1 + n - zlen a) in Hj by lia. rewrite Hj. rs.
    by eapply result_some.
Qed.

Lemma nth_any_neg edge a e b a0 e0 b0 n :
  l = a ++ e :: b → (zsl_level z ≤ ze_height e)%nat → l = a0 ++ e0 :: b0 → edge = zlen a0 →
  INT64_MIN < n < 0 → - n ≤ edge →
  ∃ o, (x ← (if - ZSKIPLIST_MAX_SEARCH <? n + 1 then steps_backward h (Z.to_nat (- n - 1)) (Some (ze_ptr e0))
             else zslGetElementByRankFromNode (zsl_fuel z) h (ze_ptr e) (zsl_level z) 0 (u64 (edge + 1 + n - zlen a)));
        nth_result gt x (u64 (edge + n + 1))) = Ok o ∧ is_node o.
Proof.
  intros E He E0 -> Hn Hb. pose proof (rep_small _ _ _ R). pose proof (f_equal length E0) as Hl0.
  rewrite length_app in Hl0. cbn [length] in Hl0. destruct (- ZSKIPLIST_MAX_SEARCH <? n + 1).
  - destruct a0 as [|y a0]; [cbn in Hb; lia|]. injection E0 as _ Ex. cbn [length] in *.
    rewrite (steps_backward_ok R _ a0 e0 b0 Ex) by lia. rs. by eapply result_any.
  - destruct (jump_any a e b (zlen a0 + n) E He ltac:(lia)) as (o & Hj & Ho).
    replace (zlen a0 + n + 1 - zlen a) with (zlen a0 + 1 + n - zlen a) in Hj by lia. rewrite Hj. rs.
    by eapply result_some.
Qed.

(** For the least integer, the rank that is jumped to wraps around. *)
Lemma nth_any_min edge a e b :
  l = a ++ e :: b → (zsl_level z ≤ ze_height e)%nat → 0 ≤ edge ≤ zlen xs →
  (x ← zslGetElementByRankFromNode (zsl_fuel z) h (ze_ptr e) (zsl_level z) 0 (u64 (edge + 1 + INT64_MIN - zlen a));
   nth_result gt x (u64 (edge + INT64_MIN + 1))) = Ok None.
Proof.
  intros E He Hb. pose proof (rep_small _ _ _ R). pose proof (f_equal length E) as Hl. rewrite length_app in Hl. cbn [length] in Hl.
  rewrite (jump_ok R a e b) by (done || apply wrapu_range; lia). rs. rewrite lookup_ge_None_2; [done|].
  cbn [length]. unfold wrapu. rewrite <- (Z.mod_add _ 1), Z.mod_small by lia. lia.
Qed.

Lemma nth_any n : is_i64 n → ∃ o, nth_in_range h z (Ok true) gt lt n = Ok o ∧ is_node o.
Proof.
  intros Hn. unfold is_i64 in Hn. unfold nth_in_range. rs. cbn [negb]. set (out := λ x, g ← gt x; Ok (negb g)).
  assert (∀ x, x ∈ xs → out (ze_ptr x) = Ok (negb (gte x))) as Hout by (intros x Hx; unfold out; by rewrite Hgt).
  destruct any_list as (L & H0 & Hlen & Hf). pose proof (inv_level R) as Hlv. pose proof (rep_small _ _ _ R) as Hs.
  destruct (walk_any (view_self h) (zsl_level z) l L H0 Hlen _ (λ x, negb (gte x)) (cond_none out) (cond_some out _ Hout)
    (pred (zsl_level z)) ltac:(lia) (zsl_fuel z) [] (hd_ent (zsl_header z)) xs []) as (a & e & c & stop & Hw & E & He & _ & Hb & _);
    [by rewrite app_nil_r|cbn; lia|cbn [length] in Hf; lia|done|].
  cbn [length] in Hw. change (Z.of_nat 0) with 0 in Hw. change (ze_ptr (hd_ent (zsl_header z))) with (zsl_header z) in Hw.
  rewrite Hw. rs. destruct (0 <=? n) eqn:En.
  - destruct (lower_any out (λ x, negb (gte x)) (pred (zsl_level z)) a e c stop [(ze_ptr e, zlen a)] Hout E)
      as (us & a0 & e0 & b0 & -> & Hu & E0 & Ha); [lia|lia| |done|].
    { intros i Hi y Hy. destruct (Hb y Hy). split; [done|lia]. }
    rs. rewrite Hu. rs. pose proof (f_equal length E0) as Hl0. rewrite length_app in Hl0. cbn [length] in Hl0.
    rewrite (rep_length _ _ _ R), (wrapu_small 64 (_ + n)) by lia. destruct (Z.leb_spec (zlen xs) (zlen a0 + n)); [by exists None|].
    eapply nth_any_pos; try done; lia.
  - destruct (lower_any lt lte (zsl_level z) a e (c ++ stop) [] [] Hlt) as (us & a0 & e0 & b0 & -> & Hu & E0 & Ha);
      [by rewrite app_nil_r|lia|lia|done|lia|].
    rs. rewrite Hu. rs. pose proof (f_equal length E0) as Hl0. rewrite length_app in Hl0. cbn [length] in Hl0.
    destruct (decide (n = INT64_MIN)) as [->|Hmin].
    + change (s64 (- INT64_MIN)) with INT64_MIN. destruct (Z.ltb_spec (zlen a0) INT64_MIN); [by exists None|].
      change (- ZSKIPLIST_MAX_SEARCH <? INT64_MIN + 1) with false. exists None. split; [|done].
      eapply nth_any_min; [done|lia|lia].
    + rewrite s64_small by lia. destruct (Z.ltb_spec (zlen a0) (- n)); [by exists None|]. eapply nth_any_neg; try done; lia.
Qed.
End any.
