(* ===== verification/SklSpec.v ===== *)
(** The contract of the skiplist: what each operation of [t_zset.c] does to the
    sequence of elements it represents, with concrete runs. *)

From S2P Require Import Prelude Sds Skiplist SklRep SklLink SklMod SklDel SklUpd SklRank.
From Stdlib Require Import SpecFloat.

(** ** A concrete skiplist *)

#[local] Instance alloc_exact : Allocator := {| usable n := n; junk _ := 0; usable_ge := Z.le_refl |}.
#[local] Instance node_alloc : NodeAlloc :=
  {| new_ptr X := fresh X; new_ptr_fresh X := is_fresh X; junk_level _ := ZLevel (Some 7%positive) 9 |}.

Definition dbl (z : Z) : double := binary_normalize 53 1024 z 0 false.

(** [random()] values: the first makes the node one level higher, the other
    stops. *)
Definition rnd_up : Z := 5.
Definition rnd_stop : Z := 2000000000.

Definition ex_run (s : double) : res (zheap * zskiplist) :=
  '(h, z) ← zslCreate ∅;
  '(h, z, _, _) ← zslInsert [rnd_up; rnd_stop] h z s (chars "two");
  '(h, z, _, _) ← zslInsert [rnd_stop] h z (dbl 1) (chars "one");
  Ok (h, z).

Definition ex_heap (s : double) : zheap := match ex_run s with Ok (h, _) => h | _ => ∅ end.
Definition ex_zsl (s : double) : zskiplist :=
  match ex_run s with Ok (_, z) => z | _ => Zsl 1 None 0 1 0 end.

(** Two elements with the scores 1 and 2, and two with the score 1; the sizes
    are those of their allocations. *)
Definition ex_h : zheap := ex_heap (dbl 2).
Definition ex_z : zskiplist := ex_zsl (dbl 2).
Definition lex_h : zheap := ex_heap (dbl 1).
Definition lex_z : zskiplist := ex_zsl (dbl 1).
Definition ex_one : zent := ZE 3 (dbl 1) (chars "one") 1 37.
Definition ex_two : zent := ZE 2 (dbl 2) (chars "two") 2 53.
Definition lex_two : zent := ZE 2 (dbl 1) (chars "two") 2 53.

(** Check the links of a list of two nodes with one and two levels. *)
Ltac check_links :=
  intros a e b i E He; destruct a as [|? [|? [|? [|]]]]; simplify_eq/=;
  [unfold ZSKIPLIST_MAXLEVEL in He;
   do 32 (destruct i as [|i]; [vm_compute; split; [done|intros [? ?]; done || lia]|]); lia
  |destruct i as [|i]; [|lia]; vm_compute; split; [done|lia]
  |destruct i as [|[|i]]; [| |lia]; vm_compute; (split; [done|try done; lia])].

Ltac check_rep :=
  split; [|vm_compute; done]; split;
  [apply (bool_decide_eq_true_1 _); vm_compute; done|repeat constructor|repeat constructor
  |repeat constructor; vm_compute; lia|done|done|done|done|check_links
  |intros a e b E; destruct a as [|? [|? [|]]]; simplify_eq/=; vm_compute; done
  |constructor; [exists 33; split; [lia|vm_compute; done]
                |constructor; [exists 49; split; [lia|vm_compute; done]|constructor]]
  |vm_compute; done].

Lemma ex_rep : zsl_rep ex_h ex_z [ex_one; ex_two].
Proof. check_rep. Qed.

Lemma lex_rep : zsl_rep lex_h lex_z [ex_one; lex_two].
Proof. check_rep. Qed.

(** ** Insertion, removal and score updates *)

(** C26: [zslInsert] of a score and an element that is not in the list, with the
    random numbers [rnd], allocates a node, links it at every one of its levels
    and keeps the list ordered by score and then by element: the result
    represents the old sequence with the new node at its place.  Spans,
    backward pointers, tail, length, level and memory accounting are part of
    [zsl_rep]; no access faults. *)
Theorem zslInsert_spec `{Allocator} `{NodeAlloc} rnd h z xs s k lv rnd' :
  zsl_rep h z xs → isnan s = false → (∀ x, x ∈ xs → ekey x ≠ zkey s k) →
  zlen xs + 1 < INT64_MAX → zslRandomLevel rnd = Ok (lv, rnd') →
  ∃ h' z' e xs1 xs2, xs = xs1 ++ xs2 ∧
    zslInsert rnd h z s k = Ok (h', z', ze_ptr e, rnd') ∧
    ze_score e = s ∧ ze_ele e = k ∧ ze_height e = lv ∧ h !! ze_ptr e = None ∧
    zsl_rep h' z' (xs1 ++ e :: xs2).
Proof.
  intros HR Hs Hk Hl Hr.
  destruct (insert_ok rnd h z xs s k lv rnd' HR Hs Hk Hl Hr) as (h' & z' & us & xs1 & xs2 & E & Hi & HR').
  eexists h', z', _, xs1, xs2. split_and!; try done. apply not_elem_of_dom, new_ptr_fresh.
Qed.

Lemma zslInsert_spec_witness :
  zslRandomLevel [rnd_up; rnd_up; rnd_stop] = Ok (3%nat, []) ∧
  ∃ h' z' e xs1 xs2, [ex_one; ex_two] = xs1 ++ xs2 ∧
    zslInsert [rnd_up; rnd_up; rnd_stop] ex_h ex_z (dbl 2) (chars "deux") = Ok (h', z', ze_ptr e, []) ∧
    ze_score e = dbl 2 ∧ ze_ele e = chars "deux" ∧ ze_height e = 3%nat ∧ ex_h !! ze_ptr e = None ∧
    zsl_rep h' z' (xs1 ++ e :: xs2).
Proof.
  split; [done|]. apply (zslInsert_spec _ ex_h ex_z [ex_one; ex_two]); [apply ex_rep|done| |done|done].
  intros x Hx E. assert (x = ex_one ∨ x = ex_two) as [->| ->] by set_solver; vm_compute in E; done.
Defined.

(** C28: [zslDelete] of a node of the list passes its assertion, unlinks the node
    at every level, lowers the level of the list when its top levels become
    empty, frees the node, and leaves the other nodes in order. *)
Theorem zslDelete_spec `{Allocator} h z xs1 e xs2 :
  zsl_rep h z (xs1 ++ e :: xs2) →
  ∃ h' z', zslDelete h z (ze_ptr e) = Ok (h', z') ∧ zsl_rep h' z' (xs1 ++ xs2) ∧
    h' !! ze_ptr e = None.
Proof. apply zsl_delete_ok. Qed.

Lemma zslDelete_spec_witness :
  ∃ h' z', zslDelete ex_h ex_z (ze_ptr ex_two) = Ok (h', z') ∧ zsl_rep h' z' [ex_one] ∧
    h' !! ze_ptr ex_two = None.
Proof. apply (zslDelete_spec ex_h ex_z [ex_one] ex_two []). apply ex_rep. Defined.

(** C30: [zslUpdateScore], on its fast path (the score is written in place) and on
    its slow path (the node is unlinked and inserted again), yields the sequence
    in which the same node has the new score and is at its place in the order. *)
Theorem zslUpdateScore_spec `{Allocator} h z xs1 e xs2 s :
  zsl_rep h z (xs1 ++ e :: xs2) → isnan s = false →
  (∀ x, x ∈ xs1 ++ xs2 → ekey x ≠ zkey s (ze_ele e)) →
  ∃ h' z' ys1 ys2, xs1 ++ xs2 = ys1 ++ ys2 ∧ zslUpdateScore h z (ze_ptr e) s = Ok (h', z') ∧
    zsl_rep h' z' (ys1 ++ with_score e s :: ys2).
Proof. apply update_ok. Qed.

Lemma zslUpdateScore_spec_witness :
  ∃ h' z' ys1 ys2, [ex_two] = ys1 ++ ys2 ∧
    zslUpdateScore ex_h ex_z (ze_ptr ex_one) (dbl 3) = Ok (h', z') ∧
    zsl_rep h' z' (ys1 ++ with_score ex_one (dbl 3) :: ys2).
Proof.
  apply (zslUpdateScore_spec ex_h ex_z [] ex_one [ex_two] (dbl 3)); [apply ex_rep|done|].
  intros x Hx E. assert (x = ex_two) as -> by set_solver. vm_compute in E. done.
Defined.

(** ** Deletion of ranges *)

(** The elements whose score is, or is not, in the range *)
Definition in_score_range (r : zrangespec) : bool → zent → Prop :=
  inside (λ x, zslValueGteMin (ze_score x) r) (λ x, zslValueLteMax (ze_score x) r).

(** The elements whose bytes are, or are not, in the lexicographic range *)
Definition in_lex_range (r : zlexrangespec) : bool → zent → Prop :=
  inside (λ x, zslLexValueGteMin (ze_ele x) r) (λ x, zslLexValueLteMax (ze_ele x) r).

#[export] Instance in_score_range_dec r b x : Decision (in_score_range r b x).
Proof. apply inside_dec. Defined.
#[export] Instance in_lex_range_dec r b x : Decision (in_lex_range r b x).
Proof. apply inside_dec. Defined.

(** The deletion of a range of scores *)
Lemma score_range_ok `{Allocator} h z xs r d :
  zsl_rep h z xs → isnan (zr_min r) = false → isnan (zr_max r) = false →
  ∃ h' z', zslDeleteRangeByScore h z r d =
      Ok (h', z', foldl zdict_delete d (ze_ele <$> filter (in_score_range r true) xs),
          zlen (filter (in_score_range r true) xs)) ∧
    zsl_rep h' z' (filter (in_score_range r false) xs).
Proof.
  intros HR Hmin Hmax. pose proof HR as [R _]. unfold zslDeleteRangeByScore.
  apply (delete_tests_ok _ _ _ (λ h x, score_test h (λ s, zslValueLteMax s r) x) h z xs d HR).
  - intros x y Hx Hy. destruct (inv_data R x Hx) as (_ & _ & ?).
    destruct (inv_data R y Hy) as (_ & _ & ?). by apply gte_mono.
  - intros x y Hx Hy. destruct (inv_data R x Hx) as (_ & _ & ?).
    destruct (inv_data R y Hy) as (_ & _ & ?). by apply lte_mono.
  - intros x Hx. destruct (inv_data R x Hx) as (Dx & Hh & _). by apply (score_test_ok (view_self h)).
  - intros h0 z0 l x R0 Hx. destruct (inv_data R0 x Hx) as (Dx & Hh & _).
    by apply (score_test_ok (view_self h0)).
Qed.

(** C35: [zslDeleteRangeByScore] removes from the list and from the dictionary
    exactly the elements whose score is in the range, with exclusive and
    infinite bounds, and returns their number. *)
Theorem zslDeleteRangeByScore_spec `{Allocator} h z xs r d :
  zsl_rep h z xs → isnan (zr_min r) = false → isnan (zr_max r) = false →
  ∃ h' z', zslDeleteRangeByScore h z r d =
      Ok (h', z', foldl zdict_delete d (ze_ele <$> filter (in_score_range r true) xs),
          zlen (filter (in_score_range r true) xs)) ∧
    zsl_rep h' z' (filter (in_score_range r false) xs).
Proof. apply score_range_ok. Qed.

Definition ex_range : zrangespec := ZRange (dbl 1) (S754_infinity false) true false.

Lemma zslDeleteRangeByScore_spec_witness :
  filter (in_score_range ex_range true) [ex_one; ex_two] = [ex_two] ∧
  ∃ h' z', zslDeleteRangeByScore ex_h ex_z ex_range ∅ =
      Ok (h', z', foldl zdict_delete ∅ (ze_ele <$> filter (in_score_range ex_range true) [ex_one; ex_two]),
          zlen (filter (in_score_range ex_range true) [ex_one; ex_two])) ∧
    zsl_rep h' z' (filter (in_score_range ex_range false) [ex_one; ex_two]).
Proof. split; [done|]. apply zslDeleteRangeByScore_spec; [apply ex_rep|done|done]. Defined.

(** The deletion of a lexicographic range *)
Lemma lex_range_ok `{Allocator} h z xs r d :
  zsl_rep h z xs → same_scores xs →
  ∃ h' z', zslDeleteRangeByLex h z r d =
      Ok (h', z', foldl zdict_delete d (ze_ele <$> filter (in_lex_range r true) xs),
          zlen (filter (in_lex_range r true) xs)) ∧
    zsl_rep h' z' (filter (in_lex_range r false) xs).
Proof.
  intros HR Hsame. pose proof HR as [R _]. unfold zslDeleteRangeByLex.
  apply (delete_tests_ok _ _ _ (λ h x, ele_test h (λ e, zslLexValueLteMax e r) x) h z xs d HR).
  - intros x y Hx Hy Hxy. eapply lex_gte_mono, zlt_ele; [|done]. by apply Hsame.
  - intros x y Hx Hy Hxy. eapply lex_lte_mono, zlt_ele; [|done]. by apply Hsame.
  - intros x Hx. destruct (inv_data R x Hx) as (Dx & Hh & _). by apply (ele_test_ok (view_self h)).
  - intros h0 z0 l x R0 Hx. destruct (inv_data R0 x Hx) as (Dx & Hh & _).
    by apply (ele_test_ok (view_self h0)).
Qed.

(** [zslDeleteRangeByLex] removes exactly the elements between the two bounds
    of the lexicographic range, in a list whose elements have the same score
    (the order of the elements is unspecified otherwise). *)
Theorem zslDeleteRangeByLex_spec `{Allocator} h z xs r d :
  zsl_rep h z xs → same_scores xs →
  ∃ h' z', zslDeleteRangeByLex h z r d =
      Ok (h', z', foldl zdict_delete d (ze_ele <$> filter (in_lex_range r true) xs),
          zlen (filter (in_lex_range r true) xs)) ∧
    zsl_rep h' z' (filter (in_lex_range r false) xs).
Proof. apply lex_range_ok. Qed.

Definition ex_lexrange : zlexrangespec := ZLexRange (Lex (chars "p")) Maxstring true true.

Lemma zslDeleteRangeByLex_spec_witness :
  filter (in_lex_range ex_lexrange true) [ex_one; lex_two] = [lex_two] ∧
  ∃ h' z', zslDeleteRangeByLex lex_h lex_z ex_lexrange ∅ =
      Ok (h', z', foldl zdict_delete ∅ (ze_ele <$> filter (in_lex_range ex_lexrange true) [ex_one; lex_two]),
          zlen (filter (in_lex_range ex_lexrange true) [ex_one; lex_two])) ∧
    zsl_rep h' z' (filter (in_lex_range ex_lexrange false) [ex_one; lex_two]).
Proof.
  split; [done|]. apply zslDeleteRangeByLex_spec; [apply lex_rep|].
  intros x y Hx Hy. assert (x = ex_one ∨ x = lex_two) as [-> | ->] by set_solver;
    assert (y = ex_one ∨ y = lex_two) as [-> | ->] by set_solver; done.
Defined.

(** The deletion of a range of ranks *)
Lemma rank_range_ok `{Allocator} h z xs start end_ d :
  zsl_rep h z xs → 1 ≤ start ≤ UINT32_MAX → 0 ≤ end_ ≤ UINT32_MAX →
  let ds := take (Z.to_nat (end_ - start + 1)) (drop (Z.to_nat (start - 1)) xs) in
  ∃ h' z', zslDeleteRangeByRank h z start end_ d =
      Ok (h', z', foldl zdict_delete d (ze_ele <$> ds), zlen ds) ∧
    zsl_rep h' z' (take (Z.to_nat (start - 1)) xs ++
                   drop (Z.to_nat (end_ - start + 1)) (drop (Z.to_nat (start - 1)) xs)).
Proof.
  intros HR Hs He. set (rest := drop (Z.to_nat (start - 1)) xs). cbv zeta.
  set (xs1 := take (Z.to_nat (start - 1)) xs).
  set (ds := take (Z.to_nat (end_ - start + 1)) rest). set (ys := drop (Z.to_nat (end_ - start + 1)) rest).
  assert (xs = xs1 ++ ds ++ ys) as E by (unfold ds, ys, rest, xs1; by rewrite !take_drop).
  pose proof HR as [R _]. pose proof (rep_small _ _ _ R) as Hsm.
  assert (length xs1 = Nat.min (Z.to_nat (start - 1)) (length xs)) as H1 by apply length_take.
  assert (length ds = Nat.min (Z.to_nat (end_ - start + 1)) (length rest)) as H2 by apply length_take.
  assert (length rest = (length xs - Z.to_nat (start - 1))%nat) as H3 by apply length_drop.
  pose proof (f_equal length E) as Hlen. rewrite !length_app in Hlen. clearbody xs1 ds ys rest.
  rewrite E in HR. destruct (inv_cut R xs1 (ds ++ ys) E) as (L & H0 & Hl & _).
  apply (zsl_delete_range_ok _ _ (λ _ k, u64 (zlen xs1 + 1 + k) <=? end_) xs1 ds ys h z d HR).
  - apply (cond_rank_ok (view_self h) _ _ _ L H0 Hl). intros k Hk Hkl.
    cbn [length app] in *. rewrite !length_app in Hkl.
    destruct (_ <? start) eqn:Ek; symmetry.
    + apply bool_decide_eq_true_2. lia.
    + apply bool_decide_eq_false_2. lia.
  - done.
  - intros i x Hx. apply lookup_lt_Some in Hx. rewrite wrapu_small; lia.
  - intros y Hy. destruct ys as [|y' ys]; [done|]. cbn [length] in *. rewrite wrapu_small; lia.
Qed.

(** [zslDeleteRangeByRank] removes the nodes with ranks [start] to [end],
    counted from 1, whatever part of the interval exists. *)
Theorem zslDeleteRangeByRank_spec `{Allocator} h z xs start end_ d :
  zsl_rep h z xs → 1 ≤ start ≤ UINT32_MAX → 0 ≤ end_ ≤ UINT32_MAX →
  let ds := take (Z.to_nat (end_ - start + 1)) (drop (Z.to_nat (start - 1)) xs) in
  ∃ h' z', zslDeleteRangeByRank h z start end_ d =
      Ok (h', z', foldl zdict_delete d (ze_ele <$> ds), zlen ds) ∧
    zsl_rep h' z' (take (Z.to_nat (start - 1)) xs ++
                   drop (Z.to_nat (end_ - start + 1)) (drop (Z.to_nat (start - 1)) xs)).
Proof. apply rank_range_ok. Qed.


Lemma zslDeleteRangeByRank_spec_witness :
  let ds := take (Z.to_nat (1 - 1 + 1)) (drop (Z.to_nat (1 - 1)) [ex_one; ex_two]) in
  ∃ h' z', zslDeleteRangeByRank ex_h ex_z 1 1 ∅ =
      Ok (h', z', foldl zdict_delete ∅ (ze_ele <$> ds), zlen ds) ∧
    zsl_rep h' z' (take (Z.to_nat (1 - 1)) [ex_one; ex_two] ++
                   drop (Z.to_nat (1 - 1 + 1)) (drop (Z.to_nat (1 - 1)) [ex_one; ex_two])).
Proof. apply zslDeleteRangeByRank_spec; [apply ex_rep|lia|lia]. Defined.

(** ** Ranks *)

(** [zslGetRank] returns the rank, counted from 1, of the node with the given
    score and element, and 0 if there is none. *)
Theorem zslGetRank_spec `{Allocator} h z xs s k :
  zsl_inv h z xs → isnan s = false →
  (∀ i x, xs !! i = Some x → ekey x = zkey s k → zslGetRank h z s k = Ok (Z.of_nat i + 1)) ∧
  ((∀ x, x ∈ xs → ekey x ≠ zkey s k) → zslGetRank h z s k = Ok 0).
Proof.
  intros R Hs. destruct (sorted_cut (λ x, lexcmp (ekey x) (zkey s k) <=? 0) xs (rep_sorted _ _ _ R))
    as (xs1 & xs2 & E & H1 & H2).
  { intros x y _ _ Hxy Hy. apply Z.leb_le in Hy. apply Z.leb_le.
    pose proof (lexcmp_lt_le_trans _ _ _ Hxy Hy). lia. }
  rewrite (get_rank_ok R s k xs1 xs2 E Hs);
    [|eapply Forall_impl; [done|]; simpl; lia|eapply Forall_impl; [done|]; simpl; lia].
  unfold rank_of. rewrite !Forall_lookup in *. split.
  - intros i x Hi Ek. rewrite E in Hi. apply lookup_app_Some in Hi as [Hi|[_ Hi]].
    2:{ specialize (H2 _ _ Hi). simpl in H2. rewrite Ek, lexcmp_refl in H2. done. }
    destruct xs1 as [|y xs1 _] using rev_ind; [done|]. rewrite last_snoc, length_app. cbn [length].
    apply lookup_app_Some in Hi as [Hi|[Hge Hi]].
    + exfalso. specialize (H1 (length xs1) y). rewrite lookup_app_r, Nat.sub_diag in H1 by lia.
      specialize (H1 eq_refl). simpl in H1.
      pose proof (rep_sorted _ _ _ R) as HS. rewrite E, <- (assoc_L (++)) in HS.
      apply sorted_mid in HS as (_ & HS & _). rewrite Forall_lookup in HS.
      specialize (HS _ _ Hi). unfold zlt in HS. rewrite Ek, lexcmp_opp in HS. lia.
    + apply list_lookup_singleton_Some in Hi as [? ->]. rewrite decide_True by done. f_equal. lia.
  - intros Hne. destruct (last xs1) as [x|] eqn:Ex; [|done]. rewrite decide_False; [done|].
    apply Hne. rewrite E. apply last_Some_elem_of in Ex. set_solver.
Qed.

Lemma zslGetRank_spec_witness :
  (∀ i x, [ex_one; ex_two] !! i = Some x → ekey x = zkey (dbl 2) (chars "two") →
     zslGetRank ex_h ex_z (dbl 2) (chars "two") = Ok (Z.of_nat i + 1)) ∧
  ((∀ x, x ∈ [ex_one; ex_two] → ekey x ≠ zkey (dbl 2) (chars "two")) →
     zslGetRank ex_h ex_z (dbl 2) (chars "two") = Ok 0).
Proof. apply zslGetRank_spec; [apply ex_rep|done]. Defined.

(** [zslGetElementByRank] and [zslGetRankByNode] are inverse to each other:
    the first finds the node at a rank, the second computes the rank of a node
    from the distance to the end of the list; ranks past the end give null. *)
Theorem zsl_rank_roundtrip `{Allocator} h z xs i :
  zsl_inv h z xs →
  zslGetElementByRank h z (Z.of_nat i + 1) = Ok (ze_ptr <$> xs !! i) ∧
  ∀ x, xs !! i = Some x → zslGetRankByNode h z (ze_ptr x) = Ok (Z.of_nat i + 1).
Proof.
  intros R. split.
  - rewrite (element_ok R) by lia. do 3 f_equal. lia.
  - intros x Hx. apply list_elem_of_split_length in Hx as (a & b & E & ->). by apply (by_node_ok R a x b).
Qed.

Lemma zsl_rank_roundtrip_witness :
  zslGetElementByRank ex_h ex_z (Z.of_nat 1 + 1) = Ok (ze_ptr <$> [ex_one; ex_two] !! 1%nat) ∧
  ∀ x, [ex_one; ex_two] !! 1%nat = Some x → zslGetRankByNode ex_h ex_z (ze_ptr x) = Ok (Z.of_nat 1 + 1).
Proof. apply zsl_rank_roundtrip. apply ex_rep. Defined.

(** ** The nth element of a range *)

(** The test at the start of [zslNthInRange]: it is false only for ranges without
    elements, and true only if the bounds are in order. *)
Lemma ends_ok `{Allocator} h z xs gte lte gt lt :
  zsl_inv h z xs →
  (∀ x, x ∈ xs → gt (ze_ptr x) = Ok (gte x)) → (∀ x, x ∈ xs → lt (ze_ptr x) = Ok (lte x)) →
  ends_in_range h z gt lt =
    Ok (match last xs, head xs with Some x, Some y => gte x && lte y | _, _ => false end).
Proof.
  intros R Hg Hl. unfold ends_in_range. rewrite (rep_tail _ _ _ R).
  destruct (next_node h z [] xs R) as (s & Hn). cbn in Hn. change (default _ _) with (zsl_header z) in Hn.
  destruct xs as [|y l _] eqn:E using rev_ind; [done|]. rewrite last_snoc. cbn [fmap option_fmap option_map].
  rewrite Hg by set_solver. rs. destruct (gte y) eqn:Ey; cbn [negb].
  - rewrite Hn. rs. cbn [forward]. destruct l as [|w l]; cbn [app head fmap option_fmap option_map].
    + rewrite Hl by set_solver. done.
    + rewrite Hl by set_solver. done.
  - destruct l; done.
Qed.

Lemma nth_spec_nil xs1 n : nth_spec xs1 [] n = None.
Proof. unfold nth_spec. by destruct (0 <=? n), (0 <=? _). Qed.

Lemma sorted_last xs x w : StronglySorted zlt xs → x ∈ xs → last xs = Some w → x = w ∨ zlt x w.
Proof.
  intros HS Hx Hw. destruct xs as [|y l _] using rev_ind; [done|].
  rewrite last_snoc in Hw. injection Hw as ->. apply elem_of_app in Hx as [Hx|Hx]; [right|left; set_solver].
  apply StronglySorted_app in HS as (HS & _). apply HS; set_solver.
Qed.

Lemma sorted_head xs x w : StronglySorted zlt xs → x ∈ xs → head xs = Some w → x = w ∨ zlt w x.
Proof.
  intros HS Hx Hw. destruct xs as [|y l]; [done|]. injection Hw as ->.
  apply elem_of_cons in Hx as [->|Hx]; [by left|right].
  apply StronglySorted_inv in HS as [_ HS]. rewrite Forall_forall in HS. auto.
Qed.

(** The nodes before a non-empty range, and the nodes in it *)
Lemma nth_range_ok `{Allocator} h z xs gte lte gt lt (empty : bool) :
  zsl_inv h z xs →
  (∀ x y, x ∈ xs → y ∈ xs → zlt x y → gte x = true → gte y = true) →
  (∀ x y, x ∈ xs → y ∈ xs → zlt x y → lte y = true → lte x = true) →
  (∀ x, x ∈ xs → gt (ze_ptr x) = Ok (gte x)) → (∀ x, x ∈ xs → lt (ze_ptr x) = Ok (lte x)) →
  (empty = true → ∀ x, x ∈ xs → gte x && lte x = false) →
  (empty = false → ∀ x, x ∈ xs → gte x = false → lte x = true) →
  ∃ xs1 ys, xs = xs1 ++ filter (inside gte lte true) xs ++ ys ∧
    Forall (λ x, gte x = false) xs1 ∧ Forall (λ x, lte x = false) ys ∧
    ∀ n, is_i64 n →
      nth_in_range h z (if empty then Ok false else ends_in_range h z gt lt) gt lt n =
        Ok (nth_spec xs1 (filter (inside gte lte true) xs) n).
Proof.
  intros R Hg Hl Hgt Hlt He Hne.
  destruct (range_cut gte lte xs) as (xs1 & ds & ys & E & _ & Eds & H1 & H2 & H3 & H4);
    [apply (rep_sorted _ _ _ R)|done|done|].
  exists xs1, ys. rewrite <- Eds. split; [done|]. split; [done|]. split; [done|]. intros n Hn.
  assert (ds = [] → nth_in_range h z (Ok false) gt lt n = Ok (nth_spec xs1 ds n)) as Hnil.
  { intros ->. by rewrite nth_spec_nil. }
  destruct empty.
  - apply Hnil. destruct ds as [|x ds]; [done|]. rewrite Forall_app, Forall_cons in H2.
    rewrite Forall_cons in H3. specialize (He eq_refl x ltac:(rewrite E; set_solver)).
    destruct H2 as [[Hx _] _]. destruct H3 as [Hx' _]. by rewrite Hx, Hx' in He.
  - rewrite (ends_ok h z xs gte lte) by done. destruct (match last xs, head xs with Some x, Some y => _ | _, _ => _ end) eqn:Eb.
    + eapply (nth_ok R gte lte gt lt xs1 ds ys); try done.
      rewrite Forall_forall in *. intros x Hx. apply Hne; [done|rewrite E; set_solver|auto].
    + apply Hnil. destruct ds as [|x ds]; [done|]. exfalso.
      assert (x ∈ xs) as Hx by (rewrite E; set_solver). pose proof (rep_sorted _ _ _ R) as HS.
      rewrite Forall_app, !Forall_cons in H2. destruct H2 as [[Hgx _] _].
      rewrite Forall_cons in H3. destruct H3 as [Hlx _].
      destruct (last xs) as [w|] eqn:Ew; [|apply last_None in Ew; rewrite Ew in Hx; set_solver].
      destruct (head xs) as [v|] eqn:Ev; [|destruct xs; [set_solver|done]].
      assert (w ∈ xs) as Hw by (by apply last_Some_elem_of).
      assert (v ∈ xs) as Hv by (destruct xs; simplify_eq/=; set_solver).
      assert (gte w = true) as Hgw by (destruct (sorted_last xs x w HS Hx Ew) as [<-|]; [done|by apply (Hg x w)]).
      assert (lte v = true) as Hlv by (destruct (sorted_head xs x v HS Hx Ev) as [<-|]; [done|by apply (Hl v x)]).
      by rewrite Hgw, Hlv in Eb.
Qed.

(** The test for ranges that are always empty: [x], [y] and [w] compare the
    minimum with a value, the value with the maximum, and the two bounds. *)
Lemma order_bounds (x y w : Z) (minex maxex : bool) :
  (x ≤ 0 → y ≤ 0 → w ≤ 0) → (x < 0 → y ≤ 0 → w < 0) → (x ≤ 0 → y < 0 → w < 0) →
  (0 ≤ x → w ≤ 0 → y ≤ 0) → (0 < x → w ≤ 0 → y < 0) → (0 ≤ x → w < 0 → y < 0) →
  let gte := if minex then x <? 0 else x <=? 0 in
  let lte := if maxex then y <? 0 else y <=? 0 in
  let empty := (0 <? w) || ((w =? 0) && (minex || maxex)) in
  (empty = true → gte && lte = false) ∧ (empty = false → gte = false → lte = true).
Proof.
  intros T1 T2 T3 T4 T5 T6. cbv zeta.
  destruct (Z.lt_trichotomy x 0) as [? | [? | ?]], (Z.lt_trichotomy y 0) as [? | [? | ?]],
    (Z.lt_trichotomy w 0) as [? | [? | ?]]; try (exfalso; lia);
    destruct minex, maxex; clear T1 T2 T3 T4 T5 T6; lia.
Qed.

Lemma empty_range_ok r s :
  isnan (zr_min r) = false → isnan (zr_max r) = false → isnan s = false →
  let empty := SFltb (zr_max r) (zr_min r) ||
     (SFeqb (zr_min r) (zr_max r) && (zr_minex r || zr_maxex r)) in
  (empty = true → zslValueGteMin s r && zslValueLteMax s r = false) ∧
  (empty = false → zslValueGteMin s r = false → zslValueLteMax s r = true).
Proof.
  intros Hm HM Hs. cbv zeta. unfold zslValueGteMin, zslValueLteMax.
  rewrite !SFltb_key, !SFeqb_key, !SFleb_key by done.
  set (m := fkey (zr_min r)). set (M := fkey (zr_max r)). set (v := fkey s).
  pose proof (lexcmp_opp m M) as O1. pose proof (lexcmp_opp m v) as O2.
  replace (lexcmp M m <? 0) with (0 <? lexcmp m M) by lia.
  apply order_bounds.
  - apply lexcmp_le_trans.
  - apply lexcmp_lt_le_trans.
  - apply lexcmp_le_lt_trans.
  - intros. apply (lexcmp_le_trans v m M); lia.
  - intros. apply (lexcmp_lt_le_trans v m M); lia.
  - intros. apply (lexcmp_le_lt_trans v m M); lia.
Qed.

(** The part of the list with scores in a range, and the elements of it *)
Lemma nth_scores_ok `{Allocator} h z xs r :
  zsl_inv h z xs → isnan (zr_min r) = false → isnan (zr_max r) = false →
  ∃ xs1 ys, xs = xs1 ++ filter (in_score_range r true) xs ++ ys ∧
    Forall (λ x, zslValueGteMin (ze_score x) r = false) xs1 ∧
    Forall (λ x, zslValueLteMax (ze_score x) r = false) ys ∧
    ∀ n, is_i64 n → zslNthInRange h z r n = Ok (nth_spec xs1 (filter (in_score_range r true) xs) n).
Proof.
  intros R Hmin Hmax. unfold zslNthInRange, zslIsInRange.
  apply (nth_range_ok h z xs _ _ _ _ _ R).
  - intros x y Hx Hy. destruct (inv_data R x Hx) as (_ & _ & ?).
    destruct (inv_data R y Hy) as (_ & _ & ?). by apply gte_mono.
  - intros x y Hx Hy. destruct (inv_data R x Hx) as (_ & _ & ?).
    destruct (inv_data R y Hy) as (_ & _ & ?). by apply lte_mono.
  - intros x Hx. destruct (inv_data R x Hx) as (Dx & Hh & _). by apply (score_test_ok (view_self h)).
  - intros x Hx. destruct (inv_data R x Hx) as (Dx & Hh & _). by apply (score_test_ok (view_self h)).
  - intros He x Hx. destruct (inv_data R x Hx) as (_ & _ & Hs).
    by apply (empty_range_ok r (ze_score x) Hmin Hmax Hs).
  - intros He x Hx. destruct (inv_data R x Hx) as (_ & _ & Hs).
    by apply (empty_range_ok r (ze_score x) Hmin Hmax Hs).
Qed.

(** [zslNthInRange] finds the element at index [n] of those whose score is in
    the range, from the front for [n >= 0] and from the back for [n < 0], with
    its rank in the whole list, and null if there is none; it does so whichever
    way it walks there, and for every 64-bit [n]. *)
Theorem zslNthInRange_spec `{Allocator} h z xs r n :
  zsl_inv h z xs → isnan (zr_min r) = false → isnan (zr_max r) = false → is_i64 n →
  ∃ xs1 ys, xs = xs1 ++ filter (in_score_range r true) xs ++ ys ∧
    zslNthInRange h z r n = Ok (nth_spec xs1 (filter (in_score_range r true) xs) n).
Proof.
  intros R Hmin Hmax Hn. destruct (nth_scores_ok h z xs r R Hmin Hmax) as (xs1 & ys & E & _ & _ & Hnth).
  exists xs1, ys. split; [done|by apply Hnth].
Qed.

Lemma zslNthInRange_spec_witness :
  ∃ xs1 ys, [ex_one; ex_two] = xs1 ++ filter (in_score_range ex_range true) [ex_one; ex_two] ++ ys ∧
    zslNthInRange ex_h ex_z ex_range (-1) =
      Ok (nth_spec xs1 (filter (in_score_range ex_range true) [ex_one; ex_two]) (-1)).
Proof. apply zslNthInRange_spec; [apply ex_rep|done|done|done]. Defined.

Lemma empty_lex_ok r e :
  let cmp := sdscmplex (zl_min r) (zl_max r) in
  let empty := (cmp >? 0) || ((cmp =? 0) && (zl_minex r || zl_maxex r)) in
  (empty = true → zslLexValueGteMin e r && zslLexValueLteMax e r = false) ∧
  (empty = false → zslLexValueGteMin e r = false → zslLexValueLteMax e r = true).
Proof.
  cbv zeta. unfold zslLexValueGteMin, zslLexValueLteMax, sdscmplex.
  destruct (zl_min r) as [| |m], (zl_max r) as [| |M]; 
    try (destruct (zl_minex r), (zl_maxex r); cbn; rewrite ?andb_false_r; done).
  pose proof (sdscmp_opp m e) as O2.
  replace (sdscmp e m >? 0) with (sdscmp m e <? 0) by lia.
  replace (sdscmp e m >=? 0) with (sdscmp m e <=? 0) by lia.
  replace (sdscmp m M >? 0) with (0 <? sdscmp m M) by lia.
  pose proof (sdscmp_trans m e M) as T1. pose proof (sdscmp_trans e m M) as T2.
  apply order_bounds; intros; (apply T1 || apply T2); lia.
Qed.

(** The part of the list in a lexicographic range, and the elements of it *)
Lemma nth_lex_ok `{Allocator} h z xs r :
  zsl_inv h z xs → same_scores xs →
  ∃ xs1 ys, xs = xs1 ++ filter (in_lex_range r true) xs ++ ys ∧
    Forall (λ x, zslLexValueGteMin (ze_ele x) r = false) xs1 ∧
    Forall (λ x, zslLexValueLteMax (ze_ele x) r = false) ys ∧
    ∀ n, is_i64 n → zslNthInLexRange h z r n = Ok (nth_spec xs1 (filter (in_lex_range r true) xs) n).
Proof.
  intros R Hsame. unfold zslNthInLexRange, zslIsInLexRange.
  apply (nth_range_ok h z xs _ _ _ _ _ R).
  - intros x y Hx Hy Hxy. eapply lex_gte_mono, zlt_ele; [|done]. by apply Hsame.
  - intros x y Hx Hy Hxy. eapply lex_lte_mono, zlt_ele; [|done]. by apply Hsame.
  - intros x Hx. destruct (inv_data R x Hx) as (Dx & Hh & _). by apply (ele_test_ok (view_self h)).
  - intros x Hx. destruct (inv_data R x Hx) as (Dx & Hh & _). by apply (ele_test_ok (view_self h)).
  - intros He x Hx. by apply (empty_lex_ok r (ze_ele x)).
  - intros He x Hx. by apply (empty_lex_ok r (ze_ele x)).
Qed.

(** [zslNthInLexRange] does the same for lexicographic ranges, on a list whose
    elements have the same score. *)
Theorem zslNthInLexRange_spec `{Allocator} h z xs r n :
  zsl_inv h z xs → same_scores xs → is_i64 n →
  ∃ xs1 ys, xs = xs1 ++ filter (in_lex_range r true) xs ++ ys ∧
    zslNthInLexRange h z r n = Ok (nth_spec xs1 (filter (in_lex_range r true) xs) n).
Proof.
  intros R Hsame Hn. destruct (nth_lex_ok h z xs r R Hsame) as (xs1 & ys & E & _ & _ & Hnth).
  exists xs1, ys. split; [done|by apply Hnth].
Qed.

Lemma zslNthInLexRange_spec_witness :
  ∃ xs1 ys, [ex_one; lex_two] = xs1 ++ filter (in_lex_range ex_lexrange true) [ex_one; lex_two] ++ ys ∧
    zslNthInLexRange lex_h lex_z ex_lexrange 0 =
      Ok (nth_spec xs1 (filter (in_lex_range ex_lexrange true) [ex_one; lex_two]) 0).
Proof.
  apply zslNthInLexRange_spec; [apply lex_rep| |done].
  intros x y Hx Hy. assert (x = ex_one ∨ x = lex_two) as [-> | ->] by set_solver;
    assert (y = ex_one ∨ y = lex_two) as [-> | ->] by set_solver; done.
Defined.

(** ** Creation and destruction *)

(** [zslFree] of a skiplist that was built from [zslCreate] frees the header
    and every node, each once, and the accounted size returns to that of the
    empty structure, as its assertion demands. *)
Theorem zslFree_spec `{Allocator} h z xs :
  zsl_rep h z xs →
  ∃ h' z', zslFree h z = Ok (h', z') ∧ zsl_alloc_size z' = u64 (usable sizeof_zsl) ∧
    ∀ q, h' !! q = if decide (q ∈ ptrs (hd_ent (zsl_header z) :: xs)) then None else h !! q.
Proof.
  intros [R Ra]. unfold zslFree.
  destruct (next_node h z [] xs R) as (s & Hn). cbn in Hn. change (default _ _) with (zsl_header z) in Hn.
  rewrite Hn. rs. cbn [forward]. unfold zslFreeNode.
  pose proof (rep_header _ _ _ R) as Hh. destruct (dat h (zsl_header z)) as [d|] eqn:Ed; [|done].
  destruct (node_dat (view_self h) _ _ Ed) as (n & -> & <-). rs.
  assert (zn_usable n = ze_usable (hd_ent (zsl_header z))) as -> by (by injection Hh).
  pose proof (rep_nodup _ _ _ R) as HN.
  destruct (free_loop_ok h z xs R xs [] (delete (zsl_header z) h)
    (add_alloc z (- ze_usable (hd_ent (zsl_header z)))) (Z.to_nat (zsl_length z))
    (usable sizeof_zsl + sum_usable xs)) as (h' & z' & Hl & Ha & Hq).
  - done.
  - intros x Hx. rewrite lookup_delete_ne; [done|]. apply not_eq_sym.
    by apply (ptr_notin [] (hd_ent (zsl_header z)) xs).
  - rewrite (rep_length _ _ _ R). lia.
  - cbn [add_alloc zsl_alloc_size]. rewrite Ra. unfold total_usable, wrapu. rewrite Zplus_mod_idemp_l.
    f_equal. cbn [sum_usable foldr]. fold (sum_usable xs). lia.
  - exists h', z'. split_and!; [done| |].
    + rewrite Ha. f_equal. lia.
    + intros q. rewrite Hq.
      change (ptrs (hd_ent (zsl_header z) :: xs)) with (zsl_header z :: ptrs xs). destruct (decide (q = zsl_header z)) as [->|].
      * rewrite lookup_delete_eq, (decide_True (P := _ ∈ _ :: _)) by (by left). by destruct (decide _).
      * rewrite lookup_delete_ne by done. destruct (decide (q ∈ ptrs xs)).
        -- by rewrite decide_True by (by right).
        -- rewrite decide_False; [done|]. by intros [?|?]%elem_of_cons.
Qed.

Lemma zslFree_spec_witness :
  ∃ h' z', zslFree ex_h ex_z = Ok (h', z') ∧ zsl_alloc_size z' = u64 (usable sizeof_zsl) ∧
    ∀ q, h' !! q = if decide (q ∈ ptrs (hd_ent (zsl_header ex_z) :: [ex_one; ex_two])) then None else ex_h !! q.
Proof. apply zslFree_spec. apply ex_rep. Defined.

(** [zslRandomLevel] ends as soon as [random()] draws a number that is not
    below the threshold, and its result is between 1 and 32. *)
Theorem zslRandomLevel_terminates rnd r rnd' :
  threshold ≤ r → ∃ lv rest, zslRandomLevel (rnd ++ r :: rnd') = Ok (lv, rest) ∧
    (1 ≤ lv ≤ ZSKIPLIST_MAXLEVEL)%nat ∧ ∃ used, rnd ++ r :: rnd' = used ++ rest ∧ used ≠ [].
Proof.
  intros Hr.
  assert (∀ l, ∃ l' used rest, zslRandomLevel_loop (rnd ++ r :: rnd') l = Ok (l', rest) ∧
    rnd ++ r :: rnd' = used ++ rest ∧ used ≠ []) as Hloop.
  { induction rnd as [|x rnd IH]; intros l; simpl.
    - destruct (r <? threshold) eqn:E; [lia|]. by exists l, [r], rnd'.
    - destruct (x <? threshold); [|by exists l, [x], (rnd ++ r :: rnd')].
      destruct (IH (l + 1)) as (l' & used & rest & -> & -> & _). by exists l', (x :: used), rest. }
  destruct (Hloop 1) as (l' & used & rest & Hl & E & Hu).
  destruct (zslRandomLevel (rnd ++ r :: rnd')) as [[lv rest']|] eqn:Ez.
  - pose proof (zslRandomLevel_range _ _ _ Ez) as Hlv. unfold zslRandomLevel in Ez.
    rewrite Hl in Ez. cbn in Ez. injection Ez as _ <-. exists lv, rest. eauto 8.
  - unfold zslRandomLevel in Ez. by rewrite Hl in Ez.
Qed.

Lemma zslRandomLevel_terminates_witness :
  ∃ lv rest, zslRandomLevel ([rnd_up] ++ rnd_stop :: []) = Ok (lv, rest) ∧
    (1 ≤ lv ≤ ZSKIPLIST_MAXLEVEL)%nat ∧ ∃ used, [rnd_up] ++ rnd_stop :: [] = used ++ rest ∧ used ≠ [].
Proof. apply zslRandomLevel_terminates. vm_compute. done. Defined.
