(* ===== verification/Double.v ===== *)
(** Doubles: the conversions of [util.c] between doubles, integers and text.

    A double is a [spec_float]; it is one that a C variable can hold when it is
    [valid_double], and arithmetic rounds to nearest even with 53 bits.  The
    text of a number is written and read by two libraries of [deps/], [fpconv]
    and [fast_float]: they are the parameters of the class [FloatText], and
    [FloatTextLaws] states what their documentation promises. *)

From S2P Require Import Prelude Numstr Skiplist.
From Stdlib Require Import SpecFloat.

Definition valid_double (d : double) : bool := valid_binary 53 1024 d.

(** [(double)v] for a [long long], and [a + b] *)
Definition double_of_ll (v : Z) : double := binary_normalize 53 1024 v 0 false.
Definition double_add (a b : double) : double := SFadd 53 1024 a b.

(** [(long long)d], which drops the fraction; outside of the range of the type,
    where C leaves it open, the model returns 0. *)
Definition ll_of_double (d : double) : Z :=
  match d with
  | S754_finite s m e =>
      let v := if 0 <=? e then Z.pos m * 2 ^ e else Z.pos m / 2 ^ (- e) in
      let v := if s then - v else v in
      if (INT64_MIN <=? v) && (v <=? INT64_MAX) then v else 0
  | _ => 0
  end.

Definition isinf (d : double) : bool := match d with S754_infinity _ => true | _ => false end.

Definition double2ll (d : double) : option Z :=
  if SFltb d (double_of_ll (- (INT64_MAX / 2))) || SFltb (double_of_ll (INT64_MAX / 2)) d
  then None
  else let ll := ll_of_double d in
       if SFeqb (double_of_ll ll) d then Some ll else None.

(** [fpconv_dtoa] writes the text of a number; [strtod] is [fast_float_strtod],
    which returns the number a string starts with, and the rest. *)
Class FloatText := {
  fpconv_dtoa : double -> list Z;
  strtod : list Z -> double * list Z
}.

Definition MAX_D2STRING_CHARS : nat := 128.

(** [snprintf(buf, len, s)] of a string without conversions *)
Definition snprintf_lit (buf s : list Z) : res (Z * list Z) :=
  if zlen buf =? 0 then Ok (zlen s, buf)
  else buf ← mem_write buf 0 (take (length buf - 1) s ++ [0]); Ok (zlen s, buf).

Definition d2string `{FloatText} (buf : list Z) (value : double) : res (Z * list Z) :=
  if isnan value then snprintf_lit buf (chars "nan")
  else if isinf value then
    if SFltb value (S754_zero false) then snprintf_lit buf (chars "-inf")
    else snprintf_lit buf (chars "inf")
  else if SFeqb value (S754_zero false) then
    if SFltb (SFdiv 53 1024 (double_of_ll 1) value) (S754_zero false)
    then snprintf_lit buf (chars "-0")
    else snprintf_lit buf (chars "0")
  else
    match double2ll value with
    | Some lvalue => ll2string buf lvalue
    | None =>
        let text := fpconv_dtoa value in
        let len := zlen text in
        buf ← mem_write buf 0 text;
        buf ← mem_set buf len 0;
        Ok (len, buf)
    end.

(** What the documentation of the two libraries promises: the text of a finite
    number other than zero has at most 24 characters and is read back as the
    same number; the text of an integer is read as the double nearest to it;
    minus zero and infinities are read as in C. *)
Class FloatTextLaws `{FloatText} : Prop := {
  dtoa_length d : (zlen (fpconv_dtoa d) <= 24)%Z;
  dtoa_bytes d : Forall is_byte (fpconv_dtoa d);
  strtod_dtoa s m e :
    valid_double (S754_finite s m e) = true ->
    (strtod (fpconv_dtoa (S754_finite s m e))).1 = S754_finite s m e;
  strtod_mzero : (strtod (chars "-0")).1 = S754_zero true;
  strtod_int v : is_i64 v -> (strtod (decs v)).1 = double_of_ll v;
  strtod_inf : (strtod (chars "inf")).1 = S754_infinity false;
  strtod_minf : (strtod (chars "-inf")).1 = S754_infinity true
}.

(** ** Digits *)

Lemma digits2_bounds p : 2 ^ (Z.pos (digits2_pos p) - 1) <= Z.pos p < 2 ^ Z.pos (digits2_pos p).
Proof.
  induction p as [p IH|p IH|]; cbn [digits2_pos]; [| |done];
    rewrite Pos2Z.inj_succ, Z.sub_1_r, Z.pred_succ, Z.pow_succ_r by lia;
    rewrite <- (Z.succ_pred (Z.pos (digits2_pos p))) in IH at 1;
    rewrite Z.sub_1_r, Z.pred_succ in IH;
    (assert (2 ^ Z.pos (digits2_pos p) = 2 * 2 ^ Z.pred (Z.pos (digits2_pos p))) as E
      by (rewrite <- Z.pow_succ_r, Z.succ_pred by lia; done)); lia.
Qed.

Lemma digits2_unique p d : 0 < d -> 2 ^ (d - 1) <= Z.pos p < 2 ^ d -> Z.pos (digits2_pos p) = d.
Proof.
  intros Hd [H1 H2]. destruct (digits2_bounds p) as [B1 B2].
  assert (2 ^ (Z.pos (digits2_pos p) - 1) < 2 ^ d) as L1 by lia.
  assert (2 ^ (d - 1) < 2 ^ Z.pos (digits2_pos p)) as L2 by lia.
  apply Z.pow_lt_mono_r_iff in L1; [|lia..]. apply Z.pow_lt_mono_r_iff in L2; lia.
Qed.

Lemma digits2_mul p k q : 0 <= k -> Z.pos q = Z.pos p * 2 ^ k ->
  Z.pos (digits2_pos q) = Z.pos (digits2_pos p) + k.
Proof.
  intros Hk E. apply digits2_unique; [lia|]. rewrite E.
  destruct (digits2_bounds p) as [B1 B2].
  replace (Z.pos (digits2_pos p) + k - 1) with (Z.pos (digits2_pos p) - 1 + k) by lia.
  rewrite !Z.pow_add_r by lia. pose proof (Z.pow_pos_nonneg 2 k). split; nia.
Qed.

(** ** Rounding *)

Lemma shr_1_m mrs : 0 <= shr_m mrs -> shr_m (shr_1 mrs) = shr_m mrs / 2.
Proof.
  destruct mrs as [m r s]. cbn [shr_m shr_1]. intros Hm.
  destruct m as [|[p|p|]|p]; cbn [shr_m]; try done; try zdiv.
Qed.

Lemma shr_1_exact m : 0 <= m -> shr_1 (Build_shr_record (2 * m) false false) = Build_shr_record m false false.
Proof. by destruct m. Qed.

Lemma iter_pos_to_nat {A} (f : A -> A) p x : SpecFloat.iter_pos f p x = Nat.iter (Pos.to_nat p) f x.
Proof.
  revert x. induction p as [p IH|p IH|]; intros x; cbn [SpecFloat.iter_pos]; [| |done];
    rewrite !IH, <- Nat.iter_add.
  - rewrite Pos2Nat.inj_xI. replace (S (2 * Pos.to_nat p)) with (Pos.to_nat p + Pos.to_nat p + 1)%nat by lia.
    by rewrite (Nat.iter_add _ 1).
  - f_equal. lia.
Qed.

Lemma shr_m_iter n mrs : 0 <= shr_m mrs ->
  shr_m (Nat.iter n shr_1 mrs) = shr_m mrs / 2 ^ Z.of_nat n.
Proof.
  intros Hm. induction n as [|n IH]; [by rewrite Z.div_1_r|].
  rewrite Nat.iter_succ, shr_1_m; [rewrite IH|rewrite IH; apply Z.div_pos; lia].
  rewrite Z.div_div, Nat2Z.inj_succ, Z.pow_succ_r by lia. f_equal. lia.
Qed.

Lemma shr_exact_iter n m : 0 <= m ->
  Nat.iter n shr_1 (Build_shr_record (m * 2 ^ Z.of_nat n) false false) = Build_shr_record m false false.
Proof.
  intros Hm. induction n as [|n IH]; [by rewrite Z.mul_1_r|].
  rewrite Nat.iter_succ_r, Nat2Z.inj_succ, Z.pow_succ_r by lia.
  replace (m * (2 * 2 ^ Z.of_nat n)) with (2 * (m * 2 ^ Z.of_nat n)) by lia.
  rewrite shr_1_exact; [done|]. pose proof (Z.pow_pos_nonneg 2 (Z.of_nat n)). nia.
Qed.

Lemma shr_value mrs e n : 0 <= shr_m mrs -> 0 <= n ->
  (shr mrs e n).2 = e + n /\ shr_m (shr mrs e n).1 = shr_m mrs / 2 ^ n.
Proof.
  intros Hm Hn. destruct n as [|p|]; [|cbn [shr fst snd]|done].
  - cbn. rewrite Z.div_1_r. lia.
  - rewrite iter_pos_to_nat, shr_m_iter, positive_nat_Z by done. done.
Qed.

Lemma shr_exact m e n : 0 <= m -> 0 <= n ->
  shr (Build_shr_record (m * 2 ^ n) false false) e n = (Build_shr_record m false false, e + n).
Proof.
  intros Hm Hn. destruct n as [|p|]; [|cbn [shr]|done].
  - cbn. rewrite Z.mul_1_r. f_equal. lia.
  - rewrite iter_pos_to_nat, <- (positive_nat_Z p), shr_exact_iter by done. done.
Qed.

Lemma shr_record_m m l : shr_m (shr_record_of_loc m l) = m.
Proof. by destruct l as [|[]]. Qed.

Lemma round_nearest_cases m l : round_nearest_even m l = m \/ round_nearest_even m l = m + 1.
Proof. destruct l as [|[]]; cbn; try case_match; tauto. Qed.

Abbreviation fexp64 := (fexp 53 1024).

Lemma fexp64_eq e : fexp64 e = Z.max (e - 53) (-1074).
Proof. done. Qed.

(** The first shift leaves at most 53 bits, and all of them unless the exponent
    is the least one. *)
Lemma shr_fexp_range m e l mrs e' :
  0 < m -> e <= fexp64 (Zdigits2 m + e) -> shr_fexp 53 1024 m e l = (mrs, e') ->
  0 <= shr_m mrs < 2 ^ 53 /\ -1074 <= e' /\ (2 ^ 52 <= shr_m mrs \/ e' = -1074).
Proof.
  intros Hm He E. unfold shr_fexp in E.
  destruct (shr_value (shr_record_of_loc m l) e (fexp64 (Zdigits2 m + e) - e)) as [V1 V2];
    [rewrite shr_record_m; lia|lia|]. rewrite E in V1, V2. cbn [fst snd] in V1, V2.
  rewrite shr_record_m in V2. destruct m as [|p|]; [done| |done]. cbn [Zdigits2] in *.
  destruct (digits2_bounds p) as [B1 B2]. set (d := Z.pos (digits2_pos p)) in *.
  assert (1 <= d) by (unfold d; lia). clearbody d.
  rewrite V1, V2. rewrite fexp64_eq in *. set (n := Z.max (d + e - 53) (-1074) - e) in *.
  assert (n = Z.max (d + e - 53) (-1074) - e) as Hn by done. clearbody n.
  assert (0 < 2 ^ n) by (apply Z.pow_pos_nonneg; lia).
  assert (Z.pos p / 2 ^ n < 2 ^ 53).
  { apply Z.div_lt_upper_bound; [done|]. rewrite <- Z.pow_add_r by lia.
    eapply Z.lt_le_trans; [done|]. apply Z.pow_le_mono_r; lia. }
  split; [split; [apply Z.div_pos; lia|done]|]. split; [lia|].
  destruct (Z.max_spec (d + e - 53) (-1074)) as [[? Hf]|[? Hf]]; [right; lia|left].
  apply Z.div_le_lower_bound; [done|]. rewrite <- Z.pow_add_r by lia.
  etransitivity; [|exact B1]. apply Z.pow_le_mono_r; lia.
Qed.

Lemma round_aux_valid sx m e l :
  0 < m -> e <= fexp64 (Zdigits2 m + e) -> valid_double (binary_round_aux 53 1024 sx m e l) = true.
Proof.
  intros Hm He. unfold binary_round_aux. destruct (shr_fexp _ _ m e l) as [mrs e'] eqn:E1.
  destruct (shr_fexp_range m e l mrs e' Hm He E1) as (Hr & He' & Hd).
  destruct (shr_fexp _ _ (round_nearest_even _ _) e' _) as [mrs2 e2] eqn:E2.
  set (r := round_nearest_even _ _) in *.
  assert (0 <= r <= 2 ^ 53 /\ (2 ^ 52 <= r \/ e' = -1074)) as [Hr2 Hd2].
  { unfold r. destruct (round_nearest_cases (shr_m mrs) (loc_of_shr_record mrs)) as [-> | ->]; lia. }
  clearbody r. clear E1 Hr Hd. unfold shr_fexp in E2.
  destruct (Z.eq_dec r 0) as [->|Hr0].
  { replace (fexp64 (Zdigits2 0 + e') - e') with (Z.min 0 (-1074 - e')) in E2
      by (rewrite fexp64_eq; cbn [Zdigits2]; lia).
    destruct (Z.min 0 (-1074 - e')) eqn:?; [|lia|]; cbn in E2; injection E2 as <- <-; done. }
  destruct r as [|p|]; [done| |lia]. cbn [Zdigits2 shr_record_of_loc] in E2.
  destruct (Z.eq_dec (Z.pos p) (2 ^ 53)) as [Ep|Ep].
  { rewrite Ep in E2. rewrite (digits2_unique p 54), fexp64_eq in E2 by lia.
    replace (Z.max (54 + e' - 53) (-1074) - e') with 1 in E2 by lia.
    change (2 ^ 53) with (2 ^ 52 * 2 ^ 1) in E2. rewrite shr_exact in E2 by lia.
    injection E2 as <- <-. cbn [shr_m]. change (2 ^ 52) with (Z.pos 4503599627370496).
    destruct (e' + 1 <=? 1024 - 53) eqn:El; [|done]. cbn [valid_double valid_binary].
    apply andb_true_intro. split; [|done]. apply Z.eqb_eq. rewrite fexp64_eq.
    change (Z.pos (digits2_pos 4503599627370496)) with 53. lia. }
  destruct (digits2_bounds p) as [B1 B2]. set (d := Z.pos (digits2_pos p)) in *.
  assert (fexp64 (d + e') = e') as Hf.
  { rewrite fexp64_eq. assert (2 ^ (d - 1) < 2 ^ 53) as L by lia.
    apply Z.pow_lt_mono_r_iff in L; [|lia..]. destruct Hd2 as [Hd2| ->]; [|lia].
    assert (2 ^ 52 < 2 ^ d) as L2 by lia. apply Z.pow_lt_mono_r_iff in L2; lia. }
  rewrite Hf, Z.sub_diag in E2. cbn [shr] in E2. injection E2 as <- <-. cbn [shr_m].
  destruct (e' <=? 1024 - 53) eqn:El; [|done]. apply andb_true_intro. split; [|done].
  apply Z.eqb_eq. done.
Qed.

Lemma iter_xO p d : Z.pos (Pos.iter xO p d) = Z.pos p * 2 ^ Z.pos d.
Proof.
  induction d as [|d IH] using Pos.peano_ind; [cbn; lia|].
  rewrite Pos.iter_succ, Pos2Z.inj_succ, Z.pow_succ_r by lia. lia.
Qed.

Lemma round_valid sx m e : valid_double (binary_round 53 1024 sx m e) = true.
Proof.
  unfold binary_round, shl_align. set (f := fexp64 _).
  destruct (f - e) eqn:Ef; [apply round_aux_valid; cbn [Zdigits2]; fold f; lia..|].
  apply round_aux_valid; [lia|]. cbn [Zdigits2].
  rewrite (digits2_mul m (e - f) _) by (try rewrite iter_xO; repeat f_equal; lia).
  replace (Z.pos (digits2_pos m) + (e - f) + f) with (Z.pos (digits2_pos m) + e) by lia.
  fold f. lia.
Qed.

Lemma normalize_valid m e sz : valid_double (binary_normalize 53 1024 m e sz) = true.
Proof. destruct m; [done|apply round_valid..]. Qed.

Lemma double_of_ll_valid v : valid_double (double_of_ll v) = true.
Proof. apply normalize_valid. Qed.

Lemma double_add_valid a b :
  valid_double a = true -> valid_double b = true -> valid_double (double_add a b) = true.
Proof.
  intros Ha Hb. destruct a as [[]|[]| |], b as [[]|[]| |]; try done. apply normalize_valid.
Qed.

(** ** Doubles that are integers *)

(** The value of the double is the integer [v]. *)
Definition double_is (d : double) (v : Z) : Prop :=
  match d with
  | S754_zero _ => v = 0
  | S754_finite s m e => cond_Zopp s (Z.pos m) * 2 ^ Z.max e 0 = v * 2 ^ Z.max (- e) 0
  | _ => False
  end.

Lemma bounded_inv m e :
  bounded 53 1024 m e = true ->
  fexp64 (Z.pos (digits2_pos m) + e) = e /\ e <= 971 /\ Z.pos m < 2 ^ 53 /\
  (2 ^ 52 <= Z.pos m \/ e = -1074).
Proof.
  intros H. apply andb_prop in H as [H1 H2]. apply Z.eqb_eq in H1. apply Z.leb_le in H2.
  change (1024 - 53) with 971 in H2. pose proof H1 as Hf. rewrite fexp64_eq in Hf.
  destruct (digits2_bounds m) as [B1 B2]. set (d := Z.pos (digits2_pos m)) in *.
  split; [done|]. split; [done|]. split.
  - eapply Z.lt_le_trans; [done|]. apply Z.pow_le_mono_r; lia.
  - destruct (Z.eq_dec e (-1074)); [by right|left]. etransitivity; [|exact B1].
    apply Z.pow_le_mono_r; lia.
Qed.

Lemma aux_exact sx m e k :
  bounded 53 1024 m e = true -> 0 <= k ->
  binary_round_aux 53 1024 sx (Z.pos m * 2 ^ k) (e - k) loc_Exact = S754_finite sx m e.
Proof.
  intros Hb Hk. destruct (bounded_inv m e Hb) as (Hf & He & _).
  pose proof (Z.pow_pos_nonneg 2 k). destruct (Z.pos m * 2 ^ k) as [|q|] eqn:Eq; [lia| |lia].
  unfold binary_round_aux, shr_fexp. cbn [Zdigits2 shr_record_of_loc].
  rewrite (digits2_mul m k q) by (done || lia).
  replace (Z.pos (digits2_pos m) + k + (e - k)) with (Z.pos (digits2_pos m) + e) by lia.
  rewrite Hf, <- Eq. replace (e - (e - k)) with k by lia. rewrite shr_exact by lia.
  cbn [shr_m loc_of_shr_record round_nearest_even Zdigits2 shr_record_of_loc].
  replace (e - k + k) with e by lia. rewrite Hf, Z.sub_diag. cbn [shr shr_m].
  by replace (e <=? 1024 - 53) with true by lia.
Qed.

Lemma round_exact sx m e v :
  bounded 53 1024 m e = true -> Z.pos m * 2 ^ Z.max e 0 = Z.pos v * 2 ^ Z.max (- e) 0 ->
  binary_round 53 1024 sx v 0 = S754_finite sx m e.
Proof.
  intros Hb E. destruct (bounded_inv m e Hb) as (Hf & He & _). unfold binary_round, shl_align.
  destruct (Z.le_gt_cases e 0) as [He0|He0].
  - replace (Z.max e 0) with 0 in E by lia. replace (Z.max (- e) 0) with (- e) in E by lia.
    rewrite Z.mul_1_r in E. rewrite (digits2_mul v (- e) m) in Hf by lia.
    replace (Z.pos (digits2_pos v) + - e + e) with (Z.pos (digits2_pos v) + 0) in Hf by lia.
    rewrite Hf, Z.sub_0_r. destruct e as [|e|e]; [|lia|].
    + injection E as E. rewrite Pos.mul_1_r in E. subst v.
      apply (aux_exact sx m 0 0) in Hb; [|done]. by rewrite Z.mul_1_r in Hb.
    + rewrite iter_xO. change (- Z.neg e) with (Z.pos e) in E. rewrite <- E.
      apply (aux_exact sx m (Z.neg e) 0) in Hb; [|done]. by rewrite Z.mul_1_r, Z.sub_0_r in Hb.
  - replace (Z.max e 0) with e in E by lia. replace (Z.max (- e) 0) with 0 in E by lia.
    rewrite Z.mul_1_r in E. rewrite (digits2_mul m e v), Z.add_0_r, Hf, Z.sub_0_r by lia.
    destruct e as [|e|e]; [lia| |lia]. rewrite <- E.
    apply (aux_exact sx m (Z.pos e) (Z.pos e)) in Hb; [|done]. by rewrite Z.sub_diag in Hb.
Qed.

(** A double that has an integer value is the conversion of this integer. *)
Lemma double_of_ll_exact s m e v :
  valid_double (S754_finite s m e) = true -> double_is (S754_finite s m e) v ->
  double_of_ll v = S754_finite s m e.
Proof.
  cbn [valid_double valid_binary double_is]. intros Hb E.
  pose proof (Z.pow_pos_nonneg 2 (Z.max e 0)). pose proof (Z.pow_pos_nonneg 2 (Z.max (- e) 0)).
  destruct s; cbn [cond_Zopp] in E; destruct v as [|v|v]; try nia.
  - apply round_exact; [done|]. change (Z.neg v) with (- Z.pos v) in E. lia.
  - by apply round_exact.
Qed.

Lemma bounded_2_62 m e :
  bounded 53 1024 m e = true ->
  Z.pos m * 2 ^ Z.max e 0 <= 2 ^ 62 * 2 ^ Z.max (- e) 0 <-> e < 10 \/ e = 10 /\ Z.pos m <= 2 ^ 52.
Proof.
  intros Hb. destruct (bounded_inv m e Hb) as (_ & _ & Hm & Hn).
  destruct (Z.lt_ge_cases e 10) as [He|He].
  - split; [by left|intros _]. etransitivity; [|apply Z.mul_le_mono_nonneg_l; [done|]].
    2:{ apply (Z.pow_le_mono_r 2 0); lia. }
    assert (2 ^ Z.max e 0 <= 2 ^ 9) by (apply Z.pow_le_mono_r; lia). nia.
  - replace (Z.max (- e) 0) with 0 by lia. replace (Z.max e 0) with e by lia.
    destruct (Z.eq_dec e 10) as [->|]; [lia|]. split; [|lia]. intros H.
    assert (2 ^ 11 <= 2 ^ e) by (apply Z.pow_le_mono_r; lia). nia.
Qed.

Lemma compare_cont_eq a b : Pos.compare_cont Eq a b = (a ?= b)%positive.
Proof. done. Qed.

(** The bounds of [double2ll] *)
Lemma double2ll_range s m e :
  bounded 53 1024 m e = true ->
  SFltb (S754_finite s m e) (double_of_ll (- (INT64_MAX / 2))) ||
  SFltb (double_of_ll (INT64_MAX / 2)) (S754_finite s m e) = false <->
  Z.pos m * 2 ^ Z.max e 0 <= 2 ^ 62 * 2 ^ Z.max (- e) 0.
Proof.
  intros Hb. rewrite bounded_2_62 by done.
  change (double_of_ll (- (INT64_MAX / 2))) with (S754_finite true 4503599627370496 10).
  change (double_of_ll (INT64_MAX / 2)) with (S754_finite false 4503599627370496 10).
  change (2 ^ 52) with (Z.pos 4503599627370496). generalize 4503599627370496%positive as k. intros k.
  destruct s; unfold SFltb; cbn [SFcompare orb]; rewrite ?orb_false_r.
  - rewrite compare_cont_eq. destruct (Z.compare_spec e 10); [|split; [by left|done]|split; [done|lia]].
    destruct (Pos.compare_spec m k); cbn [CompOpp]; split; try done; lia.
  - rewrite compare_cont_eq. destruct (Z.compare_spec 10 e); [|split; [done|lia]|split; [by left|done]].
    destruct (Pos.compare_spec k m); split; try done; lia.
Qed.

Lemma ll_of_double_is d v : double_is d v -> is_i64 v -> ll_of_double d = v.
Proof.
  destruct d as [s| | |s m e]; cbn [double_is ll_of_double]; try done.
  intros E Hv. set (x := if 0 <=? e then _ else _).
  assert ((if s then - x else x) = v) as Hx.
  { unfold x. destruct (Z.leb_spec 0 e).
    - replace (Z.max e 0) with e in E by lia. replace (Z.max (- e) 0) with 0 in E by lia.
      rewrite Z.mul_1_r in E. destruct s; cbn [cond_Zopp] in E; lia.
    - replace (Z.max e 0) with 0 in E by lia. replace (Z.max (- e) 0) with (- e) in E by lia.
      rewrite Z.mul_1_r in E. pose proof (Z.pow_pos_nonneg 2 (- e)).
      replace (Z.pos m) with ((if s then - v else v) * 2 ^ (- e)) by (destruct s; cbn [cond_Zopp] in E; lia).
      rewrite Z.div_mul by lia. by destruct s; lia. }
  rewrite Hx. unfold is_i64 in Hv. by replace (_ && _) with true by lia.
Qed.

(** The integer part of a double below 2^53 converts without rounding. *)
Lemma double_of_ll_small v : 0 < v < 2 ^ 53 ->
  exists m e, double_of_ll v = S754_finite false m e /\ valid_double (S754_finite false m e) = true /\
    Z.pos m * 2 ^ Z.max e 0 = v * 2 ^ Z.max (- e) 0.
Proof.
  intros Hv. destruct v as [|v|]; [lia| |lia]. destruct (digits2_bounds v) as [B1 B2].
  set (d := Z.pos (digits2_pos v)) in *.
  assert (1 <= d <= 53).
  { split; [unfold d; lia|]. assert (2 ^ (d - 1) < 2 ^ 53) as L by lia. apply Z.pow_lt_mono_r_iff in L; lia. }
  destruct (Z.pos v * 2 ^ (53 - d)) as [|m|] eqn:Em; [lia| |lia].
  assert (Z.pos (digits2_pos m) = 53) as Hd.
  { rewrite (digits2_mul v (53 - d) m) by lia. fold d. lia. }
  assert (bounded 53 1024 m (d - 53) = true) as Hb.
  { apply andb_true_intro. split; [|apply Z.leb_le; lia]. apply Z.eqb_eq. rewrite Hd, fexp64_eq. lia. }
  assert (Z.pos m * 2 ^ Z.max (d - 53) 0 = Z.pos v * 2 ^ Z.max (- (d - 53)) 0) as E.
  { rewrite <- Em. replace (Z.max (d - 53) 0) with 0 by lia.
    replace (Z.max (- (d - 53)) 0) with (53 - d) by lia. lia. }
  exists m, (d - 53). split; [by apply round_exact|]. done.
Qed.

Lemma SFeqb_finite a s m e : SFeqb a (S754_finite s m e) = true -> a = S754_finite s m e.
Proof.
  unfold SFeqb. destruct a as [[]|[]| |[] m' e'], s; cbn [SFcompare]; try done;
    rewrite ?compare_cont_eq;
    destruct (Z.compare_spec e' e) as [->| |], (Pos.compare_spec m' m) as [->| |]; done.
Qed.

Lemma SFeqb_refl s m e : SFeqb (S754_finite s m e) (S754_finite s m e) = true.
Proof.
  unfold SFeqb. destruct s; cbn [SFcompare]; rewrite Z.compare_refl, compare_cont_eq; by rewrite Pos.compare_refl.
Qed.

(** A double with a fraction differs from the conversion of its integer part. *)
Lemma integer_part s m e :
  valid_double (S754_finite s m e) = true ->
  Z.pos m * 2 ^ Z.max e 0 <= 2 ^ 62 * 2 ^ Z.max (- e) 0 ->
  double_of_ll (ll_of_double (S754_finite s m e)) = S754_finite s m e ->
  double_is (S754_finite s m e) (ll_of_double (S754_finite s m e)).
Proof.
  intros Hb Hr. cbn [ll_of_double double_is]. destruct (Z.leb_spec 0 e) as [He|He].
  - replace (Z.max e 0) with e in * by lia. replace (Z.max (- e) 0) with 0 in * by lia.
    pose proof (Z.pow_pos_nonneg 2 e). intros _.
    replace (_ && _) with true by (destruct s; lia). destruct s; cbn [cond_Zopp]; lia.
  - replace (Z.max e 0) with 0 in * by lia. replace (Z.max (- e) 0) with (- e) in * by lia.
    pose proof (Z.pow_pos_nonneg 2 (- e)). destruct (bounded_inv m e Hb) as (_ & _ & Hm & _).
    set (v := Z.pos m / 2 ^ (- e)). assert (0 <= v < 2 ^ 53) as Hv.
    { unfold v. split; [apply Z.div_pos; lia|]. apply Z.div_lt_upper_bound; nia. }
    clearbody v. replace (_ && _) with true by (destruct s; lia).
    destruct (Z.eq_dec v 0) as [->|]; [by destruct s|].
    destruct (double_of_ll_small v) as (m' & e' & E & _ & Ev); [lia|].
    destruct v as [|v|]; [done| |lia]. destruct s; cbn [cond_Zopp] in *.
    + assert (double_of_ll (- Z.pos v) = SFopp (double_of_ll (Z.pos v))) as ->.
      { change (- Z.pos v) with (Z.neg v). unfold double_of_ll, binary_normalize, binary_round.
        destruct (shl_align _ _ _). unfold binary_round_aux. do 2 (destruct (shr_fexp _ _ _ _ _)).
        destruct (shr_m _); [done| |done]. by destruct (_ <=? _). }
      rewrite E. cbn [SFopp negb]. intros [= -> ->].
      replace (Z.max e 0) with 0 in Ev by lia. replace (Z.max (- e) 0) with (- e) in Ev by lia. lia.
    + rewrite E. intros [= -> ->].
      replace (Z.max e 0) with 0 in Ev by lia. by replace (Z.max (- e) 0) with (- e) in Ev by lia.
Qed.

Lemma double2ll_iff d v :
  valid_double d = true ->
  double2ll d = Some v <-> double_is d v /\ - 2 ^ 62 <= v <= 2 ^ 62.
Proof.
  intros Hd. unfold double2ll. destruct d as [s|s| |s m e].
  - change (_ || _) with false. cbn [ll_of_double double_is]. change (SFeqb _ _) with true.
    split; [by intros [= <-]|by intros [-> _]].
  - destruct s; [change (_ || _) with true|change (_ || _) with true]; naive_solver.
  - change (_ || _) with false. cbn [ll_of_double]. change (SFeqb _ _) with false. naive_solver.
  - pose proof (double2ll_range s m e Hd) as Hr.
    pose proof (Z.pow_pos_nonneg 2 (Z.max e 0)). pose proof (Z.pow_pos_nonneg 2 (Z.max (- e) 0)).
    assert (forall w, double_is (S754_finite s m e) w ->
      Z.pos m * 2 ^ Z.max e 0 <= 2 ^ 62 * 2 ^ Z.max (- e) 0 <-> - 2 ^ 62 <= w <= 2 ^ 62) as Hw.
    { intros w Ew. cbn [double_is] in Ew. destruct s; cbn [cond_Zopp] in Ew; nia. }
    destruct (_ || _).
    + split; [done|]. intros [Ev Hv]. apply (Hw v Ev), Hr in Hv. done.
    + pose proof (proj1 Hr eq_refl) as Hle. split.
      * destruct (SFeqb _ _) eqn:Eq; [|done]. intros [= <-]. apply SFeqb_finite in Eq.
        pose proof (integer_part s m e Hd Hle Eq) as Hi. split; [done|]. by apply Hw.
      * intros [Ev Hv]. rewrite (ll_of_double_is _ v) by (done || unfold is_i64; lia).
        rewrite (double_of_ll_exact s m e v) by done. by rewrite SFeqb_refl.
Qed.

(** [double2ll] accepts exactly the doubles whose value is an integer between
    -2^62 and 2^62, and returns this integer: no precision is lost. *)
Theorem double2ll_spec d v :
  valid_double d = true ->
  double2ll d = Some v <-> double_is d v /\ - 2 ^ 62 <= v <= 2 ^ 62.
Proof. apply double2ll_iff. Qed.

Lemma double2ll_spec_witness :
  valid_double (double_of_ll 3) = true /\
  (double2ll (double_of_ll 3) = Some 3 <-> double_is (double_of_ll 3) 3 /\ - 2 ^ 62 <= 3 <= 2 ^ 62).
Proof. split; [done|]. apply double2ll_spec. done. Defined.

Lemma double2ll_Some d v : double2ll d = Some v -> is_i64 v /\ SFeqb (double_of_ll v) d = true.
Proof.
  unfold double2ll. destruct (_ || _); [done|]. destruct (SFeqb _ _) eqn:E; [|done].
  intros [= <-]. split; [|done]. unfold is_i64. destruct d; cbn [ll_of_double]; [lia..|].
  repeat case_match; lia.
Qed.

(** ** The text of a double *)

(** What [d2string] writes *)
Definition d2_text `{FloatText} (value : double) : list Z :=
  match value with
  | S754_nan => chars "nan"
  | S754_infinity s => if s then chars "-inf" else chars "inf"
  | S754_zero s => if s then chars "-0" else chars "0"
  | S754_finite _ _ _ =>
      match double2ll value with Some v => decs v | None => fpconv_dtoa value end
  end.

Lemma d2_text_length `{FloatTextLaws} v : zlen (d2_text v) <= 24.
Proof.
  destruct v as [[]|[]| |]; try done. cbn [d2_text].
  destruct (double2ll _) as [v|] eqn:E; [|apply dtoa_length].
  apply double2ll_Some in E as [Hv _]. pose proof (decs_len v Hv). lia.
Qed.

Lemma snprintf_lit_ok buf s : zlen s < zlen buf ->
  snprintf_lit buf s = Ok (zlen s, s ++ 0 :: drop (S (length s)) buf).
Proof.
  intros Hs. unfold snprintf_lit. replace (zlen buf =? 0) with false by lia.
  rewrite take_ge by lia. rewrite mem_write_ok by (rewrite ?length_app; cbn [length]; lia). rs.
  rewrite length_app, Nat.add_1_r, <- app_assoc. done.
Qed.

Lemma d2string_text `{FloatTextLaws} buf v : 24 < zlen buf ->
  d2string buf v = Ok (zlen (d2_text v), d2_text v ++ 0 :: drop (S (length (d2_text v))) buf).
Proof.
  intros Hbuf. pose proof (d2_text_length v) as Hl. unfold d2string.
  destruct v as [[]|[]| |s m e]; try (apply snprintf_lit_ok; lia).
  cbn [isnan isinf d2_text] in *. replace (SFeqb _ _) with false by by destruct s.
  destruct (double2ll _) as [v|] eqn:E.
  - apply double2ll_Some in E as [Hv _]. by rewrite ll2string_ok by (done || lia).
  - rewrite mem_write_ok by lia. rs. change (Z.to_nat 0) with 0%nat. rewrite take_0. cbn [app Nat.add].
    set (t := fpconv_dtoa _) in *.
    destruct (drop (length t) buf) as [|x r] eqn:Ed; [apply (f_equal length) in Ed; rewrite length_drop in Ed; cbn in Ed; lia|].
    rewrite mem_set_app by done. rs. do 4 f_equal. rewrite <- Nat.add_1_r, <- drop_drop, Ed. done.
Qed.

Lemma d2string_ok `{FloatTextLaws} buf v : 24 < zlen buf ->
  exists rest, d2string buf v = Ok (zlen (d2_text v), d2_text v ++ rest) /\
    length (d2_text v ++ rest) = length buf.
Proof.
  intros Hbuf. rewrite d2string_text by done. eexists. split; [done|]. pose proof (d2_text_length v).
  rewrite length_app. cbn [length]. rewrite length_drop. lia.
Qed.

(** The text that a double has to have: its name, the decimal digits of the integer
    between -2^62 and 2^62 that it is equal to, or what the library writes *)
Definition d2_spec `{FloatText} (v : double) (text : list Z) : Prop :=
  match v with
  | S754_nan => text = chars "nan"
  | S754_infinity s => text = if s then chars "-inf" else chars "inf"
  | S754_zero s => text = if s then chars "-0" else chars "0"
  | S754_finite _ _ _ =>
      (exists w, double_is v w /\ - 2 ^ 62 <= w <= 2 ^ 62 /\ text = decs w /\ string2ll text = Some w) \/
      (forall w, double_is v w -> ~ - 2 ^ 62 <= w <= 2 ^ 62) /\ text = fpconv_dtoa v
  end.

(** C39: for every double, NaN included, and a buffer of more than 24 bytes,
    [d2string] writes the text and a null byte at the beginning of the buffer, leaves
    the rest of it as it was, and returns the length of the text, at most 24.  The text
    is the name of NaN, of an infinity or of a signed zero; for a double equal to an
    integer from -2^62 to 2^62 it is the decimal text of this integer, which
    [string2ll] reads back; for any other one it is the text of [fpconv_dtoa], which is
    at most 24 characters long by its documentation. *)
Theorem d2string_spec `{FloatTextLaws} buf v :
  valid_double v = true -> 24 < zlen buf ->
  exists text, d2string buf v = Ok (zlen text, text ++ 0 :: drop (S (length text)) buf) /\
    zlen text <= 24 /\ d2_spec v text.
Proof.
  intros Hv Hbuf. exists (d2_text v). split; [by apply d2string_text|]. split; [apply d2_text_length|].
  destruct v as [[]|[]| |s m e]; try done. cbn [d2_text d2_spec]. set (d := S754_finite s m e) in *.
  destruct (double2ll d) as [w|] eqn:E.
  - left. exists w. pose proof (double2ll_Some d w E) as [Hw _]. apply double2ll_iff in E as [Ew Rw]; [|done].
    split; [done|]. split; [done|]. split; [done|]. by apply string2ll_complete.
  - right. split; [|done]. intros w Ew Rw. rewrite (proj2 (double2ll_iff d w Hv)) in E; done.
Qed.

(** An instance of the two libraries, for concrete runs: the text of a number
    that is not an integer is the letter p followed by its sign, its mantissa and
    its exponent. *)
Definition text_p : FloatText := {|
  fpconv_dtoa d :=
    match d with
    | S754_finite s m e => 112 :: (if s then 1 else 0) :: le_bytes 7 (Z.pos m) ++ le_bytes 2 (e + 2000)
    | _ => []
    end;
  strtod l :=
    if char_at l 0 =? 112 then
      (S754_finite (char_at l 1 =? 1) (Z.to_pos (le_val (take 7 (drop 2 l)))) (le_val (drop 9 l) - 2000), [])
    else if decide (l = chars "inf") then (S754_infinity false, [])
    else if decide (l = chars "-inf") then (S754_infinity true, [])
    else if decide (l = chars "-0") then (S754_zero true, [])
    else match string2ll l with Some v => (double_of_ll v, []) | None => (S754_zero false, l) end |}.

Lemma text_p_int v : is_i64 v -> (@strtod text_p (decs v)).1 = double_of_ll v.
Proof.
  intros Hv. cbn [strtod text_p]. pose proof (string2ll_complete v Hv) as Hs.
  assert (forall l, string2ll l = None -> decs v <> l) as Hne by congruence.
  rewrite !decide_False by (apply Hne; by vm_compute). rewrite Hs.
  replace (_ =? 112) with false; [done|]. symmetry. apply Z.eqb_neq. unfold decs, char_at.
  unfold is_i64 in Hv. destruct (v <? 0) eqn:E; [done|].
  destruct (dec_cons v) as (d & r & -> & Hd); [lia|]. unfold is_digit in Hd.
  change (default 0 ((d :: r) !! 0%nat)) with d. change ch_0 with 48 in Hd. change ch_9 with 57 in Hd. lia.
Qed.

Lemma text_p_laws : @FloatTextLaws text_p.
Proof.
  split; try done.
  - intros [| | |s m e]; cbn [fpconv_dtoa text_p]; done.
  - intros [| | |s m e]; cbn [fpconv_dtoa text_p]; try constructor; [done|constructor; [by destruct s|]].
    apply Forall_app. split; apply le_bytes_byte.
  - intros s m e Hv. destruct (bounded_inv m e Hv) as (Hf & He & Hm & _).
    assert (-1074 <= e) by (rewrite <- Hf, fexp64_eq; lia).
    cbn [fpconv_dtoa text_p strtod]. change (char_at (112 :: _) 0 =? 112) with true. cbv iota.
    change (drop 2 (112 :: _)) with (le_bytes 7 (Z.pos m) ++ le_bytes 2 (e + 2000)).
    change (drop 9 (112 :: _)) with (le_bytes 2 (e + 2000)).
    rewrite take_app_length' by by rewrite length_le_bytes.
    rewrite !le_val_bytes, !Z.mod_small by (cbn; lia). cbn [fst]. f_equal; [by destruct s|lia].
  - apply text_p_int.
Qed.

Lemma d2string_spec_witness :
  valid_double (double_of_ll (-7)) = true /\
  exists text, @d2string text_p (replicate 32 255) (double_of_ll (-7)) =
      Ok (zlen text, text ++ 0 :: drop (S (length text)) (replicate 32 255)) /\
    zlen text <= 24 /\ @d2_spec text_p (double_of_ll (-7)) text.
Proof.
  split; [reflexivity|].
  apply (@d2string_spec text_p text_p_laws (replicate 32 255) (double_of_ll (-7))); vm_compute; reflexivity.
Defined.
