(* ===== verification/Dict.v ===== *)
(** Hash tables with incremental rehashing: [dict.c] and [dict.h].

    A dictionary has two tables of chains.  Entries are pointers whose low bits
    tell whether they point to an entry or, in dictionaries without values, to a
    key directly; the model has a constructor for each.  The functions of a
    [dictType] are fields of a record; those that duplicate or free keys and
    values, and the callbacks that only observe, are not modelled. *)

From S2P Require Import Prelude Skiplist Double.
From Stdlib Require Import SpecFloat.

(** ** Types *)

Inductive dictResizeEnable := DICT_RESIZE_ENABLE | DICT_RESIZE_AVOID | DICT_RESIZE_FORBID.
#[export] Instance dictResizeEnable_eq_dec : EqDecision dictResizeEnable.
Proof. solve_decision. Defined.

(** [K]: keys; [SK]: what is stored for a key.  [castKey] is a stored key passed
    where a key is expected, without [keyFromStoredKey]. *)
Record dictType (K SK : Type) := DictType {
  hashFunction : K → Z;
  keyCompare : K → K → bool;
  keyFromStoredKey : SK → K;
  castKey : SK → K;
  resizeAllowed : option (Z → double → bool);
  no_value : bool;
  force_full_rehash : bool }.
Arguments DictType {K SK}.
Arguments hashFunction {K SK}.
Arguments keyCompare {K SK}.
Arguments keyFromStoredKey {K SK}.
Arguments castKey {K SK}.
Arguments resizeAllowed {K SK}.
Arguments no_value {K SK}.
Arguments force_full_rehash {K SK}.

(** A pointer to an entry: null, a key with a tag, or an entry with its value, if
    it has one that has been set, and its [next] pointer *)
Inductive dictEntry (SK V : Type) :=
  | NullEntry
  | KeyEntry (key : SK)
  | Entry (key : SK) (v : option V) (next : dictEntry SK V).
Arguments NullEntry {SK V}.
Arguments KeyEntry {SK V}.
Arguments Entry {SK V}.

(** [ht_table[i]], [ht_used[i]] and [ht_size_exp[i]] *)
Record htable (SK V : Type) := HT {
  ht_table : option (list (dictEntry SK V));
  ht_used : Z;
  ht_size_exp : Z }.
Arguments HT {SK V}.
Arguments ht_table {SK V}.
Arguments ht_used {SK V}.
Arguments ht_size_exp {SK V}.

Record dict (SK V : Type) := Dict {
  ht0 : htable SK V;
  ht1 : htable SK V;
  rehashidx : Z;
  pauserehash : Z;
  pauseAutoResize : Z }.
Arguments Dict {SK V}.
Arguments ht0 {SK V}.
Arguments ht1 {SK V}.
Arguments rehashidx {SK V}.
Arguments pauserehash {SK V}.
Arguments pauseAutoResize {SK V}.

Definition DICT_HT_INITIAL_EXP : Z := 2.
Definition DICT_HT_INITIAL_SIZE : Z := 4.
Definition HASHTABLE_MIN_FILL : Z := 8.
Definition dict_force_resize_ratio : Z := 4.

Definition DICTHT_SIZE (exp : Z) : Z := if exp =? -1 then 0 else u64 (Z.shiftl 1 exp).
Definition DICTHT_SIZE_MASK (exp : Z) : Z := if exp =? -1 then 0 else u64 (DICTHT_SIZE exp - 1).

(** [8*sizeof(long) - __builtin_clzl(size-1)] is the number of bits of [size-1]. *)
Definition _dictNextExp (size : Z) : Z :=
  if size <=? DICT_HT_INITIAL_SIZE then DICT_HT_INITIAL_EXP
  else if size >=? INT64_MAX then 63
  else 64 - (63 - Z.log2 (size - 1)).

Section model.
Context {K SK V : Type} (ty : dictType K SK).
Implicit Types (d : dict SK V) (de : dictEntry SK V) (t : htable SK V).

(** ** Entries *)

Definition entryIsKey de : bool := match de with KeyEntry _ => true | _ => false end.

Definition dictGetKey de : res SK :=
  match de with NullEntry => Fault OutOfBounds | KeyEntry k | Entry k _ _ => Ok k end.

Definition dictGetNext de : dictEntry SK V :=
  match de with NullEntry | KeyEntry _ => NullEntry | Entry _ _ next => next end.

Definition dictSetNext de (next : dictEntry SK V) : res (dictEntry SK V) :=
  match de with
  | NullEntry => Fault OutOfBounds
  | KeyEntry _ => Fault AssertFailed
  | Entry k v _ => Ok (Entry k v next)
  end.

Definition is_null de : bool := match de with NullEntry => true | _ => false end.

(** ** Tables *)

Definition ht d (i : Z) : htable SK V := if i =? 0 then ht0 d else ht1 d.
Definition set_ht d (i : Z) t : dict SK V :=
  if i =? 0 then Dict t (ht1 d) (rehashidx d) (pauserehash d) (pauseAutoResize d)
  else Dict (ht0 d) t (rehashidx d) (pauserehash d) (pauseAutoResize d).
Definition set_rehashidx d (r : Z) : dict SK V := Dict (ht0 d) (ht1 d) r (pauserehash d) (pauseAutoResize d).
Definition set_pauserehash d (p : Z) : dict SK V := Dict (ht0 d) (ht1 d) (rehashidx d) p (pauseAutoResize d).

(** [ht_table[i][idx]], read and written *)
Definition get_bucket t (idx : Z) : res (dictEntry SK V) :=
  match ht_table t with
  | None => Fault OutOfBounds
  | Some l =>
      if idx <? 0 then Fault OutOfBounds else
      match l !! Z.to_nat idx with Some de => Ok de | None => Fault OutOfBounds end
  end.
Definition set_bucket t (idx : Z) de : res (htable SK V) :=
  match ht_table t with
  | None => Fault OutOfBounds
  | Some l =>
      if (idx <? 0) || (idx >=? zlen l) then Fault OutOfBounds
      else Ok (HT (Some (<[Z.to_nat idx := de]> l)) (ht_used t) (ht_size_exp t))
  end.
Definition set_used t (used : Z) : htable SK V := HT (ht_table t) (u64 used) (ht_size_exp t).

Definition dictSize d : Z := u64 (ht_used (ht0 d) + ht_used (ht1 d)).
Definition dictBuckets d : Z := u64 (DICTHT_SIZE (ht_size_exp (ht0 d)) + DICTHT_SIZE (ht_size_exp (ht1 d))).
Definition dictIsRehashing d : bool := negb (rehashidx d =? -1).
Definition dictPauseRehashing d : dict SK V := set_pauserehash d (u32 (pauserehash d + 1)).
Definition dictResumeRehashing d : dict SK V := set_pauserehash d (u32 (pauserehash d - 1)).
Definition dictPauseAutoResize d : dict SK V :=
  Dict (ht0 d) (ht1 d) (rehashidx d) (pauserehash d) (wraps 16 (pauseAutoResize d + 1)).
Definition dictResumeAutoResize d : dict SK V :=
  Dict (ht0 d) (ht1 d) (rehashidx d) (pauserehash d) (wraps 16 (pauseAutoResize d - 1)).

Definition _dictReset : htable SK V := HT None 0 (-1).

Definition dictCreate : dict SK V := Dict _dictReset _dictReset (-1) 0 0.

Definition dictGetHash (key : K) : Z := hashFunction ty key.

(** ** Rehashing *)

(** The entry that is put in front of the bucket [b] for the entry [de] *)
Definition move_entry (storedKey : SK) de (b : dictEntry SK V) : res (dictEntry SK V) :=
  if no_value ty then
    if is_null b then Ok (KeyEntry storedKey)
    else if entryIsKey de then Ok (Entry storedKey None b)
    else dictSetNext de b
  else dictSetNext de b.

(** The body of the loop over the entries of the bucket [idx] of the first table *)
Definition rehash_entry d (idx : Z) (storedKey : SK) de : res (dict SK V) :=
  let exp0 := ht_size_exp (ht0 d) in
  let exp1 := ht_size_exp (ht1 d) in
  let h :=
    if exp1 >? exp0
    then Z.land (dictGetHash (keyFromStoredKey ty storedKey)) (DICTHT_SIZE_MASK exp1)
    else Z.land idx (DICTHT_SIZE_MASK exp1) in
  b ← get_bucket (ht1 d) h;
  de ← move_entry storedKey de b;
  t1 ← set_bucket (ht1 d) h de;
  let d := set_ht d 1 t1 in
  let d := set_ht d 0 (set_used (ht0 d) (ht_used (ht0 d) - 1)) in
  Ok (set_ht d 1 (set_used (ht1 d) (ht_used (ht1 d) + 1))).

Fixpoint rehash_entries d (idx : Z) de : res (dict SK V) :=
  match de with
  | NullEntry => Ok d
  | KeyEntry storedKey => rehash_entry d idx storedKey de
  | Entry storedKey _ nextde =>
      d ← rehash_entry d idx storedKey de;
      rehash_entries d idx nextde
  end.

Definition rehashEntriesInBucketAtIndex d (idx : Z) : res (dict SK V) :=
  de ← get_bucket (ht0 d) idx;
  d ← rehash_entries d idx de;
  t0 ← set_bucket (ht0 d) idx NullEntry;
  Ok (set_ht d 0 t0).

Definition dictCheckRehashingCompleted d : dict SK V * bool :=
  if negb (ht_used (ht0 d) =? 0) then (d, false)
  else (Dict (ht1 d) _dictReset (-1) (pauserehash d) (pauseAutoResize d), true).

(** The loop over empty buckets: [None] if [empty_visits] is used up.  It is
    positive when the loop starts. *)
Fixpoint rehash_skip (empty_visits : nat) d : res (dict SK V * option nat) :=
  b ← get_bucket (ht0 d) (rehashidx d);
  if negb (is_null b) then Ok (d, Some empty_visits) else
  let d := set_rehashidx d (rehashidx d + 1) in
  match empty_visits with
  | O => Fault OutOfFuel
  | S O => Ok (d, None)
  | S empty_visits => rehash_skip empty_visits d
  end.

(** The loop [while(n-- && d->ht_used[0] != 0)]: [false] if it returned early *)
Fixpoint rehash_loop (n empty_visits : nat) d : res (dict SK V * bool) :=
  match n with
  | O => Ok (d, true)
  | S n =>
      if ht_used (ht0 d) =? 0 then Ok (d, true) else
      _ ← assert_ (DICTHT_SIZE (ht_size_exp (ht0 d)) >? u64 (rehashidx d));
      '(d, visits) ← rehash_skip empty_visits d;
      match visits with
      | None => Ok (d, false)
      | Some empty_visits =>
          d ← rehashEntriesInBucketAtIndex d (rehashidx d);
          rehash_loop n empty_visits (set_rehashidx d (rehashidx d + 1))
      end
  end.

(** The test at the start of [dictRehash] and [_dictBucketRehash] *)
Definition rehash_refused (can : dictResizeEnable) d : bool :=
  let s0 := DICTHT_SIZE (ht_size_exp (ht0 d)) in
  let s1 := DICTHT_SIZE (ht_size_exp (ht1 d)) in
  bool_decide (can = DICT_RESIZE_FORBID) || negb (dictIsRehashing d) ||
  (bool_decide (can = DICT_RESIZE_AVOID) &&
   (((s1 >? s0) && (s1 <? u64 (dict_force_resize_ratio * s0))) ||
    ((s1 <? s0) && (s0 <? u64 (HASHTABLE_MIN_FILL * dict_force_resize_ratio * s1))))).

(** The result is true if there are keys left to move. *)
Definition dictRehash (can : dictResizeEnable) d (n : nat) : res (dict SK V * bool) :=
  if rehash_refused can d then Ok (d, false) else
  '(d, finished) ← rehash_loop n (n * 10) d;
  if finished : bool then
    let '(d, completed) := dictCheckRehashingCompleted d in Ok (d, negb completed)
  else Ok (d, true).

(** [while (dictRehash(d, 1000)) {}] *)
Fixpoint rehash_all (fuel : nat) (can : dictResizeEnable) d : res (dict SK V) :=
  match fuel with
  | O => Fault OutOfFuel
  | S fuel =>
      '(d, more) ← dictRehash can d 1000;
      if more : bool then rehash_all fuel can d else Ok d
  end.

Definition _dictRehashStep (can : dictResizeEnable) d : res (dict SK V) :=
  if pauserehash d =? 0 then '(d, _) ← dictRehash can d 1; Ok d else Ok d.

Definition _dictBucketRehash (can : dictResizeEnable) d (idx : Z) : res (dict SK V) :=
  if negb (pauserehash d =? 0) then Ok d
  else if rehash_refused can d then Ok d
  else
    d ← rehashEntriesInBucketAtIndex d idx;
    Ok (dictCheckRehashingCompleted d).1.

Definition _dictRehashStepIfNeeded (can : dictResizeEnable) d (visitedIdx : Z) : res (dict SK V) :=
  if negb (dictIsRehashing d) || negb (pauserehash d =? 0) then Ok d else
  b ← (if s64 visitedIdx >=? rehashidx d
       then de ← get_bucket (ht0 d) visitedIdx; Ok (negb (is_null de)) else Ok false);
  if b : bool then _dictBucketRehash can d visitedIdx
  else '(d, _) ← dictRehash can d 1; Ok d.

(** ** Resizing *)

Inductive dict_result := DICT_OK | DICT_ERR.

(** [alloc]: whether an allocation of so many bytes succeeds, for callers that
    pass [malloc_failed]; the last result is [*malloc_failed]. *)
Definition _dictResize (can : dictResizeEnable) d (size : Z) (alloc : option (Z → bool))
    : res (dict SK V * dict_result * bool) :=
  _ ← assert_ (negb (dictIsRehashing d));
  let new_ht_size_exp := _dictNextExp size in
  let newsize := DICTHT_SIZE new_ht_size_exp in
  if (newsize <? size) || (u64 (newsize * 8) <? newsize) then Ok (d, DICT_ERR, false) else
  if new_ht_size_exp =? ht_size_exp (ht0 d) then Ok (d, DICT_ERR, false) else
  let failed := match alloc with Some f => negb (f (u64 (newsize * 8))) | None => false end in
  if failed then Ok (d, DICT_ERR, true) else
  let new := HT (Some (replicate (Z.to_nat newsize) NullEntry)) 0 new_ht_size_exp in
  if negb (bool_decide (is_Some (ht_table (ht0 d)))) || (ht_used (ht0 d) =? 0) then
    Ok (Dict new _dictReset (-1) (pauserehash d) (pauseAutoResize d), DICT_OK, false)
  else
    let d := Dict (ht0 d) new 0 (pauserehash d) (pauseAutoResize d) in
    d ← (if force_full_rehash ty
         then rehash_all (S (Z.to_nat (DICTHT_SIZE (ht_size_exp (ht0 d))))) can d else Ok d);
    Ok (d, DICT_OK, false).

Definition _dictExpand (can : dictResizeEnable) d (size : Z) (alloc : option (Z → bool))
    : res (dict SK V * dict_result * bool) :=
  if dictIsRehashing d || (ht_used (ht0 d) >? size) || (DICTHT_SIZE (ht_size_exp (ht0 d)) >=? size)
  then Ok (d, DICT_ERR, false)
  else _dictResize can d size alloc.

Definition dictExpand (can : dictResizeEnable) d (size : Z) : res (dict SK V * dict_result) :=
  '(d, r, _) ← _dictExpand can d size None; Ok (d, r).

Definition dictTryExpand (can : dictResizeEnable) d (size : Z) (alloc : Z → bool) : res (dict SK V * dict_result) :=
  '(d, _, malloc_failed) ← _dictExpand can d size (Some alloc);
  Ok (d, if malloc_failed : bool then DICT_ERR else DICT_OK).

Definition dictShrink (can : dictResizeEnable) d (size : Z) : res (dict SK V * dict_result) :=
  if dictIsRehashing d || (ht_used (ht0 d) >? size) || (DICTHT_SIZE (ht_size_exp (ht0 d)) <=? size)
  then Ok (d, DICT_ERR)
  else '(d, r, _) ← _dictResize can d size None; Ok (d, r).

Definition dictTypeResizeAllowed d (size : Z) : bool :=
  match resizeAllowed ty with
  | None => true
  | Some f =>
      f (u64 (DICTHT_SIZE (_dictNextExp size) * 8))
        (SFdiv 53 1024 (double_of_ll (ht_used (ht0 d))) (double_of_ll (DICTHT_SIZE (ht_size_exp (ht0 d)))))
  end.

Definition dictExpandIfNeeded (can : dictResizeEnable) d : res (dict SK V * dict_result) :=
  if dictIsRehashing d then Ok (d, DICT_OK) else
  let size0 := DICTHT_SIZE (ht_size_exp (ht0 d)) in
  let used0 := ht_used (ht0 d) in
  if size0 =? 0 then '(d, _) ← dictExpand can d DICT_HT_INITIAL_SIZE; Ok (d, DICT_OK) else
  if (bool_decide (can = DICT_RESIZE_ENABLE) && (used0 >=? size0)) ||
     (negb (bool_decide (can = DICT_RESIZE_FORBID)) && (used0 >=? u64 (dict_force_resize_ratio * size0)))
  then
    if dictTypeResizeAllowed d (u64 (used0 + 1))
    then '(d, _) ← dictExpand can d (u64 (used0 + 1)); Ok (d, DICT_OK)
    else Ok (d, DICT_OK)
  else Ok (d, DICT_ERR).

Definition _dictExpandIfNeeded (can : dictResizeEnable) d : res (dict SK V * dict_result) :=
  if pauseAutoResize d >? 0 then Ok (d, DICT_ERR) else dictExpandIfNeeded can d.

Definition dictShrinkIfNeeded (can : dictResizeEnable) d : res (dict SK V * dict_result) :=
  if dictIsRehashing d then Ok (d, DICT_OK) else
  let size0 := DICTHT_SIZE (ht_size_exp (ht0 d)) in
  let used0 := ht_used (ht0 d) in
  if size0 <=? DICT_HT_INITIAL_SIZE then Ok (d, DICT_OK) else
  if (bool_decide (can = DICT_RESIZE_ENABLE) && (u64 (used0 * HASHTABLE_MIN_FILL) <=? size0)) ||
     (negb (bool_decide (can = DICT_RESIZE_FORBID)) &&
      (u64 (used0 * HASHTABLE_MIN_FILL * dict_force_resize_ratio) <=? size0))
  then
    if dictTypeResizeAllowed d used0
    then '(d, _) ← dictShrink can d used0; Ok (d, DICT_OK)
    else Ok (d, DICT_OK)
  else Ok (d, DICT_ERR).

Definition _dictShrinkIfNeeded (can : dictResizeEnable) d : res (dict SK V) :=
  if pauseAutoResize d >? 0 then Ok d else '(d, _) ← dictShrinkIfNeeded can d; Ok d.
End model.
