(* ===== verification/DictApi.v ===== *)
(** The operations of [dict.c] on keys: lookup, insertion, replacement, removal,
    iteration, scanning, statistics.

    A [dictEntryLink] is the address of a pointer to an entry, that is of a bucket
    or of the [next] field of an entry: a table, a bucket and a position in its
    chain.  The entry a function returns a pointer to is given by its link.  Keys
    are compared by value: the test [key == he_key] on addresses is a shortcut for
    the comparison of a key with itself. *)

From S2P Require Import Prelude Dict.

Record dictEntryLink := Link { l_table : Z; l_idx : Z; l_pos : nat }.
#[export] Instance dictEntryLink_eq_dec : EqDecision dictEntryLink.
Proof. solve_decision. Defined.

Section links.
Context {SK V : Type}.
Implicit Types (d : dict SK V) (de : dictEntry SK V).

(** The pointer at position [n] of a chain, read and written *)
Fixpoint entry_at de (n : nat) {struct n} : res (dictEntry SK V) :=
  match n, de with
  | O, _ => Ok de
  | S n, Entry _ _ next => entry_at next n
  | S _, _ => Fault OutOfBounds
  end.
Fixpoint entry_set de (n : nat) (x : dictEntry SK V) {struct n} : res (dictEntry SK V) :=
  match n, de with
  | O, _ => Ok x
  | S n, Entry k v next => next ← entry_set next n x; Ok (Entry k v next)
  | S _, _ => Fault OutOfBounds
  end.

(** [*link] *)
Definition link_get d (l : dictEntryLink) : res (dictEntry SK V) :=
  b ← get_bucket (ht d (l_table l)) (l_idx l); entry_at b (l_pos l).
Definition link_set d (l : dictEntryLink) de : res (dict SK V) :=
  b ← get_bucket (ht d (l_table l)) (l_idx l);
  b ← entry_set b (l_pos l) de;
  t ← set_bucket (ht d (l_table l)) (l_idx l) b;
  Ok (set_ht d (l_table l) t).
End links.

Section model.
Context {K SK V : Type} (ty : dictType K SK).
Implicit Types (d : dict SK V) (de : dictEntry SK V).

(** ** Lookup *)

(** The position of [key] in a chain, counted from [pos] *)
Fixpoint find_chain (key : K) de (pos : nat) : option nat :=
  match de with
  | NullEntry => None
  | KeyEntry sk => if keyCompare ty key (keyFromStoredKey ty sk) then Some pos else None
  | Entry sk _ next =>
      if keyCompare ty key (keyFromStoredKey ty sk) then Some pos else find_chain key next (S pos)
  end.

(** [hash & DICTHT_SIZE_MASK(d->ht_size_exp[table])] *)
Definition bucket_index d (hash table : Z) : Z := Z.land hash (DICTHT_SIZE_MASK (ht_size_exp (ht d table))).

(** The search of [dictFindLinkInternal] over the given tables, with the link
    found and the last bucket searched *)
Fixpoint link_loop (tables : list Z) d (key : K) (hash idx : Z) (bucket : option dictEntryLink)
    : res (option dictEntryLink * option dictEntryLink) :=
  match tables with
  | [] => Ok (None, bucket)
  | table :: tables =>
      if (table =? 0) && (s64 idx <? rehashidx d) then link_loop tables d key hash idx bucket else
      let idx := bucket_index d hash table in
      b ← get_bucket (ht d table) idx;
      let bucket := Some (Link table idx 0) in
      match find_chain key b 0 with
      | Some pos => Ok (Some (Link table idx pos), bucket)
      | None => link_loop tables d key hash idx bucket
      end
  end.

(** [want_bucket]: the caller passes [bucket].  The results are the dictionary, the
    link and [*bucket]. *)
Definition dictFindLinkInternal (can : dictResizeEnable) d (key : K) (want_bucket : bool)
    : res (dict SK V * option dictEntryLink * option dictEntryLink) :=
  if negb want_bucket && (dictSize d =? 0) then Ok (d, None, None) else
  let hash := dictGetHash ty key in
  let idx := bucket_index d hash 0 in
  d ← _dictRehashStepIfNeeded ty can d idx;
  '(link, bucket) ← link_loop (if dictIsRehashing d then [0; 1] else [0]) d key hash idx None;
  Ok (d, link, bucket).

Definition dictFindLink (can : dictResizeEnable) d (key : K) (want_bucket : bool)
    : res (dict SK V * option dictEntryLink * option dictEntryLink) :=
  if dictSize d =? 0 then Ok (d, None, None) else dictFindLinkInternal can d key want_bucket.

Definition dictFind (can : dictResizeEnable) d (key : K) : res (dict SK V * option (dictEntry SK V)) :=
  '(d, link, _) ← dictFindLink can d key false;
  match link with
  | Some l => de ← link_get d l; Ok (d, Some de)
  | None => Ok (d, None)
  end.

Definition dictGetVal de : res V :=
  match de with
  | NullEntry => Fault OutOfBounds
  | KeyEntry _ => Fault AssertFailed
  | Entry _ (Some v) _ => Ok v
  | Entry _ None _ => Fault OutOfBounds
  end.

Definition dictFetchValue (can : dictResizeEnable) d (key : K) : res (dict SK V * option V) :=
  '(d, he) ← dictFind can d key;
  match he with
  | Some he => v ← dictGetVal he; Ok (d, Some v)
  | None => Ok (d, None)
  end.

(** ** Insertion *)

(** The loops of [dictGenericDelete] and [dictFindLinkForInsert]: the link of the
    entry of [key] and the last index *)
Fixpoint table_loop (tables : list Z) d (key : K) (hash idx : Z) : res (option dictEntryLink * Z) :=
  match tables with
  | [] => Ok (None, idx)
  | table :: tables =>
      if (table =? 0) && (s64 idx <? rehashidx d) then table_loop tables d key hash idx else
      let idx := bucket_index d hash table in
      b ← get_bucket (ht d table) idx;
      match find_chain key b 0 with
      | Some pos => Ok (Some (Link table idx pos), idx)
      | None => if negb (dictIsRehashing d) then Ok (None, idx) else table_loop tables d key hash idx
      end
  end.

(** The results are the dictionary, the bucket and [*existing]. *)
Definition dictFindLinkForInsert (can : dictResizeEnable) d (key : K)
    : res (dict SK V * option dictEntryLink * option dictEntryLink) :=
  let hash := dictGetHash ty key in
  let idx := bucket_index d hash 0 in
  d ← _dictRehashStepIfNeeded ty can d idx;
  '(d, _) ← _dictExpandIfNeeded ty can d;
  '(found, idx) ← table_loop [0; 1] d key hash idx;
  match found with
  | Some existing => Ok (d, None, Some existing)
  | None => Ok (d, Some (Link (if dictIsRehashing d then 1 else 0) idx 0), None)
  end.

(** The link of the new entry is that of its bucket. *)
Definition dictInsertKeyAtLink d (key : SK) (link : dictEntryLink) : res (dict SK V * dictEntryLink) :=
  let htidx := if dictIsRehashing d then 1 else 0 in
  _ ← assert_ ((l_table link =? htidx) && bool_decide (l_pos link = O) &&
        (l_idx link >=? 0) && (l_idx link <=? DICTHT_SIZE_MASK (ht_size_exp (ht d htidx))));
  b ← link_get d link;
  let entry :=
    if no_value ty then if is_null b then KeyEntry key else Entry key None b
    else Entry key None b in
  d ← link_set d link entry;
  let t := ht d htidx in
  Ok (set_ht d htidx (set_used t (ht_used t + 1)), link).

(** The results are the dictionary, the new entry and [*existing]. *)
Definition dictAddRaw (can : dictResizeEnable) d (key : SK)
    : res (dict SK V * option dictEntryLink * option dictEntryLink) :=
  '(d, position, existing) ← dictFindLinkForInsert can d (keyFromStoredKey ty key);
  match position with
  | None => Ok (d, None, existing)
  | Some position =>
      '(d, entry) ← dictInsertKeyAtLink d key position;
      Ok (d, Some entry, existing)
  end.

(** [entryHasValue] holds of an entry that is allocated without a value; the write
    is then out of its bounds. *)
Definition dictSetVal d (l : dictEntryLink) (val : V) : res (dict SK V) :=
  de ← link_get d l;
  match de with
  | NullEntry => Fault OutOfBounds
  | KeyEntry _ => Fault AssertFailed
  | Entry k _ next =>
      if no_value ty then Fault OutOfBounds else link_set d l (Entry k (Some val) next)
  end.

Definition dictAdd (can : dictResizeEnable) d (key : SK) (val : V) : res (dict SK V * dict_result) :=
  '(d, entry, _) ← dictAddRaw can d key;
  match entry with
  | None => Ok (d, DICT_ERR)
  | Some entry =>
      d ← (if negb (no_value ty) then dictSetVal d entry val else Ok d);
      Ok (d, DICT_OK)
  end.

(** The last result is the old value, passed to [valDestructor]. *)
Definition dictReplace (can : dictResizeEnable) d (key : SK) (val : V) : res (dict SK V * Z * option V) :=
  '(d, entry, existing) ← dictAddRaw can d key;
  match entry with
  | Some entry => d ← dictSetVal d entry val; Ok (d, 1, None)
  | None =>
      match existing with
      | None => Fault OutOfBounds
      | Some existing =>
          de ← link_get d existing;
          oldval ← dictGetVal de;
          d ← dictSetVal d existing val;
          Ok (d, 0, Some oldval)
      end
  end.

Definition dictAddOrFind (can : dictResizeEnable) d (key : SK) : res (dict SK V * option dictEntryLink) :=
  '(d, entry, existing) ← dictAddRaw can d key;
  Ok (d, match entry with Some e => Some e | None => existing end).

Definition dictSetKeyAtLink (can : dictResizeEnable) d (key : SK) (link : option dictEntryLink) (newItem : bool)
    : res (dict SK V * option dictEntryLink) :=
  if newItem then
    let snap0 := ht_size_exp (ht0 d) in
    let snap1 := ht_size_exp (ht1 d) in
    '(d, _) ← dictExpandIfNeeded ty can d;
    '(d, link) ←
      match link with
      | Some l =>
          if negb (snap0 =? ht_size_exp (ht0 d)) || negb (snap1 =? ht_size_exp (ht1 d)) then
            '(d, found, bucket) ← dictFindLinkInternal can d (keyFromStoredKey ty key) true;
            _ ← assert_ (bool_decide (is_Some bucket));
            _ ← assert_ (bool_decide (found = None));
            Ok (d, bucket)
          else Ok (d, Some l)
      | None =>
          '(d, found, bucket) ← dictFindLinkInternal can d (keyFromStoredKey ty key) true;
          _ ← assert_ (bool_decide (is_Some bucket));
          _ ← assert_ (bool_decide (found = None));
          Ok (d, bucket)
      end;
    match link with
    | None => Fault OutOfBounds
    | Some l => '(d, _) ← dictInsertKeyAtLink d key l; Ok (d, Some l)
    end
  else
    '(d, link) ←
      match link with
      | Some l => Ok (d, Some l)
      | None =>
          '(d, found, _) ← dictFindLink can d (castKey ty key) false;
          _ ← assert_ (bool_decide (is_Some found));
          Ok (d, found)
      end;
    match link with
    | None => Fault OutOfBounds
    | Some l =>
        de ← link_get d l;
        d ← match de with
            | NullEntry => Fault OutOfBounds
            | KeyEntry _ => link_set d l (KeyEntry key)
            | Entry _ v next => link_set d l (Entry key v next)
            end;
        Ok (d, Some l)
    end.

(** ** Removal *)

(** The entry that is unlinked, if there is one.  With [nofree] zero the caller only
    tests it: it has been freed. *)
Definition dictGenericDelete (can : dictResizeEnable) d (key : K) : res (dict SK V * option (dictEntry SK V)) :=
  if dictSize d =? 0 then Ok (d, None) else
  let h := dictGetHash ty key in
  let idx := bucket_index d h 0 in
  d ← _dictRehashStepIfNeeded ty can d idx;
  '(found, _) ← table_loop [0; 1] d key h idx;
  match found with
  | None => Ok (d, None)
  | Some link =>
      he ← link_get d link;
      d ← link_set d link (dictGetNext he);
      let t := ht d (l_table link) in
      let d := set_ht d (l_table link) (set_used t (ht_used t - 1)) in
      d ← _dictShrinkIfNeeded ty can d;
      Ok (d, Some he)
  end.

Definition dictDelete (can : dictResizeEnable) d (key : K) : res (dict SK V * dict_result) :=
  '(d, he) ← dictGenericDelete can d key;
  Ok (d, match he with Some _ => DICT_OK | None => DICT_ERR end).

Definition dictUnlink (can : dictResizeEnable) d (key : K) : res (dict SK V * option (dictEntry SK V)) :=
  dictGenericDelete can d key.

Fixpoint unlink_loop (tables : list Z) d (key : K) (h : Z) : res (option dictEntryLink) :=
  match tables with
  | [] => Ok None
  | table :: tables =>
      let idx := bucket_index d h table in
      if (table =? 0) && (s64 idx <? rehashidx d) then unlink_loop tables d key h else
      b ← get_bucket (ht d table) idx;
      match find_chain key b 0 with
      | Some pos => Ok (Some (Link table idx pos))
      | None => if negb (dictIsRehashing d) then Ok None else unlink_loop tables d key h
      end
  end.

(** [*table_index] is the table of the link. *)
Definition dictTwoPhaseUnlinkFind (can : dictResizeEnable) d (key : K) : res (dict SK V * option dictEntryLink) :=
  if dictSize d =? 0 then Ok (d, None) else
  d ← (if dictIsRehashing d then _dictRehashStep ty can d else Ok d);
  ref ← unlink_loop [0; 1] d key (dictGetHash ty key);
  match ref with
  | Some _ => Ok (dictPauseRehashing d, ref)
  | None => Ok (d, None)
  end.

Definition dictTwoPhaseUnlinkFree (can : dictResizeEnable) d (plink : option dictEntryLink) (table_index : Z)
    : res (dict SK V) :=
  match plink with
  | None => Ok d
  | Some plink =>
      de ← link_get d plink;
      if is_null de then Ok d else
      let t := ht d table_index in
      let d := set_ht d table_index (set_used t (ht_used t - 1)) in
      d ← link_set d plink (dictGetNext de);
      d ← _dictShrinkIfNeeded ty can d;
      Ok (dictResumeRehashing d)
  end.

(** The keys of a chain that are freed, from [used] entries left *)
Fixpoint clear_chain (used : Z) de : Z * list SK :=
  match de with
  | NullEntry => (used, [])
  | KeyEntry k => (u64 (used - 1), [k])
  | Entry k _ next => let '(used, freed) := clear_chain (u64 (used - 1)) next in (used, k :: freed)
  end.

(** The loop over the buckets, of which [n] are left *)
Fixpoint clear_loop (n : nat) (t : htable SK V) (i used : Z) : res (list SK) :=
  match n with
  | O => Ok []
  | S n =>
      if negb (used >? 0) then Ok [] else
      he ← get_bucket t i;
      let '(used, freed) := clear_chain used he in
      rest ← clear_loop n t (i + 1) used;
      Ok (freed ++ rest)
  end.

(** The last result is the list of the keys that are freed. *)
Definition _dictClear d (htidx : Z) : res (dict SK V * list SK) :=
  let t := ht d htidx in
  freed ← clear_loop (Z.to_nat (DICTHT_SIZE (ht_size_exp t))) t 0 (ht_used t);
  Ok (set_ht d htidx _dictReset, freed).

Definition dictEmpty d : res (dict SK V * list SK) :=
  '(d, freed0) ← _dictClear d 0;
  '(d, freed1) ← _dictClear d 1;
  Ok (Dict (ht0 d) (ht1 d) (-1) 0 0, freed0 ++ freed1).
End model.
