(* ===== verification/DictRep.v ===== *)
(** The invariant of the dictionaries of [dict.c] and rehashing.

    The contents of a dictionary are the entries of its chains.  [dict_ok] says
    that tables have the length of their exponent and the number of entries of
    their counter, that every entry is in the bucket of its hash, that no key has
    two entries, and that the buckets of the first table before [rehashidx] are
    empty.  Rehashing keeps it and permutes the contents. *)

From S2P Require Import Prelude Dict DictApi.

(** What a [dictType] has to satisfy *)
Class DictLaws {K SK} `{EqDecision K} (ty : dictType K SK) : Prop := {
  law_compare : ∀ a b, keyCompare ty a b = bool_decide (a = b);
  law_hash : ∀ k, 0 ≤ hashFunction ty k ≤ UINT64_MAX }.

Lemma bind_insert {A B} (f : A → list B) (l : list A) (i : nat) (x : A) :
  l !! i = Some x →
  ∃ rest, l ≫= f ≡ₚ f x ++ rest ∧ ∀ y, <[i:=y]> l ≫= f ≡ₚ f y ++ rest.
Proof.
  intros E. pose proof (lookup_lt_Some _ _ _ E) as Hi.
  exists ((take i l ≫= f) ++ (drop (S i) l ≫= f)). split.
  - rewrite <- (take_drop_middle l i x E) at 1. rewrite bind_app. cbn. apply Permutation_app_swap_app.
  - intros y. rewrite insert_take_drop by done. rewrite bind_app. cbn. apply Permutation_app_swap_app.
Qed.

Section rep.
Context {K SK V : Type} `{EqDecision K} (ty : dictType K SK) `{!DictLaws ty}.
Implicit Types (d : dict SK V) (de : dictEntry SK V) (t : htable SK V).

Abbreviation hash k := (hashFunction ty k).
Abbreviation size e := (2 ^ e).

Fixpoint chain de : list (SK * option V) :=
  match de with
  | NullEntry => []
  | KeyEntry k => [(k, None)]
  | Entry k v next => (k, v) :: chain next
  end.

Definition item_key (x : SK * option V) : K := keyFromStoredKey ty x.1.

(** Pointers with a tag are only in dictionaries without values, where entries
    have no value. *)
Fixpoint shape de : Prop :=
  match de with
  | NullEntry => True
  | KeyEntry _ => no_value ty = true
  | Entry _ v next => (no_value ty = true → v = None) ∧ shape next
  end.

Definition placed (e i : Z) de : Prop := Forall (λ x, hash (item_key x) mod size e = i) (chain de).

Definition buckets t : list (dictEntry SK V) := default [] (ht_table t).
Definition items t : list (SK * option V) := buckets t ≫= chain.
Definition dict_items d : list (SK * option V) := items (ht0 d) ++ items (ht1 d).

Record table_ok t : Prop := {
  tok_some : is_Some (ht_table t);
  tok_exp : 2 ≤ ht_size_exp t ≤ 60;
  tok_len : zlen (buckets t) = size (ht_size_exp t);
  tok_used : ht_used t = zlen (items t);
  tok_bucket : ∀ (i : nat) de, buckets t !! i = Some de → shape de ∧ placed (ht_size_exp t) (Z.of_nat i) de }.

(** Rehashing is in progress. *)
Record rehash_ok d : Prop := {
  rok_ht0 : table_ok (ht0 d);
  rok_ht1 : table_ok (ht1 d);
  rok_exp : ht_size_exp (ht0 d) ≠ ht_size_exp (ht1 d);
  rok_idx : 0 ≤ rehashidx d ≤ size (ht_size_exp (ht0 d));
  rok_empty : ∀ (i : nat) de, Z.of_nat i < rehashidx d → buckets (ht0 d) !! i = Some de → de = NullEntry }.

Definition stable_ok d : Prop :=
  rehashidx d = -1 ∧ ht1 d = _dictReset ∧ (ht0 d = _dictReset ∨ table_ok (ht0 d)).

(** What depends on the contents only *)
Definition items_ok (l : list (SK * option V)) : Prop := NoDup (item_key <$> l) ∧ zlen l ≤ UINT64_MAX.

Definition dict_ok d : Prop :=
  (stable_ok d ∨ rehash_ok d) ∧ items_ok (dict_items d) ∧ 0 ≤ pauserehash d ≤ UINT32_MAX.

(** ** Sizes and indices *)

Lemma DICTHT_SIZE_pow e : 0 ≤ e ≤ 63 → DICTHT_SIZE e = size e.
Proof.
  intros. unfold DICTHT_SIZE. destruct (Z.eqb_spec e (-1)); [lia|].
  rewrite Z.shiftl_1_l, u64_small; [done|].
  assert (2 ^ e ≤ 2 ^ 63) by (apply Z.pow_le_mono_r; lia).
  assert (0 < 2 ^ e) by (apply Z.pow_pos_nonneg; lia). lia.
Qed.

Lemma size_bound e : 2 ≤ e ≤ 60 → 4 ≤ size e ≤ 1152921504606846976.
Proof.
  intros. assert (2 ^ e ≤ 2 ^ 60) by (apply Z.pow_le_mono_r; lia).
  assert (2 ^ 2 ≤ 2 ^ e) by (apply Z.pow_le_mono_r; lia). lia.
Qed.

Lemma land_mask h e : 2 ≤ e ≤ 60 → Z.land h (DICTHT_SIZE_MASK e) = h mod size e.
Proof.
  intros He. pose proof (size_bound e He). unfold DICTHT_SIZE_MASK.
  destruct (Z.eqb_spec e (-1)); [lia|]. rewrite DICTHT_SIZE_pow by lia.
  rewrite u64_small by lia. rewrite Z.sub_1_r, <- Z.ones_equiv. apply Z.land_ones. lia.
Qed.

Lemma mod_range h e : 2 ≤ e ≤ 60 → 0 ≤ h mod size e < size e.
Proof. intros. apply Z.mod_pos_bound. apply Z.pow_pos_nonneg; lia. Qed.

Lemma mod_mod_pow h e e' : 0 ≤ e' ≤ e → (h mod size e) mod size e' = h mod size e'.
Proof.
  intros. replace (2 ^ e) with (2 ^ e' * 2 ^ (e - e')) by (rewrite <- Z.pow_add_r by lia; f_equal; lia).
  assert (0 < 2 ^ e') by (apply Z.pow_pos_nonneg; lia).
  assert (0 < 2 ^ (e - e')) by (apply Z.pow_pos_nonneg; lia).
  rewrite Z.rem_mul_r by lia. rewrite Z.mul_comm, Z_mod_plus_full. apply Z.mod_mod. lia.
Qed.

(** ** Buckets *)

Lemma get_bucket_lookup t (i : nat) de : buckets t !! i = Some de → get_bucket t (Z.of_nat i) = Ok de.
Proof.
  unfold buckets, get_bucket. destruct (ht_table t) as [l|]; [|done]. cbn [default from_option id].
  intros E. destruct (Z.ltb_spec (Z.of_nat i) 0); [lia|]. by rewrite Nat2Z.id, E.
Qed.

Lemma bucket_lookup t i : table_ok t → 0 ≤ i < size (ht_size_exp t) →
  ∃ de, buckets t !! Z.to_nat i = Some de ∧ get_bucket t i = Ok de ∧ shape de ∧ placed (ht_size_exp t) i de.
Proof.
  intros Ht Hi. destruct (lookup_lt_is_Some_2 (buckets t) (Z.to_nat i)) as [de E].
  { pose proof (tok_len _ Ht). lia. }
  exists de. pose proof (get_bucket_lookup _ _ _ E) as G. pose proof (tok_bucket _ Ht _ _ E) as P.
  by rewrite Z2Nat.id in G, P by lia.
Qed.

Lemma bucket_update t i : table_ok t → 0 ≤ i < size (ht_size_exp t) →
  ∃ de rest, get_bucket t i = Ok de ∧ buckets t !! Z.to_nat i = Some de ∧
    shape de ∧ placed (ht_size_exp t) i de ∧ items t ≡ₚ chain de ++ rest ∧
    ∀ de', ∃ t', set_bucket t i de' = Ok t' ∧
      buckets t' = <[Z.to_nat i := de']> (buckets t) ∧
      ht_used t' = ht_used t ∧ ht_size_exp t' = ht_size_exp t ∧
      items t' ≡ₚ chain de' ++ rest ∧
      (shape de' → placed (ht_size_exp t) i de' → ∀ n, n = zlen (chain de' ++ rest) →
       table_ok (HT (ht_table t') n (ht_size_exp t))).
Proof.
  intros Ht Hi. destruct (bucket_lookup t i Ht Hi) as (de & E & G & Sh & P).
  destruct (bind_insert chain (buckets t) _ _ E) as (rest & R & U).
  exists de, rest. do 5 (split; [done|]). intros de'.
  destruct (tok_some _ Ht) as [l El]. pose proof (tok_len _ Ht) as Ln.
  unfold set_bucket, items, buckets in *. rewrite El in *. cbn [default from_option id] in *.
  destruct (Z.ltb_spec i 0); [lia|]. destruct (Z.geb_spec i (zlen l)); [lia|]. cbn [orb].
  eexists. split; [done|]. cbn. do 3 (split; [done|]). split; [apply U|].
  intros Sh' P' n ->. constructor; cbn [ht_table ht_used ht_size_exp].
  - done.
  - apply (tok_exp _ Ht).
  - unfold buckets. cbn. by rewrite length_insert.
  - unfold items, buckets. cbn. by rewrite (U de').
  - intros j x. unfold buckets. cbn. rewrite list_lookup_insert_Some.
    intros [(<- & -> & _)|[_ L]]; [by rewrite Z2Nat.id by lia|].
    apply (tok_bucket _ Ht). unfold buckets. by rewrite El.
Qed.

Lemma table_eq t t' :
  ht_table t = ht_table t' → ht_used t = ht_used t' → ht_size_exp t = ht_size_exp t' → t = t'.
Proof. destruct t, t'; cbn; intros; by subst. Qed.

(** ** Moving the entries of a bucket *)

Lemma move_entry_ok de k v rest b :
  chain de = (k, v) :: rest → shape de → shape b →
  ∃ de', move_entry ty k de b = Ok de' ∧ shape de' ∧ chain de' = (k, v) :: chain b.
Proof.
  unfold move_entry. intros C S1 S2.
  destruct (no_value ty) eqn:Env; [destruct b as [| |]; cbn [is_null]|];
    destruct de as [|k'|k' v' next]; try done; cbn in *; rewrite ?Env in *;
    simplify_eq; eexists; (split; [done|]); cbn; rewrite ?Env;
    try (destruct S1 as [S1 ?]; try rewrite S1 by done); auto.
Qed.

Lemma move_target d idx k :
  2 ≤ ht_size_exp (ht0 d) ≤ 60 → 2 ≤ ht_size_exp (ht1 d) ≤ 60 →
  hash k mod size (ht_size_exp (ht0 d)) = idx →
  (if ht_size_exp (ht1 d) >? ht_size_exp (ht0 d)
   then Z.land (dictGetHash ty k) (DICTHT_SIZE_MASK (ht_size_exp (ht1 d)))
   else Z.land idx (DICTHT_SIZE_MASK (ht_size_exp (ht1 d)))) = hash k mod size (ht_size_exp (ht1 d)).
Proof.
  intros E0 E1 <-. rewrite !land_mask by done. unfold dictGetHash. case_match; [done|].
  apply mod_mod_pow. lia.
Qed.

Lemma rehash_entry_ok d idx de k v rest :
  2 ≤ ht_size_exp (ht0 d) ≤ 60 → table_ok (ht1 d) → chain de = (k, v) :: rest → shape de →
  hash (keyFromStoredKey ty k) mod size (ht_size_exp (ht0 d)) = idx →
  1 ≤ ht_used (ht0 d) ≤ UINT64_MAX → ht_used (ht1 d) < UINT64_MAX →
  ∃ t1, rehash_entry ty d idx k de =
      Ok (Dict (HT (ht_table (ht0 d)) (ht_used (ht0 d) - 1) (ht_size_exp (ht0 d))) t1
            (rehashidx d) (pauserehash d) (pauseAutoResize d)) ∧
    table_ok t1 ∧ ht_size_exp t1 = ht_size_exp (ht1 d) ∧ items t1 ≡ₚ (k, v) :: items (ht1 d).
Proof.
  intros E0 T1 C Sh P U0 U1. pose proof (tok_exp _ T1) as E1. unfold rehash_entry.
  rewrite (move_target d idx _ E0 E1 P).
  destruct (bucket_update _ _ T1 (mod_range (hash (keyFromStoredKey ty k)) _ E1))
    as (b & bs & G & _ & Shb & Pb & I & Up). rewrite G. rs.
  destruct (move_entry_ok de k v rest b C Sh Shb) as (de' & -> & Sh' & C'). rs.
  destruct (Up de') as (t1 & -> & Bt & Ut & Et & It & Tok). rs.
  pose proof (tok_used _ T1) as Un. rewrite I, length_app in Un.
  destruct d as [[tb0 u0 e0] [tb1 u1 e1] r p a]. unfold set_ht, set_used. cbn in *.
  rewrite (u64_small (u0 - 1)), (u64_small (ht_used t1 + 1)), Et by lia.
  eexists. split; [done|]. split; [|split; [done|]].
  - apply Tok; [done| |].
    + unfold placed. rewrite C'. constructor; done.
    + rewrite C'. cbn. rewrite length_app. lia.
  - etrans; [exact It|]. rewrite C', I. done.
Qed.

(** The first table counts the entries out, the second one has them. *)
Lemma rehash_entries_ok de d idx :
  2 ≤ ht_size_exp (ht0 d) ≤ 60 → table_ok (ht1 d) → shape de → placed (ht_size_exp (ht0 d)) idx de →
  zlen (chain de) ≤ ht_used (ht0 d) ≤ UINT64_MAX → zlen (chain de) + ht_used (ht1 d) ≤ UINT64_MAX →
  ∃ t1, rehash_entries ty d idx de =
      Ok (Dict (HT (ht_table (ht0 d)) (ht_used (ht0 d) - zlen (chain de)) (ht_size_exp (ht0 d))) t1
            (rehashidx d) (pauserehash d) (pauseAutoResize d)) ∧
    table_ok t1 ∧ ht_size_exp t1 = ht_size_exp (ht1 d) ∧ items t1 ≡ₚ chain de ++ items (ht1 d).
Proof.
  revert d. induction de as [|k|k v next IH]; intros d E0 T1 Sh P U0 U1; cbn [rehash_entries].
  - exists (ht1 d). destruct d as [[] ? ? ? ?]. cbn. by rewrite Z.sub_0_r.
  - destruct (rehash_entry_ok d idx (KeyEntry k) k None [] E0 T1) as (t1 & -> & ?); cbn in *; try done; try lia.
    { by apply Forall_cons in P as [? _]. }
    by exists t1.
  - apply Forall_cons in P as [P Pn].
    destruct (rehash_entry_ok d idx (Entry k v next) k v (chain next) E0 T1) as (t1 & -> & T' & E' & I');
      cbn in *; try done; try lia. rs.
    pose proof (tok_used _ T') as U'. rewrite I' in U'. cbn in U'. pose proof (tok_used _ T1).
    destruct Sh as [_ Sh].
    destruct (IH (Dict (HT (ht_table (ht0 d)) (ht_used (ht0 d) - 1) (ht_size_exp (ht0 d))) t1
      (rehashidx d) (pauserehash d) (pauseAutoResize d))) as (t2 & -> & T2 & E2 & I2); cbn; try done; try lia.
    exists t2. split; [do 3 f_equal; lia|]. split; [done|]. cbn in E2, I2. split; [congruence|].
    etrans; [exact I2|]. rewrite I'. by rewrite <- Permutation_middle.
Qed.

Lemma set_bucket_used t n i de :
  set_bucket (HT (ht_table t) n (ht_size_exp t)) i de =
  t' ← set_bucket t i de; Ok (HT (ht_table t') n (ht_size_exp t)).
Proof. unfold set_bucket. cbn. destruct (ht_table t); [|done]. by case_match. Qed.

#[export] Instance items_ok_proper : Proper ((≡ₚ) ==> iff) items_ok.
Proof. intros l l' E. unfold items_ok. by rewrite E. Qed.

Lemma items_ok_bound l l' : items_ok (l ++ l') → zlen l + zlen l' ≤ UINT64_MAX.
Proof. intros [_ B]. rewrite length_app in B. lia. Qed.

(** What rehashing keeps *)
Record moved d d' : Prop := {
  mv_ok : rehash_ok d';
  mv_items : dict_items d' ≡ₚ dict_items d;
  mv_exp0 : ht_size_exp (ht0 d') = ht_size_exp (ht0 d);
  mv_exp1 : ht_size_exp (ht1 d') = ht_size_exp (ht1 d);
  mv_pause : pauserehash d' = pauserehash d;
  mv_auto : pauseAutoResize d' = pauseAutoResize d;
  mv_idx : rehashidx d ≤ rehashidx d' }.

Lemma moved_refl d : rehash_ok d → moved d d.
Proof. by constructor. Qed.

Lemma moved_trans d1 d2 d3 : moved d1 d2 → moved d2 d3 → moved d1 d3.
Proof. intros [] []. constructor; [done|by etrans| | | | |lia]; congruence. Qed.

Lemma rehash_bucket_ok d idx :
  rehash_ok d → items_ok (dict_items d) → 0 ≤ idx < size (ht_size_exp (ht0 d)) →
  ∃ d', rehashEntriesInBucketAtIndex ty d idx = Ok d' ∧ moved d d' ∧ rehashidx d' = rehashidx d ∧
    buckets (ht0 d') = <[Z.to_nat idx := NullEntry]> (buckets (ht0 d)).
Proof.
  intros [T0 T1 En Ix Em] B Hi. unfold rehashEntriesInBucketAtIndex. apply items_ok_bound in B as Bd.
  destruct (bucket_update _ _ T0 Hi) as (de & rest & -> & L & Sh & P & I & Up). rs.
  pose proof (tok_used _ T0) as U0. pose proof (tok_used _ T1) as U1. rewrite I, length_app in U0, Bd.
  destruct (rehash_entries_ok de d idx (tok_exp _ T0) T1 Sh P) as (t1 & -> & T1' & E1' & I1); [lia..|]. rs.
  cbn [ht0]. rewrite set_bucket_used.
  destruct (Up NullEntry) as (t0 & -> & Bt & _ & Et & It & Tok). rs.
  assert (buckets (HT (ht_table t0) (ht_used (ht0 d) - zlen (chain de)) (ht_size_exp (ht0 d))) = buckets t0) as Eb by done.
  eexists. split; [done|]. unfold set_ht. cbn [Z.eqb ht0 ht1 rehashidx pauserehash pauseAutoResize].
  split; [|by rewrite Eb]. constructor; cbn; try done. constructor; cbn; try done.
  - apply Tok; [done|by constructor|]. cbn. lia.
  - by rewrite E1'.
  - intros i x Hx. change (default [] (ht_table t0)) with (buckets t0). rewrite Bt, list_lookup_insert_Some. intros [(_ & <- & _)|[_ Lx]]; [done|].
    by apply (Em i).
  - unfold dict_items. cbn. etrans; [apply Permutation_app; [exact It|exact I1]|].
    cbn. rewrite I. rewrite Permutation_app_swap_app. by rewrite app_assoc.
Qed.

Lemma rehash_not_done d : rehash_ok d → ht_used (ht0 d) ≠ 0 → rehashidx d < size (ht_size_exp (ht0 d)).
Proof.
  intros [T0 _ _ Ix Em] N. destruct (decide (rehashidx d = size (ht_size_exp (ht0 d)))) as [E|]; [|lia].
  destruct N. rewrite (tok_used _ T0).
  assert (items (ht0 d) = []) as ->; [|done]. unfold items. pose proof (tok_len _ T0) as Ln.
  assert (∀ i x, buckets (ht0 d) !! i = Some x → x = NullEntry) as Em'.
  { intros i x L. apply (Em i); [|done]. apply lookup_lt_Some in L. lia. }
  clear - Em'. induction (buckets (ht0 d)) as [|x l IH]; [done|]. cbn.
  rewrite (Em' 0%nat x eq_refl), (IH (λ i y L, Em' (S i) y L)). done.
Qed.

Lemma rehash_advance d :
  rehash_ok d → rehashidx d < size (ht_size_exp (ht0 d)) →
  buckets (ht0 d) !! Z.to_nat (rehashidx d) = Some NullEntry →
  moved d (set_rehashidx d (rehashidx d + 1)).
Proof.
  intros [T0 T1 En Ix Em] Hi L. constructor; cbn; try done; [|lia]. constructor; cbn; try done; [lia|].
  intros i x Hx Lx. destruct (decide (Z.of_nat i = rehashidx d)) as [E|].
  - rewrite <- E, Nat2Z.id in L. congruence.
  - apply (Em i); [lia|done].
Qed.

Lemma rehash_skip_ok ev d :
  rehash_ok d → ht_used (ht0 d) ≠ 0 → (0 < ev)%nat →
  ∃ d' r, rehash_skip ev d = Ok (d', r) ∧ moved d d' ∧ ht0 d' = ht0 d ∧ ht1 d' = ht1 d ∧
    match r with
    | None => rehashidx d < rehashidx d'
    | Some ev => (0 < ev)%nat ∧ rehashidx d' < size (ht_size_exp (ht0 d))
    end.
Proof.
  revert d. induction ev as [|ev IH]; intros d R N He; [lia|]. cbn [rehash_skip].
  pose proof (rehash_not_done d R N) as Hi. pose proof (rok_idx _ R).
  destruct (bucket_lookup _ (rehashidx d) (rok_ht0 _ R)) as (de & L & -> & _); [lia|]. rs.
  destruct (is_null de) eqn:En; cbn [negb].
  - destruct de; try done. pose proof (rehash_advance d R Hi L) as M.
    destruct ev as [|ev].
    + exists (set_rehashidx d (rehashidx d + 1)), None. split; [done|]. split; [done|].
      do 2 (split; [done|]). cbn. lia.
    + destruct (IH (set_rehashidx d (rehashidx d + 1))) as (d' & r & -> & M' & E0 & E1 & Q);
        [apply (mv_ok _ _ M)|done|lia|].
      exists d', r. split; [done|]. split; [by eapply moved_trans|]. do 2 (split; [done|]).
      destruct r; [done|]. cbn in Q. lia.
  - exists d, (Some (S ev)). split; [done|]. split; [by apply moved_refl|]. done.
Qed.

(** ** [dictRehash] *)

Lemma rehash_loop_ok n ev d :
  rehash_ok d → items_ok (dict_items d) → (0 < n → 0 < ev)%nat →
  ∃ d' b, rehash_loop ty n ev d = Ok (d', b) ∧ moved d d' ∧
    ((0 < n)%nat → d' = d ∨ rehashidx d < rehashidx d') ∧
    (d' = d → (0 < n)%nat → ht_used (ht0 d) = 0) ∧
    (b = false → rehashidx d < rehashidx d' ∧ ht_used (ht0 d') ≠ 0).
Proof.
  revert ev d. induction n as [|n IH]; intros ev d R B He; cbn [rehash_loop].
  { exists d, true. split; [done|]. split; [by apply moved_refl|]. split_and!; [lia..|done]. }
  case_match eqn:Eu.
  { exists d, true. split; [done|]. split; [by apply moved_refl|]. split_and!; [by left|lia|done]. }
  pose proof (rehash_not_done d R ltac:(lia)) as Hi. pose proof (rok_idx _ R).
  pose proof (tok_exp _ (rok_ht0 _ R)) as E0. pose proof (size_bound _ E0).
  rewrite assert_true by (rewrite DICTHT_SIZE_pow, u64_small by lia; lia). rs.
  destruct (rehash_skip_ok ev d) as (d1 & r & -> & M & H0' & H1' & Q); [done|lia|lia|]. rs.
  assert (∀ d', rehashidx d < rehashidx d' → ((0 < S n)%nat → d' = d ∨ rehashidx d < rehashidx d') ∧
    (d' = d → (0 < S n)%nat → ht_used (ht0 d) = 0)) as Pr.
  { intros d' Hd. split; [by right|]. intros ->. lia. }
  destruct r as [ev'|]; [|exists d1, false; split_and!; try done; try (by apply Pr); intros _; rewrite H0'; lia].
  destruct Q as [Hv Hx]. pose proof (mv_items _ _ M) as P1. rewrite <- P1 in B.
  pose proof (rok_idx _ (mv_ok _ _ M)). pose proof (mv_idx _ _ M).
  destruct (rehash_bucket_ok d1 (rehashidx d1) (mv_ok _ _ M) B) as (d2 & -> & M2 & Ei & Eb);
    [rewrite H0'; lia|]. rs.
  assert (moved d2 (set_rehashidx d2 (rehashidx d2 + 1))) as M3.
  { apply rehash_advance; [apply (mv_ok _ _ M2)|rewrite (mv_exp0 _ _ M2), H0', Ei; lia|].
    rewrite Eb, Ei, list_lookup_insert_eq; [done|]. rewrite H0'.
    pose proof (tok_len _ (rok_ht0 _ R)). lia. }
  destruct (IH ev' (set_rehashidx d2 (rehashidx d2 + 1))) as (d3 & b & -> & M4 & _ & _ & Q4);
    [apply (mv_ok _ _ M3)|by rewrite (mv_items _ _ M3), (mv_items _ _ M2)|done|].
  pose proof (mv_idx _ _ M4) as I4. cbn in I4.
  exists d3, b. split; [done|]. split; [by eauto using moved_trans|].
  destruct (Pr d3); [lia|]. split_and!; [done..|]. intros Hb. split; [lia|]. by apply Q4.
Qed.

(** What a step keeps, also when it ends the rehashing *)
Record stays d d' : Prop := {
  st_ok : dict_ok d';
  st_items : dict_items d' ≡ₚ dict_items d;
  st_pause : pauserehash d' = pauserehash d;
  st_auto : pauseAutoResize d' = pauseAutoResize d;
  st_alloc : is_Some (ht_table (ht0 d)) → is_Some (ht_table (ht0 d')) }.

Lemma stays_refl d : dict_ok d → stays d d.
Proof. by constructor. Qed.

Lemma stays_trans d1 d2 d3 : stays d1 d2 → stays d2 d3 → stays d1 d3.
Proof. intros [] []. constructor; [done|by etrans|congruence..|auto]. Qed.

(** A step of rehashing does not start one, keeps the tables until it ends, and
    then leaves the second one. *)
Record steps d d' : Prop := {
  stp_stays : stays d d';
  stp_idle : dictIsRehashing d = false → d' = d;
  stp_exp : dictIsRehashing d' = true →
    ht_size_exp (ht0 d') = ht_size_exp (ht0 d) ∧ ht_size_exp (ht1 d') = ht_size_exp (ht1 d);
  stp_done : dictIsRehashing d = true → dictIsRehashing d' = false → ht_size_exp (ht0 d') = ht_size_exp (ht1 d) }.

Lemma steps_refl d : dict_ok d → steps d d.
Proof. intros. constructor; [by apply stays_refl|done|done|congruence]. Qed.

Lemma steps_trans d1 d2 d3 : steps d1 d2 → steps d2 d3 → steps d1 d3.
Proof.
  intros [S1 I1 E1 F1] [S2 I2 E2 F2]. constructor; [by eapply stays_trans| | |].
  - intros N. rewrite (I1 N) in *. auto.
  - intros R. destruct (E2 R) as [-> ->]. destruct (dictIsRehashing d2) eqn:R2; [auto|].
    rewrite (I2 eq_refl) in R. congruence.
  - intros R N. destruct (dictIsRehashing d2) eqn:R2.
    + rewrite F2 by done. by apply E1.
    + rewrite (I2 eq_refl). auto.
Qed.

Lemma dict_ok_rehash d : dict_ok d → dictIsRehashing d = true → rehash_ok d.
Proof. intros [[(E & _)|R] _]; [|done]. unfold dictIsRehashing. rewrite E. done. Qed.

Lemma dict_ok_stable d : dict_ok d → dictIsRehashing d = false → stable_ok d.
Proof. intros [[R|R] _]; [done|]. unfold dictIsRehashing. pose proof (rok_idx _ R). lia. Qed.

Lemma rehash_ok_rehashing d : rehash_ok d → dictIsRehashing d = true.
Proof. intros R. unfold dictIsRehashing. pose proof (rok_idx _ R). lia. Qed.

Lemma moved_steps d d' : dict_ok d → dictIsRehashing d = true → moved d d' → steps d d'.
Proof.
  intros (_ & B & P) Hr []. pose proof (rehash_ok_rehashing _ mv_ok0). constructor; [|congruence|done|congruence].
  constructor; try done; [|intros _; apply (rok_ht0 _ mv_ok0)].
  split; [by right|]. split; [|by rewrite mv_pause0]. by rewrite mv_items0.
Qed.

Lemma dict_ok_pause d p a : dict_ok d → 0 ≤ p ≤ UINT32_MAX →
  dict_ok (Dict (ht0 d) (ht1 d) (rehashidx d) p a).
Proof. intros ([T|[]] & B & _) P; (split; [|by split]); [by left|by right]. Qed.

Lemma items_nil t : table_ok t → ht_used t = 0 → items t = [].
Proof. intros T E. apply nil_length_inv. pose proof (tok_used _ T). lia. Qed.

Lemma rehashing_completed_ok d : dict_ok d → rehash_ok d →
  steps d (dictCheckRehashingCompleted d).1 ∧
  dictIsRehashing (dictCheckRehashingCompleted d).1 = negb (dictCheckRehashingCompleted d).2 ∧
  ((dictCheckRehashingCompleted d).2 = false → (dictCheckRehashingCompleted d).1 = d).
Proof.
  intros D R. unfold dictCheckRehashingCompleted.
  destruct (Z.eqb_spec (ht_used (ht0 d)) 0) as [E|E]; cbn [negb fst snd].
  - split; [|done]. pose proof (items_nil _ (rok_ht0 _ R) E) as I0.
    destruct D as (_ & B & P).
    assert (dict_items (Dict (ht1 d) _dictReset (-1) (pauserehash d) (pauseAutoResize d)) = dict_items d) as Ei.
    { unfold dict_items. cbn. by rewrite I0, app_nil_r. }
    constructor; [|by rewrite (rehash_ok_rehashing d R)|done..]. constructor; cbn; try done; [|by rewrite Ei|intros _; apply (rok_ht1 _ R)]. split; [|by rewrite Ei].
    left. split; [done|]. split; [done|]. right. apply (rok_ht1 _ R).
  - split; [by apply steps_refl|]. by rewrite (rehash_ok_rehashing d R).
Qed.

Lemma rehash_refused_false can d :
  rehash_refused can d = false → dictIsRehashing d = true ∧ can ≠ DICT_RESIZE_FORBID.
Proof. unfold rehash_refused. destruct (dictIsRehashing d), can; cbn; try done. Qed.

(** If keys are left, the rehashing index grows. *)
Lemma dictRehash_ok can d n : dict_ok d →
  ∃ d' more, dictRehash ty can d n = Ok (d', more) ∧ steps d d' ∧
    (more = true → moved d d' ∧ ((0 < n)%nat → rehashidx d < rehashidx d') ∧ ht_used (ht0 d') ≠ 0) ∧
    (more = false → rehash_refused can d = false → dictIsRehashing d' = false).
Proof.
  intros D. unfold dictRehash. destruct (rehash_refused can d) eqn:Er.
  { exists d, false. split; [done|]. split; [by apply steps_refl|]. done. }
  apply rehash_refused_false in Er as [Hr _]. pose proof (dict_ok_rehash d D Hr) as R.
  destruct (rehash_loop_ok n (n * 10) d R) as (d1 & b & -> & M & Q); [apply D|lia|]. rs.
  pose proof (moved_steps _ _ D Hr M) as S1. destruct Q as (Q1 & Q2 & Q3). destruct b.
  - destruct (rehashing_completed_ok d1 (st_ok _ _ (stp_stays _ _ S1)) (mv_ok _ _ M)) as (S2 & C2 & C3).
    unfold dictCheckRehashingCompleted in *. destruct (Z.eqb_spec (ht_used (ht0 d1)) 0) as [E|E];
      cbn [negb fst snd] in *.
    + eexists _, false. split; [done|]. split; [by eapply steps_trans|]. done.
    + exists d1, true. split; [done|]. split; [done|]. split; [|done]. intros _. split; [done|].
      split; [|done]. intros Hn. destruct (Q1 Hn) as [->|]; [|done]. by rewrite (Q2 eq_refl Hn) in E.
  - exists d1, true. split; [done|]. split; [done|]. split; [|done]. destruct (Q3 eq_refl). auto.
Qed.

(** ** Repeated rehashing *)

Lemma moved_refused can d d' : moved d d' → rehash_refused can d = false → rehash_refused can d' = false.
Proof.
  intros M. unfold rehash_refused. rewrite (mv_exp0 _ _ M), (mv_exp1 _ _ M).
  rewrite (rehash_ok_rehashing _ (mv_ok _ _ M)). destruct (dictIsRehashing d); [done|].
  by destruct (bool_decide _).
Qed.

(** The loop ends, and nothing is left to rehash unless rehashing is refused. *)
Lemma rehash_all_ok fuel can d : dict_ok d →
  (dictIsRehashing d = true → size (ht_size_exp (ht0 d)) - rehashidx d < Z.of_nat fuel) → (0 < fuel)%nat →
  ∃ d', rehash_all ty fuel can d = Ok d' ∧ steps d d' ∧
    (rehash_refused can d = true → d' = d) ∧ (rehash_refused can d = false → dictIsRehashing d' = false).
Proof.
  revert d. induction fuel as [|fuel IH]; intros d D Hf Hp; [lia|]. cbn [rehash_all].
  destruct (dictRehash_ok can d 1000 D) as (d1 & more & E & S1 & Mo & No). rewrite E. rs.
  destruct (rehash_refused can d) eqn:Er.
  { unfold dictRehash in E. rewrite Er in E. inv_res. subst. by exists d1. }
  destruct more; [|exists d1; split_and!; [done..|intros _; by apply No]].
  destruct (Mo eq_refl) as (M & Hi & _). specialize (Hi ltac:(lia)). pose proof (rok_idx _ (mv_ok _ _ M)) as Ix.
  apply rehash_refused_false in Er as Er'. destruct Er' as [Hr _]. specialize (Hf Hr).
  rewrite (mv_exp0 _ _ M) in Ix.
  destruct (IH d1 (st_ok _ _ (stp_stays _ _ S1))) as (d2 & -> & S2 & _ & C2); [rewrite (mv_exp0 _ _ M); lia|lia|].
  exists d2. split; [done|]. split; [by eapply steps_trans|]. split; [done|].
  intros _. apply C2. by apply (moved_refused can d).
Qed.

(** ** Steps of rehashing during other operations *)

Lemma _dictRehashStep_ok can d : dict_ok d → ∃ d', _dictRehashStep ty can d = Ok d' ∧ steps d d'.
Proof.
  intros D. unfold _dictRehashStep. case_match; [|exists d; split; [done|by apply steps_refl]].
  destruct (dictRehash_ok can d 1 D) as (d' & m & -> & S1 & _). rs. by exists d'.
Qed.

Lemma _dictBucketRehash_ok can d idx : dict_ok d →
  (dictIsRehashing d = true → 0 ≤ idx < size (ht_size_exp (ht0 d))) →
  ∃ d', _dictBucketRehash ty can d idx = Ok d' ∧ steps d d'.
Proof.
  intros D Hi. unfold _dictBucketRehash. case_match; [exists d; split; [done|by apply steps_refl]|].
  destruct (rehash_refused can d) eqn:Er; [exists d; split; [done|by apply steps_refl]|].
  apply rehash_refused_false in Er as [Hr _]. pose proof (dict_ok_rehash d D Hr) as R.
  destruct (rehash_bucket_ok d idx R) as (d1 & -> & M & _); [apply D|auto|]. rs.
  eexists. split; [done|]. pose proof (moved_steps _ _ D Hr M) as S1.
  eapply steps_trans; [exact S1|]. apply rehashing_completed_ok; [apply (st_ok _ _ (stp_stays _ _ S1))|apply (mv_ok _ _ M)].
Qed.

Lemma _dictRehashStepIfNeeded_ok can d idx : dict_ok d →
  (dictIsRehashing d = true → 0 ≤ idx < size (ht_size_exp (ht0 d))) →
  ∃ d', _dictRehashStepIfNeeded ty can d idx = Ok d' ∧ steps d d'.
Proof.
  intros D Hi. unfold _dictRehashStepIfNeeded.
  destruct (dictIsRehashing d) eqn:Hr; cbn [negb orb]; [|exists d; split; [done|by apply steps_refl]].
  case_match; [exists d; split; [done|by apply steps_refl]|].
  destruct (bucket_lookup (ht0 d) idx) as (de & _ & G & _); [apply (dict_ok_rehash d D Hr)|auto|].
  destruct (dictRehash_ok can d 1 D) as (d1 & m & E & S1 & _).
  destruct (_dictBucketRehash_ok can d idx D (λ _, Hi eq_refl)) as (d2 & E2 & S2).
  rewrite G, E, E2. destruct (s64 idx >=? rehashidx d); rs; [destruct (negb (is_null de))|]; eauto.
Qed.
End rep.

#[global] Arguments items {_ _} _ : simpl never.
#[global] Arguments buckets {_ _} _ : simpl never.
#[global] Arguments dict_items {_ _} _ : simpl never.
