(* ===== verification/DictResize.v ===== *)
(** Resizing the dictionaries of [dict.c]: no resize changes their contents. *)

From S2P Require Import Prelude Double Dict DictApi DictRep.

Section resize.
Context {K SK V : Type} `{EqDecision K} (ty : dictType K SK) `{!DictLaws ty}.
Implicit Types (d : dict SK V) (t : htable SK V).

Abbreviation size e := (2 ^ e).

Lemma _dictNextExp_range n : 0 ≤ n → 2 ≤ _dictNextExp n ≤ 63.
Proof.
  intros. unfold _dictNextExp, DICT_HT_INITIAL_EXP, DICT_HT_INITIAL_SIZE. repeat case_match; try lia.
  assert (Z.log2 4 ≤ Z.log2 (n - 1)) by (apply Z.log2_le_mono; lia).
  assert (Z.log2 (n - 1) ≤ Z.log2 INT64_MAX) by (apply Z.log2_le_mono; lia).
  change (Z.log2 4) with 2 in *. change (Z.log2 INT64_MAX) with 62 in *. lia.
Qed.

(** The smallest power of two, from 4 on *)
Lemma _dictNextExp_spec n : 0 ≤ n ≤ INT64_MAX →
  n ≤ size (_dictNextExp n) ∧ ∀ e, 2 ≤ e → n ≤ size e → _dictNextExp n ≤ e.
Proof.
  intros Hn. unfold _dictNextExp, DICT_HT_INITIAL_EXP, DICT_HT_INITIAL_SIZE.
  case_match; [split; [|done]; change (2 ^ 2) with 4; lia|].
  case_match.
  - assert (n = INT64_MAX) as -> by lia. split; [done|]. intros e He Hs.
    destruct (decide (63 ≤ e)); [done|]. assert (2 ^ e ≤ 2 ^ 62) by (apply Z.pow_le_mono_r; lia). lia.
  - replace (64 - (63 - Z.log2 (n - 1))) with (Z.succ (Z.log2 (n - 1))) by lia.
    pose proof (Z.log2_spec (n - 1) ltac:(lia)) as L. split; [lia|]. intros e He Hs.
    apply Z.le_succ_l. apply Z.log2_lt_pow2; lia.
Qed.

Lemma resize_exp n e : 2 ≤ e ≤ 63 →
  (DICTHT_SIZE e <? n) || (u64 (DICTHT_SIZE e * 8) <? DICTHT_SIZE e) = false → 2 ≤ e ≤ 60.
Proof.
  intros He. rewrite DICTHT_SIZE_pow by lia. intros [_ E]%orb_false_iff.
  destruct (decide (e ≤ 60)); [lia|].
  assert (u64 (2 ^ e * 8) = 0) as Z0; [|assert (0 < 2 ^ e) by (apply Z.pow_pos_nonneg; lia); lia].
  unfold wrapu. change 8 with (2 ^ 3). rewrite <- Z.pow_add_r by lia.
  replace (e + 3) with (64 + (e - 61)) by lia. rewrite Z.pow_add_r by lia. rewrite Z.mul_comm. apply Z.mod_mul. done.
Qed.

Lemma items_replicate n u e : items (HT (Some (replicate n (@NullEntry SK V))) u e) = [].
Proof. unfold items, buckets. cbn. induction n; done. Qed.

Lemma fresh_table_ok e : 2 ≤ e ≤ 60 →
  table_ok ty (HT (Some (replicate (Z.to_nat (DICTHT_SIZE e)) (@NullEntry SK V))) 0 e).
Proof.
  intros He. rewrite DICTHT_SIZE_pow by lia. pose proof (size_bound e He). constructor; cbn [ht_table ht_used ht_size_exp].
  - done.
  - done.
  - unfold buckets. cbn. rewrite length_replicate. lia.
  - by rewrite items_replicate.
  - intros i de [-> _]%lookup_replicate. by split; [|constructor].
Qed.

(** A resize may start a rehashing, of which it does all or nothing. *)
Record resized d d' : Prop := {
  rsz_stays : stays ty d d';
  rsz_idx : dictIsRehashing d' = true → rehashidx d' = 0 ∨ d' = d;
  rsz_same : ht_size_exp (ht0 d') = ht_size_exp (ht0 d) → ht_size_exp (ht1 d') = ht_size_exp (ht1 d) → d' = d }.

Lemma resized_refl d : dict_ok ty d → resized d d.
Proof. constructor; [by apply stays_refl|auto..]. Qed.

(** An empty dictionary gets the new table at once. *)
Lemma resize_empty d new : dict_ok ty d → dict_items d = [] → table_ok ty new → items new = [] →
  stays ty d (Dict new _dictReset (-1) (pauserehash d) (pauseAutoResize d)).
Proof.
  intros (_ & B & P) Id T In. constructor; cbn; try done; [|unfold dict_items at 1; cbn; by rewrite In, Id|intros _; apply T].
  split; [|split; [|done]]; cbn; [left; by split_and!; [..|right]|].
  unfold dict_items. cbn. rewrite In. by rewrite Id in B.
Qed.

(** Otherwise rehashing starts. *)
Lemma resize_start d new : dict_ok ty d → ht1 d = _dictReset → table_ok ty (ht0 d) → table_ok ty new →
  items new = [] → ht_size_exp new ≠ ht_size_exp (ht0 d) →
  stays ty d (Dict (ht0 d) new 0 (pauserehash d) (pauseAutoResize d)).
Proof.
  intros (_ & B & P) E1 T0 T In En.
  assert (dict_items (Dict (ht0 d) new 0 (pauserehash d) (pauseAutoResize d)) = dict_items d) as Id.
  { unfold dict_items. cbn. by rewrite In, E1. }
  constructor; cbn; try done; [|by rewrite Id]. split; [|by rewrite Id].
  right. constructor; cbn; try done; [|lia]. pose proof (size_bound _ (tok_exp _ _ T0)). lia.
Qed.

Lemma _dictResize_ok can d n alloc :
  dict_ok ty d → dictIsRehashing d = false → 0 ≤ n →
  ∃ d' r f, _dictResize ty can d n alloc = Ok (d', r, f) ∧ resized d d' ∧
    (r = DICT_OK → is_Some (ht_table (ht0 d'))) ∧ (r = DICT_ERR → d' = d).
Proof.
  intros D Hr Hn. unfold _dictResize. rewrite Hr. cbn [negb]. rewrite assert_true by done. rs.
  pose proof (_dictNextExp_range n Hn) as Rn. pose proof (resized_refl d D) as S0.
  destruct (_ || _) eqn:Eo; [by exists d, DICT_ERR, false|]. pose proof (resize_exp _ _ Rn Eo) as Re.
  case_match eqn:Es; [by exists d, DICT_ERR, false|].
  destruct (match alloc with Some _ => _ | None => _ end); [by exists d, DICT_ERR, true|].
  pose proof (fresh_table_ok _ Re) as F.
  set (new := HT (Some (replicate (Z.to_nat (DICTHT_SIZE (_dictNextExp n))) NullEntry)) 0 (_dictNextExp n)) in *.
  pose proof (dict_ok_stable ty d D Hr) as (Ei & E1 & T0).
  assert (items new = []) as In by apply items_replicate.
  destruct (negb (bool_decide _) || _) eqn:Ez.
  - eexists _, DICT_OK, false. split; [done|]. split; [|done].
    constructor; [|done|cbn; lia]. apply resize_empty; try done.
    unfold dict_items. rewrite E1. cbn. rewrite app_nil_r. destruct T0 as [->|T0]; [done|].
    apply (items_nil ty); [done|]. rewrite bool_decide_true in Ez by apply T0. cbn in Ez. lia.
  - apply orb_false_iff in Ez as [Es' Eu]. destruct T0 as [T0|T0]; [by rewrite T0 in Es'|].
    pose proof (resize_start d new D E1 T0 F In ltac:(cbn; lia)) as S1. pose proof (tok_some _ _ T0) as A.
    set (d1 := Dict (ht0 d) new 0 (pauserehash d) (pauseAutoResize d)) in *.
    assert (ht_size_exp (ht1 d1) ≠ ht_size_exp (ht1 d)) as N1 by (rewrite E1; cbn; lia).
    destruct (force_full_rehash ty); rs; [|exists d1, DICT_OK, false; split_and!; try done; constructor; auto; done].
    destruct (rehash_all_ok ty (S (Z.to_nat (DICTHT_SIZE (ht_size_exp (ht0 d1))))) can d1 (st_ok _ _ _ S1))
      as (d2 & -> & [S2 _ _ Fi] & Q2 & Q3); [|lia|].
    { intros _. cbn [ht0 d1 rehashidx]. rewrite DICTHT_SIZE_pow; [|pose proof (tok_exp _ _ T0); lia]. lia. }
    rs. exists d2, DICT_OK, false. split; [done|]. split; [|split; [|done]]; [|intros _; by apply (st_alloc _ _ _ S2)].
    destruct (rehash_refused can d1).
    + rewrite (Q2 eq_refl). constructor; auto; done.
    + specialize (Q3 eq_refl). constructor; [by eapply stays_trans|congruence|].
      rewrite Fi by done. cbn. lia.
Qed.

Lemma _dictExpand_ok can d n alloc : dict_ok ty d → 0 ≤ n →
  ∃ d' r f, _dictExpand ty can d n alloc = Ok (d', r, f) ∧ resized d d'.
Proof.
  intros D Hn. unfold _dictExpand. destruct (dictIsRehashing d) eqn:Hr; cbn [orb].
  { exists d, DICT_ERR, false. split; [done|]. by apply resized_refl. }
  case_match; [exists d, DICT_ERR, false; split; [done|by apply resized_refl]|].
  destruct (_dictResize_ok can d n alloc D Hr Hn) as (d' & r & f & -> & S1 & _). eauto.
Qed.

Lemma dictExpand_ok can d n : dict_ok ty d → 0 ≤ n →
  ∃ d' r, dictExpand ty can d n = Ok (d', r) ∧ resized d d'.
Proof.
  intros D Hn. unfold dictExpand. destruct (_dictExpand_ok can d n None D Hn) as (d' & r & f & -> & S1).
  rs. eauto.
Qed.

Lemma dictTryExpand_ok can d n alloc : dict_ok ty d → 0 ≤ n →
  ∃ d' r, dictTryExpand ty can d n alloc = Ok (d', r) ∧ resized d d'.
Proof.
  intros D Hn. unfold dictTryExpand. destruct (_dictExpand_ok can d n (Some alloc) D Hn) as (d' & r & f & -> & S1).
  rs. eauto.
Qed.

Lemma dictShrink_ok can d n : dict_ok ty d → 0 ≤ n →
  ∃ d' r, dictShrink ty can d n = Ok (d', r) ∧ resized d d'.
Proof.
  intros D Hn. unfold dictShrink. destruct (dictIsRehashing d) eqn:Hr; cbn [orb].
  { exists d, DICT_ERR. split; [done|]. by apply resized_refl. }
  case_match; [exists d, DICT_ERR; split; [done|by apply resized_refl]|].
  destruct (_dictResize_ok can d n None D Hr Hn) as (d' & r & f & -> & S1 & _). rs. eauto.
Qed.

(** The first table is allocated. *)
Lemma dictExpand_first can d : dict_ok ty d → dictIsRehashing d = false → ht0 d = _dictReset →
  ∃ d' r, dictExpand ty can d DICT_HT_INITIAL_SIZE = Ok (d', r) ∧ resized d d' ∧ is_Some (ht_table (ht0 d')).
Proof.
  intros D Hr E0. unfold dictExpand, _dictExpand. rewrite Hr, E0. cbn [orb ht_used ht_size_exp _dictReset].
  change (DICTHT_SIZE (-1)) with 0. unfold DICT_HT_INITIAL_SIZE. cbn [Z.gtb Z.geb Z.compare orb].
  destruct (_dictResize_ok can d 4 None D Hr) as (d' & r & f & E & S1 & Ha & He); [lia|].
  rewrite E. rs. exists d', r. split; [done|]. split; [done|]. destruct r; [by apply Ha|].
  exfalso. revert E. unfold _dictResize. rewrite Hr, E0. cbn [negb]. rewrite assert_true by done. rs.
  change (_dictNextExp 4) with 2. change (DICTHT_SIZE 2) with 4.
  cbn. by intros [= ? ?].
Qed.

Lemma dictExpandIfNeeded_ok can d : dict_ok ty d →
  ∃ d' r, dictExpandIfNeeded ty can d = Ok (d', r) ∧ resized d d' ∧ is_Some (ht_table (ht0 d')).
Proof.
  intros D. unfold dictExpandIfNeeded. destruct (dictIsRehashing d) eqn:Hr.
  { exists d, DICT_OK. split; [done|]. split; [by apply resized_refl|].
    apply (tok_some ty), (rok_ht0 ty), (dict_ok_rehash ty); done. }
  destruct (dict_ok_stable ty d D Hr) as (Ei & E1 & [E0|T0]).
  - destruct (dictExpand_first can d D Hr E0) as (d' & r & E & S1 & A).
    rewrite E0. change (DICTHT_SIZE (ht_size_exp _dictReset) =? 0) with true. cbn iota.
    rewrite E. rs. eauto.
  - pose proof (tok_exp _ _ T0) as Te. pose proof (size_bound _ Te). rewrite DICTHT_SIZE_pow by lia.
    destruct (Z.eqb_spec (size (ht_size_exp (ht0 d))) 0); [lia|].
    destruct (dictExpand_ok can d (u64 (ht_used (ht0 d) + 1)) D) as (d' & r & E & S1);
      [apply wrapu_range; lia|]. rewrite E.
    pose proof (resized_refl d D). pose proof (tok_some _ _ T0) as A. pose proof (st_alloc _ _ _ (rsz_stays _ _ S1) A).
    repeat case_match; rs; eauto.
Qed.

Lemma _dictExpandIfNeeded_ok can d : dict_ok ty d →
  ∃ d' r, _dictExpandIfNeeded ty can d = Ok (d', r) ∧ resized d d' ∧
    (pauseAutoResize d ≤ 0 ∨ is_Some (ht_table (ht0 d)) → is_Some (ht_table (ht0 d'))).
Proof.
  intros D. unfold _dictExpandIfNeeded. destruct (Z.gtb_spec (pauseAutoResize d) 0).
  - exists d, DICT_ERR. split; [done|]. split; [by apply resized_refl|]. intros [|]; [lia|done].
  - destruct (dictExpandIfNeeded_ok can d D) as (d' & r & -> & S1 & A). eauto.
Qed.

Lemma dictShrinkIfNeeded_ok can d : dict_ok ty d →
  ∃ d' r, dictShrinkIfNeeded ty can d = Ok (d', r) ∧ resized d d'.
Proof.
  intros D. unfold dictShrinkIfNeeded. pose proof (resized_refl d D) as S0.
  destruct (dictIsRehashing d) eqn:Hr; [eauto|].
  assert (0 ≤ ht_used (ht0 d)).
  { destruct (dict_ok_stable ty d D Hr) as (_ & _ & [->|T0]); [done|]. rewrite (tok_used _ _ T0). lia. }
  destruct (dictShrink_ok can d (ht_used (ht0 d)) D) as (d' & r & E & S1); [done|]. rewrite E.
  repeat case_match; rs; eauto.
Qed.

Lemma _dictShrinkIfNeeded_ok can d : dict_ok ty d →
  ∃ d', _dictShrinkIfNeeded ty can d = Ok d' ∧ resized d d'.
Proof.
  intros D. unfold _dictShrinkIfNeeded. case_match; [exists d; split; [done|by apply resized_refl]|].
  destruct (dictShrinkIfNeeded_ok can d D) as (d' & r & -> & S1). rs. eauto.
Qed.
End resize.
