(* ===== verification/DictFind.v ===== *)
(** Lookup in the dictionaries of [dict.c]: every search returns the link of the
    entry of a key exactly if the key is present, and a link may be written. *)

From S2P Require Import Prelude Dict DictApi DictRep DictResize.

Section find.
Context {K SK V : Type} `{EqDecision K} (ty : dictType K SK) `{!DictLaws ty}.
Implicit Types (d : dict SK V) (de : dictEntry SK V) (t : htable SK V) (key : K) (x : SK * option V).

Abbreviation hash k := (hashFunction ty k).
Abbreviation size e := (2 ^ e).

Definition keys d : list K := item_key ty <$> dict_items d.

(** ** Chains *)

Lemma find_chain_ok key de pos :
  match find_chain ty key de pos with
  | Some p => ∃ i x, p = (pos + i)%nat ∧ chain de !! i = Some x ∧ item_key ty x = key
  | None => key ∉ item_key ty <$> chain de
  end.
Proof.
  revert pos. induction de as [|k|k v next IH]; intros pos; cbn.
  - apply not_elem_of_nil.
  - rewrite law_compare. case_bool_decide as E.
    + exists 0%nat, (k, None). split; [lia|]. done.
    + by intros [->|[]%not_elem_of_nil]%elem_of_cons.
  - rewrite law_compare. case_bool_decide as E.
    + exists 0%nat, (k, v). split; [lia|]. done.
    + specialize (IH (S pos)). destruct (find_chain ty key next (S pos)).
      * destruct IH as (i & x & -> & L & Ek). exists (S i), x. split; [lia|]. done.
      * by intros [->|?]%elem_of_cons.
Qed.

Lemma entry_at_ok de i x : chain de !! i = Some x →
  ∃ e tl, entry_at de i = Ok e ∧ chain e = x :: tl ∧ chain de = take i (chain de) ++ x :: tl ∧
    (shape ty de → shape ty e) ∧
    ∀ e', ∃ de', entry_set de i e' = Ok de' ∧ chain de' = take i (chain de) ++ chain e' ∧
      (shape ty de → shape ty e' → shape ty de').
Proof.
  revert de. induction i as [|i IH]; intros de L.
  - exists de. destruct (chain de) as [|y tl] eqn:E; [done|]. injection L as ->. exists tl.
    cbn. split_and!; try done. intros e'. by exists e'.
  - destruct de as [|k|k v next]; cbn in *; try done.
    destruct (IH next L) as (e & tl & -> & Ce & Cn & Sh & Up). exists e, tl.
    split_and!; try done; [by rewrite Cn at 1|tauto|].
    intros e'. destruct (Up e') as (de' & -> & C' & Sh'). rs. eexists. split; [done|]. cbn.
    rewrite C'. split; [done|tauto].
Qed.

(** ** Tables *)

(** The table [tb] is in use. *)
Definition in_use d (tb : Z) : Prop :=
  table_ok ty (ht d tb) ∧ (tb = 0 ∨ tb = 1 ∧ dictIsRehashing d = true).

Definition home d key (tb : Z) : Z := hash key mod size (ht_size_exp (ht d tb)).

Lemma bucket_index_home d key tb : table_ok ty (ht d tb) → bucket_index d (dictGetHash ty key) tb = home d key tb.
Proof. intros T. unfold bucket_index, home, dictGetHash. apply land_mask. apply (tok_exp _ _ T). Qed.

Lemma home_range d key tb : table_ok ty (ht d tb) → 0 ≤ home d key tb < size (ht_size_exp (ht d tb)).
Proof. intros T. apply mod_range. apply (tok_exp _ _ T). Qed.

Lemma elem_of_items t x : x ∈ items t ↔ ∃ i de, buckets t !! i = Some de ∧ x ∈ chain de.
Proof.
  unfold items. rewrite list_elem_of_bind. setoid_rewrite list_elem_of_lookup at 2.
  split; [intros (de & ? & i & ?)|intros (i & de & ? & ?)]; eauto.
Qed.

(** A key is in the bucket of its hash or nowhere in the table. *)
Lemma search_table d key tb : table_ok ty (ht d tb) →
  ∃ b, get_bucket (ht d tb) (home d key tb) = Ok b ∧ buckets (ht d tb) !! Z.to_nat (home d key tb) = Some b ∧
    match find_chain ty key b 0 with
    | Some p => ∃ x, chain b !! p = Some x ∧ item_key ty x = key
    | None => key ∉ item_key ty <$> items (ht d tb)
    end.
Proof.
  intros T. pose proof (home_range d key tb T) as R.
  destruct (bucket_lookup ty _ _ T R) as (b & L & G & _ & _). exists b. split; [done|]. split; [done|].
  pose proof (find_chain_ok key b 0) as F. destruct (find_chain ty key b 0).
  - destruct F as (i & x & -> & ?). by exists x.
  - intros (x & Ek & (i & de & Li & Hx)%elem_of_items)%list_elem_of_fmap. apply F.
    destruct (tok_bucket _ _ T _ _ Li) as [_ P]. apply (proj1 (Forall_forall _ _) P) in Hx as Hm.
    assert (Z.to_nat (home d key tb) = i) as Ei by (unfold home; rewrite Ek, Hm; lia).
    rewrite Ei, Li in L. injection L as ->. rewrite Ek. by apply list_elem_of_fmap_2.
Qed.

(** [l] is the link of the entry [x] of [key]. *)
Definition located d key (l : dictEntryLink) x : Prop :=
  in_use d (l_table l) ∧ l_idx l = home d key (l_table l) ∧ item_key ty x = key ∧
  ∃ b, get_bucket (ht d (l_table l)) (l_idx l) = Ok b ∧ chain b !! l_pos l = Some x.

(** The table and the bucket for a new entry of [key] *)
Definition new_table d : Z := if dictIsRehashing d then 1 else 0.
Definition new_bucket d key : dictEntryLink := Link (new_table d) (home d key (new_table d)) 0.

Definition found d key (r : option dictEntryLink) : Prop :=
  match r with Some l => ∃ x, located d key l x | None => key ∉ keys d end.

Lemma keys_app d : keys d = (item_key ty <$> items (ht0 d)) ++ (item_key ty <$> items (ht1 d)).
Proof. unfold keys, dict_items. apply fmap_app. Qed.

(** An index that was computed for the first table, before a rehashing step *)
Definition stale d key (idx : Z) : Prop :=
  0 ≤ idx ≤ INT64_MAX ∧ (idx < rehashidx d → idx = home d key 0).

Lemma in_use_tables d : dict_ok ty d → is_Some (ht_table (ht0 d)) →
  in_use d 0 ∧ (if dictIsRehashing d then rehash_ok ty d ∧ in_use d 1 else ht1 d = _dictReset ∧ rehashidx d = -1).
Proof.
  intros D A. destruct (dictIsRehashing d) eqn:Hr.
  - pose proof (dict_ok_rehash ty d D Hr) as R. unfold in_use. rewrite Hr. unfold ht. cbn.
    split_and!; auto; apply R.
  - destruct (dict_ok_stable ty d D Hr) as (? & ? & [E|T]); [|unfold in_use; auto].
    rewrite E in A. by destruct A.
Qed.

(** The search of both tables, for each order of its tests *)
Lemma search_dict d key : dict_ok ty d → is_Some (ht_table (ht0 d)) →
  ∃ b0, get_bucket (ht d 0) (home d key 0) = Ok b0 ∧ in_use d 0 ∧
    (dictIsRehashing d = true → home d key 0 < rehashidx d → b0 = NullEntry) ∧
    match find_chain ty key b0 0 with
    | Some p => found d key (Some (Link 0 (home d key 0) p))
    | None =>
        if dictIsRehashing d then
          ∃ b1, get_bucket (ht d 1) (home d key 1) = Ok b1 ∧ in_use d 1 ∧
            found d key (Link 1 (home d key 1) <$> find_chain ty key b1 0)
        else found d key None
    end.
Proof.
  intros D A. destruct (in_use_tables d D A) as [U0 U1].
  destruct (search_table d key 0 (proj1 U0)) as (b0 & G0 & L0 & F0). exists b0. split; [done|]. split; [done|]. split.
  { intros Hr Hi. rewrite Hr in U1. destruct U1 as [R _]. eapply (rok_empty _ _ R); [|exact L0].
    pose proof (home_range d key 0 (proj1 U0)). lia. }
  destruct (find_chain ty key b0 0) as [p|].
  { destruct F0 as (x & C & Ek). exists x. split; [done|]. cbn. eauto. }
  change (ht d 0) with (ht0 d) in F0. destruct (dictIsRehashing d) eqn:Hr.
  - destruct U1 as [R U1]. destruct (search_table d key 1 (proj1 U1)) as (b1 & G1 & L1 & F1).
    exists b1. split; [done|]. split; [done|]. destruct (find_chain ty key b1 0) as [p|]; cbn.
    + destruct F1 as (x & C & Ek). exists x. split; [done|]. cbn. eauto.
    + rewrite keys_app, elem_of_app. by intros [?|?].
  - destruct U1 as [E1 _]. unfold found. rewrite keys_app, E1, elem_of_app. intros [?|N]; [done|].
    by apply not_elem_of_nil in N.
Qed.

(** A bucket before [rehashidx] is skipped. *)
Lemma stale_skip d key idx : dict_ok ty d → stale d key idx →
  (s64 idx <? rehashidx d) = true → dictIsRehashing d = true ∧ home d key 0 < rehashidx d.
Proof.
  intros D [R S]. rewrite s64_small by lia. intros Hi. rewrite <- S by lia. split; [|lia].
  unfold dictIsRehashing. lia.
Qed.

Lemma table_loop_ok d key idx : dict_ok ty d → is_Some (ht_table (ht0 d)) → stale d key idx →
  ∃ r i, table_loop ty [0; 1] d key (dictGetHash ty key) idx = Ok (r, i) ∧ found d key r ∧
    (r = None → Link (new_table d) i 0 = new_bucket d key).
Proof.
  intros D A St. destruct (search_dict d key D A) as (b0 & G0 & U0 & Em & F). cbn [table_loop].
  rewrite (bucket_index_home d key 0) by apply U0. rewrite G0. cbn [Z.eqb andb].
  assert (∀ b1, get_bucket (ht d 1) (home d key 1) = Ok b1 → in_use d 1 → dictIsRehashing d = true →
    found d key (Link 1 (home d key 1) <$> find_chain ty key b1 0) → ∃ r i,
    (b ← get_bucket (ht d 1) (bucket_index d (dictGetHash ty key) 1);
     match find_chain ty key b 0 with
     | Some pos => Ok (Some (Link 1 (bucket_index d (dictGetHash ty key) 1) pos), bucket_index d (dictGetHash ty key) 1)
     | None => if negb (dictIsRehashing d) then Ok (None, bucket_index d (dictGetHash ty key) 1)
               else Ok (None, bucket_index d (dictGetHash ty key) 1)
     end) = Ok (r, i) ∧ found d key r ∧ (r = None → Link (new_table d) i 0 = new_bucket d key)) as T1.
  { intros b1 G1 U1 Hr Q. rewrite (bucket_index_home d key 1) by apply U1. rewrite G1, Hr. rs. cbn [negb].
    unfold new_bucket, new_table. rewrite Hr. destruct (find_chain ty key b1 0); cbn in Q; by eexists _, _. }
  destruct (s64 idx <? rehashidx d) eqn:Hs.
  - destruct (stale_skip d key idx D St Hs) as [Hr Hi]. rewrite (Em Hr Hi) in F. cbn [find_chain] in F. rewrite Hr in F.
    destruct F as (b1 & G1 & U1 & Q). by apply (T1 b1).
  - rs. destruct (find_chain ty key b0 0) as [p|]; [by eexists _, _|].
    destruct (dictIsRehashing d) eqn:Hr; cbn [negb].
    + destruct F as (b1 & G1 & U1 & Q). by apply (T1 b1).
    + exists None, (home d key 0). split; [done|]. split; [done|]. unfold new_bucket, new_table. by rewrite Hr.
Qed.

Lemma link_loop_ok d key idx : dict_ok ty d → is_Some (ht_table (ht0 d)) → stale d key idx →
  ∃ r b, link_loop ty (if dictIsRehashing d then [0; 1] else [0]) d key (dictGetHash ty key) idx None = Ok (r, b) ∧
    found d key r ∧ (r = None → b = Some (new_bucket d key)).
Proof.
  intros D A St. destruct (search_dict d key D A) as (b0 & G0 & U0 & Em & F).
  unfold new_bucket, new_table. destruct (dictIsRehashing d) eqn:Hr.
  - assert (∀ b1 o, get_bucket (ht d 1) (home d key 1) = Ok b1 → in_use d 1 →
      found d key (Link 1 (home d key 1) <$> find_chain ty key b1 0) → ∃ r b,
      link_loop ty [1] d key (dictGetHash ty key) o.1 o.2 = Ok (r, b) ∧ found d key r ∧
      (r = None → b = Some (Link 1 (home d key 1) 0))) as T1.
    { intros b1 o G1 U1 Q. cbn [link_loop Z.eqb andb]. rewrite (bucket_index_home d key 1) by apply U1.
      rewrite G1. rs. destruct (find_chain ty key b1 0); cbn in Q; by eexists _, _. }
    remember [1] as tl. cbn [link_loop Z.eqb andb]. rewrite (bucket_index_home d key 0) by apply U0. rewrite G0.
    destruct (s64 idx <? rehashidx d) eqn:Hs.
    + destruct (stale_skip d key idx D St Hs) as [_ Hi]. rewrite (Em eq_refl Hi) in F.
      destruct F as (b1 & G1 & U1 & Q). by apply (T1 b1 (idx, None)).
    + rs. destruct (find_chain ty key b0 0) as [p|]; [by eexists _, _|].
      destruct F as (b1 & G1 & U1 & Q). by apply (T1 b1 (home d key 0, Some (Link 0 (home d key 0) 0))).
  - cbn [link_loop Z.eqb andb]. rewrite (bucket_index_home d key 0) by apply U0. rewrite G0.
    destruct (s64 idx <? rehashidx d) eqn:Hs.
    + destruct (stale_skip d key idx D St Hs) as [Hr' _]. congruence.
    + rs. destruct (find_chain ty key b0 0) as [p|]; by eexists _, _.
Qed.

Lemma unlink_loop_ok d key : dict_ok ty d → is_Some (ht_table (ht0 d)) →
  ∃ r, unlink_loop ty [0; 1] d key (dictGetHash ty key) = Ok r ∧ found d key r.
Proof.
  intros D A. destruct (search_dict d key D A) as (b0 & G0 & U0 & Em & F). cbn [unlink_loop Z.eqb andb].
  rewrite (bucket_index_home d key 0) by apply U0. rewrite G0.
  pose proof (home_range d key 0 (proj1 U0)) as R. pose proof (size_bound _ (tok_exp _ _ (proj1 U0))).
  rewrite s64_small by lia. destruct (Z.ltb_spec (home d key 0) (rehashidx d)) as [Hs|Hs].
  - assert (dictIsRehashing d = true) as Hr by (unfold dictIsRehashing; lia).
    rewrite (Em Hr Hs) in F. cbn [find_chain] in F. rewrite Hr in F. destruct F as (b1 & G1 & U1 & Q).
    rewrite (bucket_index_home d key 1) by apply U1. rewrite G1, Hr. rs.
    destruct (find_chain ty key b1 0); cbn in Q; eauto.
  - rs. destruct (find_chain ty key b0 0) as [p|]; [eauto|].
    destruct (dictIsRehashing d) eqn:Hr; cbn [negb]; [|eauto]. destruct F as (b1 & G1 & U1 & Q).
    rewrite (bucket_index_home d key 1) by apply U1. rewrite G1. rs.
    destruct (find_chain ty key b1 0); cbn in Q; eauto.
Qed.

(** ** [stale] along the steps *)

Lemma bucket_index_first d key : dict_ok ty d →
  0 ≤ bucket_index d (dictGetHash ty key) 0 ≤ INT64_MAX ∧
  (dictIsRehashing d = true → bucket_index d (dictGetHash ty key) 0 = home d key 0 ∧
     0 ≤ home d key 0 < size (ht_size_exp (ht0 d))).
Proof.
  intros D. assert (∀ T : table_ok ty (ht0 d), bucket_index d (dictGetHash ty key) 0 = home d key 0 ∧
    0 ≤ home d key 0 < size (ht_size_exp (ht0 d)) ∧ size (ht_size_exp (ht0 d)) ≤ 1152921504606846976) as Q.
  { intros T. rewrite (bucket_index_home d key 0) by done. pose proof (home_range d key 0 T).
    pose proof (size_bound _ (tok_exp _ _ T)). unfold ht in *. cbn in *. lia. }
  split.
  - destruct D as [[(_ & _ & [E|T])|R] _]; [|specialize (Q T); lia|specialize (Q (rok_ht0 _ _ R)); lia].
    unfold bucket_index, ht. cbn. rewrite E. cbn. change (DICTHT_SIZE_MASK (-1)) with 0. rewrite Z.land_0_r. lia.
  - intros Hr. destruct (Q (rok_ht0 _ _ (dict_ok_rehash ty d D Hr))) as (? & ? & ?). done.
Qed.

Lemma stale_steps d d' key : dict_ok ty d → steps ty d d' →
  stale d' key (bucket_index d (dictGetHash ty key) 0).
Proof.
  intros D [[D' _ _ _ _] I S _]. destruct (bucket_index_first d key D) as [R Q]. split; [done|]. intros Hi.
  assert (dictIsRehashing d' = true) as Hr by (unfold dictIsRehashing; lia).
  assert (dictIsRehashing d = true) as Hr'.
  { destruct (dictIsRehashing d) eqn:N; [done|]. rewrite (I eq_refl) in Hr. congruence. }
  destruct (S Hr) as [E _]. destruct (Q Hr') as [-> _]. unfold home, ht. cbn. by rewrite E.
Qed.

Lemma stale_resized d d' key idx : stale d key idx → resized ty d d' → stale d' key idx.
Proof.
  intros [R Q] [S I _]. split; [done|]. intros Hi.
  assert (dictIsRehashing d' = true) as Hr by (unfold dictIsRehashing; lia).
  destruct (I Hr) as [?| ->]; [lia|by apply Q].
Qed.
End find.
