(* ===== verification/DictOps.v ===== *)
(** The operations of [dict.c] on a finite map: [dict_map] is the map from keys to
    entries that a dictionary stands for, and each operation acts on it as its name
    says. *)

From S2P Require Import Prelude Dict DictApi DictRep DictResize DictFind.

Section ops.
Context {K SK V : Type} `{Countable K} (ty : dictType K SK) `{!DictLaws ty}.
Implicit Types (d : dict SK V) (de : dictEntry SK V) (t : htable SK V) (key : K) (x : SK * option V).

Abbreviation hash k := (hashFunction ty k).
Abbreviation size e := (2 ^ e).
Abbreviation item := (SK * option V)%type.

(** ** The map of a list of entries *)

Definition items_map (l : list item) : gmap K item := list_to_map ((λ x, (item_key ty x, x)) <$> l).
Definition dict_map d : gmap K item := items_map (dict_items d).

Lemma items_map_keys l : ((λ x, (item_key ty x, x)) <$> l).*1 = item_key ty <$> l.
Proof. induction l; cbn; by f_equal. Qed.

Lemma items_map_perm l l' : items_ok ty l → l ≡ₚ l' → items_map l = items_map l'.
Proof. intros [N _] P. apply list_to_map_proper; [by rewrite items_map_keys|by rewrite P]. Qed.

Lemma items_map_cons x l : items_map (x :: l) = <[item_key ty x := x]> (items_map l).
Proof. done. Qed.

Lemma items_map_lookup l key x : items_ok ty l → items_map l !! key = Some x ↔ x ∈ l ∧ item_key ty x = key.
Proof.
  intros [N _]. unfold items_map. rewrite <- elem_of_list_to_map by (by rewrite items_map_keys).
  rewrite list_elem_of_fmap. split; [intros (y & [= -> ->] & ?)|intros [? <-]]; eauto.
Qed.

Lemma items_map_None l key : items_map l !! key = None ↔ key ∉ item_key ty <$> l.
Proof. unfold items_map. by rewrite <- not_elem_of_list_to_map, items_map_keys. Qed.

Lemma items_map_delete x l : items_ok ty (x :: l) → items_map l = delete (item_key ty x) (items_map (x :: l)).
Proof.
  intros [[N _]%NoDup_cons _]. rewrite items_map_cons, delete_insert_id; [done|]. by apply items_map_None.
Qed.

Lemma items_map_size l : items_ok ty l → Z.of_nat (base.size (items_map l)) = zlen l.
Proof.
  intros [N _]. induction l as [|x l IH]; [done|]. cbn [fmap list_fmap] in N. apply NoDup_cons in N as [Nx N].
  rewrite items_map_cons, map_size_insert_None by (by apply items_map_None). cbn [length]. specialize (IH N). lia.
Qed.

Lemma stays_map d d' : dict_ok ty d → stays ty d d' → dict_map d' = dict_map d.
Proof. intros (_ & B & _) S. symmetry. apply items_map_perm; [done|]. by rewrite (st_items _ _ _ S). Qed.

Lemma located_items d key l x : located ty d key l x → x ∈ items (ht d (l_table l)).
Proof.
  intros (_ & _ & _ & b & G & C). unfold get_bucket in G.
  destruct (ht_table (ht d (l_table l))) as [bs|] eqn:Eb; [|done].
  case_match; [done|]. case_match eqn:Eb'; [|done]. injection G as ->. apply elem_of_items.
  exists (Z.to_nat (l_idx l)), b. unfold buckets. rewrite Eb. split; [done|]. by eapply list_elem_of_lookup_2.
Qed.

Lemma items_used d tb : table_ok ty (ht d tb) → ht_used (ht d tb) = zlen (items (ht d tb)) ∧
  zlen (items (ht d tb)) ≤ zlen (dict_items d).
Proof.
  intros T. split; [apply (tok_used _ _ T)|]. unfold dict_items. rewrite length_app.
  unfold ht. destruct (tb =? 0); lia.
Qed.

Lemma found_map d key r : dict_ok ty d → found ty d key r →
  match r with
  | Some l => ∃ x, dict_map d !! key = Some x ∧ located ty d key l x
  | None => dict_map d !! key = None
  end.
Proof.
  intros (_ & B & _). destruct r as [l|]; cbn; [|by apply items_map_None].
  intros (x & L). exists x. split; [|done].
  pose proof (located_items d key l x L) as Hx. destruct L as ((T & U) & _ & Ek & _).
  apply items_map_lookup; [done|]. split; [|done]. unfold dict_items. rewrite elem_of_app.
  unfold ht in Hx. destruct U as [E|[E _]]; rewrite E in Hx; cbn in Hx; auto.
Qed.

(** ** Size *)

Lemma dictSize_items d : dict_ok ty d → dictSize d = zlen (dict_items d).
Proof.
  intros (T & [_ B] & _). unfold dictSize, dict_items in *. rewrite length_app in *.
  assert (∀ t, t = _dictReset ∨ table_ok ty t → ht_used t = zlen (items t)) as Q.
  { intros t [->|Ht]; [done|apply (tok_used _ _ Ht)]. }
  assert (ht_used (ht0 d) = zlen (items (ht0 d)) ∧ ht_used (ht1 d) = zlen (items (ht1 d))) as [-> ->].
  { destruct T as [(_ & E & ?)|R]; split; apply Q; auto; right; apply R. }
  rewrite u64_small; lia.
Qed.

Lemma dictSize_map d : dict_ok ty d → dictSize d = Z.of_nat (base.size (dict_map d)).
Proof. intros D. rewrite dictSize_items, <- (items_map_size (dict_items d)); [done|apply D|done]. Qed.

Lemma dictSize_zero d : dict_ok ty d → dictSize d = 0 → dict_items d = [].
Proof. intros D E. rewrite dictSize_items in E by done. apply nil_length_inv. lia. Qed.

Lemma dictSize_alloc d : dict_ok ty d → dictSize d ≠ 0 → is_Some (ht_table (ht0 d)).
Proof.
  intros D N. rewrite dictSize_items in N by done.
  destruct D as [[(_ & E1 & [E0|T])|R] _]; [|apply (tok_some _ _ T)|apply (tok_some _ _ (rok_ht0 _ _ R))].
  unfold dict_items in N. rewrite E0, E1 in N. done.
Qed.

(** ** Writing a bucket *)

Lemma table_replace d tb t' :
  stable_ok ty d ∨ rehash_ok ty d → (tb = 0 ∨ tb = 1 ∧ dictIsRehashing d = true) →
  table_ok ty t' → ht_size_exp t' = ht_size_exp (ht d tb) →
  (tb = 0 → ∀ i de, Z.of_nat i < rehashidx d → buckets t' !! i = Some de → de = NullEntry) →
  stable_ok ty (set_ht d tb t') ∨ rehash_ok ty (set_ht d tb t').
Proof.
  intros T U Ht E Em. destruct T as [(Ei & E1 & _)|[]].
  - destruct U as [->|[_ Hr]]; [|unfold dictIsRehashing in Hr; lia]. left. by split_and!; [..|right].
  - right. destruct U as [->|[-> _]]; unfold set_ht, ht in *; cbn in *.
    + constructor; cbn; try done; [by rewrite E|by rewrite E|by apply Em].
    + constructor; cbn; try done; by rewrite E.
Qed.

Lemma slot_update d tb idx : dict_ok ty d → in_use ty d tb →
  0 ≤ idx < size (ht_size_exp (ht d tb)) → (tb = 0 → rehashidx d ≤ idx) →
  ∃ b rest, get_bucket (ht d tb) idx = Ok b ∧ shape ty b ∧ placed ty (ht_size_exp (ht d tb)) idx b ∧
    dict_items d ≡ₚ chain b ++ rest ∧
    ∀ b', shape ty b' → placed ty (ht_size_exp (ht d tb)) idx b' →
      ∃ t', set_bucket (ht d tb) idx b' = Ok t' ∧
        ht_used t' = ht_used (ht d tb) ∧ ht_size_exp t' = ht_size_exp (ht d tb) ∧
        get_bucket t' idx = Ok b' ∧
        ∀ n, n = ht_used (ht d tb) + zlen (chain b') - zlen (chain b) → items_ok ty (chain b' ++ rest) →
          let d' := set_ht d tb (HT (ht_table t') n (ht_size_exp (ht d tb))) in
          dict_ok ty d' ∧ dict_items d' ≡ₚ chain b' ++ rest.
Proof.
  intros (T & B & P) [Tt U] Hi Hr. destruct (bucket_update ty _ _ Tt Hi) as (b & r & G & L & Sh & Pl & I & Up).
  exists b, (r ++ items (ht d (1 - tb))).
  assert (∀ t, dict_items (set_ht d tb t) ≡ₚ items t ++ items (ht d (1 - tb))) as Id.
  { intros t. destruct U as [->|[-> _]]; unfold set_ht, dict_items, ht; cbn; [done|apply Permutation_app_comm]. }
  split_and!; try done.
  { rewrite app_assoc, <- I, <- Id. destruct d, U as [->|[-> _]]; done. }
  intros b' Sh' Pl'. destruct (Up b') as (t' & Es & Bt & Ut & Et & It & Tok). exists t'. split_and!; try done.
  { rewrite <- (Z2Nat.id idx) at 1 by lia. apply get_bucket_lookup. rewrite Bt. apply list_lookup_insert_eq.
    by apply lookup_lt_Some in L. }
  intros n Hn Bi. set (t2 := HT (ht_table t') n (ht_size_exp (ht d tb))).
  assert (dict_items (set_ht d tb t2) ≡ₚ chain b' ++ r ++ items (ht d (1 - tb))) as Id2.
  { rewrite Id, app_assoc. apply Permutation_app_tail. exact It. }
  split; [|done]. split; [|split; [by rewrite Id2|unfold set_ht; by destruct (tb =? 0)]].
  apply table_replace; [done|done| |done|].
  - apply Tok; [done..|]. pose proof (tok_used _ _ Tt) as Un. rewrite I in Un. rewrite !length_app in *. lia.
  - intros E0 i x Hx. change (buckets t2) with (buckets t'). rewrite Bt.
    rewrite list_lookup_insert_ne by (specialize (Hr E0); lia). intros Lx.
    destruct T as [(Ei & _)|R]; [lia|]. subst tb. eapply (rok_empty _ _ R); [exact Hx|exact Lx].
Qed.

(** ** Links *)

Lemma ht_set_ht d tb t : (tb = 0 ∨ tb = 1) → ht (set_ht d tb t) tb = t.
Proof. by intros [->| ->]. Qed.

Lemma set_ht_set_ht d tb t t' : set_ht (set_ht d tb t) tb t' = set_ht d tb t'.
Proof. unfold set_ht. by destruct (tb =? 0). Qed.

Lemma set_ht_pause d tb t :
  pauserehash (set_ht d tb t) = pauserehash d ∧ pauseAutoResize (set_ht d tb t) = pauseAutoResize d ∧
  rehashidx (set_ht d tb t) = rehashidx d.
Proof. unfold set_ht. by destruct (tb =? 0). Qed.

Lemma in_use_01 d tb : in_use ty d tb → tb = 0 ∨ tb = 1.
Proof. intros [_ [?|[? _]]]; auto. Qed.

(** A table with entries in a bucket has not been rehashed that far. *)
Lemma located_idx d key l x : dict_ok ty d → located ty d key l x →
  0 ≤ l_idx l < size (ht_size_exp (ht d (l_table l))) ∧ (l_table l = 0 → rehashidx d ≤ l_idx l).
Proof.
  intros (T & _) ((Tt & U) & Ei & Ek & b & G & C). rewrite Ei. pose proof (home_range ty d key _ Tt) as R.
  split; [done|]. intros E0. destruct T as [(E & _)|Ro]; [lia|].
  destruct (decide (rehashidx d ≤ home ty d key (l_table l))) as [|N]; [done|]. rewrite E0 in *.
  destruct (bucket_lookup ty _ _ Tt R) as (b' & L & G' & _). rewrite Ei, G' in G. injection G as ->.
  assert (b = NullEntry) as -> by (eapply (rok_empty _ _ Ro); [|exact L]; lia). done.
Qed.

Lemma link_update d key l x : dict_ok ty d → located ty d key l x →
  ∃ e tl rest, link_get d l = Ok e ∧ shape ty e ∧ chain e = x :: tl ∧ dict_items d ≡ₚ (x :: tl) ++ rest ∧
    Forall (λ y, hash (item_key ty y) mod size (ht_size_exp (ht d (l_table l))) = l_idx l) tl ∧
    ∀ e', shape ty e' → placed ty (ht_size_exp (ht d (l_table l))) (l_idx l) e' →
      ∃ t', link_set d l e' = Ok (set_ht d (l_table l) t') ∧
        ht_used t' = ht_used (ht d (l_table l)) ∧ ht_size_exp t' = ht_size_exp (ht d (l_table l)) ∧
        ∀ n, n = ht_used (ht d (l_table l)) + zlen (chain e') - zlen (x :: tl) → items_ok ty (chain e' ++ rest) →
          let d' := set_ht d (l_table l) (HT (ht_table t') n (ht_size_exp (ht d (l_table l)))) in
          dict_ok ty d' ∧ dict_items d' ≡ₚ chain e' ++ rest.
Proof.
  intros D L. destruct (located_idx d key l x D L) as [Ri Rr]. destruct L as (U & Ei & Ek & b0 & G0 & C).
  destruct (slot_update d (l_table l) (l_idx l) D U Ri Rr) as (b & rest & G & Sh & Pl & I & Up).
  rewrite G in G0. injection G0 as <-.
  destruct (entry_at_ok ty b (l_pos l) x C) as (e & tl & Ea & Ce & Cb & She & Set_).
  exists e, tl, (take (l_pos l) (chain b) ++ rest).
  assert (∀ m, (take (l_pos l) (chain b) ++ m) ++ rest ≡ₚ m ++ take (l_pos l) (chain b) ++ rest) as Pm.
  { intros m. rewrite (Permutation_app_comm _ m). by rewrite <- app_assoc. }
  unfold placed in Pl. rewrite Cb, Forall_app, Forall_cons in Pl. destruct Pl as (Pt & Px & Ptl).
  unfold link_get, link_set. rewrite G. rs. split_and!; [done|auto|done| |done|].
  { rewrite I, Cb at 1. apply Pm. }
  intros e' Se Pe. destruct (Set_ e') as (b' & -> & C' & Sh'). rs.
  destruct (Up b') as (t' & -> & Ut & Et & _ & Q); [auto| |].
  { unfold placed. rewrite C'. by apply Forall_app. }
  rs. exists t'. split_and!; [done..|]. intros n Hn Bi. destruct (Q n) as [Q1 Q2].
  - apply (f_equal length) in Cb. rewrite length_app in Cb. rewrite Hn, C', length_app. cbn in *. lia.
  - rewrite C', Pm. done.
  - split; [done|]. rewrite Q2, C'. apply Pm.
Qed.

Lemma in_use_set d tb t : in_use ty d tb → dict_ok ty (set_ht d tb t) → is_Some (ht_table t) →
  in_use ty (set_ht d tb t) tb.
Proof.
  intros [T U] D A. assert (dictIsRehashing (set_ht d tb t) = dictIsRehashing d) as Er.
  { unfold dictIsRehashing. by destruct (set_ht_pause d tb t) as (_ & _ & ->). }
  split; [|by rewrite Er]. rewrite ht_set_ht by (by eapply in_use_01).
  destruct D as [[(_ & E1 & E0)|R] _].
  - destruct U as [->|[-> Hr]].
    + destruct E0 as [E0|E0]; [|done]. cbn in E0. rewrite E0 in A. by destruct A.
    + cbn in E1. rewrite E1 in A. by destruct A.
  - destruct U as [->|[-> Hr]]; [apply (rok_ht0 _ _ R)|apply (rok_ht1 _ _ R)].
Qed.

Lemma get_bucket_some t i b : get_bucket t i = Ok b → is_Some (ht_table t).
Proof. unfold get_bucket. by destruct (ht_table t). Qed.

(** ** Insertion at a link *)

Definition paused_as d d' : Prop := pauserehash d' = pauserehash d ∧ pauseAutoResize d' = pauseAutoResize d.

Lemma new_table_in_use d : dict_ok ty d → is_Some (ht_table (ht0 d)) → in_use ty d (new_table d).
Proof.
  intros D A. destruct (in_use_tables ty d D A) as [U0 U1]. unfold new_table. by destruct (dictIsRehashing d); [apply U1|].
Qed.

Lemma insert_entry_ok k (b : dictEntry SK V) : shape ty b →
  ∃ e, (if no_value ty then if is_null b then KeyEntry k else Entry k None b else Entry k None b) = e ∧
    shape ty e ∧ chain e = (k, None) :: chain b.
Proof. intros S. eexists. split; [done|]. destruct (no_value ty) eqn:E, b; cbn in *; rewrite ?E in *; split; auto. Qed.

Lemma dictInsertKeyAtLink_ok d k key : dict_ok ty d → is_Some (ht_table (ht0 d)) →
  keyFromStoredKey ty k = key → key ∉ keys ty d → zlen (dict_items d) < UINT64_MAX →
  ∃ d', dictInsertKeyAtLink ty d k (new_bucket ty d key) = Ok (d', new_bucket ty d key) ∧ dict_ok ty d' ∧
    dict_items d' ≡ₚ (k, None) :: dict_items d ∧ paused_as d d' ∧
    located ty d' key (new_bucket ty d key) (k, None).
Proof.
  intros D A Ek Nk Hn. pose proof (new_table_in_use d D A) as U. unfold dictInsertKeyAtLink.
  fold (new_table d). set (tb := new_table d) in *.
  pose proof (home_range ty d key tb (proj1 U)) as R.
  pose proof (tok_exp _ _ (proj1 U)) as Te. pose proof (size_bound _ Te).
  unfold new_bucket. fold tb. cbn [l_table l_idx l_pos].
  rewrite assert_true; [|rewrite Z.eqb_refl; unfold DICTHT_SIZE_MASK; rewrite DICTHT_SIZE_pow by lia;
    rewrite bool_decide_true by done; cbn; destruct (Z.eqb_spec (ht_size_exp (ht d tb)) (-1)); [lia|];
    rewrite u64_small by lia; lia]. rs.
  destruct (slot_update d tb (home ty d key tb) D U R) as (b & rest & G & Sh & Pl & I & Up).
  { intros E0. unfold tb, new_table in E0. destruct (dictIsRehashing d) eqn:Hr; [done|].
    destruct (dict_ok_stable ty d D Hr) as [-> _]. lia. }
  unfold link_get, link_set. cbn [l_table l_idx l_pos entry_at entry_set]. rewrite G. rs.
  destruct (insert_entry_ok k b Sh) as (e & -> & She & Ce).
  destruct (Up e She) as (t' & -> & Ut & Et & Gt & Q).
  { unfold placed. rewrite Ce. constructor; [|done]. unfold item_key. cbn. by rewrite Ek. }
  rs. rewrite ht_set_ht, set_ht_set_ht by (by eapply in_use_01).
  assert (items_ok ty (chain e ++ rest)) as Bi.
  { destruct D as (_ & [Nd _] & _). rewrite Ce. cbn. rewrite <- I. split; [|cbn; lia].
    cbn. constructor; [|done]. unfold item_key at 1. cbn. by rewrite Ek. }
  destruct (Q (ht_used (ht d tb) + 1)) as [Q1 Q2]; [rewrite Ce; cbn; lia|done|].
  assert (set_used t' (ht_used t' + 1) = HT (ht_table t') (ht_used (ht d tb) + 1) (ht_size_exp (ht d tb))) as Es.
  { unfold set_used. rewrite Ut, Et, u64_small; [done|]. destruct (items_used d tb (proj1 U)). lia. }
  rewrite Es. eexists. split; [done|]. split; [done|]. split; [by rewrite Q2, Ce, I|].
  split; [split; apply set_ht_pause|]. pose proof (in_use_01 d tb U) as T01.
  split; [by apply in_use_set; [..|eapply get_bucket_some; exact Gt]|]. cbn [l_table l_idx l_pos].
  unfold home. rewrite !ht_set_ht by done. split; [done|]. split; [done|].
  exists e. split; [exact Gt|]. by rewrite Ce.
Qed.
End ops.
