(* ===== verification/DictSpec.v ===== *)
(** What each operation of [dict.c] does to the map a dictionary stands for. *)

From S2P Require Import Prelude Dict DictApi DictRep DictResize DictFind DictOps.

Section spec.
Context {K SK V : Type} `{Countable K} (ty : dictType K SK) `{!DictLaws ty}.
Implicit Types (d : dict SK V) (de : dictEntry SK V) (key : K) (x : SK * option V) (can : dictResizeEnable).

Abbreviation item := (SK * option V)%type.

(** [d'] is a dictionary for the map [m], paused as [d] is. *)
Record becomes d (m : gmap K item) d' : Prop := {
  bc_ok : dict_ok ty d';
  bc_map : dict_map ty d' = m;
  bc_paused : paused_as d d' }.

(** The dictionary has room for one more entry. *)
Definition room d : Prop := Z.of_nat (size (dict_map ty d)) < UINT64_MAX.

(** The first insertion allocates the table, unless automatic resizing is paused. *)
Definition can_insert d : Prop := pauseAutoResize d ≤ 0 ∨ is_Some (ht_table (ht0 d)).

Lemma becomes_refl d : dict_ok ty d → becomes d (dict_map ty d) d.
Proof. by constructor. Qed.

Lemma becomes_trans d1 d2 d3 m m' : becomes d1 m d2 → becomes d2 m' d3 → becomes d1 m' d3.
Proof. intros [_ _ []] [? ? []]. constructor; [done..|]. split; congruence. Qed.

Lemma stays_becomes d d' : dict_ok ty d → stays ty d d' → becomes d (dict_map ty d) d'.
Proof. intros D S. constructor; [apply S|by apply stays_map|]. split; apply S. Qed.

Lemma steps_becomes d d' : dict_ok ty d → steps ty d d' → becomes d (dict_map ty d) d'.
Proof. intros D [S _]. by apply stays_becomes. Qed.

Lemma room_items d : dict_ok ty d → room d → zlen (dict_items d) < UINT64_MAX.
Proof. intros D R. unfold room in R. rewrite <- (dictSize_map ty), (dictSize_items ty) in R by done. done. Qed.

(** ** Lookup *)

Lemma dictFindLinkInternal_ok can d key want :
  dict_ok ty d → (want = true → is_Some (ht_table (ht0 d))) →
  ∃ d' r b, dictFindLinkInternal ty can d key want = Ok (d', r, b) ∧ steps ty d d' ∧ found ty d' key r ∧
    (want = true → r = None → b = Some (new_bucket ty d' key)).
Proof.
  intros D A. unfold dictFindLinkInternal. destruct (negb want && (dictSize d =? 0)) eqn:E.
  - apply andb_true_iff in E as [Ew E]. exists d, None, None. split; [done|]. split; [by apply steps_refl|].
    split; [|by destruct want]. unfold found, keys. rewrite (dictSize_zero ty d D) by lia. apply not_elem_of_nil.
  - assert (is_Some (ht_table (ht0 d))) as A'.
    { destruct want; [auto|]. cbn in E. apply (dictSize_alloc ty); [done|lia]. }
    destruct (_dictRehashStepIfNeeded_ok ty can d (bucket_index d (dictGetHash ty key) 0) D) as (d1 & -> & S1).
    { intros Hr. destruct (bucket_index_first ty d key D) as [_ Q]. destruct (Q Hr) as [-> R]. done. }
    rs. pose proof (st_ok _ _ _ (stp_stays _ _ _ S1)) as D1.
    destruct (link_loop_ok ty d1 key (bucket_index d (dictGetHash ty key) 0) D1) as (r & b & -> & F & Q).
    { by apply (st_alloc _ _ _ (stp_stays _ _ _ S1)). }
    { by apply stale_steps. }
    rs. exists d1, r, b. auto.
Qed.

Lemma dictFindLink_ok can d key want : dict_ok ty d →
  ∃ d' r b, dictFindLink ty can d key want = Ok (d', r, b) ∧ steps ty d d' ∧ found ty d' key r ∧
    (want = true → r = None → dictSize d ≠ 0 → b = Some (new_bucket ty d' key) ∧ is_Some (ht_table (ht0 d'))) ∧
    (dictSize d = 0 → b = None).
Proof.
  intros D. unfold dictFindLink. destruct (Z.eqb_spec (dictSize d) 0) as [E|E].
  - exists d, None, None. split; [done|]. split; [by apply steps_refl|]. split; [|done].
    unfold found, keys. rewrite (dictSize_zero ty d D) by lia. apply not_elem_of_nil.
  - pose proof (dictSize_alloc ty d D E) as A.
    destruct (dictFindLinkInternal_ok can d key want D (λ _, A)) as (d' & r & b & -> & S & F & Q).
    exists d', r, b. split_and!; try done. intros Hw Hr _. split; [auto|].
    by apply (st_alloc _ _ _ (stp_stays _ _ _ S)).
Qed.

(** The entry that a link points to *)
Lemma located_get d key l x : dict_ok ty d → located ty d key l x →
  ∃ e tl, link_get d l = Ok e ∧ shape ty e ∧ chain e = x :: tl.
Proof.
  intros D L. destruct (link_update ty d key l x D L) as (e & tl & rest & G & Sh & C & _). eauto.
Qed.

Lemma dictFind_ok can d key : dict_ok ty d →
  ∃ d' he, dictFind ty can d key = Ok (d', he) ∧ becomes d (dict_map ty d) d' ∧
    dict_map ty d !! key = he ≫= (head ∘ chain) ∧ (he = None ↔ dict_map ty d !! key = None) ∧
    ∀ e, he = Some e → shape ty e.
Proof.
  intros D. unfold dictFind. destruct (dictFindLink_ok can d key false D) as (d' & r & b & -> & S & F & _). rs.
  pose proof (st_ok _ _ _ (stp_stays _ _ _ S)) as D'. pose proof (found_map ty d' key r D' F) as M.
  rewrite (stays_map ty d d' D (stp_stays _ _ _ S)) in M. pose proof (steps_becomes d d' D S) as B.
  destruct r as [l|].
  - destruct M as (x & E & L). destruct (located_get d' key l x D' L) as (e & tl & -> & Sh & C). rs.
    exists d', (Some e). rewrite E. cbn. rewrite C. split_and!; try done. by intros ? [= <-].
  - exists d', None. by rewrite M.
Qed.

Lemma dictFetchValue_ok can d key : dict_ok ty d → no_value ty = false →
  (∀ k, dict_map ty d !! key ≠ Some (k, None)) →
  ∃ d', dictFetchValue ty can d key = Ok (d', dict_map ty d !! key ≫= snd) ∧ becomes d (dict_map ty d) d'.
Proof.
  intros D Nv Vs. unfold dictFetchValue. destruct (dictFind_ok can d key D) as (d' & he & -> & B & L & Em & Sh). rs.
  rewrite L in *. destruct he as [e|]; [|by exists d'].
  specialize (Sh e eq_refl). destruct e as [|k|k [v|] next]; cbn in *.
  - by pose proof (proj2 Em eq_refl).
  - congruence.
  - by exists d'.
  - by destruct (Vs k).
Qed.

(** ** Insertion *)

Lemma dictFindLinkForInsert_ok can d key : dict_ok ty d → can_insert d →
  ∃ d' b e, dictFindLinkForInsert ty can d key = Ok (d', b, e) ∧ stays ty d d' ∧ is_Some (ht_table (ht0 d')) ∧
    match e with
    | Some l => b = None ∧ ∃ x, dict_map ty d !! key = Some x ∧ located ty d' key l x
    | None => b = Some (new_bucket ty d' key) ∧ dict_map ty d !! key = None
    end.
Proof.
  intros D A. unfold dictFindLinkForInsert.
  destruct (_dictRehashStepIfNeeded_ok ty can d (bucket_index d (dictGetHash ty key) 0) D) as (d1 & -> & S1).
  { intros Hr. destruct (bucket_index_first ty d key D) as [_ Q]. destruct (Q Hr) as [-> R]. done. }
  rs. pose proof (stp_stays _ _ _ S1) as S1'.
  destruct (_dictExpandIfNeeded_ok ty can d1 (st_ok _ _ _ S1')) as (d2 & o & -> & S2 & A2). rs.
  assert (stays ty d d2) as S by (eapply stays_trans; [exact S1'|apply S2]).
  assert (is_Some (ht_table (ht0 d2))) as A'.
  { apply A2. rewrite (st_auto _ _ _ S1'). destruct A; [by left|right]. by apply (st_alloc _ _ _ S1'). }
  pose proof (st_ok _ _ _ S) as D2.
  destruct (table_loop_ok ty d2 key (bucket_index d (dictGetHash ty key) 0) D2 A') as (r & i & -> & F & Q).
  { eapply stale_resized; [by apply stale_steps|done]. }
  rs. pose proof (found_map ty d2 key r D2 F) as M. rewrite (stays_map ty d d2 D S) in M.
  destruct r as [l|]; [by exists d2, None, (Some l)|].
  exists d2, (Some (new_bucket ty d2 key)), None. rewrite <- (Q eq_refl). done.
Qed.

Lemma insert_at_bucket d k key : dict_ok ty d → is_Some (ht_table (ht0 d)) → room d →
  keyFromStoredKey ty k = key → dict_map ty d !! key = None →
  ∃ d', dictInsertKeyAtLink ty d k (new_bucket ty d key) = Ok (d', new_bucket ty d key) ∧
    becomes d (<[key := (k, None)]> (dict_map ty d)) d' ∧ located ty d' key (new_bucket ty d key) (k, None).
Proof.
  intros D A R Ek N. destruct (dictInsertKeyAtLink_ok ty d k key D A Ek) as (d2 & -> & D2 & I2 & P2 & L2).
  { by apply items_map_None in N. } { by apply room_items. }
  exists d2. split; [done|]. split; [|done]. constructor; [done| |done]. unfold dict_map.
  rewrite (items_map_perm ty (dict_items d2) ((k, None) :: dict_items d)) by (by try apply D2).
  rewrite items_map_cons. unfold item_key at 1. cbn. by rewrite Ek.
Qed.

Lemma dictAddRaw_ok can d k key : dict_ok ty d → can_insert d → room d → keyFromStoredKey ty k = key →
  ∃ d' en ex, dictAddRaw ty can d k = Ok (d', en, ex) ∧
    match dict_map ty d !! key with
    | Some x => en = None ∧ becomes d (dict_map ty d) d' ∧ ∃ l, ex = Some l ∧ located ty d' key l x
    | None => becomes d (<[key := (k, None)]> (dict_map ty d)) d' ∧
        ∃ l, en = Some l ∧ located ty d' key l (k, None)
    end.
Proof.
  intros D A R Ek. unfold dictAddRaw. rewrite Ek.
  destruct (dictFindLinkForInsert_ok can d key D A) as (d1 & b & e & -> & S & A1 & Q). rs.
  destruct e as [l|]; destruct Q as [-> Q].
  - destruct Q as (x & E & L). exists d1, None, (Some l). rewrite E. split; [done|]. split; [done|].
    split; [by apply stays_becomes|by exists l].
  - pose proof (st_ok _ _ _ S) as D1.
    assert (dict_map ty d1 !! key = None) as N1 by (by rewrite (stays_map ty d d1 D S)).
    destruct (insert_at_bucket d1 k key D1 A1) as (d2 & -> & B & L2); [|done..|].
    { unfold room. by rewrite (stays_map ty d d1 D S). }
    rs. exists d2, (Some (new_bucket ty d1 key)), None. rewrite Q. split; [done|]. split; [|by eexists].
    rewrite (stays_map ty d d1 D S) in B. eapply becomes_trans; [by apply stays_becomes|done].
Qed.

(** ** Writing through a link *)

Lemma items_map_head x x' l : items_ok ty (x :: l) → item_key ty x' = item_key ty x →
  items_ok ty (x' :: l) ∧ items_map ty (x' :: l) = <[item_key ty x := x']> (items_map ty (x :: l)).
Proof.
  intros [N B] E. split.
  - split; [|done]. cbn in *. by rewrite E.
  - rewrite !items_map_cons, E. by rewrite insert_insert_eq.
Qed.

(** The entry is replaced by one of the same key. *)
Lemma link_replace d key l x : dict_ok ty d → located ty d key l x →
  ∃ e tl, link_get d l = Ok e ∧ shape ty e ∧ chain e = x :: tl ∧
    ∀ e' x', shape ty e' → chain e' = x' :: tl → item_key ty x' = key →
      ∃ d', link_set d l e' = Ok d' ∧ becomes d (<[key := x']> (dict_map ty d)) d'.
Proof.
  intros D L. destruct (link_update ty d key l x D L) as (e & tl & rest & G & Sh & C & I & P & Up).
  exists e, tl. split_and!; try done. intros e' x' Sh' C' Ek'. pose proof L as (U & Ei & Ek & _).
  destruct (Up e' Sh') as (t' & Es & Ut & Et & Q).
  { unfold placed. rewrite C'. constructor; [|done]. by rewrite Ek'. }
  pose proof D as (_ & B & _). rewrite I in B. cbn [app] in B.
  destruct (items_map_head x x' (tl ++ rest) B) as [B' M']; [congruence|].
  destruct (Q (ht_used (ht d (l_table l)))) as [D' I']; [rewrite C'; cbn; lia|by rewrite C'|].
  exists (set_ht d (l_table l) t'). split; [done|]. rewrite (table_eq t' (HT (ht_table t') (ht_used (ht d (l_table l))) (ht_size_exp (ht d (l_table l))))) by done.
  constructor; [done| |split; apply set_ht_pause].
  unfold dict_map. rewrite (items_map_perm ty _ (x' :: tl ++ rest)); [|apply D'|by rewrite I', C'].
  rewrite M', Ek. f_equal. symmetry. by apply items_map_perm; [apply D|].
Qed.

(** The entry is unlinked and the table counts it out. *)
Lemma link_remove d key l x : dict_ok ty d → located ty d key l x →
  ∃ e tl d', link_get d l = Ok e ∧ chain e = x :: tl ∧
    link_set d l (dictGetNext e) = Ok d' ∧
    becomes d (delete key (dict_map ty d))
      (set_ht d' (l_table l) (set_used (ht d' (l_table l)) (ht_used (ht d' (l_table l)) - 1))).
Proof.
  intros D L. destruct (link_update ty d key l x D L) as (e & tl & rest & G & Sh & C & I & P & Up).
  pose proof L as (U & Ei & Ek & _).
  assert (shape ty (dictGetNext e) ∧ chain (dictGetNext e) = tl) as [Sn Cn].
  { destruct e; cbn in *; simplify_eq; naive_solver. }
  destruct (Up (dictGetNext e) Sn) as (t' & Es & Ut & Et & Q); [unfold placed; by rewrite Cn|].
  exists e, tl, (set_ht d (l_table l) t'). split_and!; try done.
  rewrite ht_set_ht, set_ht_set_ht by (by eapply in_use_01).
  pose proof D as (_ & B & _). rewrite I in B. cbn [app] in B.
  assert (items_ok ty (tl ++ rest)) as B'.
  { destruct B as [N Ln]. cbn in *. apply NoDup_cons in N as [_ N]. split; [done|lia]. }
  assert (1 ≤ ht_used (ht d (l_table l)) ≤ UINT64_MAX) as Ur.
  { destruct (items_used ty d _ (proj1 U)) as [-> Hl]. destruct D as (_ & [_ Bd] & _).
    apply located_items in L. apply list_elem_of_lookup_1 in L as (n & L%lookup_lt_Some). lia. }
  destruct (Q (ht_used (ht d (l_table l)) - 1)) as [D' I']; [rewrite Cn; cbn; lia|by rewrite Cn|].
  unfold set_used. rewrite Ut, Et, u64_small by lia.
  constructor; [done| |split; apply set_ht_pause].
  unfold dict_map. rewrite (items_map_perm ty _ (tl ++ rest)); [|apply D'|by rewrite I', Cn].
  rewrite (items_map_delete ty x), Ek by done. f_equal. symmetry. by apply items_map_perm; [apply D|].
Qed.

(** ** Values *)

Lemma dictSetVal_ok d key l k v0 v : dict_ok ty d → located ty d key l (k, v0) → no_value ty = false →
  ∃ d', dictSetVal ty d l v = Ok d' ∧ becomes d (<[key := (k, Some v)]> (dict_map ty d)) d'.
Proof.
  intros D L Nv. destruct (link_replace d key l _ D L) as (e & tl & G & Sh & C & Up).
  unfold dictSetVal. rewrite G, Nv. rs. destruct e as [|k'|k' v' next]; cbn in *; [done|congruence|].
  injection C as -> -> <-. apply Up; [split; [congruence|apply Sh]|done|]. by destruct L as (_ & _ & ? & _).
Qed.

Lemma dictAdd_ok can d k v key : dict_ok ty d → can_insert d → room d → keyFromStoredKey ty k = key →
  ∃ d' r, dictAdd ty can d k v = Ok (d', r) ∧
    match dict_map ty d !! key with
    | Some _ => r = DICT_ERR ∧ becomes d (dict_map ty d) d'
    | None => r = DICT_OK ∧
        becomes d (<[key := (k, if no_value ty then None else Some v)]> (dict_map ty d)) d'
    end.
Proof.
  intros D A R Ek. unfold dictAdd. destruct (dictAddRaw_ok can d k key D A R Ek) as (d1 & en & ex & -> & Q). rs.
  destruct (dict_map ty d !! key) as [x|].
  - destruct Q as (-> & B & _). by exists d1, DICT_ERR.
  - destruct Q as (B & l & -> & L). destruct (no_value ty) eqn:Nv; cbn [negb]; rs; [by exists d1, DICT_OK|].
    destruct (dictSetVal_ok d1 key l k None v (bc_ok _ _ _ B) L Nv) as (d2 & -> & B2). rs.
    exists d2, DICT_OK. split; [done|]. split; [done|]. rewrite (bc_map _ _ _ B), insert_insert_eq in B2.
    by eapply becomes_trans.
Qed.

(** The key of an entry that exists is kept. *)
Lemma dictReplace_ok can d k v key : dict_ok ty d → can_insert d → room d → keyFromStoredKey ty k = key →
  no_value ty = false → (∀ k0, dict_map ty d !! key ≠ Some (k0, None)) →
  ∃ d' r old, dictReplace ty can d k v = Ok (d', r, old) ∧
    match dict_map ty d !! key with
    | Some (k0, v0) => r = 0 ∧ old = v0 ∧ becomes d (<[key := (k0, Some v)]> (dict_map ty d)) d'
    | None => r = 1 ∧ old = None ∧ becomes d (<[key := (k, Some v)]> (dict_map ty d)) d'
    end.
Proof.
  intros D A R Ek Nv Vs. unfold dictReplace.
  destruct (dictAddRaw_ok can d k key D A R Ek) as (d1 & en & ex & -> & Q). rs.
  destruct (dict_map ty d !! key) as [[k0 [v0|]]|]; [|by destruct (Vs k0)|].
  - destruct Q as (-> & B & l & -> & L).
    destruct (located_get d1 key l _ (bc_ok _ _ _ B) L) as (e & tl & -> & Sh & C). rs.
    assert (dictGetVal e = Ok v0) as -> by (destruct e as [| |k' [v'|]]; cbn in *; by simplify_eq). rs.
    destruct (dictSetVal_ok d1 key l k0 _ v (bc_ok _ _ _ B) L Nv) as (d2 & -> & B2). rs.
    eexists d2, _, _. split; [done|]. do 2 (split; [done|]). rewrite (bc_map _ _ _ B) in B2. by eapply becomes_trans.
  - destruct Q as (B & l & -> & L).
    destruct (dictSetVal_ok d1 key l k None v (bc_ok _ _ _ B) L Nv) as (d2 & -> & B2). rs.
    eexists d2, _, _. split; [done|]. do 2 (split; [done|]). rewrite (bc_map _ _ _ B), insert_insert_eq in B2.
    by eapply becomes_trans.
Qed.

Lemma dictAddOrFind_ok can d k key : dict_ok ty d → can_insert d → room d → keyFromStoredKey ty k = key →
  ∃ d' l x, dictAddOrFind ty can d k = Ok (d', Some l) ∧ located ty d' key l x ∧
    x = default (k, None) (dict_map ty d !! key) ∧ becomes d (<[key := x]> (dict_map ty d)) d'.
Proof.
  intros D A R Ek. unfold dictAddOrFind.
  destruct (dictAddRaw_ok can d k key D A R Ek) as (d1 & en & ex & -> & Q). rs.
  destruct (dict_map ty d !! key) as [x|] eqn:E; cbn.
  - destruct Q as (-> & B & l & -> & L). exists d1, l, x. split_and!; try done. by rewrite insert_id.
  - destruct Q as (B & l & -> & L). by exists d1, l, (k, None).
Qed.

(** ** Removal *)

Lemma dictGenericDelete_ok can d key : dict_ok ty d →
  ∃ d' he, dictGenericDelete ty can d key = Ok (d', he) ∧ becomes d (delete key (dict_map ty d)) d' ∧
    dict_map ty d !! key = he ≫= (head ∘ chain) ∧ (he = None ↔ dict_map ty d !! key = None).
Proof.
  intros D. unfold dictGenericDelete. destruct (Z.eqb_spec (dictSize d) 0) as [E|E].
  { assert (dict_map ty d = ∅) as Em by (unfold dict_map; by rewrite (dictSize_zero ty d D E)).
    exists d, None. rewrite Em, lookup_empty, delete_empty. split; [done|]. split; [|done].
    rewrite <- Em. by apply becomes_refl. }
  pose proof (dictSize_alloc ty d D E) as A.
  destruct (_dictRehashStepIfNeeded_ok ty can d (bucket_index d (dictGetHash ty key) 0) D) as (d1 & -> & S1).
  { intros Hr. destruct (bucket_index_first ty d key D) as [_ Q]. destruct (Q Hr) as [-> R]. done. }
  rs. pose proof (stp_stays _ _ _ S1) as S. pose proof (st_ok _ _ _ S) as D1.
  destruct (table_loop_ok ty d1 key (bucket_index d (dictGetHash ty key) 0) D1) as (r & i & -> & F & _).
  { by apply (st_alloc _ _ _ S). } { by apply stale_steps. }
  rs. pose proof (found_map ty d1 key r D1 F) as M. rewrite (stays_map ty d d1 D S) in M.
  pose proof (stays_becomes d d1 D S) as B1. destruct r as [l|].
  - destruct M as (x & Ex & L). destruct (link_remove d1 key l x D1 L) as (e & tl & d2 & -> & C & Es & B2). rs.
    rewrite Es. rs. destruct (_dictShrinkIfNeeded_ok ty can _ (bc_ok _ _ _ B2)) as (d3 & -> & S3). rs.
    exists d3, (Some e). rewrite Ex. cbn. rewrite C. split; [done|]. split; [|done].
    eapply becomes_trans; [exact B1|]. eapply becomes_trans; [exact B2|]. rewrite <- (bc_map _ _ _ B1), <- (bc_map _ _ _ B2).
    apply stays_becomes; [apply B2|apply S3].
  - exists d1, None. rewrite M. rewrite delete_id by done. done.
Qed.
End spec.
