(* ===== verification/DictLink.v ===== *)
(** The operations of [dict.c] in two phases: [dictFindLink] and
    [dictSetKeyAtLink], [dictTwoPhaseUnlinkFind] and [dictTwoPhaseUnlinkFree]; and
    emptying a dictionary. *)

From S2P Require Import Prelude Dict DictApi DictRep DictResize DictFind DictOps DictSpec.

Section link.
Context {K SK V : Type} `{Countable K} (ty : dictType K SK) `{!DictLaws ty}.
Implicit Types (d : dict SK V) (de : dictEntry SK V) (key : K) (x : SK * option V) (can : dictResizeEnable).

(** ** Adding at a bucket *)

(** The bucket a caller passes, as [dictFindLink] returns it *)
Definition bucket_for d key (b : option dictEntryLink) : Prop :=
  match b with Some b => b = new_bucket ty d key ∧ is_Some (ht_table (ht0 d)) | None => True end.

(** The bucket is searched again if the tables changed. *)
Lemma dictSetKeyAtLink_new can d k key b : dict_ok ty d → room ty d → bucket_for d key b →
  keyFromStoredKey ty k = key → dict_map ty d !! key = None →
  ∃ d' l, dictSetKeyAtLink ty can d k b true = Ok (d', Some l) ∧
    becomes ty d (<[key := (k, None)]> (dict_map ty d)) d' ∧ located ty d' key l (k, None).
Proof.
  intros D R Hb Ek N. unfold dictSetKeyAtLink.
  destruct (dictExpandIfNeeded_ok ty can d D) as (d1 & r & -> & [S1 _ Sm] & A1). rs.
  pose proof (st_ok _ _ _ S1) as D1. rewrite Ek.
  assert (room ty d1) as R1 by (unfold room; by rewrite (stays_map ty d d1 D S1)).
  assert (∀ d2, steps ty d1 d2 → ∃ d' l,
    ('(d, _) ← dictInsertKeyAtLink ty d2 k (new_bucket ty d2 key); Ok (d, Some (new_bucket ty d2 key))) = Ok (d', Some l) ∧
    becomes ty d (<[key := (k, None)]> (dict_map ty d)) d' ∧ located ty d' key l (k, None)) as Ins.
  { intros d2 [S2 _ _ _]. pose proof (stays_trans ty _ _ _ S1 S2) as S. pose proof (stays_map ty d d2 D S) as M.
    destruct (insert_at_bucket ty d2 k key) as (d' & -> & B & L);
      [apply S|by apply (st_alloc _ _ _ S2)|unfold room; by rewrite M|done|by rewrite M|].
    rs. eexists _, _. split; [done|]. split; [|exact L]. eapply becomes_trans; [by apply stays_becomes|].
    by rewrite M in B. }
  destruct (dictFindLinkInternal_ok ty can d1 key true D1 (λ _, A1)) as (d2 & fo & bu & E2 & S2 & F2 & Q2).
  assert (fo = None) as ->.
  { destruct fo; [|done]. pose proof (found_map ty d2 key _ (st_ok _ _ _ (stp_stays _ _ _ S2)) F2) as (x & E & _).
    rewrite (stays_map ty d d2 D) in E by (eapply stays_trans; [exact S1|apply S2]). congruence. }
  rewrite (Q2 eq_refl eq_refl) in E2. specialize (Ins d2 S2) as I2. destruct b as [l|].
  - destruct Hb as [-> A]. destruct (negb (_ =? _) || negb (_ =? _)) eqn:Ex.
    + rewrite E2. rs. rewrite !assert_true by done. rs. exact I2.
    + apply orb_false_iff in Ex as [X0 X1]. rs. rewrite (Sm ltac:(lia) ltac:(lia)) in *.
      by apply (Ins d), steps_refl.
  - rewrite E2. rs. rewrite !assert_true by done. rs. exact I2.
Qed.

(** ** Replacing the stored key of an entry *)

Lemma dictSetKeyAtLink_set can d k key l x : dict_ok ty d → located ty d key l x →
  keyFromStoredKey ty k = key →
  ∃ d', dictSetKeyAtLink ty can d k (Some l) false = Ok (d', Some l) ∧
    becomes ty d (<[key := (k, x.2)]> (dict_map ty d)) d'.
Proof.
  intros D L Ek. unfold dictSetKeyAtLink. rs.
  destruct (link_replace ty d key l x D L) as (e & tl & -> & Sh & C & Up). rs.
  destruct e as [|k'|k' v' next]; cbn in C; [done|..]; injection C as <- <-.
  - destruct (Up (KeyEntry k) (k, None)) as (d' & -> & B); [done..|]. rs. by exists d'.
  - destruct (Up (Entry k v' next) (k, v')) as (d' & -> & B); [done..|]. rs. by exists d'.
Qed.

(** ** Unlinking in two phases *)

Lemma link_used d l n : l_table l = 0 ∨ l_table l = 1 →
  link_get (set_ht d (l_table l) (set_used (ht d (l_table l)) n)) l = link_get d l ∧
  ∀ e, link_set (set_ht d (l_table l) (set_used (ht d (l_table l)) n)) l e =
    d' ← link_set d l e; Ok (set_ht d' (l_table l) (set_used (ht d' (l_table l)) n)).
Proof.
  intros T. unfold link_get, link_set. rewrite ht_set_ht by done. unfold set_used, get_bucket. cbn [ht_table].
  split; [done|]. intros e. destruct (ht_table (ht d (l_table l))) as [bs|] eqn:Eb; [|done]. case_match; [done|].
  case_match; [|done]. rs. destruct (entry_set _ _ _); rs; [|done]. unfold set_bucket. cbn [ht_table]. rewrite Eb.
  case_match; rs; [done|]. rewrite ht_set_ht, !set_ht_set_ht by done. done.
Qed.

Lemma dictTwoPhaseUnlinkFind_ok can d key : dict_ok ty d →
  ∃ d' r, dictTwoPhaseUnlinkFind ty can d key = Ok (d', r) ∧ dict_ok ty d' ∧ dict_map ty d' = dict_map ty d ∧
    pauseAutoResize d' = pauseAutoResize d ∧
    match r with
    | Some l => pauserehash d' = u32 (pauserehash d + 1) ∧
        ∃ x, dict_map ty d !! key = Some x ∧ located ty d' key l x
    | None => pauserehash d' = pauserehash d ∧ dict_map ty d !! key = None
    end.
Proof.
  intros D. unfold dictTwoPhaseUnlinkFind. destruct (Z.eqb_spec (dictSize d) 0) as [E|E].
  { exists d, None. split_and!; try done. unfold dict_map. by rewrite (dictSize_zero ty d D E). }
  assert (∃ d1, (if dictIsRehashing d then _dictRehashStep ty can d else Ok d) = Ok d1 ∧ steps ty d d1) as (d1 & -> & S).
  { destruct (dictIsRehashing d); [by apply _dictRehashStep_ok|]. exists d. split; [done|by apply steps_refl]. }
  rs. destruct S as [S _ _ _]. pose proof (st_ok _ _ _ S) as D1. pose proof (stays_map ty d d1 D S) as M.
  destruct (unlink_loop_ok ty d1 key D1) as (r & -> & F); [apply (st_alloc _ _ _ S), (dictSize_alloc ty); done|]. rs.
  pose proof (found_map ty d1 key r D1 F) as Q. rewrite M in Q. destruct r as [l|].
  - exists (dictPauseRehashing d1), (Some l). split; [done|]. split; [|split; [exact M|]].
    + apply dict_ok_pause; [done|]. pose proof (wrapu_range 32 (pauserehash d1 + 1)). lia.
    + split; [apply (st_auto _ _ _ S)|]. cbn. by rewrite (st_pause _ _ _ S).
  - exists d1, None. split_and!; try done; apply S.
Qed.

Lemma dictTwoPhaseUnlinkFree_ok can d key l x : dict_ok ty d → located ty d key l x →
  ∃ d', dictTwoPhaseUnlinkFree ty can d (Some l) (l_table l) = Ok d' ∧ dict_ok ty d' ∧
    dict_map ty d' = delete key (dict_map ty d) ∧ pauserehash d' = u32 (pauserehash d - 1) ∧
    pauseAutoResize d' = pauseAutoResize d.
Proof.
  intros D L. unfold dictTwoPhaseUnlinkFree.
  destruct (link_remove ty d key l x D L) as (e & tl & d1 & -> & C & Es & B). rs.
  assert (is_null e = false) as -> by (by destruct e).
  pose proof (proj1 L) as U. apply in_use_01 in U as T.
  destruct (link_used d l (ht_used (ht d (l_table l)) - 1) T) as [_ ->]. rewrite Es. rs.
  assert (ht_used (ht d1 (l_table l)) = ht_used (ht d (l_table l))) as <-.
  { unfold link_set in Es. inv_res. subst d1. rewrite ht_set_ht by done.
    unfold set_bucket in Ha1. by repeat case_match; simplify_eq. }
  destruct (_dictShrinkIfNeeded_ok ty can _ (bc_ok _ _ _ _ B)) as (d3 & -> & [S3 _ _]). rs.
  exists (dictResumeRehashing d3). split; [done|]. destruct B as [D2 M [P1 P2]]. split; [|split; [|split]].
  - apply dict_ok_pause; [apply S3|]. pose proof (wrapu_range 32 (pauserehash d3 - 1)). lia.
  - trans (dict_map ty d3); [done|]. by rewrite (stays_map ty _ d3 D2 S3).
  - cbn. by rewrite (st_pause _ _ _ S3), P1.
  - cbn. by rewrite (st_auto _ _ _ S3), P2.
Qed.

(** ** Emptying *)

Lemma clear_chain_ok de used : zlen (chain de) ≤ used ≤ UINT64_MAX →
  clear_chain used de = (used - zlen (chain de), (chain de).*1).
Proof.
  revert used. induction de as [|k|k v next IH]; intros used Hu; cbn in *.
  - by rewrite Z.sub_0_r.
  - by rewrite u64_small by lia.
  - rewrite u64_small by lia. rewrite IH by lia. f_equal. lia.
Qed.

(** The loop stops early when the counter says that no entry is left. *)
Lemma clear_loop_ok (t : htable SK V) n i : zlen (buckets t) = i + Z.of_nat n → 0 ≤ i →
  zlen (drop (Z.to_nat i) (buckets t) ≫= chain) ≤ UINT64_MAX →
  clear_loop n t i (zlen (drop (Z.to_nat i) (buckets t) ≫= chain)) =
  Ok ((drop (Z.to_nat i) (buckets t) ≫= chain).*1).
Proof.
  revert i. induction n as [|n IH]; intros i Hl Hi Hb; cbn [clear_loop].
  { by rewrite drop_ge by lia. }
  destruct (Z.gtb_spec (zlen (drop (Z.to_nat i) (buckets t) ≫= chain)) 0) as [Hp|Hp]; cbn [negb].
  - destruct (lookup_lt_is_Some_2 (buckets t) (Z.to_nat i)) as [de L]; [lia|].
    pose proof (get_bucket_lookup t _ _ L) as G. rewrite Z2Nat.id in G by lia. rewrite G. rs.
    rewrite (drop_S _ _ _ L) in *. cbn [mbind list_bind] in *. rewrite length_app in *.
    rewrite clear_chain_ok by lia.
    replace (S (Z.to_nat i)) with (Z.to_nat (i + 1)) in * by lia.
    replace (Z.of_nat (length (chain de) + length (drop (Z.to_nat (i + 1)) (buckets t) ≫= chain)) - zlen (chain de))
      with (zlen (drop (Z.to_nat (i + 1)) (buckets t) ≫= chain)) by lia.
    rewrite IH by lia. rs. by rewrite fmap_app.
  - by rewrite (nil_length_inv (drop (Z.to_nat i) (buckets t) ≫= chain)) by lia.
Qed.

Lemma _dictClear_ok d tb : ht d tb = _dictReset ∨ table_ok ty (ht d tb) → zlen (items (ht d tb)) ≤ UINT64_MAX →
  _dictClear d tb = Ok (set_ht d tb _dictReset, (items (ht d tb)).*1).
Proof.
  intros [E|T] B; unfold _dictClear; [by rewrite E|].
  rewrite DICTHT_SIZE_pow by (pose proof (tok_exp _ _ T); lia). pose proof (size_bound _ (tok_exp _ _ T)).
  rewrite (tok_used _ _ T). unfold items in *. rewrite <- (drop_0 (buckets (ht d tb))) in *.
  change 0%nat with (Z.to_nat 0) in *.
  rewrite clear_loop_ok; [done| |lia|done]. rewrite drop_0 in *. rewrite (tok_len _ _ T). lia.
Qed.

(** Every key is freed exactly once. *)
Lemma dictEmpty_ok d : dict_ok ty d →
  ∃ freed, dictEmpty d = Ok (dictCreate, freed) ∧ freed = (dict_items d).*1.
Proof.
  intros (T & [_ B] & _). unfold dictEmpty. unfold dict_items in *. rewrite length_app in B.
  assert ((ht d 0 = _dictReset ∨ table_ok ty (ht d 0)) ∧ (ht d 1 = _dictReset ∨ table_ok ty (ht d 1))) as [T0 T1].
  { destruct T as [(_ & E1 & T0)|[]]; split; auto. }
  rewrite (_dictClear_ok d 0) by (try done; cbn; lia). rs.
  rewrite (_dictClear_ok (set_ht d 0 _dictReset) 1) by (try done; cbn; lia). rs.
  eexists. split; [done|]. by rewrite fmap_app.
Qed.
End link.
