(* ===== verification/DictScan.v ===== *)
(** Iterating over a dictionary of [dict.c]: [dictScan], with its cursor of reversed
    bits, the iterators of [dictNext], and the statistics of a table.

    The function that [dictScan] calls is one that does not change the dictionary:
    the model returns the entries it is called with.  Defragmentation, which
    reallocates entries, is not modelled, nor is the fingerprint of an iterator that
    is not safe, which is made from the addresses of the tables. *)

From S2P Require Import Prelude Dict.

(** ** Reversing bits *)

(** [~x] of 64 bits *)
Definition not64 (x : Z) : Z := Z.lxor x UINT64_MAX.

Definition rev_step (s mask v : Z) : Z :=
  Z.lor (Z.land (Z.shiftr v s) mask) (Z.land (u64 (Z.shiftl v s)) (not64 mask)).

(** The loop ends in 7 rounds as [s] starts at 64. *)
Fixpoint rev_loop (fuel : nat) (s mask v : Z) : Z :=
  match fuel with
  | O => v
  | S fuel =>
      let s := Z.shiftr s 1 in
      if s >? 0 then
        let mask := Z.lxor mask (u64 (Z.shiftl mask s)) in
        rev_loop fuel s mask (rev_step s mask v)
      else v
  end.

Definition rev (v : Z) : Z := rev_loop 7 64 UINT64_MAX v.

(** Set the unmasked bits and increment the reversed cursor. *)
Definition next_cursor (m v : Z) : Z := rev (u64 (rev (Z.lor v (not64 m)) + 1)).

Section model.
Context {SK V : Type}.
Implicit Types (d : dict SK V) (de : dictEntry SK V).

(** ** [dictScan] *)

(** The entries of a bucket, in the order in which the function is called with them *)
Fixpoint dictScanDefragBucket de : list (dictEntry SK V) :=
  match de with
  | NullEntry => []
  | KeyEntry _ => [de]
  | Entry _ _ next => de :: dictScanDefragBucket next
  end.

(** The expansions of the cursor in the larger table *)
Fixpoint scan_loop (fuel : nat) (t1 : htable SK V) (m0 m1 v : Z) : res (Z * list (dictEntry SK V)) :=
  match fuel with
  | O => Fault OutOfFuel
  | S fuel =>
      b ← get_bucket t1 (Z.land v m1);
      let v := next_cursor m1 v in
      if negb (Z.land v (Z.lxor m0 m1) =? 0) then
        '(v, l) ← scan_loop fuel t1 m0 m1 v;
        Ok (v, dictScanDefragBucket b ++ l)
      else Ok (v, dictScanDefragBucket b)
  end.

Definition dictScan d (v : Z) : res (dict SK V * Z * list (dictEntry SK V)) :=
  if dictSize d =? 0 then Ok (d, 0, []) else
  let d := dictPauseRehashing d in
  if negb (dictIsRehashing d) then
    let m0 := DICTHT_SIZE_MASK (ht_size_exp (ht0 d)) in
    b ← get_bucket (ht0 d) (Z.land v m0);
    Ok (dictResumeRehashing d, next_cursor m0 v, dictScanDefragBucket b)
  else
    let '(t0, t1) :=
      if DICTHT_SIZE (ht_size_exp (ht0 d)) >? DICTHT_SIZE (ht_size_exp (ht1 d))
      then (ht1 d, ht0 d) else (ht0 d, ht1 d) in
    let m0 := DICTHT_SIZE_MASK (ht_size_exp t0) in
    let m1 := DICTHT_SIZE_MASK (ht_size_exp t1) in
    b ← get_bucket t0 (Z.land v m0);
    '(v, l) ← scan_loop (Z.to_nat (DICTHT_SIZE (ht_size_exp t1))) t1 m0 m1 v;
    Ok (dictResumeRehashing d, v, dictScanDefragBucket b ++ l).

(** ** Iterators *)

Record dictIterator := Iter {
  it_index : Z;
  it_table : Z;
  it_safe : bool;
  it_entry : dictEntry SK V;
  it_nextEntry : dictEntry SK V }.

Definition dictInitIterator : dictIterator := Iter (-1) 0 false NullEntry NullEntry.
Definition dictInitSafeIterator : dictIterator := Iter (-1) 0 true NullEntry NullEntry.

Definition dictResetIterator (it : dictIterator) d : dict SK V :=
  if negb ((it_index it =? -1) && (it_table it =? 0)) && it_safe it then dictResumeRehashing d else d.

(** The step to the bucket [index], or to the second table, or to the end; [next]
    continues if the bucket is empty. *)
Definition next_bucket (next : dictIterator → dict SK V → res (dictIterator * dict SK V * dictEntry SK V))
    (it : dictIterator) d (index : Z) : res (dictIterator * dict SK V * dictEntry SK V) :=
  let past := index >=? s64 (DICTHT_SIZE (ht_size_exp (ht d (it_table it)))) in
  if past && negb (dictIsRehashing d && (it_table it =? 0))
  then Ok (Iter index (it_table it) (it_safe it) (it_entry it) (it_nextEntry it), d, NullEntry)
  else
    let table := if past then it_table it + 1 else it_table it in
    let index := if past then 0 else index in
    entry ← get_bucket (ht d table) index;
    if is_null entry then next (Iter index table (it_safe it) entry (it_nextEntry it)) d
    else Ok (Iter index table (it_safe it) entry (dictGetNext entry), d, entry).

(** The result is a null entry at the end. *)
Fixpoint next_loop (fuel : nat) (it : dictIterator) d : res (dictIterator * dict SK V * dictEntry SK V) :=
  match fuel with
  | O => Fault OutOfFuel
  | S fuel =>
      if is_null (it_entry it) then
        let first := (it_index it =? -1) && (it_table it =? 0) in
        let d := if first && it_safe it then dictPauseRehashing d else d in
        let index := if first && dictIsRehashing d then rehashidx d - 1 else it_index it in
        next_bucket (next_loop fuel) it d (index + 1)
      else
        let entry := it_nextEntry it in
        if is_null entry
        then next_loop fuel (Iter (it_index it) (it_table it) (it_safe it) entry (it_nextEntry it)) d
        else Ok (Iter (it_index it) (it_table it) (it_safe it) entry (dictGetNext entry), d, entry)
  end.

(** Each round but the first takes a new bucket. *)
Definition dictNext (it : dictIterator) d : res (dictIterator * dict SK V * dictEntry SK V) :=
  next_loop (S (S (length (default [] (ht_table (ht0 d))) + length (default [] (ht_table (ht1 d)))))) it d.

(** ** Statistics *)

Definition DICT_STATS_VECTLEN : nat := 50.

Record dictStats := Stats {
  st_htidx : Z;
  st_buckets : Z;
  st_maxChainLen : Z;
  st_totalChainLen : Z;
  st_htSize : Z;
  st_htUsed : Z;
  st_clvector : list Z }.

Fixpoint chain_len de : Z :=
  match de with
  | NullEntry => 0
  | KeyEntry _ => 1
  | Entry _ _ next => 1 + chain_len next
  end.

Definition bump (l : list Z) (i : nat) : list Z := alter (λ n, u64 (n + 1)) i l.

(** The loop over the buckets from [i] on *)
Fixpoint stats_loop (n : nat) (t : htable SK V) (i : Z) (s : dictStats) : res dictStats :=
  match n with
  | O => Ok s
  | S n =>
      he ← get_bucket t i;
      let s :=
        if is_null he then
          Stats (st_htidx s) (st_buckets s) (st_maxChainLen s) (st_totalChainLen s) (st_htSize s) (st_htUsed s)
            (bump (st_clvector s) 0)
        else
          let chainlen := chain_len he in
          Stats (st_htidx s) (u64 (st_buckets s + 1))
            (if chainlen >? st_maxChainLen s then chainlen else st_maxChainLen s)
            (u64 (st_totalChainLen s + chainlen)) (st_htSize s) (st_htUsed s)
            (bump (st_clvector s)
               (if chainlen <? Z.of_nat DICT_STATS_VECTLEN then Z.to_nat chainlen else (DICT_STATS_VECTLEN - 1)%nat)) in
      stats_loop n t (i + 1) s
  end.

Definition dictGetStatsHt d (htidx : Z) (full : bool) : res dictStats :=
  let t := ht d htidx in
  let s := Stats htidx 0 0 0 (DICTHT_SIZE (ht_size_exp t)) (ht_used t) (replicate DICT_STATS_VECTLEN 0) in
  if negb full then Ok s else stats_loop (Z.to_nat (DICTHT_SIZE (ht_size_exp t))) t 0 s.

Definition dictCombineStats (from into : dictStats) : dictStats :=
  Stats (st_htidx into) (u64 (st_buckets into + st_buckets from))
    (if st_maxChainLen from >? st_maxChainLen into then st_maxChainLen from else st_maxChainLen into)
    (u64 (st_totalChainLen into + st_totalChainLen from)) (u64 (st_htSize into + st_htSize from))
    (u64 (st_htUsed into + st_htUsed from))
    (zip_with (λ a b, u64 (a + b)) (st_clvector into) (st_clvector from)).
End model.
