(* ===== verification/DictScanSpec.v ===== *)
(** What [dictScan] guarantees.  Order the keys by the reversed bits of their hash.
    A call with a cursor returns every entry between the reversed cursor and the
    next one, whatever the sizes of the tables are; so a sequence of calls from 0 to 0
    returns every key that is present during all of it, while the dictionary grows,
    shrinks and is rehashed between the calls. *)

From S2P Require Import Prelude Dict DictApi DictRep DictResize DictFind DictOps.
From S2P Require Import DictScan.

(** ** The cursor

    [rev] reverses the bits of a 64 bit number, and the cursor, reversed, goes from each
    multiple of the size of a bucket to the next. *)

Lemma testbit_not64 m i : 0 ≤ i < 64 → Z.testbit (not64 m) i = negb (Z.testbit m i).
Proof.
  intros Hi. unfold not64. rewrite Z.lxor_spec. change UINT64_MAX with (Z.ones 64).
  rewrite Z.ones_spec_low by lia. by destruct (Z.testbit m i).
Qed.

Lemma testbit_u64 v i : 0 ≤ i → Z.testbit (u64 v) i = (i <? 64) && Z.testbit v i.
Proof.
  intros Hi. unfold wrapu. destruct (Z.ltb_spec i 64); cbn [andb].
  - by rewrite Z.mod_pow2_bits_low by lia.
  - by rewrite Z.mod_pow2_bits_high by lia.
Qed.

(** The bit of [v] that a step moves to [i] *)
Definition bit_src (s mask i : Z) : Z := if Z.testbit mask i then i + s else i - s.

Lemma rev_step_bit s mask v i : 0 ≤ s → 0 ≤ i < 64 → 0 ≤ bit_src s mask i →
  Z.testbit (rev_step s mask v) i = Z.testbit v (bit_src s mask i).
Proof.
  intros Hs Hi Hb. unfold rev_step, bit_src in *. rewrite Z.lor_spec, !Z.land_spec, testbit_not64 by done.
  rewrite Z.shiftr_spec, testbit_u64 by lia. destruct (Z.ltb_spec i 64); [|lia].
  destruct (Z.testbit mask i); cbn [negb andb].
  - by rewrite andb_true_r, andb_false_r, orb_false_r.
  - rewrite andb_false_r, andb_true_r. cbn [orb]. by rewrite Z.shiftl_spec by lia.
Qed.

Lemma rev_step_range s mask v : 0 ≤ v → 0 ≤ s → 0 ≤ mask ≤ UINT64_MAX → 0 ≤ rev_step s mask v ≤ UINT64_MAX.
Proof.
  intros Hv Hs Hm. unfold rev_step.
  assert (0 ≤ not64 mask) by (unfold not64; apply Z.lxor_nonneg; lia).
  apply bits_range.
  - apply Z.lor_nonneg. split; apply Z.land_nonneg; [right; lia|by right].
  - intros i Hi. rewrite Z.lor_spec, !Z.land_spec, testbit_u64 by lia. rewrite (testbit_high mask) by lia.
    destruct (Z.ltb_spec i 64); [lia|]. cbn. by rewrite andb_false_r.
Qed.

(** The shifts and masks of the six rounds *)
Definition rev_rounds : list (Z * Z) :=
  [(32, 0xFFFFFFFF); (16, 0x0000FFFF0000FFFF); (8, 0x00FF00FF00FF00FF); (4, 0x0F0F0F0F0F0F0F0F);
   (2, 0x3333333333333333); (1, 0x5555555555555555)].

Lemma rev_rounds_ok v : rev v = fold_left (λ v r, rev_step r.1 r.2 v) rev_rounds v.
Proof. cbv -[rev_step]. reflexivity. Qed.

(** The bit of [v] at [i] after some rounds, if no source is negative *)
Fixpoint rounds_src (rs : list (Z * Z)) (i : Z) : option Z :=
  match rs with
  | [] => Some i
  | (s, mask) :: rs =>
      j ← rounds_src rs i;
      if (0 <=? j) && (j <? 64) && (0 <=? bit_src s mask j) then Some (bit_src s mask j) else None
  end.

Lemma rounds_bit rs v i j : Forall (λ r, 0 ≤ r.1) rs → rounds_src rs i = Some j →
  Z.testbit (fold_left (λ v r, rev_step r.1 r.2 v) rs v) i = Z.testbit v j.
Proof.
  revert v j. induction rs as [|[s m] rs IH]; intros v j F; cbn [rounds_src fold_left fst snd].
  - by intros [= ->].
  - apply Forall_cons in F as [Fs F]. cbn in Fs. destruct (rounds_src rs i) as [j'|]; [|done]. cbn.
    case_match eqn:Ec; [|done]. intros [= <-]. rewrite (IH _ j' F eq_refl). apply rev_step_bit; lia.
Qed.

Lemma rev_bit v i : 0 ≤ i < 64 → Z.testbit (rev v) i = Z.testbit v (63 - i).
Proof.
  intros Hi. rewrite rev_rounds_ok. apply rounds_bit.
  { by repeat constructor. }
  assert (∀ n, (n < 64)%nat → rounds_src rev_rounds (Z.of_nat n) = Some (63 - Z.of_nat n)) as Q.
  { intros n Hn. assert (Forall (λ n, rounds_src rev_rounds (Z.of_nat n) = Some (63 - Z.of_nat n)) (seq 0 64)) as F
      by (apply (bool_decide_unpack _); vm_compute; exact I).
    rewrite Forall_forall in F. apply F. apply elem_of_seq. lia. }
  specialize (Q (Z.to_nat i)). rewrite Z2Nat.id in Q by lia. apply Q. lia.
Qed.

Lemma rev_range v : 0 ≤ v → 0 ≤ rev v ≤ UINT64_MAX.
Proof.
  intros Hv. rewrite rev_rounds_ok. cbn [fold_left rev_rounds fst snd].
  repeat (apply rev_step_range; [|lia..]). done.
Qed.

Lemma rev_rev v : 0 ≤ v ≤ UINT64_MAX → rev (rev v) = v.
Proof.
  intros Hv. apply testbit_ext; [apply rev_range, rev_range; lia|done|]. intros i Hi.
  rewrite !rev_bit by lia. f_equal. lia.
Qed.

(** ** Prefixes of reversed numbers *)

(** Numbers that agree on their low [e] bits agree, reversed, on their high ones. *)
Lemma rev_prefix a b e : 0 ≤ a ≤ UINT64_MAX → 0 ≤ b ≤ UINT64_MAX → 0 ≤ e ≤ 64 →
  a mod 2 ^ e = b mod 2 ^ e ↔ rev a / 2 ^ (64 - e) = rev b / 2 ^ (64 - e).
Proof.
  intros Ha Hb He. rewrite <- !Z.shiftr_div_pow2 by lia. pose proof (rev_range a). pose proof (rev_range b). split; intros E.
  - apply Z.bits_inj'. intros i Hi. rewrite !Z.shiftr_spec by lia.
    destruct (decide (i + (64 - e) < 64)); [|by rewrite !testbit_high by lia].
    rewrite !rev_bit by lia. rewrite <- (Z.mod_pow2_bits_low a e), <- (Z.mod_pow2_bits_low b e) by lia. by rewrite E.
  - apply Z.bits_inj'. intros i Hi. destruct (decide (i < e)); [|by rewrite !Z.mod_pow2_bits_high by lia].
    rewrite !Z.mod_pow2_bits_low by lia.
    replace i with (63 - (63 - i)) by lia. rewrite <- (rev_bit a), <- (rev_bit b) by lia.
    replace (63 - i) with ((e - 1 - i) + (64 - e)) by lia. rewrite <- !Z.shiftr_spec by lia. by rewrite E.
Qed.

Lemma not64_mask e i : 0 ≤ e ≤ 64 → 0 ≤ i < 64 → Z.testbit (not64 (2 ^ e - 1)) i = (e <=? i).
Proof.
  intros He Hi. rewrite testbit_not64 by done. rewrite Z.sub_1_r, <- Z.ones_equiv.
  destruct (Z.leb_spec e i); [rewrite Z.ones_spec_high by lia|rewrite Z.ones_spec_low by lia]; done.
Qed.

(** The cursor, reversed, goes to the next multiple. *)
Lemma next_cursor_rev e v : 0 ≤ v ≤ UINT64_MAX → 0 ≤ e ≤ 64 →
  0 ≤ next_cursor (2 ^ e - 1) v ≤ UINT64_MAX ∧
  rev (next_cursor (2 ^ e - 1) v) = u64 ((rev v / 2 ^ (64 - e) + 1) * 2 ^ (64 - e)).
Proof.
  intros Hv He. unfold next_cursor. set (w := rev (Z.lor v (not64 (2 ^ e - 1)))).
  pose proof (wrapu_range 64 (w + 1) ltac:(lia)) as Hw. split; [apply rev_range; lia|].
  rewrite rev_rev by lia. f_equal. set (p := 64 - e). pose proof (rev_range v) as Rv.
  assert (0 < 2 ^ p) by (apply Z.pow_pos_nonneg; lia).
  enough (w = rev v / 2 ^ p * 2 ^ p + Z.ones p) as ->; [rewrite Z.ones_equiv; lia|].
  assert (w = Z.lor (Z.shiftl (Z.shiftr (rev v) p) p) (Z.ones p)) as ->.
  { apply Z.bits_inj'. intros i Hi. rewrite Z.lor_spec, Z.shiftl_spec by lia.
    destruct (decide (i < 64)).
    - unfold w. rewrite rev_bit, Z.lor_spec, not64_mask by lia. destruct (decide (i < p)).
      + rewrite Z.ones_spec_low by lia. destruct (Z.leb_spec e (63 - i)); [|lia]. by rewrite !orb_true_r.
      + rewrite Z.ones_spec_high, Z.shiftr_spec by lia. destruct (Z.leb_spec e (63 - i)); [lia|].
        rewrite !orb_false_r. replace (i - p + p) with i by lia. by rewrite rev_bit by lia.
    - rewrite Z.ones_spec_high, Z.shiftr_spec by lia. replace (i - p + p) with i by lia.
      rewrite (testbit_high (rev v)), orb_false_r by lia. apply testbit_high; [|lia]. apply rev_range.
      apply Z.lor_nonneg. split; [lia|]. apply Z.lxor_nonneg. split; [lia|]. intros _.
      assert (0 < 2 ^ e) by (apply Z.pow_pos_nonneg; lia). lia. }
  rewrite <- Z.add_nocarry_lor.
  - rewrite Z.shiftl_mul_pow2, Z.shiftr_div_pow2 by lia. done.
  - apply Z.bits_inj'. intros i Hi. rewrite Z.land_spec, Z.shiftl_spec, Z.testbit_0_l by lia.
    destruct (decide (i < p)); [by rewrite Z.testbit_neg_r by lia|].
    rewrite Z.ones_spec_high by lia. apply andb_false_r.
Qed.

(** The test that ends the expansions of the cursor in the larger table *)
Lemma expansion_done e0 e1 v : 0 ≤ v ≤ UINT64_MAX → 0 ≤ e0 ≤ e1 → e1 ≤ 64 → rev v mod 2 ^ (64 - e1) = 0 →
  Z.land v (Z.lxor (2 ^ e0 - 1) (2 ^ e1 - 1)) = 0 ↔ rev v mod 2 ^ (64 - e0) = 0.
Proof.
  intros Hv He He1 Hm.
  assert (∀ i, 0 ≤ i < 64 → Z.testbit (Z.land v (Z.lxor (2 ^ e0 - 1) (2 ^ e1 - 1))) i =
    Z.testbit (rev v) (63 - i) && ((e0 <=? i) && (i <? e1))) as Q.
  { intros i Hi. rewrite Z.land_spec, Z.lxor_spec, !Z.sub_1_r, <- !Z.ones_equiv, rev_bit by lia.
    replace (63 - (63 - i)) with i by lia. f_equal.
    destruct (Z.leb_spec e0 i); [rewrite (Z.ones_spec_high e0) by lia|rewrite (Z.ones_spec_low e0) by lia];
    (destruct (Z.ltb_spec i e1); [rewrite Z.ones_spec_low by lia|rewrite Z.ones_spec_high by lia]); try done; lia. }
  split; intros E.
  - apply Z.bits_inj'. intros i Hi. rewrite Z.testbit_0_l.
    destruct (decide (i < 64 - e0)); [|by rewrite Z.mod_pow2_bits_high by lia].
    rewrite Z.mod_pow2_bits_low by lia. destruct (decide (i < 64 - e1)).
    + rewrite <- (Z.mod_pow2_bits_low _ (64 - e1)) by lia. by rewrite Hm, Z.testbit_0_l.
    + specialize (Q (63 - i) ltac:(lia)). rewrite E, Z.testbit_0_l in Q.
      replace (63 - (63 - i)) with i in Q by lia.
      destruct (Z.leb_spec e0 (63 - i)), (Z.ltb_spec (63 - i) e1); try lia; cbn in Q; by rewrite ?andb_true_r in Q.
  - apply Z.bits_inj'. intros i Hi. rewrite Z.testbit_0_l. destruct (decide (i < 64)).
    + rewrite Q by lia. destruct (Z.leb_spec e0 i), (Z.ltb_spec i e1); cbn [andb]; rewrite ?andb_false_r; try done.
      rewrite <- (Z.mod_pow2_bits_low (rev v) (64 - e0) (63 - i)) by lia. by rewrite E, Z.testbit_0_l.
    + by rewrite Z.land_spec, testbit_high by lia.
Qed.

#[global] Opaque rev.

(** ** Calls *)

Section scan.
Context {K SK V : Type} `{Countable K} (ty : dictType K SK) `{!DictLaws ty}.
Implicit Types (d : dict SK V) (de : dictEntry SK V) (t : htable SK V) (x : SK * option V).

Abbreviation item := (SK * option V)%type.
Abbreviation step e := (2 ^ (64 - e)).

(** The entries the function is called with *)
Definition scanned (l : list (dictEntry SK V)) : list item := omap (head ∘ chain) l.

Lemma scanned_bucket de : scanned (dictScanDefragBucket de) = chain de.
Proof. induction de as [|k|k v next IH]; cbn; [done..|]. by f_equal. Qed.

Lemma scanned_app l l' : scanned (l ++ l') = scanned l ++ scanned l'.
Proof. apply omap_app. Qed.

(** The place of an entry in the order of the scan *)
Definition scan_pos x : Z := rev (hashFunction ty (item_key ty x)).

Lemma scan_pos_range x : 0 ≤ scan_pos x ≤ UINT64_MAX.
Proof. apply rev_range. apply law_hash. Qed.

Lemma scan_bucket t v : table_ok ty t → 0 ≤ v ≤ UINT64_MAX →
  ∃ b, get_bucket t (Z.land v (DICTHT_SIZE_MASK (ht_size_exp t))) = Ok b ∧ (∀ x, x ∈ chain b → x ∈ items t) ∧
    ∀ x, x ∈ items t → scan_pos x / step (ht_size_exp t) = rev v / step (ht_size_exp t) → x ∈ chain b.
Proof.
  intros T Hv. pose proof (tok_exp _ _ T) as He. rewrite land_mask by done.
  destruct (bucket_lookup ty t _ T (mod_range v _ He)) as (b & L & G & _ & _). exists b. split; [done|].
  split; [intros x Hx; apply elem_of_items; eauto|].
  intros x (i & de & Li & Hx)%elem_of_items E. destruct (tok_bucket _ _ T _ _ Li) as [_ P].
  unfold scan_pos in E. rewrite <- rev_prefix in E by (try apply law_hash; lia).
  apply (proj1 (Forall_forall _ _) P) in Hx as Hm. cbn in Hm. rewrite E in Hm. rewrite Hm, Nat2Z.id in L. congruence.
Qed.

Lemma step_pos e : 2 ≤ e ≤ 60 → 0 < step e.
Proof. intros. apply Z.pow_pos_nonneg; lia. Qed.

(** The end of a multiple of [p] from [c] *)
Definition next_mult (c p : Z) : Z := (c / p + 1) * p.

Lemma next_mult_bounds c p : 0 < p → c < next_mult c p ≤ c + p.
Proof. intros. unfold next_mult. pose proof (Z.div_mod c p). pose proof (Z.mod_pos_bound c p). nia. Qed.

Lemma next_mult_cell c p y : 0 < p → c ≤ y < next_mult c p → y / p = c / p.
Proof.
  intros Hp Hy. unfold next_mult in Hy. pose proof (Z.div_mod c p). pose proof (Z.mod_pos_bound c p).
  symmetry. apply (Z.div_unique y p (c / p) (y - p * (c / p))); [|lia]. left. nia.
Qed.

(** A multiple of a multiple *)
Lemma next_mult_mono c p k : 0 < p → 0 < k → next_mult c p ≤ next_mult c (p * k).
Proof.
  intros Hp Hk. unfold next_mult. rewrite <- Z.div_div by lia.
  pose proof (Z.div_mod (c / p) k). pose proof (Z.mod_pos_bound (c / p) k). nia.
Qed.

Lemma next_mult_max c e : 0 ≤ c ≤ UINT64_MAX → 2 ≤ e ≤ 60 → next_mult c (step e) ≤ 2 ^ 64.
Proof.
  intros Hc He. pose proof (step_pos e He). unfold next_mult.
  assert (2 ^ 64 = step e * 2 ^ e) as E by (rewrite <- Z.pow_add_r by lia; f_equal; lia).
  assert (c / step e < 2 ^ e); [|nia]. apply Z.div_lt_upper_bound; lia.
Qed.

Lemma mask_pow e : 2 ≤ e ≤ 60 → DICTHT_SIZE_MASK e = 2 ^ e - 1.
Proof.
  intros He. pose proof (size_bound e He). unfold DICTHT_SIZE_MASK.
  destruct (Z.eqb_spec e (-1)); [lia|]. rewrite DICTHT_SIZE_pow by lia. by rewrite u64_small by lia.
Qed.

Lemma u64_mod_step m e : 2 ≤ e ≤ 60 → u64 m mod step e = m mod step e.
Proof.
  intros He. unfold wrapu. replace (2 ^ 64) with (step e * 2 ^ e) by (rewrite <- Z.pow_add_r by lia; f_equal; lia).
  pose proof (step_pos e He). assert (0 < 2 ^ e) by (apply Z.pow_pos_nonneg; lia).
  rewrite Z.rem_mul_r by lia. rewrite Z.mul_comm, Z_mod_plus_full. apply Z.mod_mod. lia.
Qed.

Lemma mod_next_mult c p : 0 < p → next_mult c p mod p = 0.
Proof. intros. unfold next_mult. apply Z.mod_mul. lia. Qed.

(** A multiple of [p * k] that [c] has passed, up to the end, is the end. *)
Lemma next_mult_end c p k m : 0 < p → 0 < k → c < m ≤ next_mult c (p * k) → m mod (p * k) = 0 → m = next_mult c (p * k).
Proof.
  intros Hp Hk Hm E. unfold next_mult in *. apply Z.div_exact in E; [|nia].
  pose proof (Z.div_mod c (p * k)). pose proof (Z.mod_pos_bound c (p * k)).
  assert (c / (p * k) < m / (p * k)); [|nia]. nia.
Qed.

(** ** The expansions of a cursor *)

Definition covers (l : list (dictEntry SK V)) (its : list item) (lo hi : Z) : Prop :=
  (∀ x, x ∈ scanned l → x ∈ its) ∧ ∀ x, x ∈ its → lo ≤ scan_pos x < hi → x ∈ scanned l.

Lemma covers_cell t v : table_ok ty t → 0 ≤ v ≤ UINT64_MAX →
  ∃ b, get_bucket t (Z.land v (DICTHT_SIZE_MASK (ht_size_exp t))) = Ok b ∧
    covers (dictScanDefragBucket b) (items t) (rev v) (next_mult (rev v) (step (ht_size_exp t))).
Proof.
  intros T Hv. destruct (scan_bucket t v T Hv) as (b & G & Sd & Cv). exists b. split; [done|].
  unfold covers. rewrite scanned_bucket. split; [done|]. intros x Hx Hp. apply Cv; [done|].
  apply next_mult_cell; [apply step_pos, T|done].
Qed.

Lemma covers_app l l' its lo mid hi :
  covers l its lo mid → covers l' its mid hi → covers (l ++ l') its lo hi.
Proof.
  intros [S1 C1] [S2 C2]. unfold covers. rewrite scanned_app. split.
  - intros x [?|?]%elem_of_app; auto.
  - intros x Hx Hp. apply elem_of_app. destruct (decide (scan_pos x < mid)); [left; apply C1|right; apply C2]; auto; lia.
Qed.

Lemma step_mult e0 e1 : 2 ≤ e0 ≤ e1 → e1 ≤ 60 → step e0 = step e1 * 2 ^ (e1 - e0) ∧ 0 < 2 ^ (e1 - e0).
Proof.
  intros. split; [|apply Z.pow_pos_nonneg; lia]. rewrite <- Z.pow_add_r by lia. f_equal. lia.
Qed.

(** One round, and whether it is the last one *)
Lemma expansion_round e0 e1 v : 2 ≤ e0 ≤ e1 → e1 ≤ 60 → 0 ≤ v ≤ UINT64_MAX →
  let v1 := next_cursor (2 ^ e1 - 1) v in
  let c1 := next_mult (rev v) (step e1) in
  0 ≤ v1 ≤ UINT64_MAX ∧ rev v1 = u64 c1 ∧
  (Z.land v1 (Z.lxor (2 ^ e0 - 1) (2 ^ e1 - 1)) = 0 → c1 = next_mult (rev v) (step e0)) ∧
  (Z.land v1 (Z.lxor (2 ^ e0 - 1) (2 ^ e1 - 1)) ≠ 0 →
   rev v1 = c1 ∧ c1 < next_mult (rev v) (step e0) ∧ next_mult c1 (step e0) = next_mult (rev v) (step e0)).
Proof.
  intros He He1 Hv v1 c1. destruct (next_cursor_rev e1 v Hv) as [R E]; [lia|]. fold v1 in R, E.
  change (rev v1 = u64 c1) in E. split; [done|]. split; [done|].
  destruct (step_mult e0 e1 He He1) as [Sm Kp]. pose proof (step_pos e1 ltac:(lia)) as P1.
  pose proof (step_pos e0 ltac:(lia)) as P0. pose proof (rev_range v ltac:(lia)) as Rv.
  pose proof (next_mult_bounds (rev v) (step e1) P1) as B1. fold c1 in B1.
  pose proof (next_mult_mono (rev v) _ _ P1 Kp) as Mo. rewrite <- Sm in Mo. fold c1 in Mo.
  pose proof (next_mult_max (rev v) e0 Rv ltac:(lia)) as Mx.
  assert (rev v1 mod step e1 = 0) as M1.
  { rewrite E, u64_mod_step by lia. by apply mod_next_mult. }
  rewrite (expansion_done e0 e1 v1 R ltac:(lia) ltac:(lia) M1), E, u64_mod_step by lia. split.
  - intros Z0. rewrite Sm in *. apply next_mult_end; try done. lia.
  - intros N0. assert (c1 ≠ next_mult (rev v) (step e0)) by (intros ->; by rewrite mod_next_mult in N0).
    split; [apply u64_small; lia|]. split; [lia|].
    unfold next_mult at 1. rewrite (next_mult_cell (rev v) (step e0) c1) by lia. done.
Qed.

Lemma mult_fuel (n : nat) a b c p : 0 < p → a mod p = 0 → b mod p = 0 → c < b → a - c ≤ Z.of_nat (S n) * p → a - b ≤ Z.of_nat n * p.
Proof.
  intros Hp Ha Hb Hc Hn. apply Z.div_exact in Ha; [|lia]. apply Z.div_exact in Hb; [|lia].
  revert Ha Hb. generalize (a / p) (b / p). intros x y -> ->. assert (x - y < Z.of_nat (S n)) by nia. nia.
Qed.

Lemma scan_loop_ok fuel t1 e0 v : table_ok ty t1 → 2 ≤ e0 ≤ ht_size_exp t1 → 0 ≤ v ≤ UINT64_MAX →
  next_mult (rev v) (step e0) - rev v ≤ Z.of_nat fuel * step (ht_size_exp t1) →
  ∃ v' l, scan_loop fuel t1 (DICTHT_SIZE_MASK e0) (DICTHT_SIZE_MASK (ht_size_exp t1)) v = Ok (v', l) ∧
    0 ≤ v' ≤ UINT64_MAX ∧ rev v' = u64 (next_mult (rev v) (step e0)) ∧
    covers l (items t1) (rev v) (next_mult (rev v) (step e0)).
Proof.
  intros T He. pose proof (tok_exp _ _ T) as He1. pose proof (step_pos e0 ltac:(lia)) as P0.
  pose proof (step_pos _ He1) as P1. destruct (step_mult e0 _ He ltac:(lia)) as [Sm Kp].
  revert v. induction fuel as [|fuel IH]; intros v Hv Hf.
  { pose proof (next_mult_bounds (rev v) (step e0) P0). lia. }
  cbn [scan_loop]. destruct (covers_cell t1 v T Hv) as (b & -> & C). rs. rewrite !mask_pow in * by lia.
  destruct (expansion_round e0 _ v He ltac:(lia) Hv) as (R1 & E1 & Dn & Go).
  destruct (Z.eqb_spec (Z.land (next_cursor (2 ^ ht_size_exp t1 - 1) v)
    (Z.lxor (2 ^ e0 - 1) (2 ^ ht_size_exp t1 - 1))) 0) as [Z0|N0]; cbn [negb].
  - rewrite (Dn Z0) in *. eexists _, _. split; [done|]. done.
  - destruct (Go N0) as (Er & Lt & Nx). rewrite <- Er in C.
    destruct (IH _ R1) as (v' & l & -> & R & E & C').
    { rewrite Er, Nx. apply (mult_fuel _ _ _ (rev v)); try done; [|by apply mod_next_mult|].
      - rewrite Sm at 1. unfold next_mult. rewrite (Z.mul_comm (step _) (2 ^ _)), Z.mul_assoc. apply Z.mod_mul. lia.
      - apply next_mult_bounds. done. }
    rs. eexists _, _. split; [done|]. split; [done|]. rewrite Er, Nx in E, C'. split; [done|].
    rewrite Er in C. by eapply covers_app.
Qed.

(** ** A call of [dictScan] *)

Lemma pause_resume d : dict_ok ty d → dictResumeRehashing (dictPauseRehashing d) = d.
Proof.
  intros (_ & _ & P). destruct d as [t0 t1 r p a]. cbn in *. unfold dictResumeRehashing, dictPauseRehashing, set_pauserehash.
  cbn. f_equal. unfold wrapu. rewrite Zminus_mod_idemp_l. replace (p + 1 - 1) with p by lia. apply Z.mod_small. lia.
Qed.

(** The exponent of the smaller table *)
Definition scan_exp d : Z :=
  if dictIsRehashing d then Z.min (ht_size_exp (ht0 d)) (ht_size_exp (ht1 d)) else ht_size_exp (ht0 d).

Lemma scan_tables d t0 t1 v : table_ok ty t0 → table_ok ty t1 → ht_size_exp t0 ≤ ht_size_exp t1 →
  0 ≤ v ≤ UINT64_MAX →
  ∃ v' l, ('(v, l) ← (b ← get_bucket t0 (Z.land v (DICTHT_SIZE_MASK (ht_size_exp t0)));
      '(v, l) ← scan_loop (Z.to_nat (DICTHT_SIZE (ht_size_exp t1))) t1
         (DICTHT_SIZE_MASK (ht_size_exp t0)) (DICTHT_SIZE_MASK (ht_size_exp t1)) v;
      Ok (v, dictScanDefragBucket b ++ l)); Ok (d, v, l)) = Ok (d, v', l) ∧
    0 ≤ v' ≤ UINT64_MAX ∧ rev v' = u64 (next_mult (rev v) (step (ht_size_exp t0))) ∧
    covers l (items t0 ++ items t1) (rev v) (next_mult (rev v) (step (ht_size_exp t0))).
Proof.
  intros T0 T1 He Hv. destruct (covers_cell t0 v T0 Hv) as (b & -> & C0). rs.
  pose proof (tok_exp _ _ T0) as E0. pose proof (tok_exp _ _ T1) as E1.
  destruct (scan_loop_ok (Z.to_nat (DICTHT_SIZE (ht_size_exp t1))) t1 (ht_size_exp t0) v T1)
    as (v' & l & -> & R & E & C1); [lia|done| |].
  { pose proof (next_mult_bounds (rev v) _ (step_pos _ E0)) as B. rewrite DICTHT_SIZE_pow by lia.
    destruct (step_mult (ht_size_exp t0) (ht_size_exp t1)) as [Sm Kp]; [lia..|].
    pose proof (step_pos _ E1). pose proof (size_bound _ E1).
    assert (2 ^ (ht_size_exp t1 - ht_size_exp t0) ≤ 2 ^ ht_size_exp t1) by (apply Z.pow_le_mono_r; lia).
    rewrite Z2Nat.id by lia. nia. }
  rs. eexists _, _. split; [done|]. split; [done|]. split; [done|].
  destruct C0 as [S0 Q0], C1 as [S1 Q1]. split; intros x; rewrite scanned_app, !elem_of_app; intros [Hx|Hx]; auto.
Qed.

(** A call returns the entries from the reversed cursor to the next one. *)
Lemma dictScan_ok d v : dict_ok ty d → dictSize d ≠ 0 → 0 ≤ v ≤ UINT64_MAX →
  ∃ v' l, dictScan d v = Ok (d, v', l) ∧ 0 ≤ v' ≤ UINT64_MAX ∧
    2 ≤ scan_exp d ≤ 60 ∧ rev v' = u64 (next_mult (rev v) (step (scan_exp d))) ∧
    covers l (dict_items d) (rev v) (next_mult (rev v) (step (scan_exp d))).
Proof.
  intros D N Hv. unfold dictScan, scan_exp. destruct (Z.eqb_spec (dictSize d) 0); [done|].
  pose proof (dictSize_alloc ty d D N) as A. destruct (in_use_tables ty d D A) as [[T0 _] U1].
  change (ht d 0) with (ht0 d) in T0. pose proof (tok_exp _ _ T0) as E0.
  change (dictIsRehashing (dictPauseRehashing d)) with (dictIsRehashing d).
  change (ht0 (dictPauseRehashing d)) with (ht0 d). change (ht1 (dictPauseRehashing d)) with (ht1 d).
  rewrite (pause_resume d D). destruct (dictIsRehashing d); cbn [negb].
  - destruct U1 as [R [T1 _]]. change (ht d 1) with (ht1 d) in T1. pose proof (tok_exp _ _ T1) as E1.
    rewrite !DICTHT_SIZE_pow by lia.
    destruct (Z.gtb_spec (2 ^ ht_size_exp (ht0 d)) (2 ^ ht_size_exp (ht1 d))) as [Hg|Hg].
    + apply Z.pow_lt_mono_r_iff in Hg; [|lia..]. destruct (scan_tables d _ _ v T1 T0) as (v' & l & Es & Rv & Er & C); [lia..|].
      rewrite Z.min_r by lia. exists v', l. split; [|split; [done|]; split; [done|]; split; [done|]].
      * revert Es. destruct (get_bucket (ht1 d) _); rs; [|done].
        rewrite DICTHT_SIZE_pow by lia. by destruct (scan_loop _ _ _ _ _) as [[]|]; rs.
      * unfold dict_items. destruct C as [S Q]. split; intros x; specialize (S x); specialize (Q x);
          rewrite elem_of_app in *; tauto.
    + apply Z.pow_le_mono_r_iff in Hg; [|lia..]. destruct (scan_tables d _ _ v T0 T1) as (v' & l & Es & Rv & Er & C); [lia..|].
      rewrite Z.min_l by lia. exists v', l. split; [|done].
      revert Es. destruct (get_bucket (ht0 d) _); rs; [|done].
      rewrite DICTHT_SIZE_pow by lia. by destruct (scan_loop _ _ _ _ _) as [[]|]; rs.
  - destruct U1 as [E1 _]. destruct (covers_cell (ht0 d) v T0 Hv) as (b & -> & C). rs.
    rewrite mask_pow by lia. destruct (next_cursor_rev (ht_size_exp (ht0 d)) v Hv) as [R E]; [lia|].
    eexists _, _. split; [done|]. split; [done|]. split; [done|]. split; [exact E|].
    unfold dict_items. rewrite E1. by rewrite app_nil_r.
Qed.
End scan.
