(* ===== verification/DictIter.v ===== *)
(** The iterators of [dict.c]: [dictNext] returns the entries of both tables, each
    once, and then a null entry. *)

From S2P Require Import Prelude Dict DictApi DictRep DictResize DictFind DictOps DictScan.

Section iter.
Context {K SK V : Type} `{EqDecision K} (ty : dictType K SK) `{!DictLaws ty}.
Implicit Types (d : dict SK V) (de : dictEntry SK V) (it : @dictIterator SK V).

Abbreviation item := (SK * option V)%type.

(** The entries after the bucket [i] of the table [tb] *)
Definition after d (tb i : Z) : list item :=
  (drop (Z.to_nat (i + 1)) (buckets (ht d tb)) ≫= chain) ++
  (if (tb =? 0) && dictIsRehashing d then items (ht1 d) else []).

(** What an iterator that has started has still to return *)
Definition pending d it : list item :=
  (if is_null (it_entry it) then [] else chain (it_nextEntry it)) ++ after d (it_table it) (it_index it).

(** The number of rounds of the loop that this takes at most *)
Definition rounds d it : nat :=
  (if is_null (it_entry it) then 1 else 2) +
  (length (buckets (ht d (it_table it))) - Z.to_nat (it_index it + 1)) +
  (if (it_table it =? 0)%Z && dictIsRehashing d then length (buckets (ht1 d)) else 0).

Definition table_for d (tb : Z) : Prop :=
  in_use ty d tb ∨ tb = 0 ∧ ht d 0 = _dictReset ∧ dictIsRehashing d = false.

(** The iterator has started. *)
Definition started it : Prop := 0 ≤ it_index it + 1 ∧ (it_index it = -1 → it_table it ≠ 0).

Lemma table_for_size d tb : table_for d tb →
  s64 (DICTHT_SIZE (ht_size_exp (ht d tb))) = zlen (buckets (ht d tb)).
Proof.
  intros [[T _]|(-> & -> & _)]; [|done]. pose proof (tok_exp _ _ T) as He. pose proof (size_bound _ He).
  rewrite DICTHT_SIZE_pow, (tok_len _ _ T) by lia. apply s64_small. lia.
Qed.

Lemma after_next d tb i b : buckets (ht d tb) !! Z.to_nat (i + 1) = Some b → 0 ≤ i + 1 →
  after d tb i = chain b ++ after d tb (i + 1).
Proof.
  intros L Hi. unfold after. rewrite (drop_S _ _ _ L). cbn. rewrite <- app_assoc. do 4 f_equal. lia.
Qed.

Lemma after_table d i : dictIsRehashing d = true → zlen (buckets (ht d 0)) ≤ i + 1 →
  after d 0 i = after d 1 (-1).
Proof.
  intros Hr Hi. unfold after. rewrite drop_ge by lia. rewrite Hr. cbn. by rewrite app_nil_r.
Qed.

Lemma after_end d tb i : (tb =? 0) && dictIsRehashing d = false → zlen (buckets (ht d tb)) ≤ i + 1 → after d tb i = [].
Proof. intros E Hi. unfold after. by rewrite drop_ge, E by lia. Qed.

(** What a call of [dictNext] returns: the next entry, or null *)
Definition returns d it (l : list item) (r : res (@dictIterator SK V * dict SK V * dictEntry SK V)) : Prop :=
  ∃ it' e, r = Ok (it', d, e) ∧
    match l with
    | [] => e = NullEntry
    | x :: l => head (chain e) = Some x ∧ it_entry it' = e ∧ pending d it' = l
    end ∧ started it' ∧ table_for d (it_table it') ∧ it_safe it' = it_safe it.

Lemma returns_entry d it b j tb : is_null b = false → 0 ≤ j + 1 → (j = -1 → tb ≠ 0) → table_for d tb →
  returns d it (chain b ++ after d tb j) (Ok (Iter j tb (it_safe it) b (dictGetNext b), d, b)).
Proof.
  intros Nb Hj Hj' T'. eexists _, _. split; [done|]. split; [|by split].
  unfold pending. destruct b; cbn in *; done.
Qed.

Definition next_ok d (n : nat) (next : @dictIterator SK V → dict SK V → res (@dictIterator SK V * dict SK V * dictEntry SK V)) : Prop :=
  ∀ it, started it → table_for d (it_table it) → (rounds d it ≤ n)%nat → returns d it (pending d it) (next it d).

(** The buckets left after [i] *)
Definition left_after d (tb i : Z) : nat :=
  (length (buckets (ht d tb)) - Z.to_nat (i + 1)) +
  (if (tb =? 0)%Z && dictIsRehashing d then length (buckets (ht1 d)) else 0).

Lemma next_entry_ok d it n next tb j : next_ok d n next → 0 ≤ j < zlen (buckets (ht d tb)) → table_for d tb →
  (left_after d tb j < n)%nat →
  returns d it (after d tb (j - 1))
    (entry ← get_bucket (ht d tb) j;
     if is_null entry then next (Iter j tb (it_safe it) entry (it_nextEntry it)) d
     else Ok (Iter j tb (it_safe it) entry (dictGetNext entry), d, entry)).
Proof.
  intros IH Hj T' Hf'. destruct (lookup_lt_is_Some_2 (buckets (ht d tb)) (Z.to_nat j)) as [b L]; [lia|].
  pose proof (get_bucket_lookup _ _ _ L) as G. rewrite Z2Nat.id in G by lia. rewrite G. rs.
  rewrite (after_next d tb (j - 1) b) by (try lia; by replace (j - 1 + 1) with j by lia).
  replace (j - 1 + 1) with j by lia. destruct (is_null b) eqn:Nb; [|by apply returns_entry; [..|lia|lia|]].
  destruct b; try done. unfold left_after in Hf'.
  apply (IH (Iter j tb (it_safe it) NullEntry (it_nextEntry it))); [split; cbn; lia|done|unfold rounds; cbn; lia].
Qed.

Lemma next_bucket_ok d it n next i : dict_ok ty d → next_ok d n next → it_entry it = NullEntry →
  table_for d (it_table it) → 0 ≤ i + 1 → (left_after d (it_table it) i ≤ n)%nat →
  returns d it (after d (it_table it) i) (next_bucket next it d (i + 1)).
Proof.
  intros D IH En T Hi Hf. unfold next_bucket. rewrite (table_for_size d _ T). set (tb := it_table it) in *.
  destruct (Z.geb_spec (i + 1) (zlen (buckets (ht d tb)))) as [Hp|Hp]; cbn [andb].
  - destruct (dictIsRehashing d && (tb =? 0)) eqn:E; cbn [negb].
    + apply andb_true_iff in E as [Hr E]. assert (tb = 0) as Et by lia. rewrite Et in *.
      destruct (in_use_tables ty d D) as [_ U]; [apply (tok_some ty), (rok_ht0 ty), (dict_ok_rehash ty); done|].
      rewrite Hr in U. destruct U as [R U]. change (0 + 1) with 1.
      assert (0 < zlen (buckets (ht d 1))).
      { rewrite (tok_len _ _ (proj1 U)). pose proof (size_bound _ (tok_exp _ _ (proj1 U))). lia. }
      rewrite (after_table d i Hr Hp). apply (next_entry_ok d it n next 1 0); [done|lia|by left|].
      unfold left_after in *. rewrite Hr in Hf. change (ht d 1) with (ht1 d) in *. cbn in *. lia.
    + rewrite after_end by (rewrite ?(andb_comm (tb =? 0)); done || lia).
      eexists _, _. split; [done|]. split; [done|]. split; [split; cbn; lia|done].
  - replace i with (i + 1 - 1) at 1 by lia. apply (next_entry_ok d it n next); [done|lia|done|].
    unfold left_after in *. lia.
Qed.

Lemma next_loop_ok fuel d : dict_ok ty d → next_ok d fuel (next_loop fuel).
Proof.
  intros D. induction fuel as [|fuel IH]; intros [i tb sf en nx] [Hi Hs] T Hf; unfold rounds, pending in *; cbn in *.
  { destruct (is_null en); lia. }
  destruct (is_null en) eqn:En; cbn [app].
  - assert ((i =? -1) && (tb =? 0) = false) as -> by lia. cbn [andb].
    apply (next_bucket_ok d (Iter i tb sf en nx) fuel); cbn; try done; [by destruct en|]. unfold left_after. lia.
  - destruct (is_null nx) eqn:Nx; [|by apply (returns_entry d (Iter i tb sf en nx))].
    destruct nx; try done. apply (IH (Iter i tb sf NullEntry NullEntry)); try done. unfold rounds. cbn. lia.
Qed.

(** ** The first call *)

(** The buckets that have been rehashed are skipped: they are empty. *)
Lemma after_first d : dict_ok ty d →
  after d 0 (if dictIsRehashing d then rehashidx d - 1 else -1) = dict_items d.
Proof.
  intros D. unfold after, dict_items. cbn [Z.eqb andb]. change (ht d 0) with (ht0 d).
  destruct (dictIsRehashing d) eqn:Hr.
  - pose proof (dict_ok_rehash ty d D Hr) as R. f_equal. replace (rehashidx d - 1 + 1) with (rehashidx d) by lia.
    unfold items. rewrite <- (take_drop (Z.to_nat (rehashidx d)) (buckets (ht0 d))) at 2. rewrite bind_app.
    assert (take (Z.to_nat (rehashidx d)) (buckets (ht0 d)) ≫= chain = []) as ->; [|done].
    assert (Forall (λ de, de = NullEntry) (take (Z.to_nat (rehashidx d)) (buckets (ht0 d)))) as F.
    { apply Forall_lookup. intros j de [L Hj]%lookup_take_Some. eapply (rok_empty _ _ R); [|exact L]. lia. }
    clear - F. induction F as [|de l -> _ IH]; [done|exact IH].
  - destruct (dict_ok_stable ty d D Hr) as (_ & -> & _). done.
Qed.

Lemma dictNext_first d sf : dict_ok ty d →
  returns (if sf : bool then dictPauseRehashing d else d) (Iter (-1) 0 sf NullEntry NullEntry) (dict_items d)
    (dictNext (Iter (-1) 0 sf NullEntry NullEntry) d).
Proof.
  intros D. set (d' := if sf then dictPauseRehashing d else d).
  change (dictNext (Iter (-1) 0 sf NullEntry NullEntry) d) with
    (next_bucket (next_loop (S (length (buckets (ht0 d)) + length (buckets (ht1 d))))) (Iter (-1) 0 sf NullEntry NullEntry)
       d' ((if dictIsRehashing d' then rehashidx d' - 1 else -1) + 1)).
  assert (dict_ok ty d' ∧ dict_items d' = dict_items d ∧ length (buckets (ht0 d')) = length (buckets (ht0 d)) ∧
    length (buckets (ht1 d')) = length (buckets (ht1 d))) as (D' & <- & E0 & E1).
  { destruct sf; [|done]. split; [|done]. apply dict_ok_pause; [done|]. pose proof (wrapu_range 32 (pauserehash d + 1)). lia. }
  clearbody d'. rewrite <- (after_first d' D').
  apply next_bucket_ok with (n := S (length (buckets (ht0 d)) + length (buckets (ht1 d)))); cbn; try done.
  - by apply next_loop_ok.
  - destruct (dictIsRehashing d') eqn:Hr.
    + left. destruct (in_use_tables ty d' D') as [U _]; [|done].
      apply (tok_some ty), (rok_ht0 ty), (dict_ok_rehash ty); done.
    + destruct (dict_ok_stable ty d' D' Hr) as (_ & _ & [E|T]); [by right|]. left. split; [done|by left].
  - destruct (dictIsRehashing d') eqn:Hr; [|lia]. pose proof (rok_idx _ _ (dict_ok_rehash ty d' D' Hr)). lia.
  - unfold left_after. change (ht d' 0) with (ht0 d'). rewrite E0, E1. destruct (dictIsRehashing d'); cbn; lia.
Qed.

Lemma dictNext_ok d it : dict_ok ty d → started it → table_for d (it_table it) →
  returns d it (pending d it) (dictNext it d).
Proof.
  intros D St T. apply next_loop_ok; try done. unfold rounds, buckets.
  destruct T as [[_ [E|[E Hr]]]|(E & _ & Hr)]; rewrite E; unfold ht; cbn; rewrite ?Hr; repeat case_match; cbn; lia.
Qed.

(** ** Iterating to the end *)

(** Calls of [dictNext] until it returns null, [n] of them at most *)
Fixpoint iterate (n : nat) it d : res (@dictIterator SK V * dict SK V * list item) :=
  match n with
  | O => Fault OutOfFuel
  | S n =>
      '(it, d, e) ← dictNext it d;
      match head (chain e) with
      | None => Ok (it, d, [])
      | Some x => '(it, d, l) ← iterate n it d; Ok (it, d, x :: l)
      end
  end.

Lemma iterate_from n d it l r : dict_ok ty d → returns d it l r → (length l < S n)%nat →
  ∃ it', ('(it, d, e) ← r;
    match head (chain e) with
    | None => Ok (it, d, [])
    | Some x => '(it, d, l) ← iterate n it d; Ok (it, d, x :: l)
    end) = Ok (it', d, l) ∧ started it' ∧ it_safe it' = it_safe it.
Proof.
  intros D. revert it l r. induction n as [|n IH]; intros it l r (it1 & e & -> & Q & St & T & Sf) Hl; rs.
  - destruct l; [|cbn in Hl; lia]. subst e. cbn. eauto.
  - destruct l as [|x l]; [subst e; cbn; eauto|]. destruct Q as (-> & _ & Pe). cbn [length] in Hl.
    cbn [iterate]. destruct (IH it1 l _ ltac:(rewrite <- Pe; by apply dictNext_ok)) as (it' & -> & St' & Sf'); [lia|].
    rs. exists it'. split; [done|]. split; [done|congruence].
Qed.

Lemma iterate_ok d sf : dict_ok ty d →
  ∃ it, iterate (S (length (dict_items d))) (Iter (-1) 0 sf NullEntry NullEntry) d =
      Ok (it, if sf : bool then dictPauseRehashing d else d, dict_items d) ∧ started it ∧ it_safe it = sf.
Proof.
  intros D. apply (iterate_from _ _ (Iter (-1) 0 sf NullEntry NullEntry)); [|by apply dictNext_first|lia].
  destruct sf; [|done]. apply dict_ok_pause; [done|]. pose proof (wrapu_range 32 (pauserehash d + 1)). lia.
Qed.
End iter.
