(* ===== verification/DictRun.v ===== *)
(** Sequences of operations on a dictionary of [dict.c], and the same operations on
    a finite map.  [dict_run_ok] says that they agree, for every choice of
    [dict_can_resize] at each step. *)

From S2P Require Import Prelude Dict DictApi DictRep DictResize DictFind DictOps DictSpec DictLink.

Section run.
Context {K SK V : Type} `{Countable K} (ty : dictType K SK).
Implicit Types (d : dict SK V).

Abbreviation item := (SK * option V)%type.

(** [DSet] is [dictFindLink] and then [dictSetKeyAtLink], as the callers do;
    [DTwoPhaseUnlink] is the two functions of this name one after the other. *)
Inductive dict_op : Type :=
  | DFind (key : K) | DFetchValue (key : K)
  | DAdd (key : SK) (val : V) | DReplace (key : SK) (val : V) | DSet (key : SK)
  | DDelete (key : K) | DUnlink (key : K) | DTwoPhaseUnlink (key : K)
  | DExpand (size : Z) | DTryExpand (size : Z) (alloc : Z → bool) | DShrink (size : Z)
  | DExpandIfNeeded | DShrinkIfNeeded | DRehash (n : nat)
  | DPauseRehashing | DResumeRehashing | DSize | DEmpty.

Inductive dict_reply : Type :=
  | RItem (x : option item) | RValue (v : option V) | RCode (r : dict_result)
  | RReplaced (n : Z) (old : option V) | RSize (n : Z) | RDone.

Definition entry_item (he : option (dictEntry SK V)) : option item := he ≫= (head ∘ chain).

Definition code_if {A} (o : option A) : dict_result := match o with Some _ => DICT_OK | None => DICT_ERR end.

Definition dict_exec (can : dictResizeEnable) d (op : dict_op) : res (dict SK V * dict_reply) :=
  match op with
  | DFind key => '(d, he) ← dictFind ty can d key; Ok (d, RItem (entry_item he))
  | DFetchValue key => '(d, v) ← dictFetchValue ty can d key; Ok (d, RValue v)
  | DAdd key val => '(d, r) ← dictAdd ty can d key val; Ok (d, RCode r)
  | DReplace key val => '(d, n, old) ← dictReplace ty can d key val; Ok (d, RReplaced n old)
  | DSet key =>
      '(d, link, bucket) ← dictFindLink ty can d (keyFromStoredKey ty key) true;
      match link with
      | Some _ => '(d, _) ← dictSetKeyAtLink ty can d key link false; Ok (d, RCode DICT_ERR)
      | None => '(d, _) ← dictSetKeyAtLink ty can d key bucket true; Ok (d, RCode DICT_OK)
      end
  | DDelete key => '(d, r) ← dictDelete ty can d key; Ok (d, RCode r)
  | DUnlink key => '(d, he) ← dictUnlink ty can d key; Ok (d, RItem (entry_item he))
  | DTwoPhaseUnlink key =>
      '(d, link) ← dictTwoPhaseUnlinkFind ty can d key;
      d ← dictTwoPhaseUnlinkFree ty can d link (from_option l_table 0 link);
      Ok (d, RCode (code_if link))
  | DExpand size => '(d, _) ← dictExpand ty can d size; Ok (d, RDone)
  | DTryExpand size alloc => '(d, _) ← dictTryExpand ty can d size alloc; Ok (d, RDone)
  | DShrink size => '(d, _) ← dictShrink ty can d size; Ok (d, RDone)
  | DExpandIfNeeded => '(d, _) ← dictExpandIfNeeded ty can d; Ok (d, RDone)
  | DShrinkIfNeeded => '(d, _) ← dictShrinkIfNeeded ty can d; Ok (d, RDone)
  | DRehash n => '(d, _) ← dictRehash ty can d n; Ok (d, RDone)
  | DPauseRehashing => Ok (dictPauseRehashing d, RDone)
  | DResumeRehashing => Ok (dictResumeRehashing d, RDone)
  | DSize => Ok (d, RSize (dictSize d))
  | DEmpty => '(d, _) ← dictEmpty d; Ok (d, RDone)
  end.

Fixpoint dict_run d (ops : list (dictResizeEnable * dict_op)) : res (dict SK V * list dict_reply) :=
  match ops with
  | [] => Ok (d, [])
  | (can, op) :: ops =>
      '(d, r) ← dict_exec can d op;
      '(d, rs) ← dict_run d ops;
      Ok (d, r :: rs)
  end.

(** ** The same on a map *)

Definition map_exec (m : gmap K item) (op : dict_op) : gmap K item * dict_reply :=
  match op with
  | DFind key => (m, RItem (m !! key))
  | DFetchValue key => (m, RValue (m !! key ≫= snd))
  | DAdd k v =>
      let key := keyFromStoredKey ty k in
      match m !! key with
      | Some _ => (m, RCode DICT_ERR)
      | None => (<[key := (k, if no_value ty then None else Some v)]> m, RCode DICT_OK)
      end
  | DReplace k v =>
      let key := keyFromStoredKey ty k in
      match m !! key with
      | Some (k0, v0) => (<[key := (k0, Some v)]> m, RReplaced 0 v0)
      | None => (<[key := (k, Some v)]> m, RReplaced 1 None)
      end
  | DSet k =>
      let key := keyFromStoredKey ty k in
      (<[key := (k, None)]> m, RCode (match m !! key with Some _ => DICT_ERR | None => DICT_OK end))
  | DDelete key | DTwoPhaseUnlink key => (delete key m, RCode (code_if (m !! key)))
  | DUnlink key => (delete key m, RItem (m !! key))
  | DSize => (m, RSize (Z.of_nat (size m)))
  | DEmpty => (∅, RDone)
  | _ => (m, RDone)
  end.

Fixpoint map_run (m : gmap K item) (ops : list (dictResizeEnable * dict_op)) : gmap K item * list dict_reply :=
  match ops with
  | [] => (m, [])
  | (_, op) :: ops =>
      let '(m, r) := map_exec m op in
      let '(m, rs) := map_run m ops in
      (m, r :: rs)
  end.

(** Values are used in the dictionaries that have them. *)
Definition op_ok (op : dict_op) : Prop :=
  match op with
  | DFetchValue _ | DReplace _ _ => no_value ty = false
  | DSet _ => no_value ty = true
  | DExpand n | DTryExpand n _ | DShrink n => 0 ≤ n ≤ UINT64_MAX
  | _ => True
  end.

(** ** Agreement *)

Context `{!DictLaws ty}.

(** Every entry has a value exactly in the dictionaries with values. *)
Definition valued (m : gmap K item) : Prop := ∀ key k v, m !! key = Some (k, v) → (v = None ↔ no_value ty = true).

(** The state of a run: automatic resizing is not paused. *)
Record dict_runs d (m : gmap K item) (n : Z) : Prop := {
  dr_ok : dict_ok ty d;
  dr_map : dict_map ty d = m;
  dr_auto : pauseAutoResize d ≤ 0;
  dr_valued : valued m;
  dr_size : Z.of_nat (size m) ≤ n }.

Lemma valued_insert m key k v : valued m → (v = None ↔ no_value ty = true) → valued (<[key := (k, v)]> m).
Proof. intros Vm Hv key' k' v'. rewrite lookup_insert_Some. intros [[_ [= <- <-]]|[_ L]]; [done|by eapply Vm]. Qed.

Lemma valued_delete m key : valued m → valued (delete key m).
Proof. intros Vm key' k' v'. rewrite lookup_delete_Some. intros [_ L]. by eapply Vm. Qed.

Lemma size_insert_le (m : gmap K item) key x : (size (<[key := x]> m) ≤ S (size m))%nat.
Proof. rewrite map_size_insert. case_match; cbn; lia. Qed.

Lemma becomes_runs d m m' n n' d' : dict_runs d m n → becomes ty d m' d' → valued m' →
  (size m' ≤ S (size m))%nat → n + 1 ≤ n' → dict_runs d' m' n'.
Proof. intros [] [? ? [_ A]] ? ? ?. constructor; [done..|by rewrite A|done|lia]. Qed.

Lemma same_runs d m n n' d' : dict_runs d m n → becomes ty d m d' → n + 1 ≤ n' → dict_runs d' m n'.
Proof. intros R B Hn. eapply becomes_runs; [done|done|apply R|lia|done]. Qed.

Lemma lookup_valued m key k : valued m → no_value ty = false → m !! key ≠ Some (k, None).
Proof. intros Vm N L. destruct (Vm _ _ _ L) as [Q _]. rewrite Q in N; done. Qed.

Lemma dictCreate_ok : dict_ok ty (@dictCreate SK V).
Proof.
  split; [left; by split_and!; [..|left]|]. split; [split; [constructor|done]|done].
Qed.

(** The dictionary and the map agree on an operation. *)
Definition agrees (can : dictResizeEnable) d (m : gmap K item) (n : Z) (op : dict_op) : Prop :=
  ∃ d', dict_exec can d op = Ok (d', (map_exec m op).2) ∧ dict_runs d' (map_exec m op).1 (n + 1).

Section step.
Context (can : dictResizeEnable) d (m : gmap K item) (n : Z) (R : dict_runs d m n) (Hn : n < UINT64_MAX).

Lemma runs_room : room ty d ∧ can_insert d.
Proof. destruct R. split; [unfold room; rewrite dr_map0; lia|by left]. Qed.

Lemma lookup_agrees key : agrees can d m n (DFind key) ∧ (no_value ty = false → agrees can d m n (DFetchValue key)).
Proof.
  pose proof R as [D M A Vm Sz]. unfold agrees; cbn [dict_exec map_exec fst snd]. split; [|intros Ho].
  - destruct (dictFind_ok ty can d key D) as (d' & he & -> & B & L & _). rewrite M in *. rs.
    exists d'. unfold entry_item. rewrite L. split; [done|]. eapply same_runs; try done; lia.
  - destruct (dictFetchValue_ok ty can d key D Ho) as (d' & -> & B).
    { intros k0. rewrite M. by apply lookup_valued. }
    rewrite M in *. rs. exists d'. split; [done|]. eapply same_runs; try done; lia.
Qed.

Lemma insert_agrees k v : agrees can d m n (DAdd k v) ∧ (no_value ty = false → agrees can d m n (DReplace k v)).
Proof.
  destruct runs_room as [Ro Ci]. pose proof R as [D M A Vm Sz].
  unfold agrees; cbn [dict_exec map_exec fst snd]. split; [|intros Ho].
  - destruct (dictAdd_ok ty can d k v _ D Ci Ro eq_refl) as (d' & r & -> & B). rewrite M in B. rs. exists d'.
    destruct (m !! keyFromStoredKey ty k); destruct B as [-> B]; (split; [done|]); cbn [fst].
    + eapply same_runs; try done; lia.
    + eapply becomes_runs; [done|exact B| |apply size_insert_le|lia].
      apply valued_insert; [done|]. by destruct (no_value ty).
  - destruct (dictReplace_ok ty can d k v _ D Ci Ro eq_refl Ho) as (d' & r & old & -> & B).
    { intros k0. rewrite M. by apply lookup_valued. }
    rewrite M in B. rs. exists d'.
    destruct (m !! keyFromStoredKey ty k) as [[k0 v0]|]; destruct B as (-> & -> & B); (split; [done|]); cbn [fst];
      (eapply becomes_runs; [done|exact B| |apply size_insert_le|lia]; apply valued_insert; [done|by rewrite Ho]).
Qed.

Lemma set_agrees k : no_value ty = true → agrees can d m n (DSet k).
Proof.
  intros Ho. destruct runs_room as [Ro Ci]. pose proof R as [D M A Vm Sz].
  unfold agrees; cbn [dict_exec map_exec fst snd]. set (key := keyFromStoredKey ty k).
  destruct (dictFindLink_ok ty can d key true D) as (d1 & r & b & -> & S & F & Q1 & Q2). rs.
  pose proof (st_ok _ _ _ (stp_stays _ _ _ S)) as D1. pose proof (found_map ty d1 key r D1 F) as Fm.
  pose proof (stays_map ty d d1 D (stp_stays _ _ _ S)) as M1. rewrite M1, M in Fm.
  assert (∀ d', becomes ty d1 (<[key := (k, None)]> m) d' → dict_runs d' (<[key := (k, None)]> m) (n + 1)) as Fin.
  { intros d' B. eapply becomes_runs; [done|eapply becomes_trans; [by apply steps_becomes|exact B]| |apply size_insert_le|lia].
    by apply valued_insert. }
  destruct r as [l|].
  - destruct Fm as (x & L & Lo).
    destruct (dictSetKeyAtLink_set ty can d1 k key l x D1 Lo eq_refl) as (d2 & -> & B). rs.
    rewrite L. exists d2. split; [done|]. rewrite M1, M in B.
    assert (x.2 = None) as Ex by (destruct x as [k0 v0]; by apply (Vm _ _ _ L)). rewrite Ex in B. auto.
  - destruct (dictSetKeyAtLink_new ty can d1 k key b D1) as (d2 & l & -> & B & _); [|unfold bucket_for| done| |].
    { unfold room. rewrite M1, M. lia. }
    { destruct b as [b|]; [|done]. destruct (Z.eq_dec (dictSize d) 0) as [E|E]; [by specialize (Q2 E)|].
      destruct (Q1 eq_refl eq_refl E) as [[= ->] A1]. done. }
    { by rewrite M1, M. }
    rs. rewrite Fm. exists d2. split; [done|]. rewrite M1, M in B. auto.
Qed.

Lemma size_delete_le key : (size (delete key m) ≤ S (size m))%nat.
Proof. rewrite map_size_delete. case_match; cbn; lia. Qed.

Lemma remove_agrees key : agrees can d m n (DDelete key) ∧ agrees can d m n (DUnlink key).
Proof.
  pose proof R as [D M A Vm Sz]. unfold agrees; cbn [dict_exec map_exec fst snd]. unfold dictDelete, dictUnlink.
  destruct (dictGenericDelete_ok ty can d key D) as (d' & he & -> & B & L & E). rs. rewrite M in *.
  assert (dict_runs d' (delete key m) (n + 1)) as R'.
  { eapply becomes_runs; [done|exact B|by apply valued_delete|apply size_delete_le|lia]. }
  split; exists d'; (split; [|done]); do 3 f_equal.
  - unfold code_if. destruct he; [|by rewrite (proj1 E eq_refl)]. destruct (m !! key); [done|]. by pose proof (proj2 E eq_refl).
  - by rewrite L.
Qed.

Lemma unlink_agrees key : agrees can d m n (DTwoPhaseUnlink key).
Proof.
  pose proof R as [D M A Vm Sz]. unfold agrees; cbn [dict_exec map_exec fst snd].
  destruct (dictTwoPhaseUnlinkFind_ok ty can d key D) as (d1 & r & -> & D1 & M1 & A1 & Q). rs. rewrite M in *.
  destruct r as [l|]; cbn [from_option].
  - destruct Q as (P1 & x & L & Lo).
    destruct (dictTwoPhaseUnlinkFree_ok ty can d1 key l x D1 Lo) as (d2 & -> & D2 & M2 & P2 & A2). rs.
    exists d2. rewrite L. split; [done|]. rewrite M1 in M2. pose proof (size_delete_le key).
    constructor; [done|done|lia|by apply valued_delete|lia].
  - destruct Q as [P1 L]. cbn [dictTwoPhaseUnlinkFree]. rs. exists d1. rewrite L, delete_id by done.
    split; [done|]. constructor; [done|done|lia|done|lia].
Qed.

Lemma same_agrees d' : becomes ty d m d' → dict_runs d' m (n + 1).
Proof. intros B. eapply same_runs; [done|done|lia]. Qed.

Lemma resize_agrees sz al nr : 0 ≤ sz →
  agrees can d m n (DExpand sz) ∧ agrees can d m n (DTryExpand sz al) ∧ agrees can d m n (DShrink sz) ∧
  agrees can d m n DExpandIfNeeded ∧ agrees can d m n DShrinkIfNeeded ∧ agrees can d m n (DRehash nr).
Proof.
  intros Hs. pose proof R as [D M A Vm Sz]. unfold agrees; cbn [dict_exec map_exec fst snd].
  assert (∀ d', stays ty d d' → dict_runs d' m (n + 1)) as Fin.
  { intros d' S. apply same_agrees. rewrite <- M. by apply stays_becomes. }
  split_and!.
  - destruct (dictExpand_ok ty can d sz D Hs) as (d' & r & -> & [S _ _]). rs. eauto.
  - destruct (dictTryExpand_ok ty can d sz al D Hs) as (d' & r & -> & [S _ _]). rs. eauto.
  - destruct (dictShrink_ok ty can d sz D Hs) as (d' & r & -> & [S _ _]). rs. eauto.
  - destruct (dictExpandIfNeeded_ok ty can d D) as (d' & r & -> & [S _ _] & _). rs. eauto.
  - destruct (dictShrinkIfNeeded_ok ty can d D) as (d' & r & -> & [S _ _]). rs. eauto.
  - destruct (dictRehash_ok ty can d nr D) as (d' & mo & -> & [S _ _ _] & _). rs. eauto.
Qed.

Lemma other_agrees : agrees can d m n DPauseRehashing ∧ agrees can d m n DResumeRehashing ∧
  agrees can d m n DSize ∧ agrees can d m n DEmpty.
Proof.
  pose proof R as [D M A Vm Sz]. unfold agrees; cbn [dict_exec map_exec fst snd].
  assert (∀ p, 0 ≤ p ≤ UINT32_MAX → dict_runs (set_pauserehash d p) m (n + 1)) as Fin.
  { intros p Hp. constructor; [by apply dict_ok_pause|exact M|exact A|done|lia]. }
  split_and!.
  - eexists. split; [done|]. apply Fin. pose proof (wrapu_range 32 (pauserehash d + 1)). lia.
  - eexists. split; [done|]. apply Fin. pose proof (wrapu_range 32 (pauserehash d - 1)). lia.
  - exists d. rewrite (dictSize_map ty d D), M. split; [done|]. constructor; [done..|lia].
  - destruct (dictEmpty_ok ty d D) as (fr & -> & _). rs. eexists. split; [done|].
    constructor; [|done|done|by intros ? ? ? ?|rewrite map_size_empty; lia]. apply dictCreate_ok.
Qed.

Lemma dict_exec_ok op : op_ok op → agrees can d m n op.
Proof.
  destruct op as [| | | | | | | |sz|sz al|sz| | |nr| | | |]; cbn [op_ok]; intros Ho;
    try (by apply lookup_agrees); try (by apply insert_agrees); try (by apply set_agrees);
    try (by apply remove_agrees); try (by apply unlink_agrees); try (by apply other_agrees).
  - apply (resize_agrees sz (λ _, true) 0); lia.
  - apply (resize_agrees sz al 0); lia.
  - apply (resize_agrees sz (λ _, true) 0); lia.
  - apply (resize_agrees 0 (λ _, true) 0); lia.
  - apply (resize_agrees 0 (λ _, true) 0); lia.
  - apply (resize_agrees 0 (λ _, true) nr); lia.
Qed.
End step.

Lemma dict_run_ok ops d m n : dict_runs d m n → n + zlen ops ≤ UINT64_MAX → Forall (op_ok ∘ snd) ops →
  ∃ d', dict_run d ops = Ok (d', (map_run m ops).2) ∧ dict_runs d' (map_run m ops).1 (n + zlen ops).
Proof.
  revert d m n. induction ops as [|[can op] ops IH]; intros d m n R Hn F; cbn [dict_run map_run].
  { exists d. cbn. by rewrite Z.add_0_r. }
  apply Forall_cons in F as [Fo F]. cbn [length] in Hn.
  destruct (dict_exec_ok can d m n R ltac:(lia) op Fo) as (d1 & -> & R1). rs.
  destruct (map_exec m op) as [m1 r1]. cbn [fst snd] in *.
  destruct (IH d1 m1 (n + 1) R1) as (d2 & -> & R2); [lia|done|]. rs.
  destruct (map_run m1 ops) as [m2 rs2]. cbn [fst snd] in *. exists d2. split; [done|].
  replace (n + zlen ((can, op) :: ops)) with (n + 1 + zlen ops) by (cbn; lia). done.
Qed.

Lemma dictCreate_runs : dict_runs dictCreate ∅ 0.
Proof.
  constructor; [apply dictCreate_ok|done|done|by intros ? ? ? ?|by rewrite map_size_empty].
Qed.
End run.
