(* ===== verification/DictContract.v ===== *)
(** What the dictionaries of [dict.c] guarantee to their users: they are finite
    maps, their entries keep their types, rehashing and scanning end, a scan and an
    iterator miss nothing, and emptying frees every key once. *)

From S2P Require Import Prelude Dict DictApi DictRep DictResize DictFind DictOps DictSpec DictLink.
From S2P Require Import DictScan DictScanSpec DictIter DictRun.

Section contract.
Context {K SK V : Type} `{Countable K} (ty : dictType K SK) `{!DictLaws ty}.
Implicit Types (d : dict SK V).

(** C1: From an empty dictionary, any sequence of lookups, insertions,
    replacements, removals, resizes and rehashing steps, with [dict_can_resize]
    chosen anew for each, runs without a fault, returns what the same operations
    return on a finite map, and leaves a dictionary for the resulting map. *)
Theorem dict_refines_map (ops : list (dictResizeEnable * dict_op)) :
  zlen ops ≤ UINT64_MAX → Forall (op_ok ty ∘ snd) ops →
  ∃ d : dict SK V, dict_run ty dictCreate ops = Ok (d, (map_run ty ∅ ops).2) ∧ dict_map ty d = (map_run ty ∅ ops).1.
Proof.
  intros Hl F. destruct (dict_run_ok ty ops dictCreate ∅ 0 (dictCreate_runs ty)) as (d & E & R); [lia|done|].
  exists d. split; [done|]. apply (dr_map _ _ _ _ R).
Qed.

(** C19: In every dictionary that such a sequence reaches, a pointer with a tag to a
    bare key is only in a dictionary without values, and an entry of such a
    dictionary has no value: no pointer is taken for one of another type. *)
Theorem dict_pointer_types (ops : list (dictResizeEnable * dict_op)) d rs tb b :
  zlen ops ≤ UINT64_MAX → Forall (op_ok ty ∘ snd) ops → dict_run ty dictCreate ops = Ok (d, rs) →
  b ∈ buckets (ht d tb) → shape ty b.
Proof.
  intros Hl F E Hb. destruct (dict_run_ok ty ops dictCreate ∅ 0 (dictCreate_runs ty)) as (d' & E' & R); [lia|done|].
  rewrite E in E'. injection E' as <- _. apply list_elem_of_lookup in Hb as [i L].
  assert (ht d tb = _dictReset ∨ table_ok ty (ht d tb)) as [N|T]; [|by rewrite N in L|by apply (tok_bucket _ _ T i)].
  destruct (dr_ok _ _ _ _ R) as [[(_ & E1 & T0)|Ro] _]; unfold ht; destruct (tb =? 0); auto; right; apply Ro.
Qed.

(** ** Rehashing *)

(** Calls of [dictRehash] with [n] buckets each, until nothing is left to move *)
Fixpoint rehash_calls (fuel : nat) (can : dictResizeEnable) d (n : nat) : res (dict SK V) :=
  match fuel with
  | O => Fault OutOfFuel
  | S fuel =>
      '(d, more) ← dictRehash ty can d n;
      if more : bool then rehash_calls fuel can d n else Ok d
  end.

Lemma rehash_calls_ok fuel can d n : dict_ok ty d → (0 < n)%nat → rehash_refused can d = false →
  (0 < fuel)%nat → 2 ^ ht_size_exp (ht0 d) - rehashidx d ≤ Z.of_nat fuel →
  ∃ d', rehash_calls fuel can d n = Ok d' ∧ stays ty d d' ∧ dictIsRehashing d' = false.
Proof.
  revert d. induction fuel as [|fuel IH]; intros d D Hn Hr Hp Hf; [lia|].
  cbn [rehash_calls]. destruct (dictRehash_ok ty can d n D) as (d1 & more & -> & [S1 _ _ _] & Mo & No). rs.
  destruct more; [|exists d1; auto]. destruct (Mo eq_refl) as (M & Hi & Hu). specialize (Hi Hn).
  pose proof (rehash_not_done ty d1 (mv_ok _ _ _ M) Hu) as Hd. rewrite (mv_exp0 _ _ _ M) in Hd.
  destruct (IH d1) as (d2 & -> & S2 & R2).
  - apply S1.
  - done.
  - by apply (moved_refused ty can d).
  - lia.
  - rewrite (mv_exp0 _ _ _ M). lia.
  - exists d2. split; [done|]. split; [by eapply stays_trans|done].
Qed.

(** C14: Incremental rehashing ends: calls of [dictRehash] that are not refused move
    every entry, at most as many calls as the first table has buckets being
    needed, and the dictionary stands for the same map before and after. *)
Theorem rehash_completes can d n :
  dict_ok ty d → (0 < n)%nat → rehash_refused can d = false →
  ∃ d', rehash_calls (Z.to_nat (DICTHT_SIZE (ht_size_exp (ht0 d)))) can d n = Ok d' ∧
    dictIsRehashing d' = false ∧ dict_ok ty d' ∧ dict_map ty d' = dict_map ty d.
Proof.
  intros D Hn Hr. apply rehash_refused_false in Hr as Hr'. destruct Hr' as [Hg _].
  pose proof (dict_ok_rehash ty d D Hg) as R. pose proof (tok_exp _ _ (rok_ht0 _ _ R)). pose proof (rok_idx _ _ R).
  assert (0 < 2 ^ ht_size_exp (ht0 d)) by (apply Z.pow_pos_nonneg; lia).
  destruct (rehash_calls_ok (Z.to_nat (DICTHT_SIZE (ht_size_exp (ht0 d)))) can d n D Hn Hr) as (d' & E & S & N).
  { rewrite DICTHT_SIZE_pow by lia. lia. }
  { rewrite DICTHT_SIZE_pow by lia. lia. }
  exists d'. split; [done|]. split; [done|]. split; [apply S|by apply stays_map].
Qed.

(** ** Scanning *)

(** Calls of [dictScan], each on the dictionary as it is then: the last cursor and
    all the entries returned *)
Fixpoint scan_calls (ds : list (dict SK V)) (v : Z) : res (Z * list (SK * option V)) :=
  match ds with
  | [] => Ok (v, [])
  | d :: ds =>
      '(_, v, l) ← dictScan d v;
      '(v, l') ← scan_calls ds v;
      Ok (v, scanned l ++ l')
  end.

Lemma scan_calls_covers ds v l key : Forall (dict_ok ty) ds → 0 ≤ v ≤ UINT64_MAX → ds ≠ [] →
  scan_calls ds v = Ok (0, l) → Forall (λ d, is_Some (dict_map ty d !! key)) ds →
  rev v ≤ rev (hashFunction ty key) → key ∈ item_key ty <$> l.
Proof.
  revert v l. induction ds as [|d ds IH]; intros v l F Hv Ne E P Hk; [done|]. clear Ne.
  apply Forall_cons in F as [D F]. apply Forall_cons in P as [[x L] P]. cbn [scan_calls] in E.
  pose proof D as (_ & B & _). apply items_map_lookup in L as [Hx Ek]; [|done].
  assert (dictSize d ≠ 0) as N.
  { intros Z0. rewrite (dictSize_zero ty d D Z0) in Hx. by apply not_elem_of_nil in Hx. }
  destruct (dictScan_ok ty d v D N Hv) as (v1 & l1 & E1 & R1 & He & Er & [_ C]).
  rewrite E1 in E. revert E. rs.
  destruct (scan_calls ds v1) as [[v2 l2]|] eqn:E2; rs; [|done]. intros [= -> <-]. rewrite fmap_app, elem_of_app.
  pose proof (rev_range v ltac:(lia)) as Rv. pose proof (step_pos _ He) as Sp.
  pose proof (next_mult_bounds (rev v) _ Sp) as Nb. pose proof (next_mult_max (rev v) _ Rv He) as Nm.
  set (c := next_mult (rev v) (2 ^ (64 - scan_exp d))) in *.
  destruct (decide (rev (hashFunction ty key) < c)) as [Hc|Hc].
  - left. rewrite <- Ek. apply list_elem_of_fmap_2. apply C; [done|]. unfold scan_pos. by rewrite Ek.
  - right. pose proof (rev_range (hashFunction ty key) (proj1 (law_hash key))) as Rk.
    rewrite u64_small in Er by lia. destruct ds as [|d2 ds].
    + cbn in E2. injection E2 as -> <-. change (rev 0) with 0 in Er. lia.
    + eapply (IH v1); [done|lia|done|done|done|lia].
Qed.

(** C3: A full scan, from the cursor 0 until the cursor 0 is returned, returns every
    key that is present during the whole scan, however the dictionary is changed,
    resized and rehashed between the calls. *)
Theorem dictScan_complete (ds : list (dict SK V)) l key :
  Forall (dict_ok ty) ds → ds ≠ [] → scan_calls ds 0 = Ok (0, l) →
  Forall (λ d, is_Some (dict_map ty d !! key)) ds → key ∈ item_key ty <$> l.
Proof.
  intros F N E P. eapply (scan_calls_covers ds 0); try done. change (rev 0) with 0. apply rev_range, law_hash.
Qed.

Lemma next_mult_step k p : 0 < p → next_mult (k * p) p = (k + 1) * p.
Proof. intros. unfold next_mult. by rewrite Z.div_mul by lia. Qed.

(** Calls of [dictScan] on one dictionary until the cursor 0 is returned: the
    dictionary, the number of calls and all the entries returned *)
Fixpoint scan_until (fuel : nat) d (v : Z) : res (dict SK V * nat * list (SK * option V)) :=
  match fuel with
  | O => Fault OutOfFuel
  | S fuel =>
      '(d, v, l) ← dictScan d v;
      if v =? 0 then Ok (d, 1%nat, scanned l) else
      '(d, n, l') ← scan_until fuel d v;
      Ok (d, S n, scanned l ++ l')
  end.

(** After [k] of the [2 ^ e] calls on the same dictionary *)
Lemma scan_until_ok d n v k : dict_ok ty d → dictSize d ≠ 0 → 0 ≤ v ≤ UINT64_MAX → 0 ≤ k → (0 < n)%nat →
  k + Z.of_nat n = 2 ^ scan_exp d → rev v = k * 2 ^ (64 - scan_exp d) →
  ∃ l, scan_until n d v = Ok (d, n, l) ∧ scan_calls (replicate n d) v = Ok (0, l) ∧ ∀ x, x ∈ l → x ∈ dict_items d.
Proof.
  intros D N. revert v k. induction n as [|n IH]; intros v k Hv Hk Hn En Er; [lia|].
  destruct (dictScan_ok ty d v D N Hv) as (v1 & l1 & E1 & R1 & He & Er1 & [Sd _]).
  cbn [replicate scan_calls scan_until]. rewrite E1. rs. pose proof (step_pos _ He) as Sp.
  assert (2 ^ 64 = 2 ^ scan_exp d * 2 ^ (64 - scan_exp d)) as E64 by (rewrite <- Z.pow_add_r by lia; f_equal; lia).
  rewrite Er, next_mult_step in Er1 by done. destruct n as [|n].
  - cbn [replicate scan_calls]. rs. assert (k + 1 = 2 ^ scan_exp d) as Ek by lia. rewrite Ek, <- E64 in Er1.
    change (u64 (2 ^ 64)) with 0 in Er1. assert (v1 = 0) as ->.
    { rewrite <- (rev_rev v1) by lia. rewrite Er1. reflexivity. }
    eexists. split; [done|]. rewrite app_nil_r. done.
  - rewrite u64_small in Er1 by nia. destruct (Z.eqb_spec v1 0) as [->|_]; [change (rev 0) with 0 in Er1; nia|].
    destruct (IH v1 (k + 1)) as (l & -> & -> & Sl); [lia..|done|]. rs. eexists. do 2 (split; [done|]).
    intros x [?|?]%elem_of_app; auto.
Qed.

(** The number of calls of a scan: the buckets of the smaller table in use, or one
    if there is nothing *)
Definition scan_length d : nat := if dictSize d =? 0 then 1%nat else Z.to_nat (2 ^ scan_exp d).

(** C20: A scan ends: on a dictionary that does not change, calls of [dictScan]
    from the cursor 0 return a cursor other than 0 until every entry has been
    returned, and nothing else, and then 0.  The call that returns 0 first is the
    one whose number is the number of buckets of the smaller of the tables in use;
    it is the first call if the dictionary is empty. *)
Theorem dictScan_terminates d :
  dict_ok ty d →
  ∃ l, scan_until (scan_length d) d 0 = Ok (d, scan_length d, l) ∧ ∀ x, x ∈ l ↔ x ∈ dict_items d.
Proof.
  intros D. unfold scan_length. destruct (Z.eqb_spec (dictSize d) 0) as [N|N].
  { exists []. cbn [scan_until]. unfold dictScan. rewrite N. split; [done|]. by rewrite (dictSize_zero ty d D N). }
  destruct (dictScan_ok ty d 0 D N) as (_ & _ & _ & _ & He & _); [lia|].
  assert (0 < 2 ^ scan_exp d) by (apply Z.pow_pos_nonneg; lia).
  destruct (scan_until_ok d (Z.to_nat (2 ^ scan_exp d)) 0 0 D N) as (l & Eu & E & Sd); [lia..|by change (rev 0) with 0|].
  exists l. split; [done|]. intros x. split; [auto|]. intros Hx. pose proof D as (_ & B & _).
  assert (item_key ty x ∈ item_key ty <$> l) as (y & Ey & Hy)%list_elem_of_fmap.
  { eapply (scan_calls_covers (replicate (Z.to_nat (2 ^ scan_exp d)) d) 0); [|lia| |exact E| |].
    - by apply Forall_replicate.
    - destruct (Z.to_nat (2 ^ scan_exp d)) eqn:Ez; [lia|done].
    - apply Forall_replicate. exists x. by apply items_map_lookup.
    - change (rev 0) with 0. apply rev_range, law_hash. }
  assert (dict_map ty d !! item_key ty x = Some y) as L1 by (apply items_map_lookup; auto).
  assert (dict_map ty d !! item_key ty x = Some x) as L2 by (by apply items_map_lookup).
  congruence.
Qed.

(** ** Iterators *)

(** C21: An iterator, safe or not, returns every entry of both tables exactly once,
    also while the dictionary is being rehashed, and then null; reset afterwards, a
    safe one leaves the dictionary as it was. *)
Theorem dictNext_complete d safe :
  dict_ok ty d →
  ∃ it d', iterate (S (length (dict_items d))) (if safe : bool then dictInitSafeIterator else dictInitIterator) d =
      Ok (it, d', dict_items d) ∧ NoDup (dict_items d) ∧ dictResetIterator it d' = d.
Proof.
  intros D. destruct (iterate_ok ty d safe D) as (it & E & [Si Sn] & Sf).
  exists it, (if safe then dictPauseRehashing d else d). split; [by destruct safe|]. split.
  - destruct D as (_ & [N _] & _). by apply NoDup_fmap_1 in N.
  - unfold dictResetIterator. rewrite Sf. assert ((it_index it =? -1) && (it_table it =? 0) = false) as -> by lia.
    destruct safe; [by apply (pause_resume ty)|done].
Qed.

(** Emptying a dictionary frees every stored key exactly once and leaves the
    dictionary of [dictCreate]. *)
Theorem dictEmpty_frees d :
  dict_ok ty d → ∃ freed, dictEmpty d = Ok (dictCreate, freed) ∧ freed ≡ₚ (map_to_list (dict_map ty d)).*2.*1.
Proof.
  intros D. destruct (dictEmpty_ok ty d D) as (fr & E & ->). eexists. split; [done|].
  destruct D as (_ & [N _] & _). unfold dict_map, items_map. rewrite map_to_list_to_map by (by rewrite items_map_keys).
  rewrite <- !list_fmap_compose. done.
Qed.

(** The first insertion relies on automatic resizing to allocate the table: while it
    is paused, [dictAdd] follows the null pointer of a table that is not there. *)
Lemma dictAdd_paused can d k v : rehashidx d = -1 → ht0 d = _dictReset → 0 < pauseAutoResize d →
  dictAdd ty can d k v = Fault OutOfBounds.
Proof.
  intros Hr E P. unfold dictAdd, dictAddRaw, dictFindLinkForInsert, _dictRehashStepIfNeeded, dictIsRehashing.
  rewrite Hr. change (-1 =? -1) with true. cbn [negb orb]. rs. unfold _dictExpandIfNeeded.
  destruct (Z.gtb_spec (pauseAutoResize d) 0); [|lia]. rs. cbn [table_loop Z.eqb andb].
  unfold bucket_index, get_bucket, ht. cbn [Z.eqb]. rewrite E, Hr. cbn [ht_table ht_size_exp _dictReset].
  change (DICTHT_SIZE_MASK (-1)) with 0. rewrite Z.land_0_r. done.
Qed.
End contract.

(** ** Examples *)

(** Dictionaries of integers: with values, and without, the key being part of what
    is stored *)
Definition ex_map : dictType Z Z := DictType u64 Z.eqb id id None false false.
Definition ex_set : dictType Z (Z * Z) := DictType u64 Z.eqb fst fst None true false.

Lemma eqb_compare (a b : Z) : (a =? b) = bool_decide (a = b).
Proof. by destruct (Z.eqb_spec a b); [rewrite bool_decide_true|rewrite bool_decide_false]. Qed.

#[export] Instance ex_map_laws : DictLaws ex_map.
Proof.
  constructor; [apply eqb_compare|]. intros k. pose proof (wrapu_range 64 k). cbn. lia.
Qed.
#[export] Instance ex_set_laws : DictLaws ex_set.
Proof.
  constructor; [apply eqb_compare|]. intros k. pose proof (wrapu_range 64 k). cbn. lia.
Qed.

(** Five keys, the last of which starts a rehashing of the table of four buckets *)
Definition ex_adds : list (dictResizeEnable * @dict_op Z Z Z) :=
  (λ k, (DICT_RESIZE_ENABLE, DAdd k (k * k))) <$> [1; 5; 2; 9; 7].
Definition ex_sets : list (dictResizeEnable * @dict_op Z (Z * Z) Z) :=
  (λ k, (DICT_RESIZE_AVOID, DSet k)) <$> [(1, 10); (5, 50); (1, 11); (2, 20)].

(** The dictionary after a run *)
Definition run_dict {K SK V} `{Countable K} (ty : dictType K SK) (ops : list (dictResizeEnable * @dict_op K SK V)) : dict SK V :=
  match dict_run ty dictCreate ops with Ok (d, _) => d | Fault _ => dictCreate end.

Lemma run_dict_ok {K SK V} `{Countable K} (ty : dictType K SK) `{!DictLaws ty} (ops : list (dictResizeEnable * @dict_op K SK V)) :
  zlen ops ≤ UINT64_MAX → Forall (op_ok ty ∘ snd) ops → dict_ok ty (run_dict ty ops).
Proof.
  intros Hl F. unfold run_dict. destruct (dict_run_ok ty ops dictCreate ∅ 0 (dictCreate_runs ty)) as (d & -> & R); [lia|done|].
  apply R.
Qed.

Lemma ex_map_ok : dict_ok ex_map (run_dict ex_map ex_adds).
Proof. apply (run_dict_ok ex_map ex_adds); [vm_compute; discriminate|by repeat constructor]. Qed.

Lemma dict_refines_map_witness :
  zlen ex_adds ≤ UINT64_MAX ∧ Forall (op_ok ex_map ∘ snd) ex_adds ∧
  ∃ d, dict_run ex_map dictCreate ex_adds = Ok (d, (map_run ex_map ∅ ex_adds).2) ∧
    dict_map ex_map d = (map_run ex_map ∅ ex_adds).1.
Proof.
  split; [vm_compute; discriminate|]. split; [by repeat constructor|].
  apply (dict_refines_map ex_map ex_adds); [vm_compute; discriminate|by repeat constructor].
Defined.

Lemma dict_pointer_types_witness :
  ∃ b rs, dict_run ex_set dictCreate ex_sets = Ok (run_dict ex_set ex_sets, rs) ∧
    b ∈ buckets (ht (run_dict ex_set ex_sets) 0) ∧ b = Entry (5, 50) None (KeyEntry (1, 11)) ∧ shape ex_set b.
Proof.
  exists (Entry (5, 50) None (KeyEntry (1, 11))), [RCode DICT_OK; RCode DICT_OK; RCode DICT_ERR; RCode DICT_OK].
  assert (dict_run ex_set dictCreate ex_sets =
    Ok (run_dict ex_set ex_sets, [RCode DICT_OK; RCode DICT_OK; RCode DICT_ERR; RCode DICT_OK])) as E
    by (vm_compute; reflexivity).
  assert (Entry (5, 50) None (KeyEntry (1, 11)) ∈ buckets (ht (run_dict ex_set ex_sets) 0)) as Hb
    by (apply list_elem_of_lookup; exists 1%nat; vm_compute; reflexivity).
  split; [exact E|]. split; [exact Hb|]. split; [reflexivity|].
  eapply (dict_pointer_types ex_set ex_sets); [vm_compute; discriminate|by repeat constructor|exact E|exact Hb].
Defined.

Lemma rehash_completes_witness :
  rehash_refused DICT_RESIZE_ENABLE (run_dict ex_map ex_adds) = false ∧
  ∃ d', rehash_calls ex_map 4 DICT_RESIZE_ENABLE (run_dict ex_map ex_adds) 1 = Ok d' ∧
    dictIsRehashing d' = false ∧ dict_ok ex_map d' ∧ dict_map ex_map d' = dict_map ex_map (run_dict ex_map ex_adds).
Proof.
  split; [vm_compute; reflexivity|].
  assert (Z.to_nat (DICTHT_SIZE (ht_size_exp (ht0 (run_dict ex_map ex_adds)))) = 4%nat) as <- by (vm_compute; reflexivity).
  apply (rehash_completes ex_map DICT_RESIZE_ENABLE (run_dict ex_map ex_adds) 1);
    [apply ex_map_ok|lia|vm_compute; reflexivity].
Defined.

(** A scan of four calls, of which the first two are on the dictionary that is
    being rehashed and the others on the one that has been *)
Definition ex_rehashed : dict Z Z := run_dict ex_map (ex_adds ++ [(DICT_RESIZE_ENABLE, DRehash 8)]).
Definition ex_scan : list (dict Z Z) := [run_dict ex_map ex_adds; run_dict ex_map ex_adds; ex_rehashed; ex_rehashed; ex_rehashed; ex_rehashed].

Lemma ex_rehashed_ok : dict_ok ex_map ex_rehashed.
Proof.
  unfold ex_rehashed. apply (run_dict_ok ex_map (ex_adds ++ [(DICT_RESIZE_ENABLE, DRehash 8)])); [vm_compute; discriminate|by repeat constructor].
Qed.

Definition ex_scanned : list (Z * option Z) := match scan_calls ex_scan 0 with Ok (_, l) => l | Fault _ => [] end.

Lemma ex_scan_run : scan_calls ex_scan 0 = Ok (0, ex_scanned).
Proof. vm_compute. reflexivity. Qed.

Lemma dictScan_complete_witness :
  scan_calls ex_scan 0 = Ok (0, ex_scanned) ∧ 7 ∈ item_key ex_map <$> ex_scanned.
Proof.
  split; [apply ex_scan_run|]. apply (dictScan_complete ex_map ex_scan ex_scanned 7); [|discriminate|apply ex_scan_run|].
  - unfold ex_scan. rewrite !Forall_cons. split_and!; apply ex_map_ok || apply ex_rehashed_ok || apply Forall_nil_2.
  - unfold ex_scan. rewrite !Forall_cons. split_and!; try apply Forall_nil_2; exists (7, Some 49); vm_compute; reflexivity.
Defined.

Lemma dictScan_terminates_witness :
  dict_ok ex_map (run_dict ex_map ex_adds) ∧
  ∃ l, scan_until 4 (run_dict ex_map ex_adds) 0 = Ok (run_dict ex_map ex_adds, 4%nat, l) ∧
    ∀ x, x ∈ l ↔ x ∈ dict_items (run_dict ex_map ex_adds).
Proof.
  split; [apply ex_map_ok|].
  assert (scan_length (run_dict ex_map ex_adds) = 4%nat) as <- by (vm_compute; reflexivity).
  apply (dictScan_terminates ex_map (run_dict ex_map ex_adds)), ex_map_ok.
Defined.

Lemma dictNext_complete_witness :
  ∃ it d', iterate 6 dictInitSafeIterator (run_dict ex_map ex_adds) = Ok (it, d', dict_items (run_dict ex_map ex_adds)) ∧
    NoDup (dict_items (run_dict ex_map ex_adds)) ∧ dictResetIterator it d' = run_dict ex_map ex_adds.
Proof.
  assert (S (length (dict_items (run_dict ex_map ex_adds))) = 6%nat) as <- by (vm_compute; reflexivity).
  apply (dictNext_complete ex_map (run_dict ex_map ex_adds) true). apply ex_map_ok.
Defined.

Lemma dictEmpty_frees_witness :
  ∃ freed, dictEmpty (run_dict ex_map ex_adds) = Ok (dictCreate, freed) ∧
    freed ≡ₚ (map_to_list (dict_map ex_map (run_dict ex_map ex_adds))).*2.*1.
Proof.
  apply (dictEmpty_frees ex_map (run_dict ex_map ex_adds)). apply ex_map_ok.
Defined.

(** Without a link, [dictSetKeyAtLink] looks an existing entry up by the stored key
    itself instead of the key in it; here the stored key is a pair whose address is
    not that of its key, and the entry is not found. *)
Definition ex_cast : dictType Z (Z * Z) := DictType u64 Z.eqb fst (λ p, 1000 + p.1) None true false.

Lemma dictSetKeyAtLink_cast :
  dict_map ex_cast (run_dict ex_cast ex_sets) !! 5 = Some ((5, 50), None) ∧
  dictSetKeyAtLink ex_cast DICT_RESIZE_ENABLE (run_dict ex_cast ex_sets) (5, 55) None false = Fault AssertFailed.
Proof. split; vm_compute; reflexivity. Qed.
