(* ===== verification/SdsDict.v ===== *)
(** Dictionaries whose keys are strings: the hash function and the comparison that
    [server.c] gives to the dictionaries of sorted sets and of sets. *)

From S2P Require Import Prelude Siphash Dict DictRep.

(** The lengths are converted to [int]; the comparison reads that many bytes. *)
Definition dictSdsKeyCompare (key1 key2 : list Z) : bool :=
  let l1 := s32 (zlen key1) in
  let l2 := s32 (zlen key2) in
  if negb (l1 =? l2) then false
  else bool_decide (take (Z.to_nat (u64 l1)) key1 = take (Z.to_nat (u64 l1)) key2).

(** Strings of bytes whose length fits an [int] *)
Definition sds_ok (k : list Z) : Prop := Forall is_byte k ∧ zlen k ≤ 2147483647.
#[export] Instance sds_ok_dec k : Decision (sds_ok k).
Proof. unfold sds_ok. apply _. Defined.

Definition zkey := dsig sds_ok.
#[export] Instance zkey_eq_dec : EqDecision zkey := _.
#[export] Instance zkey_countable : Countable zkey := _.

(** [dictSdsHash], 0 standing for a hash that is not computed *)
Definition dictSdsHash (seed : list Z) (key : list Z) : Z :=
  match dictGenHashFunction seed key (zlen key) with Ok h => h | Fault _ => 0 end.

(** The string as a key *)
Definition sds_key (s : list Z) : res zkey :=
  match decide (sds_ok s) with left H => Ok (dexist s H) | right _ => Fault OutOfBounds end.

Lemma dictSdsKeyCompare_eq a b : sds_ok a → sds_ok b → dictSdsKeyCompare a b = bool_decide (a = b).
Proof.
  intros [_ Ha] [_ Hb]. unfold dictSdsKeyCompare. rewrite !s32_small by lia.
  destruct (Z.eqb_spec (zlen a) (zlen b)) as [E|E]; cbn [negb].
  - rewrite u64_small by lia. rewrite !take_ge by lia. done.
  - rewrite bool_decide_false; [done|]. intros ->. done.
Qed.

(** A string is taken for one that is [2 ^ 32] bytes longer. *)
Lemma dictSdsKeyCompare_truncates k l : zlen k ≤ 2147483647 → zlen l = 2 ^ 32 → dictSdsKeyCompare k (k ++ l) = true.
Proof.
  intros Hk Hl. unfold dictSdsKeyCompare. rewrite length_app, Nat2Z.inj_add, Hl.
  assert (s32 (zlen k + 2 ^ 32) = zlen k) as ->.
  { unfold wraps. replace (zlen k + 2 ^ 32 + 2 ^ (32 - 1)) with (zlen k + 2 ^ (32 - 1) + 1 * 2 ^ 32) by lia.
    rewrite Z_mod_plus_full. fold (wraps 32 (zlen k)). apply s32_small. lia. }
  rewrite s32_small, Z.eqb_refl, u64_small, Nat2Z.id by lia. cbn [negb]. apply bool_decide_true.
  rewrite take_app_length. by rewrite take_ge.
Qed.

(** A type of dictionaries with this hash and this comparison *)
Lemma sds_laws {SK} (seed : list Z) (ty : dictType zkey SK) :
  Forall is_byte seed → zlen seed = 16 →
  hashFunction ty = (λ k, dictSdsHash seed (`k)) → keyCompare ty = (λ a b, dictSdsKeyCompare (`a) (`b)) →
  DictLaws ty.
Proof.
  intros Hs Hl Eh Ec. constructor.
  - intros [a Ha] [b Hb]. rewrite Ec. cbn. pose proof (bool_decide_unpack _ Ha). pose proof (bool_decide_unpack _ Hb).
    rewrite dictSdsKeyCompare_eq by done. apply bool_decide_ext. symmetry. apply (dsig_eq sds_ok (a ↾ Ha) (b ↾ Hb)).
  - intros [a Ha]. rewrite Eh. cbn. apply bool_decide_unpack in Ha as [Fa _]. unfold dictSdsHash, dictGenHashFunction.
    destruct (siphash_ok a (zlen a) seed) as (h & -> & Hh); [done..|lia|]. done.
Qed.

Lemma sds_key_ok s : sds_ok s → ∃ key : zkey, `key = s ∧ sds_key s = Ok key.
Proof. intros H. unfold sds_key. destruct (decide (sds_ok s)) as [H'|]; [|done]. by exists (dexist s H'). Qed.

Definition ex_seed : list Z := Z.of_nat <$> seq 0 16.
Lemma ex_seed_bytes : Forall is_byte ex_seed.
Proof. apply (bool_decide_unpack _). vm_compute. exact I. Qed.
