(* ===== verification/SetType.v ===== *)
(** Sets: the functions [setType*] of [t_set.c] and the constructors of [object.c].

    A set is an intset, a listpack or a dictionary whose keys are the elements.
    Functions that take or give an element pass a string, or an integer with a null
    string; [str_is_sds] only tells whether a string has to be copied.  The
    accounting of memory in the metadata of the dictionary is left out.  The
    function that tells whether tables may be resized, [can], is the variable
    [dict_can_resize] of [dict.c]. *)

From S2P Require Import Prelude Endian Intset Numstr Sds Listpack LpNav LpMod LpFind.
From S2P Require Import Dict DictApi DictScan SdsDict.

(** ** Data *)

Inductive set_encoding := OBJ_ENCODING_INTSET | OBJ_ENCODING_LISTPACK | OBJ_ENCODING_HT.
#[export] Instance set_encoding_eq_dec : EqDecision set_encoding.
Proof. solve_decision. Defined.

Abbreviation ht := (dict zkey unit).

Inductive sobj := SIntset (iset : intset) | SListpack (lp : list Z) | SHt (d : ht).

Definition encoding_of (o : sobj) : set_encoding :=
  match o with
  | SIntset _ => OBJ_ENCODING_INTSET
  | SListpack _ => OBJ_ENCODING_LISTPACK
  | SHt _ => OBJ_ENCODING_HT
  end.

(** An element that is passed: [str] and [len], or [llval] with a null [str] *)
Inductive sval := VStr (str : list Z) | VInt (llval : Z).

(** The configuration, and the seed of the hash function *)
Class SetConfig := {
  set_max_intset_entries : Z;
  set_max_listpack_entries : Z;
  set_max_listpack_value : Z;
  hash_seed : list Z;
  hash_seed_ok : Forall is_byte hash_seed ∧ zlen hash_seed = 16 }.

(** [setDictType] of [server.c]: what is stored is the key. *)
Definition setDictType `{SetConfig} : dictType zkey zkey :=
  DictType (λ k, dictSdsHash hash_seed (`k)) (λ a b, dictSdsKeyCompare (`a) (`b)) id id None true false.

Section set.
Context `{Arch} `{Allocator} `{SetConfig} (can : dictResizeEnable).

(** ** Creation and size *)

Definition createSetObject : sobj := SHt dictCreate.
Definition createIntsetObject : sobj := SIntset intsetNew.
Definition createSetListpackObject : res sobj := lp ← lpNew 0; Ok (SListpack lp).

(** The length of a listpack is cached in its header when it was not known. *)
Definition setTypeSize (o : sobj) : res (Z * sobj) :=
  match o with
  | SHt d => Ok (dictSize d, o)
  | SIntset iset => Ok (intsetLen iset, o)
  | SListpack lp => '(n, lp) ← lpLength lp; Ok (n, SListpack lp)
  end.

Definition isSdsRepresentableAsLongLong (s : list Z) : bool := bool_decide (is_Some (string2ll s)).

Definition setTypeCreate (value : list Z) (size_hint : Z) : res sobj :=
  if isSdsRepresentableAsLongLong value && (size_hint <=? set_max_intset_entries)
  then Ok createIntsetObject
  else if size_hint <=? set_max_listpack_entries then createSetListpackObject
  else '(d, _) ← dictExpand setDictType can dictCreate size_hint; Ok (SHt d).

(** ** Iterators *)

Record setTypeIterator := SI { si_di : @dictIterator zkey unit; si_ii : Z; si_lpi : option Z }.

Definition setTypeInitIterator : setTypeIterator := SI dictInitIterator 0 None.

(** The element, or none for the result -1.  The iterator of a dictionary is not a
    safe one and leaves the dictionary as it is; so resetting it does nothing. *)
Definition setTypeNext (si : setTypeIterator) (o : sobj) : res (setTypeIterator * option sval) :=
  match o with
  | SHt d =>
      '(di, _, de) ← dictNext (si_di si) d;
      let si := SI di (si_ii si) (si_lpi si) in
      if is_null de then Ok (si, None)
      else key ← dictGetKey de; Ok (si, Some (VStr (`key)))
  | SIntset iset =>
      v ← intsetGet iset (u32 (si_ii si));
      let si := SI (si_di si) (s32 (si_ii si + 1)) (si_lpi si) in
      Ok (si, option_map VInt v)
  | SListpack lp =>
      lpi ← match si_lpi si with None => lpFirst lp | Some p => lpNext lp p end;
      match lpi with
      | None => Ok (si, None)
      | Some p =>
          let si := SI (si_di si) (si_ii si) lpi in
          v ← lpGetValue lp p;
          match v with
          | RPtr vstr vlen => s ← mem_read lp vstr vlen; Ok (si, Some (VStr s))
          | RNull llele => Ok (si, Some (VInt llele))
          | RBuf _ _ => Fault OutOfBounds
          end
      end
  end.

(** A string for an element *)
Definition sval_sds (v : sval) : res (list Z) :=
  match v with VStr s => Ok s | VInt v => sdsfromlonglong v end.

Definition setTypeNextObject (si : setTypeIterator) (o : sobj) : res (setTypeIterator * option (list Z)) :=
  '(si, v) ← setTypeNext si o;
  match v with
  | None => Ok (si, None)
  | Some v => s ← sval_sds v; Ok (si, Some s)
  end.

(** The loop [while (setTypeNext(...) != -1)] from the iterator [si]; the body [f]
    tells whether to go on. *)
Fixpoint next_while {S} (fuel : nat) (o : sobj) (f : S → sval → res (S * bool)) (si : setTypeIterator) (s : S) : res S :=
  match fuel with
  | O => Fault OutOfFuel
  | Datatypes.S fuel =>
      '(si, v) ← setTypeNext si o;
      match v with
      | None => Ok s
      | Some v =>
          '(s, continue) ← f s v;
          if continue : bool then next_while fuel o f si s else Ok s
      end
  end.

(** Every entry of a listpack takes a byte at least. *)
Definition iter_bound (o : sobj) : nat :=
  S (match o with
     | SHt d => Z.to_nat (dictSize d)
     | SIntset iset => Z.to_nat (intsetLen iset)
     | SListpack lp => length lp
     end).

(** The whole loop, with and without [break] *)
Definition iter_while {S} (o : sobj) (f : S → sval → res (S * bool)) (s : S) : res S :=
  next_while (iter_bound o) o f setTypeInitIterator s.
Definition iter {S} (o : sobj) (f : S → sval → res S) (s : S) : res S :=
  iter_while o (λ s v, s ← f s v; Ok (s, true)) s.

(** ** Conversion *)

(** [serverAssert(dictAdd(d,element,NULL) == DICT_OK)] *)
Definition ht_add (d : ht) (element : list Z) : res ht :=
  key ← sds_key element;
  '(d, r) ← dictAdd setDictType can d key tt;
  match r with DICT_OK => Ok d | DICT_ERR => Fault AssertFailed end.

(** [alloc] is none for [panic]; otherwise it tells which allocations succeed, and
    the result is none for [C_ERR]. *)
Definition setTypeConvertAndExpand (o : sobj) (enc : set_encoding) (cap : Z) (alloc : option (Z → bool))
    : res (option sobj) :=
  _ ← assert_ (negb (bool_decide (encoding_of o = enc)));
  match enc with
  | OBJ_ENCODING_HT =>
      '(d, r) ←
        match alloc with
        | None => '(d, _) ← dictExpand setDictType can dictCreate cap; Ok (d, DICT_OK)
        | Some alloc => dictTryExpand setDictType can dictCreate cap alloc
        end;
      match r with
      | DICT_ERR => Ok None
      | DICT_OK => d ← iter o (λ d v, s ← sval_sds v; ht_add d s) d; Ok (Some (SHt d))
      end
  | OBJ_ENCODING_LISTPACK =>
      '(n, o) ← (if bool_decide (encoding_of o = OBJ_ENCODING_INTSET) then setTypeSize o else Ok (0, o));
      estcap ←
        match o with
        | SIntset iset =>
            if n >? 0 then
              min ← intsetMin iset;
              max ← intsetMax iset;
              Ok (Z.max (lpEstimateBytesRepeatedInteger min cap) (lpEstimateBytesRepeatedInteger max cap))
            else Ok (u64 (cap * 2))
        | _ => Ok (u64 (cap * 2))
        end;
      lp ← lpNew estcap;
      lp ← iter o (λ lp v,
             lp ← match v with VStr s => lpAppend lp s | VInt llele => lpAppendInteger lp llele end;
             lp_nonnull lp) lp;
      Ok (Some (SListpack lp))
  | OBJ_ENCODING_INTSET => Fault AssertFailed
  end.

(** A conversion that panics returns [C_OK]. *)
Definition convert_or_panic (o : sobj) (enc : set_encoding) (cap : Z) : res sobj :=
  o ← setTypeConvertAndExpand o enc cap None; nonnull o.

Definition setTypeConvert (o : sobj) (enc : set_encoding) : res sobj :=
  '(n, o) ← setTypeSize o; convert_or_panic o enc n.

Definition setTypeMaybeConvert (o : sobj) (size_hint : Z) : res sobj :=
  if bool_decide (encoding_of o = OBJ_ENCODING_LISTPACK) && (size_hint >? set_max_listpack_entries)
     || bool_decide (encoding_of o = OBJ_ENCODING_INTSET) && (size_hint >? set_max_intset_entries)
  then convert_or_panic o OBJ_ENCODING_HT size_hint else Ok o.

Definition intsetMaxEntries : Z :=
  if set_max_intset_entries >=? 2 ^ 30 then 2 ^ 30 else set_max_intset_entries.

Definition maybeConvertIntset (o : sobj) : res sobj :=
  match o with
  | SIntset iset => if intsetLen iset >? intsetMaxEntries then setTypeConvert o OBJ_ENCODING_HT else Ok o
  | _ => Fault AssertFailed
  end.

Definition maybeConvertToIntset (o : sobj) : res sobj :=
  if bool_decide (encoding_of o = OBJ_ENCODING_INTSET) then Ok o else
  '(n, o) ← setTypeSize o;
  if n >? intsetMaxEntries then Ok o else
  iset ← iter o (λ iset v,
         llval ← match v with VStr s => nonnull (string2ll s) | VInt llval => Ok llval end;
         '(iset, success) ← intsetAdd junk iset llval;
         _ ← assert_ success;
         Ok iset) intsetNew;
  Ok (SIntset iset).

(** ** Adding *)

(** The string of an element that is looked up in a listpack or a dictionary, with
    the integer it came in as; the buffer has [LONG_STR_SIZE] bytes. *)
Definition sval_str (v : sval) : res (list Z * option Z) :=
  match v with
  | VStr s => Ok (s, None)
  | VInt llval =>
      '(len, tmpbuf) ← ll2string (local_buf 21) llval;
      Ok (take (Z.to_nat len) tmpbuf, Some llval)
  end.

Definition intset_add (iset : intset) (value : Z) : res (sobj * bool) :=
  '(iset, success) ← intsetAdd junk iset value;
  if success : bool then o ← maybeConvertIntset (SIntset iset); Ok (o, true) else Ok (SIntset iset, false).

(** A string that is no integer is added to an intset, which becomes a listpack or a
    dictionary. *)
Definition intset_add_str (iset : intset) (str : list Z) : res (sobj * bool) :=
  let len := zlen str in
  let n := intsetLen iset in
  '(maxelelen, totsize) ←
    (if negb (n =? 0) then
       max ← intsetMax iset;
       min ← intsetMin iset;
       Ok (Z.max (sdigits10 max) (sdigits10 min),
           Z.max (lpEstimateBytesRepeatedInteger max n) (lpEstimateBytesRepeatedInteger min n))
     else Ok (0, 0));
  safe ← lpSafeToAdd None (u64 (totsize + len));
  if (n <? set_max_listpack_entries) && (len <=? set_max_listpack_value)
     && (maxelelen <=? set_max_listpack_value) && safe
  then
    o ← convert_or_panic (SIntset iset) OBJ_ENCODING_LISTPACK (n + 1);
    match o with
    | SListpack lp =>
        lp ← lpAppend lp str;
        lp ← lp_nonnull lp;
        lp ← lpShrinkToFit lp;
        Ok (SListpack lp, true)
    | _ => Fault OutOfBounds
    end
  else
    o ← convert_or_panic (SIntset iset) OBJ_ENCODING_HT (n + 1);
    match o with
    | SHt d => d ← ht_add d str; Ok (SHt d, true)
    | _ => Fault OutOfBounds
    end.

Definition lp_member (lp : list Z) (str : list Z) : res (option Z) :=
  p ← lpFirst lp;
  match p with None => Ok None | Some _ => lpFind lp p str 0 end.

Definition listpack_add (lp : list Z) (str : list Z) (int : option Z) : res (sobj * bool) :=
  let len := zlen str in
  p ← lp_member lp str;
  match p with
  | Some _ => Ok (SListpack lp, false)
  | None =>
      '(n, lp) ← lpLength lp;
      fits ← (if (n <? set_max_listpack_entries) && (len <=? set_max_listpack_value)
              then lpSafeToAdd (Some lp) len else Ok false);
      if fits : bool then
        lp ← match int with Some llval => lpAppendInteger lp llval | None => lpAppend lp str end;
        lp ← lp_nonnull lp;
        Ok (SListpack lp, true)
      else
        '(n, lp) ← lpLength lp;
        o ← convert_or_panic (SListpack lp) OBJ_ENCODING_HT (n + 1);
        match o with
        | SHt d => d ← ht_add d str; Ok (SHt d, true)
        | _ => Fault OutOfBounds
        end
  end.

(** The result is true if the element was added. *)
Definition setTypeAddAux (o : sobj) (v : sval) : res (sobj * bool) :=
  match o, v with
  | SIntset iset, VInt llval => intset_add iset llval
  | _, _ =>
      '(str, int) ← sval_str v;
      match o with
      | SHt d =>
          key ← sds_key str;
          '(d, link, bucket) ← dictFindLink setDictType can d key true;
          match link with
          | None => '(d, _) ← dictSetKeyAtLink setDictType can d key bucket true; Ok (SHt d, true)
          | Some _ => Ok (SHt d, false)
          end
      | SListpack lp => listpack_add lp str int
      | SIntset iset =>
          match string2ll str with
          | Some value => intset_add iset value
          | None => intset_add_str iset str
          end
      end
  end.

Definition setTypeAdd (o : sobj) (value : list Z) : res (sobj * bool) := setTypeAddAux o (VStr value).

(** ** Removing *)

Definition setTypeRemoveAux (o : sobj) (v : sval) : res (sobj * bool) :=
  match o, v with
  | SIntset iset, VInt llval => '(iset, success) ← intsetRemove junk iset llval; Ok (SIntset iset, success)
  | _, _ =>
      '(str, _) ← sval_str v;
      match o with
      | SHt d =>
          key ← sds_key str;
          '(d, r) ← dictDelete setDictType can d key;
          Ok (SHt d, match r with DICT_OK => true | DICT_ERR => false end)
      | SListpack lp =>
          p ← lp_member lp str;
          match p with
          | None => Ok (o, false)
          | Some p =>
              r ← lpDelete lp p;
              match r with
              | Some (lp, _) => Ok (SListpack lp, true)
              | None => Fault OutOfBounds
              end
          end
      | SIntset iset =>
          match string2ll str with
          | Some llval => '(iset, success) ← intsetRemove junk iset llval; Ok (SIntset iset, success)
          | None => Ok (o, false)
          end
      end
  end.

Definition setTypeRemove (o : sobj) (value : list Z) : res (sobj * bool) := setTypeRemoveAux o (VStr value).

(** ** Membership *)

(** A lookup in a dictionary that is being rehashed moves entries. *)
Definition setTypeIsMemberAux (o : sobj) (v : sval) : res (sobj * bool) :=
  match o, v with
  | SIntset iset, VInt llval => b ← intsetFind iset llval; Ok (o, b)
  | _, _ =>
      '(str, _) ← sval_str v;
      match o with
      | SListpack lp => p ← lp_member lp str; Ok (o, bool_decide (is_Some p))
      | SIntset iset =>
          match string2ll str with
          | Some llval => b ← intsetFind iset llval; Ok (o, b)
          | None => Ok (o, false)
          end
      | SHt d =>
          key ← sds_key str;
          '(d, de) ← dictFind setDictType can d key;
          Ok (SHt d, bool_decide (is_Some de))
      end
  end.

Definition setTypeIsMember (o : sobj) (value : list Z) : res (sobj * bool) := setTypeIsMemberAux o (VStr value).

(** ** Copying *)

(** The blobs of an intset and a listpack are copied; for a listpack the bytes that
    are in use. *)
Definition setTypeDup (o : sobj) : res sobj :=
  match o with
  | SIntset iset => Ok (SIntset iset)
  | SListpack lp =>
      sz ← lpBytes lp;
      new_lp ← mem_read lp 0 sz;
      new_lp ← mem_write (lp_malloc sz) 0 new_lp;
      Ok (SListpack new_lp)
  | SHt d =>
      '(d', _) ← dictExpand setDictType can dictCreate (dictSize d);
      iter o (λ set v,
        '(set, _) ← match v with VStr s => setTypeAdd set s | VInt _ => Fault OutOfBounds end;
        Ok set) (SHt d')
  end.
End set.
