(* ===== verification/SetRep.v ===== *)
(** The elements of a set object: what the three encodings hold, and what a loop over
    the elements does.

    [set_vals o vs] says that iterating over the set [o] gives the elements [vs];
    [holds o X] that [o] stands for the finite set of strings [X], and [set_rep o X]
    that it also is within the limit for its encoding. *)

From S2P Require Import Prelude Endian Intset Numstr Sds Listpack LpNav LpMod LpFind LpRange LpApi.
From S2P Require Import Dict DictApi DictRep DictFind DictOps DictScan DictIter DictRun SdsDict SetType.

(** ** Elements *)

(** The string of an element *)
Definition sval_s (v : sval) : list Z := match v with VStr s => s | VInt v => decs v end.

Definition sval_ok (v : sval) : Prop := match v with VStr s => sds_ok s | VInt v => is_i64 v end.

Definition ent_val (e : lpent) : sval := match ent_value e with EInt v => VInt v | EStr s => VStr s end.

Lemma ent_val_str e : sval_s (ent_val e) = ent_str e.
Proof. unfold ent_val, ent_str. by destruct (ent_value e). Qed.

Lemma decs_sds v : is_i64 v → sds_ok (decs v).
Proof. intros Hv. split; [apply decs_bytes|]. pose proof (decs_len v Hv). lia. Qed.

Lemma sval_s_ok v : sval_ok v → sds_ok (sval_s v).
Proof. destruct v; [done|]. apply decs_sds. Qed.

Lemma decs_inj v w : is_i64 v → is_i64 w → decs v = decs w → v = w.
Proof. intros Hv Hw E. apply string2ll_complete in Hv, Hw. congruence. Qed.

(** ** Loops over lists *)

Section each.
Context {A B : Type} (f : A → B → res (A * bool)).

Fixpoint each_while (s : A) (vs : list B) : res A :=
  match vs with
  | [] => Ok s
  | v :: vs => '(s, continue) ← f s v; if continue : bool then each_while s vs else Ok s
  end.
End each.

Fixpoint each {A B} (f : A → B → res A) (s : A) (vs : list B) : res A :=
  match vs with
  | [] => Ok s
  | v :: vs => s ← f s v; each f s vs
  end.

Lemma each_while_each {A B} (f : A → B → res A) s vs :
  each_while (λ s v, s ← f s v; Ok (s, true)) s vs = each f s vs.
Proof.
  revert s. induction vs as [|v vs IH]; intros s; [done|]. cbn [each_while each]. destruct (f s v); rs; [apply IH|done].
Qed.

(** A loop that keeps a relation to the elements seen so far *)
Lemma each_inv {A B} (P : list B → A → Prop) (f : A → B → res A) vs : ∀ s l0,
  P l0 s → (∀ l v r s, l0 ++ vs = l ++ v :: r → P l s → ∃ s', f s v = Ok s' ∧ P (l ++ [v]) s') →
  ∃ s', each f s vs = Ok s' ∧ P (l0 ++ vs) s'.
Proof.
  induction vs as [|v vs IH]; intros s l0 HP Hf; cbn [each].
  { exists s. by rewrite app_nil_r. }
  destruct (Hf l0 v vs s eq_refl HP) as (s1 & -> & HP1). rs.
  destruct (IH s1 (l0 ++ [v]) HP1) as (s2 & E & HP2).
  - intros l w r s' E HPl. rewrite <- app_assoc in E. by eapply Hf.
  - exists s2. split; [done|]. by rewrite <- app_assoc in HP2.
Qed.

(** ** What iterators give *)

Section rep.
Context `{Arch} `{Allocator} `{SetConfig}.

#[export] Instance setDictType_laws : DictLaws setDictType.
Proof. destruct hash_seed_ok. by apply (sds_laws hash_seed). Qed.

Definition ht_item (x : zkey * option unit) : sval := VStr (`x.1).

Record ht_ok (d : ht) : Prop := {
  hk_ok : dict_ok setDictType d;
  hk_auto : pauseAutoResize d ≤ 0;
  hk_valued : valued setDictType (dict_map setDictType d) }.

Definition set_vals (o : sobj) (vs : list sval) : Prop :=
  match o with
  | SIntset iset => ∃ xs, intset_rep iset xs ∧ vs = VInt <$> xs
  | SListpack lp => ∃ es, lp_rep lp es ∧ vs = ent_val <$> es
  | SHt d => ht_ok d ∧ vs = ht_item <$> dict_items d
  end.

Record set_list (o : sobj) (vs : list sval) : Prop := {
  sl_vals : set_vals o vs;
  sl_ok : Forall sval_ok vs;
  sl_nodup : NoDup (sval_s <$> vs) }.

Definition holds (o : sobj) (X : gset (list Z)) : Prop :=
  ∃ vs, set_list o vs ∧ X = list_to_set (sval_s <$> vs).

(** An intset is within the limit for intsets. *)
Definition bounded (o : sobj) : Prop :=
  match o with SIntset iset => intsetLen iset ≤ set_max_intset_entries | _ => True end.

Definition set_rep (o : sobj) (X : gset (list Z)) : Prop := holds o X ∧ bounded o.

(** Intsets are shorter than the length from which byte counts overflow. *)
Definition config_ok : Prop := 0 ≤ set_max_intset_entries ∧ set_max_intset_entries + 1 < INTSET_SAFE.

(** From the iterator [si], the elements [rest] are left. *)
Fixpoint yields (o : sobj) (si : setTypeIterator) (rest : list sval) : Prop :=
  match rest with
  | [] => ∃ si', setTypeNext si o = Ok (si', None)
  | v :: rest => ∃ si', setTypeNext si o = Ok (si', Some v) ∧ yields o si' rest
  end.

Lemma next_while_ok {A} o (f : A → sval → res (A * bool)) rest : ∀ fuel si s,
  yields o si rest → (length rest < fuel)%nat → next_while fuel o f si s = each_while f s rest.
Proof.
  induction rest as [|v rest IH]; intros [|fuel] si s Hy Hf; try (cbn in Hf; lia); cbn [next_while each_while].
  - destruct Hy as (si' & ->). done.
  - destruct Hy as (si' & -> & Hy). rs. destruct (f s v) as [[s' [|]]|]; rs; try done. apply IH; [done|cbn in Hf; lia].
Qed.

Lemma yields_intset iset xs n : intset_rep iset xs → (n ≤ length xs)%nat →
  ∀ si, si_ii si = Z.of_nat n → yields (SIntset iset) si (VInt <$> drop n xs).
Proof.
  intros R Hn. remember (length xs - n)%nat as k eqn:Hk. revert n Hn Hk.
  pose proof (rep_len _ _ R) as Hl. pose proof (rep_size _ _ R) as Hs. unfold INTSET_SAFE in Hs.
  induction k as [|k IH]; intros n Hn Hk si Hi.
  - rewrite drop_ge by lia. cbn [fmap list_fmap yields setTypeNext]. rewrite Hi, u32_small by lia. unfold intsetGet.
    rewrite Hl. replace (_ <? _) with false by lia. rs. by eexists.
  - destruct (lookup_lt_is_Some_2 xs n ltac:(lia)) as [x Hx]. rewrite (drop_S _ _ _ Hx).
    cbn [fmap list_fmap yields setTypeNext]. rewrite Hi, u32_small by lia. unfold intsetGet.
    rewrite Hl. replace (_ <? _) with true by lia. rewrite !s32_small by lia.
    rewrite (intsetGet_rep iset xs n x) by done. rs. eexists. split; [done|]. apply IH; [lia..|].
    cbn. lia.
Qed.

Lemma yields_listpack lp es n : lp_rep lp es → (n ≤ length es)%nat →
  ∀ si, match n with O => si_lpi si = None | S n => si_lpi si = Some (lp_at es n) end →
  yields (SListpack lp) si (ent_val <$> drop n es).
Proof.
  intros R Hn. remember (length es - n)%nat as k eqn:Hk. revert n Hn Hk.
  induction k as [|k IH]; intros n Hn Hk si Hi.
  all: assert (match si_lpi si with None => lpFirst lp | Some p => lpNext lp p end = Ok (lp_ptr es n)) as En
    by (destruct n as [|n]; rewrite Hi; [apply (api_first R)|apply (api_next R); lia]).
  - rewrite drop_ge by lia. cbn [fmap list_fmap yields setTypeNext]. rewrite En, lp_ptr_none by lia. rs. by eexists.
  - destruct (lookup_lt_is_Some_2 es n ltac:(lia)) as [e He]. rewrite (drop_S _ _ _ He).
    cbn [fmap list_fmap yields setTypeNext]. rewrite En, lp_ptr_some by lia. rs.
    pose proof (api_value R n e He) as Hv. unfold ent_val. fold (lp_at es n).
    destruct (ent_value e) as [v|s].
    + rewrite Hv. rs. eexists. split; [done|]. by apply IH; [lia..|].
    + destruct Hv as (p & -> & Hr & _). rs. rewrite Hr. rs. eexists. split; [done|]. by apply IH; [lia..|].
Qed.

Lemma yields_items d (D : dict_ok setDictType d) l : ∀ si r, r = dictNext (si_di si) d →
  returns setDictType d (si_di si) l r → yields (SHt d) si (ht_item <$> l).
Proof.
  induction l as [|x l IH]; intros si r Er (it & e & E & Hl & St & T & _); cbn [fmap list_fmap yields setTypeNext];
    rewrite <- Er, E; rs.
  - rewrite Hl. cbn [is_null]. by eexists.
  - destruct Hl as (Hh & He & Hp). destruct e as [|k|k w nx]; [done|..]; cbn in Hh; injection Hh as <-;
      cbn [is_null dictGetKey]; rs; (eexists; split; [done|]); (eapply IH; [done|]); cbn [si_di]; rewrite <- Hp;
      by apply dictNext_ok.
Qed.

Lemma set_yields o vs : set_vals o vs → yields o setTypeInitIterator vs.
Proof.
  destruct o as [iset|lp|d]; cbn [set_vals].
  - intros (xs & R & ->). by apply (yields_intset iset xs 0); [|lia|].
  - intros (es & R & ->). by apply (yields_listpack lp es 0); [|lia|].
  - intros [[D _ _] ->]. eapply yields_items; [done|done|]. by apply (dictNext_first setDictType d false).
Qed.

Lemma iter_bound_ok o vs : set_vals o vs → (length vs < iter_bound o)%nat.
Proof.
  destruct o as [iset|lp|d]; unfold iter_bound; cbn [set_vals].
  - intros (xs & R & ->). rewrite length_fmap. unfold intsetLen. rewrite (rep_len _ _ R). lia.
  - intros (es & R & ->). rewrite length_fmap. pose proof (api_count R). lia.
  - intros [[D _ _] ->]. rewrite length_fmap, (dictSize_items setDictType) by done. lia.
Qed.

(** A loop over the elements of a set is a loop over the list of its elements. *)
Lemma iter_while_ok {A} o vs (f : A → sval → res (A * bool)) s : set_vals o vs → iter_while o f s = each_while f s vs.
Proof. intros R. unfold iter_while. apply next_while_ok; [by apply set_yields|by apply iter_bound_ok]. Qed.

Lemma iter_ok {A} o vs (f : A → sval → res A) s : set_vals o vs → iter o f s = each f s vs.
Proof. intros R. unfold iter. rewrite (iter_while_ok o vs) by done. apply each_while_each. Qed.
End rep.
