(* ===== verification/SetSpec.v ===== *)
(** Sets as finite sets of strings: every encoding implements adding, removing and
    membership, and conversions keep the elements. *)

From S2P Require Import Prelude Endian Intset Numstr Sds Listpack LpNav LpMod LpFind LpRange LpApi.
From S2P Require Import Dict DictApi DictRep DictResize DictFind DictOps DictSpec DictLink DictScan DictIter.
From S2P Require Import DictRun SdsDict SetType SetRep.

Section spec.
Context `{Arch} `{Allocator} `{SetConfig} (can : dictResizeEnable).

Abbreviation ty := setDictType.
Implicit Types (X : gset (list Z)).

Lemma set_size o X vs : set_list o vs → X = list_to_set (sval_s <$> vs) → size X = length vs.
Proof. intros L ->. rewrite size_list_to_set by apply L. by rewrite length_fmap. Qed.

Lemma rep_ok o X s : holds o X → s ∈ X → sds_ok s.
Proof.
  intros (vs & L & ->). rewrite elem_of_list_to_set, list_elem_of_fmap. intros (v & -> & Hv).
  apply sval_s_ok. by eapply Forall_forall in Hv; [|apply L].
Qed.

(** ** Dictionaries *)

Record ht_models (d : ht) X : Prop := {
  hm_ok : ht_ok d;
  hm_elem : ∀ key : zkey, `key ∈ X ↔ is_Some (dict_map ty d !! key);
  hm_sds : ∀ s, s ∈ X → sds_ok s }.

Lemma ht_keys (d : ht) : sval_s <$> (ht_item <$> dict_items d) = proj1_sig <$> (item_key ty <$> dict_items d).
Proof. rewrite <- !list_fmap_compose. done. Qed.

Lemma ht_list d : ht_ok d → set_list (SHt d) (ht_item <$> dict_items d).
Proof.
  intros Hd. constructor; [done|..].
  - apply Forall_fmap, Forall_true. intros [key v]. cbn. apply (proj2_dsig key).
  - rewrite ht_keys. apply NoDup_fmap_2; [|apply (hk_ok d Hd)]. intros a b E. by apply dsig_eq.
Qed.

Lemma rep_ht d X : holds (SHt d) X ↔ ht_models d X.
Proof.
  assert (∀ (d : ht) key, ht_ok d → `key ∈@{gset (list Z)} list_to_set (sval_s <$> (ht_item <$> dict_items d)) ↔
    is_Some (dict_map ty d !! key)) as Hel.
  { intros d' key Hd. rewrite elem_of_list_to_set, ht_keys, list_elem_of_fmap. unfold dict_map.
    destruct (items_map ty (dict_items d') !! key) as [x|] eqn:E.
    - apply items_map_lookup in E as [Hx <-]; [|apply Hd]. split; [by eexists|]. intros _. exists (item_key ty x).
      split; [done|]. by apply list_elem_of_fmap_2.
    - apply items_map_None in E. split; [|by intros []]. intros (k & Ek & Hk). apply dsig_eq in Ek as ->. done. }
  split.
  - intros R. pose proof R as (vs & [[Hd ->] Hok _] & ->). constructor; [done|by intros; apply Hel|].
    intros s. by eapply rep_ok.
  - intros [Hd Hx Hs]. exists (ht_item <$> dict_items d). split; [by apply ht_list|]. apply set_eq. intros s. split.
    + intros Hin. destruct (sds_key_ok s (Hs s Hin)) as (key & <- & _). apply Hel; [done|]. by apply Hx.
    + intros Hin. assert (sds_ok s) as Hk.
      { apply elem_of_list_to_set, list_elem_of_fmap in Hin as (v & -> & Hv). apply sval_s_ok.
        eapply Forall_forall in Hv; [done|]. by apply (ht_list d). }
      destruct (sds_key_ok s Hk) as (key & <- & _). apply Hx. by apply Hel.
Qed.

Lemma ht_becomes d d' m X X' : ht_models d X → becomes ty d m d' → valued ty m →
  (∀ key : zkey, `key ∈ X' ↔ is_Some (m !! key)) → (∀ s, s ∈ X' → sds_ok s) → ht_models d' X'.
Proof.
  intros [[D A V] _ _] [D' M [_ P]] Vm Hel Hs. constructor; [|by rewrite M|done].
  constructor; [done|lia|by rewrite M].
Qed.

Lemma ht_same d d' X : ht_models d X → becomes ty d (dict_map ty d) d' → ht_models d' X.
Proof. intros R B. pose proof R as [[D A V] Hx Hs]. by eapply ht_becomes. Qed.

Lemma ht_insert d d' X (key : zkey) : ht_models d X → becomes ty d (<[key := (key, None)]> (dict_map ty d)) d' →
  ht_models d' ({[`key]} ∪ X).
Proof.
  intros R B. pose proof R as [[D A V] Hx Hs]. eapply ht_becomes; [done|done|by apply valued_insert|..].
  - intros k. rewrite elem_of_union, elem_of_singleton, Hx, lookup_insert_is_Some. split.
    + intros [->%dsig_eq|Hk]; [by left|]. destruct (decide (key = k)); [by left|by right].
    + intros [->|[_ Hk]]; [by left|by right].
  - intros s. rewrite elem_of_union, elem_of_singleton. intros [->|?]; [apply (proj2_dsig key)|auto].
Qed.

Lemma ht_delete d d' X (key : zkey) : ht_models d X → becomes ty d (delete key (dict_map ty d)) d' →
  ht_models d' (X ∖ {[`key]}).
Proof.
  intros R B. pose proof R as [[D A V] Hx Hs]. eapply ht_becomes; [done|done|by apply valued_delete|..].
  - intros k. rewrite elem_of_difference, elem_of_singleton, Hx, lookup_delete_is_Some. split.
    + intros [Hk N]. split; [|done]. by intros ->.
    + intros [N Hk]. split; [done|]. intros E. by apply dsig_eq in E.
  - intros s. rewrite elem_of_difference. intros [? _]. auto.
Qed.

Lemma ht_size d X : ht_models d X → dictSize d = Z.of_nat (size X) ∧ Z.of_nat (base.size (dict_map ty d)) = Z.of_nat (size X).
Proof.
  intros R. apply rep_ht in R as (vs & L & E). pose proof (set_size _ _ _ L E) as Hl.
  destruct L as [[[D _ _] ->] _ _]. rewrite length_fmap in Hl. unfold dict_map.
  rewrite (dictSize_items ty), (items_map_size ty) by (done || apply D). lia.
Qed.

Lemma ht_room d X : ht_models d X → Z.of_nat (size X) < UINT64_MAX → room ty d ∧ can_insert d.
Proof.
  intros R Hn. destruct (ht_size d X R) as [_ E]. split; [unfold room; lia|]. left. apply R.
Qed.

Lemma ht_lookup d X (key : zkey) : ht_models d X → (dict_map ty d !! key = None ↔ `key ∉ X).
Proof. intros R. rewrite (hm_elem d X R), <- not_eq_None_Some. destruct (_ !! key); naive_solver. Qed.

Lemma ht_create : ht_models dictCreate ∅.
Proof.
  assert (∀ key, dict_map ty (@dictCreate zkey unit) !! key = None) as E by (intros key; apply lookup_empty).
  constructor; [|intros key; rewrite E; split; [set_solver|by intros []]|set_solver].
  constructor; [apply dictCreate_ok|done|]. intros ? ? ?. by rewrite E.
Qed.

Lemma ht_expand d X n : ht_models d X → 0 ≤ n →
  ∃ d' r, dictExpand ty can d n = Ok (d', r) ∧ ht_models d' X.
Proof.
  intros R Hn. destruct (dictExpand_ok ty can d n) as (d' & r & E & [S _ _]); [apply R|done|].
  exists d', r. split; [done|]. eapply ht_same; [done|]. by apply stays_becomes; [apply R|].
Qed.

(** [dictAdd] of a new element *)
Lemma ht_add_ok d X s : ht_models d X → Z.of_nat (size X) < UINT64_MAX → sds_ok s → s ∉ X →
  ∃ d', ht_add can d s = Ok d' ∧ ht_models d' ({[s]} ∪ X).
Proof.
  intros R Hn Hs Hx. unfold ht_add. destruct (sds_key_ok s Hs) as (key & <- & ->). rs.
  destruct (ht_room d X R Hn) as [Ro Ci].
  destruct (dictAdd_ok ty can d key tt key) as (d' & r & -> & Q); [apply R|done|done|done|]. rs.
  apply (ht_lookup d X key R) in Hx as E. rewrite E in Q. destruct Q as [-> B]. exists d'. split; [done|].
  by eapply ht_insert.
Qed.

(** ** Conversion to a dictionary *)

Lemma sval_sds_ok v : sval_ok v → sval_sds v = Ok (sval_s v).
Proof. destruct v; [done|]. apply sdsfromlonglong_ok. Qed.

Definition sval_int (v : sval) : option Z := match v with VStr _ => None | VInt v => Some v end.

Lemma sval_str_ok v : sval_ok v → sval_str v = Ok (sval_s v, sval_int v).
Proof.
  destruct v as [s|v]; [done|]. intros Hv. cbn [sval_str sval_s sval_int]. pose proof (decs_len v Hv).
  rewrite ll2string_ok by (done || rewrite local_buf_length; lia). rs. by rewrite Nat2Z.id, take_app_length.
Qed.

Lemma nodup_middle {A} (l : list A) x r : NoDup (l ++ x :: r) → x ∉ l.
Proof. intros (_ & Hd & _)%NoDup_app Hx. by eapply Hd; [|left]. Qed.

Lemma strs_snoc l v : (list_to_set (sval_s <$> l ++ [v]) : gset (list Z)) = {[sval_s v]} ∪ list_to_set (sval_s <$> l).
Proof. rewrite fmap_app, list_to_set_app_L. cbn. set_solver. Qed.

Lemma each_ht d vs : Forall sval_ok vs → NoDup (sval_s <$> vs) → zlen vs ≤ UINT64_MAX → ht_models d ∅ →
  ∃ d', each (λ d v, s ← sval_sds v; ht_add can d s) d vs = Ok d' ∧ ht_models d' (list_to_set (sval_s <$> vs)).
Proof.
  intros Hok Hnd Hn Hd. apply (each_inv (λ l d, ht_models d (list_to_set (sval_s <$> l))) _ vs d []); [done|].
  cbn [app]. intros l v r d1 -> Hd1. rewrite fmap_app in Hnd. cbn [fmap list_fmap] in Hnd.
  apply Forall_app in Hok as [_ [Hv _]%Forall_cons]. rewrite sval_sds_ok by done. rs.
  rewrite length_app in Hn. cbn [length] in Hn.
  destruct (ht_add_ok d1 _ (sval_s v) Hd1) as (d2 & E & R2).
  - rewrite size_list_to_set; [rewrite length_fmap; lia|]. by apply NoDup_app in Hnd as [? _].
  - by apply sval_s_ok.
  - rewrite elem_of_list_to_set. by apply nodup_middle in Hnd.
  - exists d2. split; [done|]. by rewrite strs_snoc.
Qed.

(** An intset and a listpack have less than [2 ^ 31] elements. *)
Lemma vals_small o vs : set_vals o vs → encoding_of o ≠ OBJ_ENCODING_HT → zlen vs < 2 ^ 31.
Proof.
  destruct o as [iset|lp|d]; cbn [set_vals encoding_of]; [| |done].
  - intros (xs & R & ->) _. rewrite length_fmap. pose proof (rep_size _ _ R) as Hs. unfold INTSET_SAFE in Hs. lia.
  - intros (es & (num & slack & -> & Hok & Ht & _) & ->) _. rewrite length_fmap. pose proof (lp_body_count es Hok).
    unfold lp_total in Ht. lia.
Qed.

Lemma convert_ht o X cap alloc : holds o X → encoding_of o ≠ OBJ_ENCODING_HT → 0 ≤ cap →
  ∃ r, setTypeConvertAndExpand can o OBJ_ENCODING_HT cap alloc = Ok r ∧
    match r with
    | Some o' => encoding_of o' = OBJ_ENCODING_HT ∧ holds o' X
    | None => alloc ≠ None
    end.
Proof.
  intros (vs & [Hv Hok Hnd] & ->) He Hc. unfold setTypeConvertAndExpand. rewrite bool_decide_false by done. cbn [negb].
  rewrite assert_true by done. rs. pose proof (vals_small o vs Hv He) as Hs.
  assert (∀ d : ht, ht_models d ∅ → ∃ r, (d ← iter o (λ d v, s ← sval_sds v; ht_add can d s) d; Ok (Some (SHt d))) = Ok r ∧
    match r with
    | Some o' => encoding_of o' = OBJ_ENCODING_HT ∧ holds o' (list_to_set (sval_s <$> vs))
    | None => alloc ≠ None
    end) as Fin.
  { intros d Hd. rewrite (iter_ok o vs) by done. destruct (each_ht d vs) as (d' & -> & R); [done|done|lia|done|]. rs.
    eexists. split; [done|]. split; [done|]. by apply rep_ht. }
  destruct alloc as [f|].
  - destruct (dictTryExpand_ok ty can (@dictCreate zkey unit) cap f) as (d & [] & -> & [S _ _]); [apply dictCreate_ok|done|..]; rs.
    + apply Fin. eapply ht_same; [apply ht_create|]. apply stays_becomes; [apply dictCreate_ok|done].
    + by eexists.
  - destruct (ht_expand dictCreate ∅ cap ht_create Hc) as (d & r & -> & Hd). rs. by apply Fin.
Qed.

Lemma panic_ht o X cap : holds o X → encoding_of o ≠ OBJ_ENCODING_HT → 0 ≤ cap →
  ∃ d, convert_or_panic can o OBJ_ENCODING_HT cap = Ok (SHt d) ∧ ht_models d X.
Proof.
  intros R He Hc. unfold convert_or_panic. destruct (convert_ht o X cap None R He Hc) as ([[| |d]|] & -> & Q); try done;
    try (by destruct Q). rs. exists d. split; [done|]. apply rep_ht, Q.
Qed.

(** ** Conversion of an intset to a listpack *)

Lemma int_size v : is_i64 v → ent_size (int_ent v) =
  if (0 <=? v) && (v <? 128) then 2 else if (- 2 ^ 12 <=? v) && (v <? 2 ^ 12) then 3
  else if (- 2 ^ 15 <=? v) && (v <? 2 ^ 15) then 4 else if (- 2 ^ 23 <=? v) && (v <? 2 ^ 23) then 5
  else if (- 2 ^ 31 <=? v) && (v <? 2 ^ 31) then 6 else 10.
Proof. intros _. unfold int_ent. by repeat case_match. Qed.

Lemma int_size_between lo v hi : is_i64 lo → is_i64 v → is_i64 hi → lo ≤ v ≤ hi →
  ent_size (int_ent v) ≤ Z.max (ent_size (int_ent lo)) (ent_size (int_ent hi)) ≤ 10.
Proof. intros ? ? ? ?. rewrite !int_size by done. repeat case_match; lia. Qed.

Lemma estimate_size v n : is_i64 v → 0 ≤ n ≤ 2 ^ 32 →
  lpEstimateBytesRepeatedInteger v n = 7 + ent_size (int_ent v) * n ∧ 2 ≤ ent_size (int_ent v) ≤ 10.
Proof.
  intros Hv Hn. unfold lpEstimateBytesRepeatedInteger, lpEntrySizeInteger. rewrite encode_integer by done. cbv zeta.
  fold (ent_size (int_ent v)). assert (2 ≤ ent_size (int_ent v) ≤ 10) by (rewrite int_size by done; repeat case_match; lia).
  rewrite u64_small by nia. split; [lia|done].
Qed.

Lemma total_le B es : Forall (λ e, ent_size e ≤ B) es → lp_total es ≤ 7 + B * zlen es.
Proof.
  unfold lp_total. induction 1 as [|e es He _ IH]; [cbn; lia|]. rewrite lp_body_cons, length_app, Nat2Z.inj_add, lp_entry_length.
  cbn [length]. lia.
Qed.

Lemma total_prefix l r : lp_total l ≤ lp_total (l ++ r).
Proof. rewrite !lp_total_off. pose proof (lp_off_le l r). lia. Qed.
End spec.
