(* ===== verification/SetOps.v ===== *)
(** Adding, removing and membership, for each encoding of a set: the object stands for
    the set of strings with or without the element, and the result says whether it
    was there. *)

From S2P Require Import Prelude Endian Intset Numstr Sds Listpack LpNav LpMod LpFind LpRange LpApi.
From S2P Require Import Dict DictApi DictRep DictResize DictFind DictOps DictSpec DictLink DictScan DictIter.
From S2P Require Import DictRun SdsDict SetType SetRep SetSpec.

Section ops.
Context `{Arch} `{Allocator} `{SetConfig} (can : dictResizeEnable).

Abbreviation ty := setDictType.
Implicit Types (X : gset (list Z)).

(** ** Intsets *)

Lemma rep_i64 iset xs : intset_rep iset xs → Forall is_i64 xs.
Proof.
  intros R. eapply Forall_impl; [apply (rep_fits _ _ R)|]. intros x. unfold fits, is_i64.
  destruct (rep_enc _ _ R) as [-> | [-> | ->]]; cbn; lia.
Qed.

Lemma decs_nodup xs : Forall is_i64 xs → NoDup xs → NoDup (decs <$> xs).
Proof.
  intros Hx Hn. induction Hn as [|x xs Hin _ IH]; [constructor|]. apply Forall_cons in Hx as [Hx Hxs].
  cbn [fmap list_fmap]. constructor; [|by apply IH]. intros (y & E & Hy)%list_elem_of_fmap.
  assert (is_i64 y) by (by eapply Forall_forall in Hxs). apply decs_inj in E as ->; done.
Qed.

(** An intset holds the texts of a set of integers. *)
Lemma holds_intset iset X : holds (SIntset iset) X ↔ ∃ Y : gset Z, intset_models iset Y ∧ X = set_map decs Y.
Proof.
  split.
  - intros (vs & [(xs & R & ->) _ _] & ->). exists (list_to_set xs). split; [by exists xs|].
    rewrite <- list_fmap_compose. apply set_eq. intros s.
    rewrite elem_of_map, elem_of_list_to_set, list_elem_of_fmap. by setoid_rewrite elem_of_list_to_set.
  - intros (Y & (xs & R & ->) & ->). exists (VInt <$> xs). pose proof (rep_i64 iset xs R) as Hx.
    assert (sval_s <$> (VInt <$> xs) = decs <$> xs) as E by by rewrite <- list_fmap_compose.
    split.
    + constructor; [by exists xs|by apply Forall_fmap|]. rewrite E. apply decs_nodup; [done|]. apply sorted_NoDup, R.
    + rewrite E. apply set_eq. intros s.
      rewrite elem_of_map, elem_of_list_to_set, list_elem_of_fmap. by setoid_rewrite elem_of_list_to_set.
Qed.

Lemma intset_i64 iset (Y : gset Z) v : intset_models iset Y → v ∈ Y → is_i64 v.
Proof. intros (xs & R & ->) Hv%elem_of_list_to_set. pose proof (rep_i64 iset xs R). by eapply Forall_forall in Hv. Qed.

Lemma intset_len iset (Y : gset Z) : intset_models iset Y → intsetLen iset = Z.of_nat (size Y).
Proof. intros (xs & R & ->). unfold intsetLen. rewrite (rep_len _ _ R), (models_size iset xs) by done. done. Qed.

Lemma decs_in iset (Y : gset Z) v : intset_models iset Y → is_i64 v →
  (decs v ∈ (set_map decs Y : gset (list Z)) ↔ v ∈ Y).
Proof.
  intros M Hv. rewrite elem_of_map. split; [|by exists v]. intros (w & E & Hw).
  apply decs_inj in E as ->; [done|done|by eapply intset_i64].
Qed.

Lemma decs_insert (Y : gset Z) v : (set_map decs ({[v]} ∪ Y) : gset (list Z)) = {[decs v]} ∪ set_map decs Y.
Proof. rewrite set_map_union_L, set_map_singleton_L. done. Qed.

Lemma decs_remove iset (Y : gset Z) v : intset_models iset Y → is_i64 v →
  (set_map decs (Y ∖ {[v]}) : gset (list Z)) = set_map decs Y ∖ {[decs v]}.
Proof.
  intros M Hv. apply set_eq. intros s. rewrite elem_of_difference, !elem_of_map, elem_of_singleton. split.
  - intros (w & -> & [Hw N]%elem_of_difference). split; [by exists w|]. intros E. apply N, elem_of_singleton.
    apply decs_inj in E; [done|by eapply intset_i64|done].
  - intros [(w & -> & Hw) N]. exists w. split; [done|]. apply elem_of_difference. split; [done|].
    intros ->%elem_of_singleton. done.
Qed.

Lemma string2ll_none_in iset (Y : gset Z) s : intset_models iset Y → string2ll s = None → s ∉ (set_map decs Y : gset (list Z)).
Proof.
  intros M E. rewrite elem_of_map. intros (v & -> & Hv). rewrite string2ll_complete in E; [done|]. by eapply intset_i64.
Qed.

Lemma decs_size iset (Y : gset Z) : intset_models iset Y → size (set_map decs Y : gset (list Z)) = size Y.
Proof.
  intros M. assert (holds (SIntset iset) (set_map decs Y)) as (vs & L & E) by (apply holds_intset; eauto).
  pose proof (intset_len iset Y M) as Hl. rewrite (set_size _ _ _ L E). destruct L as [(xs & R & ->) _ _].
  rewrite length_fmap. unfold intsetLen in Hl. rewrite (rep_len _ _ R) in Hl. lia.
Qed.

Lemma set_rep_ht d X : ht_models d X → set_rep (SHt d) X.
Proof. intros R. split; [by apply rep_ht|done]. Qed.

Lemma intset_add_ok iset X v : config_ok → set_rep (SIntset iset) X → is_i64 v →
  ∃ o', intset_add can iset v = Ok (o', bool_decide (decs v ∉ X)) ∧ set_rep o' ({[decs v]} ∪ X).
Proof.
  intros [C1 C2] [HX Hb] Hv. cbn [bounded] in Hb. apply holds_intset in HX as (Y & M & ->).
  rewrite (intset_len iset Y M) in Hb.
  unfold intset_add. destruct (intsetAdd_ok junk iset Y v M Hv) as (I' & -> & M'); [lia|]. rs.
  assert (holds (SIntset I') ({[decs v]} ∪ set_map decs Y)) as HX'.
  { apply holds_intset. exists ({[v]} ∪ Y). by rewrite decs_insert. }
  destruct (decide (v ∈ Y)) as [Hin|Hin].
  - rewrite !bool_decide_false by (rewrite ?(decs_in iset) by done; auto). eexists. split; [done|]. split; [done|].
    cbn [bounded]. rewrite (intset_len I' _ M'). replace ({[v]} ∪ Y) with Y by set_solver. done.
  - rewrite !bool_decide_true by (rewrite ?(decs_in iset) by done; auto). unfold maybeConvertIntset.
    destruct (Z.gtb_spec (intsetLen I') intsetMaxEntries) as [Hgt|Hle].
    + unfold setTypeConvert, setTypeSize. rs.
      destruct (panic_ht can (SIntset I') _ (intsetLen I') HX') as (d & -> & R); [done|rewrite (intset_len I' _ M'); lia|].
      rs. eexists. split; [done|]. by apply set_rep_ht.
    + rs. eexists. split; [done|]. split; [done|]. cbn [bounded]. unfold intsetMaxEntries in Hle. by case_match; lia.
Qed.

(** ** Listpacks *)

Lemma holds_listpack lp X : holds (SListpack lp) X ↔
  ∃ es, lp_rep lp es ∧ Forall (sds_ok ∘ ent_str) es ∧ NoDup (ent_str <$> es) ∧ X = list_to_set (ent_str <$> es).
Proof.
  assert (∀ es : list lpent, sval_s <$> (ent_val <$> es) = ent_str <$> es) as E.
  { intros es. rewrite <- list_fmap_compose. apply list_fmap_ext. intros i e _. apply ent_val_str. }
  split.
  - intros (vs & [(es & R & ->) Hok Hnd] & ->). exists es. rewrite E in *. split_and!; [done| |done|done].
    rewrite Forall_fmap in Hok. eapply Forall_impl; [exact Hok|]. intros e He. cbn. rewrite <- ent_val_str. by apply sval_s_ok.
  - intros (es & R & Hok & Hnd & ->). exists (ent_val <$> es). rewrite E. split; [|done].
    constructor; [by exists es| |by rewrite E]. apply Forall_fmap, Forall_lookup. intros i e He. cbn.
    pose proof (api_ent_ok R i e He) as Hek. eapply Forall_lookup in Hok; [|exact He]. cbn in Hok.
    unfold ent_val, ent_str in *. destruct (ent_value e) as [v|t] eqn:Ev; [by eapply ent_ok_int|done].
Qed.

Lemma find_all s es : ∀ k, Forall ent_ok es →
  match find_from s 0 0 k es with
  | Some i => (k ≤ i)%nat ∧ ∃ e, es !! (i - k)%nat = Some e ∧ ent_str e = s
  | None => s ∉ ent_str <$> es
  end.
Proof.
  induction es as [|e es IH]; intros k Hok; cbn [find_from]; [apply not_elem_of_nil|].
  apply Forall_cons in Hok as [He Hok]. rewrite ent_matches_str by done.
  destruct (bool_decide_reflect (ent_str e = s)) as [E|E].
  - split; [lia|]. rewrite Nat.sub_diag. by exists e.
  - specialize (IH (S k) Hok). destruct (find_from s 0 0 (S k) es) as [i|].
    + destruct IH as [Hi (e' & He' & Es)]. split; [lia|]. exists e'. split; [|done].
      replace (i - k)%nat with (S (i - S k)) by lia. done.
    + cbn [fmap list_fmap]. rewrite elem_of_cons. naive_solver.
Qed.

(** A search gives the address of the entry that stands for the string. *)
Lemma lp_member_ok lp es s : lp_rep lp es →
  (∃ i e, lp_member lp s = Ok (Some (lp_at es i)) ∧ es !! i = Some e ∧ ent_str e = s) ∨
  (lp_member lp s = Ok None ∧ s ∉ ent_str <$> es).
Proof.
  intros R. unfold lp_member. rewrite (api_first R). rs.
  destruct es as [|e0 es0] eqn:Ees; [right; split; [done|apply not_elem_of_nil]|]. rewrite <- Ees in *.
  assert (0 < length es)%nat as Hl by (rewrite Ees; cbn; lia). rewrite lp_ptr_some by done. cbv iota beta.
  pose proof (api_find R 0 s 0 Hl ltac:(lia)) as Hf. rewrite lp_ptr_some in Hf by done. change (Z.of_nat 0) with 0 in Hf. rewrite Hf.
  rewrite drop_0. pose proof (find_all s es 0) as Hall. destruct (find_from s 0 0 0 es) as [i|].
  - left. destruct Hall as [_ (e & He & Es)]; [destruct R as (? & ? & _ & Hw); apply Hw|]. rewrite Nat.sub_0_r in He.
    exists i, e. done.
  - right. split; [done|]. apply Hall. destruct R as (? & ? & _ & Hw); apply Hw.
Qed.

Lemma int_ent_str v : is_i64 v → ent_str (int_ent v) = decs v.
Proof. intros Hv. unfold ent_str. by rewrite (proj2 (int_ent_ok v Hv)). Qed.

Lemma ele_sds s : sds_ok s → ent_str (ele_ent s) = s.
Proof. intros [Hb Hl]. apply ele_ent_str; [lia|done]. Qed.

Lemma ele_size s : sds_ok s → ent_size (ele_ent s) ≤ zlen s + 10.
Proof.
  intros [Hb Hl]. unfold ele_ent. destruct (string2ll s) as [v|] eqn:E.
  - apply string2ll_sound in E as [Hv ->]. rewrite int_size by done. repeat case_match; lia.
  - unfold ent_size. pose proof (backlen_bytes_range (zlen (ent_bytes (str_ent s)))).
    enough (zlen (ent_bytes (str_ent s)) ≤ zlen s + 5) by lia.
    unfold str_ent, ent_bytes. repeat case_match; cbn [ent_head ent_data length app]; rewrite ?length_app, ?length_le_bytes; cbn; lia.
Qed.

Lemma int_size_le v : is_i64 v → ent_size (int_ent v) ≤ 10.
Proof. intros Hv. rewrite int_size by done. repeat case_match; lia. Qed.

(** The element as an entry at the end *)
Lemma holds_snoc lp es e X : lp_rep lp (es ++ [e]) → Forall (sds_ok ∘ ent_str) es → NoDup (ent_str <$> es) →
  sds_ok (ent_str e) → ent_str e ∉ ent_str <$> es → X = list_to_set (ent_str <$> es) →
  holds (SListpack lp) ({[ent_str e]} ∪ X).
Proof.
  intros R Hok Hnd He Hin ->. apply holds_listpack. exists (es ++ [e]). split_and!; [done|by apply Forall_app; split; [|constructor]|..].
  - rewrite fmap_app. apply NoDup_app. split_and!; [done| |cbn; apply NoDup_singleton]. intros x Hx ->%list_elem_of_singleton. done.
  - rewrite fmap_app, list_to_set_app_L. cbn. set_solver.
Qed.

(** Where the limits are exceeded, the set becomes a dictionary. *)
Lemma spill_ok o X s n : holds o X → encoding_of o ≠ OBJ_ENCODING_HT → 0 ≤ n → sds_ok s → s ∉ X →
  ∃ d', (o ← convert_or_panic can o OBJ_ENCODING_HT n;
         match o with SHt d => d ← ht_add can d s; Ok (SHt d, true) | _ => Fault OutOfBounds end) = Ok (SHt d', true) ∧
    set_rep (SHt d') ({[s]} ∪ X).
Proof.
  intros HX He Hn Hs Hin. destruct (panic_ht can o X n HX He Hn) as (d & -> & Hd). rs.
  destruct (ht_add_ok can d X s Hd) as (d' & -> & Hd'); [|done|done|].
  - destruct HX as (vs & L & E). rewrite (set_size o X vs L E). pose proof (vals_small o vs (sl_vals _ _ L) He). lia.
  - rs. eexists. split; [done|]. by apply set_rep_ht.
Qed.

(** What is added to a listpack is within the limits. *)
Definition lp_fits (o : sobj) X s : Prop :=
  encoding_of o = OBJ_ENCODING_LISTPACK →
  s ∈ X ∨ (Z.of_nat (size X) < set_max_listpack_entries ∧ zlen s ≤ set_max_listpack_value).

Lemma listpack_add_ok lp X v : holds (SListpack lp) X → sval_ok v →
  ∃ o', listpack_add can lp (sval_s v) (sval_int v) = Ok (o', bool_decide (sval_s v ∉ X)) ∧ set_rep o' ({[sval_s v]} ∪ X) ∧
    encoding_of o' ≠ OBJ_ENCODING_INTSET ∧ lp_fits o' X (sval_s v).
Proof.
  intros HX Hv. pose proof (sval_s_ok v Hv) as Hs. apply holds_listpack in HX as (es & R & Hok & Hnd & ->).
  unfold listpack_add. cbv zeta. destruct (lp_member_ok lp es (sval_s v) R) as [(i & e & -> & He & Ee)|[-> Hin]]; rs.
  - assert (sval_s v ∈ ent_str <$> es) as Hin by (rewrite <- Ee; by eapply list_elem_of_fmap_2, list_elem_of_lookup_2).
    rewrite bool_decide_false by (rewrite elem_of_list_to_set; auto). eexists. split; [done|]. split_and!; [split; [|done]|done|].
    + apply holds_listpack. exists es. split_and!; [done..|]. set_solver.
    + intros _. left. by apply elem_of_list_to_set.
  - rewrite bool_decide_true by (by rewrite elem_of_list_to_set).
    destruct (api_length R) as (lp1 & Elen & R1 & _). rewrite Elen. rs.
    pose proof (api_total R1) as Ht. pose proof (api_bytes R1) as Hb. unfold lpBytes in Hb.
    assert (∃ e', ent_str e' = sval_s v ∧ ent_size e' ≤ zlen (sval_s v) + 10 ∧
      (lp_total (es ++ [e']) ≤ UINT32_MAX → ∃ lp2, match sval_int v with Some llval => lpAppendInteger lp1 llval
        | None => lpAppend lp1 (sval_s v) end = Ok (Some lp2) ∧ lp_rep lp2 (es ++ [e']))) as (e' & Ee & Hsz & Happ).
    { destruct v as [s|v]; cbn [sval_s sval_int] in *.
      - exists (ele_ent s). split; [by apply ele_sds|]. split; [by apply ele_size|]. intros Ht'. destruct Hs as [? ?].
        apply (api_append R1); [lia|done|done].
      - exists (int_ent v). split; [by apply int_ent_str|]. split; [pose proof (int_size_le v Hv); lia|]. intros Ht'.
        by apply (api_append_int R1). }
    assert (∃ d', ('(n, lp) ← lpLength lp1; o ← convert_or_panic can (SListpack lp) OBJ_ENCODING_HT (n + 1);
      match o with SHt d => d ← ht_add can d (sval_s v); Ok (SHt d, true) | _ => Fault OutOfBounds end) = Ok (SHt d', true) ∧
      set_rep (SHt d') ({[sval_s v]} ∪ list_to_set (ent_str <$> es))) as (dsp & Esp & Rsp).
    { destruct (api_length R1) as (lp2 & -> & R2 & _). rs.
      apply spill_ok; [|done|lia|done|by rewrite elem_of_list_to_set]. apply holds_listpack. by exists es. }
    destruct ((_ <? _) && _) eqn:Ef; [|rs; rewrite Esp; by exists (SHt dsp)].
    unfold lpSafeToAdd. rewrite Hb. rs. assert (0 ≤ lp_total es) by (unfold lp_total; lia).
    rewrite u64_small by (destruct Hs; lia).
    destruct (Z.gtb_spec (lp_total es + zlen (sval_s v)) (2 ^ 30)) as [Hgt|Hle]; cbn [negb]; [rewrite Esp; by exists (SHt dsp)|].
    destruct Happ as (lp2 & -> & R2).
    { change (es ++ [e']) with (es ++ e' :: []). rewrite lp_total_app, app_nil_r. lia. }
    rs. cbn [lp_nonnull]. rs. eexists. split; [done|]. split_and!; [split; [|done]|done|].
    + rewrite <- Ee in *. by eapply holds_snoc.
    + intros _. right. rewrite size_list_to_set, length_fmap by done. lia.
Qed.

(** ** A string that is no integer, added to an intset *)

Lemma intset_bounds iset xs : intset_rep iset xs → xs ≠ [] →
  ∃ lo hi, intsetMin iset = Ok lo ∧ intsetMax iset = Ok hi ∧ is_i64 lo ∧ is_i64 hi ∧ ∀ x, x ∈ xs → lo ≤ x ≤ hi.
Proof.
  intros R Hne. destruct (intset_queries iset (list_to_set xs)) as (_ & (lo & El & Hlo & Hl) & (hi & Eh & Hhi & Hh) & _).
  { by exists xs. }
  { destruct xs; [done|]. set_solver. }
  pose proof (rep_i64 iset xs R) as H64. rewrite Forall_forall in H64. exists lo, hi.
  split_and!; [done|done|apply H64; set_solver|apply H64; set_solver|]. intros x Hx.
  split; [apply Hl|apply Hh]; by apply elem_of_list_to_set.
Qed.

#[local] Instance VInt_inj : Inj (=) (=) VInt.
Proof. by intros a b [= ->]. Qed.

Lemma convert_lp iset xs cap : intset_rep iset xs → lp_total (int_ent <$> xs) ≤ UINT32_MAX →
  ∃ lp, convert_or_panic can (SIntset iset) OBJ_ENCODING_LISTPACK cap = Ok (SListpack lp) ∧ lp_rep lp (int_ent <$> xs).
Proof.
  intros R Ht. unfold convert_or_panic, setTypeConvertAndExpand. rewrite (bool_decide_false (encoding_of (SIntset iset) = OBJ_ENCODING_LISTPACK)) by done. cbn [negb].
  rewrite assert_true by done. rs. cbn [encoding_of]. rewrite bool_decide_true by done. cbn [setTypeSize]. rs.
  assert (∃ est, (if intsetLen iset >? 0 then min ← intsetMin iset; max ← intsetMax iset;
    Ok (Z.max (lpEstimateBytesRepeatedInteger min cap) (lpEstimateBytesRepeatedInteger max cap)) else Ok (u64 (cap * 2))) = Ok est)
    as (est & ->).
  { destruct (Z.gtb_spec (intsetLen iset) 0) as [Hp|]; [|by eexists].
    destruct (intset_bounds iset xs R) as (lo & hi & -> & -> & _); [|by eexists].
    intros ->. unfold intsetLen in Hp. rewrite (rep_len _ _ R) in Hp. cbn in Hp. lia. }
  rs. destruct (lpNew_spec est) as (lp0 & -> & R0). rs.
  rewrite (iter_ok _ (VInt <$> xs)) by (by exists xs).
  destruct (each_inv (λ l lp, ∃ ys, l = VInt <$> ys ∧ lp_rep lp (int_ent <$> ys))
    (λ lp v, lp ← match v with VStr s => lpAppend lp s | VInt llele => lpAppendInteger lp llele end; lp_nonnull lp)
    (VInt <$> xs) lp0 []) as (lp & -> & ys & E & R').
  - by exists [].
  - cbn [app]. intros l v r lp1 E (ys & -> & R1). apply fmap_app_inv in E as (ys' & rs' & Ey & Er & ->).
    apply (inj (fmap VInt)) in Ey as <-. destruct rs' as [|y rs']; [done|]. cbn [fmap list_fmap] in Er.
    injection Er as -> ->. rewrite fmap_app in Ht. cbn [fmap list_fmap] in Ht.
    pose proof (rep_i64 _ _ R) as H64. apply Forall_app in H64 as [_ [Hy _]%Forall_cons].
    destruct (api_append_int R1 y Hy) as (lp2 & -> & R2).
    { rewrite (cons_middle (int_ent y)), app_assoc in Ht. pose proof (total_prefix ((int_ent <$> ys) ++ [int_ent y]) (int_ent <$> rs')). lia. }
    rs. cbn [lp_nonnull]. eexists. split; [done|]. exists (ys ++ [y]). by rewrite !fmap_app.
  - rs. cbn [app] in E. apply (inj (fmap VInt)) in E as <-. exists lp. done.
Qed.

Lemma intset_add_str_ok iset X s : set_rep (SIntset iset) X → sds_ok s → string2ll s = None →
  ∃ o', intset_add_str can iset s = Ok (o', true) ∧ set_rep o' ({[s]} ∪ X) ∧ encoding_of o' ≠ OBJ_ENCODING_INTSET ∧
    lp_fits o' X s ∧ (encoding_of o' = OBJ_ENCODING_LISTPACK → ∀ t, t ∈ X → zlen t ≤ set_max_listpack_value).
Proof.
  intros [HX Hb] Hs Es. pose proof HX as (vs & [(xs & R & ->) Hok Hnd] & EX).
  assert (s ∉ X) as Hin.
  { apply holds_intset in HX as (Y & M & ->). by eapply string2ll_none_in. }
  unfold intset_add_str. cbv zeta. assert (intsetLen iset = zlen xs) as El by (unfold intsetLen; apply R). rewrite El.
  pose proof (rep_size _ _ R) as Hsz. unfold INTSET_SAFE in Hsz.
  assert (∃ mx tot, (if negb (zlen xs =? 0) then max ← intsetMax iset; min ← intsetMin iset;
       Ok (Z.max (sdigits10 max) (sdigits10 min),
           Z.max (lpEstimateBytesRepeatedInteger max (zlen xs)) (lpEstimateBytesRepeatedInteger min (zlen xs)))
     else Ok (0, 0)) = Ok (mx, tot) ∧ 0 ≤ tot < 2 ^ 40 ∧ lp_total (int_ent <$> xs) ≤ tot + 7 ∧
     ∀ x, x ∈ xs → zlen (decs x) ≤ mx) as (mx & tot & -> & Htot & Hle & Hmx).
  { destruct (Z.eqb_spec (zlen xs) 0) as [E0|E0]; cbn [negb].
    { exists 0, 0. destruct xs; [|cbn in E0; lia]. split_and!; [done..|]. intros ? []%not_elem_of_nil. }
    destruct (intset_bounds iset xs R) as (lo & hi & -> & -> & Hlo & Hhi & Hx); [by intros ->|]. rs.
    destruct (estimate_size lo (zlen xs) Hlo) as [-> B1]; [lia|]. destruct (estimate_size hi (zlen xs) Hhi) as [-> B2]; [lia|].
    eexists _, _. split; [done|]. split_and!; [nia..| |intros x Hin'; rewrite <- !decs_length, Z.max_comm by done;
      apply decs_len_between; [done..|by apply Hx]].
    pose proof (total_le (Z.max (ent_size (int_ent lo)) (ent_size (int_ent hi))) (int_ent <$> xs)) as Ht.
    rewrite length_fmap in Ht. rewrite Z.mul_comm in Ht. etrans; [apply Ht|nia].
    apply Forall_fmap, Forall_forall. intros x Hin'. cbn. apply int_size_between; [done| |done|by apply Hx].
    pose proof (rep_i64 _ _ R) as H64. by eapply Forall_forall in H64. }
  rs. unfold lpSafeToAdd. rs. assert (0 ≤ zlen s ≤ 2147483647) by (destruct Hs; lia).
  rewrite Z.add_0_l, (u64_small (tot + zlen s)), (u64_small (tot + zlen s)) by lia.
  destruct ((_ <? _) && _ && _ && _) eqn:Ec.
  2:{ destruct (spill_ok (SIntset iset) X s (zlen xs + 1) HX) as (d & -> & Rd); [done|lia|done|done|]. by exists (SHt d). }
  apply andb_prop in Ec as [Hlim Ec]. pose proof Hs as [Hsb Hsl].
  destruct (convert_lp iset xs (zlen xs + 1) R) as (lp & -> & R1); [lia|]. rs.
  destruct (api_append R1 s) as (lp2 & -> & R2); [lia|done|..].
  { change [ele_ent s] with (ele_ent s :: []). rewrite lp_total_app, app_nil_r. pose proof (ele_size s Hs). lia. }
  rs. cbn [lp_nonnull]. rs. destruct (api_shrink R2) as (lp3 & -> & R3). rs. eexists. split; [done|].
  split_and!; [split; [|done]|done|intros _; right; rewrite EX, size_list_to_set, !length_fmap by done; lia|].
  2:{ intros _ t. rewrite EX, elem_of_list_to_set, list_elem_of_fmap. intros (v & -> & (x & -> & Hx)%list_elem_of_fmap).
      cbn. specialize (Hmx x Hx). lia. }
  assert (ent_str <$> (int_ent <$> xs) = sval_s <$> (VInt <$> xs)) as Eq.
  { rewrite <- !list_fmap_compose. apply list_fmap_ext. intros i x Hx. cbn. apply int_ent_str.
    pose proof (rep_i64 _ _ R) as H64. by eapply Forall_lookup in H64. }
  rewrite <- (ele_sds s) at 1 by done. eapply holds_snoc; [done| |by rewrite Eq|..]; rewrite ?ele_sds by done; [|done|..].
  - apply Forall_fmap, Forall_lookup. intros i x Hx. cbn. pose proof (rep_i64 _ _ R) as H64.
    eapply Forall_lookup in H64; [|done]. rewrite int_ent_str by done. by apply decs_sds.
  - rewrite Eq, <- (elem_of_list_to_set (C := gset (list Z))), <- EX. done.
  - by rewrite Eq.
Qed.
End ops.
