(* ===== verification/SetApi.v ===== *)
(** The functions on sets, whatever the encoding, against finite sets of strings. *)

From S2P Require Import Prelude Endian Intset Numstr Sds Listpack LpNav LpMod LpFind LpRange LpApi.
From S2P Require Import Dict DictApi DictRep DictResize DictFind DictOps DictSpec DictLink DictScan DictIter.
From S2P Require Import DictRun SdsDict SetType SetRep SetSpec SetOps.

Section api.
Context `{Arch} `{Allocator} `{SetConfig} (can : dictResizeEnable).

Abbreviation ty := setDictType.
Implicit Types (X : gset (list Z)).

Definition room_for X : Prop := Z.of_nat (size X) < UINT64_MAX.

(** ** Adding *)

Lemma ht_insert_ok d X s : ht_models d X → room_for X → sds_ok s →
  ∃ d', (key ← sds_key s;
         '(d, link, bucket) ← dictFindLink ty can d key true;
         match link with
         | None => '(d, _) ← dictSetKeyAtLink ty can d key bucket true; Ok (SHt d, true)
         | Some _ => Ok (SHt d, false)
         end) = Ok (SHt d', bool_decide (s ∉ X)) ∧ ht_models d' ({[s]} ∪ X).
Proof.
  intros R Hn Hs. destruct (sds_key_ok s Hs) as (key & <- & ->). rs. pose proof (hk_ok d (hm_ok d X R)) as D.
  destruct (dictFindLink_ok ty can d key true D) as (d1 & r & b & -> & S & F & Q1 & Q2). rs.
  pose proof (st_ok _ _ _ (stp_stays _ _ _ S)) as D1. pose proof (found_map ty d1 key r D1 F) as Fm.
  pose proof (ht_same d d1 X R (steps_becomes ty d d1 D S)) as R1.
  destruct r as [l|].
  - destruct Fm as (x & L & _). assert (`key ∈ X) as Hin by (apply (hm_elem d1 X R1); by eexists).
    rewrite bool_decide_false by auto. exists d1. split; [done|]. replace ({[`key]} ∪ X) with X by set_solver. done.
  - destruct (dictSetKeyAtLink_new ty can d1 key key b D1) as (d2 & l & -> & B & _); [|unfold bucket_for|done|done|].
    { by apply (ht_room d1 X). }
    { destruct b as [b|]; [|done]. destruct (Z.eq_dec (dictSize d) 0) as [E|E]; [by specialize (Q2 E)|].
      destruct (Q1 eq_refl eq_refl E) as [[= ->] A1]. done. }
    rs. apply (ht_lookup d1 X key R1) in Fm as Hin. rewrite bool_decide_true by done. exists d2. split; [done|].
    by eapply ht_insert.
Qed.

Lemma setTypeAddAux_ok o X v : config_ok → set_rep o X → room_for X → sval_ok v →
  ∃ o', setTypeAddAux can o v = Ok (o', bool_decide (sval_s v ∉ X)) ∧ set_rep o' ({[sval_s v]} ∪ X).
Proof.
  intros cfg R Hn Hv. pose proof (sval_s_ok v Hv) as Hs. unfold setTypeAddAux.
  destruct o as [iset|lp|d]; [destruct v as [s|n]; [|by apply intset_add_ok]|..]; rewrite sval_str_ok by done; rs.
  - cbn [sval_s] in *. destruct (string2ll s) as [n|] eqn:E.
    + apply string2ll_sound in E as [Hi ->]. by apply intset_add_ok.
    + destruct (intset_add_str_ok can iset X s) as (o' & -> & R' & _); [done..|]. rewrite bool_decide_true; [by eexists|].
      destruct R as [(Y & M & ->)%holds_intset _]. by eapply string2ll_none_in.
  - destruct (listpack_add_ok can lp X v) as (o' & -> & R' & _); [apply R|done|]. by exists o'.
  - destruct R as [R _]. apply rep_ht in R. destruct (ht_insert_ok d X (sval_s v) R Hn Hs) as (d' & -> & R').
    eexists. split; [done|]. by apply set_rep_ht.
Qed.

(** ** Removing *)

(** The elements without the entry [i] *)
Lemma delete_strs es i e : es !! i = Some e → NoDup (ent_str <$> es) →
  NoDup (ent_str <$> delete i es) ∧
  list_to_set (ent_str <$> es) ∖ {[ent_str e]} = list_to_set (C := gset (list Z)) (ent_str <$> delete i es).
Proof.
  intros He Hnd. pose proof (delete_Permutation es i e He) as P. apply (fmap_Permutation ent_str) in P.
  rewrite P in Hnd |- *. cbn [fmap list_fmap] in *. apply NoDup_cons in Hnd as [? ?]. split; [done|]. set_solver.
Qed.

Lemma setTypeRemoveAux_ok o X v : set_rep o X → sval_ok v →
  ∃ o', setTypeRemoveAux can o v = Ok (o', bool_decide (sval_s v ∈ X)) ∧ set_rep o' (X ∖ {[sval_s v]}).
Proof.
  intros [R Hb] Hv. pose proof (sval_s_ok v Hv) as Hs. unfold setTypeRemoveAux.
  assert (∀ iset n, o = SIntset iset → is_i64 n → ∃ o', ('(iset, success) ← intsetRemove junk iset n; Ok (SIntset iset, success)) =
    Ok (o', bool_decide (decs n ∈ X)) ∧ set_rep o' (X ∖ {[decs n]})) as Hint.
  { intros iset n -> Hi. cbn [bounded] in Hb. apply holds_intset in R as (Y & M & ->).
    destruct (intsetRemove_ok junk iset Y n M Hi) as (I' & -> & M'). rs. eexists. split.
    - do 3 f_equal. apply bool_decide_ext. symmetry. by eapply decs_in.
    - split; [apply holds_intset; exists (Y ∖ {[n]}); by rewrite (decs_remove iset)|]. cbn [bounded].
      rewrite (intset_len iset Y M) in Hb. rewrite (intset_len I' _ M').
      pose proof (subseteq_size (Y ∖ {[n]}) Y ltac:(set_solver)). lia. }
  destruct o as [iset|lp|d]; [destruct v as [s|n]; [|by apply Hint]|..]; rewrite sval_str_ok by done; rs.
  - cbn [sval_s] in *. destruct (string2ll s) as [n|] eqn:E.
    + apply string2ll_sound in E as [Hi ->]. by apply Hint.
    + assert (s ∉ X) as Hin by (apply holds_intset in R as (Y & M & ->); by eapply string2ll_none_in).
      rewrite bool_decide_false by done. eexists. split; [done|]. replace (X ∖ {[s]}) with X by set_solver. done.
  - apply holds_listpack in R as (es & R & Hok & Hnd & ->).
    destruct (lp_member_ok lp es (sval_s v) R) as [(i & e & -> & He & Ee)|[-> Hin]]; rs.
    + destruct (api_delete R i) as (lp' & -> & R'); [by eapply lookup_lt_Some|]. rs. rewrite <- Ee.
      rewrite bool_decide_true by (apply elem_of_list_to_set; by eapply list_elem_of_fmap_2, list_elem_of_lookup_2).
      eexists. split; [done|]. split; [|done]. apply holds_listpack. exists (delete i es).
      destruct (delete_strs es i e He Hnd) as [? ->]. split_and!; [done|by apply Forall_delete|done|done].
    + rewrite bool_decide_false by (by rewrite elem_of_list_to_set). eexists. split; [done|]. split; [|done].
      apply holds_listpack. exists es. split_and!; [done..|]. set_solver.
  - apply rep_ht in R. destruct (sds_key_ok _ Hs) as (key & <- & ->). rs. unfold dictDelete.
    destruct (dictGenericDelete_ok ty can d key) as (d' & he & -> & B & _ & E); [apply R|]. rs.
    eexists. split; [|by apply set_rep_ht; eapply ht_delete]. do 3 f_equal. rewrite (ht_lookup d X key R) in E.
    destruct he; symmetry; [apply bool_decide_true|apply bool_decide_false, E]; [|done].
    destruct (decide (`key ∈ X)) as [|N]; [done|]. by apply E in N.
Qed.

(** ** Membership *)

Lemma setTypeIsMemberAux_ok o X v : set_rep o X → sval_ok v →
  ∃ o', setTypeIsMemberAux can o v = Ok (o', bool_decide (sval_s v ∈ X)) ∧ set_rep o' X.
Proof.
  intros [R Hb] Hv. pose proof (sval_s_ok v Hv) as Hs. unfold setTypeIsMemberAux.
  assert (∀ iset n, o = SIntset iset → is_i64 n → intsetFind iset n = Ok (bool_decide (decs n ∈ X))) as Hint.
  { intros iset n -> Hi. apply holds_intset in R as (Y & M & ->). rewrite (intsetFind_spec iset Y n) by done. f_equal.
    apply bool_decide_ext. symmetry. by eapply decs_in. }
  destruct o as [iset|lp|d]; [destruct v as [s|n]|..]; rewrite ?sval_str_ok by done; rs.
  - cbn [sval_s] in *. destruct (string2ll s) as [n|] eqn:E.
    + apply string2ll_sound in E as [Hi ->]. rewrite (Hint iset) by done. rs. by eexists.
    + assert (s ∉ X) as Hin by (apply holds_intset in R as (Y & M & ->); by eapply string2ll_none_in).
      rewrite bool_decide_false by done. by eexists.
  - cbn [sval_s] in *. rewrite (Hint iset) by done. rs. by eexists.
  - eexists. pose proof R as (es & R' & _ & _ & ->)%holds_listpack.
    destruct (lp_member_ok lp es (sval_s v) R') as [(i & e & -> & He & Ee)|[-> Hin]]; rs.
    + rewrite (bool_decide_true (is_Some _)) by (by eexists). rewrite bool_decide_true; [done|].
      rewrite elem_of_list_to_set, <- Ee. by eapply list_elem_of_fmap_2, list_elem_of_lookup_2.
    + rewrite (bool_decide_false (is_Some _)) by (by intros []). rewrite bool_decide_false; [done|].
      by rewrite elem_of_list_to_set.
  - apply rep_ht in R. destruct (sds_key_ok _ Hs) as (key & <- & ->). rs.
    destruct (dictFind_ok ty can d key) as (d' & he & -> & B & _ & E & _); [apply R|]. rs.
    eexists. split; [|by apply set_rep_ht; eapply ht_same]. do 3 f_equal. rewrite (ht_lookup d X key R) in E.
    apply bool_decide_ext. rewrite <- not_eq_None_Some, E. destruct (decide (`key ∈ X)); naive_solver.
Qed.

(** ** Size and creation *)

Lemma setTypeSize_ok o X : set_rep o X →
  ∃ o', setTypeSize o = Ok (Z.of_nat (size X), o') ∧ set_rep o' X ∧ encoding_of o' = encoding_of o.
Proof.
  intros [R Hb]. destruct o as [iset|lp|d]; cbn [setTypeSize].
  - pose proof R as (vs & L & E). pose proof (set_size _ _ _ L E) as Hs. destruct L as [(xs & R' & ->) _ _].
    rewrite length_fmap in Hs. unfold intsetLen in *. rewrite (rep_len _ _ R'), <- Hs. by eexists.
  - apply holds_listpack in R as (es & R & Hok & Hnd & ->). destruct (api_length R) as (lp' & -> & R' & _). rs.
    eexists. rewrite size_list_to_set, length_fmap by done. split; [done|]. split; [|done]. split; [|done].
    apply holds_listpack. by exists es.
  - pose proof R as R'. apply rep_ht in R' as [E _]%ht_size. rewrite E. by eexists.
Qed.

Lemma createIntset_ok : config_ok → set_rep createIntsetObject ∅.
Proof.
  intros [C1 C2]. split; [apply holds_intset; exists ∅; split; [apply intset_new_models|done]|].
  change (intsetLen intsetNew ≤ set_max_intset_entries). rewrite (intset_len intsetNew ∅ intset_new_models), size_empty. lia.
Qed.

Lemma new_listpack_ok cap : ∃ lp, lpNew cap = Ok lp ∧ set_rep (SListpack lp) ∅.
Proof.
  destruct (lpNew_spec cap) as (lp & -> & R). eexists. split; [done|]. split; [|done]. apply holds_listpack. exists [].
  split_and!; [done|constructor|constructor|done].
Qed.

Lemma createHt_ok : set_rep createSetObject ∅.
Proof. apply set_rep_ht, ht_create. Qed.

Lemma setTypeCreate_ok value n : config_ok → 0 ≤ n → ∃ o, setTypeCreate can value n = Ok o ∧ set_rep o ∅.
Proof.
  intros cfg Hn. unfold setTypeCreate. destruct (_ && _); [eexists; split; [done|by apply createIntset_ok]|].
  destruct (_ <=? _).
  - unfold createSetListpackObject. destruct (new_listpack_ok 0) as (lp & -> & R). rs. by eexists.
  - destruct (ht_expand can dictCreate ∅ n ht_create Hn) as (d & r & -> & Hd). rs. eexists. split; [done|].
    by apply set_rep_ht.
Qed.

(** ** Conversions *)

Lemma setTypeMaybeConvert_ok o X n : set_rep o X → 0 ≤ n → ∃ o', setTypeMaybeConvert can o n = Ok o' ∧ set_rep o' X.
Proof.
  intros R Hn. unfold setTypeMaybeConvert. destruct (_ || _) eqn:Ec; [|by eexists].
  destruct (panic_ht can o X n) as (d & -> & Hd); [apply R| |done|].
  - intros E. rewrite E in Ec. cbn in Ec. done.
  - eexists. split; [done|]. by apply set_rep_ht.
Qed.

Lemma bool_decide_enc o e : bool_decide (encoding_of o = e) = true ↔ encoding_of o = e.
Proof. apply bool_decide_eq_true. Qed.

(** A set all of whose elements are integers becomes an intset if it is small. *)
Lemma maybeConvertToIntset_ok o X : config_ok → set_rep o X → (∀ s, s ∈ X → is_Some (string2ll s)) →
  ∃ o', maybeConvertToIntset o = Ok o' ∧ set_rep o' X.
Proof.
  intros cfg R Hx. unfold maybeConvertToIntset. destruct (bool_decide _); [by eexists|].
  destruct (setTypeSize_ok o X R) as (o1 & -> & R1 & _). rs.
  destruct (Z.gtb_spec (Z.of_nat (size X)) intsetMaxEntries) as [|Hle]; [by eexists|].
  destruct R1 as [(vs & L & E) _]. pose proof (set_size _ _ _ L E) as Hs. destruct L as [Hv Hok Hnd].
  rewrite (iter_ok _ vs) by done. assert (intsetMaxEntries ≤ set_max_intset_entries) as Hm.
  { unfold intsetMaxEntries. case_match; lia. }
  destruct cfg as [C1 C2].
  destruct (each_inv (λ l I, ∃ Y, intset_models I Y ∧ (list_to_set (sval_s <$> l) : gset (list Z)) = set_map decs Y)
    (λ iset v, llval ← match v with VStr s => nonnull (string2ll s) | VInt llval => Ok llval end;
       '(iset, success) ← intsetAdd junk iset llval; _ ← assert_ success; Ok iset) vs intsetNew [])
    as (I & -> & Y & M & EY).
  - exists ∅. split; [apply intset_new_models|done].
  - cbn [app]. intros l v r I -> (Y & M & EY). apply Forall_app in Hok as [_ [Hvo _]%Forall_cons].
    assert (∃ n, match v with VStr s => nonnull (string2ll s) | VInt llval => Ok llval end = Ok n ∧ is_i64 n ∧ sval_s v = decs n)
      as (n & -> & Hi & En).
    { destruct v as [s|n]; [|by exists n]. destruct (Hx s) as [n Hn].
      { rewrite E, fmap_app, list_to_set_app_L. cbn. set_solver. }
      rewrite Hn. exists n. split; [done|]. by apply string2ll_sound in Hn. }
    rs. rewrite fmap_app in Hnd. cbn [fmap list_fmap] in Hnd. pose proof (nodup_middle _ _ _ Hnd) as Hin.
    assert (size Y = length l) as HY.
    { apply NoDup_app in Hnd as [Hnl _]. pose proof (size_list_to_set (C := gset (list Z)) _ Hnl) as Hl.
      rewrite EY, length_fmap, (decs_size I) in Hl by done. done. }
    rewrite length_app in Hs. cbn [length] in Hs.
    destruct (intsetAdd_ok junk I Y n M Hi) as (I' & -> & M'); [lia|]. rs.
    rewrite bool_decide_true, assert_true; [|done|].
    + rs. eexists. split; [done|]. exists ({[n]} ∪ Y). split; [done|]. by rewrite strs_snoc, EY, decs_insert, En.
    + rewrite <- (decs_in I Y) by done. rewrite <- EY, elem_of_list_to_set, <- En. done.
  - rs. eexists. split; [done|]. cbn [app] in EY. rewrite E. split; [apply holds_intset; by exists Y|].
    cbn [bounded]. rewrite (intset_len I Y M), <- (decs_size I Y M), <- EY, <- E. lia.
Qed.

(** ** Copying *)

Lemma setTypeDup_ok o X : config_ok → set_rep o X → Z.of_nat (size X) ≤ UINT64_MAX →
  ∃ o', setTypeDup can o = Ok o' ∧ set_rep o' X ∧ encoding_of o' = encoding_of o.
Proof.
  intros cfg R Hn. destruct o as [iset|lp|d]; cbn [setTypeDup]; [by eexists|..].
  - destruct R as [R _]. apply holds_listpack in R as (es & R & Hok & Hnd & ->).
    destruct (api_dup R) as (m' & E & R'). unfold lpDup in E. destruct (lpBytes lp) as [sz|]; [|done]. revert E. rs.
    destruct (mem_read lp 0 sz) as [l|]; [|done]. rs. intros ->. rs. eexists. split; [done|]. split; [|done]. split; [|done].
    apply holds_listpack. by exists es.
  - destruct R as [R _]. pose proof R as R0. apply rep_ht in R0. pose proof (ht_size d X R0) as [Hsz _].
    destruct (ht_expand can dictCreate ∅ (dictSize d) ht_create) as (d' & r & -> & Hd'); [lia|]. rs.
    destruct R as (vs & L & E). pose proof (set_size _ _ _ L E) as Hs. destruct L as [Hv Hok Hnd].
    rewrite (iter_ok _ vs) by done. destruct Hv as [_ Ev].
    destruct (each_inv (λ l o, ∃ d, o = SHt d ∧ ht_models d (list_to_set (sval_s <$> l)))
      (λ set v, '(set, _) ← match v with VStr s => setTypeAdd can set s | VInt _ => Fault OutOfBounds end; Ok set)
      vs (SHt d') []) as (o' & -> & d2 & -> & R2).
    + by exists d'.
    + cbn [app]. intros l v r' o1 El (d1 & -> & R1). rewrite El in Hok, Hnd, Hs. rewrite Ev in El.
      assert (∃ s, v = VStr s) as [s ->].
      { symmetry in El. apply (f_equal (lookup (length l))) in El.
        rewrite list_lookup_middle, list_lookup_fmap in El by done. destruct (dict_items d !! _); [|done].
        injection El as ->. by eexists. }
      apply Forall_app in Hok as [_ [Hvo _]%Forall_cons]. rewrite fmap_app in Hnd.
      rewrite length_app in Hs. cbn [length fmap list_fmap] in Hs, Hnd. apply NoDup_app in Hnd as [Hnl _].
      destruct (ht_insert_ok d1 _ s R1) as (d2 & E2 & R2); [|done|].
      { unfold room_for. rewrite size_list_to_set, length_fmap by done. lia. }
      unfold setTypeAdd, setTypeAddAux. cbn [sval_str]. rs. revert E2. rs. intros ->. rs. eexists. split; [done|].
      exists d2. by rewrite strs_snoc.
    + eexists. split; [done|]. split; [|done]. apply set_rep_ht. cbn [app] in R2. by rewrite E.
Qed.
End api.
