(* ===== verification/Object.v ===== *)
(** Arguments of commands: the parsers of [object.c] for numbers in string
    objects, [string2d] of [util.c], and the replies they give.

    [fast_float_strtod] is the function [strtod] of [FloatText]; the [errno] it
    leaves and the fallback, the [strtod] of the C library, are parameters. *)

From S2P Require Import Prelude Numstr Skiplist Double.
From Stdlib Require Import SpecFloat.

(** ** Replies *)

(** What a command appends to the output of its client *)
Inductive reply :=
  | ReplyError (msg : string)
  | ReplyErrorArity
  | ReplyLongLong (v : Z)
  | ReplyDouble (d : double)
  | ReplyNull
  | ReplyNullArray
  | ReplyEmptyArray
  | ReplyArrayLen (n : Z)
  | ReplySetLen (n : Z)
  | ReplyBulk (s : list Z).

(** ** Strings of C *)

(** The C string at the start of an sds string *)
Fixpoint cstr (s : list Z) : list Z :=
  match s with
  | [] => []
  | c :: r => if c =? 0 then [] else c :: cstr r
  end.

(** [!strcasecmp(opt, s)] *)
Definition strcaseeq (opt : list Z) (s : string) : bool := strcasecmp_eq (cstr opt) (chars s).

(** ** Doubles *)

Inductive errno := EINVAL | ERANGE.

Class StrtodErrno := {
  fast_float_errno : list Z → option errno;
  libc_strtod : list Z → double * list Z * option errno
}.

Definition HUGE_VAL : double := S754_infinity false.
Definition fp_zero (d : double) : bool := match d with S754_zero _ => true | _ => false end.

Section parsers.
Context `{FloatText} `{StrtodErrno}.

Definition string2d (s : list Z) : option double :=
  if (zlen s =? 0) || isspace (char_at s 0) then None else
  let '(dp, eptr) := strtod s in
  let err := fast_float_errno s in
  let parsed :=
    match eptr with
    | [] => Some (dp, err)
    | _ =>
        let '(dp, fallback_eptr, err') := libc_strtod s in
        match fallback_eptr with
        | [] => Some (dp, match err' with Some _ => err' | None => err end)
        | _ => None
        end
    end in
  match parsed with
  | None => None
  | Some (dp, err) =>
      if (match err with
          | Some EINVAL => true
          | Some ERANGE => SFeqb dp HUGE_VAL || SFeqb dp (SFopp HUGE_VAL) || fp_zero dp
          | None => false
          end) || isnan dp
      then None else Some dp
  end.

Definition getDoubleFromObject (o : robj) : option double :=
  match o with
  | RStr s => string2d s
  | RInt v => Some (double_of_ll v)
  end.

(** The value, or the reply on error; [msg] replaces the default message. *)
Definition getDoubleFromObjectOrReply (o : robj) (msg : option string) : double + reply :=
  match getDoubleFromObject o with
  | Some value => inl value
  | None => inr (ReplyError (default "value is not a valid float" msg))
  end.
End parsers.

(** ** Integers *)

Definition getLongLongFromObject (o : robj) : option Z :=
  match o with
  | RStr s => string2ll s
  | RInt v => Some v
  end.

Definition getLongLongFromObjectOrReply (o : robj) (msg : option string) : Z + reply :=
  match getLongLongFromObject o with
  | Some value => inl value
  | None => inr (ReplyError (default "value is not an integer or out of range" msg))
  end.

Definition getLongFromObjectOrReply (o : robj) (msg : option string) : Z + reply :=
  match getLongLongFromObjectOrReply o msg with
  | inr r => inr r
  | inl value =>
      if (value <? INT64_MIN) || (value >? INT64_MAX)
      then inr (ReplyError (default "value is out of range" msg))
      else inl value
  end.

(** The default message has the bounds in it. *)
Definition getRangeLongFromObjectOrReply (o : robj) (min max : Z) (msg : string) : Z + reply :=
  match getLongFromObjectOrReply o (Some msg) with
  | inr r => inr r
  | inl target => if (target <? min) || (target >? max) then inr (ReplyError msg) else inl target
  end.

Definition getPositiveLongFromObjectOrReply (o : robj) (msg : option string) : Z + reply :=
  getRangeLongFromObjectOrReply o 0 INT64_MAX
    (default "value is out of range, must be positive" msg).

(** ** What the parsers promise *)

(** The documented results of the two parsers: finite or infinite doubles, or
    not a number; integers in decimal are read whole. *)
Class StrtodLaws `{FloatText} `{StrtodErrno} : Prop := {
  strtod_valid s : valid_double (strtod s).1 = true;
  libc_strtod_valid s : valid_double (libc_strtod s).1.1 = true;
  strtod_int_all v : is_i64 v → (strtod (decs v)).2 = [];
  strtod_int_errno v : is_i64 v → fast_float_errno (decs v) = None
}.
