(* ===== verification/Zzl.v ===== *)
(** Sorted sets encoded as listpacks: [t_zset.c], lines 940 to 1376.

    A small sorted set is a listpack of pairs: the entry of an element, then the
    entry of its score, ordered by score and then by element.  A pointer into
    the listpack is an offset, [None] for the null pointer.  Loops over the
    entries have the number of bytes of the listpack as their bound. *)

From S2P Require Import Prelude Numstr Sds Listpack LpNav LpMod LpFind Skiplist Double.
From Stdlib Require Import SpecFloat.

Section zzl.
Context `{Allocator} `{FloatText}.

(** ** Reading entries *)

Definition zzlStrtod (zl : list Z) (vstr vlen : Z) : res double :=
  let vlen := if vlen >? 128 - 1 then 128 - 1 else vlen in
  buf ← mem_read zl vstr vlen;
  Ok (strtod buf).1.

Definition zzlGetScore (zl : list Z) (sptr : option Z) : res double :=
  p ← nonnull sptr;
  v ← lpGetValue zl p;
  match v with
  | RPtr vstr vlen => zzlStrtod zl vstr vlen
  | RNull vlong => Ok (double_of_ll vlong)
  | RBuf _ _ => Fault OutOfBounds
  end.

Definition lpGetObject (zl : list Z) (sptr : option Z) : res (list Z) :=
  p ← nonnull sptr;
  v ← lpGetValue zl p;
  match v with
  | RPtr vstr vlen => mem_read zl vstr vlen
  | RNull vlong => sdsfromlonglong vlong
  | RBuf _ _ => Fault OutOfBounds
  end.

(** The lengths are [unsigned int], the result is an [int]. *)
Definition zzlCompareElements (zl : list Z) (eptr : Z) (cstr : list Z) : res Z :=
  let clen := u32 (zlen cstr) in
  v ← lpGetValue zl eptr;
  '(vlen, vstr) ←
    match v with
    | RPtr vstr vlen => d ← mem_read zl vstr vlen; Ok (vlen, d)
    | RNull vlong => ll2string (local_buf 32) vlong
    | RBuf _ _ => Fault OutOfBounds
    end;
  let minlen := if vlen <? clen then vlen else clen in
  let cmp := memcmp vstr cstr (Z.to_nat minlen) in
  Ok (if cmp =? 0 then s32 (u32 (vlen - clen)) else cmp).

(** The length is cached in the header when it was not known. *)
Definition zzlLength (zl : list Z) : res (Z * list Z) :=
  '(n, zl) ← lpLength zl; Ok (n / 2, zl).

(** ** Moving *)

Definition zzlNext (zl : list Z) (eptr sptr : option Z) : res (option Z * option Z) :=
  _ ← nonnull eptr;
  s ← nonnull sptr;
  _eptr ← lpNext zl s;
  match _eptr with
  | Some e => _sptr ← lpNext zl e; _ ← nonnull _sptr; Ok (Some e, _sptr)
  | None => Ok (None, None)
  end.

Definition zzlPrev (zl : list Z) (eptr sptr : option Z) : res (option Z * option Z) :=
  e ← nonnull eptr;
  _ ← nonnull sptr;
  _sptr ← lpPrev zl e;
  match _sptr with
  | Some s => _eptr ← lpPrev zl s; _ ← nonnull _eptr; Ok (_eptr, Some s)
  | None => Ok (None, None)
  end.

(** ** Ranges *)

(** The score of the element at [eptr]: that of the next entry *)
Definition score_at (zl : list Z) (eptr : Z) : res double :=
  sptr ← lpNext zl eptr; _ ← nonnull sptr; zzlGetScore zl sptr.

Definition zzlIsInRange (zl : list Z) (range : zrangespec) : res bool :=
  if SFltb (zr_max range) (zr_min range) ||
     (SFeqb (zr_min range) (zr_max range) && (zr_minex range || zr_maxex range))
  then Ok false
  else
    p ← lpSeek zl (-1);
    match p with
    | None => Ok false
    | Some _ =>
        score ← zzlGetScore zl p;
        if negb (zslValueGteMin score range) then Ok false else
        p ← lpSeek zl 1;
        _ ← nonnull p;
        score ← zzlGetScore zl p;
        Ok (zslValueLteMax score range)
    end.

(** The loop of [zzlFirstInRange] and of [zzlFirstInLexRange], which differ in
    the tests *)
Fixpoint first_loop (fuel : nat) (zl : list Z) (gte lte : Z -> res bool) (eptr : option Z)
    : res (option Z) :=
  match eptr with
  | None => Ok None
  | Some e =>
      match fuel with
      | O => Fault OutOfFuel
      | S fuel =>
          g ← gte e;
          if g : bool then l ← lte e; Ok (if l : bool then Some e else None)
          else
            sptr ← lpNext zl e;
            s ← nonnull sptr;
            eptr ← lpNext zl s;
            first_loop fuel zl gte lte eptr
      end
  end.

(** The loop of [zzlLastInRange] and of [zzlLastInLexRange] *)
Fixpoint last_loop (fuel : nat) (zl : list Z) (gte lte : Z -> res bool) (eptr : option Z)
    : res (option Z) :=
  match eptr with
  | None => Ok None
  | Some e =>
      match fuel with
      | O => Fault OutOfFuel
      | S fuel =>
          l ← lte e;
          if l : bool then g ← gte e; Ok (if g : bool then Some e else None)
          else
            sptr ← lpPrev zl e;
            match sptr with
            | Some s =>
                eptr ← lpPrev zl s;
                _ ← nonnull eptr;
                last_loop fuel zl gte lte eptr
            | None => last_loop fuel zl gte lte None
            end
      end
  end.

Definition score_gte (zl : list Z) (range : zrangespec) (eptr : Z) : res bool :=
  score ← score_at zl eptr; Ok (zslValueGteMin score range).
Definition score_lte (zl : list Z) (range : zrangespec) (eptr : Z) : res bool :=
  score ← score_at zl eptr; Ok (zslValueLteMax score range).

Definition zzlFirstInRange (zl : list Z) (range : zrangespec) : res (option Z) :=
  eptr ← lpSeek zl 0;
  b ← zzlIsInRange zl range;
  if negb b then Ok None
  else first_loop (length zl) zl (score_gte zl range) (score_lte zl range) eptr.

Definition zzlLastInRange (zl : list Z) (range : zrangespec) : res (option Z) :=
  eptr ← lpSeek zl (-2);
  b ← zzlIsInRange zl range;
  if negb b then Ok None
  else last_loop (length zl) zl (score_gte zl range) (score_lte zl range) eptr.

Definition zzlLexValueGteMin (zl : list Z) (range : zlexrangespec) (p : Z) : res bool :=
  value ← lpGetObject zl (Some p); Ok (zslLexValueGteMin value range).
Definition zzlLexValueLteMax (zl : list Z) (range : zlexrangespec) (p : Z) : res bool :=
  value ← lpGetObject zl (Some p); Ok (zslLexValueLteMax value range).

Definition zzlIsInLexRange (zl : list Z) (range : zlexrangespec) : res bool :=
  let cmp := sdscmplex (zl_min range) (zl_max range) in
  if (cmp >? 0) || ((cmp =? 0) && (zl_minex range || zl_maxex range)) then Ok false
  else
    p ← lpSeek zl (-2);
    match p with
    | None => Ok false
    | Some p =>
        g ← zzlLexValueGteMin zl range p;
        if negb g then Ok false else
        p ← lpSeek zl 0;
        p ← nonnull p;
        zzlLexValueLteMax zl range p
    end.

Definition zzlFirstInLexRange (zl : list Z) (range : zlexrangespec) : res (option Z) :=
  eptr ← lpSeek zl 0;
  b ← zzlIsInLexRange zl range;
  if negb b then Ok None
  else first_loop (length zl) zl (zzlLexValueGteMin zl range) (zzlLexValueLteMax zl range) eptr.

Definition zzlLastInLexRange (zl : list Z) (range : zlexrangespec) : res (option Z) :=
  eptr ← lpSeek zl (-2);
  b ← zzlIsInLexRange zl range;
  if negb b then Ok None
  else last_loop (length zl) zl (zzlLexValueGteMin zl range) (zzlLexValueLteMax zl range) eptr.

(** ** Updates *)

(** The element, and its score when [want] (the pointer [score] is not null) *)
Definition zzlFind (lp : list Z) (ele : list Z) (want : bool) : res (option (Z * option double)) :=
  eptr ← lpFirst lp;
  match eptr with
  | None => Ok None
  | Some _ =>
      eptr ← lpFind lp eptr ele 1;
      match eptr with
      | Some e =>
          sptr ← lpNext lp e;
          _ ← nonnull sptr;
          score ← (if want then s ← zzlGetScore lp sptr; Ok (Some s) else Ok None);
          Ok (Some (e, score))
      | None => Ok None
      end
  end.

Definition zzlDelete (zl : list Z) (eptr : Z) : res (list Z) :=
  '(zl, _) ← lpDeleteRangeWithEntry zl eptr 2; Ok zl.

(** [entries[1]] of [zzlInsertAt]: the score as an integer or as text *)
Definition score_entry (score : double) : res listpackEntry :=
  match double2ll score with
  | Some lscore => Ok (LVal lscore)
  | None =>
      '(scorelen, scorebuf) ← d2string (local_buf MAX_D2STRING_CHARS) score;
      Ok (SVal (take (Z.to_nat scorelen) scorebuf))
  end.

(** [None]: the listpack would be too large, and null is returned. *)
Definition zzlInsertAt (zl : list Z) (eptr : option Z) (ele : list Z) (score : double)
    : res (option (list Z)) :=
  e1 ← score_entry score;
  let entries := [SVal ele; e1] in
  match eptr with
  | None => lpBatchAppend zl entries
  | Some p =>
      r ← lpBatchInsert zl p LP_BEFORE entries;
      Ok (match r with Some (zl, _) => Some zl | None => None end)
  end.

(** Where the loop of [zzlInsert] stops: the element before which the new one
    goes, or null *)
Fixpoint zzlInsert_loop (fuel : nat) (zl : list Z) (ele : list Z) (score : double)
    (eptr : option Z) : res (option Z) :=
  match eptr with
  | None => Ok None
  | Some e =>
      match fuel with
      | O => Fault OutOfFuel
      | S fuel =>
          sptr ← lpNext zl e;
          p ← nonnull sptr;
          s ← zzlGetScore zl sptr;
          found ← (if SFltb score s then Ok true
                   else if SFeqb s score then
                     c ← zzlCompareElements zl e ele; Ok (c >? 0)
                   else Ok false);
          if found : bool then Ok (Some e)
          else eptr ← lpNext zl p; zzlInsert_loop fuel zl ele score eptr
      end
  end.

Definition zzlInsert (zl : list Z) (ele : list Z) (score : double) : res (option (list Z)) :=
  eptr ← lpSeek zl 0;
  eptr ← zzlInsert_loop (length zl) zl ele score eptr;
  zzlInsertAt zl eptr ele score.

(** The loop of [zzlDeleteRangeByScore] and of [zzlDeleteRangeByLex] *)
Fixpoint zzl_delete_loop (fuel : nat) (lte : list Z -> Z -> res bool) (zl : list Z)
    (eptr : option Z) (num : Z) : res (list Z * Z) :=
  match eptr with
  | None => Ok (zl, num)
  | Some e =>
      sptr ← lpNext zl e;
      match sptr with
      | None => Ok (zl, num)
      | Some _ =>
          l ← lte zl e;
          if l : bool then
            match fuel with
            | O => Fault OutOfFuel
            | S fuel =>
                '(zl, eptr) ← lpDeleteRangeWithEntry zl e 2;
                zzl_delete_loop fuel lte zl eptr (u64 (num + 1))
            end
          else Ok (zl, num)
      end
  end.

Definition zzlDeleteRangeByScore (zl : list Z) (range : zrangespec) : res (list Z * Z) :=
  eptr ← zzlFirstInRange zl range;
  match eptr with
  | None => Ok (zl, 0)
  | Some _ => zzl_delete_loop (length zl) (fun zl => score_lte zl range) zl eptr 0
  end.

Definition zzlDeleteRangeByLex (zl : list Z) (range : zlexrangespec) : res (list Z * Z) :=
  eptr ← zzlFirstInLexRange zl range;
  match eptr with
  | None => Ok (zl, 0)
  | Some _ => zzl_delete_loop (length zl) (fun zl => zzlLexValueLteMax zl range) zl eptr 0
  end.

(** [start] and [end_] are [unsigned int]. *)
Definition zzlDeleteRangeByRank (zl : list Z) (start end_ : Z) : res (list Z * Z) :=
  let num := u32 (u32 (end_ - start) + 1) in
  zl ← lpDeleteRange zl (u32 (2 * u32 (start - 1))) (u32 (2 * num));
  Ok (zl, num).

End zzl.
