(* ===== verification/ZzlRep.v ===== *)
(** Listpacks that hold a sorted set: the pairs of entries, the values they stand
    for, and what the functions of [Zzl] compute on them.

    [zzl_rep m ps] says that the listpack [m] holds the pairs [ps] of an element
    and a score; [zvals ps] are the scores and elements they stand for.  The
    pair [k] is at the address [zz_at ps k]. *)

From S2P Require Import Prelude Numstr Sds Listpack LpNav LpMod LpFind LpRange LpApi Skiplist.
From S2P Require Import SklRep Double Zzl.
From Stdlib Require Import SpecFloat.

Abbreviation pair := (lpent * lpent)%type.

Definition flat (ps : list pair) : list lpent := mjoin ((λ p, [p.1; p.2]) <$> ps).

Definition zzl_rep (m : list Z) (ps : list pair) : Prop := lp_rep m (flat ps).

(** ** Positions *)

Lemma pflat_app ps qs : flat (ps ++ qs) = flat ps ++ flat qs.
Proof. unfold flat. by rewrite fmap_app, join_app. Qed.

Lemma pflat_cons p ps : flat (p :: ps) = p.1 :: p.2 :: flat ps.
Proof. done. Qed.

Lemma length_pflat ps : length (flat ps) = (2 * length ps)%nat.
Proof. induction ps as [|p ps IH]; [done|]. rewrite pflat_cons. cbn [length]. lia. Qed.

Lemma take_flat ps k : take (2 * k) (flat ps) = flat (take k ps).
Proof.
  revert k. induction ps as [|p ps IH]; intros [|k]; try done.
  replace (2 * S k)%nat with (S (S (2 * k))) by lia. rewrite firstn_cons, !pflat_cons, !firstn_cons. by rewrite IH.
Qed.

Lemma drop_flat ps k : drop (2 * k) (flat ps) = flat (drop k ps).
Proof.
  revert k. induction ps as [|p ps IH]; intros [|k]; try done.
  replace (2 * S k)%nat with (S (S (2 * k))) by lia. rewrite pflat_cons, !skipn_cons. apply IH.
Qed.

Lemma flat_lookup_ele ps k p : ps !! k = Some p → flat ps !! (2 * k)%nat = Some p.1.
Proof.
  revert k. induction ps as [|q ps IH]; intros [|k]; try done; [by intros [= ->]|].
  replace (2 * S k)%nat with (S (S (2 * k))) by lia. apply IH.
Qed.

Lemma flat_lookup_score ps k p : ps !! k = Some p → flat ps !! (S (2 * k))%nat = Some p.2.
Proof.
  revert k. induction ps as [|q ps IH]; intros [|k]; try done; [by intros [= ->]|].
  replace (2 * S k)%nat with (S (S (2 * k))) by lia. apply IH.
Qed.

(** The address of the pair [k], and the pointer to it, null past the end *)
Definition zz_at (ps : list pair) (k : nat) : Z := lp_at (flat ps) (2 * k).
Definition zz_ptr (ps : list pair) (k : nat) : option Z :=
  if decide (k < length ps)%nat then Some (zz_at ps k) else None.

Lemma zz_ptr_lp ps k : lp_ptr (flat ps) (2 * k) = zz_ptr ps k.
Proof.
  unfold lp_ptr, zz_ptr, zz_at, lp_at. rewrite length_pflat.
  destruct (decide _), (decide _); done || lia.
Qed.

Lemma zz_ptr_some ps k : (k < length ps)%nat → zz_ptr ps k = Some (zz_at ps k).
Proof. intros. unfold zz_ptr. by rewrite decide_True. Qed.

Lemma zz_ptr_none ps k : (length ps ≤ k)%nat → zz_ptr ps k = None.
Proof. intros. unfold zz_ptr. rewrite decide_False by lia. done. Qed.

(** ** Values *)

Definition ent_score `{FloatText} (e : lpent) : double :=
  match ent_value e with EInt v => double_of_ll v | EStr s => (strtod (take 127 s)).1 end.

Definition zval `{FloatText} (p : pair) : double * list Z := (ent_score p.2, ent_str p.1).
Definition zvals `{FloatText} (ps : list pair) : list (double * list Z) := zval <$> ps.

Section read.
Context `{Allocator} `{FloatText} {m : list Z} {ps : list pair} (R : zzl_rep m ps).

Lemma zz_lt k p : ps !! k = Some p → (S (2 * k) < length (flat ps))%nat ∧ (2 * k < length (flat ps))%nat.
Proof. intros Hk. apply lookup_lt_Some in Hk. rewrite length_pflat. lia. Qed.

Lemma zz_ents_ok k p : ps !! k = Some p → ent_ok p.1 ∧ ent_ok p.2.
Proof.
  intros Hk. split; eapply (api_ent_ok R); [by apply flat_lookup_ele|by apply flat_lookup_score].
Qed.

(** The entry after the element, and the pair after the score *)
Lemma zz_next_score k p : ps !! k = Some p →
  lpNext m (zz_at ps k) = Ok (Some (lp_at (flat ps) (S (2 * k)))).
Proof.
  intros Hk. destruct (zz_lt k p Hk). unfold zz_at. rewrite (api_next R) by done.
  by rewrite lp_ptr_some.
Qed.

Lemma zz_next_ele k p : ps !! k = Some p →
  lpNext m (lp_at (flat ps) (S (2 * k))) = Ok (zz_ptr ps (S k)).
Proof.
  intros Hk. destruct (zz_lt k p Hk). rewrite (api_next R) by done.
  replace (S (S (2 * k))) with (2 * S k)%nat by lia. by rewrite zz_ptr_lp.
Qed.

Lemma zz_prev_score k : (k < length ps)%nat →
  lpPrev m (zz_at ps (S k)) = Ok (Some (lp_at (flat ps) (S (2 * k)))).
Proof.
  intros Hk. unfold zz_at. replace (2 * S k)%nat with (S (S (2 * k))) by lia.
  pose proof (length_pflat ps). rewrite (api_prev R) by lia. by rewrite lp_ptr_some by lia.
Qed.

Lemma zz_prev_ele k : (k < length ps)%nat →
  lpPrev m (lp_at (flat ps) (S (2 * k))) = Ok (Some (zz_at ps k)).
Proof.
  intros Hk. pose proof (length_pflat ps). rewrite (api_prev R) by lia.
  by rewrite lp_ptr_some by lia.
Qed.

Lemma zz_get_score k p : ps !! k = Some p →
  zzlGetScore m (Some (lp_at (flat ps) (S (2 * k)))) = Ok (ent_score p.2).
Proof.
  intros Hk. pose proof (api_value R _ _ (flat_lookup_score ps k p Hk)) as Hv.
  unfold zzlGetScore, ent_score. cbn [nonnull]. rs.
  destruct (ent_value p.2) as [v|s]; [by rewrite Hv|].
  destruct Hv as (q & Hg & _ & Hr). rewrite Hg. rs. unfold zzlStrtod. cbv zeta.
  rewrite Hr by (case_match; lia). rs. do 3 f_equal.
  destruct (zlen s >? 128 - 1) eqn:E; [done|]. rewrite !take_ge by lia. done.
Qed.

Lemma zz_object k p : ps !! k = Some p → lpGetObject m (Some (zz_at ps k)) = Ok (ent_str p.1).
Proof.
  intros Hk. pose proof (api_value R _ _ (flat_lookup_ele ps k p Hk)) as Hv.
  destruct (zz_ents_ok k p Hk) as [Hok _]. unfold lpGetObject, ent_str, zz_at. cbn [nonnull]. rs.
  destruct (ent_value p.1) as [v|s] eqn:Ev.
  - rewrite Hv. rs. pose proof (ent_ok_int _ _ Hok Ev) as Hi. pose proof (decs_len v Hi).
    unfold sdsfromlonglong. rewrite ll2string_ok by (done || rewrite local_buf_length; lia). rs.
    by rewrite Nat2Z.id, take_app_length.
  - destruct Hv as (q & -> & Hr & _). done.
Qed.

Lemma zz_score_at k p : ps !! k = Some p → score_at m (zz_at ps k) = Ok (ent_score p.2).
Proof.
  intros Hk. unfold score_at. rewrite (zz_next_score k p Hk). rs. cbn [nonnull]. rs.
  by apply zz_get_score.
Qed.

Lemma zz_seek_first : lpSeek m 0 = Ok (zz_ptr ps 0).
Proof.
  rewrite (api_seek R). unfold seek_index. cbn [Z.ltb Z.compare].
  rewrite <- zz_ptr_lp, length_pflat. by destruct ps.
Qed.

Lemma zz_seek_last : lpSeek m (-2) = Ok (if decide (ps = []) then None else zz_ptr ps (length ps - 1)).
Proof.
  rewrite (api_seek R). unfold seek_index. cbn [Z.ltb Z.compare]. rewrite <- zz_ptr_lp, length_pflat.
  destruct (decide (ps = [])) as [->|Hne]; [done|]. f_equal.
  assert (length ps ≠ 0%nat) by by destruct ps.
  replace (_ && _) with true by lia. f_equal. lia.
Qed.

Lemma zz_count : (4 * length ps ≤ length m)%nat.
Proof. pose proof (api_count R). rewrite length_pflat in *. lia. Qed.
End read.

(** ** The order of the values *)

Definition vkey (v : double * list Z) : list Z := zkey v.1 v.2.
Definition vlt (v w : double * list Z) : Prop := lexcmp (vkey v) (vkey w) < 0.

Lemma memcmp_app a r b n : (n ≤ length a)%nat → memcmp (a ++ r) b n = memcmp a b n.
Proof.
  revert b n. induction a as [|x a IH]; intros b n Hn; cbn [length] in Hn.
  - assert (n = 0)%nat as -> by lia. by destruct r, b.
  - destruct n as [|n]; [by destruct b|]. destruct b as [|y b]; [done|]. cbn [app memcmp].
    destruct (x =? y); [|done]. apply IH. lia.
Qed.

(** [zzlCompareElements] on the values has the sign of the order of the strings. *)
Lemma compare_sign a r b :
  zlen a < 2 ^ 31 → zlen b < 2 ^ 31 →
  let minlen := if zlen a <? u32 (zlen b) then zlen a else u32 (zlen b) in
  let cmp := memcmp (a ++ r) b (Z.to_nat minlen) in
  Z.sgn (if cmp =? 0 then s32 (u32 (zlen a - u32 (zlen b))) else cmp) = lexcmp a b.
Proof.
  intros Ha Hb. rewrite (u32_small (zlen b)) by lia. cbv zeta. rewrite memcmp_app by (case_match; lia).
  rewrite <- sdscmp_lex. unfold sdscmp. cbv zeta. destruct (_ =? 0) eqn:E; [|done].
  assert (s32 (u32 (zlen a - zlen b)) = zlen a - zlen b) as ->.
  { unfold wraps, wrapu. rewrite Zplus_mod_idemp_l, Z.mod_small by lia. lia. }
  destruct (zlen a >? zlen b) eqn:?, (zlen a <? zlen b) eqn:?; lia.
Qed.

Lemma vlt_split s e s' e' : isnan s = false → isnan s' = false →
  vlt (s, e) (s', e') ↔ SFltb s s' = true ∨ SFeqb s' s = true ∧ lexcmp e' e > 0.
Proof.
  intros Hs Hs'. unfold vlt, vkey, zkey. cbn [fst snd].
  rewrite SFltb_key, SFeqb_key, lexcmp_app by (done || by rewrite !length_fkey).
  rewrite (lexcmp_opp (fkey s) (fkey s')), (lexcmp_opp e e').
  rewrite Z.ltb_lt, Z.eqb_eq.
  destruct (Z.eqb_spec (lexcmp (fkey s) (fkey s')) 0) as [->|]; lia.
Qed.

Section search.
Context `{Allocator} `{FloatText} {m : list Z} {ps : list pair} (R : zzl_rep m ps).

Lemma zz_compare k p s : ps !! k = Some p → zlen (ent_str p.1) < 2 ^ 31 → zlen s < 2 ^ 31 →
  ∃ c, zzlCompareElements m (zz_at ps k) s = Ok c ∧ Z.sgn c = lexcmp (ent_str p.1) s.
Proof.
  intros Hk Hl Hs. pose proof (api_value R _ _ (flat_lookup_ele ps k p Hk)) as Hv.
  destruct (zz_ents_ok R k p Hk) as [Hok _]. unfold zzlCompareElements, zz_at, ent_str in *.
  destruct (ent_value p.1) as [v|t] eqn:Ev.
  - rewrite Hv. rs. pose proof (ent_ok_int _ _ Hok Ev) as Hi. pose proof (decs_len v Hi).
    rewrite ll2string_ok by (done || rewrite local_buf_length; lia). rs.
    eexists. split; [done|]. by apply compare_sign.
  - destruct Hv as (q & -> & Hr & _). rs. rewrite Hr. rs. eexists. split; [done|].
    pose proof (compare_sign t [] s Hl Hs) as Hc. by rewrite app_nil_r in Hc.
Qed.

Lemma find_from_flat s i qs : Forall (λ p : pair, ent_ok p.1) qs →
  find_from s 1 0 i (flat qs) =
    (λ kp, (i + 2 * kp.1)%nat) <$> list_find (λ p : pair, ent_str p.1 = s) qs.
Proof.
  intros Hok. revert i. induction Hok as [|p qs Hp _ IH]; intros i; [done|].
  rewrite pflat_cons. cbn [find_from list_find]. rewrite ent_matches_str by done.
  destruct (decide (ent_str p.1 = s)) as [E|E].
  - rewrite bool_decide_true by done. cbn. f_equal. lia.
  - rewrite bool_decide_false by done. rewrite IH.
    destruct (list_find _ qs) as [[k q]|]; [|done]. cbn. f_equal. lia.
Qed.

(** [zzlFind] returns the pair of the element, if there is one. *)
Lemma zz_find s want :
  zzlFind m s want =
    Ok ((λ kp, (zz_at ps kp.1, if want : bool then Some (ent_score kp.2.2) else None)) <$>
        list_find (λ p : pair, ent_str p.1 = s) ps).
Proof.
  unfold zzlFind. rewrite (api_first R). rs.
  destruct (decide (0 < length (flat ps))%nat) as [Hlt|Hge].
  2:{ rewrite lp_ptr_none by lia. rewrite length_pflat in Hge. by destruct ps; [|cbn in Hge; lia]. }
  destruct (lp_ptr (flat ps) 0) as [q|] eqn:Eq; [|by rewrite lp_ptr_some in Eq]. rewrite <- Eq.
  change 1 with (Z.of_nat 1) at 1.
  rewrite (api_find R) by (done || lia). rs. rewrite drop_0.
  rewrite find_from_flat by (apply Forall_lookup; intros k p Hk; by apply (zz_ents_ok R k p)).
  destruct (list_find _ ps) as [[k p]|] eqn:Ef; [|done]. cbn [fmap option_fmap option_map fst snd Nat.add].
  apply list_find_Some in Ef as (Hk & _). change (lp_at (flat ps) (2 * k)) with (zz_at ps k).
  rewrite (zz_next_score R k p Hk). rs. cbn [nonnull]. rs. destruct want; [|done].
  by rewrite (zz_get_score R k p Hk).
Qed.

(** The loop of [zzlInsert] stops at the first pair that is after the new one. *)
Lemma insert_loop_ok s e : isnan s = false → zlen e < 2 ^ 31 →
  Forall (λ p, isnan (ent_score p.2) = false ∧ zlen (ent_str p.1) < 2 ^ 31) ps →
  ∀ fuel k, (length ps - k ≤ fuel)%nat → (k ≤ length ps)%nat →
  ∃ j, (k ≤ j ≤ length ps)%nat ∧ zzlInsert_loop fuel m e s (zz_ptr ps k) = Ok (zz_ptr ps j) ∧
    (∀ i p, (k ≤ i < j)%nat → ps !! i = Some p → ¬ vlt (s, e) (zval p)) ∧
    (∀ p, ps !! j = Some p → vlt (s, e) (zval p)).
Proof.
  intros Hs He Hps. induction fuel as [|fuel IH]; intros k Hf Hk.
  { exists k. assert (k = length ps) as -> by lia. rewrite zz_ptr_none by lia. split; [lia|]. split; [done|].
    split; [intros; lia|]. intros p Hp. apply lookup_lt_Some in Hp. lia. }
  destruct (decide (k < length ps)%nat) as [Hlt|Hge].
  2:{ exists k. rewrite zz_ptr_none by lia. split; [lia|]. split; [done|]. split; [intros; lia|].
      intros p Hp. apply lookup_lt_Some in Hp. lia. }
  destruct (lookup_lt_is_Some_2 ps k Hlt) as [p Hp].
  rewrite Forall_lookup in Hps. destruct (Hps k p Hp) as [Hnan Hlen].
  rewrite zz_ptr_some by done. cbn [zzlInsert_loop]. rewrite (zz_next_score R k p Hp). rs. cbn [nonnull]. rs.
  rewrite (zz_get_score R k p Hp). rs.
  destruct (zz_compare k p e Hp Hlen He) as (c & Hc & Hsgn).
  pose proof (vlt_split s e (ent_score p.2) (ent_str p.1) Hs Hnan) as Hv. rewrite <- Hsgn in Hv.
  assert (∀ b : bool, (b = true ↔ vlt (s, e) (zval p)) →
    ∃ j, (k ≤ j ≤ length ps)%nat ∧
      (if b then Ok (Some (zz_at ps k)) else
        eptr ← lpNext m (lp_at (flat ps) (S (2 * k))); zzlInsert_loop fuel m e s eptr) = Ok (zz_ptr ps j) ∧
      (∀ i p, (k ≤ i < j)%nat → ps !! i = Some p → ¬ vlt (s, e) (zval p)) ∧
      (∀ p, ps !! j = Some p → vlt (s, e) (zval p))) as Hstep.
  { intros [] Hb.
    - exists k. rewrite zz_ptr_some by done. split; [lia|]. split; [done|]. split; [intros; lia|].
      intros p' Hp'. replace p' with p by congruence. by apply Hb.
    - rewrite (zz_next_ele R k p Hp). rs. destruct (IH (S k)) as (j & Hj & Hl & Hbef & Haft); [lia..|].
      exists j. split; [lia|]. split; [done|]. split; [|done]. intros i q Hi Hq.
      destruct (decide (i = k)) as [->|]; [|apply (Hbef i); [lia|done]].
      replace q with p by congruence. by rewrite <- Hb. }
  destruct (SFltb s (ent_score p.2)).
  { rs. apply (Hstep true). unfold zval. rewrite Hv. naive_solver. }
  destruct (SFeqb (ent_score p.2) s).
  - rewrite Hc. rs. apply (Hstep (c >? 0)). unfold zval. rewrite Hv. split; [intros ?; right; lia|].
    intros [?|[_ ?]]; [done|lia].
  - rs. apply (Hstep false). unfold zval. rewrite Hv. naive_solver.
Qed.
End search.
