(* ===== verification/ZzlMod.v ===== *)
(** Updates and ranges of listpacks that hold a sorted set: the lemmas on
    [zzlInsert], [zzlDelete], [zzlFirstInRange] and the functions after them. *)

From S2P Require Import Prelude Numstr Sds Listpack LpNav LpMod LpFind LpRange LpApi Skiplist.
From S2P Require Import SklRep SklMod SklDel Double Zzl ZzlRep.
From Stdlib Require Import SpecFloat.

(** ** The entries of a new pair *)

(** The entry of a score *)
Definition score_ent `{FloatText} (s : double) : lpent :=
  match double2ll s with Some v => int_ent v | None => ele_ent (d2_text s) end.

Section entries.
Context `{FloatTextLaws}.

Lemma d2_text_bytes s : Forall is_byte (d2_text s).
Proof.
  destruct s as [[]|[]| |]; cbn [d2_text]; try (repeat constructor; done).
  destruct (double2ll _); [apply decs_bytes|apply dtoa_bytes].
Qed.

(** A score is read back as an equal score: minus zero becomes zero. *)
Lemma score_ent_value s : valid_double s = true → isnan s = false →
  ent_ok (score_ent s) ∧ fkey (ent_score (score_ent s)) = fkey s ∧
  isnan (ent_score (score_ent s)) = false ∧ valid_double (ent_score (score_ent s)) = true.
Proof.
  intros Hv Hn. unfold score_ent. destruct (double2ll s) as [v|] eqn:E.
  - destruct (double2ll_Some s v E) as [Hi Heq]. destruct (int_ent_ok v Hi) as [Hok Hval].
    split; [done|]. unfold ent_score. rewrite Hval.
    assert (isnan (double_of_ll v) = false) as Hnv by by destruct (double_of_ll v).
    split; [|split; [done|apply double_of_ll_valid]].
    rewrite SFeqb_key in Heq by done. apply lexcmp_eq. lia.
  - pose proof (d2_text_length s) as Hl. destruct (ele_ent_ok (d2_text s)) as [Hok Hval];
      [lia|apply d2_text_bytes|]. split; [done|].
    assert (ent_score (ele_ent (d2_text s)) = s) as ->; [|done].
    unfold ent_score. rewrite Hval. unfold ele_value.
    assert ((strtod (d2_text s)).1 = s) as Hrt.
    { destruct s as [[]|[]| |sg m e]; [by vm_compute in E..|apply strtod_minf|apply strtod_inf|done|].
      cbn [d2_text]. rewrite E. by apply strtod_dtoa. }
    destruct (string2ll (d2_text s)) as [w|] eqn:Ew; [|by rewrite take_ge by lia].
    apply string2ll_sound in Ew as [Hw Et]. rewrite Et, strtod_int in Hrt by done. done.
Qed.

Lemma int_ent_size v : is_i64 v → zlen (lp_entry (int_ent v)) ≤ 10.
Proof.
  intros Hv. rewrite lp_entry_length. unfold ent_size, ent_bytes, int_ent.
  repeat case_match; cbn [ent_head ent_data app length]; rewrite ?length_le_bytes; vm_compute; done.
Qed.

Lemma backlen_bytes_le l : lpEncodeBacklenBytes l ≤ 5.
Proof. unfold lpEncodeBacklenBytes. repeat case_match; lia. Qed.

Lemma ele_ent_size e : zlen (lp_entry (ele_ent e)) ≤ zlen e + 10.
Proof.
  unfold ele_ent. destruct (string2ll e) as [v|] eqn:E.
  { apply string2ll_sound in E as [Hv _]. pose proof (int_ent_size v Hv). lia. }
  rewrite lp_entry_length. unfold ent_size. pose proof (backlen_bytes_le (zlen (ent_bytes (str_ent e)))).
  assert (zlen (ent_bytes (str_ent e)) ≤ zlen e + 5); [|lia]. unfold ent_bytes, str_ent.
  repeat case_match; cbn [ent_head ent_data app length]; rewrite ?length_app, ?length_le_bytes; lia.
Qed.

Lemma score_ent_size s : zlen (lp_entry (score_ent s)) ≤ 34.
Proof.
  unfold score_ent. destruct (double2ll s) as [v|] eqn:E.
  - apply double2ll_Some in E as [Hv _]. pose proof (int_ent_size v Hv). lia.
  - pose proof (ele_ent_size (d2_text s)). pose proof (d2_text_length s). lia.
Qed.

Lemma score_entry_ok `{Allocator} s :
  ∃ x, score_entry s = Ok x ∧ batch_ok x ∧ batch_ent x = score_ent s.
Proof.
  unfold score_entry, score_ent. destruct (double2ll s) as [v|] eqn:E.
  - apply double2ll_Some in E as [Hv _]. eauto.
  - destruct (d2string_ok (local_buf MAX_D2STRING_CHARS) s) as (rest & -> & _);
      [by rewrite local_buf_length|]. rs. rewrite Nat2Z.id, take_app_length.
    eexists. split; [done|]. pose proof (d2_text_length s). split; [|done].
    split; [lia|apply d2_text_bytes].
Qed.
End entries.

(** ** Insertion and removal of pairs *)

Definition new_pair `{FloatText} (s : double) (e : list Z) : pair := (ele_ent e, score_ent s).

Lemma lp_total_flat_insert ps j (p : pair) :
  lp_total (flat (take j ps ++ p :: drop j ps)) =
  lp_total (flat ps) + zlen (lp_entry p.1) + zlen (lp_entry p.2).
Proof.
  rewrite <- (take_drop j ps) at 3. unfold lp_total. rewrite !pflat_app, pflat_cons, !lp_body_app, !lp_body_cons.
  rewrite !length_app. lia.
Qed.

Section modify.
Context `{Allocator} `{FloatTextLaws} {m : list Z} {ps : list pair} (R : zzl_rep m ps).

Lemma zz_insert_at j s e :
  (j ≤ length ps)%nat → zlen e < 2 ^ 32 - 5 → Forall is_byte e →
  lp_total (flat ps) + zlen (lp_entry (ele_ent e)) + 34 ≤ UINT32_MAX →
  ∃ m', zzlInsertAt m (zz_ptr ps j) e s = Ok (Some m') ∧
    zzl_rep m' (take j ps ++ new_pair s e :: drop j ps).
Proof.
  intros Hj Hl Hb Ht. unfold zzlInsertAt. destruct (score_entry_ok s) as (x & -> & Hx & Ex). rs.
  assert (Forall batch_ok [SVal e; x]) as Hxs by (repeat constructor; done).
  assert (batch_ent <$> [SVal e; x] = [ele_ent e; score_ent s]) as Ees by (cbn; by rewrite Ex).
  assert (lp_total (flat (take j ps ++ new_pair s e :: drop j ps)) ≤ UINT32_MAX) as Ht'.
  { rewrite lp_total_flat_insert. cbn [fst snd new_pair]. pose proof (score_ent_size s). lia. }
  destruct (decide (j < length ps)%nat) as [Hlt|Hge].
  - rewrite zz_ptr_some by done. unfold zz_at.
    destruct (api_batch_insert R (2 * j) [SVal e; x]) as (m' & np & Hi & R');
      [rewrite length_pflat; lia|done|done| |].
    + rewrite Ees, take_flat, drop_flat. by rewrite pflat_app, pflat_cons in Ht'.
    + rewrite Hi. rs. exists m'. split; [done|]. unfold zzl_rep.
      rewrite Ees, take_flat, drop_flat in R'. by rewrite pflat_app, pflat_cons.
  - assert (j = length ps) as -> by lia. rewrite zz_ptr_none by lia.
    rewrite firstn_all, drop_all in *. rewrite pflat_app, pflat_cons in Ht'.
    destruct (api_batch_append R [SVal e; x]) as (m' & Hi & R'); [done|done|by rewrite Ees|].
    exists m'. split; [done|]. unfold zzl_rep. rewrite Ees in R'. by rewrite pflat_app, pflat_cons.
Qed.

Lemma zz_insert s e :
  isnan s = false → zlen e < 2 ^ 31 → Forall is_byte e →
  Forall (λ p, isnan (ent_score p.2) = false ∧ zlen (ent_str p.1) < 2 ^ 31) ps →
  lp_total (flat ps) + zlen (lp_entry (ele_ent e)) + 34 ≤ UINT32_MAX →
  ∃ j m', (j ≤ length ps)%nat ∧ zzlInsert m e s = Ok (Some m') ∧
    zzl_rep m' (take j ps ++ new_pair s e :: drop j ps) ∧
    (∀ i p, (i < j)%nat → ps !! i = Some p → ¬ vlt (s, e) (zval p)) ∧
    (∀ p, ps !! j = Some p → vlt (s, e) (zval p)).
Proof.
  intros Hs He Hb Hps Ht. unfold zzlInsert. rewrite (zz_seek_first R). rs.
  pose proof (zz_count R).
  destruct (insert_loop_ok R s e Hs He Hps (length m) 0) as (j & Hj & -> & Hbef & Haft); [lia..|]. rs.
  destruct (zz_insert_at j s e) as (m' & Hi & R'); [lia|lia|done|done|].
  exists j, m'. split; [lia|]. split; [done|]. split; [done|]. split; [|done].
  intros i p Hi'. apply Hbef. lia.
Qed.

Lemma take_drop_flat k n : (k < length ps)%nat →
  take (2 * k) (flat ps) ++ drop (2 * k + 2 * n) (flat ps) = flat (take k ps ++ drop (k + n) ps).
Proof. intros Hk. rewrite pflat_app, take_flat. f_equal. rewrite <- drop_flat. f_equal. lia. Qed.

(** Removal of one pair, and the pair after it *)
Lemma zz_delete_with k : (k < length ps)%nat →
  ∃ m', lpDeleteRangeWithEntry m (zz_at ps k) 2 = Ok (m', zz_ptr (delete k ps) k) ∧ zzl_rep m' (delete k ps).
Proof.
  intros Hk. destruct (api_delete_range R (2 * k) 2) as (m' & Hd & R'); [rewrite length_pflat; lia|lia|].
  replace (2 * k + 2)%nat with (2 * k + 2 * 1)%nat in * by lia. rewrite take_drop_flat in * by done.
  rewrite Nat.add_1_r, <- delete_take_drop in *. exists m'. split; [|done].
  unfold zz_at. change (Z.of_nat 2) with 2 in Hd. rewrite Hd. by rewrite zz_ptr_lp.
Qed.

Lemma zz_delete k : (k < length ps)%nat →
  ∃ m', zzlDelete m (zz_at ps k) = Ok m' ∧ zzl_rep m' (delete k ps).
Proof.
  intros Hk. destruct (zz_delete_with k Hk) as (m' & Hd & R'). exists m'. split; [|done].
  unfold zzlDelete. by rewrite Hd.
Qed.

Lemma zz_length : ∃ m', zzlLength m = Ok (zlen ps, m') ∧ zzl_rep m' ps.
Proof.
  destruct (api_length R) as (m' & Hl & R' & _). exists m'. split; [|done].
  unfold zzlLength. rewrite Hl. rs. rewrite length_pflat. do 2 f_equal.
  rewrite Nat2Z.inj_mul. change (Z.of_nat 2) with 2. rewrite Z.mul_comm, Z.div_mul by done. done.
Qed.

(** [zzlDeleteRangeByRank] removes the pairs with ranks [start] to [end_]. *)
Lemma zz_delete_rank start end_ :
  1 ≤ start ≤ zlen ps → start ≤ end_ → end_ < 2 ^ 30 →
  ∃ m', zzlDeleteRangeByRank m start end_ = Ok (m', end_ - start + 1) ∧
    zzl_rep m' (take (Z.to_nat (start - 1)) ps ++ drop (Z.to_nat end_) ps).
Proof.
  intros Hs He Hb. unfold zzlDeleteRangeByRank.
  rewrite (u32_small (end_ - start)), (u32_small (end_ - start + 1)), (u32_small (start - 1)) by lia.
  rewrite !u32_small by lia.
  destruct (api_delete_index R (2 * (start - 1)) (2 * (end_ - start + 1))) as (m' & Hd & R');
    [unfold is_i64; lia|lia|]. rewrite Hd. rs. exists m'. split; [done|].
  unfold seek_index in R'. rewrite length_pflat in R'. replace (2 * (start - 1) <? 0) with false in R' by lia.
  replace ((0 <=? 2 * (start - 1)) && _) with true in R' by lia.
  replace (Z.to_nat (2 * (start - 1))) with (2 * Z.to_nat (start - 1))%nat in R' by lia.
  replace (Z.to_nat (2 * (end_ - start + 1))) with (2 * Z.to_nat (end_ - start + 1))%nat in R' by lia.
  rewrite take_drop_flat in R' by lia. unfold zzl_rep.
  by replace (Z.to_nat (start - 1) + Z.to_nat (end_ - start + 1))%nat with (Z.to_nat end_) in R' by lia.
Qed.
End modify.

(** ** Ranges *)

Section ranges.
Context `{Allocator} `{FloatText}.

(** The pairs before the range, in it, and after it *)
Record zz_cut (gte lte : pair → bool) (as_ ds bs : list pair) : Prop := ZzCut {
  cut_before : Forall (λ p, gte p = false) as_;
  cut_gte : Forall (λ p, gte p = true) (ds ++ bs);
  cut_in : Forall (λ p, lte p = true) ds;
  cut_after : Forall (λ p, lte p = false) bs }.

Context {gte lte : pair → bool} {as_ ds bs : list pair} (C : zz_cut gte lte as_ ds bs).

Lemma first_loop_ok m gt lt fuel (k : nat) :
  let ps := as_ ++ ds ++ bs in
  zzl_rep m ps →
  (∀ k p, ps !! k = Some p → gt (zz_at ps k) = Ok (gte p)) →
  (∀ k p, ps !! k = Some p → lt (zz_at ps k) = Ok (lte p)) →
  (k ≤ length as_)%nat → (length ps - k ≤ fuel)%nat →
  first_loop fuel m gt lt (zz_ptr ps k) =
    Ok (if decide (ds = []) then None else Some (zz_at ps (length as_))).
Proof.
  cbv zeta. set (ps := as_ ++ ds ++ bs). intros R Hg Hl.
  assert (length ps = (length as_ + length ds + length bs)%nat) as Hlen
    by (unfold ps; rewrite !length_app; lia).
  revert k. induction fuel as [|fuel IH]; intros k Hk Hf.
  { assert (k = length ps) as -> by lia. rewrite zz_ptr_none by lia.
    assert (length ds = 0%nat) as ->%nil_length_inv by lia. done. }
  destruct (decide (k < length ps)%nat) as [Hlt|Hge].
  2:{ rewrite zz_ptr_none by lia. assert (length ds = 0%nat) as ->%nil_length_inv by lia. done. }
  rewrite zz_ptr_some by done. destruct (lookup_lt_is_Some_2 ps k Hlt) as [p Hp].
  cbn [first_loop]. rewrite (Hg k p Hp). rs.
  destruct (decide (k < length as_)%nat) as [Ha|Ha].
  - assert (gte p = false) as ->.
    { pose proof (cut_before _ _ _ _ _ C) as F. rewrite Forall_lookup in F. apply (F k).
      unfold ps in Hp. by rewrite lookup_app_l in Hp. }
    rewrite (zz_next_score R k p Hp). rs. cbn [nonnull]. rs. rewrite (zz_next_ele R k p Hp). rs.
    apply IH; lia.
  - assert (k = length as_) as -> by lia. unfold ps in Hp. rewrite lookup_app_r, Nat.sub_diag in Hp by lia.
    pose proof (cut_gte _ _ _ _ _ C) as F. rewrite Forall_lookup in F. rewrite (F _ _ Hp).
    rewrite (Hl (length as_) p) by (unfold ps; by rewrite lookup_app_r, Nat.sub_diag by lia). rs.
    destruct ds as [|d ds'].
    + pose proof (cut_after _ _ _ _ _ C) as G. rewrite Forall_lookup in G. by rewrite (G _ _ Hp).
    + injection Hp as ->. pose proof (cut_in _ _ _ _ _ C) as G. apply Forall_cons in G as [-> _]. done.
Qed.

Lemma last_loop_ok m gt lt :
  let ps := as_ ++ ds ++ bs in
  zzl_rep m ps → Forall (λ p, lte p = true) as_ →
  (∀ k p, ps !! k = Some p → gt (zz_at ps k) = Ok (gte p)) →
  (∀ k p, ps !! k = Some p → lt (zz_at ps k) = Ok (lte p)) →
  ∀ fuel k, (length as_ + length ds ≤ k ≤ length ps)%nat → (k ≤ fuel)%nat →
  last_loop fuel m gt lt (if decide (k = 0%nat) then None else zz_ptr ps (k - 1)) =
    Ok (if decide (ds = []) then None else Some (zz_at ps (length as_ + length ds - 1))).
Proof.
  cbv zeta. set (ps := as_ ++ ds ++ bs). intros R Has Hg Hl.
  assert (length ps = (length as_ + length ds + length bs)%nat) as Hlen
    by (unfold ps; rewrite !length_app; lia).
  induction fuel as [|fuel IH]; intros k Hk Hf; (destruct (decide (k = 0%nat)) as [->|Hk0];
    [assert (length ds = 0%nat) as ->%nil_length_inv by lia; done|]); [lia|].
  rewrite zz_ptr_some by lia. destruct (lookup_lt_is_Some_2 ps (k - 1)) as [p Hp]; [lia|].
  cbn [last_loop]. rewrite (Hl _ _ Hp). rs.
  destruct (decide (k = length as_ + length ds)%nat) as [Hc|Hc].
  - destruct (decide (ds = [])) as [Hds|Hds].
    + rewrite Hds in Hc. cbn [length] in Hc. unfold ps in Hp. rewrite lookup_app_l in Hp by lia.
      rewrite Forall_lookup in Has. rewrite (Has _ _ Hp). rewrite (Hg (k - 1)%nat p)
        by (unfold ps; rewrite lookup_app_l by lia; done). rs.
      pose proof (cut_before _ _ _ _ _ C) as F. rewrite Forall_lookup in F. by rewrite (F _ _ Hp).
    + assert (length ds ≠ 0%nat) by by destruct ds. pose proof Hp as Hp'. unfold ps in Hp.
      rewrite lookup_app_r, lookup_app_l in Hp by lia.
      pose proof (cut_in _ _ _ _ _ C) as F. rewrite Forall_lookup in F. rewrite (F _ _ Hp), (Hg _ _ Hp'). rs.
      pose proof (cut_gte _ _ _ _ _ C) as G. apply Forall_app in G as [G _]. rewrite Forall_lookup in G.
      rewrite (G _ _ Hp). by rewrite <- Hc.
  - pose proof Hp as Hp'. unfold ps in Hp. rewrite lookup_app_r, lookup_app_r in Hp by lia.
    pose proof (cut_after _ _ _ _ _ C) as F. rewrite Forall_lookup in F. rewrite (F _ _ Hp).
    destruct (decide (k - 1 = 0)%nat) as [E|E].
    + rewrite E. change (zz_at ps 0) with (lp_at (flat ps) 0) at 1.
      rewrite (api_prev_first R)
        by (intros En; apply (f_equal length) in En; rewrite length_pflat in En; cbn in En; lia). rs.
      specialize (IH 0%nat ltac:(lia) ltac:(lia)). by destruct fuel.
    + replace (k - 1)%nat with (S (k - 1 - 1)) at 1 by lia. rewrite (zz_prev_score R) by lia. rs.
      rewrite (zz_prev_ele R) by lia. rs. cbn [nonnull]. rs. rewrite <- zz_ptr_some by lia.
      specialize (IH (k - 1)%nat ltac:(lia) ltac:(lia)). by rewrite decide_False in IH.
Qed.
End ranges.

Lemma cut_filter gte lte as_ ds bs (P : bool → pair → Prop) `{∀ b p, Decision (P b p)} :
  (∀ b p, P b p ↔ gte p && lte p = b) → zz_cut gte lte as_ ds bs →
  filter (P true) (as_ ++ ds ++ bs) = ds ∧ filter (P false) (as_ ++ ds ++ bs) = as_ ++ bs.
Proof.
  intros HP [H1 H2 H3 H4]. apply Forall_app in H2 as [H2 H5]. rewrite !filter_app.
  assert (∀ (b : bool) l, Forall (λ p, gte p && lte p = b) l →
    filter (P true) l = (if b then l else []) ∧ filter (P false) l = (if b then [] else l)) as Hf.
  { intros b l. induction 1 as [|p l Hp _ [IH1 IH2]]; [by destruct b|]. destruct b.
    - rewrite filter_cons_True, filter_cons_False by (rewrite HP, Hp; done). by rewrite IH1, IH2.
    - rewrite filter_cons_False, filter_cons_True by (rewrite HP, Hp; done). by rewrite IH1, IH2. }
  destruct (Hf false as_) as [-> ->]; [eapply Forall_impl; [done|]; by intros p ->|].
  destruct (Hf true ds) as [-> ->].
  { apply Forall_lookup. intros i p Hi. rewrite Forall_lookup in H2, H3. by rewrite (H2 i p), (H3 i p). }
  destruct (Hf false bs) as [-> ->].
  { apply Forall_lookup. intros i p Hi. rewrite Forall_lookup in H4. rewrite (H4 i p) by done. apply andb_false_r. }
  by rewrite !app_nil_r.
Qed.

(** The loop that deletes the pairs of the range *)
Lemma zz_delete_loop_ok `{Allocator} `{FloatText} (lte : pair → bool) lt as_ bs :
  (∀ m ps k p, zzl_rep m ps → ps !! k = Some p → lt m (zz_at ps k) = Ok (lte p)) →
  head_fails lte bs →
  ∀ ds m fuel num, zzl_rep m (as_ ++ ds ++ bs) → Forall (λ p, lte p = true) ds →
  (length ds ≤ fuel)%nat → 0 ≤ num → num + zlen ds < 2 ^ 64 →
  ∃ m', zzl_delete_loop fuel lt m (zz_ptr (as_ ++ ds ++ bs) (length as_)) num = Ok (m', num + zlen ds) ∧
    zzl_rep m' (as_ ++ bs).
Proof.
  intros Hlt Hbs. induction ds as [|d ds IH]; intros m fuel num R Hds Hf Hn Hb.
  - cbn [app length] in *. rewrite Z.add_0_r. exists m. split; [|done].
    destruct bs as [|b bs].
    { rewrite zz_ptr_none by (rewrite length_app; cbn; lia). by destruct fuel. }
    rewrite zz_ptr_some by (rewrite length_app; cbn; lia).
    assert ((as_ ++ b :: bs) !! length as_ = Some b) as Hp by (by rewrite lookup_app_r, Nat.sub_diag by lia).
    apply head_fails_cons in Hbs as Hb'.
    destruct fuel; cbn [zzl_delete_loop]; rewrite (zz_next_score R _ _ Hp); rs;
      rewrite (Hlt _ _ _ _ R Hp), Hb'; done.
  - cbn [app length] in *. destruct fuel as [|fuel]; [lia|].
    assert ((as_ ++ d :: ds ++ bs) !! length as_ = Some d) as Hp by (by rewrite lookup_app_r, Nat.sub_diag by lia).
    pose proof (lookup_lt_Some _ _ _ Hp) as Hi. rewrite zz_ptr_some by done. cbn [zzl_delete_loop].
    rewrite (zz_next_score R _ _ Hp). rs. rewrite (Hlt _ _ _ _ R Hp). rs.
    apply Forall_cons in Hds as [-> Hds]. destruct (zz_delete_with R (length as_) Hi) as (m' & -> & R'). rs.
    rewrite delete_middle in *. rewrite u64_small by lia.
    destruct (IH m' fuel (num + 1) R' Hds) as (m2 & Hd & R2); [lia..|].
    exists m2. split; [|done]. rewrite Hd. do 2 f_equal. lia.
Qed.
