(* ===== verification/ZzlSpec.v ===== *)
(** The contract of the listpack encoding of sorted sets: what each function of
    [Zzl] does to the sequence of scores and elements, with concrete runs. *)

From S2P Require Import Prelude Numstr Sds Listpack LpNav LpMod LpFind LpRange LpApi Skiplist.
From S2P Require Import SklRep SklMod SklDel SklSpec Double Zzl ZzlRep ZzlMod.
From Stdlib Require Import SpecFloat.

(** ** Ranges of a sorted sequence *)

Lemma pair_cut `{FloatText} (P : pair → bool) ps :
  StronglySorted vlt (zvals ps) →
  (∀ p q, p ∈ ps → q ∈ ps → vlt (zval p) (zval q) → P q = true → P p = true) →
  ∃ l r, ps = l ++ r ∧ Forall (λ p, P p = true) l ∧ Forall (λ p, P p = false) r.
Proof.
  induction ps as [|p ps IH]; intros HS HP; [by exists [], []|].
  apply StronglySorted_inv in HS as [HS Hp]. destruct (P p) eqn:E.
  - destruct IH as (l & r & -> & Hl & Hr); [done|intros; eapply HP; set_solver|].
    exists (p :: l), r. split; [done|]. split; [by constructor|done].
  - exists [], (p :: ps). split; [done|]. split; [constructor|]. constructor; [done|].
    apply Forall_forall. intros q Hq. destruct (P q) eqn:Eq; [|done].
    rewrite Forall_forall in Hp. rewrite (HP p q) in E; [done|set_solver..| |done].
    apply Hp. apply list_elem_of_fmap. eauto.
Qed.

Lemma range_pairs `{FloatText} (gte lte : pair → bool) ps :
  StronglySorted vlt (zvals ps) →
  (∀ p q, p ∈ ps → q ∈ ps → vlt (zval p) (zval q) → gte p = true → gte q = true) →
  (∀ p q, p ∈ ps → q ∈ ps → vlt (zval p) (zval q) → lte q = true → lte p = true) →
  ∃ as_ ds bs, ps = as_ ++ ds ++ bs ∧ zz_cut gte lte as_ ds bs.
Proof.
  intros HS Hg Hl. destruct (pair_cut (λ p, negb (gte p)) ps HS) as (as_ & r & -> & H1 & H2).
  { intros p q Hp Hq Hpq Eq. destruct (gte p) eqn:E; [|done]. by rewrite (Hg p q) in Eq. }
  unfold zvals in HS. rewrite fmap_app in HS. apply StronglySorted_app in HS as (_ & _ & HS).
  destruct (pair_cut lte r HS) as (ds & bs & -> & H3 & H4); [intros; eapply Hl; set_solver|].
  exists as_, ds, bs. split; [done|]. split; [|eapply Forall_impl; [done|]|done..].
  - eapply Forall_impl; [done|]. cbn. intros p. by destruct (gte p).
  - cbn. intros p. by destruct (gte p).
Qed.

(** What the functions that search a range start with: [empty] is the test of
    the bounds, [isin] the whole test. *)
Definition range_test (gte lte : pair → bool) (empty : bool) (ps : list pair) (isin : res bool) : Prop :=
  isin = Ok (if empty then false else
             match last ps, head ps with Some p, Some q => gte p && lte q | _, _ => false end) ∧
  (empty = true → ∀ p, p ∈ ps → gte p && lte p = false) ∧
  (empty = false → ∀ p, p ∈ ps → gte p = false → lte p = true).

Lemma range_test_ok gte lte empty as_ ds bs isin :
  zz_cut gte lte as_ ds bs → range_test gte lte empty (as_ ++ ds ++ bs) isin →
  ∃ b : bool, isin = Ok b ∧ (b = false → ds = []) ∧ (b = true → Forall (λ p, lte p = true) as_).
Proof.
  intros [H1 H2 H3 H4] (-> & He & Hn). eexists. split; [done|]. destruct empty.
  - split; [|done]. intros _. destruct ds as [|d ds]; [done|]. exfalso.
    specialize (He eq_refl d ltac:(set_solver)). apply Forall_app in H2 as [H2 _].
    apply Forall_cons in H2 as [H2 _]. apply Forall_cons in H3 as [H3 _]. by rewrite H2, H3 in He.
  - assert (Forall (λ p, lte p = true) as_) as Has.
    { rewrite Forall_forall in *. intros p Hp. apply (Hn eq_refl); [set_solver|by apply H1]. }
    split; [|done]. intros Hb. destruct ds as [|d ds]; [done|]. exfalso. revert Hb.
    destruct (last (as_ ++ (d :: ds) ++ bs)) as [p|] eqn:Ep.
    2:{ apply last_None in Ep. by destruct as_. }
    destruct (head (as_ ++ (d :: ds) ++ bs)) as [q|] eqn:Eq; [|by destruct as_].
    assert (gte p = true) as ->.
    { rewrite last_app in Ep. cbn [app] in *. rewrite Forall_forall in H2. apply H2.
      destruct (last (d :: ds ++ bs)) as [w|] eqn:Ew; [|by apply last_None in Ew].
      injection Ep as ->. by apply last_Some_elem_of in Ew. }
    assert (lte q = true) as ->; [|done].
    destruct as_ as [|a as_]; cbn in Eq; injection Eq as ->;
      [by apply Forall_cons in H3 as [? _]|by apply Forall_cons in Has as [? _]].
Qed.

Section range_fns.
Context `{Allocator} `{FloatText}.
Context {gte lte : pair → bool} {empty : bool} {as_ ds bs : list pair} (C : zz_cut gte lte as_ ds bs).
Context {m : list Z} (R : zzl_rep m (as_ ++ ds ++ bs)) {isin : res bool}.
Context (T : range_test gte lte empty (as_ ++ ds ++ bs) isin).
Context {gt lt : Z → res bool}.
Context (Hg : ∀ k p, (as_ ++ ds ++ bs) !! k = Some p → gt (zz_at (as_ ++ ds ++ bs) k) = Ok (gte p)).
Context (Hl : ∀ k p, (as_ ++ ds ++ bs) !! k = Some p → lt (zz_at (as_ ++ ds ++ bs) k) = Ok (lte p)).

Lemma first_in_ok :
  (eptr ← lpSeek m 0; b ← isin; if negb b then Ok None else first_loop (length m) m gt lt eptr) =
    Ok (if decide (ds = []) then None else Some (zz_at (as_ ++ ds ++ bs) (length as_))).
Proof.
  rewrite (zz_seek_first R). rs. destruct (range_test_ok _ _ _ _ _ _ _ C T) as (b & -> & Hf & _). rs.
  destruct b; cbn [negb]; [|by rewrite Hf].
  apply (first_loop_ok C m gt lt (length m) 0 R Hg Hl); [lia|]. pose proof (zz_count R). lia.
Qed.

Lemma last_in_ok :
  (eptr ← lpSeek m (-2); b ← isin; if negb b then Ok None else last_loop (length m) m gt lt eptr) =
    Ok (if decide (ds = []) then None
        else Some (zz_at (as_ ++ ds ++ bs) (length as_ + length ds - 1))).
Proof.
  rewrite (zz_seek_last R). rs. destruct (range_test_ok _ _ _ _ _ _ _ C T) as (b & -> & Hf & Ht). rs.
  destruct b; cbn [negb]; [|by rewrite Hf].
  pose proof (last_loop_ok C m gt lt R (Ht eq_refl) Hg Hl (length m) (length (as_ ++ ds ++ bs))) as Hlast.
  rewrite <- Hlast.
  - f_equal. destruct (decide (as_ ++ ds ++ bs = [])) as [E|E],
      (decide (length (as_ ++ ds ++ bs) = 0%nat)) as [E'|E']; try done.
    + exfalso. apply E'. by rewrite E.
    + exfalso. apply E. by apply nil_length_inv.
  - rewrite !length_app. lia.
  - pose proof (zz_count R). lia.
Qed.

Lemma delete_in_ok lt' :
  (∀ m ps k p, zzl_rep m ps → ps !! k = Some p → lt' m (zz_at ps k) = Ok (lte p)) →
  ∃ m',
    (eptr ← (eptr ← lpSeek m 0; b ← isin; if negb b then Ok None else first_loop (length m) m gt lt eptr);
     match eptr with
     | None => Ok (m, 0)
     | Some _ => zzl_delete_loop (length m) lt' m eptr 0
     end) = Ok (m', zlen ds) ∧ zzl_rep m' (as_ ++ bs).
Proof.
  intros Hlt. rewrite first_in_ok. rs. destruct (decide (ds = [])) as [E|E].
  { exists m. rewrite E in *. done. }
  cbn match. rewrite <- zz_ptr_some by (rewrite !length_app; destruct ds; [done|cbn; lia]).
  pose proof (zz_count R) as Hc. rewrite !length_app in Hc. pose proof (api_total R) as Ht.
  destruct (zz_delete_loop_ok lte lt' as_ bs Hlt (head_fails_all _ _ (cut_after _ _ _ _ _ C)) ds m (length m) 0 R
    (cut_in _ _ _ _ _ C)) as (m' & Hd & R'); [lia|lia| |by exists m'].
  unfold lp_total in Ht. assert (zlen (flat (as_ ++ ds ++ bs)) ≤ zlen (lp_body (flat (as_ ++ ds ++ bs)))) as Hb.
  { destruct R as (num & slack & _ & Hwf). pose proof (lp_body_count _ (proj1 Hwf)). lia. }
  rewrite length_pflat, !length_app in Hb. lia.
Qed.
End range_fns.

(** ** Score ranges *)

Definition score_gte_p `{FloatText} (r : zrangespec) (p : pair) : bool := zslValueGteMin (ent_score p.2) r.
Definition score_lte_p `{FloatText} (r : zrangespec) (p : pair) : bool := zslValueLteMax (ent_score p.2) r.
Definition lex_gte_p (r : zlexrangespec) (p : pair) : bool := zslLexValueGteMin (ent_str p.1) r.
Definition lex_lte_p (r : zlexrangespec) (p : pair) : bool := zslLexValueLteMax (ent_str p.1) r.

(** A pair as a node of the skiplist, whose lemmas on the order apply to it *)
Definition pent `{FloatText} (p : pair) : zent := ZE 1 (ent_score p.2) (ent_str p.1) 1 0.

Lemma head_lookup_0 {A} (l : list A) : head l = l !! 0%nat.
Proof. by destruct l. Qed.

Section tests.
Context `{Allocator} `{FloatText} {m : list Z} {ps : list pair} (R : zzl_rep m ps).

Lemma score_gte_ok r k p : ps !! k = Some p → score_gte m r (zz_at ps k) = Ok (score_gte_p r p).
Proof. intros Hk. unfold score_gte. by rewrite (zz_score_at R k p Hk). Qed.
Lemma score_lte_ok r k p : ps !! k = Some p → score_lte m r (zz_at ps k) = Ok (score_lte_p r p).
Proof. intros Hk. unfold score_lte. by rewrite (zz_score_at R k p Hk). Qed.
Lemma lex_gte_ok r k p : ps !! k = Some p → zzlLexValueGteMin m r (zz_at ps k) = Ok (lex_gte_p r p).
Proof. intros Hk. unfold zzlLexValueGteMin. by rewrite (zz_object R k p Hk). Qed.
Lemma lex_lte_ok r k p : ps !! k = Some p → zzlLexValueLteMax m r (zz_at ps k) = Ok (lex_lte_p r p).
Proof. intros Hk. unfold zzlLexValueLteMax. by rewrite (zz_object R k p Hk). Qed.

Lemma zz_seek_score k : (k < length ps)%nat →
  lpSeek m (2 * Z.of_nat k + 1) = Ok (Some (lp_at (flat ps) (S (2 * k)))).
Proof.
  intros Hk. rewrite (api_seek R). unfold seek_index. rewrite length_pflat.
  replace (_ <? 0) with false by lia. cbv zeta. replace (_ && _) with true by lia.
  replace (Z.to_nat (2 * Z.of_nat k + 1)) with (S (2 * k)) by lia.
  by rewrite lp_ptr_some by (rewrite length_pflat; lia).
Qed.

Lemma zz_seek_last_score : ps ≠ [] →
  lpSeek m (-1) = Ok (Some (lp_at (flat ps) (S (2 * pred (length ps))))).
Proof.
  intros Hne. assert (length ps ≠ 0%nat) by by destruct ps.
  rewrite (api_seek R). unfold seek_index. rewrite length_pflat. cbn [Z.ltb Z.compare].
  cbv zeta. replace (_ && _) with true by lia.
  replace (Z.to_nat _) with (S (2 * pred (length ps))) by lia.
  by rewrite lp_ptr_some by (rewrite length_pflat; lia).
Qed.

Lemma score_range_test r :
  isnan (zr_min r) = false → isnan (zr_max r) = false →
  Forall (λ p, isnan (ent_score p.2) = false) ps →
  range_test (score_gte_p r) (score_lte_p r)
    (SFltb (zr_max r) (zr_min r) || (SFeqb (zr_min r) (zr_max r) && (zr_minex r || zr_maxex r)))
    ps (zzlIsInRange m r).
Proof.
  intros Hmin Hmax Hnan. rewrite Forall_forall in Hnan. split.
  - unfold zzlIsInRange. destruct (SFltb (zr_max r) (zr_min r) || _); [done|].
    destruct (decide (ps = [])) as [Hps|Hps]; [|assert (length ps ≠ 0%nat) as Hl by by destruct ps].
    { rewrite (api_seek R (-1)), Hps. done. }
    rewrite (zz_seek_last_score Hps). rs. rewrite last_lookup, head_lookup_0.
    destruct (lookup_lt_is_Some_2 ps (pred (length ps))) as [p Hp]; [lia|].
    destruct (lookup_lt_is_Some_2 ps 0) as [q Hq]; [lia|]. rewrite Hp, Hq.
    rewrite (zz_get_score R _ _ Hp). rs. unfold score_gte_p.
    destruct (zslValueGteMin (ent_score p.2) r); [|done]. cbn [negb].
    pose proof (zz_seek_score 0 ltac:(lia)) as Hs. change (2 * Z.of_nat 0 + 1) with 1 in Hs. rewrite Hs. rs.
    cbn [nonnull]. rs. by rewrite (zz_get_score R _ _ Hq).
  - split; intros He p Hp; by apply (empty_range_ok r (ent_score p.2) Hmin Hmax (Hnan p Hp)).
Qed.

Lemma lex_range_test r :
  range_test (lex_gte_p r) (lex_lte_p r)
    (let cmp := sdscmplex (zl_min r) (zl_max r) in
     (cmp >? 0) || ((cmp =? 0) && (zl_minex r || zl_maxex r)))
    ps (zzlIsInLexRange m r).
Proof.
  split.
  - unfold zzlIsInLexRange. cbv zeta. destruct ((sdscmplex _ _ >? 0) || _); [done|]. rewrite (zz_seek_last R). rs.
    destruct (decide (ps = [])) as [->|Hps]; [done|]. assert (length ps ≠ 0%nat) as Hl by by destruct ps.
    rewrite zz_ptr_some by lia. rewrite last_lookup, head_lookup_0.
    destruct (lookup_lt_is_Some_2 ps (pred (length ps))) as [p Hp]; [lia|].
    destruct (lookup_lt_is_Some_2 ps 0) as [q Hq]; [lia|]. rewrite Hp, Hq.
    replace (length ps - 1)%nat with (pred (length ps)) by lia. rewrite (lex_gte_ok r _ _ Hp). rs.
    destruct (lex_gte_p r p); [|done]. cbn [negb]. rewrite (zz_seek_first R). rs.
    rewrite zz_ptr_some by lia. cbn [nonnull]. rs. by rewrite (lex_lte_ok r _ _ Hq).
  - split; intros He p Hp; by apply (empty_lex_ok r (ent_str p.1)).
Qed.
End tests.

(** The pairs in a range, or not *)
Definition in_scores `{FloatText} (r : zrangespec) (b : bool) (p : pair) : Prop :=
  score_gte_p r p && score_lte_p r p = b.
Definition in_lex (r : zlexrangespec) (b : bool) (p : pair) : Prop := lex_gte_p r p && lex_lte_p r p = b.
#[export] Instance in_scores_dec `{FloatText} r b p : Decision (in_scores r b p).
Proof. unfold in_scores. apply _. Defined.
#[export] Instance in_lex_dec r b p : Decision (in_lex r b p).
Proof. unfold in_lex. apply _. Defined.

Lemma score_cut `{FloatText} r ps :
  isnan (zr_min r) = false → isnan (zr_max r) = false →
  StronglySorted vlt (zvals ps) → Forall (λ p, isnan (ent_score p.2) = false) ps →
  ∃ as_ bs, ps = as_ ++ filter (in_scores r true) ps ++ bs ∧ filter (in_scores r false) ps = as_ ++ bs ∧
    zz_cut (score_gte_p r) (score_lte_p r) as_ (filter (in_scores r true) ps) bs.
Proof.
  intros Hmin Hmax HS Hnan. rewrite Forall_forall in Hnan.
  destruct (range_pairs (score_gte_p r) (score_lte_p r) ps HS) as (as_ & ds & bs & E & C).
  - intros p q Hp Hq. by apply (gte_mono r (pent p) (pent q) Hmin (Hnan p Hp) (Hnan q Hq)).
  - intros p q Hp Hq. by apply (lte_mono r (pent p) (pent q) Hmax (Hnan p Hp) (Hnan q Hq)).
  - destruct (cut_filter _ _ _ _ _ (in_scores r) ltac:(done) C) as [F1 F2]. exists as_, bs.
    by rewrite E, F1, F2.
Qed.

(** All scores are equal: the set is in lexicographic order. *)
Definition equal_scores `{FloatText} (ps : list pair) : Prop :=
  ∀ p q, p ∈ ps → q ∈ ps → fkey (ent_score p.2) = fkey (ent_score q.2).

Lemma lex_cut `{FloatText} r ps :
  StronglySorted vlt (zvals ps) → equal_scores ps →
  ∃ as_ bs, ps = as_ ++ filter (in_lex r true) ps ++ bs ∧ filter (in_lex r false) ps = as_ ++ bs ∧
    zz_cut (lex_gte_p r) (lex_lte_p r) as_ (filter (in_lex r true) ps) bs.
Proof.
  intros HS Heq. destruct (range_pairs (lex_gte_p r) (lex_lte_p r) ps HS) as (as_ & ds & bs & E & C).
  - intros p q Hp Hq Hpq. eapply lex_gte_mono, (zlt_ele (pent p) (pent q)); [by apply Heq|done].
  - intros p q Hp Hq Hpq. eapply lex_lte_mono, (zlt_ele (pent p) (pent q)); [by apply Heq|done].
  - destruct (cut_filter _ _ _ _ _ (in_lex r) ltac:(done) C) as [F1 F2]. exists as_, bs.
    by rewrite E, F1, F2.
Qed.

(** The ends of a range of scores *)
Lemma zz_score_ends `{Allocator} `{FloatText} m ps r :
  zzl_rep m ps → StronglySorted vlt (zvals ps) → Forall (λ p, isnan (ent_score p.2) = false) ps →
  isnan (zr_min r) = false → isnan (zr_max r) = false →
  let ds := filter (in_scores r true) ps in
  ∃ as_ bs, ps = as_ ++ ds ++ bs ∧ zz_cut (score_gte_p r) (score_lte_p r) as_ ds bs ∧
    zzlFirstInRange m r = Ok (if decide (ds = []) then None else zz_ptr ps (length as_)) ∧
    zzlLastInRange m r = Ok (if decide (ds = []) then None else zz_ptr ps (length as_ + length ds - 1)).
Proof.
  intros R HS Hnan Hmin Hmax ds.
  destruct (score_cut r ps Hmin Hmax HS Hnan) as (as_ & bs & E & _ & C). fold ds in E, C.
  exists as_, bs. split; [done|]. split; [done|]. rewrite E in R, Hnan |- *.
  pose proof (score_range_test R r Hmin Hmax Hnan) as T.
  unfold zzlFirstInRange, zzlLastInRange.
  rewrite (first_in_ok C R T (score_gte_ok R r) (score_lte_ok R r)).
  rewrite (last_in_ok C R T (score_gte_ok R r) (score_lte_ok R r)).
  destruct (decide (ds = [])) as [|Hne]; [done|]. assert (length ds ≠ 0%nat) by by destruct ds.
  by rewrite !zz_ptr_some by (rewrite !length_app; lia).
Qed.

(** The ends of a lexicographic range *)
Lemma zz_lex_ends `{Allocator} `{FloatText} m ps r :
  zzl_rep m ps → StronglySorted vlt (zvals ps) → equal_scores ps →
  let ds := filter (in_lex r true) ps in
  ∃ as_ bs, ps = as_ ++ ds ++ bs ∧ zz_cut (lex_gte_p r) (lex_lte_p r) as_ ds bs ∧
    zzlFirstInLexRange m r = Ok (if decide (ds = []) then None else zz_ptr ps (length as_)) ∧
    zzlLastInLexRange m r = Ok (if decide (ds = []) then None else zz_ptr ps (length as_ + length ds - 1)).
Proof.
  intros R HS Heq ds. destruct (lex_cut r ps HS Heq) as (as_ & bs & E & _ & C). fold ds in E, C.
  exists as_, bs. split; [done|]. split; [done|]. rewrite E in R |- *. pose proof (lex_range_test R r) as T.
  unfold zzlFirstInLexRange, zzlLastInLexRange.
  rewrite (first_in_ok C R T (lex_gte_ok R r) (lex_lte_ok R r)).
  rewrite (last_in_ok C R T (lex_gte_ok R r) (lex_lte_ok R r)).
  destruct (decide (ds = [])) as [|Hne]; [done|]. assert (length ds ≠ 0%nat) by by destruct ds.
  by rewrite !zz_ptr_some by (rewrite !length_app; lia).
Qed.

(** on a listpack that holds a sorted set, [zzlFirstInRange] and
    [zzlLastInRange] return the pointers to the first and to the last element
    whose score is in the range, null if there is none; no assertion fails. *)
Theorem zzl_score_range_spec `{Allocator} `{FloatText} m ps r :
  zzl_rep m ps → StronglySorted vlt (zvals ps) → Forall (λ p, isnan (ent_score p.2) = false) ps →
  isnan (zr_min r) = false → isnan (zr_max r) = false →
  let ds := filter (in_scores r true) ps in
  ∃ as_ bs, ps = as_ ++ ds ++ bs ∧
    zzlFirstInRange m r = Ok (if decide (ds = []) then None else zz_ptr ps (length as_)) ∧
    zzlLastInRange m r = Ok (if decide (ds = []) then None else zz_ptr ps (length as_ + length ds - 1)).
Proof.
  intros R HS Hnan Hmin Hmax ds.
  destruct (zz_score_ends m ps r R HS Hnan Hmin Hmax) as (as_ & bs & E & _ & Hf & Hl). by exists as_, bs.
Qed.

(** The deletion of a range of scores *)
Lemma zz_delete_scores `{Allocator} `{FloatText} m ps r :
  zzl_rep m ps → StronglySorted vlt (zvals ps) → Forall (λ p, isnan (ent_score p.2) = false) ps →
  isnan (zr_min r) = false → isnan (zr_max r) = false →
  ∃ m', zzlDeleteRangeByScore m r = Ok (m', zlen (filter (in_scores r true) ps)) ∧
    zzl_rep m' (filter (in_scores r false) ps).
Proof.
  intros R HS Hnan Hmin Hmax.
  destruct (score_cut r ps Hmin Hmax HS Hnan) as (as_ & bs & E & -> & C).
  set (ds := filter (in_scores r true) ps) in *. clearbody ds. rewrite E in R, Hnan.
  pose proof (score_range_test R r Hmin Hmax Hnan) as T.
  apply (delete_in_ok C R T (score_gte_ok R r) (score_lte_ok R r) (λ zl, score_lte zl r)).
  intros m' qs k p R' Hk. by apply (score_lte_ok R').
Qed.

(** [zzlDeleteRangeByScore] removes exactly the elements whose score is in the
    range and returns their number. *)
Theorem zzlDeleteRangeByScore_spec `{Allocator} `{FloatText} m ps r :
  zzl_rep m ps → StronglySorted vlt (zvals ps) → Forall (λ p, isnan (ent_score p.2) = false) ps →
  isnan (zr_min r) = false → isnan (zr_max r) = false →
  ∃ m', zzlDeleteRangeByScore m r = Ok (m', zlen (filter (in_scores r true) ps)) ∧
    zzl_rep m' (filter (in_scores r false) ps).
Proof. apply zz_delete_scores. Qed.

(** The deletion of a lexicographic range *)
Lemma zz_delete_lex `{Allocator} `{FloatText} m ps r :
  zzl_rep m ps → StronglySorted vlt (zvals ps) → equal_scores ps →
  ∃ m', zzlDeleteRangeByLex m r = Ok (m', zlen (filter (in_lex r true) ps)) ∧
    zzl_rep m' (filter (in_lex r false) ps).
Proof.
  intros R HS Heq. destruct (lex_cut r ps HS Heq) as (as_ & bs & E & -> & C).
  set (ds := filter (in_lex r true) ps) in *. clearbody ds. rewrite E in R.
  pose proof (lex_range_test R r) as T.
  apply (delete_in_ok C R T (lex_gte_ok R r) (lex_lte_ok R r) (λ zl, zzlLexValueLteMax zl r)).
  intros m' qs k p R' Hk. by apply (lex_lte_ok R').
Qed.

(** [zzlDeleteRangeByLex] does the same for lexicographic ranges of a set whose
    scores are equal. *)
Theorem zzlDeleteRangeByLex_spec `{Allocator} `{FloatText} m ps r :
  zzl_rep m ps → StronglySorted vlt (zvals ps) → equal_scores ps →
  ∃ m', zzlDeleteRangeByLex m r = Ok (m', zlen (filter (in_lex r true) ps)) ∧
    zzl_rep m' (filter (in_lex r false) ps).
Proof. apply zz_delete_lex. Qed.

(** ** Concrete runs *)

#[local] Existing Instance alloc_exact.
#[local] Existing Instance text_p.

Definition ex_pairs : list pair :=
  [(str_ent (chars "one"), int_ent 1); (str_ent (chars "two"), int_ent 2)].
Definition ex_lp : list Z := lp_image 4 (flat ex_pairs) [].

Lemma ex_lp_rep : zzl_rep ex_lp ex_pairs.
Proof.
  exists 4, []. split; [done|]. split; [repeat constructor; cbn; lia|]. split; [vm_compute; done|right; vm_compute; done].
Qed.

Lemma ex_pairs_sorted : StronglySorted vlt (zvals ex_pairs).
Proof. repeat constructor; vm_compute; lia. Qed.
Lemma ex_pairs_nan : Forall (λ p, isnan (ent_score p.2) = false) ex_pairs.
Proof. repeat constructor. Qed.

(** The range that begins after 1 *)
Definition ex_above : zrangespec := ZRange (dbl 1) (S754_infinity false) true false.

Lemma zzl_score_range_spec_witness :
  let ds := filter (in_scores ex_above true) ex_pairs in
  ∃ as_ bs, ex_pairs = as_ ++ ds ++ bs ∧
    zzlFirstInRange ex_lp ex_above = Ok (if decide (ds = []) then None else zz_ptr ex_pairs (length as_)) ∧
    zzlLastInRange ex_lp ex_above =
      Ok (if decide (ds = []) then None else zz_ptr ex_pairs (length as_ + length ds - 1)).
Proof. exact (zzl_score_range_spec ex_lp ex_pairs ex_above ex_lp_rep ex_pairs_sorted ex_pairs_nan eq_refl eq_refl). Defined.

Lemma zzlDeleteRangeByScore_spec_witness :
  ∃ m', zzlDeleteRangeByScore ex_lp ex_above = Ok (m', 1) ∧
    zzl_rep m' (filter (in_scores ex_above false) ex_pairs).
Proof.
  exact (zzlDeleteRangeByScore_spec ex_lp ex_pairs ex_above ex_lp_rep ex_pairs_sorted ex_pairs_nan eq_refl eq_refl).
Defined.
