(* ===== verification/Zset.v ===== *)
(** The common interface of sorted sets: [t_zset.c], lines 1378 to 1906, and the
    constructors of [object.c].

    A sorted set is a listpack or a skiplist with a dictionary.  The skiplist
    lives in a heap of its own; the dictionary maps each element to the address
    of its node, as [dict.c] promises, so resizing it has no effect here.  The
    operations thread the numbers that [random()] will return. *)

From S2P Require Import Prelude Numstr Sds Listpack LpNav LpMod LpFind Skiplist Double Zzl.
From Stdlib Require Import SpecFloat.

(** ** Data *)

(** The fields of [server] that choose the encoding *)
Class Server := {
  zset_max_listpack_entries : Z;
  zset_max_listpack_value : Z
}.

Record zset := ZSet { zs_heap : zheap; zs_dict : zdict; zs_zsl : zskiplist }.

Inductive encoding := OBJ_ENCODING_LISTPACK | OBJ_ENCODING_SKIPLIST.
#[export] Instance encoding_eq_dec : EqDecision encoding.
Proof. solve_decision. Defined.

Inductive zobj := ZListpack (zl : list Z) | ZSkiplist (zs : zset).

Definition zencoding (o : zobj) : encoding :=
  match o with ZListpack _ => OBJ_ENCODING_LISTPACK | ZSkiplist _ => OBJ_ENCODING_SKIPLIST end.

(** [dictAdd], which fails when the key is there *)
Definition zdict_add (d : zdict) (k : list Z) (p : ptr) : option zdict :=
  match d !! k with Some _ => None | None => Some (<[k := p]> d) end.
Definition zdict_find (d : zdict) (k : list Z) : option ptr := d !! k.
Definition zdict_set (d : zdict) (k : list Z) (p : ptr) : zdict := <[k := p]> d.
Definition zdict_unlink (d : zdict) (k : list Z) : zdict * option ptr := (delete k d, d !! k).

Definition ZADD_IN_NONE : Z := 0.
Definition ZADD_IN_INCR : Z := Z.shiftl 1 0.
Definition ZADD_IN_NX : Z := Z.shiftl 1 1.
Definition ZADD_IN_XX : Z := Z.shiftl 1 2.
Definition ZADD_IN_GT : Z := Z.shiftl 1 3.
Definition ZADD_IN_LT : Z := Z.shiftl 1 4.
Definition ZADD_OUT_NOP : Z := Z.shiftl 1 0.
Definition ZADD_OUT_NAN : Z := Z.shiftl 1 1.
Definition ZADD_OUT_ADDED : Z := Z.shiftl 1 2.
Definition ZADD_OUT_UPDATED : Z := Z.shiftl 1 3.

Section zset.
Context `{Allocator} `{NodeAlloc} `{FloatText} `{Server}.

(** ** Creation and length *)

Definition createZsetObject : res zobj :=
  '(h, z) ← zslCreate ∅; Ok (ZSkiplist (ZSet h ∅ z)).

Definition createZsetListpackObject : res zobj :=
  lp ← lpNew 0; Ok (ZListpack lp).

Definition zsetTypeCreate (size_hint val_len_hint : Z) : res zobj :=
  if (size_hint <=? zset_max_listpack_entries) && (val_len_hint <=? zset_max_listpack_value)
  then createZsetListpackObject
  else createZsetObject.

(** The number of elements; a listpack may cache it in its header. *)
Definition zsetLength (o : zobj) : res (Z * zobj) :=
  match o with
  | ZListpack zl => '(n, zl) ← zzlLength zl; Ok (n, ZListpack zl)
  | ZSkiplist zs => Ok (zsl_length (zs_zsl zs), o)
  end.

(** ** Conversion *)

(** The loop that copies a listpack into a skiplist *)
Fixpoint convert_loop (fuel : nat) (zl : list Z) (eptr sptr : option Z) (rnd : list Z) (zs : zset)
    : res (zset * list Z) :=
  match eptr with
  | None => Ok (zs, rnd)
  | Some _ =>
      match fuel with
      | O => Fault OutOfFuel
      | S fuel =>
          score ← zzlGetScore zl sptr;
          ele ← lpGetObject zl eptr;
          '(h, z, node, rnd) ← zslInsert rnd (zs_heap zs) (zs_zsl zs) score ele;
          d ← nonnull (zdict_add (zs_dict zs) ele node);
          '(eptr, sptr) ← zzlNext zl eptr sptr;
          convert_loop fuel zl eptr sptr rnd (ZSet h d z)
      end
  end.

(** The loop that moves the nodes of a skiplist into a listpack *)
Fixpoint unconvert_loop (fuel : nat) (h : zheap) (z : zskiplist) (node_ : option ptr) (zl : list Z)
    : res (list Z) :=
  match node_ with
  | None => Ok zl
  | Some p =>
      match fuel with
      | O => Fault OutOfFuel
      | S fuel =>
          ele ← zslGetNodeElement h p;
          n ← node h p;
          zl ← zzlInsertAt zl None ele (zn_score n);
          zl ← lp_nonnull zl;
          l ← get_level h p 0;
          '(h, z) ← zslFreeNode h z p;
          unconvert_loop fuel h z (forward l) zl
      end
  end.

(** [cap] only sizes the dictionary. *)
Definition zsetConvertAndExpand (rnd : list Z) (o : zobj) (enc : encoding) (cap : Z)
    : res (zobj * list Z) :=
  if decide (zencoding o = enc) then Ok (o, rnd) else
  match o with
  | ZListpack zl =>
      '(h, z) ← zslCreate ∅;
      eptr ← lpSeek zl 0;
      sptr ← (match eptr with
              | Some e => sptr ← lpNext zl e; _ ← nonnull sptr; Ok sptr
              | None => Ok None
              end);
      '(zs, rnd) ← convert_loop (length zl) zl eptr sptr rnd (ZSet h ∅ z);
      Ok (ZSkiplist zs, rnd)
  | ZSkiplist zs =>
      zl ← lpNew 0;
      l ← get_level (zs_heap zs) (zsl_header (zs_zsl zs)) 0;
      let h := delete (zsl_header (zs_zsl zs)) (zs_heap zs) in
      zl ← unconvert_loop (Z.to_nat (zsl_length (zs_zsl zs))) h (zs_zsl zs) (forward l) zl;
      Ok (ZListpack zl, rnd)
  end.

Definition zsetConvert (rnd : list Z) (o : zobj) (enc : encoding) : res (zobj * list Z) :=
  '(n, o) ← zsetLength o; zsetConvertAndExpand rnd o enc n.

Definition zsetTypeMaybeConvert (rnd : list Z) (o : zobj) (size_hint : Z) : res (zobj * list Z) :=
  if bool_decide (zencoding o = OBJ_ENCODING_LISTPACK) && (size_hint >? zset_max_listpack_entries)
  then zsetConvertAndExpand rnd o OBJ_ENCODING_SKIPLIST size_hint
  else Ok (o, rnd).

Definition zsetConvertToListpackIfNeeded (rnd : list Z) (o : zobj) (maxelelen totelelen : Z)
    : res (zobj * list Z) :=
  match o with
  | ZListpack _ => Ok (o, rnd)
  | ZSkiplist zs =>
      safe ← lpSafeToAdd None totelelen;
      if (zsl_length (zs_zsl zs) <=? zset_max_listpack_entries) &&
         (maxelelen <=? zset_max_listpack_value) && safe
      then zsetConvert rnd o OBJ_ENCODING_LISTPACK
      else Ok (o, rnd)
  end.

(** ** Scores and updates *)

(** [None]: [C_ERR] *)
Definition zsetScore (o : zobj) (member : list Z) : res (option double) :=
  match o with
  | ZListpack zl =>
      r ← zzlFind zl member true;
      Ok (match r with Some (_, s) => s | None => None end)
  | ZSkiplist zs =>
      match zdict_find (zs_dict zs) member with
      | None => Ok None
      | Some p => n ← node (zs_heap zs) p; Ok (Some (zn_score n))
      end
  end.

(** What [zsetAdd] does with an element that exists: return with these flags, or
    give it this score *)
Inductive zadd_step := ZRet (ret : bool) (out_flags : Z) | ZScore (score : double).

Definition zadd_existing (in_flags : Z) (score curscore : double) : zadd_step :=
  let on flag := negb (Z.land in_flags flag =? 0) in
  if on ZADD_IN_NX then ZRet true ZADD_OUT_NOP else
  let score := if on ZADD_IN_INCR then double_add score curscore else score in
  if on ZADD_IN_INCR && isnan score then ZRet false ZADD_OUT_NAN else
  if (on ZADD_IN_LT && SFleb curscore score) || (on ZADD_IN_GT && SFleb score curscore)
  then ZRet true ZADD_OUT_NOP
  else ZScore score.

(** The return value, [*out_flags], and [*newscore] where it is set *)
Record zadd_result := ZAdd { za_ret : bool; za_out_flags : Z; za_newscore : option double }.

(** The part of [zsetAdd] for the skiplist encoding *)
Definition zadd_skiplist (rnd : list Z) (zs : zset) (score : double) (ele : list Z) (in_flags : Z)
    : res (zobj * list Z * zadd_result) :=
  match zdict_find (zs_dict zs) ele with
  | Some znode =>
      n ← node (zs_heap zs) znode;
      match zadd_existing in_flags score (zn_score n) with
      | ZRet ret out => Ok (ZSkiplist zs, rnd, ZAdd ret out None)
      | ZScore score =>
          if negb (SFeqb score (zn_score n)) then
            '(h, z) ← zslUpdateScore (zs_heap zs) (zs_zsl zs) znode score;
            Ok (ZSkiplist (ZSet h (zs_dict zs) z), rnd, ZAdd true ZADD_OUT_UPDATED (Some score))
          else Ok (ZSkiplist zs, rnd, ZAdd true 0 (Some score))
      end
  | None =>
      if Z.land in_flags ZADD_IN_XX =? 0 then
        '(h, z, znode, rnd) ← zslInsert rnd (zs_heap zs) (zs_zsl zs) score ele;
        Ok (ZSkiplist (ZSet h (zdict_set (zs_dict zs) ele znode) z), rnd,
            ZAdd true ZADD_OUT_ADDED (Some score))
      else Ok (ZSkiplist zs, rnd, ZAdd true ZADD_OUT_NOP None)
  end.

Definition zsetAdd (rnd : list Z) (o : zobj) (score : double) (ele : list Z) (in_flags : Z)
    : res (zobj * list Z * zadd_result) :=
  if isnan score then Ok (o, rnd, ZAdd false ZADD_OUT_NAN None) else
  match o with
  | ZListpack zl =>
      r ← zzlFind zl ele true;
      match r with
      | Some (eptr, cur) =>
          curscore ← nonnull cur;
          match zadd_existing in_flags score curscore with
          | ZRet ret out => Ok (o, rnd, ZAdd ret out None)
          | ZScore score =>
              if negb (SFeqb score curscore) then
                zl ← zzlDelete zl eptr;
                zl ← zzlInsert zl ele score;
                zl ← lp_nonnull zl;
                Ok (ZListpack zl, rnd, ZAdd true ZADD_OUT_UPDATED (Some score))
              else Ok (o, rnd, ZAdd true 0 (Some score))
          end
      | None =>
          if Z.land in_flags ZADD_IN_XX =? 0 then
            '(len, zl) ← zzlLength zl;
            safe ← lpSafeToAdd (Some zl) (zlen ele);
            if (len + 1 >? zset_max_listpack_entries) || (zlen ele >? zset_max_listpack_value) || negb safe
            then
              '(n, o) ← zsetLength (ZListpack zl);
              '(o, rnd) ← zsetConvertAndExpand rnd o OBJ_ENCODING_SKIPLIST (n + 1);
              match o with
              | ZSkiplist zs => zadd_skiplist rnd zs score ele in_flags
              | ZListpack _ => Fault AssertFailed
              end
            else
              zl ← zzlInsert zl ele score;
              zl ← lp_nonnull zl;
              Ok (ZListpack zl, rnd, ZAdd true ZADD_OUT_ADDED (Some score))
          else Ok (o, rnd, ZAdd true ZADD_OUT_NOP None)
      end
  | ZSkiplist zs => zadd_skiplist rnd zs score ele in_flags
  end.

Definition zsetRemoveFromSkiplist (zs : zset) (ele : list Z) : res (zset * bool) :=
  match zdict_unlink (zs_dict zs) ele with
  | (d, Some znode) =>
      '(h, z) ← zslDelete (zs_heap zs) (zs_zsl zs) znode; Ok (ZSet h d z, true)
  | (_, None) => Ok (zs, false)
  end.

Definition zsetDel (o : zobj) (ele : list Z) : res (zobj * bool) :=
  match o with
  | ZListpack zl =>
      r ← zzlFind zl ele false;
      match r with
      | Some (eptr, _) => zl ← zzlDelete zl eptr; Ok (ZListpack zl, true)
      | None => Ok (o, false)
      end
  | ZSkiplist zs => '(zs, b) ← zsetRemoveFromSkiplist zs ele; Ok (ZSkiplist zs, b)
  end.

(** ** Ranks *)

(** The loop over the listpack: the pair with the element, and its rank *)
Fixpoint rank_loop (fuel : nat) (zl : list Z) (ele : list Z) (cache : option (Z * Z))
    (eptr sptr : option Z) (rank : Z) : res (option Z * option Z * Z) :=
  match eptr with
  | None => Ok (eptr, sptr, rank)
  | Some e =>
      match fuel with
      | O => Fault OutOfFuel
      | S fuel =>
          '(found, cache) ← lpCompare zl e ele cache;
          if found : bool then Ok (eptr, sptr, rank)
          else
            '(eptr, sptr) ← zzlNext zl eptr sptr;
            rank_loop fuel zl ele cache eptr sptr (u64 (rank + 1))
      end
  end.

(** The rank, -1 if the element does not exist, and its score *)
Definition zsetRank (o : zobj) (ele : list Z) (reverse : bool) : res (zobj * Z * option double) :=
  '(llen, o) ← zsetLength o;
  match o with
  | ZListpack zl =>
      eptr ← lpSeek zl 0;
      e ← nonnull eptr;
      sptr ← lpNext zl e;
      _ ← nonnull sptr;
      '(eptr, sptr, rank) ← rank_loop (length zl) zl ele (Some (0, 0)) eptr sptr 1;
      match eptr with
      | Some _ =>
          s ← zzlGetScore zl sptr;
          Ok (o, if reverse then s64 (llen - rank) else s64 (rank - 1), Some s)
      | None => Ok (o, -1, None)
      end
  | ZSkiplist zs =>
      match zdict_find (zs_dict zs) ele with
      | Some p =>
          rank ← zslGetRankByNode (zs_heap zs) (zs_zsl zs) p;
          _ ← assert_ (negb (rank =? 0));
          n ← node (zs_heap zs) p;
          Ok (o, if reverse then s64 (llen - rank) else s64 (rank - 1), Some (zn_score n))
      | None => Ok (o, -1, None)
      end
  end.

(** ** Copies *)

(** The loop over the nodes of [h], from the tail, that fills the new skiplist *)
Fixpoint dup_loop (llen : nat) (h : zheap) (ln : option ptr) (rnd : list Z) (zs : zset)
    : res (zset * list Z) :=
  match llen with
  | O => Ok (zs, rnd)
  | S llen =>
      p ← deref ln;
      ele ← zslGetNodeElement h p;
      n ← node h p;
      '(h', z, znode, rnd) ← zslInsert rnd (zs_heap zs) (zs_zsl zs) (zn_score n) ele;
      (* the result of [dictAdd] is not tested *)
      let d := default (zs_dict zs) (zdict_add (zs_dict zs) ele znode) in
      dup_loop llen h (zn_backward n) rnd (ZSet h' d z)
  end.

Definition zsetDup (rnd : list Z) (o : zobj) : res (zobj * list Z) :=
  match o with
  | ZListpack zl =>
      sz ← lpBytes zl;
      bytes ← mem_read zl 0 sz;
      new_zl ← mem_write (lp_malloc sz) 0 bytes;
      Ok (ZListpack new_zl, rnd)
  | ZSkiplist zs =>
      '(h, z) ← zslCreate ∅;
      '(zs', rnd) ← dup_loop (Z.to_nat (zsl_length (zs_zsl zs))) (zs_heap zs) (zsl_tail (zs_zsl zs))
                      rnd (ZSet h ∅ z);
      Ok (ZSkiplist zs', rnd)
  end.

End zset.
