(* ===== verification/ZsetRep.v ===== *)
(** What a sorted set represents: an ordered sequence of scores and elements, and
    a finite map from elements to scores.

    [zset_rep o vs] relates an object of either encoding to its sequence,
    [zset_abs o M] to its map.  Scores count up to equality of doubles: the
    listpack stores minus zero as zero, so the map holds [canon] scores. *)

From S2P Require Import Prelude Numstr Sds Listpack LpNav LpMod LpFind LpRange LpApi Skiplist.
From S2P Require Import SklRep SklMod SklDel SklUpd SklRank Double Zzl ZzlRep ZzlMod Zset.
From Stdlib Require Import SpecFloat.

Abbreviation value := (double * list Z)%type.

(** ** Equality of scores *)

Definition canon (d : double) : double := match d with S754_zero _ => S754_zero false | d => d end.

Lemma fkey_canon a b : fkey a = fkey b ↔ canon a = canon b.
Proof.
  split.
  - destruct a as [[]|[]| |[]], b as [[]|[]| |[]]; cbn; intros E; simplify_eq; try done; f_equal; lia.
  - destruct a as [[]|[]| |[]], b as [[]|[]| |[]]; cbn; intros E; by simplify_eq.
Qed.

Lemma canon_idem d : canon (canon d) = canon d.
Proof. by destruct d. Qed.
Lemma fkey_of_canon d : fkey (canon d) = fkey d.
Proof. by destruct d. Qed.
Lemma isnan_canon d : isnan (canon d) = isnan d.
Proof. by destruct d. Qed.
Lemma valid_canon d : valid_double (canon d) = valid_double d.
Proof. by destruct d. Qed.

Lemma SFltb_canon a b : SFltb (canon a) (canon b) = SFltb a b.
Proof. by destruct a as [[]|[]| |[]], b as [[]|[]| |[]]. Qed.
Lemma SFleb_canon a b : SFleb (canon a) (canon b) = SFleb a b.
Proof. by destruct a as [[]|[]| |[]], b as [[]|[]| |[]]. Qed.
Lemma SFeqb_canon a b : SFeqb (canon a) (canon b) = SFeqb a b.
Proof. by destruct a as [[]|[]| |[]], b as [[]|[]| |[]]. Qed.

Lemma SFeqb_canon_eq a b : isnan a = false → isnan b = false → SFeqb a b = true ↔ canon a = canon b.
Proof.
  intros Ha Hb. rewrite SFeqb_key, <- fkey_canon, Z.eqb_eq by done. split; [apply lexcmp_eq|].
  intros ->. apply lexcmp_refl.
Qed.

(** Addition respects the equality. *)
Lemma double_add_canon a b : canon (double_add a (canon b)) = canon (double_add a b).
Proof. by destruct b as [[]|[]| |[]]; [|done..]; destruct a as [[]|[]| |[]]. Qed.

(** ** Sequences of values *)

Definition ele_ok (e : list Z) : Prop := zlen e < 2 ^ 31 ∧ Forall is_byte e.
Definition score_ok (s : double) : Prop := isnan s = false ∧ valid_double s = true.

(** The elements of a sequence *)
Abbreviation eles vs := ((vs : list value).*2).

(** A sequence that a sorted set can hold *)
Record vals_ok (vs : list value) : Prop := ValsOk {
  vals_sorted : StronglySorted vlt vs;
  vals_nodup : NoDup (eles vs);
  vals_each : Forall (λ v, score_ok v.1 ∧ ele_ok v.2) vs }.

Lemma vals_ok_nil : vals_ok [].
Proof. split; constructor. Qed.

Lemma sorted_sandwich {A} (R : relation A) l x r :
  StronglySorted R (l ++ r) → Forall (λ y, R y x) l → Forall (R x) r →
  StronglySorted R (l ++ x :: r).
Proof.
  intros HS Hl Hr. apply StronglySorted_app in HS as (H1 & H2 & H3). apply StronglySorted_app. split.
  - intros y z Hy Hz. apply elem_of_cons in Hz as [->|Hz]; [|by apply H1].
    rewrite Forall_forall in Hl. by apply Hl.
  - split; [done|]. by constructor.
Qed.

Lemma vals_insert l v r :
  vals_ok (l ++ r) → score_ok v.1 → ele_ok v.2 → v.2 ∉ eles (l ++ r) →
  Forall (λ w, vlt w v) l → Forall (vlt v) r → vals_ok (l ++ v :: r).
Proof.
  intros [H1 H2 H3] Hs He Hn Hl Hr. split.
  - by apply sorted_sandwich.
  - rewrite fmap_app, fmap_cons, <- Permutation_middle. rewrite fmap_app in *. by constructor.
  - apply Forall_app in H3 as [H3 H4]. apply Forall_app. split; [done|]. by constructor.
Qed.

Lemma vals_remove l v r : vals_ok (l ++ v :: r) → vals_ok (l ++ r) ∧ v.2 ∉ eles (l ++ r).
Proof.
  intros [H1 H2 H3]. rewrite fmap_app, fmap_cons, <- Permutation_middle in H2.
  apply NoDup_cons in H2 as [H2 H4]. rewrite fmap_app. split; [|done]. split.
  - apply StronglySorted_app in H1 as (S1 & S2 & S3). apply StronglySorted_inv in S3 as [S3 _].
    apply StronglySorted_app. split; [|done]. intros x y Hx Hy. apply S1; [done|]. by right.
  - by rewrite fmap_app.
  - apply Forall_app in H3 as [H3 H5]. apply Forall_cons in H5 as [_ H5]. by apply Forall_app.
Qed.

Lemma vlt_trans u v w : vlt u v → vlt v w → vlt u w.
Proof. apply lexcmp_trans. Qed.

Lemma vkey_ele v w : vkey v = vkey w → v.2 = w.2.
Proof.
  unfold vkey, zkey. intros E. apply app_inj_1 in E as [_ E]; [done|]. by rewrite !length_fkey.
Qed.

Lemma vlt_total v w : v.2 ≠ w.2 → ¬ vlt v w → vlt w v.
Proof.
  unfold vlt. intros Hne Hn. rewrite lexcmp_opp.
  assert (lexcmp (vkey v) (vkey w) ≠ 0) by (intros E%lexcmp_eq%vkey_ele; done). lia.
Qed.

(** ** The map of a sequence *)

Abbreviation zabs := (gmap (list Z) double).

Definition zmap (vs : list value) : zabs := list_to_map ((λ v, (v.2, canon v.1)) <$> vs).

Lemma zmap_fst vs : ((λ v : value, (v.2, canon v.1)) <$> vs).*1 = eles vs.
Proof. rewrite <- list_fmap_compose. done. Qed.

Lemma zmap_lookup vs e s :
  NoDup (eles vs) → zmap vs !! e = Some s ↔ ∃ s', (s', e) ∈ vs ∧ canon s' = s.
Proof.
  intros Hn. unfold zmap. rewrite <- elem_of_list_to_map by by rewrite zmap_fst.
  rewrite list_elem_of_fmap. split.
  - intros ([s' e'] & [= -> ->] & Hin). eauto.
  - intros (s' & Hin & <-). by exists (s', e).
Qed.

Lemma zmap_lookup_None vs e : zmap vs !! e = None ↔ e ∉ eles vs.
Proof. unfold zmap. rewrite <- zmap_fst. symmetry. apply not_elem_of_list_to_map. Qed.

Lemma zmap_insert l v r :
  v.2 ∉ eles (l ++ r) → zmap (l ++ v :: r) = <[v.2 := canon v.1]> (zmap (l ++ r)).
Proof.
  unfold zmap. rewrite !fmap_app, fmap_cons, !list_to_map_app. cbn [list_to_map foldr fst snd uncurry].
  intros Hn. rewrite insert_union_r; [done|].
  apply not_elem_of_list_to_map. rewrite zmap_fst. set_solver.
Qed.

Lemma zmap_delete l v r :
  v.2 ∉ eles (l ++ r) → zmap (l ++ r) = delete v.2 (zmap (l ++ v :: r)).
Proof.
  intros Hn. rewrite zmap_insert by done. rewrite delete_insert_id; [done|].
  by apply zmap_lookup_None.
Qed.

Lemma zmap_size vs : NoDup (eles vs) → size (zmap vs) = length vs.
Proof.
  intros Hn. unfold zmap. rewrite <- (length_fmap (λ v : value, (v.2, canon v.1))).
  rewrite <- (length_map_to_list (list_to_map _)).
  apply Permutation_length, map_to_list_to_map. by rewrite zmap_fst.
Qed.

(** ** The representation of an object *)

(** An upper bound of the bytes of a listpack with these values: a score takes at
    most 34 bytes. *)
Definition lp_cost (e : list Z) : Z := zlen (lp_entry (ele_ent e)) + 34.
Definition lp_room (vs : list value) : Z := foldr (λ v n, lp_cost v.2 + n) 7 vs.

(** The entries are those that [zzlInsertAt] writes. *)
Definition pair_ok (p : pair) : Prop := p.1 = ele_ent (ent_str p.1) ∧ zlen (lp_entry p.2) ≤ 34.

Definition lp_holds `{FloatText} (zl : list Z) (vs : list value) : Prop :=
  ∃ ps, zzl_rep zl ps ∧ zvals ps = vs ∧ Forall pair_ok ps ∧ lp_room vs ≤ UINT32_MAX.

Definition eval (x : zent) : value := (ze_score x, ze_ele x).

(** The dictionary has the elements of the list, with their nodes. *)
Definition dict_ok (d : zdict) (xs : list zent) : Prop :=
  ∀ k p, d !! k = Some p ↔ ∃ x, x ∈ xs ∧ ze_ele x = k ∧ ze_ptr x = p.

Definition skl_holds `{Allocator} (zs : zset) (vs : list value) : Prop :=
  ∃ xs, zsl_rep (zs_heap zs) (zs_zsl zs) xs ∧ eval <$> xs = vs ∧ dict_ok (zs_dict zs) xs.

Definition zset_rep `{Allocator} `{FloatText} (o : zobj) (vs : list value) : Prop :=
  vals_ok vs ∧ match o with ZListpack zl => lp_holds zl vs | ZSkiplist zs => skl_holds zs vs end.

Definition zset_abs `{Allocator} `{FloatText} (o : zobj) (M : zabs) : Prop :=
  ∃ vs, zset_rep o vs ∧ zmap vs = M.

Lemma lp_room_cons v vs : lp_room (v :: vs) = lp_cost v.2 + lp_room vs.
Proof. done. Qed.

Lemma lp_room_app l r : lp_room (l ++ r) = lp_room l + lp_room r - 7.
Proof.
  induction l as [|v l IH]; [change (lp_room []) with 7; cbn [app]; lia|].
  cbn [app]. rewrite !lp_room_cons. lia.
Qed.

Lemma lp_room_insert l v r : lp_room (l ++ v :: r) = lp_room (l ++ r) + lp_cost v.2.
Proof. rewrite !lp_room_app, lp_room_cons. lia. Qed.

Lemma lp_cost_range e : 36 ≤ lp_cost e ≤ zlen e + 44.
Proof.
  unfold lp_cost. pose proof (ele_ent_size e). split; [|lia].
  rewrite lp_entry_length. unfold ent_size.
  assert (1 ≤ zlen (ent_bytes (ele_ent e))).
  { unfold ent_bytes, ele_ent, int_ent, str_ent. rewrite length_app. repeat case_match; cbn; lia. }
  assert (1 ≤ lpEncodeBacklenBytes (zlen (ent_bytes (ele_ent e)))); [|lia].
  unfold lpEncodeBacklenBytes. repeat case_match; lia.
Qed.

Lemma lp_room_ge vs : 7 ≤ lp_room vs.
Proof. induction vs as [|v vs IH]; [done|]. rewrite lp_room_cons. pose proof (lp_cost_range v.2). lia. Qed.

Lemma lp_room_total `{FloatText} ps : Forall pair_ok ps → lp_total (flat ps) ≤ lp_room (zvals ps).
Proof.
  unfold lp_total. change LP_HDR_SIZE with 6.
  induction 1 as [|p ps [Hp1 Hp2] _ IH]; [done|].
  rewrite pflat_cons, !lp_body_cons, !length_app. change (zvals (p :: ps)) with (zval p :: zvals ps).
  rewrite lp_room_cons. unfold lp_cost. cbn [zval snd]. rewrite <- Hp1. lia.
Qed.

(** The elements take the bytes of the listpack at most, and each score 34. *)
Lemma lp_room_bound `{FloatText} ps :
  Forall pair_ok ps → lp_room (zvals ps) ≤ lp_total (flat ps) + 34 * zlen ps.
Proof.
  unfold lp_total. change LP_HDR_SIZE with 6.
  induction 1 as [|p ps [Hp1 Hp2] _ IH]; [done|].
  rewrite pflat_cons, !lp_body_cons, !length_app. change (zvals (p :: ps)) with (zval p :: zvals ps).
  rewrite lp_room_cons. unfold lp_cost. cbn [zval snd length]. rewrite <- Hp1. lia.
Qed.

(** ** The listpack encoding *)

Section lp.
Context `{Allocator} `{FloatTextLaws}.

Lemma zvals_lookup ps k p : ps !! k = Some p → zvals ps !! k = Some (zval p).
Proof. intros Hk. unfold zvals. by rewrite list_lookup_fmap, Hk. Qed.

Lemma new_pair_ok s e : score_ok s → ele_ok e →
  pair_ok (new_pair s e) ∧ zval (new_pair s e) = (ent_score (score_ent s), e) ∧
  score_ok (ent_score (score_ent s)) ∧ fkey (ent_score (score_ent s)) = fkey s.
Proof.
  intros [Hn Hv] [Hl Hb]. destruct (score_ent_value s Hv Hn) as (Hok & Hk & Hn' & Hv').
  destruct (ele_ent_ok e) as [He _]; [lia|done|]. pose proof (ele_ent_str e ltac:(lia) Hb) as Hs.
  unfold pair_ok, new_pair, zval. cbn [fst snd]. rewrite Hs. pose proof (score_ent_size s). done.
Qed.

Lemma lp_find_ok zl ps e want :
  zzl_rep zl ps →
  ((e ∉ eles (zvals ps)) ∧ zzlFind zl e want = Ok None) ∨
  (∃ (k : nat) (p : pair), ps !! k = Some p ∧ ent_str p.1 = e ∧
     zzlFind zl e want = Ok (Some (zz_at ps k, if want : bool then Some (ent_score p.2) else None))).
Proof.
  intros R. rewrite (zz_find R). destruct (list_find _ ps) as [[k p]|] eqn:E.
  - right. apply list_find_Some in E as (Hk & He & _). eauto.
  - left. split; [|done]. apply list_find_None in E. unfold zvals. rewrite <- list_fmap_compose.
    intros (p & -> & Hp)%list_elem_of_fmap. rewrite Forall_forall in E. by apply (E p Hp).
Qed.

Lemma lp_insert_ok zl vs s e :
  lp_holds zl vs → vals_ok vs → score_ok s → ele_ok e → e ∉ eles vs →
  lp_room vs + lp_cost e ≤ UINT32_MAX →
  ∃ zl' vs', zzlInsert zl e s = Ok (Some zl') ∧ lp_holds zl' vs' ∧ vals_ok vs' ∧
    zmap vs' = <[e := canon s]> (zmap vs).
Proof.
  intros (ps & R & <- & Hok & Hroom) Hv Hs He Hn Hr.
  destruct (new_pair_ok s e Hs He) as (Hpok & Hval & Hs' & Hkey). set (s' := ent_score (score_ent s)) in *.
  pose proof (lp_room_total ps Hok) as Htot.
  destruct (zz_insert R s e) as (j & zl' & Hj & Hi & R' & Hbef & Haft); [apply Hs|apply He|apply He| | |].
  { apply Forall_forall. intros p Hp. pose proof (vals_each _ Hv) as Hall. rewrite Forall_forall in Hall.
    destruct (Hall (zval p)) as [[? ?] [? ?]]; [by apply list_elem_of_fmap_2|done]. }
  { unfold lp_cost in Hr. lia. }
  set (l := zvals (take j ps)). set (r := zvals (drop j ps)).
  assert (zvals ps = l ++ r) as E by (unfold l, r, zvals; by rewrite <- fmap_app, take_drop).
  assert (∀ w, vlt (s, e) w ↔ vlt (s', e) w) as Hvl by (intros w; unfold vlt, vkey, zkey; cbn; by rewrite Hkey).
  assert (∀ w, vlt w (s, e) ↔ vlt w (s', e)) as Hvr by (intros w; unfold vlt, vkey, zkey; cbn; by rewrite Hkey).
  assert (Forall (λ w, vlt w (s', e)) l) as Hl.
  { apply Forall_forall. intros w (p & -> & Hp)%list_elem_of_fmap.
    apply list_elem_of_lookup in Hp as (i & Hp). apply lookup_take_Some in Hp as [Hp ?].
    apply Hvr, vlt_total.
    - cbn [snd]. intros ->. apply Hn. apply list_elem_of_fmap_2, list_elem_of_fmap_2.
      by eapply list_elem_of_lookup_2.
    - by apply (Hbef i). }
  assert (Forall (vlt (s', e)) r) as Hrr.
  { unfold r. destruct (drop j ps) as [|q qs] eqn:Eq; [constructor|].
    assert (ps !! j = Some q) as Hq by (by rewrite <- (Nat.add_0_r j), <- lookup_drop, Eq).
    pose proof (Haft q Hq) as Hlt. apply Hvl in Hlt. constructor; [done|].
    pose proof (vals_sorted _ Hv) as HS. rewrite E in HS. apply StronglySorted_app in HS as (_ & _ & HS).
    apply StronglySorted_inv in HS as [_ HS].
    eapply Forall_impl; [exact HS|]. intros w. by apply vlt_trans. }
  exists zl', (l ++ (s', e) :: r). rewrite E in Hv, Hn, Hr |- *. split; [done|]. split; [|split].
  - exists (take j ps ++ new_pair s e :: drop j ps). split; [done|].
    split; [unfold zvals; by rewrite fmap_app, fmap_cons, Hval|]. split.
    + apply Forall_app. split; [by apply Forall_take|]. constructor; [done|by apply Forall_drop].
    + by rewrite lp_room_insert.
  - by apply vals_insert.
  - rewrite zmap_insert by done. cbn [fst snd]. f_equal. by apply fkey_canon.
Qed.

(** Removal of the element at a position *)
Lemma lp_delete_ok zl ps k p :
  zzl_rep zl ps → Forall pair_ok ps → lp_room (zvals ps) ≤ UINT32_MAX → vals_ok (zvals ps) →
  ps !! k = Some p →
  ∃ zl' vs', zzlDelete zl (zz_at ps k) = Ok zl' ∧ lp_holds zl' vs' ∧ vals_ok vs' ∧
    zmap vs' = delete (ent_str p.1) (zmap (zvals ps)) ∧ (ent_str p.1 ∉ eles vs') ∧
    lp_room (zvals ps) = lp_room vs' + lp_cost (ent_str p.1).
Proof.
  intros R Hok Hroom Hv Hk. destruct (zz_delete R k) as (zl' & Hd & R'); [by eapply lookup_lt_Some|].
  rewrite delete_take_drop in R'. set (l := zvals (take k ps)). set (r := zvals (drop (S k) ps)).
  assert (zvals ps = l ++ zval p :: r) as E.
  { unfold l, r, zvals. rewrite <- fmap_cons, <- fmap_app. by rewrite take_drop_middle. }
  rewrite E in *. destruct (vals_remove l (zval p) r Hv) as [Hv' Hn].
  exists zl', (l ++ r). rewrite lp_room_insert in *. pose proof (lp_cost_range (zval p).2).
  split; [done|]. split; [|split; [done|split; [by apply (zmap_delete l (zval p) r)|done]]].
  exists (take k ps ++ drop (S k) ps). split; [done|]. split; [unfold l, r, zvals; by rewrite fmap_app|].
  split; [|lia]. apply Forall_app. split; [by apply Forall_take|by apply Forall_drop].
Qed.
End lp.
