(* ===== verification/ZsetSkl.v ===== *)
(** The skiplist encoding of sorted sets: the skiplist and the dictionary change
    together. *)

From S2P Require Import Prelude Numstr Sds Listpack LpNav LpMod LpFind LpRange LpApi Skiplist.
From S2P Require Import SklRep SklMod SklDel SklUpd SklRank Double Zzl ZzlRep ZzlMod Zset.
From S2P Require Import ZsetRep.
From Stdlib Require Import SpecFloat.

(** ** Random numbers *)

(** How many levels can be drawn from the numbers: each ends with a number at or
    above the threshold. *)
Definition draws (rnd : list Z) : nat := length (filter (λ r, threshold ≤ r) rnd).

Lemma draw_loop rnd lv k : (S k ≤ draws rnd)%nat →
  ∃ lv' rnd', zslRandomLevel_loop rnd lv = Ok (lv', rnd') ∧ (k ≤ draws rnd')%nat.
Proof.
  revert lv. induction rnd as [|r rnd IH]; intros lv Hk; [cbn in Hk; lia|].
  unfold draws in *. cbn [zslRandomLevel_loop]. rewrite filter_cons in Hk.
  destruct (decide (threshold ≤ r)) as [Hr|Hr].
  - replace (r <? threshold) with false by lia. cbn [length] in Hk.
    eexists _, _. split; [done|]. lia.
  - replace (r <? threshold) with true by lia. by apply IH.
Qed.

Lemma draw_ok rnd k : (S k ≤ draws rnd)%nat →
  ∃ lv rnd', zslRandomLevel rnd = Ok (lv, rnd') ∧ (k ≤ draws rnd')%nat.
Proof.
  intros Hk. destruct (draw_loop rnd 1 k Hk) as (lv & rnd' & Hl & Hd). unfold zslRandomLevel.
  rewrite Hl. rs. eauto.
Qed.

(** ** Lookups *)

Section skl.
Context `{Allocator}.

Lemma eval_ele xs : eles (eval <$> xs) = ze_ele <$> xs.
Proof. by rewrite <- list_fmap_compose. Qed.

Lemma eval_sorted xs : StronglySorted zlt xs → StronglySorted vlt (eval <$> xs).
Proof.
  induction 1 as [|x xs HS IH Hx]; [constructor|]. cbn. constructor; [done|].
  apply Forall_fmap. eapply Forall_impl; [exact Hx|]. done.
Qed.

(** An element of the dictionary is a node of the list. *)
Lemma skl_find zs xs e :
  zsl_rep (zs_heap zs) (zs_zsl zs) xs → dict_ok (zs_dict zs) xs →
  (e ∉ ze_ele <$> xs) ∧ zdict_find (zs_dict zs) e = None ∨
  ∃ x xs1 xs2, xs = xs1 ++ x :: xs2 ∧ ze_ele x = e ∧ zdict_find (zs_dict zs) e = Some (ze_ptr x) ∧
    ∃ n, node (zs_heap zs) (ze_ptr x) = Ok n ∧ zn_score n = ze_score x.
Proof.
  intros [R _] Hd. unfold zdict_find. destruct (zs_dict zs !! e) as [p|] eqn:E.
  - right. apply Hd in E as (x & Hx & He & <-). pose proof Hx as Hin.
    apply list_elem_of_split in Hx as (xs1 & xs2 & ->).
    destruct (inv_data R x Hin) as (De & _ & _).
    destruct (node_score_ok (view_self (zs_heap zs)) x De) as (n & Hn & Hs & _).
    exists x, xs1, xs2. split_and!; [done..|]. eauto.
  - left. split; [|done]. intros (x & -> & Hx)%list_elem_of_fmap.
    assert (zs_dict zs !! ze_ele x = Some (ze_ptr x)) as E' by (apply Hd; eauto). congruence.
Qed.

Lemma key_fresh (xs : list zent) s e x : (e ∉ ze_ele <$> xs) → x ∈ xs → ekey x ≠ zkey s e.
Proof.
  intros Hn Hx E. apply Hn. apply list_elem_of_fmap. exists x. split; [|done].
  symmetry. by apply (vkey_ele (eval x) (s, e)).
Qed.

Lemma elem_of_mid {A} (y : A) l x r : y ∈ l ++ x :: r ↔ y = x ∨ y ∈ l ++ r.
Proof. set_solver. Qed.

(** The dictionary after an insertion, and after a removal *)
Lemma dict_insert d xs1 x xs2 :
  dict_ok d (xs1 ++ xs2) → (ze_ele x ∉ ze_ele <$> (xs1 ++ xs2)) →
  dict_ok (<[ze_ele x := ze_ptr x]> d) (xs1 ++ x :: xs2).
Proof.
  intros Hd Hn k p. setoid_rewrite elem_of_mid. destruct (decide (k = ze_ele x)) as [->|Hk].
  - rewrite lookup_insert_eq. split; [intros [= <-]; exists x; by split; [left|]|].
    intros (y & [->|Hy] & He & <-); [done|]. exfalso. apply Hn. rewrite <- He. by apply list_elem_of_fmap_2.
  - rewrite lookup_insert_ne by done. rewrite (Hd k p). split.
    + intros (y & Hy & He). exists y. by split; [right|].
    + intros (y & [->|Hy] & He & Hp); [done|]. by exists y.
Qed.

Lemma dict_remove d xs1 x xs2 :
  dict_ok d (xs1 ++ x :: xs2) → (ze_ele x ∉ ze_ele <$> (xs1 ++ xs2)) →
  dict_ok (delete (ze_ele x) d) (xs1 ++ xs2).
Proof.
  intros Hd Hn k p. destruct (decide (k = ze_ele x)) as [->|Hk].
  - rewrite lookup_delete_eq. split; [done|]. intros (y & Hy & He & _). exfalso. apply Hn.
    rewrite <- He. by apply list_elem_of_fmap_2.
  - rewrite lookup_delete_ne by done. rewrite (Hd k p). setoid_rewrite elem_of_mid. split.
    + intros (y & [->|Hy] & He & Hp); [done|]. by exists y.
    + intros (y & Hy & He). exists y. by split; [right|].
Qed.

(** ** Updates *)

(** The values around a node, from the order of the list *)
Lemma skl_mid xs1 x xs2 :
  StronglySorted zlt (xs1 ++ x :: xs2) →
  Forall (λ w, vlt w (eval x)) (eval <$> xs1) ∧ Forall (vlt (eval x)) (eval <$> xs2).
Proof.
  intros HS. apply sorted_mid in HS as (_ & H1 & H2). by rewrite !Forall_fmap.
Qed.

Lemma skl_insert_ok `{NodeAlloc} zs vs s e rnd k :
  skl_holds zs vs → vals_ok vs → score_ok s → ele_ok e → (e ∉ eles vs) →
  zlen vs + 1 < INT64_MAX → (S k ≤ draws rnd)%nat →
  ∃ h z p rnd' vs',
    zslInsert rnd (zs_heap zs) (zs_zsl zs) s e = Ok (h, z, p, rnd') ∧
    skl_holds (ZSet h (<[e := p]> (zs_dict zs)) z) vs' ∧ vals_ok vs' ∧
    zmap vs' = <[e := canon s]> (zmap vs) ∧ (k ≤ draws rnd')%nat.
Proof.
  intros (xs & R & <- & Hd) Hv Hs He Hn Hlen Hk. rewrite eval_ele in Hn. rewrite length_fmap in Hlen.
  destruct (draw_ok rnd k Hk) as (lv & rnd' & Hr & Hk').
  destruct (insert_ok rnd _ _ xs s e lv rnd' R) as (h & z & us & xs1 & xs2 & -> & Hi & R');
    [apply Hs|by intros; apply key_fresh with xs|done|done|]. set (x := ZE _ s e lv us) in *.
  exists h, z, (ze_ptr x), rnd', (eval <$> (xs1 ++ x :: xs2)). split; [done|].
  assert (eval <$> (xs1 ++ x :: xs2) = (eval <$> xs1) ++ (s, e) :: (eval <$> xs2)) as E
    by by rewrite fmap_app, fmap_cons.
  rewrite fmap_app in Hv. assert (e ∉ eles ((eval <$> xs1) ++ (eval <$> xs2))) as Hn'
    by by rewrite <- fmap_app, eval_ele.
  split; [|split; [|split; [|done]]].
  - exists (xs1 ++ x :: xs2). split; [done|]. split; [done|]. by apply (dict_insert _ xs1 x xs2).
  - rewrite E. apply vals_insert; [done|done|done|done|..];
      apply (skl_mid xs1 x xs2), (rep_sorted _ _ _ (proj1 R')).
  - rewrite E, zmap_insert by done. by rewrite fmap_app.
Qed.

Lemma skl_delete_ok zs xs1 x xs2 :
  zsl_rep (zs_heap zs) (zs_zsl zs) (xs1 ++ x :: xs2) → dict_ok (zs_dict zs) (xs1 ++ x :: xs2) →
  vals_ok (eval <$> (xs1 ++ x :: xs2)) →
  ∃ h z, zslDelete (zs_heap zs) (zs_zsl zs) (ze_ptr x) = Ok (h, z) ∧
    skl_holds (ZSet h (delete (ze_ele x) (zs_dict zs)) z) (eval <$> (xs1 ++ xs2)) ∧
    vals_ok (eval <$> (xs1 ++ xs2)) ∧
    zmap (eval <$> (xs1 ++ xs2)) = delete (ze_ele x) (zmap (eval <$> (xs1 ++ x :: xs2))).
Proof.
  intros R Hd Hv. destruct (zsl_delete_ok _ _ _ _ _ R) as (h & z & Hi & R' & _).
  rewrite !fmap_app, fmap_cons in *. destruct (vals_remove _ _ _ Hv) as [Hv' Hn].
  exists h, z. split; [done|]. split; [|split; [done|by apply (zmap_delete _ (eval x))]].
  exists (xs1 ++ xs2). split; [done|]. split; [by rewrite fmap_app|]. apply (dict_remove _ xs1 x xs2 Hd).
  by rewrite <- eval_ele, fmap_app.
Qed.

Lemma skl_update_ok zs xs1 x xs2 s :
  zsl_rep (zs_heap zs) (zs_zsl zs) (xs1 ++ x :: xs2) → dict_ok (zs_dict zs) (xs1 ++ x :: xs2) →
  vals_ok (eval <$> (xs1 ++ x :: xs2)) → score_ok s →
  ∃ h z vs', zslUpdateScore (zs_heap zs) (zs_zsl zs) (ze_ptr x) s = Ok (h, z) ∧
    skl_holds (ZSet h (zs_dict zs) z) vs' ∧ vals_ok vs' ∧
    zmap vs' = <[ze_ele x := canon s]> (zmap (eval <$> (xs1 ++ x :: xs2))).
Proof.
  intros R Hd Hv Hs. pose proof (vals_each _ Hv) as Hall. rewrite !fmap_app, fmap_cons in Hv, Hall |- *.
  apply Forall_app in Hall as [_ Hall]. apply Forall_cons in Hall as [[_ Hele] _].
  destruct (vals_remove _ _ _ Hv) as [Hv' Hn].
  assert (ze_ele x ∉ ze_ele <$> (xs1 ++ xs2)) as Hn' by by rewrite <- eval_ele, fmap_app.
  destruct (update_ok _ _ xs1 x xs2 s R) as (h & z & ys1 & ys2 & E & Hi & R');
    [apply Hs|by intros; apply key_fresh with (xs1 ++ xs2)|].
  exists h, z, (eval <$> (ys1 ++ with_score x s :: ys2)). split; [done|].
  rewrite <- fmap_app, E, fmap_app in Hv', Hn.
  split; [|split].
  - exists (ys1 ++ with_score x s :: ys2). split; [done|]. split; [done|].
    intros k p. rewrite (Hd k p). setoid_rewrite elem_of_mid. rewrite E. split.
    + intros (y & [->|Hy] & He); [exists (with_score x s)|exists y]; by split; [auto|].
    + intros (y & [->|Hy] & He); [exists x|exists y]; by split; [auto|].
  - rewrite fmap_app, fmap_cons. apply vals_insert; [done|done|done|done|..];
      apply (skl_mid ys1 (with_score x s) ys2), (rep_sorted _ _ _ (proj1 R')).
  - rewrite fmap_app, fmap_cons, zmap_insert by done. rewrite (zmap_insert _ (eval x)) by
      (by rewrite <- fmap_app, E, fmap_app). rewrite insert_insert_eq, <- !fmap_app, E. done.
Qed.
End skl.
