(* ===== verification/ZsetConv.v ===== *)
(** Conversions between the two encodings of sorted sets, and copies. *)

From S2P Require Import Prelude Numstr Sds Listpack LpNav LpMod LpFind LpRange LpApi Skiplist.
From S2P Require Import SklRep SklMod SklDel SklUpd SklRank Double Zzl ZzlRep ZzlMod Zset.
From S2P Require Import ZsetRep ZsetSkl.
From Stdlib Require Import SpecFloat.

(** ** Equal values *)

Definition veq (v w : value) : Prop := fkey v.1 = fkey w.1 ∧ v.2 = w.2.

Lemma veq_key v w : veq v w → vkey v = vkey w.
Proof. intros [E1 E2]. unfold vkey, zkey. by rewrite E1, E2. Qed.

Lemma veq_eles vs ws : Forall2 veq vs ws → eles vs = eles ws.
Proof. induction 1 as [|v w vs ws [_ E] _ IH]; cbn; [done|]. by f_equal. Qed.

Lemma veq_zmap vs ws : Forall2 veq vs ws → zmap vs = zmap ws.
Proof.
  intros Hf. unfold zmap. f_equal. induction Hf as [|v w vs ws [E1 E2] _ IH]; cbn; [done|].
  apply fkey_canon in E1. by rewrite E1, E2, IH.
Qed.

Lemma veq_room vs ws : Forall2 veq vs ws → lp_room vs = lp_room ws.
Proof.
  induction 1 as [|v w vs ws [_ E] _ IH]; [done|]. rewrite !lp_room_cons. by rewrite E, IH.
Qed.

Lemma veq_sorted vs ws : Forall2 veq vs ws → StronglySorted vlt ws → StronglySorted vlt vs.
Proof.
  induction 1 as [|v w vs ws E Hf IH]; intros HS; [constructor|].
  apply StronglySorted_inv in HS as [HS Hw]. constructor; [auto|]. clear IH HS.
  induction Hf as [|v' w' vs ws E' _ IH]; [constructor|]. apply Forall_cons in Hw as [Hw Hws].
  constructor; [|auto]. unfold vlt in *. by rewrite (veq_key v w E), (veq_key v' w' E').
Qed.

Lemma veq_vals_ok vs ws :
  Forall2 veq vs ws → Forall (λ v, score_ok v.1) vs → vals_ok ws → vals_ok vs.
Proof.
  intros Hf Hs [H1 H2 H3]. split.
  - by apply (veq_sorted vs ws).
  - by rewrite (veq_eles vs ws).
  - clear H1 H2. induction Hf as [|v w vs ws [_ E] _ IH]; [constructor|].
    apply Forall_cons in Hs as [Hs Hss]. apply Forall_cons in H3 as [[_ H3] H4].
    constructor; [by rewrite E|auto].
Qed.

Lemma dict_fresh `{Allocator} zs vs e : skl_holds zs vs → (e ∉ eles vs) → zs_dict zs !! e = None.
Proof.
  intros (xs & _ & <- & Hdk) Hn. rewrite eval_ele in Hn.
  destruct (zs_dict zs !! e) as [y|] eqn:Ey; [|done].
  apply Hdk in Ey as (x & Hx & Hxe & _). exfalso. apply Hn. rewrite <- Hxe. by apply list_elem_of_fmap_2.
Qed.


(** ** From a listpack to a skiplist *)

(** The pointer to the score of the pair [k] *)
Definition zz_sptr (ps : list pair) (k : nat) : option Z :=
  if decide (k < length ps)%nat then Some (lp_at (flat ps) (S (2 * k))) else None.

Lemma zz_sptr_some ps k : (k < length ps)%nat → zz_sptr ps k = Some (lp_at (flat ps) (S (2 * k))).
Proof. intros. unfold zz_sptr. by rewrite decide_True. Qed.

Section next.
Context `{Allocator} `{FloatText} {zl : list Z} {ps : list pair} (R : zzl_rep zl ps).

Lemma zz_next k p : ps !! k = Some p →
  zzlNext zl (zz_ptr ps k) (zz_sptr ps k) = Ok (zz_ptr ps (S k), zz_sptr ps (S k)).
Proof.
  intros Hk. pose proof (lookup_lt_Some _ _ _ Hk) as Hlt. unfold zzlNext.
  rewrite zz_ptr_some, zz_sptr_some by done. cbn [nonnull]. rs. rewrite (zz_next_ele R k p Hk). rs.
  destruct (decide (S k < length ps)%nat) as [Hs|Hs].
  - destruct (lookup_lt_is_Some_2 ps (S k) Hs) as [q Hq].
    rewrite zz_ptr_some by done. rewrite (zz_next_score R _ _ Hq). rs. cbn [nonnull]. rs.
    by rewrite zz_sptr_some.
  - rewrite zz_ptr_none by lia. unfold zz_sptr. by rewrite decide_False.
Qed.

Lemma zz_start : (eptr ← lpSeek zl 0;
    sptr ← (match eptr with
            | Some e => sptr ← lpNext zl e; _ ← nonnull sptr; Ok sptr
            | None => Ok None
            end);
    Ok (eptr, sptr)) = Ok (zz_ptr ps 0, zz_sptr ps 0).
Proof.
  rewrite (zz_seek_first R). rs. destruct (decide (0 < length ps)%nat) as [Hs|Hs].
  - destruct (lookup_lt_is_Some_2 ps 0 Hs) as [q Hq]. rewrite zz_ptr_some, zz_sptr_some by done.
    by rewrite (zz_next_score R _ _ Hq).
  - rewrite zz_ptr_none by lia. unfold zz_sptr. by rewrite decide_False.
Qed.
End next.

Section conv.
Context `{Allocator} `{NodeAlloc} `{FloatText}.

Lemma convert_loop_ok zl ps : zzl_rep zl ps → vals_ok (zvals ps) → zlen ps < INT64_MAX →
  ∀ fuel k zs vs rnd n,
  (length ps - k ≤ fuel)%nat → (k ≤ length ps)%nat →
  skl_holds zs vs → vals_ok vs → zmap vs = zmap (zvals (take k ps)) →
  (length ps - k + n ≤ draws rnd)%nat →
  ∃ zs' rnd' vs', convert_loop fuel zl (zz_ptr ps k) (zz_sptr ps k) rnd zs = Ok (zs', rnd') ∧
    skl_holds zs' vs' ∧ vals_ok vs' ∧ zmap vs' = zmap (zvals ps) ∧ (n ≤ draws rnd')%nat.
Proof.
  intros R Hv Hsm. induction fuel as [|fuel IH]; intros k zs vs rnd n Hf Hk Hh Hvs Hm Hd;
    (destruct (decide (k < length ps)%nat) as [Hlt|Hge]; [|
      rewrite zz_ptr_none by lia; rewrite take_ge in Hm by lia; exists zs, rnd, vs;
      split; [done|]; split; [done|]; split; [done|]; split; [done|lia]]); [lia|].
  destruct (lookup_lt_is_Some_2 ps k Hlt) as [p Hp].
  rewrite zz_ptr_some, zz_sptr_some by done. cbn [convert_loop].
  rewrite (zz_get_score R k p Hp). rs. rewrite (zz_object R k p Hp). rs.
  assert (zvals (take (S k) ps) = zvals (take k ps) ++ [zval p]) as E.
  { unfold zvals. by rewrite (take_S_r ps k p Hp), fmap_app. }
  assert (zvals ps = zvals (take k ps) ++ zval p :: zvals (drop (S k) ps)) as Eps.
  { unfold zvals. by rewrite <- fmap_cons, <- fmap_app, take_drop_middle. }
  assert (ent_str p.1 ∉ eles (zvals (take k ps))) as Hn.
  { rewrite Eps in Hv. apply vals_remove in Hv as [_ Hn]. rewrite fmap_app, not_elem_of_app in Hn.
    by destruct Hn as [Hn _]. }
  assert (ent_str p.1 ∉ eles vs) as Hn' by (apply zmap_lookup_None; rewrite Hm; by apply zmap_lookup_None).
  pose proof (vals_each _ Hv) as Hall. rewrite Forall_lookup in Hall.
  destruct (Hall k (zval p)) as [Hs He]; [by apply zvals_lookup|].
  assert (zlen vs = Z.of_nat k) as Hlen.
  { pose proof (vals_nodup _ Hv) as Hnd. rewrite Eps, fmap_app in Hnd. apply NoDup_app in Hnd as [Hnd _].
    pose proof (f_equal size Hm) as Hz. rewrite !zmap_size in Hz by (done || apply Hvs).
    unfold zvals in Hz. rewrite length_fmap, length_take in Hz. lia. }
  destruct (skl_insert_ok zs vs (zval p).1 (zval p).2 rnd (length ps - S k + n))
    as (h & z & q & rnd' & vs' & Hi & Hh' & Hv' & Hm' & Hd'); [done|done|done|done|done|lia|lia|].
  cbn [zval fst snd] in Hi, Hh', Hm'. rewrite Hi. rs. unfold zdict_add.
  rewrite (dict_fresh zs vs (ent_str p.1)) by done. cbn [nonnull]. rs. rewrite <- zz_ptr_some, <- zz_sptr_some, (zz_next R k p Hp) by done. rs.
  apply (IH (S k) _ vs'); try done; try lia.
  rewrite Hm', E, Hm, (zmap_insert _ (zval p) []) by (by rewrite app_nil_r). by rewrite app_nil_r.
Qed.

(** The skiplist made from a listpack has the same map. *)
Lemma to_skiplist_ok zl vs rnd cap n :
  lp_holds zl vs → vals_ok vs → zlen vs < INT64_MAX → (length vs + n ≤ draws rnd)%nat →
  ∃ zs rnd' vs',
    zsetConvertAndExpand rnd (ZListpack zl) OBJ_ENCODING_SKIPLIST cap = Ok (ZSkiplist zs, rnd') ∧
    skl_holds zs vs' ∧ vals_ok vs' ∧ zmap vs' = zmap vs ∧ (n ≤ draws rnd')%nat.
Proof.
  intros (ps & R & <- & _ & _) Hv Hsm Hd. unfold zsetConvertAndExpand. rewrite decide_False by done.
  destruct (create_ok ∅) as (h & z & -> & R0). rs.
  unfold zvals in Hsm, Hd. rewrite length_fmap in Hsm, Hd. pose proof (zz_count R) as Hc.
  destruct (convert_loop_ok zl ps R Hv Hsm (length zl) 0 (ZSet h ∅ z) [] rnd n) as
    (zs & rnd' & vs' & Hl & Hh & Hv' & Hm & Hd'); [lia|lia| |apply vals_ok_nil|done|lia|].
  { exists []. split; [done|]. split; [done|]. intros k p. split; [done|].
    intros (x & Hx & _). by apply not_elem_of_nil in Hx. }
  exists zs, rnd', vs'. split; [|done]. pose proof (zz_start R) as Hst.
  destruct (lpSeek zl 0) as [eptr|]; [|done]. cbn [mbind res_bind] in Hst |- *.
  destruct (match eptr with Some e => _ | None => _ end) as [sptr|]; [|done].
  cbn [mbind res_bind] in Hst |- *. injection Hst as -> ->. by rewrite Hl.
Qed.
End conv.

(** ** From a skiplist to a listpack *)

(** What is read of a node, also in a heap that only agrees on this node *)
Lemma node_facts `{Allocator} h z a y ys h1 :
  zsl_inv h z (a ++ y :: ys) → h1 !! ze_ptr y = h !! ze_ptr y →
  zslGetNodeElement h1 (ze_ptr y) = Ok (ze_ele y) ∧
  (∃ n, node h1 (ze_ptr y) = Ok n ∧ zn_score n = ze_score y ∧ zn_backward n = ze_ptr <$> last a) ∧
  (∃ s, get_level h1 (ze_ptr y) 0 = Ok (ZLevel (ze_ptr <$> head ys) s)).
Proof.
  intros R Hh.
  assert (node h1 (ze_ptr y) = node h (ze_ptr y)) as Hnode by (unfold node; by rewrite Hh).
  destruct (inv_data R y ltac:(set_solver)) as (De & He & _). split; [|split].
  - rewrite <- (node_ele_ok (view_self h) y De He). unfold zslGetNodeElement, zslGetNodeInfo, get_level.
    by rewrite Hnode.
  - rewrite Hnode. pose proof De as (off & Hoff & Hde).
    destruct (node_ok (view_self h) _ _ _ Hde (rep_back _ _ _ R a y ys eq_refl)) as (n & Hn & Hb & Hd).
    exists n. split; [done|]. split; [|done]. unfold node_data in Hd. by injection Hd as -> _ _ _ _ _.
  - assert (a ++ y :: ys = (a ++ [y]) ++ ys) as E by by rewrite <- (assoc_L (++)).
    rewrite E in R. destruct (next_node h z (a ++ [y]) ys R) as (s & Hs). rewrite last_snoc in Hs.
    change (default _ _) with (ze_ptr y) in Hs. exists s. unfold get_level in *. by rewrite Hnode.
Qed.

Section unconv.
Context `{Allocator} `{FloatTextLaws}.

Lemma unconvert_loop_ok h z xs : zsl_inv h z xs → vals_ok (eval <$> xs) → lp_room (eval <$> xs) ≤ UINT32_MAX →
  ∀ ys a h1 z1 zl ps fuel,
  xs = a ++ ys → (∀ x, x ∈ ys → h1 !! ze_ptr x = h !! ze_ptr x) → (length ys ≤ fuel)%nat →
  zzl_rep zl ps → Forall pair_ok ps → Forall2 veq (zvals ps) (eval <$> a) →
  Forall (λ v, score_ok v.1) (zvals ps) →
  ∃ zl' ps', unconvert_loop fuel h1 z1 (ze_ptr <$> head ys) zl = Ok zl' ∧
    zzl_rep zl' ps' ∧ Forall pair_ok ps' ∧ Forall2 veq (zvals ps') (eval <$> xs) ∧
    Forall (λ v, score_ok v.1) (zvals ps').
Proof.
  intros R Hv Hroom. induction ys as [|y ys IH]; intros a h1 z1 zl ps fuel E Hh Hf Rz Hok Heq Hs.
  { exists zl, ps. rewrite app_nil_r in E. subst a. by destruct fuel. }
  destruct fuel as [|fuel]; [cbn in Hf; lia|]. cbn [head fmap option_fmap option_map unconvert_loop].
  rewrite E in R. destruct (node_facts h z a y ys h1 R) as (He & (n & Hn & Hsc & _) & (s & Hl)); [apply Hh; set_solver|].
  rewrite He, Hn. rs. rewrite Hsc. rewrite E in Hv, Hroom.
  pose proof (vals_each _ Hv) as Hall. rewrite fmap_app, fmap_cons in Hall, Hroom.
  apply Forall_app in Hall as [_ Hall]. apply Forall_cons in Hall as [[Hys Hye] _].
  destruct (new_pair_ok _ _ Hys Hye) as (Hpok & Hval & Hs' & Hkey).
  rewrite <- (zz_ptr_none ps (length ps)) by lia.
  destruct (zz_insert_at Rz (length ps) (eval y).1 (eval y).2) as (zl' & Hi & Rz'); [done|destruct Hye; lia|apply Hye| |].
  { pose proof (lp_room_total ps Hok) as Ht. rewrite (veq_room _ _ Heq) in Ht.
    rewrite lp_room_app, lp_room_cons in Hroom. pose proof (lp_room_ge (eval <$> ys)).
    unfold lp_cost in Hroom. lia. }
  rewrite firstn_all, drop_all in Rz'. cbn [eval fst snd] in Hi, Rz', Hval, Hkey, Hs', Hpok. rewrite Hi. rs.
  cbn [lp_nonnull]. rs. rewrite Hl. rs. unfold zslFreeNode. rewrite Hn. rs. cbn [forward].
  assert (a ++ y :: ys = (a ++ [y]) ++ ys) as E2 by by rewrite <- (assoc_L (++)).
  pose proof (rep_nodup _ _ _ R) as HN. rewrite app_comm_cons in HN.
  eapply (IH (a ++ [y])); [by rewrite E, E2| |cbn in Hf; lia|exact Rz'| | |].
  - intros x Hx. rewrite lookup_delete_ne; [apply Hh; set_solver|].
    apply not_eq_sym, (ptr_notin _ y ys x HN). set_solver.
  - apply Forall_app. split; [done|]. by apply Forall_singleton.
  - unfold zvals. rewrite !fmap_app. apply Forall2_app; [done|]. cbn. rewrite Hval.
    constructor; [done|constructor].
  - unfold zvals. rewrite fmap_app. apply Forall_app. split; [done|]. cbn. rewrite Hval.
    by apply Forall_singleton.
Qed.

Lemma to_listpack_ok `{NodeAlloc} zs vs rnd cap :
  skl_holds zs vs → vals_ok vs → lp_room vs ≤ UINT32_MAX →
  ∃ zl vs', zsetConvertAndExpand rnd (ZSkiplist zs) OBJ_ENCODING_LISTPACK cap = Ok (ZListpack zl, rnd) ∧
    lp_holds zl vs' ∧ vals_ok vs' ∧ zmap vs' = zmap vs.
Proof.
  intros (xs & R & <- & Hd) Hv Hroom. unfold zsetConvertAndExpand. rewrite decide_False by done.
  destruct (lpNew_spec 0) as (zl0 & -> & R0). rs. pose proof (proj1 R) as Ri.
  destruct (next_node _ _ [] xs Ri) as (s & Hn). cbn in Hn. change (default _ _) with (zsl_header (zs_zsl zs)) in Hn.
  rewrite Hn. rs. cbn [forward].
  destruct (unconvert_loop_ok _ _ xs Ri Hv Hroom xs [] (delete (zsl_header (zs_zsl zs)) (zs_heap zs)) (zs_zsl zs) zl0 []
    (Z.to_nat (zsl_length (zs_zsl zs)))) as (zl & ps & Hl & Rz & Hok & Heq & Hs); try done.
  - intros x Hx. apply lookup_delete_ne. pose proof (rep_nodup _ _ _ Ri) as HN.
    apply NoDup_cons in HN as [HN _]. intros E. apply HN. cbn [hd_ent ze_ptr].
    rewrite E. by apply list_elem_of_fmap_2.
  - rewrite (rep_length _ _ _ Ri). lia.
  - rewrite Hl. rs. exists zl, (zvals ps). split; [done|]. split; [|split].
    + exists ps. rewrite (veq_room _ _ Heq). done.
    + by apply (veq_vals_ok _ _ Heq).
    + by apply veq_zmap.
Qed.
End unconv.

(** ** Copies *)

Section dup.
Context `{Allocator} `{NodeAlloc} `{FloatText}.

Lemma dup_loop_ok h z xs : zsl_inv h z xs → vals_ok (eval <$> xs) →
  ∀ a b zs vs rnd n, xs = a ++ b →
  skl_holds zs vs → vals_ok vs → zmap vs = zmap (eval <$> b) → (length a + n ≤ draws rnd)%nat →
  ∃ zs' rnd' vs', dup_loop (length a) h (ze_ptr <$> last a) rnd zs = Ok (zs', rnd') ∧
    skl_holds zs' vs' ∧ vals_ok vs' ∧ zmap vs' = zmap (eval <$> xs) ∧ (n ≤ draws rnd')%nat.
Proof.
  intros R Hv a. induction a as [|y a IH] using rev_ind; intros b zs vs rnd n E Hh Hvs Hm Hd.
  { exists zs, rnd, vs. by subst xs. }
  rewrite length_app in Hd |- *. cbn [length] in *. rewrite Nat.add_1_r, last_snoc. cbn [dup_loop fmap option_fmap option_map deref].
  rs. assert (xs = a ++ y :: b) as E2 by (by rewrite E, <- (assoc_L (++))). pose proof R as R1. rewrite E2 in R1.
  destruct (node_facts h z a y b h R1 eq_refl) as (He & (nd & Hn & Hsc & Hb) & _).
  rewrite He, Hn. rs. rewrite Hsc, Hb. rewrite E2, fmap_app, fmap_cons in Hv.
  destruct (vals_remove _ _ _ Hv) as [_ Hfr]. pose proof (vals_each _ Hv) as Hall.
  apply Forall_app in Hall as [_ Hall]. apply Forall_cons in Hall as [[Hys Hye] _].
  rewrite fmap_app, not_elem_of_app in Hfr. destruct Hfr as [_ Hfr].
  assert ((eval y).2 ∉ eles vs) as Hfr' by (apply zmap_lookup_None; rewrite Hm; by apply zmap_lookup_None).
  assert (length vs = length b) as Hlen.
  { pose proof (f_equal size Hm) as Hz. rewrite !zmap_size, length_fmap in Hz; [done| |apply Hvs].
    pose proof (vals_nodup _ Hv) as Hnd. rewrite fmap_app, fmap_cons in Hnd.
    apply NoDup_app in Hnd as (_ & _ & Hnd). by apply NoDup_cons in Hnd as [_ ?]. }
  pose proof (rep_small _ _ _ R1) as Hsm. rewrite length_app in Hsm. cbn [length] in Hsm.
  destruct (skl_insert_ok zs vs (eval y).1 (eval y).2 rnd (length a + n)) as
    (h' & z' & q & rnd' & vs' & Hi & Hh' & Hv' & Hm' & Hd'); [done..|lia|lia|].
  cbn [eval fst snd] in Hi. rewrite Hi. rs. unfold zdict_add. rewrite (dict_fresh zs vs (ze_ele y)) by done.
  cbn [default]. apply (IH (y :: b) _ vs'); try done.
  rewrite Hm', Hm. rewrite fmap_cons. symmetry. by apply (zmap_insert [] (eval y)).
Qed.

Lemma dup_skiplist_ok zs vs rnd n :
  skl_holds zs vs → vals_ok vs → (length vs + n ≤ draws rnd)%nat →
  ∃ zs' rnd' vs', zsetDup rnd (ZSkiplist zs) = Ok (ZSkiplist zs', rnd') ∧
    skl_holds zs' vs' ∧ vals_ok vs' ∧ zmap vs' = zmap vs ∧ (n ≤ draws rnd')%nat.
Proof.
  intros (xs & R & <- & Hdk) Hv Hd. cbn [zsetDup]. destruct (create_ok ∅) as (h & z & -> & R0). rs.
  pose proof (proj1 R) as Ri. rewrite (rep_length _ _ _ Ri), (rep_tail _ _ _ Ri), Nat2Z.id.
  rewrite length_fmap in Hd.
  destruct (dup_loop_ok _ _ xs Ri Hv xs [] (ZSet h ∅ z) [] rnd n) as (zs' & rnd' & vs' & Hl & Hr);
    [by rewrite app_nil_r| |apply vals_ok_nil|done|done|].
  { exists []. split; [done|]. split; [done|]. intros k p. split; [done|].
    intros (x & Hx & _). by apply not_elem_of_nil in Hx. }
  rewrite Hl. rs. by exists zs', rnd', vs'.
Qed.

Lemma dup_listpack_ok zl vs rnd :
  lp_holds zl vs → ∃ zl', zsetDup rnd (ZListpack zl) = Ok (ZListpack zl', rnd) ∧ lp_holds zl' vs.
Proof.
  intros (ps & (num & slack & -> & Hwf) & Hr). cbn [zsetDup].
  destruct (dup_ok num (flat ps) slack Hwf) as (slack' & Hd). unfold lpDup in Hd.
  destruct (lpBytes _) as [sz|]; [|done]. cbn [mbind res_bind] in Hd |- *.
  destruct (mem_read _ 0 sz) as [bytes|]; [|done]. cbn [mbind res_bind] in Hd |- *. rewrite Hd. rs.
  eexists. split; [done|]. exists ps. split; [|done]. by exists num, slack'.
Qed.
End dup.
