(* ===== verification/ZsetSpec.v ===== *)
(** The contract of sorted sets: every operation of [Zset] on a map from elements
    to scores, whichever encoding the object has. *)

From S2P Require Import Prelude Numstr Sds Listpack LpNav LpMod LpFind LpRange LpApi Skiplist.
From S2P Require Import SklRep SklMod SklDel SklUpd SklRank Double Zzl ZzlRep ZzlMod Zset.
From S2P Require Import ZsetRep ZsetSkl ZsetConv.
From Stdlib Require Import SpecFloat.

(** ** Specification *)

(** What [ZADD] of one element does to the map, and what it reports *)
Definition zadd_spec (M : zabs) (score : double) (ele : list Z) (flags : Z) : zabs * zadd_result :=
  let on flag := negb (Z.land flags flag =? 0) in
  if isnan score then (M, ZAdd false ZADD_OUT_NAN None) else
  match M !! ele with
  | None =>
      if on ZADD_IN_XX then (M, ZAdd true ZADD_OUT_NOP None)
      else (<[ele := canon score]> M, ZAdd true ZADD_OUT_ADDED (Some (canon score)))
  | Some cur =>
      let new := if on ZADD_IN_INCR then double_add score cur else score in
      if on ZADD_IN_NX then (M, ZAdd true ZADD_OUT_NOP None)
      else if isnan new then (M, ZAdd false ZADD_OUT_NAN None)
      else if (on ZADD_IN_GT && negb (SFltb cur new)) || (on ZADD_IN_LT && negb (SFltb new cur))
      then (M, ZAdd true ZADD_OUT_NOP None)
      else (<[ele := canon new]> M,
            ZAdd true (if SFeqb new cur then 0 else ZADD_OUT_UPDATED) (Some (canon new)))
  end.

(** Results are compared up to equality of the score. *)
Definition canon_result (r : zadd_result) : zadd_result :=
  ZAdd (za_ret r) (za_out_flags r) (canon <$> za_newscore r).

#[export] Instance vlt_dec v w : Decision (vlt v w).
Proof. unfold vlt. apply _. Defined.

(** The number of elements before the element [e] with the score [s] *)
Definition zrank_spec (M : zabs) (e : list Z) (s : double) : nat :=
  size (filter (λ es : list Z * double, vlt (es.2, es.1) (s, e)) M).

(** ** Existing elements *)

Lemma SFleb_ltb a b : isnan a = false → isnan b = false → SFleb a b = negb (SFltb b a).
Proof.
  intros Ha Hb. rewrite SFleb_key, SFltb_key, (lexcmp_opp (fkey a)) by done. lia.
Qed.

Lemma existing_spec M flags score cur ele :
  score_ok score → score_ok cur → M !! ele = Some (canon cur) →
  match zadd_existing flags score cur with
  | ZRet ret out => zadd_spec M score ele flags = (M, ZAdd ret out None)
  | ZScore s => score_ok s ∧
      zadd_spec M score ele flags =
        (<[ele := canon s]> M, ZAdd true (if SFeqb s cur then 0 else ZADD_OUT_UPDATED) (Some (canon s)))
  end.
Proof.
  intros [Hn Hv] [Hcn Hcv] HM. unfold zadd_existing, zadd_spec. rewrite Hn, HM.
  destruct (negb (Z.land flags ZADD_IN_NX =? 0)); [done|].
  set (incr := negb (Z.land flags ZADD_IN_INCR =? 0)).
  set (s := if incr then double_add score cur else score).
  assert ((if incr then double_add score (canon cur) else score) = s ∨
          canon (if incr then double_add score (canon cur) else score) = canon s) as Hs0.
  { unfold s. destruct incr; [right; apply double_add_canon|by left]. }
  set (s' := if incr then double_add score (canon cur) else score) in *.
  assert (canon s' = canon s) as Hs by (destruct Hs0 as [-> |]; done). clear Hs0.
  assert (isnan s' = isnan s) as Hnn by by rewrite <- isnan_canon, Hs, isnan_canon.
  assert (valid_double s = true) as Hsv by (unfold s; destruct incr; [by apply double_add_valid|done]).
  rewrite Hnn. assert (incr = false → isnan s = false) as Hinc by (unfold s; by intros ->).
  destruct (isnan s) eqn:En; [destruct incr; [done|by specialize (Hinc eq_refl)]|]. rewrite andb_false_r.
  rewrite !SFleb_ltb by done.
  assert (∀ a, SFltb a s' = SFltb a s) as L1 by (intros a; by rewrite <- (SFltb_canon a s'), Hs, SFltb_canon).
  assert (∀ a, SFltb s' a = SFltb s a) as L2 by (intros a; by rewrite <- (SFltb_canon s' a), Hs, SFltb_canon).
  assert (SFeqb s' (canon cur) = SFeqb s cur) as ->
    by (rewrite <- (SFeqb_canon s'), Hs, canon_idem, SFeqb_canon; done).
  rewrite L1, L2.
  assert (SFltb (canon cur) s = SFltb cur s) as -> by (rewrite <- SFltb_canon, canon_idem, SFltb_canon; done).
  assert (SFltb s (canon cur) = SFltb s cur) as -> by (rewrite <- SFltb_canon, canon_idem, SFltb_canon; done).
  rewrite (orb_comm (_ && _)). destruct (_ || _); [done|]. by rewrite Hs.
Qed.

(** ** Ranks *)

Lemma zmap_filter (vs : list value) (P : value → Prop) `{∀ v, Decision (P v)} :
  NoDup (eles vs) → (∀ s s' e, canon s = canon s' → P (s, e) ↔ P (s', e)) →
  filter (λ es : list Z * double, P (es.2, es.1)) (zmap vs) = zmap (filter P vs).
Proof.
  intros Hnd HP. induction vs as [|v vs IH]; [done|]. rewrite fmap_cons in Hnd. apply NoDup_cons in Hnd as [Hn Hnd].
  pose proof (zmap_insert [] v vs Hn) as E. cbn [app] in E. rewrite E.
  assert (P (canon v.1, v.2) ↔ P v) as Hv.
  { rewrite (HP (canon v.1) v.1) by apply canon_idem. by destruct v. }
  destruct (decide (P v)) as [Hp|Hp].
  - rewrite map_filter_insert_True by (by apply Hv). rewrite filter_cons_True by done.
    rewrite IH by done. symmetry. apply (zmap_insert [] v). cbn [app].
    intros (w & Ew & Hw)%list_elem_of_fmap. apply Hn. rewrite Ew. apply list_elem_of_fmap_2.
    by apply list_elem_of_filter in Hw as [_ ?].
  - rewrite map_filter_insert_False by (by rewrite Hv). rewrite filter_cons_False by done.
    rewrite delete_id by (by apply zmap_lookup_None). by apply IH.
Qed.

Lemma vlt_canon s s' e w : canon s = canon s' → vlt (s, e) w ↔ vlt (s', e) w.
Proof. intros E%fkey_canon. unfold vlt, vkey, zkey. cbn. by rewrite E. Qed.
Lemma vlt_canon_r s s' e w : canon s = canon s' → vlt w (s, e) ↔ vlt w (s', e).
Proof. intros E%fkey_canon. unfold vlt, vkey, zkey. cbn. by rewrite E. Qed.

(** The rank is the position in the sequence. *)
Lemma zrank_position l s e r :
  vals_ok (l ++ (s, e) :: r) → zrank_spec (zmap (l ++ (s, e) :: r)) e (canon s) = length l.
Proof.
  intros Hv. unfold zrank_spec.
  etransitivity; [apply f_equal, (@zmap_filter _ (λ v, vlt v (canon s, e)) (λ v, vlt_dec v _));
    [apply Hv|intros; by apply vlt_canon]|].
  assert (filter (λ v, vlt v (canon s, e)) (l ++ (s, e) :: r) = l) as ->.
  { pose proof (vals_sorted _ Hv) as HS. apply StronglySorted_app in HS as (H1 & _ & H3).
    apply StronglySorted_inv in H3 as [_ H3].
    assert (∀ v, vlt v (canon s, e) ↔ vlt v (s, e)) as Hc by (intros; apply vlt_canon_r, canon_idem).
    assert (∀ v, ¬ vlt v v) as Hirr by (intros v; unfold vlt; rewrite lexcmp_refl; lia).
    rewrite filter_app, filter_cons_False by (rewrite Hc; apply Hirr).
    assert (filter (λ v, vlt v (canon s, e)) l = l) as ->.
    { apply filter_Forall_true, Forall_forall. intros v Hin. apply Hc, H1; [done|by left]. }
    assert (filter (λ v, vlt v (canon s, e)) r = []) as ->; [|by rewrite app_nil_r].
    apply filter_Forall_false. eapply Forall_impl; [exact H3|]. intros v Hse Hlt%Hc.
    by apply (Hirr v), (vlt_trans v (s, e) v). }
  apply zmap_size. pose proof (vals_nodup _ Hv) as Hnd. rewrite fmap_app in Hnd. by apply NoDup_app in Hnd as [? _].
Qed.

(** ** [zsetAdd] *)

Section add.
Context `{Allocator} `{NodeAlloc} `{FloatTextLaws} `{Server}.

(** The specified result of an operation that adds an element *)
Definition adds (vs : list value) (score : double) (ele : list Z) (flags : Z) (k : nat)
    (run : res (zobj * list Z * zadd_result)) : Prop :=
  ∃ o' rnd' r, run = Ok (o', rnd', r) ∧
    zset_abs o' (zadd_spec (zmap vs) score ele flags).1 ∧
    canon_result r = (zadd_spec (zmap vs) score ele flags).2 ∧ (k ≤ draws rnd')%nat.

Lemma zmap_in vs s e : vals_ok vs → (s, e) ∈ vs → zmap vs !! e = Some (canon s) ∧ score_ok s.
Proof.
  intros Hv Hin. split; [apply zmap_lookup; [apply Hv|eauto]|].
  pose proof (vals_each _ Hv) as Hall. rewrite Forall_forall in Hall. by apply Hall in Hin as [? _].
Qed.

Lemma abs_skl zs vs : skl_holds zs vs → vals_ok vs → zset_abs (ZSkiplist zs) (zmap vs).
Proof. intros Hh Hv. by exists vs. Qed.
Lemma abs_lp zl vs : lp_holds zl vs → vals_ok vs → zset_abs (ZListpack zl) (zmap vs).
Proof. intros Hh Hv. by exists vs. Qed.

Lemma add_skiplist_ok zs vs rnd score ele flags k :
  skl_holds zs vs → vals_ok vs → score_ok score → ele_ok ele →
  zlen vs + 1 < INT64_MAX → (S k ≤ draws rnd)%nat →
  adds vs score ele flags k (zadd_skiplist rnd zs score ele flags).
Proof.
  intros Hh Hv Hs He Hlen Hk. pose proof Hh as (xs & R & E & Hd). unfold zadd_skiplist.
  destruct (skl_find zs xs ele R Hd) as [[Hn ->]|(x & xs1 & xs2 & -> & Hx & -> & n & -> & Hns)].
  - rewrite <- eval_ele, E in Hn. pose proof Hn as HM. apply zmap_lookup_None in HM.
    unfold adds, zadd_spec. rewrite (proj1 Hs), HM. destruct (Z.land flags ZADD_IN_XX =? 0); cbn [negb].
    + destruct (skl_insert_ok zs vs score ele rnd k) as (h & z & p & rnd' & vs' & Hi & Hh' & Hv' & Hm & Hk'); [done..|].
      rewrite Hi. rs. eexists _, _, _. split; [done|]. split; [|done]. cbn [fst]. rewrite <- Hm. by apply abs_skl.
    + eexists _, _, _. split; [done|]. split; [by apply abs_skl|]. split; [done|lia].
  - rs. rewrite Hns. subst vs. destruct (zmap_in (eval <$> (xs1 ++ x :: xs2)) (ze_score x) ele) as [HM Hxs]; [done| |].
    { apply list_elem_of_fmap. exists x. split; [by rewrite <- Hx|]. set_solver. }
    pose proof (existing_spec _ flags score (ze_score x) ele Hs Hxs HM) as Hex.
    destruct (zadd_existing flags score (ze_score x)) as [ret out|s].
    + unfold adds. rewrite Hex. eexists _, _, _. split; [done|]. split; [by apply abs_skl|]. split; [done|lia].
    + destruct Hex as [Hsok Hex]. unfold adds. rewrite Hex. destruct (SFeqb s (ze_score x)) eqn:Eq; cbn [negb].
      * eexists _, _, _. split; [done|]. split; [|split; [done|lia]]. cbn [fst].
        apply SFeqb_canon_eq in Eq; [|apply Hsok|apply Hxs]. rewrite Eq, insert_id by done. by apply abs_skl.
      * destruct (skl_update_ok zs xs1 x xs2 s) as (h & z & vs' & -> & Hh' & Hv' & Hm); [done..|]. rs.
        eexists _, _, _. split; [done|]. split; [|split; [done|lia]]. cbn [fst]. rewrite <- Hx, <- Hm.
        by apply abs_skl.
Qed.

(** A listpack that is extended stays below the limit of its size. *)
Lemma safe_room zl ps ele :
  zzl_rep zl ps → Forall pair_ok ps → zset_max_listpack_entries ≤ 2 ^ 26 →
  lpSafeToAdd (Some zl) (zlen ele) = Ok true → zlen ps + 1 ≤ zset_max_listpack_entries →
  zlen ele < 2 ^ 31 → lp_room (zvals ps) + lp_cost ele ≤ UINT32_MAX.
Proof.
  intros R Hok Hmax Hsafe Hn He. pose proof (api_total R) as Ht. pose proof (lp_room_bound ps Hok).
  pose proof (lp_cost_range ele). unfold lpSafeToAdd in Hsafe. pose proof (api_bytes R) as Hb. unfold lpBytes in Hb.
  rewrite Hb in Hsafe. cbn [mbind res_bind] in Hsafe. injection Hsafe as Hsafe.
  assert (0 ≤ lp_total (flat ps)) by (unfold lp_total; change LP_HDR_SIZE with 6; lia).
  rewrite u64_small in Hsafe by lia. change LISTPACK_MAX_SAFETY_SIZE with (2 ^ 30) in Hsafe. lia.
Qed.

Lemma lp_holds_len zl vs : lp_holds zl vs → zlen vs < 2 ^ 30.
Proof.
  intros (ps & R & <- & _). destruct R as (num & slack & _ & Hwf). destruct Hwf as (Hok & Ht & _).
  pose proof (lp_body_count _ Hok) as Hc. rewrite length_pflat in Hc. unfold lp_total in Ht.
  unfold zvals. rewrite length_fmap. change LP_HDR_SIZE with 6 in Ht. lia.
Qed.

Lemma add_listpack_new zl vs rnd score ele flags k :
  lp_holds zl vs → vals_ok vs → score_ok score → ele_ok ele → zset_max_listpack_entries ≤ 2 ^ 26 →
  (ele ∉ eles vs) → Z.land flags ZADD_IN_XX = 0 → (S (length vs) + k ≤ draws rnd)%nat →
  adds vs score ele flags k
    ('(len, zl) ← zzlLength zl;
     safe ← lpSafeToAdd (Some zl) (zlen ele);
     if (len + 1 >? zset_max_listpack_entries) || (zlen ele >? zset_max_listpack_value) || negb safe
     then
       '(n, o) ← zsetLength (ZListpack zl);
       '(o, rnd) ← zsetConvertAndExpand rnd o OBJ_ENCODING_SKIPLIST (n + 1);
       match o with
       | ZSkiplist zs => zadd_skiplist rnd zs score ele flags
       | ZListpack _ => Fault AssertFailed
       end
     else
       zl ← zzlInsert zl ele score;
       zl ← lp_nonnull zl;
       Ok (ZListpack zl, rnd, ZAdd true ZADD_OUT_ADDED (Some score))).
Proof.
  intros (ps & R & <- & Hok & Hroom) Hv Hs He Hmax Hn Hxx Hk.
  destruct (zz_length R) as (zl1 & -> & R1). rs.
  assert (lp_holds zl1 (zvals ps)) as Hh1 by by exists ps. pose proof (lp_holds_len _ _ Hh1) as Hlen.
  destruct (lpSafeToAdd (Some zl1) (zlen ele)) as [safe|f] eqn:Esafe.
  2:{ unfold lpSafeToAdd in Esafe. pose proof (api_bytes R1) as Hb. unfold lpBytes in Hb. by rewrite Hb in Esafe. }
  rs. destruct (_ || negb safe) eqn:Ec.
  - cbn [zsetLength]. destruct (zz_length R1) as (zl2 & -> & R2). rs.
    destruct (to_skiplist_ok zl2 (zvals ps) rnd (zlen ps + 1) (S k)) as (zs & rnd' & vs' & -> & Hh & Hv' & Hm & Hk');
      [by exists ps|done|lia|lia|]. rs.
    assert (zlen vs' = zlen (zvals ps)) as Hl.
    { pose proof (f_equal size Hm) as Hz. rewrite !zmap_size in Hz by (apply Hv || apply Hv'). lia. }
    pose proof (add_skiplist_ok zs vs' rnd' score ele flags k Hh Hv' Hs He ltac:(lia) Hk') as Ha.
    unfold adds in *. by rewrite Hm in Ha.
  - apply orb_false_elim in Ec as [Ec Hsf]. apply orb_false_elim in Ec as [Ec _].
    apply negb_false_iff in Hsf as ->.
    destruct (lp_insert_ok zl1 (zvals ps) score ele) as (zl' & vs' & -> & Hh' & Hv' & Hm); [done..| |].
    { eapply safe_room; [done|done|done|done| |apply He]. lia. }
    rs. cbn [lp_nonnull]. rs. unfold adds, zadd_spec. rewrite (proj1 Hs). pose proof Hn as HM.
    apply zmap_lookup_None in HM. rewrite HM, Hxx. cbn [negb Z.eqb fst snd]. eexists _, _, _.
    split; [done|]. split; [rewrite <- Hm; by apply abs_lp|]. split; [done|lia].
Qed.

Lemma add_listpack_ok zl vs rnd score ele flags k :
  lp_holds zl vs → vals_ok vs → score_ok score → ele_ok ele → zset_max_listpack_entries ≤ 2 ^ 26 →
  (S (length vs) + k ≤ draws rnd)%nat →
  adds vs score ele flags k (zsetAdd rnd (ZListpack zl) score ele flags).
Proof.
  intros Hh Hv Hs He Hmax Hk. pose proof Hh as (ps & R & E & Hok & Hroom). unfold zsetAdd. rewrite (proj1 Hs).
  destruct (lp_find_ok zl ps ele true R) as [[Hn ->]|(i & p & Hp & Hx & ->)]; rs.
  - rewrite E in Hn. destruct (Z.land flags ZADD_IN_XX =? 0) eqn:Exx.
    + apply Z.eqb_eq in Exx. by apply add_listpack_new.
    + unfold adds, zadd_spec. rewrite (proj1 Hs). pose proof Hn as HM. apply zmap_lookup_None in HM.
      rewrite HM, Exx. eexists _, _, _. split; [done|]. split; [by apply abs_lp|]. split; [done|lia].
  - cbn [nonnull]. rs. subst vs. destruct (zmap_in (zvals ps) (ent_score p.2) ele) as [HM Hxs]; [done| |].
    { rewrite <- Hx. by eapply list_elem_of_lookup_2, zvals_lookup. }
    pose proof (existing_spec _ flags score (ent_score p.2) ele Hs Hxs HM) as Hex.
    destruct (zadd_existing flags score (ent_score p.2)) as [ret out|s].
    + unfold adds. rewrite Hex. eexists _, _, _. split; [done|]. split; [by apply abs_lp|]. split; [done|lia].
    + destruct Hex as [Hsok Hex]. unfold adds. rewrite Hex. destruct (SFeqb s (ent_score p.2)) eqn:Eq; cbn [negb].
      * eexists _, _, _. split; [done|]. split; [|split; [done|lia]]. cbn [fst].
        apply SFeqb_canon_eq in Eq; [|apply Hsok|apply Hxs]. rewrite Eq, insert_id by done. by apply abs_lp.
      * destruct (lp_delete_ok zl ps i p) as (zl1 & vs1 & -> & Hh1 & Hv1 & Hm1 & Hn1 & Hr1); [done..|]. rs.
        rewrite Hx in Hm1, Hn1, Hr1.
        destruct (lp_insert_ok zl1 vs1 s ele) as (zl2 & vs2 & -> & Hh2 & Hv2 & Hm2); [done..|lia|]. rs.
        cbn [lp_nonnull]. rs. eexists _, _, _. split; [done|]. split; [|split; [done|lia]]. cbn [fst].
        rewrite <- (insert_delete_eq (zmap (zvals ps))), <- Hm1, <- Hm2. by apply abs_lp.
Qed.
End add.
