(* ===== verification/ZsetApi.v ===== *)
(** The operations of sorted sets against the map of their elements: what
    [zset_abs] says about each of them, for both encodings. *)

From S2P Require Import Prelude Numstr Sds Listpack LpNav LpMod LpFind LpRange LpApi Skiplist.
From S2P Require Import SklRep SklMod SklDel SklUpd SklRank Double Zzl ZzlRep ZzlMod Zset.
From S2P Require Import ZsetRep ZsetSkl ZsetConv ZsetSpec.
From Stdlib Require Import SpecFloat.

Section api.
Context `{Allocator} `{NodeAlloc} `{FloatTextLaws} `{Server}.

(** ** Reading *)

Lemma abs_size o vs : zset_rep o vs → size (zmap vs) = length vs.
Proof. intros [Hv _]. apply zmap_size, Hv. Qed.

Lemma zset_length_ok o M : zset_abs o M →
  ∃ o', zsetLength o = Ok (Z.of_nat (size M), o') ∧ zset_abs o' M ∧ zencoding o' = zencoding o.
Proof.
  intros (vs & Hr & <-). rewrite (abs_size o vs Hr). destruct Hr as [Hv Hh]. destruct o as [zl|zs].
  - destruct Hh as (ps & R & <- & Hok & Hroom). cbn [zsetLength].
    destruct (zz_length R) as (zl' & -> & R'). rs. exists (ZListpack zl'). unfold zvals at 1. rewrite length_fmap.
    split; [done|]. split; [|done]. apply abs_lp; [|done]. by exists ps.
  - exists (ZSkiplist zs). pose proof Hh as (xs & R & <- & Hd). cbn [zsetLength].
    rewrite (rep_length _ _ _ (proj1 R)), length_fmap. split; [done|]. split; [|done]. by apply abs_skl.
Qed.

Lemma score_ok_spec o M e : zset_abs o M →
  ∃ r, zsetScore o e = Ok r ∧ canon <$> r = M !! e.
Proof.
  intros (vs & [Hv Hh] & <-). destruct o as [zl|zs].
  - destruct Hh as (ps & R & <- & Hok & Hroom). cbn [zsetScore].
    destruct (lp_find_ok zl ps e true R) as [[Hn ->]|(i & p & Hp & Hx & ->)]; rs; eexists; (split; [done|]).
    + symmetry. by apply zmap_lookup_None.
    + symmetry. apply (zmap_in (zvals ps) (ent_score p.2) e Hv). rewrite <- Hx.
      by eapply list_elem_of_lookup_2, zvals_lookup.
  - destruct Hh as (xs & R & <- & Hd). cbn [zsetScore].
    destruct (skl_find zs xs e R Hd) as [[Hn ->]|(x & xs1 & xs2 & -> & Hx & -> & n & -> & Hns)]; rs;
      eexists; (split; [done|]).
    + symmetry. apply zmap_lookup_None. by rewrite eval_ele.
    + cbn [fmap option_fmap option_map]. rewrite Hns. symmetry. apply (zmap_in _ _ _ Hv).
      apply list_elem_of_fmap. exists x. split; [by rewrite <- Hx|]. set_solver.
Qed.

(** ** Removal *)

Lemma del_ok o M e : zset_abs o M →
  ∃ o', zsetDel o e = Ok (o', bool_decide (is_Some (M !! e))) ∧ zset_abs o' (delete e M) ∧
    zencoding o' = zencoding o.
Proof.
  intros (vs & [Hv Hh] & <-). destruct o as [zl|zs].
  - pose proof Hh as (ps & R & <- & Hok & Hroom). cbn [zsetDel].
    destruct (lp_find_ok zl ps e false R) as [[Hn ->]|(i & p & Hp & Hx & ->)]; rs.
    + apply zmap_lookup_None in Hn. rewrite Hn. exists (ZListpack zl). split; [done|].
      rewrite delete_id by done. split; [|done]. by apply abs_lp.
    + destruct (lp_delete_ok zl ps i p) as (zl1 & vs1 & -> & Hh1 & Hv1 & Hm1 & _); [done..|]. rs.
      rewrite Hx in Hm1. exists (ZListpack zl1). rewrite <- Hm1.
      destruct (zmap_in (zvals ps) (ent_score p.2) e Hv) as [-> _].
      { rewrite <- Hx. by eapply list_elem_of_lookup_2, zvals_lookup. }
      split; [done|]. split; [|done]. by apply abs_lp.
  - pose proof Hh as (xs & R & <- & Hd). cbn [zsetDel]. unfold zsetRemoveFromSkiplist, zdict_unlink.
    destruct (skl_find zs xs e R Hd) as [[Hn Ef]|(x & xs1 & xs2 & -> & Hx & Ef & n & Hnd & Hns)];
      unfold zdict_find in Ef; rewrite Ef; rs.
    + rewrite <- eval_ele in Hn. apply zmap_lookup_None in Hn. rewrite Hn. exists (ZSkiplist zs).
      split; [done|]. rewrite delete_id by done. split; [|done]. by apply abs_skl.
    + destruct (skl_delete_ok zs xs1 x xs2) as (h & z & -> & Hh1 & Hv1 & Hm1); [done..|]. rs.
      rewrite Hx in Hm1, Hh1. eexists. rewrite <- Hm1.
      destruct (zmap_in (eval <$> (xs1 ++ x :: xs2)) (ze_score x) e Hv) as [-> _].
      { apply list_elem_of_fmap. exists x. split; [by rewrite <- Hx|]. set_solver. }
      split; [done|]. split; [|done]. by apply abs_skl.
Qed.

(** ** Addition *)

Lemma add_nan_ok o M rnd score e flags : zset_abs o M → isnan score = true →
  zsetAdd rnd o score e flags = Ok (o, rnd, ZAdd false ZADD_OUT_NAN None) ∧
  zadd_spec M score e flags = (M, ZAdd false ZADD_OUT_NAN None).
Proof. intros HM Hn. unfold zsetAdd, zadd_spec. by rewrite Hn. Qed.

Lemma add_ok o M rnd score e flags k :
  zset_abs o M → valid_double score = true → ele_ok e → zset_max_listpack_entries ≤ 2 ^ 26 →
  Z.of_nat (size M) + 1 < INT64_MAX → (S (size M) + k ≤ draws rnd)%nat →
  ∃ o' rnd' r, zsetAdd rnd o score e flags = Ok (o', rnd', r) ∧
    zset_abs o' (zadd_spec M score e flags).1 ∧ canon_result r = (zadd_spec M score e flags).2 ∧
    (k ≤ draws rnd')%nat.
Proof.
  intros HM Hvd He Hmax Hsz Hk. destruct (isnan score) eqn:En.
  { destruct (add_nan_ok o M rnd score e flags HM En) as [-> ->]. eexists _, _, _.
    split; [done|]. split; [done|]. split; [done|lia]. }
  destruct HM as (vs & Hr & <-). rewrite (abs_size o vs Hr) in *. destruct Hr as [Hv Hh].
  assert (score_ok score) as Hs by done. destruct o as [zl|zs].
  - by apply add_listpack_ok.
  - cbn [zsetAdd]. unfold zsetAdd. rewrite En. apply add_skiplist_ok; [done..|lia].
Qed.

(** When the specification reports an error *)
Lemma spec_error M score e flags :
  za_ret (zadd_spec M score e flags).2 = false ↔
    isnan score = true ∨
    (Z.land flags ZADD_IN_INCR ≠ 0 ∧ Z.land flags ZADD_IN_NX = 0 ∧
     ∃ cur, M !! e = Some cur ∧ isnan (double_add score cur) = true).
Proof.
  unfold zadd_spec. destruct (isnan score) eqn:En; [naive_solver|]. cbv zeta.
  destruct (M !! e) as [cur|] eqn:EM; [|destruct (negb _); naive_solver].
  destruct (Z.eqb_spec (Z.land flags ZADD_IN_NX) 0) as [Ex|Ex]; cbn [negb]; [|naive_solver].
  destruct (Z.eqb_spec (Z.land flags ZADD_IN_INCR) 0) as [Ei|Ei]; cbn [negb].
  - rewrite En. destruct (_ || _); naive_solver.
  - destruct (isnan (double_add score cur)) eqn:Ea; [naive_solver|]. destruct (_ || _); naive_solver.
Qed.

Lemma existing_error flags score cur :
  score_ok score → score_ok cur → Z.land flags ZADD_IN_INCR ≠ 0 → Z.land flags ZADD_IN_NX = 0 →
  isnan (double_add score (canon cur)) = true → zadd_existing flags score cur = ZRet false ZADD_OUT_NAN.
Proof.
  intros Hs Hc Hi Hx Hn. rewrite <- isnan_canon, double_add_canon, isnan_canon in Hn. unfold zadd_existing.
  replace (Z.land flags ZADD_IN_NX =? 0) with true by lia. replace (Z.land flags ZADD_IN_INCR =? 0) with false by lia.
  cbn [negb]. by rewrite Hn.
Qed.

Lemma add_error_same o M rnd score e flags o' rnd' r :
  zset_abs o M → valid_double score = true →
  isnan score = true ∨
    (Z.land flags ZADD_IN_INCR ≠ 0 ∧ Z.land flags ZADD_IN_NX = 0 ∧
     ∃ cur, M !! e = Some cur ∧ isnan (double_add score cur) = true) →
  zsetAdd rnd o score e flags = Ok (o', rnd', r) → o' = o ∧ rnd' = rnd ∧ r = ZAdd false ZADD_OUT_NAN None.
Proof.
  intros HM Hvd Herr. unfold zsetAdd. destruct (isnan score) eqn:En; [by intros [= <- <- <-]|].
  destruct Herr as [?|(Hi & Hx & c & Hc & Hn)]; [done|]. destruct HM as (vs & [Hv Hh] & <-).
  assert (∀ s, (s, e) ∈ vs → zadd_existing flags score s = ZRet false ZADD_OUT_NAN) as Hex.
  { intros s Hin. destruct (zmap_in vs s e Hv Hin) as [Hm Hs]. rewrite Hm in Hc. injection Hc as <-.
    by apply existing_error. }
  assert (e ∈ eles vs) as Hin.
  { destruct (decide (e ∈ eles vs)) as [|Hno]; [done|]. apply zmap_lookup_None in Hno. congruence. }
  destruct o as [zl|zs].
  - destruct Hh as (ps & R & <- & _). destruct (lp_find_ok zl ps e true R) as [[Hno _]|(i & p & Hp & Hxe & ->)]; [done|].
    cbn [mbind res_bind nonnull]. rewrite Hex; [by intros [= <- <- <-]|].
    rewrite <- Hxe. by eapply list_elem_of_lookup_2, zvals_lookup.
  - destruct Hh as (xs & R & <- & Hd). unfold zadd_skiplist. rewrite eval_ele in Hin.
    destruct (skl_find zs xs e R Hd) as [[Hno _]|(x & xs1 & xs2 & -> & Hxe & -> & n & -> & Hns)]; [done|].
    cbn [mbind res_bind]. rewrite Hns, Hex; [by intros [= <- <- <-]|].
    apply list_elem_of_fmap. exists x. split; [by rewrite <- Hxe|]. set_solver.
Qed.

(** ** Ranks *)

Lemma rank_loop_ok zl ps e : zzl_rep zl ps → zlen ps < 2 ^ 31 →
  ∀ qs k cache fuel, drop k ps = qs → (k ≤ length ps)%nat → (length qs < fuel)%nat → cache_ok e cache →
  ((e ∉ eles (zvals qs)) ∧
     rank_loop fuel zl e cache (zz_ptr ps k) (zz_sptr ps k) (Z.of_nat k + 1) =
       Ok (None, None, zlen ps + 1)) ∨
  (∃ i p, ps !! i = Some p ∧ ent_str p.1 = e ∧
     rank_loop fuel zl e cache (zz_ptr ps k) (zz_sptr ps k) (Z.of_nat k + 1) =
       Ok (zz_ptr ps i, zz_sptr ps i, Z.of_nat i + 1)).
Proof.
  intros R Hlen. induction qs as [|q qs IH]; intros k cache fuel Hq Hk Hf Hc.
  - assert (length ps ≤ k)%nat by (pose proof (f_equal length Hq) as Hl; rewrite length_drop in Hl; cbn in Hl; lia).
    rewrite zz_ptr_none by done. unfold zz_sptr. rewrite decide_False by lia. left. split; [apply not_elem_of_nil|].
    replace k with (length ps) by lia. by destruct fuel.
  - assert (ps !! k = Some q) as Hkq by (by rewrite <- (Nat.add_0_r k), <- lookup_drop, Hq).
    pose proof (lookup_lt_Some _ _ _ Hkq) as Hlt. destruct fuel as [|fuel]; [cbn in Hf; lia|].
    rewrite zz_ptr_some by done. cbn [rank_loop].
    destruct (lpCompare_spec zl (flat ps) (2 * k) q.1 (zz_at ps k) e cache R) as (cache' & -> & Hc');
      [by apply flat_lookup_ele|by rewrite zz_ptr_lp, zz_ptr_some|done|]. rs.
    destruct (zz_ents_ok R k q Hkq) as [Ho _]. rewrite (ent_matches_str e q.1 Ho).
    case_bool_decide as Hm.
    + right. exists k, q. by rewrite zz_ptr_some.
    + rewrite <- zz_ptr_some by done. rewrite (zz_next R k q Hkq). rs. rewrite u64_small by lia.
      replace (Z.of_nat k + 1 + 1) with (Z.of_nat (S k) + 1) by lia.
      destruct (IH (S k) cache' fuel) as [[Hn E]|Hfound]; [| lia|cbn in Hf; lia|done| |by right].
      * by rewrite <- Nat.add_1_r, <- drop_drop, Hq.
      * left. split; [|done]. unfold zvals. rewrite !fmap_cons. apply not_elem_of_cons. split; [|done].
        intros He. by apply Hm.
Qed.

(** The rank that [zsetRank] reports *)
Definition rank_result (M : zabs) (e : list Z) (reverse : bool) : Z * option double :=
  match M !! e with
  | Some s =>
      let r := Z.of_nat (zrank_spec M e s) in
      (if reverse then Z.of_nat (size M) - 1 - r else r, Some s)
  | None => (-1, None)
  end.

Lemma rank_found vs s e l r reverse :
  vs = l ++ (s, e) :: r → vals_ok vs → zlen vs < INT64_MAX →
  rank_result (zmap vs) e reverse =
    (if reverse then s64 (zlen vs - (zlen l + 1)) else s64 (zlen l + 1 - 1), Some (canon s)).
Proof.
  intros E Hv Hlen. unfold rank_result.
  destruct (zmap_in vs s e Hv) as [-> _]; [rewrite E; set_solver|].
  rewrite zmap_size by apply Hv. subst vs. rewrite zrank_position by done.
  rewrite length_app in *. cbn [length] in *.
  destruct reverse; rewrite s64_small by (unfold is_i64; lia); f_equal; lia.
Qed.

Lemma rank_ok o M e reverse :
  zset_abs o M → M ≠ ∅ → Z.of_nat (size M) < INT64_MAX →
  ∃ o' s, zsetRank o e reverse = Ok (o', (rank_result M e reverse).1, s) ∧
    canon <$> s = (rank_result M e reverse).2 ∧ zset_abs o' M.
Proof.
  intros HM Hne Hsz. destruct (zset_length_ok o M HM) as (o' & Hl & HM' & Henc). unfold zsetRank. rewrite Hl. rs.
  clear Hl Henc o HM. destruct HM' as (vs & Hr & <-). rewrite (abs_size o' vs Hr) in *.
  destruct Hr as [Hv Hh]. destruct o' as [zl|zs].
  - pose proof (lp_holds_len _ _ Hh) as Hlen. pose proof Hh as (ps & R & <- & Hok & Hroom).
    unfold zvals in Hlen. rewrite length_fmap in Hlen.
    destruct ps as [|p0 ps']; [done|]. set (ps := p0 :: ps') in *.
    assert (ps !! 0%nat = Some p0) as Hp0 by done. rewrite (zz_seek_first R), zz_ptr_some by (cbn; lia). rs. cbn [nonnull]. rs.
    rewrite (zz_next_score R _ _ Hp0). rs. cbn [nonnull]. rs. rewrite <- zz_ptr_some, <- zz_sptr_some by (cbn; lia).
    pose proof (zz_count R) as Hcnt.
    pose proof (rank_loop_ok zl ps e R ltac:(lia) ps 0 (Some (0, 0)) (length zl)) as Hloop.
    change (Z.of_nat 0 + 1) with 1 in Hloop.
    destruct Hloop as [[Hn ->]|(i & p & Hp & Hx & ->)];
      [done|lia|cbn in Hcnt |- *; lia|intros v k [= <- <-]; by left| |]; rs.
    + apply zmap_lookup_None in Hn. unfold rank_result. rewrite Hn. eexists _, _. split; [done|]. split; [done|].
      by apply abs_lp.
    + pose proof (lookup_lt_Some _ _ _ Hp). rewrite zz_ptr_some, zz_sptr_some, (zz_get_score R i p Hp) by done. rs.
      rewrite (rank_found (zvals ps) (ent_score p.2) e (zvals (take i ps)) (zvals (drop (S i) ps)) reverse); [|  |done|done].
      * unfold zvals. rewrite !length_fmap, length_take_le by lia. eexists _, _. split; [done|]. split; [done|]. by apply abs_lp.
      * unfold zvals. rewrite <- (take_drop_middle ps i p Hp) at 1. rewrite fmap_app, fmap_cons. by rewrite <- Hx.
  - pose proof Hh as (xs & R & <- & Hd).
    destruct (skl_find zs xs e R Hd) as [[Hn ->]|(x & xs1 & xs2 & -> & Hx & -> & n & Hnd & Hns)]; rs.
    + rewrite <- eval_ele in Hn. apply zmap_lookup_None in Hn. unfold rank_result. rewrite Hn. eexists _, _.
      split; [done|]. split; [done|]. by apply abs_skl.
    + rewrite (by_node_ok (proj1 R) xs1 x xs2 eq_refl). rs. rewrite assert_true by lia. rs. rewrite Hnd. rs.
      rewrite (rank_found _ (ze_score x) e (eval <$> xs1) (eval <$> xs2) reverse); [| |done|done].
      * rewrite (length_fmap eval xs1), Hns. eexists _, _. split; [done|]. split; [done|]. by apply abs_skl.
      * rewrite fmap_app, fmap_cons. by rewrite <- Hx.
Qed.

(** ** Conversion and copies *)

(** The bytes of all elements *)
Definition total_len (M : zabs) : Z := map_fold (λ e _ n, zlen e + n) 0 M.

Lemma total_len_zmap vs : vals_ok vs → total_len (zmap vs) = foldr (λ v n, zlen v.2 + n) 0 vs.
Proof.
  intros Hv. pose proof (vals_nodup _ Hv) as Hnd. clear Hv. induction vs as [|v vs IH]; [done|].
  rewrite fmap_cons in Hnd. apply NoDup_cons in Hnd as [Hn Hnd].
  pose proof (zmap_insert [] v vs Hn) as E. cbn [app] in E. rewrite E. unfold total_len.
  rewrite map_fold_insert_L; [|intros; lia|by apply zmap_lookup_None]. cbn [foldr]. by rewrite <- IH.
Qed.

(** The room that the listpack encoding may need *)
Lemma room_total vs : vals_ok vs → lp_room vs ≤ 7 + total_len (zmap vs) + 44 * Z.of_nat (size (zmap vs)).
Proof.
  intros Hv. rewrite total_len_zmap by done. rewrite zmap_size by apply Hv. clear Hv.
  induction vs as [|v vs IH]; [done|]. rewrite lp_room_cons. cbn [foldr length].
  pose proof (lp_cost_range v.2). lia.
Qed.

Lemma total_len_pos M : 0 ≤ total_len M.
Proof. unfold total_len. apply (map_fold_weak_ind (λ n _, 0 ≤ n)); [lia|]. intros; lia. Qed.

Lemma convert_and_expand_ok o M rnd enc cap k :
  zset_abs o M → Z.of_nat (size M) < INT64_MAX → (size M + k ≤ draws rnd)%nat →
  7 + total_len M + 44 * Z.of_nat (size M) ≤ UINT32_MAX ∨ enc = OBJ_ENCODING_SKIPLIST ∨ zencoding o = enc →
  ∃ o' rnd', zsetConvertAndExpand rnd o enc cap = Ok (o', rnd') ∧ zset_abs o' M ∧ zencoding o' = enc ∧
    (k ≤ draws rnd')%nat.
Proof.
  intros HM Hsz Hk Henc. destruct (decide (zencoding o = enc)) as [E|E].
  { unfold zsetConvertAndExpand. rewrite decide_True by done. eexists _, _. split; [done|]. split; [done|].
    split; [done|lia]. }
  destruct HM as (vs & Hr & <-). rewrite (abs_size o vs Hr) in *. destruct Hr as [Hv Hh]. destruct o as [zl|zs].
  - destruct enc; [done|].
    destruct (to_skiplist_ok zl vs rnd cap k Hh Hv Hsz Hk) as (zs & rnd' & vs' & -> & Hh' & Hv' & <- & Hk').
    eexists _, _. split; [done|]. split; [by apply abs_skl|done].
  - destruct enc; [|done].
    destruct (to_listpack_ok zs vs rnd cap Hh Hv) as (zl & vs' & -> & Hh' & Hv' & <-).
    { pose proof (room_total vs Hv) as Hroom. rewrite zmap_size in Hroom by apply Hv.
      destruct Henc as [Hroom'|[?|?]]; [lia|done|done]. }
    eexists _, _. split; [done|]. split; [by apply abs_lp|]. split; [done|lia].
Qed.

Lemma convert_ok o M rnd enc k :
  zset_abs o M → Z.of_nat (size M) < INT64_MAX → (size M + k ≤ draws rnd)%nat →
  7 + total_len M + 44 * Z.of_nat (size M) ≤ UINT32_MAX ∨ enc = OBJ_ENCODING_SKIPLIST ∨ zencoding o = enc →
  ∃ o' rnd', zsetConvert rnd o enc = Ok (o', rnd') ∧ zset_abs o' M ∧ zencoding o' = enc ∧
    (k ≤ draws rnd')%nat.
Proof.
  intros HM Hsz Hk Henc. destruct (zset_length_ok o M HM) as (o1 & Hl & HM1 & He1). unfold zsetConvert. rewrite Hl. rs.
  apply convert_and_expand_ok; [done..|]. by rewrite He1.
Qed.

(** The conversion to a listpack draws no random numbers. *)
Lemma to_listpack_same o M rnd :
  zset_abs o M → zencoding o = OBJ_ENCODING_SKIPLIST → 7 + total_len M + 44 * Z.of_nat (size M) ≤ UINT32_MAX →
  ∃ o', zsetConvert rnd o OBJ_ENCODING_LISTPACK = Ok (o', rnd) ∧ zset_abs o' M ∧
    zencoding o' = OBJ_ENCODING_LISTPACK.
Proof.
  intros (vs & [Hv Hh] & <-) Henc Hroom. destruct o as [|zs]; [done|]. unfold zsetConvert. cbn [zsetLength]. rs.
  pose proof (room_total vs Hv).
  destruct (to_listpack_ok zs vs rnd (zsl_length (zs_zsl zs)) Hh Hv) as (zl & vs' & -> & Hh' & Hv' & <-); [lia|].
  eexists. split; [done|]. split; [by apply abs_lp|done].
Qed.

Lemma maybe_convert_ok o M rnd hint k :
  zset_abs o M → Z.of_nat (size M) < INT64_MAX → (size M + k ≤ draws rnd)%nat →
  ∃ o' rnd', zsetTypeMaybeConvert rnd o hint = Ok (o', rnd') ∧ zset_abs o' M ∧ (k ≤ draws rnd')%nat.
Proof.
  intros HM Hsz Hk. unfold zsetTypeMaybeConvert. destruct (_ && _).
  - destruct (convert_and_expand_ok o M rnd OBJ_ENCODING_SKIPLIST hint k) as (o' & rnd' & -> & HM' & _ & Hk');
      [done..|by right; left|]. eauto.
  - eexists _, _. split; [done|]. split; [done|lia].
Qed.

Lemma to_listpack_if_needed_ok o M rnd maxlen totlen k :
  zset_abs o M → Z.of_nat (size M) < INT64_MAX → (size M + k ≤ draws rnd)%nat →
  zset_max_listpack_entries ≤ 2 ^ 26 → total_len M ≤ totlen ≤ UINT64_MAX →
  ∃ o' rnd', zsetConvertToListpackIfNeeded rnd o maxlen totlen = Ok (o', rnd') ∧ zset_abs o' M ∧
    (zencoding o' = OBJ_ENCODING_LISTPACK ↔
       zencoding o = OBJ_ENCODING_LISTPACK ∨
       (Z.of_nat (size M) ≤ zset_max_listpack_entries ∧ maxlen ≤ zset_max_listpack_value ∧ totlen ≤ 2 ^ 30)) ∧
    (k ≤ draws rnd')%nat.
Proof.
  intros HM Hsz Hk Hmax Htot. destruct o as [zl|zs]; cbn [zsetConvertToListpackIfNeeded].
  { eexists _, _. split; [done|]. split; [done|]. split; [naive_solver|lia]. }
  destruct (zset_length_ok _ _ HM) as (o1 & Hl & _). cbn [zsetLength] in Hl. injection Hl as Hl _.
  pose proof (total_len_pos M) as Hpos.
  unfold lpSafeToAdd. rs. rewrite Hl, u64_small by lia. change LISTPACK_MAX_SAFETY_SIZE with (2 ^ 30).
  destruct (_ && _ && _) eqn:Ec.
  - apply andb_prop in Ec as [[Ec1 Ec2]%andb_prop Ec3].
    destruct (convert_ok (ZSkiplist zs) M rnd OBJ_ENCODING_LISTPACK k) as (o' & rnd' & -> & HM' & He & Hk');
      [done..|left; lia|]. eexists _, _. split; [done|]. split; [done|]. split; [|done].
    split; [|done]. intros _. right. lia.
  - eexists _, _. split; [done|]. split; [done|]. split; [|lia]. split; [done|].
    intros [?|(? & ? & ?)]; [done|]. apply andb_false_iff in Ec as [[Ec|Ec]%andb_false_iff|Ec]; lia.
Qed.

Lemma zset_dup_ok o M rnd k :
  zset_abs o M → (size M + k ≤ draws rnd)%nat →
  ∃ o' rnd', zsetDup rnd o = Ok (o', rnd') ∧ zset_abs o' M ∧ zencoding o' = zencoding o ∧ (k ≤ draws rnd')%nat.
Proof.
  intros (vs & Hr & <-) Hk. rewrite (abs_size o vs Hr) in *. destruct Hr as [Hv Hh]. destruct o as [zl|zs].
  - destruct (dup_listpack_ok zl vs rnd Hh) as (zl' & -> & Hh'). eexists _, _. split; [done|].
    split; [by apply abs_lp|]. split; [done|lia].
  - destruct (dup_skiplist_ok zs vs rnd k Hh Hv Hk) as (zs' & rnd' & vs' & -> & Hh' & Hv' & <- & Hk').
    eexists _, _. split; [done|]. split; [by apply abs_skl|done].
Qed.

(** ** Creation *)

Lemma create_skl_ok : ∃ o, createZsetObject = Ok o ∧ zset_abs o ∅ ∧ zencoding o = OBJ_ENCODING_SKIPLIST.
Proof.
  unfold createZsetObject. destruct (create_ok ∅) as (h & z & -> & R). rs. eexists. split; [done|].
  split; [|done]. exists []. split; [|done]. split; [apply vals_ok_nil|]. exists []. split; [done|].
  split; [done|]. intros k p. split; [done|].
  intros (x & Hx & _). by apply not_elem_of_nil in Hx.
Qed.

Lemma create_lp_ok : ∃ o, createZsetListpackObject = Ok o ∧ zset_abs o ∅ ∧ zencoding o = OBJ_ENCODING_LISTPACK.
Proof.
  unfold createZsetListpackObject. destruct (lpNew_spec 0) as (zl & -> & R). rs. eexists. split; [done|].
  split; [|done]. exists []. split; [|done]. split; [apply vals_ok_nil|]. by exists [].
Qed.

Lemma type_create_ok size_hint val_len_hint :
  ∃ o, zsetTypeCreate size_hint val_len_hint = Ok o ∧ zset_abs o ∅ ∧
    (zencoding o = OBJ_ENCODING_LISTPACK ↔
       size_hint ≤ zset_max_listpack_entries ∧ val_len_hint ≤ zset_max_listpack_value).
Proof.
  unfold zsetTypeCreate. destruct (_ && _) eqn:E.
  - destruct create_lp_ok as (o & -> & Ho & He). exists o. split; [done|]. split; [done|]. rewrite He. split; [lia|done].
  - destruct create_skl_ok as (o & -> & Ho & He). exists o. split; [done|]. split; [done|]. rewrite He. split; [done|lia].
Qed.
End api.
