(* ===== verification/ZsetContract.v ===== *)
(** The contract of sorted sets: what each operation of [Zset] does, as theorems
    about the map of elements and scores, with concrete runs on a listpack and on
    a skiplist. *)

From S2P Require Import Prelude Numstr Sds Listpack LpNav LpMod LpFind LpRange LpApi Skiplist.
From S2P Require Import SklRep SklMod SklDel SklUpd SklRank SklSpec Double Zzl ZzlRep ZzlMod.
From S2P Require Import ZzlSpec Zset ZsetRep ZsetSkl ZsetConv ZsetSpec ZsetApi.
From Stdlib Require Import SpecFloat.

(** ** Two concrete sorted sets *)

#[local] Existing Instance alloc_exact.
#[local] Existing Instance node_alloc.
#[local] Existing Instance text_p.
#[local] Existing Instance text_p_laws.
#[local] Instance ex_server : Server := {| zset_max_listpack_entries := 2; zset_max_listpack_value := 64 |}.

Definition ex_zl : zobj := ZListpack ex_lp.
Definition ex_zs : zobj :=
  ZSkiplist (ZSet ex_h (<[chars "two" := 2%positive]> {[chars "one" := 3%positive]}) ex_z).
Definition ex_map : zabs := <[chars "one" := dbl 1]> {[chars "two" := dbl 2]}.
Definition ex_vals : list value := [(dbl 1, chars "one"); (dbl 2, chars "two")].

Lemma ex_vals_ok : vals_ok ex_vals.
Proof.
  split.
  - repeat constructor; vm_compute; lia.
  - by apply (bool_decide_eq_true_1 _); vm_compute.
  - repeat constructor; vm_compute; try done.
Qed.

Lemma ex_zl_abs : zset_abs ex_zl ex_map.
Proof.
  exists ex_vals. split; [|by vm_compute]. split; [apply ex_vals_ok|]. exists ex_pairs. split; [apply ex_lp_rep|].
  split; [by vm_compute|]. split; [|vm_compute; done]. repeat constructor; vm_compute; done.
Qed.

Lemma ex_zs_abs : zset_abs ex_zs ex_map.
Proof.
  exists ex_vals. split; [|by vm_compute]. split; [apply ex_vals_ok|]. exists [ex_one; ex_two].
  split; [apply ex_rep|]. split; [by vm_compute|]. intros k p. unfold zs_dict, ex_zs.
  rewrite lookup_insert_Some, lookup_singleton_Some. split.
  - intros [[<- <-]|[_ [<- <-]]]; [exists ex_two|exists ex_one]; (split; [set_solver|done]).
  - intros (x & [->|[->|[]%not_elem_of_nil]%elem_of_cons]%elem_of_cons & <- & <-); [right|by left].
    by split; [|split].
Qed.

(** ** The contract *)

Section contract.
Context `{Allocator} `{NodeAlloc} `{FloatTextLaws} `{Server}.

(** C23: [zsetAdd] does to the map of elements and scores what [zadd_spec] says, for
    every combination of the options, in both encodings and when it converts the
    listpack to a skiplist; the flags and the new score it reports are those of
    the specification, up to the sign of zero.  No access faults, no assertion
    fails, and it ends whenever the random numbers let the levels be drawn. *)
Theorem zsetAdd_refines o M rnd score e flags k :
  zset_abs o M → valid_double score = true → ele_ok e → zset_max_listpack_entries ≤ 2 ^ 26 →
  Z.of_nat (size M) + 1 < INT64_MAX → (S (size M) + k ≤ draws rnd)%nat →
  ∃ o' rnd' r, zsetAdd rnd o score e flags = Ok (o', rnd', r) ∧
    zset_abs o' (zadd_spec M score e flags).1 ∧ canon_result r = (zadd_spec M score e flags).2 ∧
    (k ≤ draws rnd')%nat.
Proof. apply add_ok. Qed.

(** C24: [zsetDel] removes the element from the map, says whether it was there, and
    keeps the encoding. *)
Theorem zsetDel_refines o M e : zset_abs o M →
  ∃ o', zsetDel o e = Ok (o', bool_decide (is_Some (M !! e))) ∧ zset_abs o' (delete e M) ∧
    zencoding o' = zencoding o.
Proof. apply del_ok. Qed.

(** [zsetScore], [zsetLength] and [zsetRank] read the map: the score of an
    element, the number of elements, and the number of elements that precede one
    in the order of scores and bytes, counted from either end, or -1. *)
Theorem zset_reads o M e reverse :
  zset_abs o M → M ≠ ∅ → Z.of_nat (size M) < INT64_MAX →
  (∃ r, zsetScore o e = Ok r ∧ canon <$> r = M !! e) ∧
  (∃ o', zsetLength o = Ok (Z.of_nat (size M), o') ∧ zset_abs o' M) ∧
  (∃ o' s, zsetRank o e reverse = Ok (o', (rank_result M e reverse).1, s) ∧
     canon <$> s = (rank_result M e reverse).2 ∧ zset_abs o' M).
Proof.
  intros HM Hne Hsz. split; [by apply score_ok_spec|]. split; [|by apply rank_ok].
  destruct (zset_length_ok o M HM) as (o' & ? & ? & _). eauto.
Qed.

(** C25: converting a listpack to a skiplist and back gives an object with the same
    map each time, if the listpack has room. *)
Theorem zsetConvert_roundtrip o M rnd k :
  zset_abs o M → zencoding o = OBJ_ENCODING_LISTPACK → (size M + k ≤ draws rnd)%nat →
  7 + total_len M + 44 * Z.of_nat (size M) ≤ UINT32_MAX →
  ∃ o1 o2 rnd', zsetConvert rnd o OBJ_ENCODING_SKIPLIST = Ok (o1, rnd') ∧
    zset_abs o1 M ∧ zencoding o1 = OBJ_ENCODING_SKIPLIST ∧
    zsetConvert rnd' o1 OBJ_ENCODING_LISTPACK = Ok (o2, rnd') ∧
    zset_abs o2 M ∧ zencoding o2 = OBJ_ENCODING_LISTPACK ∧ (k ≤ draws rnd')%nat.
Proof.
  intros HM Henc Hk Hroom.
  assert (0 ≤ total_len M) by apply total_len_pos. assert (Z.of_nat (size M) < INT64_MAX) as Hsz by lia.
  destruct (convert_ok o M rnd OBJ_ENCODING_SKIPLIST k) as (o1 & rnd1 & Hc1 & HM1 & He1 & Hk1); [done..|by right; left|].
  destruct (to_listpack_same o1 M rnd1 HM1 He1 Hroom) as (o2 & Hc2 & HM2 & He2).
  by exists o1, o2, rnd1.
Qed.

(** [zsetDup] builds an object with the same map and the same encoding. *)
Theorem zsetDup_refines o M rnd k :
  zset_abs o M → (size M + k ≤ draws rnd)%nat →
  ∃ o' rnd', zsetDup rnd o = Ok (o', rnd') ∧ zset_abs o' M ∧ zencoding o' = zencoding o ∧ (k ≤ draws rnd')%nat.
Proof. apply zset_dup_ok. Qed.

(** [zsetAdd] reports an error exactly when the score, or the sum with the
    present score under [ZADD_IN_INCR], is not a number; the object is then
    returned as it was. *)
Theorem zsetAdd_error o M rnd score e flags :
  zset_abs o M → valid_double score = true → ele_ok e → zset_max_listpack_entries ≤ 2 ^ 26 →
  Z.of_nat (size M) + 1 < INT64_MAX → (S (size M) ≤ draws rnd)%nat →
  ∃ o' rnd' r, zsetAdd rnd o score e flags = Ok (o', rnd', r) ∧
    (za_ret r = false ↔
       isnan score = true ∨
       (Z.land flags ZADD_IN_INCR ≠ 0 ∧ Z.land flags ZADD_IN_NX = 0 ∧
        ∃ cur, M !! e = Some cur ∧ isnan (double_add score cur) = true)) ∧
    (za_ret r = false → o' = o ∧ rnd' = rnd ∧ r = ZAdd false ZADD_OUT_NAN None).
Proof.
  intros HM Hv He Hmax Hsz Hk.
  destruct (add_ok o M rnd score e flags 0 HM Hv He Hmax Hsz ltac:(lia)) as (o' & rnd' & r & Ha & _ & Hr & _).
  exists o', rnd', r. split; [done|]. pose proof (f_equal za_ret Hr) as Hret. cbn in Hret. split.
  - rewrite Hret. apply spec_error.
  - intros Hf. rewrite Hret in Hf. apply spec_error in Hf. by apply (add_error_same o M _ score e flags).
Qed.
End contract.

(** ** Concrete runs *)

Definition ex_rnd : list Z := [rnd_up; rnd_stop; rnd_stop; rnd_up; rnd_up; rnd_stop; rnd_stop].

Lemma ex_draws k : (k ≤ 4)%nat → (k ≤ draws ex_rnd)%nat.
Proof. intros Hk. change (draws ex_rnd) with 4%nat. done. Qed.
Lemma ex_size : size ex_map = 2%nat.
Proof. by vm_compute. Qed.

(** A third element turns the listpack into a skiplist. *)
Lemma zsetAdd_refines_witness :
  ∃ o' rnd' r, zsetAdd ex_rnd ex_zl (dbl 3) (chars "three") ZADD_IN_NX = Ok (o', rnd', r) ∧
    zset_abs o' (zadd_spec ex_map (dbl 3) (chars "three") ZADD_IN_NX).1 ∧
    canon_result r = ZAdd true ZADD_OUT_ADDED (Some (dbl 3)) ∧ (1 ≤ draws rnd')%nat.
Proof.
  apply (zsetAdd_refines ex_zl ex_map ex_rnd (dbl 3) (chars "three") ZADD_IN_NX 1).
  - apply ex_zl_abs.
  - by vm_compute.
  - split; [vm_compute; done|repeat constructor; vm_compute; done].
  - by vm_compute.
  - by rewrite ex_size.
  - rewrite ex_size. apply ex_draws; lia.
Defined.

Lemma zsetDel_refines_witness :
  ∃ o', zsetDel ex_zs (chars "two") = Ok (o', true) ∧ zset_abs o' (delete (chars "two") ex_map) ∧
    zencoding o' = OBJ_ENCODING_SKIPLIST.
Proof. exact (zsetDel_refines ex_zs ex_map (chars "two") ex_zs_abs). Defined.

Lemma zset_reads_witness :
  (∃ r, zsetScore ex_zl (chars "two") = Ok r ∧ canon <$> r = Some (dbl 2)) ∧
  (∃ o', zsetLength ex_zl = Ok (2, o') ∧ zset_abs o' ex_map) ∧
  (∃ o' s, zsetRank ex_zl (chars "two") true = Ok (o', 0, s) ∧ canon <$> s = Some (dbl 2) ∧ zset_abs o' ex_map).
Proof.
  apply (zset_reads ex_zl ex_map (chars "two") true).
  - apply ex_zl_abs.
  - by vm_compute.
  - by rewrite ex_size.
Defined.

Lemma zsetConvert_roundtrip_witness :
  ∃ o1 o2 rnd', zsetConvert ex_rnd ex_zl OBJ_ENCODING_SKIPLIST = Ok (o1, rnd') ∧
    zset_abs o1 ex_map ∧ zencoding o1 = OBJ_ENCODING_SKIPLIST ∧
    zsetConvert rnd' o1 OBJ_ENCODING_LISTPACK = Ok (o2, rnd') ∧
    zset_abs o2 ex_map ∧ zencoding o2 = OBJ_ENCODING_LISTPACK ∧ (2 ≤ draws rnd')%nat.
Proof.
  apply (zsetConvert_roundtrip ex_zl ex_map ex_rnd 2 ex_zl_abs eq_refl).
  - rewrite ex_size. apply ex_draws; lia.
  - by vm_compute.
Defined.

Lemma zsetDup_refines_witness :
  ∃ o' rnd', zsetDup ex_rnd ex_zs = Ok (o', rnd') ∧ zset_abs o' ex_map ∧
    zencoding o' = OBJ_ENCODING_SKIPLIST ∧ (2 ≤ draws rnd')%nat.
Proof. apply (zsetDup_refines ex_zs ex_map ex_rnd 2 ex_zs_abs). rewrite ex_size. apply ex_draws; lia. Defined.

Lemma zsetAdd_error_witness :
  ∃ o' rnd' r, zsetAdd ex_rnd ex_zl S754_nan (chars "two") ZADD_IN_NONE = Ok (o', rnd', r) ∧
    (za_ret r = false → o' = ex_zl ∧ rnd' = ex_rnd ∧ r = ZAdd false ZADD_OUT_NAN None) ∧ za_ret r = false.
Proof.
  destruct (zsetAdd_error ex_zl ex_map ex_rnd S754_nan (chars "two") ZADD_IN_NONE) as (o' & rnd' & r & Ha & Hr & Hs).
  - apply ex_zl_abs.
  - done.
  - split; [vm_compute; done|repeat constructor; vm_compute; done].
  - by vm_compute.
  - by rewrite ex_size.
  - rewrite ex_size. apply ex_draws; lia.
  - exists o', rnd', r. split; [done|]. split; [done|]. apply Hr. by left.
Defined.
