(* ===== verification/Keyspace.v ===== *)
(** The database as commands see it: values by key, and the effects of a command.

    The database maps keys to values; expired keys are not in it.  A command gives
    the new database with the effects it has in order: replies, changes of
    [server.dirty], keyspace events, and updates of the histogram of sizes.  What
    the functions of [db.c] that add, delete and replace values do by themselves (the
    event [new], the histogram, expiry, hooks of modules) belongs to the change of
    the database and is not listed.  The accounting of memory that
    [server.memory_tracking_enabled] turns on is left out. *)

From S2P Require Import Prelude Skiplist Double Object Zset SetType.

(** ** Values *)

(** What is not a sorted set: a set, or an object of another type *)
Inductive otherobj := OSet (o : sobj) | OValue.

Inductive kvobj := KZset (o : zobj) | KOther (v : otherobj).
Abbreviation KSet o := (KOther (OSet o)).
Abbreviation db := (gmap (list Z) kvobj).

Inductive obj_type := OBJ_ZSET | OBJ_SET | OBJ_OTHER.
#[export] Instance obj_type_eq_dec : EqDecision obj_type.
Proof. solve_decision. Defined.

Definition type_of (v : kvobj) : obj_type :=
  match v with KZset _ => OBJ_ZSET | KSet _ => OBJ_SET | KOther OValue => OBJ_OTHER end.

(** ** Effects *)

Inductive effect :=
  | Reply (r : reply)
  | Dirty (n : Z)
  | KeyModified (key : list Z) (kept : bool)
  | Notify (event : string) (key : list Z)
  | KeysizesHist (key : list Z) (oldlen newlen : Z)
  | RewriteCommand (event : string) (key : list Z) (count : Z).

Definition syntaxerr : reply := ReplyError "syntax error".
Definition wrongtypeerr : reply :=
  ReplyError "WRONGTYPE Operation against a key holding the wrong kind of value".
Definition nanerr : reply := ReplyError "resulting score is not a number (NaN)".
Definition czero : reply := ReplyLongLong 0.
Definition cone : reply := ReplyLongLong 1.

(** [c->argv[i]->ptr] *)
Definition arg (argv : list (list Z)) (i : nat) : list Z := default [] (argv !! i).

(** [setKey] of [db.c] without flags: the value is replaced.  The new value is a
    sorted set or a set. *)
Definition setKey (d : db) (key : list Z) (v : kvobj) : db * list effect :=
  (<[key := v]> d,
   match d !! key with
   | None => []
   | Some old =>
       Notify "overwritten" key ::
       (if bool_decide (type_of old = type_of v) then [] else [Notify "type_changed" key])
   end ++ [KeyModified key true]).
