(* ===== verification/KeyspaceRep.v ===== *)
(** The database against one that maps keys to finite maps and finite sets. *)

From S2P Require Import Prelude Endian Skiplist Double Object Zset ZsetRep ZsetSpec ZsetApi SetType SetRep.
From S2P Require Import Keyspace.

(** ** The abstract database *)

Inductive aother := ASetOf (X : gset (list Z)) | AValue.
Inductive aval := AZset (M : zabs) | AOther (a : aother).
Abbreviation ASet X := (AOther (ASetOf X)).
Abbreviation adb := (gmap (list Z) aval).

Definition other_abs `{Arch} `{Allocator} `{SetConfig} (v : otherobj) (a : aother) : Prop :=
  match v, a with
  | OSet o, ASetOf X => set_rep o X ∧ X ≠ ∅
  | OValue, AValue => True
  | _, _ => False
  end.

Definition val_abs `{Arch} `{Allocator} `{SetConfig} `{FloatText} (v : kvobj) (a : aval) : Prop :=
  match v, a with
  | KZset o, AZset M => zset_abs o M ∧ M ≠ ∅
  | KOther v, AOther a => other_abs v a
  | _, _ => False
  end.

(** Every sorted set and every set is represented, and none is empty. *)
Definition db_abs `{Arch} `{Allocator} `{SetConfig} `{FloatText} (d : db) (A : adb) : Prop :=
  ∀ k, option_Forall2 val_abs (d !! k) (A !! k).

(** Doubles in replies are compared up to the sign of zero. *)
Definition canon_eff (e : effect) : effect :=
  match e with Reply (ReplyDouble d) => Reply (ReplyDouble (canon d)) | e => e end.

Section db.
Context `{Arch} `{Allocator} `{SetConfig} `{FloatText}.

Lemma db_abs_insert d A key v a : db_abs d A → val_abs v a → db_abs (<[key := v]> d) (<[key := a]> A).
Proof.
  intros HA Hv k. destruct (decide (k = key)) as [->|Hk]; [rewrite !lookup_insert_eq; by constructor|].
  by rewrite !lookup_insert_ne by done.
Qed.

Lemma db_abs_same d A key o M : db_abs d A → A !! key = Some (AZset M) → zset_abs o M → db_abs (<[key := KZset o]> d) A.
Proof.
  intros HA Hk Ho. rewrite <- (insert_id A key (AZset M) Hk). apply db_abs_insert; [done|]. split; [done|].
  specialize (HA key). rewrite Hk in HA. inversion HA as [v a Hv|]; subst. by destruct v; [destruct Hv|].
Qed.

Lemma db_abs_delete d A key : db_abs d A → db_abs (delete key d) (delete key A).
Proof.
  intros HA k. destruct (decide (k = key)) as [->|Hk]; [rewrite !lookup_delete_eq; by constructor|].
  by rewrite !lookup_delete_ne by done.
Qed.

(** The value of a key: none, another type, or a set *)
Lemma db_abs_lookup d A key : db_abs d A →
  (d !! key = None ∧ A !! key = None) ∨ (∃ v a, d !! key = Some (KOther v) ∧ A !! key = Some (AOther a) ∧ other_abs v a) ∨
  (∃ o M, d !! key = Some (KZset o) ∧ A !! key = Some (AZset M) ∧ zset_abs o M ∧ M ≠ ∅).
Proof.
  intros HA. specialize (HA key). inversion HA as [v a Hv E1 E2|E1 E2]; [|by left].
  right. destruct v as [o|v], a as [M|a]; try done; [right; naive_solver|left; eauto].
Qed.
End db.

