(* ===== verification/SetCmd.v ===== *)
(** The commands on sets: [t_set.c], lines 611 to 815 and 1340 to 1850.

    The sets of SINTER, SUNION and SDIFF are given by their keys: two pointers to set
    objects are equal if the keys are.  A lookup in a set can change its
    representation, so objects are written back to the database.  [qsort] is a
    parameter that permutes the sets. *)

From S2P Require Import Prelude Endian Intset Numstr Sds Listpack LpNav LpMod Object.
From S2P Require Import Skiplist Dict SdsDict SetType Keyspace.

(** [qsort] with a comparison function *)
Class Qsort := {
  qsort : ∀ {A}, (A → A → Z) → list A → list A;
  qsort_perm : ∀ {A} (cmp : A → A → Z) (l : list A), qsort cmp l ≡ₚ l }.

Inductive set_op := SET_OP_UNION | SET_OP_DIFF.
#[export] Instance set_op_eq_dec : EqDecision set_op.
Proof. solve_decision. Defined.

Section commands.
Context `{Arch} `{Allocator} `{SetConfig} `{Qsort} (can : dictResizeEnable).

(** The set object of a key that is known to have one *)
Definition set_at (d : db) (key : list Z) : res sobj :=
  match d !! key with Some (KSet o) => Ok o | _ => Fault OutOfBounds end.

(** ** SADD and SREM *)

Fixpoint sadd_loop (members : list (list Z)) (o : sobj) (added : Z) : res (sobj * Z) :=
  match members with
  | [] => Ok (o, added)
  | m :: members =>
      '(o, b) ← setTypeAdd can o m;
      sadd_loop members o (if b : bool then added + 1 else added)
  end.

Definition saddCommand (d : db) (argv : list (list Z)) : res (db * list effect) :=
  let key := arg argv 1 in
  match d !! key with
  | Some (KZset _) | Some (KOther OValue) => Ok (d, [Reply wrongtypeerr])
  | found =>
      o ← match found with
          | Some (KSet o) => setTypeMaybeConvert can o (zlen argv - 2)
          | _ => setTypeCreate can (arg argv 2) (zlen argv - 2)
          end;
      '(o, added) ← sadd_loop (drop 2 argv) o 0;
      '(effs, o) ←
        (if negb (added =? 0) then
           '(size, o) ← setTypeSize o;
           Ok ([KeysizesHist key (size - added) size; KeyModified key true; Notify "sadd" key], o)
         else Ok ([], o));
      Ok (<[key := KSet o]> d, effs ++ [Dirty added; Reply (ReplyLongLong added)])
  end.

(** The object, [deleted] and [keyremoved] *)
Fixpoint srem_loop (members : list (list Z)) (o : sobj) (deleted : Z) : res (sobj * Z * bool) :=
  match members with
  | [] => Ok (o, deleted, false)
  | m :: members =>
      '(o, b) ← setTypeRemove can o m;
      if b : bool then
        '(n, o) ← setTypeSize o;
        if n =? 0 then Ok (o, deleted + 1, true) else srem_loop members o (deleted + 1)
      else srem_loop members o deleted
  end.

Definition sremCommand (d : db) (argv : list (list Z)) : res (db * list effect) :=
  let key := arg argv 1 in
  match d !! key with
  | None => Ok (d, [Reply czero])
  | Some (KZset _) | Some (KOther OValue) => Ok (d, [Reply wrongtypeerr])
  | Some (KSet o) =>
      '(oldSize, o) ← setTypeSize o;
      '(o, deleted, keyremoved) ← srem_loop (drop 2 argv) o 0;
      let d := if keyremoved : bool then delete key d else <[key := KSet o]> d in
      Ok (d,
        (if negb (deleted =? 0) then
           KeyModified key (negb keyremoved) :: Notify "srem" key ::
           (if keyremoved then [Notify "del" key] else []) ++
           [KeysizesHist key oldSize (if keyremoved then -1 else oldSize - deleted); Dirty deleted]
         else []) ++ [Reply (ReplyLongLong deleted)])
  end.

(** ** SMOVE *)

(** From the removal on, for different keys *)
Definition smove_run (d : db) (key1 key2 : list Z) (srcset : sobj) (dstset : option sobj) (ele : list Z)
    : res (db * list effect) :=
  '(srcset, deleted) ← setTypeRemove can srcset ele;
  let d := <[key1 := KSet srcset]> d in
  if negb deleted then Ok (d, [Reply czero]) else
  '(srcNewLen, srcset) ← setTypeSize srcset;
  let srcOldLen := srcNewLen + 1 in
  let removed := srcNewLen =? 0 in
  let d := if removed then delete key1 d else <[key1 := KSet srcset]> d in
  dstset ← match dstset with Some o => Ok o | None => setTypeCreate can ele 1 end;
  '(dstset, added) ← setTypeAdd can dstset ele;
  '(effs, dstset) ←
    (if added : bool then
       '(dstLen, dstset) ← setTypeSize dstset;
       Ok ([KeysizesHist key2 (dstLen - 1) dstLen; Dirty 1; KeyModified key2 true; Notify "sadd" key2], dstset)
     else Ok ([], dstset));
  Ok (<[key2 := KSet dstset]> d,
      Notify "srem" key1 :: (if removed then [Notify "del" key1] else []) ++
      [KeysizesHist key1 srcOldLen (if removed then -1 else srcNewLen); KeyModified key1 (negb removed); Dirty 1] ++
      effs ++ [Reply cone]).

Definition smoveCommand (d : db) (argv : list (list Z)) : res (db * list effect) :=
  let key1 := arg argv 1 in
  let key2 := arg argv 2 in
  let ele := arg argv 3 in
  match d !! key1 with
  | None => Ok (d, [Reply czero])
  | Some (KZset _) | Some (KOther OValue) => Ok (d, [Reply wrongtypeerr])
  | Some (KSet srcset) =>
      match d !! key2 with
      | Some (KZset _) | Some (KOther OValue) => Ok (d, [Reply wrongtypeerr])
      | found =>
          if bool_decide (key1 = key2) then
            '(srcset, b) ← setTypeIsMember can srcset ele;
            Ok (<[key1 := KSet srcset]> d, [Reply (if b : bool then cone else czero)])
          else smove_run d key1 key2 srcset (match found with Some (KSet o) => Some o | _ => None end) ele
      end
  end.

(** ** SISMEMBER, SMISMEMBER and SCARD *)

Definition sismemberCommand (d : db) (argv : list (list Z)) : res (db * list effect) :=
  let key := arg argv 1 in
  match d !! key with
  | None => Ok (d, [Reply czero])
  | Some (KZset _) | Some (KOther OValue) => Ok (d, [Reply wrongtypeerr])
  | Some (KSet o) =>
      '(o, b) ← setTypeIsMember can o (arg argv 2);
      Ok (<[key := KSet o]> d, [Reply (if b : bool then cone else czero)])
  end.

Fixpoint smismember_loop (members : list (list Z)) (o : sobj) : res (sobj * list effect) :=
  match members with
  | [] => Ok (o, [])
  | m :: members =>
      '(o, b) ← setTypeIsMember can o m;
      '(o, effs) ← smismember_loop members o;
      Ok (o, Reply (if b : bool then cone else czero) :: effs)
  end.

Definition smismemberCommand (d : db) (argv : list (list Z)) : res (db * list effect) :=
  let key := arg argv 1 in
  let len := Reply (ReplyArrayLen (zlen argv - 2)) in
  match d !! key with
  | None => Ok (d, len :: ((λ _, Reply czero) <$> drop 2 argv))
  | Some (KZset _) | Some (KOther OValue) => Ok (d, [Reply wrongtypeerr])
  | Some (KSet o) =>
      '(o, effs) ← smismember_loop (drop 2 argv) o;
      Ok (<[key := KSet o]> d, len :: effs)
  end.

Definition scardCommand (d : db) (argv : list (list Z)) : res (db * list effect) :=
  let key := arg argv 1 in
  match d !! key with
  | None => Ok (d, [Reply czero])
  | Some (KZset _) | Some (KOther OValue) => Ok (d, [Reply wrongtypeerr])
  | Some (KSet o) => '(n, o) ← setTypeSize o; Ok (<[key := KSet o]> d, [Reply (ReplyLongLong n)])
  end.

(** ** SMEMBERS *)

(** [addReplyBulkCBuffer] or [addReplyBulkLongLong]; the buffer of the latter has 64
    bytes. *)
Definition addReplyElement (v : sval) : res effect :=
  match v with
  | VStr s => Ok (Reply (ReplyBulk s))
  | VInt v => '(len, buf) ← ll2string (local_buf 64) v; Ok (Reply (ReplyBulk (take (Z.to_nat len) buf)))
  end.

Definition smembersCommand (d : db) (argv : list (list Z)) : res (db * list effect) :=
  let key := arg argv 1 in
  match d !! key with
  | None => Ok (d, [Reply (ReplySetLen 0)])
  | Some (KZset _) | Some (KOther OValue) => Ok (d, [Reply wrongtypeerr])
  | Some (KSet o) =>
      '(length, o) ← setTypeSize o;
      '(n, effs) ← iter o (λ '(n, effs) v, e ← addReplyElement v; Ok (n - 1, effs ++ [e])) (length, []);
      _ ← assert_ (n =? 0);
      Ok (<[key := KSet o]> d, Reply (ReplySetLen length) :: effs)
  end.

(** ** The sets of a command with several keys *)

(** The keys of the sets, none for keys that are not there; or none of this if a key
    has another type *)
Fixpoint lookup_sets (d : db) (keys : list (list Z)) : option (list (option (list Z))) :=
  match keys with
  | [] => Some []
  | key :: keys =>
      match d !! key with
      | None => cons None <$> lookup_sets d keys
      | Some (KSet _) => cons (Some key) <$> lookup_sets d keys
      | Some _ => None
      end
  end.

(** The sizes that the comparison functions of [qsort] ask for, 0 for no set *)
Fixpoint set_sizes (d : db) (sets : list (option (list Z))) : res (db * list (Z * option (list Z))) :=
  match sets with
  | [] => Ok (d, [])
  | s :: sets =>
      '(d, n) ← match s with
                | None => Ok (d, 0)
                | Some key => o ← set_at d key; '(n, o) ← setTypeSize o; Ok (<[key := KSet o]> d, n)
                end;
      '(d, l) ← set_sizes d sets;
      Ok (d, (n, s) :: l)
  end.

Definition qsortCompareSetsByCardinality (s1 s2 : Z * option (list Z)) : Z :=
  if s1.1 >? s2.1 then 1 else if s1.1 <? s2.1 then -1 else 0.
Definition qsortCompareSetsByRevCardinality (s1 s2 : Z * option (list Z)) : Z :=
  if s1.1 <? s2.1 then 1 else if s1.1 >? s2.1 then -1 else 0.

(** Nothing is compared if there is one set only. *)
Definition sort_sets (cmp : Z * option (list Z) → Z * option (list Z) → Z) (d : db) (sets : list (option (list Z)))
    : res (db * list (option (list Z))) :=
  if zlen sets <? 2 then Ok (d, sets) else
  '(d, l) ← set_sizes d sets;
  Ok (d, (qsort cmp l).*2).

(** [dbDelete] of the destination, where there is nothing to store *)
Definition delete_dst (d : db) (dstkey : list Z) : db * bool := (delete dstkey d, bool_decide (is_Some (d !! dstkey))).

(** ** SINTER, SINTERCARD and SINTERSTORE *)

(** Whether the sets [rest] other than that of [key0] have the element, until one of
    them has not *)
Fixpoint in_all (key0 : list Z) (rest : list (option (list Z))) (v : sval) (d : db) : res (db * bool) :=
  match rest with
  | [] => Ok (d, true)
  | s :: rest =>
      if bool_decide (s = Some key0) then in_all key0 rest v d else
      key ← nonnull s;
      o ← set_at d key;
      '(o, b) ← setTypeIsMemberAux can o v;
      let d := <[key := KSet o]> d in
      if b : bool then in_all key0 rest v d else Ok (d, false)
  end.

(** The variables of the loop: [cardinality], [only_integers], [dstset] and the
    elements that have been replied *)
Record sinter_st := SInter {
  sn_db : db; sn_card : Z; sn_ints : bool; sn_dst : option sobj; sn_out : list effect }.

(** The element as it is added to the destination, and [only_integers] *)
Definition sinter_value (enc : set_encoding) (dstset : sobj) (ints : bool) (v : sval) : sval * bool :=
  match v with
  | VInt _ => (v, ints)
  | VStr str =>
      if ints then
        match (if bool_decide (enc = OBJ_ENCODING_HT) then string2ll str else None) with
        | Some n => (match dstset with SHt _ => v | _ => VInt n end, true)
        | None => (v, false)
        end
      else (v, false)
  end.

Definition sinter_body (enc : set_encoding) (key0 : list Z) (rest : list (option (list Z)))
    (cardinality_only : bool) (limit : Z) (st : sinter_st) (v : sval) : res (sinter_st * bool) :=
  '(d, b) ← in_all key0 rest v (sn_db st);
  if negb b then Ok (SInter d (sn_card st) (sn_ints st) (sn_dst st) (sn_out st), true) else
  if cardinality_only then
    let cardinality := u64 (sn_card st + 1) in
    Ok (SInter d cardinality (sn_ints st) (sn_dst st) (sn_out st),
        negb (negb (limit =? 0) && (cardinality >=? limit)))
  else
    match sn_dst st with
    | None =>
        e ← addReplyElement v;
        Ok (SInter d (u64 (sn_card st + 1)) (sn_ints st) None (sn_out st ++ [e]), true)
    | Some dstset =>
        let '(v, ints) := sinter_value enc dstset (sn_ints st) v in
        '(dstset, _) ← setTypeAddAux can dstset v;
        Ok (SInter d (sn_card st) ints (Some dstset) (sn_out st), true)
    end.

(** The destination that the loop starts with *)
Definition sinter_dst (o : sobj) : res sobj :=
  match o with
  | SIntset _ => Ok createIntsetObject
  | SListpack lp => n ← lpBytes lp; lp ← lpNew n; Ok (SListpack lp)
  | SHt _ => createSetListpackObject
  end.

(** What SINTERSTORE does with the result *)
Definition sinter_store (d : db) (dstkey : list Z) (ints : bool) (dstset : sobj) : res (db * list effect) :=
  '(n, dstset) ← setTypeSize dstset;
  if n >? 0 then
    dstset ← (if ints then maybeConvertToIntset dstset else Ok dstset);
    dstset ← match dstset with SListpack lp => lp ← lpShrinkToFit lp; Ok (SListpack lp) | _ => Ok dstset end;
    '(n, dstset) ← setTypeSize dstset;
    let '(d, effs) := setKey d dstkey (KSet dstset) in
    Ok (d, effs ++ [Reply (ReplyLongLong n); Notify "sinterstore" dstkey; Dirty 1])
  else
    let '(d, deleted) := delete_dst d dstkey in
    Ok (d, Reply czero :: (if deleted then [Dirty 1; KeyModified dstkey false; Notify "del" dstkey] else [])).

Definition sinterGenericCommand (d : db) (setkeys : list (list Z)) (dstkey : option (list Z))
    (cardinality_only : bool) (limit : Z) : res (db * list effect) :=
  match lookup_sets d setkeys with
  | None => Ok (d, [Reply wrongtypeerr])
  | Some sets =>
      if existsb (λ s, bool_decide (s = None)) sets then
        match dstkey with
        | Some dstkey =>
            let '(d, deleted) := delete_dst d dstkey in
            Ok (d, (if deleted then [KeyModified dstkey false; Notify "del" dstkey; Dirty 1] else []) ++ [Reply czero])
        | None => Ok (d, [Reply (if cardinality_only then ReplyLongLong 0 else ReplySetLen 0)])
        end
      else
        '(d, sets) ← sort_sets qsortCompareSetsByCardinality d sets;
        match sets with
        | Some key0 :: rest =>
            o ← set_at d key0;
            dstset ← match dstkey with Some _ => dst ← sinter_dst o; Ok (Some dst) | None => Ok None end;
            st ← iter_while o (sinter_body (encoding_of o) key0 rest cardinality_only limit)
                   (SInter d 0 true dstset []);
            if cardinality_only then Ok (sn_db st, [Reply (ReplyLongLong (sn_card st))]) else
            match dstkey, sn_dst st with
            | Some dstkey, Some dstset => sinter_store (sn_db st) dstkey (sn_ints st) dstset
            | _, _ => Ok (sn_db st, Reply (ReplySetLen (sn_card st)) :: sn_out st)
            end
        | _ => Fault OutOfBounds
        end
  end.

Definition sinterCommand (d : db) (argv : list (list Z)) := sinterGenericCommand d (drop 1 argv) None false 0.
Definition sinterstoreCommand (d : db) (argv : list (list Z)) :=
  sinterGenericCommand d (drop 2 argv) (Some (arg argv 1)) false 0.

(** The options after the keys: the last [LIMIT], or the reply *)
Fixpoint sintercard_options (args : list (list Z)) (limit : Z) : Z + reply :=
  match args with
  | [] => inl limit
  | opt :: args =>
      match args with
      | value :: args =>
          if strcaseeq opt "LIMIT" then
            match getPositiveLongFromObjectOrReply (RStr value) (Some "LIMIT can't be negative"%string) with
            | inr r => inr r
            | inl limit => sintercard_options args limit
            end
          else inr syntaxerr
      | [] => inr syntaxerr
      end
  end.

Definition sinterCardCommand (d : db) (argv : list (list Z)) : res (db * list effect) :=
  match getRangeLongFromObjectOrReply (RStr (arg argv 1)) 1 INT64_MAX "numkeys should be greater than 0" with
  | inr r => Ok (d, [Reply r])
  | inl numkeys =>
      if numkeys >? zlen argv - 2
      then Ok (d, [Reply (ReplyError "Number of keys can't be greater than number of args")]) else
      match sintercard_options (drop (2 + Z.to_nat numkeys) argv) 0 with
      | inr r => Ok (d, [Reply r])
      | inl limit => sinterGenericCommand d (take (Z.to_nat numkeys) (drop 2 argv)) None true limit
      end
  end.

(** ** SUNION, SDIFF and their variants that store *)

(** Whether a set after the first one is the first set *)
Definition same_set (sets : list (option (list Z))) : bool :=
  match sets with
  | Some key0 :: rest => existsb (λ s, bool_decide (s = Some key0)) rest
  | _ => false
  end.

(** [dstset_encoding] is that of an intset *)
Definition all_intsets (d : db) (sets : list (option (list Z))) : bool :=
  forallb (λ s, match s with
                | Some key => match d !! key with Some (KSet (SIntset _)) => true | _ => false end
                | None => true
                end) sets.

(** [algo_one_work] and [algo_two_work] *)
Fixpoint diff_work (d : db) (key0 : list Z) (sets : list (option (list Z))) (one two : Z) : res (db * Z * Z) :=
  match sets with
  | [] => Ok (d, one, two)
  | None :: sets => diff_work d key0 sets one two
  | Some key :: sets =>
      o ← set_at d key0;
      '(n0, o) ← setTypeSize o;
      let d := <[key0 := KSet o]> d in
      o ← set_at d key;
      '(n, o) ← setTypeSize o;
      let d := <[key := KSet o]> d in
      diff_work d key0 sets (s64 (one + n0)) (s64 (two + n))
  end.

(** The choice of the algorithm, 1 or 2, and the order of the sets *)
Definition diff_plan (d : db) (sets : list (option (list Z))) : res (db * Z * list (option (list Z))) :=
  match sets with
  | Some key0 :: rest =>
      '(d, one, two) ← diff_work d key0 sets 0 0;
      if Z.quot one 2 <=? two then
        '(d, rest) ← sort_sets qsortCompareSetsByRevCardinality d rest;
        Ok (d, 1, Some key0 :: rest)
      else Ok (d, 2, sets)
  | _ => Ok (d, 1, sets)
  end.

(** Whether one of the sets [rest] has the element; the search stops at the first *)
Fixpoint in_any (key0 : list Z) (rest : list (option (list Z))) (v : sval) (d : db) : res (db * bool) :=
  match rest with
  | [] => Ok (d, false)
  | None :: rest => in_any key0 rest v d
  | Some key :: rest =>
      if bool_decide (key = key0) then Ok (d, true) else
      o ← set_at d key;
      '(o, b) ← setTypeIsMemberAux can o v;
      let d := <[key := KSet o]> d in
      if b : bool then Ok (d, true) else in_any key0 rest v d
  end.

(** The result so far and [cardinality], an [int] *)
Abbreviation dst_st := (sobj * Z)%type.

Definition dst_add (st : dst_st) (v : sval) : res dst_st :=
  '(dstset, b) ← setTypeAddAux can st.1 v;
  Ok (dstset, if b : bool then s32 (st.2 + 1) else st.2).
Definition dst_remove (st : dst_st) (v : sval) : res dst_st :=
  '(dstset, b) ← setTypeRemoveAux can st.1 v;
  Ok (dstset, if b : bool then s32 (st.2 - 1) else st.2).

Fixpoint union_loop (d : db) (sets : list (option (list Z))) (st : dst_st) : res dst_st :=
  match sets with
  | [] => Ok st
  | None :: sets => union_loop d sets st
  | Some key :: sets => o ← set_at d key; st ← iter o dst_add st; union_loop d sets st
  end.

(** Algorithm 1 *)
Definition diff_filter (d : db) (key0 : list Z) (rest : list (option (list Z))) (st : dst_st) : res (db * dst_st) :=
  o ← set_at d key0;
  iter o (λ '(d, st) v,
    '(d, b) ← in_any key0 rest v d;
    if b : bool then Ok (d, st) else st ← dst_add st v; Ok (d, st)) (d, st).

(** Algorithm 2, for the sets after the first one *)
Fixpoint diff_remove (d : db) (rest : list (option (list Z))) (st : dst_st) : res dst_st :=
  match rest with
  | [] => Ok st
  | None :: rest => diff_remove d rest st
  | Some key :: rest =>
      o ← set_at d key;
      st ← iter o dst_remove st;
      if st.2 =? 0 then Ok st else diff_remove d rest st
  end.

(** The set that is the result, and its [cardinality] *)
Definition set_result (d : db) (op : set_op) (sets : list (option (list Z))) (dstset : sobj) : res (db * dst_st) :=
  match op with
  | SET_OP_UNION => st ← union_loop d sets (dstset, 0); Ok (d, st)
  | SET_OP_DIFF =>
      if same_set sets then Ok (d, (dstset, 0)) else
      '(d, algo, sets) ← diff_plan d sets;
      match sets with
      | Some key0 :: rest =>
          if algo =? 1 then diff_filter d key0 rest (dstset, 0)
          else
            o ← set_at d key0;
            st ← iter o dst_add (dstset, 0);
            st ← (if st.2 =? 0 then Ok st else diff_remove d rest st);
            Ok (d, st)
      | _ => Ok (d, (dstset, 0))
      end
  end.

Definition sunionDiffGenericCommand (d : db) (setkeys : list (list Z)) (dstkey : option (list Z)) (op : set_op)
    : res (db * list effect) :=
  match lookup_sets d setkeys with
  | None => Ok (d, [Reply wrongtypeerr])
  | Some sets =>
      let dstset := if bool_decide (is_Some dstkey) || all_intsets d sets then createIntsetObject else createSetObject in
      '(d, (dstset, cardinality)) ← set_result d op sets dstset;
      match dstkey with
      | None =>
          effs ← iter dstset (λ effs v, e ← addReplyElement v; Ok (effs ++ [e])) [];
          Ok (d, Reply (ReplySetLen cardinality) :: effs)
      | Some dstkey =>
          '(n, dstset) ← setTypeSize dstset;
          if n >? 0 then
            let '(d, effs) := setKey d dstkey (KSet dstset) in
            Ok (d, effs ++ [Reply (ReplyLongLong n);
                            Notify (match op with SET_OP_UNION => "sunionstore" | SET_OP_DIFF => "sdiffstore" end) dstkey;
                            Dirty 1])
          else
            let '(d, deleted) := delete_dst d dstkey in
            Ok (d, Reply czero :: (if deleted then [Dirty 1; KeyModified dstkey false; Notify "del" dstkey] else []))
      end
  end.

Definition sunionCommand (d : db) (argv : list (list Z)) := sunionDiffGenericCommand d (drop 1 argv) None SET_OP_UNION.
Definition sunionstoreCommand (d : db) (argv : list (list Z)) :=
  sunionDiffGenericCommand d (drop 2 argv) (Some (arg argv 1)) SET_OP_UNION.
Definition sdiffCommand (d : db) (argv : list (list Z)) := sunionDiffGenericCommand d (drop 1 argv) None SET_OP_DIFF.
Definition sdiffstoreCommand (d : db) (argv : list (list Z)) :=
  sunionDiffGenericCommand d (drop 2 argv) (Some (arg argv 1)) SET_OP_DIFF.
End commands.
