(* ===== verification/SetCmdSpec.v ===== *)
(** The commands on one set, and SMOVE, against finite sets of strings. *)

From S2P Require Import Prelude Endian Intset Numstr Sds Listpack LpNav LpMod LpApi Skiplist.
From S2P Require Import Double Object Dict SdsDict SetType SetRep SetSpec SetOps SetApi Keyspace.
From S2P Require Import KeyspaceRep SetCmd.

(** ** Effects up to the order in replies *)

Definition bulk (s : list Z) : effect := Reply (ReplyBulk s).

(** The strings after the length of a set are taken as a set. *)
Definition flush (X : option (gset (list Z))) : list effect := from_option (λ X, bulk <$> elements X) [] X.
Fixpoint group (X : option (gset (list Z))) (effs : list effect) : list effect :=
  match effs with
  | [] => flush X
  | e :: effs =>
      match e, X with
      | Reply (ReplyBulk s), Some X => group (Some ({[s]} ∪ X)) effs
      | Reply (ReplySetLen n), _ => flush X ++ e :: group (Some ∅) effs
      | _, _ => flush X ++ canon_eff e :: group None effs
      end
  end.

Definition canon_effs : list effect → list effect := group None.

Lemma group_bulks l : ∀ X effs, group (Some X) ((bulk <$> l) ++ effs) = group (Some (list_to_set l ∪ X)) effs.
Proof.
  induction l as [|s l IH]; intros X effs; [cbn; do 2 f_equal; set_solver|]. cbn [fmap list_fmap app group bulk]. rewrite IH.
  do 2 f_equal. cbn. set_solver.
Qed.

(** Replies of the same set in two orders *)
Lemma group_set n l l' effs : (list_to_set l : gset (list Z)) = list_to_set l' →
  canon_effs (Reply (ReplySetLen n) :: (bulk <$> l) ++ effs) = canon_effs (Reply (ReplySetLen n) :: (bulk <$> l') ++ effs).
Proof. intros E. unfold canon_effs. cbn [group flush]. by rewrite !group_bulks, E. Qed.

(** ** The abstract commands *)

Abbreviation ssize X := (Z.of_nat (size (X : gset (list Z)))).

(** A command on the set of a key *)
Definition on_sset (A : adb) (key : list Z) (missing : list effect) (f : gset (list Z) → adb * list effect)
    : adb * list effect :=
  match A !! key with
  | None => (A, missing)
  | Some (ASet X) => f X
  | Some _ => (A, [Reply wrongtypeerr])
  end.

(** A key that is not there has an empty set. *)
Definition sset (A : adb) (key : list Z) : gset (list Z) := match A !! key with Some (ASet X) => X | _ => ∅ end.

Definition put_sset (A : adb) (key : list Z) (X : gset (list Z)) : adb :=
  if decide (X = ∅) then delete key A else <[key := ASet X]> A.

Definition sadd_spec (A : adb) (argv : list (list Z)) : adb * list effect :=
  let key := arg argv 1 in
  let go X :=
    let X' := X ∪ list_to_set (drop 2 argv) in
    let added := ssize X' - ssize X in
    (<[key := ASet X']> A,
     (if added =? 0 then [] else [KeysizesHist key (ssize X) (ssize X'); KeyModified key true; Notify "sadd" key]) ++
     [Dirty added; Reply (ReplyLongLong added)]) in
  match A !! key with
  | None => go ∅
  | Some (ASet X) => go X
  | Some _ => (A, [Reply wrongtypeerr])
  end.

Definition srem_spec (A : adb) (argv : list (list Z)) : adb * list effect :=
  let key := arg argv 1 in
  on_sset A key [Reply czero] (λ X,
    let X' := X ∖ list_to_set (drop 2 argv) in
    let n := ssize X - ssize X' in
    let gone := bool_decide (X' = ∅) in
    (put_sset A key X',
     (if n =? 0 then [] else
        KeyModified key (negb gone) :: Notify "srem" key :: (if gone then [Notify "del" key] else []) ++
        [KeysizesHist key (ssize X) (if gone then -1 else ssize X'); Dirty n]) ++ [Reply (ReplyLongLong n)])).

(** The element moves if the first set has it. *)
Definition smove_spec (A : adb) (argv : list (list Z)) : adb * list effect :=
  let key1 := arg argv 1 in
  let key2 := arg argv 2 in
  let ele := arg argv 3 in
  let isin b := (A, [Reply (if b : bool then cone else czero)]) in
  on_sset A key1 [Reply czero] (λ X,
    let go Y :=
      if decide (ele ∈ X) then
        let X' := X ∖ {[ele]} in
        let gone := bool_decide (X' = ∅) in
        (<[key2 := ASet ({[ele]} ∪ Y)]> (put_sset A key1 X'),
         Notify "srem" key1 :: (if gone then [Notify "del" key1] else []) ++
         [KeysizesHist key1 (ssize X) (if gone then -1 else ssize X'); KeyModified key1 (negb gone); Dirty 1] ++
         (if decide (ele ∈ Y) then []
          else [KeysizesHist key2 (ssize Y) (ssize Y + 1); Dirty 1; KeyModified key2 true; Notify "sadd" key2]) ++
         [Reply cone])
      else (A, [Reply czero]) in
    match A !! key2 with
    | Some (ASet Y) => if bool_decide (key1 = key2) then isin (bool_decide (ele ∈ X)) else go Y
    | None => go ∅
    | Some _ => (A, [Reply wrongtypeerr])
    end).

Definition member_reply (X : gset (list Z)) (m : list Z) : effect := Reply (if bool_decide (m ∈ X) then cone else czero).

Definition sismember_spec (A : adb) (argv : list (list Z)) : adb * list effect :=
  on_sset A (arg argv 1) [Reply czero] (λ X, (A, [member_reply X (arg argv 2)])).

Definition smismember_spec (A : adb) (argv : list (list Z)) : adb * list effect :=
  let len := Reply (ReplyArrayLen (zlen argv - 2)) in
  on_sset A (arg argv 1) (len :: ((λ _, Reply czero) <$> drop 2 argv)) (λ X, (A, len :: (member_reply X <$> drop 2 argv))).

Definition scard_spec (A : adb) (argv : list (list Z)) : adb * list effect :=
  on_sset A (arg argv 1) [Reply czero] (λ X, (A, [Reply (ReplyLongLong (ssize X))])).

(** The reply with all elements of a set *)
Definition set_reply (X : gset (list Z)) : list effect := Reply (ReplySetLen (ssize X)) :: (bulk <$> elements X).

Definition smembers_spec (A : adb) (argv : list (list Z)) : adb * list effect :=
  on_sset A (arg argv 1) (set_reply ∅) (λ X, (A, set_reply X)).

Section cmds.
Context `{Arch} `{Allocator} `{SetConfig} `{FloatText} (can : dictResizeEnable).

(** The run gives the abstract database and the effects. *)
Definition implements (run : res (db * list effect)) (spec : adb * list effect) : Prop :=
  ∃ d' effs, run = Ok (d', effs) ∧ db_abs d' spec.1 ∧ canon_effs effs = canon_effs spec.2.

Lemma implements_ok d A effs : db_abs d A → implements (Ok (d, effs)) (A, effs).
Proof. intros HA. by eexists _, _. Qed.

(** The value of a key, on both sides *)
Lemma set_lookup d A key : db_abs d A →
  (d !! key = None ∧ A !! key = None) ∨
  (∃ o X, d !! key = Some (KSet o) ∧ A !! key = Some (ASet X) ∧ set_rep o X ∧ X ≠ ∅) ∨
  (∃ o M, d !! key = Some (KZset o) ∧ A !! key = Some (AZset M)) ∨
  (d !! key = Some (KOther OValue) ∧ A !! key = Some (AOther AValue)).
Proof.
  intros HA. destruct (db_abs_lookup d A key HA) as [?|[(v & a & -> & -> & Ho)|(o & M & -> & -> & _)]]; [auto| |eauto 10].
  destruct v as [o|], a as [X|]; cbn in Ho; try done; naive_solver.
Qed.

Lemma on_sset_ok (d : db) (A : adb) (key : list Z) (missing missing' : list effect) (run : sobj → res (db * list effect)) f :
  db_abs d A → canon_effs missing = canon_effs missing' →
  (∀ o X, d !! key = Some (KSet o) → A !! key = Some (ASet X) → set_rep o X → X ≠ ∅ → implements (run o) (f X)) →
  implements (match d !! key with
              | None => Ok (d, missing)
              | Some (KZset _) | Some (KOther OValue) => Ok (d, [Reply wrongtypeerr])
              | Some (KSet o) => run o
              end) (on_sset A key missing' f).
Proof.
  intros HA Hm Hf. unfold on_sset. destruct (set_lookup d A key HA) as [[-> ->]|[(o & X & Ed & EA & R & Hne)|[(o & M & -> & ->)|[-> ->]]]].
  - by eexists _, _.
  - rewrite Ed, EA. by apply Hf.
  - by apply implements_ok.
  - by apply implements_ok.
Qed.

Lemma db_abs_set d A key o X : db_abs d A → set_rep o X → X ≠ ∅ → db_abs (<[key := KSet o]> d) (<[key := ASet X]> A).
Proof. intros HA R Hne. by apply db_abs_insert. Qed.

(** The object changes, the set does not. *)
Lemma db_abs_kept d A key o X : db_abs d A → A !! key = Some (ASet X) → set_rep o X → db_abs (<[key := KSet o]> d) A.
Proof.
  intros HA EA R. rewrite <- (insert_id A key (ASet X)) by done. apply db_abs_set; [done|done|].
  destruct (set_lookup d A key HA) as [[_ E]|[(o' & X' & _ & E & _ & Hne)|[(? & ? & _ & E)|[_ E]]]]; congruence.
Qed.

Lemma put_sset_ok d A key o X : db_abs d A → set_rep o X →
  db_abs (if bool_decide (X = ∅) then delete key d else <[key := KSet o]> d) (put_sset A key X).
Proof.
  intros HA R. unfold put_sset. rewrite <- decide_bool_decide. destruct (decide (X = ∅)); [by apply db_abs_delete|by apply db_abs_set].
Qed.

(** ** SADD and SREM *)

Lemma size_add (X : gset (list Z)) m :
  ssize ({[m]} ∪ X) = ssize X + (if bool_decide (m ∉ X) then 1 else 0).
Proof.
  case_bool_decide as E; [rewrite size_union, size_singleton by set_solver; lia|].
  replace ({[m]} ∪ X) with X by set_solver. lia.
Qed.

Lemma size_remove (X : gset (list Z)) m :
  ssize (X ∖ {[m]}) = ssize X - (if bool_decide (m ∈ X) then 1 else 0).
Proof.
  case_bool_decide as E; [|replace (X ∖ {[m]}) with X by set_solver; lia].
  pose proof (size_add (X ∖ {[m]}) m) as Hs. rewrite bool_decide_true in Hs by set_solver.
  replace ({[m]} ∪ X ∖ {[m]}) with X in Hs by (rewrite <- union_difference_L; set_solver). lia.
Qed.

(** What the size of the set and the members to add leave room for *)
Lemma sadd_loop_ok members : ∀ o X added, config_ok → set_rep o X → Forall sds_ok members →
  ssize X + zlen members ≤ UINT64_MAX →
  let X' := X ∪ list_to_set members in
  ∃ o', sadd_loop can members o added = Ok (o', added + (ssize X' - ssize X)) ∧ set_rep o' X'.
Proof.
  induction members as [|m members IH]; intros o X added cfg R Hm Hn; cbn [sadd_loop]; cbv zeta.
  { exists o. cbn [list_to_set]. rewrite union_empty_r_L. split; [do 2 f_equal; lia|done]. }
  apply Forall_cons in Hm as [Hm Hms]. cbn [length] in Hn. unfold setTypeAdd.
  destruct (setTypeAddAux_ok can o X (VStr m) cfg R ltac:(unfold room_for; lia) Hm) as (o1 & -> & R1). rs. cbn [sval_s] in R1 |- *.
  pose proof (size_add X m) as Hs.
  destruct (IH o1 _ (if bool_decide (m ∉ X) then added + 1 else added) cfg R1 Hms) as (o2 & E & R2).
  { rewrite Hs. case_bool_decide; lia. }
  rewrite E. cbn [list_to_set]. replace (X ∪ ({[m]} ∪ list_to_set members)) with ({[m]} ∪ X ∪ list_to_set members) by set_solver.
  exists o2. split; [|done]. do 2 f_equal. rewrite Hs. case_bool_decide; lia.
Qed.

Lemma drop_len {A} n (l : list A) : Z.of_nat n ≤ zlen l → zlen (drop n l) = zlen l - Z.of_nat n.
Proof. intros. rewrite length_drop. lia. Qed.

Lemma sadd_cmd_ok d A argv : config_ok → db_abs d A → 3 ≤ zlen argv → Forall sds_ok argv →
  ssize (sset A (arg argv 1)) + zlen argv ≤ UINT64_MAX →
  implements (saddCommand can d argv) (sadd_spec A argv).
Proof.
  intros cfg HA Hlen Hs Hn. pose proof (drop_len 2 argv ltac:(lia)) as Hd.
  assert (∀ o X, set_rep o X → ssize X + zlen argv ≤ UINT64_MAX → let X' := X ∪ list_to_set (drop 2 argv) in
    let added := ssize X' - ssize X in let key := arg argv 1 in
    implements ('(o, added) ← sadd_loop can (drop 2 argv) o 0;
      '(effs, o) ←
        (if negb (added =? 0) then
           '(size, o) ← setTypeSize o;
           Ok ([KeysizesHist key (size - added) size; KeyModified key true; Notify "sadd" key], o)
         else Ok ([], o));
      Ok (<[key := KSet o]> d, effs ++ [Dirty added; Reply (ReplyLongLong added)]))
     (<[key := ASet X']> A,
     (if added =? 0 then [] else [KeysizesHist key (ssize X) (ssize X'); KeyModified key true; Notify "sadd" key]) ++
     [Dirty added; Reply (ReplyLongLong added)])) as Hgo.
  { intros o X R HX X' added key.
    destruct (sadd_loop_ok (drop 2 argv) o X 0 cfg R (Forall_drop _ 2 _ Hs)) as (o1 & -> & R1); [lia|]. rs.
    fold X' in R1 |- *. replace (0 + (ssize X' - ssize X)) with added by (unfold added; lia).
    assert (X' ≠ ∅) as Hne.
    { subst X'. destruct (drop 2 argv) as [|m l]; [cbn in Hd; lia|]. cbn. set_solver. }
    destruct (added =? 0); cbn [negb]; rs; [by eexists _, _; split_and!; [done|by apply db_abs_set|]|].
    destruct (setTypeSize_ok o1 X' R1) as (o2 & -> & R2 & _). rs. eexists _, _.
    split_and!; [done|by apply db_abs_set|]. by replace (ssize X' - added) with (ssize X) by (unfold added; lia). }
  unfold saddCommand, sadd_spec, sset in *. cbv zeta in *.
  destruct (set_lookup d A (arg argv 1) HA) as [[-> EA]|[(o & X & -> & EA & R & Hne)|[(? & ? & -> & EA)|[-> EA]]]];
    rewrite EA in Hn |- *; [..|by apply implements_ok|by apply implements_ok].
  - destruct (setTypeCreate_ok can (arg argv 2) (zlen argv - 2) cfg ltac:(lia)) as (o & -> & R). rs. by apply Hgo.
  - destruct (setTypeMaybeConvert_ok can o X (zlen argv - 2) R ltac:(lia)) as (o1 & -> & R1). rs. by apply Hgo.
Qed.

Lemma diff_step (X : gset (list Z)) m members : X ∖ {[m]} ∖ list_to_set members = X ∖ list_to_set (m :: members).
Proof. cbn [list_to_set]. set_solver. Qed.

Lemma srem_loop_ok members : ∀ o X deleted, set_rep o X → X ≠ ∅ → Forall sds_ok members →
  let X' := X ∖ list_to_set members in
  ∃ o', srem_loop can members o deleted = Ok (o', deleted + (ssize X - ssize X'), bool_decide (X' = ∅)) ∧ set_rep o' X'.
Proof.
  induction members as [|m members IH]; intros o X deleted R Hne Hm; cbn [srem_loop]; cbv zeta.
  { exists o. cbn [list_to_set]. rewrite difference_empty_L, bool_decide_false by done. split; [do 3 f_equal; lia|done]. }
  apply Forall_cons in Hm as [Hm Hms]. unfold setTypeRemove.
  destruct (setTypeRemoveAux_ok can o X (VStr m) R Hm) as (o1 & -> & R1). rs. cbn [sval_s] in R1 |- *.
  pose proof (size_remove X m) as Hs. rewrite <- diff_step. case_bool_decide as Em.
  - destruct (setTypeSize_ok o1 _ R1) as (o2 & -> & R2 & _). rs. destruct (Z.eqb_spec (ssize (X ∖ {[m]})) 0) as [E0|E0].
    + assert (X ∖ {[m]} = ∅) as E by (apply leibniz_equiv, size_empty_inv; lia). rewrite E in R2, Hs |- *.
      rewrite size_empty in Hs. replace (∅ ∖ list_to_set members) with (∅ : gset (list Z)) by set_solver.
      rewrite bool_decide_true, size_empty by done. exists o2. split; [do 3 f_equal; lia|done].
    + destruct (IH o2 _ (deleted + 1) R2) as (o3 & -> & R3); [intros E; by rewrite E, size_empty in E0|done|].
      exists o3. split; [do 3 f_equal; lia|done].
  - replace (X ∖ {[m]}) with X in * by set_solver. apply IH; done.
Qed.

Lemma srem_cmd_ok d A argv : db_abs d A → Forall sds_ok argv → implements (sremCommand can d argv) (srem_spec A argv).
Proof.
  intros HA Hs. unfold sremCommand, srem_spec. cbv zeta. apply on_sset_ok; [done|done|]. intros o X Ed EA R Hne.
  destruct (setTypeSize_ok o X R) as (o1 & -> & R1 & _). rs.
  destruct (srem_loop_ok (drop 2 argv) o1 X 0 R1 Hne (Forall_drop _ 2 _ Hs)) as (o2 & -> & R2). rs.
  set (X' := X ∖ _) in *. rewrite Z.add_0_l. eexists _, _. split_and!; [done|by apply put_sset_ok|]. cbn [snd].
  destruct (ssize X - ssize X' =? 0); cbn [negb]; [done|].
  by replace (ssize X - (ssize X - ssize X')) with (ssize X') by lia.
Qed.

(** ** SMOVE *)

Lemma smove_run_ok d A key1 key2 o X dst Y ele : config_ok → db_abs d A → key1 ≠ key2 →
  A !! key1 = Some (ASet X) → set_rep o X → match dst with Some o => set_rep o Y | None => Y = ∅ end →
  room_for Y → sds_ok ele →
  implements (smove_run can d key1 key2 o dst ele)
    (if decide (ele ∈ X) then
       let X' := X ∖ {[ele]} in
       let gone := bool_decide (X' = ∅) in
       (<[key2 := ASet ({[ele]} ∪ Y)]> (put_sset A key1 X'),
        Notify "srem" key1 :: (if gone then [Notify "del" key1] else []) ++
        [KeysizesHist key1 (ssize X) (if gone then -1 else ssize X'); KeyModified key1 (negb gone); Dirty 1] ++
        (if decide (ele ∈ Y) then []
         else [KeysizesHist key2 (ssize Y) (ssize Y + 1); Dirty 1; KeyModified key2 true; Notify "sadd" key2]) ++
        [Reply cone])
     else (A, [Reply czero])).
Proof.
  intros cfg HA Hk EA R Rd Hroom He. unfold smove_run, setTypeRemove, setTypeAdd. cbv zeta.
  destruct (setTypeRemoveAux_ok can o X (VStr ele) R He) as (o1 & -> & R1). rs. cbn [sval_s] in R1 |- *.
  pose proof (size_remove X ele) as Hs. destruct (decide (ele ∈ X)) as [Ein|Ein]; [rewrite bool_decide_true in Hs |- * by done|
    rewrite bool_decide_false by done; replace (X ∖ {[ele]}) with X in R1 by set_solver; cbn [negb];
    eexists _, _; split_and!; [done|by eapply db_abs_kept|done]].
  cbn [negb]. set (X' := X ∖ {[ele]}) in *. destruct (setTypeSize_ok o1 X' R1) as (o2 & -> & R2 & _). rs.
  replace (ssize X' + 1) with (ssize X) by lia. assert ((ssize X' =? 0) = bool_decide (X' = ∅)) as ->.
  { case_bool_decide as E; [by rewrite E, size_empty|]. apply Z.eqb_neq. intros E0. apply E, leibniz_equiv, size_empty_inv. lia. }
  assert (∃ dst', match dst with Some o => Ok o | None => setTypeCreate can ele 1 end = Ok dst' ∧ set_rep dst' Y) as (dst' & -> & Rd').
  { destruct dst as [dst|]; [by exists dst|]. subst Y. by apply setTypeCreate_ok. }
  rs. destruct (setTypeAddAux_ok can dst' Y (VStr ele) cfg Rd' Hroom He) as (o3 & -> & R3). rs. cbn [sval_s] in R3 |- *.
  assert (∀ o4, set_rep o4 ({[ele]} ∪ Y) → db_abs (<[key2:=KSet o4]>
    (if bool_decide (X' = ∅) then delete key1 (<[key1:=KSet o1]> d) else <[key1:=KSet o2]> (<[key1:=KSet o1]> d)))
    (<[key2 := ASet ({[ele]} ∪ Y)]> (put_sset A key1 X'))) as Hdb.
  { intros o4 R4. apply db_abs_set; [|done|set_solver]. rewrite delete_insert_eq, insert_insert_eq. by apply put_sset_ok. }
  pose proof (size_add Y ele) as HsY. destruct (decide (ele ∈ Y)) as [EY|EY].
  - rewrite (bool_decide_false (ele ∉ Y)) by (by intros Hn; apply Hn). rs. by eexists _, _; split_and!; [done|by apply Hdb|].
  - rewrite (bool_decide_true (ele ∉ Y)) in HsY |- * by done. destruct (setTypeSize_ok o3 _ R3) as (o4 & -> & R4 & _). rs.
    eexists _, _. split_and!; [done|by apply Hdb|]. rewrite HsY. by replace (ssize Y + 1 - 1) with (ssize Y) by lia.
Qed.

Lemma smove_cmd_ok d A argv : config_ok → db_abs d A → sds_ok (arg argv 3) → room_for (sset A (arg argv 2)) →
  implements (smoveCommand can d argv) (smove_spec A argv).
Proof.
  intros cfg HA He Hroom. unfold smoveCommand, smove_spec, sset in *. cbv zeta. apply on_sset_ok; [done|done|].
  intros o X Ed EA R Hne.
  destruct (set_lookup d A (arg argv 2) HA) as [[-> EA2]|[(o2 & Y & Ed2 & EA2 & R2 & _)|[(? & ? & -> & EA2)|[-> EA2]]]];
    rewrite EA2 in Hroom |- *; [|rewrite Ed2|by apply implements_ok..].
  - assert (arg argv 1 ≠ arg argv 2) as Hk by congruence. rewrite bool_decide_false by done. by apply smove_run_ok.
  - case_bool_decide as Hk; [|by apply smove_run_ok]. rewrite <- Hk in *. unfold setTypeIsMember.
    destruct (setTypeIsMemberAux_ok can o X (VStr (arg argv 3)) R He) as (o1 & -> & R1). rs.
    eexists _, _. split_and!; [done|by apply (db_abs_kept d A _ o1 X)|done].
Qed.

(** ** Queries *)

Lemma sismember_cmd_ok d A argv : db_abs d A → sds_ok (arg argv 2) →
  implements (sismemberCommand can d argv) (sismember_spec A argv).
Proof.
  intros HA Hm. unfold sismemberCommand, sismember_spec. cbv zeta. apply on_sset_ok; [done|done|]. intros o X Ed EA R Hne.
  unfold setTypeIsMember. destruct (setTypeIsMemberAux_ok can o X (VStr (arg argv 2)) R Hm) as (o1 & -> & R1). rs.
  eexists _, _. split_and!; [done|by eapply db_abs_kept|done].
Qed.

Lemma smismember_loop_ok members : ∀ o X, set_rep o X → Forall sds_ok members →
  ∃ o', smismember_loop can members o = Ok (o', member_reply X <$> members) ∧ set_rep o' X.
Proof.
  induction members as [|m members IH]; intros o X R Hm; cbn [smismember_loop]; [by exists o|].
  apply Forall_cons in Hm as [Hm Hms]. unfold setTypeIsMember.
  destruct (setTypeIsMemberAux_ok can o X (VStr m) R Hm) as (o1 & -> & R1). rs.
  destruct (IH o1 X R1 Hms) as (o2 & -> & R2). rs. by exists o2.
Qed.

Lemma smismember_cmd_ok d A argv : db_abs d A → Forall sds_ok argv →
  implements (smismemberCommand can d argv) (smismember_spec A argv).
Proof.
  intros HA Hm. unfold smismemberCommand, smismember_spec. cbv zeta. apply on_sset_ok; [done|done|]. intros o X Ed EA R Hne.
  destruct (smismember_loop_ok (drop 2 argv) o X R (Forall_drop _ 2 _ Hm)) as (o1 & -> & R1). rs.
  eexists _, _. split_and!; [done|by eapply db_abs_kept|done].
Qed.

Lemma scard_cmd_ok d A argv : db_abs d A → implements (scardCommand d argv) (scard_spec A argv).
Proof.
  intros HA. unfold scardCommand, scard_spec. cbv zeta. apply on_sset_ok; [done|done|]. intros o X Ed EA R Hne.
  destruct (setTypeSize_ok o X R) as (o1 & -> & R1 & _). rs.
  eexists _, _. split_and!; [done|by eapply db_abs_kept|done].
Qed.

Lemma reply_element_ok v : sval_ok v → addReplyElement v = Ok (bulk (sval_s v)).
Proof.
  destruct v as [s|v]; [done|]. intros Hv. cbn [addReplyElement sval_s]. pose proof (decs_len v Hv).
  rewrite ll2string_ok by (done || rewrite local_buf_length; lia). rs. by rewrite Nat2Z.id, take_app_length.
Qed.

(** A set that is replied *)
Lemma set_reply_canon (vs : list sval) (X : gset (list Z)) (effs : list effect) : NoDup (sval_s <$> vs) → X = list_to_set (sval_s <$> vs) →
  canon_effs (Reply (ReplySetLen (zlen vs)) :: (bulk <$> (sval_s <$> vs)) ++ effs) = canon_effs (set_reply X ++ effs).
Proof.
  intros Hnd ->. unfold set_reply. rewrite size_list_to_set, length_fmap by done. apply group_set.
  by rewrite list_to_set_elements_L.
Qed.

Lemma smembers_cmd_ok d A argv : db_abs d A → implements (smembersCommand d argv) (smembers_spec A argv).
Proof.
  intros HA. unfold smembersCommand, smembers_spec. cbv zeta. apply on_sset_ok; [done|done|]. intros o X Ed EA R Hne.
  destruct (setTypeSize_ok o X R) as (o1 & -> & R1 & _). rs. destruct R1 as [Ho1 Hb1]. pose proof Ho1 as (vs & [L Hok Hnd] & E).
  rewrite (iter_ok o1 vs) by done.
  destruct (each_inv (λ l (st : Z * list effect), st = (ssize X - zlen l, bulk <$> (sval_s <$> l)))
    (λ '(n, effs) v, e ← addReplyElement v; Ok (n - 1, effs ++ [e])) vs (ssize X, []) []) as (st & -> & ->).
  { cbn. f_equal. lia. }
  { intros l v r st El ->. cbn in El. subst vs. apply Forall_app in Hok as [_ [Hv _]%Forall_cons].
    rewrite reply_element_ok by done. rs. eexists. split; [done|]. rewrite !fmap_app, length_app. cbn. f_equal. lia. }
  rs. cbn [app]. subst X. rewrite size_list_to_set, length_fmap by done. rewrite Z.sub_diag. rs.
  eexists _, _. split_and!; [done|eapply db_abs_kept; [done..|by split]|]. cbn [snd].
  rewrite <- (app_nil_r (bulk <$> _)), <- (app_nil_r (set_reply _)). by apply set_reply_canon.
Qed.
End cmds.
