(* ===== verification/SetMulti.v ===== *)
(** The commands on several sets against intersection, union and difference of finite
    sets: the specifications, and what the loops share. *)

From S2P Require Import Prelude Endian Intset Numstr Sds Listpack LpNav LpMod LpApi Skiplist.
From S2P Require Import Double Object Dict SdsDict SetType SetRep SetSpec SetOps SetApi Keyspace.
From S2P Require Import KeyspaceRep SetCmd SetCmdSpec.

(** ** The abstract commands *)

(** A key has a set or nothing. *)
Definition sset_typed (A : adb) (key : list Z) : bool :=
  match A !! key with None | Some (ASet _) => true | _ => false end.

(** A command on sets that fails if a key has a value of another type *)
Definition on_ssets (A : adb) (keys : list (list Z)) (go : adb * list effect) : adb * list effect :=
  if forallb (sset_typed A) keys then go else (A, [Reply wrongtypeerr]).

Definition inter_of (A : adb) (keys : list (list Z)) : gset (list Z) :=
  match keys with [] => ∅ | key :: keys => foldr (λ k X, sset A k ∩ X) (sset A key) keys end.
Definition union_of (A : adb) (keys : list (list Z)) : gset (list Z) := ⋃ (sset A <$> keys).
Definition diff_of (A : adb) (keys : list (list Z)) : gset (list Z) :=
  match keys with [] => ∅ | key :: keys => sset A key ∖ union_of A keys end.

Definition deleted_dst (A : adb) (dst : list Z) (effs : list effect) : list effect :=
  match A !! dst with None => [] | Some _ => effs end.

(** The result is stored; an empty one deletes the destination. *)
Definition store_sset (A : adb) (event : string) (dst : list Z) (X : gset (list Z)) : adb * list effect :=
  if decide (X = ∅)
  then (delete dst A, Reply czero :: deleted_dst A dst [Dirty 1; KeyModified dst false; Notify "del" dst])
  else
    (<[dst := ASet X]> A,
     match A !! dst with
     | None => []
     | Some (ASet _) => [Notify "overwritten" dst]
     | Some _ => [Notify "overwritten" dst; Notify "type_changed" dst]
     end ++ [KeyModified dst true; Reply (ReplyLongLong (ssize X)); Notify event dst; Dirty 1]).

Definition sinter_spec (A : adb) (argv : list (list Z)) : adb * list effect :=
  let keys := drop 1 argv in on_ssets A keys (A, set_reply (inter_of A keys)).

(** A key that is not there is noticed first, and the effects come in another order. *)
Definition sinterstore_spec (A : adb) (argv : list (list Z)) : adb * list effect :=
  let keys := drop 2 argv in
  let dst := arg argv 1 in
  on_ssets A keys
    (if forallb (λ k, bool_decide (is_Some (A !! k))) keys then store_sset A "sinterstore" dst (inter_of A keys)
     else (delete dst A, deleted_dst A dst [KeyModified dst false; Notify "del" dst; Dirty 1] ++ [Reply czero])).

(** A limit of 0 is none. *)
Definition limited (limit n : Z) : Z := if limit =? 0 then n else Z.min limit n.

Definition sintercard_spec (A : adb) (argv : list (list Z)) : adb * list effect :=
  match getRangeLongFromObjectOrReply (RStr (arg argv 1)) 1 INT64_MAX "numkeys should be greater than 0" with
  | inr r => (A, [Reply r])
  | inl numkeys =>
      if numkeys >? zlen argv - 2
      then (A, [Reply (ReplyError "Number of keys can't be greater than number of args")]) else
      match sintercard_options (drop (2 + Z.to_nat numkeys) argv) 0 with
      | inr r => (A, [Reply r])
      | inl limit =>
          let keys := take (Z.to_nat numkeys) (drop 2 argv) in
          on_ssets A keys (A, [Reply (ReplyLongLong (limited limit (ssize (inter_of A keys))))])
      end
  end.

Definition sunion_spec (A : adb) (argv : list (list Z)) : adb * list effect :=
  let keys := drop 1 argv in on_ssets A keys (A, set_reply (union_of A keys)).
Definition sunionstore_spec (A : adb) (argv : list (list Z)) : adb * list effect :=
  let keys := drop 2 argv in on_ssets A keys (store_sset A "sunionstore" (arg argv 1) (union_of A keys)).
Definition sdiff_spec (A : adb) (argv : list (list Z)) : adb * list effect :=
  let keys := drop 1 argv in on_ssets A keys (A, set_reply (diff_of A keys)).
Definition sdiffstore_spec (A : adb) (argv : list (list Z)) : adb * list effect :=
  let keys := drop 2 argv in on_ssets A keys (store_sset A "sdiffstore" (arg argv 1) (diff_of A keys)).

(** ** Sets by key *)

(** The keys that have a set, as [lookup_sets] finds them *)
Definition present (A : adb) (key : list Z) : option (list Z) := if decide (is_Some (A !! key)) then Some key else None.

(** The sets that a command works on *)
Definition set_known (A : adb) (s : option (list Z)) : Prop :=
  match s with Some key => ∃ X, A !! key = Some (ASet X) | None => True end.

Definition oset (A : adb) (s : option (list Z)) : gset (list Z) := from_option (sset A) ∅ s.

Lemma oset_present A key : oset A (present A key) = sset A key.
Proof. unfold present. destruct (decide _) as [|E]; [done|]. unfold oset, sset. by rewrite (proj2 (eq_None_not_Some _) E). Qed.

Lemma union_present A keys : ⋃ (oset A <$> (present A <$> keys)) = union_of A keys.
Proof. unfold union_of. rewrite <- list_fmap_compose. f_equal. apply list_fmap_ext. intros. apply oset_present. Qed.

Lemma elem_of_inter A x keys : keys ≠ [] → x ∈ inter_of A keys ↔ ∀ k, k ∈ keys → x ∈ sset A k.
Proof.
  destruct keys as [|key keys]; [done|]. intros _. cbn [inter_of]. induction keys as [|k keys IH]; cbn [foldr]; set_solver.
Qed.

Lemma elem_of_osets A x sets : x ∈ ⋃ (oset A <$> sets) ↔ ∃ s, s ∈ sets ∧ x ∈ oset A s.
Proof. rewrite elem_of_union_list. set_solver. Qed.

Section multi.
Context `{Arch} `{Allocator} `{SetConfig} `{FloatText} `{Qsort} (can : dictResizeEnable).

Lemma lookup_sets_ok d A keys : db_abs d A →
  lookup_sets d keys = if forallb (sset_typed A) keys then Some (present A <$> keys) else None.
Proof.
  intros HA. induction keys as [|key keys IH]; [done|]. cbn [lookup_sets forallb fmap list_fmap]. unfold sset_typed at 1, present at 1.
  rewrite IH. destruct (set_lookup d A key HA) as [[-> ->]|[(o & X & -> & -> & _)|[(o & M & -> & ->)|[-> ->]]]]; cbn; try done;
    by destruct (forallb _ _).
Qed.

Lemma present_known A keys : forallb (sset_typed A) keys = true → Forall (set_known A) (present A <$> keys).
Proof.
  intros Ht. apply Forall_fmap, Forall_forall. intros key Hk. rewrite forallb_forall in Ht.
  specialize (Ht key ltac:(by apply list_elem_of_In)). unfold sset_typed, present in *. cbn.
  destruct (A !! key) as [[M|[X|]]|] eqn:E; try done; cbn. by exists X.
Qed.

Lemma set_at_ok d A key X : db_abs d A → A !! key = Some (ASet X) → ∃ o, set_at d key = Ok o ∧ set_rep o X.
Proof.
  intros HA EA. unfold set_at. destruct (set_lookup d A key HA) as [[_ E]|[(o & X' & -> & E & R & _)|[(? & ? & _ & E)|[_ E]]]];
    rewrite EA in E; simplify_eq. by exists o.
Qed.

Lemma sset_eq A key X : A !! key = Some (ASet X) → sset A key = X.
Proof. unfold sset. by intros ->. Qed.

(** Asking for a size *)
Lemma size_at_ok d A key X : db_abs d A → A !! key = Some (ASet X) →
  ∃ o o', set_at d key = Ok o ∧ setTypeSize o = Ok (ssize X, o') ∧ db_abs (<[key := KSet o']> d) A.
Proof.
  intros HA EA. destruct (set_at_ok d A key X HA EA) as (o & E & R). destruct (setTypeSize_ok o X R) as (o' & E' & R' & _).
  exists o, o'. split_and!; [done..|]. by eapply db_abs_kept.
Qed.

(** Asking for an element *)
Lemma member_at_ok d A key X v : db_abs d A → A !! key = Some (ASet X) → sval_ok v →
  ∃ o o', set_at d key = Ok o ∧ setTypeIsMemberAux can o v = Ok (o', bool_decide (sval_s v ∈ X)) ∧
    db_abs (<[key := KSet o']> d) A.
Proof.
  intros HA EA Hv. destruct (set_at_ok d A key X HA EA) as (o & E & R).
  destruct (setTypeIsMemberAux_ok can o X v R Hv) as (o' & E' & R').
  exists o, o'. split_and!; [done..|]. by eapply db_abs_kept.
Qed.

Lemma set_sizes_ok A sets : Forall (set_known A) sets → ∀ d, db_abs d A →
  ∃ d' l, set_sizes d sets = Ok (d', l) ∧ l.*2 = sets ∧ db_abs d' A.
Proof.
  induction 1 as [|s sets Hs _ IH]; intros d HA; cbn [set_sizes]; [by exists d, []|].
  assert (∃ d' n, match s with None => Ok (d, 0)
    | Some key => o ← set_at d key; '(n, o) ← setTypeSize o; Ok (<[key := KSet o]> d, n) end = Ok (d', n) ∧ db_abs d' A)
    as (d1 & n & -> & HA1).
  { destruct s as [key|]; [|by exists d, 0]. destruct Hs as [X EA].
    destruct (size_at_ok d A key X HA EA) as (o & o' & -> & E & HA'). rs. rewrite E. rs. eauto. }
  rs. destruct (IH d1 HA1) as (d2 & l & -> & <- & HA2). rs. by exists d2, ((n, s) :: l).
Qed.

Lemma sort_sets_ok cmp A sets d : Forall (set_known A) sets → db_abs d A →
  ∃ d' sets', sort_sets cmp d sets = Ok (d', sets') ∧ sets' ≡ₚ sets ∧ db_abs d' A.
Proof.
  intros Hs HA. unfold sort_sets. destruct (_ <? _); [by exists d, sets|].
  destruct (set_sizes_ok A sets Hs d HA) as (d' & l & -> & <- & HA'). rs. exists d', (qsort cmp l).*2.
  split_and!; [done| |done]. by apply fmap_Permutation, qsort_perm.
Qed.

(** ** Results *)

Lemma is_empty_size (X : gset (list Z)) : (ssize X >? 0) = negb (bool_decide (X = ∅)).
Proof.
  case_bool_decide as E; [by rewrite E, size_empty|]. assert (size X ≠ 0%nat) as Hn by (intros ?; by apply E, leibniz_equiv, size_empty_inv).
  cbn. lia.
Qed.

Lemma delete_dst_ok d A dst effs : db_abs d A →
  db_abs (delete_dst d dst).1 (delete dst A) ∧ (if (delete_dst d dst).2 then effs else []) = deleted_dst A dst effs.
Proof.
  intros HA. split; [by apply db_abs_delete|]. cbn. unfold deleted_dst.
  destruct (set_lookup d A dst HA) as [[-> ->]|[(? & ? & -> & -> & _)|[(? & ? & -> & ->)|[-> ->]]]]; done.
Qed.

(** The result of a command that stores *)
Lemma store_ok d A dst event o X : db_abs d A → set_rep o X →
  implements (if ssize X >? 0 then
      let '(d, effs) := setKey d dst (KSet o) in
      Ok (d, effs ++ [Reply (ReplyLongLong (ssize X)); Notify event dst; Dirty 1])
    else
      let '(d, deleted) := delete_dst d dst in
      Ok (d, Reply czero :: (if deleted : bool then [Dirty 1; KeyModified dst false; Notify "del" dst] else [])))
    (store_sset A event dst X).
Proof.
  intros HA R. unfold store_sset. rewrite is_empty_size. destruct (decide (X = ∅)) as [E|E].
  - rewrite bool_decide_true by done. cbn [negb].
    destruct (delete_dst_ok d A dst [Dirty 1; KeyModified dst false; Notify "del" dst] HA) as [HA' Ed].
    destruct (delete_dst d dst) as [d' deleted]. cbn in HA', Ed. rewrite Ed. by apply implements_ok.
  - rewrite bool_decide_false by done. cbn [negb setKey]. eexists _, _. split_and!; [done|by apply db_abs_set|]. cbn [snd].
    rewrite <- app_assoc. do 2 f_equal.
    destruct (set_lookup d A dst HA) as [[-> ->]|[(? & ? & -> & -> & _)|[(? & ? & -> & ->)|[-> ->]]]]; done.
Qed.

(** The reply of a result *)
Lemma reply_ok o X : set_rep o X → ∃ effs, iter o (λ effs v, e ← addReplyElement v; Ok (effs ++ [e])) [] = Ok effs ∧
  canon_effs (Reply (ReplySetLen (ssize X)) :: effs) = canon_effs (set_reply X).
Proof.
  intros [(vs & [L Hok Hnd] & E) _]. rewrite (iter_ok o vs) by done.
  destruct (each_inv (λ l (effs : list effect), effs = bulk <$> (sval_s <$> l))
    (λ effs v, e ← addReplyElement v; Ok (effs ++ [e])) vs [] []) as (effs & -> & ->); [done| |].
  { intros l v r effs El ->. cbn in El. subst vs. apply Forall_app in Hok as [_ [Hv _]%Forall_cons].
    rewrite reply_element_ok by done. rs. eexists. split; [done|]. by rewrite !fmap_app. }
  eexists. split; [done|]. cbn [app]. replace (ssize X) with (zlen vs) by (by rewrite E, size_list_to_set, length_fmap).
  rewrite <- (app_nil_r (bulk <$> _)), <- (app_nil_r (set_reply _)). by apply set_reply_canon.
Qed.
End multi.
