(* ===== verification/SetInter.v ===== *)
(** SINTER, SINTERSTORE and SINTERCARD compute the intersection. *)

From S2P Require Import Prelude Endian Intset Numstr Sds Listpack LpNav LpMod LpApi Skiplist.
From S2P Require Import Double Object Dict SdsDict SetType SetRep SetSpec SetOps SetApi Keyspace.
From S2P Require Import KeyspaceRep SetCmd SetCmdSpec SetMulti.

(** A loop with [break] that keeps a relation to the elements seen so far *)
Lemma each_while_inv {A B} (P : list B → A → Prop) (Q : A → Prop) (f : A → B → res (A * bool)) vs : ∀ s l0,
  P l0 s → (∀ s, P (l0 ++ vs) s → Q s) →
  (∀ l v r s, l0 ++ vs = l ++ v :: r → P l s →
    ∃ s' continue, f s v = Ok (s', continue) ∧ if continue : bool then P (l ++ [v]) s' else Q s') →
  ∃ s', each_while f s vs = Ok s' ∧ Q s'.
Proof.
  induction vs as [|v vs IH]; intros s l0 HP HQ Hf; cbn [each_while].
  { exists s. split; [done|]. apply HQ. by rewrite app_nil_r. }
  destruct (Hf l0 v vs s eq_refl HP) as (s1 & [|] & -> & H1); rs; [|by exists s1].
  apply (IH s1 (l0 ++ [v]) H1).
  - intros s'. rewrite <- app_assoc. apply HQ.
  - intros l w r s' E. rewrite <- app_assoc in E. by apply (Hf l w r).
Qed.

(** The elements of [l] that are in [I] *)
Definition common (I : gset (list Z)) (l : list sval) : list (list Z) := filter (λ s, s ∈ I) (sval_s <$> l).

Lemma common_snoc I l v : common I (l ++ [v]) = common I l ++ (if decide (sval_s v ∈ I) then [sval_s v] else []).
Proof. unfold common. by rewrite fmap_app, filter_app. Qed.

Lemma common_cons I v l : sval_s v ∈ I → common I (v :: l) = sval_s v :: common I l.
Proof. intros Hv. unfold common. cbn [fmap list_fmap]. by rewrite filter_cons_True. Qed.

Lemma common_all (I : gset (list Z)) vs : NoDup (sval_s <$> vs) → I ⊆ list_to_set (sval_s <$> vs) →
  NoDup (common I vs) ∧ list_to_set (common I vs) = I.
Proof.
  intros Hnd Hsub. split; [by apply NoDup_filter|]. apply set_eq. intros x. unfold common.
  rewrite elem_of_list_to_set, list_elem_of_filter. specialize (Hsub x). rewrite elem_of_list_to_set in Hsub. naive_solver.
Qed.

Lemma common_len I l : zlen (common I l) ≤ zlen l.
Proof. unfold common. pose proof (length_filter (λ s, s ∈ I) (sval_s <$> l)) as Hl. rewrite length_fmap in Hl. lia. Qed.

Lemma size_of_list (l : list (list Z)) : ssize (list_to_set l) ≤ zlen l.
Proof.
  induction l as [|s l IH]; [done|]. cbn [list_to_set length]. rewrite size_add. case_bool_decide; lia.
Qed.

Section inter.
Context `{Arch} `{Allocator} `{SetConfig} `{FloatText} `{Qsort} (can : dictResizeEnable).

Lemma in_all_ok A key0 rest v : sval_ok v → Forall (set_known A) rest → None ∉ rest → ∀ d, db_abs d A →
  ∃ d', in_all can key0 rest v d = Ok (d', bool_decide (Forall (λ s, s ≠ Some key0 → sval_s v ∈ oset A s) rest)) ∧ db_abs d' A.
Proof.
  intros Hv Hk Hn. induction Hk as [|s rest Hs _ IH]; intros d HA; cbn [in_all]; [by exists d; rewrite bool_decide_true|].
  apply not_elem_of_cons in Hn as [Hs0 Hn]. destruct (decide (s = Some key0)) as [E|E].
  { rewrite (bool_decide_true (s = Some key0)) by done. destruct (IH Hn d HA) as (d' & -> & HA'). exists d'. split; [|done]. do 2 f_equal. apply bool_decide_ext.
    rewrite Forall_cons. naive_solver. }
  rewrite (bool_decide_false (s = Some key0)) by done.
  destruct s as [key|]; [|done]. destruct Hs as [X EA]. cbn [nonnull]. rs.
  destruct (member_at_ok can d A key X v HA EA Hv) as (o & o' & -> & Em & HA'). rs. rewrite Em. rs.
  assert (oset A (Some key) = X) as EX by by apply sset_eq.
  destruct (decide (sval_s v ∈ X)) as [Ei|Ei].
  - rewrite (bool_decide_true (sval_s v ∈ X)) by done. destruct (IH Hn _ HA') as (d' & -> & HA2). exists d'. split; [|done].
    do 2 f_equal. apply bool_decide_ext. rewrite Forall_cons, EX. naive_solver.
  - rewrite (bool_decide_false (sval_s v ∈ X)) by done. eexists. split; [|done]. rewrite bool_decide_false; [done|].
    intros [Hf _]%Forall_cons. rewrite EX in Hf. naive_solver.
Qed.

(** The loop, for the elements [vs] of the smallest set *)
Section loop.
Context (A : adb) (key0 : list Z) (rest : list (option (list Z))) (I : gset (list Z)) (vs : list sval).
Context (Hk : Forall (set_known A) rest) (Hn : None ∉ rest) (Hok : Forall sval_ok vs) (Hlen : zlen vs ≤ UINT64_MAX).
Context (HI : ∀ v, v ∈ vs → sval_s v ∈ I ↔ Forall (λ s, s ≠ Some key0 → sval_s v ∈ oset A s) rest).

Lemma in_all_step l v r d : vs = l ++ v :: r → db_abs d A →
  sval_ok v ∧ zlen (common I l) < UINT64_MAX ∧
  ∃ d', in_all can key0 rest v d = Ok (d', bool_decide (sval_s v ∈ I)) ∧ db_abs d' A.
Proof.
  intros E HA. assert (v ∈ vs) as Hin by (rewrite E; set_solver).
  assert (sval_ok v) as Hv by (by eapply Forall_forall in Hok).
  split_and!; [done|pose proof (common_len I l); rewrite E, length_app in Hlen; cbn in Hlen; lia|].
  destruct (in_all_ok A key0 rest v Hv Hk Hn d HA) as (d' & -> & HA'). exists d'. split; [|done]. do 2 f_equal.
  apply bool_decide_ext. symmetry. by apply HI.
Qed.

Lemma card_loop_ok enc limit d : db_abs d A → 0 ≤ limit →
  ∃ st, each_while (sinter_body can enc key0 rest true limit) (SInter d 0 true None []) vs = Ok st ∧
    db_abs (sn_db st) A ∧ sn_card st = limited limit (zlen (common I vs)).
Proof.
  intros HA Hl. unfold limited.
  apply (each_while_inv (λ l st, db_abs (sn_db st) A ∧ sn_card st = zlen (common I l) ∧ (limit = 0 ∨ sn_card st < limit)))
    with (l0 := []); [split_and!; [done..|cbn; lia]| |].
  { intros st (HA' & E & Hlt). split; [done|]. cbn [app] in E. rewrite E in *. destruct (Z.eqb_spec limit 0); [done|]. lia. }
  cbn [app]. intros l v r st E (HA' & Ec & Hlt). destruct (in_all_step l v r _ E HA') as (Hv & Hs & d' & Ei & HA2).
  unfold sinter_body. rewrite Ei. rs. rewrite common_snoc, length_app. destruct (decide (sval_s v ∈ I)) as [Hin|Hin].
  - rewrite (bool_decide_true (sval_s v ∈ I)) by done. cbn [negb length]. rewrite Ec, u64_small by lia. eexists _, _. split; [done|].
    destruct (Z.eqb_spec limit 0) as [El|El]; cbn [negb andb sn_db sn_card]; [split_and!; [done|lia|lia]|].
    destruct (Z.geb_spec (zlen (common I l) + 1) limit); cbn [negb]; split_and!; try done; try lia.
    assert (zlen (common I vs) = zlen (common I l) + zlen (common I (v :: r))) as ->.
    { rewrite E. unfold common. rewrite fmap_app, filter_app, length_app. lia. }
    rewrite common_cons by done. cbn [length]. lia.
  - rewrite (bool_decide_false (sval_s v ∈ I)) by done. cbn [negb length]. eexists _, _. split; [done|]. cbn. split_and!; [done|lia|lia].
Qed.

Lemma reply_loop_ok enc d : db_abs d A →
  ∃ st, each_while (sinter_body can enc key0 rest false 0) (SInter d 0 true None []) vs = Ok st ∧
    db_abs (sn_db st) A ∧ sn_dst st = None ∧ sn_card st = zlen (common I vs) ∧ sn_out st = bulk <$> common I vs.
Proof.
  intros HA. apply (each_while_inv (λ l st, db_abs (sn_db st) A ∧ sn_dst st = None ∧ sn_card st = zlen (common I l) ∧
    sn_out st = bulk <$> common I l)) with (l0 := []); [done|done|]. cbn [app].
  intros l v r st E (HA' & Ed & Ec & Eo). destruct (in_all_step l v r _ E HA') as (Hv & Hs & d' & Ei & HA2).
  unfold sinter_body. rewrite Ei. rs. rewrite common_snoc, length_app. destruct (decide (sval_s v ∈ I)) as [Hin|Hin].
  - rewrite (bool_decide_true (sval_s v ∈ I)) by done. cbn [negb length]. rewrite Ed, reply_element_ok by done. rs.
    eexists _, _. split; [done|]. cbn. rewrite Ec, Eo, u64_small, fmap_app by lia. split_and!; [done|done|lia|done].
  - rewrite (bool_decide_false (sval_s v ∈ I)) by done. cbn [negb length]. rewrite app_nil_r. eexists _, _. split; [done|].
    cbn. split_and!; [done|done|lia|done].
Qed.

(** The value that is added is the element, and integers are known as such. *)
Lemma sinter_value_ok enc dst ints v : sval_ok v → ∀ w ints', sinter_value enc dst ints v = (w, ints') →
  sval_ok w ∧ sval_s w = sval_s v ∧ (ints' = true → ints = true ∧ is_Some (string2ll (sval_s v))).
Proof.
  intros Hv w ints' E. destruct v as [s|n]; cbn [sinter_value sval_s] in *.
  - destruct ints; [|by simplify_eq]. case_bool_decide; [|by simplify_eq].
    destruct (string2ll s) as [n|] eqn:En; [|by simplify_eq]. pose proof (string2ll_sound s n En) as [Hn' Es].
    simplify_eq. by destruct dst.
  - simplify_eq. split_and!; [done..|]. intros ->. split; [done|]. cbn in Hv. rewrite string2ll_complete by done. done.
Qed.

Lemma store_loop_ok enc d dst : config_ok → db_abs d A → set_rep dst ∅ →
  ∃ st, each_while (sinter_body can enc key0 rest false 0) (SInter d 0 true (Some dst) []) vs = Ok st ∧
    db_abs (sn_db st) A ∧ ∃ dst', sn_dst st = Some dst' ∧ set_rep dst' (list_to_set (common I vs)) ∧
      (sn_ints st = true → Forall (λ s, is_Some (string2ll s)) (common I vs)).
Proof.
  intros cfg HA R. apply (each_while_inv (λ l st, db_abs (sn_db st) A ∧ ∃ dst', sn_dst st = Some dst' ∧
    set_rep dst' (list_to_set (common I l)) ∧ (sn_ints st = true → Forall (λ s, is_Some (string2ll s)) (common I l)))) with (l0 := []);
    [split; [done|]; exists dst; split_and!; [done..|constructor]|done|]. cbn [app].
  intros l v r st E (HA' & dst' & Ed & R' & Hint). destruct (in_all_step l v r _ E HA') as (Hv & Hs & d' & Ei & HA2).
  unfold sinter_body. rewrite Ei. rs. rewrite common_snoc. destruct (decide (sval_s v ∈ I)) as [Hin|Hin].
  - rewrite (bool_decide_true (sval_s v ∈ I)) by done. cbn [negb]. rewrite Ed.
    destruct (sinter_value enc dst' (sn_ints st) v) as [w ints'] eqn:Ew.
    destruct (sinter_value_ok _ _ _ _ Hv _ _ Ew) as (Hw & Esw & Hi).
    destruct (setTypeAddAux_ok can dst' _ w cfg R') as (dst2 & -> & R2); [|done|].
    { unfold room_for. pose proof (size_of_list (common I l)). lia. }
    rs. eexists _, _. split; [done|]. cbn. split; [done|]. exists dst2. split_and!; [done| |].
    + replace (list_to_set (common I l ++ [sval_s v])) with ({[sval_s w]} ∪ list_to_set (common I l) : gset (list Z)); [done|].
      rewrite list_to_set_app_L, Esw. cbn. set_solver.
    + intros Ht. destruct (Hi Ht). apply Forall_app. split; [by apply Hint|by repeat constructor].
  - rewrite (bool_decide_false (sval_s v ∈ I)) by done. cbn [negb]. rewrite app_nil_r. eexists _, _. split; [done|]. cbn.
    split; [done|]. by exists dst'.
Qed.
End loop.

(** ** The commands *)

Lemma sinter_dst_ok o : config_ok → ∀ X, set_rep o X → ∃ dst, sinter_dst o = Ok dst ∧ set_rep dst ∅.
Proof.
  intros cfg X R. destruct o as [iset|lp|d]; cbn [sinter_dst].
  - eexists. split; [done|by apply createIntset_ok].
  - destruct R as [R _]. apply holds_listpack in R as (es & R & _). rewrite (api_bytes R). rs.
    destruct (new_listpack_ok (lp_total es)) as (lp' & -> & R'). rs. by eexists.
  - unfold createSetListpackObject. destruct (new_listpack_ok 0) as (lp' & -> & R'). rs. by eexists.
Qed.

Lemma shrink_set_ok o X : set_rep o X →
  ∃ o', match o with SListpack lp => lp ← lpShrinkToFit lp; Ok (SListpack lp) | _ => Ok o end = Ok o' ∧ set_rep o' X.
Proof.
  intros R. destruct o as [iset|lp|d]; [by eexists| |by eexists]. destruct R as [R _].
  apply holds_listpack in R as (es & R & Hes). destruct (api_shrink R) as (lp' & -> & R'). rs. eexists. split; [done|].
  split; [|done]. apply holds_listpack. by exists es.
Qed.

Lemma sinter_store_ok d A dst ints o X : config_ok → db_abs d A → set_rep o X →
  (ints = true → ∀ s, s ∈ X → is_Some (string2ll s)) →
  implements (sinter_store d dst ints o) (store_sset A "sinterstore" dst X).
Proof.
  intros cfg HA R Hints. unfold sinter_store. destruct (setTypeSize_ok o X R) as (o1 & -> & R1 & _). rs.
  pose proof (store_ok d A dst "sinterstore" o1 X HA R1) as Hst. destruct (ssize X >? 0) eqn:Ez; [|done].
  assert (∃ o2, (if ints then maybeConvertToIntset o1 else Ok o1) = Ok o2 ∧ set_rep o2 X) as (o2 & -> & R2).
  { destruct ints; [|by eexists]. apply maybeConvertToIntset_ok; naive_solver. }
  rs. destruct (shrink_set_ok o2 X R2) as (o3 & -> & R3). rs.
  destruct (setTypeSize_ok o3 X R3) as (o4 & -> & R4 & _). rs.
  pose proof (store_ok d A dst "sinterstore" o4 X HA R4) as Hst4. by rewrite Ez in Hst4.
Qed.

(** What the command has when its loop starts *)
Lemma sinter_start d A keys : keys ≠ [] → db_abs d A → forallb (sset_typed A) keys = true →
  forallb (λ k, bool_decide (is_Some (A !! k))) keys = true →
  ∃ d1 key0 rest o vs, sort_sets qsortCompareSetsByCardinality d (present A <$> keys) = Ok (d1, Some key0 :: rest) ∧
    db_abs d1 A ∧ set_at d1 key0 = Ok o ∧ set_rep o (sset A key0) ∧ set_vals o vs ∧ key0 ∈ keys ∧
    zlen vs = ssize (sset A key0) ∧ Forall sval_ok vs ∧ Forall (set_known A) rest ∧ None ∉ rest ∧
    (∀ v, v ∈ vs → sval_s v ∈ inter_of A keys ↔ Forall (λ s, s ≠ Some key0 → sval_s v ∈ oset A s) rest) ∧
    ssize (inter_of A keys) = zlen (common (inter_of A keys) vs) ∧ list_to_set (common (inter_of A keys) vs) = inter_of A keys.
Proof.
  intros Hne HA Ht Hp. pose proof (present_known A keys Ht) as Hk.
  destruct (sort_sets_ok qsortCompareSetsByCardinality A (present A <$> keys) d Hk HA) as (d1 & sets & Es & P & HA1).
  assert (present A <$> keys = Some <$> keys) as Ep.
  { apply list_fmap_ext. intros i k Hi. rewrite forallb_forall in Hp. unfold present. rewrite decide_True; [done|].
    eapply bool_decide_eq_true, Hp, list_elem_of_In, list_elem_of_lookup_2, Hi. }
  rewrite <- P in Hk. rewrite Ep in P. assert (∀ s, s ∈ sets → ∃ k, s = Some k ∧ k ∈ keys) as Hin.
  { intros s. rewrite P, list_elem_of_fmap. naive_solver. }
  destruct sets as [|s rest]; [apply Permutation_nil_l in P; by destruct keys|].
  destruct (Hin s) as (key0 & -> & Hk0); [by left|]. apply Forall_cons in Hk as [[X0 EX0] Hk].
  destruct (set_at_ok d1 A key0 X0 HA1 EX0) as (o & Eo & R). pose proof (sset_eq A key0 X0 EX0) as E0.
  pose proof R as [(vs & [L Hok Hnd] & EX) _]. exists d1, key0, rest, o, vs. rewrite E0.
  assert (∀ v, v ∈ vs → sval_s v ∈ X0) as HX by (intros; rewrite EX; by apply elem_of_list_to_set, list_elem_of_fmap_2).
  assert (∀ x, x ∈ inter_of A keys ↔ ∀ s, s ∈ Some key0 :: rest → x ∈ oset A s) as HI.
  { intros x. rewrite elem_of_inter by done. setoid_rewrite P. setoid_rewrite list_elem_of_fmap. naive_solver. }
  destruct (common_all (inter_of A keys) vs Hnd) as [Hcnd Hc].
  { rewrite <- EX. intros x Hx. rewrite <- E0. apply (proj1 (HI x) Hx (Some key0)). by left. }
  split_and!; try done.
  - by rewrite EX, size_list_to_set, length_fmap.
  - intros Hn. destruct (Hin None) as (? & ? & _); [by right|done].
  - intros v Hv. rewrite HI, Forall_forall. split; [set_solver|]. intros Hr s Hs.
    destruct (decide (s = Some key0)) as [->|Es0]; [cbn; rewrite E0; by apply HX|]. apply elem_of_cons in Hs as [?|?]; [done|by apply Hr].
  - rewrite <- (size_list_to_set (C := gset (list Z))) by done. by rewrite Hc.
Qed.

Lemma missing_keys A keys :
  existsb (λ s, bool_decide (s = None)) (present A <$> keys) = negb (forallb (λ k, bool_decide (is_Some (A !! k))) keys).
Proof.
  induction keys as [|k keys IH]; [done|]. cbn [fmap list_fmap existsb forallb]. rewrite IH. unfold present.
  destruct (decide (is_Some (A !! k))) as [E|E]; [by rewrite (bool_decide_true (is_Some _))|].
  by rewrite (bool_decide_false (is_Some _)) by done.
Qed.

Lemma inter_missing A keys : forallb (λ k, bool_decide (is_Some (A !! k))) keys = false → inter_of A keys = ∅.
Proof.
  intros E. assert (keys ≠ []) as Hne by (by intros ->). apply not_true_iff_false in E. rewrite forallb_forall in E.
  apply elem_of_equiv_empty_L. intros x Hx. rewrite elem_of_inter in Hx by done. apply E. intros k Hk. apply bool_decide_eq_true.
  apply list_elem_of_In, Hx in Hk. unfold sset in Hk. by destruct (A !! k).
Qed.

(** Sets are smaller than the counters. *)
Definition ssets_le (A : adb) (n : Z) : Prop := ∀ key, ssize (sset A key) ≤ n.

Lemma sinter_ok d A keys : db_abs d A → keys ≠ [] → ssets_le A UINT64_MAX →
  implements (sinterGenericCommand can d keys None false 0) (on_ssets A keys (A, set_reply (inter_of A keys))).
Proof.
  intros HA Hne Hle. unfold sinterGenericCommand, on_ssets. rewrite (lookup_sets_ok d A) by done.
  destruct (forallb (sset_typed A) keys) eqn:Ht; [|by apply implements_ok]. rewrite missing_keys.
  destruct (forallb (λ k, _) keys) eqn:Hp; cbn [negb]; [|rewrite inter_missing by done; by eexists _, _].
  destruct (sinter_start d A keys Hne HA Ht Hp) as (d1 & key0 & rest & o & vs & -> & HA1 & Eo & R & L & Hk0 & Hl & Hok & Hk & Hn & HI & Hsz & Hc).
  rs. rewrite Eo. rs. rewrite (iter_while_ok o vs) by done.
  destruct (reply_loop_ok A key0 rest (inter_of A keys) vs Hk Hn Hok ltac:(rewrite Hl; apply Hle) HI (encoding_of o) d1 HA1)
    as (st & -> & HA2 & Ed & Ec & Eo2).
  rs. eexists _, _. split_and!; [done..|]. cbn [snd]. rewrite Ec, Eo2. unfold set_reply.
  rewrite Hsz, <- (app_nil_r (bulk <$> common _ _)), <- (app_nil_r (bulk <$> elements _)).
  apply group_set. by rewrite list_to_set_elements_L.
Qed.

Lemma sinterstore_ok d A keys dst : config_ok → db_abs d A → keys ≠ [] → ssets_le A UINT64_MAX →
  implements (sinterGenericCommand can d keys (Some dst) false 0) (on_ssets A keys
    (if forallb (λ k, bool_decide (is_Some (A !! k))) keys then store_sset A "sinterstore" dst (inter_of A keys)
     else (delete dst A, deleted_dst A dst [KeyModified dst false; Notify "del" dst; Dirty 1] ++ [Reply czero]))).
Proof.
  intros cfg HA Hne Hle. unfold sinterGenericCommand, on_ssets. rewrite (lookup_sets_ok d A) by done.
  destruct (forallb (sset_typed A) keys) eqn:Ht; [|by apply implements_ok]. rewrite missing_keys.
  destruct (forallb (λ k, _) keys) eqn:Hp; cbn [negb].
  2:{ destruct (delete_dst_ok d A dst [KeyModified dst false; Notify "del" dst; Dirty 1] HA) as [HA' Ed].
      destruct (delete_dst d dst) as [d' deleted]. cbn in HA', Ed. rewrite Ed. by apply implements_ok. }
  destruct (sinter_start d A keys Hne HA Ht Hp) as (d1 & key0 & rest & o & vs & -> & HA1 & Eo & R & L & Hk0 & Hl & Hok & Hk & Hn & HI & Hsz & Hc).
  rs. rewrite Eo. rs. destruct (sinter_dst_ok o cfg _ R) as (dst0 & -> & R0). rs. rewrite (iter_while_ok o vs) by done.
  destruct (store_loop_ok A key0 rest (inter_of A keys) vs Hk Hn Hok ltac:(rewrite Hl; apply Hle) HI (encoding_of o) d1 dst0 cfg HA1 R0)
    as (st & -> & HA2 & dst' & Ed & R' & Hint).
  rs. rewrite Ed. rewrite Hc in R'. apply sinter_store_ok; [done..|]. intros Hi s Hs. rewrite <- Hc, elem_of_list_to_set in Hs.
  by apply (proj1 (Forall_forall _ _) (Hint Hi)).
Qed.

Lemma sintercard_ok d A keys limit : db_abs d A → keys ≠ [] → 0 ≤ limit → ssets_le A UINT64_MAX →
  implements (sinterGenericCommand can d keys None true limit)
    (on_ssets A keys (A, [Reply (ReplyLongLong (limited limit (ssize (inter_of A keys))))])).
Proof.
  intros HA Hne Hlim Hle. unfold sinterGenericCommand, on_ssets. rewrite (lookup_sets_ok d A) by done.
  destruct (forallb (sset_typed A) keys) eqn:Ht; [|by apply implements_ok]. rewrite missing_keys.
  destruct (forallb (λ k, _) keys) eqn:Hp; cbn [negb].
  2:{ rewrite inter_missing by done. replace (limited limit (ssize ∅)) with 0; [by apply implements_ok|].
      unfold limited. rewrite size_empty. destruct (limit =? 0); lia. }
  destruct (sinter_start d A keys Hne HA Ht Hp) as (d1 & key0 & rest & o & vs & -> & HA1 & Eo & R & L & Hk0 & Hl & Hok & Hk & Hn & HI & Hsz & Hc).
  rs. rewrite Eo. rs. rewrite (iter_while_ok o vs) by done.
  destruct (card_loop_ok A key0 rest (inter_of A keys) vs Hk Hn Hok ltac:(rewrite Hl; apply Hle) HI (encoding_of o) limit d1 HA1 Hlim)
    as (st & -> & HA2 & Ec).
  rs. eexists _, _. split_and!; [done..|]. cbn [snd]. by rewrite Ec, Hsz.
Qed.
End inter.
