(* ===== verification/SetUnion.v ===== *)
(** SUNION, SDIFF and the variants that store compute the union and the difference,
    with both algorithms for the difference. *)

From S2P Require Import Prelude Endian Intset Numstr Sds Listpack LpNav LpMod LpApi Skiplist.
From S2P Require Import Double Object Dict SdsDict SetType SetRep SetSpec SetOps SetApi Keyspace.
From S2P Require Import KeyspaceRep SetCmd SetCmdSpec SetMulti SetInter.

(** The result of the operation *)
Definition result_of (A : adb) (op : set_op) (keys : list (list Z)) : gset (list Z) :=
  match op with SET_OP_UNION => union_of A keys | SET_OP_DIFF => diff_of A keys end.

Lemma ssize_mono (X Y : gset (list Z)) : X ⊆ Y → ssize X ≤ ssize Y.
Proof. intros Hs%subseteq_size. lia. Qed.

Lemma osets_cons A s sets : ⋃ (oset A <$> s :: sets) = oset A s ∪ ⋃ (oset A <$> sets).
Proof. done. Qed.

Section union.
Context `{Arch} `{Allocator} `{SetConfig} `{FloatText} `{Qsort} (can : dictResizeEnable).

(** The destination and the count of its elements *)
Definition dst_rep (st : sobj * Z) (X : gset (list Z)) : Prop := set_rep st.1 X ∧ st.2 = ssize X.

Lemma dst_add_ok st X v : config_ok → dst_rep st X → sval_ok v → ssize ({[sval_s v]} ∪ X) < 2 ^ 31 →
  ∃ st', dst_add can st v = Ok st' ∧ dst_rep st' ({[sval_s v]} ∪ X).
Proof.
  intros cfg [R E] Hv Hb. pose proof (ssize_mono X ({[sval_s v]} ∪ X) ltac:(set_solver)). unfold dst_add.
  destruct (setTypeAddAux_ok can st.1 X v cfg R ltac:(unfold room_for; lia) Hv) as (o & -> & R'). rs.
  eexists. split; [done|]. split; [done|]. cbn [snd]. rewrite size_add in Hb |- *. case_bool_decide; [rewrite s32_small; lia|lia].
Qed.

Lemma dst_remove_ok st X v : dst_rep st X → sval_ok v → ssize X < 2 ^ 31 →
  ∃ st', dst_remove can st v = Ok st' ∧ dst_rep st' (X ∖ {[sval_s v]}).
Proof.
  intros [R E] Hv Hb. unfold dst_remove. destruct (setTypeRemoveAux_ok can st.1 X v R Hv) as (o & -> & R'). rs.
  eexists. split; [done|]. split; [done|]. cbn [snd]. rewrite size_remove. case_bool_decide as Hin; [|lia].
  rewrite s32_small; lia.
Qed.

(** All elements of a set *)
Lemma add_all_ok o Y st X : config_ok → set_rep o Y → dst_rep st X → ssize (X ∪ Y) < 2 ^ 31 →
  ∃ st', iter o (dst_add can) st = Ok st' ∧ dst_rep st' (X ∪ Y).
Proof.
  intros cfg [(vs & [L Hok _] & ->) _] R Hb. rewrite (iter_ok o vs) by done.
  destruct (each_inv (λ l st, dst_rep st (X ∪ list_to_set (sval_s <$> l))) (dst_add can) vs st []) as (st' & -> & R');
    [cbn; by rewrite union_empty_r_L| |by exists st'].
  intros l v r s E Rs. cbn in E. subst vs. apply Forall_app in Hok as [_ [Hv _]%Forall_cons].
  rewrite fmap_app, list_to_set_app_L. cbn [fmap list_fmap list_to_set]. rewrite union_empty_r_L, union_assoc_L, (union_comm_L _ {[_]}).
  apply dst_add_ok; [done..|]. eapply Z.le_lt_trans; [|exact Hb]. apply ssize_mono. rewrite fmap_app, fmap_cons. set_solver.
Qed.

Lemma remove_all_ok o Y st X : set_rep o Y → dst_rep st X → ssize X < 2 ^ 31 →
  ∃ st', iter o (dst_remove can) st = Ok st' ∧ dst_rep st' (X ∖ Y).
Proof.
  intros [(vs & [L Hok _] & ->) _] R Hb. rewrite (iter_ok o vs) by done.
  destruct (each_inv (λ l st, dst_rep st (X ∖ list_to_set (sval_s <$> l))) (dst_remove can) vs st []) as (st' & -> & R');
    [cbn; by rewrite difference_empty_L| |by exists st'].
  intros l v r s E Rs. cbn in E. subst vs. apply Forall_app in Hok as [_ [Hv _]%Forall_cons].
  rewrite fmap_app, list_to_set_app_L. cbn [fmap list_fmap list_to_set]. rewrite union_empty_r_L, <- difference_difference_l_L.
  apply dst_remove_ok; [done..|]. eapply Z.le_lt_trans; [|exact Hb]. apply ssize_mono. set_solver.
Qed.

Lemma union_loop_ok d A sets : config_ok → db_abs d A → Forall (set_known A) sets → ∀ st X, dst_rep st X →
  let Y := X ∪ ⋃ (oset A <$> sets) in ssize Y < 2 ^ 31 → ∃ st', union_loop can d sets st = Ok st' ∧ dst_rep st' Y.
Proof.
  intros cfg HA. induction 1 as [|s sets Hs _ IH]; intros st X R Y Hb; subst Y; cbn [union_loop].
  { exists st. split; [done|]. cbn. by rewrite union_empty_r_L. }
  rewrite osets_cons in Hb |- *. destruct s as [key|]; cbn [oset from_option] in Hb |- *.
  - destruct Hs as [Y EA]. rewrite (sset_eq A key Y EA), union_assoc_L in *.
    destruct (set_at_ok d A key Y HA EA) as (o & -> & Ro). rs.
    destruct (add_all_ok o Y st X cfg Ro R) as (st1 & -> & R1); [|rs; by apply IH].
    eapply Z.le_lt_trans; [|exact Hb]. apply ssize_mono. set_solver.
  - rewrite union_empty_l_L in *. by apply IH.
Qed.

(** ** Difference *)

Lemma in_any_ok A key0 rest v : sval_ok v → Forall (set_known A) rest → Some key0 ∉ rest → ∀ d, db_abs d A →
  ∃ d', in_any can key0 rest v d = Ok (d', bool_decide (sval_s v ∈ ⋃ (oset A <$> rest))) ∧ db_abs d' A.
Proof.
  intros Hv Hk Hn. induction Hk as [|s rest Hs _ IH]; intros d HA; cbn [in_any].
  { exists d. split; [|done]. rewrite bool_decide_false; [done|]. cbn. set_solver. }
  apply not_elem_of_cons in Hn as [Hs0 Hn]. rewrite osets_cons.
  destruct s as [key|]; cbn [oset from_option].
  - rewrite (bool_decide_false (key = key0)) by congruence. destruct Hs as [X EA].
    destruct (member_at_ok can d A key X v HA EA Hv) as (o & o' & -> & Em & HA'). rs. rewrite Em. rs.
    rewrite (sset_eq A key X EA). destruct (decide (sval_s v ∈ X)) as [Ei|Ei].
    + rewrite (bool_decide_true (sval_s v ∈ X)) by done. eexists. split; [|done]. rewrite bool_decide_true; [done|set_solver].
    + rewrite (bool_decide_false (sval_s v ∈ X)) by done. destruct (IH Hn _ HA') as (d' & -> & HA2). exists d'. split; [|done].
      do 2 f_equal. apply bool_decide_ext. set_solver.
  - destruct (IH Hn d HA) as (d' & -> & HA'). exists d'. split; [|done]. do 2 f_equal. apply bool_decide_ext. set_solver.
Qed.

Lemma diff_filter_ok d A key0 X0 rest dst : config_ok → db_abs d A → A !! key0 = Some (ASet X0) →
  Forall (set_known A) rest → Some key0 ∉ rest → set_rep dst ∅ → ssize X0 < 2 ^ 31 →
  ∃ d' st, diff_filter can d key0 rest (dst, 0) = Ok (d', st) ∧ db_abs d' A ∧ dst_rep st (X0 ∖ ⋃ (oset A <$> rest)).
Proof.
  intros cfg HA EA Hk Hn R Hb. set (Y := ⋃ (oset A <$> rest)). unfold diff_filter.
  destruct (set_at_ok d A key0 X0 HA EA) as (o & -> & [(vs & [L Hok _] & EX) _]). rs. rewrite (iter_ok o vs) by done.
  match goal with |- context [each ?f _ _] => destruct (each_inv (λ l (s : db * (sobj * Z)), db_abs s.1 A ∧
    dst_rep s.2 (list_to_set (sval_s <$> l) ∖ Y)) f vs (d, (dst, 0)) []) as ([d' st] & -> & HA' & R') end.
  - split; [done|]. cbn. replace (∅ ∖ Y) with (∅ : gset (list Z)) by set_solver. by split.
  - intros l v r [d1 st] E [HA1 R1]. cbn in E, HA1, R1. assert (sval_ok v) as Hv.
    { rewrite E in Hok. by apply Forall_app in Hok as [_ [Hv _]%Forall_cons]. }
    destruct (in_any_ok A key0 rest v Hv Hk Hn d1 HA1) as (d2 & -> & HA2). rs. fold Y.
    rewrite fmap_app, list_to_set_app_L. cbn [fmap list_fmap list_to_set]. rewrite union_empty_r_L, difference_union_distr_l_L.
    case_bool_decide as Hin; rs.
    + eexists. split; [done|]. split; [done|]. cbn [snd]. replace (_ ∪ {[sval_s v]} ∖ Y) with (list_to_set (sval_s <$> l) ∖ Y : gset (list Z)) by set_solver. done.
    + replace (_ ∪ {[sval_s v]} ∖ Y) with ({[sval_s v]} ∪ list_to_set (sval_s <$> l) ∖ Y : gset (list Z)) by set_solver.
      destruct (dst_add_ok st _ v cfg R1 Hv) as (st' & -> & R'); [|rs; by eexists].
      eapply Z.le_lt_trans; [|exact Hb]. apply ssize_mono. rewrite EX, E, fmap_app, fmap_cons. set_solver.
  - cbn in R', HA'. rewrite <- EX in R'. by exists d', st.
Qed.

Lemma diff_remove_ok d A rest : db_abs d A → Forall (set_known A) rest → ∀ st X, dst_rep st X → ssize X < 2 ^ 31 →
  ∃ st', diff_remove can d rest st = Ok st' ∧ dst_rep st' (X ∖ ⋃ (oset A <$> rest)).
Proof.
  intros HA. induction 1 as [|s rest Hs _ IH]; intros st X R Hb; cbn [diff_remove].
  { exists st. split; [done|]. cbn. by rewrite difference_empty_L. }
  rewrite osets_cons. destruct s as [key|]; cbn [oset from_option].
  - destruct Hs as [Y EA]. rewrite (sset_eq A key Y EA), <- difference_difference_l_L.
    destruct (set_at_ok d A key Y HA EA) as (o & -> & Ro). rs.
    destruct (remove_all_ok o Y st X Ro R Hb) as (st1 & -> & R1). rs. destruct (Z.eqb_spec st1.2 0) as [E0|E0].
    + exists st1. split; [done|]. destruct R1 as [R1 E1]. assert (X ∖ Y = ∅) as E by (apply leibniz_equiv, size_empty_inv; lia).
      rewrite E in *. replace (∅ ∖ _) with (∅ : gset (list Z)) by set_solver. by split.
    + apply IH; [done|]. eapply Z.le_lt_trans; [|exact Hb]. apply ssize_mono. set_solver.
  - rewrite union_empty_l_L. by apply IH.
Qed.

Lemma diff_work_ok A key0 X0 sets : A !! key0 = Some (ASet X0) → Forall (set_known A) sets → ∀ d one two, db_abs d A →
  ∃ d' one' two', diff_work d key0 sets one two = Ok (d', one', two') ∧ db_abs d' A.
Proof.
  intros EA. induction 1 as [|s sets Hs _ IH]; intros d one two HA; cbn [diff_work]; [by eexists _, _, _|].
  destruct s as [key|]; [|by apply IH]. destruct Hs as [X EX].
  destruct (size_at_ok d A key0 X0 HA EA) as (o & o' & -> & E & HA1). rs. rewrite E. rs.
  destruct (size_at_ok _ A key X HA1 EX) as (o1 & o1' & -> & E1 & HA2). rs. rewrite E1. rs. by apply IH.
Qed.

Lemma diff_plan_ok d A key0 rest : db_abs d A → set_known A (Some key0) → Forall (set_known A) rest →
  ∃ d' algo rest', diff_plan d (Some key0 :: rest) = Ok (d', algo, Some key0 :: rest') ∧ rest' ≡ₚ rest ∧ db_abs d' A.
Proof.
  intros HA [X0 EA] Hk. unfold diff_plan.
  destruct (diff_work_ok A key0 X0 (Some key0 :: rest) EA ltac:(constructor; [by exists X0|done]) d 0 0 HA) as (d1 & one & two & -> & HA1).
  rs. destruct (_ <=? _); [|by eexists _, _, rest].
  destruct (sort_sets_ok qsortCompareSetsByRevCardinality A rest d1 Hk HA1) as (d2 & rest' & -> & P & HA2). rs. by eexists _, _, rest'.
Qed.

(** ** The commands *)

Lemma same_set_ok key0 rest : same_set (Some key0 :: rest) = bool_decide (Some key0 ∈ rest).
Proof.
  symmetry. destruct (same_set _) eqn:E; cbn in E.
  - apply bool_decide_eq_true. apply existsb_exists in E as (s & Hs & ->%bool_decide_eq_true). by apply list_elem_of_In.
  - apply bool_decide_eq_false. intros Hin. apply not_true_iff_false in E. apply E, existsb_exists. exists (Some key0).
    split; [by apply list_elem_of_In|by apply bool_decide_eq_true].
Qed.

Lemma set_diff_ok d A sets dst : config_ok → db_abs d A → Forall (set_known A) sets → set_rep dst ∅ →
  ssize (⋃ (oset A <$> sets)) < 2 ^ 31 →
  ∃ d' st, set_result can d SET_OP_DIFF sets dst = Ok (d', st) ∧ db_abs d' A ∧
    dst_rep st (match sets with [] => ∅ | s :: rest => oset A s ∖ ⋃ (oset A <$> rest) end).
Proof.
  intros cfg HA Hk R Hb. unfold set_result.
  assert (dst_rep (dst, 0) ∅) as R0 by done.
  destruct sets as [|[key0|] rest]; [by exists d, (dst, 0)| |].
  2:{ cbn [same_set diff_plan]. rs. exists d, (dst, 0). split_and!; [done..|]. cbn [oset from_option].
      by replace (∅ ∖ _) with (∅ : gset (list Z)) by set_solver. }
  rewrite same_set_ok. pose proof Hk as [[X0 EA] Hkr]%Forall_cons. rewrite osets_cons in Hb. cbn [oset from_option] in Hb |- *.
  rewrite (sset_eq A key0 X0 EA) in Hb |- *. pose proof (ssize_mono X0 (X0 ∪ ⋃ (oset A <$> rest)) ltac:(set_solver)).
  case_bool_decide as Hin.
  { exists d, (dst, 0). split_and!; [done..|]. replace (X0 ∖ _) with (∅ : gset (list Z)); [done|]. symmetry.
    apply elem_of_equiv_empty_L. intros x [Hx Hn]%elem_of_difference. apply Hn, elem_of_osets. exists (Some key0). split; [done|].
    cbn. by rewrite (sset_eq A key0 X0 EA). }
  destruct (diff_plan_ok d A key0 rest HA ltac:(by exists X0) Hkr) as (d1 & algo & rest' & -> & P & HA1). rs.
  assert (Forall (set_known A) rest') as Hk' by by rewrite P.
  assert (⋃ (oset A <$> rest) = ⋃ (oset A <$> rest')) as -> by (apply set_eq; intros x; rewrite !elem_of_osets; by setoid_rewrite P).
  destruct (algo =? 1).
  { apply diff_filter_ok; try done; [by rewrite P|lia]. }
  destruct (set_at_ok d1 A key0 X0 HA1 EA) as (o & -> & Ro). rs.
  destruct (add_all_ok o X0 (dst, 0) ∅ cfg Ro R0) as (st & -> & R1); [rewrite union_empty_l_L; lia|]. rs.
  rewrite union_empty_l_L in R1. destruct (Z.eqb_spec st.2 0) as [E0|E0].
  - destruct R1 as [R1 E1]. assert (X0 = ∅) as -> by (apply leibniz_equiv, size_empty_inv; lia). rs. exists d1, st. split_and!; [done..|].
    by replace (∅ ∖ _) with (∅ : gset (list Z)) by set_solver.
  - destruct (diff_remove_ok d1 A rest' HA1 Hk' st X0 R1) as (st' & -> & R'); [lia|]. rs. by exists d1, st'.
Qed.

Lemma set_result_ok d A op keys dst : config_ok → db_abs d A → forallb (sset_typed A) keys = true → set_rep dst ∅ →
  ssize (union_of A keys) < 2 ^ 31 →
  ∃ d' st, set_result can d op (present A <$> keys) dst = Ok (d', st) ∧ db_abs d' A ∧ dst_rep st (result_of A op keys).
Proof.
  intros cfg HA Ht R Hb. pose proof (present_known A keys Ht) as Hk. rewrite <- union_present in Hb. destruct op.
  - destruct (union_loop_ok d A _ cfg HA Hk (dst, 0) ∅) as (st & E & R'); [done|by rewrite union_empty_l_L|].
    rewrite union_empty_l_L, union_present in R'. exists d, st. cbn [set_result result_of]. rewrite E. rs. done.
  - destruct (set_diff_ok d A _ dst cfg HA Hk R Hb) as (d' & st & -> & HA' & R'). exists d', st. split_and!; [done..|].
    destruct keys as [|key keys]; [done|]. cbn [fmap list_fmap result_of diff_of] in R' |- *.
    by rewrite oset_present, union_present in R'.
Qed.

Definition op_event (op : set_op) : string :=
  match op with SET_OP_UNION => "sunionstore" | SET_OP_DIFF => "sdiffstore" end.

Lemma union_diff_ok d A keys dstkey op : config_ok → db_abs d A → ssize (union_of A keys) < 2 ^ 31 →
  implements (sunionDiffGenericCommand can d keys dstkey op)
    (on_ssets A keys (match dstkey with
                      | None => (A, set_reply (result_of A op keys))
                      | Some dst => store_sset A (op_event op) dst (result_of A op keys)
                      end)).
Proof.
  intros cfg HA Hb. unfold sunionDiffGenericCommand, on_ssets. rewrite (lookup_sets_ok d A) by done.
  destruct (forallb (sset_typed A) keys) eqn:Ht; [|by apply implements_ok].
  set (dst := if _ || _ then _ else _). assert (set_rep dst ∅) as R.
  { unfold dst. destruct (_ || _); [by apply createIntset_ok|apply createHt_ok]. }
  destruct (set_result_ok d A op keys dst cfg HA Ht R Hb) as (d' & [o n] & -> & HA' & [Ro En]). rs. cbn [fst snd] in Ro, En.
  destruct dstkey as [dstkey|].
  - destruct (setTypeSize_ok o _ Ro) as (o' & -> & Ro' & _). rs. by apply store_ok.
  - destruct (reply_ok o _ Ro) as (effs & -> & Ee). rs. eexists _, _. split_and!; [done..|]. by rewrite En.
Qed.
End union.
