(* ===== verification/SetContract.v ===== *)
(** The contract of sets: sequences of operations behave as on a finite set of strings
    whatever the encodings; small encodings stay within their limits; iteration gives
    every element once; the two algorithms for differences agree. *)

From S2P Require Import Prelude Endian Intset Numstr Sds Listpack LpNav LpMod LpApi Skiplist.
From S2P Require Import Double Object Dict DictApi SdsDict SetType SetRep SetSpec SetOps SetApi Keyspace.
From S2P Require Import KeyspaceRep SetCmd SetCmdSpec SetMulti SetInter SetUnion SklSpec.

(** ** Sequences of operations *)

Inductive setcall :=
  | CallAdd (v : sval) | CallRemove (v : sval) | CallIsMember (v : sval)
  | CallSize | CallDup | CallMaybeConvert (size_hint : Z).

Section calls.
Context `{Arch} `{Allocator} `{SetConfig}.

(** An operation with its result as an integer *)
Definition set_call (o : sobj) (c : dictResizeEnable * setcall) : res (sobj * Z) :=
  let can := c.1 in
  match c.2 with
  | CallAdd v => '(o, b) ← setTypeAddAux can o v; Ok (o, Z.b2z b)
  | CallRemove v => '(o, b) ← setTypeRemoveAux can o v; Ok (o, Z.b2z b)
  | CallIsMember v => '(o, b) ← setTypeIsMemberAux can o v; Ok (o, Z.b2z b)
  | CallSize => '(n, o) ← setTypeSize o; Ok (o, n)
  | CallDup => o ← setTypeDup can o; Ok (o, 0)
  | CallMaybeConvert n => o ← setTypeMaybeConvert can o n; Ok (o, 0)
  end.

Fixpoint set_calls (o : sobj) (cs : list (dictResizeEnable * setcall)) : res (sobj * list Z) :=
  match cs with
  | [] => Ok (o, [])
  | c :: cs => '(o, r) ← set_call o c; '(o, rs) ← set_calls o cs; Ok (o, r :: rs)
  end.

(** The same on a finite set *)
Definition call_spec (X : gset (list Z)) (c : setcall) : gset (list Z) * Z :=
  match c with
  | CallAdd v => ({[sval_s v]} ∪ X, Z.b2z (bool_decide (sval_s v ∉ X)))
  | CallRemove v => (X ∖ {[sval_s v]}, Z.b2z (bool_decide (sval_s v ∈ X)))
  | CallIsMember v => (X, Z.b2z (bool_decide (sval_s v ∈ X)))
  | CallSize => (X, ssize X)
  | CallDup | CallMaybeConvert _ => (X, 0)
  end.

Fixpoint calls_spec (X : gset (list Z)) (cs : list (dictResizeEnable * setcall)) : gset (list Z) * list Z :=
  match cs with
  | [] => (X, [])
  | c :: cs => let '(X, r) := call_spec X c.2 in let '(X, rs) := calls_spec X cs in (X, r :: rs)
  end.

Definition setcall_ok (c : dictResizeEnable * setcall) : Prop :=
  match c.2 with
  | CallAdd v | CallRemove v | CallIsMember v => sval_ok v
  | CallMaybeConvert n => 0 ≤ n
  | _ => True
  end.

Lemma set_call_ok o X c : config_ok → set_rep o X → ssize X < UINT64_MAX → setcall_ok c →
  ∃ o', set_call o c = Ok (o', (call_spec X c.2).2) ∧ set_rep o' (call_spec X c.2).1 ∧ ssize (call_spec X c.2).1 ≤ ssize X + 1.
Proof.
  intros cfg R Hn Hc. destruct c as [can [v|v|v| | |n]]; cbn [set_call call_spec setcall_ok fst snd] in *.
  - destruct (setTypeAddAux_ok can o X v cfg R Hn Hc) as (o' & -> & R'). rs. exists o'. split_and!; [done..|].
    rewrite size_add. case_bool_decide; lia.
  - destruct (setTypeRemoveAux_ok can o X v R Hc) as (o' & -> & R'). rs. exists o'. split_and!; [done..|].
    rewrite size_remove. case_bool_decide; lia.
  - destruct (setTypeIsMemberAux_ok can o X v R Hc) as (o' & -> & R'). rs. exists o'. split_and!; [done..|lia].
  - destruct (setTypeSize_ok o X R) as (o' & -> & R' & _). rs. exists o'. split_and!; [done..|lia].
  - destruct (setTypeDup_ok can o X cfg R ltac:(lia)) as (o' & -> & R' & _). rs. exists o'. split_and!; [done..|lia].
  - destruct (setTypeMaybeConvert_ok can o X n R Hc) as (o' & -> & R'). rs. exists o'. split_and!; [done..|lia].
Qed.

(** C4: any sequence of additions, removals, membership tests, copies and conversions
    of a set of integers and strings, with [dict_can_resize] changing freely, runs
    without a fault and agrees with a finite set of strings in results and contents,
    whatever encodings the set goes through. *)
Theorem set_calls_refine cs o X : config_ok → set_rep o X → ssize X + zlen cs ≤ UINT64_MAX → Forall setcall_ok cs →
  ∃ o', set_calls o cs = Ok (o', (calls_spec X cs).2) ∧ set_rep o' (calls_spec X cs).1.
Proof.
  intros cfg. revert o X. induction cs as [|c cs IH]; intros o X R Hn Hok; cbn [set_calls calls_spec]; [by exists o|].
  apply Forall_cons in Hok as [Hc Hok]. cbn [length] in Hn.
  destruct (set_call_ok o X c cfg R ltac:(lia) Hc) as (o1 & -> & R1 & Hn1). rs.
  destruct (call_spec X c.2) as [X1 r]. cbn [fst snd] in *. destruct (IH o1 X1 R1 ltac:(lia) Hok) as (o2 & -> & R2). rs.
  destruct (calls_spec X1 cs) as [X2 rs2]. by exists o2.
Qed.

(** ** Limits of the encodings *)

Definition within_limits (o : sobj) (X : gset (list Z)) : Prop :=
  match o with
  | SIntset _ => ssize X ≤ set_max_intset_entries
  | SListpack _ => ssize X ≤ set_max_listpack_entries ∧ ∀ s, s ∈ X → zlen s ≤ set_max_listpack_value
  | SHt _ => True
  end.

Lemma rep_intset_limit iset X : set_rep (SIntset iset) X → ssize X ≤ set_max_intset_entries.
Proof.
  intros [(Y & M & ->)%holds_intset Hb]. cbn [bounded] in Hb. by rewrite (decs_size iset Y M), <- (intset_len iset Y M).
Qed.

Lemma limits_snoc o X s : set_rep o ({[s]} ∪ X) → lp_fits o X s →
  (encoding_of o = OBJ_ENCODING_LISTPACK → ssize X ≤ set_max_listpack_entries ∧ ∀ t, t ∈ X → zlen t ≤ set_max_listpack_value) →
  within_limits o ({[s]} ∪ X).
Proof.
  intros R Hf Hl. destruct o as [iset|lp|d]; cbn [within_limits]; [by eapply rep_intset_limit| |done].
  destruct (Hl eq_refl) as [Hsz Hval]. rewrite size_add. destruct (Hf eq_refl) as [Hin|[Hlt Hlen]].
  - rewrite bool_decide_false by auto. split; [lia|]. set_solver.
  - split; [case_bool_decide; lia|]. set_solver.
Qed.

(** C16: adding an element keeps a set within the limits of its encoding: an intset
    never has more than [set-max-intset-entries] elements, and a listpack never more
    than [set-max-listpack-entries], none longer than [set-max-listpack-value]. *)
Theorem set_limits can o X v : config_ok → set_rep o X → within_limits o X → room_for X → sval_ok v →
  ∃ o' b, setTypeAddAux can o v = Ok (o', b) ∧ set_rep o' ({[sval_s v]} ∪ X) ∧ within_limits o' ({[sval_s v]} ∪ X).
Proof.
  intros cfg R Hl Hroom Hv. destruct (setTypeAddAux_ok can o X v cfg R Hroom Hv) as (o' & E & R').
  exists o', (bool_decide (sval_s v ∉ X)). split_and!; [done..|]. unfold setTypeAddAux in E.
  assert (∀ iset n, o = SIntset iset → decs n = sval_s v → is_i64 n →
    intset_add can iset n = Ok (o', bool_decide (sval_s v ∉ X)) → within_limits o' ({[sval_s v]} ∪ X)) as Hint.
  { intros iset n -> En Hn Ea. destruct o' as [iset'|lp'|d']; [by eapply rep_intset_limit| |done]. exfalso. revert Ea.
    unfold intset_add, maybeConvertIntset, setTypeConvert, setTypeSize. destruct (intsetAdd junk iset n) as [[I' [|]]|]; rs; [|done..].
    destruct (_ >? _); rs; [|done]. unfold convert_or_panic, setTypeConvertAndExpand.
    destruct (assert_ _); rs; [|done]. destruct (dictExpand _ _ _ _) as [[d r]|]; rs; [|done]. by destruct (iter _ _ _); rs. }
  destruct o as [iset|lp|d].
  - destruct v as [s|n]; [|by eapply Hint]. rewrite sval_str_ok in E by done. revert E. rs. cbn [sval_s] in *.
    destruct (string2ll s) as [n|] eqn:En; intros E.
    + apply string2ll_sound in En as [Hn ->]. by eapply Hint.
    + destruct (intset_add_str_ok can iset X s R Hv En) as (o1 & E1 & _ & _ & Hf & Hval). rewrite E in E1. injection E1 as <- _.
      apply limits_snoc; [done..|]. intros El. split; [|by apply Hval]. destruct (Hf El) as [Hin|[Hlt _]]; [|lia].
      exfalso. destruct R as [(Y & M & ->)%holds_intset _]. by eapply string2ll_none_in.
  - rewrite sval_str_ok in E by done. revert E. rs. intros E.
    destruct (listpack_add_ok can lp X v (proj1 R) Hv) as (o1 & E1 & _ & _ & Hf). rewrite E in E1. injection E1 as <-.
    by apply limits_snoc.
  - rewrite sval_str_ok in E by done. revert E. rs. destruct (sds_key _) as [key|]; rs; [|done].
    destruct (dictFindLink _ _ _ _ _) as [[[d1 link] bucket]|]; rs; [|done].
    destruct link; [by intros [= <- _]|]. destruct (dictSetKeyAtLink _ _ _ _ _ _) as [[d2 l]|]; rs; [by intros [= <- _]|done].
Qed.

(** ** Iteration *)

(** a loop over the elements of a set, in any encoding and also while its
    dictionary is being rehashed, ends and gives every element exactly once. *)
Theorem set_iteration o X : set_rep o X →
  ∃ l, iter o (λ l v, Ok (l ++ [sval_s v])) [] = Ok l ∧ NoDup l ∧ list_to_set l = X.
Proof.
  intros [(vs & [L _ Hnd] & E) _]. rewrite (iter_ok o vs) by done.
  destruct (each_inv (λ vs l, l = sval_s <$> vs) (λ l v, Ok (l ++ [sval_s v])) vs [] []) as (l & -> & ->); [done| |by eexists].
  intros l v r s _ ->. eexists. split; [done|]. by rewrite fmap_app.
Qed.
End calls.

(** ** Differences *)

(** C15: the two algorithms of SDIFF, which the sizes of the sets choose between, give
    the same set: testing each element of the first set against the others, and
    removing the elements of the others from a copy of the first. *)
Theorem sdiff_algorithms_agree `{Arch} `{Allocator} `{SetConfig} `{FloatText} can d A key0 X0 rest dst :
  config_ok → db_abs d A → A !! key0 = Some (ASet X0) → Forall (set_known A) rest → Some key0 ∉ rest →
  set_rep dst ∅ → ssize X0 < 2 ^ 31 →
  ∃ d1 st1 o st2 st3 D,
    diff_filter can d key0 rest (dst, 0) = Ok (d1, st1) ∧
    set_at d key0 = Ok o ∧ iter o (dst_add can) (dst, 0) = Ok st2 ∧ diff_remove can d rest st2 = Ok st3 ∧
    set_rep st1.1 D ∧ set_rep st3.1 D ∧ st1.2 = st3.2 ∧ st1.2 = ssize D.
Proof.
  intros cfg HA EA Hk Hn R Hb.
  destruct (diff_filter_ok can d A key0 X0 rest dst cfg HA EA Hk Hn R Hb) as (d1 & st1 & E1 & _ & R1 & N1).
  destruct (set_at_ok d A key0 X0 HA EA) as (o & Eo & Ro).
  destruct (add_all_ok can o X0 (dst, 0) ∅ cfg Ro) as (st2 & E2 & R2); [by split|by rewrite union_empty_l_L|].
  rewrite union_empty_l_L in R2. destruct (diff_remove_ok can d A rest HA Hk st2 X0 R2 Hb) as (st3 & E3 & R3 & N3).
  exists d1, st1, o, st2, st3, (X0 ∖ ⋃ (oset A <$> rest)). split_and!; [done..|congruence|done].
Qed.

(** ** Concrete sets *)

(** The limits of a server with the default configuration *)
Definition ex_set_config : SetConfig := {|
  set_max_intset_entries := 512; set_max_listpack_entries := 128; set_max_listpack_value := 64;
  hash_seed := ex_seed; hash_seed_ok := conj ex_seed_bytes eq_refl |}.

#[local] Existing Instance le_host.
#[local] Existing Instance ex_set_config.
#[local] Existing Instance alloc_exact.

Lemma ex_config_ok : config_ok.
Proof. by split; vm_compute. Qed.

Definition ex_calls : list (dictResizeEnable * setcall) :=
  (DICT_RESIZE_ENABLE,.) <$> [CallAdd (VInt 7); CallAdd (VStr (chars "7")); CallAdd (VStr (chars "x")); CallMaybeConvert 600;
    CallIsMember (VInt 7); CallRemove (VStr (chars "x")); CallDup; CallSize].

Lemma set_calls_refine_witness :
  ∃ o', set_calls createIntsetObject ex_calls = Ok (o', [1; 0; 1; 0; 1; 1; 0; 1]) ∧ set_rep o' {[chars "7"]}.
Proof.
  destruct (set_calls_refine ex_calls createIntsetObject ∅) as (o' & E & R).
  - apply ex_config_ok.
  - apply createIntset_ok, ex_config_ok.
  - by vm_compute.
  - repeat constructor; by vm_compute.
  - exists o'. split; [by vm_compute in E|]. by replace {[chars "7"]} with (calls_spec ∅ ex_calls).1 by (by vm_compute).
Defined.

Lemma set_limits_witness :
  ∃ o' b, setTypeAddAux DICT_RESIZE_ENABLE createIntsetObject (VStr (chars "x")) = Ok (o', b) ∧
    set_rep o' ({[chars "x"]} ∪ ∅) ∧ within_limits o' ({[chars "x"]} ∪ ∅).
Proof.
  apply (set_limits DICT_RESIZE_ENABLE createIntsetObject ∅ (VStr (chars "x"))).
  - apply ex_config_ok.
  - apply createIntset_ok, ex_config_ok.
  - by vm_compute.
  - by vm_compute.
  - split; [repeat constructor; by vm_compute|by vm_compute].
Defined.

Lemma set_iteration_witness : ∃ l, iter createSetObject (λ l v, Ok (l ++ [sval_s v])) [] = Ok l ∧ NoDup l ∧ list_to_set l = (∅ : gset (list Z)).
Proof. apply (set_iteration createSetObject ∅), createHt_ok. Defined.

(** A set with the element 7 *)
Definition ex_one : sobj := match setTypeAdd DICT_RESIZE_ENABLE createIntsetObject (chars "7") with Ok (o, _) => o | _ => createIntsetObject end.
Lemma ex_one_rep : set_rep ex_one {[chars "7"]}.
Proof.
  destruct (setTypeAddAux_ok DICT_RESIZE_ENABLE createIntsetObject ∅ (VStr (chars "7"))) as (o & E & R).
  - apply ex_config_ok.
  - apply createIntset_ok, ex_config_ok.
  - by vm_compute.
  - split; [repeat constructor; by vm_compute|by vm_compute].
  - unfold ex_one, setTypeAdd. rewrite E. by rewrite union_empty_r_L in R.
Qed.

Lemma sdiff_algorithms_agree_witness :
  ∃ d1 st1 o st2 st3 D, let d : db := {[chars "a" := KSet ex_one]} in
    diff_filter DICT_RESIZE_ENABLE d (chars "a") [None] (createSetObject, 0) = Ok (d1, st1) ∧
    set_at d (chars "a") = Ok o ∧ iter o (dst_add DICT_RESIZE_ENABLE) (createSetObject, 0) = Ok st2 ∧
    diff_remove DICT_RESIZE_ENABLE d [None] st2 = Ok st3 ∧
    set_rep st1.1 D ∧ set_rep st3.1 D ∧ st1.2 = st3.2 ∧ st1.2 = ssize D.
Proof.
  apply (@sdiff_algorithms_agree _ _ _ text_p DICT_RESIZE_ENABLE {[chars "a" := KSet ex_one]} {[chars "a" := ASet {[chars "7"]}]}
    (chars "a") {[chars "7"]} [None] createSetObject).
  - apply ex_config_ok.
  - intros k. destruct (decide (k = chars "a")) as [->|Hk].
    + rewrite !lookup_singleton_eq. constructor. split; [apply ex_one_rep|by vm_compute].
    + rewrite !lookup_singleton_ne by done. constructor.
  - apply lookup_singleton_eq.
  - by repeat constructor.
  - intros [?|[]%elem_of_nil]%elem_of_cons. done.
  - apply createHt_ok.
  - by vm_compute.
Defined.
