(* ===== verification/ZsetCmd.v ===== *)
(** The commands on sorted sets: [t_zset.c], lines 1965 to 2300, 3624 to 3775 and
    4060 to 4376.

    A command takes the database, the numbers that [random()] will return and its
    arguments, and gives the new database with the effects it has in order. *)

From S2P Require Import Prelude Numstr Sds Listpack LpNav LpMod LpFind Skiplist Double Object.
From S2P Require Import Zzl Zset Keyspace.
From Stdlib Require Import SpecFloat.

(** ** Data *)

Inductive zrange_type := ZRANGE_AUTO | ZRANGE_RANK | ZRANGE_SCORE | ZRANGE_LEX.
#[export] Instance zrange_type_eq_dec : EqDecision zrange_type.
Proof. solve_decision. Defined.

Section commands.
Context `{Allocator} `{NodeAlloc} `{FloatText} `{StrtodErrno} `{Server}.

(** ** ZADD and ZINCRBY *)

(** The options before the pairs: the flags, [ch], and the rest *)
Fixpoint zadd_options (args : list (list Z)) (flags : Z) (ch : bool) : Z * bool * list (list Z) :=
  match args with
  | [] => (flags, ch, args)
  | opt :: rest =>
      if strcaseeq opt "nx" then zadd_options rest (Z.lor flags ZADD_IN_NX) ch
      else if strcaseeq opt "xx" then zadd_options rest (Z.lor flags ZADD_IN_XX) ch
      else if strcaseeq opt "ch" then zadd_options rest flags true
      else if strcaseeq opt "incr" then zadd_options rest (Z.lor flags ZADD_IN_INCR) ch
      else if strcaseeq opt "gt" then zadd_options rest (Z.lor flags ZADD_IN_GT) ch
      else if strcaseeq opt "lt" then zadd_options rest (Z.lor flags ZADD_IN_LT) ch
      else (flags, ch, args)
  end.

(** The scores and elements, or the reply to the first score that is no float *)
Fixpoint zadd_scores (args : list (list Z)) : list (double * list Z) + reply :=
  match args with
  | s :: ele :: rest =>
      match getDoubleFromObjectOrReply (RStr s) None with
      | inr r => inr r
      | inl score =>
          match zadd_scores rest with
          | inr r => inr r
          | inl l => inl ((score, ele) :: l)
          end
      end
  | _ => inl []
  end.

(** [added], [updated], [processed], and [score], which holds no value after an
    addition that sets none *)
Record zadd_counts := ZCounts {
  zc_added : Z; zc_updated : Z; zc_processed : Z; zc_score : option double }.

Definition zadd_count (c : zadd_counts) (r : zadd_result) : zadd_counts :=
  let on flag := negb (Z.land (za_out_flags r) flag =? 0) in
  ZCounts (if on ZADD_OUT_ADDED then zc_added c + 1 else zc_added c)
    (if on ZADD_OUT_UPDATED then zc_updated c + 1 else zc_updated c)
    (if on ZADD_OUT_NOP then zc_processed c else zc_processed c + 1)
    (za_newscore r).

(** The loop over the pairs; it stops with [false] after an error. *)
Fixpoint zadd_loop (rnd : list Z) (o : zobj) (flags : Z) (pairs : list (double * list Z)) (c : zadd_counts)
    : res (zobj * list Z * zadd_counts * bool) :=
  match pairs with
  | [] => Ok (o, rnd, c, true)
  | (score, ele) :: pairs =>
      '(o, rnd, r) ← zsetAdd rnd o score ele flags;
      if za_ret r then zadd_loop rnd o flags pairs (zadd_count c r) else Ok (o, rnd, c, false)
  end.

(** From the label [reply_to_client] on *)
Definition zadd_reply (incr ch : bool) (c : zadd_counts) : res (list effect) :=
  if incr then
    if negb (zc_processed c =? 0) then s ← nonnull (zc_score c); Ok [Reply (ReplyDouble s)]
    else Ok [Reply ReplyNull]
  else Ok [Reply (ReplyLongLong (if ch then zc_added c + zc_updated c else zc_added c))].

Definition zadd_cleanup (key : list Z) (incr : bool) (c : zadd_counts) : list effect :=
  if negb (zc_added c =? 0) || negb (zc_updated c =? 0)
  then [KeyModified key true; Notify (if incr then "zincr" else "zadd") key]
  else [].

(** The arguments of the command: the flags, [ch], and the pairs *)
Record zadd_args := ZArgs { zg_flags : Z; zg_ch : bool; zg_pairs : list (double * list Z) }.

(** All that happens before the key is looked up: the options, the checks of
    their combinations, and the scores *)
Definition zadd_parse (argv : list (list Z)) (flags : Z) : zadd_args + reply :=
  let '(flags, ch, args) := zadd_options (drop 2 argv) flags false in
  let on flag := negb (Z.land flags flag =? 0) in
  let incr := on ZADD_IN_INCR in
  let nx := on ZADD_IN_NX in
  let xx := on ZADD_IN_XX in
  let gt := on ZADD_IN_GT in
  let lt := on ZADD_IN_LT in
  let elements := zlen args in
  if negb (elements mod 2 =? 0) || (elements =? 0) then inr syntaxerr else
  let elements := elements / 2 in
  if nx && xx then inr (ReplyError "XX and NX options at the same time are not compatible") else
  if (gt && nx) || (lt && nx) || (gt && lt)
  then inr (ReplyError "GT, LT, and/or NX options at the same time are not compatible") else
  if incr && (elements >? 1)
  then inr (ReplyError "INCR option supports a single increment-element pair") else
  match zadd_scores args with
  | inr r => inr r
  | inl pairs => inl (ZArgs flags ch pairs)
  end.

(** The additions, the reply and the notifications, with the sorted set [o] *)
Definition zadd_run (d : db) (rnd : list Z) (key : list Z) (o : zobj) (g : zadd_args)
    : res (db * list Z * list effect) :=
  let incr := negb (Z.land (zg_flags g) ZADD_IN_INCR =? 0) in
  '(llen, o) ← zsetLength o;
  '(o, rnd, c, ok) ← zadd_loop rnd o (zg_flags g) (zg_pairs g) (ZCounts 0 0 0 None);
  let d := <[key := KZset o]> d in
  if negb ok then Ok (d, rnd, Reply nanerr :: zadd_cleanup key incr c)
  else
    reply ← zadd_reply incr (zg_ch g) c;
    Ok (d, rnd, Dirty (zc_added c + zc_updated c) :: KeysizesHist key llen (llen + zc_added c) ::
                reply ++ zadd_cleanup key incr c).

Definition zaddGenericCommand (d : db) (rnd : list Z) (argv : list (list Z)) (flags : Z)
    : res (db * list Z * list effect) :=
  let key := arg argv 1 in
  match zadd_parse argv flags with
  | inr r => Ok (d, rnd, [Reply r])
  | inl g =>
      let incr := negb (Z.land (zg_flags g) ZADD_IN_INCR =? 0) in
      let xx := negb (Z.land (zg_flags g) ZADD_IN_XX =? 0) in
      let elements := zlen (zg_pairs g) in
      match d !! key with
      | Some (KOther _) => Ok (d, rnd, [Reply wrongtypeerr])
      | None =>
          if xx then
            reply ← zadd_reply incr (zg_ch g) (ZCounts 0 0 0 None);
            Ok (d, rnd, reply ++ zadd_cleanup key incr (ZCounts 0 0 0 None))
          else
            '(_, ele) ← nonnull (head (zg_pairs g));
            o ← zsetTypeCreate elements (zlen ele);
            zadd_run d rnd key o g
      | Some (KZset o) =>
          '(o, rnd) ← zsetTypeMaybeConvert rnd o elements;
          zadd_run d rnd key o g
      end
  end.

Definition zaddCommand (d : db) (rnd : list Z) (argv : list (list Z)) := zaddGenericCommand d rnd argv ZADD_IN_NONE.
Definition zincrbyCommand (d : db) (rnd : list Z) (argv : list (list Z)) := zaddGenericCommand d rnd argv ZADD_IN_INCR.

(** ** ZREM *)

(** The object, [deleted] and [keyremoved] *)
Fixpoint zrem_loop (members : list (list Z)) (o : zobj) (deleted : Z) : res (zobj * Z * bool) :=
  match members with
  | [] => Ok (o, deleted, false)
  | m :: members =>
      '(o, b) ← zsetDel o m;
      let deleted := if b : bool then deleted + 1 else deleted in
      '(len, o) ← zsetLength o;
      if len =? 0 then Ok (o, deleted, true) else zrem_loop members o deleted
  end.

Definition zremCommand (d : db) (argv : list (list Z)) : res (db * list effect) :=
  let key := arg argv 1 in
  match d !! key with
  | None => Ok (d, [Reply czero])
  | Some (KOther _) => Ok (d, [Reply wrongtypeerr])
  | Some (KZset o) =>
      '(oldlen, o) ← zsetLength o;
      '(o, deleted, keyremoved) ← zrem_loop (drop 2 argv) o 0;
      let d := if keyremoved : bool then delete key d else <[key := KZset o]> d in
      Ok (d, (if negb (deleted =? 0) then
                Notify "zrem" key :: (if keyremoved then [Notify "del" key] else []) ++
                [KeysizesHist key oldlen (if keyremoved then -1 else oldlen - deleted);
                 KeyModified key (negb keyremoved); Dirty deleted]
              else []) ++ [Reply (ReplyLongLong deleted)])
  end.

(** ** ZREMRANGEBYRANK, ZREMRANGEBYSCORE and ZREMRANGEBYLEX *)

(** The range after the arguments are parsed *)
Inductive range_arg := ByRank (start end_ : Z) | ByScore (r : zrangespec) | ByLex (r : zlexrangespec).

(** Steps 1: the range, or the reply *)
Definition zremrange_parse (rangetype : zrange_type) (min max : list Z) : res (range_arg + reply) :=
  match rangetype with
  | ZRANGE_RANK =>
      Ok (match getLongFromObjectOrReply (RStr min) None with
          | inr r => inr r
          | inl start =>
              match getLongFromObjectOrReply (RStr max) None with
              | inr r => inr r
              | inl end_ => inl (ByRank start end_)
              end
          end)
  | ZRANGE_SCORE =>
      Ok (match zslParseRange strtod (RStr min) (RStr max) with
          | None => inr (ReplyError "min or max is not a float")
          | Some r => inl (ByScore r)
          end)
  | ZRANGE_LEX =>
      Ok (match zslParseLexRange (RStr min) (RStr max) with
          | None => inr (ReplyError "min or max not valid string range item")
          | Some r => inl (ByLex r)
          end)
  | ZRANGE_AUTO => Fault AssertFailed
  end.

(** The indexes from 0 to [llen - 1] that [start] and [end_] mean, if any *)
Definition sanitize_indexes (llen start end_ : Z) : option (Z * Z) :=
  let start := if start <? 0 then llen + start else start in
  let end_ := if end_ <? 0 then llen + end_ else end_ in
  let start := if start <? 0 then 0 else start in
  if (start >? end_) || (start >=? llen) then None
  else Some (start, if end_ >=? llen then llen - 1 else end_).

(** Step 3: the object, [deleted], and whether nothing is left *)
Definition zremrange_delete (o : zobj) (range : range_arg) : res (zobj * Z * bool) :=
  match o with
  | ZListpack zl =>
      '(zl, deleted) ←
        match range with
        | ByRank start end_ => zzlDeleteRangeByRank zl (u32 (start + 1)) (u32 (end_ + 1))
        | ByScore r => zzlDeleteRangeByScore zl r
        | ByLex r => zzlDeleteRangeByLex zl r
        end;
      '(len, zl) ← zzlLength zl;
      Ok (ZListpack zl, deleted, len =? 0)
  | ZSkiplist zs =>
      '(h, z, dict, deleted) ←
        match range with
        | ByRank start end_ => zslDeleteRangeByRank (zs_heap zs) (zs_zsl zs) (u32 (start + 1)) (u32 (end_ + 1)) (zs_dict zs)
        | ByScore r => zslDeleteRangeByScore (zs_heap zs) (zs_zsl zs) r (zs_dict zs)
        | ByLex r => zslDeleteRangeByLex (zs_heap zs) (zs_zsl zs) r (zs_dict zs)
        end;
      Ok (ZSkiplist (ZSet h dict z), deleted, bool_decide (size dict = 0%nat))
  end.

Definition zremrangeGenericCommand (d : db) (argv : list (list Z)) (rangetype : zrange_type)
    : res (db * list effect) :=
  let key := arg argv 1 in
  let notify_type :=
    match rangetype with
    | ZRANGE_RANK => "zremrangebyrank" | ZRANGE_SCORE => "zremrangebyscore" | _ => "zremrangebylex"
    end%string in
  parsed ← zremrange_parse rangetype (arg argv 2) (arg argv 3);
  match parsed with
  | inr r => Ok (d, [Reply r])
  | inl range =>
      match d !! key with
      | None => Ok (d, [Reply czero])
      | Some (KOther _) => Ok (d, [Reply wrongtypeerr])
      | Some (KZset o) =>
          '(o, range) ←
            match range with
            | ByRank start end_ =>
                '(llen, o) ← zsetLength o;
                Ok (o, match sanitize_indexes llen start end_ with
                       | Some (start, end_) => Some (ByRank start end_)
                       | None => None
                       end)
            | _ => Ok (o, Some range)
            end;
          match range with
          | None => Ok (<[key := KZset o]> d, [Reply czero])
          | Some range =>
              '(o, deleted, keyremoved) ← zremrange_delete o range;
              let d := if keyremoved : bool then delete key d else <[key := KZset o]> d in
              '(d, effs) ←
                (if negb (deleted =? 0) then
                   if keyremoved : bool then
                     Ok (d, [KeyModified key false; Notify notify_type key; Notify "del" key;
                             KeysizesHist key deleted (-1)])
                   else
                     '(newlen, o) ← zsetLength o;
                     Ok (<[key := KZset o]> d, [KeyModified key false; Notify notify_type key;
                                                KeysizesHist key (newlen + deleted) newlen])
                 else Ok (d, []));
              Ok (d, effs ++ [Dirty deleted; Reply (ReplyLongLong deleted)])
          end
      end
  end.

Definition zremrangebyrankCommand (d : db) (argv : list (list Z)) := zremrangeGenericCommand d argv ZRANGE_RANK.
Definition zremrangebyscoreCommand (d : db) (argv : list (list Z)) := zremrangeGenericCommand d argv ZRANGE_SCORE.
Definition zremrangebylexCommand (d : db) (argv : list (list Z)) := zremrangeGenericCommand d argv ZRANGE_LEX.

(** ** ZCARD, ZSCORE, ZMSCORE, ZRANK and ZREVRANK *)

Definition zcardCommand (d : db) (argv : list (list Z)) : res (db * list effect) :=
  let key := arg argv 1 in
  match d !! key with
  | None => Ok (d, [Reply czero])
  | Some (KOther _) => Ok (d, [Reply wrongtypeerr])
  | Some (KZset o) =>
      '(len, o) ← zsetLength o; Ok (<[key := KZset o]> d, [Reply (ReplyLongLong len)])
  end.

Definition score_reply (s : option double) : effect :=
  Reply (match s with None => ReplyNull | Some s => ReplyDouble s end).

Definition zscoreCommand (d : db) (argv : list (list Z)) : res (db * list effect) :=
  match d !! arg argv 1 with
  | None => Ok (d, [Reply ReplyNull])
  | Some (KOther _) => Ok (d, [Reply wrongtypeerr])
  | Some (KZset o) => s ← zsetScore o (arg argv 2); Ok (d, [score_reply s])
  end.

Fixpoint zmscore_loop (o : option zobj) (members : list (list Z)) : res (list effect) :=
  match members with
  | [] => Ok []
  | m :: members =>
      s ← match o with None => Ok None | Some o => zsetScore o m end;
      l ← zmscore_loop o members;
      Ok (score_reply s :: l)
  end.

Definition zmscoreCommand (d : db) (argv : list (list Z)) : res (db * list effect) :=
  let go o :=
    l ← zmscore_loop o (drop 2 argv); Ok (d, Reply (ReplyArrayLen (zlen argv - 2)) :: l) in
  match d !! arg argv 1 with
  | Some (KOther _) => Ok (d, [Reply wrongtypeerr])
  | Some (KZset o) => go (Some o)
  | None => go None
  end.

Definition zrankGenericCommand (d : db) (argv : list (list Z)) (reverse : bool) : res (db * list effect) :=
  let key := arg argv 1 in
  if zlen argv >? 4 then Ok (d, [Reply ReplyErrorArity]) else
  let opt_withscore := zlen argv >? 3 in
  if opt_withscore && negb (strcaseeq (arg argv 3) "withscore") then Ok (d, [Reply syntaxerr]) else
  let null := if opt_withscore then ReplyNullArray else ReplyNull in
  match d !! key with
  | None => Ok (d, [Reply null])
  | Some (KOther _) => Ok (d, [Reply wrongtypeerr])
  | Some (KZset o) =>
      '(o, rank, score) ← zsetRank o (arg argv 2) reverse;
      let d := <[key := KZset o]> d in
      if rank >=? 0 then
        if opt_withscore then
          s ← nonnull score;
          Ok (d, [Reply (ReplyArrayLen 2); Reply (ReplyLongLong rank); Reply (ReplyDouble s)])
        else Ok (d, [Reply (ReplyLongLong rank)])
      else Ok (d, [Reply null])
  end.

Definition zrankCommand (d : db) (argv : list (list Z)) := zrankGenericCommand d argv false.
Definition zrevrankCommand (d : db) (argv : list (list Z)) := zrankGenericCommand d argv true.

(** ** ZCOUNT and ZLEXCOUNT *)

(** The loop over a listpack from the first element of the range *)
Fixpoint count_loop (fuel : nat) (zl : list Z) (lte : Z → res bool) (eptr sptr : option Z) (count : Z) : res Z :=
  match eptr with
  | None => Ok count
  | Some e =>
      match fuel with
      | O => Fault OutOfFuel
      | S fuel =>
          b ← lte e;
          if negb b then Ok count
          else
            '(eptr, sptr) ← zzlNext zl eptr sptr;
            count_loop fuel zl lte eptr sptr (u64 (count + 1))
      end
  end.

(** The listpack part of both commands: [first] is the first element *)
Definition zzl_count (zl : list Z) (first : res (option Z)) (lte : Z → res bool) : res Z :=
  eptr ← first;
  match eptr with
  | None => Ok 0
  | Some e =>
      sptr ← lpNext zl e;
      b ← lte e;
      _ ← assert_ b;
      count_loop (length zl) zl lte eptr sptr 0
  end.

(** The skiplist part: [nth] finds the element with an index in the range *)
Definition zsl_count (z : zskiplist) (nth : Z → res (option (ptr * Z))) : res Z :=
  zn ← nth 0;
  match zn with
  | None => Ok 0
  | Some (_, rank) =>
      let count := u64 (zsl_length z - u64 (rank - 1)) in
      zn ← nth (-1);
      match zn with
      | None => Ok count
      | Some (_, rank) => Ok (u64 (count - u64 (zsl_length z - rank)))
      end
  end.

Definition zcountCommand (d : db) (argv : list (list Z)) : res (db * list effect) :=
  match zslParseRange strtod (RStr (arg argv 2)) (RStr (arg argv 3)) with
  | None => Ok (d, [Reply (ReplyError "min or max is not a float")])
  | Some range =>
      match d !! arg argv 1 with
      | None => Ok (d, [Reply czero])
      | Some (KOther _) => Ok (d, [Reply wrongtypeerr])
      | Some (KZset (ZListpack zl)) =>
          count ← zzl_count zl (zzlFirstInRange zl range) (score_lte zl range);
          Ok (d, [Reply (ReplyLongLong (s64 count))])
      | Some (KZset (ZSkiplist zs)) =>
          count ← zsl_count (zs_zsl zs) (zslNthInRange (zs_heap zs) (zs_zsl zs) range);
          Ok (d, [Reply (ReplyLongLong (s64 count))])
      end
  end.

Definition zlexcountCommand (d : db) (argv : list (list Z)) : res (db * list effect) :=
  match zslParseLexRange (RStr (arg argv 2)) (RStr (arg argv 3)) with
  | None => Ok (d, [Reply (ReplyError "min or max not valid string range item")])
  | Some range =>
      match d !! arg argv 1 with
      | None => Ok (d, [Reply czero])
      | Some (KOther _) => Ok (d, [Reply wrongtypeerr])
      | Some (KZset (ZListpack zl)) =>
          count ← zzl_count zl (zzlFirstInLexRange zl range) (zzlLexValueLteMax zl range);
          Ok (d, [Reply (ReplyLongLong (s64 count))])
      | Some (KZset (ZSkiplist zs)) =>
          count ← zsl_count (zs_zsl zs) (zslNthInLexRange (zs_heap zs) (zs_zsl zs) range);
          Ok (d, [Reply (ReplyLongLong (s64 count))])
      end
  end.

(** ** ZPOPMIN and ZPOPMAX *)

Inductive zset_where := ZSET_MIN | ZSET_MAX.
#[export] Instance zset_where_eq_dec : EqDecision zset_where.
Proof. solve_decision. Defined.

(** The key to pop from: the first that exists, unless it has another type *)
Fixpoint zpop_candidate (d : db) (keyv : list (list Z)) : option (list Z * zobj) + reply :=
  match keyv with
  | [] => inl None
  | key :: keyv =>
      match d !! key with
      | None => zpop_candidate d keyv
      | Some (KOther _) => inr wrongtypeerr
      | Some (KZset o) => inl (Some (key, o))
      end
  end.

(** The first or the last element, which must exist *)
Definition zpop_end (o : zobj) (wh : zset_where) : res (list Z * double) :=
  match o with
  | ZListpack zl =>
      eptr ← lpSeek zl (match wh with ZSET_MAX => -2 | ZSET_MIN => 0 end);
      e ← nonnull eptr;
      ele ← lpGetObject zl eptr;
      sptr ← lpNext zl e;
      score ← zzlGetScore zl sptr;
      Ok (ele, score)
  | ZSkiplist zs =>
      zln ← match wh with
            | ZSET_MAX => Ok (zsl_tail (zs_zsl zs))
            | ZSET_MIN => l ← get_level (zs_heap zs) (zsl_header (zs_zsl zs)) 0; Ok (forward l)
            end;
      p ← nonnull zln;
      ele ← zslGetNodeElement (zs_heap zs) p;
      n ← node (zs_heap zs) p;
      Ok (ele, zn_score n)
  end.

(** The loop [do ... while (--rangelen)], whose first iteration is told apart by
    [result_count] *)
Fixpoint zpop_loop (rangelen : nat) (o : zobj) (wh : zset_where) (key : list Z) (nested : bool)
    (result_count : Z) : res (zobj * list effect * Z) :=
  match rangelen with
  | O => Fault OutOfFuel
  | S rangelen =>
      '(ele, score) ← zpop_end o wh;
      '(o, b) ← zsetDel o ele;
      _ ← assert_ b;
      let effs :=
        Dirty 1 ::
        (if result_count =? 0
         then [Notify (match wh with ZSET_MIN => "zpopmin" | ZSET_MAX => "zpopmax" end) key] else []) ++
        (if nested then [Reply (ReplyArrayLen 2)] else []) ++
        [Reply (ReplyBulk ele); Reply (ReplyDouble score)] in
      match rangelen with
      | O => Ok (o, effs, result_count + 1)
      | S _ =>
          '(o, effs', n) ← zpop_loop rangelen o wh key nested (result_count + 1);
          Ok (o, effs ++ effs', n)
      end
  end.

(** [zmpop]: the command is ZMPOP, which is replicated as ZPOPMIN or ZPOPMAX.  The
    last component is [*deleted]. *)
Definition genericZpopCommand (d : db) (keyv : list (list Z)) (wh : zset_where) (emitkey : bool)
    (count : Z) (use_nested_array reply_nil_when_empty zmpop : bool) : res (db * list effect * bool) :=
  match zpop_candidate d keyv with
  | inr r => Ok (d, [Reply r], false)
  | inl None => Ok (d, [Reply (if reply_nil_when_empty then ReplyNullArray else ReplyEmptyArray)], false)
  | inl (Some (key, o)) =>
      if count =? 0 then Ok (d, [Reply ReplyEmptyArray], false) else
      let count := if count =? -1 then 1 else count in
      '(llen, o) ← zsetLength o;
      let rangelen := if count >? llen then llen else count in
      let head :=
        match use_nested_array, emitkey with
        | false, false => [Reply (ReplyArrayLen (rangelen * 2))]
        | true, false => [Reply (ReplyArrayLen rangelen)]
        | false, true => [Reply (ReplyArrayLen (rangelen * 2 + 1)); Reply (ReplyBulk key)]
        | true, true => [Reply (ReplyArrayLen 2); Reply (ReplyBulk key); Reply (ReplyArrayLen rangelen)]
        end in
      '(o, effs, result_count) ← zpop_loop (Z.to_nat rangelen) o wh key use_nested_array 0;
      '(len, o) ← zsetLength o;
      let deleted := len =? 0 in
      let newlen := if deleted then -1 else llen - result_count in
      let d := if deleted then delete key d else <[key := KZset o]> d in
      Ok (d, head ++ effs ++ (if deleted then [Notify "del" key] else []) ++
             [KeysizesHist key llen newlen; KeyModified key (newlen >? 0)] ++
             (if zmpop then
                [RewriteCommand (match wh with ZSET_MAX => "zpopmax" | ZSET_MIN => "zpopmin" end) key
                   (if count >? llen then llen else count)]
              else []), deleted)
  end.

(** [resp]: the version of the protocol the client speaks *)
Definition zpopMinMaxCommand (d : db) (argv : list (list Z)) (resp : Z) (wh : zset_where)
    : res (db * list effect) :=
  if zlen argv >? 3 then Ok (d, [Reply syntaxerr]) else
  let count :=
    if zlen argv =? 3 then getPositiveLongFromObjectOrReply (RStr (arg argv 2)) None else inl (-1) in
  match count with
  | inr r => Ok (d, [Reply r])
  | inl count =>
      let use_nested_array := (resp >? 2) && negb (count =? -1) in
      '(d, effs, _) ← genericZpopCommand d [arg argv 1] wh false count use_nested_array false false;
      Ok (d, effs)
  end.

Definition zpopminCommand (d : db) (argv : list (list Z)) (resp : Z) := zpopMinMaxCommand d argv resp ZSET_MIN.
Definition zpopmaxCommand (d : db) (argv : list (list Z)) (resp : Z) := zpopMinMaxCommand d argv resp ZSET_MAX.
End commands.
