(* ===== verification/ZsetRange.v ===== *)
(** Ranges of sorted sets: the sequence of a map in the order of scores and
    elements, and the removal of parts of it from either encoding. *)

From S2P Require Import Prelude Numstr Sds Listpack LpNav LpMod LpApi Skiplist SklRep SklMod.
From S2P Require Import SklDel SklRank SklSpec Double Object Zzl ZzlRep ZzlMod ZzlSpec Zset.
From S2P Require Import ZsetRep ZsetSkl ZsetConv ZsetSpec ZsetApi ZsetCmd.
From S2P Require Import Keyspace.
From Stdlib Require Import SpecFloat.

(** ** The sequence of a map *)

Definition cval (v : value) : value := (canon v.1, v.2).

Lemma cval_key v : vkey (cval v) = vkey v.
Proof. unfold vkey, zkey, cval. cbn. by rewrite fkey_of_canon. Qed.

Definition vle (v w : value) : Prop := lexcmp (vkey v) (vkey w) ≤ 0.
#[export] Instance vle_dec v w : Decision (vle v w).
Proof. unfold vle. apply _. Defined.
#[export] Instance vle_trans : Transitive vle.
Proof. intros u v w. unfold vle. apply lexcmp_le_trans. Qed.
#[export] Instance vle_total : Total vle.
Proof. intros v w. unfold vle. rewrite (lexcmp_opp (vkey w)). lia. Qed.

(** The elements of a map with their scores, in order *)
Definition zseq (M : zabs) : list value := merge_sort vle ((λ es, (es.2, es.1)) <$> map_to_list M).

Lemma lexcmp_le_antisym a b : lexcmp a b ≤ 0 → lexcmp b a ≤ 0 → a = b.
Proof. intros Ha Hb. rewrite (lexcmp_opp a) in Hb. apply lexcmp_eq. lia. Qed.

Lemma cval_inj v w : canon v.1 = v.1 → canon w.1 = w.1 → vkey v = vkey w → v = w.
Proof.
  intros Hv Hw E. pose proof (vkey_ele v w E) as E2. unfold vkey, zkey in E. rewrite E2 in E.
  apply app_inj_2 in E as [E _]; [|done]. apply fkey_canon in E. rewrite Hv, Hw in E.
  destruct v, w; cbn in *; congruence.
Qed.

Lemma zseq_zmap vs : vals_ok vs → zseq (zmap vs) = cval <$> vs.
Proof.
  intros Hv. assert (((λ es : list Z * double, (es.2, es.1)) <$> map_to_list (zmap vs)) ≡ₚ cval <$> vs) as Hp.
  { unfold zmap. rewrite map_to_list_to_map by (rewrite zmap_fst; apply Hv).
    rewrite <- list_fmap_compose. done. }
  apply (StronglySorted_unique_strong vle).
  - assert (∀ v : value, v ∈ cval <$> vs → canon v.1 = v.1) as Hc.
    { intros v (w & -> & _)%list_elem_of_fmap. apply canon_idem. }
    intros v w Hin Hin' H1 H2. unfold zseq in Hin. rewrite merge_sort_Permutation, Hp in Hin.
    apply cval_inj; [by apply Hc..|]. by apply lexcmp_le_antisym.
  - apply (StronglySorted_merge_sort vle).
  - pose proof (vals_sorted _ Hv) as HS. clear Hv Hp. induction HS as [|v vs HS IH Hall]; [constructor|].
    rewrite fmap_cons. constructor; [done|]. apply Forall_fmap. eapply Forall_impl; [exact Hall|].
    intros w Hw. cbn. unfold vle. rewrite !cval_key. unfold vlt in Hw. lia.
  - unfold zseq. by rewrite merge_sort_Permutation.
Qed.

Lemma zmap_cval vs : zmap (cval <$> vs) = zmap vs.
Proof.
  unfold zmap. rewrite <- list_fmap_compose. f_equal. apply list_fmap_ext. intros i v _. cbn. by rewrite canon_idem.
Qed.

(** ** Removal of a part *)

Lemma sublist_elem {A} (l k : list A) x : l `sublist_of` k → x ∈ l → x ∈ k.
Proof. induction 1; set_solver. Qed.

Lemma sublist_sorted {A} (R : relation A) l k : l `sublist_of` k → StronglySorted R k → StronglySorted R l.
Proof.
  induction 1 as [|x l k Hs IH|x l k Hs IH]; intros HS; [done| |];
    apply StronglySorted_inv in HS as [HS Hall]; [|by apply IH].
  constructor; [by apply IH|]. rewrite Forall_forall in *. intros y Hy. by eapply Hall, sublist_elem.
Qed.

Lemma sublist_Forall {A} (P : A → Prop) l k : l `sublist_of` k → Forall P k → Forall P l.
Proof. rewrite !Forall_forall. intros Hs Hall x Hx. by eapply Hall, sublist_elem. Qed.

Lemma vals_sublist l k : l `sublist_of` k → vals_ok k → vals_ok l.
Proof.
  intros Hs [H1 H2 H3]. split; [by eapply sublist_sorted| |by eapply sublist_Forall].
  eapply sublist_NoDup; [exact H2|]. by apply fmap_sublist.
Qed.

Lemma lp_room_sublist l k : l `sublist_of` k → lp_room l ≤ lp_room k.
Proof.
  induction 1 as [|x l k Hs IH|x l k Hs IH]; [done|rewrite !lp_room_cons; lia|].
  rewrite lp_room_cons. pose proof (lp_cost_range x.2). lia.
Qed.

Lemma filter_fmap_bool {A B} (f : A → B) (P : A → Prop) (Q : B → Prop) `{∀ x, Decision (P x), ∀ y, Decision (Q y)} (l : list A) :
  (∀ x, P x ↔ Q (f x)) → f <$> filter P l = filter Q (f <$> l).
Proof.
  intros HPQ. induction l as [|x l IH]; [done|]. rewrite fmap_cons, !filter_cons.
  destruct (decide (P x)) as [Hp|Hp]; destruct (decide (Q (f x))) as [Hq|Hq]; try (exfalso; by rewrite HPQ in Hp).
  - by rewrite fmap_cons, IH.
  - done.
Qed.

Lemma foldl_zdict_delete (ks : list (list Z)) : ∀ (d : zdict) k,
  foldl zdict_delete d ks !! k = if decide (k ∈ ks) then None else d !! k.
Proof.
  induction ks as [|k' ks IH]; intros d k; [by rewrite decide_False by apply not_elem_of_nil|].
  cbn [foldl]. rewrite IH. unfold zdict_delete. destruct (decide (k = k')) as [->|Hne].
  - rewrite lookup_delete_eq. rewrite (decide_True (P := k' ∈ k' :: ks)) by set_solver. by case_decide.
  - rewrite lookup_delete_ne by done. destruct (decide (k ∈ ks)); [rewrite decide_True by set_solver; done|].
    by rewrite decide_False by set_solver.
Qed.

(** A dictionary from which the removed nodes [ds] are taken has the others. *)
Lemma dict_remove_all d xs ds ks :
  dict_ok d xs → (∀ x, x ∈ xs ↔ x ∈ ds ∨ x ∈ ks) → (∀ x y, x ∈ ds → y ∈ ks → ze_ele x ≠ ze_ele y) →
  dict_ok (foldl zdict_delete d (ze_ele <$> ds)) ks.
Proof.
  intros Hd Hx Hne k p. rewrite foldl_zdict_delete. destruct (decide _) as [Hin|Hin].
  - split; [done|]. intros (x & Hk & <- & _). apply list_elem_of_fmap in Hin as (y & E & Hy).
    by destruct (Hne y x Hy Hk).
  - rewrite (Hd k p). split; intros (x & Hxx & <- & <-); exists x; (split; [|done]).
    + apply Hx in Hxx as [Hds|?]; [|done]. exfalso. apply Hin. by apply list_elem_of_fmap_2.
    + apply Hx. by right.
Qed.

Section remove.
Context `{Allocator} `{NodeAlloc} `{FloatText}.

(** What is left of a listpack *)
Lemma lp_part_ok zl zl' ps ps' :
  lp_holds zl (zvals ps) → Forall pair_ok ps → vals_ok (zvals ps) → ps' `sublist_of` ps → zzl_rep zl' ps' →
  zset_rep (ZListpack zl') (zvals ps').
Proof.
  intros (_ & _ & _ & _ & Hroom) Hok Hv Hs R. assert (zvals ps' `sublist_of` zvals ps) as Hs' by by apply fmap_sublist.
  split; [by eapply vals_sublist|]. exists ps'. split; [done|]. split; [done|].
  split; [by eapply sublist_Forall|]. pose proof (lp_room_sublist _ _ Hs'). lia.
Qed.

(** What is left of a skiplist *)
Lemma skl_part_ok zs xs ds ks h z :
  dict_ok (zs_dict zs) xs → vals_ok (eval <$> xs) → ks `sublist_of` xs → (∀ x, x ∈ xs ↔ x ∈ ds ∨ x ∈ ks) →
  (∀ x y, x ∈ ds → y ∈ ks → ze_ele x ≠ ze_ele y) → zsl_rep h z ks →
  zset_rep (ZSkiplist (ZSet h (foldl zdict_delete (zs_dict zs) (ze_ele <$> ds)) z)) (eval <$> ks) ∧
  size (foldl zdict_delete (zs_dict zs) (ze_ele <$> ds)) = length ks.
Proof.
  intros Hd Hv Hs Hx Hne R. pose proof (dict_remove_all _ _ _ _ Hd Hx Hne) as Hd'.
  assert (vals_ok (eval <$> ks)) as Hv' by (eapply vals_sublist; [by apply fmap_sublist|done]).
  split; [split; [done|]; by exists ks|].
  set (d := foldl _ _ _) in *. clearbody d.
  assert (d = list_to_map ((λ x, (ze_ele x, ze_ptr x)) <$> ks)) as ->.
  { apply map_eq. intros k. apply option_eq. intros p. rewrite (Hd' k p).
    rewrite <- elem_of_list_to_map.
    - rewrite list_elem_of_fmap. naive_solver.
    - rewrite <- list_fmap_compose. change (NoDup (ze_ele <$> ks)). rewrite <- eval_ele. apply Hv'. }
  rewrite map_size_list_to_map, length_fmap; [done|].
  rewrite <- list_fmap_compose. change (NoDup (ze_ele <$> ks)). rewrite <- eval_ele. apply Hv'.
Qed.

(** Two nodes with the same element are the same. *)
Lemma ele_unique xs x y : vals_ok (eval <$> xs) → x ∈ xs → y ∈ xs → ze_ele x = ze_ele y → x = y.
Proof.
  intros Hv Hx Hy E. pose proof (vals_nodup _ Hv) as Hnd. rewrite eval_ele in Hnd.
  apply list_elem_of_lookup in Hx as (i & Hi), Hy as (j & Hj).
  assert (i = j) as ->; [|congruence].
  eapply (NoDup_lookup _ _ _ (ze_ele x) Hnd); rewrite list_lookup_fmap; [by rewrite Hi|by rewrite Hj, E].
Qed.

(** A run of nodes is removed. *)
Lemma skl_cut_ok zs xs a ds b h z :
  dict_ok (zs_dict zs) xs → vals_ok (eval <$> xs) → xs = a ++ ds ++ b → zsl_rep h z (a ++ b) →
  zset_rep (ZSkiplist (ZSet h (foldl zdict_delete (zs_dict zs) (ze_ele <$> ds)) z)) (eval <$> (a ++ b)) ∧
  size (foldl zdict_delete (zs_dict zs) (ze_ele <$> ds)) = length (a ++ b).
Proof.
  intros Hd Hv E R. apply (skl_part_ok zs xs); [done|done| | | |done].
  - rewrite E. apply sublist_app; [done|]. by apply sublist_inserts_l.
  - intros x. rewrite E. set_solver.
  - intros x y Hx Hy Ee. rewrite E in Hv. assert (x = y) as -> by (eapply ele_unique; [exact Hv|set_solver|set_solver|done]).
    pose proof (vals_nodup _ Hv) as Hnd. rewrite eval_ele in Hnd. apply NoDup_fmap_1 in Hnd.
    apply NoDup_app in Hnd as (_ & N1 & N2). apply NoDup_app in N2 as (_ & N2 & _). set_solver.
Qed.

(** A test splits the nodes into those removed and those kept. *)
Lemma filter_parts (P : bool → zent → Prop) `{∀ b x, Decision (P b x)} xs :
  (∀ x, P true x ↔ ¬ P false x) → vals_ok (eval <$> xs) →
  filter (P false) xs `sublist_of` xs ∧
  (∀ x, x ∈ xs ↔ x ∈ filter (P true) xs ∨ x ∈ filter (P false) xs) ∧
  (∀ x y, x ∈ filter (P true) xs → y ∈ filter (P false) xs → ze_ele x ≠ ze_ele y).
Proof.
  intros HP Hv. split; [apply sublist_filter|]. setoid_rewrite list_elem_of_filter. split.
  - intros x. rewrite HP. destruct (decide (P false x)); naive_solver.
  - intros x y [Hpx Hx] [Hpy Hy] E. rewrite (ele_unique xs x y Hv Hx Hy E) in Hpx. by apply HP in Hpx.
Qed.

(** The values inside a range, or not *)
Definition by_score (r : zrangespec) (b : bool) (v : value) : Prop :=
  zslValueGteMin v.1 r && zslValueLteMax v.1 r = b.
Definition by_lex (r : zlexrangespec) (b : bool) (v : value) : Prop :=
  zslLexValueGteMin v.2 r && zslLexValueLteMax v.2 r = b.
#[export] Instance by_score_dec r b v : Decision (by_score r b v).
Proof. unfold by_score. apply _. Defined.
#[export] Instance by_lex_dec r b v : Decision (by_lex r b v).
Proof. unfold by_lex. apply _. Defined.

Lemma vals_nan vs v : vals_ok vs → v ∈ vs → isnan v.1 = false.
Proof. intros Hv Hin. pose proof (vals_each _ Hv) as Hall. rewrite Forall_forall in Hall. by destruct (Hall v Hin) as [[? _] _]. Qed.

Lemma zvals_nan ps : vals_ok (zvals ps) → Forall (λ p, isnan (ent_score p.2) = false) ps.
Proof.
  intros Hv. apply Forall_forall. intros p Hp. apply (vals_nan (zvals ps) (zval p) Hv). by apply list_elem_of_fmap_2.
Qed.

Lemma zlen_nil {A B} (f : A → B) (l : list A) : (zlen l =? 0) = bool_decide (f <$> l = []).
Proof. by destruct l. Qed.
Lemma length_nil_dec {A B} (f : A → B) (l : list A) : bool_decide (length l = 0%nat) = bool_decide (f <$> l = []).
Proof. by destruct l. Qed.

Lemma delete_scores_ok o vs r :
  zset_rep o vs → isnan (zr_min r) = false → isnan (zr_max r) = false →
  ∃ o', zremrange_delete o (ByScore r) =
      Ok (o', zlen (filter (by_score r true) vs), bool_decide (filter (by_score r false) vs = [])) ∧
    zset_rep o' (filter (by_score r false) vs).
Proof.
  intros [Hv Hh] Hmin Hmax. destruct o as [zl|zs].
  - pose proof Hh as (ps & R & <- & Hok & _). unfold zremrange_delete.
    destruct (zz_delete_scores zl ps r R (vals_sorted _ Hv) (zvals_nan ps Hv) Hmin Hmax) as (zl1 & -> & R1). rs.
    destruct (zz_length R1) as (zl2 & -> & R2). rs.
    assert (∀ b, zvals (filter (in_scores r b) ps) = filter (by_score r b) (zvals ps)) as E
      by (intros b; by apply filter_fmap_bool).
    rewrite <- !E, (zlen_nil zval). unfold zvals at 1. rewrite length_fmap. eexists. split; [done|].
    eapply lp_part_ok; [done|done|done|apply sublist_filter|done].
  - destruct Hh as (xs & R & <- & Hd). unfold zremrange_delete.
    destruct (score_range_ok (zs_heap zs) (zs_zsl zs) xs r (zs_dict zs) R Hmin Hmax) as (h & z & -> & R1). rs.
    destruct (filter_parts (in_score_range r) xs) as (F1 & F2 & F3); [intros x; unfold in_score_range, inside; by destruct (_ && _)|done|].
    destruct (skl_part_ok zs xs _ _ h z Hd Hv F1 F2 F3 R1) as [Hrep Hsz]. rewrite Hsz.
    assert (∀ b, eval <$> filter (in_score_range r b) xs = filter (by_score r b) (eval <$> xs)) as E
      by (intros b; by apply filter_fmap_bool).
    rewrite <- !E, (length_nil_dec eval), length_fmap. by eexists.
Qed.

(** All scores are equal: the order is that of the elements. *)
Definition one_score (vs : list value) : Prop := ∀ v w, v ∈ vs → w ∈ vs → fkey v.1 = fkey w.1.

Lemma delete_lex_ok o vs r :
  zset_rep o vs → one_score vs →
  ∃ o', zremrange_delete o (ByLex r) =
      Ok (o', zlen (filter (by_lex r true) vs), bool_decide (filter (by_lex r false) vs = [])) ∧
    zset_rep o' (filter (by_lex r false) vs).
Proof.
  intros [Hv Hh] Hone. destruct o as [zl|zs].
  - pose proof Hh as (ps & R & <- & Hok & _). unfold zremrange_delete.
    destruct (zz_delete_lex zl ps r R (vals_sorted _ Hv)) as (zl1 & -> & R1).
    { intros p q Hp Hq. apply (Hone (zval p) (zval q)); by apply list_elem_of_fmap_2. }
    rs. destruct (zz_length R1) as (zl2 & -> & R2). rs.
    assert (∀ b, zvals (filter (in_lex r b) ps) = filter (by_lex r b) (zvals ps)) as E
      by (intros b; by apply filter_fmap_bool).
    rewrite <- !E, (zlen_nil zval). unfold zvals at 1. rewrite length_fmap. eexists. split; [done|].
    eapply lp_part_ok; [done|done|done|apply sublist_filter|done].
  - destruct Hh as (xs & R & <- & Hd). unfold zremrange_delete.
    destruct (lex_range_ok (zs_heap zs) (zs_zsl zs) xs r (zs_dict zs) R) as (h & z & -> & R1).
    { intros x y Hx Hy. apply (Hone (eval x) (eval y)); by apply list_elem_of_fmap_2. }
    rs. destruct (filter_parts (in_lex_range r) xs) as (F1 & F2 & F3); [intros x; unfold in_lex_range, inside; by destruct (_ && _)|done|].
    destruct (skl_part_ok zs xs _ _ h z Hd Hv F1 F2 F3 R1) as [Hrep Hsz]. rewrite Hsz.
    assert (∀ b, eval <$> filter (in_lex_range r b) xs = filter (by_lex r b) (eval <$> xs)) as E
      by (intros b; by apply filter_fmap_bool).
    rewrite <- !E, (length_nil_dec eval), length_fmap. by eexists.
Qed.

Lemma cut_sublist {A} (l : list A) i j : (i ≤ j)%nat → take i l ++ drop j l `sublist_of` l.
Proof.
  intros Hij. rewrite <- (take_drop i l) at 3. apply sublist_app; [done|].
  replace j with (i + (j - i))%nat by lia. rewrite <- drop_drop. apply sublist_drop.
Qed.

(** The elements with the indexes [start] to [end_] *)
Lemma delete_rank_ok o vs start end_ :
  zset_rep o vs → 0 ≤ start → start ≤ end_ → end_ < zlen vs → zlen vs < 2 ^ 32 →
  let kept := take (Z.to_nat start) vs ++ drop (Z.to_nat (end_ + 1)) vs in
  ∃ o', zremrange_delete o (ByRank start end_) = Ok (o', end_ - start + 1, bool_decide (kept = [])) ∧
    zset_rep o' kept.
Proof.
  intros [Hv Hh] H0' Hse He Hsz kept. destruct o as [zl|zs]; unfold zremrange_delete; rewrite !u32_small by lia.
  - pose proof (lp_holds_len _ _ Hh) as Hlen. pose proof Hh as (ps & R & <- & Hok & _).
    unfold zvals in Hlen, He. rewrite length_fmap in Hlen, He.
    destruct (zz_delete_rank R (start + 1) (end_ + 1)) as (zl1 & -> & R1); [lia|lia|lia|]. rs.
    destruct (zz_length R1) as (zl2 & -> & R2). rs.
    replace (Z.to_nat (start + 1 - 1)) with (Z.to_nat start) in * by lia.
    assert (zvals (take (Z.to_nat start) ps ++ drop (Z.to_nat (end_ + 1)) ps) = kept) as E
      by (unfold kept, zvals; by rewrite fmap_app, fmap_take, fmap_drop).
    rewrite (zlen_nil zval). fold (zvals (take (Z.to_nat start) ps ++ drop (Z.to_nat (end_ + 1)) ps)). rewrite E. eexists. split; [f_equal; f_equal; f_equal; lia|]. rewrite <- E.
    eapply lp_part_ok; [done|done|done|apply cut_sublist; lia|done].
  - destruct Hh as (xs & R & <- & Hd). rewrite length_fmap in He, Hsz.
    destruct (rank_range_ok (zs_heap zs) (zs_zsl zs) xs (start + 1) (end_ + 1) (zs_dict zs) R) as (h & z & -> & R1);
      [lia|lia|]. rs. replace (Z.to_nat (start + 1 - 1)) with (Z.to_nat start) in * by lia.
    replace (end_ + 1 - (start + 1) + 1) with (end_ - start + 1) in * by lia.
    rewrite drop_drop in R1. replace (Z.to_nat start + Z.to_nat (end_ - start + 1))%nat with (Z.to_nat (end_ + 1)) in R1 by lia.
    set (a := take (Z.to_nat start) xs) in *. set (ds := take _ (drop _ _)) in *. set (b := drop _ xs) in *.
    assert (xs = a ++ ds ++ b) as E.
    { unfold a, ds, b. rewrite <- (take_drop (Z.to_nat start) xs) at 1. f_equal.
      rewrite <- (take_drop (Z.to_nat (end_ - start + 1)) (drop _ xs)) at 1. rewrite drop_drop. do 2 f_equal. lia. }
    assert (eval <$> (a ++ b) = kept) as Ek by (unfold kept, a, b; by rewrite fmap_app, fmap_take, fmap_drop).
    destruct (skl_cut_ok zs xs a ds b h z Hd Hv E R1) as [Hrep Hsz2].
    rewrite Hsz2, (length_nil_dec eval), Ek. rewrite Ek in Hrep. eexists. split; [|exact Hrep].
    do 3 f_equal. unfold ds. rewrite length_take, length_drop. lia.
Qed.
End remove.

(** ** Counting *)

Section count.
Context `{Allocator} `{NodeAlloc} `{FloatText}.

Lemma count_loop_ok zl ps lte (P : pair → bool) :
  zzl_rep zl ps → zlen ps < 2 ^ 32 → (∀ k p, ps !! k = Some p → lte (zz_at ps k) = Ok (P p)) →
  ∀ fuel k ds bs c, drop k ps = ds ++ bs → Forall (λ p, P p = true) ds → head_fails P bs →
  (k + length ds ≤ length ps)%nat → (length ds < fuel)%nat → 0 ≤ c → c + zlen ds < 2 ^ 32 →
  count_loop fuel zl lte (zz_ptr ps k) (zz_sptr ps k) c = Ok (c + zlen ds).
Proof.
  intros R Hlen Hlte fuel. induction fuel as [|fuel IH]; intros k ds bs c E Hds Hbs Hk Hf Hc Hc2; [lia|].
  destruct (decide (k < length ps)%nat) as [Hlt|Hge].
  - destruct (lookup_lt_is_Some_2 ps k Hlt) as [p Hp]. rewrite zz_ptr_some by done. cbn [count_loop].
    rewrite (Hlte k p Hp). rs. assert (drop k ps = p :: drop (S k) ps) as Ed by by apply drop_S.
    destruct ds as [|q ds].
    + cbn [app] in E. rewrite Ed in E. destruct bs as [|b bs]; [done|]. injection E as -> _.
      rewrite (head_fails_cons _ _ _ Hbs). cbn [negb length]. f_equal. lia.
    + cbn [app] in E. rewrite Ed in E. injection E as -> E. apply Forall_cons in Hds as [-> Hds]. cbn [negb].
      rewrite <- zz_ptr_some by done. rewrite (zz_next R k q Hp). rs. cbn [length] in *.
      rewrite u64_small by lia. rewrite (IH (S k) ds bs); [f_equal; lia|done|done|done|lia|lia|lia|lia].
  - rewrite zz_ptr_none by lia. cbn [count_loop]. rewrite drop_ge in E by lia. symmetry in E.
    apply app_eq_nil in E as [-> _]. f_equal. cbn. lia.
Qed.

Lemma zzl_count_ok zl ps lte (P : pair → bool) as_ ds bs :
  zzl_rep zl ps → zlen ps < 2 ^ 30 → ps = as_ ++ ds ++ bs →
  (∀ k p, ps !! k = Some p → lte (zz_at ps k) = Ok (P p)) →
  Forall (λ p, P p = true) ds → head_fails P bs →
  zzl_count zl (Ok (if decide (ds = []) then None else zz_ptr ps (length as_))) lte = Ok (zlen ds).
Proof.
  intros R Hlen E Hlte Hds Hbs. unfold zzl_count. cbn [mbind res_bind].
  pose proof (zz_count R) as Hc. pose proof (f_equal length E) as El. rewrite !length_app in El.
  destruct (decide (ds = [])) as [->|Hne]; [done|]. destruct ds as [|q ds]; [done|]. cbn [length] in El.
  assert (ps !! length as_ = Some q) as Hq by (rewrite E; by apply list_lookup_middle).
  rewrite zz_ptr_some by lia. rewrite (zz_next_score R _ _ Hq). rs.
  rewrite (Hlte _ q Hq). rs. apply Forall_cons in Hds as Hds'. destruct Hds' as [Pq _]. rewrite assert_true by done. rs.
  rewrite <- zz_ptr_some, <- zz_sptr_some by lia.
  rewrite (count_loop_ok zl ps lte P R ltac:(lia) Hlte (length zl) (length as_) (q :: ds) bs 0);
    [f_equal; lia| |done|done|cbn [length]; lia|cbn [length]; lia|lia|cbn [length]; lia].
  by rewrite E, drop_app_length.
Qed.

Lemma zsl_count_ok z xs (nth : Z → res (option (ptr * Z))) xs1 ds ys :
  zsl_length z = zlen xs → zlen xs < INT64_MAX → xs = xs1 ++ ds ++ ys →
  (∀ n, is_i64 n → nth n = Ok (nth_spec xs1 ds n)) → zsl_count z nth = Ok (zlen ds).
Proof.
  intros Hz Hlen E Hn. unfold zsl_count. rewrite !Hn by (unfold is_i64; lia). rs.
  pose proof (f_equal length E) as El. rewrite !length_app in El. rewrite Hz.
  destruct ds as [|d ds]; [done|].
  assert (nth_spec xs1 (d :: ds) 0 = Some (ze_ptr d, zlen xs1 + 1)) as ->.
  { unfold nth_spec. change (0 <=? 0) with true. cbv beta iota zeta. change (0 <=? 0) with true. cbv iota.
    change ((d :: ds) !! Z.to_nat 0) with (Some d). cbn [fmap option_fmap option_map]. by rewrite Z.add_0_r. }
  destruct (lookup_lt_is_Some_2 (d :: ds) (length ds)) as [e He]; [cbn; lia|].
  assert (nth_spec xs1 (d :: ds) (-1) = Some (ze_ptr e, zlen xs1 + zlen (d :: ds))) as ->.
  { unfold nth_spec. change (0 <=? -1) with false. cbv beta iota zeta. replace (0 <=? zlen (d :: ds) + -1) with true by (cbn [length]; lia).
    replace (Z.to_nat (zlen (d :: ds) + -1)) with (length ds) by (cbn [length]; lia). rewrite He.
    cbn [fmap option_fmap option_map]. f_equal. f_equal. cbn [length]. lia. }
  cbn [length] in *. rewrite (u64_small (zlen xs1 + 1 - 1)) by lia. rewrite (u64_small (zlen xs - (zlen xs1 + 1 - 1))) by lia.
  rewrite (u64_small (zlen xs - _)) by lia. rewrite u64_small by lia. f_equal. lia.
Qed.

(** The sets whose scores are in a range *)
Lemma count_scores_ok o vs r :
  zset_rep o vs → isnan (zr_min r) = false → isnan (zr_max r) = false → zlen vs < INT64_MAX →
  match o with
  | ZListpack zl => zzl_count zl (zzlFirstInRange zl r) (score_lte zl r)
  | ZSkiplist zs => zsl_count (zs_zsl zs) (zslNthInRange (zs_heap zs) (zs_zsl zs) r)
  end = Ok (zlen (filter (by_score r true) vs)).
Proof.
  intros [Hv Hh] Hmin Hmax Hsz. destruct o as [zl|zs].
  - pose proof (lp_holds_len _ _ Hh) as Hlen. destruct Hh as (ps & R & <- & Hok & _).
    unfold zvals in Hlen. rewrite length_fmap in Hlen.
    destruct (zz_score_ends zl ps r R (vals_sorted _ Hv) (zvals_nan ps Hv) Hmin Hmax) as (as_ & bs & E & C & -> & _).
    rewrite (zzl_count_ok zl ps _ (score_lte_p r) as_ _ bs R Hlen E (score_lte_ok R r) (cut_in _ _ _ _ _ C) (head_fails_all _ _ (cut_after _ _ _ _ _ C))).
    do 2 f_equal. rewrite <- (length_fmap zval). f_equal. by apply filter_fmap_bool.
  - destruct Hh as (xs & R & <- & Hd). rewrite length_fmap in Hsz. pose proof (proj1 R) as Ri.
    destruct (nth_scores_ok _ _ xs r Ri Hmin Hmax) as (xs1 & ys & E & _ & _ & Hn).
    rewrite (zsl_count_ok _ xs _ xs1 _ ys (rep_length _ _ _ Ri) Hsz E Hn).
    do 2 f_equal. rewrite <- (length_fmap eval). f_equal. by apply filter_fmap_bool.
Qed.

Lemma count_lex_ok o vs r :
  zset_rep o vs → one_score vs → zlen vs < INT64_MAX →
  match o with
  | ZListpack zl => zzl_count zl (zzlFirstInLexRange zl r) (zzlLexValueLteMax zl r)
  | ZSkiplist zs => zsl_count (zs_zsl zs) (zslNthInLexRange (zs_heap zs) (zs_zsl zs) r)
  end = Ok (zlen (filter (by_lex r true) vs)).
Proof.
  intros [Hv Hh] Hone Hsz. destruct o as [zl|zs].
  - pose proof (lp_holds_len _ _ Hh) as Hlen. destruct Hh as (ps & R & <- & Hok & _).
    unfold zvals in Hlen. rewrite length_fmap in Hlen.
    destruct (zz_lex_ends zl ps r R (vals_sorted _ Hv)) as (as_ & bs & E & C & -> & _).
    { intros p q Hp Hq. apply (Hone (zval p) (zval q)); by apply list_elem_of_fmap_2. }
    rewrite (zzl_count_ok zl ps _ (lex_lte_p r) as_ _ bs R Hlen E (lex_lte_ok R r) (cut_in _ _ _ _ _ C) (head_fails_all _ _ (cut_after _ _ _ _ _ C))).
    do 2 f_equal. rewrite <- (length_fmap zval). f_equal. by apply filter_fmap_bool.
  - destruct Hh as (xs & R & <- & Hd). rewrite length_fmap in Hsz. pose proof (proj1 R) as Ri.
    destruct (nth_lex_ok _ _ xs r Ri) as (xs1 & ys & E & _ & _ & Hn).
    { intros x y Hx Hy. apply (Hone (eval x) (eval y)); by apply list_elem_of_fmap_2. }
    rewrite (zsl_count_ok _ xs _ xs1 _ ys (rep_length _ _ _ Ri) Hsz E Hn).
    do 2 f_equal. rewrite <- (length_fmap eval). f_equal. by apply filter_fmap_bool.
Qed.
End count.
