(* ===== verification/Zrange.v ===== *)
(** ZRANGE and its relatives: [t_zset.c], lines 3203 to 4058.

    The commands walk over a part of a sorted set and hand each element to a
    result handler: one handler replies to the client, the other stores the
    elements in a new sorted set.  As in the source, a handler is a record of
    functions on a state of its own; the last of them may change the database. *)

From S2P Require Import Prelude Numstr Sds Listpack LpNav LpMod LpFind Skiplist Double Object.
From S2P Require Import Zzl Zset ZsetCmd.
From S2P Require Import Keyspace.
From Stdlib Require Import SpecFloat.

(** ** Result handlers *)

Inductive zrange_direction := ZRANGE_DIRECTION_AUTO | ZRANGE_DIRECTION_FORWARD | ZRANGE_DIRECTION_REVERSE.
#[export] Instance zrange_direction_eq_dec : EqDecision zrange_direction.
Proof. solve_decision. Defined.

Record zrange_result_handler (H : Type) := {
  beginResultEmission : Z → H → res H;
  finalizeResultEmission : Z → H → db → res (H * db);
  emitResultFromCBuffer : list Z → double → H → res H;
  emitResultFromLongLong : Z → double → H → res H
}.
Arguments beginResultEmission {H}.
Arguments finalizeResultEmission {H}.
Arguments emitResultFromCBuffer {H}.
Arguments emitResultFromLongLong {H}.

Section handlers.
Context `{Allocator} `{NodeAlloc} `{FloatText} `{StrtodErrno} `{Server}.

(** The handler that replies: the replies so far, the options, and [userdata],
    the place of a length that is not known yet *)
Record client_handler := ClientHandler {
  ch_resp : Z;
  ch_withscores : bool;
  ch_should_emit_array_length : bool;
  ch_userdata : option nat;
  ch_out : list reply }.

Definition ch_add (h : client_handler) (r : list reply) : client_handler :=
  ClientHandler (ch_resp h) (ch_withscores h) (ch_should_emit_array_length h) (ch_userdata h) (ch_out h ++ r).

(** [addReplyDeferredLen] leaves a place for the length, which
    [setDeferredArrayLen] fills. *)
Definition zrangeResultBeginClient (length_ : Z) (h : client_handler) : res client_handler :=
  if length_ >? 0 then
    let length_ := if ch_withscores h && (ch_resp h =? 2) then length_ * 2 else length_ in
    Ok (ClientHandler (ch_resp h) (ch_withscores h) (ch_should_emit_array_length h) None
          (ch_out h ++ [ReplyArrayLen length_]))
  else
    Ok (ClientHandler (ch_resp h) (ch_withscores h) (ch_should_emit_array_length h) (Some (length (ch_out h)))
          (ch_out h ++ [ReplyArrayLen 0])).

Definition zrangeResultEmitCBufferToClient (value : list Z) (score : double) (h : client_handler)
    : res client_handler :=
  Ok (ch_add h ((if ch_should_emit_array_length h then [ReplyArrayLen 2] else []) ++
                [ReplyBulk value] ++ (if ch_withscores h then [ReplyDouble score] else []))).

(** [addReplyBulkLongLong] prints the number. *)
Definition zrangeResultEmitLongLongToClient (value : Z) (score : double) (h : client_handler)
    : res client_handler :=
  s ← sdsfromlonglong value; zrangeResultEmitCBufferToClient s score h.

Definition zrangeResultFinalizeClient (result_count : Z) (h : client_handler) (d : db)
    : res (client_handler * db) :=
  match ch_userdata h with
  | None => Ok (h, d)
  | Some at_ =>
      let result_count := if ch_withscores h && (ch_resp h =? 2) then result_count * 2 else result_count in
      Ok (ClientHandler (ch_resp h) (ch_withscores h) (ch_should_emit_array_length h) None
            (<[at_ := ReplyArrayLen result_count]> (ch_out h)), d)
  end.

Definition client_ops : zrange_result_handler client_handler := {|
  beginResultEmission := zrangeResultBeginClient;
  finalizeResultEmission := zrangeResultFinalizeClient;
  emitResultFromCBuffer := zrangeResultEmitCBufferToClient;
  emitResultFromLongLong := zrangeResultEmitLongLongToClient |}.

(** The handler that stores: the destination, the new object once it is created,
    and the effects *)
Record store_handler := StoreHandler {
  sh_dstkey : list Z;
  sh_dstobj : option zobj;
  sh_rnd : list Z;
  sh_out : list effect }.

Definition zrangeResultBeginStore (length_ : Z) (h : store_handler) : res store_handler :=
  o ← zsetTypeCreate (if length_ >=? 0 then length_ else 0) 0;
  Ok (StoreHandler (sh_dstkey h) (Some o) (sh_rnd h) (sh_out h)).

Definition zrangeResultEmitCBufferForStore (value : list Z) (score : double) (h : store_handler)
    : res store_handler :=
  o ← nonnull (sh_dstobj h);
  '(o, rnd, r) ← zsetAdd (sh_rnd h) o score value ZADD_IN_NONE;
  _ ← assert_ (za_ret r);
  Ok (StoreHandler (sh_dstkey h) (Some o) rnd (sh_out h)).

Definition zrangeResultEmitLongLongForStore (value : Z) (score : double) (h : store_handler)
    : res store_handler :=
  ele ← sdsfromlonglong value; zrangeResultEmitCBufferForStore ele score h.

Definition zrangeResultFinalizeStore (result_count : Z) (h : store_handler) (d : db)
    : res (store_handler * db) :=
  o ← nonnull (sh_dstobj h);
  let key := sh_dstkey h in
  let done effs := StoreHandler key None (sh_rnd h) (sh_out h ++ effs) in
  if negb (result_count =? 0) then
    let '(d, effs) := setKey d key (KZset o) in
    Ok (done (effs ++ [Reply (ReplyLongLong result_count); Notify "zrangestore" key; Dirty 1]), d)
  else
    match d !! key with
    | Some _ => Ok (done [Reply czero; KeyModified key false; Notify "del" key; Dirty 1], delete key d)
    | None => Ok (done [Reply czero], d)
    end.

Definition store_ops : zrange_result_handler store_handler := {|
  beginResultEmission := zrangeResultBeginStore;
  finalizeResultEmission := zrangeResultFinalizeStore;
  emitResultFromCBuffer := zrangeResultEmitCBufferForStore;
  emitResultFromLongLong := zrangeResultEmitLongLongForStore |}.
End handlers.

(** ** Walks *)

Section range.
Context `{Allocator} `{NodeAlloc} `{FloatText} `{StrtodErrno} `{Server}.
Context {St : Type} (hd : zrange_result_handler St).

(** [handler->emitResultFromLongLong] or [handler->emitResultFromCBuffer] of the
    entry at [eptr] *)
Definition emit_entry (zl : list Z) (eptr : Z) (score : double) (st : St) : res St :=
  v ← lpGetValue zl eptr;
  match v with
  | RPtr vstr vlen => s ← mem_read zl vstr vlen; emitResultFromCBuffer hd s score st
  | RNull vlong => emitResultFromLongLong hd vlong score st
  | RBuf _ _ => Fault OutOfBounds
  end.

Definition zzl_move (reverse : bool) (zl : list Z) (eptr sptr : option Z) : res (option Z * option Z) :=
  if reverse then zzlPrev zl eptr sptr else zzlNext zl eptr sptr.

(** [ln->backward] or [ln->level[0].forward] *)
Definition zsl_move (reverse : bool) (h : zheap) (p : ptr) : res (option ptr) :=
  if reverse then n ← node h p; Ok (zn_backward n)
  else l ← get_level h p 0; Ok (forward l).

(** The loop [while (rangelen--)] over a listpack *)
Fixpoint zzl_rank_loop (rangelen : nat) (zl : list Z) (eptr sptr : option Z) (withscores reverse : bool) (st : St)
    : res St :=
  match rangelen with
  | O => Ok st
  | S rangelen =>
      e ← nonnull eptr;
      _ ← nonnull sptr;
      score ← (if withscores then zzlGetScore zl sptr else Ok (S754_zero false));
      st ← emit_entry zl e score st;
      '(eptr, sptr) ← zzl_move reverse zl eptr sptr;
      zzl_rank_loop rangelen zl eptr sptr withscores reverse st
  end.

(** The same over a skiplist *)
Fixpoint zsl_rank_loop (rangelen : nat) (h : zheap) (ln : option ptr) (reverse : bool) (st : St) : res St :=
  match rangelen with
  | O => Ok st
  | S rangelen =>
      p ← nonnull ln;
      ele ← zslGetNodeElement h p;
      n ← node h p;
      st ← emitResultFromCBuffer hd ele (zn_score n) st;
      ln ← zsl_move reverse h p;
      zsl_rank_loop rangelen h ln reverse st
  end.

Definition genericZrangebyrankCommand (st : St) (d : db) (key : list Z) (o : zobj) (start end_ : Z)
    (withscores reverse : bool) : res (St * db) :=
  '(llen, o) ← zsetLength o;
  let d := <[key := KZset o]> d in
  match sanitize_indexes llen start end_ with
  | None =>
      st ← beginResultEmission hd 0 st;
      finalizeResultEmission hd 0 st d
  | Some (start, end_) =>
      let rangelen := end_ - start + 1 in
      st ← beginResultEmission hd rangelen st;
      st ← match o with
           | ZListpack zl =>
               eptr ← lpSeek zl (if reverse then -2 - 2 * start else 2 * start);
               e ← nonnull eptr;
               sptr ← lpNext zl e;
               zzl_rank_loop (Z.to_nat rangelen) zl eptr sptr withscores reverse st
           | ZSkiplist zs =>
               let h := zs_heap zs in
               let zsl := zs_zsl zs in
               ln ← (if reverse then
                       if start >? 0 then zslGetElementByRank h zsl (llen - start) else Ok (zsl_tail zsl)
                     else
                       if start >? 0 then zslGetElementByRank h zsl (start + 1)
                       else l ← get_level h (zsl_header zsl) 0; Ok (forward l));
               zsl_rank_loop (Z.to_nat rangelen) h ln reverse st
           end;
      finalizeResultEmission hd rangelen st d
  end.

(** The loop [while (eptr && offset--)] *)
Fixpoint zzl_skip (fuel : nat) (reverse : bool) (zl : list Z) (offset : Z) (eptr sptr : option Z)
    : res (option Z * option Z) :=
  match eptr with
  | None => Ok (eptr, sptr)
  | Some _ =>
      if offset =? 0 then Ok (eptr, sptr) else
      match fuel with
      | O => Fault OutOfFuel
      | S fuel =>
          '(eptr, sptr) ← zzl_move reverse zl eptr sptr;
          zzl_skip fuel reverse zl (offset - 1) eptr sptr
      end
  end.

(** The loop [while (eptr && limit--)]; [inside] tells whether an element is in
    range.  A negative limit does not end the loop. *)
Fixpoint zzl_limit_loop (fuel : nat) (reverse withscores : bool) (zl : list Z) (inside : Z → res bool)
    (limit : Z) (eptr sptr : option Z) (rangelen : Z) (st : St) : res (St * Z) :=
  match eptr with
  | None => Ok (st, rangelen)
  | Some e =>
      if limit =? 0 then Ok (st, rangelen) else
      match fuel with
      | O => Fault OutOfFuel
      | S fuel =>
          score ← (if withscores then zzlGetScore zl sptr else Ok (S754_zero false));
          b ← inside e;
          if negb b then Ok (st, rangelen) else
          st ← emit_entry zl e score st;
          '(eptr, sptr) ← zzl_move reverse zl eptr sptr;
          zzl_limit_loop fuel reverse withscores zl inside (limit - 1) eptr sptr (u64 (rangelen + 1)) st
      end
  end.

(** The loop [while (ln && limit--)] *)
Fixpoint zsl_limit_loop (fuel : nat) (reverse : bool) (h : zheap) (inside : ptr → res bool)
    (limit : Z) (ln : option ptr) (rangelen : Z) (st : St) : res (St * Z) :=
  match ln with
  | None => Ok (st, rangelen)
  | Some p =>
      if limit =? 0 then Ok (st, rangelen) else
      match fuel with
      | O => Fault OutOfFuel
      | S fuel =>
          b ← inside p;
          if negb b then Ok (st, rangelen) else
          ele ← zslGetNodeElement h p;
          n ← node h p;
          st ← emitResultFromCBuffer hd ele (zn_score n) st;
          ln ← zsl_move reverse h p;
          zsl_limit_loop fuel reverse h inside (limit - 1) ln (u64 (rangelen + 1)) st
      end
  end.

(** The body of [genericZrangebyscoreCommand] and [genericZrangebylexCommand]:
    [zz_first] and [zz_inside] find the first element in a listpack and test
    one, [sl_nth] and [sl_inside] do in a skiplist. *)
Definition zrange_by (st : St) (d : db) (key : list Z) (o : zobj) (offset limit : Z) (reverse withscores : bool)
    (zz_first : list Z → res (option Z)) (zz_inside : list Z → Z → res bool)
    (sl_nth : zheap → zskiplist → Z → res (option (ptr * Z))) (sl_inside : zheap → ptr → res bool)
    : res (St * db) :=
  st ← beginResultEmission hd (-1) st;
  '(bad, o) ←
    (if offset <? 0 then Ok (true, o)
     else if offset >? 0 then '(len, o) ← zsetLength o; Ok (offset >=? len, o) else Ok (false, o));
  let d := <[key := KZset o]> d in
  if bad : bool then finalizeResultEmission hd 0 st d else
  '(st, rangelen) ←
    match o with
    | ZListpack zl =>
        eptr ← zz_first zl;
        sptr ← match eptr with Some e => lpNext zl e | None => Ok None end;
        '(eptr, sptr) ← zzl_skip (length zl) reverse zl offset eptr sptr;
        zzl_limit_loop (length zl) reverse withscores zl (zz_inside zl) limit eptr sptr 0 st
    | ZSkiplist zs =>
        let h := zs_heap zs in
        ln ← sl_nth h (zs_zsl zs) (if reverse then - offset - 1 else offset);
        zsl_limit_loop (zsl_fuel (zs_zsl zs)) reverse h (sl_inside h) limit (fst <$> ln) 0 st
    end;
  finalizeResultEmission hd rangelen st d.

Definition genericZrangebyscoreCommand (st : St) (d : db) (key : list Z) (range : zrangespec) (o : zobj)
    (offset limit : Z) (reverse : bool) : res (St * db) :=
  zrange_by st d key o offset limit reverse true
    (λ zl, if reverse then zzlLastInRange zl range else zzlFirstInRange zl range)
    (λ zl, if reverse then score_gte zl range else score_lte zl range)
    (λ h z, zslNthInRange h z range)
    (λ h, score_test h (λ s, if reverse then zslValueGteMin s range else zslValueLteMax s range)).

Definition genericZrangebylexCommand (st : St) (d : db) (key : list Z) (range : zlexrangespec) (o : zobj)
    (withscores : bool) (offset limit : Z) (reverse : bool) : res (St * db) :=
  zrange_by st d key o offset limit reverse withscores
    (λ zl, if reverse then zzlLastInLexRange zl range else zzlFirstInLexRange zl range)
    (λ zl, if reverse then zzlLexValueGteMin zl range else zzlLexValueLteMax zl range)
    (λ h z, zslNthInLexRange h z range)
    (λ h, ele_test h (λ e, if reverse then zslLexValueGteMin e range else zslLexValueLteMax e range)).

(** ** The generic command *)

Record zrange_opts := ZOpts {
  zo_withscores : bool; zo_offset : Z; zo_limit : Z;
  zo_direction : zrange_direction; zo_rangetype : zrange_type }.

(** Step 1: the optional arguments *)
Fixpoint zrange_options (args : list (list Z)) (store : bool) (o : zrange_opts) : zrange_opts + reply :=
  match args with
  | [] => inl o
  | a :: rest =>
      if negb store && strcaseeq a "withscores" then
        zrange_options rest store (ZOpts true (zo_offset o) (zo_limit o) (zo_direction o) (zo_rangetype o))
      else
        match strcaseeq a "limit", rest with
        | true, off :: lim :: rest =>
            match getLongFromObjectOrReply (RStr off) None with
            | inr r => inr r
            | inl off =>
                match getLongFromObjectOrReply (RStr lim) None with
                | inr r => inr r
                | inl lim =>
                    zrange_options rest store
                      (ZOpts (zo_withscores o) off lim (zo_direction o) (zo_rangetype o))
                end
            end
        | _, _ =>
            if bool_decide (zo_direction o = ZRANGE_DIRECTION_AUTO) && strcaseeq a "rev" then
              zrange_options rest store
                (ZOpts (zo_withscores o) (zo_offset o) (zo_limit o) ZRANGE_DIRECTION_REVERSE (zo_rangetype o))
            else if bool_decide (zo_rangetype o = ZRANGE_AUTO) && strcaseeq a "bylex" then
              zrange_options rest store
                (ZOpts (zo_withscores o) (zo_offset o) (zo_limit o) (zo_direction o) ZRANGE_LEX)
            else if bool_decide (zo_rangetype o = ZRANGE_AUTO) && strcaseeq a "byscore" then
              zrange_options rest store
                (ZOpts (zo_withscores o) (zo_offset o) (zo_limit o) (zo_direction o) ZRANGE_SCORE)
            else inr syntaxerr
        end
  end.

(** Steps 1 and 2: the options, whether the order is reversed, and the range *)
Definition zrange_parse (argv : list (list Z)) (argc_start : nat) (store : bool) (rangetype : zrange_type)
    (direction : zrange_direction) : (zrange_opts * bool * range_arg) + reply :=
  match zrange_options (drop (argc_start + 3) argv) store (ZOpts false 0 (-1) direction rangetype) with
  | inr r => inr r
  | inl o =>
      let reverse := bool_decide (zo_direction o = ZRANGE_DIRECTION_REVERSE) in
      let rangetype := match zo_rangetype o with ZRANGE_AUTO => ZRANGE_RANK | t => t end in
      if negb (zo_limit o =? -1) && bool_decide (rangetype = ZRANGE_RANK)
      then inr (ReplyError "syntax error, LIMIT is only supported in combination with either BYSCORE or BYLEX")
      else if zo_withscores o && bool_decide (rangetype = ZRANGE_LEX)
      then inr (ReplyError "syntax error, WITHSCORES not supported in combination with BYLEX")
      else
        let a := arg argv (argc_start + 1) in
        let b := arg argv (argc_start + 2) in
        let swap := reverse && (bool_decide (rangetype = ZRANGE_SCORE) || bool_decide (rangetype = ZRANGE_LEX)) in
        let '(min, max) := if swap then (b, a) else (a, b) in
        match rangetype with
        | ZRANGE_SCORE =>
            match zslParseRange strtod (RStr min) (RStr max) with
            | None => inr (ReplyError "min or max is not a float")
            | Some r => inl (o, reverse, ByScore r)
            end
        | ZRANGE_LEX =>
            match zslParseLexRange (RStr min) (RStr max) with
            | None => inr (ReplyError "min or max not valid string range item")
            | Some r => inl (o, reverse, ByLex r)
            end
        | _ =>
            match getLongFromObjectOrReply (RStr min) None with
            | inr r => inr r
            | inl start =>
                match getLongFromObjectOrReply (RStr max) None with
                | inr r => inr r
                | inl end_ => inl (o, reverse, ByRank start end_)
                end
            end
        end
  end.

(** The handler's state and the database, or one reply outside of the handler;
    [enable] is [zrangeResultHandlerScoreEmissionEnable]. *)
Definition zrangeGenericCommand (enable : St → St) (st : St) (d : db) (argv : list (list Z)) (argc_start : nat)
    (store : bool) (rangetype : zrange_type) (direction : zrange_direction) : res ((St * db) + reply) :=
  match zrange_parse argv argc_start store rangetype direction with
  | inr r => Ok (inr r)
  | inl (o, reverse, range) =>
      let st := if zo_withscores o || store then enable st else st in
      let key := arg argv argc_start in
      match d !! key with
      | None =>
          if store then
            st ← beginResultEmission hd (-1) st;
            r ← finalizeResultEmission hd 0 st d;
            Ok (inl r)
          else Ok (inr ReplyEmptyArray)
      | Some (KOther _) => Ok (inr wrongtypeerr)
      | Some (KZset z) =>
          r ← match range with
              | ByRank start end_ =>
                  genericZrangebyrankCommand st d key z start end_ (zo_withscores o || store) reverse
              | ByScore r => genericZrangebyscoreCommand st d key r z (zo_offset o) (zo_limit o) reverse
              | ByLex r =>
                  genericZrangebylexCommand st d key r z (zo_withscores o || store) (zo_offset o) (zo_limit o) reverse
              end;
          Ok (inl r)
      end
  end.
End range.

(** ** The commands *)

Section commands.
Context `{Allocator} `{NodeAlloc} `{FloatText} `{StrtodErrno} `{Server}.

Definition client_enable (h : client_handler) : client_handler :=
  ClientHandler (ch_resp h) true (ch_resp h >? 2) (ch_userdata h) (ch_out h).

(** A command that replies to a client that speaks the version [resp] *)
Definition zrange_client (d : db) (argv : list (list Z)) (resp : Z) (rangetype : zrange_type)
    (direction : zrange_direction) : res (db * list effect) :=
  r ← zrangeGenericCommand client_ops client_enable (ClientHandler resp false false None []) d argv 1 false
        rangetype direction;
  Ok (match r with inl (h, d) => (d, Reply <$> ch_out h) | inr r => (d, [Reply r]) end).

Definition zrangeCommand (d : db) (argv : list (list Z)) (resp : Z) :=
  zrange_client d argv resp ZRANGE_AUTO ZRANGE_DIRECTION_AUTO.
Definition zrevrangeCommand (d : db) (argv : list (list Z)) (resp : Z) :=
  zrange_client d argv resp ZRANGE_RANK ZRANGE_DIRECTION_REVERSE.
Definition zrangebyscoreCommand (d : db) (argv : list (list Z)) (resp : Z) :=
  zrange_client d argv resp ZRANGE_SCORE ZRANGE_DIRECTION_FORWARD.
Definition zrevrangebyscoreCommand (d : db) (argv : list (list Z)) (resp : Z) :=
  zrange_client d argv resp ZRANGE_SCORE ZRANGE_DIRECTION_REVERSE.
Definition zrangebylexCommand (d : db) (argv : list (list Z)) (resp : Z) :=
  zrange_client d argv resp ZRANGE_LEX ZRANGE_DIRECTION_FORWARD.
Definition zrevrangebylexCommand (d : db) (argv : list (list Z)) (resp : Z) :=
  zrange_client d argv resp ZRANGE_LEX ZRANGE_DIRECTION_REVERSE.

Definition zrangestoreCommand (d : db) (rnd : list Z) (argv : list (list Z)) : res (db * list Z * list effect) :=
  r ← zrangeGenericCommand store_ops id (StoreHandler (arg argv 1) None rnd []) d argv 2 true
        ZRANGE_AUTO ZRANGE_DIRECTION_AUTO;
  Ok (match r with inl (h, d) => (d, sh_rnd h, sh_out h) | inr r => (d, rnd, [Reply r]) end).
End commands.
