(* ===== verification/ZsetCmdSpec.v ===== *)
(** The commands on sorted sets against their specification on a database that
    maps keys to maps from elements to scores. *)

From S2P Require Import Prelude Numstr Sds Listpack Skiplist Double Object.
From S2P Require Import Zzl Zset ZsetRep ZsetSkl ZsetSpec ZsetApi ZsetCmd.
From S2P Require Import Endian SetType SetRep Keyspace KeyspaceRep.
From Stdlib Require Import SpecFloat.

(** ** ZADD and ZINCRBY *)

(** The additions to the map *)
Fixpoint zadd_fold (M : zabs) (flags : Z) (pairs : list (double * list Z)) (c : zadd_counts)
    : zabs * zadd_counts * bool :=
  match pairs with
  | [] => (M, c, true)
  | (score, ele) :: pairs =>
      let '(M', r) := zadd_spec M score ele flags in
      if za_ret r then zadd_fold M' flags pairs (zadd_count c r) else (M', c, false)
  end.

(** The additions to the set [M] of the key.  An error leaves the database as it
    was; the histogram gets the number of elements before and after. *)
Definition zadd_run_spec (A : adb) (key : list Z) (M : zabs) (g : zadd_args) : adb * list effect :=
  let incr := negb (Z.land (zg_flags g) ZADD_IN_INCR =? 0) in
  let '(M', c, ok) := zadd_fold M (zg_flags g) (zg_pairs g) (ZCounts 0 0 0 None) in
  if negb ok then (A, [Reply nanerr])
  else (<[key := AZset M']> A,
        Dirty (zc_added c + zc_updated c) ::
        KeysizesHist key (Z.of_nat (size M)) (Z.of_nat (size M')) ::
        Reply (if incr then
                 if negb (zc_processed c =? 0) then ReplyDouble (default (S754_zero false) (zc_score c))
                 else ReplyNull
               else ReplyLongLong (if zg_ch g then zc_added c + zc_updated c else zc_added c)) ::
        zadd_cleanup key incr c).

Definition zadd_cmd_spec `{FloatText} `{StrtodErrno} (A : adb) (argv : list (list Z)) (flags : Z)
    : adb * list effect :=
  let key := arg argv 1 in
  match zadd_parse argv flags with
  | inr r => (A, [Reply r])
  | inl g =>
      match A !! key with
      | Some (AOther _) => (A, [Reply wrongtypeerr])
      | None =>
          if negb (Z.land (zg_flags g) ZADD_IN_XX =? 0)
          then (A, [Reply (if negb (Z.land (zg_flags g) ZADD_IN_INCR =? 0) then ReplyNull else czero)])
          else zadd_run_spec A key ∅ g
      | Some (AZset M) => zadd_run_spec A key M g
      end
  end.

(** *** Parsing *)

Section parse.
Context `{FloatText} `{StrtodErrno} `{!StrtodLaws}.

Lemma string2d_ok s v : string2d s = Some v → score_ok v.
Proof.
  unfold string2d. destruct (_ || isspace _); [done|].
  pose proof (strtod_valid s) as Hv. destruct (strtod s) as [dp eptr].
  pose proof (libc_strtod_valid s) as Hl. destruct (libc_strtod s) as [[dp' eptr'] err'].
  intros Hp.
  assert (∀ d err, valid_double d = true →
    (if (match err with
         | Some EINVAL => true
         | Some ERANGE => SFeqb d HUGE_VAL || SFeqb d (SFopp HUGE_VAL) || fp_zero d
         | None => false
         end) || isnan d then None else Some d) = Some v → score_ok v) as Hfin.
  { intros d err Hd. destruct (_ || isnan d) eqn:E; [done|]. intros [= <-].
    apply orb_false_elim in E as [_ E]. done. }
  destruct eptr; [exact (Hfin _ _ Hv Hp)|]. destruct eptr'; [exact (Hfin _ _ Hl Hp)|done].
Qed.

Definition pair_args_ok (p : double * list Z) : Prop := score_ok p.1 ∧ ele_ok p.2.

Lemma zadd_scores_ok n args pairs : (length args ≤ n)%nat → Forall ele_ok args → zadd_scores args = inl pairs →
  Forall pair_args_ok pairs ∧ length pairs = Nat.div2 (length args).
Proof.
  revert args pairs. induction n as [|n IH]; intros args pairs Hn Hall; [destruct args; [|cbn in Hn; lia]|].
  { intros [= <-]. by split. }
  destruct args as [|s [|e args]]; [intros [= <-]; by split..|]. cbn [zadd_scores].
  apply Forall_cons in Hall as [_ [He Hall]%Forall_cons]. unfold getDoubleFromObjectOrReply. cbn [getDoubleFromObject].
  destruct (string2d s) as [v|] eqn:Es; [|done].
  destruct (zadd_scores args) as [l|] eqn:El; [|done]. intros [= <-].
  destruct (IH args l) as [Hl Hlen]; [cbn in Hn; lia|done|done|]. split.
  - constructor; [|done]. split; [by eapply string2d_ok|done].
  - cbn [length Nat.div2]. by rewrite Hlen.
Qed.

Lemma zadd_options_rest args flags ch flags' ch' rest :
  zadd_options args flags ch = (flags', ch', rest) → ∃ opts, args = opts ++ rest.
Proof.
  revert flags ch. induction args as [|a args IH]; intros flags ch; cbn [zadd_options]; [intros [= <- <- <-]; by exists []|].
  repeat case_match; try (intros Hr; apply IH in Hr as [opts ->]; by exists (a :: opts)).
  intros [= <- <- <-]. by exists [].
Qed.

Lemma zadd_parse_ok argv flags g : Forall ele_ok argv → zadd_parse argv flags = inl g →
  Forall pair_args_ok (zg_pairs g) ∧ zg_pairs g ≠ [] ∧
  (Z.land (zg_flags g) ZADD_IN_INCR ≠ 0 → length (zg_pairs g) = 1%nat) ∧
  (length (zg_pairs g) ≤ length argv)%nat.
Proof.
  intros Hall. unfold zadd_parse. destruct (zadd_options _ _ _) as [[fl ch] args] eqn:Eo. cbv zeta.
  apply zadd_options_rest in Eo as [opts Eo].
  assert (Forall ele_ok args ∧ (length args ≤ length argv)%nat) as [Hargs Hlen].
  { assert (Forall ele_ok (drop 2 argv)) as Hd by by apply Forall_drop.
    rewrite Eo in Hd. apply Forall_app in Hd as [_ Hd]. split; [done|].
    pose proof (f_equal length Eo) as El. rewrite length_drop, length_app in El. lia. }
  destruct (negb (zlen args mod 2 =? 0) || _) eqn:E1; [done|]. destruct (_ && _) eqn:E2; [done|].
  destruct (_ || _ || _); [done|]. destruct (_ && (_ >? 1)) eqn:E3; [done|].
  destruct (zadd_scores args) as [pairs|] eqn:Es; [|done]. intros [= <-]. cbn [zg_pairs zg_flags].
  destruct (zadd_scores_ok _ args pairs (le_n _) Hargs Es) as [Hp Hl].
  rewrite Nat.div2_div in Hl. apply (f_equal Z.of_nat) in Hl. rewrite Nat2Z.inj_div in Hl.
  change (Z.of_nat 2) with 2 in Hl. split; [done|]. split; [|split].
  - intros ->. cbn [length] in Hl. zdiv.
  - intros Hi. apply andb_false_iff in E3 as [E3|E3]; zdiv.
  - zdiv.
Qed.
End parse.

(** *** The additions *)

Definition canon_counts (c : zadd_counts) : zadd_counts :=
  ZCounts (zc_added c) (zc_updated c) (zc_processed c) (canon <$> zc_score c).

Lemma zadd_count_canon c r : zadd_count (canon_counts c) (canon_result r) = canon_counts (zadd_count c r).
Proof. done. Qed.

(** The counts after each of the outcomes *)
Lemma zadd_count_cases c s :
  zadd_count c (ZAdd true ZADD_OUT_NOP s) = ZCounts (zc_added c) (zc_updated c) (zc_processed c) s ∧
  zadd_count c (ZAdd true ZADD_OUT_ADDED s) = ZCounts (zc_added c + 1) (zc_updated c) (zc_processed c + 1) s ∧
  zadd_count c (ZAdd true ZADD_OUT_UPDATED s) = ZCounts (zc_added c) (zc_updated c + 1) (zc_processed c + 1) s ∧
  zadd_count c (ZAdd true 0 s) = ZCounts (zc_added c) (zc_updated c) (zc_processed c + 1) s.
Proof. done. Qed.

(** What one addition does to the size of the map and to the counts *)
Lemma zadd_spec_facts M score e flags c M' r :
  zadd_spec M score e flags = (M', r) → za_ret r = true →
  Z.of_nat (size M') = Z.of_nat (size M) + (zc_added (zadd_count c r) - zc_added c) ∧
  (size M ≤ size M' ≤ S (size M))%nat ∧ (M ≠ ∅ ∨ Z.land flags ZADD_IN_XX = 0 → M' ≠ ∅) ∧
  (zc_processed (zadd_count c r) = zc_processed c ∨ is_Some (zc_score (zadd_count c r))).
Proof.
  destruct (zadd_count_cases c (za_newscore r)) as (C1 & C2 & C3 & C4).
  unfold zadd_spec. cbv zeta. destruct (isnan score); [by intros [= <- <-]|].
  destruct (M !! e) as [cur|] eqn:EM.
  - assert (∀ s, size (<[e := s]> M) = size M) as Hsz by (intros s; by apply map_size_insert_Some).
    assert (M ≠ ∅) as Hne by (intros ->; by rewrite lookup_empty in EM).
    destruct (negb (Z.land flags ZADD_IN_NX =? 0)); [|destruct (isnan _); [by intros [= <- <-]|]; destruct (_ || _)].
    1,2: intros [= <- <-] _; cbn [za_newscore] in *; rewrite C1; cbn;
      (split; [lia|]; split; [lia|]; split; [done|by left]).
    intros [= <- <-] _. rewrite Hsz. cbn [za_newscore] in *.
    destruct (SFeqb _ _); [rewrite C4|rewrite C3]; cbn; (split; [lia|]; split; [lia|]; split; [|by right]);
      intros _; apply insert_non_empty.
  - destruct (Z.land flags ZADD_IN_XX =? 0) eqn:Ex; cbn [negb]; intros [= <- <-] _; cbn [za_newscore] in *.
    + rewrite map_size_insert_None by done. rewrite C2. cbn. split; [lia|]. split; [lia|].
      split; [intros _; apply insert_non_empty|by right].
    + rewrite C1. cbn. split; [lia|]. split; [lia|]. split; [intros [?|?]; [done|lia]|by left].
Qed.

(** What all additions do; the last one that is processed leaves a score. *)
Lemma zadd_fold_facts flags pairs : ∀ M c M' c',
  zadd_fold M flags pairs c = (M', c', true) →
  Z.of_nat (size M') = Z.of_nat (size M) + (zc_added c' - zc_added c) ∧
  (M ≠ ∅ ∨ (pairs ≠ [] ∧ Z.land flags ZADD_IN_XX = 0) → M' ≠ ∅).
Proof.
  induction pairs as [|[score e] pairs IH]; intros M c M' c'; cbn [zadd_fold].
  { intros [= <- <-]. split; [lia|naive_solver]. }
  destruct (zadd_spec M score e flags) as [M1 r] eqn:E1. destruct (za_ret r) eqn:Er; [|done]. intros Hf.
  destruct (zadd_spec_facts M score e flags c M1 r E1 Er) as (H1 & H2 & H3 & _).
  destruct (IH _ _ _ _ Hf) as (H4 & H5). split; [lia|]. intros Hne. apply H5. left. naive_solver.
Qed.

(** An addition that fails changes nothing. *)
Lemma zadd_spec_error M score e flags M' r :
  isnan score = false → zadd_spec M score e flags = (M', r) → za_ret r = false →
  M' = M ∧ M ≠ ∅ ∧ Z.land flags ZADD_IN_INCR ≠ 0.
Proof.
  intros Hn E Hr. pose proof (spec_error M score e flags) as He. rewrite E in He. cbn [snd] in He.
  apply He in Hr as Hs. destruct Hs as [?|(Hi & _ & cur & Hc & _)]; [congruence|].
  split; [|split; [intros ->; by rewrite lookup_empty in Hc|done]].
  revert E. unfold zadd_spec. rewrite Hn, Hc. cbv zeta. repeat case_match; intros [= <- <-]; done.
Qed.

Lemma zadd_fold_no_incr flags pairs : ∀ M c,
  Forall (λ p, isnan p.1 = false) pairs → Z.land flags ZADD_IN_INCR = 0 → (zadd_fold M flags pairs c).2 = true.
Proof.
  induction pairs as [|[s e] pairs IH]; intros M c Hn H0; cbn [zadd_fold]; [done|].
  apply Forall_cons in Hn as [Hs Hn]. destruct (zadd_spec M s e flags) as [M1 r] eqn:E.
  destruct (za_ret r) eqn:Er; [by apply IH|]. by destruct (zadd_spec_error _ _ _ _ _ _ Hs E Er) as (_ & _ & ?).
Qed.

(** An error only happens to the one pair of ZINCRBY, and changes nothing. *)
Lemma zadd_fold_error flags pairs M c M' c' :
  Forall (λ p, isnan p.1 = false) pairs → (Z.land flags ZADD_IN_INCR ≠ 0 → length pairs = 1%nat) →
  zadd_fold M flags pairs c = (M', c', false) → M' = M ∧ c' = c ∧ M ≠ ∅.
Proof.
  revert M c. induction pairs as [|[score e] pairs IH]; intros M c Hn Hi; cbn [zadd_fold]; [done|].
  apply Forall_cons in Hn as [Hs Hn]. destruct (zadd_spec M score e flags) as [M1 r] eqn:E1.
  destruct (za_ret r) eqn:Er.
  - intros Hf. destruct (decide (Z.land flags ZADD_IN_INCR = 0)) as [E0|E0].
    + pose proof (zadd_fold_no_incr flags pairs M1 (zadd_count c r) Hn E0) as Ht. by rewrite Hf in Ht.
    + specialize (Hi E0). cbn in Hi. destruct pairs; [done|cbn in Hi; lia].
  - intros [= <- <-]. by destruct (zadd_spec_error _ _ _ _ _ _ Hs E1 Er) as (-> & ? & _).
Qed.

(** *** The code against the map *)

Section zadd.
Context `{Arch} `{SetConfig} `{Allocator} `{NodeAlloc} `{FloatTextLaws} `{StrtodErrno} `{!StrtodLaws} `{Server}.

(** The random numbers that [n] additions may need *)
Definition add_draws (M : zabs) (n : nat) : nat := n * S (size M + n).

Lemma zadd_loop_ok flags pairs : ∀ o M rnd c k,
  zset_abs o M → Forall pair_args_ok pairs → zset_max_listpack_entries ≤ 2 ^ 26 →
  Z.of_nat (size M) + zlen pairs < INT64_MAX → (add_draws M (length pairs) + k ≤ draws rnd)%nat →
  ∃ o' rnd' c' ok, zadd_loop rnd o flags pairs c = Ok (o', rnd', c', ok) ∧
    zset_abs o' (zadd_fold M flags pairs (canon_counts c)).1.1 ∧
    zadd_fold M flags pairs (canon_counts c) = ((zadd_fold M flags pairs (canon_counts c)).1.1, canon_counts c', ok) ∧
    (zc_processed c' = 0 ∨ is_Some (zc_score c') ∨ 1 < zlen pairs ∨ zc_processed c ≠ 0) ∧ (k ≤ draws rnd')%nat.
Proof.
  unfold add_draws. induction pairs as [|[score e] pairs IH]; intros o M rnd c k HM Hp Hmax Hsz Hk; cbn [zadd_loop zadd_fold].
  { eexists o, rnd, c, true. split; [done|]. split; [done|]. split; [done|]. split; [|cbn in Hk; lia].
    destruct (decide (zc_processed c = 0)); [by left|by right; right; right]. }
  apply Forall_cons in Hp as [[[Hsn Hsv] He] Hp]. cbn [length] in Hsz, Hk.
  destruct (add_ok o M rnd score e flags (length pairs * S (S (size M) + length pairs) + k)) as
    (o1 & rnd1 & r & -> & HM1 & Hr & Hk1); [done|done|done|done|lia|lia|]. rs.
  destruct (zadd_spec M score e flags) as [M1 r1] eqn:E1. cbn [fst snd] in HM1, Hr. subst r1.
  cbn [canon_result za_ret]. destruct (za_ret r) eqn:Er.
  - destruct (zadd_spec_facts M score e flags (canon_counts c) M1 (canon_result r) E1 Er) as (_ & Hs1 & _ & Hpr).
    rewrite zadd_count_canon in *.
    destruct (IH o1 M1 rnd1 (zadd_count c r) k) as (o' & rnd' & c' & ok & -> & HM' & Hf & Hc & Hk'); [done|done|done|lia|nia|].
    eexists o', rnd', c', ok. split; [done|]. split; [done|]. split; [done|]. split; [|done].
    destruct pairs as [|p pairs]; [|right; right; left; cbn; lia]. apply (f_equal (λ x, x.1.2)) in Hf. cbn [zadd_fold fst snd] in Hf.
    assert (zc_processed c' = zc_processed (zadd_count c r) ∧ (is_Some (zc_score c') ↔ is_Some (zc_score (zadd_count c r)))) as [Ep Es].
    { split; [by apply (f_equal zc_processed) in Hf|]. apply (f_equal zc_score) in Hf.
      cbn [canon_counts zc_score] in Hf. rewrite <- (fmap_is_Some canon (zc_score c')), <- Hf. apply fmap_is_Some. }
    rewrite Ep, Es. cbn in Hpr. destruct Hpr as [Hpr|Hpr].
    + destruct (decide (zc_processed c = 0)) as [E0|]; [|by right; right; right]. left. cbn. lia.
    + right. left. by apply fmap_is_Some in Hpr.
  - eexists o1, rnd1, c, false. split; [done|]. split; [done|]. split; [done|]. split; [|nia].
    destruct (decide (zc_processed c = 0)); [by left|by right; right; right].
Qed.

(** The set of a key, empty if it has none *)
Definition aset (A : adb) (key : list Z) : zabs :=
  match A !! key with Some (AZset M) => M | _ => ∅ end.

Lemma zadd_cleanup_canon key incr c : canon_eff <$> zadd_cleanup key incr c = zadd_cleanup key incr c.
Proof. unfold zadd_cleanup. by destruct (_ || _). Qed.

Lemma zadd_run_ok d A rnd key o M g k :
  db_abs d A → zset_abs o M → A !! key = Some (AZset M) ∨ (A !! key = None ∧ M = ∅) →
  M ≠ ∅ ∨ Z.land (zg_flags g) ZADD_IN_XX = 0 →
  Forall pair_args_ok (zg_pairs g) → zg_pairs g ≠ [] →
  (Z.land (zg_flags g) ZADD_IN_INCR ≠ 0 → length (zg_pairs g) = 1%nat) →
  zset_max_listpack_entries ≤ 2 ^ 26 → Z.of_nat (size M) + zlen (zg_pairs g) < INT64_MAX →
  (add_draws M (length (zg_pairs g)) + k ≤ draws rnd)%nat →
  ∃ d' rnd' effs, zadd_run d rnd key o g = Ok (d', rnd', effs) ∧
    db_abs d' (zadd_run_spec A key M g).1 ∧ canon_eff <$> effs = (zadd_run_spec A key M g).2 ∧ (k ≤ draws rnd')%nat.
Proof.
  intros HA HM Hkey Hxx Hp Hne Hi Hmax Hsz Hk. unfold zadd_run, zadd_run_spec.
  destruct (zset_length_ok o M HM) as (o1 & -> & HM1 & _). rs.
  destruct (zadd_loop_ok (zg_flags g) (zg_pairs g) o1 M rnd (ZCounts 0 0 0 None) k) as
    (o2 & rnd' & c & ok & -> & HM2 & Hf & Hc & Hk'); [done..|]. rs.
  change (canon_counts (ZCounts 0 0 0 None)) with (ZCounts 0 0 0 None) in *.
  set (M2 := (zadd_fold _ _ _ _).1.1) in *. rewrite Hf. destruct ok; cbn [negb].
  - destruct (zadd_fold_facts _ _ _ _ _ _ Hf) as [Hs Hne']. cbn in Hs.
    assert (zadd_reply (negb (Z.land (zg_flags g) ZADD_IN_INCR =? 0)) (zg_ch g) c =
      Ok [Reply (if negb (Z.land (zg_flags g) ZADD_IN_INCR =? 0) then
                   if negb (zc_processed c =? 0) then ReplyDouble (default (S754_zero false) (zc_score c))
                   else ReplyNull
                 else ReplyLongLong (if zg_ch g then zc_added c + zc_updated c else zc_added c))]) as ->.
    { unfold zadd_reply. destruct (Z.eqb_spec (Z.land (zg_flags g) ZADD_IN_INCR) 0) as [E|E]; [done|]. cbn [negb].
      destruct (Z.eqb_spec (zc_processed c) 0); [done|]. cbn [negb]. rewrite (Hi E) in Hc.
      destruct Hc as [?|[[s ->]|[?|?]]]; [done|done|lia|done]. }
    rs. eexists _, _, _. split; [done|]. split; [|split; [|done]].
    + apply db_abs_insert; [done|]. split; [done|]. apply Hne'. naive_solver.
    + rewrite !fmap_cons, fmap_app, zadd_cleanup_canon. cbn [snd canon_eff]. f_equal. f_equal; [f_equal; lia|].
      cbn [app fmap list_fmap]. f_equal. cbn [canon_counts zc_processed zc_added zc_updated zc_score].
      destruct (negb _); [|done]. destruct (negb _); [|done]. cbn [canon_eff]. by destruct (zc_score c).
  - destruct (zadd_fold_error _ _ _ _ _ _ ltac:(eapply Forall_impl; [exact Hp|]; by intros p [[? ?] ?]) Hi Hf) as (-> & Hcc & HMne).
    assert (zc_added c = 0 ∧ zc_updated c = 0) as [Ha Hu] by (by apply (f_equal (λ c, (zc_added c, zc_updated c))) in Hcc; injection Hcc).
    eexists _, _, _. split; [done|]. split; [|split; [|done]].
    + cbn [fst]. destruct Hkey as [Hkey|[_ ?]]; [by eapply db_abs_same|done].
    + unfold zadd_cleanup. by rewrite Ha, Hu.
Qed.

Lemma zadd_parse_err argv flags r : zadd_parse argv flags = inr r → canon_eff (Reply r) = Reply r.
Proof.
  unfold zadd_parse. destruct (zadd_options _ _ _) as [[fl ch] args]. cbv zeta.
  repeat (destruct (_ : bool); [by intros [= <-]|]).
  destruct (zadd_scores args) as [|r'] eqn:Es; [done|]. intros [= <-]. clear - Es. revert Es.
  remember (length args) as n eqn:En. assert (length args ≤ n)%nat as Hn by lia. clear En. revert args Hn.
  induction n as [|n IH]; intros [|s [|e args]] Hn; cbn [zadd_scores length] in *; try done; [lia|].
  unfold getDoubleFromObjectOrReply. destruct (getDoubleFromObject _); [|by intros [= <-]].
  destruct (zadd_scores args) eqn:E; [done|]. intros [= <-]. apply (IH args); [lia|done].
Qed.

Lemma zadd_cmd_ok d A rnd argv flags k :
  db_abs d A → Forall ele_ok argv → zset_max_listpack_entries ≤ 2 ^ 26 →
  Z.of_nat (size (aset A (arg argv 1))) + zlen argv < INT64_MAX →
  (size (aset A (arg argv 1)) + add_draws (aset A (arg argv 1)) (length argv) + k ≤ draws rnd)%nat →
  ∃ d' rnd' effs, zaddGenericCommand d rnd argv flags = Ok (d', rnd', effs) ∧
    db_abs d' (zadd_cmd_spec A argv flags).1 ∧ canon_eff <$> effs = (zadd_cmd_spec A argv flags).2 ∧
    (k ≤ draws rnd')%nat.
Proof.
  intros HA Hargs Hmax Hsz Hk. unfold zadd_cmd_spec, zaddGenericCommand. cbv zeta.
  set (key := arg argv 1) in *. unfold aset, add_draws in *.
  destruct (zadd_parse argv flags) as [g|r] eqn:Ep.
  2:{ eexists _, _, _. split; [done|]. split; [done|]. split; [|lia].
      cbn [fmap list_fmap snd]. f_equal. by eapply zadd_parse_err. }
  destruct (zadd_parse_ok argv flags g Hargs Ep) as (Hp & Hne & Hi & Hlen).
  destruct (db_abs_lookup d A key HA) as [[-> EA]|[(? & ? & -> & EA & _)|(o & M & -> & EA & HM & HMne)]]; rewrite EA in *.
  - destruct (Z.eqb_spec (Z.land (zg_flags g) ZADD_IN_XX) 0) as [Ex|Ex]; cbn [negb].
    + assert (∃ s e, head (zg_pairs g) = Some (s, e)) as (s & e & ->) by (destruct (zg_pairs g) as [|[s e]]; [done|by eexists _, _]).
      cbn [nonnull]. rs.
      destruct (type_create_ok (zlen (zg_pairs g)) (zlen e)) as (o & -> & Ho & _). rs.
      rewrite map_size_empty in *.
      apply zadd_run_ok; [done|done|by right|by right|done|done|done|done|rewrite map_size_empty; lia|].
      unfold add_draws. rewrite map_size_empty. nia.
    + unfold zadd_reply. destruct (Z.eqb_spec (Z.land (zg_flags g) ZADD_IN_INCR) 0) as [E|E]; cbn [negb]; rs;
        eexists _, _, _; (split; [done|]); (split; [done|]); (split; [|lia]); [by destruct (zg_ch g)|done].
  - eexists _, _, _. split; [done|]. split; [done|]. split; [done|lia].
  - destruct (maybe_convert_ok o M rnd (zlen (zg_pairs g)) (length argv * S (size M + length argv) + k)) as
      (o1 & rnd1 & -> & HM1 & Hk1); [done|lia|lia|]. rs.
    apply zadd_run_ok; [done|done|by left|by left|done|done|done|done|lia|]. unfold add_draws. nia.
Qed.
End zadd.
