(* ===== verification/ZsetCmdRefine.v ===== *)
(** The commands that remove elements and those that read, against their
    specification on the abstract database. *)

From S2P Require Import Prelude Numstr Sds Listpack Skiplist SklRep Double Object Zzl ZzlRep.
From S2P Require Import Zset ZsetRep ZsetSkl ZsetConv ZsetSpec ZsetApi ZsetCmd ZsetRange ZsetCmdSpec.
From S2P Require Import Endian SetType SetRep Keyspace KeyspaceRep.
From Stdlib Require Import SpecFloat.

(** ** Specifications *)

(** A command on the set of a key: [missing] is the reply if there is none. *)
Definition on_set (A : adb) (key : list Z) (missing : reply) (f : zabs → adb * list effect) : adb * list effect :=
  match A !! key with
  | None => (A, [Reply missing])
  | Some (AOther _) => (A, [Reply wrongtypeerr])
  | Some (AZset M) => f M
  end.

(** The key of an empty set is deleted. *)
Definition put_set (A : adb) (key : list Z) (M : zabs) : adb :=
  if decide (M = ∅) then delete key A else <[key := AZset M]> A.

Definition msize (M : zabs) : Z := Z.of_nat (size M).

Definition zrem_spec (A : adb) (argv : list (list Z)) : adb * list effect :=
  let key := arg argv 1 in
  on_set A key czero (λ M,
    let M' := foldl (λ M e, delete e M) M (drop 2 argv) in
    let n := msize M - msize M' in
    let gone := bool_decide (M' = ∅) in
    (put_set A key M',
     (if n =? 0 then [] else
        Notify "zrem" key :: (if gone then [Notify "del" key] else []) ++
        [KeysizesHist key (msize M) (if gone then -1 else msize M'); KeyModified key (negb gone); Dirty n]) ++
     [Reply (ReplyLongLong n)])).

(** What a range leaves of a set; no change for a range without elements *)
Definition kept_by (M : zabs) (range : range_arg) : option zabs :=
  match range with
  | ByRank start end_ =>
      match sanitize_indexes (msize M) start end_ with
      | None => None
      | Some (start, end_) =>
          Some (zmap (take (Z.to_nat start) (zseq M) ++ drop (Z.to_nat (end_ + 1)) (zseq M)))
      end
  | ByScore r => Some (filter (λ es : list Z * double, by_score r false (es.2, es.1)) M)
  | ByLex r => Some (filter (λ es : list Z * double, by_lex r false (es.2, es.1)) M)
  end.

Definition zremrange_name (rangetype : zrange_type) : string :=
  match rangetype with
  | ZRANGE_RANK => "zremrangebyrank" | ZRANGE_SCORE => "zremrangebyscore" | _ => "zremrangebylex"
  end.

(** After the deletion: the key, the effects *)
Definition zremrange_effects (A : adb) (key : list Z) (rangetype : zrange_type) (M M' : zabs) : adb * list effect :=
  let n := msize M - msize M' in
  let gone := bool_decide (M' = ∅) in
  (put_set A key M',
   (if n =? 0 then [] else
      KeyModified key false :: Notify (zremrange_name rangetype) key ::
      (if gone then [Notify "del" key] else []) ++
      [KeysizesHist key (msize M) (if gone then -1 else msize M')]) ++
   [Dirty n; Reply (ReplyLongLong n)]).

Definition zremrange_spec `{FloatText} (A : adb) (argv : list (list Z)) (rangetype : zrange_type)
    : adb * list effect :=
  let key := arg argv 1 in
  match zremrange_parse rangetype (arg argv 2) (arg argv 3) with
  | Ok (inl range) =>
      on_set A key czero (λ M,
        match kept_by M range with
        | None => (A, [Reply czero])
        | Some M' => zremrange_effects A key rangetype M M'
        end)
  | Ok (inr r) => (A, [Reply r])
  | Fault _ => (A, [])
  end.

Definition zcard_spec (A : adb) (argv : list (list Z)) : adb * list effect :=
  on_set A (arg argv 1) czero (λ M, (A, [Reply (ReplyLongLong (msize M))])).

Definition zscore_spec (A : adb) (argv : list (list Z)) : adb * list effect :=
  on_set A (arg argv 1) ReplyNull (λ M, (A, [score_reply (M !! arg argv 2)])).

Definition zmscore_spec (A : adb) (argv : list (list Z)) : adb * list effect :=
  let go M := (A, Reply (ReplyArrayLen (zlen argv - 2)) :: ((λ m, score_reply (M !! m)) <$> drop 2 argv)) in
  match A !! arg argv 1 with
  | Some (AOther _) => (A, [Reply wrongtypeerr])
  | Some (AZset M) => go M
  | None => go ∅
  end.

Definition zrank_cmd_spec (A : adb) (argv : list (list Z)) (reverse : bool) : adb * list effect :=
  let withscore := zlen argv >? 3 in
  let null := if withscore then ReplyNullArray else ReplyNull in
  if zlen argv >? 4 then (A, [Reply ReplyErrorArity])
  else if withscore && negb (strcaseeq (arg argv 3) "withscore") then (A, [Reply syntaxerr])
  else on_set A (arg argv 1) null (λ M,
    (A, match rank_result M (arg argv 2) reverse with
        | (r, Some s) =>
            if withscore then [Reply (ReplyArrayLen 2); Reply (ReplyLongLong r); Reply (ReplyDouble s)]
            else [Reply (ReplyLongLong r)]
        | (_, None) => [Reply null]
        end)).

Definition zcount_spec `{FloatText} (A : adb) (argv : list (list Z)) : adb * list effect :=
  match zslParseRange strtod (RStr (arg argv 2)) (RStr (arg argv 3)) with
  | None => (A, [Reply (ReplyError "min or max is not a float")])
  | Some r =>
      on_set A (arg argv 1) czero (λ M,
        (A, [Reply (ReplyLongLong (msize (filter (λ es : list Z * double, by_score r true (es.2, es.1)) M)))]))
  end.

Definition zlexcount_spec (A : adb) (argv : list (list Z)) : adb * list effect :=
  match zslParseLexRange (RStr (arg argv 2)) (RStr (arg argv 3)) with
  | None => (A, [Reply (ReplyError "min or max not valid string range item")])
  | Some r =>
      on_set A (arg argv 1) czero (λ M,
        (A, [Reply (ReplyLongLong (msize (filter (λ es : list Z * double, by_lex r true (es.2, es.1)) M)))]))
  end.

(** All scores are the same, as lexicographic ranges expect. *)
Definition one_scored (M : zabs) : Prop := ∀ e e' s s', M !! e = Some s → M !! e' = Some s' → s = s'.

Lemma one_scored_vals vs : vals_ok vs → one_scored (zmap vs) → one_score vs.
Proof.
  intros Hv Hone [s e] [s' e'] Hin Hin'. cbn [fst]. apply fkey_canon. apply (Hone e e'); by apply zmap_in.
Qed.

(** ** Removal *)

(** A command that changes the database and has these effects *)
Definition refines `{Arch} `{SetConfig} `{Allocator} `{FloatText} (run : res (db * list effect)) (spec : adb * list effect) : Prop :=
  ∃ d' effs, run = Ok (d', effs) ∧ db_abs d' spec.1 ∧ canon_eff <$> effs = spec.2.

Section remove.
Context `{Arch} `{SetConfig} `{Allocator} `{NodeAlloc} `{FloatTextLaws} `{Server}.

(** The three cases of a lookup *)
Lemma on_set_ok (d : db) (A : adb) (key : list Z) (missing : reply) (run : zobj → res (db * list effect)) f :
  db_abs d A → canon_eff (Reply missing) = Reply missing →
  (∀ o M, d !! key = Some (KZset o) → A !! key = Some (AZset M) → zset_abs o M → M ≠ ∅ → refines (run o) (f M)) →
  refines (match d !! key with
           | None => Ok (d, [Reply missing])
           | Some (KOther _) => Ok (d, [Reply wrongtypeerr])
           | Some (KZset o) => run o
           end) (on_set A key missing f).
Proof.
  intros HA Hm Hf. unfold on_set.
  destruct (db_abs_lookup d A key HA) as [[Ed EA]|[(? & ? & Ed & EA & _)|(o & M & Ed & EA & HM & HMne)]]; rewrite Ed, EA.
  - eexists _, _. split; [done|]. split; [done|]. cbn [fmap list_fmap snd]. by rewrite Hm.
  - by eexists _, _.
  - by apply Hf.
Qed.

(** The key is deleted with the last element. *)
Lemma put_set_ok d A key o M :
  db_abs d A → zset_abs o M →
  db_abs (if bool_decide (M = ∅) then delete key d else <[key := KZset o]> d) (put_set A key M).
Proof.
  intros HA HM. unfold put_set. destruct (decide (M = ∅)) as [E|E].
  - rewrite bool_decide_eq_true_2 by done. by apply db_abs_delete.
  - rewrite bool_decide_eq_false_2 by done. by apply db_abs_insert.
Qed.

Lemma foldl_delete_empty (l : list (list Z)) : foldl (λ (M : zabs) e, delete e M) ∅ l = ∅.
Proof. induction l as [|e l IH]; [done|]. cbn [foldl]. by rewrite delete_empty. Qed.

Lemma zrem_loop_ok members : ∀ o M deleted, zset_abs o M → M ≠ ∅ →
  let M' := foldl (λ M e, delete e M) M members in
  ∃ o', zrem_loop members o deleted = Ok (o', deleted + (msize M - msize M'), bool_decide (M' = ∅)) ∧ zset_abs o' M'.
Proof.
  induction members as [|e members IH]; intros o M deleted HM Hne; cbn [zrem_loop foldl].
  { rewrite bool_decide_eq_false_2 by done. exists o. split; [|done]. f_equal. f_equal. f_equal. lia. }
  destruct (del_ok o M e HM) as (o1 & -> & HM1 & _). rs.
  destruct (zset_length_ok o1 _ HM1) as (o2 & -> & HM2 & _). rs.
  assert ((if bool_decide (is_Some (M !! e)) then deleted + 1 else deleted) = deleted + (msize M - msize (delete e M))) as ->.
  { unfold msize. destruct (M !! e) as [s|] eqn:E.
    - rewrite bool_decide_eq_true_2 by done. rewrite (map_size_delete_Some e M) by (by rewrite E).
      assert (size M ≠ 0%nat) by (by intros ?%map_size_empty_inv). lia.
    - rewrite bool_decide_eq_false_2 by (by intros [? ?]). rewrite delete_id by done. lia. }
  destruct (Z.eqb_spec (Z.of_nat (size (delete e M))) 0) as [E0|E0].
  - assert (delete e M = ∅) as E by (apply map_size_empty_inv; lia). rewrite E in HM2 |- *. rewrite foldl_delete_empty.
    rewrite bool_decide_eq_true_2 by done. by exists o2.
  - assert (delete e M ≠ ∅) as Hne1 by (intros E; by rewrite E in E0).
    destruct (IH o2 (delete e M) (deleted + (msize M - msize (delete e M))) HM2 Hne1) as (o' & -> & HM').
    exists o'. split; [|done]. f_equal. f_equal. f_equal. lia.
Qed.

Lemma zrem_cmd_ok d A argv : db_abs d A → refines (zremCommand d argv) (zrem_spec A argv).
Proof.
  intros HA. unfold zremCommand, zrem_spec. cbv zeta. apply on_set_ok; [done|done|].
  intros o M Ed EA HM Hne. destruct (zset_length_ok o M HM) as (o1 & -> & HM1 & _). rs.
  destruct (zrem_loop_ok (drop 2 argv) o1 M 0 HM1 Hne) as (o2 & -> & HM2). rs.
  set (M' := foldl _ M _) in *. eexists _, _. split; [done|]. split; [by apply put_set_ok|].
  cbn [snd]. fold (msize M). rewrite Z.add_0_l.
  destruct (Z.eqb_spec (msize M - msize M') 0) as [E|E]; cbn [negb]; [done|].
  replace (msize M - (msize M - msize M')) with (msize M') by lia. by destruct (bool_decide (M' = ∅)).
Qed.

(** *** Ranges *)

Lemma value_test_canon r s : zslValueGteMin (canon s) r = zslValueGteMin s r ∧ zslValueLteMax (canon s) r = zslValueLteMax s r.
Proof.
  assert (∀ a, SFltb a (canon s) = SFltb a s ∧ SFleb a (canon s) = SFleb a s) as Hr.
  { intros a. by rewrite <- (SFltb_canon a (canon s)), <- (SFleb_canon a (canon s)), canon_idem, SFltb_canon, SFleb_canon. }
  assert (∀ a, SFltb (canon s) a = SFltb s a ∧ SFleb (canon s) a = SFleb s a) as Hl.
  { intros a. by rewrite <- (SFltb_canon (canon s) a), <- (SFleb_canon (canon s) a), canon_idem, SFltb_canon, SFleb_canon. }
  unfold zslValueGteMin, zslValueLteMax. destruct (Hr (zr_min r)) as [-> ->], (Hl (zr_max r)) as [-> ->]. done.
Qed.

Lemma by_score_canon r b s s' e : canon s = canon s' → by_score r b (s, e) ↔ by_score r b (s', e).
Proof.
  intros E. unfold by_score. cbn [fst]. destruct (value_test_canon r s) as [<- <-], (value_test_canon r s') as [<- <-].
  by rewrite E.
Qed.

Lemma filter_score_zmap r b vs : vals_ok vs →
  filter (λ es : list Z * double, by_score r b (es.2, es.1)) (zmap vs) = zmap (filter (by_score r b) vs).
Proof. intros Hv. apply (zmap_filter vs (by_score r b)); [apply Hv|]. intros s s' e E. by apply by_score_canon. Qed.

Lemma filter_lex_zmap r b vs : vals_ok vs →
  filter (λ es : list Z * double, by_lex r b (es.2, es.1)) (zmap vs) = zmap (filter (by_lex r b) vs).
Proof. intros Hv. apply (zmap_filter vs (by_lex r b)); [apply Hv|]. done. Qed.

Lemma msize_zmap vs : vals_ok vs → msize (zmap vs) = zlen vs.
Proof. intros Hv. unfold msize. by rewrite zmap_size by apply Hv. Qed.

Lemma zmap_nil vs : vals_ok vs → bool_decide (vs = []) = bool_decide (zmap vs = ∅).
Proof.
  intros Hv. apply bool_decide_ext. split; [by intros ->|]. intros E%(f_equal size).
  rewrite zmap_size, map_size_empty in E by apply Hv. by apply length_zero_iff_nil.
Qed.

Lemma filter_split {A} (f : A → bool) (P : bool → A → Prop) `{∀ b x, Decision (P b x)} (l : list A) :
  (∀ b x, P b x ↔ f x = b) → zlen (filter (P true) l) = zlen l - zlen (filter (P false) l).
Proof.
  intros HP. induction l as [|x l IH]; [done|]. rewrite !filter_cons.
  destruct (decide (P true x)) as [Ht|Ht]; destruct (decide (P false x)) as [Hf|Hf]; cbn [length];
    rewrite HP in Ht, Hf; destruct (f x); try done; lia.
Qed.

(** The part of a set that a range leaves, removed from either encoding *)
Lemma zremrange_delete_ok o M range :
  zset_abs o M → msize M < 2 ^ 32 →
  match range with
  | ByRank start end_ => 0 ≤ start ∧ start ≤ end_ ∧ end_ < msize M
  | ByScore r => isnan (zr_min r) = false ∧ isnan (zr_max r) = false
  | ByLex _ => one_scored M
  end →
  ∃ M', match range with
        | ByRank start end_ =>
            M' = zmap (take (Z.to_nat start) (zseq M) ++ drop (Z.to_nat (end_ + 1)) (zseq M))
        | _ => kept_by M range = Some M'
        end ∧
    ∃ o', zremrange_delete o range = Ok (o', msize M - msize M', bool_decide (M' = ∅)) ∧ zset_abs o' M'.
Proof.
  intros (vs & Hr & <-) Hsz Hrange. pose proof (proj1 Hr) as Hv. rewrite msize_zmap in * by done.
  destruct range as [start end_|r|r].
  - destruct Hrange as (H1' & H2' & H3'). destruct (delete_rank_ok o vs start end_ Hr H1' H2' H3' Hsz) as (o' & -> & Hr').
    eexists. split; [done|]. set (kept := take _ vs ++ _) in *.
    assert (zmap (take (Z.to_nat start) (zseq (zmap vs)) ++ drop (Z.to_nat (end_ + 1)) (zseq (zmap vs))) = zmap kept) as ->.
    { rewrite zseq_zmap by done. unfold kept. rewrite <- fmap_take, <- fmap_drop, <- fmap_app. apply zmap_cval. }
    rewrite msize_zmap by apply Hr'. rewrite zmap_nil by apply Hr'. exists o'. split; [|by exists kept].
    do 2 f_equal. f_equal. unfold kept. rewrite length_app, length_take, length_drop. lia.
  - destruct Hrange as [Hmin Hmax]. destruct (delete_scores_ok o vs r Hr Hmin Hmax) as (o' & -> & Hr').
    eexists. split; [done|]. rewrite filter_score_zmap by done. rewrite msize_zmap, zmap_nil by apply Hr'.
    exists o'. split; [|by eexists]. do 3 f_equal.
    by apply (filter_split (λ v : value, zslValueGteMin v.1 r && zslValueLteMax v.1 r)).
  - destruct (delete_lex_ok o vs r Hr) as (o' & -> & Hr'); [by apply one_scored_vals|].
    eexists. split; [done|]. rewrite filter_lex_zmap by done. rewrite msize_zmap, zmap_nil by apply Hr'.
    exists o'. split; [|by eexists]. do 3 f_equal.
    by apply (filter_split (λ v : value, zslLexValueGteMin v.2 r && zslLexValueLteMax v.2 r)).
Qed.

(** *** The commands *)

Lemma parse_bound_nan s v ex : parse_bound strtod (RStr s) = Some (v, ex) → isnan v = false.
Proof.
  cbn [parse_bound]. destruct (char_at s 0 =? 40).
  - destruct (strtod (drop 1 s)) as [w eptr]. destruct (negb _ || isnan w) eqn:E; [done|]. intros [= <- _].
    by apply orb_false_elim in E as [_ ?].
  - destruct (strtod s) as [w eptr]. destruct (negb _ || isnan w) eqn:E; [done|]. intros [= <- _].
    by apply orb_false_elim in E as [_ ?].
Qed.

Lemma parse_range_nan a b r :
  zslParseRange strtod (RStr a) (RStr b) = Some r → isnan (zr_min r) = false ∧ isnan (zr_max r) = false.
Proof.
  unfold zslParseRange. destruct (parse_bound strtod (RStr a)) as [[mn ex]|] eqn:Ea; [|done].
  destruct (parse_bound strtod (RStr b)) as [[mx ex']|] eqn:Eb; [|done]. intros [= <-].
  split; by eapply parse_bound_nan.
Qed.

(** The replies of the parsers *)
Lemma get_long_err o msg r : getLongFromObjectOrReply o msg = inr r → canon_eff (Reply r) = Reply r.
Proof.
  unfold getLongFromObjectOrReply, getLongLongFromObjectOrReply.
  destruct (getLongLongFromObject o); [|by intros [= <-]]. destruct (_ || _); [by intros [= <-]|done].
Qed.

Lemma sanitize_ok llen start end_ s e :
  0 ≤ llen → sanitize_indexes llen start end_ = Some (s, e) → 0 ≤ s ∧ s ≤ e ∧ e < llen.
Proof.
  intros Hl. unfold sanitize_indexes. cbv zeta. destruct (_ || _) eqn:E; [done|]. intros [= <- <-].
  apply orb_false_elim in E as [E1 E2]. repeat case_match; lia.
Qed.

Lemma zremrange_step_ok d A key rangetype o M range M' o' :
  db_abs d A → A !! key = Some (AZset M) →
  zremrange_delete o range = Ok (o', msize M - msize M', bool_decide (M' = ∅)) → zset_abs o' M' →
  refines
    ('(o, deleted, keyremoved) ← zremrange_delete o range;
     let d := if keyremoved : bool then delete key d else <[key := KZset o]> d in
     '(d, effs) ←
       (if negb (deleted =? 0) then
          if keyremoved : bool then
            Ok (d, [KeyModified key false; Notify (zremrange_name rangetype) key; Notify "del" key;
                    KeysizesHist key deleted (-1)])
          else
            '(newlen, o) ← zsetLength o;
            Ok (<[key := KZset o]> d, [KeyModified key false; Notify (zremrange_name rangetype) key;
                                       KeysizesHist key (newlen + deleted) newlen])
        else Ok (d, []));
     Ok (d, effs ++ [Dirty deleted; Reply (ReplyLongLong deleted)]))
    (zremrange_effects A key rangetype M M').
Proof.
  intros HA EA Hdel HM'. rewrite Hdel. rs. unfold zremrange_effects. cbv zeta.
  destruct (Z.eqb_spec (msize M - msize M') 0) as [E|E]; cbn [negb].
  - rs. eexists _, _. split; [done|]. split; [by apply put_set_ok|done].
  - unfold put_set. destruct (decide (M' = ∅)) as [E0|E0].
    + rewrite bool_decide_eq_true_2 by done. rs. eexists _, _. split; [done|]. split; [by apply db_abs_delete|].
      rewrite E0. by rewrite Z.sub_0_r.
    + rewrite bool_decide_eq_false_2 by done. destruct (zset_length_ok o' M' HM') as (o2 & -> & HM2 & _). rs.
      eexists _, _. split; [done|]. split.
      * rewrite insert_insert_eq. by apply db_abs_insert.
      * cbn [fmap list_fmap canon_eff app snd]. unfold msize. do 3 f_equal. f_equal. lia.
Qed.

(** What the arguments of the three commands parse to *)
Lemma zremrange_parse_ok rangetype a b : rangetype ≠ ZRANGE_AUTO →
  (∃ r, zremrange_parse rangetype a b = Ok (inr r) ∧ canon_eff (Reply r) = Reply r) ∨
  (∃ s e, zremrange_parse rangetype a b = Ok (inl (ByRank s e))) ∨
  (∃ range, zremrange_parse rangetype a b = Ok (inl range) ∧
    match range with
    | ByRank _ _ => False
    | ByScore r => isnan (zr_min r) = false ∧ isnan (zr_max r) = false
    | ByLex _ => rangetype = ZRANGE_LEX
    end).
Proof.
  intros Ht. destruct rangetype; [done|..]; cbn [zremrange_parse].
  - destruct (getLongFromObjectOrReply (RStr a) None) as [s|r] eqn:Ea; [|left; eexists; split; [done|by eapply get_long_err]].
    destruct (getLongFromObjectOrReply (RStr b) None) as [e|r] eqn:Eb; [|left; eexists; split; [done|by eapply get_long_err]].
    right. left. by eexists _, _.
  - destruct (zslParseRange strtod (RStr a) (RStr b)) as [r|] eqn:E; [|left; by eexists].
    right. right. exists (ByScore r). split; [done|]. by eapply parse_range_nan.
  - destruct (zslParseLexRange (RStr a) (RStr b)) as [r|]; [|left; by eexists].
    right. right. by exists (ByLex r).
Qed.

Lemma zremrange_cmd_ok d A argv rangetype :
  db_abs d A → rangetype ≠ ZRANGE_AUTO → (rangetype = ZRANGE_LEX → one_scored (aset A (arg argv 1))) →
  msize (aset A (arg argv 1)) < 2 ^ 32 →
  refines (zremrangeGenericCommand d argv rangetype) (zremrange_spec A argv rangetype).
Proof.
  intros HA Ht Hlex Hsz. unfold zremrangeGenericCommand, zremrange_spec. cbv zeta. set (key := arg argv 1) in *.
  destruct (zremrange_parse_ok rangetype (arg argv 2) (arg argv 3) Ht) as
    [(r & -> & Hr)|[(s & e & ->)|(range & -> & Hr)]]; rs.
  - eexists _, _. split; [done|]. split; [done|]. cbn [fmap list_fmap snd]. by rewrite Hr.
  - apply on_set_ok; [done|done|]. intros o M Ed EA HM Hne. unfold aset in Hsz. rewrite EA in Hsz.
    destruct (zset_length_ok o M HM) as (o1 & -> & HM1 & _). rs. cbn [kept_by]. fold (msize M).
    destruct (sanitize_indexes (msize M) s e) as [[s' e']|] eqn:Es.
    + destruct (zremrange_delete_ok o1 M (ByRank s' e') HM1 Hsz) as (M' & -> & o' & Hdel & HM').
      { eapply sanitize_ok; [|exact Es]. unfold msize. lia. }
      by apply (zremrange_step_ok d A key rangetype o1 M (ByRank s' e') _ o').
    + eexists _, _. split; [done|]. split; [by eapply db_abs_same|done].
  - apply on_set_ok; [done|done|]. intros o M Ed EA HM Hne. unfold aset in Hsz, Hlex. rewrite EA in Hsz, Hlex. rs.
    destruct range as [|r|r]; [done|..].
    + destruct (zremrange_delete_ok o M (ByScore r) HM Hsz Hr) as (M' & -> & o' & Hdel & HM').
      by apply (zremrange_step_ok d A key rangetype o M (ByScore r) M' o').
    + destruct (zremrange_delete_ok o M (ByLex r) HM Hsz (Hlex Hr)) as (M' & -> & o' & Hdel & HM').
      by apply (zremrange_step_ok d A key rangetype o M (ByLex r) M' o').
Qed.

(** ** Reading *)

(** A command that replies and keeps the map *)
Lemma refines_read d A key o M effs spec :
  db_abs d A → A !! key = Some (AZset M) → zset_abs o M → canon_eff <$> effs = spec →
  refines (Ok (<[key := KZset o]> d, effs)) (A, spec).
Proof. intros HA EA HM Heff. eexists _, _. split; [done|]. split; [by eapply db_abs_same|done]. Qed.

Lemma zcard_cmd_ok d A argv : db_abs d A → refines (zcardCommand d argv) (zcard_spec A argv).
Proof.
  intros HA. apply on_set_ok; [done|done|]. intros o M Ed EA HM Hne.
  destruct (zset_length_ok o M HM) as (o' & -> & HM' & _). rs. by eapply refines_read.
Qed.

Lemma score_reply_canon r : canon_eff (score_reply r) = score_reply (canon <$> r).
Proof. by destruct r. Qed.

Lemma zscore_cmd_ok d A argv : db_abs d A → refines (zscoreCommand d argv) (zscore_spec A argv).
Proof.
  intros HA. apply on_set_ok; [done|done|]. intros o M Ed EA HM Hne.
  destruct (score_ok_spec o M (arg argv 2) HM) as (r & -> & Hr). rs. eexists _, _. split; [done|]. split; [done|].
  cbn [fmap list_fmap snd]. by rewrite score_reply_canon, Hr.
Qed.

Lemma zmscore_loop_ok o M members : match o with Some o => zset_abs o M | None => M = ∅ end →
  ∃ effs, zmscore_loop o members = Ok effs ∧ canon_eff <$> effs = (λ m, score_reply (M !! m)) <$> members.
Proof.
  intros HM. induction members as [|m members IH]; [by exists []|]. destruct IH as (effs & Hl & He). cbn [zmscore_loop].
  assert (∃ r, match o with None => Ok None | Some o => zsetScore o m end = Ok r ∧ canon <$> r = M !! m) as (r & -> & Hr).
  { destruct o as [o|]; [by apply score_ok_spec|]. exists None. split; [done|]. by rewrite HM, lookup_empty. }
  rs. rewrite Hl. rs. eexists. split; [done|]. rewrite !fmap_cons, score_reply_canon, Hr. by rewrite He.
Qed.

Lemma zmscore_cmd_ok d A argv : db_abs d A → refines (zmscoreCommand d argv) (zmscore_spec A argv).
Proof.
  intros HA. unfold zmscoreCommand, zmscore_spec. cbv zeta.
  assert (∀ o M, match o with Some o => zset_abs o M | None => M = ∅ end →
    refines (l ← zmscore_loop o (drop 2 argv); Ok (d, Reply (ReplyArrayLen (zlen argv - 2)) :: l))
      (A, Reply (ReplyArrayLen (zlen argv - 2)) :: ((λ m, score_reply (M !! m)) <$> drop 2 argv))) as Hgo.
  { intros o M HM. destruct (zmscore_loop_ok o M (drop 2 argv) HM) as (effs & -> & He). rs.
    eexists _, _. split; [done|]. split; [done|]. rewrite fmap_cons, He. done. }
  destruct (db_abs_lookup d A (arg argv 1) HA) as [[-> ->]|[(? & ? & -> & -> & _)|(o & M & -> & -> & HM & _)]].
  - by apply (Hgo None).
  - by eexists _, _.
  - by apply (Hgo (Some o)).
Qed.

Lemma rank_result_pos M e reverse r s : rank_result M e reverse = (r, Some s) → 0 ≤ r.
Proof.
  unfold rank_result. destruct (M !! e) as [s'|] eqn:E; [|done]. intros [= <- <-]. destruct reverse; [|lia].
  assert (zrank_spec M e s' < size M)%nat; [|lia]. unfold zrank_spec.
  rewrite <- (insert_id M e s' E) at 2. rewrite <- (insert_delete_eq M e s').
  rewrite map_size_insert_None by apply lookup_delete_eq.
  assert (filter (λ es : list Z * double, vlt (es.2, es.1) (s', e)) M ⊆ delete e M) as Hsub.
  { apply map_subseteq_spec. intros k x [Hk Hlt]%map_lookup_filter_Some. apply lookup_delete_Some. split; [|done].
    intros ->. rewrite E in Hk. injection Hk as <-. cbn in Hlt. unfold vlt in Hlt. rewrite lexcmp_refl in Hlt. lia. }
  apply map_subseteq_size in Hsub. lia.
Qed.

Lemma zrank_cmd_ok d A argv reverse :
  db_abs d A → msize (aset A (arg argv 1)) < INT64_MAX →
  refines (zrankGenericCommand d argv reverse) (zrank_cmd_spec A argv reverse).
Proof.
  intros HA Hsz. unfold zrankGenericCommand, zrank_cmd_spec. cbv zeta.
  destruct (zlen argv >? 4); [by eexists _, _|]. destruct (_ && _); [by eexists _, _|].
  apply on_set_ok; [done|by destruct (_ >? 3)|]. intros o M Ed EA HM Hne. unfold aset in Hsz. rewrite EA in Hsz.
  destruct (rank_ok o M (arg argv 2) reverse HM Hne Hsz) as (o' & s & -> & Hs & HM'). rs.
  destruct (rank_result M (arg argv 2) reverse) as [r [s'|]] eqn:Er; cbn [fst snd] in *.
  - pose proof (rank_result_pos _ _ _ _ _ Er). replace (r >=? 0) with true by lia.
    destruct s as [s|]; [|done]. injection Hs as Hs. destruct (_ >? 3).
    + cbn [nonnull]. rs. eapply refines_read; [done..|]. cbn. by rewrite Hs.
    + by eapply refines_read.
  - assert (r = -1) as ->. { unfold rank_result in Er. destruct (M !! _); [done|by injection Er as <-]. }
    cbn [Z.geb Z.compare]. eapply refines_read; [done..|]. by destruct (_ >? 3).
Qed.

Lemma zcount_cmd_ok d A argv :
  db_abs d A → msize (aset A (arg argv 1)) < INT64_MAX → refines (zcountCommand d argv) (zcount_spec A argv).
Proof.
  intros HA Hsz. unfold zcountCommand, zcount_spec.
  destruct (zslParseRange strtod (RStr (arg argv 2)) (RStr (arg argv 3))) as [r|] eqn:Er; [|by eexists _, _].
  destruct (parse_range_nan _ _ _ Er) as [Hmin Hmax].
  destruct (db_abs_lookup d A (arg argv 1) HA) as [[Ed EA]|[(? & ? & Ed & EA & _)|(o & M & Ed & EA & HM & _)]];
    unfold on_set, aset in *; rewrite Ed, EA in *; [by eexists _, _..|].
  destruct HM as (vs & Hr & <-). pose proof (proj1 Hr) as Hv. rewrite msize_zmap in Hsz by done.
  pose proof (count_scores_ok o vs r Hr Hmin Hmax Hsz) as Hc.
  rewrite filter_score_zmap by done. rewrite msize_zmap by (eapply vals_sublist; [apply sublist_filter|done]).
  pose proof (length_filter (by_score r true) vs). rewrite <- (s64_small (zlen (filter _ vs))) by lia.
  destruct o as [zl|zs]; rewrite Hc; rs; by eexists _, _.
Qed.

Lemma zlexcount_cmd_ok d A argv :
  db_abs d A → msize (aset A (arg argv 1)) < INT64_MAX → one_scored (aset A (arg argv 1)) →
  refines (zlexcountCommand d argv) (zlexcount_spec A argv).
Proof.
  intros HA Hsz Hone. unfold zlexcountCommand, zlexcount_spec.
  destruct (zslParseLexRange (RStr (arg argv 2)) (RStr (arg argv 3))) as [r|] eqn:Er; [|by eexists _, _].
  destruct (db_abs_lookup d A (arg argv 1) HA) as [[Ed EA]|[(? & ? & Ed & EA & _)|(o & M & Ed & EA & HM & _)]];
    unfold on_set, aset in *; rewrite Ed, EA in *; [by eexists _, _..|].
  destruct HM as (vs & Hr & <-). pose proof (proj1 Hr) as Hv. rewrite msize_zmap in Hsz by done.
  pose proof (count_lex_ok o vs r Hr (one_scored_vals vs Hv Hone) Hsz) as Hc.
  rewrite filter_lex_zmap by done. rewrite msize_zmap by (eapply vals_sublist; [apply sublist_filter|done]).
  pose proof (length_filter (by_lex r true) vs). rewrite <- (s64_small (zlen (filter _ vs))) by lia.
  destruct o as [zl|zs]; rewrite Hc; rs; by eexists _, _.
Qed.
End remove.
