(* ===== verification/ZpopSpec.v ===== *)
(** ZPOPMIN and ZPOPMAX against their specification: the first elements of the
    sequence of the set, from either end, are removed and replied. *)

From S2P Require Import Prelude Numstr Sds Listpack LpNav LpApi Skiplist SklRep SklMod SklDel.
From S2P Require Import Double Object Zzl ZzlRep Zset ZsetRep ZsetSkl ZsetConv ZsetSpec ZsetApi.
From S2P Require Import ZsetCmd ZsetRange ZsetCmdSpec ZsetCmdRefine.
From S2P Require Import Endian SetType SetRep Keyspace KeyspaceRep.
From Stdlib Require Import SpecFloat.

(** ** Specification *)

(** The sequence from the end that is popped *)
Definition from_end {A} (wh : zset_where) (l : list A) : list A :=
  match wh with ZSET_MIN => l | ZSET_MAX => reverse l end.

Definition zpop_event (wh : zset_where) : string :=
  match wh with ZSET_MIN => "zpopmin" | ZSET_MAX => "zpopmax" end.

(** The effects of the elements [l]; the first of all is notified. *)
Fixpoint zpop_effects (key : list Z) (wh : zset_where) (nested first : bool) (l : list value) : list effect :=
  match l with
  | [] => []
  | v :: l =>
      Dirty 1 :: (if first then [Notify (zpop_event wh) key] else []) ++
      (if nested then [Reply (ReplyArrayLen 2)] else []) ++
      [Reply (ReplyBulk v.2); Reply (ReplyDouble v.1)] ++ zpop_effects key wh nested false l
  end.

Definition zpop_spec (A : adb) (argv : list (list Z)) (resp : Z) (wh : zset_where) : adb * list effect :=
  let key := arg argv 1 in
  if zlen argv >? 3 then (A, [Reply syntaxerr]) else
  match (if zlen argv =? 3 then getPositiveLongFromObjectOrReply (RStr (arg argv 2)) None else inl (-1)) with
  | inr r => (A, [Reply r])
  | inl count =>
      on_set A key ReplyEmptyArray (λ M,
        if count =? 0 then (A, [Reply ReplyEmptyArray]) else
        let nested := (resp >? 2) && negb (count =? -1) in
        let n := Z.min (if count =? -1 then 1 else count) (msize M) in
        let popped := take (Z.to_nat n) (from_end wh (zseq M)) in
        let M' := foldl (λ M v, delete v.2 M) M popped in
        let gone := bool_decide (M' = ∅) in
        (put_set A key M',
         Reply (ReplyArrayLen (if nested then n else n * 2)) :: zpop_effects key wh nested true popped ++
         (if gone then [Notify "del" key] else []) ++
         [KeysizesHist key (msize M) (if gone then -1 else msize M'); KeyModified key (negb gone)]))
  end.

(** ** The end of a sequence *)

Section zpop.
Context `{Arch} `{SetConfig} `{Allocator} `{NodeAlloc} `{FloatTextLaws} `{Server}.

Lemma zpop_end_ok o vs wh v rest :
  zset_rep o vs → from_end wh vs = v :: rest → zpop_end o wh = Ok (v.2, v.1).
Proof.
  intros [Hv Hh] Hend. destruct o as [zl|zs].
  - destruct Hh as (ps & R & <- & _). unfold zpop_end.
    assert (∃ k p, ps !! k = Some p ∧ zval p = v ∧ lpSeek zl (match wh with ZSET_MAX => -2 | ZSET_MIN => 0 end) = Ok (zz_ptr ps k))
      as (k & p & Hp & <- & ->).
    { destruct wh; cbn [from_end] in Hend.
      - destruct ps as [|p ps]; [done|]. injection Hend as <- _. exists 0%nat, p. by rewrite (zz_seek_first R).
      - destruct ps as [|p ps _] using rev_ind; [done|]. unfold zvals in Hend. rewrite fmap_app, reverse_app in Hend.
        injection Hend as <- _. exists (length ps), p. split; [by apply list_lookup_middle|]. split; [done|].
        rewrite (zz_seek_last R), decide_False by (by destruct ps). rewrite length_app. cbn [length]. do 2 f_equal. lia. }
    pose proof (lookup_lt_Some _ _ _ Hp). rewrite zz_ptr_some by done. rs. cbn [nonnull]. rs.
    rewrite (zz_object R k p Hp). rs. rewrite (zz_next_score R k p Hp). rs. by rewrite (zz_get_score R k p Hp).
  - destruct Hh as (xs & R & <- & Hd). pose proof (proj1 R) as Ri. unfold zpop_end.
    assert (∃ x, x ∈ xs ∧ eval x = v ∧
      match wh with
      | ZSET_MAX => Ok (zsl_tail (zs_zsl zs))
      | ZSET_MIN => l ← get_level (zs_heap zs) (zsl_header (zs_zsl zs)) 0; Ok (forward l)
      end = Ok (Some (ze_ptr x))) as (x & Hx & <- & ->).
    { destruct wh; cbn [from_end] in Hend.
      - destruct xs as [|x xs]; [done|]. injection Hend as <- _. exists x. split; [set_solver|]. split; [done|].
        destruct (next_node _ _ [] (x :: xs) Ri) as (s & Hn). cbn in Hn.
        change (default _ _) with (zsl_header (zs_zsl zs)) in Hn. by rewrite Hn.
      - destruct xs as [|x xs _] using rev_ind; [done|]. rewrite fmap_app, reverse_app in Hend.
        injection Hend as <- _. exists x. split; [set_solver|]. split; [done|]. rewrite (rep_tail _ _ _ Ri).
        by rewrite last_snoc. }
    rs. cbn [nonnull]. rs. destruct (inv_data Ri x Hx) as (Dx & Hh & _).
    rewrite (node_ele_ok (view_self _) x Dx Hh). rs.
    destruct (node_score_ok (view_self (zs_heap zs)) x Dx) as (n & -> & Hn & _). rs. by rewrite Hn.
Qed.

Lemma from_end_fmap {A B} wh (f : A → B) l : from_end wh (f <$> l) = f <$> from_end wh l.
Proof. destruct wh; [done|]. symmetry. apply fmap_reverse. Qed.

Lemma from_end_split {A} wh (l : list A) x rest :
  from_end wh l = x :: rest → ∃ a b, l = a ++ x :: b ∧ from_end wh (a ++ b) = rest.
Proof.
  destruct wh; cbn [from_end]; intros E.
  - by exists [], rest.
  - exists (reverse rest), []. rewrite <- (reverse_involutive l), E, reverse_cons. split; [done|].
    by rewrite app_nil_r, reverse_involutive.
Qed.

(** One element is popped. *)
Lemma pop_one o M wh : zset_abs o M → M ≠ ∅ →
  ∃ w rest o', zpop_end o wh = Ok (w.2, w.1) ∧ from_end wh (zseq M) = cval w :: rest ∧
    zsetDel o w.2 = Ok (o', true) ∧ zset_abs o' (delete w.2 M) ∧ from_end wh (zseq (delete w.2 M)) = rest ∧
    size M = S (size (delete w.2 M)).
Proof.
  intros HM Hne. pose proof HM as (vs & Hr & <-). pose proof (proj1 Hr) as Hv.
  destruct (from_end wh vs) as [|w ws] eqn:E.
  { exfalso. apply Hne. destruct wh; cbn in E; [by rewrite E|]. apply (f_equal reverse) in E.
    rewrite reverse_involutive in E. by rewrite E. }
  pose proof (zpop_end_ok o vs wh w ws Hr E) as Hend.
  destruct (from_end_split wh vs w ws E) as (a & b & Evs & Eab).
  destruct (del_ok o (zmap vs) w.2 HM) as (o' & Hdel & HM' & _).
  assert (zmap (a ++ b) = delete w.2 (zmap vs)) as Em.
  { rewrite Evs. apply zmap_delete. rewrite Evs in Hv. by apply (vals_remove a w b). }
  rewrite Evs in Hv. destruct (vals_remove a w b Hv) as [Hv' Hn]. rewrite <- Evs in Hv.
  exists w, (cval <$> ws), o'. split; [done|].
  split; [by rewrite zseq_zmap, from_end_fmap, E by done|]. split; [|split; [done|split]].
  - rewrite Hdel, bool_decide_eq_true_2; [done|]. destruct (zmap_in vs w.1 w.2 Hv) as [-> _]; [|by eexists].
    rewrite Evs. destruct w. set_solver.
  - rewrite <- Em, zseq_zmap, from_end_fmap by done. by rewrite Eab.
  - rewrite <- Em, !zmap_size by (apply Hv || apply Hv'). rewrite Evs, !length_app. cbn. lia.
Qed.

Lemma zpop_loop_ok key wh nested n : ∀ o M c,
  zset_abs o M → (0 < n ≤ size M)%nat → 0 ≤ c →
  let popped := take n (from_end wh (zseq M)) in
  ∃ o' effs, zpop_loop n o wh key nested c = Ok (o', effs, c + Z.of_nat n) ∧
    canon_eff <$> effs = zpop_effects key wh nested (c =? 0) popped ∧
    zset_abs o' (foldl (λ M v, delete v.2 M) M popped) ∧
    size (foldl (λ M v, delete v.2 M) M popped) = (size M - n)%nat.
Proof.
  induction n as [|n IH]; intros o M c HM Hn Hc; [lia|]. cbn [zpop_loop].
  assert (M ≠ ∅) as Hne by (intros ->; rewrite map_size_empty in Hn; lia).
  destruct (pop_one o M wh HM Hne) as (w & rest & o1 & -> & Hseq & Hdel & HM1 & Hrest & Hsz). rs.
  rewrite Hdel. rs. rewrite assert_true by done. rs. rewrite Hseq. cbn [take zpop_effects foldl cval snd fst].
  destruct n as [|n].
  - replace (c + Z.of_nat 1) with (c + 1) by lia. eexists o1, _. split; [done|]. rewrite take_0. cbn [foldl]. split; [|split; [done|lia]].
    rewrite fmap_cons, !fmap_app, app_nil_r. by destruct (c =? 0), nested.
  - destruct (IH o1 (delete w.2 M) (c + 1) HM1) as (o2 & effs & -> & He & HM2 & Hs2); [lia|lia|]. rs.
    rewrite Hrest in He, HM2, Hs2. replace (c + Z.of_nat (S (S n))) with (c + 1 + Z.of_nat (S n)) by lia. eexists o2, _. split; [done|]. split; [|split; [done|lia]].
    replace (c + 1 =? 0) with false in He by lia. rewrite fmap_app, He, fmap_cons, !fmap_app.
    destruct (c =? 0), nested; reflexivity.
Qed.

Lemma get_positive_ok o msg v : getPositiveLongFromObjectOrReply o msg = inl v → 0 ≤ v ≤ INT64_MAX.
Proof.
  unfold getPositiveLongFromObjectOrReply, getRangeLongFromObjectOrReply.
  destruct (getLongFromObjectOrReply _ _); [|done]. destruct (_ || _) eqn:E; [done|]. intros [= ->]. lia.
Qed.

Lemma get_positive_err o msg r : getPositiveLongFromObjectOrReply o msg = inr r → canon_eff (Reply r) = Reply r.
Proof.
  unfold getPositiveLongFromObjectOrReply, getRangeLongFromObjectOrReply.
  destruct (getLongFromObjectOrReply _ _) eqn:E; [|intros [= <-]; by eapply get_long_err].
  destruct (_ || _); [by intros [= <-]|done].
Qed.

Lemma zpop_cmd_ok d A argv resp wh :
  db_abs d A → refines (zpopMinMaxCommand d argv resp wh) (zpop_spec A argv resp wh).
Proof.
  intros HA. unfold zpopMinMaxCommand, zpop_spec. cbv zeta. destruct (zlen argv >? 3); [by eexists _, _|].
  destruct (if zlen argv =? 3 then _ else _) as [count|r] eqn:Ec.
  2:{ eexists _, _. split; [done|]. split; [done|]. destruct (zlen argv =? 3); [|done].
      cbn [fmap list_fmap snd]. f_equal. by eapply get_positive_err. }
  assert (count = -1 ∨ 0 ≤ count) as Hcount.
  { destruct (zlen argv =? 3); [right; by apply get_positive_ok in Ec as [? _]|left; congruence]. }
  clear Ec. unfold genericZpopCommand. cbn [zpop_candidate]. unfold on_set. set (key := arg argv 1).
  destruct (db_abs_lookup d A key HA) as [[-> ->]|[(? & ? & -> & -> & _)|(o & M & Ed & EA & HM & Hne)]]; [by eexists _, _..|].
  rewrite Ed, EA. destruct (Z.eqb_spec count 0) as [->|Hc0]; [by eexists _, _|].
  destruct (zset_length_ok o M HM) as (o1 & -> & HM1 & _). rs.
  assert (size M ≠ 0%nat) as Hsz by (by intros ?%map_size_empty_inv).
  set (cnt := if count =? -1 then 1 else count). assert (0 < cnt) as Hcnt by (unfold cnt; case_match; lia).
  replace (if cnt >? Z.of_nat (size M) then Z.of_nat (size M) else cnt) with (Z.min cnt (msize M))
    by (unfold msize; destruct (cnt >? _) eqn:E; lia).
  set (n := Z.min cnt (msize M)). assert (0 < n ≤ msize M) as Hn by (unfold n, msize; lia).
  destruct (zpop_loop_ok key wh ((resp >? 2) && negb (count =? -1)) (Z.to_nat n) o1 M 0 HM1) as
    (o2 & effs & -> & He & HM2 & Hs2); [unfold msize in *; lia|lia|]. rs.
  set (M' := foldl _ _ _) in *. destruct (zset_length_ok o2 M' HM2) as (o3 & -> & HM3 & _). rs.
  assert ((Z.of_nat (size M') =? 0) = bool_decide (M' = ∅)) as ->.
  { apply eq_true_iff_eq. rewrite bool_decide_eq_true, Z.eqb_eq. split; [intros; apply map_size_empty_inv; lia|].
    intros ->. by rewrite map_size_empty. }
  eexists _, _. split; [done|]. split; [by apply put_set_ok|]. cbn [snd].
  replace (Z.of_nat (size M) - (0 + Z.of_nat (Z.to_nat n))) with (msize M') by (unfold msize in *; lia).
  assert (((if bool_decide (M' = ∅) then -1 else msize M') >? 0) = negb (bool_decide (M' = ∅))) as Hkept.
  { unfold msize. case_bool_decide as E; [done|]. cbn [negb]. assert (size M' ≠ 0%nat) by (by intros ?%map_size_empty_inv). lia. }
  rewrite Hkept. clearbody M' n.
  rewrite !fmap_app, He, app_nil_r. destruct ((resp >? 2) && negb (count =? -1)); by destruct (bool_decide (M' = ∅)).
Qed.
End zpop.
