(* ===== verification/ZrangeSpec.v ===== *)
(** What the commands of the ZRANGE family hand to a result handler: for every
    handler, a part of the sequence of the set, in one of the two directions. *)

From S2P Require Import Prelude Numstr Sds Listpack LpNav LpMod LpApi Skiplist SklRep SklMod.
From S2P Require Import SklDel SklRank SklSpec Double Object Zzl ZzlRep ZzlMod ZzlSpec Zset.
From S2P Require Import ZsetRep ZsetSkl ZsetConv ZsetSpec ZsetApi ZsetCmd ZsetRange ZsetCmdSpec.
From S2P Require Import ZsetCmdRefine Zrange.
From S2P Require Import Endian SetType SetRep Keyspace KeyspaceRep.
From Stdlib Require Import SpecFloat.

(** ** Sequences in a direction *)

Definition dirl {A} (rev : bool) (l : list A) : list A := if rev then reverse l else l.

Lemma dirl_fmap {A B} rev (f : A → B) l : dirl rev (f <$> l) = f <$> dirl rev l.
Proof. destruct rev; [|done]. symmetry. apply fmap_reverse. Qed.

Lemma length_dirl {A} rev (l : list A) : length (dirl rev l) = length l.
Proof. destruct rev; [apply length_reverse|done]. Qed.

(** The index of the element [j] of the sequence in a direction *)
Definition idx (rev : bool) (n j : nat) : nat := if rev then (n - S j)%nat else j.

Lemma dirl_lookup {A} rev (l : list A) j : (j < length l)%nat → dirl rev l !! j = l !! idx rev (length l) j.
Proof. intros Hj. destruct rev; [|done]. by apply reverse_lookup. Qed.

Lemma dirl_app3 {A} rev (a b c : list A) :
  dirl rev (a ++ b ++ c) = (if rev then reverse c else a) ++ dirl rev b ++ (if rev then reverse a else c).
Proof. destruct rev; [|done]. cbn. rewrite !reverse_app. by rewrite (assoc_L (++)). Qed.

(** The first elements, all of them for a negative limit *)
Definition limited {A} (limit : Z) (l : list A) : list A := if limit <? 0 then l else take (Z.to_nat limit) l.

Lemma limited_zero {A} (l : list A) : limited 0 l = [].
Proof. done. Qed.
Lemma limited_cons {A} limit (x : A) l : limit ≠ 0 → limited limit (x :: l) = x :: limited (limit - 1) l.
Proof.
  intros Hl. unfold limited. destruct (Z.ltb_spec limit 0).
  - by replace (limit - 1 <? 0) with true by lia.
  - replace (limit - 1 <? 0) with false by lia. by replace (Z.to_nat limit) with (S (Z.to_nat (limit - 1))) by lia.
Qed.
Lemma limited_nil {A} limit : limited limit (@nil A) = [].
Proof. unfold limited. case_match; [done|]. apply take_nil. Qed.
Lemma limited_le {A} limit (l : list A) : (length (limited limit l) ≤ length l)%nat.
Proof. unfold limited. case_match; [done|]. rewrite length_take. lia. Qed.
Lemma limited_fmap {A B} (f : A → B) limit l : limited limit (f <$> l) = f <$> limited limit l.
Proof. unfold limited. case_match; [done|]. by rewrite fmap_take. Qed.

(** ** Handlers *)

(** Numbers are emitted as their decimal text. *)
Class HandlerLaws {St} (hd : zrange_result_handler St) : Prop :=
  emit_number v s st : is_i64 v → emitResultFromLongLong hd v s st = emitResultFromCBuffer hd (decs v) s st.

Section instances.
Context `{Arch} `{SetConfig} `{Allocator} `{NodeAlloc} `{FloatText} `{StrtodErrno} `{Server}.

#[export] Instance client_laws : HandlerLaws client_ops.
Proof. intros v s st Hv. cbn. unfold zrangeResultEmitLongLongToClient. by rewrite sdsfromlonglong_ok. Qed.
#[export] Instance store_laws : HandlerLaws store_ops.
Proof. intros v s st Hv. cbn. unfold zrangeResultEmitLongLongForStore. by rewrite sdsfromlonglong_ok. Qed.
End instances.

Section emit.
Context {St : Type} (hd : zrange_result_handler St).

(** The elements and scores [items] are emitted one after the other. *)
Fixpoint emit_all (items : list value) (st : St) : res St :=
  match items with
  | [] => Ok st
  | v :: items => st ← emitResultFromCBuffer hd v.2 v.1 st; emit_all items st
  end.

(** What every command does with the elements it finds *)
Definition emission (begin_ : Z) (items : list value) (st : St) (d : db) : res (St * db) :=
  st ← beginResultEmission hd begin_ st;
  st ← emit_all items st;
  finalizeResultEmission hd (zlen items) st d.

(** The result of a loop that counts what it emits *)
Definition counted (items : list value) (c : Z) (st : St) : res (St * Z) :=
  st ← emit_all items st; Ok (st, c + zlen items).

Lemma counted_nil c st : counted [] c st = Ok (st, c).
Proof. unfold counted. rs. cbn [length]. by rewrite Z.add_0_r. Qed.

Lemma counted_cons v items c st :
  counted (v :: items) c st = st ← emitResultFromCBuffer hd v.2 v.1 st; counted items (c + 1) st.
Proof.
  unfold counted. cbn [emit_all]. destruct (emitResultFromCBuffer hd v.2 v.1 st) as [st'|f]; [|done]. rs.
  destruct (emit_all items st') as [s2|f]; [|done]. rs. cbn [length]. f_equal. f_equal. lia.
Qed.
End emit.

(** The items show the values: their elements, and their scores if wanted *)
Definition shows (withscores : bool) : list value → list value → Prop :=
  Forall2 (λ i v, i.2 = v.2 ∧ (withscores = true → canon i.1 = canon v.1)).

(** ** Walks over a listpack *)

Section zz.
Context `{Arch} `{SetConfig} `{Allocator} `{FloatText} {St : Type} (hd : zrange_result_handler St) `{!HandlerLaws hd}.
Context {zl : list Z} {ps : list pair} (R : zzl_rep zl ps) (rev : bool).

(** The pointers to the pair [j] in the direction *)
Definition ecur (j : nat) : option Z :=
  if decide (j < length ps)%nat then Some (zz_at ps (idx rev (length ps) j)) else None.
Definition scur (j : nat) : option Z :=
  if decide (j < length ps)%nat then Some (lp_at (flat ps) (S (2 * idx rev (length ps) j))) else None.

Lemma ecur_some j : (j < length ps)%nat → ecur j = Some (zz_at ps (idx rev (length ps) j)).
Proof. intros. unfold ecur. by rewrite decide_True. Qed.
Lemma scur_some j : (j < length ps)%nat → scur j = Some (lp_at (flat ps) (S (2 * idx rev (length ps) j))).
Proof. intros. unfold scur. by rewrite decide_True. Qed.

Lemma zz_move j : (j < length ps)%nat → zzl_move rev zl (ecur j) (scur j) = Ok (ecur (S j), scur (S j)).
Proof.
  intros Hj. unfold zzl_move. destruct rev eqn:Er.
  - rewrite ecur_some, scur_some by done. unfold zzlPrev. cbn [nonnull]. rs. rewrite Er. cbn [idx].
    destruct (decide (S j < length ps)%nat) as [Hs|Hs].
    + replace (length ps - S j)%nat with (S (length ps - S (S j))) by lia.
      rewrite (zz_prev_score R) by lia. rs. rewrite (zz_prev_ele R) by lia. rs. cbn [nonnull]. rs.
      rewrite ecur_some, scur_some by done. by rewrite Er.
    + replace (length ps - S j)%nat with 0%nat by lia. change (zz_at ps 0) with (lp_at (flat ps) 0). rewrite (api_prev_first R). 
      * rs. unfold ecur, scur. by rewrite !decide_False.
      * intros E. apply (f_equal length) in E. rewrite length_pflat in E. cbn in E. lia.
  - destruct (lookup_lt_is_Some_2 ps j Hj) as [p Hp]. pose proof (zz_next R j p Hp) as Hn.
    unfold ecur, scur. rewrite Er. cbn [idx]. exact Hn.
Qed.

(** The entry of a pair is emitted as its text. *)
Lemma emit_entry_ok k p score st :
  ps !! k = Some p → emit_entry hd zl (zz_at ps k) score st = emitResultFromCBuffer hd (ent_str p.1) score st.
Proof.
  intros Hk. pose proof (api_value R _ _ (flat_lookup_ele ps k p Hk)) as Hv.
  destruct (zz_ents_ok R k p Hk) as [Hok _]. unfold emit_entry, ent_str, zz_at.
  destruct (ent_value p.1) as [v|s] eqn:Ev.
  - rewrite Hv. rs. apply emit_number. by eapply ent_ok_int.
  - destruct Hv as (q & -> & Hr & _). rs. by rewrite Hr.
Qed.

(** What is emitted for a pair *)
Definition zz_item (withscores : bool) (p : pair) : value :=
  (if withscores then ent_score p.2 else S754_zero false, ent_str p.1).

Lemma zz_shows ws qs : shows ws (zz_item ws <$> qs) (zvals qs).
Proof. apply Forall2_fmap_2, Forall_Forall2_diag, Forall_forall. intros p _. split; [done|]. by intros ->. Qed.

Lemma zz_rank_loop_ok ws : ∀ n j st, (j + n ≤ length ps)%nat →
  zzl_rank_loop hd n zl (ecur j) (scur j) ws rev st = emit_all hd (zz_item ws <$> take n (drop j (dirl rev ps))) st.
Proof.
  induction n as [|n IH]; intros j st Hn; [done|]. cbn [zzl_rank_loop].
  assert (j < length (dirl rev ps))%nat as Hj by (rewrite length_dirl; lia).
  destruct (lookup_lt_is_Some_2 _ j Hj) as [p Hp]. rewrite (drop_S _ p j Hp). cbn [take fmap list_fmap emit_all].
  rewrite length_dirl in Hj. rewrite dirl_lookup in Hp by done. rewrite ecur_some, scur_some by done. cbn [nonnull]. rs.
  assert ((if ws then zzlGetScore zl (Some (lp_at (flat ps) (S (2 * idx rev (length ps) j)))) else Ok (S754_zero false)) =
    Ok (if ws then ent_score p.2 else S754_zero false)) as ->.
  { destruct ws; [|done]. by rewrite (zz_get_score R _ p Hp). }
  rs. rewrite (emit_entry_ok _ p _ _ Hp). unfold zz_item at 1 2. cbn [fst snd].
  destruct (emitResultFromCBuffer hd _ _ st) as [st'|f]; [|done]. rs.
  rewrite <- ecur_some, <- scur_some by done. rewrite zz_move by done. rs. apply IH. lia.
Qed.
Lemma ecur_none j : (length ps ≤ j)%nat → ecur j = None.
Proof. intros. unfold ecur. rewrite decide_False by lia. done. Qed.
Lemma scur_none j : (length ps ≤ j)%nat → scur j = None.
Proof. intros. unfold scur. rewrite decide_False by lia. done. Qed.

Lemma zz_skip_ok : ∀ n fuel j, (length ps ≤ j + fuel)%nat →
  zzl_skip fuel rev zl (Z.of_nat n) (ecur j) (scur j) = Ok (ecur (j + n), scur (j + n)).
Proof.
  intros n fuel. revert n. induction fuel as [|fuel IH]; intros n j Hf.
  - rewrite !ecur_none, !scur_none by lia. done.
  - destruct (decide (j < length ps)%nat) as [Hj|Hj]; [|by rewrite !ecur_none, !scur_none by lia].
    pose proof (ecur_some j Hj) as Ej. rewrite Ej. cbn [zzl_skip]. destruct n as [|n].
    + cbn. by rewrite Nat.add_0_r, Ej.
    + replace (Z.of_nat (S n) =? 0) with false by lia. rewrite <- Ej, (zz_move j Hj). rs.
      replace (Z.of_nat (S n) - 1) with (Z.of_nat n) by lia. rewrite IH by lia.
      by replace (S j + n)%nat with (j + S n)%nat by lia.
Qed.

Lemma zz_limit_ok ws inside (t : pair → bool) :
  (∀ k p, ps !! k = Some p → inside (zz_at ps k) = Ok (t p)) →
  ∀ fuel j ds es limit c st, drop j (dirl rev ps) = ds ++ es →
  Forall (λ p, t p = true) ds → head_fails t es →
  (length ps ≤ j + fuel)%nat → 0 ≤ c → c + zlen ds < 2 ^ 64 →
  zzl_limit_loop hd fuel rev ws zl inside limit (ecur j) (scur j) c st =
    counted hd (zz_item ws <$> limited limit ds) c st.
Proof.
  intros Hin. induction fuel as [|fuel IH]; intros j ds es limit c st E Hds Hes Hf Hc Hc2.
  all: destruct (decide (j < length ps)%nat) as [Hj|Hj]; [|].
  1: lia.
  1,3: rewrite drop_ge in E by (rewrite length_dirl; lia); symmetry in E; apply app_eq_nil in E as [-> _];
    rewrite ecur_none by lia; rewrite limited_nil; cbn [fmap list_fmap]; by rewrite counted_nil.
  destruct (lookup_lt_is_Some_2 (dirl rev ps) j) as [p Hp]; [by rewrite length_dirl|].
  rewrite (drop_S _ p j Hp) in E. rewrite dirl_lookup in Hp by done.
  pose proof (ecur_some j Hj) as Ee. pose proof (scur_some j Hj) as Es.
  rewrite Ee. cbn [zzl_limit_loop]. destruct (Z.eqb_spec limit 0) as [->|Hl].
  { rewrite limited_zero. cbn [fmap list_fmap]. by rewrite counted_nil. }
  assert ((if ws then zzlGetScore zl (scur j) else Ok (S754_zero false)) =
    Ok (zz_item ws p).1) as ->.
  { rewrite Es. destruct ws; [|done]. by rewrite (zz_get_score R _ p Hp). }
  rs. rewrite (Hin _ p Hp). rs. destruct ds as [|q ds]; cbn [app] in E.
  - destruct es as [|q es]; [done|]. injection E as <- _. rewrite (head_fails_cons _ _ _ Hes). cbn [negb].
    rewrite limited_nil. cbn [fmap list_fmap]. by rewrite counted_nil.
  - injection E as <- E. apply Forall_cons in Hds as [-> Hds]. cbn [negb].
    rewrite limited_cons by done. cbn [fmap list_fmap]. rewrite counted_cons. cbn [length] in Hc2.
    rewrite (emit_entry_ok _ p _ _ Hp). change (zz_item ws p).2 with (ent_str p.1).
    destruct (emitResultFromCBuffer hd _ _ st) as [st'|f]; [|done]. rs.
    rewrite <- Ee, (zz_move j Hj). rs. rewrite u64_small by lia. by apply (IH _ _ es); try lia.
Qed.
End zz.

(** ** Walks over a skiplist *)

Section sl.
Context `{Arch} `{SetConfig} `{Allocator} {St : Type} (hd : zrange_result_handler St).
Context {h : zheap} {z : zskiplist} {xs : list zent} (R : zsl_inv h z xs) (rev : bool).

Definition lcur (j : nat) : option ptr := ze_ptr <$> dirl rev xs !! j.

Lemma sl_facts j x : dirl rev xs !! j = Some x →
  zslGetNodeElement h (ze_ptr x) = Ok (ze_ele x) ∧
  (∃ n, node h (ze_ptr x) = Ok n ∧ zn_score n = ze_score x) ∧ zsl_move rev h (ze_ptr x) = Ok (lcur (S j)).
Proof.
  intros Hj. unfold lcur. destruct rev; cbn [dirl] in *.
  - pose proof (lookup_lt_Some _ _ _ Hj) as Hlt. rewrite length_reverse in Hlt.
    rewrite reverse_lookup in Hj by done. apply list_elem_of_split_length in Hj as (a & b & -> & Ha).
    destruct (node_facts h z a x b h R eq_refl) as (H1' & (n & Hn & Hs & Hb) & _). rewrite length_app in *. cbn [length] in *.
    split; [done|]. split; [by exists n|]. cbn [zsl_move]. rewrite Hn. rs. rewrite Hb. do 2 f_equal.
    rewrite reverse_app, reverse_cons, lookup_app_r by (rewrite length_app, length_reverse; cbn; lia).
    rewrite length_app, length_reverse. cbn [length]. replace (S j - (length b + 1))%nat with 0%nat by lia.
    by rewrite <- head_reverse, head_lookup_0.
  - apply list_elem_of_split_length in Hj as (a & b & -> & Ha).
    destruct (node_facts h z a x b h R eq_refl) as (H1' & (n & Hn & Hs & _) & (s & Hf)).
    split; [done|]. split; [by exists n|]. cbn [zsl_move]. rewrite Hf. rs. cbn [forward]. do 2 f_equal.
    rewrite lookup_app_r by lia. replace (S j - length a)%nat with 1%nat by lia. by destruct b.
Qed.

Lemma sl_rank_loop_ok : ∀ n j st, (j + n ≤ length xs)%nat →
  zsl_rank_loop hd n h (lcur j) rev st = emit_all hd (eval <$> take n (drop j (dirl rev xs))) st.
Proof.
  induction n as [|n IH]; intros j st Hn; [done|]. cbn [zsl_rank_loop].
  destruct (lookup_lt_is_Some_2 (dirl rev xs) j) as [x Hx]; [rewrite length_dirl; lia|].
  rewrite (drop_S _ x j Hx). cbn [take fmap list_fmap emit_all]. unfold lcur at 1. rewrite Hx.
  cbn [fmap option_fmap option_map nonnull]. rs. destruct (sl_facts j x Hx) as (-> & (n' & -> & Hs) & Hm). rs.
  rewrite Hs. change (emitResultFromCBuffer hd (ze_ele x) (ze_score x) st) with (emitResultFromCBuffer hd (eval x).2 (eval x).1 st).
  destruct (emitResultFromCBuffer hd _ _ st) as [st'|f]; [|done]. rs. rewrite Hm. rs. apply IH. lia.
Qed.

Lemma sl_limit_ok inside (t : zent → bool) :
  (∀ x, x ∈ xs → inside (ze_ptr x) = Ok (t x)) →
  ∀ fuel j ds es limit c st, drop j (dirl rev xs) = ds ++ es →
  Forall (λ x, t x = true) ds → head_fails t es →
  (length xs ≤ j + fuel)%nat → 0 ≤ c → c + zlen ds < 2 ^ 64 →
  zsl_limit_loop hd fuel rev h inside limit (lcur j) c st = counted hd (eval <$> limited limit ds) c st.
Proof.
  intros Hin. induction fuel as [|fuel IH]; intros j ds es limit c st E Hds Hes Hf Hc Hc2.
  all: destruct (dirl rev xs !! j) as [x|] eqn:Hx; unfold lcur; rewrite Hx; cbn [fmap option_fmap option_map].
  1: apply lookup_lt_Some in Hx; rewrite length_dirl in Hx; lia.
  1,3: apply lookup_ge_None in Hx; rewrite drop_ge in E by lia; symmetry in E; apply app_eq_nil in E as [-> _];
    rewrite limited_nil; cbn [fmap list_fmap]; by rewrite counted_nil.
  rewrite (drop_S _ x j Hx) in E. cbn [zsl_limit_loop]. destruct (Z.eqb_spec limit 0) as [->|Hl].
  { rewrite limited_zero. cbn [fmap list_fmap]. by rewrite counted_nil. }
  assert (x ∈ xs) as Hxs.
  { apply list_elem_of_lookup_2 in Hx. destruct rev; [|done]. by apply elem_of_reverse. }
  rewrite (Hin x Hxs). rs. destruct ds as [|q ds]; cbn [app] in E.
  - destruct es as [|q es]; [done|]. injection E as <- _. rewrite (head_fails_cons _ _ _ Hes). cbn [negb].
    rewrite limited_nil. cbn [fmap list_fmap]. by rewrite counted_nil.
  - injection E as <- E. apply Forall_cons in Hds as [-> Hds]. cbn [negb].
    rewrite limited_cons by done. cbn [fmap list_fmap]. rewrite counted_cons. cbn [length] in Hc2.
    destruct (sl_facts j x Hx) as (-> & (n' & -> & Hs) & Hm). rs. rewrite Hs. cbn [eval fst snd].
    destruct (emitResultFromCBuffer hd _ _ st) as [st'|f]; [|done]. rs. rewrite Hm. rs.
    rewrite u64_small by lia. by apply (IH _ _ es); try lia.
Qed.
End sl.

(** ** Ranges *)

Lemma drop_app3 {A} n (a b c : list A) : drop (length a + n) (a ++ b ++ c) = drop n b ++ drop (n - length b) c.
Proof. rewrite <- drop_drop, drop_app_length, drop_app. done. Qed.

Lemma Forall_dirl {A} (P : A → Prop) rev (l : list A) : Forall P l → Forall P (dirl rev l).
Proof. destruct rev; cbn [dirl]; by rewrite ?Forall_reverse. Qed.

Section by_range.
Context `{Arch} `{SetConfig} `{Allocator} `{FloatText} {St : Type} (hd : zrange_result_handler St) `{!HandlerLaws hd}.

Lemma by_lp_ok zl ps as_ ds bs gte lte rev ws first inside offset limit st :
  zzl_rep zl ps → ps = as_ ++ ds ++ bs → zz_cut gte lte as_ ds bs → zlen ps < 2 ^ 30 → 0 ≤ offset →
  first = Ok (if decide (ds = []) then None else
              zz_ptr ps (if rev : bool then length as_ + length ds - 1 else length as_)%nat) →
  (∀ k p, ps !! k = Some p → inside (zz_at ps k) = Ok (if rev then gte p else lte p)) →
  (eptr ← first;
   sptr ← match eptr with Some e => lpNext zl e | None => Ok None end;
   '(eptr, sptr) ← zzl_skip (length zl) rev zl offset eptr sptr;
   zzl_limit_loop hd (length zl) rev ws zl inside limit eptr sptr 0 st) =
  counted hd (zz_item ws <$> limited limit (drop (Z.to_nat offset) (dirl rev ds))) 0 st.
Proof.
  intros R E C Hlen Ho -> Hin. rs. destruct (decide (ds = [])) as [->|Hne].
  - assert (dirl rev (@nil pair) = []) as -> by by destruct rev. rs. rewrite drop_nil, limited_nil.
    cbn [fmap list_fmap]. rewrite counted_nil. by destruct (length zl).
  - pose proof (zz_count R) as Hc. pose proof (f_equal length E) as El. rewrite !length_app in El.
    assert (length ds ≠ 0%nat) by by destruct ds.
    set (j := length (if rev then reverse bs else as_)).
    assert (j < length ps)%nat as Hj by (unfold j; destruct rev; rewrite ?length_reverse; lia).
    assert (zz_ptr ps (if rev then length as_ + length ds - 1 else length as_)%nat = ecur (ps := ps) rev j) as ->.
    { rewrite ecur_some by done. rewrite zz_ptr_some by (destruct rev; lia). f_equal. f_equal.
      unfold j, idx. destruct rev; rewrite ?length_reverse; lia. }
    destruct (lookup_lt_is_Some_2 ps (idx rev (length ps) j)) as [p Hp]; [unfold idx; destruct rev; lia|].
    rewrite ecur_some by done. rewrite (zz_next_score R _ p Hp). rs. rewrite <- ecur_some, <- scur_some by done.
    replace offset with (Z.of_nat (Z.to_nat offset)) at 1 by lia. rewrite (zz_skip_ok R) by lia. rs.
    pose proof (drop_app3 (Z.to_nat offset) (if rev then reverse bs else as_) (dirl rev ds) (if rev then reverse as_ else bs)) as Ed.
    rewrite <- dirl_app3, <- E in Ed. fold j in Ed.
    eapply (zz_limit_ok hd R rev ws inside (λ p, if rev then gte p else lte p) Hin); [exact Ed| | |lia|lia|].
    + apply Forall_drop, Forall_dirl. destruct rev; [|by apply (cut_in _ _ _ _ _ C)].
      pose proof (cut_gte _ _ _ _ _ C) as F. by apply Forall_app in F as [F _].
    + apply head_fails_all, Forall_drop. destruct rev; [apply Forall_reverse|]; apply C.
    + rewrite length_drop, length_dirl. lia.
Qed.

Lemma nth_dirl xs1 ds (rev : bool) offset : 0 ≤ offset →
  fst <$> nth_spec xs1 ds (if rev then - offset - 1 else offset) = ze_ptr <$> dirl rev ds !! Z.to_nat offset.
Proof.
  intros Ho. unfold nth_spec. destruct rev; cbn [dirl].
  - replace (0 <=? - offset - 1) with false by lia. destruct (Z.leb_spec 0 (zlen ds + (- offset - 1))).
    + rewrite reverse_lookup by lia. rewrite <- option_fmap_compose. f_equal. f_equal. lia.
    + by rewrite (lookup_ge_None_2 (reverse ds)) by (rewrite length_reverse; lia).
  - replace (0 <=? offset) with true by lia. cbv zeta. replace (0 <=? offset) with true by lia.
    by rewrite <- option_fmap_compose.
Qed.

Lemma by_skl_ok h z xs xs1 ds ys gte lte rev nth inside offset limit st :
  zsl_inv h z xs → xs = xs1 ++ ds ++ ys →
  Forall (λ x, gte x = true ∧ lte x = true) ds → Forall (λ x, gte x = false) xs1 → Forall (λ x, lte x = false) ys →
  (∀ n, is_i64 n → nth n = Ok (nth_spec xs1 ds n)) → 0 ≤ offset ≤ INT64_MAX →
  (∀ x, x ∈ xs → inside (ze_ptr x) = Ok (if rev : bool then gte x else lte x)) →
  (ln ← nth (if rev then - offset - 1 else offset);
   zsl_limit_loop hd (zsl_fuel z) rev h inside limit (fst <$> ln) 0 st) =
  counted hd (eval <$> limited limit (drop (Z.to_nat offset) (dirl rev ds))) 0 st.
Proof.
  intros R E Hds H1' H2' Hn Ho Hin. rewrite Hn by (unfold is_i64; destruct rev; lia). rs. rewrite nth_dirl by lia.
  pose proof (rep_small _ _ _ R) as Hsm. pose proof (f_equal length E) as El. rewrite !length_app in El.
  set (j := length (if rev then reverse ys else xs1)).
  pose proof (drop_app3 (Z.to_nat offset) (if rev then reverse ys else xs1) (dirl rev ds) (if rev then reverse xs1 else ys)) as Ed.
  rewrite <- dirl_app3, <- E in Ed. fold j in Ed.
  destruct (dirl rev ds !! Z.to_nat offset) as [x|] eqn:Ex.
  - assert (ze_ptr <$> Some x = lcur (xs := xs) rev (j + Z.to_nat offset)) as ->.
    { unfold lcur. rewrite E, dirl_app3, lookup_app_r by (unfold j; lia).
      replace (j + Z.to_nat offset - length (if rev then reverse ys else xs1))%nat with (Z.to_nat offset) by (unfold j; lia).
      rewrite lookup_app_l by by eapply lookup_lt_Some. by rewrite Ex. }
    eapply (sl_limit_ok hd R rev inside (λ x, if rev then gte x else lte x) Hin); [exact Ed| | | |lia|].
    + apply Forall_drop, Forall_dirl. eapply Forall_impl; [exact Hds|]. intros y [? ?]. by destruct rev.
    + apply head_fails_all, Forall_drop. by destruct rev; [apply Forall_reverse|].
    + pose proof (inv_fuel R _ [] (eq_sym (app_nil_r _))). cbn [length] in *. lia.
    + rewrite length_drop, length_dirl. lia.
  - apply lookup_ge_None in Ex. rewrite drop_ge by done. rewrite limited_nil. cbn [fmap list_fmap option_fmap option_map].
    rewrite counted_nil. by destruct (zsl_fuel z).
Qed.
End by_range.

(** ** The generic commands *)

(** The elements with the ranks [start] to [end_] *)
Definition ranked (rev : bool) (M : zabs) (start end_ : Z) : list value :=
  match sanitize_indexes (msize M) start end_ with
  | None => []
  | Some (s, e) => take (Z.to_nat (e - s + 1)) (drop (Z.to_nat s) (dirl rev (zseq M)))
  end.

(** The elements in a range after the first [offset] ones, [limit] at most *)
Definition ranged (rev : bool) (offset limit : Z) (l : list value) : list value :=
  if offset <? 0 then [] else limited limit (drop (Z.to_nat offset) (dirl rev l)).

Lemma shows_cval ws items vs : shows ws items vs → shows ws items (cval <$> vs).
Proof.
  intros Hs. apply Forall2_fmap_r. eapply Forall2_impl; [exact Hs|]. intros i v [He Hc]. cbn.
  by rewrite canon_idem.
Qed.

Lemma shows_refl ws l : shows ws l l.
Proof. by apply Forall_Forall2_diag, Forall_forall. Qed.

Section generic.
Context `{Arch} `{SetConfig} `{Allocator} `{NodeAlloc} `{FloatTextLaws}.
Context {St : Type} (hd : zrange_result_handler St) `{!HandlerLaws hd}.

Lemma emission_congr b items st d (run : St → res St) (n : Z) :
  (∀ st, run st = emit_all hd items st) → n = zlen items →
  (st ← beginResultEmission hd b st; st ← run st; finalizeResultEmission hd n st d) = emission hd b items st d.
Proof.
  intros Hr ->. unfold emission. destruct (beginResultEmission hd b st) as [st'|f]; [|done]. rs. by rewrite Hr.
Qed.

Lemma emission_rank items st d (run : St → res St) (n : Z) :
  (∀ st, run st = emit_all hd items st) → zlen items = n →
  (st ← beginResultEmission hd n st; st ← run st; finalizeResultEmission hd n st d) =
    emission hd (zlen items) items st d.
Proof. intros Hr <-. by apply emission_congr. Qed.

(** The walk over the ranks [s] to [e] of a listpack *)
Lemma rank_lp_ok zl ps rev ws s e st :
  zzl_rep zl ps → 0 ≤ s → s ≤ e → e < zlen ps →
  (eptr ← lpSeek zl (if rev : bool then -2 - 2 * s else 2 * s);
   e0 ← nonnull eptr;
   sptr ← lpNext zl e0;
   zzl_rank_loop hd (Z.to_nat (e - s + 1)) zl eptr sptr ws rev st) =
  emit_all hd (zz_item ws <$> take (Z.to_nat (e - s + 1)) (drop (Z.to_nat s) (dirl rev ps))) st.
Proof.
  intros R Hs Hse He. assert (Z.to_nat s < length ps)%nat as Hj by lia.
  assert (lpSeek zl (if rev then -2 - 2 * s else 2 * s) = Ok (ecur (ps := ps) rev (Z.to_nat s))) as ->.
  { rewrite (api_seek R), ecur_some by done. unfold seek_index. rewrite length_pflat. unfold zz_at, idx. destruct rev.
    - replace (-2 - 2 * s <? 0) with true by lia. cbv zeta. replace (_ && _) with true by lia.
      rewrite lp_ptr_some by (rewrite length_pflat; lia). do 2 f_equal. apply (f_equal (lp_at (flat ps))). lia.
    - replace (2 * s <? 0) with false by lia. cbv zeta. replace (_ && _) with true by lia.
      rewrite lp_ptr_some by (rewrite length_pflat; lia). do 2 f_equal. apply (f_equal (lp_at (flat ps))). lia. }
  rs. destruct (lookup_lt_is_Some_2 ps (idx rev (length ps) (Z.to_nat s))) as [p Hp]; [unfold idx; destruct rev; lia|].
  rewrite ecur_some by done. cbn [nonnull]. rs. rewrite (zz_next_score R _ p Hp). rs.
  rewrite <- ecur_some, <- scur_some by done. apply (zz_rank_loop_ok hd R). lia.
Qed.

(** The walk over the ranks [s] to [e] of a skiplist *)
Lemma rank_skl_ok h z xs rev s e st :
  zsl_inv h z xs → 0 ≤ s → s ≤ e → e < zlen xs →
  (ln ← (if rev : bool then
           if s >? 0 then zslGetElementByRank h z (zlen xs - s) else Ok (zsl_tail z)
         else
           if s >? 0 then zslGetElementByRank h z (s + 1)
           else l ← get_level h (zsl_header z) 0; Ok (forward l));
   zsl_rank_loop hd (Z.to_nat (e - s + 1)) h ln rev st) =
  emit_all hd (eval <$> take (Z.to_nat (e - s + 1)) (drop (Z.to_nat s) (dirl rev xs))) st.
Proof.
  intros R Hs Hse He. rewrite <- (sl_rank_loop_ok hd R rev) by lia.
  match goal with |- (ln ← ?x; _) = _ => assert (x = Ok (lcur (xs := xs) rev (Z.to_nat s))) as -> end; [|done].
  unfold lcur. destruct rev; cbn [dirl].
  - rewrite reverse_lookup by lia. destruct (s >? 0) eqn:E.
    + rewrite (element_ok R) by lia. do 3 f_equal. lia.
    + rewrite (rep_tail _ _ _ R), last_lookup. do 3 f_equal. lia.
  - destruct (s >? 0) eqn:E.
    + rewrite (element_ok R) by lia. do 3 f_equal. lia.
    + destruct (next_node h z [] xs R) as (sp & Hn). cbn in Hn. change (default _ _) with (zsl_header z) in Hn.
      rewrite Hn. rs. cbn [forward]. replace (Z.to_nat s) with 0%nat by lia. by rewrite head_lookup_0.
Qed.

Lemma zrange_rank_ok st d key o M start end_ ws rev :
  zset_abs o M →
  ∃ o' items, genericZrangebyrankCommand hd st d key o start end_ ws rev =
      emission hd (zlen items) items st (<[key := KZset o']> d) ∧
    zset_abs o' M ∧ shows ws items (ranked rev M start end_).
Proof.
  intros HM. unfold genericZrangebyrankCommand. destruct (zset_length_ok o M HM) as (o' & -> & HM' & _). rs.
  change (Z.of_nat (size M)) with (msize M). unfold ranked.
  destruct (sanitize_indexes (msize M) start end_) as [[s e]|] eqn:Es.
  2: { exists o', []. split; [|split; [done|constructor]]. by apply (emission_congr 0 [] st _ Ok). }
  apply sanitize_ok in Es as (Hs & Hse & He); [|unfold msize; lia].
  pose proof HM' as (vs & Hr & <-). pose proof (proj1 Hr) as Hv. rewrite msize_zmap in * by done.
  rewrite zseq_zmap, dirl_fmap, <- fmap_drop, <- fmap_take by done. destruct Hr as [_ Hh]. destruct o' as [zl|zs].
  - destruct Hh as (ps & R & <- & _). unfold zvals in He. rewrite length_fmap in He.
    assert (take (Z.to_nat (e - s + 1)) (drop (Z.to_nat s) (dirl rev (zvals ps))) =
      zvals (take (Z.to_nat (e - s + 1)) (drop (Z.to_nat s) (dirl rev ps)))) as ->
      by (unfold zvals; by rewrite dirl_fmap, <- fmap_drop, <- fmap_take).
    eexists _, _. split; [|split; [exact HM'|apply shows_cval, zz_shows]].
    apply emission_rank; [|rewrite length_fmap, length_take, length_drop, length_dirl; lia].
    intros st'. by apply rank_lp_ok.
  - destruct Hh as (xs & [R _] & <- & _). rewrite length_fmap in *. rewrite dirl_fmap, <- fmap_drop, <- fmap_take.
    eexists _, _. split; [|split; [exact HM'|apply shows_cval, shows_refl]].
    apply emission_rank; [|rewrite length_fmap, length_take, length_drop, length_dirl; lia].
    intros st'. by apply rank_skl_ok.
Qed.
(** The walk over a range, in either encoding *)
Definition by_walk (o : zobj) (offset limit : Z) (reverse withscores : bool)
    (zz_first : list Z → res (option Z)) (zz_inside : list Z → Z → res bool)
    (sl_nth : zheap → zskiplist → Z → res (option (ptr * Z))) (sl_inside : zheap → ptr → res bool) (st : St)
    : res (St * Z) :=
  match o with
  | ZListpack zl =>
      eptr ← zz_first zl;
      sptr ← match eptr with Some e => lpNext zl e | None => Ok None end;
      '(eptr, sptr) ← zzl_skip (length zl) reverse zl offset eptr sptr;
      zzl_limit_loop hd (length zl) reverse withscores zl (zz_inside zl) limit eptr sptr 0 st
  | ZSkiplist zs =>
      let h := zs_heap zs in
      ln ← sl_nth h (zs_zsl zs) (if reverse then - offset - 1 else offset);
      zsl_limit_loop hd (zsl_fuel (zs_zsl zs)) reverse h (sl_inside h) limit (fst <$> ln) 0 st
  end.

Lemma by_counted items st d (walk : St → res (St * Z)) :
  (∀ st, walk st = counted hd items 0 st) →
  (st ← beginResultEmission hd (-1) st; '(st, n) ← walk st; finalizeResultEmission hd n st d) =
    emission hd (-1) items st d.
Proof.
  intros Hw. unfold emission. destruct (beginResultEmission hd (-1) st) as [st'|f]; [|done]. rs. rewrite Hw.
  unfold counted. destruct (emit_all hd items st') as [s2|f]; [|done]. by rs.
Qed.

(** The walk emits some elements, or the offset is out of range. *)
Lemma zrange_by_some st d key o M offset limit rev ws zf zi sn si (P : list value → Prop) :
  zset_abs o M → (offset < 0 ∨ msize M ≤ offset → P []) →
  (∀ o vs, zset_rep o vs → zmap vs = M → 0 ≤ offset →
    ∃ items, (∀ st, by_walk o offset limit rev ws zf zi sn si st = counted hd items 0 st) ∧ P items) →
  ∃ o' items, zrange_by hd st d key o offset limit rev ws zf zi sn si =
      emission hd (-1) items st (<[key := KZset o']> d) ∧ zset_abs o' M ∧ P items.
Proof.
  intros HM Hout Hw.
  assert (∀ o', zset_abs o' M → 0 ≤ offset → ∃ items,
    (st ← beginResultEmission hd (-1) st; '(st, n) ← by_walk o' offset limit rev ws zf zi sn si st;
     finalizeResultEmission hd n st (<[key := KZset o']> d)) = emission hd (-1) items st (<[key := KZset o']> d) ∧
    P items) as Hgo.
  { intros o' (vs & Hr & Ez) Ho. destruct (Hw o' vs Hr Ez Ho) as (items & Hi & Hs). exists items. split; [|done].
    by apply by_counted. }
  assert (∀ o', (st ← beginResultEmission hd (-1) st; finalizeResultEmission hd 0 st (<[key := KZset o']> d)) =
    emission hd (-1) [] st (<[key := KZset o']> d)) as Hnil by (intros o'; by apply (emission_congr (-1) [] st _ Ok)).
  unfold zrange_by. destruct (offset <? 0) eqn:E0.
  { exists o, []. split; [|split; [done|apply Hout; lia]]. rewrite <- Hnil. by destruct (beginResultEmission hd (-1) st). }
  destruct (offset >? 0) eqn:E1.
  - destruct (zset_length_ok o M HM) as (o' & -> & HM' & _). change (Z.of_nat (size M)) with (msize M).
    destruct (offset >=? msize M) eqn:E2.
    + exists o', []. split; [rewrite <- Hnil; destruct (beginResultEmission hd (-1) st); rs; by rewrite ?E2|].
      split; [done|apply Hout; lia].
    + destruct (Hgo o' HM' ltac:(lia)) as (items & Hi & Hs). exists o', items. split; [|done].
      rewrite <- Hi. destruct (beginResultEmission hd (-1) st); rs; by rewrite ?E2.
  - destruct (Hgo o HM ltac:(lia)) as (items & Hi & Hs). exists o, items. split; [|done].
    rewrite <- Hi. by destruct (beginResultEmission hd (-1) st).
Qed.

Lemma zrange_by_ok st d key o M offset limit rev ws zf zi sn si (l : list value) :
  zset_abs o M → zlen l ≤ msize M →
  (∀ o vs, zset_rep o vs → zmap vs = M → 0 ≤ offset →
    ∃ items, (∀ st, by_walk o offset limit rev ws zf zi sn si st = counted hd items 0 st) ∧
      shows ws items (limited limit (drop (Z.to_nat offset) (dirl rev l)))) →
  ∃ o' items, zrange_by hd st d key o offset limit rev ws zf zi sn si =
      emission hd (-1) items st (<[key := KZset o']> d) ∧
    zset_abs o' M ∧ shows ws items (ranged rev offset limit l).
Proof.
  intros HM Hl Hw. apply zrange_by_some; [done| |]; unfold ranged.
  - intros Ho. destruct (Z.ltb_spec offset 0); [constructor|]. rewrite drop_ge by (rewrite length_dirl; lia).
    rewrite limited_nil. constructor.
  - intros o' vs Hr Ez Ho. rewrite (proj2 (Z.ltb_ge offset 0) Ho). by apply (Hw o' vs).
Qed.

Lemma filter_cval (P : value → Prop) `{∀ v, Decision (P v)} (vs : list value) :
  (∀ v, P (cval v) ↔ P v) → filter P (cval <$> vs) = cval <$> filter P vs.
Proof.
  intros HP. induction vs as [|v vs IH]; [done|]. rewrite fmap_cons, !filter_cons. rewrite IH.
  destruct (decide (P (cval v))) as [Hc|Hc], (decide (P v)) as [Hp|Hp]; [done| | |done]; exfalso; naive_solver.
Qed.

Lemma zseq_length M : length (zseq M) = size M.
Proof. unfold zseq. by rewrite merge_sort_Permutation, length_fmap, length_map_to_list. Qed.

Lemma filter_zseq_length (P : value → Prop) `{∀ v, Decision (P v)} M : zlen (filter P (zseq M)) ≤ msize M.
Proof. pose proof (length_filter P (zseq M)) as Hl. rewrite zseq_length in Hl. unfold msize. lia. Qed.

Lemma limited_filter (P : value → Prop) `{∀ v, Decision (P v)} {A} (f : A → value) (Q : A → Prop)
    `{∀ a, Decision (Q a)} limit n rev (l : list A) :
  (∀ v, P (cval v) ↔ P v) → (∀ a, P (f a) ↔ Q a) →
  limited limit (drop n (dirl rev (filter P (cval <$> (f <$> l))))) =
    cval <$> (f <$> limited limit (drop n (dirl rev (filter Q l)))).
Proof.
  intros HP HQ. rewrite filter_cval by done.
  assert (filter P (f <$> l) = f <$> filter Q l) as ->.
  { induction l as [|a l IH]; [done|]. rewrite fmap_cons, !filter_cons, IH.
    destruct (decide (P (f a))) as [Hc|Hc], (decide (Q a)) as [Hp|Hp]; [done| | |done]; exfalso; naive_solver. }
  by rewrite !dirl_fmap, <- !fmap_drop, !limited_fmap.
Qed.

Lemma zrange_score_ok st d key o M r offset limit ws rev :
  zset_abs o M → offset ≤ INT64_MAX → isnan (zr_min r) = false → isnan (zr_max r) = false →
  ∃ o' items, genericZrangebyscoreCommand hd st d key r o offset limit rev =
      emission hd (-1) items st (<[key := KZset o']> d) ∧
    zset_abs o' M ∧ shows ws items (ranged rev offset limit (filter (by_score r true) (zseq M))).
Proof.
  intros HM Ho Hmin Hmax. unfold genericZrangebyscoreCommand.
  edestruct (zrange_by_ok st d key o M offset limit rev true) as (o' & items & E & HM' & Hs); [done| | |].
  3: { exists o', items. split; [exact E|]. split; [done|]. eapply Forall2_impl; [exact Hs|]. intros i v [? Hc]. split; [done|]. intros _. by apply Hc. }
  { apply filter_zseq_length. }
  intros [zl|zs] vs [Hv Hh] <- Ho'; cbn [by_walk]; rewrite zseq_zmap by done.
  - pose proof (lp_holds_len _ _ Hh) as Hlen. destruct Hh as (ps & R & <- & Hok & _).
    unfold zvals in Hlen. rewrite length_fmap in Hlen.
    destruct (zz_score_ends zl ps r R (vals_sorted _ Hv) (zvals_nan ps Hv) Hmin Hmax) as (as_ & bs & Ep & C & Hf & Hl).
    unfold zvals. rewrite (limited_filter (by_score r true) zval (in_scores r true));
      [|intros v; apply by_score_canon, canon_idem|done].
    eexists. split; [|apply shows_cval, zz_shows]. intros st'.
    eapply (by_lp_ok hd zl ps as_ _ bs _ _ rev true _ _ _ _ _ R Ep C Hlen Ho').
    + destruct rev; [apply Hl|apply Hf].
    + intros k p Hp. destruct rev; [by apply (score_gte_ok R)|by apply (score_lte_ok R)].
  - destruct Hh as (xs & [R _] & <- & _).
    destruct (nth_scores_ok _ _ xs r R Hmin Hmax) as (xs1 & ys & Ex & H1' & H2' & Hn).
    rewrite (limited_filter (by_score r true) eval (in_score_range r true));
      [|intros v; apply by_score_canon, canon_idem|done].
    eexists. split; [|apply shows_cval, shows_refl]. intros st'.
    eapply (by_skl_ok hd _ _ xs xs1 _ ys _ _ rev _ _ _ _ _ R Ex); [|exact H1'|exact H2'|exact Hn|lia|].
    + apply Forall_forall. intros x [Hx _]%list_elem_of_filter. by apply andb_true_iff in Hx.
    + intros x Hx. destruct (inv_data R x Hx) as (Dx & Hh & _).
      destruct rev; by apply (score_test_ok (view_self (zs_heap zs))).
Qed.
Lemma zrange_lex_ok st d key o M r offset limit ws rev :
  zset_abs o M → offset ≤ INT64_MAX → one_scored M →
  ∃ o' items, genericZrangebylexCommand hd st d key r o ws offset limit rev =
      emission hd (-1) items st (<[key := KZset o']> d) ∧
    zset_abs o' M ∧ shows ws items (ranged rev offset limit (filter (by_lex r true) (zseq M))).
Proof.
  intros HM Ho Hone. unfold genericZrangebylexCommand. apply zrange_by_ok; [done|apply filter_zseq_length|].
  intros [zl|zs] vs [Hv Hh] <- Ho'; cbn [by_walk]; rewrite zseq_zmap by done;
    pose proof (one_scored_vals vs Hv Hone) as Hos.
  - pose proof (lp_holds_len _ _ Hh) as Hlen. destruct Hh as (ps & R & <- & Hok & _).
    unfold zvals in Hlen. rewrite length_fmap in Hlen.
    destruct (zz_lex_ends zl ps r R (vals_sorted _ Hv)) as (as_ & bs & Ep & C & Hf & Hl).
    { intros p q Hp Hq. apply (Hos (zval p) (zval q)); by apply list_elem_of_fmap_2. }
    unfold zvals. rewrite (limited_filter (by_lex r true) zval (in_lex r true)) by done.
    eexists. split; [|apply shows_cval, zz_shows]. intros st'.
    eapply (by_lp_ok hd zl ps as_ _ bs _ _ rev ws _ _ _ _ _ R Ep C Hlen Ho').
    + destruct rev; [apply Hl|apply Hf].
    + intros k p Hp. destruct rev; [by apply (lex_gte_ok R)|by apply (lex_lte_ok R)].
  - destruct Hh as (xs & [R _] & <- & _).
    destruct (nth_lex_ok _ _ xs r R) as (xs1 & ys & Ex & H1' & H2' & Hn).
    { intros x y Hx Hy. apply (Hos (eval x) (eval y)); by apply list_elem_of_fmap_2. }
    rewrite (limited_filter (by_lex r true) eval (in_lex_range r true)) by done.
    eexists. split; [|apply shows_cval, shows_refl]. intros st'.
    eapply (by_skl_ok hd _ _ xs xs1 _ ys _ _ rev _ _ _ _ _ R Ex); [|exact H1'|exact H2'|exact Hn|lia|].
    + apply Forall_forall. intros x [Hx _]%list_elem_of_filter. by apply andb_true_iff in Hx.
    + intros x Hx. destruct (inv_data R x Hx) as (Dx & Hh & _).
      destruct rev; by apply (ele_test_ok (view_self (zs_heap zs))).
Qed.

(** *** Any range *)

(** What a range of a set selects *)
Definition zrange_items (M : zabs) (o : zrange_opts) (rev : bool) (range : range_arg) : list value :=
  match range with
  | ByRank start end_ => ranked rev M start end_
  | ByScore r => ranged rev (zo_offset o) (zo_limit o) (filter (by_score r true) (zseq M))
  | ByLex r => ranged rev (zo_offset o) (zo_limit o) (filter (by_lex r true) (zseq M))
  end.

(** The ranges that the commands take: bounds are numbers, and lexicographic
    ranges need equal scores. *)
Definition range_ok (M : zabs) (range : range_arg) : Prop :=
  match range with
  | ByRank _ _ => True
  | ByScore r => isnan (zr_min r) = false ∧ isnan (zr_max r) = false
  | ByLex _ => one_scored M
  end.

Lemma zrange_any_ok st d key z M o ws rev range :
  zset_abs z M → zo_offset o ≤ INT64_MAX → range_ok M range →
  ∃ z' b items, match range with
      | ByRank start end_ => genericZrangebyrankCommand hd st d key z start end_ ws rev
      | ByScore r => genericZrangebyscoreCommand hd st d key r z (zo_offset o) (zo_limit o) rev
      | ByLex r => genericZrangebylexCommand hd st d key r z ws (zo_offset o) (zo_limit o) rev
      end = emission hd b items st (<[key := KZset z']> d) ∧
    zset_abs z' M ∧ shows ws items (zrange_items M o rev range) ∧ (b = zlen items ∨ b = -1).
Proof.
  intros HM Ho Hr. destruct range as [start end_|r|r].
  - destruct (zrange_rank_ok st d key z M start end_ ws rev HM) as (z' & items & E & HM' & Hs). eauto 10.
  - destruct Hr. destruct (zrange_score_ok st d key z M r (zo_offset o) (zo_limit o) ws rev HM) as (z' & items & E & HM' & Hs); [done..|].
    eauto 10.
  - destruct (zrange_lex_ok st d key z M r (zo_offset o) (zo_limit o) ws rev HM) as (z' & items & E & HM' & Hs); [done..|].
    eauto 10.
Qed.

(** The selected elements are elements of the set, each selected once. *)
Lemma dirl_perm {A} rev (l : list A) : dirl rev l ≡ₚ l.
Proof. destruct rev; [apply reverse_Permutation|done]. Qed.

Lemma ranged_sub rev offset limit l : ranged rev offset limit l ⊆+ l.
Proof.
  unfold ranged, limited. destruct (offset <? 0); [apply submseteq_nil_l|]. trans (dirl rev l); [|by rewrite dirl_perm].
  apply sublist_submseteq. destruct (limit <? 0); [apply sublist_drop|].
  etrans; [apply sublist_take|apply sublist_drop].
Qed.

Lemma zrange_items_sub M o rev range : zrange_items M o rev range ⊆+ zseq M.
Proof.
  destruct range as [start end_|r|r]; cbn [zrange_items].
  - unfold ranked. destruct (sanitize_indexes _ _ _) as [[s e]|]; [|apply submseteq_nil_l].
    trans (dirl rev (zseq M)); [|by rewrite dirl_perm]. apply sublist_submseteq. etrans; [apply sublist_take|apply sublist_drop].
  - etrans; [apply ranged_sub|]. apply sublist_submseteq, sublist_filter.
  - etrans; [apply ranged_sub|]. apply sublist_submseteq, sublist_filter.
Qed.

Lemma submseteq_nodup {A B} (f : A → B) (l k : list A) : l ⊆+ k → NoDup (f <$> k) → NoDup (f <$> l).
Proof. intros (k' & Hp)%submseteq_Permutation. rewrite Hp, fmap_app. by intros [? _]%NoDup_app. Qed.
End generic.
