(* ===== verification/ZrangeCmd.v ===== *)
(** The commands of the ZRANGE family against their specification: the replies of
    the ones that read, and the set that ZRANGESTORE stores. *)

From S2P Require Import Prelude Numstr Sds Listpack LpNav LpApi Skiplist SklRep SklMod SklDel.
From S2P Require Import Double Object Zzl ZzlRep Zset ZsetRep ZsetSkl ZsetConv ZsetSpec ZsetApi.
From S2P Require Import ZsetCmd ZsetRange ZsetCmdSpec ZsetCmdRefine Zrange ZrangeSpec.
From S2P Require Import Endian SetType SetRep Keyspace KeyspaceRep.
From Stdlib Require Import SpecFloat.

(** ** Specification *)

(** The reply with the elements [l]: pairs are nested from version 3 of the
    protocol on, and flat before. *)
Definition zrange_reply (resp : Z) (ws : bool) (l : list value) : list reply :=
  ReplyArrayLen (if ws && (resp =? 2) then zlen l * 2 else zlen l) ::
  (l ≫= λ v, (if ws && (resp >? 2) then [ReplyArrayLen 2] else []) ++
             [ReplyBulk v.2] ++ (if ws then [ReplyDouble v.1] else [])).

Definition zrange_spec `{FloatText} (A : adb) (argv : list (list Z)) (resp : Z) (rangetype : zrange_type)
    (direction : zrange_direction) : adb * list effect :=
  match zrange_parse argv 1 false rangetype direction with
  | inr r => (A, [Reply r])
  | inl (o, rev, range) =>
      on_set A (arg argv 1) ReplyEmptyArray (λ M,
        (A, Reply <$> zrange_reply resp (zo_withscores o) (zrange_items M o rev range)))
  end.

(** The selected elements are stored; nothing selected deletes the destination. *)
Definition store_spec (A : adb) (dst : list Z) (l : list value) : adb * list effect :=
  match l with
  | [] =>
      match A !! dst with
      | Some _ => (delete dst A, [Reply czero; KeyModified dst false; Notify "del" dst; Dirty 1])
      | None => (A, [Reply czero])
      end
  | _ =>
      (<[dst := AZset (zmap l)]> A,
       match A !! dst with
       | None => []
       | Some (AZset _) => [Notify "overwritten" dst]
       | Some (AOther _) => [Notify "overwritten" dst; Notify "type_changed" dst]
       end ++ [KeyModified dst true; Reply (ReplyLongLong (zlen l)); Notify "zrangestore" dst; Dirty 1])
  end.

Definition zrangestore_spec `{FloatText} (A : adb) (argv : list (list Z)) : adb * list effect :=
  match zrange_parse argv 2 true ZRANGE_AUTO ZRANGE_DIRECTION_AUTO with
  | inr r => (A, [Reply r])
  | inl (o, rev, range) =>
      match A !! arg argv 2 with
      | Some (AOther _) => (A, [Reply wrongtypeerr])
      | Some (AZset M) => store_spec A (arg argv 1) (zrange_items M o rev range)
      | None => store_spec A (arg argv 1) []
      end
  end.

(** ** Arguments *)

Section parse.
Context `{FloatText}.

Lemma get_long_ok o msg v : getLongFromObjectOrReply o msg = inl v → v ≤ INT64_MAX.
Proof.
  unfold getLongFromObjectOrReply. destruct (getLongLongFromObjectOrReply _ _); [|done].
  destruct (_ || _) eqn:E; [done|]. intros [= ->]. lia.
Qed.

Lemma zrange_options_ok store n : ∀ args o, (length args ≤ n)%nat → zo_offset o ≤ INT64_MAX →
  match zrange_options args store o with
  | inl o' => zo_offset o' ≤ INT64_MAX
  | inr r => canon_eff (Reply r) = Reply r
  end.
Proof.
  induction n as [|n IH]; intros [|a rest] o Hn Ho; cbn [zrange_options length] in *; try done; [lia|].
  assert (∀ o', zo_offset o' = zo_offset o → match zrange_options rest store o' with
    inl o' => zo_offset o' ≤ INT64_MAX | inr r => canon_eff (Reply r) = Reply r end) as Hrest.
  { intros o' E. apply IH; [lia|]. by rewrite E. }
  destruct (negb store && _); [by apply Hrest|].
  assert (match (if bool_decide (zo_direction o = ZRANGE_DIRECTION_AUTO) && strcaseeq a "rev" then
      zrange_options rest store
        (ZOpts (zo_withscores o) (zo_offset o) (zo_limit o) ZRANGE_DIRECTION_REVERSE (zo_rangetype o))
    else if bool_decide (zo_rangetype o = ZRANGE_AUTO) && strcaseeq a "bylex" then
      zrange_options rest store (ZOpts (zo_withscores o) (zo_offset o) (zo_limit o) (zo_direction o) ZRANGE_LEX)
    else if bool_decide (zo_rangetype o = ZRANGE_AUTO) && strcaseeq a "byscore" then
      zrange_options rest store (ZOpts (zo_withscores o) (zo_offset o) (zo_limit o) (zo_direction o) ZRANGE_SCORE)
    else inr syntaxerr) with inl o' => zo_offset o' ≤ INT64_MAX | inr r => canon_eff (Reply r) = Reply r end) as Hgo.
  { repeat (destruct (_ && _); [by apply Hrest|]). done. }
  destruct (strcaseeq a "limit"), rest as [|off [|lim rest]]; try exact Hgo.
  destruct (getLongFromObjectOrReply (RStr off) None) as [v|r] eqn:E1; [|by eapply get_long_err].
  destruct (getLongFromObjectOrReply (RStr lim) None) as [w|r] eqn:E2; [|by eapply get_long_err].
  apply IH; [cbn [length] in *; lia|]. by apply get_long_ok in E1.
Qed.

Lemma zrange_parse_ok argv start store rangetype direction :
  match zrange_parse argv start store rangetype direction with
  | inl (o, rev, range) =>
      zo_offset o ≤ INT64_MAX ∧
      match range with ByScore r => isnan (zr_min r) = false ∧ isnan (zr_max r) = false | _ => True end
  | inr r => canon_eff (Reply r) = Reply r
  end.
Proof.
  unfold zrange_parse.
  pose proof (zrange_options_ok store _ (drop (start + 3) argv) (ZOpts false 0 (-1) direction rangetype) (Nat.le_refl _)) as Ho.
  destruct (zrange_options _ _ _) as [o|r]; [|by apply Ho]. specialize (Ho ltac:(done)).
  cbv zeta. destruct (negb _ && _); [done|]. destruct (zo_withscores o && _); [done|].
  destruct (if _ : bool then _ else _) as [mn mx].
  assert (match (match getLongFromObjectOrReply (RStr mn) None with
      | inr r => inr r
      | inl start =>
          match getLongFromObjectOrReply (RStr mx) None with
          | inr r => inr r
          | inl end_ => inl (o, bool_decide (zo_direction o = ZRANGE_DIRECTION_REVERSE), ByRank start end_)
          end
      end) with
    | inl (o, rev, range) => zo_offset o ≤ INT64_MAX ∧
        match range with ByScore r => isnan (zr_min r) = false ∧ isnan (zr_max r) = false | _ => True end
    | inr r => canon_eff (Reply r) = Reply r end) as Hrank.
  { destruct (getLongFromObjectOrReply (RStr mn) None) as [v|r] eqn:E1; [|by eapply get_long_err].
    destruct (getLongFromObjectOrReply (RStr mx) None) as [w|r] eqn:E2; [|by eapply get_long_err]. done. }
  destruct (zo_rangetype o); try exact Hrank.
  - destruct (zslParseRange _ _ _) as [r|] eqn:E; [|done]. split; [done|]. by eapply parse_range_nan.
  - by destruct (zslParseLexRange _ _).
Qed.
End parse.

(** ** Replies *)

Section client.
Context `{Arch} `{SetConfig} `{Allocator} `{NodeAlloc} `{FloatTextLaws} `{Server}.

Lemma client_emit items : ∀ h, emit_all client_ops items h = Ok (ch_add h
  (items ≫= λ v, (if ch_should_emit_array_length h then [ReplyArrayLen 2] else []) ++
                 [ReplyBulk v.2] ++ (if ch_withscores h then [ReplyDouble v.1] else []))).
Proof.
  induction items as [|v items IH]; intros [resp ws al u out]; cbn [emit_all mbind list_bind].
  - unfold ch_add. cbn. by rewrite app_nil_r.
  - cbn [client_ops emitResultFromCBuffer]. unfold zrangeResultEmitCBufferToClient. rs. rewrite IH.
    unfold ch_add. cbn [ch_resp ch_withscores ch_should_emit_array_length ch_userdata ch_out].
    by rewrite <- (assoc_L (++)).
Qed.

(** The handler for a client, with or without scores *)
Definition client_start (resp : Z) (ws : bool) : client_handler :=
  let h := ClientHandler resp false false None [] in if ws then client_enable h else h.

Lemma client_emission resp ws b items d :
  b = zlen items ∨ b = -1 →
  ∃ h, emission client_ops b items (client_start resp ws) d = Ok (h, d) ∧ ch_out h = zrange_reply resp ws items.
Proof.
  intros Hb. unfold emission, zrange_reply. cbn [client_ops beginResultEmission finalizeResultEmission].
  assert (client_start resp ws = ClientHandler resp ws (ws && (resp >? 2)) None []) as -> by by destruct ws.
  unfold zrangeResultBeginClient. cbn [ch_resp ch_withscores ch_should_emit_array_length ch_userdata ch_out].
  destruct (Z.gtb_spec b 0) as [Hp|Hp]; rs; rewrite client_emit; rs; unfold ch_add, zrangeResultFinalizeClient;
    cbn [ch_resp ch_withscores ch_should_emit_array_length ch_userdata ch_out length app].
  - eexists. split; [done|]. cbn [ch_out]. by replace b with (zlen items) by lia.
  - eexists. split; [done|]. cbn [ch_out]. done.
Qed.

(** The scores in a reply are those of the set. *)
Lemma reply_canon resp ws items l :
  shows ws items l → (∀ v, v ∈ l → canon v.1 = v.1) →
  canon_eff <$> (Reply <$> zrange_reply resp ws items) = Reply <$> zrange_reply resp ws l.
Proof.
  intros Hs Hc. unfold zrange_reply. rewrite (Forall2_length _ _ _ Hs). cbn [fmap list_fmap canon_eff]. f_equal.
  induction Hs as [|i v items l [He Hsc] Hs IH]; [done|]. cbn [mbind list_bind]. rewrite !fmap_app. f_equal.
  - rewrite He. assert (canon v.1 = v.1) as E by (apply Hc; set_solver). destruct ws; cbn [andb].
    + destruct (resp >? 2); cbn [app fmap list_fmap canon_eff]; by rewrite (Hsc eq_refl), E.
    + done.
  - apply IH. intros w Hw. apply Hc. set_solver.
Qed.

Lemma zseq_facts o M v : zset_abs o M → v ∈ zseq M → canon v.1 = v.1 ∧ score_ok v.1 ∧ ele_ok v.2 ∧ M !! v.2 = Some v.1.
Proof.
  intros (vs & Hr & <-) Hv. rewrite zseq_zmap in Hv by apply Hr. apply list_elem_of_fmap in Hv as (w & -> & Hw).
  pose proof (vals_each _ (proj1 Hr)) as Hall. rewrite Forall_forall in Hall. destruct (Hall w Hw) as [[Hn Hvd] He].
  unfold cval. cbn [fst snd]. split; [apply canon_idem|]. split; [split; [by rewrite isnan_canon|by destruct w as [[]]]|].
  split; [done|]. destruct w as [s e]. apply zmap_in; [apply Hr|done].
Qed.

Lemma items_facts z M o rev range v : zset_abs z M → v ∈ zrange_items M o rev range →
  canon v.1 = v.1 ∧ score_ok v.1 ∧ ele_ok v.2 ∧ M !! v.2 = Some v.1.
Proof. intros HM Hv. apply (zseq_facts z); [done|]. by eapply elem_of_submseteq, zrange_items_sub. Qed.

Lemma zrange_cmd_ok d A argv resp rangetype direction :
  db_abs d A →
  (∀ o rev r, zrange_parse argv 1 false rangetype direction = inl (o, rev, ByLex r) → one_scored (aset A (arg argv 1))) →
  refines (zrange_client d argv resp rangetype direction) (zrange_spec A argv resp rangetype direction).
Proof.
  intros HA Hlex. unfold zrange_client, zrangeGenericCommand, zrange_spec.
  pose proof (zrange_parse_ok argv 1 false rangetype direction) as Hp.
  destruct (zrange_parse argv 1 false rangetype direction) as [[[o rev] range]|r] eqn:Ep.
  2: { rs. eexists _, _. split; [done|]. split; [done|]. cbn [fmap list_fmap snd]. by rewrite Hp. }
  destruct Hp as [Ho Hr]. rewrite orb_false_r. unfold on_set.
  destruct (db_abs_lookup d A (arg argv 1) HA) as [[-> ->]|[(? & ? & -> & -> & _)|(z & M & Ed & EA & HM & Hne)]];
    [rs; by eexists _, _..|].
  rewrite Ed, EA. fold (client_start resp (zo_withscores o)).
  destruct (zrange_any_ok client_ops (client_start resp (zo_withscores o)) d (arg argv 1) z M o (zo_withscores o) rev range HM Ho)
    as (z' & b & items & -> & HM' & Hs & Hb).
  { destruct range as [| |r]; [done|done|]. specialize (Hlex o rev r eq_refl). unfold aset in Hlex. by rewrite EA in Hlex. }
  destruct (client_emission resp (zo_withscores o) b items (<[arg argv 1 := KZset z']> d) Hb) as (h & -> & Hout). rs.
  eapply refines_read; [done|done|done|]. rewrite Hout. apply reply_canon; [done|].
  intros v Hv. by destruct (items_facts z' M o rev range v HM' Hv) as [? _].
Qed.
End client.

(** ** ZRANGESTORE *)

Section store.
Context `{Arch} `{SetConfig} `{Allocator} `{NodeAlloc} `{FloatTextLaws} `{Server}.
Context (max_entries : zset_max_listpack_entries ≤ 2 ^ 26).

(** The elements are added one after the other. *)
Lemma store_emit items : ∀ key o M rnd out k,
  zset_abs o M → Forall (λ v, score_ok v.1 ∧ ele_ok v.2) items →
  Z.of_nat (size M) + zlen items < INT64_MAX → (add_draws M (length items) + k ≤ draws rnd)%nat →
  ∃ o' rnd', emit_all store_ops items (StoreHandler key (Some o) rnd out) =
      Ok (StoreHandler key (Some o') rnd' out) ∧
    zset_abs o' (foldl (λ M v, <[v.2 := canon v.1]> M) M items) ∧ (k ≤ draws rnd')%nat.
Proof.
  unfold add_draws. induction items as [|[s e] items IH]; intros key o M rnd out k HM Hall Hsz Hk; cbn [emit_all foldl].
  { exists o, rnd. split; [done|]. split; [done|]. lia. }
  apply Forall_cons in Hall as [[[Hn Hv] He] Hall]. cbn [length fst snd] in *.
  cbn [store_ops emitResultFromCBuffer]. unfold zrangeResultEmitCBufferForStore.
  cbn [sh_dstobj sh_rnd sh_dstkey sh_out nonnull]. rs.
  destruct (add_ok o M rnd s e ZADD_IN_NONE (length items * S (S (size M) + length items) + k)) as
    (o1 & rnd1 & r & -> & HM1 & Hr & Hk1); [done|done|done|done|lia|lia|]. rs.
  assert (zadd_spec M s e ZADD_IN_NONE =
    (<[e := canon s]> M, ZAdd true (zadd_spec M s e ZADD_IN_NONE).2.(za_out_flags) (Some (canon s)))) as E.
  { unfold zadd_spec. by destruct s, (M !! e). }
  rewrite E in HM1, Hr. cbn [fst snd] in HM1, Hr. apply (f_equal za_ret) in Hr. cbn in Hr. rewrite Hr. rs.
  assert (size (<[e := canon s]> M) ≤ S (size M))%nat as Hsz1.
  { destruct (M !! e) eqn:EM; [rewrite map_size_insert_Some by done; lia|by rewrite map_size_insert_None by done]. }
  apply IH; [done|done|lia|nia].
Qed.

Lemma fold_insert_zmap (l : list value) : NoDup (eles l) → ∀ M : zabs,
  foldl (λ M v, <[v.2 := canon v.1]> M) M l = zmap l ∪ M.
Proof.
  induction l as [|[s e] l IH]; intros Hnd M; cbn [foldl fst snd].
  - unfold zmap. cbn. by rewrite (left_id_L ∅ (∪)).
  - cbn [fmap list_fmap snd] in Hnd. apply NoDup_cons in Hnd as [Hin Hnd]. rewrite IH by done.
    assert (zmap ((s, e) :: l) = <[e := canon s]> (zmap l)) as -> by done.
    rewrite <- insert_union_l. rewrite insert_union_r; [done|].
    apply not_elem_of_list_to_map_1. intros (v & E & Hv)%list_elem_of_fmap. apply Hin.
    apply list_elem_of_fmap in Hv as (w & -> & Hw). cbn in E. apply list_elem_of_fmap. by exists w.
Qed.

Lemma shows_eles items l : shows true items l → eles items = eles l ∧ zmap items = zmap l.
Proof.
  induction 1 as [|[s e] [s' e'] items l [He Hc] Hs [IH1 IH2]]; [done|]. cbn in He, Hc. subst e'. split.
  - cbn [fmap list_fmap snd]. by rewrite IH1.
  - unfold zmap in *. cbn [fmap list_fmap fst snd list_to_map foldr]. by rewrite IH2, (Hc eq_refl).
Qed.

Lemma shows_ok items l : shows true items l →
  Forall (λ v, score_ok v.1 ∧ ele_ok v.2) l → Forall (λ v : value, score_ok v.1 ∧ ele_ok v.2) items.
Proof.
  intros Hs. induction Hs as [|i v items l [He Hc] Hs IH]; [done|]. intros [[[Hn Hv] Hel] Hl]%Forall_cons.
  constructor; [|by apply IH]. rewrite He. split; [|done]. specialize (Hc eq_refl).
  split; [by rewrite <- isnan_canon, Hc, isnan_canon|].
  destruct i as [[] ?], v as [[] ?]; cbn in Hc |- *; try done; by simplify_eq.
Qed.

Lemma zmap_not_empty v (l : list value) : zmap (v :: l) ≠ ∅.
Proof. unfold zmap. cbn [fmap list_fmap list_to_map foldr]. apply insert_non_empty. Qed.

(** What the handler does with the elements that show [l] *)
Lemma store_emission b items l key rnd d A k :
  db_abs d A → shows true items l → NoDup (eles l) → Forall (λ v, score_ok v.1 ∧ ele_ok v.2) l →
  zlen l < INT64_MAX → (add_draws ∅ (length l) + k ≤ draws rnd)%nat →
  ∃ h d', emission store_ops b items (StoreHandler key None rnd []) d = Ok (h, d') ∧
    db_abs d' (store_spec A key l).1 ∧ canon_eff <$> sh_out h = (store_spec A key l).2 ∧ (k ≤ draws (sh_rnd h))%nat.
Proof.
  intros HA Hs Hnd Hall Hsz Hk. pose proof (Forall2_length _ _ _ Hs) as Hlen.
  unfold emission. cbn [store_ops beginResultEmission finalizeResultEmission].
  unfold zrangeResultBeginStore. destruct (type_create_ok (if b >=? 0 then b else 0) 0) as (o & -> & Ho & _). rs.
  cbn [sh_dstkey sh_rnd sh_out].
  destruct (store_emit items key o ∅ rnd [] k Ho (shows_ok items l Hs Hall)) as (o' & rnd' & -> & Ho' & Hk');
    [rewrite map_size_empty; lia|by rewrite Hlen|]. rs.
  destruct (shows_eles items l Hs) as [Eele Emap].
  rewrite fold_insert_zmap, (right_id_L ∅ (∪)) in Ho' by by rewrite Eele. rewrite Emap in Ho'.
  unfold zrangeResultFinalizeStore. cbn [sh_dstobj sh_dstkey sh_rnd sh_out nonnull]. rs. rewrite Hlen.
  pose proof (db_abs_lookup d A key HA) as Hlk. unfold store_spec. destruct l as [|v l].
  - change (negb (zlen [] =? 0)) with false. cbv iota.
    destruct Hlk as [[-> ->]|[(? & ? & -> & -> & _)|(z & M & -> & -> & _)]]; eexists _, _; (split; [done|]); (split; [|by split]);
      [done|by apply db_abs_delete..].
  - replace (negb _) with true by (cbn [length]; lia). unfold setKey. eexists _, _. split; [done|].
    cbn [sh_out sh_rnd fst snd]. split; [|split; [|done]].
    + apply db_abs_insert; [done|]. split; [done|]. apply zmap_not_empty.
    + by destruct Hlk as [[-> ->]|[([] & ? & -> & -> & _)|(z & M & -> & -> & _)]].
Qed.

(** The set of the key that ZRANGESTORE reads bounds the numbers it draws. *)
Lemma zrangestore_cmd_ok d A rnd argv k :
  db_abs d A → Z.of_nat (size (aset A (arg argv 2))) < INT64_MAX →
  (add_draws ∅ (size (aset A (arg argv 2))) + k ≤ draws rnd)%nat →
  (∀ o rev r, zrange_parse argv 2 true ZRANGE_AUTO ZRANGE_DIRECTION_AUTO = inl (o, rev, ByLex r) →
    one_scored (aset A (arg argv 2))) →
  ∃ d' rnd' effs, zrangestoreCommand d rnd argv = Ok (d', rnd', effs) ∧
    db_abs d' (zrangestore_spec A argv).1 ∧ canon_eff <$> effs = (zrangestore_spec A argv).2 ∧ (k ≤ draws rnd')%nat.
Proof.
  intros HA Hsz Hk Hlex. unfold zrangestoreCommand, zrangeGenericCommand, zrangestore_spec.
  pose proof (zrange_parse_ok argv 2 true ZRANGE_AUTO ZRANGE_DIRECTION_AUTO) as Hp.
  destruct (zrange_parse argv 2 true ZRANGE_AUTO ZRANGE_DIRECTION_AUTO) as [[[o rev] range]|r] eqn:Ep.
  2: { rs. eexists _, _, _. split; [done|]. split; [done|]. split; [|lia]. cbn [fmap list_fmap snd]. by rewrite Hp. }
  destruct Hp as [Ho Hr]. rewrite orb_true_r. unfold id. unfold aset in Hsz, Hk, Hlex.
  destruct (db_abs_lookup d A (arg argv 2) HA) as [[-> Ea]|[(? & ? & -> & Ea & _)|(z & M & Ed & Ea & HM & Hne)]]; rewrite Ea in *.
  - destruct (store_emission (-1) [] [] (arg argv 1) rnd d A k HA) as (h & d' & He & HA' & Hout & Hk');
      [by apply (shows_refl true [])|apply NoDup_nil_2|by apply Forall_nil|done|cbn [add_draws length Nat.mul]; lia|].
    unfold emission in He. cbn [emit_all] in He.
    destruct (beginResultEmission store_ops (-1) _) as [st|]; [|done]. cbn [mbind res_bind length] in He.
    change (Z.of_nat 0) with 0 in He. rs. rewrite He. rs. eexists _, _, _. split; [done|]. done.
  - rs. eexists _, _, _. split; [done|]. split; [done|]. split; [done|lia].
  - rewrite Ed. pose proof (zrange_items_sub M o rev range) as Hsub.
    pose proof (submseteq_length _ _ Hsub) as Hl. rewrite zseq_length in Hl.
    destruct (zrange_any_ok store_ops (StoreHandler (arg argv 1) None rnd []) d (arg argv 2) z M o true rev range HM Ho)
      as (z' & b & items & -> & HM' & Hs & _).
    { destruct range as [| |r]; [done|done|]. by apply (Hlex o rev r). }
    destruct (store_emission b items (zrange_items M o rev range) (arg argv 1) rnd (<[arg argv 2 := KZset z']> d) A k)
      as (h & d' & -> & HA' & Hout & Hk'); [by eapply db_abs_same|done| | |lia|unfold add_draws in *; rewrite map_size_empty in *; nia|].
    + eapply submseteq_nodup; [exact Hsub|]. destruct HM as (vs & Hrep & <-). rewrite zseq_zmap by apply Hrep.
      rewrite <- list_fmap_compose. apply (vals_nodup _ (proj1 Hrep)).
    + apply Forall_forall. intros v Hv. destruct (items_facts z M o rev range v HM Hv) as (_ & ? & ? & _). done.
    + rs. eexists _, _, _. split; [done|]. done.
Qed.
End store.
