(* ===== verification/LexAny.v ===== *)
(** Lexicographic ranges of sorted sets whose scores differ.  The tests of the bounds
    are not monotonic along such a set, and what a range selects depends on the
    encoding and on the levels of the nodes.  Every function still ends without a
    fault, selects elements of the set only, each once, and leaves a sorted set. *)

From S2P Require Import Prelude Numstr Sds Listpack LpNav LpApi Skiplist SklRep SklMod SklDel.
From S2P Require Import SklRank SklSpec Double Object Zzl ZzlRep ZzlMod ZzlSpec Zset.
From S2P Require Import ZsetRep ZsetSkl ZsetConv ZsetSpec ZsetApi ZsetCmd ZsetRange.
From S2P Require Import ZsetCmdSpec ZsetCmdRefine Zrange ZrangeSpec ZrangeCmd.
From S2P Require Import Endian SetType SetRep Keyspace KeyspaceRep.
From Stdlib Require Import SpecFloat.

(** ** Skiplists *)

Section skl.
Context `{Allocator}.

Lemma ele_tests h z xs t : zsl_inv h z xs → ∀ x, x ∈ xs → ele_test h t (ze_ptr x) = Ok (t (ze_ele x)).
Proof. intros R x Hx. destruct (inv_data R x Hx) as (Dx & Hh & _). by apply (ele_test_ok (view_self h)). Qed.

(** A run of nodes is removed. *)
Lemma skl_delete_any h z xs r d : zsl_rep h z xs →
  ∃ xs1 ds ys h' z', xs = xs1 ++ ds ++ ys ∧
    zslDeleteRangeByLex h z r d = Ok (h', z', foldl zdict_delete d (ze_ele <$> ds), zlen ds) ∧
    zsl_rep h' z' (xs1 ++ ys).
Proof.
  intros HR. pose proof HR as [R _]. unfold zslDeleteRangeByLex.
  destruct (search_any R _ _ (ele_tests h z xs (λ e, negb (zslLexValueGteMin e r)) R)) as (us & xs1 & rest & Hd & Hl & E & Hus).
  destruct (prefix_split (λ x, zslLexValueLteMax (ze_ele x) r) rest) as (ds & ys & -> & Hds & Hys). rewrite E in HR.
  destruct (delete_from_ok _ (λ _ h x _, ele_test h (λ e, zslLexValueLteMax e r) x)
    (λ x _, zslLexValueLteMax (ze_ele x) r) us xs1 ds ys h z d HR Hd Hl Hus) as (h' & z' & Hdel & HR').
  - intros h0 z0 x l _ R0. eapply (ele_tests h0 z0 _ (λ e, zslLexValueLteMax e r)); [exact R0|set_solver].
  - intros i x Hx. rewrite Forall_lookup in Hds. by eapply Hds.
  - apply Hys.
  - by exists xs1, ds, ys, h', z'.
Qed.

Lemma skl_nth_any h z xs r n : zsl_inv h z xs → is_i64 n →
  ∃ o, zslNthInLexRange h z r n = Ok o ∧ is_node (xs := xs) o.
Proof.
  intros R Hn. unfold zslNthInLexRange, zslIsInLexRange. cbv zeta.
  pose proof (ele_tests h z xs (λ e, zslLexValueGteMin e r) R) as Hg.
  pose proof (ele_tests h z xs (λ e, zslLexValueLteMax e r) R) as Hl.
  rewrite (ends_ok h z xs _ _ _ _ R Hg Hl).
  destruct (nth_any R _ _ _ _ Hg Hl n Hn) as (o & Ho & Hnode).
  assert (∀ b : bool, ∃ o, nth_in_range h z (Ok b) (ele_test h (λ e, zslLexValueGteMin e r))
    (ele_test h (λ e, zslLexValueLteMax e r)) n = Ok o ∧ is_node (xs := xs) o) as Hb
    by (intros []; [by exists o|by exists None]).
  destruct ((_ >? 0) || _); apply Hb.
Qed.

Lemma skl_count_any h z xs r : zsl_inv h z xs → ∃ n, zsl_count z (zslNthInLexRange h z r) = Ok n.
Proof.
  intros R. unfold zsl_count. destruct (skl_nth_any h z xs r 0 R) as (o & -> & _); [unfold is_i64; lia|]. rs.
  destruct o as [[p rank]|]; [|by eexists]. destruct (skl_nth_any h z xs r (-1) R) as (o & -> & _); [unfold is_i64; lia|]. rs.
  destruct o as [[q rank']|]; by eexists.
Qed.
End skl.

(** ** Listpacks *)

Section zzl.
Context `{Allocator} `{FloatText} {m : list Z} {ps : list pair} (R : zzl_rep m ps).

(** A pair of the listpack inside both bounds, or none *)
Definition is_pair (r : zlexrangespec) (o : option Z) : Prop :=
  o = None ∨ ∃ k p, ps !! k = Some p ∧ o = Some (zz_at ps k) ∧ lex_gte_p r p = true ∧ lex_lte_p r p = true.

Lemma is_pair_none r : is_pair r None.
Proof. by left. Qed.

Lemma first_loop_any r fuel k : (length ps - k ≤ fuel)%nat →
  ∃ o, first_loop fuel m (zzlLexValueGteMin m r) (zzlLexValueLteMax m r) (zz_ptr ps k) = Ok o ∧ is_pair r o.
Proof.
  revert k. induction fuel as [|fuel IH]; intros k Hf;
    (destruct (decide (k < length ps)%nat) as [Hk|Hk];
      [|rewrite zz_ptr_none by lia; eexists; split; [done|apply is_pair_none]]); [lia|].
  destruct (lookup_lt_is_Some_2 ps k Hk) as [p Hp]. rewrite zz_ptr_some by done. cbn [first_loop].
  rewrite (lex_gte_ok R r k p Hp). rs. destruct (lex_gte_p r p) eqn:Eg.
  - rewrite (lex_lte_ok R r k p Hp). rs. eexists. split; [done|]. destruct (lex_lte_p r p) eqn:El; [|by left].
    right. by exists k, p.
  - rewrite (zz_next_score R k p Hp). rs. cbn [nonnull]. rs. rewrite (zz_next_ele R k p Hp). rs. apply IH. lia.
Qed.

Lemma last_loop_any r fuel k : (k ≤ fuel)%nat → (k ≤ length ps)%nat →
  ∃ o, last_loop fuel m (zzlLexValueGteMin m r) (zzlLexValueLteMax m r)
    (match k with O => None | S k => Some (zz_at ps k) end) = Ok o ∧ is_pair r o.
Proof.
  revert k. induction fuel as [|fuel IH]; intros [|k] Hf Hk; try lia;
    [eexists; split; [done|apply is_pair_none]..|].
  destruct (lookup_lt_is_Some_2 ps k ltac:(lia)) as [p Hp]. cbn [last_loop].
  rewrite (lex_lte_ok R r k p Hp). rs. destruct (lex_lte_p r p) eqn:El.
  - rewrite (lex_gte_ok R r k p Hp). rs. eexists. split; [done|]. destruct (lex_gte_p r p) eqn:Eg; [|by left].
    right. by exists k, p.
  - specialize (IH k ltac:(lia) ltac:(lia)). destruct k as [|k].
    + change (zz_at ps 0) with (lp_at (flat ps) 0). rewrite (api_prev_first R); [by rs|].
      intros E%(f_equal length). rewrite length_pflat in E. cbn in E. lia.
    + rewrite (zz_prev_score R) by lia. rs. rewrite (zz_prev_ele R) by lia. rs. cbn [nonnull]. by rs.
Qed.

Lemma zz_first_any r : ∃ o, zzlFirstInLexRange m r = Ok o ∧ is_pair r o.
Proof.
  unfold zzlFirstInLexRange. rewrite (zz_seek_first R). rs. destruct (lex_range_test R r) as [-> _]. rs.
  destruct (negb _); [eexists; split; [done|apply is_pair_none]|]. apply first_loop_any. pose proof (zz_count R). lia.
Qed.

Lemma zz_last_any r : ∃ o, zzlLastInLexRange m r = Ok o ∧ is_pair r o.
Proof.
  unfold zzlLastInLexRange. rewrite (zz_seek_last R). rs. destruct (lex_range_test R r) as [-> _]. rs.
  destruct (negb _); [eexists; split; [done|apply is_pair_none]|]. pose proof (zz_count R) as Hc.
  pose proof (last_loop_any r (length m) (length ps) ltac:(lia) ltac:(lia)) as Hl.
  destruct (decide (ps = [])) as [E|E]; [by rewrite E in Hl|].
  destruct (length ps) as [|n] eqn:En; [by apply nil_length_inv in En|].
  rewrite zz_ptr_some by lia. by replace (S n - 1)%nat with n by lia.
Qed.

(** The pairs from the first one in the range up to the next one beyond it *)
Lemma pair_run r k p : ps !! k = Some p → lex_lte_p r p = true →
  ∃ as_ ds bs, ps = as_ ++ ds ++ bs ∧ k = length as_ ∧ ds ≠ [] ∧
    Forall (λ q, lex_lte_p r q = true) ds ∧ head_fails (lex_lte_p r) bs.
Proof.
  intros Hk Hp. apply list_elem_of_split_length in Hk as (as_ & rest & E & Hlen).
  destruct (prefix_split (lex_lte_p r) rest) as (ds & bs & Er & Hds & Hbs).
  exists as_, (p :: ds), bs. rewrite E, Er. split_and!; try done. by constructor.
Qed.

Lemma zz_delete_any r :
  ∃ as_ ds bs m', ps = as_ ++ ds ++ bs ∧ zzlDeleteRangeByLex m r = Ok (m', zlen ds) ∧ zzl_rep m' (as_ ++ bs).
Proof.
  unfold zzlDeleteRangeByLex. destruct (zz_first_any r) as (o & -> & Ho). rs.
  destruct Ho as [->|(k & p & Hk & -> & _ & Hp)].
  { exists ps, [], [], m. rewrite app_nil_r. split_and!; [done..|by rewrite app_nil_r]. }
  pose proof (lookup_lt_Some _ _ _ Hk) as Hlt. pose proof (zz_count R) as Hc. pose proof (api_total R) as Ht.
  destruct (pair_run r k p Hk Hp) as (as_ & ds & bs & E & -> & Hne & Hds & Hbs).
  rewrite <- zz_ptr_some by done. exists as_, ds, bs.
  assert (zzl_rep m (as_ ++ ds ++ bs)) as R' by (by rewrite <- E). pose proof (f_equal length E) as El.
  rewrite !length_app in El.
  destruct (zz_delete_loop_ok (lex_lte_p r) (λ zl, zzlLexValueLteMax zl r) as_ bs
    (λ m ps k p R, lex_lte_ok R r k p) Hbs ds m (length m) 0 R' Hds) as (m' & Hd & Rm); [lia|lia| |].
  - unfold lp_total in Ht. assert (zlen (flat ps) ≤ zlen (lp_body (flat ps))) as Hb.
    { destruct R as (num & slack & _ & Hwf). pose proof (lp_body_count _ (proj1 Hwf)). lia. }
    rewrite length_pflat in Hb. lia.
  - exists m'. split; [done|]. split; [|done]. rewrite E at 1. by rewrite Hd.
Qed.

Lemma zz_count_any r : zlen ps < 2 ^ 30 →
  ∃ n, zzl_count m (zzlFirstInLexRange m r) (zzlLexValueLteMax m r) = Ok n.
Proof.
  intros Hlen. destruct (zz_first_any r) as (o & -> & Ho).
  destruct Ho as [->|(k & p & Hk & -> & _ & Hp)]; [by exists 0|]. pose proof (lookup_lt_Some _ _ _ Hk) as Hlt.
  destruct (pair_run r k p Hk Hp) as (as_ & ds & bs & E & -> & Hne & Hds & Hbs).
  exists (zlen ds). rewrite <- (zzl_count_ok m ps _ (lex_lte_p r) as_ ds bs R Hlen E (lex_lte_ok R r) Hds Hbs).
  rewrite decide_False by done. by rewrite zz_ptr_some.
Qed.
End zzl.

(** ** Sorted sets *)

Section zset.
Context `{Arch} `{SetConfig} `{Allocator} `{NodeAlloc} `{FloatTextLaws}.

Lemma delete_any o vs r : zset_rep o vs →
  ∃ o' ks, zremrange_delete o (ByLex r) = Ok (o', zlen vs - zlen ks, bool_decide (ks = [])) ∧
    ks `sublist_of` vs ∧ zset_rep o' ks.
Proof.
  intros [Hv Hh]. destruct o as [zl|zs]; unfold zremrange_delete.
  - pose proof Hh as (ps & R & <- & Hok & _).
    destruct (zz_delete_any R r) as (a & ds & b & zl1 & E & -> & R1). rs.
    destruct (zz_length R1) as (zl2 & -> & R2). rs. rewrite (zlen_nil zval).
    assert (a ++ b `sublist_of` ps) as Hs by (rewrite E; apply sublist_app; [done|by apply sublist_inserts_l]).
    exists (ZListpack zl2), (zvals (a ++ b)). split; [|split; [by apply fmap_sublist|by eapply lp_part_ok]].
    do 3 f_equal. unfold zvals. rewrite !length_fmap, E, !length_app. lia.
  - destruct Hh as (xs & R & <- & Hd).
    destruct (skl_delete_any (zs_heap zs) (zs_zsl zs) xs r (zs_dict zs) R) as (a & ds & b & h & z & E & -> & R1). rs.
    destruct (skl_cut_ok zs xs a ds b h z Hd Hv E R1) as [Hrep Hsz]. rewrite Hsz, (length_nil_dec eval).
    exists (ZSkiplist (ZSet h (foldl zdict_delete (zs_dict zs) (ze_ele <$> ds)) z)), (eval <$> (a ++ b)).
    split; [|split; [|done]].
    + do 3 f_equal. rewrite !length_fmap, E, !length_app. lia.
    + rewrite E. apply fmap_sublist, sublist_app; [done|]. by apply sublist_inserts_l.
Qed.

Lemma zmap_sublist ks vs : ks `sublist_of` vs → vals_ok vs → zmap ks ⊆ zmap vs.
Proof.
  intros Hs Hv. apply map_subseteq_spec. intros e s.
  rewrite !zmap_lookup by (apply Hv || (eapply vals_sublist; [exact Hs|done])).
  intros (s' & Hin & <-). exists s'. split; [|done]. by eapply elem_of_submseteq, sublist_submseteq.
Qed.

(** Some elements are removed. *)
Lemma zremrange_any o M r : zset_abs o M →
  ∃ M' o', M' ⊆ M ∧ zremrange_delete o (ByLex r) = Ok (o', msize M - msize M', bool_decide (M' = ∅)) ∧ zset_abs o' M'.
Proof.
  intros (vs & Hr & <-). pose proof (proj1 Hr) as Hv. destruct (delete_any o vs r Hr) as (o' & ks & -> & Hs & Hr').
  exists (zmap ks), o'. rewrite !msize_zmap, zmap_nil by (done || apply Hr').
  split; [by apply zmap_sublist|]. split; [done|by exists ks].
Qed.

Lemma zlexcount_any o M r : zset_abs o M →
  ∃ n, match o with
       | ZListpack zl => zzl_count zl (zzlFirstInLexRange zl r) (zzlLexValueLteMax zl r)
       | ZSkiplist zs => zsl_count (zs_zsl zs) (zslNthInLexRange (zs_heap zs) (zs_zsl zs) r)
       end = Ok n.
Proof.
  intros (vs & [_ Hh] & _). destruct o as [zl|zs].
  - pose proof (lp_holds_len _ _ Hh) as Hlen. destruct Hh as (ps & R & <- & _). apply (zz_count_any R).
    unfold zvals in Hlen. by rewrite length_fmap in Hlen.
  - destruct Hh as (xs & [R _] & _). by eapply skl_count_any.
Qed.

(** *** Walks *)

Context {St : Type} (hd : zrange_result_handler St) `{!HandlerLaws hd}.

Lemma limited_sub {A} limit j rev (l ds es : list A) : drop j (dirl rev l) = ds ++ es → limited limit ds ⊆+ l.
Proof.
  intros E. trans (dirl rev l); [|by rewrite dirl_perm]. apply sublist_submseteq. trans ds.
  - unfold limited. destruct (limit <? 0); [done|apply sublist_take].
  - trans (drop j (dirl rev l)); [rewrite E; by apply sublist_inserts_r|apply sublist_drop].
Qed.

Lemma lp_walk_any zl ps r rev ws first inside offset limit (t : pair → bool) :
  zzl_rep zl ps → zlen ps < 2 ^ 30 → 0 ≤ offset → is_pair (ps := ps) r first →
  (∀ k p, ps !! k = Some p → inside (zz_at ps k) = Ok (t p)) →
  ∃ qs, qs ⊆+ ps ∧ ∀ st,
    (sptr ← match first with Some e => lpNext zl e | None => Ok None end;
     '(eptr, sptr) ← zzl_skip (length zl) rev zl offset first sptr;
     zzl_limit_loop hd (length zl) rev ws zl inside limit eptr sptr 0 st) = counted hd (zz_item ws <$> qs) 0 st.
Proof.
  intros R Hlen Ho [->|(k & p & Hk & -> & _)] Hin.
  { exists []. split; [apply submseteq_nil_l|]. intros st. rs. cbn [fmap list_fmap]. rewrite counted_nil. by destruct (length zl). }
  pose proof (lookup_lt_Some _ _ _ Hk) as Hlt. pose proof (zz_count R) as Hc. set (j := idx rev (length ps) k).
  assert (idx rev (length ps) j = k ∧ (j < length ps)%nat) as [Ej Hj] by (unfold j, idx; destruct rev; lia).
  destruct (prefix_split t (drop (j + Z.to_nat offset) (dirl rev ps))) as (ds & es & Ed & Hds & Hes).
  exists (limited limit ds). split; [by eapply limited_sub|]. intros st.
  rewrite (zz_next_score R k p Hk). rs. rewrite <- Ej at 1 2. rewrite <- ecur_some, <- scur_some by done.
  replace offset with (Z.of_nat (Z.to_nat offset)) at 1 by lia. rewrite (zz_skip_ok R) by lia. rs.
  eapply (zz_limit_ok hd R rev ws inside t Hin); [exact Ed|done|done|lia|lia|].
  apply (f_equal length) in Ed. rewrite length_drop, length_dirl, length_app in Ed. lia.
Qed.

Lemma skl_walk_any h z xs rev o inside limit (t : zent → bool) :
  zsl_inv h z xs → is_node (xs := xs) o → (∀ x, x ∈ xs → inside (ze_ptr x) = Ok (t x)) →
  ∃ ys, ys ⊆+ xs ∧ ∀ st,
    zsl_limit_loop hd (zsl_fuel z) rev h inside limit (fst <$> o) 0 st = counted hd (eval <$> ys) 0 st.
Proof.
  intros R Hn Hin. destruct o as [[q rank]|].
  2: { exists []. split; [apply submseteq_nil_l|]. intros st. cbn [fmap list_fmap option_fmap option_map].
    rewrite counted_nil. by destruct (zsl_fuel z). }
  destruct (Hn q rank eq_refl) as (k & x & Hk & ->). pose proof (lookup_lt_Some _ _ _ Hk) as Hlt.
  set (j := idx rev (length xs) k). pose proof (rep_small _ _ _ R) as Hsm.
  assert (idx rev (length xs) j = k ∧ (j < length xs)%nat) as [Ej Hj] by (unfold j, idx; destruct rev; lia).
  destruct (prefix_split t (drop j (dirl rev xs))) as (ds & es & Ed & Hds & Hes).
  exists (limited limit ds). split; [by eapply limited_sub|]. intros st.
  assert (fst <$> Some (ze_ptr x, rank) = lcur (xs := xs) rev j) as ->
    by (unfold lcur; rewrite dirl_lookup, Ej, Hk by done; done).
  eapply (sl_limit_ok hd R rev inside t Hin); [exact Ed|done|done| |lia|].
  - pose proof (inv_fuel R _ [] (eq_sym (app_nil_r _))). cbn [length] in *. lia.
  - apply (f_equal length) in Ed. rewrite length_drop, length_dirl, length_app in Ed. lia.
Qed.

(** The range command emits elements of the set, each at most once. *)
Lemma zrange_lex_any st d key o M r offset limit ws rev : zset_abs o M → offset ≤ INT64_MAX →
  ∃ o' items, genericZrangebylexCommand hd st d key r o ws offset limit rev =
      emission hd (-1) items st (<[key := KZset o']> d) ∧
    zset_abs o' M ∧ ∃ l, shows ws items l ∧ l ⊆+ zseq M.
Proof.
  intros HM Ho. unfold genericZrangebylexCommand. apply (zrange_by_some hd _ _ _ _ _ _ _ _ _ _ _ _ _ (λ items, ∃ l, shows ws items l ∧ l ⊆+ zseq M)); [done| |].
  { intros _. exists []. split; [constructor|apply submseteq_nil_l]. }
  intros [zl|zs] vs [Hv Hh] <- Ho'; cbn [by_walk]; rewrite zseq_zmap by done.
  - pose proof (lp_holds_len _ _ Hh) as Hlen. destruct Hh as (ps & R & <- & _).
    unfold zvals in Hlen. rewrite length_fmap in Hlen.
    assert (∃ e, (if rev then zzlLastInLexRange zl r else zzlFirstInLexRange zl r) = Ok e ∧ is_pair (ps := ps) r e) as (e & -> & He)
      by (destruct rev; [by apply (zz_last_any R)|by apply (zz_first_any R)]). rs.
    edestruct (lp_walk_any zl ps r rev ws e) as (qs & Hq & Hw); [done|done|exact Ho'|done| |].
    2: { exists (zz_item ws <$> qs). split; [exact Hw|]. exists (cval <$> zvals qs). split; [apply shows_cval, zz_shows|].
      by apply fmap_submseteq, fmap_submseteq. }
    intros k p Hp. instantiate (1 := λ p, if rev then lex_gte_p r p else lex_lte_p r p).
    destruct rev; [by apply (lex_gte_ok R)|by apply (lex_lte_ok R)].
  - destruct Hh as (xs & [R _] & <- & _).
    destruct (skl_nth_any (zs_heap zs) (zs_zsl zs) xs r (if rev then - offset - 1 else offset) R) as (n & -> & Hn);
      [unfold is_i64; destruct rev; lia|]. rs.
    edestruct (skl_walk_any (zs_heap zs) (zs_zsl zs) xs rev n) as (ys & Hy & Hw); [done|done| |].
    2: { exists (eval <$> ys). split; [exact Hw|]. exists (cval <$> (eval <$> ys)). split; [apply shows_cval, shows_refl|].
      by apply fmap_submseteq, fmap_submseteq. }
    intros x Hx. instantiate (1 := λ x, if rev then zslLexValueGteMin (ze_ele x) r else zslLexValueLteMax (ze_ele x) r).
    destruct rev; by rewrite (ele_tests _ _ _ _ R x Hx).
Qed.
End zset.

(** ** Commands *)

Section commands.
Context `{Arch} `{SetConfig} `{Allocator} `{NodeAlloc} `{FloatTextLaws} `{Server}.

(** The object of a sorted set *)
Lemma db_zset d A key M : db_abs d A → A !! key = Some (AZset M) → ∃ o, d !! key = Some (KZset o) ∧ zset_abs o M.
Proof.
  intros HA EA. destruct (db_abs_lookup d A key HA) as [[_ E]|[(? & ? & _ & E & _)|(o & M' & Ed & E & HM & _)]]; [congruence..|].
  rewrite EA in E. injection E as <-. by exists o.
Qed.

Lemma zremrange_lex_cmd d A argv M : db_abs d A → A !! arg argv 1 = Some (AZset M) →
  ∃ B, refines (zremrangeGenericCommand d argv ZRANGE_LEX) B ∧
    (B = zremrange_spec A argv ZRANGE_LEX ∨
     ∃ M', M' ⊆ M ∧ B = zremrange_effects A (arg argv 1) ZRANGE_LEX M M').
Proof.
  intros HA EA. destruct (db_zset d A _ M HA EA) as (o & Ed & HM).
  unfold zremrangeGenericCommand, zremrange_spec. cbv zeta. cbn [zremrange_parse].
  destruct (zslParseLexRange (RStr (arg argv 2)) (RStr (arg argv 3))) as [r|].
  - destruct (zremrange_any o M r HM) as (M' & o' & Hs & Hdel & HM').
    exists (zremrange_effects A (arg argv 1) ZRANGE_LEX M M'). split; [|by right; exists M'].
    rs. rewrite Ed. rs. by apply (zremrange_step_ok d A (arg argv 1) ZRANGE_LEX o M (ByLex r) M' o').
  - eexists. split; [|by left]. rs. by eexists _, _.
Qed.

Lemma zlexcount_cmd d A argv M : db_abs d A → A !! arg argv 1 = Some (AZset M) →
  ∃ B, refines (zlexcountCommand d argv) B ∧
    (B = zlexcount_spec A argv ∨ ∃ n, B = (A, [Reply (ReplyLongLong n)])).
Proof.
  intros HA EA. destruct (db_zset d A _ M HA EA) as (o & Ed & HM). unfold zlexcountCommand, zlexcount_spec.
  destruct (zslParseLexRange (RStr (arg argv 2)) (RStr (arg argv 3))) as [r|].
  - destruct (zlexcount_any o M r HM) as (n & Hn). exists (A, [Reply (ReplyLongLong (s64 n))]). split; [|right; by exists (s64 n)].
    rewrite Ed. destruct o; rewrite Hn; rs; by eexists _, _.
  - eexists. split; [|by left]. by eexists _, _.
Qed.

Lemma parse_lex argv start store rangetype direction o rev r :
  zrange_parse argv start store rangetype direction = inl (o, rev, ByLex r) → zo_withscores o = false.
Proof.
  unfold zrange_parse. destruct (zrange_options _ _ _) as [o'|]; [|done]. cbv zeta.
  destruct (zo_withscores o') eqn:Ew; [|repeat case_match; intros; by simplify_eq].
  destruct (zo_rangetype o'); cbn [andb]; repeat case_match; intros; simplify_eq; done.
Qed.

Lemma zrange_lex_cmd d A argv resp rangetype direction o rev r M :
  db_abs d A → A !! arg argv 1 = Some (AZset M) →
  zrange_parse argv 1 false rangetype direction = inl (o, rev, ByLex r) →
  ∃ l, l ⊆+ zseq M ∧
    refines (zrange_client d argv resp rangetype direction) (A, Reply <$> zrange_reply resp false l).
Proof.
  intros HA EA Ep. destruct (db_zset d A _ M HA EA) as (z & Ed & HM). pose proof (zrange_parse_ok argv 1 false rangetype direction) as Hp.
  unfold zrange_client, zrangeGenericCommand. rewrite Ep in *. destruct Hp as [Ho _]. rewrite (parse_lex _ _ _ _ _ _ _ _ Ep), Ed.
  cbn [orb]. cbv zeta.
  destruct (zrange_lex_any client_ops (client_start resp false) d (arg argv 1) z M r (zo_offset o) (zo_limit o) false rev HM Ho)
    as (z' & items & He & HM' & l & Hs & Hsub). unfold client_start in He. cbn iota in He. rewrite He.
  destruct (client_emission resp false (-1) items (<[arg argv 1 := KZset z']> d)) as (h & Hc & Hout); [by right|].
  unfold client_start in Hc. cbn iota in Hc. rewrite Hc. rs. exists l. split; [done|].
  eapply refines_read; [done|done|done|]. rewrite Hout. apply reply_canon; [done|].
  intros v Hv. destruct (zseq_facts z M v HM) as [? _]; [|done]. by eapply elem_of_submseteq.
Qed.

Context (max_entries : zset_max_listpack_entries ≤ 2 ^ 26).

Lemma zrangestore_lex_cmd d A rnd argv o rev r M k :
  db_abs d A → A !! arg argv 2 = Some (AZset M) → Z.of_nat (size M) < INT64_MAX →
  (add_draws ∅ (size M) + k ≤ draws rnd)%nat →
  zrange_parse argv 2 true ZRANGE_AUTO ZRANGE_DIRECTION_AUTO = inl (o, rev, ByLex r) →
  ∃ l d' rnd' effs, l ⊆+ zseq M ∧ zrangestoreCommand d rnd argv = Ok (d', rnd', effs) ∧
    db_abs d' (store_spec A (arg argv 1) l).1 ∧ canon_eff <$> effs = (store_spec A (arg argv 1) l).2 ∧ (k ≤ draws rnd')%nat.
Proof.
  intros HA EA Hsz Hk Ep. destruct (db_zset d A _ M HA EA) as (z & Ed & HM).
  pose proof (zrange_parse_ok argv 2 true ZRANGE_AUTO ZRANGE_DIRECTION_AUTO) as Hp.
  unfold zrangestoreCommand, zrangeGenericCommand. rewrite Ep in *. destruct Hp as [Ho _]. rewrite orb_true_r, Ed. unfold id.
  destruct (zrange_lex_any store_ops (StoreHandler (arg argv 1) None rnd []) d (arg argv 2) z M r (zo_offset o) (zo_limit o) true rev HM Ho)
    as (z' & items & -> & HM' & l & Hs & Hsub).
  pose proof (submseteq_length _ _ Hsub) as Hl. rewrite zseq_length in Hl.
  destruct (store_emission max_entries (-1) items l (arg argv 1) rnd (<[arg argv 2 := KZset z']> d) A k)
    as (h & d' & -> & HA' & Hout & Hk'); [by eapply db_abs_same|done| | |lia|unfold add_draws in *; rewrite map_size_empty in *; nia|].
  - eapply submseteq_nodup; [exact Hsub|]. destruct HM as (vs & Hrep & <-). rewrite zseq_zmap by apply Hrep.
    rewrite <- list_fmap_compose. apply (vals_nodup _ (proj1 Hrep)).
  - apply Forall_forall. intros v Hv. destruct (zseq_facts z M v HM) as (_ & ? & ? & _); [by eapply elem_of_submseteq|done].
  - rs. by eexists l, _, _, _.
Qed.
End commands.

(** Whether all scores of a set are equal *)
#[export] Instance double_eq_dec : EqDecision double.
Proof. intros x y. unfold Decision. decide equality; solve [apply Pos.eq_dec|apply Z.eq_dec|apply Bool.bool_dec]. Defined.
#[export] Instance one_scored_dec (M : zabs) : Decision (one_scored M).
Proof.
  destruct (decide (map_Forall (λ _ s, map_Forall (λ _ s', s = s') M) M)) as [Hm|Hm].
  - left. intros e e' s s' Hs Hs'. by apply (Hm e s Hs e').
  - right. intros Hone. apply Hm. intros e s Hs e' s' Hs'. by apply (Hone e e').
Defined.
