(* ===== verification/CmdServer.v ===== *)
(** Sequences of commands on a database of sorted sets and sets, against the same
    sequences on finite maps and finite sets. *)

From S2P Require Import Prelude Numstr Sds Skiplist SklRep SklMod Double Object Zset.
From S2P Require Import ZsetRep ZsetSkl ZsetConv ZsetSpec ZsetApi ZsetCmd ZsetRange ZsetCmdSpec.
From S2P Require Import ZsetCmdRefine ZpopSpec Zrange ZrangeSpec ZrangeCmd LexAny.
From S2P Require Import Endian Dict SdsDict SetType SetRep SetApi Keyspace KeyspaceRep.
From S2P Require Import SetCmd SetCmdSpec SetMulti SetInter SetUnion.
From Stdlib Require Import SpecFloat.

(** ** Calls *)

Inductive command :=
  | ZADD | ZINCRBY | ZREM
  | ZREMRANGEBYRANK | ZREMRANGEBYSCORE | ZREMRANGEBYLEX
  | ZCARD | ZSCORE | ZMSCORE | ZRANK | ZREVRANK | ZCOUNT | ZLEXCOUNT
  | ZPOPMIN | ZPOPMAX
  | ZRANGE | ZREVRANGE | ZRANGEBYSCORE | ZREVRANGEBYSCORE | ZRANGEBYLEX | ZREVRANGEBYLEX
  | ZRANGESTORE
  | SADD | SREM | SMOVE | SISMEMBER | SMISMEMBER | SCARD | SMEMBERS
  | SINTER | SINTERSTORE | SINTERCARD | SUNION | SUNIONSTORE | SDIFF | SDIFFSTORE.

(** A command with its arguments, the protocol version of its client, the values
    that [random()] returns while it runs, and whether dicts may be resized *)
Record call := Call {
  c_cmd : command; c_argv : list (list Z); c_resp : Z; c_random : list Z; c_can : dictResizeEnable }.

(** The number of arguments; negative for at least so many *)
Definition arity (c : command) : Z :=
  match c with
  | ZCARD | SCARD | SMEMBERS => 2
  | ZSCORE | SISMEMBER => 3
  | ZINCRBY | ZREMRANGEBYRANK | ZREMRANGEBYSCORE | ZREMRANGEBYLEX | ZCOUNT | ZLEXCOUNT | SMOVE => 4
  | ZPOPMIN | ZPOPMAX | SINTER | SUNION | SDIFF => -2
  | ZREM | ZMSCORE | ZRANK | ZREVRANK | SADD | SREM | SMISMEMBER => -3
  | SINTERSTORE | SINTERCARD | SUNIONSTORE | SDIFFSTORE => -3
  | ZADD | ZRANGE | ZREVRANGE | ZRANGEBYSCORE | ZREVRANGEBYSCORE | ZRANGEBYLEX | ZREVRANGEBYLEX => -4
  | ZRANGESTORE => -5
  end.

Definition commandCheckArity (arity argc : Z) : bool :=
  negb ((arity >? 0) && negb (arity =? argc) || (argc <? - arity)).

Section execute.
Context `{Arch} `{SetConfig} `{Allocator} `{NodeAlloc} `{FloatText} `{StrtodErrno} `{Server} `{Qsort}.

(** The function of a command *)
Definition proc (c : call) (d : db) : res (db * list effect) :=
  let argv := c_argv c in
  let can := c_can c in
  let random (f : db → list Z → list (list Z) → res (db * list Z * list effect)) :=
    '(d, _, effs) ← f d (c_random c) argv; Ok (d, effs) in
  match c_cmd c with
  | ZADD => random zaddCommand
  | ZINCRBY => random zincrbyCommand
  | ZREM => zremCommand d argv
  | ZREMRANGEBYRANK => zremrangebyrankCommand d argv
  | ZREMRANGEBYSCORE => zremrangebyscoreCommand d argv
  | ZREMRANGEBYLEX => zremrangebylexCommand d argv
  | ZCARD => zcardCommand d argv
  | ZSCORE => zscoreCommand d argv
  | ZMSCORE => zmscoreCommand d argv
  | ZRANK => zrankCommand d argv
  | ZREVRANK => zrevrankCommand d argv
  | ZCOUNT => zcountCommand d argv
  | ZLEXCOUNT => zlexcountCommand d argv
  | ZPOPMIN => zpopminCommand d argv (c_resp c)
  | ZPOPMAX => zpopmaxCommand d argv (c_resp c)
  | ZRANGE => zrangeCommand d argv (c_resp c)
  | ZREVRANGE => zrevrangeCommand d argv (c_resp c)
  | ZRANGEBYSCORE => zrangebyscoreCommand d argv (c_resp c)
  | ZREVRANGEBYSCORE => zrevrangebyscoreCommand d argv (c_resp c)
  | ZRANGEBYLEX => zrangebylexCommand d argv (c_resp c)
  | ZREVRANGEBYLEX => zrevrangebylexCommand d argv (c_resp c)
  | ZRANGESTORE => random zrangestoreCommand
  | SADD => saddCommand can d argv
  | SREM => sremCommand can d argv
  | SMOVE => smoveCommand can d argv
  | SISMEMBER => sismemberCommand can d argv
  | SMISMEMBER => smismemberCommand can d argv
  | SCARD => scardCommand d argv
  | SMEMBERS => smembersCommand d argv
  | SINTER => sinterCommand can d argv
  | SINTERSTORE => sinterstoreCommand can d argv
  | SINTERCARD => sinterCardCommand can d argv
  | SUNION => sunionCommand can d argv
  | SUNIONSTORE => sunionstoreCommand can d argv
  | SDIFF => sdiffCommand can d argv
  | SDIFFSTORE => sdiffstoreCommand can d argv
  end.

(** [processCommand] for these commands: the number of arguments is checked first. *)
Definition execute (c : call) (d : db) : res (db * list effect) :=
  if negb (commandCheckArity (arity (c_cmd c)) (zlen (c_argv c))) then Ok (d, [Reply ReplyErrorArity]) else proc c d.

(** The commands one after the other, with the effects of each *)
Fixpoint run (cs : list call) (d : db) : res (db * list (list effect)) :=
  match cs with
  | [] => Ok (d, [])
  | c :: cs =>
      '(d, effs) ← execute c d;
      '(d, out) ← run cs d;
      Ok (d, effs :: out)
  end.

(** ** Specification *)

Definition proc_spec (c : call) (A : adb) : adb * list effect :=
  let argv := c_argv c in
  match c_cmd c with
  | ZADD => zadd_cmd_spec A argv ZADD_IN_NONE
  | ZINCRBY => zadd_cmd_spec A argv ZADD_IN_INCR
  | ZREM => zrem_spec A argv
  | ZREMRANGEBYRANK => zremrange_spec A argv ZRANGE_RANK
  | ZREMRANGEBYSCORE => zremrange_spec A argv ZRANGE_SCORE
  | ZREMRANGEBYLEX => zremrange_spec A argv ZRANGE_LEX
  | ZCARD => zcard_spec A argv
  | ZSCORE => zscore_spec A argv
  | ZMSCORE => zmscore_spec A argv
  | ZRANK => zrank_cmd_spec A argv false
  | ZREVRANK => zrank_cmd_spec A argv true
  | ZCOUNT => zcount_spec A argv
  | ZLEXCOUNT => zlexcount_spec A argv
  | ZPOPMIN => zpop_spec A argv (c_resp c) ZSET_MIN
  | ZPOPMAX => zpop_spec A argv (c_resp c) ZSET_MAX
  | ZRANGE => zrange_spec A argv (c_resp c) ZRANGE_AUTO ZRANGE_DIRECTION_AUTO
  | ZREVRANGE => zrange_spec A argv (c_resp c) ZRANGE_RANK ZRANGE_DIRECTION_REVERSE
  | ZRANGEBYSCORE => zrange_spec A argv (c_resp c) ZRANGE_SCORE ZRANGE_DIRECTION_FORWARD
  | ZREVRANGEBYSCORE => zrange_spec A argv (c_resp c) ZRANGE_SCORE ZRANGE_DIRECTION_REVERSE
  | ZRANGEBYLEX => zrange_spec A argv (c_resp c) ZRANGE_LEX ZRANGE_DIRECTION_FORWARD
  | ZREVRANGEBYLEX => zrange_spec A argv (c_resp c) ZRANGE_LEX ZRANGE_DIRECTION_REVERSE
  | ZRANGESTORE => zrangestore_spec A argv
  | SADD => sadd_spec A argv
  | SREM => srem_spec A argv
  | SMOVE => smove_spec A argv
  | SISMEMBER => sismember_spec A argv
  | SMISMEMBER => smismember_spec A argv
  | SCARD => scard_spec A argv
  | SMEMBERS => smembers_spec A argv
  | SINTER => sinter_spec A argv
  | SINTERSTORE => sinterstore_spec A argv
  | SINTERCARD => sintercard_spec A argv
  | SUNION => sunion_spec A argv
  | SUNIONSTORE => sunionstore_spec A argv
  | SDIFF => sdiff_spec A argv
  | SDIFFSTORE => sdiffstore_spec A argv
  end.

Definition spec (c : call) (A : adb) : adb * list effect :=
  if negb (commandCheckArity (arity (c_cmd c)) (zlen (c_argv c))) then (A, [Reply ReplyErrorArity]) else proc_spec c A.

Fixpoint run_spec (cs : list call) (A : adb) : adb * list (list effect) :=
  match cs with
  | [] => (A, [])
  | c :: cs =>
      let '(A, effs) := spec c A in
      let '(A, out) := run_spec cs A in
      (A, effs :: out)
  end.

(** The key whose scores have to be equal, for commands that read their arguments
    as lexicographic ranges *)
Definition lex_key (c : call) : option (list Z) :=
  let argv := c_argv c in
  let key_of start store rangetype direction :=
    match zrange_parse argv start store rangetype direction with
    | inl (_, _, ByLex _) => Some (arg argv start)
    | _ => None
    end in
  match c_cmd c with
  | ZREMRANGEBYLEX | ZLEXCOUNT => Some (arg argv 1)
  | ZRANGE => key_of 1%nat false ZRANGE_AUTO ZRANGE_DIRECTION_AUTO
  | ZREVRANGE => key_of 1%nat false ZRANGE_RANK ZRANGE_DIRECTION_REVERSE
  | ZRANGEBYSCORE => key_of 1%nat false ZRANGE_SCORE ZRANGE_DIRECTION_FORWARD
  | ZREVRANGEBYSCORE => key_of 1%nat false ZRANGE_SCORE ZRANGE_DIRECTION_REVERSE
  | ZRANGEBYLEX => key_of 1%nat false ZRANGE_LEX ZRANGE_DIRECTION_FORWARD
  | ZREVRANGEBYLEX => key_of 1%nat false ZRANGE_LEX ZRANGE_DIRECTION_REVERSE
  | ZRANGESTORE => key_of 2%nat true ZRANGE_AUTO ZRANGE_DIRECTION_AUTO
  | _ => None
  end.

Definition lex_ok (c : call) (A : adb) : Prop :=
  match lex_key c with Some key => one_scored (aset A key) | None => True end.

(** Every lexicographic command of a sequence meets equal scores. *)
Fixpoint lex_oks (cs : list call) (A : adb) : Prop :=
  match cs with
  | [] => True
  | c :: cs => lex_ok c A ∧ lex_oks cs (spec c A).1
  end.

(** What a lexicographic command may do to a set whose scores differ: remove,
    reply or store any of its elements, each at most once, or reply any number. *)
Definition lex_may (c : call) (A : adb) (B : adb * list effect) : Prop :=
  let argv := c_argv c in
  match c_cmd c with
  | ZREMRANGEBYLEX =>
      ∃ M M', A !! arg argv 1 = Some (AZset M) ∧ M' ⊆ M ∧ B = zremrange_effects A (arg argv 1) ZRANGE_LEX M M'
  | ZLEXCOUNT => ∃ n, B = (A, [Reply (ReplyLongLong n)])
  | ZRANGE | ZREVRANGE | ZRANGEBYSCORE | ZREVRANGEBYSCORE | ZRANGEBYLEX | ZREVRANGEBYLEX =>
      ∃ M l, A !! arg argv 1 = Some (AZset M) ∧ l ⊆+ zseq M ∧ B = (A, Reply <$> zrange_reply (c_resp c) false l)
  | ZRANGESTORE =>
      ∃ M l, A !! arg argv 2 = Some (AZset M) ∧ l ⊆+ zseq M ∧ B = store_spec A (arg argv 1) l
  | _ => False
  end.

(** What a command may do: what [spec] says, unless it is a lexicographic command on
    a set whose scores differ *)
Inductive permits (c : call) (A : adb) : adb * list effect → Prop :=
  | permits_spec : permits c A (spec c A)
  | permits_lex B : ¬ lex_ok c A → lex_may c A B → permits c A B.

Inductive permits_all : list call → adb → adb → list (list effect) → Prop :=
  | permits_nil A : permits_all [] A A []
  | permits_cons c cs A B effs C out :
      permits c A (B, effs) → permits_all cs B C out → permits_all (c :: cs) A C (effs :: out).

Lemma permits_all_spec cs A B out : lex_oks cs A → permits_all cs A B out → B = (run_spec cs A).1 ∧ out = (run_spec cs A).2.
Proof.
  intros Hlex Hp. induction Hp as [A|c cs A B effs C out Hc Hcs IH]; [done|]. destruct Hlex as [Hl Hls].
  assert (spec c A = (B, effs)) as E by (by inversion Hc). cbn [run_spec]. rewrite E in *.
  destruct (IH Hls) as [-> ->]. by destruct (run_spec cs B).
Qed.

Lemma lex_ok_dec c A : Decision (lex_ok c A).
Proof. unfold lex_ok. destruct (lex_key c); apply _. Defined.

(** The set that a lexicographic command on different scores reads *)
Lemma lex_fails c A : ¬ lex_ok c A → ∃ key M, lex_key c = Some key ∧ A !! key = Some (AZset M).
Proof.
  unfold lex_ok. destruct (lex_key c) as [key|]; [|done]. intros Hn. exists key. unfold aset in Hn.
  destruct (A !! key) as [[M|]|]; [by exists M|..]; by destruct Hn; intros ? ? ? ? []%lookup_empty_Some.
Qed.
End execute.

(** The commands whose result is counted by an [int] *)
Definition counts_int (c : command) : bool :=
  match c with SUNION | SUNIONSTORE | SDIFF | SDIFFSTORE => true | _ => false end.

(** Arguments are strings of less than 2^31 bytes, and [random()] returns enough
    values below the limit for sets of at most [n] elements; unions and differences
    are of sets with less than 2^31 elements in all. *)
Definition call_ok (n : nat) (c : call) : Prop :=
  Forall ele_ok (c_argv c) ∧ (n * S (S (n + n)) ≤ draws (c_random c))%nat ∧
  (counts_int (c_cmd c) = true → Z.of_nat n < 2 ^ 31).

(** The number of arguments of a sequence bounds the size of the sets it makes. *)
Definition total_args (cs : list call) : nat := sum_list (length ∘ c_argv <$> cs).

(** Sorted sets have at most [n] elements, and those of sets are in [U]. *)
Definition within (n : nat) (U : gset (list Z)) (A : adb) : Prop :=
  ∀ key, (size (aset A key) ≤ n)%nat ∧ sset A key ⊆ U.

(** There are at most [n] elements in a sorted set, and in all sets together. *)
Definition sets_le (n : nat) (A : adb) : Prop := ∃ U, (size U ≤ n)%nat ∧ within n U A.

(** Replies are compared up to equality of scores and the order of the elements of a
    set. *)
Definition canon_out (out : list (list effect)) : list (list effect) := canon_effs <$> out.

(** ** Sizes *)

Lemma aset_insert A key a k : aset (<[key := a]> A) k = if decide (k = key) then match a with AZset M => M | _ => ∅ end else aset A k.
Proof.
  unfold aset. destruct (decide (k = key)) as [->|]; [by rewrite lookup_insert_eq|by rewrite lookup_insert_ne].
Qed.
Lemma aset_delete A key k : aset (delete key A) k = if decide (k = key) then ∅ else aset A k.
Proof.
  unfold aset. destruct (decide (k = key)) as [->|]; [by rewrite lookup_delete_eq|by rewrite lookup_delete_ne].
Qed.
Lemma sset_insert A key a k : sset (<[key := a]> A) k = if decide (k = key) then match a with ASet X => X | _ => ∅ end else sset A k.
Proof.
  unfold sset. destruct (decide (k = key)) as [->|]; [by rewrite lookup_insert_eq|by rewrite lookup_insert_ne].
Qed.
Lemma sset_delete A key k : sset (delete key A) k = if decide (k = key) then ∅ else sset A k.
Proof.
  unfold sset. destruct (decide (k = key)) as [->|]; [by rewrite lookup_delete_eq|by rewrite lookup_delete_ne].
Qed.

Lemma bounded_insert n U A key M : within n U A → (size M ≤ n)%nat → within n U (<[key := AZset M]> A).
Proof. intros HA HM k. rewrite aset_insert, sset_insert. destruct (decide (k = key)); [split; [done|set_solver]|apply HA]. Qed.
Lemma bounded_sset n U A key X : within n U A → X ⊆ U → within n U (<[key := ASet X]> A).
Proof.
  intros HA HX k. rewrite aset_insert, sset_insert. destruct (decide (k = key)); [|apply HA]. split; [rewrite map_size_empty; lia|done].
Qed.
Lemma bounded_delete n U A key : within n U A → within n U (delete key A).
Proof.
  intros HA k. rewrite aset_delete, sset_delete. destruct (decide (k = key)); [|apply HA].
  split; [rewrite map_size_empty; lia|set_solver].
Qed.
Lemma bounded_put n U A key M : within n U A → (size M ≤ n)%nat → within n U (put_set A key M).
Proof. intros. unfold put_set. destruct (decide (M = ∅)); auto using bounded_insert, bounded_delete. Qed.
Lemma bounded_put_sset n U A key X : within n U A → X ⊆ U → within n U (put_sset A key X).
Proof. intros. unfold put_sset. destruct (decide (X = ∅)); auto using bounded_sset, bounded_delete. Qed.
Lemma bounded_le n m U V A : within n U A → (n ≤ m)%nat → U ⊆ V → within m V A.
Proof. intros HA Hn HU k. destruct (HA k). split; [lia|set_solver]. Qed.

Create HintDb bounded.
#[export] Hint Resolve bounded_insert bounded_delete bounded_put bounded_sset bounded_put_sset : bounded.

(** A command on the set of a key *)
Lemma bounded_on_set n U A key missing f :
  within n U A → (∀ M, A !! key = Some (AZset M) → (size M ≤ n)%nat → within n U (f M).1) →
  within n U (on_set A key missing f).1.
Proof.
  intros HA Hf. unfold on_set. pose proof (proj1 (HA key)) as Hk. unfold aset in Hk.
  destruct (A !! key) as [[M|]|]; [|done..]. by apply Hf.
Qed.

Lemma size_foldl_delete {B} (f : B → list Z) (l : list B) : ∀ M : zabs, (size (foldl (λ M v, delete (f v) M) M l) ≤ size M)%nat.
Proof.
  induction l as [|v l IH]; intros M; cbn [foldl]; [done|]. etrans; [apply IH|].
  apply map_subseteq_size, delete_subseteq.
Qed.

Lemma size_zmap_le (l : list value) : (size (zmap l) ≤ length l)%nat.
Proof.
  induction l as [|v l IH]; [done|]. change (zmap (v :: l)) with (<[v.2 := canon v.1]> (zmap l)). cbn [length].
  destruct (zmap l !! v.2) eqn:E; [rewrite map_size_insert_Some by done; lia|rewrite map_size_insert_None by done; lia].
Qed.

Lemma zadd_fold_size flags pairs : ∀ M c, (size (zadd_fold M flags pairs c).1.1 ≤ size M + length pairs)%nat.
Proof.
  induction pairs as [|[score e] pairs IH]; intros M c; cbn [zadd_fold length fst]; [lia|].
  assert (size (zadd_spec M score e flags).1 ≤ S (size M))%nat as Hs.
  { assert (∀ v : double, size (<[e := v]> M) ≤ S (size M))%nat as Hi.
    { intros v. destruct (M !! e) eqn:E; [rewrite map_size_insert_Some by done; lia|rewrite map_size_insert_None by done; lia]. }
    unfold zadd_spec. repeat case_match; cbn [fst]; auto. }
  destruct (zadd_spec M score e flags) as [M1 r]. cbn [fst] in Hs. destruct (za_ret r); cbn [fst]; [|lia].
  specialize (IH M1 (zadd_count c r)). lia.
Qed.

Section server.
Context `{Arch} `{SetConfig} `{Allocator} `{NodeAlloc} `{FloatTextLaws} `{StrtodErrno} `{!StrtodLaws} `{Server} `{Qsort}.

Lemma kept_by_size M range M' : kept_by M range = Some M' → (size M' ≤ size M)%nat.
Proof.
  destruct range as [start end_|r|r]; cbn [kept_by].
  - destruct (sanitize_indexes _ _ _) as [[s e]|] eqn:Es; [|done]. intros [= <-]. etrans; [apply size_zmap_le|].
    apply sanitize_ok in Es as (? & ? & ?); [|unfold msize; lia].
    rewrite length_app, length_take, length_drop, zseq_length. lia.
  - intros [= <-]. apply map_subseteq_size, map_filter_subseteq.
  - intros [= <-]. apply map_subseteq_size, map_filter_subseteq.
Qed.

Lemma zadd_bounded n U A argv flags : Forall ele_ok argv → within n U A →
  within (n + length argv) U (zadd_cmd_spec A argv flags).1.
Proof.
  intros Hargs HA. assert (within (n + length argv) U A) as HA' by (eapply bounded_le; [done|lia|done]).
  unfold zadd_cmd_spec. cbv zeta. destruct (zadd_parse argv flags) as [g|r] eqn:Ep; [|done].
  destruct (zadd_parse_ok _ _ _ Hargs Ep) as (_ & _ & _ & Hlen).
  assert (∀ M, (size M ≤ n)%nat → within (n + length argv) U (zadd_run_spec A (arg argv 1) M g).1) as Hrun.
  { intros M HM. unfold zadd_run_spec. pose proof (zadd_fold_size (zg_flags g) (zg_pairs g) M (ZCounts 0 0 0 None)).
    destruct (zadd_fold _ _ _ _) as [[M' c] ok]. cbn [fst] in *. destruct (negb ok); [done|].
    apply bounded_insert; [done|lia]. }
  pose proof (proj1 (HA (arg argv 1))) as Hk. unfold aset in Hk. destruct (A !! arg argv 1) as [[M|]|]; [by apply Hrun|done|].
  destruct (negb _); [done|]. apply Hrun. rewrite map_size_empty. lia.
Qed.

Lemma zremrange_bounded n U A argv t : within n U A → within n U (zremrange_spec A argv t).1.
Proof.
  intros HA. unfold zremrange_spec. cbv zeta. destruct (zremrange_parse _ _ _) as [[range|r]|]; [|done..].
  apply bounded_on_set; [done|]. intros M EM HM. destruct (kept_by M range) as [M'|] eqn:Ek; [|done].
  apply kept_by_size in Ek. apply bounded_put; [done|lia].
Qed.

Lemma zpop_bounded n U A argv resp wh : within n U A → within n U (zpop_spec A argv resp wh).1.
Proof.
  intros HA. unfold zpop_spec. cbv zeta. destruct (_ >? 3); [done|].
  destruct (if _ =? 3 then _ else _) as [count|r]; [|done]. apply bounded_on_set; [done|]. intros M EM HM.
  destruct (count =? 0); [done|]. apply bounded_put; [done|]. etrans; [apply size_foldl_delete|done].
Qed.

Lemma zrange_bounded n U A argv resp t dir : within n U A → within n U (zrange_spec A argv resp t dir).1.
Proof.
  intros HA. unfold zrange_spec. destruct (zrange_parse _ _ _ _ _) as [[[o rev] range]|r]; [|done].
  by apply bounded_on_set.
Qed.

Lemma store_bounded n U A dst (l : list value) : within n U A → (length l ≤ n)%nat → within n U (store_spec A dst l).1.
Proof.
  intros HA Hl. destruct l as [|v l]; unfold store_spec.
  - destruct (A !! dst); [by apply bounded_delete|done].
  - apply bounded_insert; [done|]. etrans; [apply size_zmap_le|done].
Qed.

Lemma zrangestore_bounded n U A argv : within n U A → within n U (zrangestore_spec A argv).1.
Proof.
  intros HA. unfold zrangestore_spec. destruct (zrange_parse _ _ _ _ _) as [[[o rev] range]|r]; [|done].
  pose proof (proj1 (HA (arg argv 2))) as Hk. unfold aset in Hk. destruct (A !! arg argv 2) as [[M|]|]; [|done|by apply store_bounded; [|cbn; lia]].
  apply store_bounded; [done|]. pose proof (submseteq_length _ _ (zrange_items_sub M o rev range)) as Hl. rewrite zseq_length in Hl. lia.
Qed.

(** *** Sets *)

Lemma bounded_on_sset n U A key missing f :
  within n U A → (∀ X, A !! key = Some (ASet X) → X ⊆ U → within n U (f X).1) → within n U (on_sset A key missing f).1.
Proof.
  intros HA Hf. unfold on_sset. pose proof (proj2 (HA key)) as Hk. unfold sset in Hk.
  destruct (A !! key) as [[M|[X|]]|]; [done| |done..]. by apply Hf.
Qed.

Lemma bounded_on_ssets n U A keys go : within n U A → within n U go.1 → within n U (on_ssets A keys go).1.
Proof. intros HA Hg. unfold on_ssets. by destruct (forallb _ _). Qed.

Lemma bounded_store n U A event dst X : within n U A → X ⊆ U → within n U (store_sset A event dst X).1.
Proof. intros HA HX. unfold store_sset. destruct (decide (X = ∅)); cbn [fst]; auto with bounded. Qed.

Lemma union_within n U A keys : within n U A → union_of A keys ⊆ U.
Proof.
  intros HA x. unfold union_of. rewrite elem_of_union_list. intros (X & (k & -> & _)%list_elem_of_fmap & Hx). by apply HA in Hx.
Qed.
Lemma inter_within n U A keys : within n U A → inter_of A keys ⊆ U.
Proof.
  intros HA x Hx. destruct keys as [|k keys]; [done|]. apply (proj2 (HA k)). rewrite elem_of_inter in Hx by done. apply Hx. by left.
Qed.
Lemma diff_within n U A keys : within n U A → diff_of A keys ⊆ U.
Proof. intros HA. destruct keys as [|k keys]; cbn [diff_of]; [set_solver|]. pose proof (proj2 (HA k)). set_solver. Qed.

Lemma sadd_bounded n U A argv : within n U A → list_to_set argv ⊆ U → within n U (sadd_spec A argv).1.
Proof.
  intros HA Hargs. assert (list_to_set (drop 2 argv) ⊆ U) as Hd.
  { intros x Hx. apply Hargs. rewrite elem_of_list_to_set in Hx |- *. rewrite <- (take_drop 2 argv). set_solver. }
  unfold sadd_spec. cbv zeta. pose proof (proj2 (HA (arg argv 1))) as Hk. unfold sset in Hk.
  destruct (A !! arg argv 1) as [[M|[X|]]|]; cbn [fst]; [done| |done|]; apply bounded_sset; set_solver.
Qed.

Lemma smove_bounded n U A argv : within n U A → within n U (smove_spec A argv).1.
Proof.
  intros HA. unfold smove_spec. cbv zeta. apply bounded_on_sset; [done|]. intros X EX HX.
  pose proof (proj2 (HA (arg argv 2))) as Hk. unfold sset in Hk.
  assert (∀ Y effs effs', Y ⊆ U → within n U (if decide (arg argv 3 ∈ X)
    then (<[arg argv 2:=ASet ({[arg argv 3]} ∪ Y)]> (put_sset A (arg argv 1) (X ∖ {[arg argv 3]})), effs) else (A, effs' : list effect)).1) as Hgo.
  { intros Y effs effs' HY. destruct (decide _); [|done]. apply bounded_sset; [apply bounded_put_sset; [done|]|]; set_solver. }
  destruct (A !! arg argv 2) as [[M|[Y|]]|]; [done| |done|]; [case_bool_decide; [done|]|]; apply Hgo; set_solver.
Qed.

Lemma proc_spec_bounded n U c A : Forall ele_ok (c_argv c) → within n U A →
  within (n + length (c_argv c)) (U ∪ list_to_set (c_argv c)) (proc_spec c A).1.
Proof.
  intros Hargs HA. assert (within (n + length (c_argv c)) (U ∪ list_to_set (c_argv c)) A) as HA'
    by (eapply bounded_le; [done|lia|set_solver]).
  assert (∀ flags, within (n + length (c_argv c)) (U ∪ list_to_set (c_argv c)) (zadd_cmd_spec A (c_argv c) flags).1) as Hadd.
  { intros flags. eapply bounded_le; [by apply (zadd_bounded n U)|lia|set_solver]. }
  unfold proc_spec. destruct (c_cmd c); try (by apply Hadd); try (by apply zremrange_bounded); try (by apply zpop_bounded);
    try (by apply zrange_bounded); try (by apply bounded_on_set); try (by apply bounded_on_sset);
    try (by apply bounded_on_ssets); try (by apply smove_bounded).
  - apply bounded_on_set; [done|]. intros M EM HM. apply bounded_put; [done|].
    etrans; [apply (size_foldl_delete id)|done].
  - unfold zmscore_spec. cbv zeta. by destruct (A !! _) as [[]|].
  - unfold zrank_cmd_spec. cbv zeta. repeat (destruct (_ : bool); [done|]). by apply bounded_on_set.
  - unfold zrank_cmd_spec. cbv zeta. repeat (destruct (_ : bool); [done|]). by apply bounded_on_set.
  - unfold zcount_spec. destruct (zslParseRange _ _ _); [by apply bounded_on_set|done].
  - unfold zlexcount_spec. destruct (zslParseLexRange _ _); [by apply bounded_on_set|done].
  - by apply zrangestore_bounded.
  - apply sadd_bounded; [done|set_solver].
  - apply bounded_on_sset; [done|]. intros X EX HX. apply bounded_put_sset; [done|set_solver].
  - apply bounded_on_ssets; [done|]. destruct (forallb _ _); [|by apply bounded_delete].
    apply bounded_store; [done|by eapply inter_within].
  - unfold sintercard_spec. repeat (case_match; [done || idtac|try done]); try done; by apply bounded_on_ssets.
  - apply bounded_on_ssets, bounded_store; [done|done|by eapply union_within].
  - apply bounded_on_ssets, bounded_store; [done|done|by eapply diff_within].
Qed.

Lemma spec_bounded n c A : Forall ele_ok (c_argv c) → sets_le n A → sets_le (n + length (c_argv c)) (spec c A).1.
Proof.
  intros Hargs (U & HU & HA). exists (U ∪ list_to_set (c_argv c)). split.
  - pose proof (size_of_list (c_argv c)). rewrite size_union_alt. pose proof (ssize_mono (list_to_set (c_argv c) ∖ U) (list_to_set (c_argv c)) ltac:(set_solver)). lia.
  - unfold spec. destruct (negb _); [|by apply proc_spec_bounded]. eapply bounded_le; [done|lia|set_solver].
Qed.

Lemma lex_may_bounded n U c A B : within n U A → lex_may c A B → within n U B.1.
Proof.
  intros HA. unfold lex_may. cbv zeta.
  assert (∀ key M, A !! key = Some (AZset M) → (size M ≤ n)%nat) as Hk.
  { intros key M EM. pose proof (proj1 (HA key)) as Hk. unfold aset in Hk. by rewrite EM in Hk. }
  destruct (c_cmd c); try done; try (by intros (M & l & _ & _ & ->)).
  - intros (M & M' & EM & Hs & ->). apply bounded_put; [done|]. etrans; [by apply map_subseteq_size|by eapply Hk].
  - by intros (n' & ->).
  - intros (M & l & EM & Hs & ->). apply store_bounded; [done|]. apply submseteq_length in Hs. rewrite zseq_length in Hs.
    specialize (Hk _ _ EM). lia.
Qed.

Lemma permits_bounded n c A B : Forall ele_ok (c_argv c) → sets_le n A → permits c A B → sets_le (n + length (c_argv c)) B.1.
Proof.
  intros Hargs HA Hp. destruct Hp as [|B _ Hm]; [by apply spec_bounded|]. destruct HA as (U & HU & HA).
  exists U. split; [lia|]. eapply bounded_le; [by eapply lex_may_bounded|lia|done].
Qed.

(** ** Refinement *)

(** A command that draws random numbers *)
Lemma refines_random (f : db → list Z → list (list Z) → res (db * list Z * list effect)) d rnd argv A' :
  (∃ d' rnd' effs, f d rnd argv = Ok (d', rnd', effs) ∧ db_abs d' A'.1 ∧ canon_eff <$> effs = A'.2 ∧
    (0 ≤ draws rnd')%nat) →
  refines ('(d, _, effs) ← f d rnd argv; Ok (d, effs)) A'.
Proof. intros (d' & rnd' & effs & -> & HA & He & _). rs. by eexists _, _. Qed.

(** Replies of sorted set commands have no sets. *)
Lemma group_canon effs : ∀ X, group X (canon_eff <$> effs) = group X effs.
Proof.
  induction effs as [|e effs IH]; intros X; [done|]. cbn [fmap list_fmap].
  destruct e as [[]| | | | |]; cbn [canon_eff group]; rewrite ?IH; try done; destruct X; rewrite ?IH; try done.
  all: by destruct d.
Qed.

Lemma refines_implements run spec : refines run spec → implements run spec.
Proof. intros (d & effs & E & HA & He). exists d, effs. split_and!; [done..|]. unfold canon_effs. by rewrite <- He, group_canon. Qed.

Lemma ele_sds_ok e : ele_ok e → sds_ok e.
Proof. intros [? ?]. split; [done|lia]. Qed.

Lemma sds_arg argv i : Forall ele_ok argv → sds_ok (arg argv i).
Proof.
  intros Ha. unfold arg. destruct (argv !! i) as [e|] eqn:E; cbn; [|by repeat constructor]. apply ele_sds_ok. by eapply Forall_lookup_1.
Qed.

Lemma sintercard_limit args : ∀ limit, 0 ≤ limit → match sintercard_options args limit with inl l => 0 ≤ l | inr _ => True end.
Proof.
  assert (∀ k args, (length args < k)%nat → ∀ limit, 0 ≤ limit →
    match sintercard_options args limit with inl l => 0 ≤ l | inr _ => True end) as Hk.
  { induction k as [|k IH]; intros [|opt [|value args']] Hl limit Hlim; cbn [length sintercard_options] in *; try done; try lia.
    destruct (strcaseeq _ _); [|done]. destruct (getPositiveLongFromObjectOrReply _ _) as [l|r] eqn:E; [|done].
    apply IH; [lia|]. revert E. unfold getPositiveLongFromObjectOrReply, getRangeLongFromObjectOrReply.
    repeat case_match; intros; simplify_eq; lia. }
  intros limit. apply (Hk (S (length args))). lia.
Qed.

(** The conditions that the set commands need *)
Lemma set_proc_ok n U c d A :
  config_ok → db_abs d A → within n U A → (size U ≤ n)%nat → Z.of_nat n + zlen (c_argv c) < 2 ^ 32 →
  Forall ele_ok (c_argv c) → (counts_int (c_cmd c) = true → Z.of_nat (n + length (c_argv c)) < 2 ^ 31) →
  commandCheckArity (arity (c_cmd c)) (zlen (c_argv c)) = true →
  match c_cmd c with
  | SADD | SREM | SMOVE | SISMEMBER | SMISMEMBER | SCARD | SMEMBERS
  | SINTER | SINTERSTORE | SINTERCARD | SUNION | SUNIONSTORE | SDIFF | SDIFFSTORE => implements (proc c d) (proc_spec c A)
  | _ => True
  end.
Proof.
  intros cfg HA HW HU Hsz Hargs Hint Har.
  assert (Forall sds_ok (c_argv c)) as Hs by (eapply Forall_impl; [exact Hargs|apply ele_sds_ok]).
  assert (∀ X : gset (list Z), X ⊆ U → ssize X ≤ Z.of_nat n) as Hle by (intros X HX%ssize_mono; lia).
  assert (ssets_le A UINT64_MAX) as Hss by (intros key; pose proof (Hle _ (proj2 (HW key))); lia).
  pose proof (λ i, sds_arg (c_argv c) i Hargs) as Harg.
  assert (counts_int (c_cmd c) = true → ∀ keys, ssize (union_of A keys) < 2 ^ 31) as Hun.
  { intros Ec keys. specialize (Hint Ec). pose proof (Hle _ (union_within n U A keys HW)). lia. }
  assert (∀ i, ssize (sset A (arg (c_argv c) i)) ≤ Z.of_nat n) as Hk by (intros i; apply Hle, HW).
  unfold commandCheckArity in Har. unfold proc, proc_spec. cbv zeta.
  destruct (c_cmd c); try done; cbn [arity] in Har.
  - apply sadd_cmd_ok; try done; [lia|]. specialize (Hk 1%nat). lia.
  - by apply srem_cmd_ok.
  - apply smove_cmd_ok; try done. unfold room_for. specialize (Hk 2%nat). lia.
  - by apply sismember_cmd_ok.
  - by apply smismember_cmd_ok.
  - by apply scard_cmd_ok.
  - by apply smembers_cmd_ok.
  - apply sinter_ok; [done| |done]. intros E%(f_equal length). rewrite length_drop in E. cbn in E. lia.
  - apply sinterstore_ok; [done|done| |done]. intros E%(f_equal length). rewrite length_drop in E. cbn in E. lia.
  - unfold sinterCardCommand, sintercard_spec.
    destruct (getRangeLongFromObjectOrReply _ _ _ _) as [numkeys|r] eqn:En; [|by apply implements_ok].
    assert (1 ≤ numkeys) as Hnk. { revert En. unfold getRangeLongFromObjectOrReply. repeat case_match; intros; simplify_eq; lia. }
    destruct (Z.gtb_spec numkeys (zlen (c_argv c) - 2)); [by apply implements_ok|].
    pose proof (sintercard_limit (drop (2 + Z.to_nat numkeys) (c_argv c)) 0 ltac:(lia)) as Hl.
    destruct (sintercard_options _ _) as [limit|r]; [|by apply implements_ok]. apply sintercard_ok; [done| |done|done].
    intros E%(f_equal length). rewrite length_take, length_drop in E. cbn in E. lia.
  - apply (union_diff_ok (c_can c) d A _ None SET_OP_UNION); [done|done|by apply Hun].
  - apply (union_diff_ok (c_can c) d A _ (Some _) SET_OP_UNION); [done|done|by apply Hun].
  - apply (union_diff_ok (c_can c) d A _ None SET_OP_DIFF); [done|done|by apply Hun].
  - apply (union_diff_ok (c_can c) d A _ (Some _) SET_OP_DIFF); [done|done|by apply Hun].
Qed.

Lemma execute_ok n c d A :
  zset_max_listpack_entries ≤ 2 ^ 26 → config_ok → db_abs d A → sets_le n A → Z.of_nat n + zlen (c_argv c) < 2 ^ 32 →
  call_ok (n + length (c_argv c)) c → lex_ok c A →
  implements (execute c d) (spec c A).
Proof.
  intros Hmax cfg HA (U & HU & HW) Hsz (Hargs & Hrnd & Hint) Hlex.
  unfold execute, spec. destruct (commandCheckArity _ _) eqn:Har; cbn [negb]; [|by apply implements_ok].
  pose proof (set_proc_ok n U c d A cfg HA HW HU Hsz Hargs Hint Har) as Hset.
  assert (∀ key, (size (aset A key) ≤ n)%nat) as Hn by apply HW.
  assert (∀ key, Z.of_nat (size (aset A key)) ≤ Z.of_nat n) as Hk by (intros key; specialize (Hn key); lia).
  assert (∀ flags, refines ('(d, _, effs) ← zaddGenericCommand d (c_random c) (c_argv c) flags; Ok (d, effs))
    (zadd_cmd_spec A (c_argv c) flags)) as Hadd.
  { intros flags. apply (refines_random (λ d rnd argv, zaddGenericCommand d rnd argv flags)).
    apply zadd_cmd_ok; [done|done|done| |]; specialize (Hk (arg (c_argv c) 1)); specialize (Hn (arg (c_argv c) 1)); [lia|].
    unfold add_draws. nia. }
  unfold lex_ok, lex_key in Hlex. unfold proc, proc_spec in *. cbv zeta in *.
  pose proof (Hk (arg (c_argv c) 1)) as Hk1. pose proof (Hk (arg (c_argv c) 2)) as Hk2. fold (msize (aset A (arg (c_argv c) 1))) in Hk1.
  destruct (c_cmd c); try exact Hset; clear Hset; apply refines_implements; try apply Hadd.
  all: try (apply zrange_cmd_ok; [done|]; intros o rev r E; by rewrite E in Hlex).
  all: try (apply zremrange_cmd_ok; [done|done|done|lia]); try (apply zpop_cmd_ok; done).
  all: try (apply zrank_cmd_ok; [done|lia]).
  - by apply zrem_cmd_ok.
  - by apply zcard_cmd_ok.
  - by apply zscore_cmd_ok.
  - by apply zmscore_cmd_ok.
  - apply zcount_cmd_ok; [done|lia].
  - apply zlexcount_cmd_ok; [done|lia|done].
  - apply refines_random, zrangestore_cmd_ok; [done|done|lia| |].
    + specialize (Hn (arg (c_argv c) 2)). unfold add_draws. rewrite map_size_empty. nia.
    + intros o rev r E. by rewrite E in Hlex.
Qed.

(** A lexicographic command on a set whose scores differ *)
Lemma execute_lex n c d A :
  zset_max_listpack_entries ≤ 2 ^ 26 → db_abs d A → sets_le n A → Z.of_nat n + zlen (c_argv c) < 2 ^ 32 →
  call_ok (n + length (c_argv c)) c → ¬ lex_ok c A →
  ∃ B, (B = spec c A ∨ lex_may c A B) ∧ implements (execute c d) B.
Proof.
  intros Hmax HA (U & HU & HW) Hsz (Hargs & Hrnd & Hint) Hlex. unfold execute, spec.
  destruct (commandCheckArity _ _); cbn [negb]; [|eexists; split; [by left|by apply implements_ok]].
  destruct (lex_fails c A Hlex) as (key & M & Ekey & EM). clear Hlex.
  pose proof (proj1 (HW key)) as Hn. unfold aset in Hn. rewrite EM in Hn.
  assert (∀ t dir, match zrange_parse (c_argv c) 1 false t dir with inl (_, _, ByLex _) => Some (arg (c_argv c) 1) | _ => None end = Some key →
    ∃ M l, A !! arg (c_argv c) 1 = Some (AZset M) ∧ l ⊆+ zseq M ∧
      refines (zrange_client d (c_argv c) (c_resp c) t dir) (A, Reply <$> zrange_reply (c_resp c) false l)) as Hrange.
  { intros t dir Hp. destruct (zrange_parse _ _ _ _ _) as [[[o rev] [| |r]]|] eqn:Ep; try done. injection Hp as <-.
    destruct (zrange_lex_cmd d A _ (c_resp c) _ _ _ _ _ M HA EM Ep) as (l & Hs & Hr). eauto. }
  unfold lex_key in Ekey. unfold proc, proc_spec, lex_may. cbv zeta in *. destruct (c_cmd c); try done.
  all: try (destruct (Hrange _ _ Ekey) as (M' & l & E & Hs & Hr); eexists; split; [right; by exists M', l|by apply refines_implements]).
  - injection Ekey as <-. destruct (zremrange_lex_cmd d A _ M HA EM) as (B & Hr & [->|(M' & Hs & ->)]);
      (eexists; split; [|by apply refines_implements]); [by left|right; by exists M, M'].
  - injection Ekey as <-. destruct (zlexcount_cmd d A _ M HA EM) as (B & Hr & [->|(m & ->)]);
      (eexists; split; [|by apply refines_implements]); [by left|right; by exists m].
  - destruct (zrange_parse _ _ _ _ _) as [[[o rev] [| |r]]|] eqn:Ep; try done. injection Ekey as <-.
    edestruct (zrangestore_lex_cmd Hmax d A (c_random c) (c_argv c) o rev r M 0 HA EM) as (l & d' & rnd' & effs & Hs & Hr);
      [lia|unfold add_draws; rewrite map_size_empty; nia|exact Ep|].
    exists (store_spec A (arg (c_argv c) 1) l). split; [right; by exists M, l|]. apply refines_implements, refines_random. eauto.
Qed.

(** A command runs to its end, and does what it may. *)
Lemma execute_permits n c d A :
  zset_max_listpack_entries ≤ 2 ^ 26 → config_ok → db_abs d A → sets_le n A → Z.of_nat n + zlen (c_argv c) < 2 ^ 32 →
  call_ok (n + length (c_argv c)) c →
  ∃ B, permits c A B ∧ implements (execute c d) B ∧ sets_le (n + length (c_argv c)) B.1.
Proof.
  intros Hmax cfg HA Hn Hsz Hok.
  assert (∃ B, permits c A B ∧ implements (execute c d) B) as (B & Hp & Hi).
  { destruct (lex_ok_dec c A) as [Hl|Hl].
    - exists (spec c A). split; [constructor|]. by apply (execute_ok n).
    - destruct (execute_lex n c d A Hmax HA Hn Hsz Hok Hl) as (B & [->|Hm] & Hi); eexists; (split; [|exact Hi]);
        [constructor|by apply permits_lex]. }
  exists B. split_and!; [done|done|]. eapply permits_bounded; [apply Hok|done|done].
Qed.

(** A sequence of commands that starts with sets of at most [n] elements *)
Lemma run_ok cs : ∀ n N d A,
  zset_max_listpack_entries ≤ 2 ^ 26 → config_ok → db_abs d A → sets_le n A → (n + total_args cs ≤ N)%nat → Z.of_nat N < 2 ^ 32 →
  Forall (call_ok N) cs →
  ∃ d' out B out', run cs d = Ok (d', out) ∧ permits_all cs A B out' ∧ db_abs d' B ∧ canon_out out = canon_out out'.
Proof.
  induction cs as [|c cs IH]; intros n N d A Hmax cfg HA Hn HN Hsz Hok; cbn [run].
  { eexists _, _, _, _. split_and!; [done|constructor|done|done]. }
  apply Forall_cons in Hok as [(Hargs & Hrnd & Hint) Hok].
  unfold total_args in HN. cbn [fmap list_fmap sum_list sum_list_with foldr] in HN. fold (total_args cs) in HN.
  change (sum_list (length ∘ c_argv <$> cs)) with (total_args cs) in HN. cbn [compose] in HN.
  destruct (execute_permits n c d A Hmax cfg HA Hn ltac:(cbn in HN; lia)) as ([B effs1] & Hp & (d1 & effs & -> & HA1 & He) & Hn1);
    [split_and!; [done|..]|].
  { etrans; [|exact Hrnd]. cbn in HN. nia. }
  { intros E. specialize (Hint E). cbn in HN. lia. }
  rs. cbn [fst snd] in *.
  destruct (IH (n + length (c_argv c))%nat N d1 B) as (d2 & out & C & out2 & -> & Hps & HA2 & Ho); [done|done|done|done| |done|done|].
  { cbn in HN. lia. }
  rs. exists d2, (effs :: out), C, (effs1 :: out2). split_and!; [done|by eapply permits_cons|done|].
  unfold canon_out in *. rewrite !fmap_cons. by rewrite He, Ho.
Qed.
End server.
