(* ===== verification/CmdContract.v ===== *)
(** The contract of the commands on sorted sets and sets: sequences of commands
    behave as on finite maps and finite sets, whatever the encodings; every database
    they reach is well formed; errors change nothing; popping empties a sorted set in
    order. *)

From S2P Require Import Prelude Numstr Sds Skiplist SklRep SklMod SklSpec Double Object Zzl ZzlRep.
From S2P Require Import ZsetContract Zset.
From S2P Require Import ZsetRep ZsetSkl ZsetConv ZsetSpec ZsetApi ZsetCmd ZsetRange ZsetCmdSpec.
From S2P Require Import ZsetCmdRefine ZpopSpec Zrange ZrangeSpec ZrangeCmd LexAny CmdServer.
From S2P Require Import Endian Dict SdsDict SetType SetRep Keyspace KeyspaceRep.
From S2P Require Import SetApi SetCmd SetCmdSpec SetMulti SetContract Intset.
From Stdlib Require Import SpecFloat.

(** ** Errors *)

Definition is_error (e : effect) : bool :=
  match e with Reply (ReplyError _) | Reply ReplyErrorArity => true | _ => false end.

(** One error and no change, or no error *)
Definition atomic (A : adb) (r : adb * list effect) : Prop :=
  (∃ e, r = (A, [Reply e]) ∧ is_error (Reply e) = true) ∨ Forall (λ e, is_error e = false) r.2.

Lemma atomic_none A B effs : Forall (λ e, is_error e = false) effs → atomic A (B, effs).
Proof. by right. Qed.
Lemma atomic_one A e : atomic A (A, [Reply e]).
Proof. destruct (is_error (Reply e)) eqn:E; [left; by exists e|right; by repeat constructor]. Qed.
Create HintDb atomic.
#[export] Hint Resolve atomic_one : atomic.

Lemma atomic_on_set A key missing f :
  (∀ M, A !! key = Some (AZset M) → atomic A (f M)) → atomic A (on_set A key missing f).
Proof. intros Hf. unfold on_set. destruct (A !! key) as [[M|]|]; auto with atomic. Qed.

Lemma atomic_on_sset A key missing f : Forall (λ e, is_error e = false) missing →
  (∀ X, A !! key = Some (ASet X) → atomic A (f X)) → atomic A (on_sset A key missing f).
Proof. intros Hm Hf. unfold on_sset. destruct (A !! key) as [[M|[X|]]|]; auto using atomic_none with atomic. Qed.

Lemma atomic_on_ssets A keys go : atomic A go → atomic A (on_ssets A keys go).
Proof. intros Hg. unfold on_ssets. destruct (forallb _ _); auto with atomic. Qed.

Lemma set_reply_fine X : Forall (λ e, is_error e = false) (set_reply X).
Proof. unfold set_reply. constructor; [done|]. by apply Forall_fmap, Forall_true. Qed.

Lemma deleted_fine A dst effs : Forall (λ e, is_error e = false) effs → Forall (λ e, is_error e = false) (deleted_dst A dst effs).
Proof. unfold deleted_dst. by destruct (A !! dst). Qed.

Lemma atomic_store A event dst X : atomic A (store_sset A event dst X).
Proof.
  unfold store_sset. destruct (decide _); apply atomic_none.
  - constructor; [done|]. apply deleted_fine. by repeat constructor.
  - apply Forall_app. split; [repeat case_match; by repeat constructor|by repeat constructor].
Qed.

Lemma sadd_atomic A argv : atomic A (sadd_spec A argv).
Proof.
  unfold sadd_spec. cbv zeta. repeat case_match; auto with atomic; apply atomic_none; by repeat constructor.
Qed.

Lemma smove_atomic A argv : atomic A (smove_spec A argv).
Proof.
  unfold smove_spec. cbv zeta. apply atomic_on_sset; [by repeat constructor|]. intros X _.
  repeat case_match; auto with atomic; apply atomic_none; by repeat constructor.
Qed.

Lemma srem_atomic A argv : atomic A (srem_spec A argv).
Proof.
  unfold srem_spec. cbv zeta. apply atomic_on_sset; [by repeat constructor|]. intros X _.
  apply atomic_none. repeat case_match; by repeat constructor.
Qed.

Lemma set_spec_atomic A argv :
  atomic A (sismember_spec A argv) ∧ atomic A (smismember_spec A argv) ∧ atomic A (scard_spec A argv) ∧
  atomic A (smembers_spec A argv) ∧ atomic A (sinter_spec A argv) ∧ atomic A (sinterstore_spec A argv) ∧
  atomic A (sintercard_spec A argv) ∧ atomic A (sunion_spec A argv) ∧ atomic A (sdiff_spec A argv).
Proof.
  unfold sismember_spec, smismember_spec, scard_spec, smembers_spec, sinter_spec, sinterstore_spec, sunion_spec, sdiff_spec. cbv zeta.
  split_and!.
  - apply atomic_on_sset; [by repeat constructor|]. intros X _. apply atomic_one.
  - apply atomic_on_sset; [|intros X _; apply atomic_none]; (constructor; [done|]); apply Forall_fmap, Forall_true; try done.
    intros m. cbn. unfold member_reply. by case_bool_decide.
  - apply atomic_on_sset; [by repeat constructor|]. intros X _. apply atomic_one.
  - apply atomic_on_sset; [apply set_reply_fine|]. intros X _. apply atomic_none, set_reply_fine.
  - apply atomic_on_ssets, atomic_none, set_reply_fine.
  - apply atomic_on_ssets. destruct (forallb _ _); [apply atomic_store|]. apply atomic_none, Forall_app.
    split; [apply deleted_fine; by repeat constructor|by repeat constructor].
  - unfold sintercard_spec. repeat case_match; auto with atomic. apply atomic_on_ssets, atomic_one.
  - apply atomic_on_ssets, atomic_none, set_reply_fine.
  - apply atomic_on_ssets, atomic_none, set_reply_fine.
Qed.

(** Errors are not moved or merged with other replies. *)
Lemma bulks_fine l : existsb is_error (bulk <$> l) = false.
Proof. by induction l. Qed.

Lemma group_errors effs : ∀ X, existsb is_error (group X effs) = existsb is_error effs.
Proof.
  assert (∀ X, existsb is_error (flush X) = false) as Hf by (intros [X|]; [apply bulks_fine|done]).
  induction effs as [|e effs IH]; intros X; cbn [group existsb]; [apply Hf|].
  destruct e as [[]| | | | |]; try (rewrite existsb_app; cbn [existsb]; by rewrite Hf, IH).
  destruct X; [apply IH|]. rewrite existsb_app. cbn [existsb]. by rewrite Hf, IH.
Qed.

Lemma group_one effs e : canon_effs effs = canon_effs [Reply e] → is_error (Reply e) = true →
  ∃ e', effs = [e'] ∧ is_error e' = true.
Proof.
  intros E He. assert (canon_effs [Reply e] = [Reply e]) as E1 by by destruct e. rewrite E1 in E. clear E1.
  assert (∀ effs, group None effs = [] → effs = []) as Hnil.
  { intros [|e1 effs1]; [done|]. cbn. by destruct e1 as [[]| | | | |]. }
  destruct effs as [|e1 effs]; [done|]. unfold canon_effs in E. cbn [group] in E.
  destruct e1 as [[]| | | | |]; cbn [flush from_option app canon_eff] in E; injection E as E Er; subst; try done;
    apply Hnil in Er as ->; eexists; split; done.
Qed.

Section errors.
Context `{FloatText} `{StrtodErrno}.

Lemma zadd_atomic A argv flags : atomic A (zadd_cmd_spec A argv flags).
Proof.
  unfold zadd_cmd_spec. cbv zeta. destruct (zadd_parse argv flags) as [g|r]; [|apply atomic_one].
  assert (∀ M, atomic A (zadd_run_spec A (arg argv 1) M g)) as Hrun.
  { intros M. unfold zadd_run_spec. destruct (zadd_fold _ _ _ _) as [[M' c] ok]. destruct (negb ok); [apply atomic_one|].
    apply atomic_none. unfold zadd_cleanup. repeat constructor; repeat case_match; by repeat constructor. }
  destruct (A !! _) as [[M|]|]; [apply Hrun|apply atomic_one|]. destruct (negb _); [apply atomic_one|apply Hrun].
Qed.

Lemma zpop_effects_fine key wh nested l : ∀ first, Forall (λ e, is_error e = false) (zpop_effects key wh nested first l).
Proof. induction l as [|v l IH]; intros first; [done|]. cbn [zpop_effects]. destruct first, nested; repeat (constructor; [done|]); apply IH. Qed.

Lemma zrange_reply_fine resp ws l : Forall (λ e, is_error e = false) (Reply <$> zrange_reply resp ws l).
Proof.
  unfold zrange_reply. rewrite fmap_cons. constructor; [done|]. induction l as [|v l IH]; [done|]. cbn [mbind list_bind].
  rewrite fmap_app. apply Forall_app. split; [destruct ws, (resp >? 2); by repeat constructor|done].
Qed.

Lemma store_atomic A B dst l : atomic A (store_spec B dst l).
Proof.
  unfold store_spec. right. destruct l; [destruct (B !! dst); by repeat constructor|].
  apply Forall_app. split; [destruct (B !! dst) as [[]|]; by repeat constructor|by repeat constructor].
Qed.

Lemma spec_atomic c A : atomic A (spec c A).
Proof.
  unfold spec. destruct (negb _); [apply atomic_one|]. unfold proc_spec. cbv zeta.
  destruct (c_cmd c); try apply zadd_atomic; try apply sadd_atomic; try apply srem_atomic; try apply smove_atomic; try apply set_spec_atomic.
  all: try apply atomic_on_ssets, atomic_store.
  all: try (unfold zrange_spec; destruct (zrange_parse _ _ _ _ _) as [[[o rev] range]|r]; [|apply atomic_one];
    apply atomic_on_set; intros M _; apply atomic_none, zrange_reply_fine).
  all: try (unfold zremrange_spec; cbv zeta; destruct (zremrange_parse _ _ _) as [[range|r]|]; [|apply atomic_one|by right];
    apply atomic_on_set; intros M _; destruct (kept_by M range); [|apply atomic_one];
    apply atomic_none, Forall_app; split; [repeat case_match; by repeat constructor|by repeat constructor]).
  all: try (unfold zpop_spec; cbv zeta; destruct (_ >? 3); [apply atomic_one|];
    destruct (if _ =? 3 then _ else _) as [count|r]; [|apply atomic_one]; apply atomic_on_set; intros M _;
    destruct (count =? 0); [apply atomic_one|]; apply atomic_none; constructor; [done|]; apply Forall_app;
    split; [apply zpop_effects_fine|]; apply Forall_app; split; [case_match; by repeat constructor|by repeat constructor]).
  all: try (unfold zrank_cmd_spec; cbv zeta; repeat (destruct (_ : bool); [apply atomic_one|]);
    apply atomic_on_set; intros M _; apply atomic_none; repeat case_match; by repeat constructor).
  - apply atomic_on_set. intros M _. unfold score_reply. apply atomic_one.
  - unfold zmscore_spec. cbv zeta. assert (∀ M : zabs, atomic A (A, Reply (ReplyArrayLen (zlen (c_argv c) - 2)) ::
      ((λ m, score_reply (M !! m)) <$> drop 2 (c_argv c)))) as Hgo.
    { intros M. apply atomic_none. constructor; [done|]. apply Forall_fmap, Forall_forall. intros m _. cbn.
      unfold score_reply. by destruct (M !! m). }
    destruct (A !! _) as [[M|]|]; [apply Hgo|apply atomic_one|apply Hgo].
  - unfold zcount_spec. destruct (zslParseRange _ _ _); [|apply atomic_one]. apply atomic_on_set. intros M _. apply atomic_one.
  - unfold zlexcount_spec. destruct (zslParseLexRange _ _); [|apply atomic_one]. apply atomic_on_set. intros M _. apply atomic_one.
  - unfold zrangestore_spec. destruct (zrange_parse _ _ _ _ _) as [[[o rev] range]|r]; [|apply atomic_one].
    destruct (A !! _) as [[M|]|]; [apply store_atomic|apply atomic_one|apply store_atomic].
Qed.

Lemma permits_atomic c A B : permits c A B → atomic A B.
Proof.
  intros [|B' _ Hm]; [apply spec_atomic|]. revert Hm. unfold lex_may. cbv zeta.
  destruct (c_cmd c); try done; try (by intros (M & l & _ & _ & ->); apply atomic_none, zrange_reply_fine).
  - intros (M & M' & _ & _ & ->). unfold zremrange_effects. apply atomic_none, Forall_app.
    split; [repeat case_match; by repeat constructor|by repeat constructor].
  - intros (n & ->). apply atomic_one.
  - intros (M & l & _ & _ & ->). apply store_atomic.
Qed.
End errors.

(** ** Reachable databases *)

Section reach.
Context `{Arch} `{SetConfig} `{Allocator} `{NodeAlloc} `{FloatTextLaws} `{StrtodErrno} `{!StrtodLaws} `{Server} `{Qsort}.

(** A call that a server with at most [N] arguments in its history may get *)
Definition admissible (N n : nat) (c : call) : Prop := call_ok N c ∧ (n + length (c_argv c) ≤ N)%nat.

(** The databases after [n] arguments in all *)
Inductive reachable (N : nat) : nat → db → Prop :=
  | reach_empty : reachable N 0 ∅
  | reach_step n d c d' effs :
      reachable N n d → admissible N n c → execute c d = Ok (d', effs) →
      reachable N (n + length (c_argv c)) d'.

(** Every sorted set of a database is stored as one of its encodings says, is
    sorted without duplicates or scores that are not numbers, and is not empty; every
    set is stored as one of its encodings says, has no duplicates, and is not empty. *)
Definition db_wf (d : db) : Prop :=
  ∀ key, match d !! key with
         | Some (KZset o) => ∃ vs, zset_rep o vs ∧ vs ≠ []
         | Some (KSet o) => ∃ X, set_rep o X ∧ X ≠ ∅
         | _ => True
         end.

Lemma db_abs_wf d A : db_abs d A → db_wf d.
Proof.
  intros HA key. destruct (db_abs_lookup d A key HA) as [[-> _]|[(v & a & -> & _ & Ha)|(o & M & -> & _ & (vs & Hr & <-) & Hne)]]; [done| |].
  - destruct v as [o|]; [|done]. destruct a as [X|]; [|done]. by exists X.
  - exists vs. split; [done|]. by intros ->.
Qed.

Lemma db_abs_empty : db_abs ∅ ∅.
Proof. intros key. rewrite !lookup_empty. constructor. Qed.

Lemma admissible_ok N n d A c :
  zset_max_listpack_entries ≤ 2 ^ 26 → config_ok → Z.of_nat N < 2 ^ 32 → db_abs d A → sets_le n A → admissible N n c →
  ∃ B, permits c A B ∧ implements (execute c d) B ∧ sets_le (n + length (c_argv c)) B.1.
Proof.
  intros Hmax cfg HN HA Hn ((Hargs & Hrnd & Hint) & Hle). apply execute_permits; [done|done|done|done|lia|].
  split_and!; [done|etrans; [|exact Hrnd]; nia|]. intros E. specialize (Hint E). lia.
Qed.

Lemma sets_le_empty n : sets_le n ∅.
Proof.
  exists ∅. rewrite size_empty. split; [lia|]. intros key. unfold aset, sset. rewrite lookup_empty, map_size_empty. split; [lia|done].
Qed.

Lemma reachable_abs N n d :
  zset_max_listpack_entries ≤ 2 ^ 26 → config_ok → Z.of_nat N < 2 ^ 32 → reachable N n d → ∃ A, db_abs d A ∧ sets_le n A.
Proof.
  intros Hmax cfg HN Hr. induction Hr as [|n d c d' effs Hr (A & HA & Hn) Hadm Hex].
  - exists ∅. split; [apply db_abs_empty|apply sets_le_empty].
  - destruct (admissible_ok N n d A c Hmax cfg HN HA Hn Hadm) as (B & _ & (d1 & effs1 & E & HA1 & _) & Hn1).
    rewrite Hex in E. injection E as <- <-. by exists B.1.
Qed.
End reach.

(** ** Popping *)

(** The elements and scores in the effects of a pop *)
Fixpoint popped (effs : list effect) : list value :=
  match effs with
  | Reply (ReplyBulk e) :: Reply (ReplyDouble s) :: effs => (s, e) :: popped effs
  | _ :: effs => popped effs
  | [] => []
  end.

Section drain.
Context `{Arch} `{SetConfig} `{Allocator} `{NodeAlloc} `{FloatTextLaws} `{StrtodErrno} `{Server} `{Qsort}.

Definition pop_call (wh : zset_where) (key : list Z) (resp : Z) : call :=
  Call (match wh with ZSET_MIN => ZPOPMIN | ZSET_MAX => ZPOPMAX end) [[]; key] resp [] DICT_RESIZE_ENABLE.

(** A pop without a count takes one element. *)
Lemma zpop_one A key M resp wh v rest :
  A !! key = Some (AZset M) → 0 < msize M → from_end wh (zseq M) = v :: rest →
  (zpop_spec A [[]; key] resp wh).1 = put_set A key (delete v.2 M) ∧
  popped (zpop_spec A [[]; key] resp wh).2 = [v].
Proof.
  intros EA Hsz Hseq. unfold zpop_spec. change (zlen [[]; key] >? 3) with false. change (zlen [[]; key] =? 3) with false.
  cbv zeta iota. change (arg [[]; key] 1) with key. unfold on_set. rewrite EA. change (-1 =? 0) with false.
  change (-1 =? -1) with true. cbv iota. rewrite Z.min_l by lia. rewrite Hseq.
  change (take (Z.to_nat 1) (v :: rest)) with [v]. cbn [negb]. rewrite andb_false_r. cbn [foldl fst snd]. split; [done|].
  destruct v as [s e]. cbn [zpop_effects app popped fst snd]. f_equal. by destruct (bool_decide _).
Qed.

Lemma zseq_empty : zseq ∅ = [].
Proof. apply length_zero_iff_nil. by rewrite zseq_length, map_size_empty. Qed.

Lemma drain_ok wh key resp : ∀ n d A M,
  db_abs d A → A !! key = Some (AZset M) → size M = n →
  ∃ d' out, run (replicate n (pop_call wh key resp)) d = Ok (d', out) ∧ db_abs d' (delete key A) ∧
    popped ∘ fmap canon_eff <$> out = (λ v, [v]) <$> from_end wh (zseq M).
Proof.
  induction n as [|n IH]; intros d A M HA EA Hn; cbn [replicate run];
    destruct (db_abs_lookup d A key HA) as [[_ E]|[(? & ? & _ & E & _)|(o & M' & _ & E & HM & Hne)]]; [congruence|congruence| |congruence|congruence|];
    rewrite EA in E; injection E as <-.
  { by apply map_size_empty_inv in Hn. }
  destruct (pop_one o M wh HM Hne) as (w & rest & o' & _ & Hseq & _ & HM' & Hrest & Hsz).
  pose proof (zpop_cmd_ok d A [[]; key] resp wh HA) as (d1 & effs & He & HA1 & Hout).
  assert (execute (pop_call wh key resp) d = zpopMinMaxCommand d [[]; key] resp wh) as -> by by destruct wh.
  destruct (zpop_one A key M resp wh (cval w) rest EA ltac:(unfold msize; lia) Hseq) as [E1 E2].
  rewrite E1 in HA1. rewrite <- Hout in E2. change (cval w).2 with w.2 in HA1. rewrite He. rs.
  unfold put_set in HA1. destruct (decide (delete w.2 M = ∅)) as [E0|E0].
  - assert (n = 0%nat) as -> by (rewrite E0, map_size_empty in Hsz; lia). cbn [replicate run]. rs.
    eexists _, _. split; [done|]. split; [done|]. cbn [fmap list_fmap compose]. rewrite E2, Hseq.
    rewrite E0, zseq_empty in Hrest. by destruct wh; cbn in Hrest; subst rest.
  - destruct (IH d1 _ (delete w.2 M) HA1 (lookup_insert_eq _ _ _) ltac:(lia)) as (d2 & out & -> & HA2 & Hp). rs.
    rewrite delete_insert_eq in HA2. eexists _, _. split; [done|]. split; [done|].
    rewrite !fmap_cons, Hp. cbn [compose]. rewrite E2, Hseq, Hrest. done.
Qed.
End drain.

(** ** The whole sequence *)

Section all.
Context `{Arch} `{SetConfig} `{Allocator} `{NodeAlloc} `{FloatTextLaws} `{Server}.

(** ZRANGE key 0 -1 WITHSCORES *)
Definition zrange_all_args (key : list Z) : list (list Z) :=
  [chars "zrange"; key; chars "0"; chars "-1"; chars "withscores"].

Lemma zrange_all_parse key :
  zrange_parse (zrange_all_args key) 1 false ZRANGE_AUTO ZRANGE_DIRECTION_AUTO =
    inl (ZOpts true 0 (-1) ZRANGE_DIRECTION_AUTO ZRANGE_AUTO, false, ByRank 0 (-1)).
Proof. done. Qed.

Lemma ranked_all M : M ≠ ∅ → ranked false M 0 (-1) = zseq M.
Proof.
  intros Hne. assert (size M ≠ 0%nat) by (by intros ?%map_size_empty_inv). unfold ranked, sanitize_indexes. cbv zeta.
  change (0 <? 0) with false. change (-1 <? 0) with true. cbv iota. change (0 <? 0) with false. cbv iota.
  unfold msize. destruct (_ || _) eqn:E; [lia|]. cbn [dirl].
  change (Z.to_nat 0) with 0%nat. rewrite drop_0. apply take_ge. rewrite zseq_length. case_match; lia.
Qed.

Lemma zseq_sorted o M : zset_abs o M → StronglySorted vlt (zseq M) ∧ zmap (zseq M) = M.
Proof.
  intros (vs & Hr & <-). rewrite zseq_zmap by apply Hr. split; [|apply zmap_cval].
  pose proof (vals_sorted _ (proj1 Hr)) as HS. clear Hr. induction HS as [|v vs HS IH Hall]; [constructor|].
  rewrite fmap_cons. constructor; [done|]. apply Forall_fmap. eapply Forall_impl; [exact Hall|].
  intros w Hw. unfold vlt in *. cbn. by rewrite !cval_key.
Qed.
End all.

(** ** The contract *)

Section contract.
Context `{Arch} `{SetConfig} `{Allocator} `{NodeAlloc} `{FloatTextLaws} `{StrtodErrno} `{!StrtodLaws} `{Server} `{Qsort}.

(** C2: a sequence of commands on sorted sets and sets, on any database, runs to its
    end: no access faults, no assertion fails and no loop runs on; and it does what
    [permits_all] allows on finite maps and finite sets: what [spec] says of each command,
    except that a lexicographic command (ZREMRANGEBYLEX, ZLEXCOUNT, ZRANGEBYLEX,
    ZREVRANGEBYLEX, and ZRANGE and ZRANGESTORE with BYLEX) on a sorted set whose scores
    differ may take any of its elements, each at most once, or reply any count.  If every
    lexicographic command meets equal scores, the keys and the replies, notifications and
    statistics are those of [run_spec].  Replies are compared up to the sign of a zero score
    and the order of the elements of a set.  The specification has the parsers of
    arguments and the check of the number of arguments in common with the model.  The sets
    have less than 2^32 elements. *)
Theorem commands_refine cs n N d A :
  zset_max_listpack_entries ≤ 2 ^ 26 → config_ok → db_abs d A → sets_le n A → (n + total_args cs ≤ N)%nat → Z.of_nat N < 2 ^ 32 →
  Forall (call_ok N) cs →
  ∃ d' out B out', run cs d = Ok (d', out) ∧ permits_all cs A B out' ∧ db_abs d' B ∧ canon_out out = canon_out out' ∧
    (lex_oks cs A → (B, out') = run_spec cs A).
Proof.
  intros Hmax cfg HA Hn HN Hsz Hok.
  destruct (run_ok cs n N d A Hmax cfg HA Hn HN Hsz Hok) as (d' & out & B & out' & Hr & Hp & HB & Ho).
  exists d', out, B, out'. split_and!; [done..|]. intros Hlex. destruct (permits_all_spec cs A B out' Hlex Hp) as [-> ->].
  by destruct (run_spec cs A).
Qed.

(** C6: every database that commands reach from the empty one, lexicographic commands
    on any scores included, is well formed: each sorted set is what its encoding
    says, sorted by score and then by bytes, without duplicates, without scores that are
    not numbers, and not empty; each set is what its encoding says, without duplicates,
    and not empty; and every further command runs to its end without a fault. *)
Theorem reachable_invariant N n d :
  zset_max_listpack_entries ≤ 2 ^ 26 → config_ok → Z.of_nat N < 2 ^ 32 → reachable N n d →
  db_wf d ∧ ∀ c, admissible N n c → ∃ d' effs, execute c d = Ok (d', effs).
Proof.
  intros Hmax cfg HN Hr. destruct (reachable_abs N n d Hmax cfg HN Hr) as (A & HA & Hn). split; [by eapply db_abs_wf|].
  intros c Hadm. destruct (admissible_ok N n d A c Hmax cfg HN HA Hn Hadm) as (B & _ & (d' & effs & E & _) & _). eauto.
Qed.

(** C7: a command that replies an error replies nothing else and changes no key. *)
Theorem command_error_atomic c n d A d' effs :
  zset_max_listpack_entries ≤ 2 ^ 26 → config_ok → db_abs d A → sets_le n A → Z.of_nat n + zlen (c_argv c) < 2 ^ 32 →
  call_ok (n + length (c_argv c)) c →
  execute c d = Ok (d', effs) → existsb is_error effs = true →
  (∃ e, effs = [e] ∧ is_error e = true) ∧ db_abs d' A.
Proof.
  intros Hmax cfg HA Hn Hsz Hok Hex Herr.
  destruct (execute_permits n c d A Hmax cfg HA Hn Hsz Hok) as (B & Hp & (d1 & effs1 & E & HA1 & Hout) & _).
  rewrite Hex in E. injection E as <- <-.
  destruct (permits_atomic c A B Hp) as [(e & Hs & He)|Hfine]; [rewrite Hs in HA1, Hout; split; [by eapply group_one|done]|].
  exfalso. unfold canon_effs in Hout. apply (f_equal (existsb is_error)) in Hout. rewrite !group_errors, Herr in Hout.
  symmetry in Hout. apply existsb_exists in Hout as (e & Hin%list_elem_of_In & He).
  rewrite Forall_forall in Hfine. specialize (Hfine e Hin). congruence.
Qed.

(** C17: popping from one end as often as the set has elements removes the key, and
    replies all elements in order, one each time. *)
Theorem zpop_drains wh key resp d A M :
  db_abs d A → A !! key = Some (AZset M) →
  ∃ d' out, run (replicate (size M) (pop_call wh key resp)) d = Ok (d', out) ∧ db_abs d' (delete key A) ∧
    popped ∘ fmap canon_eff <$> out = (λ v, [v]) <$> from_end wh (zseq M).
Proof. intros HA EA. by apply drain_ok. Qed.

(** C18: ZRANGE from 0 to -1 with scores replies the whole set, in strictly
    increasing order of scores and bytes, and changes no key. *)
Theorem zrange_whole d A key M :
  db_abs d A → A !! key = Some (AZset M) →
  ∃ d' effs, zrangeCommand d (zrange_all_args key) 2 = Ok (d', effs) ∧ db_abs d' A ∧
    canon_eff <$> effs = Reply (ReplyArrayLen (msize M * 2)) ::
      (zseq M ≫= λ v, [Reply (ReplyBulk v.2); Reply (ReplyDouble v.1)]) ∧
    StronglySorted vlt (zseq M) ∧ zmap (zseq M) = M.
Proof.
  intros HA EA. destruct (db_abs_lookup d A key HA) as [[_ E]|[(? & ? & _ & E & _)|(o & M' & _ & E & HM & Hne)]]; [congruence|congruence|].
  rewrite EA in E. injection E as <-.
  destruct (zrange_cmd_ok d A (zrange_all_args key) 2 ZRANGE_AUTO ZRANGE_DIRECTION_AUTO HA) as (d' & effs & Hr & HA' & Ho).
  { by rewrite zrange_all_parse. }
  destruct (zseq_sorted o M HM) as [Hs Hm]. exists d', effs. split; [done|].
  unfold zrange_spec in HA', Ho. rewrite zrange_all_parse in HA', Ho. unfold on_set in HA', Ho.
  change (arg (zrange_all_args key) 1) with key in *. rewrite EA in HA', Ho. cbn [fst snd zrange_items zo_withscores] in *.
  rewrite ranked_all in Ho by done. split; [done|]. split; [|done]. rewrite Ho. unfold zrange_reply.
  rewrite zseq_length. cbn [andb]. change (2 =? 2) with true. change (2 >? 2) with false. cbv iota.
  rewrite fmap_cons. f_equal. clear. induction (zseq M) as [|v l IH]; [done|]. cbn [mbind list_bind app] in *.
  rewrite fmap_cons, fmap_cons. by rewrite IH.
Qed.
End contract.

(** What servers may differ in: the byte order, the limits and the hash seed of sets,
    allocators, the limits of sorted sets, and [qsort] *)
Record host := Host {
  h_arch : Arch; h_set : SetConfig; h_alloc : Allocator; h_node : NodeAlloc; h_zset : Server; h_qsort : Qsort }.

Definition host_ok (h : host) : Prop :=
  @zset_max_listpack_entries (h_zset h) ≤ 2 ^ 26 ∧ @config_ok (h_set h).

Definition host_abs `{FloatText} (h : host) (d : db) (A : adb) : Prop := @db_abs (h_arch h) (h_alloc h) (h_set h) _ d A.

Definition host_run `{FloatText} `{StrtodErrno} (h : host) (cs : list call) (d : db) : res (db * list (list effect)) :=
  @run (h_arch h) (h_set h) (h_alloc h) (h_node h) _ _ (h_zset h) (h_qsort h) cs d.

(** Two calls of the same command with other random numbers and another state of the
    switch for resizing *)
Definition same_call (c1 c2 : call) : Prop :=
  c1 = Call (c_cmd c2) (c_argv c2) (c_resp c2) (c_random c1) (c_can c1).

Lemma same_calls `{FloatText} `{StrtodErrno} cs1 cs2 : Forall2 same_call cs1 cs2 →
  total_args cs1 = total_args cs2 ∧ ∀ A, lex_oks cs1 A → run_spec cs1 A = run_spec cs2 A ∧ lex_oks cs2 A.
Proof.
  intros Hcs. induction Hcs as [|c1 c2 cs1 cs2 E Hcs [IHt IH]]; [done|]. split.
  - unfold total_args in *. cbn. cbn in IHt. rewrite IHt. by rewrite E.
  - intros A [Hl Hls]. assert (spec c1 A = spec c2 A) as Ec by by rewrite E.
    destruct (IH _ Hls) as [E1 E2]. cbn [run_spec lex_oks]. rewrite <- Ec.
    split; [by destruct (spec c1 A); cbn [fst] in *; rewrite E1|]. split; [by rewrite E in Hl|done].
Qed.

(** C5: two servers with other byte orders, allocators, hash seeds, limits for
    encodings, sort functions and random numbers, whose databases stand for the same maps
    and sets, both run the same commands to their end.  If every lexicographic command
    meets a sorted set whose scores are equal, the replies agree up to the sign of a zero
    score and the order of the elements of a set, which do depend on the encoding, and the
    databases stand for the same maps and sets again. *)
Theorem encodings_equivalent `{FloatTextLaws} `{StrtodErrno} `{!StrtodLaws} h1 h2 cs1 cs2 n N d1 d2 A :
  host_ok h1 → host_ok h2 → host_abs h1 d1 A → host_abs h2 d2 A →
  sets_le n A → (n + total_args cs1 ≤ N)%nat → Z.of_nat N < 2 ^ 32 →
  Forall2 same_call cs1 cs2 → Forall (call_ok N) cs1 → Forall (call_ok N) cs2 →
  ∃ d1' d2' out1 out2 A1 A2,
    host_run h1 cs1 d1 = Ok (d1', out1) ∧ host_run h2 cs2 d2 = Ok (d2', out2) ∧
    host_abs h1 d1' A1 ∧ host_abs h2 d2' A2 ∧ (lex_oks cs1 A → canon_out out1 = canon_out out2 ∧ A1 = A2).
Proof.
  intros [M1 C1] [M2 C2] HA1 HA2 Hn HN Hsz Hcs Hok1 Hok2.
  destruct (same_calls cs1 cs2 Hcs) as [Et Hsame]. unfold host_run, host_abs in *.
  destruct (@run_ok (h_arch h1) (h_set h1) (h_alloc h1) (h_node h1) _ _ _ _ (h_zset h1) (h_qsort h1) cs1 n N d1 A)
    as (d1' & out1 & B1 & o1 & Hr1 & Hp1 & Hd1 & Ho1); [done..|].
  destruct (@run_ok (h_arch h2) (h_set h2) (h_alloc h2) (h_node h2) _ _ _ _ (h_zset h2) (h_qsort h2) cs2 n N d2 A)
    as (d2' & out2 & B2 & o2 & Hr2 & Hp2 & Hd2 & Ho2); [try done; lia..|].
  exists d1', d2', out1, out2, B1, B2. split_and!; [done..|]. intros Hlex. destruct (Hsame A Hlex) as [Es Hlex2].
  destruct (permits_all_spec cs1 A B1 o1 Hlex Hp1) as [-> ->], (permits_all_spec cs2 A B2 o2 Hlex2 Hp2) as [-> ->].
  by rewrite Ho1, Ho2, Es.
Qed.

(** ** Concrete runs *)

(** The libraries of [text_p], for texts of doubles only *)
Definition text_q : FloatText := {|
  fpconv_dtoa := @fpconv_dtoa text_p;
  strtod l := let '(d, rest) := @strtod text_p l in if valid_double d then (d, rest) else (S754_zero false, l) |}.

Lemma text_q_laws : @FloatTextLaws text_q.
Proof.
  destruct text_p_laws as [L1 L2 L3 L4 L5 L6 L7]. split; try done; cbn [strtod fpconv_dtoa text_q].
  - intros s m e Hv. specialize (L3 s m e Hv). destruct (@strtod text_p _) as [d rest]. cbn [fst] in *. subst d. by rewrite Hv.
  - intros v Hv. specialize (L5 v Hv). destruct (@strtod text_p (decs v)) as [d rest]. cbn [fst] in *. subst d.
    by rewrite double_of_ll_valid.
Qed.

(** No errors of [strtod], and a fallback that reads the same *)
Definition errno_q : StrtodErrno := {|
  fast_float_errno _ := None;
  libc_strtod l := (@strtod text_q l, None) |}.

Lemma errno_q_laws : @StrtodLaws text_q errno_q.
Proof.
  assert (∀ s, valid_double (@strtod text_q s).1 = true) as Hv.
  { intros s. cbn [strtod text_q]. destruct (@strtod text_p s) as [d rest]. by destruct (valid_double d) eqn:E. }
  split; try done. intros v Hi. pose proof (text_p_int v Hi) as Hp. cbn [strtod text_q].
  assert ((@strtod text_p (decs v)).2 = []) as Hr.
  { revert Hp. cbn [strtod text_p]. rewrite (string2ll_complete v Hi). by repeat case_match. }
  destruct (@strtod text_p (decs v)) as [d rest]. cbn [fst snd] in *. subst. by rewrite double_of_ll_valid.
Qed.

(** Insertion sort *)
Fixpoint sort_insert {A} (cmp : A → A → Z) (x : A) (l : list A) : list A :=
  match l with [] => [x] | y :: l => if cmp x y <=? 0 then x :: y :: l else y :: sort_insert cmp x l end.

Lemma sort_insert_perm {A} (cmp : A → A → Z) x l : sort_insert cmp x l ≡ₚ x :: l.
Proof. induction l as [|y l IH]; cbn [sort_insert]; [done|]. destruct (_ <=? _); [done|]. rewrite IH. apply Permutation_swap. Qed.

Definition ex_qsort : Qsort.
Proof.
  refine {| qsort A cmp l := foldr (sort_insert cmp) [] l |}.
  intros A cmp l. induction l as [|x l IH]; cbn [foldr]; [done|]. by rewrite sort_insert_perm, IH.
Defined.

(** A server with small limits for sets *)
Definition ex_set_config_small : SetConfig := {|
  set_max_intset_entries := 2; set_max_listpack_entries := 2; set_max_listpack_value := 64;
  hash_seed := ex_seed; hash_seed_ok := conj ex_seed_bytes eq_refl |}.
Definition be_host : Arch := {| big_endian := true |}.

#[local] Existing Instance le_host.
#[local] Existing Instance ex_set_config.
#[local] Existing Instance ex_qsort.
#[local] Existing Instance alloc_exact.
#[local] Existing Instance node_alloc.
#[local] Existing Instance text_q.
#[local] Existing Instance text_q_laws.
#[local] Existing Instance errno_q.
#[local] Existing Instance errno_q_laws.
#[local] Existing Instance ex_server.

Definition ex_key : list Z := chars "k".
Definition ex_key2 : list Z := chars "s".
Definition ex_call (cmd : command) (argv : list (list Z)) : call := Call cmd argv 2 (replicate 840 rnd_stop) DICT_RESIZE_ENABLE.

(** Three elements: the listpack becomes a skiplist at the third. *)
Definition ex_zadd : call := ex_call ZADD [chars "zadd"; ex_key; chars "3"; chars "c"; chars "1"; chars "a"; chars "2"; chars "b"].
Definition ex_pop : call := ex_call ZPOPMIN [chars "zpopmin"; ex_key].
Definition ex_bad : call := ex_call ZADD [chars "zadd"; ex_key; chars "x"; chars "c"].
Definition ex_sadd : call := ex_call SADD [chars "sadd"; ex_key2; chars "7"; chars "x"; chars "5"].
Definition ex_sdiff : call := ex_call SDIFFSTORE [chars "sdiffstore"; ex_key; ex_key2; ex_key].
Definition ex_scard : call := ex_call SCARD [chars "scard"].
(** A lexicographic command on different scores *)
Definition ex_lex : call := ex_call ZREMRANGEBYLEX [chars "zremrangebylex"; ex_key; chars "[b"; chars "+"].

Lemma ex_call_ok n cmd argv : (n ≤ 20)%nat → forallb (λ e, bool_decide (ele_ok e)) argv = true → call_ok n (ex_call cmd argv).
Proof.
  intros Hn Ha. split_and!; [|change (draws (c_random (ex_call cmd argv))) with 840%nat; nia|cbn; lia].
  apply Forall_forall. intros e He. rewrite forallb_forall in Ha. by apply (bool_decide_eq_true (ele_ok e)), Ha, list_elem_of_In.
Qed.

(** The set is added while the key of the sorted set cannot be part of a difference. *)
Lemma commands_refine_witness :
  let cs := [ex_zadd; ex_sadd; ex_sdiff; ex_scard; ex_pop] in
  ∃ d' out, run cs ∅ = Ok (d', out) ∧ db_abs d' (run_spec cs ∅).1 ∧ canon_out out = canon_out (run_spec cs ∅).2 ∧
    (run_spec cs ∅).1 !! ex_key = Some (AZset (<[chars "b" := dbl 2]> {[chars "c" := dbl 3]})) ∧
    (run_spec cs ∅).1 !! ex_key2 = Some (ASet {[chars "5"; chars "7"; chars "x"]}).
Proof.
  intros cs. destruct (commands_refine cs 0 20 ∅ ∅) as (d' & out & B & out' & Hr & _ & HB & Ho & Hl).
  - by vm_compute.
  - by split; vm_compute.
  - apply db_abs_empty.
  - apply sets_le_empty.
  - by vm_compute; lia.
  - done.
  - repeat (constructor; [apply ex_call_ok; [lia|by vm_compute]|]). constructor.
  - rewrite <- Hl by (by repeat split). exists d', out. split_and!; [done|done|done|..].
    + change B with (B, out').1. rewrite Hl by (by repeat split). by vm_compute.
    + change B with (B, out').1. rewrite Hl by (by repeat split). by vm_compute.
Defined.

Definition ex_db : db := match execute ex_zadd ∅ with Ok (d, _) => d | Fault _ => ∅ end.

Lemma reachable_invariant_witness :
  db_wf ex_db ∧ (∃ d' effs, execute ex_pop ex_db = Ok (d', effs)) ∧ (∃ d' effs, execute ex_sadd ex_db = Ok (d', effs)) ∧
  ∃ d' effs, execute ex_lex ex_db = Ok (d', effs).
Proof.
  assert (reachable 20 8 ex_db) as Hr.
  { assert (∃ effs, execute ex_zadd ∅ = Ok (ex_db, effs)) as (effs & He).
    { unfold ex_db. destruct (execute ex_zadd ∅) as [[d effs]|f] eqn:E; [by exists effs|by vm_compute in E]. }
    apply (reach_step 20 0 ∅ ex_zadd ex_db effs); [constructor| |done].
    split; [apply ex_call_ok; [lia|by vm_compute]|by vm_compute; lia]. }
  destruct (reachable_invariant 20 8 ex_db) as [Hwf Hnext]; [by vm_compute|by split; vm_compute|done|done|].
  split_and!; [done|apply Hnext..]; (split; [apply ex_call_ok; [lia|by vm_compute]|by vm_compute; lia]).
Defined.

Lemma command_error_atomic_witness :
  ∃ d' effs, execute ex_bad ∅ = Ok (d', effs) ∧ (∃ e, effs = [e] ∧ is_error e = true) ∧ db_abs d' ∅.
Proof.
  exists ∅, [Reply (ReplyError "value is not a valid float")]. split; [by vm_compute|].
  apply (command_error_atomic ex_bad 0 ∅ ∅).
  - by vm_compute.
  - by split; vm_compute.
  - apply db_abs_empty.
  - apply sets_le_empty.
  - by vm_compute.
  - apply ex_call_ok; [by vm_compute; lia|by vm_compute].
  - by vm_compute.
  - done.
Defined.

(** A database with one of the sets of [ZsetContract] *)
Lemma ex_db_abs `{FloatText} key o M : zset_abs o M → M ≠ ∅ → db_abs {[key := KZset o]} {[key := AZset M]}.
Proof.
  intros HM Hne. rewrite <- !insert_empty. apply db_abs_insert; [apply db_abs_empty|]. by split.
Qed.

Lemma zpop_drains_witness :
  ∃ d' out, @run _ _ _ _ text_p _ _ _ (replicate 2 (pop_call ZSET_MAX ex_key 3)) {[ex_key := KZset ex_zl]} = Ok (d', out) ∧
    @db_abs _ _ _ text_p d' (delete ex_key {[ex_key := AZset ex_map]}) ∧
    popped ∘ fmap canon_eff <$> out = [[(dbl 2, chars "two")]; [(dbl 1, chars "one")]].
Proof.
  apply (@zpop_drains _ _ _ _ text_p text_p_laws _ _ _ ZSET_MAX ex_key 3 {[ex_key := KZset ex_zl]} {[ex_key := AZset ex_map]} ex_map).
  - apply (@ex_db_abs text_p); [apply ex_zl_abs|by vm_compute].
  - apply lookup_singleton_eq.
Defined.

Lemma zrange_whole_witness :
  ∃ d' effs, @zrangeCommand _ text_p {[ex_key := KZset ex_zs]} (zrange_all_args ex_key) 2 = Ok (d', effs) ∧
    @db_abs _ _ _ text_p d' {[ex_key := AZset ex_map]} ∧
    canon_eff <$> effs = [Reply (ReplyArrayLen 4); Reply (ReplyBulk (chars "one")); Reply (ReplyDouble (dbl 1));
                          Reply (ReplyBulk (chars "two")); Reply (ReplyDouble (dbl 2))] ∧
    StronglySorted vlt (zseq ex_map) ∧ zmap (zseq ex_map) = ex_map.
Proof.
  apply (@zrange_whole _ _ _ text_p text_p_laws {[ex_key := KZset ex_zs]} {[ex_key := AZset ex_map]} ex_key ex_map).
  - apply (@ex_db_abs text_p); [apply ex_zs_abs|by vm_compute].
  - apply lookup_singleton_eq.
Defined.

(** A server that keeps up to 512 elements in a listpack *)
Definition ex_server_big : Server := {| zset_max_listpack_entries := 512; zset_max_listpack_value := 64 |}.
Definition ex_host1 : host := Host le_host ex_set_config _ _ ex_server ex_qsort.
Definition ex_host2 : host := Host be_host ex_set_config_small _ _ ex_server_big ex_qsort.

Lemma encodings_equivalent_witness :
  ∃ d1' d2' out1 out2 A',
    host_run ex_host1 [ex_zadd; ex_sadd; ex_pop] ∅ = Ok (d1', out1) ∧
    host_run ex_host2 [ex_zadd; ex_sadd; ex_pop] ∅ = Ok (d2', out2) ∧
    canon_out out1 = canon_out out2 ∧ host_abs ex_host1 d1' A' ∧ host_abs ex_host2 d2' A'.
Proof.
  destruct (encodings_equivalent ex_host1 ex_host2 [ex_zadd; ex_sadd; ex_pop] [ex_zadd; ex_sadd; ex_pop] 0 20 ∅ ∅ ∅)
    as (d1 & d2 & out1 & out2 & A1 & A2 & Hr1 & Hr2 & HA1 & HA2 & Hl).
  - by split; [|split]; vm_compute.
  - by split; [|split]; vm_compute.
  - apply db_abs_empty.
  - apply db_abs_empty.
  - apply sets_le_empty.
  - by vm_compute; lia.
  - done.
  - by repeat constructor.
  - repeat (constructor; [apply ex_call_ok; [lia|by vm_compute]|]). constructor.
  - repeat (constructor; [apply ex_call_ok; [lia|by vm_compute]|]). constructor.
  - destruct Hl as [Ho E]; [by repeat split|]. subst A2.
    exists d1, d2, out1, out2, A1. exact (conj Hr1 (conj Hr2 (conj Ho (conj HA1 HA2)))).
Defined.
