(* ===== verification/ZsetDict.v ===== *)
(** The dictionary of a sorted set.  The model of sorted sets has a finite map from
    elements to nodes where the code has a dictionary of type [zsetDictType]; the
    class [ZDict] says what the sorted sets rely on, and its instance shows that the
    dictionaries of [dict.c] with this type, the SipHash of the element and
    [dictSdsKeyCompare], provide it. *)

From S2P Require Import Prelude Siphash Skiplist Zset.
From S2P Require Import Dict DictApi DictRep DictResize DictOps DictSpec DictLink DictRun SdsDict.

(** ** The operations *)

(** What [t_zset.c] does to the dictionary of a sorted set: [dictFind], [dictAdd],
    [dictFindLink] followed, if the element is not there and [ins] is a node, by
    [dictSetKeyAtLink] with the bucket found; [dictUnlink], [dictDelete],
    [dictExpand], [dictSize], the pauses of automatic resizing around the removal
    of a range, and [dictShrinkIfNeeded]. *)
Inductive zdict_op :=
  | ZFind (k : list Z) | ZAdd (k : list Z) (p : ptr) | ZFindLink (k : list Z) (ins : option ptr)
  | ZUnlink (k : list Z) | ZDelete (k : list Z) | ZExpand (size : Z) | ZSize
  | ZPauseAutoResize | ZResumeAutoResize | ZShrinkIfNeeded.

(** The node found or unlinked, whether the operation succeeded, the number of
    elements *)
Inductive zdict_reply := ZNode (p : option ptr) | ZDone (ok : bool) | ZCount (n : Z).

Definition is_some {A} (x : option A) : bool := match x with Some _ => true | None => false end.

(** The same on a map *)
Definition zmap_exec (z : zdict) (op : zdict_op) : zdict * zdict_reply :=
  match op with
  | ZFind k => (z, ZNode (zdict_find z k))
  | ZAdd k p => (default z (zdict_add z k p), ZDone (is_some (zdict_add z k p)))
  | ZFindLink k ins =>
      (match zdict_find z k, ins with None, Some p => zdict_set z k p | _, _ => z end, ZNode (zdict_find z k))
  | ZUnlink k => ((zdict_unlink z k).1, ZNode (zdict_unlink z k).2)
  | ZDelete k => (zdict_delete z k, ZDone (is_some (zdict_find z k)))
  | ZSize => (z, ZCount (Z.of_nat (size z)))
  | _ => (z, ZDone true)
  end.

(** How many pauses of automatic resizing are open *)
Definition zdict_pauses (n : Z) (op : zdict_op) : Z :=
  match op with ZPauseAutoResize => n + 1 | ZResumeAutoResize => n - 1 | _ => n end.

(** Which operations are allowed with [n] open pauses: elements satisfy [key],
    [dictAdd] is not called during a pause, and each end of a pause has its beginning. *)
Definition zdict_op_ok (key : list Z → Prop) (n : Z) (op : zdict_op) : Prop :=
  match op with
  | ZFind k | ZUnlink k | ZDelete k | ZFindLink k _ => key k
  | ZAdd k _ => key k ∧ n = 0
  | ZExpand size => 0 ≤ size ≤ UINT64_MAX
  | ZPauseAutoResize => n < 32767
  | ZResumeAutoResize => 0 < n
  | _ => True
  end.

(** ** The interface *)

(** [zd_rep d z n p]: the dictionary [d] stands for the map [z] of at most [n]
    elements, with [p] open pauses.  Every operation may change the dictionary, also
    a search, which rehashes. *)
Class ZDict (D : Type) := {
  zd_key : list Z → Prop;
  zd_rep : D → zdict → Z → Z → Prop;
  zd_create : D;
  zd_exec : dictResizeEnable → D → zdict_op → res (D * zdict_reply);
  zd_create_ok : zd_rep zd_create ∅ 0 0;
  zd_exec_ok can d z n p op : zd_rep d z n p → n < UINT64_MAX → zdict_op_ok zd_key p op →
    ∃ d', zd_exec can d op = Ok (d', (zmap_exec z op).2) ∧
      zd_rep d' (zmap_exec z op).1 (n + 1) (zdict_pauses p op) }.

(** ** [zsetDictType] *)

(** What is stored is a node: its element and its address.  [cast] is a node taken
    for a string. *)
Definition zsetDictType (seed : list Z) (cast : zkey * ptr → zkey) : dictType zkey (zkey * ptr) :=
  DictType (λ k, dictSdsHash seed (`k)) (λ a b, dictSdsKeyCompare (`a) (`b)) fst cast None true false.

(** ** The dictionaries of [dict.c] provide the interface *)

Section zdict.
Context (seed : list Z) (cast : zkey * ptr → zkey).
Context (seed_bytes : Forall is_byte seed) (seed_len : zlen seed = 16).

Abbreviation ty := (zsetDictType seed cast).
Abbreviation item := ((zkey * ptr) * option unit)%type.

Lemma zsetDictType_laws : DictLaws ty.
Proof. by apply (sds_laws seed). Qed.
#[local] Existing Instance zsetDictType_laws.

(** The entry of an element is its node, without a value. *)
Definition node_item (k : zkey) (p : ptr) : item := ((k, p), None).

Record zrel (m : gmap zkey item) (z : zdict) : Prop := {
  zr_lookup : ∀ k : zkey, m !! k = node_item k <$> z !! `k;
  zr_dom : ∀ k, is_Some (z !! k) → sds_ok k }.

Record dict_zrep (d : dict (zkey * ptr) unit) (z : zdict) (n p : Z) : Prop := {
  zdr_ok : dict_ok ty d;
  zdr_rel : zrel (dict_map ty d) z;
  zdr_pauses : pauseAutoResize d = p;
  zdr_range : 0 ≤ p ≤ 32767;
  zdr_size : Z.of_nat (size (dict_map ty d)) ≤ n }.

(** An operation of [dict.c] on the key of an element *)
Definition with_key {A} (k : list Z) (f : zkey → res A) : res A := key ← sds_key k; f key.

Definition item_ptr (x : option item) : option ptr := (λ x, x.1.2) <$> x.
Definition is_ok (r : dict_result) : bool := match r with DICT_OK => true | DICT_ERR => false end.

Definition dict_zexec (can : dictResizeEnable) (d : dict (zkey * ptr) unit) (op : zdict_op)
    : res (dict (zkey * ptr) unit * zdict_reply) :=
  match op with
  | ZFind k => with_key k (λ key, '(d, he) ← dictFind ty can d key; Ok (d, ZNode (item_ptr (entry_item he))))
  | ZAdd k p => with_key k (λ key, '(d, r) ← dictAdd ty can d (key, p) tt; Ok (d, ZDone (is_ok r)))
  | ZFindLink k ins =>
      with_key k (λ key,
        '(d, link, bucket) ← dictFindLink ty can d key true;
        match link with
        | Some l => de ← link_get d l; n ← dictGetKey de; Ok (d, ZNode (Some n.2))
        | None =>
            match ins with
            | Some p => '(d, _) ← dictSetKeyAtLink ty can d (key, p) bucket true; Ok (d, ZNode None)
            | None => Ok (d, ZNode None)
            end
        end)
  | ZUnlink k => with_key k (λ key, '(d, he) ← dictUnlink ty can d key; Ok (d, ZNode (item_ptr (entry_item he))))
  | ZDelete k => with_key k (λ key, '(d, r) ← dictDelete ty can d key; Ok (d, ZDone (is_ok r)))
  | ZExpand size => '(d, _) ← dictExpand ty can d size; Ok (d, ZDone true)
  | ZSize => Ok (d, ZCount (dictSize d))
  | ZPauseAutoResize => Ok (dictPauseAutoResize d, ZDone true)
  | ZResumeAutoResize => Ok (dictResumeAutoResize d, ZDone true)
  | ZShrinkIfNeeded => '(d, _) ← dictShrinkIfNeeded ty can d; Ok (d, ZDone true)
  end.

Lemma with_key_ok {A} k (f : zkey → res A) (H : sds_ok k) : ∃ key : zkey, `key = k ∧ with_key k f = f key.
Proof. unfold with_key. destruct (sds_key_ok k H) as (key & E & ->). rs. by exists key. Qed.

Lemma zrel_item m z (key : zkey) : zrel m z → item_ptr (m !! key) = z !! `key.
Proof. intros Z. unfold item_ptr. rewrite (zr_lookup _ _ Z). by destruct (z !! _). Qed.

Lemma zrel_insert m z (key : zkey) p : zrel m z → zrel (<[key := node_item key p]> m) (<[`key := p]> z).
Proof.
  intros [L D]. constructor.
  - intros k. destruct (decide (key = k)) as [->|N]; [by rewrite !lookup_insert_eq|].
    rewrite !lookup_insert_ne; [apply L| |done]. intros E. by apply N, dsig_eq.
  - intros k. rewrite lookup_insert_is_Some. intros [<-|[_ ?]]; [apply (proj2_dsig key)|auto].
Qed.

Lemma zrel_delete m z (key : zkey) : zrel m z → zrel (delete key m) (delete (`key) z).
Proof.
  intros [L D]. constructor.
  - intros k. destruct (decide (key = k)) as [->|N]; [by rewrite !lookup_delete_eq|].
    rewrite !lookup_delete_ne; [apply L| |done]. intros E. by apply N, dsig_eq.
  - intros k. rewrite lookup_delete_is_Some. intros [_ ?]. auto.
Qed.

#[local] Instance proj_inj : Inj (=) (=) (λ k : zkey, `k).
Proof. intros a b E. by apply dsig_eq. Qed.

(** The entries and the elements are as many. *)
Lemma zrel_size m z : zrel m z → size z = size m.
Proof.
  intros [L D]. assert (z = kmap (λ k : zkey, `k) ((λ x : item, x.1.2) <$> m)) as ->.
  - apply map_eq. intros k. apply option_eq. intros p. rewrite (lookup_kmap_Some (λ k : zkey, `k)). setoid_rewrite lookup_fmap.
    setoid_rewrite L. split.
    + intros E. assert (sds_ok k) as Hk by eauto. destruct (sds_key_ok k Hk) as (key & <- & _). exists key.
      by rewrite E.
    + intros (key & -> & E). by destruct (z !! `key).
  - rewrite <- (map_size_fmap (λ x : item, x.1.2) m), <- !length_map_to_list, (map_to_list_kmap (λ k : zkey, `k)).
    by rewrite length_fmap.
Qed.

Section step.
Context (can : dictResizeEnable) (d : dict (zkey * ptr) unit) (z : zdict) (n p : Z).
Context (R : dict_zrep d z n p) (Hn : n < UINT64_MAX).

Lemma zrel_valued m y : zrel m y → valued ty m.
Proof. intros Z key k v. rewrite (zr_lookup _ _ Z). destruct (y !! `key); [|done]. by intros [= _ <-]. Qed.

Lemma becomes_zrep m d' z' : becomes ty d m d' → zrel m z' → (size m ≤ S (size (dict_map ty d)))%nat →
  dict_zrep d' z' (n + 1) p.
Proof.
  destruct R. intros [D' <- [_ A]] Z Hm. constructor; [done|done|by rewrite A|done|lia].
Qed.

Lemma same_zrep d' : becomes ty d (dict_map ty d) d' → dict_zrep d' z (n + 1) p.
Proof. intros B. eapply becomes_zrep; [exact B|apply R|lia]. Qed.

Lemma zrep_room : room ty d.
Proof. destruct R. unfold room. lia. Qed.

Definition zstep (op : zdict_op) : Prop :=
  ∃ d', dict_zexec can d op = Ok (d', (zmap_exec z op).2) ∧
    dict_zrep d' (zmap_exec z op).1 (n + 1) (zdict_pauses p op).

Lemma zfind_ok k : sds_ok k → zstep (ZFind k).
Proof.
  intros Hk. unfold zstep. cbn [dict_zexec zmap_exec fst snd]. unfold zdict_find.
  match goal with |- context [with_key k ?f] => destruct (with_key_ok k f Hk) as (key & <- & ->) end.
  destruct (dictFind_ok ty can d key (zdr_ok _ _ _ _ R)) as (d' & he & -> & B & L & _). rs. exists d'.
  split; [|by apply same_zrep]. unfold entry_item. by rewrite <- L, (zrel_item _ _ _ (zdr_rel _ _ _ _ R)).
Qed.

Lemma zadd_ok k q : sds_ok k → p = 0 → zstep (ZAdd k q).
Proof.
  intros Hk Hp. unfold zstep. cbn [dict_zexec zmap_exec fst snd]. unfold zdict_add.
  match goal with |- context [with_key k ?f] => destruct (with_key_ok k f Hk) as (key & <- & ->) end.
  destruct R as [D Z A _ _]. destruct (dictAdd_ok ty can d (key, q) tt key D) as (d' & r & -> & Q);
    [left; lia|apply zrep_room|done|]. rs. exists d'. rewrite (zr_lookup _ _ Z) in Q.
  destruct (z !! `key) as [x|]; cbn in Q |- *; destruct Q as [-> B]; (split; [done|]).
  - by apply same_zrep.
  - eapply becomes_zrep; [exact B|by apply zrel_insert|apply size_insert_le].
Qed.

Lemma zfindlink_ok k ins : sds_ok k → zstep (ZFindLink k ins).
Proof.
  intros Hk. unfold zstep. cbn [dict_zexec zmap_exec fst snd]. unfold zdict_find, zdict_set.
  match goal with |- context [with_key k ?f] => destruct (with_key_ok k f Hk) as (key & <- & ->) end.
  destruct R as [D Z A _ _]. destruct (dictFindLink_ok ty can d key true D) as (d1 & r & b & -> & S & F & Q1 & Q2). rs.
  pose proof (st_ok _ _ _ (stp_stays _ _ _ S)) as D1. pose proof (found_map ty d1 key r D1 F) as Fm.
  pose proof (stays_map ty d d1 D (stp_stays _ _ _ S)) as M1. rewrite M1 in Fm.
  pose proof (steps_becomes ty d d1 D S) as B1. destruct r as [l|].
  - destruct Fm as (x & L & Lo). destruct (located_get ty d1 key l x D1 Lo) as (e & tl & -> & _ & C). rs.
    rewrite (zr_lookup _ _ Z) in L. destruct (z !! `key) as [y|]; [|done]. injection L as <-.
    assert (dictGetKey e = Ok (key, y)) as -> by (unfold node_item in C; destruct e; cbn in C |- *; by simplify_eq). rs.
    exists d1. split; [done|by apply same_zrep].
  - rewrite (zr_lookup _ _ Z) in Fm. destruct (z !! `key) as [y|] eqn:Ez; [done|]. destruct ins as [q|].
    + destruct (dictSetKeyAtLink_new ty can d1 (key, q) key b D1) as (d2 & l & -> & B & _).
      { unfold room. rewrite M1. apply zrep_room. }
      { destruct b as [b|]; [|done]. destruct (Z.eq_dec (dictSize d) 0) as [E|E]; [by specialize (Q2 E)|].
        by destruct (Q1 eq_refl eq_refl E) as [[= ->] A1]. }
      { done. }
      { by rewrite M1, (zr_lookup _ _ Z), Ez. }
      rs. exists d2. split; [done|]. rewrite M1 in B.
      eapply becomes_zrep; [by eapply becomes_trans|by apply zrel_insert|apply size_insert_le].
    + exists d1. split; [done|by apply same_zrep].
Qed.

Lemma zremove_ok k : sds_ok k → zstep (ZUnlink k) ∧ zstep (ZDelete k).
Proof.
  intros Hk. unfold zstep. cbn [dict_zexec zmap_exec fst snd]. unfold zdict_unlink, zdict_delete, zdict_find. cbn [fst snd].
  destruct R as [D Z A _ _]. split;
    (match goal with |- context [with_key k ?f] => destruct (with_key_ok k f Hk) as (key & <- & ->) end);
    unfold dictUnlink, dictDelete; destruct (dictGenericDelete_ok ty can d key D) as (d' & he & -> & B & L & E); rs;
    exists d'; (split; [|eapply becomes_zrep; [exact B|by apply zrel_delete|apply size_delete_le]]).
  - unfold entry_item. by rewrite <- L, (zrel_item _ _ _ Z).
  - do 3 f_equal. rewrite (zr_lookup _ _ Z) in E. destruct he, (z !! `key); cbn in *; [done| | |done].
    + by pose proof (proj2 E eq_refl).
    + by pose proof (proj1 E eq_refl).
Qed.

Lemma zresize_ok sz : 0 ≤ sz → zstep (ZExpand sz) ∧ zstep ZShrinkIfNeeded ∧ zstep ZSize.
Proof.
  intros Hs. unfold zstep. cbn [dict_zexec zmap_exec fst snd]. destruct R as [D Z A _ _]. split_and!.
  - destruct (dictExpand_ok ty can d sz D Hs) as (d' & r & -> & [S _ _]). rs. exists d'.
    split; [done|]. by apply same_zrep, stays_becomes.
  - destruct (dictShrinkIfNeeded_ok ty can d D) as (d' & r & -> & [S _ _]). rs. exists d'.
    split; [done|]. by apply same_zrep, stays_becomes.
  - exists d. rewrite (dictSize_map ty d D), (zrel_size _ _ Z). split; [done|]. by apply same_zrep, becomes_refl.
Qed.

Lemma zpause_ok : (p < 32767 → zstep ZPauseAutoResize) ∧ (0 < p → zstep ZResumeAutoResize).
Proof.
  unfold zstep. cbn [dict_zexec zmap_exec fst snd]. destruct R as [D Z A P Sz].
  assert (∀ a, dict_ok ty (Dict (ht0 d) (ht1 d) (rehashidx d) (pauserehash d) a)) as Dp
    by (intros a; apply dict_ok_pause; [done|apply D]).
  split; intros Hp; (eexists; split; [done|]); constructor; try (by apply Dp); try exact Z; try (cbn [zdict_pauses]; lia).
  - cbn [pauseAutoResize dictPauseAutoResize zdict_pauses]. rewrite A. apply (wraps_small 16); lia.
  - change (Z.of_nat (size (dict_map ty d)) ≤ n + 1). lia.
  - cbn [pauseAutoResize dictResumeAutoResize zdict_pauses]. rewrite A. apply (wraps_small 16); lia.
  - change (Z.of_nat (size (dict_map ty d)) ≤ n + 1). lia.
Qed.

Lemma dict_zexec_ok op : zdict_op_ok sds_ok p op → zstep op.
Proof.
  destruct op as [k|k q|k ins|k|k|sz| | | |]; cbn [zdict_op_ok]; intros Ho.
  - by apply zfind_ok.
  - destruct Ho. by apply zadd_ok.
  - by apply zfindlink_ok.
  - by apply zremove_ok.
  - by apply zremove_ok.
  - apply zresize_ok; lia.
  - by apply (zresize_ok 0).
  - by apply zpause_ok.
  - by apply zpause_ok.
  - by apply (zresize_ok 0).
Qed.
End step.

Lemma dict_zcreate_ok : dict_zrep dictCreate ∅ 0 0.
Proof.
  constructor; [apply dictCreate_ok| |done|done|done]. constructor; [done|]. intros k. rewrite lookup_empty. by intros [].
Qed.

#[export] Instance dict_ZDict : ZDict (dict (zkey * ptr) unit) := {|
  zd_key := sds_ok; zd_rep := dict_zrep; zd_create := dictCreate; zd_exec := dict_zexec;
  zd_create_ok := dict_zcreate_ok;
  zd_exec_ok can d z n p op R Hn := dict_zexec_ok can d z n p R Hn op |}.
End zdict.

(** ** Sequences of operations on any such dictionary *)

Fixpoint zd_run {D} `{ZDict D} (d : D) (ops : list (dictResizeEnable * zdict_op)) : res (D * list zdict_reply) :=
  match ops with
  | [] => Ok (d, [])
  | (can, op) :: ops =>
      '(d, r) ← zd_exec can d op;
      '(d, rs) ← zd_run d ops;
      Ok (d, r :: rs)
  end.

Fixpoint zmap_run (z : zdict) (ops : list (dictResizeEnable * zdict_op)) : zdict * list zdict_reply :=
  match ops with
  | [] => (z, [])
  | (_, op) :: ops =>
      let '(z, r) := zmap_exec z op in
      let '(z, rs) := zmap_run z ops in
      (z, r :: rs)
  end.

(** Every operation is allowed where it is. *)
Fixpoint zdict_ops_ok (key : list Z → Prop) (p : Z) (ops : list (dictResizeEnable * zdict_op)) : Prop :=
  match ops with
  | [] => True
  | (_, op) :: ops => zdict_op_ok key p op ∧ zdict_ops_ok key (zdict_pauses p op) ops
  end.

Lemma zd_run_ok {D} `{ZDict D} ops (d : D) z n p : zd_rep d z n p → n + zlen ops ≤ UINT64_MAX → zdict_ops_ok zd_key p ops →
  ∃ d' p', zd_run d ops = Ok (d', (zmap_run z ops).2) ∧ zd_rep d' (zmap_run z ops).1 (n + zlen ops) p'.
Proof.
  revert d z n p. induction ops as [|[can op] ops IH]; intros d z n p R Hn F; cbn [zd_run zmap_run].
  { exists d, p. cbn. by rewrite Z.add_0_r. }
  destruct F as [Fo F]. cbn [length] in Hn. destruct (zd_exec_ok can d z n p op R) as (d1 & -> & R1); [lia|done|]. rs.
  destruct (zmap_exec z op) as [z1 r1]. cbn [fst snd] in *.
  destruct (IH d1 z1 (n + 1) _ R1) as (d2 & p2 & -> & R2); [lia|done|]. rs.
  destruct (zmap_run z1 ops) as [z2 rs2]. cbn [fst snd] in *. exists d2, p2. split; [done|].
  replace (n + zlen ((can, op) :: ops)) with (n + 1 + zlen ops) by (cbn; lia). done.
Qed.

(** C8: The finite map that stands for the dictionary in the model of sorted sets is
    what [dict.c] implements.  With the type of their dictionaries, any sequence of
    [dictFind], [dictAdd], [dictFindLink] and [dictSetKeyAtLink], [dictUnlink],
    [dictDelete], [dictExpand], [dictSize], [dictShrinkIfNeeded] and pauses of
    automatic resizing, with [dict_can_resize] chosen anew for each, on elements
    shorter than [2 ^ 31] bytes, runs without a fault and returns what the same
    operations return on the map; [dictAdd] is not called during a pause. *)
Theorem zset_dict_refines seed cast (Hs : Forall is_byte seed) (Hl : zlen seed = 16) ops :
  zlen ops ≤ UINT64_MAX → zdict_ops_ok sds_ok 0 ops →
  ∃ d p, @zd_run _ (dict_ZDict seed cast Hs Hl) dictCreate ops = Ok (d, (zmap_run ∅ ops).2) ∧
    dict_zrep seed cast d (zmap_run ∅ ops).1 (zlen ops) p.
Proof.
  intros Hn F. by apply (@zd_run_ok _ (dict_ZDict seed cast Hs Hl) ops dictCreate ∅ 0 0); [apply dict_zcreate_ok|..].
Qed.

Definition ex_zops : list (dictResizeEnable * zdict_op) :=
  (pair DICT_RESIZE_ENABLE <$>
    [ZExpand 8; ZAdd (chars "alice") 1; ZAdd (chars "bob") 2; ZAdd (chars "alice") 3; ZFindLink (chars "carol") (Some 4);
     ZFindLink (chars "carol") (Some 5)]%positive) ++
  (pair DICT_RESIZE_AVOID <$>
    [ZUnlink (chars "bob"); ZPauseAutoResize; ZDelete (chars "carol"); ZResumeAutoResize; ZSize; ZShrinkIfNeeded;
     ZFind (chars "alice")]).

Lemma zset_dict_refines_witness :
  zdict_ops_ok sds_ok 0 ex_zops ∧
  (zmap_run ∅ ex_zops).2 =
    [ZDone true; ZDone true; ZDone true; ZDone false; ZNode None; ZNode (Some 4%positive); ZNode (Some 2%positive);
     ZDone true; ZDone true; ZDone true; ZCount 1; ZDone true; ZNode (Some 1%positive)] ∧
  ∃ d p, @zd_run _ (dict_ZDict ex_seed fst ex_seed_bytes eq_refl) dictCreate ex_zops = Ok (d, (zmap_run ∅ ex_zops).2) ∧
    dict_zrep ex_seed fst d (zmap_run ∅ ex_zops).1 13 p.
Proof.
  assert (zdict_ops_ok sds_ok 0 ex_zops) as F.
  { unfold ex_zops. cbn [zdict_ops_ok app fmap list_fmap zdict_op_ok zdict_pauses]. split_and!; try lia;
      apply (bool_decide_unpack _); vm_compute; exact I. }
  split; [exact F|]. split; [vm_compute; reflexivity|].
  apply (zset_dict_refines ex_seed fst ex_seed_bytes eq_refl ex_zops); [vm_compute; discriminate|exact F].
Defined.
